(* ===== verification/_CoqProject ===== *)
-Q . S2P
Prelude.v
Errors.v
Bytes.v
Wire.v
Request.v
Structure.v
Expression.v
Filter.v
Catalog.v
Admission.v
Frame.v
Search.v
Trace.v
Batch.v
Config.v
Results.v
Aggregation.v
Shape.v
Queue.v
Lanes.v
Budget.v
Response.v
Identity.v
Text.v
Spans.v
Analysis.v
Canonical.v
Normal.v
Membership.v
Deadline.v
Plan.v
Prepared.v
Tokens.v
Matching.v
Page.v
Trails.v
Paging.v
Gathering.v
Probing.v
Harvesting.v
Trailing.v
TracePage.v
Sample.v
Scores.v
Failures.v
Collecting.v
Hits.v
Ranking.v
Merging.v
Searching.v
Versions.v
Searched.v
Answers.v
SearchSample.v
SearchPages.v
Engine.v
Query.v
Opening.v
Writing.v
Doubles.v
Selecting.v
Clauses.v
Selected.v
Filtered.v
Metrics.v
Status.v
Tickets.v
Ledger.v
Maxima.v
Native.v
Costs.v
Budgeted.v
Sorting.v
SortFits.v
Collection.v
Collected.v
CatalogPages.v
Queried.v
Committed.v
