(* ===== verification/Prelude.v ===== *)
(** * Verification of the HarperFast full-text engine

    The program is an embedded full-text index for Node: a Rust crate
    (src/src/*.rs) that wraps Tantivy, reached through N-API.  A request arrives
    as a packed frame, is classified and queued, decoded and admitted, run by
    the engine under a deadline, and answered with a packed response.  This
    library models that path as executable definitions, translated from the
    source function by function, and proves what each part promises.

    ** How the parts interact

<<
      bytes ──► Wire ─► Structure ─► Expression / Filter / Catalog ─► Search
                                                                      Trace
                                                                      Batch
                                                                      Config
      typed requests ──► Admission, Aggregation (the same checks by hand)
      native.rs:  Queue ─► Lanes (three queues, workers)   Budget (process-wide)
      engine.rs:  Identity, Canonical          the identity of an index
                  Opening, Writing             opening an index, and writing to it
                  Normal, Text, Spans,
                  Analysis                     characters, spans, token streams
                  Membership, Plan, Prepared   what a trace must decide
                  Tokens, Matching             one value against one plan
                  Page, Paging                 a page of a single clause
                  Trails, Gathering, Probing,
                  Harvesting, Trailing         a page of an expression
                  TracePage, Sample            the promises, and an engine
                  Collecting, Hits, Ranking    what a search collects
                  Searching, Engine            the strategies, and whole searches
                  Query, Selecting             the query of a request, and its meaning
                  Committed                    from what was published to what is found
      catalog.rs: Native, Maxima, Costs        aggregations and their budget
      catalog_sort.rs: Sorting                 sort keys and their budget
                  Collection                   the catalog of a search
      telemetry.rs: Metrics, Tickets, Ledger, Status
      responses:  Results, Response ──► bytes
>>

    ** The files and the code

    - [Prelude]: lengths as machine integers, sums, [Vec::dedup].
    - [Errors] (error.rs): [FulltextError], and [outcome], the result of a Rust
      call: a value, a coded error, a panic, or fuel spent.  Index, arithmetic
      and [unwrap] panics are values of the model, so a theorem that says
      [tame] also says that the code does not panic.
    - [Bytes]: little-endian integers, UTF-8 validity, IEEE bit patterns (on the
      specification floats of the Standard Library).
    - [Wire] (protocol.rs, [Cursor]): the reader of frames, as a state monad over
      the frame and an offset; [Spec] and [Parses] are the contracts every
      decoder above it is proved against.
    - [Request] (protocol.rs, catalog.rs): one Module per struct or enum.
    - [Structure] (protocol.rs): [SearchStructureBudget], [visit],
      [validate_search_structure].
    - [Expression], [Filter], [Catalog] (protocol.rs): the decoders of the three
      parts of a search and the scans that classify it without allocating.
    - [Admission] (request_validation.rs): [validate_search_admission],
      [validate_trace_admission] and the filters.
    - [Frame], [Search] ([decode_search], [classify_search]), [Trace]
      ([decode_trace]), [Batch] ([decode_batch]), [Config] ([decode_open],
      [decode_inspect], [decode_reset], [decode_runtime_budget]).
    - [Aggregation] (catalog.rs, [validate_requests]), [Results] (catalog.rs,
      [Encoder], [encode_results], over bounded accumulators).
    - [Queue], [Lanes], [Budget] (native.rs): [BoundedQueue] with [QueueBudget]
      and [QueueWake]; the queues of [Runtime::start]; [RuntimeBudget].
    - [Response] (native.rs): the response bodies and envelope, and what they
      determine.
    - [Identity] (engine.rs, lifecycle.rs): [identity_bytes],
      [persisted_index_id].  [Canonical]: [canonical_identity] of synonyms.
    - [Opening] (engine.rs, [Engine::inspect], [Engine::open], [build_schema],
      [build_analyzer], [validated_committed_payload]): a computation over a
      directory that may fail at every call.  [Writing] (engine.rs, [Writer],
      [Engine::writer_with_payload]): batches, commits, rollbacks.  [Committed]:
      opening, writing and searching together.
    - [Normal] (engine.rs): [MappedNfkc], [MappedCharacters],
      [is_stream_safe_nfkc].
    - [Text], [Spans], [Analysis] (engine.rs): [utf16_offsets], [source_span],
      [within_one_edit], [prefix_end]; [NfkcTokenStream], the possessive and
      synonym filters.
    - [Membership] (engine.rs): [TraceExpression::evaluate], [TraceProgress].
    - [Deadline] (engine.rs, [check_deadline]).  [Plan]: [TracePlan],
      [trace_plan], [prepare_trace_expression], [query_terms].
    - [Tokens]: [source_tokens], [trace_tokens], [trace_value].
    - [Page]: [trace_matches_inner] on a clause.  [Trails]: [trace_expression].
    - [Prepared], [Matching], [Paging], [Gathering], [Probing], [Harvesting],
      [Trailing], [TracePage]: the specifications of tracing and their proofs.
    - [Sample]: a concrete engine (a word analyzer over two fields) on which the
      theorems about traces are run.
    - [Scores], [Failures]: the best [n] of a list, scores, and the
      mapping of index errors to codes (engine.rs, catalog.rs).
    - [Collecting] (catalog.rs, [DeadlineCollector]); [Hits], [Ranking], [Merging]
      (engine.rs): hits of a segment, [StableScoreTieCollector] and the traversal
      collector, merged fruits.  [Searching]: [collect_search] with its four
      strategies, [count_matches], [search_hits].  [Engine]: [search_inner],
      [search_snapshot].
    - [Versions], [Searched], [Answers], [SearchPages]: their specifications;
      [SearchSample]: an index of two segments.
    - [Query] (engine.rs, [query], [expression_query], [clause_query],
      [filter_query] and what they call): the query tree of a request.
      [Selecting]: which documents a query of the index crate matches, and which
      a request asks for; [Doubles], [Clauses], [Selected], [Filtered]: the proofs
      that the two agree, by mode, expression and filter; [Queried]: whole
      searches over an index that collects what a query matches.
    - [Shape] (catalog.rs, [check_aggregation_shape]); [Native]: the requests
      built for the index crate, [histogram_checks], [finish_aggregations];
      [Maxima]: the cache of longest terms, [max_dictionary_key]; [Costs]:
      [check_terms_budget].
    - [Sorting] (catalog_sort.rs): [comparator], [DynamicComparator],
      [accept_sort_key_lazy], [check_budget]; [Collection]:
      [collect_native] and the methods of [ValidatedCatalog].
    - [Budgeted], [SortFits], [Collected], [CatalogPages]: what they decide and
      return, with a catalog over [SearchSample].
    - [Metrics] (telemetry.rs): counters, tickets, latencies, reader statistics;
      [Status]: the JSON of a status page; [Tickets], [Ledger]: the calls on them
      as a step relation.

    ** What the theorems show

    - Frames.  A byte string decodes to a request exactly when it is an encoding
      of it and the request is admissible ([decode_search_iff],
      [decode_trace_iff], [decode_batch_iff], [decode_open_iff]); every other
      byte string is an invalid argument.  The scan that classifies a search
      without decoding it agrees with the decoder ([classify_search_decoded]).
    - Checks.  Each validator accepts exactly what its limits say
      ([validate_search_structure_iff], [validate_search_admission_iff],
      [validate_requests_iff]).
    - Tracing.  Whatever the deadline, a trace returns an invalid argument,
      times out or answers, and never panics; its answer decides records only the
      way the search does on whole values ([trace_page_decides],
      [trace_expression_decides]), reports nothing that was not found and, when
      it claims to be complete, everything ([trace_page_exact],
      [trace_expression_exact]); it makes progress ([trace_page_progress]) and
      fits in a response ([trace_page_bounded]).
    - Searching.  A plain search answers with the page of the reference ranking
      (higher scores, then smaller IDs), whichever strategy collects it, and the
      totals it claims ([search_page], [strategies_agree]); pages of a traversal
      follow each other ([traversal_page]).  A whole search, its catalog collected
      by the catalog's own code, keeps its promise or fails with a coded error
      ([search_catalog_promise]), and over an index that collects the documents a
      query matches it pages through exactly the documents the request asks for
      ([search_finds_asked]); put together with a writer, those are the documents
      that were published ([search_finds_published]).
    - Opening.  Whatever call fails on the way, an existing sidecar and index are
      left as they are and a sidecar is there before its index; when no call
      fails, what is there decides the outcome ([open_decides]).  A creation that
      was cut short is resumed ([create_resumes]), and inspection agrees with
      opening ([inspect_agrees]).
    - Writing.  A batch is accepted exactly when it is admissible and becomes
      exactly the documents it describes ([prepare_iff]); a writer refines a map
      from IDs to documents with what is pending and what is published
      ([writer_refines_store]); an index with a checkpoint keeps one whatever
      happens ([checkpoint_kept]).
    - Normalisation.  The characters the tokenizer reads are the text in NFKC
      after it was made stream-safe, with spans of the source
      ([token_characters_nfkc]), and at most thirty combining characters are held
      back ([pending_bounded]).
    - Queries.  The query built for a request matches a document exactly when the
      request asks for it ([query_selects_asked]): the words, phrases, prefixes and
      fuzzy words of its clauses (fuzzy as the matchers of the traces have it), its
      boolean structure, candidates and filters; the clauses counted bound the
      query ([expression_leaves_bounded]).
    - Catalogs.  A sorted catalog returns the page in the order of its sort,
      whatever key collects it ([sorted_catalog_page]); every aggregation is
      answered, in order and in kind ([aggregations_answered]); the budgets of
      aggregations and sorts decide by what is needed ([terms_budget_decided],
      [sort_budget_decided]); reading sort keys lazily is reading them all
      ([accept_lazily]).
    - Telemetry.  In every interleaving the counters of a status page balance
      ([counters_balance]) and its sizes are those of its reader
      ([reader_bytes_current]).
    - Queues and budgets.  In every interleaving of the operations the limits
      hold, no command is lost or invented, a wakeup is never missed and no
      counter underflows ([Lanes], [Budget]).
    - Responses determine what they carry and have the size that was checked.
    - The text routines meet their references: UTF-16 spans, one-edit distance,
      prefix ranges, the English possessive, synonyms and their canonical form.

    ** State, time and concurrency

    A critical section of native.rs is one step of a transition relation, because
    the code holds the mutex for all of it; threads are the interleavings of
    these steps ([Lanes.runs], [Budget.process_steps], [Ledger.reachable]), with the atomics read
    outside of a lock as values of their own.  A deadline is the number of checks
    left before the clock passes it ([Deadline.Clock], an option for a run without
    one): time only advances, so every run of the code is one of these, and the
    theorems hold for each.  [Timed] is the contract of a timed computation; the
    catalog also threads the cache of the process ([Maxima.Session]), with [Runs]
    as its contract.

    ** Parameters

    The code relies on crates that are not part of the repository.  The Unicode
    tables ([Unicode]; for normalisation [Tables] with [TablesLaws]), the
    Levenshtein automata ([Automata]) and the token
    streams of a configured analyzer (fields of [Plan.Engine]) are parameters.
    Named hypotheses state what is relied on: [automata_total] (every automaton
    builds), [analyzer_ok] (the positions of query tokens increase, and no token
    is the private marker of prefixes), [stream_ok] (the positions of index tokens
    never decrease) and [engine_ok], which also asks that the field lookup is in
    bounds and that the empty text has no surface token.  [Sample] instantiates
    all of them.

    The index crate is behind classes: [Segments], [Columns], [FastFields] and
    [Dictionaries] are what is read of a segment, [Searcher], [Counting] and
    [CatalogSearch] the searches it runs, [TopNComputer] and [Comparators] its
    collectors' parts, [Layout] the sizes of its values.  Their laws say that
    failures are coded, that segments are immutable and their columns sorted, that
    a search gives every segment to the collector and merges the fruits, and that
    the best [n] are the best [n]; [SortValues] is what documents are sorted by.
    A query is what the code builds with the crate's constructors ([Query.t]); what
    each of them matches is stated over documents ([Doc.t], [matches]), as the
    crate documents it, and [Terms] with [TermsLaws] are the ranges of the
    dictionaries: no term of a document is missing from them, and stored numbers
    are finite.  [evaluates] says that a search collects what its query matches.
    [SearchSample], [CatalogPages] and the end of [Queried] instantiate them.  The lock of the
    dictionary cache is taken to succeed.

    What opening and writing use of the crate is behind classes too: [Analyzers],
    [Schemas] with [SchemasLaws] (fields are numbered as they are added),
    [Directory] and [IndexDirectory] with [DirectoryLaws] (reads answer by what is
    there; a call that fails has done its work or nothing), [IndexWriter] with
    [IndexWriterLaws] (a commit publishes what is live with its payload, a rollback
    returns to what was published, a failure publishes all or nothing), and the
    link from a commit to the segments a reader shows in [Committed].
    [Opening] ends with a disk that may be full, [Writing] with a writer over it.

    ** Bounds and fuel

    [decode_search_expression] recurses on bytes, so its model takes fuel: the
    nesting limit is 8 levels and every level spends one unit, so
    [EXPRESSION_FUEL] = 10 never runs out; the same holds of [FILTER_FUEL] = 10.
    Aggregations nest 32 levels at most, hence [AGGREGATION_FUEL] = 33.  The
    decoding theorems are proved for these values and cover every input: the
    outcome [Fuel] is excluded by [tame].  Every other loop is structural.
    Machine integers are [N] with the wrap, saturation or overflow check of the
    Rust operation written out ([usize_add], [saturating_sub], [wrapping_add]).

    ** Not modelled, and the plan

    - N-API classes, threads and buffers, the TypeScript facade, the directory
      harness and the qualification tests: glue, or tests. *)
From Stdlib Require Export NArith ZArith Lia Bool.
From stdpp Require Export base decidable list strings gmap pretty.


Close Scope nat_scope.

(** ** Lengths as machine integers

    Rust measures slices with [usize]; [lenN] is that measure. *)
Definition lenN {A} (l : list A) : N := N.of_nat (length l).

Section LenN.
Context {A : Type}.
Implicit Types l k : list A.

Lemma lenN_nil : lenN (@nil A) = 0%N.
Proof. reflexivity. Qed.

Lemma lenN_cons (a : A) l : lenN (a :: l) = (1 + lenN l)%N.
Proof. unfold lenN. cbn [length]. lia. Qed.

Lemma lenN_app l k : lenN (l ++ k) = (lenN l + lenN k)%N.
Proof. unfold lenN. rewrite length_app. lia. Qed.

Lemma lenN_fmap {B} (f : A → B) l : lenN (f <$> l) = lenN l.
Proof. unfold lenN. by rewrite length_fmap. Qed.

Lemma lenN_zero l : lenN l = 0%N ↔ l = [].
Proof. unfold lenN. destruct l; cbn; [done | split; [lia | done]]. Qed.

Lemma lenN_to_nat l : N.to_nat (lenN l) = length l.
Proof. unfold lenN. lia. Qed.

Lemma lenN_perm l k : l ≡ₚ k → lenN l = lenN k.
Proof. intros E. unfold lenN. by rewrite E. Qed.

Lemma lenN_take n l : lenN (take (N.to_nat n) l) = N.min n (lenN l).
Proof. unfold lenN. rewrite length_take. lia. Qed.

Lemma lenN_drop n l : lenN (drop (N.to_nat n) l) = (lenN l - n)%N.
Proof. unfold lenN. rewrite length_drop. lia. Qed.
End LenN.

Create Rewrite HintDb len.
#[export] Hint Rewrite @lenN_nil @lenN_cons @lenN_app @lenN_to_nat : len.

(** [len_lia] normalises slice lengths and calls [lia]. *)
Ltac len_lia := autorewrite with len in *; lia.

(** The total of a list of sizes. *)
Definition sum (l : list N) : N := foldr N.add 0%N l.
Lemma foldr_and_Forall {A} (P : A → Prop) l : foldr and True (P <$> l) ↔ Forall P l.
Proof. induction l as [|a l IH]; cbn; [by split|]. by rewrite Forall_cons, IH. Qed.
Lemma sum_cons a l : sum (a :: l) = (a + sum l)%N.
Proof. reflexivity. Qed.
Lemma sum_app l k : sum (l ++ k) = (sum l + sum k)%N.
Proof. induction l as [|a l IH]; [done|]. cbn [app]. rewrite !sum_cons, IH. lia. Qed.
Lemma sum_elem_le a l : a ∈ l → (a <= sum l)%N.
Proof. induction 1; rewrite sum_cons; lia. Qed.

Lemma sum_insert (l : list N) i a b : l !! i = Some a → (sum (<[i:=b]> l) + a = sum l + b)%N.
Proof.
  revert i. induction l as [|x l IH]; intros [|i] H; [done..| |].
  - injection H as ->. change (<[0%nat:=b]> (a :: l)) with (b :: l). rewrite !sum_cons. lia.
  - change (<[S i:=b]> (x :: l)) with (x :: <[i:=b]> l). rewrite !sum_cons. specialize (IH i H). lia.
Qed.
Lemma sum_lookup (l : list N) i a : l !! i = Some a → (a <= sum l)%N.
Proof. intros H. apply sum_elem_le. by eapply list_elem_of_lookup_2. Qed.

(** [case_if] splits on the first boolean or decidable test of the goal. *)
Ltac case_if :=
  match goal with
  | |- context [if decide ?P then _ else _] => destruct (decide P)
  | |- context [if ?b then _ else _] => let E := fresh "E" in destruct b eqn:E
  end.

(** Boolean comparisons on [N] read back as propositions. *)
Ltac b2p :=
  repeat match goal with
  | H : (_ <? _)%N = true |- _ => apply N.ltb_lt in H
  | H : (_ <? _)%N = false |- _ => apply N.ltb_ge in H
  | H : (_ <=? _)%N = true |- _ => apply N.leb_le in H
  | H : (_ <=? _)%N = false |- _ => apply N.leb_gt in H
  | H : (_ =? _)%N = true |- _ => apply N.eqb_eq in H
  | H : (_ =? _)%N = false |- _ => apply N.eqb_neq in H
  | H : _ && _ = true |- _ => apply andb_true_iff in H as [? ?]
  | H : _ && _ = false |- _ => apply andb_false_iff in H
  | H : _ || _ = false |- _ => apply orb_false_iff in H as [? ?]
  | H : _ || _ = true |- _ => apply orb_true_iff in H
  | H : negb _ = true |- _ => apply negb_true_iff in H
  | H : negb _ = false |- _ => apply negb_false_iff in H
  end.

(** ** Machine constants (64-bit targets: every supported platform) *)
Definition U8_MAX : N := 255.
Definition U16_MAX : N := 65535.
Definition U32_MAX : N := 4294967295.
Definition USIZE_MAX : N := 18446744073709551615.
(** No Rust allocation, hence no slice, is longer than [isize::MAX] bytes. *)
Definition ISIZE_MAX : N := 9223372036854775807.

(** [usize::saturating_add] and [usize::saturating_mul]. *)
Definition saturating_add (a b : N) : N := N.min (a + b) USIZE_MAX.
Definition saturating_mul (a b : N) : N := N.min (a * b) USIZE_MAX.
Definition saturating_sub (a b : N) : N := (a - b)%N.
(** [usize::checked_add], [checked_sub] and [checked_mul]. *)
Definition checked_add (a b : N) : option N :=
  if (a + b <=? USIZE_MAX)%N then Some (a + b)%N else None.
Definition checked_sub (a b : N) : option N :=
  if (b <=? a)%N then Some (a - b)%N else None.
Definition checked_mul (a b : N) : option N :=
  if (a * b <=? USIZE_MAX)%N then Some (a * b)%N else None.
Lemma checked_mul_cases a b : (checked_mul a b = Some (a * b)%N ∧ (a * b <= USIZE_MAX)%N) ∨ (checked_mul a b = None ∧ (USIZE_MAX < a * b)%N).
Proof. unfold checked_mul. destruct (N.leb_spec (a * b) USIZE_MAX); auto. Qed.
Lemma checked_add_cases a b : (checked_add a b = Some (a + b)%N ∧ (a + b <= USIZE_MAX)%N) ∨ (checked_add a b = None ∧ (USIZE_MAX < a + b)%N).
Proof. unfold checked_add. destruct (N.leb_spec (a + b) USIZE_MAX); auto. Qed.

(** * Vectors: [Vec::dedup] and first occurrences *)
(** [Vec::dedup]: consecutive repetitions *)
Fixpoint dedup {A} `{EqDecision A} (l : list A) : list A :=
  match l with
  | [] => []
  | a :: l => match l with [] => [a] | b :: _ => if decide (a = b) then dedup l else a :: dedup l end
  end.
(** The distinct elements of [l], first occurrences first, after those of [acc]. *)
Definition distinct_after {A} `{EqDecision A} (acc l : list A) : list A := foldl (λ acc a, if decide (a ∈ acc) then acc else acc ++ [a]) acc l.

Section Lists.
Context {A : Type} `{EqDecision A}.
Implicit Types l acc : list A.
Lemma dedup_elem l a : a ∈ dedup l ↔ a ∈ l.
Proof.
  induction l as [|x [|y l] IH]; [done..|]. cbn [dedup] in *. case_decide as E; [subst; rewrite IH; set_solver|].
  rewrite !(elem_of_cons _ a x), IH. done.
Qed.
Lemma dedup_length_le l : (length (dedup l) <= length l)%nat.
Proof. induction l as [|x [|y l] IH]; [done..|]. cbn [dedup] in *. case_decide; cbn [length] in *; lia. Qed.
Lemma dedup_id l : NoDup l → dedup l = l.
Proof.
  induction l as [|x [|y l] IH]; [done..|]. intros [Hn Hnd]%NoDup_cons. cbn [dedup] in *.
  rewrite decide_False by (intros ->; apply Hn; by left). by rewrite IH.
Qed.

Lemma distinct_after_extends acc l : ∃ k, distinct_after acc l = acc ++ k.
Proof.
  revert acc. induction l as [|a l IH]; intros acc; [exists []; by rewrite app_nil_r|]. unfold distinct_after. cbn [foldl].
  case_decide; [apply IH|]. destruct (IH (acc ++ [a])) as [k Hk]. exists (a :: k). unfold distinct_after in Hk. by rewrite Hk, <- app_assoc.
Qed.
Lemma distinct_after_elem acc l a : a ∈ distinct_after acc l ↔ a ∈ acc ∨ a ∈ l.
Proof.
  revert acc. induction l as [|b l IH]; intros acc; unfold distinct_after; cbn [foldl]; [rewrite elem_of_nil; tauto|].
  unfold distinct_after in IH. rewrite elem_of_cons. case_decide; rewrite IH; [|rewrite elem_of_app, list_elem_of_singleton; tauto].
  split; [tauto|]. intros [|[->|]]; auto.
Qed.
Lemma distinct_after_NoDup acc l : NoDup acc → NoDup (distinct_after acc l).
Proof.
  revert acc. induction l as [|b l IH]; intros acc Hd; [done|]. unfold distinct_after. cbn [foldl]. case_decide; [by apply IH|].
  apply IH. apply NoDup_app. split; [done|]. split; [by intros x Hx ->%list_elem_of_singleton|apply NoDup_singleton].
Qed.
End Lists.

(** Filtering the parts filters the whole. *)
Lemma filter_concat {A} (P : A → Prop) `{∀ x, Decision (P x)} (ls : list (list A)) : filter P (concat ls) = concat ((λ l : list A, filter P l) <$> ls).
Proof. induction ls as [|l ls IH]; [done|]. cbn [concat]. by rewrite filter_app, IH, fmap_cons. Qed.
