(* ===== verification/Errors.v ===== *)
(** * src/src/error.rs: the coded error, and the outcome of a Rust call

    A fallible Rust function of the crate returns [Result<T, FulltextError>].
    Its model returns an [outcome]: [Ok] and [Err] are the two constructors of
    [Result]; [Panic] is what indexing out of range, [unwrap] on [None] or a
    debug-build arithmetic overflow does; [Fuel] marks a model recursion cut
    short.  The theorems of the development show that the last two never
    happen, so they are never needed to read a result. *)
From S2P Require Import Prelude.
Local Open Scope N_scope.

Record FulltextError := mkError { code : string; message : string }.

#[export] Instance FulltextError_eq_dec : EqDecision FulltextError.
Proof. solve_decision. Defined.

Inductive outcome (A : Type) : Type :=
| Ok (a : A)
| Err (e : FulltextError)
| Panic
| Fuel.
Arguments Ok {A} a.
Arguments Err {A} e.
Arguments Panic {A}.
Arguments Fuel {A}.

(** [FulltextError::new] *)
Definition FulltextError_new (c m : string) : FulltextError := mkError c m.

(** [FulltextError::invalid] and [FulltextError::native] *)
Definition invalid (m : string) : FulltextError := FulltextError_new "E_INVALID_ARGUMENT" m.
Definition native (m : string) : FulltextError := FulltextError_new "E_NATIVE_FAILURE" m.

Definition SEARCH_TIMEOUT_MESSAGE : string := "full-text search exceeded its execution budget".

Definition ERROR_CODES : list string :=
  [ "E_CLOSED"; "E_CURSOR_EXPIRED"; "E_CLOSE_FAILED"; "E_DIRTY_CLOSE"; "E_CHECKPOINT_REQUIRED";
    "E_DUPLICATE_OPEN"; "E_IDENTITY_MISMATCH"; "E_INCOMPLETE_CREATE"; "E_INDEX_CORRUPT";
    "E_INDEX_FORMAT_INCOMPATIBLE"; "E_INDEX_NOT_READY"; "E_BATCH_ACTIVE"; "E_BATCH_INCOMPLETE";
    "E_BATCH_TOO_LARGE"; "E_INVALID_ARGUMENT"; "E_LOCK_BUSY"; "E_NATIVE_ABI_MISMATCH";
    "E_NATIVE_ADDON_NOT_FOUND"; "E_NATIVE_LOAD_FAILED"; "E_NATIVE_CAPABILITY_MISMATCH";
    "E_NATIVE_FAILURE"; "E_NATIVE_PANIC"; "E_POISONED"; "E_PREFIX_TOO_BROAD"; "E_QUEUE_FULL";
    "E_QUIESCENCE_FAILED"; "E_READ_ONLY"; "E_RELOAD_FAILED"; "E_RESOURCE_LIMIT";
    "E_RESULT_TOO_LARGE"; "E_SCHEMA_MISMATCH"; "E_STORAGE"; "E_TIMEOUT" ]%string.

(** The [?] operator. *)
#[export] Instance outcome_ret : MRet outcome := @Ok.
#[export] Instance outcome_bind : MBind outcome := λ A B f m,
  match m with Ok a => f a | Err e => Err e | Panic => Panic | Fuel => Fuel end.

(** [if c { return Err(..) }] *)
Definition ensure (b : bool) (e : FulltextError) : outcome () := if b then Ok () else Err e.

(** [.ok_or_else(..)] and [.unwrap()] *)
Definition ok_or {A} (o : option A) (e : FulltextError) : outcome A :=
  match o with Some a => Ok a | None => Err e end.
Definition unwrap {A} (o : option A) : outcome A :=
  match o with Some a => Ok a | None => Panic end.

(** Unchecked [usize] arithmetic: a debug build panics on overflow. *)
Definition usize_sub (a b : N) : outcome N := unwrap (checked_sub a b).
Definition usize_add (a b : N) : outcome N := unwrap (checked_add a b).

(** Number and byte-string arguments of the [format!] messages. *)
Definition show (n : N) : string := pretty n.
Definition show_str (s : list Byte.byte) : string := String.string_of_list_byte s.

(** A call that returns, and fails only with E_INVALID_ARGUMENT. *)
Definition tame {A} (r : outcome A) : Prop :=
  match r with Ok _ => True | Err e => code e = "E_INVALID_ARGUMENT"%string | Panic | Fuel => False end.

(** ** State-passing computations

    Methods that mutate a cursor or a budget through [&mut self] pass the state
    along; [?] drops it on an error, as every caller of these methods does. *)
Definition M (S A : Type) : Type := S → outcome (A * S).

#[export] Instance M_ret S : MRet (M S) := λ A a s, Ok (a, s).
#[export] Instance M_bind S : MBind (M S) := λ A B f m s,
  match m s with Ok (a, s') => f a s' | Err e => Err e | Panic => Panic | Fuel => Fuel end.

Definition lift {S A} (r : outcome A) : M S A := λ s,
  match r with Ok a => Ok (a, s) | Err e => Err e | Panic => Panic | Fuel => Fuel end.
Definition fail_with {S A} (e : FulltextError) : M S A := λ _, Err e.
Definition out_of_fuel {S A} : M S A := λ _, Fuel.
(** Reading the state ([&self] methods). *)
Definition gets {S A} (f : S → outcome A) : M S A := λ s, lift (f s) s.
(** The two halves of a paired state: a cursor and a budget. *)
Definition on_fst {S T A} (m : M S A) : M (S * T) A := λ '(s, t),
  match m s with Ok (a, s') => Ok (a, (s', t)) | Err e => Err e | Panic => Panic | Fuel => Fuel end.
Definition on_snd {S T A} (m : M T A) : M (S * T) A := λ '(s, t),
  match m t with Ok (a, t') => Ok (a, (s, t')) | Err e => Err e | Panic => Panic | Fuel => Fuel end.
(** Running a computation whose result state is dropped at the end of its scope. *)
Definition run {S A} (m : M S A) (s : S) : outcome A :=
  match m s with Ok (a, _) => Ok a | Err e => Err e | Panic => Panic | Fuel => Fuel end.

(** Methods whose effects on a shared object survive an error. *)
Definition E (S A : Type) : Type := S → outcome A * S.
#[export] Instance E_ret S : MRet (E S) := λ A a s, (Ok a, s).
#[export] Instance E_bind S : MBind (E S) := λ A B f m s,
  match m s with
  | (Ok a, s') => f a s' | (Err e, s') => (Err e, s') | (Panic, s') => (Panic, s') | (Fuel, s') => (Fuel, s')
  end.

(** [for _ in 0..count { values.push(body?) }] *)
Section Loops.
Context {S A B : Type}.
Fixpoint replicateM (n : nat) (body : M S A) : M S (list A) :=
  match n with
  | O => mret []
  | Datatypes.S n => x ← body; xs ← replicateM n body; mret (x :: xs)
  end.

(** [for x in list { body(x)? }] with a result accumulated from the left *)
Context (f : B → A → M S B).
Fixpoint foldM (acc : B) (l : list A) : M S B :=
  match l with [] => mret acc | a :: l => acc' ← f acc a; foldM acc' l end.
End Loops.

(** The same loop over a pure fallible body. *)
Section FoldO.
Context {A B : Type} (f : B → A → outcome B).
Fixpoint foldO (acc : B) (l : list A) : outcome B :=
  match l with [] => mret acc | a :: l => acc' ← f acc a; foldO acc' l end.
End FoldO.

(** [.map(f).collect::<Result<Vec<_>>>()] *)
Section Collect.
Context {A B : Type} (f : A → outcome B).
Fixpoint mapO (l : list A) : outcome (list B) :=
  match l with [] => Ok [] | a :: l => b ← f a; bs ← mapO l; Ok (b :: bs) end.
End Collect.

(** ** Reading a computation backwards *)
Lemma bind_Ok {A B} (f : A → outcome B) (m : outcome A) b :
  mbind f m = Ok b ↔ ∃ a, m = Ok a ∧ f a = Ok b.
Proof. destruct m; cbn; naive_solver. Qed.

Lemma M_bind_Ok {S A B} (f : A → M S B) (m : M S A) s b s'' :
  mbind f m s = Ok (b, s'') ↔ ∃ a s', m s = Ok (a, s') ∧ f a s' = Ok (b, s'').
Proof. cbv [mbind M_bind]. destruct (m s) as [[a s'] | | |]; naive_solver. Qed.

Lemma M_bind_step {S A B} (f : A → M S B) (m : M S A) s a s' :
  m s = Ok (a, s') → mbind f m s = f a s'.
Proof. intros H. cbv [mbind M_bind]. by rewrite H. Qed.

Lemma E_bind_Ok {S A B} (f : A → E S B) (m : E S A) s b s'' :
  mbind f m s = (Ok b, s'') ↔ ∃ a s', m s = (Ok a, s') ∧ f a s' = (Ok b, s'').
Proof. cbv [mbind E_bind]. destruct (m s) as [[a|e| |] s']; naive_solver. Qed.

Lemma lift_Ok {S A} (r : outcome A) (s : S) a : r = Ok a → lift r s = Ok (a, s).
Proof. by intros ->. Qed.

Lemma ensure_Ok b e u : ensure b e = Ok u ↔ b = true.
Proof. destruct b, u; cbn; naive_solver. Qed.

Lemma ok_or_Ok {A} (o : option A) e a : ok_or o e = Ok a ↔ o = Some a.
Proof. destruct o; cbn; naive_solver. Qed.

Lemma mapO_Ok {A B} (f : A → outcome B) l bs : mapO f l = Ok bs ↔ Forall2 (λ a b, f a = Ok b) l bs.
Proof.
  revert bs. induction l as [|a l IH]; intros bs; cbn [mapO].
  - split; [intros [= <-]; constructor | by intros ->%Forall2_nil_inv_l].
  - rewrite bind_Ok. setoid_rewrite bind_Ok. setoid_rewrite IH. split.
    + intros (b & Hb & bs' & Hbs & [= <-]). by constructor.
    + intros (b & bs' & Hb & Hbs & ->)%Forall2_cons_inv_l. exists b. split; [done|]. by exists bs'.
Qed.

(** [inv_ok] splits every [x ← m; k] of a hypothesis that returned [Ok]. *)
Ltac inv_ok :=
  repeat match goal with
  | H : Ok _ = Ok _ |- _ => injection H; clear H; intros; subst
  | H : Err _ = Ok _ |- _ => discriminate H
  | H : Panic = Ok _ |- _ => discriminate H
  | H : Fuel = Ok _ |- _ => discriminate H
  | H : mret _ = Ok _ |- _ => cbn in H
  | H : mbind _ _ = Ok _ |- _ => apply bind_Ok in H as (? & ? & H)
  | H : mbind _ _ _ = Ok (_, _) |- _ => apply M_bind_Ok in H as (? & ? & ? & H)
  | H : ensure _ _ = Ok _ |- _ => apply ensure_Ok in H
  | H : ok_or _ _ = Ok _ |- _ => apply ok_or_Ok in H
  end.
