(* ===== verification/Bytes.v ===== *)
(** * Bytes, little-endian integers, UTF-8 and IEEE bit patterns

    The standard-library conversions the crate reads its frames with:
    [uN::from_le_bytes], [String::from_utf8], [str::len], [str::chars],
    [char::len_utf8] / [len_utf16], and the [f32] / [f64] predicates of the
    validators.  A Rust [String] is the list of its UTF-8 bytes. *)
From Stdlib Require Export Strings.Byte.
From Stdlib Require Import Floats.SpecFloat.
From S2P Require Import Prelude.
From S2P Require Import Errors.
Local Open Scope N_scope.

Abbreviation byte := Byte.byte.
Abbreviation bytes := (list Byte.byte).

#[export] Instance byte_eq_dec : EqDecision byte := Byte.byte_eq_dec.
#[export] Instance byte_countable : Countable byte.
Proof.
  refine (inj_countable Byte.to_N Byte.of_N _). intros b. apply Byte.of_to_N.
Defined.

(** A byte-string literal [b"..."]. *)
Definition blit (s : string) : bytes := String.list_byte_of_string s.

Definition byte_of_N (n : N) : byte := default Byte.x00 (Byte.of_N (n mod 256)).

Lemma to_N_lt (b : byte) : Byte.to_N b < 256.
Proof. pose proof (Byte.to_N_bounded b). lia. Qed.

Lemma to_N_byte_of_N n : Byte.to_N (byte_of_N n) = n mod 256.
Proof.
  unfold byte_of_N. pose proof (N.mod_lt n 256 ltac:(lia)) as Hlt.
  destruct (Byte.of_N (n mod 256)) as [b|] eqn:E; cbn.
  - by apply Byte.to_of_N in E.
  - apply Byte.of_N_None_iff in E. lia.
Qed.

Lemma byte_of_to_N (b : byte) : byte_of_N (Byte.to_N b) = b.
Proof.
  unfold byte_of_N. rewrite N.mod_small by apply to_N_lt. by rewrite Byte.of_to_N.
Qed.

(** ** Little-endian integers *)
Fixpoint le_combine (bs : bytes) : N :=
  match bs with [] => 0 | b :: bs => Byte.to_N b + 256 * le_combine bs end.

Fixpoint le_split (n : nat) (v : N) : bytes :=
  match n with O => [] | Datatypes.S n => byte_of_N v :: le_split n (v / 256) end.

Lemma length_le_split n v : length (le_split n v) = n.
Proof. revert v. induction n; intros v; cbn; [done | by rewrite IHn]. Qed.

Lemma lenN_le_split n v : lenN (le_split n v) = N.of_nat n.
Proof. unfold lenN. by rewrite length_le_split. Qed.
#[export] Hint Rewrite lenN_le_split : len.

Lemma le_combine_split n v : le_combine (le_split n v) = v mod 256 ^ N.of_nat n.
Proof.
  revert v. induction n as [|n IH]; intros v.
  - change (256 ^ N.of_nat 0) with 1. by rewrite N.mod_1_r.
  - cbn [le_split le_combine]. rewrite to_N_byte_of_N, IH, Nat2N.inj_succ, N.pow_succ_r'.
    rewrite N.Div0.mod_mul_r. lia.
Qed.

Lemma le_combine_lt bs : le_combine bs < 256 ^ lenN bs.
Proof.
  induction bs as [|b bs IH]; [done|]. rewrite lenN_cons, N.pow_add_r.
  change (256 ^ 1) with 256. cbn [le_combine]. pose proof (to_N_lt b). nia.
Qed.

Lemma le_split_combine bs : le_split (length bs) (le_combine bs) = bs.
Proof.
  induction bs as [|b bs IH]; [done|]. cbn [length le_split le_combine].
  replace ((Byte.to_N b + 256 * le_combine bs) / 256) with (le_combine bs);
    [|pose proof (to_N_lt b); rewrite N.mul_comm, N.div_add, N.div_small by lia; lia].
  rewrite IH. f_equal. unfold byte_of_N.
  rewrite N.mul_comm, N.Div0.mod_add, N.mod_small by apply to_N_lt.
  by rewrite Byte.of_to_N.
Qed.

(** ** UTF-8 (RFC 3629, the language accepted by [str::from_utf8]) *)
Definition is_cont (b : N) : bool := (128 <=? b) && (b <=? 191).

(** The code points of a UTF-8 string; [None] when it is not valid UTF-8. *)
Fixpoint utf8_chars (bs : bytes) : option (list N) :=
  match bs with
  | [] => Some []
  | b0 :: r0 =>
    let n0 := Byte.to_N b0 in
    if n0 <? 128 then cons n0 <$> utf8_chars r0 else
    match r0 with
    | [] => None
    | b1 :: r1 =>
      let n1 := Byte.to_N b1 in
      if (194 <=? n0) && (n0 <=? 223) then
        if is_cont n1 then cons ((n0 - 192) * 64 + (n1 - 128)) <$> utf8_chars r1 else None
      else
      match r1 with
      | [] => None
      | b2 :: r2 =>
        let n2 := Byte.to_N b2 in
        if (224 <=? n0) && (n0 <=? 239) then
          if is_cont n1 && is_cont n2
             && negb ((n0 =? 224) && (n1 <? 160)) && negb ((n0 =? 237) && (159 <? n1))
          then cons ((n0 - 224) * 4096 + (n1 - 128) * 64 + (n2 - 128)) <$> utf8_chars r2
          else None
        else
        match r2 with
        | [] => None
        | b3 :: r3 =>
          let n3 := Byte.to_N b3 in
          if (240 <=? n0) && (n0 <=? 244) && is_cont n1 && is_cont n2 && is_cont n3
             && negb ((n0 =? 240) && (n1 <? 144)) && negb ((n0 =? 244) && (143 <? n1))
          then cons ((n0 - 240) * 262144 + (n1 - 128) * 4096 + (n2 - 128) * 64 + (n3 - 128))
                 <$> utf8_chars r3
          else None
        end
      end
    end
  end.

Definition utf8_valid (bs : bytes) : bool := bool_decide (is_Some (utf8_chars bs)).

(** [char::is_scalar], [char::len_utf8] and [char::len_utf16]. *)
Definition is_scalar (c : N) : bool := (c <? 55296) || ((57343 <? c) && (c <? 1114112)).
Definition len_utf8 (c : N) : N :=
  if c <? 128 then 1 else if c <? 2048 then 2 else if c <? 65536 then 3 else 4.
Definition len_utf16 (c : N) : N := if c <? 65536 then 1 else 2.

(** [char::encode_utf8] *)
Definition utf8_encode_char (c : N) : bytes :=
  if c <? 128 then [byte_of_N c]
  else if c <? 2048 then [byte_of_N (192 + c / 64); byte_of_N (128 + c mod 64)]
  else if c <? 65536 then
    [byte_of_N (224 + c / 4096); byte_of_N (128 + (c / 64) mod 64); byte_of_N (128 + c mod 64)]
  else
    [byte_of_N (240 + c / 262144); byte_of_N (128 + (c / 4096) mod 64);
     byte_of_N (128 + (c / 64) mod 64); byte_of_N (128 + c mod 64)].
Definition utf8_encode (cs : list N) : bytes := concat (utf8_encode_char <$> cs).

(** [String::from_utf8] *)
Definition from_utf8 (bs : bytes) (e : FulltextError) : outcome bytes :=
  if utf8_valid bs then Ok bs else Err e.

(** [str::is_ascii] *)
Definition is_ascii_byte (b : byte) : bool := Byte.to_N b <? 128.
Definition is_ascii (s : bytes) : bool := forallb is_ascii_byte s.

(** ** IEEE-754 patterns

    An [f32] ([f64]) is carried as its 32 (64) bits, the value
    [from_le_bytes] builds; [f32_spec] reads the number a pattern denotes. *)
Definition f32 := N.
Definition f64 := N.

Definition float_spec (mbits ebits : N) (v : N) : spec_float :=
  let sign := N.testbit v (mbits + ebits) in
  let e := N.land (N.shiftr v mbits) (N.ones ebits) in
  let m := N.land v (N.ones mbits) in
  let bias := (2 ^ Z.of_N (ebits - 1) - 1 + Z.of_N mbits)%Z in
  if e =? N.ones ebits then (if m =? 0 then S754_infinity sign else S754_nan)
  else if e =? 0 then
    match m with N0 => S754_zero sign | Npos p => S754_finite sign p (1 - bias)%Z end
  else match (m + 2 ^ mbits) with
       | N0 => S754_zero sign | Npos p => S754_finite sign p (Z.of_N e - bias)%Z end.

Definition f32_spec (v : f32) : spec_float := float_spec 23 8 v.
Definition f64_spec (v : f64) : spec_float := float_spec 52 11 v.

Definition spec_is_finite (s : spec_float) : bool :=
  match s with S754_infinity _ | S754_nan => false | _ => true end.
(** [f32::is_finite], [f64::is_finite], [f32::is_sign_negative] *)
Definition f32_is_finite (v : f32) : bool := spec_is_finite (f32_spec v).
Definition f64_is_finite (v : f64) : bool := spec_is_finite (f64_spec v).
Definition f32_is_sign_negative (v : f32) : bool := N.testbit v 31.
(** The operators [>], [<=] and [==] of [PartialOrd] and [PartialEq]. *)
Definition f32_gt (a b : f32) : bool := SFltb (f32_spec b) (f32_spec a).
Definition f32_le (a b : f32) : bool := SFleb (f32_spec a) (f32_spec b).
Definition f32_eq (a b : f32) : bool := SFeqb (f32_spec a) (f32_spec b).
Definition f64_eq (a b : f64) : bool := SFeqb (f64_spec a) (f64_spec b).
Definition f64_le (a b : f64) : bool := SFleb (f64_spec a) (f64_spec b).
Definition f64_ge (a b : f64) : bool := SFleb (f64_spec b) (f64_spec a).
Definition F32_ZERO : f32 := 0.
Definition F32_ONE : f32 := 0x3F800000.
Definition F32_HUNDRED : f32 := 0x42C80000.
Definition F64_ZERO : f64 := 0.
