(* ===== verification/Wire.v ===== *)
(** * src/src/protocol.rs: [Cursor], the reader of packed requests

    The state of a decoder is a [Cursor]: the frame and the offset reached.
    After the operations come the two judgements the decoders are verified
    with.  [Spec p R] reads: on every frame no longer than a Rust slice can be,
    [p] either fails with E_INVALID_ARGUMENT or consumes a prefix [bs] of the
    input and returns an [a] with [R bs a]; it never panics.  [Parses p bs a]
    reads: wherever [bs] starts, [p] consumes exactly [bs] and returns [a]. *)
From S2P Require Import Prelude.
From S2P Require Import Errors.
From S2P Require Import Bytes.
Local Open Scope N_scope.

Definition PROTOCOL_VERSION : N := 8.
Definition MAX_STRING_BYTES : N := 1048576.
Definition MAX_RECORD_ID_BYTES : N := 4096.
Definition MAX_RECORD_VERSION_BYTES : N := 4096.
Definition MAX_SYNONYM_BYTES : N := 1048576.

Definition validate_record_id (id : bytes) : outcome () :=
  if lenN id =? 0 then Err (invalid "record IDs must not be empty")
  else if MAX_RECORD_ID_BYTES <? lenN id
  then Err (invalid ("record IDs must not exceed " +:+ show MAX_RECORD_ID_BYTES +:+ " UTF-8 bytes"))
  else Ok ().

Module Cursor.
Record t := mk { data : bytes; offset : N }.

(** [bytes[i]]: panics out of range. *)
Definition index (bs : bytes) (i : nat) : outcome byte := unwrap (bs !! i).
(** [bytes.get(from..to)] *)
Definition get_range (bs : bytes) (from to : N) : option bytes :=
  if (from <=? to) && (to <=? lenN bs)
  then Some (firstn (N.to_nat (to - from)) (skipn (N.to_nat from) bs)) else None.

Definition new (bs : bytes) (magic : bytes) : outcome t :=
  if (lenN bs <? 6) || negb (bool_decide (firstn 4 bs = magic))
  then Err (invalid "invalid packed request magic")
  else
    b4 ← index bs 4; b5 ← index bs 5;
    let version := le_combine [b4; b5] in
    if negb (version =? PROTOCOL_VERSION)
    then Err (invalid ("unsupported packed request version " +:+ show version))
    else Ok (mk bs 6).

Definition take (length : N) : M t bytes := λ c,
  match checked_add c.(offset) length with
  | None => Err (invalid "packed request length overflow")
  | Some end_ =>
    match get_range c.(data) c.(offset) end_ with
    | None => Err (invalid "packed request is truncated")
    | Some value => Ok (value, mk c.(data) end_)
    end
  end.

Definition u8 : M t N := bs ← take 1; b ← lift (index bs 0); mret (Byte.to_N b).

Definition boolean : M t bool :=
  v ← u8;
  if v =? 0 then mret false else if v =? 1 then mret true
  else fail_with (invalid "packed boolean must be zero or one").

(** The fixed-width readers index every byte of the slice [take] returned. *)
Fixpoint indices (bs : bytes) (from n : nat) : outcome bytes :=
  match n with
  | O => mret []
  | Datatypes.S n => b ← index bs from; r ← indices bs (Datatypes.S from) n; mret (b :: r)
  end.

Definition u16 : M t N := bs ← take 2; r ← lift (indices bs 0 2); mret (le_combine r).
Definition u32 : M t N := bs ← take 4; r ← lift (indices bs 0 4); mret (le_combine r).
Definition u64 : M t N := bs ← take 8; r ← lift (indices bs 0 8); mret (le_combine r).
Definition u64_usize : M t N :=
  v ← u64;
  if v <=? USIZE_MAX then mret v else fail_with (invalid "numeric limit exceeds usize").
Definition f32 : M t Bytes.f32 := bs ← take 4; r ← lift (indices bs 0 4); mret (le_combine r).
Definition f64 : M t Bytes.f64 := bs ← take 8; r ← lift (indices bs 0 8); mret (le_combine r).

(** [Cursor::bytes] *)
Definition byte_string : M t bytes :=
  length ← u32;
  if MAX_STRING_BYTES <? length then fail_with (invalid "packed byte string exceeds 1 MiB")
  else take length.

Definition string : M t bytes :=
  bs ← byte_string; lift (from_utf8 bs (invalid "packed string is not valid UTF-8")).

(** [string_with_budget]: [remaining] is the second half of the state. *)
Definition string_with_budget (label : String.string) : M (t * N) bytes :=
  length ← on_fst u32;
  _ ← (λ s, lift (ensure (negb ((s.2 <? length) || (MAX_STRING_BYTES <? length)))
             (invalid (label +:+ " must not exceed " +:+ show MAX_SYNONYM_BYTES +:+ " bytes"))) s);
  _ ← on_snd (λ remaining, r ← usize_sub remaining length; Ok ((), r));
  bs ← on_fst (take length);
  lift (from_utf8 bs (invalid "packed string is not valid UTF-8")).

Definition record_id : M t bytes :=
  id ← string; _ ← lift (validate_record_id id); mret id.

Definition finish (c : t) : outcome () :=
  if c.(offset) =? lenN c.(data) then Ok () else Err (invalid "packed request has trailing bytes").

Definition remaining (c : t) : outcome N := usize_sub (lenN c.(data)) c.(offset).
End Cursor.
Import Cursor.

(** [let x = cursor.remaining()] inside a decoder. *)
Definition get_remaining : M Cursor.t N := gets Cursor.remaining.

(** ** Positions *)
Definition at_ (pre post : bytes) : Cursor.t := Cursor.mk (pre ++ post) (lenN pre).
Definition fits (bs : bytes) : Prop := lenN bs <= ISIZE_MAX.

Definition Spec {A} (p : M Cursor.t A) (R : bytes → A → Prop) : Prop :=
  ∀ pre rest, fits (pre ++ rest) →
  match p (at_ pre rest) with
  | Ok (a, c) => ∃ bs post, rest = bs ++ post ∧ c = at_ (pre ++ bs) post ∧ R bs a
  | Err e => code e = "E_INVALID_ARGUMENT"%string
  | Panic | Fuel => False
  end.

Definition Parses {A} (p : M Cursor.t A) (bs : bytes) (a : A) : Prop :=
  ∀ pre post, fits (pre ++ bs ++ post) → p (at_ pre (bs ++ post)) = Ok (a, at_ (pre ++ bs) post).

(** The same judgements for a computation that also mutates a budget [x]. *)
Definition SpecX {X A} (p : M (Cursor.t * X) A) (x : X) (R : bytes → A → X → Prop) : Prop :=
  ∀ pre rest, fits (pre ++ rest) →
  match p (at_ pre rest, x) with
  | Ok (a, (c, x')) => ∃ bs post, rest = bs ++ post ∧ c = at_ (pre ++ bs) post ∧ R bs a x'
  | Err e => code e = "E_INVALID_ARGUMENT"%string
  | Panic | Fuel => False
  end.

Definition ParsesX {X A} (p : M (Cursor.t * X) A) (x : X) (bs : bytes) (a : A) (x' : X) : Prop :=
  ∀ pre post, fits (pre ++ bs ++ post) →
  p (at_ pre (bs ++ post), x) = Ok (a, (at_ (pre ++ bs) post, x')).

(** ** Structural rules *)
Section Rules.
Context {A B : Type}.
Implicit Types (R : bytes → A → Prop) (p : M Cursor.t A).

Lemma Spec_weaken p R (R' : bytes → A → Prop) :
  Spec p R → (∀ bs a, R bs a → R' bs a) → Spec p R'.
Proof.
  intros H HR pre rest Hf. specialize (H pre rest Hf).
  destruct (p _) as [[a c]| | |]; try done. destruct H as (bs & post & ? & ? & ?); eauto 10.
Qed.

Lemma Spec_ret (a : A) R : R [] a → Spec (mret a) R.
Proof. intros H pre rest _. exists [], rest. by rewrite app_nil_r. Qed.

Lemma Spec_fail m R : Spec (fail_with (invalid m)) R.
Proof. intros pre rest _. done. Qed.

Lemma Spec_bind p R (f : A → M Cursor.t B) (R' : bytes → B → Prop) :
  Spec p R → (∀ bs a, R bs a → Spec (f a) (λ bs' b, R' (bs ++ bs') b)) → Spec (mbind f p) R'.
Proof.
  intros Hp Hf pre rest Hfit. specialize (Hp pre rest Hfit). cbv [mbind M_bind].
  destruct (p _) as [[a c]| | |]; try done. destruct Hp as (bs & post & -> & -> & HR).
  specialize (Hf bs a HR (pre ++ bs) post). rewrite <- app_assoc in Hf. specialize (Hf Hfit).
  destruct (f a _) as [[b c']| | |]; try done. destruct Hf as (bs' & post' & -> & -> & ?).
  exists (bs ++ bs'), post'. by rewrite <- !app_assoc.
Qed.

Lemma Spec_lift (r : outcome A) R :
  match r with Ok a => R [] a | Err e => code e = "E_INVALID_ARGUMENT"%string | _ => False end →
  Spec (lift r) R.
Proof.
  intros H pre rest _. unfold lift. destruct r as [a| | |]; try done.
  exists [], rest. by rewrite app_nil_r.
Qed.

Lemma Spec_pure (r : outcome A) : tame r → Spec (lift r) (λ bs a, bs = [] ∧ r = Ok a).
Proof. unfold tame. intros H. apply Spec_lift. by destruct r. Qed.

Lemma Parses_ret (a : A) : Parses (mret a) [] a.
Proof. intros pre post _. by rewrite app_nil_r. Qed.

Lemma Parses_lift (r : outcome A) a : r = Ok a → Parses (lift r) [] a.
Proof. intros -> pre post _. unfold lift. by rewrite app_nil_r. Qed.

Lemma Parses_bind p (f : A → M Cursor.t B) bs a bs' b :
  Parses p bs a → Parses (f a) bs' b → Parses (mbind f p) (bs ++ bs') b.
Proof.
  intros Hp Hf pre post Hfit. rewrite <- app_assoc in *.
  erewrite M_bind_step; [|by apply Hp]. rewrite !app_assoc in *. apply Hf. by rewrite <- !app_assoc in *.
Qed.

(** The same rule when the continuation reads nothing more. *)
Lemma Parses_bind_nil p (f : A → M Cursor.t B) bs a b :
  Parses p bs a → Parses (f a) [] b → Parses (mbind f p) bs b.
Proof. intros. rewrite <- (app_nil_r bs). by eapply Parses_bind. Qed.

Lemma at_remaining pre rest : fits (pre ++ rest) → Cursor.remaining (at_ pre rest) = Ok (lenN rest).
Proof.
  intros Hf. unfold Cursor.remaining, usize_sub, checked_sub, at_; cbn. rewrite lenN_app.
  destruct (N.leb_spec (lenN pre) (lenN pre + lenN rest)); [|lia]. cbn. f_equal. lia.
Qed.

Lemma get_remaining_at pre rest :
  fits (pre ++ rest) → get_remaining (at_ pre rest) = Ok (lenN rest, at_ pre rest).
Proof. intros Hf. unfold get_remaining, gets, lift. by rewrite at_remaining. Qed.

Lemma Spec_remaining (f : N → M Cursor.t A) R :
  (∀ n, Spec (f n) R) → Spec (mbind f get_remaining) R.
Proof.
  intros H pre rest Hf. cbv [mbind M_bind]. rewrite get_remaining_at by done. by apply H.
Qed.

(** A test against the bytes left passes when what is still to be read is long enough. *)
Lemma Parses_remaining (f : N → M Cursor.t A) bs a :
  (∀ n, lenN bs <= n → Parses (f n) bs a) → Parses (mbind f get_remaining) bs a.
Proof.
  intros H pre post Hf. erewrite M_bind_step by (by apply get_remaining_at).
  apply H; [len_lia | done].
Qed.
End Rules.

(** ** Loops *)
Lemma Spec_replicateM {A} (p : M Cursor.t A) (R : bytes → A → Prop) n :
  Spec p R → Spec (replicateM n p) (λ bs l, ∃ bss, bs = concat bss ∧ Forall2 R bss l ∧ length l = n).
Proof.
  intros Hp. induction n as [|n IH]; cbn [replicateM].
  - apply Spec_ret. by exists [].
  - eapply Spec_bind; [exact Hp|]. intros bs a HR. eapply Spec_bind; [exact IH|].
    intros bs' l (bss & -> & HF & <-). apply Spec_ret. exists (bs :: bss). cbn.
    rewrite app_nil_r. eauto.
Qed.

Lemma Parses_replicateM {A} (p : M Cursor.t A) (enc : A → bytes) l :
  Forall (λ a, Parses p (enc a) a) l → Parses (replicateM (length l) p) (concat (enc <$> l)) l.
Proof.
  induction 1 as [|a l Ha Hl IH]; cbn [replicateM length fmap list_fmap concat].
  - apply Parses_ret.
  - eapply Parses_bind; [exact Ha|]. rewrite <- (app_nil_r (concat _)).
    eapply Parses_bind; [exact IH|]. apply Parses_ret.
Qed.

(** ** Encodings of the primitives (the layout of [ByteWriter] in src/ts/codec.ts) *)
Definition enc_u8 (n : N) : bytes := le_split 1 n.
Definition enc_u16 (n : N) : bytes := le_split 2 n.
Definition enc_u32 (n : N) : bytes := le_split 4 n.
Definition enc_u64 (n : N) : bytes := le_split 8 n.
Definition enc_bool (b : bool) : bytes := enc_u8 (if b then 1 else 0).
Definition enc_str (s : bytes) : bytes := enc_u32 (lenN s) ++ s.

#[global] Arguments enc_u8 : simpl never.
#[global] Arguments enc_u16 : simpl never.
#[global] Arguments enc_u32 : simpl never.
#[global] Arguments enc_u64 : simpl never.
#[global] Arguments enc_bool : simpl never.
#[global] Arguments enc_str : simpl never.

Definition u8_ok (n : N) : Prop := n < 256.
Definition u16_ok (n : N) : Prop := n < 65536.
Definition u32_ok (n : N) : Prop := n < 4294967296.
Definition u64_ok (n : N) : Prop := n < 18446744073709551616.
Definition bytes_ok (s : bytes) : Prop := lenN s <= MAX_STRING_BYTES.
Definition str_ok (s : bytes) : Prop := bytes_ok s ∧ utf8_valid s = true.
Definition id_ok (s : bytes) : Prop := str_ok s ∧ 0 < lenN s <= MAX_RECORD_ID_BYTES.

Lemma lenN_enc_u8 n : lenN (enc_u8 n) = 1. Proof. apply lenN_le_split. Qed.
Lemma lenN_enc_u16 n : lenN (enc_u16 n) = 2. Proof. apply lenN_le_split. Qed.
Lemma lenN_enc_u32 n : lenN (enc_u32 n) = 4. Proof. apply lenN_le_split. Qed.
Lemma lenN_enc_u64 n : lenN (enc_u64 n) = 8. Proof. apply lenN_le_split. Qed.
Lemma lenN_enc_bool b : lenN (enc_bool b) = 1. Proof. apply lenN_le_split. Qed.
Lemma lenN_enc_str s : lenN (enc_str s) = 4 + lenN s.
Proof. unfold enc_str. by rewrite lenN_app, lenN_enc_u32. Qed.
#[export] Hint Rewrite lenN_enc_u8 lenN_enc_u16 lenN_enc_u32 lenN_enc_u64 lenN_enc_bool lenN_enc_str : len.

(** ** Primitive readers *)
Lemma take_at pre rest n : fits (pre ++ rest) →
  take n (at_ pre rest) =
    if n <=? lenN rest
    then Ok (firstn (N.to_nat n) rest, at_ (pre ++ firstn (N.to_nat n) rest) (skipn (N.to_nat n) rest))
    else if lenN pre + n <=? USIZE_MAX then Err (invalid "packed request is truncated")
    else Err (invalid "packed request length overflow").
Proof.
  unfold fits, ISIZE_MAX, take, at_, checked_add, get_range. intros Hf. rewrite lenN_app in *.
  cbn [Cursor.data Cursor.offset].
  destruct (N.leb_spec n (lenN rest)) as [Hn|Hn].
  - destruct (N.leb_spec (lenN pre + n) USIZE_MAX) as [_|H]; [|unfold USIZE_MAX in H; lia].
    rewrite lenN_app.
    destruct (N.leb_spec (lenN pre) (lenN pre + n)); [|lia].
    destruct (N.leb_spec (lenN pre + n) (lenN pre + lenN rest)); [|lia]. cbn [andb].
    rewrite lenN_to_nat, drop_app_length. replace (lenN pre + n - lenN pre) with n by lia.
    rewrite <- app_assoc, take_drop. do 3 f_equal.
    unfold lenN in *. rewrite length_take. lia.
  - destruct (N.leb_spec (lenN pre + n) USIZE_MAX) as [Hu|Hu]; [|done].
    rewrite lenN_app.
    destruct (N.leb_spec (lenN pre + n) (lenN pre + lenN rest)); [lia|].
    by rewrite andb_false_r.
Qed.

Lemma Spec_take n : Spec (take n) (λ bs v, v = bs ∧ lenN bs = n).
Proof.
  intros pre rest Hf. rewrite take_at by done.
  destruct (N.leb_spec n (lenN rest)) as [Hn|Hn].
  - exists (firstn (N.to_nat n) rest), (skipn (N.to_nat n) rest). repeat split.
    + by rewrite take_drop.
    + unfold lenN in *. rewrite length_take. lia.
  - by destruct (_ <=? _).
Qed.

Lemma Parses_take bs : Parses (take (lenN bs)) bs bs.
Proof.
  intros pre post Hf. rewrite take_at by done. rewrite lenN_app.
  destruct (N.leb_spec (lenN bs) (lenN bs + lenN post)); [|lia].
  by rewrite lenN_to_nat, take_app_length, drop_app_length.
Qed.

Lemma indices_from bs from n :
  (from + n <= length bs)%nat → indices bs from n = Ok (firstn n (skipn from bs)).
Proof.
  revert from. induction n as [|n IH]; intros from H; cbn [indices].
  - done.
  - assert (from < length bs)%nat as Hlt by lia.
    unfold index. destruct (lookup_lt_is_Some_2 bs from Hlt) as [b Hb]. rewrite Hb. cbn. rewrite IH by lia. cbn. erewrite (drop_S bs b from) by done. done.
Qed.

Lemma indices_all bs n : lenN bs = N.of_nat n → indices bs 0 n = Ok bs.
Proof.
  unfold lenN. intros H. rewrite indices_from by lia. f_equal. cbn [skipn]. apply take_ge. lia.
Qed.

(** One lemma for the five fixed-width readers. *)
Definition fixed (n : nat) : M Cursor.t N :=
  bs ← take (N.of_nat n); r ← lift (indices bs 0 n); mret (le_combine r).

Lemma Spec_fixed n : Spec (fixed n) (λ bs v, bs = le_split n v ∧ v < 256 ^ N.of_nat n).
Proof.
  eapply Spec_bind; [apply Spec_take|]. intros bs _ [-> Hlen].
  eapply (Spec_bind _ (λ bs' r, bs' = [] ∧ r = bs)).
  - apply Spec_lift. by rewrite indices_all.
  - intros bs' r [-> ->]. apply Spec_ret. rewrite !app_nil_r. split.
    + rewrite <- (le_split_combine bs) at 1. f_equal. unfold lenN in Hlen. lia.
    + rewrite <- Hlen. apply le_combine_lt.
Qed.

Lemma Parses_fixed n v : v < 256 ^ N.of_nat n → Parses (fixed n) (le_split n v) v.
Proof.
  intros Hv. unfold fixed. rewrite <- (lenN_le_split n v) at 1.
  eapply Parses_bind_nil; [apply Parses_take|].
  eapply Parses_bind_nil; [by apply Parses_lift, indices_all, lenN_le_split|].
  rewrite le_combine_split, N.mod_small by done. apply Parses_ret.
Qed.

Lemma Spec_u16 : Spec u16 (λ bs v, bs = enc_u16 v ∧ u16_ok v).
Proof. exact (Spec_fixed 2). Qed.
Lemma Spec_u32 : Spec u32 (λ bs v, bs = enc_u32 v ∧ u32_ok v).
Proof. exact (Spec_fixed 4). Qed.
Lemma Spec_u64 : Spec u64 (λ bs v, bs = enc_u64 v ∧ u64_ok v).
Proof. exact (Spec_fixed 8). Qed.
Lemma Spec_f32 : Spec Cursor.f32 (λ bs v, bs = enc_u32 v ∧ u32_ok v).
Proof. exact (Spec_fixed 4). Qed.
Lemma Spec_f64 : Spec Cursor.f64 (λ bs v, bs = enc_u64 v ∧ u64_ok v).
Proof. exact (Spec_fixed 8). Qed.
Lemma Parses_u16 v : u16_ok v → Parses u16 (enc_u16 v) v.
Proof. exact (Parses_fixed 2 v). Qed.
Lemma Parses_u32 v : u32_ok v → Parses u32 (enc_u32 v) v.
Proof. exact (Parses_fixed 4 v). Qed.
Lemma Parses_u64 v : u64_ok v → Parses u64 (enc_u64 v) v.
Proof. exact (Parses_fixed 8 v). Qed.
Lemma Parses_f32 v : u32_ok v → Parses Cursor.f32 (enc_u32 v) v.
Proof. exact (Parses_fixed 4 v). Qed.
Lemma Parses_f64 v : u64_ok v → Parses Cursor.f64 (enc_u64 v) v.
Proof. exact (Parses_fixed 8 v). Qed.

Lemma u8_fixed c : u8 c = fixed 1 c.
Proof.
  unfold u8, fixed. cbv [mbind M_bind]. change (N.of_nat 1) with 1.
  destruct (take 1 c) as [[[|b bs] c']| | |]; try done.
  cbv [lift index]. cbn. do 2 f_equal. lia.
Qed.

Lemma Spec_ext {A} (p q : M Cursor.t A) R : (∀ c, p c = q c) → Spec q R → Spec p R.
Proof. intros E H pre rest Hf. rewrite E. by apply H. Qed.
Lemma Parses_ext {A} (p q : M Cursor.t A) bs a : (∀ c, p c = q c) → Parses q bs a → Parses p bs a.
Proof. intros E H pre rest Hf. rewrite E. by apply H. Qed.

Lemma Spec_u8 : Spec u8 (λ bs v, bs = enc_u8 v ∧ u8_ok v).
Proof. eapply Spec_ext; [apply u8_fixed | exact (Spec_fixed 1)]. Qed.
Lemma Parses_u8 v : u8_ok v → Parses u8 (enc_u8 v) v.
Proof. intros H. eapply Parses_ext; [apply u8_fixed | by apply (Parses_fixed 1)]. Qed.

Create HintDb wire.
#[export] Hint Resolve Spec_u8 Spec_u16 Spec_u32 Spec_u64 Spec_f32 Spec_f64 Spec_take : wire.
#[export] Hint Resolve Parses_u8 Parses_u16 Parses_u32 Parses_u64 Parses_f32 Parses_f64 Parses_take : wire.

(** [spec] follows a decoder: it applies the rule of each step, splits each
    test, and stops at the first relation left to prove. *)
Ltac spec_pre :=
  intros; cbn beta in *; destruct_and?; simplify_eq;
  repeat match goal with u : () |- _ => destruct u end.
Ltac spec1 :=
  match goal with
  | |- Spec (mret _) _ => apply Spec_ret
  | |- Spec (fail_with (invalid _)) _ => apply Spec_fail
  | |- Spec (mbind _ get_remaining) _ => apply Spec_remaining; intros
  | |- Spec (mbind _ (lift _)) _ => eapply Spec_bind; [apply Spec_pure; solve [eauto 2 with wire] | spec_pre]
  | |- Spec (mbind _ (mret _)) _ => eapply (Spec_bind _ (λ bs a, bs = [] ∧ a = _)); [by apply Spec_ret | spec_pre]
  | |- Spec (mbind _ _) _ => eapply Spec_bind; [solve [eauto 2 with wire] | spec_pre]
  | |- Spec (if ?b then _ else _) _ => let E := fresh "E" in destruct b eqn:E
  end.
Ltac spec := repeat spec1.

Lemma u8_of_boolean (b : bool) : u8_ok (if b then 1 else 0).
Proof. unfold u8_ok. destruct b; lia. Qed.
#[export] Hint Resolve u8_of_boolean : wire.

Lemma Spec_boolean : Spec boolean (λ bs b, bs = enc_bool b).
Proof.
  unfold boolean. spec; b2p; subst; by rewrite app_nil_r.
Qed.

Lemma Parses_boolean b : Parses boolean (enc_bool b) b.
Proof.
  eapply Parses_bind_nil; [apply Parses_u8, u8_of_boolean|]. destruct b; apply Parses_ret.
Qed.

Lemma bytes_ok_u32 s : bytes_ok s → u32_ok (lenN s).
Proof. unfold bytes_ok, u32_ok, MAX_STRING_BYTES. lia. Qed.
#[export] Hint Resolve bytes_ok_u32 : wire.

Lemma Spec_byte_string : Spec byte_string (λ bs s, bs = enc_str s ∧ bytes_ok s).
Proof.
  unfold byte_string. eapply Spec_bind; [apply Spec_u32|]. intros ? n [-> _].
  destruct (MAX_STRING_BYTES <? n) eqn:E; [apply Spec_fail|]. b2p.
  eapply Spec_weaken; [apply Spec_take|]. intros bs s [-> <-]. done.
Qed.

Lemma Parses_byte_string s : bytes_ok s → Parses byte_string (enc_str s) s.
Proof.
  intros H. eapply Parses_bind; [apply Parses_u32; auto with wire|].
  unfold bytes_ok in H. destruct (N.ltb_spec MAX_STRING_BYTES (lenN s)); [lia|]. apply Parses_take.
Qed.
#[export] Hint Resolve Spec_boolean Spec_byte_string Parses_boolean Parses_byte_string : wire.

Lemma from_utf8_tame s m : tame (from_utf8 s (invalid m)).
Proof. unfold from_utf8. by destruct (utf8_valid s). Qed.
Lemma from_utf8_Ok s e v : from_utf8 s e = Ok v ↔ v = s ∧ utf8_valid s = true.
Proof. unfold from_utf8. destruct (utf8_valid s); naive_solver. Qed.
#[export] Hint Resolve from_utf8_tame : wire.

Lemma Spec_string : Spec Cursor.string (λ bs s, bs = enc_str s ∧ str_ok s).
Proof.
  unfold Cursor.string. eapply Spec_bind; [apply Spec_byte_string|]. intros ? s [-> Hs].
  eapply Spec_weaken; [apply Spec_pure; auto with wire|]. intros ? ? [-> [-> ?]%from_utf8_Ok].
  by rewrite app_nil_r.
Qed.

Lemma Parses_string s : str_ok s → Parses Cursor.string (enc_str s) s.
Proof.
  intros [Hs Hu]. eapply Parses_bind_nil; [by apply Parses_byte_string|].
  apply Parses_lift. unfold from_utf8. by rewrite Hu.
Qed.

Lemma validate_record_id_spec id :
  match validate_record_id id with
  | Ok _ => 0 < lenN id <= MAX_RECORD_ID_BYTES
  | Err e => code e = "E_INVALID_ARGUMENT"%string ∧ (lenN id = 0 ∨ MAX_RECORD_ID_BYTES < lenN id)
  | _ => False
  end.
Proof.
  unfold validate_record_id.
  destruct (N.eqb_spec (lenN id) 0); [by auto|].
  destruct (N.ltb_spec MAX_RECORD_ID_BYTES (lenN id)); [by auto|]. lia.
Qed.

Lemma validate_record_id_Ok id : 0 < lenN id <= MAX_RECORD_ID_BYTES → validate_record_id id = Ok ().
Proof.
  intros H. pose proof (validate_record_id_spec id). destruct (validate_record_id id) as [[]| | |]; try done. lia.
Qed.

Lemma Spec_record_id : Spec record_id (λ bs s, bs = enc_str s ∧ id_ok s).
Proof.
  unfold record_id. eapply Spec_bind; [apply Spec_string|]. intros ? s [-> Hs].
  eapply (Spec_bind _ (λ bs _, bs = [] ∧ 0 < lenN s <= MAX_RECORD_ID_BYTES)).
  - apply Spec_lift. pose proof (validate_record_id_spec s).
    destruct (validate_record_id s) as [[]| | |]; naive_solver.
  - intros ? [] [-> ?]. apply Spec_ret. by rewrite !app_nil_r.
Qed.

Lemma Parses_record_id s : id_ok s → Parses record_id (enc_str s) s.
Proof.
  intros [Hs Hl]. eapply Parses_bind_nil; [by apply Parses_string|].
  eapply Parses_bind_nil; [by apply Parses_lift, validate_record_id_Ok|]. apply Parses_ret.
Qed.
#[export] Hint Resolve Spec_string Spec_record_id Parses_string Parses_record_id : wire.

(** ** Frames *)
Definition enc_header (magic : bytes) : bytes := magic ++ enc_u16 PROTOCOL_VERSION.

Lemma new_spec bs magic : length magic = 4%nat →
  match Cursor.new bs magic with
  | Ok c => ∃ rest, bs = enc_header magic ++ rest ∧ c = at_ (enc_header magic) rest
  | Err e => code e = "E_INVALID_ARGUMENT"%string ∧ ∀ rest, bs ≠ enc_header magic ++ rest
  | Panic | Fuel => False
  end.
Proof.
  intros Hm. unfold Cursor.new.
  destruct ((lenN bs <? 6) || _) eqn:E.
  { split; [done|]. intros rest ->. apply orb_true_iff in E as [E|E]; b2p.
    - unfold enc_header in E. autorewrite with len in E. unfold lenN in E. lia.
    - apply bool_decide_eq_false in E. apply E. unfold enc_header. rewrite <- app_assoc, <- Hm.
      apply take_app_length. }
  b2p. apply bool_decide_eq_true in H0. unfold lenN in H.
  assert (∃ b4 b5 rest, bs = magic ++ b4 :: b5 :: rest) as (b4 & b5 & rest & ->).
  { destruct bs as [|? [|? [|? [|? [|b4 [|b5 rest]]]]]]; cbn [length] in H; try lia.
    exists b4, b5, rest. by rewrite <- H0. }
  unfold index.
  rewrite !lookup_app_r by lia. rewrite Hm.
  change ((b4 :: b5 :: rest) !! (4 - 4)%nat) with (Some b4).
  change ((b4 :: b5 :: rest) !! (5 - 4)%nat) with (Some b5). cbn [unwrap mbind outcome_bind].
  destruct (N.eqb_spec (le_combine [b4; b5]) PROTOCOL_VERSION) as [Hv|Hv]; cbn [negb].
  - exists rest. assert ([b4; b5] = enc_u16 PROTOCOL_VERSION) as Hb.
    { rewrite <- Hv. symmetry. apply (le_split_combine [b4; b5]). }
    unfold enc_header. rewrite <- Hb, <- app_assoc. split; [done|].
    unfold at_. rewrite <- app_assoc. cbn. f_equal. unfold lenN. rewrite length_app, Hm. done.
  - split; [done|]. intros rest' Heq. unfold enc_header in Heq. rewrite <- app_assoc in Heq.
    apply app_inv_head in Heq. apply Hv. unfold enc_u16 in Heq. cbn in Heq. by simplify_eq.
Qed.

Lemma new_header magic rest :
  length magic = 4%nat → Cursor.new (enc_header magic ++ rest) magic = Ok (at_ (enc_header magic) rest).
Proof.
  intros Hm. pose proof (new_spec (enc_header magic ++ rest) magic Hm) as H.
  destruct (Cursor.new _ _); try done.
  - destruct H as (rest' & E & ->). by apply app_inv_head in E as <-.
  - by destruct H as [_ H]; destruct (H rest).
Qed.

Lemma finish_at pre rest :
  Cursor.finish (at_ pre rest) =
    if bool_decide (rest = []) then Ok () else Err (invalid "packed request has trailing bytes").
Proof.
  unfold Cursor.finish, at_; cbn. rewrite lenN_app. destruct rest as [|b rest].
  - rewrite N.add_0_r, N.eqb_refl. done.
  - destruct (N.eqb_spec (lenN pre) (lenN pre + lenN (b :: rest))); [len_lia | done].
Qed.

(** ** The rules with a budget *)
Section RulesX.
Context {X A B : Type}.
Implicit Types (R : bytes → A → X → Prop) (p : M (Cursor.t * X) A) (x : X).

Lemma SpecX_weaken p x R (R' : bytes → A → X → Prop) :
  SpecX p x R → (∀ bs a x', R bs a x' → R' bs a x') → SpecX p x R'.
Proof.
  intros H HR pre rest Hf. specialize (H pre rest Hf).
  destruct (p _) as [[a [c x']]| | |]; try done. destruct H as (bs & post & ? & ? & ?); eauto 10.
Qed.

Lemma SpecX_ret (a : A) x R : R [] a x → SpecX (mret a) x R.
Proof. intros H pre rest _. exists [], rest. by rewrite app_nil_r. Qed.

Lemma SpecX_fail m x R : SpecX (fail_with (invalid m)) x R.
Proof. intros pre rest _. done. Qed.

Lemma SpecX_bind p x R (f : A → M (Cursor.t * X) B) (R' : bytes → B → X → Prop) :
  SpecX p x R → (∀ bs a x', R bs a x' → SpecX (f a) x' (λ bs' b x'', R' (bs ++ bs') b x'')) →
  SpecX (mbind f p) x R'.
Proof.
  intros Hp Hf pre rest Hfit. specialize (Hp pre rest Hfit). cbv [mbind M_bind].
  destruct (p _) as [[a [c x']]| | |]; try done. destruct Hp as (bs & post & -> & -> & HR).
  specialize (Hf bs a x' HR (pre ++ bs) post). rewrite <- app_assoc in Hf. specialize (Hf Hfit).
  destruct (f a _) as [[b [c' x'']]| | |]; try done. destruct Hf as (bs' & post' & -> & -> & ?).
  exists (bs ++ bs'), post'. by rewrite <- !app_assoc.
Qed.

Lemma SpecX_lift (r : outcome A) x R :
  match r with Ok a => R [] a x | Err e => code e = "E_INVALID_ARGUMENT"%string | _ => False end →
  SpecX (lift r) x R.
Proof.
  intros H pre rest _. unfold lift. destruct r as [a| | |]; try done.
  exists [], rest. by rewrite app_nil_r.
Qed.

Lemma SpecX_fst (q : M Cursor.t A) x (R : bytes → A → Prop) :
  Spec q R → SpecX (on_fst q) x (λ bs a x', R bs a ∧ x' = x).
Proof.
  intros H pre rest Hf. specialize (H pre rest Hf). cbn.
  destruct (q _) as [[a c]| | |]; try done. destruct H as (bs & post & ? & ? & ?); eauto 10.
Qed.

Lemma SpecX_snd (q : M X A) x R :
  match q x with Ok (a, x') => R [] a x' | Err e => code e = "E_INVALID_ARGUMENT"%string | _ => False end →
  SpecX (on_snd q) x R.
Proof.
  intros H pre rest Hf. cbn. destruct (q x) as [[a x']| | |]; try done.
  exists [], rest. by rewrite app_nil_r.
Qed.

(** A budget step that fails only with E_INVALID_ARGUMENT. *)
Definition clean (q : M X A) x : Prop := tame (q x).

Lemma SpecX_step (q : M X A) x :
  clean q x → SpecX (on_snd q) x (λ bs a x', bs = [] ∧ q x = Ok (a, x')).
Proof. unfold clean, tame. intros H. apply SpecX_snd. by destruct (q x) as [[a x']| | |]. Qed.

Lemma SpecX_pure (r : outcome A) x :
  tame r → SpecX (lift r) x (λ bs a x', bs = [] ∧ r = Ok a ∧ x' = x).
Proof. unfold tame. intros H. apply SpecX_lift. by destruct r. Qed.

Lemma SpecX_remaining (f : N → M (Cursor.t * X) A) x R :
  (∀ n, SpecX (f n) x R) → SpecX (mbind f (on_fst get_remaining)) x R.
Proof.
  intros H pre rest Hf. cbv [mbind M_bind on_fst]. rewrite get_remaining_at by done. by apply H.
Qed.

Lemma ParsesX_ret (a : A) x : ParsesX (mret a) x [] a x.
Proof. intros pre post _. by rewrite app_nil_r. Qed.

Lemma ParsesX_bind p x (f : A → M (Cursor.t * X) B) bs a x' bs' b x'' :
  ParsesX p x bs a x' → ParsesX (f a) x' bs' b x'' → ParsesX (mbind f p) x (bs ++ bs') b x''.
Proof.
  intros Hp Hf pre post Hfit. rewrite <- app_assoc in *.
  erewrite M_bind_step; [|by apply Hp]. rewrite !app_assoc in *. apply Hf. by rewrite <- !app_assoc in *.
Qed.

Lemma ParsesX_bind_nil p x (f : A → M (Cursor.t * X) B) bs a x' b x'' :
  ParsesX p x bs a x' → ParsesX (f a) x' [] b x'' → ParsesX (mbind f p) x bs b x''.
Proof. intros. rewrite <- (app_nil_r bs). by eapply ParsesX_bind. Qed.

Lemma ParsesX_nil_bind p x (f : A → M (Cursor.t * X) B) a x' bs b x'' :
  ParsesX p x [] a x' → ParsesX (f a) x' bs b x'' → ParsesX (mbind f p) x bs b x''.
Proof. intros. change bs with ([] ++ bs). by eapply ParsesX_bind. Qed.

Lemma ParsesX_lift (r : outcome A) a x : r = Ok a → ParsesX (lift r) x [] a x.
Proof. intros -> pre post _. unfold lift. by rewrite app_nil_r. Qed.

Lemma ParsesX_fst (q : M Cursor.t A) x bs a : Parses q bs a → ParsesX (on_fst q) x bs a x.
Proof. intros H pre post Hf. cbn. by rewrite H. Qed.

Lemma ParsesX_snd (q : M X A) x a x' : q x = Ok (a, x') → ParsesX (on_snd q) x [] a x'.
Proof. intros H pre post Hf. cbn. by rewrite H, app_nil_r. Qed.

Lemma ParsesX_remaining (f : N → M (Cursor.t * X) A) x bs a x' :
  (∀ n, lenN bs <= n → ParsesX (f n) x bs a x') → ParsesX (mbind f (on_fst get_remaining)) x bs a x'.
Proof.
  intros H pre post Hf. cbv [mbind M_bind on_fst]. rewrite get_remaining_at by done.
  apply H; [len_lia | done].
Qed.

End RulesX.

(** A loop threads the budget through its iterations. *)
Section Chains.
Context {X A : Type}.
Implicit Types (p : M (Cursor.t * X) A) (x : X).

Inductive Chain (R : X → bytes → A → X → Prop) : X → list bytes → list A → X → Prop :=
| Chain_nil x : Chain R x [] [] x
| Chain_cons x bs a x' bss l x'' :
    R x bs a x' → Chain R x' bss l x'' → Chain R x (bs :: bss) (a :: l) x''.

Lemma SpecX_replicateM p (R : X → bytes → A → X → Prop) n x :
  (∀ x, SpecX p x (R x)) →
  SpecX (replicateM n p) x (λ bs l x', ∃ bss, bs = concat bss ∧ Chain R x bss l x' ∧ length l = n).
Proof.
  intros Hp. revert x. induction n as [|n IH]; intros x; cbn [replicateM].
  - apply SpecX_ret. exists []. repeat constructor.
  - eapply SpecX_bind; [apply Hp|]. intros bs a x' HR. eapply SpecX_bind; [apply IH|].
    intros bs' l x'' (bss & -> & HC & <-). apply SpecX_ret. exists (bs :: bss). cbn.
    rewrite app_nil_r. eauto using Chain.
Qed.

Lemma ParsesX_replicateM p (R : X → bytes → A → X → Prop) x bss l x' :
  (∀ x bs a x', R x bs a x' → a ∈ l → ParsesX p x bs a x') →
  Chain R x bss l x' → ParsesX (replicateM (length l) p) x (concat bss) l x'.
Proof.
  intros Hp HC. induction HC as [x|x bs a x1 bss l x2 HR HC IH]; cbn [replicateM length concat].
  - apply ParsesX_ret.
  - eapply ParsesX_bind; [apply Hp; [exact HR | left]|]. eapply ParsesX_bind_nil.
    + apply IH. intros. apply Hp; [done | by right].
    + apply ParsesX_ret.
Qed.

Lemma Chain_impl (R R' : X → bytes → A → X → Prop) x bss l x' :
  (∀ x bs a x', a ∈ l → R x bs a x' → R' x bs a x') → Chain R x bss l x' → Chain R' x bss l x'.
Proof.
  intros H HC. induction HC as [|x bs a x1 bss l x2 HR HC IH]; [constructor|].
  econstructor; [apply H; [left|done]|]. apply IH. intros. apply H; [by right | done].
Qed.
End Chains.

(** [spec] for decoders with a budget. *)
Ltac specx1 :=
  match goal with
  | |- SpecX (mret _) _ _ => apply SpecX_ret
  | |- SpecX (fail_with (invalid _)) _ _ => apply SpecX_fail
  | |- SpecX (mbind _ (on_fst get_remaining)) _ _ => apply SpecX_remaining; intros
  | |- SpecX (mbind _ (on_fst _)) _ _ =>
      eapply SpecX_bind; [apply SpecX_fst; solve [eauto 2 with wire] | spec_pre]
  | |- SpecX (if ?b then _ else _) _ _ => let E := fresh "E" in destruct b eqn:E
  end.
Ltac specx := repeat specx1.

(** [string_with_budget] debits exactly the bytes of the string it returns. *)
Lemma SpecX_string_with_budget label r :
  SpecX (string_with_budget label) r (λ bs s r', bs = enc_str s ∧ str_ok s ∧ r = r' + lenN s).
Proof.
  unfold string_with_budget. specx.
  eapply (SpecX_bind _ _ (λ bs _ r', bs = [] ∧ r' = r ∧ a <= r ∧ a <= MAX_STRING_BYTES)).
  { intros pre rest Hf. cbn. destruct (N.ltb_spec r a), (N.ltb_spec MAX_STRING_BYTES a); cbn; try done.
    exists [], rest. by rewrite app_nil_r. }
  intros; destruct_and?; simplify_eq.
  eapply (SpecX_bind _ _ (λ bs _ r', bs = [] ∧ r' = r - a)).
  { apply SpecX_snd. unfold usize_sub, checked_sub.
    destruct (N.leb_spec a r); [done | lia]. }
  intros; destruct_and?; simplify_eq. specx.
  apply SpecX_lift. unfold from_utf8. destruct (utf8_valid bs) eqn:Hu; [|done].
  rewrite !app_nil_r. split; [done|]. split; [done|]. lia.
Qed.

Lemma ParsesX_string_with_budget label s r :
  str_ok s → ParsesX (string_with_budget label) (r + lenN s) (enc_str s) s r.
Proof.
  intros [Hs Hu]. unfold string_with_budget.
  eapply ParsesX_bind; [apply ParsesX_fst, Parses_u32; auto with wire|].
  eapply ParsesX_nil_bind.
  { intros pre post Hf. cbn. unfold bytes_ok in Hs.
    destruct (N.ltb_spec (r + lenN s) (lenN s)); [lia|].
    destruct (N.ltb_spec MAX_STRING_BYTES (lenN s)); [lia|]. cbn. by rewrite app_nil_r. }
  eapply ParsesX_nil_bind.
  { apply ParsesX_snd. unfold usize_sub, checked_sub. destruct (N.leb_spec (lenN s) (r + lenN s)); [|lia].
    cbn. by rewrite N.add_sub. }
  eapply ParsesX_bind_nil; [apply ParsesX_fst, Parses_take|].
  apply ParsesX_lift. unfold from_utf8. by rewrite Hu.
Qed.
