(* ===== verification/Request.v ===== *)
(** * The request data of src/src/protocol.rs and src/src/catalog.rs

    One module per Rust struct or enum, with the source's field and variant
    names.  Strings are UTF-8 byte lists, [usize]/[u32]/[u8] are [N], floats are
    their bit patterns ([Bytes.f32], [Bytes.f64]). *)
From S2P Require Import Prelude.
From S2P Require Import Errors.
From S2P Require Import Bytes.
From S2P Require Import Wire.
Local Open Scope N_scope.

Definition MAX_FIELDS : N := 1024.
Definition MAX_SYNONYM_RULES : N := 1024.
Definition MAX_SYNONYM_REPLACEMENTS : N := 16.
Definition MUTATION_BATCH_HEADER_BYTES : N := 14.
Definition MIN_MUTATION_BATCH_BYTES : N := MUTATION_BATCH_HEADER_BYTES + 10.
Definition MAX_QUERY_TEXT_BYTES : N := 64 * 1024.
Definition MAX_QUERY_TERMS : N := 64.
Definition MAX_QUERY_CLAUSES : N := 256.
Definition MAX_CONFIGURED_QUERY_TERMS : N := 1024.
Definition MAX_CONFIGURED_QUERY_CLAUSES : N := 4096.
Definition MAX_EXPRESSION_DEPTH : N := 8.
Definition MAX_CANDIDATE_IDS : N := 1024.
Definition MAX_CANDIDATE_BYTES : N := 1048576.
Definition MAX_SEARCH_WINDOW : N := 10000.
Definition MAX_SEARCH_PAGE_SIZE : N := 10000.
Definition MAX_AUTOCOMPLETE_RESULTS : N := 100.
Definition MAX_SEARCH_REQUEST_BYTES : N := 8388608.
Definition MAX_SEARCH_RESPONSE_BYTES : N := 8388608.
Definition MAX_SEARCH_BUDGET_MILLISECONDS : N := 30000.
Definition MAX_TRACE_RECORDS : N := 100.
Definition MAX_TRACE_SOURCE_BYTES : N := 1048576.
Definition MAX_TRACE_SPANS : N := 1024.
Definition MAX_FUZZY_DISTANCE : N := 2.
Definition MAX_FUZZY_TERMS : N := 16.
Definition MAX_PREFIX_EXPANSIONS : N := 50.
Definition MAX_AGGREGATION_DEPTH : N := 32.

Module FieldConfig.
Record t := mk { name : bytes; weight : f32 }.
End FieldConfig.

Module FilterFieldType.
Inductive t := String | Number | Boolean.
End FilterFieldType.
#[export] Instance FilterFieldType_eq_dec : EqDecision FilterFieldType.t.
Proof. solve_decision. Defined.

Module FilterFieldConfig.
Record t := mk { name : bytes; field_type : FilterFieldType.t }.
End FilterFieldConfig.

Module Limits.
Record t := mk {
  max_query_terms : N; max_query_clauses : N; indexing_threads : N; search_threads : N;
  writer_memory_bytes : N; max_queued_commands : N; max_queued_bytes : N; max_batch_bytes : N }.
End Limits.

Module RuntimeBudgetLimits.
Record t := mk {
  max_resident_indexes : N; max_indexing_threads : N; max_search_threads : N;
  max_writer_memory_bytes : N; max_queued_bytes : N; max_expensive_searches : N }.
End RuntimeBudgetLimits.

Module SynonymRule.
Record t := mk { source : bytes; replacements : list bytes }.
End SynonymRule.

Module EngineIdentityConfig.
Record t := mk {
  index_id : bytes; generation : bytes; fields : list FieldConfig.t; analyzer : bytes;
  stop_words : bool; positions : bool; surface_terms : bool;
  synonyms : list SynonymRule.t; filter_fields : list FilterFieldConfig.t }.
End EngineIdentityConfig.

Module EngineConfig.
Record t := mk { identity : EngineIdentityConfig.t; limits : Limits.t }.
End EngineConfig.

Module NativeOpenConfig.
Record t := mk { path : bytes; engine : EngineConfig.t }.
End NativeOpenConfig.
Module NativeInspectConfig.
Record t := mk { path : bytes; identity : EngineIdentityConfig.t }.
End NativeInspectConfig.
Module NativeResetConfig.
Record t := mk { path : bytes; index_id : bytes }.
End NativeResetConfig.

Module FilterValue.
Inductive t := String (s : bytes) | Number (v : f64) | Boolean (b : bool).
End FilterValue.

Module FilterComparator.
Inductive t := Equals | In | Lt | Le | Gt | Ge | Between | Exists | Missing.
End FilterComparator.
#[export] Instance FilterComparator_eq_dec : EqDecision FilterComparator.t.
Proof. solve_decision. Defined.

Module FilterExpression.
Inductive t :=
| Clause (field : bytes) (comparator : FilterComparator.t) (values : list FilterValue.t)
| And (children : list t)
| Or (children : list t)
| Not (child : t).

Section Ind.
Context (P : t → Prop)
  (HClause : ∀ f c vs, P (Clause f c vs))
  (HAnd : ∀ ch, Forall P ch → P (And ch))
  (HOr : ∀ ch, Forall P ch → P (Or ch))
  (HNot : ∀ c, P c → P (Not c)).
Fixpoint ind (e : t) : P e :=
  let all := fix all (l : list t) : Forall P l :=
    match l with [] => Forall_nil_2 _ | c :: l => Forall_cons_2 _ _ _ (ind c) (all l) end in
  match e with
  | Clause f c vs => HClause f c vs
  | And ch => HAnd ch (all ch)
  | Or ch => HOr ch (all ch)
  | Not c => HNot c (ind c)
  end.
End Ind.
End FilterExpression.

Module Upsert.
Record t := mk {
  id : bytes; version : option bytes; fields : list (bytes * list bytes);
  filters : list (bytes * list FilterValue.t) }.
End Upsert.
Module MutationBatch.
Record t := mk { upserts : list Upsert.t; deletes : list bytes }.
End MutationBatch.

Module SearchMode.
Inductive t := Any | All | Phrase | Prefix | Fuzzy | FuzzyPrefix.
End SearchMode.
#[export] Instance SearchMode_eq_dec : EqDecision SearchMode.t.
Proof. solve_decision. Defined.

Module QueryOptions.
Record t := mk { fuzzy_distance : N; fuzzy_transpositions : bool }.
End QueryOptions.

Module SearchClause.
Record t := mk { text : bytes; mode : SearchMode.t; options : QueryOptions.t; fields : list bytes }.
End SearchClause.

Module SearchExpression.
Inductive t :=
| Clause (clause : SearchClause.t)
| And (children : list t)
| Or (children : list t)
| Not (child : t)
| Boost (boost : f32) (clause : t)
| Optional (required : t) (optional : list t).

Section Ind.
Context (P : t → Prop)
  (HClause : ∀ c, P (Clause c))
  (HAnd : ∀ ch, Forall P ch → P (And ch))
  (HOr : ∀ ch, Forall P ch → P (Or ch))
  (HNot : ∀ c, P c → P (Not c))
  (HBoost : ∀ b c, P c → P (Boost b c))
  (HOptional : ∀ r o, P r → Forall P o → P (Optional r o)).
Fixpoint ind (e : t) : P e :=
  let all := fix all (l : list t) : Forall P l :=
    match l with [] => Forall_nil_2 _ | c :: l => Forall_cons_2 _ _ _ (ind c) (all l) end in
  match e with
  | Clause c => HClause c
  | And ch => HAnd ch (all ch)
  | Or ch => HOr ch (all ch)
  | Not c => HNot c (ind c)
  | Boost b c => HBoost b c (ind c)
  | Optional r o => HOptional r o (ind r) (all o)
  end.
End Ind.
End SearchExpression.

Module SortDirection.
Inductive t := Asc | Desc.
End SortDirection.
Module MissingOrder.
Inductive t := First | Last.
End MissingOrder.
Module SortRequest.
Record t := mk { field : bytes; direction : SortDirection.t; missing : MissingOrder.t }.
End SortRequest.

Module AggregationKind.
Inductive t :=
| Terms (size : N)
| Stats
| Histogram (interval : f64)
| Range (ranges : list (option f64 * option f64)).
End AggregationKind.

Module AggregationRequest.
Inductive t := mk (name field : bytes) (kind : AggregationKind.t) (aggregations : list t).
Definition name (a : t) : bytes := let 'mk n _ _ _ := a in n.
Definition field (a : t) : bytes := let 'mk _ f _ _ := a in f.
Definition kind (a : t) : AggregationKind.t := let 'mk _ _ k _ := a in k.
Definition aggregations (a : t) : list t := let 'mk _ _ _ l := a in l.

Section Ind.
Context (P : t → Prop) (Hmk : ∀ n f k l, Forall P l → P (mk n f k l)).
Fixpoint ind (a : t) : P a :=
  let all := fix all (l : list t) : Forall P l :=
    match l with [] => Forall_nil_2 _ | c :: l => Forall_cons_2 _ _ _ (ind c) (all l) end in
  match a with mk n f k l => Hmk n f k l (all l) end.
End Ind.
End AggregationRequest.

Module SearchBoundary.
Record t := mk { snapshot : bytes; score : f32; id : bytes }.
End SearchBoundary.

Module SearchRequest.
Record t := mk {
  sort : option (list SortRequest.t); aggregations : list AggregationRequest.t;
  expression : SearchExpression.t; candidate_ids : option (list bytes);
  filter : option FilterExpression.t; offset : N; limit : N; exact_total : bool;
  budget_milliseconds : N; traversal : bool; after : option SearchBoundary.t }.
End SearchRequest.

Module TraceRecord.
Record t := mk { id : bytes; fields : list (bytes * list bytes) }.
End TraceRecord.
Module TraceRequest.
Record t := mk { recovery : bool; search : SearchRequest.t; records : list TraceRecord.t }.
End TraceRequest.
