(* ===== verification/Structure.v ===== *)
(** * src/src/protocol.rs: structural limits of a search expression

    [SearchStructureBudget], the walker [validate_search_structure] and the
    scalar validators, with their declarative meaning: an expression is
    admitted exactly when its nesting, compiled-clause cost, query text, field
    counts, boosts and child counts are within bounds. *)
From S2P Require Import Prelude.
From S2P Require Import Errors.
From S2P Require Import Bytes.
From S2P Require Import Wire.
From S2P Require Import Request.
Local Open Scope N_scope.

Definition validate_query_limits (terms clauses : N) : outcome () :=
  if (terms =? 0) || (MAX_CONFIGURED_QUERY_TERMS <? terms)
  then Err (invalid ("maxQueryTerms must be between 1 and " +:+ show MAX_CONFIGURED_QUERY_TERMS))
  else if (clauses =? 0) || (MAX_CONFIGURED_QUERY_CLAUSES <? clauses)
  then Err (invalid ("maxQueryClauses must be between 1 and " +:+ show MAX_CONFIGURED_QUERY_CLAUSES))
  else Ok ().

Module SearchStructureBudget.
Record t := mk { limit : N; remaining : N; text_bytes : N; fields : N }.

Definition new (limit fields : N) : outcome t :=
  _ ← validate_query_limits MAX_QUERY_TERMS limit; Ok (mk limit limit 0 fields).

Definition depth (d : N) : M t () := λ s,
  if MAX_EXPRESSION_DEPTH <? d
  then Err (invalid ("search expression nesting exceeds " +:+ show MAX_EXPRESSION_DEPTH +:+ " levels"))
  else Ok ((), s).

Definition charge (cost : N) : M t () := λ s,
  r ← ok_or (checked_sub s.(remaining) cost)
        (invalid ("search structure exceeds " +:+ show s.(limit) +:+ " compiled clauses"));
  Ok ((), mk s.(limit) r s.(text_bytes) s.(fields)).

Definition children (count : N) : M t () :=
  if count =? 0
  then fail_with (invalid "boolean search expressions require at least one child")
  else charge count.

Definition optional_children (count : N) : M t () :=
  if count =? 0
  then fail_with (invalid "optional scoring requires at least one optional clause")
  else charge count.

Definition leaf (text_len leaf_fields : N) : M t () := λ s,
  let text := saturating_add s.(text_bytes) text_len in
  if MAX_QUERY_TEXT_BYTES <? text
  then Err (invalid "search text exceeds 65536 UTF-8 bytes")
  else if s.(fields) <? leaf_fields
  then Err (invalid ("search field count exceeds " +:+ show s.(fields) +:+ " fields"))
  else Ok ((), mk s.(limit) s.(remaining) text s.(fields)).
End SearchStructureBudget.
Export SearchStructureBudget (charge, children, optional_children, leaf).

Definition validate_query_boost (boost : f32) : outcome () :=
  if negb (f32_is_finite boost) || f32_is_sign_negative boost || f32_gt boost F32_HUNDRED
  then Err (invalid "boost must be finite between 0 and 100 without negative zero")
  else Ok ().

(** The inner function [visit] of [validate_search_structure]. *)
Fixpoint visit (expression : SearchExpression.t) (depth : N) : M SearchStructureBudget.t () :=
  _ ← SearchStructureBudget.depth depth;
  match expression with
  | SearchExpression.Clause clause =>
      leaf (lenN clause.(SearchClause.text)) (lenN clause.(SearchClause.fields))
  | SearchExpression.And ch | SearchExpression.Or ch =>
      _ ← children (lenN ch); foldM (λ _ child, visit child (depth + 1)) () ch
  | SearchExpression.Boost boost clause =>
      _ ← lift (validate_query_boost boost); _ ← charge 1; visit clause (depth + 1)
  | SearchExpression.Optional required optional =>
      _ ← optional_children (lenN optional); _ ← charge 1;
      _ ← visit required (depth + 1);
      foldM (λ _ child, visit child (depth + 1)) () optional
  | SearchExpression.Not child => _ ← charge 2; visit child (depth + 1)
  end.

Definition validate_search_structure (expression : SearchExpression.t) (clauses fields : N) : outcome () :=
  b ← SearchStructureBudget.new clauses fields; run (visit expression 0) b.

Definition validate_search_window (offset limit : N) (traversal has_catalog : bool) : outcome () :=
  if limit =? 0 then Err (invalid "search limit must be greater than zero")
  else if traversal then
    if negb (offset =? 0) || (MAX_SEARCH_PAGE_SIZE <? limit)
    then Err (invalid ("searchPage requires offset zero and limit at most " +:+ show MAX_SEARCH_PAGE_SIZE
                       +:+ "; reduce page size, not total traversal results"))
    else Ok ()
  else if match checked_add offset limit with None => true | Some end_ => MAX_SEARCH_WINDOW <? end_ end
  then Err (invalid ("offset + limit must not exceed " +:+ show MAX_SEARCH_WINDOW +:+ "; "
            +:+ (if has_catalog then "metadata continuation is not supported"
                 else "use searchPage for deeper results")))
  else Ok ().

Definition is_expensive (mode : SearchMode.t) : bool :=
  match mode with
  | SearchMode.Phrase | SearchMode.Prefix | SearchMode.Fuzzy | SearchMode.FuzzyPrefix => true
  | _ => false
  end.

(** [QueryOptions::default] and [QueryOptions::validate] *)
Definition QueryOptions_default : QueryOptions.t := QueryOptions.mk 1 true.
Definition QueryOptions_validate (o : QueryOptions.t) (mode : SearchMode.t) : outcome () :=
  if MAX_FUZZY_DISTANCE <? o.(QueryOptions.fuzzy_distance)
  then Err (invalid "fuzzy distance must be between 0 and 2")
  else if negb (match mode with SearchMode.Fuzzy | SearchMode.FuzzyPrefix => true | _ => false end)
          && (negb (o.(QueryOptions.fuzzy_distance) =? 1) || negb o.(QueryOptions.fuzzy_transpositions))
  then Err (invalid "fuzzy options require fuzzy or fuzzy-prefix mode")
  else Ok ().

(** ** What the walker measures *)
Fixpoint height (e : SearchExpression.t) : N :=
  match e with
  | SearchExpression.Clause _ => 0
  | SearchExpression.And ch | SearchExpression.Or ch => 1 + foldr N.max 0 (height <$> ch)
  | SearchExpression.Boost _ c | SearchExpression.Not c => 1 + height c
  | SearchExpression.Optional r o => 1 + N.max (height r) (foldr N.max 0 (height <$> o))
  end.

Fixpoint compiled_clauses (e : SearchExpression.t) : N :=
  match e with
  | SearchExpression.Clause _ => 0
  | SearchExpression.And ch | SearchExpression.Or ch => lenN ch + sum (compiled_clauses <$> ch)
  | SearchExpression.Boost _ c => 1 + compiled_clauses c
  | SearchExpression.Not c => 2 + compiled_clauses c
  | SearchExpression.Optional r o =>
      lenN o + 1 + compiled_clauses r + sum (compiled_clauses <$> o)
  end.

Fixpoint text_total (e : SearchExpression.t) : N :=
  match e with
  | SearchExpression.Clause c => lenN c.(SearchClause.text)
  | SearchExpression.And ch | SearchExpression.Or ch => sum (text_total <$> ch)
  | SearchExpression.Boost _ c | SearchExpression.Not c => text_total c
  | SearchExpression.Optional r o => text_total r + sum (text_total <$> o)
  end.

Fixpoint well_shaped (fields : N) (e : SearchExpression.t) : Prop :=
  match e with
  | SearchExpression.Clause c => lenN c.(SearchClause.fields) <= fields
  | SearchExpression.And ch | SearchExpression.Or ch =>
      0 < lenN ch ∧ foldr and True (well_shaped fields <$> ch)
  | SearchExpression.Boost b c => validate_query_boost b = Ok () ∧ well_shaped fields c
  | SearchExpression.Not c => well_shaped fields c
  | SearchExpression.Optional r o =>
      0 < lenN o ∧ well_shaped fields r ∧ foldr and True (well_shaped fields <$> o)
  end.

Lemma foldr_max_le (l : list N) d n : d <= n → d + foldr N.max 0 l <= n ↔ Forall (λ h, d + h <= n) l.
Proof.
  intros Hd. induction l as [|a l IH]; cbn.
  - split; [constructor | lia].
  - rewrite Forall_cons, <- IH. lia.
Qed.

(** The state after [visit]: the cost and the text of [e] are charged. *)
Definition debit (b : SearchStructureBudget.t) (cost text : N) : SearchStructureBudget.t :=
  SearchStructureBudget.mk b.(SearchStructureBudget.limit)
    (b.(SearchStructureBudget.remaining) - cost)
    (b.(SearchStructureBudget.text_bytes) + text) b.(SearchStructureBudget.fields).

Definition fits_budget (b : SearchStructureBudget.t) (cost text : N) : Prop :=
  cost <= b.(SearchStructureBudget.remaining) ∧
  b.(SearchStructureBudget.text_bytes) + text <= MAX_QUERY_TEXT_BYTES.

Lemma debit_debit b c t c' t' : debit (debit b c t) c' t' = debit b (c + c') (t + t').
Proof. unfold debit; cbn. f_equal; lia. Qed.
Lemma debit_0 b : debit b 0 0 = b.
Proof. destruct b. unfold debit; cbn. f_equal; lia. Qed.
Lemma fits_budget_debit b c t c' t' :
  fits_budget b c t → fits_budget (debit b c t) c' t' ↔ fits_budget b (c + c') (t + t').
Proof. unfold fits_budget, debit; cbn. lia. Qed.

Section BudgetSteps.
Implicit Types b : SearchStructureBudget.t.

Lemma depth_Ok d b b' :
  SearchStructureBudget.depth d b = Ok ((), b') ↔ d <= MAX_EXPRESSION_DEPTH ∧ b' = b.
Proof.
  unfold SearchStructureBudget.depth. destruct (N.ltb_spec MAX_EXPRESSION_DEPTH d); split;
    intros; destruct_and?; simplify_eq; try done; lia.
Qed.

Lemma charge_Ok c b b' :
  charge c b = Ok ((), b') ↔ c <= b.(SearchStructureBudget.remaining) ∧ b' = debit b c 0.
Proof.
  unfold charge, checked_sub. destruct (N.leb_spec c b.(SearchStructureBudget.remaining)); cbn.
  - unfold debit. rewrite N.add_0_r. split; [intros; by simplify_eq | intros [_ ->]; done].
  - split; [done | lia].
Qed.

Lemma children_Ok n b b' :
  children n b = Ok ((), b') ↔ 0 < n ∧ n <= b.(SearchStructureBudget.remaining) ∧ b' = debit b n 0.
Proof.
  unfold children. destruct (N.eqb_spec n 0); [subst; split; [done | lia] | rewrite charge_Ok; naive_solver lia].
Qed.

Lemma optional_children_Ok n b b' :
  optional_children n b = Ok ((), b')
  ↔ 0 < n ∧ n <= b.(SearchStructureBudget.remaining) ∧ b' = debit b n 0.
Proof.
  unfold optional_children.
  destruct (N.eqb_spec n 0); [subst; split; [done | lia] | rewrite charge_Ok; naive_solver lia].
Qed.

Lemma leaf_Ok t f b b' :
  leaf t f b = Ok ((), b')
  ↔ b.(SearchStructureBudget.text_bytes) + t <= MAX_QUERY_TEXT_BYTES
    ∧ f <= b.(SearchStructureBudget.fields) ∧ b' = debit b 0 t.
Proof.
  unfold leaf, saturating_add, USIZE_MAX, MAX_QUERY_TEXT_BYTES, debit.
  destruct (N.ltb_spec (64 * 1024) (N.min (b.(SearchStructureBudget.text_bytes) + t) 18446744073709551615)).
  { split; [done | lia]. }
  rewrite N.min_l by lia. rewrite N.sub_0_r.
  destruct (N.ltb_spec b.(SearchStructureBudget.fields) f); [split; [done | lia]|].
  split; [intros; simplify_eq; repeat split; lia | intros (_ & _ & ->); done].
Qed.
End BudgetSteps.

Lemma clean_depth d b : clean (SearchStructureBudget.depth d) b.
Proof. unfold clean, SearchStructureBudget.depth. by case_if. Qed.
Lemma clean_charge c b : clean (charge c) b.
Proof. unfold clean, charge. by destruct (checked_sub _ _). Qed.
Lemma clean_children n b : clean (children n) b.
Proof. unfold children. destruct (n =? 0); [done | apply clean_charge]. Qed.
Lemma clean_optional_children n b : clean (optional_children n) b.
Proof. unfold optional_children. destruct (n =? 0); [done | apply clean_charge]. Qed.
Lemma clean_leaf t f b : clean (leaf t f) b.
Proof. unfold clean, leaf. by repeat case_if. Qed.
#[export] Hint Resolve clean_depth clean_charge clean_children clean_optional_children clean_leaf : wire.

Lemma validate_query_boost_tame x : tame (validate_query_boost x).
Proof. unfold validate_query_boost. by case_if. Qed.
#[export] Hint Resolve validate_query_boost_tame : wire.

(** ** The walker computes these measures *)
Definition visit_spec (e : SearchExpression.t) : Prop := ∀ d b b',
  b.(SearchStructureBudget.text_bytes) <= MAX_QUERY_TEXT_BYTES →
  visit e d b = Ok ((), b') ↔
  d + height e <= MAX_EXPRESSION_DEPTH ∧ fits_budget b (compiled_clauses e) (text_total e)
  ∧ well_shaped b.(SearchStructureBudget.fields) e
  ∧ b' = debit b (compiled_clauses e) (text_total e).

Lemma M_bind_unit {S B} (m : M S ()) (f : () → M S B) s b s'' :
  mbind f m s = Ok (b, s'') ↔ ∃ s', m s = Ok ((), s') ∧ f () s' = Ok (b, s'').
Proof. rewrite M_bind_Ok. split; [intros ([] & ?) | intros (s' & ?)]; eauto. Qed.

Lemma visit_children ch : Forall visit_spec ch → ∀ d b b',
  b.(SearchStructureBudget.text_bytes) <= MAX_QUERY_TEXT_BYTES →
  foldM (λ _ c, visit c d) () ch b = Ok ((), b') ↔
  Forall (λ c, d + height c <= MAX_EXPRESSION_DEPTH) ch
  ∧ fits_budget b (sum (compiled_clauses <$> ch)) (sum (text_total <$> ch))
  ∧ Forall (well_shaped b.(SearchStructureBudget.fields)) ch
  ∧ b' = debit b (sum (compiled_clauses <$> ch)) (sum (text_total <$> ch)).
Proof.
  induction 1 as [|c ch Hc Hch IH]; intros d b b' Ht; cbn [foldM fmap list_fmap sum foldr].
  - rewrite debit_0. unfold fits_budget. split.
    + intros [= <-]. repeat split; [constructor | lia | lia | constructor].
    + by intros (_ & _ & _ & ->).
  - rewrite M_bind_unit. fold (sum (compiled_clauses <$> ch)) (sum (text_total <$> ch)).
    rewrite !Forall_cons. setoid_rewrite (Hc d b _ Ht). split.
    + intros (b1 & (Hd1 & Hf & Hw & ->) & Hr). apply IH in Hr; [|unfold fits_budget in Hf; cbn; lia].
      destruct Hr as (? & Hf' & ? & ->). apply fits_budget_debit in Hf'; [|done].
      rewrite debit_debit. done.
    + intros ((? & ?) & Hf & (? & ?) & ->).
      assert (fits_budget b (compiled_clauses c) (text_total c)) as Hfc by (unfold fits_budget in *; lia).
      eexists. split; [split; [done|]; split; [done|]; split; [done|]; done|].
      apply IH; [unfold fits_budget in *; cbn; lia|]. rewrite fits_budget_debit, debit_debit by done. done.
Qed.

Lemma M_bind_det {S B} (m : M S ()) (f : () → M S B) s (P : Prop) x b s'' :
  (∀ s', m s = Ok ((), s') ↔ P ∧ s' = x) →
  mbind f m s = Ok (b, s'') ↔ P ∧ f () x = Ok (b, s'').
Proof. intros H. rewrite M_bind_unit. setoid_rewrite H. naive_solver. Qed.

Lemma heights_le ch d n :
  0 < lenN ch →
  Forall (λ c, d + height c <= n) ch ↔ d + foldr N.max 0 (height <$> ch) <= n.
Proof.
  intros Hlen. destruct ch as [|c ch]; [done|].
  assert (Forall (λ c, d + height c <= n) (c :: ch) ↔ Forall (λ h, d + h <= n) (height <$> (c :: ch)))
    as -> by (by rewrite Forall_fmap).
  split; intros H.
  - apply foldr_max_le; [|done]. cbn in H. apply Forall_cons in H. lia.
  - apply foldr_max_le; [lia | done].
Qed.

Local Ltac budget_arith :=
  unfold fits_budget, debit; cbn; split; intros; destruct_and?; subst;
  repeat split; try done; try lia; f_equal; lia.

Lemma visit_Ok e : visit_spec e.
Proof.
  induction e as [c|ch IH|ch IH|e IH|x e IH|r o IHr IHo] using SearchExpression.ind;
    intros d b b' Ht; cbn [visit height compiled_clauses text_total well_shaped];
    rewrite (M_bind_det _ _ _ _ _ _ _ (depth_Ok d b)).
  - rewrite leaf_Ok. budget_arith.
  - rewrite (M_bind_det _ _ _ (0 < lenN ch ∧ lenN ch <= b.(SearchStructureBudget.remaining)) (debit b (lenN ch) 0))
      by (intros; rewrite children_Ok; tauto).
    rewrite (visit_children ch IH), foldr_and_Forall by (cbn; lia). rewrite debit_debit.
    destruct (decide (0 < lenN ch)); [rewrite heights_le by done | naive_solver]. budget_arith.
  - rewrite (M_bind_det _ _ _ (0 < lenN ch ∧ lenN ch <= b.(SearchStructureBudget.remaining)) (debit b (lenN ch) 0))
      by (intros; rewrite children_Ok; tauto).
    rewrite (visit_children ch IH), foldr_and_Forall by (cbn; lia). rewrite debit_debit.
    destruct (decide (0 < lenN ch)); [rewrite heights_le by done | naive_solver]. budget_arith.
  - rewrite (M_bind_det _ _ _ _ _ _ _ (charge_Ok 2 b)), (IH _ (debit b 2 0)) by (cbn; lia).
    rewrite debit_debit. budget_arith.
  - rewrite (M_bind_det _ _ _ (validate_query_boost x = Ok ()) b).
    2:{ intros. unfold lift. destruct (validate_query_boost x) as [[]| | |]; naive_solver. }
    rewrite (M_bind_det _ _ _ _ _ _ _ (charge_Ok 1 b)), (IH _ (debit b 1 0)) by (cbn; lia).
    rewrite debit_debit. budget_arith.
  - rewrite (M_bind_det _ _ _ (0 < lenN o ∧ lenN o <= b.(SearchStructureBudget.remaining)) (debit b (lenN o) 0))
      by (intros; rewrite optional_children_Ok; tauto).
    rewrite (M_bind_det _ _ _ _ _ _ _ (charge_Ok 1 (debit b (lenN o) 0))), debit_debit.
    set (b1 := debit b (lenN o + 1) (0 + 0)).
    assert (∀ s', visit r (d + 1) b1 = Ok ((), s') ↔
      (d + 1 + height r <= MAX_EXPRESSION_DEPTH ∧ fits_budget b1 (compiled_clauses r) (text_total r)
       ∧ well_shaped b.(SearchStructureBudget.fields) r)
      ∧ s' = debit b1 (compiled_clauses r) (text_total r)) as Hr
      by (intros; rewrite (IHr (d + 1) b1 s') by (cbn; lia); cbn; tauto).
    rewrite (M_bind_det _ _ _ _ _ _ _ Hr), foldr_and_Forall. clear Hr IHr.
    pose proof (visit_children o IHo (d + 1) (debit b1 (compiled_clauses r) (text_total r)) b') as Ho.
    destruct (decide (0 < lenN o)) as [Hlen|]; [rewrite (heights_le _ _ _ Hlen) in Ho | naive_solver].
    rewrite debit_debit in Ho. subst b1. rewrite debit_debit in *. revert Ho.
    unfold fits_budget, debit; cbn. split.
    + intros; destruct_and?.
      match goal with H : foldM _ _ _ _ = Ok _ |- _ => apply Ho in H as (? & ? & ? & ->); [|lia] end.
      repeat split; try done; try lia. f_equal; lia.
    + intros; destruct_and?; subst. repeat split; try done; try lia. apply Ho; [lia|].
      repeat split; try done; try lia. f_equal; lia.
Qed.

(** ** The declarative reading of [validate_search_structure] *)
Definition structure_ok (e : SearchExpression.t) (clauses fields : N) : Prop :=
  1 <= clauses <= MAX_CONFIGURED_QUERY_CLAUSES ∧ height e <= MAX_EXPRESSION_DEPTH
  ∧ compiled_clauses e <= clauses ∧ text_total e <= MAX_QUERY_TEXT_BYTES ∧ well_shaped fields e.

Lemma validate_query_limits_Ok t c :
  validate_query_limits t c = Ok () ↔
  1 <= t <= MAX_CONFIGURED_QUERY_TERMS ∧ 1 <= c <= MAX_CONFIGURED_QUERY_CLAUSES.
Proof.
  unfold validate_query_limits.
  destruct (N.eqb_spec t 0), (N.ltb_spec MAX_CONFIGURED_QUERY_TERMS t),
    (N.eqb_spec c 0), (N.ltb_spec MAX_CONFIGURED_QUERY_CLAUSES c); cbn; split;
    intros; try done; lia.
Qed.

Lemma budget_new_Ok l f b :
  SearchStructureBudget.new l f = Ok b ↔
  1 <= l <= MAX_CONFIGURED_QUERY_CLAUSES ∧ b = SearchStructureBudget.mk l l 0 f.
Proof.
  unfold SearchStructureBudget.new. rewrite bind_Ok. split.
  - intros ([] & [_ Hl]%validate_query_limits_Ok & [= <-]). done.
  - intros [Hl ->]. exists (). split; [|done]. apply validate_query_limits_Ok. split; [done | lia].
Qed.

Lemma run_Ok {S A} (m : M S A) s a : run m s = Ok a ↔ ∃ s', m s = Ok (a, s').
Proof. unfold run. destruct (m s) as [[??]| | |]; naive_solver. Qed.

Lemma validate_search_structure_Ok e clauses fields :
  validate_search_structure e clauses fields = Ok () ↔ structure_ok e clauses fields.
Proof.
  unfold validate_search_structure, structure_ok. rewrite bind_Ok. split.
  - intros (b & [Hc ->]%budget_new_Ok & (b' & H)%run_Ok).
    apply visit_Ok in H; [|done]. unfold fits_budget in H; cbn in H.
    destruct H as (? & ? & ? & _). rewrite N.add_0_l in *. naive_solver.
  - intros (Hc & Hh & Hcost & Ht & Hw). eexists. split; [by apply budget_new_Ok|].
    apply run_Ok. eexists. apply visit_Ok; [done|]. unfold fits_budget; cbn.
    rewrite !N.add_0_l. naive_solver.
Qed.

(** ** The walker never panics *)
Lemma tame_bind {A B} (m : outcome A) (f : A → outcome B) :
  tame m → (∀ a, m = Ok a → tame (f a)) → tame (mbind f m).
Proof. destruct m; cbn; auto. Qed.
Lemma foldO_tame {A B} (f : B → A → outcome B) b l : (∀ b a, tame (f b a)) → tame (foldO f b l).
Proof. intros H. revert b. induction l as [|a l IH]; intros b; [done|]. cbn [foldO]. apply tame_bind; [apply H | intros; apply IH]. Qed.

Lemma clean_bind {X A B} (m : M X A) (f : A → M X B) x :
  clean m x → (∀ a x', m x = Ok (a, x') → clean (f a) x') → clean (mbind f m) x.
Proof. unfold clean. cbv [mbind M_bind]. destruct (m x) as [[a x']| | |]; cbn; auto. Qed.
Lemma clean_foldM {X A B} (f : B → A → M X B) b l x :
  Forall (λ a, ∀ b x, clean (f b a) x) l → clean (foldM f b l) x.
Proof.
  intros H. revert b x. induction H as [|a l Ha Hl IH]; intros b x; [done|]. cbn [foldM].
  apply clean_bind; [apply Ha | intros; apply IH].
Qed.
Lemma clean_visit e : ∀ d b, clean (visit e d) b.
Proof.
  induction e as [c|ch IH|ch IH|e IH|x e IH|r o IHr IHo] using SearchExpression.ind; intros d b; cbn [visit];
    (apply clean_bind; [apply clean_depth | intros _ b1 _]).
  - apply clean_leaf.
  - apply clean_bind; [apply clean_children | intros _ b2 _]. apply clean_foldM. eapply Forall_impl; [exact IH | auto].
  - apply clean_bind; [apply clean_children | intros _ b2 _]. apply clean_foldM. eapply Forall_impl; [exact IH | auto].
  - apply clean_bind; [apply clean_charge | intros _ b2 _]. apply IH.
  - apply clean_bind; [|intros _ b2 _; apply clean_bind; [apply clean_charge | intros; apply IH]].
    unfold clean, lift. pose proof (validate_query_boost_tame x). by destruct (validate_query_boost x).
  - apply clean_bind; [apply clean_optional_children | intros _ b2 _].
    apply clean_bind; [apply clean_charge | intros _ b3 _]. apply clean_bind; [apply IHr | intros _ b4 _].
    apply clean_foldM. eapply Forall_impl; [exact IHo | auto].
Qed.

Lemma validate_query_limits_tame t c : tame (validate_query_limits t c).
Proof. unfold validate_query_limits. by repeat case_if. Qed.
Lemma validate_search_structure_tame e c f : tame (validate_search_structure e c f).
Proof.
  unfold validate_search_structure. apply tame_bind.
  - unfold SearchStructureBudget.new. apply tame_bind; [apply validate_query_limits_tame | done].
  - intros b _. unfold run. pose proof (clean_visit e 0 b) as H. unfold clean in H.
    destruct (visit e 0 b) as [[[] ?]| | |]; done.
Qed.

(** C3: Structural admission: [validate_search_structure] accepts an expression exactly when its
    nesting is at most eight, its compiled-clause cost fits the configured
    limit, its total query text fits 65536 bytes and every node is well shaped
    (the order in which the walker spends its budget does not matter), and
    otherwise fails with E_INVALID_ARGUMENT. *)
Theorem validate_search_structure_iff e clauses fields :
  tame (validate_search_structure e clauses fields)
  ∧ (validate_search_structure e clauses fields = Ok () ↔ structure_ok e clauses fields).
Proof. split; [apply validate_search_structure_tame | apply validate_search_structure_Ok]. Qed.
