(* ===== verification/Expression.v ===== *)
(** * src/src/protocol.rs: search expressions on the wire

    [decode_search_expression] builds the tree; [scan_search_expression] is the
    allocation-free walk that admission control uses on the same bytes.  Both
    spend a [SearchStructureBudget].  The wire grammar is [enc_expression].

    Recursion: a call at depth nine is rejected by the depth check, so
    [EXPRESSION_FUEL] = 10 levels are never exhausted (the [SpecX] lemmas state
    this for any fuel with [10 <= fuel + depth]). *)
From S2P Require Import Prelude.
From S2P Require Import Errors.
From S2P Require Import Bytes.
From S2P Require Import Wire.
From S2P Require Import Request.
From S2P Require Import Structure.
Local Open Scope N_scope.

Definition EXPRESSION_FUEL : nat := 10.

Definition decode_search_mode (value : N) : outcome SearchMode.t :=
  if value =? 0 then Ok SearchMode.Any
  else if value =? 1 then Ok SearchMode.All
  else if value =? 2 then Ok SearchMode.Phrase
  else if value =? 3 then Ok SearchMode.Prefix
  else if value =? 4 then Ok SearchMode.Fuzzy
  else if value =? 5 then Ok SearchMode.FuzzyPrefix
  else Err (invalid "unknown search mode").

Definition decode_query_options (mode : SearchMode.t) : M Cursor.t QueryOptions.t :=
  fuzzy_distance ← Cursor.u8;
  fuzzy_transpositions ← Cursor.boolean;
  let options := QueryOptions.mk fuzzy_distance fuzzy_transpositions in
  _ ← lift (QueryOptions_validate options mode);
  mret options.

Fixpoint decode_search_expression (fuel : nat) (depth : N)
    : M (Cursor.t * SearchStructureBudget.t) SearchExpression.t :=
  match fuel with
  | O => out_of_fuel
  | Datatypes.S fuel =>
    _ ← on_snd (SearchStructureBudget.depth depth);
    kind ← on_fst Cursor.u8;
    if kind =? 0 then
      text ← on_fst Cursor.byte_string;
      mode_code ← on_fst Cursor.u8;
      mode ← lift (decode_search_mode mode_code);
      options ← on_fst (decode_query_options mode);
      field_count ← on_fst Cursor.u16;
      _ ← on_snd (leaf (lenN text) field_count);
      text ← lift (from_utf8 text (invalid "packed string is not valid UTF-8"));
      fields ← replicateM (N.to_nat field_count) (on_fst Cursor.string);
      mret (SearchExpression.Clause (SearchClause.mk text mode options fields))
    else if (kind =? 1) || (kind =? 2) then
      count ← on_fst Cursor.u16;
      _ ← on_snd (children count);
      ch ← replicateM (N.to_nat count) (decode_search_expression fuel (depth + 1));
      mret (if kind =? 1 then SearchExpression.And ch else SearchExpression.Or ch)
    else if kind =? 3 then
      _ ← on_snd (charge 2);
      child ← decode_search_expression fuel (depth + 1);
      mret (SearchExpression.Not child)
    else if kind =? 4 then
      boost ← on_fst Cursor.f32;
      _ ← lift (validate_query_boost boost);
      _ ← on_snd (charge 1);
      clause ← decode_search_expression fuel (depth + 1);
      mret (SearchExpression.Boost boost clause)
    else if kind =? 5 then
      count ← on_fst Cursor.u16;
      _ ← on_snd (optional_children count);
      _ ← on_snd (charge 1);
      required ← decode_search_expression fuel (depth + 1);
      optional ← replicateM (N.to_nat count) (decode_search_expression fuel (depth + 1));
      mret (SearchExpression.Optional required optional)
    else fail_with (invalid "unknown search expression type")
  end.

(** ** The admission scan *)
Definition is_ascii_alphanumeric (b : byte) : bool :=
  let n := Byte.to_N b in
  ((48 <=? n) && (n <=? 57)) || ((65 <=? n) && (n <=? 90)) || ((97 <=? n) && (n <=? 122)).

(** The loop of [ascii_query_term_upper], with its two variables. *)
Fixpoint ascii_terms_from (text : bytes) (terms : N) (in_term : bool) : option N :=
  match text with
  | [] => Some terms
  | b :: text =>
    if negb (is_ascii_byte b) then None
    else
      let alphanumeric := is_ascii_alphanumeric b in
      ascii_terms_from text (terms + (if alphanumeric && negb in_term then 1 else 0)) alphanumeric
  end.
Definition ascii_query_term_upper (text : bytes) : option N := ascii_terms_from text 0 false.

Module SearchCost.
Record t := mk {
  terms_upper : N; construction_upper : N; has_expensive_mode : bool; has_positive_anchor : bool }.
End SearchCost.

(** The bodies of the two [for] loops of [scan_search_expression]: how the cost
    of one more child is folded into the group's. *)
Definition add_group_child (conjunction : bool) (acc child : SearchCost.t) : SearchCost.t :=
  SearchCost.mk
    (N.max acc.(SearchCost.terms_upper) child.(SearchCost.terms_upper))
    (saturating_add acc.(SearchCost.construction_upper) child.(SearchCost.construction_upper))
    (acc.(SearchCost.has_expensive_mode) || child.(SearchCost.has_expensive_mode))
    (if conjunction
     then acc.(SearchCost.has_positive_anchor) || child.(SearchCost.has_positive_anchor)
     else acc.(SearchCost.has_positive_anchor) && child.(SearchCost.has_positive_anchor)).

Definition add_optional_child (acc child : SearchCost.t) : SearchCost.t :=
  SearchCost.mk
    (N.max acc.(SearchCost.terms_upper) child.(SearchCost.terms_upper))
    (saturating_add acc.(SearchCost.construction_upper) child.(SearchCost.construction_upper))
    (acc.(SearchCost.has_expensive_mode) || child.(SearchCost.has_expensive_mode))
    acc.(SearchCost.has_positive_anchor).

Definition leaf_cost (raised_profile_fields : option N) (text : bytes) (mode : SearchMode.t)
    (field_count : N) : SearchCost.t :=
  let terms_upper :=
    if bool_decide (is_Some raised_profile_fields)
    then default USIZE_MAX (ascii_query_term_upper text) else 0 in
  SearchCost.mk terms_upper
    (saturating_mul terms_upper (if field_count =? 0 then default 0 raised_profile_fields else field_count))
    (is_expensive mode) true.

Definition group_start (conjunction : bool) (count : N) : SearchCost.t :=
  SearchCost.mk 0 count false (negb conjunction).
Definition not_cost (child : SearchCost.t) : SearchCost.t :=
  SearchCost.mk child.(SearchCost.terms_upper)
    (saturating_add child.(SearchCost.construction_upper) 2) child.(SearchCost.has_expensive_mode) false.
Definition boost_cost (child : SearchCost.t) : SearchCost.t :=
  SearchCost.mk child.(SearchCost.terms_upper)
    (saturating_add child.(SearchCost.construction_upper) 1)
    child.(SearchCost.has_expensive_mode) child.(SearchCost.has_positive_anchor).
Definition optional_start (required : SearchCost.t) (count : N) : SearchCost.t :=
  SearchCost.mk required.(SearchCost.terms_upper)
    (saturating_add required.(SearchCost.construction_upper) (count + 1))
    required.(SearchCost.has_expensive_mode) required.(SearchCost.has_positive_anchor).

Fixpoint scan_search_expression (fuel : nat) (depth : N) (raised_profile_fields : option N)
    : M (Cursor.t * SearchStructureBudget.t) SearchCost.t :=
  match fuel with
  | O => out_of_fuel
  | Datatypes.S fuel =>
    _ ← on_snd (SearchStructureBudget.depth depth);
    kind ← on_fst Cursor.u8;
    if kind =? 0 then
      text ← on_fst Cursor.byte_string;
      mode_code ← on_fst Cursor.u8;
      mode ← lift (decode_search_mode mode_code);
      _ ← on_fst (decode_query_options mode);
      field_count ← on_fst Cursor.u16;
      remaining ← on_fst get_remaining;
      if (MAX_FIELDS <? field_count) || (remaining / 4 <? field_count)
      then fail_with (invalid "search field count exceeds its packed request")
      else
        _ ← on_snd (leaf (lenN text) field_count);
        _ ← replicateM (N.to_nat field_count) (on_fst Cursor.byte_string);
        mret (leaf_cost raised_profile_fields text mode field_count)
    else if (kind =? 1) || (kind =? 2) then
      count ← on_fst Cursor.u16;
      _ ← on_snd (children count);
      costs ← replicateM (N.to_nat count) (scan_search_expression fuel (depth + 1) raised_profile_fields);
      mret (fold_left (add_group_child (kind =? 1)) costs (group_start (kind =? 1) count))
    else if kind =? 3 then
      _ ← on_snd (charge 2);
      child ← scan_search_expression fuel (depth + 1) raised_profile_fields;
      mret (not_cost child)
    else if kind =? 4 then
      boost ← on_fst Cursor.f32;
      _ ← lift (validate_query_boost boost);
      _ ← on_snd (charge 1);
      child ← scan_search_expression fuel (depth + 1) raised_profile_fields;
      mret (boost_cost child)
    else if kind =? 5 then
      count ← on_fst Cursor.u16;
      _ ← on_snd (optional_children count);
      _ ← on_snd (charge 1);
      required ← scan_search_expression fuel (depth + 1) raised_profile_fields;
      costs ← replicateM (N.to_nat count) (scan_search_expression fuel (depth + 1) raised_profile_fields);
      mret (fold_left add_optional_child costs (optional_start required count))
    else fail_with (invalid "unknown search expression type")
  end.

(** ** The wire grammar *)
Definition mode_code (m : SearchMode.t) : N :=
  match m with
  | SearchMode.Any => 0 | SearchMode.All => 1 | SearchMode.Phrase => 2
  | SearchMode.Prefix => 3 | SearchMode.Fuzzy => 4 | SearchMode.FuzzyPrefix => 5
  end.
Definition enc_options (o : QueryOptions.t) : bytes :=
  enc_u8 o.(QueryOptions.fuzzy_distance) ++ enc_bool o.(QueryOptions.fuzzy_transpositions).
Definition enc_list {A} (enc : A → bytes) (l : list A) : bytes := concat (enc <$> l).

Fixpoint enc_expression (e : SearchExpression.t) : bytes :=
  match e with
  | SearchExpression.Clause c =>
      enc_u8 0 ++ enc_str c.(SearchClause.text) ++ enc_u8 (mode_code c.(SearchClause.mode))
      ++ enc_options c.(SearchClause.options) ++ enc_u16 (lenN c.(SearchClause.fields))
      ++ enc_list enc_str c.(SearchClause.fields)
  | SearchExpression.And ch => enc_u8 1 ++ enc_u16 (lenN ch) ++ concat (enc_expression <$> ch)
  | SearchExpression.Or ch => enc_u8 2 ++ enc_u16 (lenN ch) ++ concat (enc_expression <$> ch)
  | SearchExpression.Not c => enc_u8 3 ++ enc_expression c
  | SearchExpression.Boost b c => enc_u8 4 ++ enc_u32 b ++ enc_expression c
  | SearchExpression.Optional r o =>
      enc_u8 5 ++ enc_u16 (lenN o) ++ enc_expression r ++ concat (enc_expression <$> o)
  end.

(** Trees a frame can carry: strings are UTF-8 of at most 1 MiB, counts fit
    16 bits, options are admissible for their mode. *)
Definition clause_ok (c : SearchClause.t) : Prop :=
  str_ok c.(SearchClause.text) ∧ u8_ok c.(SearchClause.options).(QueryOptions.fuzzy_distance)
  ∧ QueryOptions_validate c.(SearchClause.options) c.(SearchClause.mode) = Ok ()
  ∧ u16_ok (lenN c.(SearchClause.fields)) ∧ Forall str_ok c.(SearchClause.fields).
Fixpoint expression_ok (e : SearchExpression.t) : Prop :=
  match e with
  | SearchExpression.Clause c => clause_ok c
  | SearchExpression.And ch | SearchExpression.Or ch =>
      u16_ok (lenN ch) ∧ foldr and True (expression_ok <$> ch)
  | SearchExpression.Not c => expression_ok c
  | SearchExpression.Boost b c => u32_ok b ∧ expression_ok c
  | SearchExpression.Optional r o =>
      u16_ok (lenN o) ∧ expression_ok r ∧ foldr and True (expression_ok <$> o)
  end.

(** The cost [scan_search_expression] reports, computed on the tree. *)
Fixpoint search_cost (raised : option N) (e : SearchExpression.t) : SearchCost.t :=
  match e with
  | SearchExpression.Clause c =>
      leaf_cost raised c.(SearchClause.text) c.(SearchClause.mode) (lenN c.(SearchClause.fields))
  | SearchExpression.And ch =>
      fold_left (add_group_child true) (search_cost raised <$> ch) (group_start true (lenN ch))
  | SearchExpression.Or ch =>
      fold_left (add_group_child false) (search_cost raised <$> ch) (group_start false (lenN ch))
  | SearchExpression.Not c => not_cost (search_cost raised c)
  | SearchExpression.Boost _ c => boost_cost (search_cost raised c)
  | SearchExpression.Optional r o =>
      fold_left add_optional_child (search_cost raised <$> o)
        (optional_start (search_cost raised r) (lenN o))
  end.

(** ** Leaves *)
Lemma decode_search_mode_tame c : tame (decode_search_mode c).
Proof. unfold decode_search_mode. by repeat case_if. Qed.
Lemma decode_search_mode_Ok c m : decode_search_mode c = Ok m → c = mode_code m.
Proof. unfold decode_search_mode. repeat case_if; intros; simplify_eq; by b2p. Qed.
Lemma decode_search_mode_code m : decode_search_mode (mode_code m) = Ok m.
Proof. by destruct m. Qed.
Lemma mode_code_ok m : u8_ok (mode_code m).
Proof. unfold u8_ok. destruct m; cbn; lia. Qed.
#[export] Hint Resolve mode_code_ok decode_search_mode_tame : wire.

Lemma QueryOptions_validate_tame o m : tame (QueryOptions_validate o m).
Proof. unfold QueryOptions_validate. by repeat case_if. Qed.
#[export] Hint Resolve QueryOptions_validate_tame : wire.

Lemma Spec_options m :
  Spec (decode_query_options m)
    (λ bs o, bs = enc_options o ∧ u8_ok o.(QueryOptions.fuzzy_distance)
             ∧ QueryOptions_validate o m = Ok ()).
Proof.
  unfold decode_query_options. spec. rewrite !app_nil_r. done.
Qed.

Lemma Parses_options m o :
  u8_ok o.(QueryOptions.fuzzy_distance) → QueryOptions_validate o m = Ok () →
  Parses (decode_query_options m) (enc_options o) o.
Proof.
  intros Hd Hv. destruct o as [d t]; cbn in Hd. unfold decode_query_options, enc_options; cbn.
  eapply Parses_bind; [by apply Parses_u8|]. eapply Parses_bind_nil; [apply Parses_boolean|].
  eapply Parses_bind_nil; [by apply Parses_lift|]. apply Parses_ret.
Qed.
#[export] Hint Resolve Spec_options Parses_options : wire.

Lemma lenN_enc_list_ge {A} (enc : A → bytes) k l :
  (∀ a, k <= lenN (enc a)) → k * lenN l <= lenN (enc_list enc l).
Proof.
  intros H. unfold enc_list. induction l as [|a l IH]; cbn.
  - unfold lenN; cbn. lia.
  - rewrite lenN_cons, lenN_app. specialize (H a). lia.
Qed.

Lemma Forall2_enc {A} (enc : A → bytes) (P : A → Prop) bss l :
  Forall2 (λ bs a, bs = enc a ∧ P a) bss l → bss = enc <$> l ∧ Forall P l.
Proof. induction 1; cbn; [done|]. destruct_and!. subst. auto. Qed.

(** Lists of strings: the shape of every name list in the protocol. *)
Lemma Spec_list {A} (p : M Cursor.t A) (enc : A → bytes) (P : A → Prop) n :
  Spec p (λ bs a, bs = enc a ∧ P a) →
  Spec (replicateM (N.to_nat n) p) (λ bs l, bs = enc_list enc l ∧ Forall P l ∧ lenN l = n).
Proof.
  intros H. eapply Spec_weaken; [by apply Spec_replicateM|].
  intros bs l (bss & -> & HF & Hlen). apply Forall2_enc in HF as [-> HP].
  unfold enc_list. repeat split; [done|]. unfold lenN. lia.
Qed.

Lemma Parses_list {A} (p : M Cursor.t A) (enc : A → bytes) l :
  Forall (λ a, Parses p (enc a) a) l → Parses (replicateM (N.to_nat (lenN l)) p) (enc_list enc l) l.
Proof. rewrite lenN_to_nat. apply Parses_replicateM. Qed.

Lemma replicateM_on_fst {S T A} (p : M S A) n s t :
  replicateM n (on_fst (T := T) p) (s, t) = on_fst (replicateM n p) (s, t).
Proof.
  revert s. induction n as [|n IH]; intros s; cbn [replicateM]; [done|].
  cbv [mbind M_bind on_fst]. destruct (p s) as [[a s']| | |]; try done.
  specialize (IH s'). unfold on_fst in IH. rewrite IH.
  destruct (replicateM n p s') as [[l s'']| | |]; done.
Qed.

Lemma SpecX_list_fst {X A} (p : M Cursor.t A) (enc : A → bytes) (P : A → Prop) n (x : X) :
  Spec p (λ bs a, bs = enc a ∧ P a) →
  SpecX (replicateM (N.to_nat n) (on_fst p)) x
    (λ bs l x', (bs = enc_list enc l ∧ Forall P l ∧ lenN l = n) ∧ x' = x).
Proof.
  intros H pre rest Hf. rewrite replicateM_on_fst. by apply SpecX_fst; [apply Spec_list|].
Qed.

Lemma ParsesX_list_fst {X A B} (p : M Cursor.t B) (f : A → B) (enc : A → bytes) l (x : X) :
  Forall (λ a, Parses p (enc a) (f a)) l →
  ParsesX (replicateM (N.to_nat (lenN l)) (on_fst p)) x (enc_list enc l) (f <$> l) x.
Proof.
  intros H pre post Hf. rewrite replicateM_on_fst. apply ParsesX_fst; [|done].
  clear pre post Hf. rewrite lenN_to_nat. unfold enc_list. induction H as [|a l Ha Hl IH]; cbn [replicateM length fmap list_fmap concat].
  - apply Parses_ret.
  - eapply Parses_bind; [exact Ha|]. eapply Parses_bind_nil; [exact IH|]. apply Parses_ret.
Qed.

Lemma ParsesX_list_id {X A} (p : M Cursor.t A) (enc : A → bytes) l (x : X) :
  Forall (λ a, Parses p (enc a) a) l →
  ParsesX (replicateM (N.to_nat (lenN l)) (on_fst p)) x (enc_list enc l) l x.
Proof. intros H. rewrite <- (list_fmap_id l) at 3. by apply ParsesX_list_fst. Qed.

(** ** Trees *)
Abbreviation Budget := SearchStructureBudget.t.

Definition expression_rel (depth : N) (b : Budget) (bs : bytes) (e : SearchExpression.t) (b' : Budget) : Prop :=
  bs = enc_expression e ∧ expression_ok e ∧ visit e depth b = Ok ((), b').

Lemma chain_children d b bss ch b' :
  Chain (expression_rel d) b bss ch b' ↔
  bss = enc_expression <$> ch ∧ Forall expression_ok ch
  ∧ foldM (λ _ c, visit c d) () ch b = Ok ((), b').
Proof.
  split.
  - induction 1 as [b|b bs e b1 bss l b2 (-> & He & Hv) HC (-> & HF & HM)]; cbn; [done|].
    split; [done|]. split; [by constructor|]. by erewrite M_bind_step by exact Hv.
  - revert b bss. induction ch as [|e ch IH]; intros b bss (-> & HF & HM); cbn in HM |- *.
    + cbv in HM. simplify_eq. constructor.
    + apply Forall_cons in HF as [He HF]. apply M_bind_unit in HM as (b1 & Hv & HM).
      econstructor; [by split_and!|]. by apply IH.
Qed.

(** One more step of [spec] for the budget and pure steps. *)
Ltac specx_budget :=
  match goal with
  | |- SpecX (mbind _ (on_snd _)) _ _ => eapply SpecX_bind; [apply SpecX_step; solve [eauto 2 with wire] | spec_pre]
  | |- SpecX (mbind _ (lift _)) _ _ => eapply SpecX_bind; [apply SpecX_pure; solve [eauto 2 with wire] | spec_pre]
  | |- SpecX (mbind _ (replicateM _ (on_fst _))) _ _ =>
      eapply SpecX_bind; [eapply SpecX_list_fst; solve [eauto 2 with wire] | spec_pre]
  | _ => specx1
  end.

Section Decode.
Context (fuel : nat) (depth : N) (b : Budget).
Context (Hrec : ∀ b, depth <= MAX_EXPRESSION_DEPTH →
  SpecX (decode_search_expression fuel (depth + 1)) b (expression_rel (depth + 1) b)).

Lemma SpecX_children n b0 :
  depth <= MAX_EXPRESSION_DEPTH →
  SpecX (replicateM (N.to_nat n) (decode_search_expression fuel (depth + 1))) b0
    (λ bs ch b', bs = concat (enc_expression <$> ch) ∧ Forall expression_ok ch
                 ∧ foldM (λ _ c, visit c (depth + 1)) () ch b0 = Ok ((), b') ∧ lenN ch = n).
Proof.
  intros Hd. eapply SpecX_weaken; [apply SpecX_replicateM; intros; by apply Hrec|].
  intros bs ch b' (bss & -> & HC & Hlen). apply chain_children in HC as (-> & HF & HM).
  repeat split; [done | done|]. unfold lenN. lia.
Qed.

Local Ltac visit_done Hdep :=
  cbn [visit]; erewrite M_bind_step by exact Hdep; cbn beta match;
  repeat (erewrite M_bind_step by (eassumption || (apply lift_Ok; eassumption)); cbn beta);
  eassumption.

Lemma SpecX_level : SpecX (decode_search_expression (Datatypes.S fuel) depth) b (expression_rel depth b).
Proof.
  cbn [decode_search_expression].
  eapply SpecX_bind; [apply SpecX_step; auto with wire|]. intros ? [] ? [-> Hdep].
  pose proof (proj1 (depth_Ok _ _ _) Hdep) as [Hd ->].
  specx_budget. destruct (N.eqb_spec a 0) as [->|_].
  { repeat specx_budget.
    repeat match goal with
    | H : from_utf8 _ _ = Ok _ |- _ => apply from_utf8_Ok in H as [-> ?]
    | H : decode_search_mode _ = Ok _ |- _ => apply decode_search_mode_Ok in H as ->
    end.
    unfold expression_rel. cbn [enc_expression expression_ok]. unfold clause_ok, str_ok; cbn.
    rewrite !app_nil_r. split_and!; try done. visit_done Hdep. }
  destruct ((a =? 1) || (a =? 2)) eqn:Ek.
  { repeat specx_budget. eapply SpecX_bind; [by apply SpecX_children|]. spec_pre.
    apply SpecX_ret. unfold expression_rel. apply orb_true_iff in Ek as [->%N.eqb_eq | ->%N.eqb_eq];
    cbn [enc_expression expression_ok N.eqb Pos.eqb]; rewrite foldr_and_Forall, !app_nil_r;
      (split_and!; [done | done | done | visit_done Hdep]). }
  destruct (N.eqb_spec a 3) as [->|_].
  { repeat specx_budget. eapply SpecX_bind; [by apply Hrec|]. unfold expression_rel. spec_pre.
    apply SpecX_ret. rewrite !app_nil_r. split_and!; [done | done | visit_done Hdep]. }
  destruct (N.eqb_spec a 4) as [->|_].
  { repeat specx_budget. eapply SpecX_bind; [by apply Hrec|]. unfold expression_rel. spec_pre.
    apply SpecX_ret. cbn [expression_ok]. rewrite !app_nil_r. split_and!; [done | done | done | visit_done Hdep]. }
  destruct (N.eqb_spec a 5) as [->|_]; [|apply SpecX_fail].
  repeat specx_budget. eapply SpecX_bind; [by apply Hrec|]. unfold expression_rel. spec_pre.
  eapply SpecX_bind; [by apply SpecX_children|]. spec_pre. apply SpecX_ret.
  cbn [expression_ok]. rewrite foldr_and_Forall, !app_nil_r. split_and!; [done | done | done | done | visit_done Hdep].
Qed.
End Decode.

Lemma SpecX_expression fuel depth b :
  (0 < fuel)%nat → 10 <= N.of_nat fuel + depth →
  SpecX (decode_search_expression fuel depth) b (expression_rel depth b).
Proof.
  revert depth b. induction fuel as [|fuel IH]; intros depth b Hpos Hfuel; [lia|].
  apply SpecX_level. unfold MAX_EXPRESSION_DEPTH. intros b' Hd. apply IH; lia.
Qed.

(** ** Every admissible tree is read back, and scanned to its cost *)
Lemma ParsesX_children {C} (p : M (Cursor.t * Budget) C) (f : SearchExpression.t → C) d b ch b' :
  (∀ e b b', e ∈ ch → expression_ok e → visit e d b = Ok ((), b') → ParsesX p b (enc_expression e) (f e) b') →
  Forall expression_ok ch → foldM (λ _ c, visit c d) () ch b = Ok ((), b') →
  ParsesX (replicateM (N.to_nat (lenN ch)) p) b (concat (enc_expression <$> ch)) (f <$> ch) b'.
Proof.
  rewrite lenN_to_nat. revert b. induction ch as [|e ch IH]; intros b Hp HF HM; cbn in HM |- *.
  - cbv in HM. simplify_eq. apply ParsesX_ret.
  - apply Forall_cons in HF as [He HF]. apply M_bind_unit in HM as (b1 & Hv & HM).
    eapply ParsesX_bind; [by apply Hp; [left|..]|].
    eapply ParsesX_bind_nil; [apply IH; [|done..]; intros; apply Hp; [by right|..]; done | apply ParsesX_ret].
Qed.

Lemma ParsesX_children_id (p : M (Cursor.t * Budget) SearchExpression.t) d b ch b' :
  (∀ e b b', expression_ok e → visit e d b = Ok ((), b') → ParsesX p b (enc_expression e) e b') →
  Forall expression_ok ch → foldM (λ _ c, visit c d) () ch b = Ok ((), b') →
  ParsesX (replicateM (N.to_nat (lenN ch)) p) b (concat (enc_expression <$> ch)) ch b'.
Proof. intros Hp HF HM. rewrite <- (list_fmap_id ch) at 3. eapply ParsesX_children; eauto. Qed.

(** The steps of a visit, read backwards. *)
Local Ltac visit_inv H :=
  cbn [visit] in H; apply M_bind_unit in H as (? & [? ->]%depth_Ok & H).

Lemma lift_inv {S A} (r : outcome A) (s : S) a s' : lift r s = Ok (a, s') → r = Ok a ∧ s' = s.
Proof. unfold lift. destruct r; naive_solver. Qed.

Lemma ParsesX_depth d b : d <= MAX_EXPRESSION_DEPTH → ParsesX (on_snd (SearchStructureBudget.depth d)) b [] () b.
Proof. intros. apply ParsesX_snd. by apply depth_Ok. Qed.

(** Both readers start alike: the depth check, then the node's kind. *)
Lemma ParsesX_node {C} (f : N → M (Cursor.t * Budget) C) d b k bs a b' :
  d <= MAX_EXPRESSION_DEPTH → k < 6 → ParsesX (f k) b bs a b' →
  ParsesX (_ ← on_snd (SearchStructureBudget.depth d); kind ← on_fst Cursor.u8; f kind) b (enc_u8 k ++ bs) a b'.
Proof.
  intros Hd Hk Hf. eapply ParsesX_nil_bind; [by apply ParsesX_depth|].
  eapply ParsesX_bind; [|exact Hf]. apply ParsesX_fst, Parses_u8. unfold u8_ok. lia.
Qed.

Ltac parsex1 :=
  match goal with
  | |- ParsesX (mret _) _ [] _ _ => apply ParsesX_ret
  | |- ParsesX (mbind _ (on_snd _)) _ _ _ _ =>
      eapply ParsesX_nil_bind; [apply ParsesX_snd; eassumption|]; cbn beta
  | |- ParsesX (mbind _ (lift _)) _ _ _ _ =>
      eapply ParsesX_nil_bind; [apply ParsesX_lift; eassumption|]; cbn beta
  | |- ParsesX (mbind _ (on_fst _)) _ (_ ++ _) _ _ =>
      eapply ParsesX_bind; [apply ParsesX_fst; solve [eauto 3 with wire]|]; cbn beta
  end.

Lemma ParsesX_expression fuel depth b e b' :
  10 <= N.of_nat fuel + depth → (0 < fuel)%nat →
  expression_ok e → visit e depth b = Ok ((), b') →
  ParsesX (decode_search_expression fuel depth) b (enc_expression e) e b'.
Proof.
  revert depth b e b'. induction fuel as [|fuel IH]; intros depth b e b' Hfuel Hpos Hok Hv; [lia|].
  cbn [decode_search_expression].
  assert (depth <= MAX_EXPRESSION_DEPTH) as Hd.
  { destruct e; cbn [visit] in Hv; by apply M_bind_unit in Hv as (? & [? ->]%depth_Ok & _). }
  assert (∀ e b b', expression_ok e → visit e (depth + 1) b = Ok ((), b') →
    ParsesX (decode_search_expression fuel (depth + 1)) b (enc_expression e) e b') as IH'
    by (intros; apply IH; try done; unfold MAX_EXPRESSION_DEPTH in Hd; lia).
  clear IH. destruct e as [c|ch|ch|e|x e|r o]; cbn [enc_expression expression_ok] in *; visit_inv Hv;
    (apply ParsesX_node; [done | lia|]); cbn [N.eqb Pos.eqb orb].
  - destruct c as [text mode options fields]. unfold clause_ok in Hok. cbn [SearchClause.text SearchClause.mode SearchClause.options SearchClause.fields] in *.
    destruct Hok as ([Htb Htu] & Hd8 & Hov & Hlen & Hfs).
    pose proof (decode_search_mode_code mode).
    do 5 parsex1. parsex1.
    eapply ParsesX_nil_bind; [apply ParsesX_lift, from_utf8_Ok; done|].
    eapply ParsesX_bind_nil; [apply ParsesX_list_id; eapply Forall_impl; [done|]; auto with wire|].
    apply ParsesX_ret.
  - apply M_bind_unit in Hv as (b1 & Hc & Hv). destruct Hok as [Hlen Hch]. rewrite foldr_and_Forall in Hch.
    parsex1. parsex1.
    eapply ParsesX_bind_nil; [by eapply ParsesX_children_id|]. apply ParsesX_ret.
  - apply M_bind_unit in Hv as (b1 & Hc & Hv). destruct Hok as [Hlen Hch]. rewrite foldr_and_Forall in Hch.
    parsex1. parsex1.
    eapply ParsesX_bind_nil; [by eapply ParsesX_children_id|]. apply ParsesX_ret.
  - apply M_bind_unit in Hv as (b1 & Hc & Hv). parsex1.
    eapply ParsesX_bind_nil; [by apply IH'|]. apply ParsesX_ret.
  - apply M_bind_unit in Hv as (b1 & [Hb ->]%lift_inv & Hv). apply M_bind_unit in Hv as (b2 & Hc & Hv).
    destruct Hok as [Hx Hok]. do 3 parsex1. eapply ParsesX_bind_nil; [by apply IH'|]. apply ParsesX_ret.
  - do 3 (apply M_bind_unit in Hv as (? & ? & Hv)). destruct Hok as (Hlen & Hr & Ho). rewrite foldr_and_Forall in Ho.
    do 3 parsex1. eapply ParsesX_bind; [by apply IH'|].
    eapply ParsesX_bind_nil; [by eapply ParsesX_children_id|]. apply ParsesX_ret.
Qed.

Lemma enough_left k n c : 0 < k → k * c <= n → (n / k <? c) = false.
Proof. intros Hk H. apply N.ltb_ge. apply N.div_le_lower_bound; lia. Qed.

Lemma lenN_enc_str_ge s : 4 <= lenN (enc_str s).
Proof. rewrite lenN_enc_str. lia. Qed.

Lemma ParsesX_scan raised fuel depth b e b' :
  10 <= N.of_nat fuel + depth → (0 < fuel)%nat →
  expression_ok e → well_shaped MAX_FIELDS e → visit e depth b = Ok ((), b') →
  ParsesX (scan_search_expression fuel depth raised) b (enc_expression e) (search_cost raised e) b'.
Proof.
  revert depth b e b'. induction fuel as [|fuel IH]; intros depth b e b' Hfuel Hpos Hok Hws Hv; [lia|].
  cbn [scan_search_expression].
  assert (depth <= MAX_EXPRESSION_DEPTH) as Hd.
  { destruct e; cbn [visit] in Hv; by apply M_bind_unit in Hv as (? & [? ->]%depth_Ok & _). }
  assert (∀ e b b', expression_ok e → well_shaped MAX_FIELDS e → visit e (depth + 1) b = Ok ((), b') →
    ParsesX (scan_search_expression fuel (depth + 1) raised) b (enc_expression e) (search_cost raised e) b') as IH'
    by (intros; apply IH; try done; unfold MAX_EXPRESSION_DEPTH in Hd; lia).
  assert (∀ ch b b', Forall (well_shaped MAX_FIELDS) ch → Forall expression_ok ch →
    foldM (λ _ c, visit c (depth + 1)) () ch b = Ok ((), b') →
    ParsesX (replicateM (N.to_nat (lenN ch)) (scan_search_expression fuel (depth + 1) raised)) b
      (concat (enc_expression <$> ch)) (search_cost raised <$> ch) b') as IHl.
  { intros ch b0 b0' Hw Ho HM. eapply ParsesX_children; [|done..].
    intros. apply IH'; [done| |done]. by eapply Forall_forall in Hw. }
  clear IH. destruct e as [c|ch|ch|e|x e|r o];
    cbn [enc_expression expression_ok search_cost well_shaped] in *; visit_inv Hv;
    (apply ParsesX_node; [done | lia|]); cbn [N.eqb Pos.eqb orb]; rewrite ?foldr_and_Forall in Hws, Hok;
    destruct_and?.
  - destruct c as [text mode options fields]. unfold clause_ok in Hok.
    cbn [SearchClause.text SearchClause.mode SearchClause.options SearchClause.fields] in *.
    destruct Hok as ([Htb Htu] & Hd8 & Hov & Hlen & Hfs).
    pose proof (decode_search_mode_code mode).
    do 5 parsex1. apply ParsesX_remaining. intros n Hn.
    pose proof (lenN_enc_list_ge enc_str 4 fields lenN_enc_str_ge) as Hmin.
    rewrite enough_left by lia. destruct (N.ltb_spec MAX_FIELDS (lenN fields)); [lia|]. cbn [orb].
    parsex1. eapply ParsesX_bind_nil; [apply ParsesX_list_id; eapply Forall_impl; [done|]|].
    { intros s [? ?]. by apply Parses_byte_string. }
    apply ParsesX_ret.
  - apply M_bind_unit in Hv as (b1 & Hc & Hv). do 2 parsex1.
    eapply ParsesX_bind_nil; [by apply IHl|]. apply ParsesX_ret.
  - apply M_bind_unit in Hv as (b1 & Hc & Hv). do 2 parsex1.
    eapply ParsesX_bind_nil; [by apply IHl|]. apply ParsesX_ret.
  - apply M_bind_unit in Hv as (b1 & Hc & Hv). parsex1.
    eapply ParsesX_bind_nil; [by apply IH'|]. apply ParsesX_ret.
  - apply M_bind_unit in Hv as (b1 & [Hb ->]%lift_inv & Hv). apply M_bind_unit in Hv as (b2 & Hc & Hv).
    do 3 parsex1. eapply ParsesX_bind_nil; [by apply IH'|]. apply ParsesX_ret.
  - do 3 (apply M_bind_unit in Hv as (? & ? & Hv)).
    do 3 parsex1. eapply ParsesX_bind; [by apply IH'|].
    eapply ParsesX_bind_nil; [by apply IHl|]. apply ParsesX_ret.
Qed.

(** The scan is total too: on every input it returns or fails with
    E_INVALID_ARGUMENT, and needs no more fuel than the decoder. *)
Lemma SpecX_scan raised fuel depth b :
  (0 < fuel)%nat → 10 <= N.of_nat fuel + depth →
  SpecX (scan_search_expression fuel depth raised) b (λ _ _ _, True).
Proof.
  revert depth b. induction fuel as [|fuel IH]; intros depth b Hpos Hfuel; [lia|].
  cbn [scan_search_expression].
  eapply SpecX_bind; [apply SpecX_step; auto with wire|]. intros ? [] ? [-> [Hd ->]%depth_Ok].
  unfold MAX_EXPRESSION_DEPTH in Hd.
  assert (∀ b, SpecX (scan_search_expression fuel (depth + 1) raised) b (λ _ _ _, True)) as IH'
    by (intros; apply IH; lia). clear IH.
  assert (∀ n b, SpecX (replicateM n (scan_search_expression fuel (depth + 1) raised)) b (λ _ _ _, True)) as IHl.
  { intros n b0. eapply SpecX_weaken; [by apply (SpecX_replicateM _ (λ _ _ _ _, True))|done]. }
  repeat first
    [ specx_budget
    | eapply SpecX_bind; [apply IH' | intros ? ? ? _]
    | eapply SpecX_bind; [apply IHl | intros ? ? ? _]
    | apply SpecX_ret ].
  all: exact I.
Qed.
