(* ===== verification/Filter.v ===== *)
(** * src/src/protocol.rs: metadata filters on the wire

    [decode_filter_expression] and [scan_filter_expression], with the clause
    counter they thread ([&mut usize]). *)
From S2P Require Import Prelude.
From S2P Require Import Errors.
From S2P Require Import Bytes.
From S2P Require Import Wire.
From S2P Require Import Request.
From S2P Require Import Structure.
From S2P Require Import Expression.
Local Open Scope N_scope.

Definition decode_filter_value : M Cursor.t FilterValue.t :=
  kind ← Cursor.u8;
  if kind =? 0 then s ← Cursor.string; mret (FilterValue.String s)
  else if kind =? 1 then
    value ← Cursor.f64;
    if negb (f64_is_finite value) then fail_with (invalid "filter numbers must be finite")
    else mret (FilterValue.Number value)
  else if kind =? 2 then b ← Cursor.boolean; mret (FilterValue.Boolean b)
  else fail_with (invalid "unknown filter value type").

Definition scan_filter_value : M Cursor.t () :=
  kind ← Cursor.u8;
  if kind =? 0 then _ ← Cursor.byte_string; mret ()
  else if kind =? 1 then
    value ← Cursor.f64;
    if negb (f64_is_finite value) then fail_with (invalid "filter numbers must be finite") else mret ()
  else if kind =? 2 then _ ← Cursor.boolean; mret ()
  else fail_with (invalid "unknown filter value type").

Definition decode_filter_comparator (c : N) : outcome FilterComparator.t :=
  if c =? 0 then Ok FilterComparator.Equals
  else if c =? 1 then Ok FilterComparator.In
  else if c =? 2 then Ok FilterComparator.Lt
  else if c =? 3 then Ok FilterComparator.Le
  else if c =? 4 then Ok FilterComparator.Gt
  else if c =? 5 then Ok FilterComparator.Ge
  else if c =? 6 then Ok FilterComparator.Between
  else if c =? 7 then Ok FilterComparator.Exists
  else if c =? 8 then Ok FilterComparator.Missing
  else Err (invalid "unknown filter comparator").

(** The [expected] value count of a comparator. *)
Definition expected_values (c : FilterComparator.t) : option N :=
  match c with
  | FilterComparator.In => None
  | FilterComparator.Between => Some 2
  | FilterComparator.Exists | FilterComparator.Missing => Some 0
  | _ => Some 1
  end.

(** [*clauses += 1], then the limit. *)
Definition count_clause : M N () := λ clauses,
  if MAX_QUERY_CLAUSES <? clauses + 1
  then Err (invalid "filter expression exceeds 256 clauses") else Ok ((), clauses + 1).

Definition filter_depth (depth : N) : outcome () :=
  if MAX_EXPRESSION_DEPTH <? depth
  then Err (invalid ("filter expression nesting exceeds " +:+ show MAX_EXPRESSION_DEPTH +:+ " levels"))
  else Ok ().

Fixpoint decode_filter_expression (fuel : nat) (depth : N) : M (Cursor.t * N) FilterExpression.t :=
  match fuel with
  | O => out_of_fuel
  | Datatypes.S fuel =>
    _ ← lift (filter_depth depth);
    kind ← on_fst Cursor.u8;
    if kind =? 0 then
      _ ← on_snd count_clause;
      field ← on_fst Cursor.string;
      code ← on_fst Cursor.u8;
      comparator ← lift (decode_filter_comparator code);
      count ← on_fst Cursor.u16;
      let expected := expected_values comparator in
      if ((count =? 0) && negb (bool_decide (expected = Some 0)))
         || (MAX_QUERY_CLAUSES <? count)
         || match expected with Some e => negb (e =? count) | None => false end
      then fail_with (invalid "invalid filter value count")
      else
        values ← replicateM (N.to_nat count) (on_fst decode_filter_value);
        mret (FilterExpression.Clause field comparator values)
    else if (kind =? 1) || (kind =? 2) then
      count ← on_fst Cursor.u16;
      if (count =? 0) || (MAX_QUERY_CLAUSES <? count)
      then fail_with (invalid "filter boolean expression requires 1 to 256 children")
      else
        ch ← replicateM (N.to_nat count) (decode_filter_expression fuel (depth + 1));
        mret (if kind =? 1 then FilterExpression.And ch else FilterExpression.Or ch)
    else if kind =? 3 then
      child ← decode_filter_expression fuel (depth + 1);
      mret (FilterExpression.Not child)
    else fail_with (invalid "unknown filter expression type")
  end.

Fixpoint scan_filter_expression (fuel : nat) (depth : N) : M (Cursor.t * N) bool :=
  match fuel with
  | O => out_of_fuel
  | Datatypes.S fuel =>
    _ ← lift (filter_depth depth);
    kind ← on_fst Cursor.u8;
    if kind =? 0 then
      _ ← on_snd count_clause;
      _ ← on_fst Cursor.byte_string;
      comparator ← on_fst Cursor.u8;
      if 8 <? comparator then fail_with (invalid "unknown filter comparator")
      else
        count ← on_fst Cursor.u16;
        let expected :=
          if comparator =? 1 then None else if comparator =? 6 then Some 2
          else if (comparator =? 7) || (comparator =? 8) then Some 0 else Some 1 in
        remaining ← on_fst get_remaining;
        if ((count =? 0) && (comparator <? 7))
           || match expected with Some e => negb (e =? count) | None => false end
           || (MAX_QUERY_CLAUSES <? count) || (remaining / 2 <? count)
        then fail_with (invalid "invalid filter value count")
        else
          _ ← replicateM (N.to_nat count) (on_fst scan_filter_value);
          mret ((2 <=? comparator) || (16 <? count))
    else if (kind =? 1) || (kind =? 2) then
      count ← on_fst Cursor.u16;
      if (count =? 0) || (MAX_QUERY_CLAUSES <? count)
      then fail_with (invalid "filter boolean expression requires 1 to 256 children")
      else
        ch ← replicateM (N.to_nat count) (scan_filter_expression fuel (depth + 1));
        mret (fold_left orb ch false)
    else if kind =? 3 then
      _ ← scan_filter_expression fuel (depth + 1); mret true
    else fail_with (invalid "unknown filter expression type")
  end.

(** ** The wire grammar *)
Definition enc_filter_value (v : FilterValue.t) : bytes :=
  match v with
  | FilterValue.String s => enc_u8 0 ++ enc_str s
  | FilterValue.Number n => enc_u8 1 ++ enc_u64 n
  | FilterValue.Boolean b => enc_u8 2 ++ enc_bool b
  end.
Definition comparator_code (c : FilterComparator.t) : N :=
  match c with
  | FilterComparator.Equals => 0 | FilterComparator.In => 1 | FilterComparator.Lt => 2
  | FilterComparator.Le => 3 | FilterComparator.Gt => 4 | FilterComparator.Ge => 5
  | FilterComparator.Between => 6 | FilterComparator.Exists => 7 | FilterComparator.Missing => 8
  end.
Fixpoint enc_filter (e : FilterExpression.t) : bytes :=
  match e with
  | FilterExpression.Clause f c vs =>
      enc_u8 0 ++ enc_str f ++ enc_u8 (comparator_code c) ++ enc_u16 (lenN vs) ++ enc_list enc_filter_value vs
  | FilterExpression.And ch => enc_u8 1 ++ enc_u16 (lenN ch) ++ concat (enc_filter <$> ch)
  | FilterExpression.Or ch => enc_u8 2 ++ enc_u16 (lenN ch) ++ concat (enc_filter <$> ch)
  | FilterExpression.Not c => enc_u8 3 ++ enc_filter c
  end.

(** ** Well-formed filters *)
Definition filter_value_ok (v : FilterValue.t) : Prop :=
  match v with
  | FilterValue.String s => str_ok s
  | FilterValue.Number n => u64_ok n ∧ f64_is_finite n = true
  | FilterValue.Boolean _ => True
  end.
Definition value_count_ok (c : FilterComparator.t) (n : N) : Prop :=
  match expected_values c with Some e => n = e | None => 1 <= n <= MAX_QUERY_CLAUSES end.

(** A filter at nesting [d]: depth, arities and child counts are in bounds. *)
Fixpoint filter_ok (d : N) (e : FilterExpression.t) : Prop :=
  d <= MAX_EXPRESSION_DEPTH ∧
  match e with
  | FilterExpression.Clause f c vs =>
      str_ok f ∧ value_count_ok c (lenN vs) ∧ Forall filter_value_ok vs
  | FilterExpression.And ch | FilterExpression.Or ch =>
      1 <= lenN ch <= MAX_QUERY_CLAUSES ∧ foldr and True (filter_ok (d + 1) <$> ch)
  | FilterExpression.Not c => filter_ok (d + 1) c
  end.
Fixpoint filter_clauses (e : FilterExpression.t) : N :=
  match e with
  | FilterExpression.Clause _ _ _ => 1
  | FilterExpression.And ch | FilterExpression.Or ch => sum (filter_clauses <$> ch)
  | FilterExpression.Not c => filter_clauses c
  end.
Fixpoint filter_expensive (e : FilterExpression.t) : bool :=
  match e with
  | FilterExpression.Clause _ c vs => (2 <=? comparator_code c) || (16 <? lenN vs)
  | FilterExpression.And ch | FilterExpression.Or ch => fold_left orb (filter_expensive <$> ch) false
  | FilterExpression.Not _ => true
  end.

(** ** Values *)
Lemma Spec_filter_value : Spec decode_filter_value (λ bs v, bs = enc_filter_value v ∧ filter_value_ok v).
Proof.
  unfold decode_filter_value. spec; b2p; subst; cbn [enc_filter_value filter_value_ok];
    rewrite ?app_nil_r; done.
Qed.

Lemma Parses_enc {A} (p : M Cursor.t A) k bs (a : A) (f : N → M Cursor.t A) :
  p = (kind ← Cursor.u8; f kind) → u8_ok k → Parses (f k) bs a → Parses p (enc_u8 k ++ bs) a.
Proof. intros -> Hk Hf. eapply Parses_bind; [by apply Parses_u8 | done]. Qed.

Lemma Parses_filter_value v : filter_value_ok v → Parses decode_filter_value (enc_filter_value v) v.
Proof.
  intros H. destruct v as [s|n|b]; cbn in H; (eapply Parses_enc; [done | done |]); cbn [N.eqb Pos.eqb].
  - eapply Parses_bind_nil; [by apply Parses_string | apply Parses_ret].
  - destruct H as [Hn Hf]. eapply Parses_bind_nil; [by apply Parses_f64|].
    rewrite Hf. apply Parses_ret.
  - eapply Parses_bind_nil; [apply Parses_boolean | apply Parses_ret].
Qed.

Lemma Spec_scan_filter_value : Spec scan_filter_value (λ _ _, True).
Proof. unfold scan_filter_value. spec; done. Qed.

Lemma Parses_scan_filter_value v : filter_value_ok v → Parses scan_filter_value (enc_filter_value v) ().
Proof.
  intros H. destruct v as [s|n|b]; cbn in H; (eapply Parses_enc; [done | done |]); cbn [N.eqb Pos.eqb].
  - eapply Parses_bind_nil; [apply Parses_byte_string, H | apply Parses_ret].
  - destruct H as [Hn Hf]. eapply Parses_bind_nil; [by apply Parses_f64|].
    rewrite Hf. apply Parses_ret.
  - eapply Parses_bind_nil; [apply Parses_boolean | apply Parses_ret].
Qed.
#[export] Hint Resolve Spec_filter_value Parses_filter_value Spec_scan_filter_value Parses_scan_filter_value : wire.

Lemma lenN_enc_filter_value_ge v : 2 <= lenN (enc_filter_value v).
Proof. destruct v; cbn [enc_filter_value]; autorewrite with len; lia. Qed.

Lemma comparator_tame c : tame (decode_filter_comparator c).
Proof. unfold decode_filter_comparator. by repeat case_if. Qed.
Lemma comparator_Ok c f : decode_filter_comparator c = Ok f → c = comparator_code f.
Proof. unfold decode_filter_comparator. repeat case_if; intros; simplify_eq; by b2p. Qed.
Lemma comparator_code_Ok f : decode_filter_comparator (comparator_code f) = Ok f.
Proof. by destruct f. Qed.
Lemma comparator_code_ok f : u8_ok (comparator_code f).
Proof. unfold u8_ok. destruct f; cbn; lia. Qed.
Lemma filter_depth_tame d : tame (filter_depth d).
Proof. unfold filter_depth. by case_if. Qed.
Lemma filter_depth_Ok d u : filter_depth d = Ok u ↔ d <= MAX_EXPRESSION_DEPTH.
Proof. destruct u. unfold filter_depth. destruct (N.ltb_spec MAX_EXPRESSION_DEPTH d); split; try done; lia. Qed.
Lemma count_clause_clean n : clean count_clause n.
Proof. unfold clean, count_clause. by case_if. Qed.
Lemma count_clause_Ok n n' : count_clause n = Ok ((), n') ↔ n' = n + 1 ∧ n + 1 <= MAX_QUERY_CLAUSES.
Proof.
  unfold count_clause. destruct (N.ltb_spec MAX_QUERY_CLAUSES (n + 1)); split; intros;
    destruct_and?; simplify_eq; try done; lia.
Qed.
#[export] Hint Resolve comparator_tame comparator_code_ok filter_depth_tame count_clause_clean : wire.

(** ** Filters *)
Definition filter_rel (d n : N) (bs : bytes) (e : FilterExpression.t) (n' : N) : Prop :=
  bs = enc_filter e ∧ filter_ok d e ∧ n' = n + filter_clauses e ∧ n' <= MAX_QUERY_CLAUSES.

Lemma chain_filters d n bss ch n' :
  Chain (filter_rel d) n bss ch n' →
  bss = enc_filter <$> ch ∧ Forall (filter_ok d) ch ∧ n' = n + sum (filter_clauses <$> ch)
  ∧ (0 < lenN ch → n' <= MAX_QUERY_CLAUSES).
Proof.
  induction 1 as [n|n bs e n1 bss l n2 (-> & He & -> & Hn1) HC (-> & HF & -> & Hn2)]; cbn [fmap list_fmap sum foldr].
  - split; [done|]. split; [done|]. split; [lia | done].
  - fold (sum (filter_clauses <$> l)). split; [done|]. split; [by constructor|]. split; [lia|].
    intros _. destruct l as [|e' l]; [cbn; lia|]. apply Hn2. rewrite lenN_cons. lia.
Qed.

(** Case analysis on every comparison of a boolean test. *)
Local Ltac n_cases :=
  repeat match goal with
  | |- context [?a =? ?b] => destruct (N.eqb_spec a b); try lia; cbn [orb andb]; cbn match
  | |- context [?a <? ?b] => destruct (N.ltb_spec a b); try lia; cbn [orb andb]; cbn match
  end; cbn [andb orb negb]; split; intros; try done; lia.

(** What the decoder's count test leaves. *)
Lemma value_count_test c count :
  ((count =? 0) && negb (bool_decide (expected_values c = Some 0)))
  || (MAX_QUERY_CLAUSES <? count)
  || match expected_values c with Some e => negb (e =? count) | None => false end = false
  ↔ value_count_ok c count.
Proof.
  unfold value_count_ok, MAX_QUERY_CLAUSES. destruct c; cbn [comparator_code expected_values]; try case_bool_decide; simplify_eq; n_cases.
Qed.

Lemma scan_count_test c count :
  ((count =? 0) && (comparator_code c <? 7))
  || match (if comparator_code c =? 1 then None else if comparator_code c =? 6 then Some 2
          else if (comparator_code c =? 7) || (comparator_code c =? 8) then Some 0 else Some 1)
     with Some e => negb (e =? count) | None => false end
  || (MAX_QUERY_CLAUSES <? count) = false
  ↔ value_count_ok c count.
Proof.
  unfold value_count_ok, MAX_QUERY_CLAUSES. destruct c; cbn [comparator_code expected_values]; try case_bool_decide; simplify_eq; n_cases.
Qed.

Lemma SpecX_filter fuel d n :
  (0 < fuel)%nat → 10 <= N.of_nat fuel + d →
  SpecX (decode_filter_expression fuel d) n (filter_rel d n).
Proof.
  revert d n. induction fuel as [|fuel IH]; intros d n Hpos Hfuel; [lia|].
  cbn [decode_filter_expression].
  eapply SpecX_bind; [apply SpecX_pure; auto with wire|]. intros ? [] ? (-> & Hd & ->).
  apply filter_depth_Ok in Hd. pose proof Hd as Hd'. unfold MAX_EXPRESSION_DEPTH in Hd'.
  assert (∀ n, SpecX (decode_filter_expression fuel (d + 1)) n (filter_rel (d + 1) n)) as IH'
    by (intros; apply IH; lia). clear IH.
  specx_budget. destruct (N.eqb_spec a 0) as [->|_].
  { repeat (specx_budget; try match goal with E : _ = false |- _ => apply value_count_test in E end).
    match goal with H : count_clause _ = _ |- _ => apply count_clause_Ok in H as [-> ?] end.
    match goal with H : decode_filter_comparator _ = _ |- _ => apply comparator_Ok in H as -> end.
    unfold filter_rel. cbn [enc_filter filter_ok filter_clauses]. rewrite !app_nil_r. done. }
  destruct ((a =? 1) || (a =? 2)) eqn:Ek.
  { specx_budget. specx_budget. { repeat specx_budget. }
    match goal with E : (_ || _) = false |- _ => rename E into Hcount end. b2p.
    eapply SpecX_bind; [by apply SpecX_replicateM|]. intros ? ch n' (bss & -> & HC & Hlen).
    apply chain_filters in HC as (-> & HF & -> & Hn). apply SpecX_ret. unfold filter_rel.
    assert (lenN ch = a0) as <- by (unfold lenN; lia).
    destruct Ek as [->%N.eqb_eq | ->%N.eqb_eq];
      cbn [enc_filter filter_ok filter_clauses N.eqb Pos.eqb]; rewrite foldr_and_Forall, !app_nil_r;
      (split_and!; [done | done | lia | lia | done | done | apply Hn; lia]). }
  destruct (N.eqb_spec a 3) as [->|_]; [|apply SpecX_fail].
  eapply SpecX_bind; [apply IH'|]. intros ? e n' (-> & He & -> & Hn). apply SpecX_ret.
  unfold filter_rel. cbn [enc_filter filter_ok filter_clauses]. rewrite !app_nil_r. done.
Qed.

(** ** Admissible filters are read back and scanned to their cost *)
Lemma ParsesX_filters {C} (p : M (Cursor.t * N) C) (f : FilterExpression.t → C) d ch n :
  (∀ e n, e ∈ ch → filter_ok d e → n + filter_clauses e <= MAX_QUERY_CLAUSES →
          ParsesX p n (enc_filter e) (f e) (n + filter_clauses e)) →
  Forall (filter_ok d) ch → n + sum (filter_clauses <$> ch) <= MAX_QUERY_CLAUSES →
  ParsesX (replicateM (N.to_nat (lenN ch)) p) n (concat (enc_filter <$> ch)) (f <$> ch)
    (n + sum (filter_clauses <$> ch)).
Proof.
  rewrite lenN_to_nat. revert n. induction ch as [|e ch IH]; intros n Hp HF Hn; cbn [replicateM length fmap list_fmap concat sum foldr] in *.
  - rewrite N.add_0_r. apply ParsesX_ret.
  - apply Forall_cons in HF as [He HF]. fold (sum (filter_clauses <$> ch)) in *. rewrite N.add_assoc.
    eapply ParsesX_bind; [apply Hp; [left | done | lia]|].
    eapply ParsesX_bind_nil; [apply IH; [|done | lia]; intros; apply Hp; [by right|..]; done | apply ParsesX_ret].
Qed.

Lemma ParsesX_filter_node {C} (f : N → M (Cursor.t * N) C) d n k bs a n' :
  d <= MAX_EXPRESSION_DEPTH → k < 4 → ParsesX (f k) n bs a n' →
  ParsesX (_ ← lift (filter_depth d); kind ← on_fst Cursor.u8; f kind) n (enc_u8 k ++ bs) a n'.
Proof.
  intros Hd Hk Hf. eapply ParsesX_nil_bind; [by apply ParsesX_lift, (filter_depth_Ok d ())|].
  eapply ParsesX_bind; [|exact Hf]. apply ParsesX_fst, Parses_u8. unfold u8_ok. lia.
Qed.

(** The tests on a group's child count. *)
Lemma child_count_test n : (n =? 0) || (MAX_QUERY_CLAUSES <? n) = false ↔ 1 <= n <= MAX_QUERY_CLAUSES.
Proof. unfold MAX_QUERY_CLAUSES. destruct (N.eqb_spec n 0), (N.ltb_spec 256 n); cbn; split; intros; try done; lia. Qed.

Lemma value_count_u16 c n : value_count_ok c n → u16_ok n.
Proof. unfold value_count_ok, u16_ok, MAX_QUERY_CLAUSES. destruct c; cbn; lia. Qed.

Lemma ParsesX_filter fuel d e n :
  (0 < fuel)%nat → 10 <= N.of_nat fuel + d → filter_ok d e → n + filter_clauses e <= MAX_QUERY_CLAUSES →
  ParsesX (decode_filter_expression fuel d) n (enc_filter e) e (n + filter_clauses e).
Proof.
  revert d e n. induction fuel as [|fuel IH]; intros d e n Hpos Hfuel Hok Hn; [lia|].
  cbn [decode_filter_expression].
  assert (d <= MAX_EXPRESSION_DEPTH) as Hd by (destruct e; apply Hok).
  assert (∀ e n, filter_ok (d + 1) e → n + filter_clauses e <= MAX_QUERY_CLAUSES →
    ParsesX (decode_filter_expression fuel (d + 1)) n (enc_filter e) e (n + filter_clauses e)) as IH'
    by (intros; apply IH; try done; unfold MAX_EXPRESSION_DEPTH in Hd; lia).
  assert (∀ ch n, Forall (filter_ok (d + 1)) ch → n + sum (filter_clauses <$> ch) <= MAX_QUERY_CLAUSES →
    ParsesX (replicateM (N.to_nat (lenN ch)) (decode_filter_expression fuel (d + 1))) n
      (concat (enc_filter <$> ch)) ch (n + sum (filter_clauses <$> ch))) as IHl.
  { intros ch m HF Hm. rewrite <- (list_fmap_id ch) at 3. eapply ParsesX_filters; [|done..].
    intros. by apply IH'. }
  clear IH. destruct e as [f c vs|ch|ch|e]; cbn [filter_ok enc_filter filter_clauses] in *;
    destruct Hok as [_ Hok]; (apply ParsesX_filter_node; [done | lia|]); cbn [N.eqb Pos.eqb orb].
  - destruct Hok as (Hf & Hc & Hvs).
    pose proof (comparator_code_Ok c). pose proof (value_count_u16 _ _ Hc).
    eapply ParsesX_nil_bind; [apply ParsesX_snd, count_clause_Ok; done|].
    do 4 parsex1. rewrite (proj2 (value_count_test c (lenN vs)) Hc).
    eapply ParsesX_bind_nil; [apply ParsesX_list_id; eapply Forall_impl; [done|]; auto with wire|].
    apply ParsesX_ret.
  - destruct Hok as [Hlen Hch]. rewrite foldr_and_Forall in Hch.
    assert (u16_ok (lenN ch)) by (unfold u16_ok, MAX_QUERY_CLAUSES in *; lia). parsex1.
    rewrite (proj2 (child_count_test _) Hlen).
    eapply ParsesX_bind_nil; [by apply IHl|]. apply ParsesX_ret.
  - destruct Hok as [Hlen Hch]. rewrite foldr_and_Forall in Hch.
    assert (u16_ok (lenN ch)) by (unfold u16_ok, MAX_QUERY_CLAUSES in *; lia). parsex1.
    rewrite (proj2 (child_count_test _) Hlen).
    eapply ParsesX_bind_nil; [by apply IHl|]. apply ParsesX_ret.
  - eapply ParsesX_bind_nil; [by apply IH'|]. apply ParsesX_ret.
Qed.

Lemma ParsesX_scan_filter fuel d e n :
  (0 < fuel)%nat → 10 <= N.of_nat fuel + d → filter_ok d e → n + filter_clauses e <= MAX_QUERY_CLAUSES →
  ParsesX (scan_filter_expression fuel d) n (enc_filter e) (filter_expensive e) (n + filter_clauses e).
Proof.
  revert d e n. induction fuel as [|fuel IH]; intros d e n Hpos Hfuel Hok Hn; [lia|].
  cbn [scan_filter_expression].
  assert (d <= MAX_EXPRESSION_DEPTH) as Hd by (destruct e; apply Hok).
  assert (∀ e n, filter_ok (d + 1) e → n + filter_clauses e <= MAX_QUERY_CLAUSES →
    ParsesX (scan_filter_expression fuel (d + 1)) n (enc_filter e) (filter_expensive e) (n + filter_clauses e)) as IH'
    by (intros; apply IH; try done; unfold MAX_EXPRESSION_DEPTH in Hd; lia).
  assert (∀ ch n, Forall (filter_ok (d + 1)) ch → n + sum (filter_clauses <$> ch) <= MAX_QUERY_CLAUSES →
    ParsesX (replicateM (N.to_nat (lenN ch)) (scan_filter_expression fuel (d + 1))) n
      (concat (enc_filter <$> ch)) (filter_expensive <$> ch) (n + sum (filter_clauses <$> ch))) as IHl.
  { intros ch m HF Hm. eapply ParsesX_filters; [|done..]. intros. by apply IH'. }
  clear IH. destruct e as [f c vs|ch|ch|e]; cbn [filter_ok enc_filter filter_clauses filter_expensive] in *;
    destruct Hok as [_ Hok]; (apply ParsesX_filter_node; [done | lia|]); cbn [N.eqb Pos.eqb orb].
  - destruct Hok as ([Hf _] & Hc & Hvs). pose proof (value_count_u16 _ _ Hc).
    eapply ParsesX_nil_bind; [apply ParsesX_snd, count_clause_Ok; done|].
    do 2 parsex1. replace (8 <? comparator_code c) with false by (by destruct c).
    parsex1. apply ParsesX_remaining. intros r Hr.
    pose proof (lenN_enc_list_ge enc_filter_value 2 vs lenN_enc_filter_value_ge) as Hmin.
    rewrite (enough_left 2 r), (proj2 (scan_count_test c (lenN vs)) Hc) by lia. cbn [orb].
    eapply ParsesX_bind_nil; [apply (ParsesX_list_fst _ (λ _, ()))|apply ParsesX_ret].
    eapply Forall_impl; [done|]. intros v Hv. by apply Parses_scan_filter_value.
  - destruct Hok as [Hlen Hch]. rewrite foldr_and_Forall in Hch.
    assert (u16_ok (lenN ch)) by (unfold u16_ok, MAX_QUERY_CLAUSES in *; lia). parsex1.
    rewrite (proj2 (child_count_test _) Hlen).
    eapply ParsesX_bind_nil; [by apply IHl|]. apply ParsesX_ret.
  - destruct Hok as [Hlen Hch]. rewrite foldr_and_Forall in Hch.
    assert (u16_ok (lenN ch)) by (unfold u16_ok, MAX_QUERY_CLAUSES in *; lia). parsex1.
    rewrite (proj2 (child_count_test _) Hlen).
    eapply ParsesX_bind_nil; [by apply IHl|]. apply ParsesX_ret.
  - eapply ParsesX_bind_nil; [by apply IH'|]. apply ParsesX_ret.
Qed.

(** The scan is total: it returns or fails with E_INVALID_ARGUMENT. *)
Lemma SpecX_scan_filter fuel d n :
  (0 < fuel)%nat → 10 <= N.of_nat fuel + d →
  SpecX (scan_filter_expression fuel d) n (λ _ _ _, True).
Proof.
  revert d n. induction fuel as [|fuel IH]; intros d n Hpos Hfuel; [lia|].
  cbn [scan_filter_expression].
  eapply SpecX_bind; [apply SpecX_pure; auto with wire|]. intros ? [] ? (-> & Hd & ->).
  apply filter_depth_Ok in Hd. unfold MAX_EXPRESSION_DEPTH in Hd.
  assert (∀ n, SpecX (scan_filter_expression fuel (d + 1)) n (λ _ _ _, True)) as IH'
    by (intros; apply IH; lia). clear IH.
  assert (∀ k n, SpecX (replicateM k (scan_filter_expression fuel (d + 1))) n (λ _ _ _, True)) as IHl.
  { intros k m. eapply SpecX_weaken; [by apply (SpecX_replicateM _ (λ _ _ _ _, True))|done]. }
  assert (∀ k n, SpecX (replicateM k (on_fst (T := N) scan_filter_value)) n (λ _ _ _, True)) as Hvl.
  { intros k m. eapply SpecX_weaken; [apply (SpecX_replicateM (on_fst (T := N) scan_filter_value) (λ _ _ _ _, True))|done].
    intros x. eapply SpecX_weaken; [apply SpecX_fst, Spec_scan_filter_value | done]. }
  repeat first
    [ specx_budget
    | eapply SpecX_bind; [apply IH' | intros ? ? ? _]
    | eapply SpecX_bind; [apply IHl | intros ? ? ? _]
    | eapply SpecX_bind; [apply Hvl | intros ? ? ? _]
    | apply SpecX_ret ].
  all: exact I.
Qed.
