(* ===== verification/Catalog.v ===== *)
(** * src/src/protocol.rs: sorts and aggregations on the wire

    [decode_catalog] with [decode_aggregations], and the admission scan
    [scan_catalog] with [scan_aggregations].  [encodeCatalog] of
    src/ts/catalog.ts writes the same layout, here [enc_catalog].

    Recursion: aggregations at depth 33 are rejected before their first child
    is read, so [AGGREGATION_FUEL] = 33 levels from depth 1 are enough. *)
From S2P Require Import Prelude.
From S2P Require Import Errors.
From S2P Require Import Bytes.
From S2P Require Import Wire.
From S2P Require Import Request.
From S2P Require Import Structure.
From S2P Require Import Expression.
Local Open Scope N_scope.

Definition AGGREGATION_FUEL : nat := 33.

Definition catalog_count (minimum_bytes : N) : M Cursor.t N :=
  count ← Cursor.u32;
  remaining ← get_remaining;
  if remaining / minimum_bytes <? count
  then fail_with (invalid "catalog count exceeds remaining request bytes") else mret count.

Definition too_deep : FulltextError := invalid "aggregation nesting exceeds its depth limit".

(** [if cursor.boolean()? { Some(cursor.f64()?) } else { None }] *)
Definition decode_range_bound : M Cursor.t (option f64) :=
  present ← Cursor.boolean; if present : bool then v ← Cursor.f64; mret (Some v) else mret None.
Definition decode_range : M Cursor.t (option f64 * option f64) :=
  from ← decode_range_bound; to ← decode_range_bound; mret (from, to).

Definition decode_aggregation_kind : M Cursor.t AggregationKind.t :=
  kind ← Cursor.u8;
  if kind =? 0 then size ← Cursor.u32; mret (AggregationKind.Terms size)
  else if kind =? 1 then mret AggregationKind.Stats
  else if kind =? 2 then interval ← Cursor.f64; mret (AggregationKind.Histogram interval)
  else if kind =? 3 then
    count ← catalog_count 2;
    if count =? 0 then fail_with (invalid "range aggregation requires ranges")
    else ranges ← replicateM (N.to_nat count) decode_range; mret (AggregationKind.Range ranges)
  else fail_with (invalid "unknown aggregation kind").

Definition is_stats (k : AggregationKind.t) : bool :=
  match k with AggregationKind.Stats => true | _ => false end.

Fixpoint decode_aggregations (fuel : nat) (depth : N) : M Cursor.t (list AggregationRequest.t) :=
  match fuel with
  | O => out_of_fuel
  | Datatypes.S fuel =>
    count ← catalog_count 13;
    if (0 <? count) && (MAX_AGGREGATION_DEPTH <? depth) then fail_with too_deep
    else replicateM (N.to_nat count)
      (name ← Cursor.string;
       field ← Cursor.string;
       kind ← decode_aggregation_kind;
       aggregations ← decode_aggregations fuel (depth + 1);
       if is_stats kind && negb (bool_decide (aggregations = []))
       then fail_with (invalid "stats aggregations cannot have children")
       else mret (AggregationRequest.mk name field kind aggregations))
  end.

Definition decode_sort : M Cursor.t SortRequest.t :=
  field ← Cursor.string;
  d ← Cursor.u8;
  direction ← lift (if d =? 0 then Ok SortDirection.Asc else if d =? 1 then Ok SortDirection.Desc
                    else Err (invalid "unknown sort direction"));
  m ← Cursor.u8;
  missing ← lift (if m =? 0 then Ok MissingOrder.First else if m =? 1 then Ok MissingOrder.Last
                  else Err (invalid "unknown missing sort order"));
  mret (SortRequest.mk field direction missing).

Definition decode_catalog : M Cursor.t (option (list SortRequest.t) * list AggregationRequest.t) :=
  count ← catalog_count 6;
  sorts ← replicateM (N.to_nat count) decode_sort;
  aggregations ← decode_aggregations AGGREGATION_FUEL 1;
  mret (if bool_decide (sorts = []) then None else Some sorts, aggregations).

(** ** The admission scan *)
Definition scan_range_bound : M Cursor.t () :=
  present ← Cursor.boolean; if present : bool then _ ← Cursor.f64; mret () else mret ().
Definition scan_range : M Cursor.t () := _ ← scan_range_bound; _ ← scan_range_bound; mret ().

(** The [match kind] of [scan_aggregations]; the kind byte is needed again below it. *)
Definition scan_aggregation_kind (kind : N) : M Cursor.t () :=
  if kind =? 0 then _ ← Cursor.u32; mret ()
  else if kind =? 1 then mret ()
  else if kind =? 2 then _ ← Cursor.f64; mret ()
  else if kind =? 3 then
    ranges ← catalog_count 2;
    if ranges =? 0 then fail_with (invalid "range aggregation requires ranges")
    else _ ← replicateM (N.to_nat ranges) scan_range; mret ()
  else fail_with (invalid "unknown aggregation kind").

Fixpoint scan_aggregations (fuel : nat) (depth : N) : M Cursor.t N :=
  match fuel with
  | O => out_of_fuel
  | Datatypes.S fuel =>
    count ← catalog_count 13;
    if (0 <? count) && (MAX_AGGREGATION_DEPTH <? depth) then fail_with too_deep
    else
      _ ← replicateM (N.to_nat count)
        (name ← Cursor.byte_string;
         if (lenN name =? 0) || (128 <? lenN name)
         then fail_with (invalid "aggregation names require 1 to 128 UTF-8 bytes")
         else
           _ ← Cursor.byte_string;
           kind ← Cursor.u8;
           _ ← scan_aggregation_kind kind;
           children ← scan_aggregations fuel (depth + 1);
           if (kind =? 1) && (0 <? children)
           then fail_with (invalid "stats aggregations cannot have children") else mret ());
      mret count
  end.

(** One sort entry of [scan_catalog]; the second byte is read only if the first passes. *)
Definition scan_sort : M Cursor.t () :=
  _ ← Cursor.byte_string;
  d ← Cursor.u8;
  if 1 <? d then fail_with (invalid "invalid sort ordering")
  else
    m ← Cursor.u8;
    if 1 <? m then fail_with (invalid "invalid sort ordering") else mret ().

Definition scan_catalog : M Cursor.t bool :=
  sorts ← catalog_count 6;
  _ ← replicateM (N.to_nat sorts) scan_sort;
  count ← scan_aggregations AGGREGATION_FUEL 1;
  mret ((0 <? sorts) || (0 <? count)).

(** ** The wire grammar *)
Definition enc_opt {A} (enc : A → bytes) (o : option A) : bytes :=
  match o with Some a => enc_bool true ++ enc a | None => enc_bool false end.
Definition enc_range (r : option f64 * option f64) : bytes := enc_opt enc_u64 r.1 ++ enc_opt enc_u64 r.2.
Definition enc_kind (k : AggregationKind.t) : bytes :=
  match k with
  | AggregationKind.Terms n => enc_u8 0 ++ enc_u32 n
  | AggregationKind.Stats => enc_u8 1
  | AggregationKind.Histogram v => enc_u8 2 ++ enc_u64 v
  | AggregationKind.Range rs => enc_u8 3 ++ enc_u32 (lenN rs) ++ enc_list enc_range rs
  end.
Fixpoint enc_aggregation (a : AggregationRequest.t) : bytes :=
  let 'AggregationRequest.mk n f k l := a in
  enc_str n ++ enc_str f ++ enc_kind k ++ enc_u32 (lenN l) ++ concat (enc_aggregation <$> l).
Definition enc_aggregations (l : list AggregationRequest.t) : bytes :=
  enc_u32 (lenN l) ++ enc_list enc_aggregation l.
Definition direction_code (d : SortDirection.t) : N :=
  match d with SortDirection.Asc => 0 | SortDirection.Desc => 1 end.
Definition missing_code (m : MissingOrder.t) : N :=
  match m with MissingOrder.First => 0 | MissingOrder.Last => 1 end.
Definition enc_sort (s : SortRequest.t) : bytes :=
  enc_str s.(SortRequest.field) ++ enc_u8 (direction_code s.(SortRequest.direction))
  ++ enc_u8 (missing_code s.(SortRequest.missing)).
Definition enc_catalog (c : option (list SortRequest.t) * list AggregationRequest.t) : bytes :=
  let sorts := default [] c.1 in
  enc_u32 (lenN sorts) ++ enc_list enc_sort sorts ++ enc_aggregations c.2.

(** ** Well-formed catalogs *)
Definition range_ok (r : option f64 * option f64) : Prop :=
  (∀ v, r.1 = Some v → u64_ok v) ∧ (∀ v, r.2 = Some v → u64_ok v).
Definition kind_ok (k : AggregationKind.t) : Prop :=
  match k with
  | AggregationKind.Terms n => u32_ok n
  | AggregationKind.Stats => True
  | AggregationKind.Histogram v => u64_ok v
  | AggregationKind.Range rs => 0 < lenN rs ∧ u32_ok (lenN rs) ∧ Forall range_ok rs
  end.
(** An aggregation listed at nesting [d]. *)
Fixpoint aggregation_ok (d : N) (a : AggregationRequest.t) : Prop :=
  let 'AggregationRequest.mk n f k l := a in
  d <= MAX_AGGREGATION_DEPTH ∧ str_ok n ∧ str_ok f ∧ kind_ok k
  ∧ (is_stats k = true → l = []) ∧ u32_ok (lenN l) ∧ foldr and True (aggregation_ok (d + 1) <$> l).
Definition aggregations_ok (d : N) (l : list AggregationRequest.t) : Prop :=
  u32_ok (lenN l) ∧ Forall (aggregation_ok d) l.
Definition catalog_ok (c : option (list SortRequest.t) * list AggregationRequest.t) : Prop :=
  c.1 ≠ Some [] ∧ u32_ok (lenN (default [] c.1)) ∧ Forall (λ s, str_ok s.(SortRequest.field)) (default [] c.1)
  ∧ aggregations_ok 1 c.2.

(** What the scan asks beyond that: names of 1 to 128 bytes. *)
Fixpoint named (a : AggregationRequest.t) : Prop :=
  let 'AggregationRequest.mk n _ _ l := a in 1 <= lenN n <= 128 ∧ foldr and True (named <$> l).

(** ** Counts and optional values *)
Lemma Spec_catalog_count k : Spec (catalog_count k) (λ bs n, bs = enc_u32 n ∧ u32_ok n).
Proof. unfold catalog_count. spec. by rewrite app_nil_r. Qed.

(** A count is accepted when what it announces is still to come. *)
Lemma Parses_count_then {A} k n (f : N → M Cursor.t A) bs a :
  0 < k → u32_ok n → k * n <= lenN bs → Parses (f n) bs a →
  Parses (mbind f (catalog_count k)) (enc_u32 n ++ bs) a.
Proof.
  intros Hk Hn Hlen Hf pre post Hfit. rewrite <- app_assoc in *.
  assert (catalog_count k (at_ pre (enc_u32 n ++ bs ++ post)) = Ok (n, at_ (pre ++ enc_u32 n) (bs ++ post))) as E.
  { unfold catalog_count. erewrite M_bind_step by (by apply Parses_u32).
    erewrite M_bind_step by (apply get_remaining_at; by rewrite <- app_assoc).
    rewrite enough_left; [done | done | len_lia]. }
  erewrite M_bind_step by exact E. rewrite !app_assoc in *. apply Hf. by rewrite <- !app_assoc in *.
Qed.
#[export] Hint Resolve Spec_catalog_count : wire.

Definition opt_ok {A} (P : A → Prop) (o : option A) : Prop := ∀ a, o = Some a → P a.

Lemma Spec_option {A} (p : M Cursor.t A) enc (P : A → Prop) :
  Spec p (λ bs a, bs = enc a ∧ P a) →
  Spec (b ← Cursor.boolean; if b : bool then a ← p; mret (Some a) else mret None)
    (λ bs o, bs = enc_opt enc o ∧ opt_ok P o).
Proof.
  intros Hp. unfold opt_ok. eapply Spec_bind; [apply Spec_boolean|]. intros ? [] ->.
  - eapply Spec_bind; [exact Hp|]. intros ? a [-> Ha]. apply Spec_ret. cbn [enc_opt].
    rewrite app_nil_r. split; [done|]. by intros ? [= <-].
  - apply Spec_ret. by rewrite app_nil_r.
Qed.

Lemma Parses_option {A} (p : M Cursor.t A) enc (P : A → Prop) o :
  (∀ a, P a → Parses p (enc a) a) → opt_ok P o →
  Parses (b ← Cursor.boolean; if b : bool then a ← p; mret (Some a) else mret None) (enc_opt enc o) o.
Proof.
  intros Hp Ho. destruct o as [a|]; cbn [enc_opt].
  - eapply Parses_bind; [apply Parses_boolean|]. eapply Parses_bind_nil; [by apply Hp, Ho|]. apply Parses_ret.
  - eapply Parses_bind_nil; [apply (Parses_boolean false) | apply Parses_ret].
Qed.

Lemma Spec_range : Spec decode_range (λ bs r, bs = enc_range r ∧ range_ok r).
Proof.
  unfold decode_range. eapply Spec_bind; [apply Spec_option, Spec_f64|]. intros ? f [-> Hf].
  eapply Spec_bind; [apply Spec_option, Spec_f64|]. intros ? t [-> Ht]. apply Spec_ret.
  by rewrite app_nil_r.
Qed.
Lemma Parses_range r : range_ok r → Parses decode_range (enc_range r) r.
Proof.
  destruct r as [f t]. intros [Hf Ht]; cbn in *.
  eapply Parses_bind; [eapply Parses_option; [apply Parses_f64 | exact Hf]|].
  eapply Parses_bind_nil; [eapply Parses_option; [apply Parses_f64 | exact Ht] | apply Parses_ret].
Qed.
#[export] Hint Resolve Spec_range Parses_range : wire.

Lemma lenN_enc_range_ge r : 2 <= lenN (enc_range r).
Proof.
  destruct r as [f t]. unfold enc_range; cbn. rewrite lenN_app.
  assert (∀ o, 1 <= lenN (enc_opt enc_u64 o)) as H by (intros []; cbn; autorewrite with len; lia).
  pose proof (H f). pose proof (H t). lia.
Qed.

Lemma Spec_kind : Spec decode_aggregation_kind (λ bs k, bs = enc_kind k ∧ kind_ok k).
Proof.
  unfold decode_aggregation_kind.
  repeat first [ eapply Spec_bind; [apply Spec_list; solve [eauto 2 with wire] | spec_pre] | spec1 ];
    b2p; subst; cbn [enc_kind kind_ok]; rewrite ?app_nil_r; split_and?; try done; lia.
Qed.

Lemma Parses_kind k : kind_ok k → Parses decode_aggregation_kind (enc_kind k) k.
Proof.
  intros H. destruct k as [n| |v|rs]; cbn [kind_ok enc_kind] in *; unfold decode_aggregation_kind.
  - eapply Parses_bind; [by apply Parses_u8|]. cbn [N.eqb Pos.eqb].
    eapply Parses_bind_nil; [by apply Parses_u32 | apply Parses_ret].
  - eapply Parses_bind_nil; [by apply Parses_u8|]. cbn [N.eqb Pos.eqb]. apply Parses_ret.
  - eapply Parses_bind; [by apply Parses_u8|]. cbn [N.eqb Pos.eqb].
    eapply Parses_bind_nil; [by apply Parses_f64 | apply Parses_ret].
  - destruct H as (Hp & Hn & HF). eapply Parses_bind; [by apply Parses_u8|]. cbn [N.eqb Pos.eqb].
    pose proof (lenN_enc_list_ge enc_range 2 rs lenN_enc_range_ge).
    apply Parses_count_then; [lia | done | done|]. destruct (N.eqb_spec (lenN rs) 0); [lia|].
    eapply Parses_bind_nil; [apply Parses_list; eapply Forall_impl; [exact HF|]; auto with wire | apply Parses_ret].
Qed.
#[export] Hint Resolve Spec_kind Parses_kind : wire.

(** ** Aggregations *)
Lemma enc_aggregation_eq n f k l :
  enc_aggregation (AggregationRequest.mk n f k l) = enc_str n ++ enc_str f ++ enc_kind k ++ enc_aggregations l.
Proof. done. Qed.
Lemma aggregation_ok_eq d n f k l :
  aggregation_ok d (AggregationRequest.mk n f k l) ↔
  d <= MAX_AGGREGATION_DEPTH ∧ str_ok n ∧ str_ok f ∧ kind_ok k
  ∧ (is_stats k = true → l = []) ∧ aggregations_ok (d + 1) l.
Proof. unfold aggregations_ok. cbn [aggregation_ok]. by rewrite foldr_and_Forall. Qed.

Lemma lenN_enc_kind_ge k : 1 <= lenN (enc_kind k).
Proof. destruct k; cbn [enc_kind]; autorewrite with len; lia. Qed.
Lemma lenN_enc_aggregation_ge a : 13 <= lenN (enc_aggregation a).
Proof.
  destruct a as [n f k l]. rewrite enc_aggregation_eq. unfold enc_aggregations. autorewrite with len.
  pose proof (lenN_enc_kind_ge k). lia.
Qed.

Lemma Spec_aggregations fuel d :
  (0 < fuel)%nat → 34 <= N.of_nat fuel + d →
  Spec (decode_aggregations fuel d) (λ bs l, bs = enc_aggregations l ∧ aggregations_ok d l).
Proof.
  revert d. induction fuel as [|fuel IH]; intros d Hpos Hfuel; [lia|].
  cbn [decode_aggregations]. spec1. spec1; [apply Spec_fail|]. unfold too_deep.
  destruct (N.eqb_spec a 0) as [->|Ha].
  { change (N.to_nat 0) with O. cbn [replicateM]. apply Spec_ret. rewrite app_nil_r. split; [done|]. split; [done | constructor]. }
  assert (d <= MAX_AGGREGATION_DEPTH) as Hd.
  { apply andb_false_iff in E as [E|E]; b2p; lia. }
  pose proof Hd as Hd'. unfold MAX_AGGREGATION_DEPTH in Hd'.
  eapply Spec_weaken.
  { apply (Spec_list _ enc_aggregation (aggregation_ok d)). do 3 spec1.
    eapply Spec_bind; [apply IH; lia | spec_pre]. spec1; [apply Spec_fail|]. apply Spec_ret.
    rewrite !app_nil_r, aggregation_ok_eq. split; [done|]. split_and!; try done.
    intros Hs. rewrite Hs in E0. cbn [andb] in E0. by apply negb_false_iff, bool_decide_eq_true in E0. }
  spec_pre. done.
Qed.

Lemma Parses_aggregations_list fuel d l :
  d <= MAX_AGGREGATION_DEPTH ∨ l = [] →
  (∀ a, a ∈ l → aggregation_ok d a → aggregations_ok (d + 1) (AggregationRequest.aggregations a) →
     Parses (decode_aggregations fuel (d + 1)) (enc_aggregations (AggregationRequest.aggregations a))
       (AggregationRequest.aggregations a)) →
  aggregations_ok d l → Parses (decode_aggregations (Datatypes.S fuel) d) (enc_aggregations l) l.
Proof.
  intros Hd Hrec [Hlen HF]. cbn [decode_aggregations]. unfold enc_aggregations.
  pose proof (lenN_enc_list_ge enc_aggregation 13 l lenN_enc_aggregation_ge).
  apply Parses_count_then; [lia | done | done|].
  replace ((0 <? lenN l) && (MAX_AGGREGATION_DEPTH <? d)) with false; last first.
  { symmetry. apply andb_false_iff. destruct Hd as [Hd| ->]; [right | left; done]. by apply N.ltb_ge. }
  apply Parses_list, Forall_forall. intros [n f k l'] Ha. eapply Forall_forall in HF; [|exact Ha].
  pose proof HF as HF'. apply aggregation_ok_eq in HF as (_ & Hn & Hf & Hk & Hs & Hl). rewrite enc_aggregation_eq.
  eapply Parses_bind; [by apply Parses_string|]. eapply Parses_bind; [by apply Parses_string|].
  eapply Parses_bind; [by apply Parses_kind|].
  eapply Parses_bind_nil; [by apply (Hrec _ Ha)|]. cbn [AggregationRequest.aggregations].
  destruct (is_stats k); [|apply Parses_ret]. rewrite Hs by done. apply Parses_ret.
Qed.

Lemma aggregations_ok_depth d l : aggregations_ok d l → d <= MAX_AGGREGATION_DEPTH ∨ l = [].
Proof.
  intros [_ HF]. destruct l as [|[n f k l'] l]; [by right|]. apply Forall_cons in HF as [Ha _].
  apply aggregation_ok_eq in Ha. left. apply Ha.
Qed.

Lemma Parses_aggregations fuel d l :
  (0 < fuel)%nat → 34 <= N.of_nat fuel + d → aggregations_ok d l →
  Parses (decode_aggregations fuel d) (enc_aggregations l) l.
Proof.
  revert d l. induction fuel as [|fuel IH]; intros d l Hpos Hfuel Hok; [lia|].
  pose proof (aggregations_ok_depth _ _ Hok) as Hd.
  apply Parses_aggregations_list; [done| |done]. intros a Ha Haok Hl.
  assert (d <= MAX_AGGREGATION_DEPTH) as Hd' by (destruct Hd as [Hd| ->]; [done | by apply elem_of_nil in Ha]).
  unfold MAX_AGGREGATION_DEPTH in Hd'. apply IH; [lia | lia | done].
Qed.

Lemma Parses_scan_bound o : opt_ok u64_ok o → Parses scan_range_bound (enc_opt enc_u64 o) ().
Proof.
  intros Ho. destruct o as [a|]; cbn [enc_opt]; unfold scan_range_bound.
  - eapply Parses_bind; [apply Parses_boolean|]. eapply Parses_bind_nil; [by apply Parses_f64, Ho | apply Parses_ret].
  - eapply Parses_bind_nil; [apply (Parses_boolean false) | apply Parses_ret].
Qed.

(** A loop over bytes whose results are dropped. *)
Lemma Parses_list_unit {A} (p : M Cursor.t ()) (enc : A → bytes) l :
  Forall (λ a, Parses p (enc a) ()) l →
  Parses (replicateM (N.to_nat (lenN l)) p) (enc_list enc l) (const () <$> l).
Proof.
  intros H. rewrite lenN_to_nat. unfold enc_list.
  induction H as [|a l Ha Hl IH]; cbn [replicateM length fmap list_fmap concat]; [apply Parses_ret|].
  eapply Parses_bind; [exact Ha|]. eapply Parses_bind_nil; [exact IH | apply Parses_ret].
Qed.

Lemma Parses_scan_range r : range_ok r → Parses scan_range (enc_range r) ().
Proof.
  destruct r as [f t]. intros [Hf Ht]; cbn in *. unfold scan_range.
  eapply Parses_bind; [by apply Parses_scan_bound|].
  eapply Parses_bind_nil; [by apply Parses_scan_bound | apply Parses_ret].
Qed.

Definition kind_code (k : AggregationKind.t) : N :=
  match k with
  | AggregationKind.Terms _ => 0 | AggregationKind.Stats => 1
  | AggregationKind.Histogram _ => 2 | AggregationKind.Range _ => 3
  end.
Definition enc_kind_payload (k : AggregationKind.t) : bytes :=
  match k with
  | AggregationKind.Terms n => enc_u32 n
  | AggregationKind.Stats => []
  | AggregationKind.Histogram v => enc_u64 v
  | AggregationKind.Range rs => enc_u32 (lenN rs) ++ enc_list enc_range rs
  end.
Lemma enc_kind_split k : enc_kind k = enc_u8 (kind_code k) ++ enc_kind_payload k.
Proof. destruct k; cbn [enc_kind kind_code enc_kind_payload]; by rewrite ?app_nil_r. Qed.

Lemma Parses_scan_kind k : kind_ok k → Parses (scan_aggregation_kind (kind_code k)) (enc_kind_payload k) ().
Proof.
  intros H. destruct k as [n| |v|rs]; cbn [kind_ok kind_code enc_kind_payload] in *;
    unfold scan_aggregation_kind; cbn [N.eqb Pos.eqb].
  - eapply Parses_bind_nil; [by apply Parses_u32 | apply Parses_ret].
  - apply Parses_ret.
  - eapply Parses_bind_nil; [by apply Parses_f64 | apply Parses_ret].
  - destruct H as (Hp & Hn & HF). pose proof (lenN_enc_list_ge enc_range 2 rs lenN_enc_range_ge).
    apply Parses_count_then; [lia | done | done|]. destruct (N.eqb_spec (lenN rs) 0); [lia|].
    eapply Parses_bind_nil; [apply Parses_list_unit; eapply Forall_impl; [exact HF|] | apply Parses_ret].
    intros. by apply Parses_scan_range.
Qed.

Lemma named_eq n f k l :
  named (AggregationRequest.mk n f k l) ↔ 1 <= lenN n <= 128 ∧ Forall named l.
Proof. cbn [named]. by rewrite foldr_and_Forall. Qed.

(** The scan accepts every well-formed list whose names have 1 to 128 bytes. *)
Lemma Parses_scan_aggregations fuel d l :
  (0 < fuel)%nat → 34 <= N.of_nat fuel + d → aggregations_ok d l → Forall named l →
  Parses (scan_aggregations fuel d) (enc_aggregations l) (lenN l).
Proof.
  revert d l. induction fuel as [|fuel IH]; intros d l Hpos Hfuel Hok Hnm; [lia|].
  pose proof (aggregations_ok_depth _ _ Hok) as Hd. destruct Hok as [Hlen HF].
  cbn [scan_aggregations]. unfold enc_aggregations.
  pose proof (lenN_enc_list_ge enc_aggregation 13 l lenN_enc_aggregation_ge).
  apply Parses_count_then; [lia | done | done|].
  replace ((0 <? lenN l) && (MAX_AGGREGATION_DEPTH <? d)) with false; last first.
  { symmetry. apply andb_false_iff. destruct Hd as [Hd| ->]; [right | left; done]. by apply N.ltb_ge. }
  eapply Parses_bind_nil; [apply Parses_list_unit, Forall_forall | apply Parses_ret].
  intros [n f k l'] Ha.
  eapply Forall_forall in HF; [|exact Ha]. eapply Forall_forall in Hnm; [|exact Ha].
  apply aggregation_ok_eq in HF as (Hd' & [Hn _] & [Hf _] & Hk & Hs & Hl). apply named_eq in Hnm as [Hnm Hnl].
  rewrite enc_aggregation_eq, enc_kind_split, <- app_assoc. unfold MAX_AGGREGATION_DEPTH in Hd'.
  eapply Parses_bind; [by apply Parses_byte_string|].
  destruct (N.eqb_spec (lenN n) 0); [lia|]. destruct (N.ltb_spec 128 (lenN n)); [lia|]. cbn [orb].
  eapply Parses_bind; [by apply Parses_byte_string|].
  eapply Parses_bind; [apply Parses_u8; by destruct k|].
  eapply Parses_bind; [by apply Parses_scan_kind|].
  eapply Parses_bind_nil; [apply IH; [lia | lia | done | done]|].
  destruct (kind_code k =? 1) eqn:E; [|apply Parses_ret].
  rewrite Hs by (by destruct k). apply Parses_ret.
Qed.

Lemma Spec_total_loop {A} (p : M Cursor.t A) n : Spec p (λ _ _, True) → Spec (replicateM n p) (λ _ _, True).
Proof. intros. eapply Spec_weaken; [by apply Spec_replicateM | done]. Qed.

Lemma Spec_scan_bound : Spec scan_range_bound (λ _ _, True).
Proof. unfold scan_range_bound. repeat spec1; done. Qed.
#[export] Hint Resolve Spec_total_loop Spec_scan_bound : wire.
Lemma Spec_scan_range : Spec scan_range (λ _ _, True).
Proof. unfold scan_range. repeat spec1; done. Qed.
#[export] Hint Resolve Spec_scan_range : wire.
Lemma Spec_scan_kind k : Spec (scan_aggregation_kind k) (λ _ _, True).
Proof. unfold scan_aggregation_kind. repeat spec1; done. Qed.
Lemma Spec_scan_sort : Spec scan_sort (λ _ _, True).
Proof. unfold scan_sort. repeat spec1; done. Qed.
#[export] Hint Resolve Spec_scan_kind Spec_scan_sort : wire.

Lemma Spec_scan_aggregations fuel d :
  (0 < fuel)%nat → 34 <= N.of_nat fuel + d → Spec (scan_aggregations fuel d) (λ _ _, True).
Proof.
  revert d. induction fuel as [|fuel IH]; intros d Hpos Hfuel; [lia|].
  cbn [scan_aggregations]. spec1. spec1; [apply Spec_fail|].
  destruct (N.eqb_spec a 0) as [->|Ha].
  { change (N.to_nat 0) with O. cbn [replicateM]. repeat spec1. done. }
  assert (d <= MAX_AGGREGATION_DEPTH) as Hd by (apply andb_false_iff in E as [E|E]; b2p; lia).
  unfold MAX_AGGREGATION_DEPTH in Hd.
  eapply Spec_bind; [apply Spec_total_loop|intros; by apply Spec_ret].
  repeat first [ eapply Spec_bind; [apply IH; lia | intros ? ? _] | spec1 ]; done.
Qed.

(** ** Catalogs *)
Lemma Spec_sort : Spec decode_sort (λ bs s, bs = enc_sort s ∧ str_ok s.(SortRequest.field)).
Proof.
  unfold decode_sort.
  repeat first [ eapply Spec_bind; [apply Spec_pure; by repeat case_if | spec_pre] | spec1 ].
  repeat match goal with
  | H : (if ?a =? 0 then _ else _) = Ok _ |- _ => destruct (N.eqb_spec a 0); [|destruct (N.eqb_spec a 1)]; simplify_eq
  end; by rewrite ?app_nil_r.
Qed.
Lemma Parses_sort s : str_ok s.(SortRequest.field) → Parses decode_sort (enc_sort s) s.
Proof.
  destruct s as [f d m]; cbn. intros Hf. unfold decode_sort, enc_sort; cbn [SortRequest.field SortRequest.direction SortRequest.missing].
  eapply Parses_bind; [by apply Parses_string|].
  eapply Parses_bind; [apply Parses_u8; by destruct d|].
  eapply (Parses_bind _ _ [] d); [apply Parses_lift; by destruct d|].
  eapply Parses_bind_nil; [apply Parses_u8; by destruct m|].
  eapply (Parses_bind _ _ [] m); [apply Parses_lift; by destruct m|]. apply Parses_ret.
Qed.
Lemma Parses_scan_sort s : str_ok s.(SortRequest.field) → Parses scan_sort (enc_sort s) ().
Proof.
  destruct s as [f d m]; cbn. intros [Hf _]. unfold scan_sort, enc_sort; cbn [SortRequest.field SortRequest.direction SortRequest.missing].
  eapply Parses_bind; [by apply Parses_byte_string|].
  eapply Parses_bind; [apply Parses_u8; by destruct d|].
  replace (1 <? direction_code d) with false by (by destruct d).
  eapply Parses_bind_nil; [apply Parses_u8; by destruct m|].
  replace (1 <? missing_code m) with false by (by destruct m). apply Parses_ret.
Qed.
#[export] Hint Resolve Spec_sort Parses_sort Parses_scan_sort : wire.

Lemma lenN_enc_sort_ge s : 6 <= lenN (enc_sort s).
Proof. unfold enc_sort. autorewrite with len. lia. Qed.

Lemma Spec_catalog : Spec decode_catalog (λ bs c, bs = enc_catalog c ∧ catalog_ok c).
Proof.
  unfold decode_catalog. spec1.
  eapply Spec_bind; [apply (Spec_list _ enc_sort (λ s, str_ok s.(SortRequest.field))); auto with wire | spec_pre].
  eapply Spec_bind; [apply Spec_aggregations; unfold AGGREGATION_FUEL; lia | spec_pre]. apply Spec_ret.
  unfold enc_catalog, catalog_ok. cbn [fst snd]. rewrite app_nil_r.
  case_bool_decide; subst; cbn [default]; split_and!; done || congruence.
Qed.

Lemma sorts_of c : catalog_ok c →
  (if bool_decide (default [] c.1 = []) then None else Some (default [] c.1), c.2) = c.
Proof.
  destruct c as [[s|] l]; intros [H _]; cbn in *; [|done]. rewrite bool_decide_false by congruence. done.
Qed.

Lemma Parses_catalog c : catalog_ok c → Parses decode_catalog (enc_catalog c) c.
Proof.
  intros Hok. pose proof (sorts_of c Hok) as E. destruct Hok as (_ & Hlen & HF & Hl).
  unfold decode_catalog, enc_catalog. cbn zeta.
  pose proof (lenN_enc_list_ge enc_sort 6 (default [] c.1) lenN_enc_sort_ge).
  apply Parses_count_then; [lia | done | len_lia|].
  eapply Parses_bind; [apply Parses_list; eapply Forall_impl; [exact HF|]; auto with wire|].
  eapply Parses_bind_nil; [apply Parses_aggregations; [unfold AGGREGATION_FUEL; lia.. | done]|].
  rewrite E. apply Parses_ret.
Qed.

(** Sorts or aggregations present: the [has_catalog] of request admission. *)
Definition has_catalog (c : option (list SortRequest.t) * list AggregationRequest.t) : bool :=
  bool_decide (is_Some c.1) || negb (bool_decide (c.2 = [])).

Lemma Parses_scan_catalog c :
  catalog_ok c → Forall named c.2 → Parses scan_catalog (enc_catalog c) (has_catalog c).
Proof.
  intros (Hs & Hlen & HF & Hl) Hnm. unfold scan_catalog, enc_catalog. cbn zeta.
  pose proof (lenN_enc_list_ge enc_sort 6 (default [] c.1) lenN_enc_sort_ge).
  apply Parses_count_then; [lia | done | len_lia|].
  eapply Parses_bind; [apply Parses_list_unit; eapply Forall_impl; [exact HF|]; auto with wire|].
  eapply Parses_bind_nil; [apply Parses_scan_aggregations; [unfold AGGREGATION_FUEL; lia.. | done | done]|].
  replace (_ || _) with (has_catalog c); [apply Parses_ret|].
  destruct c as [[[|s ss]|] [|a l]]; cbn in *; try done.
Qed.

Lemma Spec_scan_catalog : Spec scan_catalog (λ _ _, True).
Proof.
  unfold scan_catalog. spec1. eapply Spec_bind; [apply Spec_total_loop; auto with wire|spec_pre].
  eapply Spec_bind; [apply Spec_scan_aggregations; unfold AGGREGATION_FUEL; lia | spec_pre]. by apply Spec_ret.
Qed.
#[export] Hint Resolve Spec_catalog Parses_catalog Parses_scan_catalog Spec_scan_catalog : wire.
