(* ===== verification/Admission.v ===== *)
(** * src/src/request_validation.rs: admission of typed search requests

    The checks every search passes after it was decoded or built by hand,
    with the condition each of them decides. *)
From S2P Require Import Prelude.
From S2P Require Import Errors.
From S2P Require Import Bytes.
From S2P Require Import Wire.
From S2P Require Import Request.
From S2P Require Import Structure.
From S2P Require Import Expression.
Local Open Scope N_scope.

(** One step of a loop that keeps a running byte count below a limit. *)
Definition add_within (limit : N) (message : string) (total len : N) : outcome N :=
  let total := saturating_add total len in
  if limit <? total then Err (invalid message) else Ok total.

Definition candidate_step (total : N) (id : bytes) : outcome N :=
  _ ← validate_record_id id;
  add_within MAX_CANDIDATE_BYTES "candidate IDs exceed 1048576 UTF-8 bytes" total (lenN id).

Definition validate_candidates (ids : option (list bytes)) : outcome () :=
  match ids with
  | None => Ok ()
  | Some ids =>
    if MAX_CANDIDATE_IDS <? lenN ids then Err (invalid "candidate ID count exceeds 1024")
    else _ ← foldO candidate_step 0 ids; Ok ()
  end.

Fixpoint validate_expression_options (expression : SearchExpression.t) : outcome bool :=
  match expression with
  | SearchExpression.Clause clause =>
      _ ← QueryOptions_validate clause.(SearchClause.options) clause.(SearchClause.mode);
      Ok (match clause.(SearchClause.mode) with SearchMode.Prefix | SearchMode.FuzzyPrefix => true | _ => false end)
  | SearchExpression.And ch | SearchExpression.Or ch =>
      foldO (λ contains_prefix child, b ← validate_expression_options child; Ok (contains_prefix || b)) false ch
  | SearchExpression.Boost _ clause => validate_expression_options clause
  | SearchExpression.Optional required optional =>
      contains_prefix ← validate_expression_options required;
      foldO (λ contains_prefix child, b ← validate_expression_options child; Ok (contains_prefix || b))
        contains_prefix optional
  | SearchExpression.Not child => validate_expression_options child
  end.

(** [byte.is_ascii_digit() || (b'a'..=b'f').contains(&byte)], on 64 bytes *)
Definition is_lower_hex (b : byte) : bool :=
  let n := Byte.to_N b in ((48 <=? n) && (n <=? 57)) || ((97 <=? n) && (n <=? 102)).
Definition is_snapshot (s : bytes) : bool := (lenN s =? 64) && forallb is_lower_hex s.

Definition validate_boundary (after : SearchBoundary.t) : outcome () :=
  _ ← validate_record_id after.(SearchBoundary.id);
  if negb (f32_is_finite after.(SearchBoundary.score)) || negb (is_snapshot after.(SearchBoundary.snapshot))
  then Err (invalid "invalid search continuation boundary") else Ok ().

Definition request_has_catalog (request : SearchRequest.t) : bool :=
  bool_decide (is_Some request.(SearchRequest.sort))
  || negb (bool_decide (request.(SearchRequest.aggregations) = [])).

Definition validate_search_admission (request : SearchRequest.t) : outcome () :=
  let has_catalog := request_has_catalog request in
  _ ← validate_search_window request.(SearchRequest.offset) request.(SearchRequest.limit)
        request.(SearchRequest.traversal) has_catalog;
  _ ← validate_candidates request.(SearchRequest.candidate_ids);
  _ ← validate_search_structure request.(SearchRequest.expression) MAX_CONFIGURED_QUERY_CLAUSES MAX_FIELDS;
  contains_prefix ← validate_expression_options request.(SearchRequest.expression);
  if contains_prefix && negb request.(SearchRequest.traversal)
     && (negb (request.(SearchRequest.offset) =? 0) || (MAX_AUTOCOMPLETE_RESULTS <? request.(SearchRequest.limit)))
  then Err (invalid (if has_catalog
    then "prefix search with sort or aggregations requires offset zero and a limit no greater than 100; metadata continuation is not supported"
    else "prefix search requires offset zero and a limit no greater than 100; use searchPage for subsequent matches"))
  else match request.(SearchRequest.after) with Some after => validate_boundary after | None => Ok () end.

(** The two [HashSet]s of the trace check are sets of byte strings. *)
Definition trace_value (total : N) (value : bytes) : outcome N :=
  add_within MAX_TRACE_SOURCE_BYTES "trace source text exceeds 1048576 UTF-8 bytes" total (lenN value).
Definition trace_field (acc : gset bytes * N) (field : bytes * list bytes) : outcome (gset bytes * N) :=
  let '(seen, total) := acc in let '(name, values) := field in
  if bool_decide (name ∈ seen) then Err (invalid ("duplicate trace field " +:+ show_str name))
  else if U16_MAX <? lenN values then Err (invalid "trace value count exceeds 65535")
  else total ← foldO trace_value total values; Ok ({[name]} ∪ seen, total).
Definition trace_record (acc : gset bytes * N) (record : TraceRecord.t) : outcome (gset bytes * N) :=
  let '(seen, total) := acc in
  _ ← validate_record_id record.(TraceRecord.id);
  if bool_decide (record.(TraceRecord.id) ∈ seen)
  then Err (invalid ("duplicate trace record " +:+ show_str record.(TraceRecord.id)))
  else if MAX_FIELDS <? lenN record.(TraceRecord.fields)
  then Err (invalid "trace record field count exceeds 1024 fields")
  else
    acc' ← foldO trace_field (∅, total) record.(TraceRecord.fields);
    Ok ({[record.(TraceRecord.id)]} ∪ seen, acc'.2).

Definition validate_trace_admission (request : SearchRequest.t) (records : list TraceRecord.t) : outcome () :=
  _ ← validate_candidates request.(SearchRequest.candidate_ids);
  _ ← validate_search_structure request.(SearchRequest.expression) MAX_CONFIGURED_QUERY_CLAUSES MAX_FIELDS;
  _ ← validate_expression_options request.(SearchRequest.expression);
  if MAX_TRACE_RECORDS <? lenN records then Err (invalid "trace record count exceeds 100")
  else _ ← foldO trace_record (∅, 0) records; Ok ().

Definition validate_filter_number (value : f64) : outcome () :=
  if negb (f64_is_finite value) then Err (invalid "filter numbers must be finite") else Ok ().

(** ** The conditions *)
Definition candidates_ok (ids : option (list bytes)) : Prop :=
  match ids with
  | None => True
  | Some ids => lenN ids <= MAX_CANDIDATE_IDS ∧ Forall (λ id, 0 < lenN id <= MAX_RECORD_ID_BYTES) ids
                ∧ sum (lenN <$> ids) <= MAX_CANDIDATE_BYTES
  end.

Fixpoint options_ok (e : SearchExpression.t) : Prop :=
  match e with
  | SearchExpression.Clause c =>
      QueryOptions_validate c.(SearchClause.options) c.(SearchClause.mode) = Ok ()
  | SearchExpression.And ch | SearchExpression.Or ch => foldr and True (options_ok <$> ch)
  | SearchExpression.Boost _ c | SearchExpression.Not c => options_ok c
  | SearchExpression.Optional r o => options_ok r ∧ foldr and True (options_ok <$> o)
  end.
Fixpoint contains_prefix (e : SearchExpression.t) : bool :=
  match e with
  | SearchExpression.Clause c =>
      match c.(SearchClause.mode) with SearchMode.Prefix | SearchMode.FuzzyPrefix => true | _ => false end
  | SearchExpression.And ch | SearchExpression.Or ch => existsb id (contains_prefix <$> ch)
  | SearchExpression.Boost _ c | SearchExpression.Not c => contains_prefix c
  | SearchExpression.Optional r o => contains_prefix r || existsb id (contains_prefix <$> o)
  end.

Definition window_ok (offset limit : N) (traversal : bool) : Prop :=
  0 < limit ∧ if traversal then offset = 0 ∧ limit <= MAX_SEARCH_PAGE_SIZE else offset + limit <= MAX_SEARCH_WINDOW.
Definition boundary_ok (b : SearchBoundary.t) : Prop :=
  0 < lenN b.(SearchBoundary.id) <= MAX_RECORD_ID_BYTES ∧ f32_is_finite b.(SearchBoundary.score) = true
  ∧ is_snapshot b.(SearchBoundary.snapshot) = true.

Definition search_admissible (r : SearchRequest.t) : Prop :=
  window_ok r.(SearchRequest.offset) r.(SearchRequest.limit) r.(SearchRequest.traversal)
  ∧ candidates_ok r.(SearchRequest.candidate_ids)
  ∧ structure_ok r.(SearchRequest.expression) MAX_CONFIGURED_QUERY_CLAUSES MAX_FIELDS
  ∧ options_ok r.(SearchRequest.expression)
  ∧ (contains_prefix r.(SearchRequest.expression) = true → r.(SearchRequest.traversal) = false →
     r.(SearchRequest.offset) = 0 ∧ r.(SearchRequest.limit) <= MAX_AUTOCOMPLETE_RESULTS)
  ∧ (∀ b, r.(SearchRequest.after) = Some b → boundary_ok b).

Definition trace_source (r : TraceRecord.t) : N :=
  sum ((λ f : bytes * list bytes, sum (lenN <$> f.2)) <$> r.(TraceRecord.fields)).
Definition trace_record_ok (r : TraceRecord.t) : Prop :=
  0 < lenN r.(TraceRecord.id) <= MAX_RECORD_ID_BYTES ∧ lenN r.(TraceRecord.fields) <= MAX_FIELDS
  ∧ NoDup r.(TraceRecord.fields).*1 ∧ Forall (λ f : bytes * list bytes, lenN f.2 <= U16_MAX) r.(TraceRecord.fields).
Definition trace_admissible (r : SearchRequest.t) (records : list TraceRecord.t) : Prop :=
  candidates_ok r.(SearchRequest.candidate_ids)
  ∧ structure_ok r.(SearchRequest.expression) MAX_CONFIGURED_QUERY_CLAUSES MAX_FIELDS
  ∧ options_ok r.(SearchRequest.expression)
  ∧ lenN records <= MAX_TRACE_RECORDS ∧ Forall trace_record_ok records
  ∧ NoDup (TraceRecord.id <$> records) ∧ sum (trace_source <$> records) <= MAX_TRACE_SOURCE_BYTES.

(** ** Loops with a running total *)
Lemma add_within_Ok limit m total len total' : limit < USIZE_MAX →
  add_within limit m total len = Ok total' ↔ total' = total + len ∧ total + len <= limit.
Proof.
  intros HL. unfold add_within, saturating_add. cbn zeta.
  destruct (N.ltb_spec limit (N.min (total + len) USIZE_MAX)); split; intros; destruct_and?; simplify_eq;
    try done; try split; try f_equal; lia.
Qed.

Lemma foldO_total {A} (f : N → A → outcome N) (len : A → N) (P : A → Prop) limit :
  (∀ t a t', f t a = Ok t' ↔ P a ∧ t' = t + len a ∧ t + len a <= limit) →
  ∀ l t t', t <= limit →
  foldO f t l = Ok t' ↔ Forall P l ∧ t' = t + sum (len <$> l) ∧ t + sum (len <$> l) <= limit.
Proof.
  intros Hf. induction l as [|a l IH]; intros t t' Ht; cbn [foldO fmap list_fmap sum foldr].
  - rewrite N.add_0_r. split; [intros [= ->]; by split_and! | by intros (_ & -> & _)].
  - fold (sum (len <$> l)). rewrite bind_Ok, Forall_cons. setoid_rewrite Hf. split.
    + intros (t1 & (Ha & -> & H1) & H). apply IH in H as (? & -> & ?); [|done]. split_and!; try done; lia.
    + intros ((Ha & Hl) & -> & H). exists (t + len a). split; [split_and!; [done | done | lia]|].
      apply IH; [lia|]. split_and!; [done | lia | lia].
Qed.

Lemma validate_record_id_iff id : validate_record_id id = Ok () ↔ 0 < lenN id <= MAX_RECORD_ID_BYTES.
Proof.
  pose proof (validate_record_id_spec id). destruct (validate_record_id id) as [[]| | |]; naive_solver lia.
Qed.
Lemma validate_record_id_tame id : tame (validate_record_id id).
Proof. pose proof (validate_record_id_spec id). destruct (validate_record_id id); naive_solver. Qed.
Lemma add_within_tame L m t n : tame (add_within L m t n).
Proof. unfold add_within. by case_if. Qed.

Lemma candidate_step_Ok t id t' :
  candidate_step t id = Ok t' ↔
  0 < lenN id <= MAX_RECORD_ID_BYTES ∧ t' = t + lenN id ∧ t + lenN id <= MAX_CANDIDATE_BYTES.
Proof.
  unfold candidate_step. rewrite bind_Ok. split.
  - intros ([] & H1%validate_record_id_iff & H2). by apply add_within_Ok in H2.
  - intros (H1 & H2). exists (). by rewrite validate_record_id_iff, add_within_Ok.
Qed.

Lemma validate_candidates_Ok ids : validate_candidates ids = Ok () ↔ candidates_ok ids.
Proof.
  destruct ids as [ids|]; [|done]. unfold validate_candidates, candidates_ok.
  destruct (N.ltb_spec MAX_CANDIDATE_IDS (lenN ids)); [split; [done | lia]|].
  rewrite bind_Ok. setoid_rewrite (foldO_total _ _ _ _ candidate_step_Ok); [|done].
  rewrite N.add_0_l. naive_solver.
Qed.
Lemma validate_candidates_tame ids : tame (validate_candidates ids).
Proof.
  destruct ids as [ids|]; [|done]. unfold validate_candidates. case_if; [done|]. apply tame_bind; [|done].
  apply foldO_tame. intros. apply tame_bind; [apply validate_record_id_tame | intros; apply add_within_tame].
Qed.

(** ** Options *)
Lemma foldO_options ch acc b :
  Forall (λ e, ∀ b, validate_expression_options e = Ok b ↔ options_ok e ∧ b = contains_prefix e) ch →
  foldO (λ contains_prefix child, b ← validate_expression_options child; Ok (contains_prefix || b)) acc ch = Ok b
  ↔ Forall options_ok ch ∧ b = acc || existsb id (contains_prefix <$> ch).
Proof.
  intros H. revert acc b. induction H as [|e ch He Hch IH]; intros acc b; cbn [foldO fmap list_fmap existsb].
  - rewrite orb_false_r. split; [intros [= ->]; by split | by intros [_ ->]].
  - rewrite bind_Ok, Forall_cons. setoid_rewrite bind_Ok. setoid_rewrite He. setoid_rewrite IH.
    change (id (contains_prefix e)) with (contains_prefix e). split.
    + intros (a & (p & (? & ->) & [= <-]) & ? & ->). by rewrite orb_assoc.
    + intros ((? & ?) & ->). eexists. split; [eexists; split; [by split | done]|]. by rewrite orb_assoc.
Qed.

Lemma validate_expression_options_Ok e : ∀ b,
  validate_expression_options e = Ok b ↔ options_ok e ∧ b = contains_prefix e.
Proof.
  induction e as [c|ch IH|ch IH|e IH|x e IH|r o IHr IHo] using SearchExpression.ind; intros b;
    cbn [validate_expression_options options_ok contains_prefix]; rewrite ?foldr_and_Forall.
  - rewrite bind_Ok. split; [intros ([] & ? & [= <-]); done | intros (? & ->); by exists ()].
  - by rewrite foldO_options.
  - by rewrite foldO_options.
  - apply IH.
  - apply IH.
  - rewrite bind_Ok. setoid_rewrite IHr. setoid_rewrite (foldO_options _ _ _ IHo). naive_solver.
Qed.
Lemma validate_expression_options_tame e : tame (validate_expression_options e).
Proof.
  assert (∀ ch acc, Forall (λ e, tame (validate_expression_options e)) ch →
    tame (foldO (λ contains_prefix child, b ← validate_expression_options child; Ok (contains_prefix || b)) acc ch)) as Hl.
  { intros ch acc H. revert acc. induction H as [|c ch Hc H IHl]; intros acc; [done|]. cbn [foldO].
    apply tame_bind; [by apply tame_bind | auto]. }
  induction e as [c|ch IH|ch IH|e IH|x e IH|r o IHr IHo] using SearchExpression.ind;
    cbn [validate_expression_options]; auto.
  - apply tame_bind; [apply QueryOptions_validate_tame | done].
  - apply tame_bind; auto.
Qed.

(** ** The search request *)
Lemma validate_search_window_Ok o l t h :
  o <= USIZE_MAX → l <= USIZE_MAX → validate_search_window o l t h = Ok () ↔ window_ok o l t.
Proof.
  intros Ho Hl. unfold validate_search_window, window_ok, checked_add, MAX_SEARCH_WINDOW, MAX_SEARCH_PAGE_SIZE.
  destruct (N.eqb_spec l 0); [split; [done | lia]|]. destruct t.
  - destruct (N.eqb_spec o 0), (N.ltb_spec 10000 l); cbn; split; try done; lia.
  - destruct (N.leb_spec (o + l) USIZE_MAX) as [H|H]; [destruct (N.ltb_spec 10000 (o + l))|unfold USIZE_MAX in H];
      split; try done; lia.
Qed.
Lemma validate_search_window_tame o l t h : tame (validate_search_window o l t h).
Proof. unfold validate_search_window. repeat case_if; done. Qed.
Lemma validate_boundary_Ok b : validate_boundary b = Ok () ↔ boundary_ok b.
Proof.
  unfold validate_boundary, boundary_ok. rewrite bind_Ok. setoid_rewrite <- validate_record_id_iff.
  destruct (f32_is_finite _), (is_snapshot _); cbn; split; try (intros ([] & ? & ?); done);
    try (intros (? & ? & ?); done); intros (? & ? & ?); by exists ().
Qed.
Lemma validate_boundary_tame b : tame (validate_boundary b).
Proof. apply tame_bind; [apply validate_record_id_tame | intros; by case_if]. Qed.

Lemma bind_unit {A} (m : outcome ()) (f : () → outcome A) a :
  mbind f m = Ok a ↔ m = Ok () ∧ f () = Ok a.
Proof. rewrite bind_Ok. split; [intros ([] & ?) | intros]; eauto. Qed.

Lemma prefix_window_test p t o l :
  p && negb t && (negb (o =? 0) || (MAX_AUTOCOMPLETE_RESULTS <? l)) = false ↔
  (p = true → t = false → o = 0 ∧ l <= MAX_AUTOCOMPLETE_RESULTS).
Proof.
  destruct p, t, (N.eqb_spec o 0), (N.ltb_spec MAX_AUTOCOMPLETE_RESULTS l); cbn;
    (split; [try done; intros _ _ _; lia | intros Hw; try done; specialize (Hw eq_refl eq_refl); lia]).
Qed.

Lemma validate_search_admission_Ok r :
  r.(SearchRequest.offset) <= USIZE_MAX → r.(SearchRequest.limit) <= USIZE_MAX →
  validate_search_admission r = Ok () ↔ search_admissible r.
Proof.
  intros Ho Hl. unfold validate_search_admission, search_admissible. cbn zeta.
  rewrite !bind_unit, bind_Ok, validate_search_window_Ok, validate_candidates_Ok, validate_search_structure_Ok by done.
  setoid_rewrite validate_expression_options_Ok. rewrite <- prefix_window_test.
  destruct (contains_prefix _ && _ && _) eqn:E.
  - split; [|intuition congruence]. intros (? & ? & ? & b & (? & ->) & Hres). by rewrite E in Hres.
  - transitivity (window_ok (SearchRequest.offset r) (SearchRequest.limit r) (SearchRequest.traversal r)
      ∧ candidates_ok (SearchRequest.candidate_ids r) ∧ structure_ok (SearchRequest.expression r) MAX_CONFIGURED_QUERY_CLAUSES MAX_FIELDS
      ∧ options_ok (SearchRequest.expression r)
      ∧ match SearchRequest.after r with Some after => validate_boundary after | None => Ok () end = Ok ()).
    + split; [intros (? & ? & ? & b & (? & ->) & Hres); by rewrite E in Hres |
        intros (? & ? & ? & ? & Hres); split_and!; try done; eexists; split; [by split | by rewrite E]].
    + destruct (SearchRequest.after r) as [b|]; [rewrite validate_boundary_Ok|]; naive_solver.
Qed.

Lemma validate_search_admission_tame r : tame (validate_search_admission r).
Proof.
  unfold validate_search_admission. cbn zeta.
  apply tame_bind; [apply validate_search_window_tame | intros _ _].
  apply tame_bind; [apply validate_candidates_tame | intros _ _].
  apply tame_bind; [apply validate_search_structure_tame | intros _ _].
  apply tame_bind; [apply validate_expression_options_tame | intros b _].
  case_if; [done|]. destruct (SearchRequest.after r); [apply validate_boundary_tame | done].
Qed.

(** C36: Admission of a search: [validate_search_admission] accepts a request exactly
    when its window, candidates, expression, options, autocomplete window and
    continuation boundary are admissible; it fails only with E_INVALID_ARGUMENT. *)
Theorem validate_search_admission_iff r :
  r.(SearchRequest.offset) <= USIZE_MAX → r.(SearchRequest.limit) <= USIZE_MAX →
  tame (validate_search_admission r) ∧ (validate_search_admission r = Ok () ↔ search_admissible r).
Proof. intros. split; [apply validate_search_admission_tame | by apply validate_search_admission_Ok]. Qed.

(** ** The trace request *)
Section Distinct.
(** A loop that rejects a repeated key and keeps a running total. *)
Context {A : Type} (key : A → bytes) (cost : A → N) (P : A → Prop) (limit : N).
Context (step : gset bytes * N → A → outcome (gset bytes * N)).
Context (step_Ok : ∀ seen t a r, t <= limit →
  step (seen, t) a = Ok r ↔
  (key a ∉ seen) ∧ P a ∧ t + cost a <= limit ∧ r = ({[key a]} ∪ seen, t + cost a)).

Lemma foldO_distinct l : ∀ seen t r, t <= limit →
  foldO step (seen, t) l = Ok r ↔
  NoDup (key <$> l) ∧ Forall (λ a, key a ∉ seen) l ∧ Forall P l ∧ t + sum (cost <$> l) <= limit
  ∧ r = (list_to_set (key <$> l) ∪ seen, t + sum (cost <$> l)).
Proof.
  induction l as [|a l IH]; intros seen t r Ht; cbn [foldO fmap list_fmap sum foldr].
  - rewrite N.add_0_r. split.
    + intros [= <-]. split_and!; [constructor | constructor | constructor | done |].
      f_equal. set_solver.
    + intros (_ & _ & _ & _ & ->). do 2 f_equal. set_solver.
  - fold (sum (cost <$> l)). rewrite bind_Ok, NoDup_cons, !Forall_cons.
    setoid_rewrite (λ r, step_Ok seen t a r Ht). split.
    + intros (r1 & (Hk & Ha & Hc & ->) & H). apply IH in H as (Hnd & Hns & HP & Hs & ->); [|done].
      rewrite Forall_forall in Hns. split_and!; try done; try lia.
      * intros (b & Hb & Hin)%list_elem_of_fmap. apply (Hns b Hin). set_solver.
      * apply Forall_forall. intros b Hb. specialize (Hns b Hb). set_solver.
      * f_equal; [set_solver | lia].
    + intros ((Hk & Hnd) & (Hka & Hns) & (Ha & HP) & Hs & ->).
      eexists. split; [split_and!; [done | done | lia | done]|]. apply IH; [lia|].
      rewrite Forall_forall in Hns. split_and!; try done; try lia.
      * apply Forall_forall. intros b Hb. specialize (Hns b Hb).
        assert (key b ≠ key a) by (intros E; apply Hk; rewrite <- E; by apply list_elem_of_fmap_2). set_solver.
      * f_equal; [set_solver | lia].
Qed.
End Distinct.

Section Keys.
(** A loop that only rejects a repeated key. *)
Context {A : Type} (key : A → bytes) (P : A → Prop) (step : gset bytes → A → outcome (gset bytes)).
Context (step_Ok : ∀ seen a r, step seen a = Ok r ↔ (key a ∉ seen) ∧ P a ∧ r = {[key a]} ∪ seen).

Lemma foldO_keys l : ∀ seen,
  (∃ r, foldO step seen l = Ok r) ↔ NoDup (key <$> l) ∧ Forall (λ a, key a ∉ seen) l ∧ Forall P l.
Proof.
  induction l as [|a l IH]; intros seen; cbn [foldO fmap list_fmap].
  - split; [intros _; repeat constructor | eauto].
  - rewrite NoDup_cons, !Forall_cons. setoid_rewrite bind_Ok. setoid_rewrite step_Ok. split.
    + intros (r & ? & (Hk & HP & ->) & Hr). destruct (proj1 (IH _) (ex_intro _ r Hr)) as (Hnd & Hns & HPl).
      rewrite Forall_forall in Hns. split_and!; try done.
      * intros (b & Hb & Hin)%list_elem_of_fmap. apply (Hns b Hin). set_solver.
      * apply Forall_forall. intros b Hb. specialize (Hns b Hb). set_solver.
      + intros ((Hk & Hnd) & (Hka & Hns) & HP & HPl).
      assert (∃ r, foldO step ({[key a]} ∪ seen) l = Ok r) as [r Hr].
      { apply IH. rewrite Forall_forall in Hns. split_and!; try done. apply Forall_forall. intros b Hb.
        specialize (Hns b Hb).
        assert (key b ≠ key a) by (intros E; apply Hk; rewrite <- E; by apply list_elem_of_fmap_2). set_solver. }
      exists r, ({[key a]} ∪ seen). done.
Qed.

Lemma foldO_keys_Ok {B} l (u : outcome B) b :
  (_ ← foldO step ∅ l; u) = Ok b ↔ NoDup (key <$> l) ∧ Forall P l ∧ u = Ok b.
Proof.
  rewrite bind_Ok. pose proof (foldO_keys l ∅) as H. split.
  - intros (r & Hr & Hu). destruct (proj1 H) as (? & _ & ?); eauto.
  - intros (Hn & HP & Hu). destruct (proj2 H) as [r Hr]; [|eauto]. split_and!; [done| |done].
    apply Forall_forall. set_solver.
Qed.
End Keys.

Lemma trace_value_Ok t v t' :
  trace_value t v = Ok t' ↔ True ∧ t' = t + lenN v ∧ t + lenN v <= MAX_TRACE_SOURCE_BYTES.
Proof. unfold trace_value. rewrite add_within_Ok by done. tauto. Qed.

Lemma trace_field_Ok seen t f r : t <= MAX_TRACE_SOURCE_BYTES →
  trace_field (seen, t) f = Ok r ↔
  (f.1 ∉ seen) ∧ lenN f.2 <= U16_MAX ∧ t + sum (lenN <$> f.2) <= MAX_TRACE_SOURCE_BYTES
  ∧ r = ({[f.1]} ∪ seen, t + sum (lenN <$> f.2)).
Proof.
  intros Ht. destruct f as [name values]. unfold trace_field; cbn [fst snd].
  case_bool_decide; [split; [done | by intros [? _]]|].
  destruct (N.ltb_spec U16_MAX (lenN values)); [split; [done | intros (_ & ? & _); lia]|].
  rewrite bind_Ok. setoid_rewrite (foldO_total _ lenN (λ _, True) _ trace_value_Ok); [|done..]. split.
  - intros (t' & (_ & -> & ?) & [= <-]). done.
  - intros (_ & _ & ? & ->). eexists. split; [|done]. split_and!; try done. by apply Forall_forall.
Qed.

Lemma trace_record_Ok seen t r acc : t <= MAX_TRACE_SOURCE_BYTES →
  trace_record (seen, t) r = Ok acc ↔
  (r.(TraceRecord.id) ∉ seen) ∧ trace_record_ok r ∧ t + trace_source r <= MAX_TRACE_SOURCE_BYTES
  ∧ acc = ({[r.(TraceRecord.id)]} ∪ seen, t + trace_source r).
Proof.
  intros Ht. unfold trace_record, trace_record_ok. rewrite bind_unit, validate_record_id_iff.
  case_bool_decide; [naive_solver|].
  destruct (N.ltb_spec MAX_FIELDS (lenN (TraceRecord.fields r))); [split; [by intros [_ ?] | intros; destruct_and?; lia]|].
  rewrite bind_Ok.
  setoid_rewrite (foldO_distinct fst (λ f : bytes * list bytes, sum (lenN <$> f.2)) _ _ _ trace_field_Ok); [|done].
  fold (trace_source r). split.
  - intros (Hid & [s' t'] & (Hnd & _ & HF & Hs & [= -> ->]) & [= <-]). done.
  - intros (Hns & (Hid & _ & Hnd & HF) & Hs & ->). split; [done|].
    eexists. split; [split_and!; [done| |done|done|done] | done]. apply Forall_forall. set_solver.
Qed.

Lemma validate_trace_admission_Ok r records :
  validate_trace_admission r records = Ok () ↔ trace_admissible r records.
Proof.
  unfold validate_trace_admission, trace_admissible.
  rewrite !bind_unit, bind_Ok, validate_candidates_Ok, validate_search_structure_Ok.
  setoid_rewrite validate_expression_options_Ok.
  destruct (N.ltb_spec MAX_TRACE_RECORDS (lenN records)).
  { split; [intros (_ & _ & b & _ & [=]) | intros; destruct_and?; lia]. }
  setoid_rewrite bind_Ok.
  setoid_rewrite (foldO_distinct TraceRecord.id trace_source _ _ _ trace_record_Ok); [|done].
  rewrite N.add_0_l. split.
  - intros (? & ? & b & (? & ->) & acc & (? & _ & ? & ? & _) & _). done.
  - intros (? & ? & ? & ? & ? & ? & ?). split; [done|]. split; [done|]. eexists. split; [done|].
    eexists. split; [|done]. split_and!; try done. apply Forall_forall. set_solver.
Qed.

Lemma trace_record_tame acc r : tame (trace_record acc r).
Proof.
  destruct acc as [seen t]. unfold trace_record. apply tame_bind; [apply validate_record_id_tame | intros _ _].
  repeat case_if; try done. apply tame_bind; [|done]. apply foldO_tame. intros [s t'] [n vs]. unfold trace_field.
  repeat case_if; try done. apply tame_bind; [|done]. apply foldO_tame. intros. apply add_within_tame.
Qed.
Lemma validate_trace_admission_tame r records : tame (validate_trace_admission r records).
Proof.
  unfold validate_trace_admission.
  apply tame_bind; [apply validate_candidates_tame | intros _ _].
  apply tame_bind; [apply validate_search_structure_tame | intros _ _].
  apply tame_bind; [apply validate_expression_options_tame | intros b _].
  case_if; [done|]. apply tame_bind; [apply foldO_tame, trace_record_tame | done].
Qed.

(** Admission of a trace: [validate_trace_admission] accepts a request and its
    records exactly when the candidates, the expression and its options are
    admissible, at most 100 records with distinct valid identifiers are given,
    each with at most 1024 distinctly named fields of at most 65535 values, and
    their values total at most 1 MiB; it fails only with E_INVALID_ARGUMENT. *)
Theorem validate_trace_admission_iff r records :
  tame (validate_trace_admission r records)
  ∧ (validate_trace_admission r records = Ok () ↔ trace_admissible r records).
Proof. split; [apply validate_trace_admission_tame | apply validate_trace_admission_Ok]. Qed.

(** A search the admission accepts. *)
Definition sample_admitted : SearchRequest.t :=
  SearchRequest.mk None []
    (SearchExpression.Clause (SearchClause.mk [] SearchMode.Prefix (QueryOptions.mk 1 true) [])) None None
    0 100 false 50 false None.
Lemma validate_search_admission_iff_witness :
  validate_search_admission sample_admitted = Ok () ∧ search_admissible sample_admitted.
Proof.
  assert (validate_search_admission sample_admitted = Ok ()) as E by (vm_compute; reflexivity).
  split; [exact E|].
  apply (validate_search_admission_iff sample_admitted); [vm_compute; discriminate.. | exact E].
Defined.
