(* ===== verification/Frame.v ===== *)
(** * src/src/protocol.rs: whole frames

    Every [decode_*] function opens a cursor on the frame's magic, reads a body,
    calls [finish] and runs its last checks: [decode_frame].  A frame is either
    accepted (and is then exactly the bytes its body's relation describes) or
    rejected with E_INVALID_ARGUMENT. *)
From S2P Require Import Prelude.
From S2P Require Import Errors.
From S2P Require Import Bytes.
From S2P Require Import Wire.
From S2P Require Import Structure.
Local Open Scope N_scope.

Definition magic (s : string) : bytes := String.list_byte_of_string s.

Definition decode_frame {A B} (m : bytes) (body : M Cursor.t A) (check : A → outcome B) (bs : bytes) : outcome B :=
  c ← Cursor.new bs m;
  run (a ← body; _ ← gets Cursor.finish; lift (check a)) c.

(** [bytes.starts_with(prefix)] *)
Definition starts_with (bs prefix : bytes) : bool := bool_decide (firstn (length prefix) bs = prefix).

Lemma starts_with_header m m' rest : length m = 4%nat → length m' = 4%nat →
  starts_with (enc_header m ++ rest) m' = bool_decide (m = m').
Proof.
  intros Hm Hm'. unfold starts_with, enc_header. rewrite Hm', <- Hm, <- app_assoc, take_app_length.
  apply bool_decide_ext. by split.
Qed.

(** A local [let mut x] that only the inner reads see. *)
Definition with_local {S T A} (x : T) (m : M (S * T) A) : M S A := λ s,
  match m (s, x) with Ok (a, (s', _)) => Ok (a, s') | Err e => Err e | Panic => Panic | Fuel => Fuel end.

Lemma Spec_local {X A} (x : X) (m : M (Cursor.t * X) A) (R : bytes → A → X → Prop) :
  SpecX m x R → Spec (with_local x m) (λ bs a, ∃ x', R bs a x').
Proof.
  intros H pre rest Hf. specialize (H pre rest Hf). unfold with_local.
  destruct (m _) as [[a [c x']]| | |]; try done. destruct H as (bs & post & ? & ? & ?); eauto 10.
Qed.
Lemma Parses_local {X A} (x : X) (m : M (Cursor.t * X) A) bs a x' :
  ParsesX m x bs a x' → Parses (with_local x m) bs a.
Proof. intros H pre post Hf. unfold with_local. by rewrite H. Qed.

Lemma Parses_nil_bind {A B} (p : M Cursor.t A) (f : A → M Cursor.t B) a bs b :
  Parses p [] a → Parses (f a) bs b → Parses (mbind f p) bs b.
Proof. intros. change bs with ([] ++ bs). by eapply Parses_bind. Qed.

(** [p] reads [bs] where it is followed by exactly [post]. *)
Definition Reads {A} (p : M Cursor.t A) (bs post : bytes) (a : A) : Prop :=
  ∀ pre, fits (pre ++ bs ++ post) → p (at_ pre (bs ++ post)) = Ok (a, at_ (pre ++ bs) post).

Lemma Parses_Reads {A} (p : M Cursor.t A) bs post a : Parses p bs a → Reads p bs post a.
Proof. intros H pre. apply H. Qed.
Lemma Reads_bind {A B} (p : M Cursor.t A) (f : A → M Cursor.t B) bs bs' post a b :
  Reads p bs (bs' ++ post) a → Reads (f a) bs' post b → Reads (mbind f p) (bs ++ bs') post b.
Proof.
  intros Hp Hf pre Hfit. rewrite <- app_assoc in *. erewrite M_bind_step by (by apply Hp).
  rewrite !app_assoc in *. apply Hf. by rewrite <- !app_assoc in *.
Qed.
Lemma Reads_parse {A B} (p : M Cursor.t A) (f : A → M Cursor.t B) bs bs' post a b :
  Parses p bs a → Reads (f a) bs' post b → Reads (mbind f p) (bs ++ bs') post b.
Proof. intros. eapply Reads_bind; [by apply Parses_Reads | done]. Qed.
Lemma Reads_last {A B} (p : M Cursor.t A) (f : A → M Cursor.t B) bs post a b :
  Parses p bs a → Reads (f a) [] post b → Reads (mbind f p) bs post b.
Proof. intros. rewrite <- (app_nil_r bs). by eapply Reads_parse. Qed.
Lemma Reads_ret {A} (a : A) post : Reads (mret a) [] post a.
Proof. apply Parses_Reads, Parses_ret. Qed.

Section Frame.
Context {A B : Type} (m : bytes) (body : M Cursor.t A) (check : A → outcome B).
Context (Hm : length m = 4%nat).

Lemma decode_frame_sound (R : bytes → A → Prop) bs :
  Spec body R → (∀ bs a, R bs a → tame (check a)) → fits bs →
  match decode_frame m body check bs with
  | Ok b => ∃ bs' a, bs = enc_header m ++ bs' ∧ R bs' a ∧ check a = Ok b
  | Err e => code e = "E_INVALID_ARGUMENT"%string
  | Panic | Fuel => False
  end.
Proof.
  intros Hs Hc Hf. unfold decode_frame. pose proof (new_spec bs m Hm) as Hn.
  destruct (Cursor.new bs m) as [c| | |]; [|by destruct Hn | done..]. destruct Hn as (rest & -> & ->).
  cbn [mbind outcome_bind]. specialize (Hs _ _ Hf). unfold run. cbv [mbind M_bind].
  destruct (body _) as [[a c]| | |]; [|done..]. destruct Hs as (bs' & post & -> & -> & HR).
  unfold gets, lift. rewrite finish_at. case_bool_decide; [|done]. subst.
  specialize (Hc _ _ HR). destruct (check a) as [b| | |] eqn:E; [|done..].
  exists bs', a. by rewrite app_nil_r.
Qed.

Lemma decode_frame_complete bs' a b :
  Reads body bs' [] a → check a = Ok b → fits (enc_header m ++ bs') →
  decode_frame m body check (enc_header m ++ bs') = Ok b.
Proof.
  intros Hb Hc Hf. unfold decode_frame. rewrite new_header by done. cbn [mbind outcome_bind].
  unfold run. cbv [mbind M_bind]. specialize (Hb (enc_header m)). rewrite app_nil_r in Hb.
  rewrite Hb by done. unfold gets, lift. rewrite finish_at. by rewrite bool_decide_true, Hc.
Qed.
End Frame.

(** ** Loops with a budget, element by element *)
Lemma SpecX_list {X A} (p : M (Cursor.t * X) A) (enc : A → bytes) (P : A → Prop) n x :
  (∀ x, SpecX p x (λ bs a _, bs = enc a ∧ P a)) →
  SpecX (replicateM (N.to_nat n) p) x (λ bs l _, bs = concat (enc <$> l) ∧ Forall P l ∧ lenN l = n).
Proof.
  intros Hp. eapply SpecX_weaken.
  { apply (SpecX_replicateM _ (λ _ bs a _, bs = enc a ∧ P a)). exact Hp. }
  intros bs l x' (bss & -> & HC & Hlen).
  assert (bss = enc <$> l ∧ Forall P l) as [-> HF].
  { clear Hlen. induction HC as [|y bs a y' bss l y'' [-> Ha] HC [-> HF]]; cbn; auto. }
  split_and!; [done | done|]. unfold lenN. lia.
Qed.

Lemma ParsesX_costs {A} (p : M (Cursor.t * N) A) (enc : A → bytes) (cost : A → N) limit l n :
  (∀ a n, a ∈ l → n + cost a <= limit → ParsesX p n (enc a) a (n + cost a)) →
  n + sum (cost <$> l) <= limit →
  ParsesX (replicateM (N.to_nat (lenN l)) p) n (concat (enc <$> l)) l (n + sum (cost <$> l)).
Proof.
  rewrite lenN_to_nat. revert n.
  induction l as [|a l IH]; intros n Hp Hn; cbn [replicateM length fmap list_fmap concat sum foldr] in *.
  - rewrite N.add_0_r. apply ParsesX_ret.
  - fold (sum (cost <$> l)) in *. rewrite N.add_assoc.
    eapply (ParsesX_bind _ _ _ _ _ (n + cost a)); [apply Hp; [left | lia]|].
    eapply ParsesX_bind_nil; [apply IH; [intros; apply Hp; [by right | done] | lia] | apply ParsesX_ret].
Qed.
