(* ===== verification/Search.v ===== *)
(** * src/src/protocol.rs: search frames (FTSQ)

    [decode_search] reads a whole search request; [classify_search] decides
    from the same bytes, without building the request, whether it goes to the
    expensive lane; [search_budget] peeks at the last four bytes. *)
From S2P Require Import Prelude.
From S2P Require Import Errors.
From S2P Require Import Bytes.
From S2P Require Import Wire.
From S2P Require Import Request.
From S2P Require Import Structure.
From S2P Require Import Expression.
From S2P Require Import Filter.
From S2P Require Import Catalog.
From S2P Require Import Admission.
From S2P Require Import Frame.
Local Open Scope N_scope.

Definition FTSQ : bytes := magic "FTSQ".

Definition validate_search_header (bs : bytes) : outcome () :=
  if MAX_SEARCH_REQUEST_BYTES <? lenN bs then Err (invalid "packed search request exceeds 8388608 bytes")
  else _ ← Cursor.new bs FTSQ; Ok ().

(** [bytes.get(bytes.len().saturating_sub(4)..).filter(|bytes| bytes.len() == 4)] *)
Definition packed_budget (bs : bytes) (m : bytes) (operation : string) : outcome N :=
  _ ← Cursor.new bs m;
  budget_bytes ← ok_or
    (match Cursor.get_range bs (saturating_sub (lenN bs) 4) (lenN bs) with
     | Some s => if lenN s =? 4 then Some s else None
     | None => None
     end) (invalid "packed request is truncated");
  let budget := le_combine budget_bytes in
  if (budget =? 0) || (MAX_SEARCH_BUDGET_MILLISECONDS <? budget)
  then Err (invalid (operation +:+ " budget must be between 1 and " +:+ show MAX_SEARCH_BUDGET_MILLISECONDS
                     +:+ " milliseconds"))
  else Ok budget.
Definition search_budget (bs : bytes) : outcome N := packed_budget bs FTSQ "search".

(** The continuation boundary that may follow a set traversal flag. *)
Definition decode_after (traversal : bool) : M Cursor.t (bool * option SearchBoundary.t) :=
  has_after ← (if traversal then Cursor.boolean else mret false);
  if has_after : bool then
    snapshot ← Cursor.string;
    score ← Cursor.f32;
    id ← Cursor.record_id;
    if negb (is_snapshot snapshot) || negb (f32_is_finite score)
    then fail_with (invalid "invalid search continuation boundary")
    else mret (traversal, Some (SearchBoundary.mk snapshot score id))
  else mret (traversal, None).

Definition decode_search_traversal : M Cursor.t (bool * option SearchBoundary.t) :=
  remaining ← get_remaining;
  traversal ← (if 4 <? remaining then Cursor.boolean else mret false);
  decode_after traversal.

(** The candidate loop, with its byte counter. *)
Definition candidate_bytes (id : bytes) : M N () := λ total,
  total ← ok_or (checked_add total (lenN id)) (invalid "candidate ID byte count overflow");
  if MAX_CANDIDATE_BYTES <? total then Err (invalid "candidate IDs exceed 1048576 UTF-8 bytes")
  else Ok ((), total).
Definition decode_candidate : M (Cursor.t * N) bytes :=
  id ← on_fst Cursor.record_id; _ ← on_snd (candidate_bytes id); mret id.

(** [has_candidates], the count, the identifiers; [then_some] at the end. *)
Definition decode_candidates : M Cursor.t (option (list bytes)) :=
  has_candidates ← Cursor.boolean;
  candidate_count ← (if has_candidates : bool then Cursor.u16 else mret 0);
  if MAX_CANDIDATE_IDS <? candidate_count then fail_with (invalid "candidate ID count exceeds 1024") else
  remaining ← get_remaining;
  if remaining / 4 <? candidate_count
  then fail_with (invalid "candidate ID count exceeds the packed request length") else
  candidate_ids ← with_local 0 (replicateM (N.to_nat candidate_count) decode_candidate);
  mret (if has_candidates : bool then Some candidate_ids else None).

Definition FILTER_FUEL : nat := 10.
Definition decode_filter_part : M Cursor.t (option FilterExpression.t) :=
  has_filter ← Cursor.boolean;
  if has_filter : bool
  then f ← with_local 0 (decode_filter_expression FILTER_FUEL 0); mret (Some f) else mret None.

(** The body of [decode_search]: everything up to [finish]. *)
Definition decode_search_body : M Cursor.t SearchRequest.t :=
  structure ← lift (SearchStructureBudget.new MAX_CONFIGURED_QUERY_CLAUSES MAX_FIELDS);
  expression ← with_local structure (decode_search_expression EXPRESSION_FUEL 0);
  candidate_ids ← decode_candidates;
  filter ← decode_filter_part;
  catalog ← decode_catalog;
  offset ← Cursor.u32;
  limit ← Cursor.u32;
  exact_total ← Cursor.boolean;
  ta ← decode_search_traversal;
  budget_milliseconds ← Cursor.u32;
  mret (SearchRequest.mk catalog.1 catalog.2 expression candidate_ids filter offset limit exact_total
          budget_milliseconds ta.1 ta.2).

Definition budget_check (operation : string) (budget_milliseconds : N) : outcome () :=
  if (budget_milliseconds =? 0) || (MAX_SEARCH_BUDGET_MILLISECONDS <? budget_milliseconds)
  then Err (invalid (operation +:+ " budget must be between 1 and " +:+ show MAX_SEARCH_BUDGET_MILLISECONDS
                     +:+ " milliseconds"))
  else Ok ().

Definition search_check (request : SearchRequest.t) : outcome SearchRequest.t :=
  _ ← budget_check "search" request.(SearchRequest.budget_milliseconds);
  _ ← validate_search_admission request;
  Ok request.

Definition decode_search (bs : bytes) : outcome SearchRequest.t :=
  decode_frame FTSQ decode_search_body search_check bs.

(** ** Classification *)
Definition scan_candidates : M Cursor.t () :=
  has_candidates ← Cursor.boolean;
  candidate_count ← (if has_candidates : bool then Cursor.u16 else mret 0);
  remaining ← get_remaining;
  if (MAX_CANDIDATE_IDS <? candidate_count) || (remaining / 4 <? candidate_count)
  then fail_with (invalid "candidate ID count exceeds its packed request") else
  _ ← replicateM (N.to_nat candidate_count) Cursor.byte_string; mret ().

Definition scan_filter_part : M Cursor.t bool :=
  has_filter ← Cursor.boolean;
  if has_filter : bool
  then with_local 0 (expensive ← scan_filter_expression FILTER_FUEL 0;
                     filter_clauses ← on_snd (gets Ok); mret (expensive || (16 <? filter_clauses)))
  else mret false.

(** The last expression of [classify_search]. *)
Definition is_expensive_search (raised traversal catalog : bool) (cost : SearchCost.t) (filter exact_total : bool) : bool :=
  traversal || catalog
  || (raised && ((MAX_QUERY_TERMS <? cost.(SearchCost.terms_upper))
                 || (MAX_QUERY_CLAUSES <? cost.(SearchCost.construction_upper))))
  || cost.(SearchCost.has_expensive_mode) || negb cost.(SearchCost.has_positive_anchor)
  || filter || exact_total.

Definition raised_profile (max_query_terms max_query_clauses : N) : bool :=
  (MAX_QUERY_TERMS <? max_query_terms) || (MAX_QUERY_CLAUSES <? max_query_clauses).
Definition then_some {A} (b : bool) (a : A) : option A := if b then Some a else None.

Definition classify_body (schema_fields max_query_terms max_query_clauses : N) : M Cursor.t bool :=
  let raised_profile_fields := then_some (raised_profile max_query_terms max_query_clauses) schema_fields in
  structure ← lift (SearchStructureBudget.new max_query_clauses schema_fields);
  cost ← with_local structure (scan_search_expression EXPRESSION_FUEL 0 raised_profile_fields);
  _ ← scan_candidates;
  filter_is_expensive ← scan_filter_part;
  catalog_is_expensive ← scan_catalog;
  _ ← Cursor.u32;
  _ ← Cursor.u32;
  exact_total ← Cursor.boolean;
  ta ← decode_search_traversal;
  mret (is_expensive_search (bool_decide (is_Some raised_profile_fields)) ta.1 catalog_is_expensive cost
          filter_is_expensive exact_total).

Definition classify_search (bs : bytes) (schema_fields max_query_terms max_query_clauses : N) : outcome bool :=
  _ ← validate_query_limits max_query_terms max_query_clauses;
  c ← Cursor.new bs FTSQ;
  run (classify_body schema_fields max_query_terms max_query_clauses) c.

Definition search_is_expensive (bs : bytes) : outcome bool :=
  classify_search bs MAX_FIELDS MAX_QUERY_TERMS MAX_QUERY_CLAUSES.
Definition search_is_expensive_for_config (bs : bytes) (config : EngineConfig.t) : outcome bool :=
  classify_search bs (lenN config.(EngineConfig.identity).(EngineIdentityConfig.fields))
    config.(EngineConfig.limits).(Limits.max_query_terms)
    config.(EngineConfig.limits).(Limits.max_query_clauses).

(** ** The wire grammar of a search frame *)
Definition enc_candidates (ids : option (list bytes)) : bytes :=
  match ids with
  | Some ids => enc_bool true ++ enc_u16 (lenN ids) ++ enc_list enc_str ids
  | None => enc_bool false
  end.
Definition enc_boundary (b : SearchBoundary.t) : bytes :=
  enc_str b.(SearchBoundary.snapshot) ++ enc_u32 b.(SearchBoundary.score) ++ enc_str b.(SearchBoundary.id).
Definition enc_traversal (t : bool * option SearchBoundary.t) : bytes :=
  if t.1 then enc_bool true ++ enc_opt enc_boundary t.2 else enc_bool false.

(** The traversal flag may be left out when it is false. *)
Definition traversal_bytes (t : bool * option SearchBoundary.t) (bs : bytes) : Prop :=
  bs = enc_traversal t ∨ (bs = [] ∧ t = (false, None)).
Definition traversal_ok (t : bool * option SearchBoundary.t) : Prop :=
  ∀ b, t.2 = Some b → t.1 = true ∧ str_ok b.(SearchBoundary.snapshot) ∧ u32_ok b.(SearchBoundary.score)
    ∧ id_ok b.(SearchBoundary.id) ∧ is_snapshot b.(SearchBoundary.snapshot) = true
    ∧ f32_is_finite b.(SearchBoundary.score) = true.

Definition enc_search_body (r : SearchRequest.t) (tb : bytes) : bytes :=
  enc_expression r.(SearchRequest.expression) ++ enc_candidates r.(SearchRequest.candidate_ids)
  ++ enc_opt enc_filter r.(SearchRequest.filter)
  ++ enc_catalog (r.(SearchRequest.sort), r.(SearchRequest.aggregations))
  ++ enc_u32 r.(SearchRequest.offset) ++ enc_u32 r.(SearchRequest.limit)
  ++ enc_bool r.(SearchRequest.exact_total) ++ tb ++ enc_u32 r.(SearchRequest.budget_milliseconds).
Definition search_bytes (r : SearchRequest.t) (bs : bytes) : Prop :=
  ∃ tb, traversal_bytes (r.(SearchRequest.traversal), r.(SearchRequest.after)) tb
        ∧ bs = enc_header FTSQ ++ enc_search_body r tb.

Definition filter_admissible (f : FilterExpression.t) : Prop := filter_ok 0 f ∧ filter_clauses f <= MAX_QUERY_CLAUSES.

(** Requests a frame can carry. *)
Definition search_parts_ok (r : SearchRequest.t) : Prop :=
  expression_ok r.(SearchRequest.expression)
  ∧ opt_ok (Forall id_ok) r.(SearchRequest.candidate_ids)
  ∧ opt_ok filter_admissible r.(SearchRequest.filter)
  ∧ catalog_ok (r.(SearchRequest.sort), r.(SearchRequest.aggregations))
  ∧ u32_ok r.(SearchRequest.offset) ∧ u32_ok r.(SearchRequest.limit)
  ∧ traversal_ok (r.(SearchRequest.traversal), r.(SearchRequest.after))
  ∧ u32_ok r.(SearchRequest.budget_milliseconds).
Definition search_ok (r : SearchRequest.t) : Prop :=
  search_parts_ok r ∧ 1 <= r.(SearchRequest.budget_milliseconds) <= MAX_SEARCH_BUDGET_MILLISECONDS
  ∧ search_admissible r.

(** ** Traversals *)
Lemma Spec_mret_eq {A} (a : A) : Spec (mret a) (λ bs x, bs = [] ∧ x = a).
Proof. by apply Spec_ret. Qed.

Lemma Spec_traversal : Spec decode_search_traversal (λ bs t, traversal_bytes t bs ∧ traversal_ok t).
Proof.
  unfold decode_search_traversal, traversal_bytes. apply Spec_remaining. intros n.
  eapply (Spec_bind _ (λ bs t, bs = enc_bool t ∨ (bs = [] ∧ t = false))).
  { destruct (4 <? n); [eapply Spec_weaken; [apply Spec_boolean | auto] | by apply Spec_ret; right]. }
  intros bs t Ht. cbn beta. unfold decode_after.
  eapply (Spec_bind _ (λ bs' h, (t = true ∧ bs' = enc_bool h) ∨ (t = false ∧ bs' = [] ∧ h = false))).
  { destruct t; [eapply Spec_weaken; [apply Spec_boolean | auto] | by apply Spec_ret; right]. }
  intros bs' h Hh. destruct h.
  - destruct Hh as [[-> ->]|(_ & _ & [=])]. destruct Ht as [->|[_ [=]]]. spec. apply orb_false_iff in E as [E1%negb_false_iff E2%negb_false_iff].
    rewrite app_nil_r. split; [by left|]. intros b [= <-]. done.
  - apply Spec_ret. rewrite app_nil_r. split; [|done].
    destruct t; [|destruct Hh as [[[=] _]|(_ & -> & _)]].
    + destruct Hh as [[_ ->]|[[=] _]]. destruct Ht as [->|[_ [=]]]. by left.
    + rewrite app_nil_r. destruct Ht as [->|[-> _]]; [by left | by right].
Qed.

Lemma Reads_traversal t bs post :
  traversal_bytes t bs → traversal_ok t → lenN post = 4 → Reads decode_search_traversal bs post t.
Proof.
  intros Hb Hok Hp pre Hf. unfold decode_search_traversal.
  erewrite M_bind_step by (by apply get_remaining_at).
  destruct Hb as [->|[-> ->]]; last first.
  { cbn [app]. rewrite Hp. by rewrite app_nil_r. }
  assert ((4 <? lenN (enc_traversal t ++ post)) = true) as ->.
  { apply N.ltb_lt. unfold enc_traversal. destruct t.1; autorewrite with len; lia. }
  revert pre Hf. change (Reads (mbind decode_after Cursor.boolean) (enc_traversal t) post t).
  apply Parses_Reads. unfold enc_traversal. destruct t as [[] after]; cbn [fst snd] in *.
  - eapply Parses_bind; [apply (Parses_boolean true)|]. unfold decode_after. cbn beta match. destruct after as [b|]; cbn [enc_opt].
    + destruct (Hok b eq_refl) as (_ & Hs & Hsc & Hid & Hss & Hfin). destruct b as [s sc i]; cbn [SearchBoundary.snapshot SearchBoundary.score SearchBoundary.id] in *.
      eapply Parses_bind; [apply (Parses_boolean true)|]. cbn beta match. unfold enc_boundary.
      cbn [SearchBoundary.snapshot SearchBoundary.score SearchBoundary.id].
      eapply Parses_bind; [by apply Parses_string|]. eapply Parses_bind; [by apply Parses_f32|].
      eapply Parses_bind_nil; [by apply Parses_record_id|]. rewrite Hss, Hfin. apply Parses_ret.
    + eapply Parses_bind_nil; [apply (Parses_boolean false) | apply Parses_ret].
  - destruct after as [b|]; [by destruct (Hok b eq_refl)|].
    eapply Parses_bind_nil; [apply (Parses_boolean false)|]. cbn beta match.
    eapply Parses_bind_nil; [apply Parses_ret | apply Parses_ret].
Qed.

(** ** Candidates *)
Lemma candidate_bytes_clean id t : clean (candidate_bytes id) t.
Proof. unfold clean, candidate_bytes. destruct (checked_add _ _); cbn; [by case_if | done]. Qed.
#[export] Hint Resolve candidate_bytes_clean : wire.

Lemma Spec_candidates n :
  Spec (with_local 0 (replicateM (N.to_nat n) decode_candidate))
    (λ bs ids, bs = enc_list enc_str ids ∧ Forall id_ok ids ∧ lenN ids = n).
Proof.
  eapply Spec_weaken.
  { apply Spec_local. apply (SpecX_replicateM _ (λ _ bs id _, bs = enc_str id ∧ id_ok id)).
    intros t. unfold decode_candidate. repeat specx_budget. by rewrite !app_nil_r. }
  intros bs ids (t & bss & -> & HC & Hlen). unfold enc_list.
  assert (bss = enc_str <$> ids ∧ Forall id_ok ids) as [-> HF].
  { clear Hlen. induction HC as [|x bs a x' bss l x'' [-> Ha] HC [-> HF]]; cbn; [done|]. auto. }
  split_and!; [done | done|]. unfold lenN. lia.
Qed.

Lemma ParsesX_candidates ids t :
  Forall id_ok ids → t + sum (lenN <$> ids) <= MAX_CANDIDATE_BYTES →
  ParsesX (replicateM (length ids) decode_candidate) t (enc_list enc_str ids) ids (t + sum (lenN <$> ids)).
Proof.
  intros HF. revert t. induction HF as [|id ids Hid HF IH]; intros t Ht; cbn [replicateM length fmap list_fmap sum foldr] in *.
  - rewrite N.add_0_r. apply ParsesX_ret.
  - fold (sum (lenN <$> ids)) in *. rewrite N.add_assoc. unfold enc_list; cbn [fmap list_fmap concat].
    eapply (ParsesX_bind _ _ _ _ _ (t + lenN id));
      [|eapply ParsesX_bind_nil; [apply IH; lia | apply ParsesX_ret]].
    unfold decode_candidate. eapply ParsesX_bind_nil; [by apply ParsesX_fst, Parses_record_id|].
    eapply ParsesX_nil_bind; [apply ParsesX_snd | apply ParsesX_ret].
    unfold candidate_bytes, checked_add. unfold MAX_CANDIDATE_BYTES in *.
    destruct (N.leb_spec (t + lenN id) USIZE_MAX) as [_|H]; [|unfold USIZE_MAX in H; lia]. cbn.
    destruct (N.ltb_spec 1048576 (t + lenN id)); [lia | done].
Qed.

(** ** The body *)
Ltac request_cbn :=
  cbn [SearchRequest.sort SearchRequest.aggregations SearchRequest.expression SearchRequest.candidate_ids
       SearchRequest.filter SearchRequest.offset SearchRequest.limit SearchRequest.exact_total
       SearchRequest.budget_milliseconds SearchRequest.traversal SearchRequest.after fst snd] in *.

Lemma structure_visit e c f : structure_ok e c f →
  SearchStructureBudget.new c f = Ok (SearchStructureBudget.mk c c 0 f)
  ∧ ∃ b', visit e 0 (SearchStructureBudget.mk c c 0 f) = Ok ((), b').
Proof.
  intros H. apply validate_search_structure_Ok in H. unfold validate_search_structure in H.
  apply bind_Ok in H as (b & Hb & H). pose proof Hb as [_ ->]%budget_new_Ok. by apply run_Ok in H.
Qed.

Lemma Spec_if_bool {A} (b : bool) (p : M Cursor.t A) (d : A) (R : bytes → A → Prop) :
  Spec p R → Spec (if b then p else mret d) (λ bs a, if b then R bs a else bs = [] ∧ a = d).
Proof. intros. destruct b; [done | by apply Spec_ret]. Qed.

Lemma new_tame c f : tame (SearchStructureBudget.new c f).
Proof. apply tame_bind; [apply validate_query_limits_tame | done]. Qed.

Lemma Spec_filter_part :
  Spec decode_filter_part (λ bs f, bs = enc_opt enc_filter f ∧ opt_ok filter_admissible f).
Proof.
  apply Spec_option. eapply Spec_weaken; [apply Spec_local, SpecX_filter; unfold FILTER_FUEL; lia|].
  intros bs f (n & -> & Hf & -> & Hn). split; [done|]. split; [done | lia].
Qed.
Lemma Parses_filter_part f : opt_ok filter_admissible f → Parses decode_filter_part (enc_opt enc_filter f) f.
Proof.
  apply Parses_option. intros e [He Hn]. eapply Parses_local, ParsesX_filter; [unfold FILTER_FUEL; lia.. | done | done].
Qed.

Lemma Spec_search_expression b :
  Spec (with_local b (decode_search_expression EXPRESSION_FUEL 0)) (λ bs e, bs = enc_expression e ∧ expression_ok e).
Proof.
  eapply Spec_weaken; [apply Spec_local, SpecX_expression; unfold EXPRESSION_FUEL; lia|].
  intros bs e (b' & -> & He & _). done.
Qed.
Lemma fuel_enough : 10 <= N.of_nat EXPRESSION_FUEL + 0 ∧ (0 < EXPRESSION_FUEL)%nat.
Proof. unfold EXPRESSION_FUEL. lia. Qed.
Lemma Parses_search_expression e b b' : expression_ok e → visit e 0 b = Ok ((), b') →
  Parses (with_local b (decode_search_expression EXPRESSION_FUEL 0)) (enc_expression e) e.
Proof.
  intros He Hv. eapply Parses_local. apply ParsesX_expression; [apply fuel_enough.. | exact He | exact Hv].
Qed.
#[export] Hint Resolve new_tame Spec_filter_part Parses_filter_part Spec_search_expression Spec_traversal Spec_candidates : wire.

Lemma Spec_candidates_part :
  Spec decode_candidates (λ bs ids, bs = enc_candidates ids ∧ opt_ok (Forall id_ok) ids).
Proof.
  unfold decode_candidates. eapply Spec_bind; [apply Spec_boolean|]. intros ? h ->.
  eapply Spec_bind; [apply Spec_if_bool, Spec_u16|]. intros bs n Hn. repeat spec1.
  rewrite !app_nil_r. destruct h.
  - destruct Hn as [-> _]. split; [done|]. by intros ? [= <-].
  - destruct Hn as [-> Hz]. split; [|done]. destruct a; [done|]. rewrite lenN_cons in Hz. lia.
Qed.

Lemma Parses_candidates_part ids :
  opt_ok (Forall id_ok) ids → candidates_ok ids → Parses decode_candidates (enc_candidates ids) ids.
Proof.
  intros Hok Hc. unfold decode_candidates. destruct ids as [ids|]; cbn [enc_candidates candidates_ok] in *.
  - destruct Hc as (Hn & _ & Hs). specialize (Hok ids eq_refl).
    assert (u16_ok (lenN ids)) by (unfold u16_ok, MAX_CANDIDATE_IDS in *; lia).
    eapply Parses_bind; [apply (Parses_boolean true)|]. eapply Parses_bind; [by apply Parses_u16|].
    destruct (N.ltb_spec MAX_CANDIDATE_IDS (lenN ids)); [lia|]. apply Parses_remaining. intros n Hr.
    pose proof (lenN_enc_list_ge enc_str 4 ids lenN_enc_str_ge). rewrite enough_left by lia.
    eapply Parses_bind_nil; [|apply Parses_ret]. rewrite lenN_to_nat.
    eapply Parses_local, ParsesX_candidates; [done | lia].
  - eapply Parses_bind_nil; [apply (Parses_boolean false)|]. cbn beta match.
    eapply Parses_bind_nil; [apply Parses_ret|]. apply Parses_remaining. intros n _.
    change (MAX_CANDIDATE_IDS <? 0) with false. cbn match.
    replace (n / 4 <? 0) with false by (by destruct (n / 4)).
    eapply Parses_bind_nil; [eapply Parses_local, ParsesX_ret | apply Parses_ret].
Qed.
#[export] Hint Resolve Spec_candidates_part Parses_candidates_part : wire.

Lemma Spec_search_body : Spec decode_search_body (λ bs r,
  search_parts_ok r ∧ ∃ tb, traversal_bytes (r.(SearchRequest.traversal), r.(SearchRequest.after)) tb
                           ∧ bs = enc_search_body r tb).
Proof.
  unfold decode_search_body. repeat spec1. unfold search_parts_ok, enc_search_body.
  repeat match goal with x : _ * _ |- _ => destruct x end. request_cbn. rewrite !app_nil_r. split; [done|]. eauto.
Qed.

Lemma Reads_search_body r tb :
  search_ok r → traversal_bytes (r.(SearchRequest.traversal), r.(SearchRequest.after)) tb →
  Reads decode_search_body (enc_search_body r tb) [] r.
Proof.
  intros ((He & Hc & Hf & Hcat & Ho & Hl & Ht & Hbu) & _ & (_ & Hca & Hst & _)) Htb.
  destruct (structure_visit _ _ _ Hst) as [Hnew [b' Hv]].
  destruct r as [so ag e ca fi o l ex bu tr af]. unfold decode_search_body, enc_search_body. request_cbn.
  eapply (Reads_parse _ _ []); [by apply Parses_lift|].
  eapply Reads_parse; [exact (Parses_search_expression _ _ _ He Hv)|].
  eapply Reads_parse; [by apply Parses_candidates_part|]. eapply Reads_parse; [by apply Parses_filter_part|].
  eapply Reads_parse; [by apply Parses_catalog|]. eapply Reads_parse; [by apply Parses_u32|].
  eapply Reads_parse; [by apply Parses_u32|]. eapply Reads_parse; [apply Parses_boolean|].
  eapply Reads_bind; [apply Reads_traversal; [done | done | by autorewrite with len]|].
  eapply Reads_last; [by apply Parses_u32 | apply Reads_ret].
Qed.

(** ** Decoding *)
Lemma budget_check_Ok op b : budget_check op b = Ok () ↔ 1 <= b <= MAX_SEARCH_BUDGET_MILLISECONDS.
Proof.
  unfold budget_check. destruct (N.eqb_spec b 0), (N.ltb_spec MAX_SEARCH_BUDGET_MILLISECONDS b); cbn;
    split; try done; lia.
Qed.
Lemma budget_check_tame op b : tame (budget_check op b).
Proof. unfold budget_check. by case_if. Qed.

Lemma u32_ok_usize n : u32_ok n → n <= USIZE_MAX.
Proof. unfold u32_ok, USIZE_MAX. lia. Qed.

Lemma search_check_Ok r r' : search_parts_ok r → search_check r = Ok r' ↔ r' = r ∧ search_ok r.
Proof.
  intros Hp. pose proof Hp as (_ & _ & _ & _ & Ho%u32_ok_usize & Hl%u32_ok_usize & _).
  unfold search_check, search_ok. rewrite !bind_unit, budget_check_Ok, validate_search_admission_Ok by done.
  naive_solver.
Qed.
Lemma search_check_tame r : tame (search_check r).
Proof.
  apply tame_bind; [apply budget_check_tame | intros _ _].
  apply tame_bind; [apply validate_search_admission_tame | done].
Qed.

Lemma decode_search_sound bs : fits bs →
  match decode_search bs with
  | Ok r => search_ok r ∧ search_bytes r bs
  | Err e => code e = "E_INVALID_ARGUMENT"%string
  | Panic | Fuel => False
  end.
Proof.
  intros Hf. change (decode_search bs) with (decode_frame FTSQ decode_search_body search_check bs).
  pose proof (decode_frame_sound FTSQ decode_search_body search_check eq_refl _ bs
    Spec_search_body (λ _ r _, search_check_tame r) Hf) as H.
  destruct (decode_frame _ _ _ _) as [r| | |]; [|done..].
  destruct H as (bs' & r' & -> & (Hp & tb & Htb & ->) & [-> Hok]%search_check_Ok); [|done].
  split; [done|]. by exists tb.
Qed.

Lemma decode_search_complete bs r : fits bs → search_ok r → search_bytes r bs → decode_search bs = Ok r.
Proof.
  intros Hf Hok (tb & Htb & ->).
  apply (decode_frame_complete FTSQ decode_search_body search_check eq_refl _ r r).
  - by apply Reads_search_body.
  - apply search_check_Ok; [apply Hok | done].
  - done.
Qed.

(** C1: Decoding a search frame: a byte string decodes to a request exactly when it
    is an encoding of that request and the request is admissible; so the decoder
    accepts nothing outside the wire grammar and drops nothing inside it. *)
Theorem decode_search_iff bs r :
  fits bs → decode_search bs = Ok r ↔ search_ok r ∧ search_bytes r bs.
Proof.
  intros Hf. split.
  - intros E. pose proof (decode_search_sound bs Hf) as H. by rewrite E in H.
  - intros [Hok Hb]. by apply decode_search_complete.
Qed.

(** No search frame makes the decoder panic: indexing, slicing and the byte
    counters stay in range, the recursion depth is bounded, and every rejected
    frame is reported as E_INVALID_ARGUMENT. *)
Theorem decode_search_total bs : fits bs → tame (decode_search bs).
Proof. intros Hf. pose proof (decode_search_sound bs Hf). unfold tame. by destruct (decode_search bs). Qed.

(** ** Classification agrees with the decoded request *)
Definition filter_part_expensive (f : option FilterExpression.t) : bool :=
  match f with Some f => filter_expensive f || (16 <? filter_clauses f) | None => false end.
Definition search_expensive (r : SearchRequest.t) (schema_fields max_query_terms max_query_clauses : N) : bool :=
  let raised := raised_profile max_query_terms max_query_clauses in
  is_expensive_search raised r.(SearchRequest.traversal) (request_has_catalog r)
    (search_cost (then_some raised schema_fields) r.(SearchRequest.expression))
    (filter_part_expensive r.(SearchRequest.filter)) r.(SearchRequest.exact_total).

Lemma Parses_scan_candidates ids :
  opt_ok (Forall id_ok) ids → candidates_ok ids → Parses scan_candidates (enc_candidates ids) ().
Proof.
  intros Hok Hc. unfold scan_candidates. destruct ids as [ids|]; cbn [enc_candidates candidates_ok] in *.
  - destruct Hc as (Hn & _ & Hs). specialize (Hok ids eq_refl).
    assert (u16_ok (lenN ids)) by (unfold u16_ok, MAX_CANDIDATE_IDS in *; lia).
    eapply Parses_bind; [apply (Parses_boolean true)|]. eapply Parses_bind; [by apply Parses_u16|].
    apply Parses_remaining. intros n Hr.
    destruct (N.ltb_spec MAX_CANDIDATE_IDS (lenN ids)); [lia|].
    pose proof (lenN_enc_list_ge enc_str 4 ids lenN_enc_str_ge). rewrite enough_left by lia. cbn [orb].
    eapply Parses_bind_nil; [apply Parses_list; eapply Forall_impl; [exact Hok|] | apply Parses_ret].
    intros s [[Hb _] _]. by apply Parses_byte_string.
  - eapply Parses_bind_nil; [apply (Parses_boolean false)|]. cbn beta match.
    eapply Parses_bind_nil; [apply Parses_ret|]. apply Parses_remaining. intros n _.
    replace (_ || _) with false by (by destruct (n / 4)).
    eapply Parses_bind_nil; [apply Parses_ret | apply Parses_ret].
Qed.

Lemma Parses_scan_filter_part f :
  opt_ok filter_admissible f → Parses scan_filter_part (enc_opt enc_filter f) (filter_part_expensive f).
Proof.
  intros Hok. unfold scan_filter_part. destruct f as [f|]; cbn [enc_opt].
  - destruct (Hok f eq_refl) as [Hf Hn]. eapply Parses_bind; [apply (Parses_boolean true)|]. cbn beta match.
    apply (Parses_local 0 _ _ _ (0 + filter_clauses f)).
    eapply ParsesX_bind_nil; [apply ParsesX_scan_filter; [unfold FILTER_FUEL; lia.. | done | lia]|].
    rewrite N.add_0_l. eapply ParsesX_bind_nil; [by apply ParsesX_snd | apply ParsesX_ret].
  - eapply Parses_bind_nil; [apply (Parses_boolean false) | apply Parses_ret].
Qed.

Lemma raised_is_Some {A} b (a : A) : bool_decide (is_Some (then_some b a)) = b.
Proof. destruct b; [by apply bool_decide_true | by apply bool_decide_false; intros []]. Qed.

Lemma Reads_classify r tb sf mt mc :
  search_ok r → traversal_bytes (r.(SearchRequest.traversal), r.(SearchRequest.after)) tb →
  Forall named r.(SearchRequest.aggregations) → structure_ok r.(SearchRequest.expression) mc sf →
  ∃ bs', enc_search_body r tb = bs' ++ enc_u32 r.(SearchRequest.budget_milliseconds) ∧
  Reads (classify_body sf mt mc) bs' (enc_u32 r.(SearchRequest.budget_milliseconds)) (search_expensive r sf mt mc).
Proof.
  intros ((He & Hc & Hf & Hcat & Ho & Hl & Ht & Hbu) & _ & (_ & Hca & Hst & _)) Htb Hnm Hsf.
  destruct (structure_visit _ _ _ Hsf) as [Hnew [b' Hv]]. destruct Hst as (_ & _ & _ & _ & Hws).
  destruct r as [so ag e ca fi o l ex bu tr af].
  unfold classify_body, search_expensive, request_has_catalog, enc_search_body. request_cbn.
  eexists. split; [by rewrite !app_assoc|]. rewrite <- !app_assoc, raised_is_Some.
  eapply (Reads_parse _ _ []); [by apply Parses_lift|].
  eapply Reads_parse; [eapply Parses_local, ParsesX_scan; [apply fuel_enough | apply fuel_enough | exact He | exact Hws | exact Hv]|].
  eapply Reads_parse; [by apply Parses_scan_candidates|]. eapply Reads_parse; [by apply Parses_scan_filter_part|].
  eapply Reads_parse; [by apply Parses_scan_catalog|]. eapply Reads_parse; [by apply Parses_u32|].
  eapply Reads_parse; [by apply Parses_u32|]. eapply Reads_parse; [apply Parses_boolean|].
  rewrite <- (app_nil_r tb). eapply Reads_bind; [apply Reads_traversal; [done | done | apply lenN_enc_u32]|].
  apply Reads_ret.
Qed.

(** C2: The admission scan agrees with the decoder: on a frame that decodes to [r],
    under limits that [r] respects, [classify_search] returns exactly the
    expensive-lane verdict computed from the decoded request. *)
Theorem classify_search_decoded bs r schema_fields max_query_terms max_query_clauses :
  fits bs → decode_search bs = Ok r → Forall named r.(SearchRequest.aggregations) →
  1 <= max_query_terms <= MAX_CONFIGURED_QUERY_TERMS →
  structure_ok r.(SearchRequest.expression) max_query_clauses schema_fields →
  classify_search bs schema_fields max_query_terms max_query_clauses
  = Ok (search_expensive r schema_fields max_query_terms max_query_clauses).
Proof.
  intros Hf E Hnm Ht Hst. pose proof (decode_search_sound bs Hf) as H. rewrite E in H.
  destruct H as (Hok & tb & Htb & ->). unfold classify_search.
  assert (validate_query_limits max_query_terms max_query_clauses = Ok ()) as ->
    by (apply validate_query_limits_Ok; split; [done | apply Hst]). cbn [mbind outcome_bind].
  rewrite new_header by done. cbn [mbind outcome_bind].
  destruct (Reads_classify r tb schema_fields max_query_terms max_query_clauses Hok Htb Hnm Hst) as (bs' & Eb & HR).
  rewrite Eb in *. unfold run. by rewrite HR.
Qed.

(** ** The budget peek *)
Lemma get_range_suffix a b n : lenN b = n →
  Cursor.get_range (a ++ b) (saturating_sub (lenN (a ++ b)) n) (lenN (a ++ b)) = Some b.
Proof.
  intros <-. unfold Cursor.get_range, saturating_sub. rewrite lenN_app.
  replace (lenN a + lenN b - lenN b) with (lenN a) by lia.
  destruct (N.leb_spec (lenN a) (lenN a + lenN b)); [|lia].
  destruct (N.leb_spec (lenN a + lenN b) (lenN a + lenN b)); [|lia]. cbn [andb].
  rewrite lenN_to_nat, drop_app_length. f_equal. apply take_ge. unfold lenN. lia.
Qed.

Lemma packed_budget_suffix m bs' b op : length m = 4%nat → u32_ok b →
  packed_budget (enc_header m ++ bs' ++ enc_u32 b) m op =
  (_ ← budget_check op b; Ok b).
Proof.
  intros Hm Hb. unfold packed_budget. rewrite new_header by done. cbn [mbind outcome_bind].
  rewrite !app_assoc, get_range_suffix by apply lenN_enc_u32. rewrite lenN_enc_u32, N.eqb_refl. cbn [ok_or mbind outcome_bind].
  assert (le_combine (enc_u32 b) = b) as ->.
  { unfold enc_u32. rewrite le_combine_split. by apply N.mod_small. }
  cbn zeta. unfold budget_check. by destruct (_ || _).
Qed.

(** The budget read from the last four bytes is the budget of the request: on
    every frame that decodes to [r], [search_budget] returns [r]'s budget. *)
Theorem search_budget_decoded bs r :
  fits bs → decode_search bs = Ok r → search_budget bs = Ok r.(SearchRequest.budget_milliseconds).
Proof.
  intros Hf E. pose proof (decode_search_sound bs Hf) as H. rewrite E in H.
  destruct H as (((_ & _ & _ & _ & _ & _ & _ & Hbu) & Hb & _) & tb & _ & ->).
  unfold search_budget, enc_search_body. rewrite !app_assoc, <- (app_assoc (enc_header FTSQ)), <- !app_assoc.
  pose proof (packed_budget_suffix FTSQ (enc_expression (SearchRequest.expression r) ++
    enc_candidates (SearchRequest.candidate_ids r) ++ enc_opt enc_filter (SearchRequest.filter r) ++
    enc_catalog (SearchRequest.sort r, SearchRequest.aggregations r) ++ enc_u32 (SearchRequest.offset r) ++
    enc_u32 (SearchRequest.limit r) ++ enc_bool (SearchRequest.exact_total r) ++ tb)
    (SearchRequest.budget_milliseconds r) "search" eq_refl Hbu) as Hp.
  rewrite <- !app_assoc in Hp. rewrite Hp. by rewrite (proj2 (budget_check_Ok _ _) Hb).
Qed.

(** ** Concrete frames *)
Definition sample_clause : SearchExpression.t :=
  SearchExpression.Clause (SearchClause.mk (magic "red shoes") SearchMode.All (QueryOptions.mk 1 true) [magic "title"]).
Definition sample_search : SearchRequest.t :=
  SearchRequest.mk
    (Some [SortRequest.mk (magic "price") SortDirection.Desc MissingOrder.Last])
    [AggregationRequest.mk (magic "brands") (magic "brand") (AggregationKind.Terms 5) []]
    (SearchExpression.And [sample_clause; SearchExpression.Not sample_clause])
    (Some [magic "r1"; magic "r2"])
    (Some (FilterExpression.Clause (magic "stock") FilterComparator.Equals [FilterValue.Boolean true]))
    0 10 false 250 false None.
Definition sample_frame : bytes :=
  enc_header FTSQ ++ enc_search_body sample_search (enc_traversal (false, None)).

Lemma sample_frame_fits : fits sample_frame.
Proof. vm_compute. discriminate. Qed.

Lemma sample_decodes : decode_search sample_frame = Ok sample_search.
Proof. vm_compute. reflexivity. Qed.
Lemma sample_structure : structure_ok (SearchRequest.expression sample_search) 512 10.
Proof. apply validate_search_structure_Ok. vm_compute. reflexivity. Qed.

Lemma decode_search_iff_witness :
  fits sample_frame ∧ search_ok sample_search ∧ search_bytes sample_search sample_frame.
Proof.
  split; [exact sample_frame_fits|]. apply (decode_search_iff sample_frame sample_search sample_frame_fits).
  exact sample_decodes.
Defined.
Lemma decode_search_total_witness : fits sample_frame ∧ tame (decode_search sample_frame).
Proof. split; [exact sample_frame_fits | exact (decode_search_total sample_frame sample_frame_fits)]. Defined.
Lemma classify_search_decoded_witness :
  classify_search sample_frame 10 64 512 = Ok (search_expensive sample_search 10 64 512).
Proof.
  apply (classify_search_decoded sample_frame sample_search 10 64 512).
  - exact sample_frame_fits.
  - exact sample_decodes.
  - repeat constructor; vm_compute; discriminate.
  - split; vm_compute; discriminate.
  - exact sample_structure.
Defined.
Lemma search_budget_decoded_witness : search_budget sample_frame = Ok 250.
Proof. exact (search_budget_decoded sample_frame sample_search sample_frame_fits sample_decodes). Defined.
