(* ===== verification/Trace.v ===== *)
(** * src/src/protocol.rs: trace frames (FTTM, FTBT, FTBR)

    A trace asks why given records do or do not match.  FTTM carries one
    clause, FTBT a search expression, FTBR the same for recovery. *)
From S2P Require Import Prelude.
From S2P Require Import Errors.
From S2P Require Import Bytes.
From S2P Require Import Wire.
From S2P Require Import Request.
From S2P Require Import Structure.
From S2P Require Import Expression.
From S2P Require Import Catalog.
From S2P Require Import Admission.
From S2P Require Import Frame.
From S2P Require Import Search.
Local Open Scope N_scope.

Definition FTTM : bytes := magic "FTTM".
Definition FTBT : bytes := magic "FTBT".
Definition FTBR : bytes := magic "FTBR".

Definition trace_magic (bs : bytes) : bytes :=
  if starts_with bs FTBR then FTBR else if starts_with bs FTBT then FTBT else FTTM.

Definition validate_trace_header (bs : bytes) : outcome () :=
  if MAX_SEARCH_REQUEST_BYTES <? lenN bs then Err (invalid "packed trace request exceeds 8388608 bytes")
  else _ ← Cursor.new bs (trace_magic bs); Ok ().
Definition trace_budget (bs : bytes) : outcome N := packed_budget bs (trace_magic bs) "trace".

(** The FTTM expression: one clause, without a structure budget. *)
Definition decode_trace_clause : M Cursor.t SearchExpression.t :=
  text ← Cursor.string;
  if MAX_QUERY_TEXT_BYTES <? lenN text then fail_with (invalid "search text exceeds 65536 UTF-8 bytes") else
  code ← Cursor.u8;
  mode ← lift (decode_search_mode code);
  options ← decode_query_options mode;
  field_count ← Cursor.u16;
  remaining ← get_remaining;
  if (MAX_FIELDS <? field_count) || (remaining / 4 <? field_count)
  then fail_with (invalid "trace field count exceeds its packed request") else
  fields ← replicateM (N.to_nat field_count) Cursor.string;
  mret (SearchExpression.Clause (SearchClause.mk text mode options fields)).

Definition decode_trace_expression (boolean : bool) : M Cursor.t SearchExpression.t :=
  if boolean
  then structure ← lift (SearchStructureBudget.new MAX_CONFIGURED_QUERY_CLAUSES MAX_FIELDS);
       with_local structure (decode_search_expression EXPRESSION_FUEL 0)
  else decode_trace_clause.

(** [x = x.saturating_add(len); if x > limit { return Err(..) }] *)
Definition count_within (limit : N) (message : string) (len : N) : M N () := λ total,
  total ← add_within limit message total len; Ok ((), total).

Definition decode_trace_candidates : M Cursor.t (option (list bytes)) :=
  has_candidates ← Cursor.boolean;
  candidate_count ← (if has_candidates : bool then Cursor.u16 else mret 0);
  remaining ← get_remaining;
  if (MAX_CANDIDATE_IDS <? candidate_count) || (remaining / 4 <? candidate_count)
  then fail_with (invalid "trace candidate count exceeds its packed request") else
  candidate_ids ← with_local 0 (replicateM (N.to_nat candidate_count)
    (id ← on_fst Cursor.record_id;
     _ ← on_snd (count_within MAX_CANDIDATE_BYTES "candidate IDs exceed 1048576 UTF-8 bytes" (lenN id));
     mret id));
  mret (then_some has_candidates candidate_ids).

Definition decode_trace_value : M (Cursor.t * N) bytes :=
  value ← on_fst Cursor.string;
  _ ← on_snd (count_within MAX_TRACE_SOURCE_BYTES "trace source text exceeds 1048576 UTF-8 bytes" (lenN value));
  mret value.
Definition decode_trace_field : M (Cursor.t * N) (bytes * list bytes) :=
  name ← on_fst Cursor.string;
  value_count ← on_fst Cursor.u16;
  remaining ← on_fst get_remaining;
  if remaining / 4 <? value_count then fail_with (invalid "trace value count exceeds its packed request") else
  values ← replicateM (N.to_nat value_count) decode_trace_value;
  mret (name, values).
Definition decode_trace_record : M (Cursor.t * N) TraceRecord.t :=
  id ← on_fst Cursor.record_id;
  field_count ← on_fst Cursor.u16;
  remaining ← on_fst get_remaining;
  if (MAX_FIELDS <? field_count) || (remaining / 6 <? field_count)
  then fail_with (invalid "trace record field count exceeds its packed request") else
  record_fields ← replicateM (N.to_nat field_count) decode_trace_field;
  mret (TraceRecord.mk id record_fields).
Definition decode_trace_records : M Cursor.t (list TraceRecord.t) :=
  record_count ← Cursor.u16;
  remaining ← get_remaining;
  if (MAX_TRACE_RECORDS <? record_count) || (remaining / 6 <? record_count)
  then fail_with (invalid "trace record count exceeds its packed request") else
  with_local 0 (replicateM (N.to_nat record_count) decode_trace_record).

Definition trace_request (recovery : bool) (expression : SearchExpression.t) (candidate_ids : option (list bytes))
    (records : list TraceRecord.t) (budget_milliseconds : N) : TraceRequest.t :=
  TraceRequest.mk recovery
    (SearchRequest.mk None [] expression candidate_ids None 0 (lenN records) false budget_milliseconds false None)
    records.

Definition decode_trace_body (recovery boolean : bool) : M Cursor.t TraceRequest.t :=
  expression ← decode_trace_expression boolean;
  candidate_ids ← decode_trace_candidates;
  records ← decode_trace_records;
  budget_milliseconds ← Cursor.u32;
  mret (trace_request recovery expression candidate_ids records budget_milliseconds).

Definition trace_check (request : TraceRequest.t) : outcome TraceRequest.t :=
  _ ← budget_check "trace" request.(TraceRequest.search).(SearchRequest.budget_milliseconds);
  _ ← validate_trace_admission request.(TraceRequest.search) request.(TraceRequest.records);
  Ok request.

Definition decode_trace (bs : bytes) : outcome TraceRequest.t :=
  let recovery := starts_with bs FTBR in
  let boolean := recovery || starts_with bs FTBT in
  decode_frame (trace_magic bs) (decode_trace_body recovery boolean) trace_check bs.

(** ** The wire grammar *)
Definition enc_clause (e : SearchExpression.t) : bytes :=
  match e with
  | SearchExpression.Clause c =>
      enc_str c.(SearchClause.text) ++ enc_u8 (mode_code c.(SearchClause.mode))
      ++ enc_options c.(SearchClause.options) ++ enc_u16 (lenN c.(SearchClause.fields))
      ++ enc_list enc_str c.(SearchClause.fields)
  | _ => []
  end.
Definition enc_trace_field (f : bytes * list bytes) : bytes :=
  enc_str f.1 ++ enc_u16 (lenN f.2) ++ enc_list enc_str f.2.
Definition enc_trace_record (r : TraceRecord.t) : bytes :=
  enc_str r.(TraceRecord.id) ++ enc_u16 (lenN r.(TraceRecord.fields))
  ++ enc_list enc_trace_field r.(TraceRecord.fields).
Definition enc_trace_expression (boolean : bool) (e : SearchExpression.t) : bytes :=
  if boolean then enc_expression e else enc_clause e.
Definition enc_trace_body (boolean : bool) (e : SearchExpression.t) (candidate_ids : option (list bytes))
    (records : list TraceRecord.t) (budget : N) : bytes :=
  enc_trace_expression boolean e ++ enc_candidates candidate_ids
  ++ (enc_u16 (lenN records) ++ enc_list enc_trace_record records) ++ enc_u32 budget.

Definition is_clause (e : SearchExpression.t) : bool :=
  match e with SearchExpression.Clause _ => true | _ => false end.

(** The frames of a request: FTBR for recovery; otherwise FTBT, or FTTM when
    the expression is a single clause. *)
Definition trace_bytes (r : TraceRequest.t) (bs : bytes) : Prop :=
  let body b := enc_trace_body b r.(TraceRequest.search).(SearchRequest.expression)
    r.(TraceRequest.search).(SearchRequest.candidate_ids) r.(TraceRequest.records)
    r.(TraceRequest.search).(SearchRequest.budget_milliseconds) in
  if r.(TraceRequest.recovery) then bs = enc_header FTBR ++ body true
  else bs = enc_header FTBT ++ body true
       ∨ is_clause r.(TraceRequest.search).(SearchRequest.expression) = true ∧ bs = enc_header FTTM ++ body false.

Definition trace_field_ok (f : bytes * list bytes) : Prop :=
  str_ok f.1 ∧ u16_ok (lenN f.2) ∧ Forall str_ok f.2.
Definition trace_record_wire_ok (r : TraceRecord.t) : Prop :=
  id_ok r.(TraceRecord.id) ∧ u16_ok (lenN r.(TraceRecord.fields)) ∧ Forall trace_field_ok r.(TraceRecord.fields).

Definition trace_ok (r : TraceRequest.t) : Prop :=
  let s := r.(TraceRequest.search) in
  r = trace_request r.(TraceRequest.recovery) s.(SearchRequest.expression) s.(SearchRequest.candidate_ids)
        r.(TraceRequest.records) s.(SearchRequest.budget_milliseconds)
  ∧ expression_ok s.(SearchRequest.expression)
  ∧ opt_ok (Forall id_ok) s.(SearchRequest.candidate_ids)
  ∧ Forall trace_record_wire_ok r.(TraceRequest.records)
  ∧ 1 <= s.(SearchRequest.budget_milliseconds) <= MAX_SEARCH_BUDGET_MILLISECONDS
  ∧ trace_admissible s r.(TraceRequest.records).

(** ** Expressions *)
Lemma Spec_trace_clause :
  Spec decode_trace_clause (λ bs e, bs = enc_clause e ∧ expression_ok e ∧ is_clause e = true).
Proof.
  unfold decode_trace_clause.
  repeat first [ eapply Spec_bind; [apply Spec_list; solve [eauto 2 with wire] | spec_pre] | spec1 ].
  match goal with H : decode_search_mode _ = Ok _ |- _ => apply decode_search_mode_Ok in H as -> end.
  cbn [enc_clause expression_ok is_clause]. unfold clause_ok. cbn. rewrite !app_nil_r. done.
Qed.

Lemma Parses_trace_clause c :
  clause_ok c → lenN c.(SearchClause.text) <= MAX_QUERY_TEXT_BYTES → lenN c.(SearchClause.fields) <= MAX_FIELDS →
  Parses decode_trace_clause (enc_clause (SearchExpression.Clause c)) (SearchExpression.Clause c).
Proof.
  intros (Ht & Hd & Hov & Hn & Hfs) Htext Hfields. destruct c as [text mode options fields].
  cbn [SearchClause.text SearchClause.mode SearchClause.options SearchClause.fields enc_clause] in *.
  unfold decode_trace_clause. pose proof (decode_search_mode_code mode) as Hm.
  eapply Parses_bind; [by apply Parses_string|].
  destruct (N.ltb_spec MAX_QUERY_TEXT_BYTES (lenN text)); [lia|].
  eapply Parses_bind; [apply Parses_u8, mode_code_ok|].
  eapply Parses_nil_bind; [by apply Parses_lift|].
  eapply Parses_bind; [by apply Parses_options|]. eapply Parses_bind; [by apply Parses_u16|].
  apply Parses_remaining. intros n Hr.
  pose proof (lenN_enc_list_ge enc_str 4 fields lenN_enc_str_ge). rewrite enough_left by lia.
  destruct (N.ltb_spec MAX_FIELDS (lenN fields)); [lia|]. cbn [orb].
  eapply Parses_bind_nil; [apply Parses_list; eapply Forall_impl; [done|]; auto with wire | apply Parses_ret].
Qed.

Lemma Spec_trace_expression b :
  Spec (decode_trace_expression b)
    (λ bs e, bs = enc_trace_expression b e ∧ expression_ok e ∧ (b = false → is_clause e = true)).
Proof.
  destruct b; cbn [decode_trace_expression enc_trace_expression].
  - eapply (Spec_bind _ (λ bs _, bs = [])).
    + eapply Spec_weaken; [apply Spec_pure, new_tame | by intros ? ? [-> _]].
    + intros ? s ->. eapply Spec_weaken; [apply Spec_search_expression|]. by intros ? ? [-> ?].
  - eapply Spec_weaken; [apply Spec_trace_clause|]. naive_solver.
Qed.

Lemma Parses_trace_expression b e :
  expression_ok e → structure_ok e MAX_CONFIGURED_QUERY_CLAUSES MAX_FIELDS → (b = false → is_clause e = true) →
  Parses (decode_trace_expression b) (enc_trace_expression b e) e.
Proof.
  intros He Hst Hb. destruct b; cbn [decode_trace_expression enc_trace_expression].
  - destruct (structure_visit _ _ _ Hst) as [Hnew [b' Hv]].
    eapply Parses_nil_bind; [by apply Parses_lift|]. exact (Parses_search_expression _ _ _ He Hv).
  - destruct Hst as (_ & _ & _ & Ht & Hw). specialize (Hb eq_refl). destruct e as [c| | | | |]; try done.
    cbn [text_total well_shaped] in *. by apply Parses_trace_clause.
Qed.

(** ** Candidates and records *)
Lemma count_within_clean L m n t : clean (count_within L m n) t.
Proof. unfold clean, count_within. pose proof (add_within_tame L m t n). by destruct (add_within L m t n). Qed.
#[export] Hint Resolve count_within_clean : wire.
Lemma count_within_Ok L m n t : L < USIZE_MAX → t + n <= L → count_within L m n t = Ok ((), t + n).
Proof.
  intros HL H. unfold count_within. rewrite (proj2 (add_within_Ok L m t n (t + n) HL)); done.
Qed.

Lemma Spec_trace_candidates :
  Spec decode_trace_candidates (λ bs ids, bs = enc_candidates ids ∧ opt_ok (Forall id_ok) ids).
Proof.
  unfold decode_trace_candidates. eapply Spec_bind; [apply Spec_boolean|]. intros ? h ->.
  eapply Spec_bind; [apply Spec_if_bool, Spec_u16|]. intros bs n Hn. cbn beta. repeat spec1.
  eapply Spec_bind; [apply Spec_local, (SpecX_list _ enc_str id_ok)|].
  { intros t. repeat specx_budget. by rewrite !app_nil_r. }
  intros ? ids (? & -> & Hids & Hlen). apply Spec_ret. rewrite app_nil_r. destruct h; cbn [then_some].
  - destruct Hn as [-> _]. subst n. split; [done|]. by intros ? [= <-].
  - destruct Hn as [-> ->]. split; [|done]. destruct ids; [done|]. rewrite lenN_cons in Hlen. lia.
Qed.

Lemma Parses_trace_candidates ids :
  opt_ok (Forall id_ok) ids → candidates_ok ids → Parses decode_trace_candidates (enc_candidates ids) ids.
Proof.
  intros Hok Hc. unfold decode_trace_candidates. destruct ids as [ids|]; cbn [enc_candidates candidates_ok] in *.
  - destruct Hc as (Hn & _ & Hs). specialize (Hok ids eq_refl).
    assert (u16_ok (lenN ids)) by (unfold u16_ok, MAX_CANDIDATE_IDS in *; lia).
    eapply Parses_bind; [apply (Parses_boolean true)|]. eapply Parses_bind; [by apply Parses_u16|].
    apply Parses_remaining. intros n Hr. destruct (N.ltb_spec MAX_CANDIDATE_IDS (lenN ids)); [lia|].
    pose proof (lenN_enc_list_ge enc_str 4 ids lenN_enc_str_ge). rewrite enough_left by lia. cbn [orb].
    eapply Parses_bind_nil; [|apply Parses_ret].
    eapply Parses_local, (ParsesX_costs _ enc_str lenN MAX_CANDIDATE_BYTES); [|lia].
    intros id t Hid Ht. rewrite Forall_forall in Hok.
    eapply ParsesX_bind_nil; [by apply ParsesX_fst, Parses_record_id, Hok|].
    eapply ParsesX_nil_bind; [by apply ParsesX_snd, count_within_Ok | apply ParsesX_ret].
  - eapply Parses_bind_nil; [apply (Parses_boolean false)|]. cbn beta match.
    eapply Parses_bind_nil; [apply Parses_ret|]. apply Parses_remaining. intros n _.
    replace (_ || _) with false by (by destruct (n / 4)).
    eapply Parses_bind_nil; [eapply Parses_local, ParsesX_ret | apply Parses_ret].
Qed.

Lemma SpecX_trace_field t : SpecX decode_trace_field t (λ bs f _, bs = enc_trace_field f ∧ trace_field_ok f).
Proof.
  unfold decode_trace_field. specx.
  eapply SpecX_bind; [apply (SpecX_list _ enc_str str_ok)|].
  { intros t'. unfold decode_trace_value. repeat specx_budget. by rewrite !app_nil_r. }
  intros ? vs ? (-> & Hvs & <-). apply SpecX_ret. rewrite app_nil_r. done.
Qed.
Lemma SpecX_trace_record t :
  SpecX decode_trace_record t (λ bs r _, bs = enc_trace_record r ∧ trace_record_wire_ok r).
Proof.
  unfold decode_trace_record. specx.
  eapply SpecX_bind; [apply (SpecX_list _ enc_trace_field trace_field_ok); apply SpecX_trace_field|].
  intros ? fs ? (-> & Hfs & <-). apply SpecX_ret. rewrite app_nil_r. done.
Qed.
Lemma Spec_trace_records :
  Spec decode_trace_records
    (λ bs l, bs = enc_u16 (lenN l) ++ enc_list enc_trace_record l ∧ u16_ok (lenN l) ∧ Forall trace_record_wire_ok l).
Proof.
  unfold decode_trace_records. repeat spec1.
  eapply Spec_weaken; [apply Spec_local, (SpecX_list _ enc_trace_record trace_record_wire_ok), SpecX_trace_record|].
  intros ? l (? & -> & Hl & <-). done.
Qed.

Lemma lenN_enc_trace_field_ge f : 6 <= lenN (enc_trace_field f).
Proof. unfold enc_trace_field. autorewrite with len. lia. Qed.
Lemma lenN_enc_trace_record_ge r : 6 <= lenN (enc_trace_record r).
Proof. unfold enc_trace_record. autorewrite with len. lia. Qed.

Definition field_source (f : bytes * list bytes) : N := sum (lenN <$> f.2).

Lemma ParsesX_trace_field f t :
  trace_field_ok f → t + field_source f <= MAX_TRACE_SOURCE_BYTES →
  ParsesX decode_trace_field t (enc_trace_field f) f (t + field_source f).
Proof.
  intros (Hn & Hl & Hvs) Ht. destruct f as [name vs]; cbn [fst snd] in *. unfold decode_trace_field, enc_trace_field.
  eapply ParsesX_bind; [by apply ParsesX_fst, Parses_string|].
  eapply ParsesX_bind; [by apply ParsesX_fst, Parses_u16|]. apply ParsesX_remaining. intros n Hr.
  pose proof (lenN_enc_list_ge enc_str 4 vs lenN_enc_str_ge). rewrite enough_left by (cbn [fst snd] in *; lia).
  eapply ParsesX_bind_nil; [|apply ParsesX_ret].
  apply (ParsesX_costs _ enc_str lenN MAX_TRACE_SOURCE_BYTES); [|exact Ht].
  intros v t' Hv Ht'. rewrite Forall_forall in Hvs. unfold decode_trace_value.
  eapply ParsesX_bind_nil; [by apply ParsesX_fst, Parses_string, Hvs|].
  eapply ParsesX_nil_bind; [by apply ParsesX_snd, count_within_Ok | apply ParsesX_ret].
Qed.

Lemma ParsesX_trace_record r t :
  trace_record_wire_ok r → lenN r.(TraceRecord.fields) <= MAX_FIELDS →
  t + trace_source r <= MAX_TRACE_SOURCE_BYTES →
  ParsesX decode_trace_record t (enc_trace_record r) r (t + trace_source r).
Proof.
  intros (Hid & Hl & Hfs) Hn Ht. destruct r as [id fs]; cbn [TraceRecord.id TraceRecord.fields] in *.
  unfold decode_trace_record, enc_trace_record. cbn [TraceRecord.id TraceRecord.fields].
  eapply ParsesX_bind; [by apply ParsesX_fst, Parses_record_id|].
  eapply ParsesX_bind; [by apply ParsesX_fst, Parses_u16|]. apply ParsesX_remaining. intros n Hr.
  pose proof (lenN_enc_list_ge enc_trace_field 6 fs lenN_enc_trace_field_ge). rewrite enough_left by lia.
  destruct (N.ltb_spec MAX_FIELDS (lenN fs)); [lia|]. cbn [orb].
  eapply ParsesX_bind_nil; [|apply ParsesX_ret].
  apply (ParsesX_costs _ enc_trace_field field_source MAX_TRACE_SOURCE_BYTES); [|exact Ht].
  intros f t' Hf Ht'. rewrite Forall_forall in Hfs. apply ParsesX_trace_field; auto.
Qed.

Lemma Parses_trace_records l :
  u16_ok (lenN l) → Forall trace_record_wire_ok l → Forall trace_record_ok l →
  lenN l <= MAX_TRACE_RECORDS → sum (trace_source <$> l) <= MAX_TRACE_SOURCE_BYTES →
  Parses decode_trace_records (enc_u16 (lenN l) ++ enc_list enc_trace_record l) l.
Proof.
  intros Hu Hw Ho Hn Hs. unfold decode_trace_records. eapply Parses_bind; [by apply Parses_u16|].
  apply Parses_remaining. intros n Hr.
  pose proof (lenN_enc_list_ge enc_trace_record 6 l lenN_enc_trace_record_ge). rewrite enough_left by lia.
  destruct (N.ltb_spec MAX_TRACE_RECORDS (lenN l)); [lia|]. cbn [orb].
  eapply Parses_local, (ParsesX_costs _ enc_trace_record trace_source MAX_TRACE_SOURCE_BYTES); [|lia].
  intros r t Hr' Ht. rewrite Forall_forall in Hw, Ho. destruct (Ho r Hr') as (_ & Hf & _).
  apply ParsesX_trace_record; auto.
Qed.

(** ** Frames *)
Lemma trace_magic_header m rest : m ∈ [FTBR; FTBT; FTTM] → trace_magic (enc_header m ++ rest) = m.
Proof.
  intros Hm. unfold trace_magic.
  repeat (apply elem_of_cons in Hm as [->|Hm]); [rewrite !starts_with_header by done; done.. |].
  by apply elem_of_nil in Hm.
Qed.

Lemma trace_magic_cases bs :
  trace_magic bs = FTBR ∧ starts_with bs FTBR = true
  ∨ trace_magic bs = FTBT ∧ starts_with bs FTBR = false ∧ starts_with bs FTBT = true
  ∨ trace_magic bs = FTTM ∧ starts_with bs FTBR = false ∧ starts_with bs FTBT = false.
Proof.
  unfold trace_magic. destruct (starts_with bs FTBR); [by left|]. right.
  destruct (starts_with bs FTBT); [by left | by right].
Qed.
Lemma trace_magic_length bs : length (trace_magic bs) = 4%nat.
Proof. destruct (trace_magic_cases bs) as [[-> _]|[[-> _]|[-> _]]]; done. Qed.

(** What the body of a trace frame holds. *)
Definition trace_body_ok (recovery boolean : bool) (bs : bytes) (r : TraceRequest.t) : Prop :=
  ∃ e ids l bu, r = trace_request recovery e ids l bu ∧ bs = enc_trace_body boolean e ids l bu
  ∧ expression_ok e ∧ opt_ok (Forall id_ok) ids ∧ Forall trace_record_wire_ok l
  ∧ (boolean = false → is_clause e = true).

#[export] Hint Resolve Spec_trace_expression Spec_trace_candidates Spec_trace_records : wire.
Lemma Spec_trace_body recovery boolean :
  Spec (decode_trace_body recovery boolean) (trace_body_ok recovery boolean).
Proof.
  unfold decode_trace_body. repeat spec1. unfold trace_body_ok, enc_trace_body.
  rewrite !app_nil_r. eauto 20.
Qed.

Lemma Parses_trace_body recovery boolean e ids l bu :
  trace_ok (trace_request recovery e ids l bu) → (boolean = false → is_clause e = true) →
  Parses (decode_trace_body recovery boolean) (enc_trace_body boolean e ids l bu) (trace_request recovery e ids l bu).
Proof.
  intros (_ & He & Hids & Hl & Hbu & (Hca & Hst & _ & Hn & Hro & _ & Hsrc)) Hb. unfold trace_request in *.
  cbn [TraceRequest.search TraceRequest.records] in *. request_cbn.
  unfold decode_trace_body, enc_trace_body.
  eapply Parses_bind; [by apply Parses_trace_expression|].
  eapply Parses_bind; [by apply Parses_trace_candidates|].
  eapply Parses_bind; [apply Parses_trace_records; try done; unfold u16_ok, MAX_TRACE_RECORDS in *; lia|].
  eapply Parses_bind_nil; [apply Parses_u32; unfold u32_ok, MAX_SEARCH_BUDGET_MILLISECONDS in *; lia | apply Parses_ret].
Qed.

Lemma trace_check_tame r : tame (trace_check r).
Proof.
  apply tame_bind; [apply budget_check_tame | intros _ _].
  apply tame_bind; [apply validate_trace_admission_tame | done].
Qed.
Lemma trace_check_Ok r r' : trace_check r = Ok r' ↔
  r' = r ∧ 1 <= r.(TraceRequest.search).(SearchRequest.budget_milliseconds) <= MAX_SEARCH_BUDGET_MILLISECONDS
  ∧ trace_admissible r.(TraceRequest.search) r.(TraceRequest.records).
Proof.
  unfold trace_check. rewrite !bind_unit, budget_check_Ok, validate_trace_admission_Ok. naive_solver.
Qed.

Lemma trace_ok_parts recovery e ids l bu :
  expression_ok e → opt_ok (Forall id_ok) ids → Forall trace_record_wire_ok l →
  trace_ok (trace_request recovery e ids l bu) ↔
  1 <= bu <= MAX_SEARCH_BUDGET_MILLISECONDS
  ∧ trace_admissible (trace_request recovery e ids l bu).(TraceRequest.search) l.
Proof. intros. unfold trace_ok, trace_request. cbn [TraceRequest.search TraceRequest.records]. request_cbn. naive_solver. Qed.

Lemma decode_trace_sound bs : fits bs →
  match decode_trace bs with
  | Ok r => trace_ok r ∧ trace_bytes r bs
  | Err e => code e = "E_INVALID_ARGUMENT"%string
  | Panic | Fuel => False
  end.
Proof.
  intros Hf. unfold decode_trace. cbn zeta.
  pose proof (decode_frame_sound (trace_magic bs)
    (decode_trace_body (starts_with bs FTBR) (starts_with bs FTBR || starts_with bs FTBT)) trace_check
    (trace_magic_length bs) _ bs (Spec_trace_body _ _) (λ _ r _, trace_check_tame r) Hf) as H.
  destruct (decode_frame _ _ _ _) as [r| | |]; [|done..].
  destruct H as (bs' & r' & Hbs & (e & ids & l & bu & -> & -> & He & Hids & Hl & Hcl) & (-> & Hbu & Hadm)%trace_check_Ok).
  split; [by apply trace_ok_parts|]. unfold trace_bytes. unfold trace_request at 1 2 3 4 5 6 7.
  cbn [TraceRequest.search TraceRequest.records TraceRequest.recovery]. request_cbn.
  destruct (trace_magic_cases bs) as [[Hm Hr]|[(Hm & Hr & Hb)|(Hm & Hr & Hb)]]; rewrite ?Hm, ?Hr, ?Hb in *; cbn [orb] in *.
  - done.
  - by left.
  - right. auto.
Qed.

Lemma decode_trace_frame recovery boolean m e ids l bu :
  m ∈ [FTBR; FTBT; FTTM] → recovery = bool_decide (m = FTBR) →
  boolean = bool_decide (m = FTBR) || bool_decide (m = FTBT) →
  trace_ok (trace_request recovery e ids l bu) → (boolean = false → is_clause e = true) →
  fits (enc_header m ++ enc_trace_body boolean e ids l bu) →
  decode_trace (enc_header m ++ enc_trace_body boolean e ids l bu) = Ok (trace_request recovery e ids l bu).
Proof.
  intros Hm Hr Hb Hok Hcl Hf. unfold decode_trace. rewrite trace_magic_header by done.
  assert (length m = 4%nat) as Hlen.
  { repeat (apply elem_of_cons in Hm as [->|Hm]); [done..|]. by apply elem_of_nil in Hm. }
  rewrite !starts_with_header by done. cbn zeta. rewrite <- Hr, Hr, <- Hb, <- Hr.
  apply decode_frame_complete with (a := trace_request recovery e ids l bu); [done| | |done].
  - by apply Parses_Reads, Parses_trace_body.
  - apply trace_check_Ok. split; [done|]. destruct Hok as (_ & _ & _ & _ & ? & ?). done.
Qed.

(** Decoding a trace frame: a byte string decodes to a trace request exactly
    when it is one of the request's encodings (FTBR, FTBT, or FTTM for a single
    clause) and the request is admissible; the decoder never panics and rejects
    with E_INVALID_ARGUMENT. *)
Theorem decode_trace_iff bs r :
  fits bs → tame (decode_trace bs) ∧ (decode_trace bs = Ok r ↔ trace_ok r ∧ trace_bytes r bs).
Proof.
  intros Hf. pose proof (decode_trace_sound bs Hf) as H.
  split; [unfold tame; by destruct (decode_trace bs)|]. split; [intros E; by rewrite E in H|].
  intros [Hok Hb]. assert (∃ re e ids l bu, r = trace_request re e ids l bu) as (re & e & ids & l & bu & ->)
    by (do 5 eexists; exact (proj1 Hok)).
  unfold trace_bytes, trace_request in Hb. cbn [TraceRequest.search TraceRequest.records TraceRequest.recovery] in Hb.
  request_cbn. destruct re; [subst bs | destruct Hb as [->|[Hcl ->]]].
  - by apply decode_trace_frame; [left|..].
  - by apply decode_trace_frame; [right; left|..].
  - by apply decode_trace_frame; [right; right; left|..].
Qed.

Definition sample_trace : TraceRequest.t :=
  trace_request false sample_clause (Some [magic "r1"])
    [TraceRecord.mk (magic "r1") [(magic "title", [magic "red"; magic "shoes"])]] 100.
Definition sample_trace_frame : bytes :=
  enc_header FTTM ++ enc_trace_body false sample_clause (Some [magic "r1"])
    [TraceRecord.mk (magic "r1") [(magic "title", [magic "red"; magic "shoes"])]] 100.

Lemma decode_trace_iff_witness :
  decode_trace sample_trace_frame = Ok sample_trace ∧ trace_ok sample_trace ∧ trace_bytes sample_trace sample_trace_frame.
Proof.
  assert (fits sample_trace_frame) as Hf by (vm_compute; discriminate).
  assert (decode_trace sample_trace_frame = Ok sample_trace) as E by (vm_compute; reflexivity).
  split; [exact E|]. exact (proj1 (proj2 (decode_trace_iff sample_trace_frame sample_trace Hf)) E).
Defined.
