(* ===== verification/Batch.v ===== *)
(** * src/src/protocol.rs: mutation batches (FTMB)

    [decode_batch] accepts exactly the encodings of the batches the writer can
    apply: the wire form of a batch is canonical. *)
From S2P Require Import Prelude.
From S2P Require Import Errors.
From S2P Require Import Bytes.
From S2P Require Import Wire.
From S2P Require Import Request.
From S2P Require Import Structure.
From S2P Require Import Expression.
From S2P Require Import Filter.
From S2P Require Import Catalog.
From S2P Require Import Admission.
From S2P Require Import Frame.
Local Open Scope N_scope.

Definition FTMB : bytes := magic "FTMB".

Definition validate_batch_header (bs : bytes) (max_batch_bytes : N) : outcome () :=
  if max_batch_bytes <? lenN bs
  then Err (FulltextError_new "E_BATCH_TOO_LARGE"
    ("mutation batch is " +:+ show (lenN bs) +:+ " bytes; maximum is " +:+ show max_batch_bytes))
  else c ← Cursor.new bs FTMB; run (_ ← Cursor.u32; _ ← Cursor.u32; mret ()) c.

Definition decode_version : M Cursor.t (option bytes) :=
  present ← Cursor.boolean;
  if present : bool then
    version ← Cursor.string;
    if MAX_RECORD_VERSION_BYTES <? lenN version
    then fail_with (invalid "record versions must not exceed 4096 UTF-8 bytes") else mret (Some version)
  else mret None.

Definition decode_field : M Cursor.t (bytes * list bytes) :=
  name ← Cursor.string;
  value_count ← Cursor.u16;
  remaining ← get_remaining;
  if remaining / 4 <? value_count then fail_with (invalid "value count exceeds the packed batch length") else
  values ← replicateM (N.to_nat value_count) Cursor.string;
  mret (name, values).

Definition decode_filter_entry : M Cursor.t (bytes * list FilterValue.t) :=
  name ← Cursor.string;
  value_count ← Cursor.u16;
  remaining ← get_remaining;
  if remaining / 2 <? value_count
  then fail_with (invalid "filter value count exceeds the packed batch length") else
  values ← replicateM (N.to_nat value_count) decode_filter_value;
  mret (name, values).

Definition decode_upsert : M Cursor.t Upsert.t :=
  id ← Cursor.record_id;
  version ← decode_version;
  field_count ← Cursor.u16;
  if MAX_FIELDS <? field_count then fail_with (invalid "upsert field count exceeds 1024") else
  remaining ← get_remaining;
  if remaining / 6 <? field_count
  then fail_with (invalid "upsert field count exceeds the packed batch length") else
  fields ← replicateM (N.to_nat field_count) decode_field;
  filter_count ← Cursor.u16;
  remaining ← get_remaining;
  if (MAX_FIELDS <? filter_count) || (remaining / 6 <? filter_count)
  then fail_with (invalid "upsert filter count exceeds the packed batch length") else
  filters ← replicateM (N.to_nat filter_count) decode_filter_entry;
  mret (Upsert.mk id version fields filters).

(** [checked_mul(6).and_then(|b| delete_count.checked_mul(4).and_then(|d| b.checked_add(d)))] *)
Definition minimum_batch_bytes (upsert_count delete_count : N) : option N :=
  b ← checked_mul upsert_count 6; d ← checked_mul delete_count 4; checked_add b d.

Definition decode_batch_body : M Cursor.t MutationBatch.t :=
  upsert_count ← Cursor.u32;
  delete_count ← Cursor.u32;
  minimum_bytes ← lift (ok_or (minimum_batch_bytes upsert_count delete_count) (invalid "mutation count overflow"));
  remaining ← get_remaining;
  if remaining <? minimum_bytes then fail_with (invalid "mutation counts exceed the packed batch length") else
  upserts ← replicateM (N.to_nat upsert_count) decode_upsert;
  remaining ← get_remaining;
  if remaining / 4 <? delete_count then fail_with (invalid "delete count exceeds the packed batch length") else
  deletes ← replicateM (N.to_nat delete_count) Cursor.record_id;
  mret (MutationBatch.mk upserts deletes).

Definition decode_batch (bs : bytes) : outcome MutationBatch.t := decode_frame FTMB decode_batch_body Ok bs.

(** ** The wire grammar *)
Definition enc_field (f : bytes * list bytes) : bytes := enc_str f.1 ++ enc_u16 (lenN f.2) ++ enc_list enc_str f.2.
Definition enc_filter_entry (f : bytes * list FilterValue.t) : bytes :=
  enc_str f.1 ++ enc_u16 (lenN f.2) ++ enc_list enc_filter_value f.2.
Definition enc_upsert (u : Upsert.t) : bytes :=
  enc_str u.(Upsert.id) ++ enc_opt enc_str u.(Upsert.version)
  ++ enc_u16 (lenN u.(Upsert.fields)) ++ enc_list enc_field u.(Upsert.fields)
  ++ enc_u16 (lenN u.(Upsert.filters)) ++ enc_list enc_filter_entry u.(Upsert.filters).
Definition enc_batch (b : MutationBatch.t) : bytes :=
  enc_header FTMB ++ enc_u32 (lenN b.(MutationBatch.upserts)) ++ enc_u32 (lenN b.(MutationBatch.deletes))
  ++ enc_list enc_upsert b.(MutationBatch.upserts) ++ enc_list enc_str b.(MutationBatch.deletes).

Definition field_ok (f : bytes * list bytes) : Prop := str_ok f.1 ∧ u16_ok (lenN f.2) ∧ Forall str_ok f.2.
Definition filter_entry_ok (f : bytes * list FilterValue.t) : Prop :=
  str_ok f.1 ∧ u16_ok (lenN f.2) ∧ Forall filter_value_ok f.2.
Definition version_ok (v : bytes) : Prop := str_ok v ∧ lenN v <= MAX_RECORD_VERSION_BYTES.
Definition upsert_ok (u : Upsert.t) : Prop :=
  id_ok u.(Upsert.id) ∧ opt_ok version_ok u.(Upsert.version)
  ∧ lenN u.(Upsert.fields) <= MAX_FIELDS ∧ Forall field_ok u.(Upsert.fields)
  ∧ lenN u.(Upsert.filters) <= MAX_FIELDS ∧ Forall filter_entry_ok u.(Upsert.filters).
Definition batch_ok (b : MutationBatch.t) : Prop :=
  u32_ok (lenN b.(MutationBatch.upserts)) ∧ u32_ok (lenN b.(MutationBatch.deletes))
  ∧ Forall upsert_ok b.(MutationBatch.upserts) ∧ Forall id_ok b.(MutationBatch.deletes).

(** ** Fields, filters and upserts *)
Ltac spec_list := repeat first
  [ eapply Spec_bind; [apply Spec_list; solve [eauto 2 with wire] | spec_pre] | spec1 ].

Lemma Spec_field : Spec decode_field (λ bs f, bs = enc_field f ∧ field_ok f).
Proof. unfold decode_field. spec_list. by rewrite app_nil_r. Qed.
Lemma Spec_filter_entry : Spec decode_filter_entry (λ bs f, bs = enc_filter_entry f ∧ filter_entry_ok f).
Proof. unfold decode_filter_entry. spec_list. by rewrite app_nil_r. Qed.

Lemma Parses_field f : field_ok f → Parses decode_field (enc_field f) f.
Proof.
  destruct f as [name vs]. intros (Hn & Hl & Hvs); cbn [fst snd] in *. unfold decode_field, enc_field; cbn [fst snd].
  eapply Parses_bind; [by apply Parses_string|]. eapply Parses_bind; [by apply Parses_u16|].
  apply Parses_remaining. intros n Hr. pose proof (lenN_enc_list_ge enc_str 4 vs lenN_enc_str_ge).
  rewrite enough_left by lia.
  eapply Parses_bind_nil; [apply Parses_list; eapply Forall_impl; [done|]; auto with wire | apply Parses_ret].
Qed.
Lemma Parses_filter_entry f : filter_entry_ok f → Parses decode_filter_entry (enc_filter_entry f) f.
Proof.
  destruct f as [name vs]. intros (Hn & Hl & Hvs); cbn [fst snd] in *. unfold decode_filter_entry, enc_filter_entry; cbn [fst snd].
  eapply Parses_bind; [by apply Parses_string|]. eapply Parses_bind; [by apply Parses_u16|].
  apply Parses_remaining. intros n Hr. pose proof (lenN_enc_list_ge enc_filter_value 2 vs lenN_enc_filter_value_ge).
  rewrite enough_left by lia.
  eapply Parses_bind_nil; [apply Parses_list; eapply Forall_impl; [done|]; auto with wire | apply Parses_ret].
Qed.
#[export] Hint Resolve Spec_field Spec_filter_entry Parses_field Parses_filter_entry : wire.

Lemma version_form c : decode_version c =
  (present ← Cursor.boolean; if present : bool then
     v ← (version ← Cursor.string;
          if MAX_RECORD_VERSION_BYTES <? lenN version
          then fail_with (invalid "record versions must not exceed 4096 UTF-8 bytes") else mret version);
     mret (Some v) else mret None) c.
Proof.
  unfold decode_version. cbv [mbind M_bind]. destruct (Cursor.boolean c) as [[[] c']| | |]; try done.
  destruct (Cursor.string c') as [[v c'']| | |]; try done. by destruct (MAX_RECORD_VERSION_BYTES <? lenN v).
Qed.
Lemma Spec_version : Spec decode_version (λ bs v, bs = enc_opt enc_str v ∧ opt_ok version_ok v).
Proof.
  eapply Spec_ext; [exact version_form|]. apply Spec_option. repeat spec1. b2p. by rewrite app_nil_r.
Qed.
Lemma Parses_version v : opt_ok version_ok v → Parses decode_version (enc_opt enc_str v) v.
Proof.
  intros Hv. eapply Parses_ext; [exact version_form|]. eapply Parses_option; [|exact Hv].
  intros s [Hs Hl]. eapply Parses_bind_nil; [by apply Parses_string|].
  destruct (N.ltb_spec MAX_RECORD_VERSION_BYTES (lenN s)); [lia | apply Parses_ret].
Qed.
#[export] Hint Resolve Spec_version Parses_version : wire.

Lemma Spec_upsert : Spec decode_upsert (λ bs u, bs = enc_upsert u ∧ upsert_ok u).
Proof.
  unfold decode_upsert. spec_list. unfold upsert_ok, enc_upsert. b2p.
  cbn [Upsert.id Upsert.version Upsert.fields Upsert.filters]. by rewrite !app_nil_r.
Qed.

Lemma lenN_enc_field_ge f : 6 <= lenN (enc_field f).
Proof. unfold enc_field. autorewrite with len. lia. Qed.
Lemma lenN_enc_filter_entry_ge f : 6 <= lenN (enc_filter_entry f).
Proof. unfold enc_filter_entry. autorewrite with len. lia. Qed.
Lemma lenN_enc_upsert_ge u : 6 <= lenN (enc_upsert u).
Proof. unfold enc_upsert. autorewrite with len. lia. Qed.

Lemma Parses_upsert u : upsert_ok u → Parses decode_upsert (enc_upsert u) u.
Proof.
  destruct u as [id v fs gs]. intros (Hid & Hv & Hfl & Hfs & Hgl & Hgs).
  cbn [Upsert.id Upsert.version Upsert.fields Upsert.filters] in *. unfold decode_upsert, enc_upsert.
  cbn [Upsert.id Upsert.version Upsert.fields Upsert.filters]. unfold MAX_FIELDS in *.
  eapply Parses_bind; [by apply Parses_record_id|]. eapply Parses_bind; [by apply Parses_version|].
  eapply Parses_bind; [apply Parses_u16; unfold u16_ok; lia|].
  destruct (N.ltb_spec 1024 (lenN fs)); [lia|]. apply Parses_remaining. intros n Hr.
  pose proof (lenN_enc_list_ge enc_field 6 fs lenN_enc_field_ge). rewrite enough_left by len_lia.
  eapply Parses_bind; [apply Parses_list; eapply Forall_impl; [done|]; auto with wire|].
  eapply Parses_bind; [apply Parses_u16; unfold u16_ok; lia|]. apply Parses_remaining. intros n' Hr'.
  pose proof (lenN_enc_list_ge enc_filter_entry 6 gs lenN_enc_filter_entry_ge). rewrite enough_left by len_lia.
  destruct (N.ltb_spec 1024 (lenN gs)); [lia|]. cbn [orb].
  eapply Parses_bind_nil; [apply Parses_list; eapply Forall_impl; [done|]; auto with wire | apply Parses_ret].
Qed.
#[export] Hint Resolve Spec_upsert Parses_upsert : wire.

(** ** Batches *)
Lemma minimum_batch_bytes_u32 u d : u32_ok u → u32_ok d → minimum_batch_bytes u d = Some (u * 6 + d * 4).
Proof.
  unfold u32_ok, minimum_batch_bytes, checked_mul, checked_add. intros Hu Hd.
  assert (u * 6 + d * 4 <= USIZE_MAX) by (unfold USIZE_MAX; lia).
  destruct (N.leb_spec (u * 6) USIZE_MAX); [|lia]. cbn. destruct (N.leb_spec (d * 4) USIZE_MAX); [|lia]. cbn.
  destruct (N.leb_spec (u * 6 + d * 4) USIZE_MAX); [done | lia].
Qed.

Definition enc_batch_body (b : MutationBatch.t) : bytes :=
  enc_u32 (lenN b.(MutationBatch.upserts)) ++ enc_u32 (lenN b.(MutationBatch.deletes))
  ++ enc_list enc_upsert b.(MutationBatch.upserts) ++ enc_list enc_str b.(MutationBatch.deletes).

Lemma Spec_batch_body : Spec decode_batch_body (λ bs b, bs = enc_batch_body b ∧ batch_ok b).
Proof.
  unfold decode_batch_body. spec1. spec1.
  match goal with |- context [minimum_batch_bytes ?u ?d] => rewrite (minimum_batch_bytes_u32 u d) by done end.
  eapply (Spec_bind _ (λ bs _, bs = [])); [by apply Spec_lift|]. intros ? min ->. spec_list.
  unfold enc_batch_body, batch_ok. cbn [MutationBatch.upserts MutationBatch.deletes]. by rewrite !app_nil_r.
Qed.

Lemma Parses_batch_body b : batch_ok b → Parses decode_batch_body (enc_batch_body b) b.
Proof.
  destruct b as [us ds]. intros (Hu & Hd & Hus & Hds). cbn [MutationBatch.upserts MutationBatch.deletes] in *.
  unfold decode_batch_body, enc_batch_body. cbn [MutationBatch.upserts MutationBatch.deletes].
  pose proof (lenN_enc_list_ge enc_upsert 6 us lenN_enc_upsert_ge).
  pose proof (lenN_enc_list_ge enc_str 4 ds lenN_enc_str_ge).
  eapply Parses_bind; [by apply Parses_u32|]. eapply Parses_bind; [by apply Parses_u32|].
  eapply Parses_nil_bind; [apply Parses_lift; by rewrite minimum_batch_bytes_u32|].
  apply Parses_remaining. intros n Hr. autorewrite with len in Hr.
  destruct (N.ltb_spec n (lenN us * 6 + lenN ds * 4)); [lia|].
  eapply Parses_bind; [apply Parses_list; eapply Forall_impl; [done|]; auto with wire|].
  apply Parses_remaining. intros n' Hr'. rewrite enough_left by lia.
  eapply Parses_bind_nil; [apply Parses_list; eapply Forall_impl; [done|]; auto with wire | apply Parses_ret].
Qed.

(** C24: Decoding a mutation batch: the bytes decode to a batch exactly when they are
    its encoding and the batch is within the protocol's bounds, so the wire form
    is canonical (two different frames never decode to the same batch); every
    other frame is rejected with E_INVALID_ARGUMENT, without a panic. *)
Theorem decode_batch_iff bs b :
  fits bs → tame (decode_batch bs) ∧ (decode_batch bs = Ok b ↔ batch_ok b ∧ bs = enc_batch b).
Proof.
  intros Hf. pose proof (decode_frame_sound FTMB decode_batch_body Ok eq_refl _ bs Spec_batch_body (λ _ _ _, I) Hf) as H.
  unfold decode_batch. split; [unfold tame; by destruct (decode_frame _ _ _ _)|]. split.
  - intros E. rewrite E in H. destruct H as (bs' & b' & -> & [-> Hok] & [= ->]). done.
  - intros [Hok ->]. apply (decode_frame_complete FTMB decode_batch_body Ok eq_refl (enc_batch_body b) b b); [|done..].
    by apply Parses_Reads, Parses_batch_body.
Qed.

Definition sample_batch : MutationBatch.t :=
  MutationBatch.mk
    [Upsert.mk (magic "r1") (Some (magic "v7")) [(magic "title", [magic "red shoes"])]
       [(magic "price", [FilterValue.Number 4621819117588971520])]]
    [magic "r2"].
Lemma decode_batch_iff_witness : decode_batch (enc_batch sample_batch) = Ok sample_batch ∧ batch_ok sample_batch.
Proof.
  assert (fits (enc_batch sample_batch)) as Hf by (vm_compute; discriminate).
  assert (decode_batch (enc_batch sample_batch) = Ok sample_batch) as E by (vm_compute; reflexivity).
  split; [exact E|]. exact (proj1 (proj1 (proj2 (decode_batch_iff (enc_batch sample_batch) sample_batch Hf)) E)).
Defined.
