(* ===== verification/Config.v ===== *)
(** * src/src/protocol.rs: configuration frames (FTOP, FTIP, FTRX, FTGC)

    The frames that open, inspect and reset an index and set the runtime
    budget, with [validate_config] and [validate_identity_config]. *)
From S2P Require Import Prelude.
From S2P Require Import Errors.
From S2P Require Import Bytes.
From S2P Require Import Wire.
From S2P Require Import Request.
From S2P Require Import Structure.
From S2P Require Import Expression.
From S2P Require Import Catalog.
From S2P Require Import Admission.
From S2P Require Import Frame.
Local Open Scope N_scope.

Definition FTOP : bytes := magic "FTOP".
Definition FTIP : bytes := magic "FTIP".
Definition FTRX : bytes := magic "FTRX".
Definition FTGC : bytes := magic "FTGC".

(** ** Validation *)
Definition rule_replacement (total : N) (replacement : bytes) : outcome N :=
  if lenN replacement =? 0 then Err (invalid "synonym replacements must not be empty")
  else Ok (saturating_add total (lenN replacement)).
Definition rule_bytes (total : N) (rule : SynonymRule.t) : outcome N :=
  if (lenN rule.(SynonymRule.source) =? 0) || (lenN rule.(SynonymRule.replacements) =? 0)
     || (MAX_SYNONYM_REPLACEMENTS <? lenN rule.(SynonymRule.replacements))
  then Err (invalid ("synonym rules require a source and between 1 and " +:+ show MAX_SYNONYM_REPLACEMENTS
                     +:+ " replacements"))
  else foldO rule_replacement (saturating_add total (lenN rule.(SynonymRule.source))) rule.(SynonymRule.replacements).

Definition RESERVED_PREFIX : bytes := magic "__fulltext_".
Definition name_step (message : string) (names : gset bytes) (name : bytes) : outcome (gset bytes) :=
  if (lenN name =? 0) || starts_with name RESERVED_PREFIX || bool_decide (name ∈ names)
  then Err (invalid message) else Ok ({[name]} ∪ names).

Definition validate_identity_config (config : EngineIdentityConfig.t) : outcome () :=
  if (lenN config.(EngineIdentityConfig.index_id) =? 0) || (lenN config.(EngineIdentityConfig.generation) =? 0)
  then Err (invalid "indexId and generation must not be empty")
  else if (4096 <? lenN config.(EngineIdentityConfig.index_id)) || (4096 <? lenN config.(EngineIdentityConfig.generation))
  then Err (invalid "indexId and generation must not exceed 4096 UTF-8 bytes")
  else if negb (bool_decide (config.(EngineIdentityConfig.analyzer) = magic "english@2"))
  then Err (invalid "only analyzer english@2 is supported")
  else if MAX_SYNONYM_RULES <? lenN config.(EngineIdentityConfig.synonyms)
  then Err (invalid ("synonyms must not contain more than " +:+ show MAX_SYNONYM_RULES +:+ " rules"))
  else
    synonym_bytes ← foldO rule_bytes 0 config.(EngineIdentityConfig.synonyms);
    if MAX_SYNONYM_BYTES <? synonym_bytes
    then Err (invalid ("synonyms must not exceed " +:+ show MAX_SYNONYM_BYTES +:+ " UTF-8 bytes"))
    else
      _ ← foldO (name_step "field names must be non-empty, unique, and outside the reserved __fulltext_ namespace")
            ∅ (FieldConfig.name <$> config.(EngineIdentityConfig.fields));
      _ ← foldO (name_step "filter field names must be non-empty, unique, and outside the reserved __fulltext_ namespace")
            ∅ (FilterFieldConfig.name <$> config.(EngineIdentityConfig.filter_fields));
      Ok ().

Definition validate_limits (limits : Limits.t) : outcome () :=
  _ ← validate_query_limits limits.(Limits.max_query_terms) limits.(Limits.max_query_clauses);
  if (limits.(Limits.indexing_threads) =? 0) || (limits.(Limits.search_threads) =? 0)
     || (limits.(Limits.max_queued_commands) =? 0)
  then Err (invalid "thread and queue command limits must be greater than zero")
  else if (64 <? limits.(Limits.indexing_threads)) || (64 <? limits.(Limits.search_threads))
  then Err (invalid "thread limits must not exceed 64")
  else
    let per_thread := limits.(Limits.writer_memory_bytes) / limits.(Limits.indexing_threads) in
    if negb ((15000000 <=? per_thread) && (per_thread <? U32_MAX))
    then Err (invalid ("writerMemoryBytes/indexingThreads is " +:+ show per_thread
                       +:+ "; Tantivy requires 15000000.." +:+ show U32_MAX))
    else if (limits.(Limits.max_batch_bytes) <? MIN_MUTATION_BATCH_BYTES)
            || (limits.(Limits.max_queued_bytes) <? limits.(Limits.max_batch_bytes))
    then Err (invalid "maxBatchBytes must hold at least one upsert and be no larger than maxQueuedBytes")
    else Ok ().

Definition validate_config (config : EngineConfig.t) : outcome EngineConfig.t :=
  _ ← validate_identity_config config.(EngineConfig.identity);
  _ ← validate_limits config.(EngineConfig.limits);
  Ok config.

Definition validate_path (path : bytes) : outcome bytes :=
  if lenN path =? 0 then Err (invalid "path must not be empty") else Ok path.

(** ** Readers *)
Definition decode_synonym_rule : M (Cursor.t * N) SynonymRule.t :=
  source ← Cursor.string_with_budget "encoded synonyms";
  replacement_count ← on_fst Cursor.u16;
  if (replacement_count =? 0) || (MAX_SYNONYM_REPLACEMENTS <? replacement_count)
  then fail_with (invalid ("each synonym rule must contain between 1 and " +:+ show MAX_SYNONYM_REPLACEMENTS
                           +:+ " replacements"))
  else
    replacements ← replicateM (N.to_nat replacement_count) (Cursor.string_with_budget "encoded synonyms");
    mret (SynonymRule.mk source replacements).

Definition decode_field_config : M Cursor.t FieldConfig.t :=
  name ← Cursor.string;
  weight ← Cursor.f32;
  if negb (f32_is_finite weight) || f32_le weight F32_ZERO
  then fail_with (invalid "field weights must be finite and greater than zero")
  else mret (FieldConfig.mk name weight).

Definition filter_field_type (code : N) : outcome FilterFieldType.t :=
  if code =? 0 then Ok FilterFieldType.String
  else if code =? 1 then Ok FilterFieldType.Number
  else if code =? 2 then Ok FilterFieldType.Boolean
  else Err (invalid "unknown filter field type").
Definition decode_filter_field_config : M Cursor.t FilterFieldConfig.t :=
  name ← Cursor.string;
  code ← Cursor.u8;
  field_type ← lift (filter_field_type code);
  mret (FilterFieldConfig.mk name field_type).

Definition decode_engine_identity_config : M Cursor.t EngineIdentityConfig.t :=
  index_id ← Cursor.string;
  generation ← Cursor.string;
  analyzer ← Cursor.string;
  stop_words ← Cursor.boolean;
  positions ← Cursor.boolean;
  surface_terms ← Cursor.boolean;
  synonym_count ← Cursor.u16;
  if MAX_SYNONYM_RULES <? synonym_count
  then fail_with (invalid ("synonyms must not contain more than " +:+ show MAX_SYNONYM_RULES +:+ " rules")) else
  synonyms ← with_local MAX_SYNONYM_BYTES (replicateM (N.to_nat synonym_count) decode_synonym_rule);
  field_count ← Cursor.u16;
  if (field_count =? 0) || (MAX_FIELDS <? field_count)
  then fail_with (invalid "fields must contain between 1 and 1024 entries") else
  fields ← replicateM (N.to_nat field_count) decode_field_config;
  filter_field_count ← Cursor.u16;
  if MAX_FIELDS <? filter_field_count
  then fail_with (invalid "filterFields must not contain more than 1024 entries") else
  filter_fields ← replicateM (N.to_nat filter_field_count) decode_filter_field_config;
  mret (EngineIdentityConfig.mk index_id generation fields analyzer stop_words positions surface_terms
          synonyms filter_fields).

(** The optional tail that overrides the default query limits. *)
Definition decode_query_limits : M Cursor.t (N * N) :=
  remaining ← get_remaining;
  if negb (remaining =? 0)
  then max_query_terms ← Cursor.u32; max_query_clauses ← Cursor.u32; mret (max_query_terms, max_query_clauses)
  else mret (MAX_QUERY_TERMS, MAX_QUERY_CLAUSES).

Definition decode_engine_config : M Cursor.t EngineConfig.t :=
  identity ← decode_engine_identity_config;
  indexing_threads ← Cursor.u16;
  search_threads ← Cursor.u16;
  writer_memory_bytes ← Cursor.u64_usize;
  max_queued_commands ← Cursor.u32;
  max_queued_bytes ← Cursor.u64_usize;
  max_batch_bytes ← Cursor.u64_usize;
  query_limits ← decode_query_limits;
  lift (validate_config (EngineConfig.mk identity
    (Limits.mk query_limits.1 query_limits.2 indexing_threads search_threads writer_memory_bytes
       max_queued_commands max_queued_bytes max_batch_bytes))).

Definition decode_open (bs : bytes) : outcome NativeOpenConfig.t :=
  decode_frame FTOP
    (path ← Cursor.string; path ← lift (validate_path path);
     engine ← decode_engine_config; mret (NativeOpenConfig.mk path engine)) Ok bs.

Definition decode_inspect (bs : bytes) : outcome NativeInspectConfig.t :=
  decode_frame FTIP
    (path ← Cursor.string; path ← lift (validate_path path);
     identity ← decode_engine_identity_config; mret (NativeInspectConfig.mk path identity))
    (λ config, _ ← validate_identity_config config.(NativeInspectConfig.identity); Ok config) bs.

Definition decode_reset (bs : bytes) : outcome NativeResetConfig.t :=
  decode_frame FTRX
    (path ← Cursor.string; path ← lift (validate_path path);
     index_id ← Cursor.string; mret (NativeResetConfig.mk path index_id))
    (λ config, if lenN config.(NativeResetConfig.index_id) =? 0
               then Err (invalid "indexId must not be empty") else Ok config) bs.

Definition decode_runtime_budget (bs : bytes) : outcome RuntimeBudgetLimits.t :=
  decode_frame FTGC
    (max_resident_indexes ← Cursor.u32;
     max_indexing_threads ← Cursor.u32;
     max_search_threads ← Cursor.u32;
     max_writer_memory_bytes ← Cursor.u64_usize;
     max_queued_bytes ← Cursor.u64_usize;
     max_expensive_searches ← Cursor.u32;
     mret (RuntimeBudgetLimits.mk max_resident_indexes max_indexing_threads max_search_threads
             max_writer_memory_bytes max_queued_bytes max_expensive_searches))
    (λ limits,
      if (limits.(RuntimeBudgetLimits.max_resident_indexes) =? 0)
         || (limits.(RuntimeBudgetLimits.max_indexing_threads) =? 0)
         || (limits.(RuntimeBudgetLimits.max_search_threads) =? 0)
         || (limits.(RuntimeBudgetLimits.max_writer_memory_bytes) =? 0)
         || (limits.(RuntimeBudgetLimits.max_queued_bytes) =? 0)
         || (limits.(RuntimeBudgetLimits.max_expensive_searches) =? 0)
      then Err (invalid "runtime budget limits must be greater than zero") else Ok limits) bs.

(** ** What the validators decide *)
Definition rule_size (r : SynonymRule.t) : N :=
  lenN r.(SynonymRule.source) + sum (lenN <$> r.(SynonymRule.replacements)).
Definition rule_ok (r : SynonymRule.t) : Prop :=
  0 < lenN r.(SynonymRule.source) ∧ 1 <= lenN r.(SynonymRule.replacements) <= MAX_SYNONYM_REPLACEMENTS
  ∧ Forall (λ s, 0 < lenN s) r.(SynonymRule.replacements).
Definition name_ok (name : bytes) : Prop := 0 < lenN name ∧ starts_with name RESERVED_PREFIX = false.
Definition names_ok (names : list bytes) : Prop := Forall name_ok names ∧ NoDup names.
Definition identity_ok (c : EngineIdentityConfig.t) : Prop :=
  0 < lenN c.(EngineIdentityConfig.index_id) <= 4096 ∧ 0 < lenN c.(EngineIdentityConfig.generation) <= 4096
  ∧ c.(EngineIdentityConfig.analyzer) = magic "english@2"
  ∧ lenN c.(EngineIdentityConfig.synonyms) <= MAX_SYNONYM_RULES ∧ Forall rule_ok c.(EngineIdentityConfig.synonyms)
  ∧ sum (rule_size <$> c.(EngineIdentityConfig.synonyms)) <= MAX_SYNONYM_BYTES
  ∧ names_ok (FieldConfig.name <$> c.(EngineIdentityConfig.fields))
  ∧ names_ok (FilterFieldConfig.name <$> c.(EngineIdentityConfig.filter_fields)).
Definition limits_ok (l : Limits.t) : Prop :=
  1 <= l.(Limits.max_query_terms) <= MAX_CONFIGURED_QUERY_TERMS
  ∧ 1 <= l.(Limits.max_query_clauses) <= MAX_CONFIGURED_QUERY_CLAUSES
  ∧ 1 <= l.(Limits.indexing_threads) <= 64 ∧ 1 <= l.(Limits.search_threads) <= 64
  ∧ 1 <= l.(Limits.max_queued_commands)
  ∧ 15000000 <= l.(Limits.writer_memory_bytes) / l.(Limits.indexing_threads) < U32_MAX
  ∧ MIN_MUTATION_BATCH_BYTES <= l.(Limits.max_batch_bytes) <= l.(Limits.max_queued_bytes).
Definition config_ok (c : EngineConfig.t) : Prop :=
  identity_ok c.(EngineConfig.identity) ∧ limits_ok c.(EngineConfig.limits).

Lemma saturating_add_min a b :
  saturating_add (N.min a USIZE_MAX) b = N.min (a + b) USIZE_MAX.
Proof. unfold saturating_add. lia. Qed.

Lemma foldO_replacements l a t' :
  foldO rule_replacement (N.min a USIZE_MAX) l = Ok t' ↔
  Forall (λ s, 0 < lenN s) l ∧ t' = N.min (a + sum (lenN <$> l)) USIZE_MAX.
Proof.
  revert a. induction l as [|s l IH]; intros a; cbn [foldO fmap list_fmap sum foldr].
  - rewrite N.add_0_r. split; [intros [= <-]; by split | by intros [_ ->]].
  - fold (sum (lenN <$> l)). rewrite bind_Ok, Forall_cons. unfold rule_replacement at 1.
    destruct (N.eqb_spec (lenN s) 0); [split; [by intros (? & [=] & _) | lia]|].
    rewrite saturating_add_min. split.
    + intros (? & [= <-] & H). apply IH in H as [? ->]. rewrite N.add_assoc. split; [|done]. split; [lia | done].
    + intros ((? & ?) & ->). eexists. split; [done|]. apply IH. by rewrite N.add_assoc.
Qed.

Lemma foldO_rules l a t' :
  foldO rule_bytes (N.min a USIZE_MAX) l = Ok t' ↔
  Forall rule_ok l ∧ t' = N.min (a + sum (rule_size <$> l)) USIZE_MAX.
Proof.
  revert a. induction l as [|r l IH]; intros a; cbn [foldO fmap list_fmap sum foldr].
  - rewrite N.add_0_r. split; [intros [= <-]; by split | by intros [_ ->]].
  - fold (sum (rule_size <$> l)). rewrite bind_Ok, Forall_cons. unfold rule_bytes at 1. unfold rule_ok at 1.
    destruct (N.eqb_spec (lenN (SynonymRule.source r)) 0); [split; [by intros (? & [=] & _) | lia]|].
    destruct (N.eqb_spec (lenN (SynonymRule.replacements r)) 0); [split; [by intros (? & [=] & _) | lia]|].
    destruct (N.ltb_spec MAX_SYNONYM_REPLACEMENTS (lenN (SynonymRule.replacements r)));
      [split; [by intros (? & [=] & _) | lia]|]. cbn [orb].
    rewrite saturating_add_min. setoid_rewrite foldO_replacements. unfold rule_size at 1. split.
    + intros (? & [? ->] & H'). apply IH in H' as [? ->]. rewrite <- !N.add_assoc. split; [|done].
      split; [split_and!; try done; lia | done].
    + intros (((? & ? & ?) & ?) & ->). eexists. split; [by split|]. apply IH. by rewrite <- !N.add_assoc.
Qed.

Lemma name_step_Ok m seen n r :
  name_step m seen n = Ok r ↔ (n ∉ seen) ∧ name_ok n ∧ r = {[n]} ∪ seen.
Proof.
  unfold name_step, name_ok. destruct (N.eqb_spec (lenN n) 0); [split; [done | lia]|].
  destruct (starts_with n RESERVED_PREFIX); [naive_solver|]. case_bool_decide; [naive_solver|]. cbn [orb].
  split; [intros [= <-]; split_and!; done || lia | by intros (_ & _ & ->)].
Qed.

Lemma foldO_names_Ok m l u :
  (_ ← foldO (name_step m) ∅ l; u) = Ok () ↔ names_ok l ∧ u = Ok ().
Proof. rewrite (foldO_keys_Ok id name_ok (name_step m) (name_step_Ok m)), list_fmap_id. unfold names_ok. tauto. Qed.

Lemma validate_identity_config_Ok c : validate_identity_config c = Ok () ↔ identity_ok c.
Proof.
  unfold validate_identity_config, identity_ok.
  destruct (N.eqb_spec (lenN (EngineIdentityConfig.index_id c)) 0); [split; [done | lia]|].
  destruct (N.eqb_spec (lenN (EngineIdentityConfig.generation c)) 0); [split; [done | lia]|].
  destruct (N.ltb_spec 4096 (lenN (EngineIdentityConfig.index_id c))); [split; [done | lia]|].
  destruct (N.ltb_spec 4096 (lenN (EngineIdentityConfig.generation c))); [split; [done | lia]|]. cbn [orb].
  case_bool_decide; [|split; [done | naive_solver]]. cbn [negb].
  destruct (N.ltb_spec MAX_SYNONYM_RULES (lenN (EngineIdentityConfig.synonyms c))); [split; [done | lia]|].
  rewrite bind_Ok. setoid_rewrite (foldO_rules _ 0).
  transitivity (Forall rule_ok (EngineIdentityConfig.synonyms c)
    ∧ sum (rule_size <$> EngineIdentityConfig.synonyms c) <= MAX_SYNONYM_BYTES
    ∧ names_ok (FieldConfig.name <$> EngineIdentityConfig.fields c)
    ∧ names_ok (FilterFieldConfig.name <$> EngineIdentityConfig.filter_fields c)).
  - set (total := sum _). rewrite N.add_0_l. unfold MAX_SYNONYM_BYTES. split.
    + intros (? & [Hr ->] & H'). destruct (N.ltb_spec 1048576 (N.min total USIZE_MAX)) as [|Hle]; [done|].
      rewrite !foldO_names_Ok in H'. destruct H' as (? & ? & _).
      split; [done|]. split; [|done]. unfold USIZE_MAX in Hle. lia.
    + intros (Hr & Hs & Hf & Hg). eexists. split; [by split|].
      destruct (N.ltb_spec 1048576 (N.min total USIZE_MAX)); [lia|]. by rewrite !foldO_names_Ok.
  - split; [intros (? & ? & ? & ?); split_and!; done || lia | naive_solver].
Qed.

Lemma validate_limits_Ok l : validate_limits l = Ok () ↔ limits_ok l.
Proof.
  unfold validate_limits, limits_ok. rewrite bind_unit, validate_query_limits_Ok.
  destruct (N.eqb_spec (Limits.indexing_threads l) 0); [split; [by intros [_ ?] | lia]|].
  destruct (N.eqb_spec (Limits.search_threads l) 0); [split; [by intros [_ ?] | lia]|].
  destruct (N.eqb_spec (Limits.max_queued_commands l) 0); [split; [by intros [_ ?] | lia]|].
  destruct (N.ltb_spec 64 (Limits.indexing_threads l)); [split; [by intros [_ ?] | lia]|].
  destruct (N.ltb_spec 64 (Limits.search_threads l)); [split; [by intros [_ ?] | lia]|]. cbn [orb].
  cbn zeta. set (per := _ / _).
  destruct (N.leb_spec 15000000 per); [|split; [by intros [_ ?] | lia]].
  destruct (N.ltb_spec per U32_MAX); [|split; [by intros [_ ?] | lia]]. cbn [andb negb].
  destruct (N.ltb_spec (Limits.max_batch_bytes l) MIN_MUTATION_BATCH_BYTES); [split; [by intros [_ ?] | lia]|].
  destruct (N.ltb_spec (Limits.max_queued_bytes l) (Limits.max_batch_bytes l)); [split; [by intros [_ ?] | lia]|].
  cbn [orb]. split; [intros [[? ?] _]; split_and!; done || lia | intros (? & ? & _); done].
Qed.

Lemma validate_identity_config_tame c : tame (validate_identity_config c).
Proof.
  unfold validate_identity_config. repeat case_if; try done.
  assert (∀ m names l, tame (foldO (name_step m) names l)) as Hn
    by (intros; apply foldO_tame; intros; unfold name_step; by case_if).
  apply tame_bind.
  - apply foldO_tame. intros t r. unfold rule_bytes. case_if; [done|]. apply foldO_tame.
    intros. unfold rule_replacement. by case_if.
  - intros total _. case_if; [done|]. apply tame_bind; [apply Hn | intros _ _]. by apply tame_bind.
Qed.
Lemma validate_config_tame c : tame (validate_config c).
Proof.
  apply tame_bind; [apply validate_identity_config_tame | intros _ _]. apply tame_bind; [|done].
  unfold validate_limits. apply tame_bind; [apply validate_query_limits_tame|]. intros _ _. by repeat case_if.
Qed.
Lemma validate_config_Ok c c' : validate_config c = Ok c' ↔ c' = c ∧ config_ok c.
Proof.
  unfold validate_config, config_ok. rewrite !bind_unit, validate_identity_config_Ok, validate_limits_Ok. naive_solver.
Qed.
Lemma validate_path_tame p : tame (validate_path p).
Proof. unfold validate_path. by case_if. Qed.
Lemma validate_path_Ok p p' : validate_path p = Ok p' ↔ p' = p ∧ 0 < lenN p.
Proof.
  unfold validate_path. destruct (N.eqb_spec (lenN p) 0); split; try done; [lia | intros [= <-]; split; [done|lia] | by intros [-> _]].
Qed.
#[export] Hint Resolve validate_config_tame validate_path_tame : wire.

(** ** The wire grammar *)
Definition enc_rule (r : SynonymRule.t) : bytes :=
  enc_str r.(SynonymRule.source) ++ enc_u16 (lenN r.(SynonymRule.replacements))
  ++ enc_list enc_str r.(SynonymRule.replacements).
Definition enc_field_config (f : FieldConfig.t) : bytes := enc_str f.(FieldConfig.name) ++ enc_u32 f.(FieldConfig.weight).
Definition field_type_code (t : FilterFieldType.t) : N :=
  match t with FilterFieldType.String => 0 | FilterFieldType.Number => 1 | FilterFieldType.Boolean => 2 end.
Definition enc_filter_field (f : FilterFieldConfig.t) : bytes :=
  enc_str f.(FilterFieldConfig.name) ++ enc_u8 (field_type_code f.(FilterFieldConfig.field_type)).
Definition enc_identity (c : EngineIdentityConfig.t) : bytes :=
  enc_str c.(EngineIdentityConfig.index_id) ++ enc_str c.(EngineIdentityConfig.generation)
  ++ enc_str c.(EngineIdentityConfig.analyzer) ++ enc_bool c.(EngineIdentityConfig.stop_words)
  ++ enc_bool c.(EngineIdentityConfig.positions) ++ enc_bool c.(EngineIdentityConfig.surface_terms)
  ++ enc_u16 (lenN c.(EngineIdentityConfig.synonyms)) ++ enc_list enc_rule c.(EngineIdentityConfig.synonyms)
  ++ enc_u16 (lenN c.(EngineIdentityConfig.fields)) ++ enc_list enc_field_config c.(EngineIdentityConfig.fields)
  ++ enc_u16 (lenN c.(EngineIdentityConfig.filter_fields))
  ++ enc_list enc_filter_field c.(EngineIdentityConfig.filter_fields).
(** The query limits may be left out when they are the defaults. *)
Definition query_limits_bytes (t c : N) (bs : bytes) : Prop :=
  bs = enc_u32 t ++ enc_u32 c ∨ bs = [] ∧ t = MAX_QUERY_TERMS ∧ c = MAX_QUERY_CLAUSES.
Definition enc_limits (l : Limits.t) : bytes :=
  enc_u16 l.(Limits.indexing_threads) ++ enc_u16 l.(Limits.search_threads) ++ enc_u64 l.(Limits.writer_memory_bytes)
  ++ enc_u32 l.(Limits.max_queued_commands) ++ enc_u64 l.(Limits.max_queued_bytes) ++ enc_u64 l.(Limits.max_batch_bytes).
Definition engine_bytes (c : EngineConfig.t) (bs : bytes) : Prop :=
  ∃ tail, query_limits_bytes c.(EngineConfig.limits).(Limits.max_query_terms)
            c.(EngineConfig.limits).(Limits.max_query_clauses) tail
  ∧ bs = enc_identity c.(EngineConfig.identity) ++ enc_limits c.(EngineConfig.limits) ++ tail.

Definition rule_wire_ok (r : SynonymRule.t) : Prop :=
  str_ok r.(SynonymRule.source) ∧ 1 <= lenN r.(SynonymRule.replacements) <= MAX_SYNONYM_REPLACEMENTS
  ∧ Forall str_ok r.(SynonymRule.replacements).
Definition field_config_ok (f : FieldConfig.t) : Prop :=
  str_ok f.(FieldConfig.name) ∧ u32_ok f.(FieldConfig.weight)
  ∧ f32_is_finite f.(FieldConfig.weight) = true ∧ f32_le f.(FieldConfig.weight) F32_ZERO = false.
Definition filter_field_ok (f : FilterFieldConfig.t) : Prop := str_ok f.(FilterFieldConfig.name).
Definition identity_wire_ok (c : EngineIdentityConfig.t) : Prop :=
  str_ok c.(EngineIdentityConfig.index_id) ∧ str_ok c.(EngineIdentityConfig.generation)
  ∧ str_ok c.(EngineIdentityConfig.analyzer)
  ∧ lenN c.(EngineIdentityConfig.synonyms) <= MAX_SYNONYM_RULES ∧ Forall rule_wire_ok c.(EngineIdentityConfig.synonyms)
  ∧ 1 <= lenN c.(EngineIdentityConfig.fields) <= MAX_FIELDS ∧ Forall field_config_ok c.(EngineIdentityConfig.fields)
  ∧ lenN c.(EngineIdentityConfig.filter_fields) <= MAX_FIELDS
  ∧ Forall filter_field_ok c.(EngineIdentityConfig.filter_fields).
Definition limits_wire_ok (l : Limits.t) : Prop :=
  u16_ok l.(Limits.indexing_threads) ∧ u16_ok l.(Limits.search_threads) ∧ u64_ok l.(Limits.writer_memory_bytes)
  ∧ u32_ok l.(Limits.max_queued_commands) ∧ u64_ok l.(Limits.max_queued_bytes) ∧ u64_ok l.(Limits.max_batch_bytes)
  ∧ u32_ok l.(Limits.max_query_terms) ∧ u32_ok l.(Limits.max_query_clauses).

(** ** Reading identities *)
Lemma Spec_u64_usize : Spec Cursor.u64_usize (λ bs v, bs = enc_u64 v ∧ u64_ok v).
Proof. unfold Cursor.u64_usize. repeat spec1. by rewrite app_nil_r. Qed.
Lemma Parses_u64_usize v : u64_ok v → Parses Cursor.u64_usize (enc_u64 v) v.
Proof.
  intros H. eapply Parses_bind_nil; [by apply Parses_u64|].
  destruct (N.leb_spec v USIZE_MAX); [apply Parses_ret | unfold u64_ok, USIZE_MAX in *; lia].
Qed.

Lemma SpecX_rule r : SpecX decode_synonym_rule r (λ bs a _, bs = enc_rule a ∧ rule_wire_ok a).
Proof.
  assert (∀ r, SpecX (Cursor.string_with_budget "encoded synonyms") r (λ bs s _, bs = enc_str s ∧ str_ok s)) as Hs.
  { intros r'. eapply SpecX_weaken; [apply SpecX_string_with_budget|]. naive_solver. }
  unfold decode_synonym_rule. eapply SpecX_bind; [apply Hs|]. spec_pre. repeat specx1.
  eapply SpecX_bind; [apply (SpecX_list _ enc_str str_ok), Hs|]. intros ? l ? (-> & Hl & Hn). apply SpecX_ret.
  rewrite app_nil_r. b2p. subst. unfold rule_wire_ok, enc_rule; cbn [SynonymRule.source SynonymRule.replacements].
  split; [done|]. split_and!; try done; lia.
Qed.

(** A loop that spends a budget: what remains is what was not read. *)
Lemma ParsesX_debits {A} (p : M (Cursor.t * N) A) (enc : A → bytes) (cost : A → N) l r :
  (∀ a r, a ∈ l → ParsesX p (r + cost a) (enc a) a r) →
  ParsesX (replicateM (N.to_nat (lenN l)) p) (r + sum (cost <$> l)) (concat (enc <$> l)) l r.
Proof.
  rewrite lenN_to_nat. revert r.
  induction l as [|a l IH]; intros r Hp; cbn [replicateM length fmap list_fmap concat sum foldr] in *.
  - rewrite N.add_0_r. apply ParsesX_ret.
  - fold (sum (cost <$> l)). replace (r + (cost a + sum (cost <$> l))) with (r + sum (cost <$> l) + cost a) by lia.
    eapply (ParsesX_bind _ _ _ _ _ (r + sum (cost <$> l))); [apply Hp; left|].
    eapply ParsesX_bind_nil; [apply IH; intros; apply Hp; by right | apply ParsesX_ret].
Qed.

Lemma ParsesX_rule a r : rule_wire_ok a → ParsesX decode_synonym_rule (r + rule_size a) (enc_rule a) a r.
Proof.
  destruct a as [s rs]. intros (Hs & Hn & Hrs). unfold rule_size, enc_rule, decode_synonym_rule, MAX_SYNONYM_REPLACEMENTS in *.
  cbn [SynonymRule.source SynonymRule.replacements] in *.
  replace (r + (lenN s + sum (lenN <$> rs))) with (r + sum (lenN <$> rs) + lenN s) by lia.
  eapply ParsesX_bind; [by apply ParsesX_string_with_budget|].
  eapply ParsesX_bind; [apply ParsesX_fst, Parses_u16; unfold u16_ok; lia|].
  destruct (N.eqb_spec (lenN rs) 0); [lia|]. destruct (N.ltb_spec 16 (lenN rs)); [lia|]. cbn [orb].
  eapply ParsesX_bind_nil; [|apply ParsesX_ret]. apply (ParsesX_debits _ enc_str lenN).
  intros x r' Hx. rewrite Forall_forall in Hrs. apply ParsesX_string_with_budget. by apply Hrs.
Qed.

Lemma Spec_rules n :
  Spec (with_local MAX_SYNONYM_BYTES (replicateM (N.to_nat n) decode_synonym_rule))
    (λ bs l, bs = enc_list enc_rule l ∧ Forall rule_wire_ok l ∧ lenN l = n).
Proof.
  eapply Spec_weaken; [apply Spec_local, (SpecX_list _ enc_rule rule_wire_ok), SpecX_rule|]. naive_solver.
Qed.
Lemma Parses_rules l :
  Forall rule_wire_ok l → sum (rule_size <$> l) <= MAX_SYNONYM_BYTES →
  Parses (with_local MAX_SYNONYM_BYTES (replicateM (N.to_nat (lenN l)) decode_synonym_rule)) (enc_list enc_rule l) l.
Proof.
  intros Hl Hs. eapply (Parses_local _ _ _ _ (MAX_SYNONYM_BYTES - sum (rule_size <$> l))).
  replace MAX_SYNONYM_BYTES with (MAX_SYNONYM_BYTES - sum (rule_size <$> l) + sum (rule_size <$> l)) at 1 by lia.
  apply ParsesX_debits. intros a r Ha. rewrite Forall_forall in Hl. by apply ParsesX_rule, Hl.
Qed.

Lemma Spec_field_config : Spec decode_field_config (λ bs f, bs = enc_field_config f ∧ field_config_ok f).
Proof.
  unfold decode_field_config. repeat spec1. apply orb_false_iff in E as [E1%negb_false_iff E2]. by rewrite app_nil_r.
Qed.
Lemma Parses_field_config f : field_config_ok f → Parses decode_field_config (enc_field_config f) f.
Proof.
  destruct f as [n w]. intros (Hn & Hw & Hfin & Hpos). unfold decode_field_config, enc_field_config.
  cbn [FieldConfig.name FieldConfig.weight] in *. eapply Parses_bind; [by apply Parses_string|].
  eapply Parses_bind_nil; [by apply Parses_f32|]. rewrite Hfin, Hpos. apply Parses_ret.
Qed.
Lemma filter_field_type_tame c : tame (filter_field_type c).
Proof. unfold filter_field_type. by repeat case_if. Qed.
#[export] Hint Resolve filter_field_type_tame Spec_u64_usize Spec_rules Spec_field_config Parses_field_config : wire.
Lemma Spec_filter_field :
  Spec decode_filter_field_config (λ bs f, bs = enc_filter_field f ∧ filter_field_ok f).
Proof.
  unfold decode_filter_field_config. repeat spec1. unfold filter_field_type in *.
  match goal with H : context [?a =? 0] |- _ =>
    destruct (N.eqb_spec a 0); [|destruct (N.eqb_spec a 1); [|destruct (N.eqb_spec a 2)]]; simplify_eq end;
    by rewrite !app_nil_r.
Qed.
Lemma Parses_filter_field f :
  filter_field_ok f → Parses decode_filter_field_config (enc_filter_field f) f.
Proof.
  destruct f as [n t]. unfold filter_field_ok, decode_filter_field_config, enc_filter_field. intros Hn.
  cbn [FilterFieldConfig.name FilterFieldConfig.field_type] in *. eapply Parses_bind; [by apply Parses_string|].
  eapply Parses_bind_nil; [apply Parses_u8; by destruct t|].
  eapply Parses_nil_bind; [apply (Parses_lift _ t); by destruct t | apply Parses_ret].
Qed.
#[export] Hint Resolve Spec_filter_field Parses_filter_field : wire.

Ltac identity_cbn :=
  cbn [EngineIdentityConfig.index_id EngineIdentityConfig.generation EngineIdentityConfig.fields
       EngineIdentityConfig.analyzer EngineIdentityConfig.stop_words EngineIdentityConfig.positions
       EngineIdentityConfig.surface_terms EngineIdentityConfig.synonyms EngineIdentityConfig.filter_fields] in *.

Lemma Spec_identity : Spec decode_engine_identity_config (λ bs c, bs = enc_identity c ∧ identity_wire_ok c).
Proof.
  unfold decode_engine_identity_config.
  repeat first [ eapply Spec_bind; [apply Spec_list; solve [eauto 2 with wire] | spec_pre] | spec1 ].
  unfold identity_wire_ok, enc_identity. identity_cbn. b2p. rewrite !app_nil_r.
  split; [done|]. split_and!; try done; lia.
Qed.

Lemma Parses_identity c :
  identity_wire_ok c → sum (rule_size <$> c.(EngineIdentityConfig.synonyms)) <= MAX_SYNONYM_BYTES →
  Parses decode_engine_identity_config (enc_identity c) c.
Proof.
  destruct c as [id gen fs an sw po su sy ff]. intros (Hid & Hgen & Han & Hsl & Hsy & Hfl & Hfs & Hgl & Hff) Hs.
  unfold decode_engine_identity_config, enc_identity, MAX_SYNONYM_RULES, MAX_FIELDS in *. identity_cbn.
  do 3 (eapply Parses_bind; [by apply Parses_string|]). do 3 (eapply Parses_bind; [apply Parses_boolean|]).
  eapply Parses_bind; [apply Parses_u16; unfold u16_ok; lia|].
  destruct (N.ltb_spec 1024 (lenN sy)); [lia|].
  eapply Parses_bind; [by apply Parses_rules|].
  eapply Parses_bind; [apply Parses_u16; unfold u16_ok; lia|].
  destruct (N.eqb_spec (lenN fs) 0); [lia|]. destruct (N.ltb_spec 1024 (lenN fs)); [lia|]. cbn [orb].
  eapply Parses_bind; [apply Parses_list; eapply Forall_impl; [done|]; auto with wire|].
  eapply Parses_bind; [apply Parses_u16; unfold u16_ok; lia|].
  destruct (N.ltb_spec 1024 (lenN ff)); [lia|].
  eapply Parses_bind_nil; [apply Parses_list; eapply Forall_impl; [done|]; auto with wire | apply Parses_ret].
Qed.
#[export] Hint Resolve Spec_identity Parses_identity : wire.

Lemma Spec_query_limits :
  Spec decode_query_limits (λ bs q, query_limits_bytes q.1 q.2 bs ∧ u32_ok q.1 ∧ u32_ok q.2).
Proof.
  unfold decode_query_limits, query_limits_bytes. repeat spec1; cbn [fst snd].
  - rewrite app_nil_r. auto.
  - split; [by right | done].
Qed.

Lemma Reads_query_limits t c bs :
  query_limits_bytes t c bs → u32_ok t → u32_ok c → Reads decode_query_limits bs [] (t, c).
Proof.
  intros Hb Ht Hc pre Hf. unfold decode_query_limits. erewrite M_bind_step by (by apply get_remaining_at).
  destruct Hb as [->|(-> & -> & ->)].
  - rewrite lenN_app, lenN_app, !lenN_enc_u32. cbn [N.eqb negb]. 
    revert pre Hf. apply Parses_Reads.
    eapply Parses_bind; [by apply Parses_u32|]. eapply Parses_bind_nil; [by apply Parses_u32 | apply Parses_ret].
  - by rewrite !app_nil_r.
Qed.
#[export] Hint Resolve Spec_query_limits : wire.

Definition engine_wire_ok (c : EngineConfig.t) : Prop :=
  identity_wire_ok c.(EngineConfig.identity) ∧ limits_wire_ok c.(EngineConfig.limits).

Lemma Spec_engine_config :
  Spec decode_engine_config (λ bs c, engine_bytes c bs ∧ engine_wire_ok c ∧ config_ok c).
Proof.
  unfold decode_engine_config. do 7 spec1.
  eapply Spec_bind; [apply Spec_query_limits|]. intros tail [t cl] (Hq & Ht & Hcl). cbn [fst snd] in *.
  eapply Spec_weaken; [apply Spec_pure; auto with wire|]. intros ? c [-> [-> Hc]%validate_config_Ok].
  split; [|split; [|done]].
  - exists tail. split; [done|]. unfold enc_limits.
    cbn [EngineConfig.identity EngineConfig.limits Limits.indexing_threads Limits.search_threads
      Limits.writer_memory_bytes Limits.max_queued_commands Limits.max_queued_bytes Limits.max_batch_bytes].
    by rewrite app_nil_r, <- !app_assoc.
  - split; [done|]. unfold limits_wire_ok; cbn. done.
Qed.

Lemma Reads_engine_config c bs :
  engine_bytes c bs → engine_wire_ok c → config_ok c → Reads decode_engine_config bs [] c.
Proof.
  intros (tail & Hq & ->) [Hi Hl] Hc. pose proof Hc as [(_ & _ & _ & _ & _ & Hs & _) _].
  destruct c as [i l]. cbn [EngineConfig.identity EngineConfig.limits] in *. destruct l as [mt mc it st wm qc qb mb].
  destruct Hl as (H1 & H2 & H3 & H4 & H5 & H6 & H7 & H8).
  unfold enc_limits, decode_engine_config.
  cbn [Limits.max_query_terms Limits.max_query_clauses Limits.indexing_threads Limits.search_threads
    Limits.writer_memory_bytes Limits.max_queued_commands Limits.max_queued_bytes Limits.max_batch_bytes] in *.
  rewrite <- !app_assoc.
  eapply Reads_parse; [by apply Parses_identity|]. do 2 (eapply Reads_parse; [by apply Parses_u16|]).
  eapply Reads_parse; [by apply Parses_u64_usize|]. eapply Reads_parse; [by apply Parses_u32|].
  do 2 (eapply Reads_parse; [by apply Parses_u64_usize|]).
  rewrite <- (app_nil_r tail). eapply Reads_bind; [by apply Reads_query_limits|].
  apply Parses_Reads, Parses_lift. by apply validate_config_Ok.
Qed.

(** ** Opening *)
Definition open_ok (c : NativeOpenConfig.t) : Prop :=
  str_ok c.(NativeOpenConfig.path) ∧ 0 < lenN c.(NativeOpenConfig.path)
  ∧ engine_wire_ok c.(NativeOpenConfig.engine) ∧ config_ok c.(NativeOpenConfig.engine).
Definition open_bytes (c : NativeOpenConfig.t) (bs : bytes) : Prop :=
  ∃ engine, engine_bytes c.(NativeOpenConfig.engine) engine
  ∧ bs = enc_header FTOP ++ enc_str c.(NativeOpenConfig.path) ++ engine.

(** C25: Opening an index: an FTOP frame decodes exactly when it is an encoding of a
    configuration that satisfies every identity, synonym, field and resource
    limit ([config_ok]); everything else is rejected with E_INVALID_ARGUMENT and
    nothing panics, the division by the thread count included. *)
Theorem decode_open_iff bs c :
  fits bs → tame (decode_open bs) ∧ (decode_open bs = Ok c ↔ open_ok c ∧ open_bytes c bs).
Proof.
  intros Hf. unfold decode_open. set (body := mbind _ _).
  assert (Spec body (λ bs c, open_ok c ∧ ∃ e, engine_bytes c.(NativeOpenConfig.engine) e
    ∧ bs = enc_str c.(NativeOpenConfig.path) ++ e)) as Hs.
  { subst body. spec1. eapply Spec_bind; [apply Spec_pure; auto with wire|]. intros ? p [-> [-> Hp]%validate_path_Ok].
    eapply Spec_bind; [apply Spec_engine_config|]. intros e eng (He & Hw & Hc). apply Spec_ret.
    rewrite !app_nil_r. split; [done|]. by exists e. }
  pose proof (decode_frame_sound FTOP body Ok eq_refl _ bs Hs (λ _ _ _, I) Hf) as H.
  split; [unfold tame; by destruct (decode_frame _ _ _ _)|]. split.
  - intros E. rewrite E in H. destruct H as (bs' & c' & -> & (Hok & e & He & ->) & [= ->]). split; [done|]. by exists e.
  - intros [(Hp & Hpos & Hw & Hc) (e & He & ->)]. apply (decode_frame_complete FTOP body Ok eq_refl _ c c); [|done..].
    subst body. destruct c as [p eng]; cbn [NativeOpenConfig.path NativeOpenConfig.engine] in *.
    eapply Reads_parse; [by apply Parses_string|].
    eapply (Reads_parse _ _ []); [by apply Parses_lift, validate_path_Ok|].
    rewrite <- (app_nil_r e). eapply Reads_bind; [by apply Reads_engine_config | apply Reads_ret].
Qed.

(** ** Inspecting *)
Definition inspect_ok (c : NativeInspectConfig.t) : Prop :=
  str_ok c.(NativeInspectConfig.path) ∧ 0 < lenN c.(NativeInspectConfig.path)
  ∧ identity_wire_ok c.(NativeInspectConfig.identity) ∧ identity_ok c.(NativeInspectConfig.identity).

(** Inspecting an index: FTIP frames are canonical, and are accepted exactly for
    valid paths and identities. *)
Theorem decode_inspect_iff bs c :
  fits bs → tame (decode_inspect bs)
  ∧ (decode_inspect bs = Ok c ↔ inspect_ok c
     ∧ bs = enc_header FTIP ++ enc_str c.(NativeInspectConfig.path) ++ enc_identity c.(NativeInspectConfig.identity)).
Proof.
  intros Hf. unfold decode_inspect. set (body := mbind _ _). set (check := λ _, _).
  assert (Spec body (λ bs c, (str_ok c.(NativeInspectConfig.path) ∧ 0 < lenN c.(NativeInspectConfig.path)
    ∧ identity_wire_ok c.(NativeInspectConfig.identity))
    ∧ bs = enc_str c.(NativeInspectConfig.path) ++ enc_identity c.(NativeInspectConfig.identity))) as Hs.
  { subst body. spec1. eapply Spec_bind; [apply Spec_pure; auto with wire|]. intros ? p [-> [-> Hp]%validate_path_Ok].
    spec1. apply Spec_ret. by rewrite !app_nil_r. }
  assert (∀ c, tame (check c)) as Ht by (intros; apply tame_bind; [apply validate_identity_config_tame | done]).
  pose proof (decode_frame_sound FTIP body check eq_refl _ bs Hs (λ _ c _, Ht c) Hf) as H.
  split; [unfold tame; by destruct (decode_frame _ _ _ _)|]. unfold inspect_ok. split.
  - intros E. rewrite E in H. destruct H as (bs' & c' & -> & ((Hp & Hpos & Hw) & ->) & Hc). subst check.
    cbn beta in Hc. apply bind_unit in Hc as [Hi%validate_identity_config_Ok [= ->]]. done.
  - intros [(Hp & Hpos & Hw & Hc) ->]. apply (decode_frame_complete FTIP body check eq_refl _ c c); [| |done].
    + subst body. destruct c as [p i]; cbn [NativeInspectConfig.path NativeInspectConfig.identity] in *.
      apply Parses_Reads. eapply Parses_bind; [by apply Parses_string|].
      eapply Parses_nil_bind; [by apply Parses_lift, validate_path_Ok|].
      eapply Parses_bind_nil; [apply Parses_identity; [done | apply Hc] | apply Parses_ret].
    + subst check. cbn beta. apply bind_unit. by rewrite validate_identity_config_Ok.
Qed.

(** ** Resetting, and the runtime budget *)
Definition reset_ok (c : NativeResetConfig.t) : Prop :=
  str_ok c.(NativeResetConfig.path) ∧ 0 < lenN c.(NativeResetConfig.path)
  ∧ str_ok c.(NativeResetConfig.index_id) ∧ 0 < lenN c.(NativeResetConfig.index_id).
Definition enc_reset (c : NativeResetConfig.t) : bytes :=
  enc_header FTRX ++ enc_str c.(NativeResetConfig.path) ++ enc_str c.(NativeResetConfig.index_id).

Definition budget_fields (l : RuntimeBudgetLimits.t) : list N :=
  [ l.(RuntimeBudgetLimits.max_resident_indexes); l.(RuntimeBudgetLimits.max_indexing_threads);
    l.(RuntimeBudgetLimits.max_search_threads); l.(RuntimeBudgetLimits.max_writer_memory_bytes);
    l.(RuntimeBudgetLimits.max_queued_bytes); l.(RuntimeBudgetLimits.max_expensive_searches) ].
Definition runtime_budget_ok (l : RuntimeBudgetLimits.t) : Prop :=
  Forall (λ n, 0 < n) (budget_fields l)
  ∧ u32_ok l.(RuntimeBudgetLimits.max_resident_indexes) ∧ u32_ok l.(RuntimeBudgetLimits.max_indexing_threads)
  ∧ u32_ok l.(RuntimeBudgetLimits.max_search_threads) ∧ u64_ok l.(RuntimeBudgetLimits.max_writer_memory_bytes)
  ∧ u64_ok l.(RuntimeBudgetLimits.max_queued_bytes) ∧ u32_ok l.(RuntimeBudgetLimits.max_expensive_searches).
Definition enc_runtime_budget (l : RuntimeBudgetLimits.t) : bytes :=
  enc_header FTGC ++ enc_u32 l.(RuntimeBudgetLimits.max_resident_indexes)
  ++ enc_u32 l.(RuntimeBudgetLimits.max_indexing_threads) ++ enc_u32 l.(RuntimeBudgetLimits.max_search_threads)
  ++ enc_u64 l.(RuntimeBudgetLimits.max_writer_memory_bytes) ++ enc_u64 l.(RuntimeBudgetLimits.max_queued_bytes)
  ++ enc_u32 l.(RuntimeBudgetLimits.max_expensive_searches).

Lemma decode_reset_cases bs c :
  fits bs → tame (decode_reset bs) ∧ (decode_reset bs = Ok c ↔ reset_ok c ∧ bs = enc_reset c).
Proof.
  intros Hf. unfold decode_reset. set (body := mbind _ _). set (check := λ _, _).
  assert (Spec body (λ bs c, (str_ok c.(NativeResetConfig.path) ∧ 0 < lenN c.(NativeResetConfig.path)
    ∧ str_ok c.(NativeResetConfig.index_id))
    ∧ bs = enc_str c.(NativeResetConfig.path) ++ enc_str c.(NativeResetConfig.index_id))) as Hs.
  { subst body. spec1. eapply Spec_bind; [apply Spec_pure; auto with wire|]. intros ? p [-> [-> Hp]%validate_path_Ok].
    spec1. apply Spec_ret. by rewrite !app_nil_r. }
  assert (∀ c, tame (check c)) as Ht by (intros; subst check; cbn beta; by case_if).
  pose proof (decode_frame_sound FTRX body check eq_refl _ bs Hs (λ _ c _, Ht c) Hf) as H.
  split; [unfold tame; by destruct (decode_frame _ _ _ _)|]. unfold reset_ok, enc_reset. split.
  - intros E. rewrite E in H. destruct H as (bs' & c' & -> & ((Hp & Hpos & Hw) & ->) & Hc). subst check.
    cbn beta in Hc. destruct (N.eqb_spec (lenN (NativeResetConfig.index_id c')) 0); [done|].
    injection Hc as ->. split_and!; try done. lia.
  - intros [(Hp & Hpos & Hw & Hc) ->]. apply (decode_frame_complete FTRX body check eq_refl _ c c); [| |done].
    + subst body. destruct c as [p i]; cbn [NativeResetConfig.path NativeResetConfig.index_id] in *.
      apply Parses_Reads. eapply Parses_bind; [by apply Parses_string|].
      eapply Parses_nil_bind; [by apply Parses_lift, validate_path_Ok|].
      eapply Parses_bind_nil; [by apply Parses_string | apply Parses_ret].
    + subst check. cbn beta. destruct (N.eqb_spec (lenN (NativeResetConfig.index_id c)) 0); [lia | done].
Qed.

Lemma runtime_budget_test l :
  (l.(RuntimeBudgetLimits.max_resident_indexes) =? 0)
  || (l.(RuntimeBudgetLimits.max_indexing_threads) =? 0)
  || (l.(RuntimeBudgetLimits.max_search_threads) =? 0)
  || (l.(RuntimeBudgetLimits.max_writer_memory_bytes) =? 0)
  || (l.(RuntimeBudgetLimits.max_queued_bytes) =? 0)
  || (l.(RuntimeBudgetLimits.max_expensive_searches) =? 0) = false
  ↔ Forall (λ n, 0 < n) (budget_fields l).
Proof.
  unfold budget_fields. rewrite !Forall_cons, !orb_false_iff, !N.eqb_neq.
  split; [intros; destruct_and?; split_and!; try lia; constructor | intros; destruct_and?; split_and!; lia].
Qed.

Lemma decode_runtime_budget_cases bs l :
  fits bs → tame (decode_runtime_budget bs)
  ∧ (decode_runtime_budget bs = Ok l ↔ runtime_budget_ok l ∧ bs = enc_runtime_budget l).
Proof.
  intros Hf. unfold decode_runtime_budget. set (body := mbind _ _). set (check := λ _, _).
  assert (Spec body (λ bs l, (u32_ok l.(RuntimeBudgetLimits.max_resident_indexes)
    ∧ u32_ok l.(RuntimeBudgetLimits.max_indexing_threads)
    ∧ u32_ok l.(RuntimeBudgetLimits.max_search_threads) ∧ u64_ok l.(RuntimeBudgetLimits.max_writer_memory_bytes)
    ∧ u64_ok l.(RuntimeBudgetLimits.max_queued_bytes) ∧ u32_ok l.(RuntimeBudgetLimits.max_expensive_searches))
    ∧ enc_header FTGC ++ bs = enc_runtime_budget l)) as Hs.
  { subst body. repeat spec1. unfold enc_runtime_budget.
    cbn [RuntimeBudgetLimits.max_resident_indexes RuntimeBudgetLimits.max_indexing_threads
      RuntimeBudgetLimits.max_search_threads RuntimeBudgetLimits.max_writer_memory_bytes
      RuntimeBudgetLimits.max_queued_bytes RuntimeBudgetLimits.max_expensive_searches].
    by rewrite !app_nil_r. }
  assert (∀ c, tame (check c)) as Ht by (intros; subst check; cbn beta; by case_if).
  pose proof (decode_frame_sound FTGC body check eq_refl _ bs Hs (λ _ c _, Ht c) Hf) as H.
  split; [unfold tame; by destruct (decode_frame _ _ _ _)|]. unfold runtime_budget_ok. split.
  - intros E. rewrite E in H. destruct H as (bs' & l' & -> & (Hp & ->) & Hc). subst check. cbn beta in Hc.
    destruct (_ || _) eqn:Ez in Hc; [done|]. injection Hc as ->. apply runtime_budget_test in Ez. done.
  - intros [(Hz & H1 & H2 & H3 & H4 & H5 & H6) ->]. apply runtime_budget_test in Hz.
    unfold enc_runtime_budget. apply (decode_frame_complete FTGC body check eq_refl _ l l); [| |done].
    + subst body. destruct l as [a b c d e f]. cbn [RuntimeBudgetLimits.max_resident_indexes RuntimeBudgetLimits.max_indexing_threads
      RuntimeBudgetLimits.max_search_threads RuntimeBudgetLimits.max_writer_memory_bytes
      RuntimeBudgetLimits.max_queued_bytes RuntimeBudgetLimits.max_expensive_searches] in *.
      apply Parses_Reads. do 3 (eapply Parses_bind; [by apply Parses_u32|]).
      do 2 (eapply Parses_bind; [by apply Parses_u64_usize|]).
      eapply Parses_bind_nil; [by apply Parses_u32 | apply Parses_ret].
    + subst check. cbn beta. by rewrite Hz.
Qed.

(** Resetting an index and setting the runtime budget: FTRX and FTGC frames are
    canonical, accepted exactly for non-empty paths and identifiers,
    respectively for six positive limits, and never make the decoder panic. *)
Theorem decode_small_frames_iff bs :
  fits bs →
  (tame (decode_reset bs) ∧ ∀ c, decode_reset bs = Ok c ↔ reset_ok c ∧ bs = enc_reset c)
  ∧ (tame (decode_runtime_budget bs)
     ∧ ∀ l, decode_runtime_budget bs = Ok l ↔ runtime_budget_ok l ∧ bs = enc_runtime_budget l).
Proof.
  intros Hf. split; split; intros; apply decode_reset_cases || apply decode_runtime_budget_cases;
    try exact Hf; exact (NativeResetConfig.mk [] []) || exact (RuntimeBudgetLimits.mk 0 0 0 0 0 0).
Qed.

(** ** Concrete frames *)
Definition sample_identity : EngineIdentityConfig.t :=
  EngineIdentityConfig.mk (magic "products") (magic "g1") [FieldConfig.mk (magic "title") F32_ONE] (magic "english@2")
    true true false [SynonymRule.mk (magic "sneaker") [magic "shoe"; magic "trainer"]]
    [FilterFieldConfig.mk (magic "price") FilterFieldType.Number].
Definition sample_config : EngineConfig.t :=
  EngineConfig.mk sample_identity (Limits.mk 64 256 2 4 64000000 128 1048576 65536).
Definition sample_open : NativeOpenConfig.t := NativeOpenConfig.mk (magic "/var/index") sample_config.
(** The frame without the optional query limits. *)
Definition sample_open_frame : bytes :=
  enc_header FTOP ++ enc_str (magic "/var/index") ++ enc_identity sample_identity
  ++ enc_limits sample_config.(EngineConfig.limits).

Lemma decode_open_iff_witness : decode_open sample_open_frame = Ok sample_open ∧ open_ok sample_open.
Proof.
  assert (fits sample_open_frame) as Hf by (vm_compute; discriminate).
  assert (decode_open sample_open_frame = Ok sample_open) as E by (vm_compute; reflexivity).
  split; [exact E|]. exact (proj1 (proj1 (proj2 (decode_open_iff sample_open_frame sample_open Hf)) E)).
Defined.
Definition sample_inspect : NativeInspectConfig.t := NativeInspectConfig.mk (magic "/var/index") sample_identity.
Definition sample_inspect_frame : bytes :=
  enc_header FTIP ++ enc_str (magic "/var/index") ++ enc_identity sample_identity.
Lemma decode_inspect_iff_witness : decode_inspect sample_inspect_frame = Ok sample_inspect ∧ inspect_ok sample_inspect.
Proof.
  assert (fits sample_inspect_frame) as Hf by (vm_compute; discriminate).
  assert (decode_inspect sample_inspect_frame = Ok sample_inspect) as E by (vm_compute; reflexivity).
  split; [exact E|]. exact (proj1 (proj1 (proj2 (decode_inspect_iff sample_inspect_frame sample_inspect Hf)) E)).
Defined.
Definition sample_reset : NativeResetConfig.t := NativeResetConfig.mk (magic "/var/index") (magic "products").
Lemma decode_small_frames_iff_witness : decode_reset (enc_reset sample_reset) = Ok sample_reset ∧ reset_ok sample_reset.
Proof.
  assert (fits (enc_reset sample_reset)) as Hf by (vm_compute; discriminate).
  assert (decode_reset (enc_reset sample_reset) = Ok sample_reset) as E by (vm_compute; reflexivity).
  split; [exact E|].
  exact (proj1 (proj1 (proj2 (proj1 (decode_small_frames_iff (enc_reset sample_reset) Hf)) sample_reset) E)).
Defined.
