(* ===== verification/Results.v ===== *)
(** * src/src/catalog.rs: aggregation results, and bounded counters

    The response encoder, the shape check and the bucket counts of
    src/src/catalog.rs all walk a tree, add to counters and stop at a limit.
    A [Meter] is the state they add to; [Accumulates m c P] says that from every
    state within the limits [m] adds exactly [c] when [P] holds and the result
    is still within the limits, and otherwise fails with a resource error. *)
From S2P Require Import Prelude.
From S2P Require Import Errors.
From S2P Require Import Bytes.
From S2P Require Import Wire.
From S2P Require Import Request.
From S2P Require Import Structure.
From S2P Require Import Expression.
From S2P Require Import Catalog.
From S2P Require Import Frame.
Local Open Scope N_scope.

Class Meter (S : Type) := {
  m_op : S → S → S;
  m_unit : S;
  m_ok : S → Prop;
  m_assoc x y z : m_op x (m_op y z) = m_op (m_op x y) z;
  m_left x : m_op m_unit x = x;
  m_right x : m_op x m_unit = x;
  m_prefix x y : m_ok (m_op x y) → m_ok x }.

(** Failing with a resource error, never panicking. *)
Definition graceful {A} (r : outcome A) : Prop :=
  match r with
  | Ok _ => True
  | Err e => code e = "E_RESOURCE_LIMIT"%string ∨ code e = "E_RESULT_TOO_LARGE"%string
  | Panic | Fuel => False
  end.

Section Accumulates.
Context {S : Type} `{!Meter S}.
Implicit Types (m : M S ()) (c s : S) (P : Prop).

Definition Accumulates m c P : Prop :=
  ∀ s, m_ok s → graceful (m s) ∧ ∀ s', m s = Ok ((), s') ↔ P ∧ m_ok (m_op s c) ∧ s' = m_op s c.

Lemma Acc_equiv m c P c' P' : Accumulates m c P → c = c' → (P ↔ P') → Accumulates m c' P'.
Proof. intros H -> HP s Hs. destruct (H s Hs) as [? Hr]. split; [done|]. intros s'. by rewrite Hr, HP. Qed.

Lemma Acc_ext m m' c P : (∀ s, m s = m' s) → Accumulates m' c P → Accumulates m c P.
Proof. intros E H s Hs. rewrite E. by apply H. Qed.

Lemma Acc_bind m k c1 P1 c2 P2 :
  Accumulates m c1 P1 → Accumulates (k ()) c2 P2 → Accumulates (mbind k m) (m_op c1 c2) (P1 ∧ P2).
Proof.
  intros Hm Hk s Hs. destruct (Hm s Hs) as [Hg Hr]. split.
  - cbv [mbind M_bind]. destruct (m s) as [[[] s1]|?| |] eqn:E; [|done..].
    destruct (proj1 (Hr s1) eq_refl) as (_ & Hok & ->). by apply Hk.
  - intros s'. rewrite M_bind_unit. setoid_rewrite Hr. rewrite m_assoc. split.
    + intros (s1 & (HP1 & Hok & ->) & H). apply (Hk _ Hok) in H as (HP2 & Hok2 & ->). done.
    + intros ((HP1 & HP2) & Hok & ->). pose proof (m_prefix _ _ Hok) as Hok1.
      eexists. split; [by split_and!|]. by apply (Hk _ Hok1).
Qed.

Lemma Acc_ret : Accumulates (mret ()) m_unit True.
Proof. intros s Hs. split; [done|]. intros s'. rewrite m_right. split; [intros [= <-]; done | by intros (_ & _ & ->)]. Qed.

Lemma Acc_check (r : outcome ()) P : graceful r → (r = Ok () ↔ P) → Accumulates (lift r) m_unit P.
Proof.
  intros Hg HP s Hs. rewrite m_right. unfold lift. split; [by destruct r as [[]| | |]|].
  intros s'. rewrite <- HP. destruct r as [[]| | |]; (split; [intros [=] | intros (? & _ & ->)]); by simplify_eq.
Qed.

(** A checked value used by the rest. *)
Lemma Acc_value {A} (r : outcome A) (a : A) k c P Q :
  graceful r → (∀ b, r = Ok b ↔ Q ∧ b = a) → (Q → Accumulates (k a) c P) → Accumulates (mbind k (lift r)) c (Q ∧ P).
Proof.
  intros Hg HQ Hk s Hs. cbv [mbind M_bind lift]. destruct r as [b|e| |]; [| |done..].
  - destruct (proj1 (HQ b) eq_refl) as [HQ' ->]. destruct (Hk HQ' s Hs) as [? Hr]. split; [done|].
    intros s'. rewrite Hr. tauto.
  - split; [exact Hg|]. intros s'. split; [done|]. intros ((Q' & _) & _). by pose proof (proj2 (HQ a) (conj Q' eq_refl)).
Qed.

Definition m_concat (l : list S) : S := foldr m_op m_unit l.

Lemma Acc_fold {A} (f : A → M S ()) (cost : A → S) (P : A → Prop) l :
  Forall (λ a, Accumulates (f a) (cost a) (P a)) l →
  Accumulates (foldM (λ _ a, f a) () l) (m_concat (cost <$> l)) (Forall P l).
Proof.
  induction 1 as [|a l Ha Hl IH]; cbn [foldM fmap list_fmap m_concat foldr].
  - eapply Acc_equiv; [apply Acc_ret | done|]. split; [constructor | done].
  - eapply Acc_equiv; [eapply Acc_bind; [exact Ha | exact IH] | done|]. by rewrite Forall_cons.
Qed.

(** From the unit: what a whole run returns. *)
Lemma Acc_run m c P : Accumulates m c P → m_ok m_unit →
  graceful (m m_unit) ∧ ∀ s', m m_unit = Ok ((), s') ↔ P ∧ m_ok c ∧ s' = c.
Proof. intros H Hu. destruct (H m_unit Hu) as [? Hr]. split; [done|]. intros s'. by rewrite Hr, m_left. Qed.
End Accumulates.

(** * src/src/catalog.rs: aggregation results and their response encoding

    [Encoder] appends to a buffer that never exceeds 8 MiB; the recursive
    [encode_aggregation_level] also bounds the nesting and the number of
    buckets.  The state is the buffer and the bucket total ([&mut usize]). *)
Definition MAX_AGGREGATION_BUCKETS : N := 1024.
Definition MAX_AGGREGATION_RESULT_BYTES : N := 8 * 1024 * 1024.

Definition resource (message : string) : FulltextError := FulltextError_new "E_RESOURCE_LIMIT" message.
Definition check_aggregation_depth (depth : N) : outcome () :=
  if MAX_AGGREGATION_DEPTH <? depth
  then Err (resource "Aggregation nesting exceeds stack safety depth budget") else Ok ().

(** The bucket structs, over the type of the nested results. *)
Module TermBucket.
Record t (A : Type) := mk { key : bytes; count : N; aggregations : list A }.
End TermBucket.
Module NumericBucket.
Record t (A : Type) := mk { key : f64; count : N; aggregations : list A }.
End NumericBucket.
Module RangeBucket.
Record t (A : Type) := mk { key : bytes; from : option f64; to : option f64; count : N; aggregations : list A }.
End RangeBucket.
Arguments TermBucket.mk {A}. Arguments TermBucket.key {A}. Arguments TermBucket.count {A}.
Arguments TermBucket.aggregations {A}.
Arguments NumericBucket.mk {A}. Arguments NumericBucket.key {A}. Arguments NumericBucket.count {A}.
Arguments NumericBucket.aggregations {A}.
Arguments RangeBucket.mk {A}. Arguments RangeBucket.key {A}. Arguments RangeBucket.from {A}.
Arguments RangeBucket.to {A}. Arguments RangeBucket.count {A}. Arguments RangeBucket.aggregations {A}.

Module AggregationValue.
Inductive t (A : Type) :=
| Terms (buckets : list (TermBucket.t A)) (sum_other_doc_count : N) (doc_count_error_upper_bound : option N)
| Stats (count : N) (sum : f64) (min max avg : option f64)
| Histogram (buckets : list (NumericBucket.t A))
| Range (buckets : list (RangeBucket.t A)).
End AggregationValue.
Arguments AggregationValue.Terms {A}. Arguments AggregationValue.Stats {A}.
Arguments AggregationValue.Histogram {A}. Arguments AggregationValue.Range {A}.

Module AggregationResult.
Inductive t := mk (name : bytes) (value : AggregationValue.t t).
Definition name (r : t) : bytes := let 'mk n _ := r in n.
End AggregationResult.

(** ** The encoder *)
Module Encoder.
Definition bytes (bs : Bytes.bytes) : M Bytes.bytes () := λ w,
  room ← usize_sub MAX_AGGREGATION_RESULT_BYTES (lenN w);
  if room <? lenN bs
  then Err (FulltextError_new "E_RESULT_TOO_LARGE" "Aggregation response exceeds byte budget")
  else Ok ((), w ++ bs).
(** [u32::try_from(n)] *)
Definition u32_from (n : N) (message : string) : outcome N :=
  if n <=? U32_MAX then Ok n else Err (resource message).
Definition string (s : Bytes.bytes) : M Bytes.bytes () :=
  len ← lift (u32_from (lenN s) "Aggregation key too large");
  _ ← bytes (le_split 4 len);
  bytes s.
Definition count (n : N) : M Bytes.bytes () := bytes (le_split 8 n).
Definition number (n : f64) : M Bytes.bytes () :=
  if negb (f64_is_finite n) then fail_with (resource "Aggregation numeric result is not finite")
  else bytes (le_split 8 n).
(** [u8::from(n.is_some())] *)
Definition flag {A} (o : option A) : Bytes.bytes := le_split 1 (match o with Some _ => 1 | None => 0 end).
Definition optional_number (n : option f64) : M Bytes.bytes () :=
  _ ← bytes (flag n);
  match n with Some n => number n | None => mret () end.
End Encoder.

Definition bucket_limit : FulltextError := resource "Aggregation result bucket limit exceeded".
(** [*total = total.checked_add(buckets)?; if *total > MAX_AGGREGATION_BUCKETS { .. }] *)
Definition add_buckets (buckets : N) : M N () := λ total,
  total ← ok_or (checked_add total buckets) bucket_limit;
  if MAX_AGGREGATION_BUCKETS <? total then Err bucket_limit else Ok ((), total).

Definition kind_and_buckets {A} (v : AggregationValue.t A) : N * N :=
  match v with
  | AggregationValue.Terms buckets _ _ => (0, lenN buckets)
  | AggregationValue.Stats _ _ _ _ _ => (1, 0)
  | AggregationValue.Histogram buckets => (2, lenN buckets)
  | AggregationValue.Range buckets => (3, lenN buckets)
  end.

Section Level.
Context {A : Type} (encode_result : N → A → M (bytes * N) ()).
(** The depth check, the count and the loop of [encode_aggregation_level]. *)
Definition encode_level (depth : N) (results : list A) : M (bytes * N) () :=
  _ ← lift (if bool_decide (results = []) then Ok () else check_aggregation_depth depth);
  count ← lift (Encoder.u32_from (lenN results) "Aggregation result count exceeds byte budget");
  _ ← on_fst (Encoder.bytes (le_split 4 count));
  foldM (λ _ result, encode_result depth result) () results.
End Level.

(** The body of that loop. *)
Fixpoint encode_result (depth : N) (result : AggregationResult.t) : M (bytes * N) () :=
  let 'AggregationResult.mk name value := result in
  let '(kind, buckets) := kind_and_buckets value in
  _ ← on_snd (add_buckets buckets);
  _ ← on_fst (Encoder.string name);
  _ ← on_fst (Encoder.bytes (le_split 1 kind));
  _ ← (if negb (kind =? 1) then on_fst (Encoder.bytes (le_split 4 buckets)) else mret ());
  match value with
  | AggregationValue.Terms buckets sum_other_doc_count doc_count_error_upper_bound =>
      _ ← foldM (λ _ b,
            _ ← on_fst (Encoder.string b.(TermBucket.key));
            _ ← on_fst (Encoder.count b.(TermBucket.count));
            encode_level encode_result (depth + 1) b.(TermBucket.aggregations)) () buckets;
      _ ← on_fst (Encoder.count sum_other_doc_count);
      _ ← on_fst (Encoder.bytes (Encoder.flag doc_count_error_upper_bound));
      match doc_count_error_upper_bound with Some n => on_fst (Encoder.count n) | None => mret () end
  | AggregationValue.Stats count sum min max avg =>
      _ ← on_fst (Encoder.count count);
      _ ← on_fst (Encoder.number sum);
      _ ← on_fst (Encoder.optional_number min);
      _ ← on_fst (Encoder.optional_number max);
      on_fst (Encoder.optional_number avg)
  | AggregationValue.Histogram buckets =>
      foldM (λ _ b,
        _ ← on_fst (Encoder.number b.(NumericBucket.key));
        _ ← on_fst (Encoder.count b.(NumericBucket.count));
        encode_level encode_result (depth + 1) b.(NumericBucket.aggregations)) () buckets
  | AggregationValue.Range buckets =>
      foldM (λ _ b,
        _ ← on_fst (Encoder.string b.(RangeBucket.key));
        _ ← on_fst (Encoder.optional_number b.(RangeBucket.from));
        _ ← on_fst (Encoder.optional_number b.(RangeBucket.to));
        _ ← on_fst (Encoder.count b.(RangeBucket.count));
        encode_level encode_result (depth + 1) b.(RangeBucket.aggregations)) () buckets
  end.
Definition encode_aggregation_level : N → list AggregationResult.t → M (bytes * N) () := encode_level encode_result.

Definition encode_results (results : list AggregationResult.t) : outcome bytes :=
  match encode_aggregation_level 1 results ([], 0) with
  | Ok (_, (w, _)) => Ok w
  | Err e => Err e
  | Panic => Panic
  | Fuel => Fuel
  end.

(** ** The layout of a response *)
Section LevelSpec.
Context {A : Type}.
Definition enc_level (enc : A → bytes) (l : list A) : bytes := enc_u32 (lenN l) ++ concat (enc <$> l).
Definition level_ok (ok : N → A → Prop) (d : N) (l : list A) : Prop :=
  (l = [] ∨ d <= MAX_AGGREGATION_DEPTH) ∧ lenN l <= U32_MAX ∧ foldr and True (ok d <$> l).
End LevelSpec.

Definition nested {A} (v : AggregationValue.t A) : list (list A) :=
  match v with
  | AggregationValue.Terms bs _ _ => TermBucket.aggregations <$> bs
  | AggregationValue.Stats _ _ _ _ _ => []
  | AggregationValue.Histogram bs => NumericBucket.aggregations <$> bs
  | AggregationValue.Range bs => RangeBucket.aggregations <$> bs
  end.

Fixpoint enc_result (r : AggregationResult.t) : bytes :=
  let 'AggregationResult.mk name value := r in
  enc_str name ++
  match value with
  | AggregationValue.Terms bs other err =>
      enc_u8 0 ++ enc_u32 (lenN bs)
      ++ concat ((λ b, enc_str b.(TermBucket.key) ++ enc_u64 b.(TermBucket.count)
                       ++ enc_level enc_result b.(TermBucket.aggregations)) <$> bs)
      ++ enc_u64 other ++ enc_opt enc_u64 err
  | AggregationValue.Stats count sum min max avg =>
      enc_u8 1 ++ enc_u64 count ++ enc_u64 sum ++ enc_opt enc_u64 min ++ enc_opt enc_u64 max ++ enc_opt enc_u64 avg
  | AggregationValue.Histogram bs =>
      enc_u8 2 ++ enc_u32 (lenN bs)
      ++ concat ((λ b, enc_u64 b.(NumericBucket.key) ++ enc_u64 b.(NumericBucket.count)
                       ++ enc_level enc_result b.(NumericBucket.aggregations)) <$> bs)
  | AggregationValue.Range bs =>
      enc_u8 3 ++ enc_u32 (lenN bs)
      ++ concat ((λ b, enc_str b.(RangeBucket.key) ++ enc_opt enc_u64 b.(RangeBucket.from)
                       ++ enc_opt enc_u64 b.(RangeBucket.to) ++ enc_u64 b.(RangeBucket.count)
                       ++ enc_level enc_result b.(RangeBucket.aggregations)) <$> bs)
  end.
Definition enc_results : list AggregationResult.t → bytes := enc_level enc_result.

(** All buckets of a result, nested ones included. *)
Fixpoint bucket_total (r : AggregationResult.t) : N :=
  let 'AggregationResult.mk _ value := r in
  match value with
  | AggregationValue.Terms bs _ _ => lenN bs + sum ((λ b, sum (bucket_total <$> b.(TermBucket.aggregations))) <$> bs)
  | AggregationValue.Stats _ _ _ _ _ => 0
  | AggregationValue.Histogram bs => lenN bs + sum ((λ b, sum (bucket_total <$> b.(NumericBucket.aggregations))) <$> bs)
  | AggregationValue.Range bs => lenN bs + sum ((λ b, sum (bucket_total <$> b.(RangeBucket.aggregations))) <$> bs)
  end.

Definition finite_opt (o : option f64) : Prop := ∀ v, o = Some v → f64_is_finite v = true.
(** A result listed at nesting [d]: names and keys have 32-bit lengths, numbers
    are finite, and no non-empty level lies deeper than 32. *)
Fixpoint result_ok (d : N) (r : AggregationResult.t) : Prop :=
  let 'AggregationResult.mk name value := r in
  lenN name <= U32_MAX ∧
  match value with
  | AggregationValue.Terms bs _ _ =>
      foldr and True ((λ b, lenN b.(TermBucket.key) <= U32_MAX
                            ∧ level_ok result_ok (d + 1) b.(TermBucket.aggregations)) <$> bs)
  | AggregationValue.Stats _ sum min max avg =>
      f64_is_finite sum = true ∧ finite_opt min ∧ finite_opt max ∧ finite_opt avg
  | AggregationValue.Histogram bs =>
      foldr and True ((λ b, f64_is_finite b.(NumericBucket.key) = true
                            ∧ level_ok result_ok (d + 1) b.(NumericBucket.aggregations)) <$> bs)
  | AggregationValue.Range bs =>
      foldr and True ((λ b, lenN b.(RangeBucket.key) <= U32_MAX ∧ finite_opt b.(RangeBucket.from)
                            ∧ finite_opt b.(RangeBucket.to)
                            ∧ level_ok result_ok (d + 1) b.(RangeBucket.aggregations)) <$> bs)
  end.
Definition results_ok : list AggregationResult.t → Prop := level_ok result_ok 1.

(** Induction through the buckets. *)
Section Ind.
Context (P : AggregationResult.t → Prop)
  (HP : ∀ n v, Forall (Forall P) (nested v) → P (AggregationResult.mk n v)).
Fixpoint result_ind (r : AggregationResult.t) : P r :=
  let all := fix all (l : list AggregationResult.t) : Forall P l :=
    match l with [] => Forall_nil_2 _ | c :: l => Forall_cons_2 _ _ _ (result_ind c) (all l) end in
  match r with
  | AggregationResult.mk n v => HP n v
      match v as v return Forall (Forall P) (nested v) with
      | AggregationValue.Terms bs _ _ =>
          (fix go (bs : list (TermBucket.t AggregationResult.t)) : Forall (Forall P) (TermBucket.aggregations <$> bs) :=
             match bs return Forall (Forall P) (TermBucket.aggregations <$> bs) with [] => Forall_nil_2 _
             | b :: bs => Forall_cons_2 _ _ _ (all b.(TermBucket.aggregations)) (go bs) end) bs
      | AggregationValue.Stats _ _ _ _ _ => Forall_nil_2 _
      | AggregationValue.Histogram bs =>
          (fix go (bs : list (NumericBucket.t AggregationResult.t)) : Forall (Forall P) (NumericBucket.aggregations <$> bs) :=
             match bs return Forall (Forall P) (NumericBucket.aggregations <$> bs) with [] => Forall_nil_2 _
             | b :: bs => Forall_cons_2 _ _ _ (all b.(NumericBucket.aggregations)) (go bs) end) bs
      | AggregationValue.Range bs =>
          (fix go (bs : list (RangeBucket.t AggregationResult.t)) : Forall (Forall P) (RangeBucket.aggregations <$> bs) :=
             match bs return Forall (Forall P) (RangeBucket.aggregations <$> bs) with [] => Forall_nil_2 _
             | b :: bs => Forall_cons_2 _ _ _ (all b.(RangeBucket.aggregations)) (go bs) end) bs
      end
  end.
End Ind.

(** ** What a writer emits

    The meter of a response: the bytes written and the buckets counted. *)
#[export] Program Instance response_meter : Meter (bytes * N) := {|
  m_op x y := (x.1 ++ y.1, x.2 + y.2);
  m_unit := ([], 0);
  m_ok x := lenN x.1 <= MAX_AGGREGATION_RESULT_BYTES ∧ x.2 <= MAX_AGGREGATION_BUCKETS |}.
Next Obligation. intros [] [] []; cbn. by rewrite app_assoc, N.add_assoc. Qed.
Next Obligation. by intros []. Qed.
Next Obligation. intros []; cbn. by rewrite app_nil_r, N.add_0_r. Qed.
Next Obligation. intros [] []; cbn. rewrite lenN_app. lia. Qed.

(** Writing [enc] and counting [cost] buckets. *)
Definition Emits (m : M (bytes * N) ()) (enc : bytes) (cost : N) (P : Prop) : Prop := Accumulates m (enc, cost) P.

Lemma Emits_equiv m enc cost P enc' cost' P' :
  Emits m enc cost P → enc = enc' → cost = cost' → (P ↔ P') → Emits m enc' cost' P'.
Proof. intros H -> -> HP. by eapply Acc_equiv. Qed.
Lemma Emits_bind m k e1 c1 P1 e2 c2 P2 :
  Emits m e1 c1 P1 → Emits (k ()) e2 c2 P2 → Emits (mbind k m) (e1 ++ e2) (c1 + c2) (P1 ∧ P2).
Proof. exact (Acc_bind m k (e1, c1) P1 (e2, c2) P2). Qed.
Lemma Emits_ret : Emits (mret ()) [] 0 True.
Proof. exact Acc_ret. Qed.
Lemma Emits_check (r : outcome ()) P : graceful r → (r = Ok () ↔ P) → Emits (lift r) [] 0 P.
Proof. exact (Acc_check r P). Qed.

Lemma u32_from_graceful n m : graceful (Encoder.u32_from n m).
Proof. unfold Encoder.u32_from. case_if; [done | by left]. Qed.
Lemma u32_from_Ok n m k : Encoder.u32_from n m = Ok k ↔ n <= U32_MAX ∧ k = n.
Proof. unfold Encoder.u32_from. destruct (N.leb_spec n U32_MAX); split; intros; destruct_and?; simplify_eq; done || lia. Qed.
Lemma Emits_u32 n m k enc cost P :
  (n <= U32_MAX → Emits (k n) enc cost P) →
  Emits (mbind k (lift (Encoder.u32_from n m))) enc cost (n <= U32_MAX ∧ P).
Proof. intros H. eapply Acc_value; [apply u32_from_graceful | apply u32_from_Ok | exact H]. Qed.

Lemma Emits_bytes bs : Emits (on_fst (Encoder.bytes bs)) bs 0 True.
Proof.
  intros [w t] [Hw Ht]; cbn [fst snd] in *. unfold Encoder.bytes, usize_sub, checked_sub. cbv [on_fst].
  destruct (N.leb_spec (lenN w) MAX_AGGREGATION_RESULT_BYTES); [|lia]. cbn [unwrap mbind outcome_bind m_op m_ok response_meter fst snd].
  destruct (N.ltb_spec (MAX_AGGREGATION_RESULT_BYTES - lenN w) (lenN bs)); rewrite N.add_0_r, lenN_app.
  - split; [by right|]. split; [done | lia].
  - split; [done|]. intros s. split; [intros [= <-]; split_and!; (done || lia) | intros (_ & _ & ->); reflexivity].
Qed.

Lemma Emits_buckets n : Emits (on_snd (add_buckets n)) [] n True.
Proof.
  intros [w t] [Hw Ht]; cbn [fst snd] in *. unfold add_buckets, checked_add. cbv [on_snd].
  cbn [m_op m_ok response_meter fst snd]. rewrite app_nil_r. unfold MAX_AGGREGATION_BUCKETS in *.
  destruct (N.leb_spec (t + n) USIZE_MAX) as [H|H]; cbn [ok_or mbind outcome_bind].
  - destruct (N.ltb_spec 1024 (t + n)); [split; [by left|]; split; [done | lia]|]. split; [done|].
    intros s. split; [intros [= <-]; done | by intros (_ & _ & ->)].
  - split; [by left|]. unfold USIZE_MAX in H. split; [done | lia].
Qed.

Lemma m_concat_response {A} (enc : A → bytes) (cost : A → N) l :
  m_concat ((λ a, (enc a, cost a)) <$> l) = (concat (enc <$> l), sum (cost <$> l)).
Proof. induction l as [|a l IH]; [done|]. cbn [fmap list_fmap m_concat foldr]. unfold m_concat in IH. by rewrite IH. Qed.
Lemma Emits_fold {A} (f : A → M (bytes * N) ()) (enc : A → bytes) (cost : A → N) (P : A → Prop) l :
  Forall (λ a, Emits (f a) (enc a) (cost a) (P a)) l →
  Emits (foldM (λ _ a, f a) () l) (concat (enc <$> l)) (sum (cost <$> l)) (Forall P l).
Proof.
  intros H. eapply Acc_equiv; [apply (Acc_fold f (λ a, (enc a, cost a)) P), H | apply m_concat_response | done].
Qed.

(** ** The writers *)
Lemma on_fst_bind {S T A B} (m : M S A) (k : A → M S B) (s : S * T) :
  on_fst (mbind k m) s = mbind (λ a, on_fst (k a)) (on_fst m) s.
Proof. destruct s as [s t]. cbv [mbind M_bind on_fst]. by destruct (m s) as [[a s']| | |]. Qed.
Lemma Emits_ext m m' enc cost P : (∀ s, m s = m' s) → Emits m' enc cost P → Emits m enc cost P.
Proof. apply Acc_ext. Qed.

Lemma Emits_string s : Emits (on_fst (Encoder.string s)) (enc_str s) 0 (lenN s <= U32_MAX).
Proof.
  unfold Encoder.string. eapply Emits_ext; [intros; apply on_fst_bind|].
  eapply Emits_ext with (m' := mbind (λ n, on_fst (_ ← Encoder.bytes (le_split 4 n); Encoder.bytes s))
                                 (lift (Encoder.u32_from (lenN s) "Aggregation key too large"))).
  { intros [w t]. cbv [mbind M_bind on_fst lift]. by destruct (Encoder.u32_from _ _). }
  eapply Emits_equiv; [apply Emits_u32; intros _; eapply Emits_ext; [intros; apply on_fst_bind|];
    eapply Emits_bind; apply Emits_bytes | done | done | tauto].
Qed.
Lemma Emits_count n : Emits (on_fst (Encoder.count n)) (enc_u64 n) 0 True.
Proof. apply Emits_bytes. Qed.
Lemma Emits_number n : Emits (on_fst (Encoder.number n)) (enc_u64 n) 0 (f64_is_finite n = true).
Proof.
  unfold Encoder.number. destruct (f64_is_finite n); cbn [negb].
  - eapply Emits_equiv; [apply Emits_bytes | done | done | done].
  - intros [w t] _. split; [by left|]. intros s'. split; [done | by intros [? _]].
Qed.
Lemma Emits_optional_number o :
  Emits (on_fst (Encoder.optional_number o)) (enc_opt enc_u64 o) 0 (finite_opt o).
Proof.
  unfold Encoder.optional_number. eapply Emits_ext; [intros; apply on_fst_bind|]. destruct o as [n|].
  - eapply Emits_equiv; [eapply Emits_bind; [apply Emits_bytes | apply Emits_number] | done | done|].
    unfold finite_opt. naive_solver.
  - eapply Emits_equiv; [eapply Emits_bind; [apply Emits_bytes | eapply Emits_ext; [|apply Emits_ret]; by intros [? ?]] | done | done|].
    split; [done | done].
Qed.

Lemma Emits_level {A} (f : N → A → M (bytes * N) ()) enc cost (ok : N → A → Prop) d l :
  Forall (λ r, Emits (f d r) (enc r) (cost r) (ok d r)) l →
  Emits (encode_level f d l) (enc_level enc l) (sum (cost <$> l)) (level_ok ok d l).
Proof.
  intros Hl. unfold encode_level, enc_level, level_ok. eapply Emits_equiv.
  - eapply (Emits_bind _ _ [] 0); [apply (Emits_check _ (l = [] ∨ d <= MAX_AGGREGATION_DEPTH))|].
    + case_bool_decide; [done|]. unfold check_aggregation_depth. case_if; [by left | done].
    + case_bool_decide; [naive_solver|]. unfold check_aggregation_depth.
      destruct (N.ltb_spec MAX_AGGREGATION_DEPTH d); split; try done; [|by right]. intros [?|?]; [done | lia].
    + apply Emits_u32. intros _. eapply Emits_bind; [apply Emits_bytes | by apply Emits_fold].
  - done.
  - done.
  - rewrite foldr_and_Forall. tauto.
Qed.

Lemma Emits_buckets_fold {B} (f : B → M (bytes * N) ()) (enc : B → bytes) (cost : B → N) (P : B → Prop) bs :
  (∀ b, b ∈ bs → Emits (f b) (enc b) (cost b) (P b)) →
  Emits (foldM (λ _ b, f b) () bs) (concat (enc <$> bs)) (sum (cost <$> bs)) (foldr and True (P <$> bs)).
Proof.
  intros H. eapply Emits_equiv; [apply (Emits_fold f enc cost P), Forall_forall, H | done | done|].
  by rewrite foldr_and_Forall.
Qed.

Lemma Emits_result r : ∀ d, Emits (encode_result d r) (enc_result r) (bucket_total r) (result_ok d r).
Proof.
  induction r as [n v IH] using result_ind. intros d.
  cbn [encode_result enc_result bucket_total result_ok]. destruct v as [bs other err|count sm mi ma av|bs|bs];
    cbn [kind_and_buckets nested] in *; rewrite ?Forall_fmap in IH; cbn [N.eqb Pos.eqb negb].
  - eapply Emits_equiv.
    + eapply Emits_bind; [apply Emits_buckets|]. eapply Emits_bind; [apply Emits_string|].
      eapply Emits_bind; [apply Emits_bytes|]. eapply Emits_bind; [apply Emits_bytes|].
      eapply Emits_bind; [apply (Emits_buckets_fold _
        (λ b, enc_str b.(TermBucket.key) ++ enc_u64 b.(TermBucket.count) ++ enc_level enc_result b.(TermBucket.aggregations))
        (λ b, sum (bucket_total <$> b.(TermBucket.aggregations)))
        (λ b, lenN b.(TermBucket.key) <= U32_MAX ∧ level_ok result_ok (d + 1) b.(TermBucket.aggregations)))|].
      { intros b Hb. eapply Emits_equiv;
          [eapply Emits_bind; [apply Emits_string|]; eapply Emits_bind; [apply Emits_count|];
           apply (Emits_level _ enc_result bucket_total result_ok) | done | done | tauto].
        eapply Forall_forall in IH; [|exact Hb]. eapply Forall_impl; [exact IH|]. auto. }
      eapply Emits_bind; [apply Emits_count|]. eapply Emits_bind; [apply Emits_bytes|].
      instantiate (1 := True). instantiate (1 := 0). instantiate (1 := match err with Some n => enc_u64 n | None => [] end).
      destruct err; [apply Emits_count | apply Emits_ret].
    + by destruct err; rewrite ?app_nil_r.
    + lia.
    + tauto.
  - eapply Emits_equiv.
    + eapply Emits_bind; [apply Emits_buckets|]. eapply Emits_bind; [apply Emits_string|].
      eapply Emits_bind; [apply Emits_bytes|]. eapply Emits_bind; [apply Emits_ret|].
      eapply Emits_bind; [apply Emits_count|]. eapply Emits_bind; [apply Emits_number|].
      do 2 (eapply Emits_bind; [apply Emits_optional_number|]). apply Emits_optional_number.
    + done.
    + done.
    + tauto.
  - eapply Emits_equiv.
    + eapply Emits_bind; [apply Emits_buckets|]. eapply Emits_bind; [apply Emits_string|].
      eapply Emits_bind; [apply Emits_bytes|]. eapply Emits_bind; [apply Emits_bytes|].
      apply (Emits_buckets_fold _
        (λ b, enc_u64 b.(NumericBucket.key) ++ enc_u64 b.(NumericBucket.count) ++ enc_level enc_result b.(NumericBucket.aggregations))
        (λ b, sum (bucket_total <$> b.(NumericBucket.aggregations)))
        (λ b, f64_is_finite b.(NumericBucket.key) = true ∧ level_ok result_ok (d + 1) b.(NumericBucket.aggregations))).
      intros b Hb. eapply Emits_equiv;
        [eapply Emits_bind; [apply Emits_number|]; eapply Emits_bind; [apply Emits_count|];
         apply (Emits_level _ enc_result bucket_total result_ok) | done | done | tauto].
      eapply Forall_forall in IH; [|exact Hb]. eapply Forall_impl; [exact IH|]. auto.
    + done.
    + lia.
    + tauto.
  - eapply Emits_equiv.
    + eapply Emits_bind; [apply Emits_buckets|]. eapply Emits_bind; [apply Emits_string|].
      eapply Emits_bind; [apply Emits_bytes|]. eapply Emits_bind; [apply Emits_bytes|].
      apply (Emits_buckets_fold _
        (λ b, enc_str b.(RangeBucket.key) ++ enc_opt enc_u64 b.(RangeBucket.from) ++ enc_opt enc_u64 b.(RangeBucket.to)
              ++ enc_u64 b.(RangeBucket.count) ++ enc_level enc_result b.(RangeBucket.aggregations))
        (λ b, sum (bucket_total <$> b.(RangeBucket.aggregations)))
        (λ b, lenN b.(RangeBucket.key) <= U32_MAX ∧ finite_opt b.(RangeBucket.from)
              ∧ finite_opt b.(RangeBucket.to) ∧ level_ok result_ok (d + 1) b.(RangeBucket.aggregations))).
      intros b Hb. eapply Emits_equiv;
        [eapply Emits_bind; [apply Emits_string|]; do 2 (eapply Emits_bind; [apply Emits_optional_number|]);
         eapply Emits_bind; [apply Emits_count|];
         apply (Emits_level _ enc_result bucket_total result_ok) | done | done | tauto].
      eapply Forall_forall in IH; [|exact Hb]. eapply Forall_impl; [exact IH|]. auto.
    + done.
    + lia.
    + tauto.
Qed.

Lemma Emits_results results : Emits (encode_aggregation_level 1 results) (enc_results results) (sum (bucket_total <$> results)) (results_ok results).
Proof. apply Emits_level, Forall_forall. intros. apply Emits_result. Qed.
Lemma encode_results_graceful results : graceful (encode_results results).
Proof.
  destruct (Acc_run _ _ _ (Emits_results results)) as [Hg _]; [done|]. cbn [m_unit response_meter] in Hg. unfold encode_results.
  by destruct (encode_aggregation_level 1 results ([], 0)) as [[[] [w t]]|e| |].
Qed.

(** C26: The response of an aggregation: [encode_results] returns exactly the layout
    [enc_results] describes, whenever the results nest at most 32 deep, hold
    finite numbers and at most 1024 buckets, and the encoding fits 8 MiB; in
    every other case it fails with a resource error, never a panic. *)
Theorem encode_results_iff results bs :
  graceful (encode_results results)
  ∧ (encode_results results = Ok bs ↔
     bs = enc_results results ∧ results_ok results ∧ lenN bs <= MAX_AGGREGATION_RESULT_BYTES
     ∧ sum (bucket_total <$> results) <= MAX_AGGREGATION_BUCKETS).
Proof.
  destruct (Acc_run _ _ _ (Emits_results results)) as [Hg Hs]; [done|]. cbn [m_unit m_ok response_meter fst snd] in *.
  set (total := sum _) in *. unfold encode_results.
  assert (∀ w, (∃ t, encode_aggregation_level 1 results ([], 0) = Ok ((), (w, t))) ↔
    w = enc_results results ∧ results_ok results ∧ lenN w <= MAX_AGGREGATION_RESULT_BYTES
    ∧ total <= MAX_AGGREGATION_BUCKETS) as Hw.
  { intros w. setoid_rewrite Hs. split.
    - intros (t & ? & (Hl & Hc) & [= -> ->]). done.
    - intros (-> & ? & ? & ?). by exists total. }
  rewrite <- Hw. destruct (encode_aggregation_level 1 results ([], 0)) as [[[] [w t]]|e| |]; cbn in *; naive_solver.
Qed.
