(* ===== verification/Aggregation.v ===== *)
(** * src/src/catalog.rs: validation of sorts and aggregations

    [validate_requests] checks a catalog against the filter fields of the
    schema; [check_aggregation_shape] bounds the memory, the response and the
    buckets the request is certain to need before anything is collected. *)
From S2P Require Import Prelude.
From S2P Require Import Errors.
From S2P Require Import Bytes.
From S2P Require Import Wire.
From S2P Require Import Request.
From S2P Require Import Structure.
From S2P Require Import Expression.
From S2P Require Import Catalog.
From S2P Require Import Admission.
From S2P Require Import Frame.
From S2P Require Import Results.
Local Open Scope N_scope.

Definition MAX_AGGREGATION_MEMORY_BYTES : N := 16 * 1024 * 1024.

(** The first configured field of that name, with its position. *)
Definition field (name : bytes) (fields : list FilterFieldConfig.t) : outcome (nat * FilterFieldConfig.t) :=
  ok_or (list_find (λ f, f.(FilterFieldConfig.name) = name) fields)
    (invalid ("Unknown filter field: " +:+ show_str name)).

(** ** Sorts *)
Definition validate_sort (fields : list FilterFieldConfig.t) (seen : gset bytes) (sort : SortRequest.t)
    : outcome (gset bytes) :=
  if bool_decide (sort.(SortRequest.field) ∈ seen) then Err (invalid "Sort fields must be unique") else
  config ← field sort.(SortRequest.field) fields;
  if bool_decide (config.2.(FilterFieldConfig.field_type) = FilterFieldType.Boolean)
  then Err (invalid "Sorting requires a string or number field")
  else Ok ({[sort.(SortRequest.field)]} ∪ seen).

(** ** Aggregations *)
Definition terms_segment_size (size : N) : outcome N :=
  if size * 10 <=? U32_MAX then Ok (size * 10)
  else Err (resource "Terms oversampling exceeds native representable resource budget").

(** [PartialEq] on [Option<f64>] *)
Definition bound_eq (a b : option f64) : bool :=
  match a, b with Some a, Some b => f64_eq a b | None, None => true | _, _ => false end.
Definition is_some_and (o : option f64) (p : f64 → bool) : bool :=
  match o with Some v => p v | None => false end.

(** The test of the loop over [ranges.iter().enumerate()]; [||] is lazy, so
    [ranges[i - 1]] is read only for [i > 0]. *)
Definition check_range (ranges : list (option f64 * option f64)) (_ : ()) (entry : nat * (option f64 * option f64))
    : outcome () :=
  let '(i, (from, to)) := entry in
  let error := Err (invalid "Ranges must be finite, ascending, contiguous, and nonoverlapping") in
  if is_some_and from (λ n, negb (f64_is_finite n)) || is_some_and to (λ n, negb (f64_is_finite n))
     || match from, to with Some a, Some b => f64_ge a b | _, _ => false end
  then error else
  gap ← (if (0 <? i)%nat
         then match from with
              | None => Ok true
              | Some _ => previous ← unwrap (ranges !! (i - 1)%nat); Ok (negb (bound_eq from previous.2))
              end
         else Ok false);
  if gap || (((i + 1) <? length ranges)%nat && negb (bool_decide (is_Some to))) then error else Ok ().

Definition validate_kind (config : FilterFieldConfig.t) (kind : AggregationKind.t) (no_children : bool) : outcome () :=
  match kind with
  | AggregationKind.Terms size =>
      if negb (bool_decide (config.(FilterFieldConfig.field_type) = FilterFieldType.String)) || (size =? 0)
      then Err (invalid "Terms requires a string field and positive size")
      else _ ← terms_segment_size size; Ok ()
  | _ =>
      if negb (bool_decide (config.(FilterFieldConfig.field_type) = FilterFieldType.Number))
      then Err (invalid "Numeric aggregations require a number field")
      else match kind with
      | AggregationKind.Stats =>
          if negb no_children then Err (invalid "Stats aggregations cannot contain sub-aggregations") else Ok ()
      | AggregationKind.Histogram interval =>
          if negb (f64_is_finite interval) || f64_le interval F64_ZERO
          then Err (invalid "Histogram interval must be finite and positive") else Ok ()
      | AggregationKind.Range ranges =>
          if bool_decide (ranges = []) then Err (invalid "Range requires at least one contiguous range")
          else foldO (check_range ranges) () (imap pair ranges)
      | _ => Ok ()
      end
  end.

Section Level.
Context (validate_aggregation : N → AggregationRequest.t → outcome ()).
Definition validate_named (depth : N) (names : gset bytes) (agg : AggregationRequest.t) : outcome (gset bytes) :=
  let name := AggregationRequest.name agg in
  if (lenN name =? 0) || (128 <? lenN name) || bool_decide (name ∈ names)
  then Err (invalid "Aggregation names must be unique and contain from 1 through 128 UTF-8 bytes")
  else _ ← validate_aggregation depth agg; Ok ({[name]} ∪ names).
Definition validate_level (depth : N) (aggs : list AggregationRequest.t) : outcome () :=
  if bool_decide (aggs = []) then Ok () else
  _ ← check_aggregation_depth depth;
  _ ← foldO (validate_named depth) ∅ aggs;
  Ok ().
End Level.

(** The loop body after the name check. *)
Fixpoint validate_aggregation (fields : list FilterFieldConfig.t) (depth : N) (agg : AggregationRequest.t) : outcome () :=
  let 'AggregationRequest.mk _ field_name kind children := agg in
  config ← field field_name fields;
  _ ← validate_kind config.2 kind (bool_decide (children = []));
  validate_level (validate_aggregation fields) (depth + 1) children.
Definition validate_aggregations (fields : list FilterFieldConfig.t) (depth : N) (aggs : list AggregationRequest.t)
    : outcome () := validate_level (validate_aggregation fields) depth aggs.

Definition validate_requests (sort : option (list SortRequest.t)) (aggs : list AggregationRequest.t)
    (fields : list FilterFieldConfig.t) : outcome () :=
  _ ← match sort with
      | Some sorts =>
          if bool_decide (sorts = []) then Err (invalid "Sorting requires at least one field")
          else _ ← foldO (validate_sort fields) ∅ sorts; Ok ()
      | None => Ok ()
      end;
  validate_aggregations fields 1 aggs.

(** ** What is valid *)
Fixpoint contiguous (ranges : list (option f64 * option f64)) : Prop :=
  match ranges with
  | a :: (b :: _) as rest =>
      (∃ t f, a.2 = Some t ∧ b.1 = Some f ∧ f64_eq f t = true) ∧ contiguous rest
  | _ => True
  end.
Definition range_valid (r : option f64 * option f64) : Prop :=
  (∀ n, r.1 = Some n → f64_is_finite n = true) ∧ (∀ n, r.2 = Some n → f64_is_finite n = true)
  ∧ (∀ a b, r.1 = Some a → r.2 = Some b → f64_ge a b = false).
Definition kind_valid (t : FilterFieldType.t) (kind : AggregationKind.t) (children : list AggregationRequest.t) : Prop :=
  match kind with
  | AggregationKind.Terms size => t = FilterFieldType.String ∧ 0 < size ∧ size * 10 <= U32_MAX
  | AggregationKind.Stats => t = FilterFieldType.Number ∧ children = []
  | AggregationKind.Histogram v => t = FilterFieldType.Number ∧ f64_is_finite v = true ∧ f64_le v F64_ZERO = false
  | AggregationKind.Range rs => t = FilterFieldType.Number ∧ rs ≠ [] ∧ Forall range_valid rs ∧ contiguous rs
  end.
Definition field_type_of (fields : list FilterFieldConfig.t) (name : bytes) : option FilterFieldType.t :=
  (λ c, c.2.(FilterFieldConfig.field_type)) <$> list_find (λ f, f.(FilterFieldConfig.name) = name) fields.

Definition siblings_valid (valid : N → AggregationRequest.t → Prop) (d : N) (l : list AggregationRequest.t) : Prop :=
  (l = [] ∨ d <= MAX_AGGREGATION_DEPTH) ∧ Forall (λ a, 1 <= lenN (AggregationRequest.name a) <= 128) l
  ∧ NoDup (AggregationRequest.name <$> l) ∧ foldr and True (valid d <$> l).
Fixpoint aggregation_valid (fields : list FilterFieldConfig.t) (d : N) (a : AggregationRequest.t) : Prop :=
  let 'AggregationRequest.mk _ f kind children := a in
  (∃ t, field_type_of fields f = Some t ∧ kind_valid t kind children)
  ∧ siblings_valid (aggregation_valid fields) (d + 1) children.
Definition sorts_valid (fields : list FilterFieldConfig.t) (sorts : list SortRequest.t) : Prop :=
  sorts ≠ [] ∧ NoDup (SortRequest.field <$> sorts)
  ∧ Forall (λ s, ∃ t, field_type_of fields s.(SortRequest.field) = Some t ∧ t ≠ FilterFieldType.Boolean) sorts.
Definition requests_valid (sort : option (list SortRequest.t)) (aggs : list AggregationRequest.t)
    (fields : list FilterFieldConfig.t) : Prop :=
  (∀ sorts, sort = Some sorts → sorts_valid fields sorts)
  ∧ siblings_valid (aggregation_valid fields) 1 aggs.

(** ** The checks decide validity *)
Lemma field_Ok name fields c : field name fields = Ok c ↔ list_find (λ f, f.(FilterFieldConfig.name) = name) fields = Some c.
Proof. unfold field. by rewrite ok_or_Ok. Qed.

Lemma field_type_of_Some fields name t :
  field_type_of fields name = Some t ↔ ∃ c, field name fields = Ok c ∧ c.2.(FilterFieldConfig.field_type) = t.
Proof. unfold field_type_of. setoid_rewrite field_Ok. rewrite fmap_Some. naive_solver. Qed.

Lemma validate_sort_Ok fields seen s r :
  validate_sort fields seen s = Ok r ↔ (s.(SortRequest.field) ∉ seen)
  ∧ (∃ t, field_type_of fields s.(SortRequest.field) = Some t ∧ t ≠ FilterFieldType.Boolean)
  ∧ r = {[s.(SortRequest.field)]} ∪ seen.
Proof.
  unfold validate_sort. setoid_rewrite field_type_of_Some. case_bool_decide; [naive_solver|].
  rewrite bind_Ok. split.
  - intros (c & Hc & H'). case_bool_decide; [done|]. injection H' as <-. eauto 10.
  - intros (_ & (t & (c & Hc & <-) & Ht) & ->). exists c. by rewrite bool_decide_false.
Qed.

Lemma range_valid_test from to :
  is_some_and from (λ n, negb (f64_is_finite n)) || is_some_and to (λ n, negb (f64_is_finite n))
  || match from, to with Some a, Some b => f64_ge a b | _, _ => false end = false ↔ range_valid (from, to).
Proof.
  unfold range_valid; cbn [fst snd]. rewrite !orb_false_iff.
  destruct from as [a|], to as [b|]; cbn [is_some_and]; rewrite ?negb_false_iff; naive_solver.
Qed.

Definition joined (p r : option f64 * option f64) : Prop :=
  ∃ t f, p.2 = Some t ∧ r.1 = Some f ∧ f64_eq f t = true.

Lemma joined_test p from to :
  match from with Some _ => negb (bound_eq from p.2) | None => true end = false ↔ joined p (from, to).
Proof.
  unfold joined; cbn [fst]. destruct from as [f|], (p.2) as [t|]; cbn [bound_eq]; rewrite ?negb_false_iff; naive_solver.
Qed.

Lemma check_range_Ok rs i r : rs !! i = Some r →
  check_range rs () (i, r) = Ok () ↔
  range_valid r ∧ (∀ p, (0 < i)%nat → rs !! (i - 1)%nat = Some p → joined p r)
  ∧ ((i + 1 < length rs)%nat → is_Some r.2).
Proof.
  intros Hi. destruct r as [from to]. unfold check_range. cbn zeta. rewrite <- range_valid_test. cbn [fst snd].
  destruct (is_some_and from _ || _ || _); [split; [done | by intros [? _]]|].
  assert (negb (bool_decide (is_Some to)) = false ↔ is_Some to) as Hto.
  { rewrite negb_false_iff. apply bool_decide_eq_true. }
  destruct (Nat.ltb_spec 0 i) as [Hpos|Hpos].
  - destruct (lookup_lt_is_Some_2 rs (i - 1)) as [p Hp]; [apply lookup_lt_Some in Hi; lia|]. rewrite Hp.
    pose proof (joined_test p from to) as Hj.
    transitivity ((if match from with Some _ => negb (bound_eq from p.2) | None => true end
      || ((i + 1 <? length rs)%nat && negb (bool_decide (is_Some to))) then Err (invalid "") else Ok ()) = Ok ()).
    { destruct from; cbn [unwrap mbind outcome_bind]; by destruct (_ || _). }
    destruct (match from with Some _ => _ | None => _ end); cbn [orb].
    { split; [done|]. intros (_ & H & _). specialize (H p Hpos eq_refl). by apply Hj in H. }
    destruct (Nat.ltb_spec (i + 1) (length rs)); cbn [andb].
    + destruct (negb _); [split; [done | intros (_ & _ & H'); by apply Hto in H'] |].
      split; [|done]. intros _. split; [done|]. split; [|by intros _; apply Hto]. intros p' _ [= <-]. by apply Hj.
    + split; [|done]. intros _. split; [done|]. split; [|lia]. intros p' _ [= <-]. by apply Hj.
  - cbn [mbind outcome_bind orb]. destruct (Nat.ltb_spec (i + 1) (length rs)); cbn [andb].
    + destruct (negb _); [split; [done | intros (_ & _ & H'); by apply Hto in H'] |].
      split; [|done]. intros _. split; [done|]. split; [intros; lia | by intros _; apply Hto].
    + split; [|done]. intros _. split; [done|]. split; intros; lia.
Qed.

(** The indexed loop and the recursive reading of contiguity agree. *)
Lemma contiguous_iff rs :
  contiguous rs ↔ ∀ i p r, rs !! i = Some p → rs !! S i = Some r → joined p r.
Proof.
  induction rs as [|a [|b rs] IH].
  - split; [intros _ i p r; by rewrite lookup_nil | done].
  - split; [intros _ [|i] p r; cbn; intros; by rewrite ?lookup_nil in * | done].
  - cbn [contiguous]. fold (joined a b). rewrite IH. split.
    + intros [Hab H] [|i] p r Hp Hr; [cbn in *; by simplify_eq | by apply (H i)].
    + intros H. split; [by apply (H 0%nat)|]. intros i p r Hp Hr. by apply (H (S i)).
Qed.

Lemma foldO_unit_Ok {A} (f : () → A → outcome ()) l :
  foldO f () l = Ok () ↔ Forall (λ a, f () a = Ok ()) l.
Proof.
  induction l as [|a l IH]; cbn [foldO]; [split; [constructor | done]|]. by rewrite bind_unit, IH, Forall_cons.
Qed.

Lemma ranges_Ok rs :
  foldO (check_range rs) () (imap pair rs) = Ok () ↔ Forall range_valid rs ∧ contiguous rs.
Proof.
  rewrite foldO_unit_Ok, contiguous_iff, !Forall_lookup. split.
  - intros H. assert (∀ i r, rs !! i = Some r → check_range rs () (i, r) = Ok ()) as H'.
    { intros i r Hr. apply (H i). by rewrite list_lookup_imap, Hr. }
    split; [intros i r Hr; by apply (check_range_Ok rs i r Hr), H'|].
    intros i p r Hp Hr. destruct (proj1 (check_range_Ok rs (S i) r Hr) (H' _ _ Hr)) as (_ & Hj & _).
    apply Hj; [lia|]. by replace (S i - 1)%nat with i by lia.
  - intros [Hv Hj] i [k r]. rewrite list_lookup_imap. intros (r' & Hr & [= -> ->])%fmap_Some.
    apply check_range_Ok; [done|]. split; [by eapply Hv|]. split.
    + intros p Hpos Hp. apply (Hj (i - 1)%nat); [done|]. by replace (S (i - 1)) with i by lia.
    + intros Hl. destruct (lookup_lt_is_Some_2 rs (i + 1) Hl) as [q Hq].
      destruct (Hj i r' q Hr) as (t & f & Ht & _); [by replace (S i) with (i + 1)%nat by lia|]. by exists t.
Qed.

Lemma terms_segment_size_Ok n m : terms_segment_size n = Ok m ↔ m = n * 10 ∧ n * 10 <= U32_MAX.
Proof. unfold terms_segment_size. destruct (N.leb_spec (n * 10) U32_MAX); split; intros; destruct_and?; simplify_eq; try done; lia. Qed.

Lemma validate_kind_Ok c k l :
  validate_kind c k (bool_decide (l = [])) = Ok () ↔ kind_valid c.(FilterFieldConfig.field_type) k l.
Proof.
  unfold validate_kind, kind_valid. destruct k as [size| |v|rs]; case_bool_decide; cbn [negb orb];
    try (by split; [done | intros (? & _)]).
  - destruct (N.eqb_spec size 0); [split; [done | lia]|]. rewrite bind_Ok. setoid_rewrite terms_segment_size_Ok.
    split; [intros (? & (-> & ?) & _); split_and!; done || lia | intros (_ & _ & ?); eauto].
  - case_bool_decide; cbn [negb]; naive_solver.
  - destruct (f64_is_finite v), (f64_le v F64_ZERO); cbn [negb orb]; naive_solver.
  - case_bool_decide; [naive_solver|]. rewrite ranges_Ok. naive_solver.
Qed.

Lemma validate_level_Ok (f : N → AggregationRequest.t → outcome ()) (P : N → AggregationRequest.t → Prop) d l :
  Forall (λ a, f d a = Ok () ↔ P d a) l → validate_level f d l = Ok () ↔ siblings_valid P d l.
Proof.
  intros Hf. unfold validate_level, siblings_valid. rewrite foldr_and_Forall.
  case_bool_decide as El.
  { subst. split; [intros _; split_and!; [by left | constructor..] | done]. }
  rewrite bind_unit. unfold check_aggregation_depth.
  destruct (N.ltb_spec MAX_AGGREGATION_DEPTH d) as [Hd|Hd]; [split; [by intros [? _] | intros [[?|?] _]; done || lia]|].
  assert (∀ seen a r, validate_named f d seen a = Ok r ↔ (AggregationRequest.name a ∉ seen)
    ∧ (1 <= lenN (AggregationRequest.name a) <= 128 ∧ f d a = Ok ()) ∧ r = {[AggregationRequest.name a]} ∪ seen) as Hs.
  { intros seen a r. unfold validate_named. cbn zeta.
    destruct (N.eqb_spec (lenN (AggregationRequest.name a)) 0); [split; [done | lia]|].
    destruct (N.ltb_spec 128 (lenN (AggregationRequest.name a))); [split; [done | lia]|].
    case_bool_decide; [naive_solver|]. cbn [orb]. rewrite bind_unit.
    split; [intros [? [= <-]]; split_and!; done || lia | by intros (_ & (_ & ?) & ->)]. }
  rewrite (foldO_keys_Ok _ _ _ Hs), Forall_and.
  assert (Forall (λ a, f d a = Ok ()) l ↔ Forall (P d) l) as ->.
  { rewrite !Forall_forall in *. split; intros H a Ha; by apply (Hf a Ha), H. }
  naive_solver.
Qed.

Lemma validate_aggregation_Ok fields a : ∀ d,
  validate_aggregation fields d a = Ok () ↔ aggregation_valid fields d a.
Proof.
  induction a as [n f k l IH] using AggregationRequest.ind. intros d.
  cbn [validate_aggregation aggregation_valid]. rewrite bind_Ok.
  setoid_rewrite bind_unit. setoid_rewrite validate_kind_Ok. setoid_rewrite field_type_of_Some.
  assert (validate_level (validate_aggregation fields) (d + 1) l = Ok () ↔ siblings_valid (aggregation_valid fields) (d + 1) l) as E.
  { apply validate_level_Ok. eapply Forall_impl; [exact IH|]. intros a Ha. apply Ha. }
  setoid_rewrite E.
  naive_solver.
Qed.

Lemma validate_requests_Ok sort aggs fields : validate_requests sort aggs fields = Ok () ↔ requests_valid sort aggs fields.
Proof.
  unfold validate_requests, requests_valid. rewrite bind_unit.
  unfold validate_aggregations. rewrite (validate_level_Ok _ (aggregation_valid fields));
    [|apply Forall_forall; intros; apply validate_aggregation_Ok].
  destruct sort as [sorts|]; [|naive_solver]. unfold sorts_valid.
  case_bool_decide; [naive_solver|].
  rewrite (foldO_keys_Ok SortRequest.field _ _ (validate_sort_Ok fields)). naive_solver.
Qed.

(** ** Rejections *)
(** A check that fails only with an invalid argument or a resource limit. *)
Definition rejects {A} (r : outcome A) : Prop :=
  match r with Ok _ => True | Err e => code e = "E_INVALID_ARGUMENT"%string ∨ code e = "E_RESOURCE_LIMIT"%string | Panic | Fuel => False end.
Lemma rejects_bind {A B} (m : outcome A) (f : A → outcome B) : rejects m → (∀ a, m = Ok a → rejects (f a)) → rejects (mbind f m).
Proof. intros Hm Hf. destruct m; [by apply Hf|exact Hm|done..]. Qed.
Lemma rejects_foldO {A B} (f : B → A → outcome B) l b : (∀ b a, a ∈ l → rejects (f b a)) → rejects (foldO f b l).
Proof.
  revert b. induction l as [|a l IH]; intros b Hf; cbn [foldO]; [done|]. apply rejects_bind; [apply Hf; by left|]. intros b' _. apply IH. intros ? ? ?. apply Hf. by right.
Qed.
Lemma rejects_invalid {A} m : rejects (Err (A := A) (invalid m)).
Proof. by left. Qed.
Lemma rejects_resource {A} m : rejects (Err (A := A) (resource m)).
Proof. by right. Qed.
Lemma rejects_ok_or {A} (o : option A) m : rejects (ok_or o (invalid m)).
Proof. destruct o; [done|by left]. Qed.
#[local] Hint Resolve rejects_invalid rejects_resource rejects_ok_or : core.
Lemma check_range_rejects ranges i r : ranges !! i = Some r → rejects (check_range ranges () (i, r)).
Proof.
  intros Hi. destruct r as [from to]. unfold check_range. cbv zeta. destruct (_ || _ || _); [auto|].
  assert (∃ gap, (if (0 <? i)%nat then match from with None => Ok true
    | Some _ => previous ← unwrap (ranges !! (i - 1)%nat); Ok (negb (bound_eq from previous.2)) end else Ok false) = Ok gap) as (gap & ->).
  { destruct (Nat.ltb_spec 0 i); [|by eexists]. destruct from; [|by eexists]. apply lookup_lt_Some in Hi.
    destruct (lookup_lt_is_Some_2 ranges (i - 1)) as [p ->]; [lia|]. by eexists. }
  cbn [mbind outcome_bind]. destruct (_ || _); auto. done.
Qed.
Lemma validate_kind_rejects config kind leaf : rejects (validate_kind config kind leaf).
Proof.
  unfold validate_kind. destruct kind as [size| |interval|ranges].
  - destruct (_ || _); [auto|]. unfold terms_segment_size. destruct (_ <=? _); cbn; auto.
  - destruct (negb _); [auto|]. destruct (negb _); [auto|done].
  - destruct (negb _); [auto|]. destruct (_ || _); [auto|done].
  - destruct (negb _); [auto|]. case_bool_decide; [auto|]. apply rejects_foldO. intros [] [i r] (j & Hj)%list_elem_of_lookup.
    rewrite list_lookup_imap in Hj. apply fmap_Some in Hj as (r' & Hr & [= -> ->]). by apply check_range_rejects.
Qed.
Lemma validate_level_rejects (f : N → AggregationRequest.t → outcome ()) depth l : (∀ a, a ∈ l → rejects (f depth a)) → rejects (validate_level f depth l).
Proof.
  intros Hf. unfold validate_level. case_bool_decide; [done|]. apply rejects_bind; [|intros _ _; apply rejects_bind; [|done]].
  - unfold check_aggregation_depth. destruct (_ <? _); [auto|done].
  - apply rejects_foldO. intros names a Ha. unfold validate_named. destruct (_ || _ || _); [auto|]. apply rejects_bind; [by apply Hf|done].
Qed.
Lemma validate_aggregation_rejects fields a : ∀ depth, rejects (validate_aggregation fields depth a).
Proof.
  induction a as [name f kind children IH] using AggregationRequest.ind. intros depth. cbn [validate_aggregation]. apply rejects_bind; [unfold field; auto|].
  intros config _. apply rejects_bind; [apply validate_kind_rejects|]. intros _ _. apply validate_level_rejects. rewrite Forall_forall in IH. auto.
Qed.
Lemma validate_requests_rejects sort aggregations fields : rejects (validate_requests sort aggregations fields).
Proof.
  unfold validate_requests. apply rejects_bind.
  - destruct sort as [sorts|]; [|done]. case_bool_decide; [auto|]. apply rejects_bind; [|done]. apply rejects_foldO. intros seen s _.
    unfold validate_sort. case_bool_decide; [auto|]. apply rejects_bind; [unfold field; auto|]. intros config _. case_bool_decide; [auto|done].
  - intros _ _. apply validate_level_rejects. intros a _. apply validate_aggregation_rejects.
Qed.

(** C27: Validation of a catalog: [validate_requests] accepts sorts and aggregations
    exactly when the sorts are distinct, non-empty and over sortable fields, and
    every aggregation, at any depth up to 32, has a name of 1 to 128 bytes that
    is unique among its siblings, a field of the right type and valid
    parameters, contiguous ranges in particular; otherwise it fails with an
    invalid argument or a resource limit, and never panics. *)
Theorem validate_requests_iff sort aggs fields :
  rejects (validate_requests sort aggs fields) ∧ (validate_requests sort aggs fields = Ok () ↔ requests_valid sort aggs fields).
Proof. split; [apply validate_requests_rejects|apply validate_requests_Ok]. Qed.
