(* ===== verification/Shape.v ===== *)
(** * src/src/catalog.rs: the shape of a catalog

    [check_aggregation_shape] bounds, before anything is read, what a request is
    certain to need: the memory of its collectors in every segment, the bytes of
    its smallest response, and the buckets of its ranges. *)
From S2P Require Import Prelude.
From S2P Require Import Errors.
From S2P Require Import Bytes.
From S2P Require Import Wire.
From S2P Require Import Request.
From S2P Require Import Results.
From S2P Require Import Aggregation.
Local Open Scope N_scope.

(** ** What a request needs *)
Definition construction_error : FulltextError := resource "Aggregation construction memory budget exceeded".
Definition minimum_error : FulltextError := resource "Aggregation minimum response byte budget exceeded".
Definition request_bytes (request : AggregationRequest.t) : outcome N :=
  let ranges := match AggregationRequest.kind request with AggregationKind.Range ranges => lenN ranges | _ => 0 end in
  n ← ok_or (checked_mul ranges 128) construction_error;
  fixed ← usize_add 1024 (lenN (AggregationRequest.name request));
  fixed ← usize_add fixed (lenN (AggregationRequest.field request));
  ok_or (checked_add n fixed) construction_error.
(** [memory] and [response] of [walk]. *)
Definition charge_shape (request : AggregationRequest.t) : M (N * N) () := λ '(memory, response),
  bytes ← request_bytes request;
  memory ← ok_or (checked_add memory bytes) construction_error;
  minimum ← usize_add (lenN (AggregationRequest.name request)) 64;
  response ← ok_or (checked_add response minimum) minimum_error;
  if (MAX_AGGREGATION_MEMORY_BYTES <? memory) || (MAX_AGGREGATION_RESULT_BYTES <? response)
  then Err (resource "Aggregation request shape exceeds memory or response byte budget")
  else Ok ((), (memory, response)).
Section Level.
Context {S A : Type} (visit : N → A → M S ()).
(** The depth check and the loop of [walk] and of [known_buckets]. *)
Definition walk_level (depth : N) (requests : list A) : M S () :=
  if bool_decide (requests = []) then mret () else
  _ ← lift (check_aggregation_depth depth);
  foldM (λ _ request, visit depth request) () requests.
End Level.
Fixpoint walk (depth : N) (request : AggregationRequest.t) : M (N * N) () :=
  let 'AggregationRequest.mk _ _ _ children := request in
  _ ← charge_shape request;
  walk_level walk (depth + 1) children.

(** ** The buckets of ranges *)
Definition range_bucket_bound (ranges : list (option f64 * option f64)) : outcome N :=
  let first := match ranges with r :: _ => bool_decide (is_Some r.1) | [] => false end in
  let last := match last ranges with Some r => bool_decide (is_Some r.2) | None => false end in
  ok_or (n ← checked_add (lenN ranges) (N.b2n first); checked_add n (N.b2n last)) (resource "Aggregation bucket budget exceeded").
Section Known.
Context (known : N → N → AggregationRequest.t → M N ()).
Definition known_level (parents depth : N) (requests : list AggregationRequest.t) : M N () :=
  walk_level (λ depth request, known depth parents request) depth requests.
End Known.
Fixpoint known_buckets (depth parents : N) (request : AggregationRequest.t) : M N () :=
  let 'AggregationRequest.mk _ _ kind children := request in
  match kind with
  | AggregationKind.Range ranges =>
      bound ← lift (range_bucket_bound ranges);
      count ← lift (ok_or (checked_mul parents bound) bucket_limit);
      _ ← add_buckets count;
      known_level known_buckets count (depth + 1) children
  | _ => mret ()
  end.

Definition check_aggregation_shape (requests : list AggregationRequest.t) (segments : N) : outcome N :=
  '(_, (memory, _)) ← walk_level walk 1 requests (0, 0);
  if match checked_mul memory (N.max segments 1) with None => true | Some n => MAX_AGGREGATION_MEMORY_BYTES <? n end
  then Err (resource "Aggregation collector construction exceeds memory budget") else
  _ ← known_level known_buckets 1 1 requests 0;
  unwrap (checked_mul memory (N.max segments 1)).

(** ** Reference costs *)
Definition ranges_of (kind : AggregationKind.t) : list (option f64 * option f64) :=
  match kind with AggregationKind.Range ranges => ranges | _ => [] end.
Fixpoint shape_cost (request : AggregationRequest.t) : N * N :=
  let 'AggregationRequest.mk name field kind children := request in
  (lenN (ranges_of kind) * 128 + (1024 + lenN name + lenN field) + sum ((λ c, (shape_cost c).1) <$> children),
   lenN name + 64 + sum ((λ c, (shape_cost c).2) <$> children)).
(** One bucket for each range, and one on each side that is left open by a bound. *)
Definition range_buckets (ranges : list (option f64 * option f64)) : N :=
  lenN ranges + N.b2n (match ranges with r :: _ => bool_decide (is_Some r.1) | [] => false end)
  + N.b2n (match last ranges with Some r => bool_decide (is_Some r.2) | None => false end).
Fixpoint bucket_cost (parents : N) (request : AggregationRequest.t) : N :=
  let 'AggregationRequest.mk _ _ kind children := request in
  match kind with
  | AggregationKind.Range ranges => let count := parents * range_buckets ranges in count + sum (bucket_cost count <$> children)
  | _ => 0
  end.
(** Nested at most 32 deep; below ranges only where [through] holds. *)
Fixpoint shallow (through : AggregationKind.t → bool) (depth : N) (request : AggregationRequest.t) : Prop :=
  let 'AggregationRequest.mk _ _ kind children := request in
  through kind = true → (children = [] ∨ depth + 1 <= MAX_AGGREGATION_DEPTH) ∧ foldr and True (shallow through (depth + 1) <$> children).
Definition all_shallow through (depth : N) (requests : list AggregationRequest.t) : Prop :=
  (requests = [] ∨ depth <= MAX_AGGREGATION_DEPTH) ∧ foldr and True (shallow through depth <$> requests).
Fixpoint strings_short (request : AggregationRequest.t) : Prop :=
  let 'AggregationRequest.mk name field kind children := request in
  lenN name <= U32_MAX ∧ lenN field <= U32_MAX ∧ lenN (ranges_of kind) <= U32_MAX ∧ foldr and True (strings_short <$> children).

(** ** The checks charge exactly the costs *)
#[export] Program Instance shape_meter : Meter (N * N) := {|
  m_op x y := (x.1 + y.1, x.2 + y.2);
  m_unit := (0, 0);
  m_ok x := x.1 <= MAX_AGGREGATION_MEMORY_BYTES ∧ x.2 <= MAX_AGGREGATION_RESULT_BYTES |}.
Next Obligation. intros [] [] []; cbn. by rewrite !N.add_assoc. Qed.
Next Obligation. by intros []. Qed.
Next Obligation. intros []; cbn. by rewrite !N.add_0_r. Qed.
Next Obligation. intros [] []; cbn. lia. Qed.
#[export] Program Instance bucket_meter : Meter N := {| m_op := N.add; m_unit := 0; m_ok x := x <= MAX_AGGREGATION_BUCKETS |}.
Next Obligation. apply N.add_assoc. Qed.
Next Obligation. done. Qed.
Next Obligation. apply N.add_0_r. Qed.
Next Obligation. intros x y; cbn. lia. Qed.

Lemma depth_ok d : check_aggregation_depth d = Ok () ↔ d <= MAX_AGGREGATION_DEPTH.
Proof. unfold check_aggregation_depth. destruct (N.ltb_spec MAX_AGGREGATION_DEPTH d); split; intros; done || lia. Qed.
Lemma depth_graceful d : graceful (check_aggregation_depth d).
Proof. unfold check_aggregation_depth. case_match; [by left|done]. Qed.
Lemma m_concat_sums (l : list (N * N)) : m_concat l = (sum (fst <$> l), sum (snd <$> l)).
Proof. induction l as [|x l IH]; [done|]. cbn [m_concat foldr]. fold (m_concat l). rewrite IH, !fmap_cons, !sum_cons. done. Qed.
Lemma m_concat_sum (l : list N) : m_concat l = sum l.
Proof. induction l as [|x l IH]; [done|]. cbn [m_concat foldr]. fold (m_concat l). by rewrite IH, sum_cons. Qed.

Section Levels.
Context {S : Type} `{!Meter S} (visit : N → AggregationRequest.t → M S ()) (cost : AggregationRequest.t → S) (P : N → AggregationRequest.t → Prop).
Lemma Acc_level depth requests : Forall (λ r, Accumulates (visit depth r) (cost r) (P depth r)) requests →
  Accumulates (walk_level visit depth requests) (m_concat (cost <$> requests)) ((requests = [] ∨ depth <= MAX_AGGREGATION_DEPTH) ∧ Forall (P depth) requests).
Proof.
  intros Hr. unfold walk_level. case_bool_decide as Hnil.
  - subst. eapply Acc_equiv; [apply Acc_ret|done|]. split; [intros _; by split; [left|]|done].
  - eapply Acc_equiv; [eapply Acc_bind; [apply Acc_check; [apply depth_graceful|apply depth_ok]|exact (Acc_fold _ _ _ _ Hr)]|apply m_left|]. tauto.
Qed.
End Levels.

Lemma request_bytes_ok r : strings_short r → request_bytes r
  = Ok (lenN (ranges_of (AggregationRequest.kind r)) * 128 + (1024 + lenN (AggregationRequest.name r) + lenN (AggregationRequest.field r))).
Proof.
  destruct r as [name field kind children]. cbn [strings_short AggregationRequest.kind AggregationRequest.name AggregationRequest.field]. intros (Hn & Hf & Hr & _).
  unfold request_bytes, usize_add, checked_mul, checked_add, U32_MAX, USIZE_MAX in *.
  assert (match kind with AggregationKind.Range ranges => lenN ranges | _ => 0 end = lenN (ranges_of kind)) as E by (by destruct kind).
  cbn [AggregationRequest.kind AggregationRequest.name AggregationRequest.field]. rewrite E.
  repeat (rewrite (proj2 (N.leb_le _ _)) by lia; cbn [ok_or unwrap mbind outcome_bind]). done.
Qed.
Lemma charge_accumulates r : strings_short r → Accumulates (charge_shape r)
  (lenN (ranges_of (AggregationRequest.kind r)) * 128 + (1024 + lenN (AggregationRequest.name r) + lenN (AggregationRequest.field r)), lenN (AggregationRequest.name r) + 64) True.
Proof.
  intros Hr [memory response] [Hm Hs]. pose proof (request_bytes_ok r Hr) as E. destruct r as [name field kind children].
  cbn [strings_short AggregationRequest.kind AggregationRequest.name AggregationRequest.field fst snd] in *. destruct Hr as (Hn & Hf & Hk & _).
  unfold charge_shape. rewrite E. cbn [mbind outcome_bind m_op m_ok shape_meter fst snd AggregationRequest.name].
  unfold usize_add, checked_add, U32_MAX, USIZE_MAX, MAX_AGGREGATION_MEMORY_BYTES, MAX_AGGREGATION_RESULT_BYTES in *.
  rewrite (proj2 (N.leb_le _ _)) by lia. cbn [ok_or mbind outcome_bind]. rewrite (proj2 (N.leb_le _ _)) by lia. cbn [unwrap mbind outcome_bind].
  rewrite (proj2 (N.leb_le _ _)) by lia. cbn [ok_or mbind outcome_bind].
  destruct (N.ltb_spec (16 * 1024 * 1024) (memory + (lenN (ranges_of kind) * 128 + (1024 + lenN name + lenN field))));
    [|destruct (N.ltb_spec (8 * 1024 * 1024) (response + (lenN name + 64)))]; cbn [orb].
  - split; [by left|]. intros s'. split; [done|]. intros (_ & [? ?] & _). lia.
  - split; [by left|]. intros s'. split; [done|]. intros (_ & [? ?] & _). lia.
  - split; [done|]. intros s'. split; [intros [= <-]; split_and!; done|]. by intros (_ & _ & ->).
Qed.
Lemma walk_accumulates r : ∀ depth, strings_short r → Accumulates (walk depth r) (shape_cost r) (shallow (λ _, true) depth r).
Proof.
  induction r as [name field kind children IH] using AggregationRequest.ind. intros depth Hs.
  pose proof (charge_accumulates _ Hs) as Hc. cbn [strings_short] in Hs. destruct Hs as (_ & _ & _ & Hs%foldr_and_Forall).
  cbn [walk shape_cost shallow]. eapply Acc_equiv; [eapply Acc_bind; [exact Hc|apply (Acc_level walk shape_cost (shallow (λ _, true)))]| |].
  - rewrite Forall_forall in IH, Hs |- *. auto.
  - rewrite m_concat_sums, <- !list_fmap_compose. cbn [m_op shape_meter fst snd AggregationRequest.kind AggregationRequest.name AggregationRequest.field]. f_equal.
  - rewrite foldr_and_Forall. naive_solver.
Qed.

Lemma range_bucket_bound_ok ranges : lenN ranges <= U32_MAX → range_bucket_bound ranges = Ok (range_buckets ranges).
Proof.
  intros Hr. unfold range_bucket_bound, range_buckets. cbv zeta. generalize (match ranges with r :: _ => bool_decide (is_Some r.1) | [] => false end).
  generalize (match last ranges with Some r => bool_decide (is_Some r.2) | None => false end). intros a b. unfold checked_add, U32_MAX, USIZE_MAX in *.
  rewrite (proj2 (N.leb_le _ _)) by (destruct b; cbn [N.b2n]; lia). cbn [mbind option_bind].
  rewrite (proj2 (N.leb_le _ _)) by (destruct a, b; cbn [N.b2n]; lia). done.
Qed.
Lemma Acc_buckets n : Accumulates (add_buckets n) n True.
Proof.
  intros t Ht. unfold add_buckets, checked_add. cbn [m_op m_ok bucket_meter] in *. unfold MAX_AGGREGATION_BUCKETS, USIZE_MAX in *.
  destruct (N.leb_spec (t + n) 18446744073709551615); cbn [ok_or mbind outcome_bind].
  - destruct (N.ltb_spec 1024 (t + n)).
    + split; [cbn; by left|]. intros s'. split; [done|]. intros (_ & ? & _). lia.
    + split; [done|]. intros s'. split; [intros [= <-]; by split_and!|]. by intros (_ & _ & ->).
  - split; [cbn; by left|]. intros s'. split; [done|]. intros (_ & ? & _). lia.
Qed.
Definition is_range (kind : AggregationKind.t) : bool := match kind with AggregationKind.Range _ => true | _ => false end.
Lemma known_accumulates r : ∀ depth parents, strings_short r → parents <= MAX_AGGREGATION_BUCKETS →
  Accumulates (known_buckets depth parents r) (bucket_cost parents r) (shallow is_range depth r).
Proof.
  induction r as [name field kind children IH] using AggregationRequest.ind. intros depth parents Hs Hp.
  cbn [strings_short] in Hs. destruct Hs as (_ & _ & Hr & Hs%foldr_and_Forall). cbn [known_buckets bucket_cost shallow].
  destruct kind as [| | |ranges]; [by eapply Acc_equiv; [apply Acc_ret|done|]..|]. cbn [ranges_of is_range] in *. cbv zeta.
  rewrite range_bucket_bound_ok by done. intros t Ht. cbv [mbind M_bind lift].
  assert (range_buckets ranges <= U32_MAX + 2) as Hb.
  { unfold range_buckets. clear -Hr. assert (∀ b, N.b2n b <= 1) as Hb by (by intros []). rewrite <- (N.add_0_r U32_MAX). pose proof (Hb (match ranges with r :: _ => bool_decide (is_Some r.1) | [] => false end)).
    pose proof (Hb (match last ranges with Some r => bool_decide (is_Some r.2) | None => false end)). lia. }
  unfold checked_mul, MAX_AGGREGATION_BUCKETS, U32_MAX in *. rewrite (proj2 (N.leb_le _ USIZE_MAX)) by (unfold USIZE_MAX; nia). cbn [ok_or].
  set (count := parents * range_buckets ranges). pose proof (Acc_buckets count t Ht) as [Hg Hadd].
  destruct (N.le_gt_cases (t + count) 1024) as [Hle|Hgt].
  - rewrite (proj2 (Hadd (t + count))) by done.
    assert (Forall (λ r, Accumulates (known_buckets (depth + 1) count r) (bucket_cost count r) (shallow is_range (depth + 1) r)) children) as Hc.
    { rewrite Forall_forall in IH, Hs |- *. intros c Hc. apply IH; [done|by apply Hs|]. lia. }
    pose proof (Acc_level (λ depth request, known_buckets depth count request) (bucket_cost count) (shallow is_range) (depth + 1) children Hc (t + count) Hle) as [Hg' Hl].
    split; [exact Hg'|]. intros s'. unfold known_level. rewrite Hl. rewrite m_concat_sum. cbn [m_op m_ok bucket_meter]. rewrite foldr_and_Forall.
    unfold MAX_AGGREGATION_BUCKETS. rewrite <- !N.add_assoc. naive_solver.
  - destruct (add_buckets count t) as [[[] t']|e| |] eqn:E; [|split; [exact Hg|]|done..].
    + exfalso. destruct (proj1 (Hadd t') eq_refl) as (_ & ? & _). cbn [m_ok m_op bucket_meter] in *. unfold MAX_AGGREGATION_BUCKETS in *. lia.
    + intros s'. split; [done|]. cbn [m_op m_ok bucket_meter]. intros (_ & ? & _). unfold MAX_AGGREGATION_BUCKETS in *. lia.
Qed.

(** ** The decision *)
Definition memory_cost (requests : list AggregationRequest.t) : N := sum ((λ r, (shape_cost r).1) <$> requests).
Definition response_cost (requests : list AggregationRequest.t) : N := sum ((λ r, (shape_cost r).2) <$> requests).
Definition shape_fits (requests : list AggregationRequest.t) (segments : N) : Prop :=
  all_shallow (λ _, true) 1 requests ∧ memory_cost requests * N.max segments 1 <= MAX_AGGREGATION_MEMORY_BYTES
  ∧ response_cost requests <= MAX_AGGREGATION_RESULT_BYTES ∧ sum (bucket_cost 1 <$> requests) <= MAX_AGGREGATION_BUCKETS.
Lemma shallow_weaken r : ∀ depth, shallow (λ _, true) depth r → shallow is_range depth r.
Proof.
  induction r as [name field kind children IH] using AggregationRequest.ind. intros depth. cbn [shallow]. rewrite !foldr_and_Forall. intros H _.
  destruct (H eq_refl) as [Hd Hc]. split; [done|]. rewrite Forall_forall in IH, Hc |- *. auto.
Qed.
Lemma check_shape_iff requests segments : Forall strings_short requests →
  graceful (check_aggregation_shape requests segments)
  ∧ ∀ n, check_aggregation_shape requests segments = Ok n ↔ shape_fits requests segments ∧ n = memory_cost requests * N.max segments 1.
Proof.
  intros Hs. unfold check_aggregation_shape, shape_fits.
  assert (Accumulates (walk_level walk 1 requests) (m_concat (shape_cost <$> requests)) ((requests = [] ∨ 1 <= MAX_AGGREGATION_DEPTH) ∧ Forall (shallow (λ _, true) 1) requests)) as Hw.
  { apply (Acc_level walk shape_cost (shallow (λ _, true))). eapply Forall_impl; [exact Hs|]. intros r. apply walk_accumulates. }
  assert (Accumulates (known_level known_buckets 1 1 requests) (m_concat (bucket_cost 1 <$> requests)) ((requests = [] ∨ 1 <= MAX_AGGREGATION_DEPTH) ∧ Forall (shallow is_range 1) requests)) as Hk.
  { apply (Acc_level (λ depth request, known_buckets depth 1 request) (bucket_cost 1) (shallow is_range)). eapply Forall_impl; [exact Hs|]. intros r Hr. by apply known_accumulates. }
  destruct (Acc_run _ _ _ Hw) as [Hwg Hwr]; [by split|]. destruct (Acc_run _ _ _ Hk) as [Hkg Hkr]; [done|]. cbn [m_unit shape_meter bucket_meter] in *.
  rewrite m_concat_sums in Hwr. rewrite m_concat_sum in Hkr. rewrite <- !list_fmap_compose in Hwr. change (sum ((fst ∘ shape_cost) <$> requests)) with (memory_cost requests) in Hwr.
  change (sum ((snd ∘ shape_cost) <$> requests)) with (response_cost requests) in Hwr. cbn [m_ok shape_meter bucket_meter fst snd] in *.
  unfold all_shallow. setoid_rewrite foldr_and_Forall. assert (1 <= MAX_AGGREGATION_DEPTH) as Hdepth by done.
  destruct (walk_level walk 1 requests (0, 0)) as [[[] [memory response]]|e| |] eqn:Ew; [|split; [exact Hwg|]|done..].
  2: { intros n. split; [done|]. intros (([Ho Hf] & Hm & Hr & _) & _). pose proof (proj2 (Hwr (memory_cost requests, response_cost requests))) as Hx.
       discriminate Hx. split_and!; try done. assert (1 <= N.max segments 1) by lia. nia. }
  destruct (proj1 (Hwr _) eq_refl) as ((_ & Hsh) & (Hm & Hr) & [= -> ->]). cbn [mbind outcome_bind].
  destruct (checked_mul (memory_cost requests) (N.max segments 1)) as [n0|] eqn:Ec; unfold checked_mul in Ec; case_match eqn:Eb; try done.
  - injection Ec as <-. destruct (N.ltb_spec MAX_AGGREGATION_MEMORY_BYTES (memory_cost requests * N.max segments 1)) as [Hlt|Hge].
    { split; [by left|]. intros n. split; [done|]. intros ((_ & ? & _) & _). lia. }
    destruct (known_level known_buckets 1 1 requests 0) as [[[] total]|e| |] eqn:Ek; [|split; [exact Hkg|]|done..]; cbn [mbind outcome_bind].
    + destruct (proj1 (Hkr _) eq_refl) as (_ & Ht & ->). cbn [unwrap]. split; [done|]. intros n. split.
      * intros [= <-]. split; [|done]. split_and!; try done. by right.
      * by intros (_ & ->).
    + intros n. split; [done|]. intros ((_ & _ & _ & Hb) & _). pose proof (proj2 (Hkr (sum (bucket_cost 1 <$> requests)))) as Hx. discriminate Hx.
      split_and!; try done; [by right|]. eapply Forall_impl; [exact Hsh|]. intros r. apply shallow_weaken.
  - split; [by left|]. intros n. split; [done|]. intros ((_ & Hle & _) & _). apply N.leb_gt in Eb. unfold MAX_AGGREGATION_MEMORY_BYTES, USIZE_MAX in *. lia.
Qed.
