(* ===== verification/Queue.v ===== *)
(** * src/src/native.rs: the bounded command queues

    [BoundedQueue], its optional shared [QueueBudget] and [QueueWake], and the
    inspection that takes expired searches out of the expensive lane.  Every
    method holds the queue's mutex from its first read to its last write and
    touches the shared budget in one critical section, so a method is one step
    on the queue and the objects it shares ([Queue * Shared]); threads
    interleave between steps.  A step that returns [Err] has written nothing:
    all its checks come before its first write.  The condition variable [ready]
    only wakes threads that re-run the loop of [pop]; it carries no state. *)
From S2P Require Import Prelude.
From S2P Require Import Errors.
From S2P Require Import Bytes.
From S2P Require Import Search.
From S2P Require Import Trace.
Local Open Scope N_scope.

(** [AtomicU64::fetch_add] and [fetch_sub], [u64::wrapping_add]. *)
Definition U64 : N := 2 ^ 64.
Definition wrapping_add (a b : N) : N := (a + b) mod U64.
Definition wrapping_sub (a b : N) : N := (a + (U64 - b mod U64)) mod U64.

Module Queued.
Record t (T : Type) := mk { value : T; bytes : N; enqueued : N }.
End Queued.
Arguments Queued.mk {T}. Arguments Queued.value {T}. Arguments Queued.bytes {T}. Arguments Queued.enqueued {T}.

Module QueueState.
Record t (T : Type) := mk { items : list (Queued.t T); bytes : N; closed : bool }.
End QueueState.
Arguments QueueState.mk {T}. Arguments QueueState.items {T}. Arguments QueueState.bytes {T}.
Arguments QueueState.closed {T}.

(** [state: Mutex<(usize, usize)>]: commands and bytes reserved. *)
Module QueueBudget.
Record t := mk { state : N * N; max_commands : N; max_bytes : N }.
Definition new (max_commands max_bytes : N) : t := mk (0, 0) max_commands max_bytes.
Definition queue_full : FulltextError := FulltextError_new "E_QUEUE_FULL" "operation queue limits are exhausted".
Definition validate (b : t) (state : N * N) (bytes : N) : outcome () :=
  if (b.(max_commands) <=? state.1) || (b.(max_bytes) <? saturating_add state.2 bytes)
  then Err queue_full else Ok ().
End QueueBudget.

(** The generation counter that sleeping workers compare. *)
Module QueueWake.
Definition t := N.
Definition new : t := 0.
Definition snapshot (w : t) : N := w.
Definition notify (w : t) : t := wrapping_add w 1.
(** [wait_for_change] returns when this holds. *)
Definition changed (w : t) (observed : N) : bool := negb (w =? observed).
End QueueWake.

Module Shared.
Record t := mk { budget : QueueBudget.t; wake : QueueWake.t }.
End Shared.

(** [shared_budget] and [shared_wake] tell whether the queue holds the shared
    objects of its runtime. *)
Module Queue.
Record t (T : Type) := mk {
  state : QueueState.t T;
  max_commands : N;
  max_bytes : N;
  queued_commands : N;
  queued_bytes : N;
  shared_budget : bool;
  shared_wake : bool }.
End Queue.
Arguments Queue.mk {T}. Arguments Queue.state {T}. Arguments Queue.max_commands {T}. Arguments Queue.max_bytes {T}.
Arguments Queue.queued_commands {T}. Arguments Queue.queued_bytes {T}. Arguments Queue.shared_budget {T}.
Arguments Queue.shared_wake {T}.

Section Operations.
Context {T : Type}.
Implicit Types (q : Queue.t T) (s : QueueState.t T) (value : T).

Definition new_with_budget_and_wake (max_commands max_bytes : N) (shared_budget shared_wake : bool) : Queue.t T :=
  Queue.mk (QueueState.mk [] 0 false) max_commands max_bytes 0 0 shared_budget shared_wake.
Definition new (max_commands max_bytes : N) : Queue.t T := new_with_budget_and_wake max_commands max_bytes false false.

Definition queue_closed : FulltextError := FulltextError_new "E_CLOSED" "operation queue is closed".
Definition validate_capacity q s (bytes : N) : outcome () :=
  if s.(QueueState.closed) then Err queue_closed else
  if (q.(Queue.max_commands) <=? lenN s.(QueueState.items))
     || (q.(Queue.max_bytes) <? saturating_add s.(QueueState.bytes) bytes)
  then Err QueueBudget.queue_full else Ok ().

(** ** The shared objects *)
Definition validate_shared_capacity q (bytes : N) (sh : Shared.t) : outcome () :=
  if q.(Queue.shared_budget)
  then QueueBudget.validate sh.(Shared.budget) sh.(Shared.budget).(QueueBudget.state) bytes else Ok ().
Definition set_state (b : QueueBudget.t) (state : N * N) : QueueBudget.t :=
  QueueBudget.mk state b.(QueueBudget.max_commands) b.(QueueBudget.max_bytes).
Definition reserve_shared q (bytes : N) : M Shared.t () := λ sh,
  if q.(Queue.shared_budget) then
    let b := sh.(Shared.budget) in
    _ ← QueueBudget.validate b b.(QueueBudget.state) bytes;
    commands ← usize_add b.(QueueBudget.state).1 1;
    total ← usize_add b.(QueueBudget.state).2 bytes;
    Ok ((), Shared.mk (set_state b (commands, total)) sh.(Shared.wake))
  else Ok ((), sh).
Definition release_shared q (commands bytes : N) : M Shared.t () := λ sh,
  if q.(Queue.shared_budget) then
    let b := sh.(Shared.budget) in
    left ← usize_sub b.(QueueBudget.state).1 commands;
    total ← usize_sub b.(QueueBudget.state).2 bytes;
    Ok ((), Shared.mk (set_state b (left, total)) sh.(Shared.wake))
  else Ok ((), sh).
Definition notify_shared q : M Shared.t () := λ sh,
  Ok ((), if q.(Queue.shared_wake) then Shared.mk sh.(Shared.budget) (QueueWake.notify sh.(Shared.wake)) else sh).

(** ** Admission *)
Definition check_capacity (bytes : N) : M (Queue.t T * Shared.t) () := gets (λ '(q, sh),
  _ ← validate_capacity q q.(Queue.state) bytes;
  validate_shared_capacity q bytes sh).

(** The lines that append an accepted command, common to both pushes. *)
Definition push_back q value (bytes now : N) : outcome (Queue.t T) :=
  let s := q.(Queue.state) in
  total ← usize_add s.(QueueState.bytes) bytes;
  Ok (Queue.mk (QueueState.mk (s.(QueueState.items) ++ [Queued.mk value bytes now]) total s.(QueueState.closed))
        q.(Queue.max_commands) q.(Queue.max_bytes)
        (wrapping_add q.(Queue.queued_commands) 1) (wrapping_add q.(Queue.queued_bytes) bytes)
        q.(Queue.shared_budget) q.(Queue.shared_wake)).

Definition try_push_tracked value (bytes : N) (admit_ : outcome ()) (accepted : T → N → T) (now : N)
    : M (Queue.t T * Shared.t) () := λ '(q, sh),
  _ ← admit_;
  _ ← validate_capacity q q.(Queue.state) bytes;
  '(_, sh) ← reserve_shared q bytes sh;
  q ← push_back q (accepted value now) bytes now;
  '(_, sh) ← notify_shared q sh;
  Ok ((), (q, sh)).

Definition push_force_tracked_if value (bytes : N) (admit_ : outcome ()) (accepted : T → N → T) (now : N)
    : M (Queue.t T * Shared.t) () := λ '(q, sh),
  if q.(Queue.shared_budget)
  then Err (FulltextError_new "E_NATIVE_FAILURE" "forced queue admission cannot bypass a shared budget") else
  if q.(Queue.state).(QueueState.closed) then Err queue_closed else
  _ ← admit_;
  q ← push_back q (accepted value now) bytes now;
  '(_, sh) ← notify_shared q sh;
  Ok ((), (q, sh)).
Definition push_force value (bytes now : N) : M (Queue.t T * Shared.t) () :=
  push_force_tracked_if value bytes (Ok ()) (λ v _, v) now.

(** ** Removal *)
Definition with_items q (items : list (Queued.t T)) (bytes : N) (closed : bool) (queued_commands queued_bytes : N)
    : Queue.t T :=
  Queue.mk (QueueState.mk items bytes closed) q.(Queue.max_commands) q.(Queue.max_bytes)
    queued_commands queued_bytes q.(Queue.shared_budget) q.(Queue.shared_wake).

Definition take_front : M (Queue.t T * Shared.t) (option (Queued.t T)) := λ '(q, sh),
  let s := q.(Queue.state) in
  match s.(QueueState.items) with
  | [] => Ok (None, (q, sh))
  | item :: items =>
      bytes ← usize_sub s.(QueueState.bytes) item.(Queued.bytes);
      let q := with_items q items bytes s.(QueueState.closed) (wrapping_sub q.(Queue.queued_commands) 1)
                 (wrapping_sub q.(Queue.queued_bytes) item.(Queued.bytes)) in
      '(_, sh) ← release_shared q 1 item.(Queued.bytes) sh;
      Ok (Some item, (q, sh))
  end.
Definition try_pop : M (Queue.t T * Shared.t) (option (Queued.t T)) := take_front.

(** One pass of the loop of [pop]: [None] is a thread that goes back to sleep. *)
Definition pop : M (Queue.t T * Shared.t) (option (option (Queued.t T))) :=
  item ← take_front;
  match item with
  | Some item => mret (Some (Some item))
  | None => gets (λ '(q, _), Ok (if q.(Queue.state).(QueueState.closed) then Some None else None))
  end.

(** [items.iter().map(|item| item.bytes).sum()] *)
Definition item_bytes (items : list (Queued.t T)) : outcome N :=
  foldO (λ total item, usize_add total item.(Queued.bytes)) 0 items.

(** [drain_queue] *)
Definition drain_queue q (closed : bool) : list (Queued.t T) * Queue.t T :=
  (q.(Queue.state).(QueueState.items), with_items q [] 0 closed 0 0).

Definition close : M (Queue.t T * Shared.t) (list (Queued.t T)) := λ '(q, sh),
  let '(items, q) := drain_queue q true in
  bytes ← item_bytes items;
  '(_, sh) ← release_shared q (lenN items) bytes sh;
  '(_, sh) ← notify_shared q sh;
  Ok (items, (q, sh)).

Definition drain : M (Queue.t T * Shared.t) (list (Queued.t T)) := λ '(q, sh),
  let '(items, q) := drain_queue q q.(Queue.state).(QueueState.closed) in
  bytes ← item_bytes items;
  '(_, sh) ← release_shared q (lenN items) bytes sh;
  '(_, sh) ← notify_shared q sh;
  Ok (items, (q, sh)).

Definition shutdown_after_drain : M (Queue.t T * Shared.t) () := λ '(q, sh),
  let s := q.(Queue.state) in
  let q := with_items q s.(QueueState.items) s.(QueueState.bytes) true q.(Queue.queued_commands) q.(Queue.queued_bytes) in
  '(_, sh) ← notify_shared q sh;
  Ok ((), (q, sh)).

(** ** Expired searches

    [milliseconds] is the budget peeked from the packed request; [clock] reads
    the time at each item. *)
Context (milliseconds : T → N).
Definition NANOSECONDS : N := 1000000.
Definition remaining_at (item : Queued.t T) (now : N) : N :=
  default 0 (checked_sub (milliseconds item.(Queued.value) * NANOSECONDS) (saturating_sub now item.(Queued.enqueued))).

(** The loop over the items queued at the start: ([state.items], [expired],
    [expired_bytes], [minimum_remaining]). *)
Definition inspect_item (clock : nat → N) (acc : list (Queued.t T) * list (Queued.t T) * N * option N)
    (entry : nat * Queued.t T) : outcome (list (Queued.t T) * list (Queued.t T) * N * option N) :=
  let '(kept, expired, expired_bytes, minimum) := acc in
  let '(i, queued) := entry in
  let remaining := remaining_at queued (clock i) in
  if remaining =? 0 then
    expired_bytes ← usize_add expired_bytes queued.(Queued.bytes);
    Ok (kept, expired ++ [queued], expired_bytes, minimum)
  else Ok (kept ++ [queued], expired, expired_bytes,
           Some (match minimum with Some m => N.min m remaining | None => remaining end)).

Definition inspect_and_take_expired (clock : nat → N)
    : M (Queue.t T * Shared.t) (list (Queued.t T) * option N) := λ '(q, sh),
  let s := q.(Queue.state) in
  '(kept, expired, expired_bytes, minimum) ←
    foldO (inspect_item clock) ([], [], 0, None) (imap pair s.(QueueState.items));
  bytes ← usize_sub s.(QueueState.bytes) expired_bytes;
  let q := with_items q kept bytes s.(QueueState.closed) (wrapping_sub q.(Queue.queued_commands) (lenN expired))
             (wrapping_sub q.(Queue.queued_bytes) expired_bytes) in
  '(_, sh) ← release_shared q (lenN expired) expired_bytes sh;
  Ok ((expired, minimum), (q, sh)).
End Operations.

(** ** One step of a thread *)
Section Steps.
Context {T : Type} (milliseconds : T → N).
Implicit Types (q : Queue.t T) (sh : Shared.t).

Inductive event :=
| Push (value : T) (bytes : N) (refused : option FulltextError) (accepted : T → N → T) (now : N)
| Force (value : T) (refused : option FulltextError) (now : N)
| TryPop
| Pop
| Close
| Drain
| Shutdown
| Inspect (clock : nat → N).

(** The commands a step removes from the queue.  Forced commands carry no bytes. *)
Definition admission (refused : option FulltextError) : outcome () :=
  match refused with Some e => Err e | None => Ok () end.
Definition exec (e : event) : M (Queue.t T * Shared.t) (list (Queued.t T)) :=
  match e with
  | Push value bytes refused accepted now =>
      _ ← try_push_tracked value bytes (admission refused) accepted now; mret []
  | Force value refused now =>
      _ ← push_force_tracked_if value 0 (admission refused) (λ v _, v) now; mret []
  | TryPop => item ← try_pop; mret (option_list item)
  | Pop => item ← pop; mret (option_list (mjoin item))
  | Close => close
  | Drain => drain
  | Shutdown => _ ← shutdown_after_drain; mret []
  | Inspect clock => '(expired, _) ← inspect_and_take_expired milliseconds clock; mret expired
  end.
Definition added (e : event) : list (Queued.t T) :=
  match e with
  | Push value bytes _ accepted now => [Queued.mk (accepted value now) bytes now]
  | Force value _ now => [Queued.mk value 0 now]
  | _ => []
  end.

(** ** What holds between steps *)
Definition items q : list (Queued.t T) := q.(Queue.state).(QueueState.items).
Definition total q : N := sum (Queued.bytes <$> items q).
Definition queue_ok q : Prop :=
  q.(Queue.state).(QueueState.bytes) = total q ∧ total q <= q.(Queue.max_bytes) < USIZE_MAX
  ∧ q.(Queue.queued_commands) = lenN (items q) mod U64 ∧ q.(Queue.queued_bytes) = total q.
(** The share of the budget that a queue holds. *)
Definition share q : N * N := if q.(Queue.shared_budget) then (lenN (items q), total q) else (0, 0).
Definition budget_ok (b : QueueBudget.t) : Prop :=
  b.(QueueBudget.state).1 <= b.(QueueBudget.max_commands) <= USIZE_MAX
  ∧ b.(QueueBudget.state).2 <= b.(QueueBudget.max_bytes) < USIZE_MAX.
Definition same_limits q q' : Prop :=
  q'.(Queue.max_commands) = q.(Queue.max_commands) ∧ q'.(Queue.max_bytes) = q.(Queue.max_bytes)
  ∧ q'.(Queue.shared_budget) = q.(Queue.shared_budget) ∧ q'.(Queue.shared_wake) = q.(Queue.shared_wake).
(** The budget follows the queue. *)
Definition moved q sh q' sh' : Prop :=
  sh'.(Shared.budget).(QueueBudget.state).1 + (share q).1 = sh.(Shared.budget).(QueueBudget.state).1 + (share q').1
  ∧ sh'.(Shared.budget).(QueueBudget.state).2 + (share q).2 = sh.(Shared.budget).(QueueBudget.state).2 + (share q').2
  ∧ sh'.(Shared.budget).(QueueBudget.max_commands) = sh.(Shared.budget).(QueueBudget.max_commands)
  ∧ sh'.(Shared.budget).(QueueBudget.max_bytes) = sh.(Shared.budget).(QueueBudget.max_bytes).
Definition step_ok q sh q' sh' : Prop :=
  queue_ok q' ∧ same_limits q q' ∧ moved q sh q' sh' ∧ budget_ok sh'.(Shared.budget).
Definition covered q sh : Prop :=
  (share q).1 <= sh.(Shared.budget).(QueueBudget.state).1
  ∧ (share q).2 <= sh.(Shared.budget).(QueueBudget.state).2.
End Steps.

(** ** The steps keep it *)
Lemma wrapping_sub_mod a b : b <= a → wrapping_sub (a mod U64) b = (a - b) mod U64.
Proof.
  intros H. unfold wrapping_sub. rewrite N.Div0.add_mod_idemp_l.
  assert (U64 ≠ 0) by done. pose proof (N.mod_lt b U64 H0). pose proof (N.div_mod b U64 H0).
  replace (a + (U64 - b mod U64)) with ((a - b) + (b / U64 + 1) * U64) by nia. apply N.Div0.mod_add.
Qed.
Lemma wrapping_add_mod a b : wrapping_add (a mod U64) b = (a + b) mod U64.
Proof. unfold wrapping_add. apply N.Div0.add_mod_idemp_l. Qed.
Lemma mod_U64_small a : a < USIZE_MAX → a mod U64 = a.
Proof. intros. apply N.mod_small. unfold USIZE_MAX, U64 in *. lia. Qed.

Lemma wrapping_sub_small a b : b <= a → a < USIZE_MAX → wrapping_sub a b = a - b.
Proof. intros. rewrite <- (mod_U64_small a) at 1 by lia. rewrite wrapping_sub_mod by lia. apply mod_U64_small. lia. Qed.

Lemma usize_add_Ok a b : a + b <= USIZE_MAX → usize_add a b = Ok (a + b).
Proof. intros. unfold usize_add, checked_add. by rewrite (proj2 (N.leb_le _ _)). Qed.
Lemma usize_sub_Ok a b : b <= a → usize_sub a b = Ok (a - b).
Proof. intros. unfold usize_sub, checked_sub. by rewrite (proj2 (N.leb_le _ _)). Qed.
Lemma saturating_add_le a b m : m < USIZE_MAX → saturating_add a b <= m → a + b <= m.
Proof. unfold saturating_add. lia. Qed.

Ltac queue_cbn :=
  cbn [with_items set_state Queue.state Queue.max_commands Queue.max_bytes Queue.queued_commands Queue.queued_bytes
       Queue.shared_budget Queue.shared_wake QueueState.items QueueState.bytes QueueState.closed
       Shared.budget Shared.wake QueueBudget.state QueueBudget.max_commands QueueBudget.max_bytes
       Queued.value Queued.bytes Queued.enqueued fst snd mbind outcome_bind mret outcome_ret] in *.

Section StepLemmas.
Context {T : Type} (milliseconds : T → N).
Implicit Types (q : Queue.t T) (sh : Shared.t) (l : list (Queued.t T)).

Lemma total_perm l k : l ≡ₚ k → sum (Queued.bytes <$> l) = sum (Queued.bytes <$> k).
Proof. induction 1; rewrite ?fmap_cons, ?sum_cons; lia. Qed.

Lemma item_bytes_from l t : t + sum (Queued.bytes <$> l) <= USIZE_MAX →
  foldO (λ total item, usize_add total item.(Queued.bytes)) t l = Ok (t + sum (Queued.bytes <$> l)).
Proof.
  revert t. induction l as [|a l IH]; intros t H; rewrite ?fmap_nil, ?fmap_cons, ?sum_cons in *.
  - cbn. by rewrite N.add_0_r.
  - cbn [foldO]. rewrite usize_add_Ok by lia. cbn [mbind outcome_bind]. rewrite IH by lia. by rewrite N.add_assoc.
Qed.

(** Taking [out] away and keeping [kept]. *)
Lemma removal_ok q sh out kept closed :
  queue_ok q → covered q sh → budget_ok sh.(Shared.budget) → items q ≡ₚ out ++ kept →
  let q' := with_items q kept (sum (Queued.bytes <$> kept)) closed (lenN kept mod U64) (sum (Queued.bytes <$> kept)) in
  ∃ sh', release_shared q' (lenN out) (sum (Queued.bytes <$> out)) sh = Ok ((), sh')
         ∧ step_ok q sh q' sh'.
Proof.
  intros (Hb & Hmax & Hc & Hqb) [Hs1 Hs2] [Hb1 Hb2] Hp q'.
  pose proof (total_perm _ _ Hp) as Ht. rewrite fmap_app, sum_app in Ht.
  pose proof (lenN_perm _ _ Hp) as Hl. rewrite lenN_app in Hl. unfold total, share in *.
  assert (queue_ok q') as Hq' by (unfold queue_ok, total, items, q'; queue_cbn; split_and!; (done || lia)).
  unfold release_shared. cbn [q' with_items Queue.shared_budget] in *.
  destruct (Queue.shared_budget q) eqn:E.
  - queue_cbn. unfold total in *. rewrite !usize_sub_Ok by lia. cbn [mbind outcome_bind].
    eexists. split; [done|]. split; [done|]. split; [by unfold same_limits; rewrite E|].
    subst q'. unfold moved, share, budget_ok, total, items in *. queue_cbn. rewrite E. queue_cbn. lia.
  - eexists. split; [done|]. split; [done|]. split; [by unfold same_limits; rewrite E|].
    split; [|done]. unfold moved, share. cbn. by rewrite E.
Qed.

(** A wake-up changes nothing else. *)
Lemma notify_ok q q' sh sh' :
  step_ok q sh q' sh' → ∃ sh'', notify_shared q' sh' = Ok ((), sh'') ∧ step_ok q sh q' sh''.
Proof. intros H. eexists. split; [done|]. by destruct (Queue.shared_wake q'). Qed.

(** Every command that enters leaves once; only [Inspect] reorders. *)
Definition conserved (e : event) q (out : list (Queued.t T)) q' : Prop :=
  match e with
  | Inspect _ => items q ≡ₚ out ++ items q'
  | _ => items q ++ added e = out ++ items q'
  end.
Definition exec_spec (e : event) q sh (r : outcome (list (Queued.t T) * (Queue.t T * Shared.t))) : Prop :=
  match r with
  | Ok (out, (q', sh')) => step_ok q sh q' sh' ∧ conserved e q out q'
  | Err _ => True
  | Panic | Fuel => False
  end.

Lemma validate_capacity_Ok q bytes : queue_ok q → validate_capacity q q.(Queue.state) bytes = Ok () →
  total q + bytes <= q.(Queue.max_bytes).
Proof.
  intros (Hb & Hm & _) H. unfold validate_capacity in H. rewrite Hb in H.
  revert H. repeat case_if; try done. intros _. b2p. apply saturating_add_le; lia.
Qed.

(** The queue after an accepted command. *)
Definition pushed q v (bytes now : N) : Queue.t T :=
  with_items q (items q ++ [Queued.mk v bytes now]) (total q + bytes) q.(Queue.state).(QueueState.closed)
    (wrapping_add q.(Queue.queued_commands) 1) (wrapping_add q.(Queue.queued_bytes) bytes).
Lemma push_back_Ok q v bytes now : queue_ok q → total q + bytes <= q.(Queue.max_bytes) →
  push_back q v bytes now = Ok (pushed q v bytes now) ∧ queue_ok (pushed q v bytes now).
Proof.
  intros (Hb & Hm & Hc & Hq) Hle. split.
  - unfold push_back. rewrite Hb, usize_add_Ok by lia. done.
  - unfold queue_ok, pushed, total, items in *. queue_cbn. rewrite fmap_app, sum_app, lenN_app, Hc, Hq.
    cbn [fmap list_fmap]. rewrite sum_cons. queue_cbn. change (sum []) with 0. rewrite wrapping_add_mod.
    unfold wrapping_add. rewrite (mod_U64_small (sum _ + bytes)) by lia. split_and!; (done || lia).
Qed.

Lemma share_pushed q v bytes now :
  share (pushed q v bytes now) =
  if q.(Queue.shared_budget) then (lenN (items q) + 1, total q + bytes) else (0, 0).
Proof.
  unfold share, pushed, total, items. queue_cbn. destruct (Queue.shared_budget q); [|done].
  rewrite fmap_app, sum_app, lenN_app. do 2 f_equal. cbn [fmap list_fmap]. rewrite sum_cons. cbn. lia.
Qed.

Lemma exec_push q sh value bytes refused accepted now :
  queue_ok q → covered q sh → budget_ok sh.(Shared.budget) →
  let e := Push value bytes refused accepted now in exec_spec e q sh (exec milliseconds e (q, sh)).
Proof.
  intros Hq Hc [Hb1 Hb2] e. unfold exec, e, try_push_tracked. cbv [mbind M_bind]. destruct refused; [done|].
  cbn [admission outcome_bind].
  destruct (validate_capacity q (Queue.state q) bytes) as [[]|?| |] eqn:Hv; try done.
  2,3: unfold validate_capacity in Hv; revert Hv; repeat case_if; done.
  apply validate_capacity_Ok in Hv; [|done]. destruct (push_back_Ok q (accepted value now) bytes now Hq Hv) as [Hp Hq'].
  unfold reserve_shared, QueueBudget.validate. destruct (Queue.shared_budget q) eqn:E.
  - case_if; [done|]. b2p. apply saturating_add_le in H0; [|lia].
    queue_cbn. rewrite !usize_add_Ok by lia. queue_cbn. rewrite Hp. queue_cbn.
    split; [|done]. split; [done|]. split; [done|]. unfold moved, budget_ok. rewrite share_pushed. unfold share. rewrite E.
    unfold notify_shared. destruct (Queue.shared_wake _); queue_cbn; lia.
  - queue_cbn. rewrite Hp. queue_cbn. split; [|done]. split; [done|]. split; [done|].
    unfold moved, budget_ok. rewrite share_pushed. unfold share. rewrite E. by destruct (Queue.shared_wake _).
Qed.

Lemma exec_force q sh value refused now :
  queue_ok q → budget_ok sh.(Shared.budget) →
  let e := Force value refused now in exec_spec e q sh (exec milliseconds e (q, sh)).
Proof.
  intros Hq Hb e. unfold exec, e, push_force_tracked_if. cbv [mbind M_bind].
  destruct (Queue.shared_budget q) eqn:E; [done|]. case_if; [done|]. destruct refused; [done|].
  cbn [admission outcome_bind]. destruct (push_back_Ok q value 0 now Hq) as [Hp Hq'].
  { destruct Hq as (? & ? & ?). lia. }
  rewrite Hp. queue_cbn. split; [|done]. split; [done|]. split; [done|].
  unfold moved, budget_ok. rewrite share_pushed. unfold share. rewrite E. by destruct (Queue.shared_wake _).
Qed.

(** ** The inspection *)
Definition expired_at (clock : nat → N) (entry : nat * Queued.t T) : Prop :=
  remaining_at milliseconds entry.2 (clock entry.1) = 0.
#[global] Instance expired_at_dec clock entry : Decision (expired_at clock entry).
Proof. unfold expired_at. apply _. Defined.
Definition least (clock : nat → N) (minimum : option N) (entry : nat * Queued.t T) : option N :=
  let remaining := remaining_at milliseconds entry.2 (clock entry.1) in
  Some (match minimum with Some m => N.min m remaining | None => remaining end).

Lemma inspect_fold clock es kept expired eb minimum :
  eb + sum (Queued.bytes <$> (filter (expired_at clock) es).*2) <= USIZE_MAX →
  foldO (inspect_item milliseconds clock) (kept, expired, eb, minimum) es =
  Ok (kept ++ (filter (λ e, ¬ expired_at clock e) es).*2, expired ++ (filter (expired_at clock) es).*2,
      eb + sum (Queued.bytes <$> (filter (expired_at clock) es).*2),
      foldl (least clock) minimum (filter (λ e, ¬ expired_at clock e) es)).
Proof.
  revert kept expired eb minimum. induction es as [|[i a] es IH]; intros kept expired eb minimum H.
  - cbn. by rewrite !app_nil_r, N.add_0_r.
  - rewrite !filter_cons in *. cbn [foldO inspect_item]. fold (expired_at clock (i, a)).
    destruct (N.eqb_spec (remaining_at milliseconds a (clock i)) 0) as [E|E].
    + rewrite (decide_True _ _ (E : expired_at clock (i, a))) in *.
      rewrite (decide_False (P := ¬ expired_at clock (i, a))) in * by (intros Hn; exact (Hn E)).
      rewrite !fmap_cons, sum_cons in *. queue_cbn. rewrite usize_add_Ok by lia. queue_cbn.
      rewrite IH by lia. by rewrite <- app_assoc, N.add_assoc.
    + rewrite (decide_False (P := expired_at clock (i, a))) in * by exact E.
      rewrite (decide_True (P := ¬ expired_at clock (i, a))) in * by exact E.
      rewrite !fmap_cons in *. queue_cbn. rewrite IH by lia. by rewrite <- app_assoc.
Qed.

Lemma filter_split_perm {A} (P : A → Prop) `{!∀ x, Decision (P x)} (l : list A) :
  l ≡ₚ filter P l ++ filter (λ x, ¬ P x) l.
Proof.
  induction l as [|a l IH]; [done|]. rewrite !filter_cons. destruct (decide (P a)) as [Ha|Ha].
  - rewrite (decide_False (P := ¬ P a)) by auto. cbn. by rewrite <- IH.
  - rewrite (decide_True (P := ¬ P a)) by auto. by rewrite <- Permutation_middle, <- IH.
Qed.
Lemma imap_pair_snd {A} (l : list A) : (imap pair l).*2 = l.
Proof. rewrite fmap_imap. apply list_eq. intros i. rewrite list_lookup_imap. by destruct (l !! i). Qed.

(** [take_front] on a queue in order. *)
Lemma take_front_ok q sh : queue_ok q → covered q sh → budget_ok sh.(Shared.budget) →
  ∃ item q' sh', take_front (q, sh) = Ok (item, (q', sh')) ∧ step_ok q sh q' sh'
    ∧ items q = option_list item ++ items q' ∧ (item = None → q' = q ∧ sh' = sh).
Proof.
  intros Hq Hc Hb. unfold take_front. fold (items q). destruct (items q) as [|a l] eqn:E.
  - exists None, q, sh. split; [done|]. split; [|by rewrite E]. split; [done|]. by split.
  - destruct (removal_ok q sh [a] l q.(Queue.state).(QueueState.closed) Hq Hc Hb) as (sh' & Hr & Hs).
    { by rewrite E. }
    destruct Hq as (Hb1 & Hm & Hqc & Hqb). unfold total in *. rewrite E in *. rewrite fmap_cons, sum_cons in *.
    rewrite Hb1, Hqc, Hqb, usize_sub_Ok by lia. cbn [mbind outcome_bind].
    rewrite wrapping_sub_mod by (rewrite lenN_cons; lia).
    rewrite wrapping_sub_small by lia.
    replace (Queued.bytes a + _ - _) with (sum (Queued.bytes <$> l)) by lia.
    replace (lenN (a :: l) - 1) with (lenN l) by (rewrite lenN_cons; lia).
    change (lenN [a]) with 1 in Hr. change (sum (Queued.bytes <$> [])) with 0 in Hr.
    rewrite N.add_0_r in Hr. rewrite Hr. cbn [mbind outcome_bind]. by eexists (Some a), _, sh'.
Qed.

Lemma exec_take (e : event) q sh :
  e = TryPop ∨ e = Pop → queue_ok q → covered q sh → budget_ok sh.(Shared.budget) →
  exec_spec e q sh (exec milliseconds e (q, sh)).
Proof.
  intros He Hq Hc Hb. destruct (take_front_ok q sh Hq Hc Hb) as (item & q' & sh' & Ht & Hs & Hi & _).
  assert (exec milliseconds e (q, sh) = Ok (option_list item, (q', sh'))) as ->.
  { destruct He as [-> | ->]; unfold exec, try_pop, pop; cbv [mbind M_bind]; rewrite Ht; [done|].
    destruct item; [done|]. cbn. by destruct (QueueState.closed _). }
  split; [done|]. destruct He as [-> | ->]; unfold conserved, added; by rewrite app_nil_r.
Qed.

Lemma exec_drain (e : event) q sh :
  e = Close ∨ e = Drain → queue_ok q → covered q sh → budget_ok sh.(Shared.budget) →
  exec_spec e q sh (exec milliseconds e (q, sh)).
Proof.
  intros He Hq Hc Hb.
  assert (∀ closed, ∃ sh', (
    bytes ← item_bytes (items q); '(_, sh) ← release_shared (with_items q [] 0 closed 0 0) (lenN (items q)) bytes sh;
    '(_, sh) ← notify_shared (with_items q [] 0 closed 0 0) sh; Ok (items q, (with_items q [] 0 closed 0 0, sh)))
    = Ok (items q, (with_items q [] 0 closed 0 0, sh')) ∧ step_ok q sh (with_items q [] 0 closed 0 0) sh') as H.
  { intros closed. destruct (removal_ok q sh (items q) [] closed Hq Hc Hb) as (sh' & Hr & Hs); [by rewrite app_nil_r|].
    destruct (notify_ok _ _ _ _ Hs) as (sh'' & Hn & Hs'). exists sh''. split; [|done].
    unfold item_bytes. destruct Hq as (_ & Hm & _). unfold total in Hm. rewrite item_bytes_from by lia.
    cbn [mbind outcome_bind]. rewrite N.add_0_l. setoid_rewrite Hr. cbn [mbind outcome_bind].
    setoid_rewrite Hn. done. }
  destruct He as [-> | ->]; unfold exec, close, drain, drain_queue; edestruct H as (sh' & -> & Hs);
    (split; [exact Hs | unfold conserved, added; by rewrite !app_nil_r]).
Qed.

Lemma exec_shutdown q sh : queue_ok q → budget_ok sh.(Shared.budget) →
  exec_spec Shutdown q sh (exec milliseconds Shutdown (q, sh)).
Proof.
  intros Hq Hb. unfold exec, shutdown_after_drain. cbv [mbind M_bind]. unfold notify_shared. queue_cbn.
  split; [|by unfold conserved, added; rewrite app_nil_r]. split; [done|]. split; [done|].
  by destruct (Queue.shared_wake _).
Qed.

Lemma exec_inspect q sh clock : queue_ok q → covered q sh → budget_ok sh.(Shared.budget) →
  let es := imap pair (items q) in
  let out := (filter (expired_at clock) es).*2 in
  let kept := (filter (λ e, ¬ expired_at clock e) es).*2 in
  ∃ q' sh', inspect_and_take_expired milliseconds clock (q, sh)
    = Ok ((out, foldl (least clock) None (filter (λ e, ¬ expired_at clock e) es)), (q', sh'))
  ∧ items q' = kept ∧ items q ≡ₚ out ++ kept ∧ step_ok q sh q' sh'.
Proof.
  intros Hq Hc Hb es out kept.
  assert (items q ≡ₚ out ++ kept) as Hp.
  { unfold out, kept. rewrite <- fmap_app, <- filter_split_perm. unfold es. by rewrite imap_pair_snd. }
  destruct (removal_ok q sh out kept q.(Queue.state).(QueueState.closed) Hq Hc Hb Hp) as (sh' & Hr & Hs).
  eexists _, sh'. split; [|by split_and!; [| |exact Hs]].
  pose proof (total_perm _ _ Hp) as Ht. rewrite fmap_app, sum_app in Ht.
  pose proof (lenN_perm _ _ Hp) as Hl. rewrite lenN_app in Hl.
  destruct Hq as (Hb1 & Hm & Hqc & Hqb). unfold total in *.
  unfold inspect_and_take_expired. fold (items q) es. rewrite inspect_fold by (fold out; lia).
  fold out kept. cbn [mbind outcome_bind]. rewrite Hb1, Hqc, Hqb. rewrite !app_nil_l, N.add_0_l.
  rewrite usize_sub_Ok by lia. cbn [mbind outcome_bind]. rewrite wrapping_sub_mod by lia.
  rewrite wrapping_sub_small by lia.
  replace (sum (Queued.bytes <$> items q) - sum (Queued.bytes <$> out)) with (sum (Queued.bytes <$> kept)) by lia.
  replace (lenN (items q) - lenN out) with (lenN kept) by lia.
  setoid_rewrite Hr. done.
Qed.

(** Every step of every thread keeps the queue in order and does not panic. *)
Lemma exec_ok e q sh : queue_ok q → covered q sh → budget_ok sh.(Shared.budget) →
  exec_spec e q sh (exec milliseconds e (q, sh)).
Proof.
  intros Hq Hc Hb. destruct e; [by apply exec_push | by apply exec_force | by apply exec_take; auto..| | | |].
  - apply exec_drain; auto.
  - apply exec_drain; auto.
  - by apply exec_shutdown.
  - destruct (exec_inspect q sh clock Hq Hc Hb) as (q' & sh' & He & Hi & Hp & Hs).
    unfold exec. cbv [mbind M_bind]. rewrite He. split; [done|]. unfold conserved. by rewrite Hi.
Qed.

Lemma validate_capacity_room q bytes : validate_capacity q q.(Queue.state) bytes = Ok () →
  q.(Queue.state).(QueueState.closed) = false ∧ lenN (items q) < q.(Queue.max_commands).
Proof. unfold validate_capacity, items. repeat case_if; try done. intros _. by b2p. Qed.

(** The steps that wake the workers. *)
Definition notifies (e : event (T:=T)) : bool :=
  match e with TryPop | Pop | Inspect _ => false | _ => true end.
Lemma reserve_wake q bytes sh u sh' : reserve_shared q bytes sh = Ok (u, sh') → sh'.(Shared.wake) = sh.(Shared.wake).
Proof. unfold reserve_shared. case_if; intros H; inv_ok; done. Qed.
Lemma release_wake q c bytes sh u sh' : release_shared q c bytes sh = Ok (u, sh') → sh'.(Shared.wake) = sh.(Shared.wake).
Proof. unfold release_shared. case_if; intros H; inv_ok; done. Qed.
Lemma push_back_wake q v bytes now q' : push_back q v bytes now = Ok q' → q'.(Queue.shared_wake) = q.(Queue.shared_wake).
Proof. unfold push_back. intros H. by inv_ok. Qed.

(** [inv_step] reads a method that returned [Ok] backwards, pairs included. *)
Ltac inv_step :=
  repeat first
    [ progress inv_ok
    | match goal with
      | x : _ * _ |- _ => destruct x
      | H : context [match ?p with (_, _) => _ end] |- _ => destruct p
      | H : mret _ _ = Ok _ |- _ => cbv [mret M_ret] in H
      | H : (if ?b then _ else _) = Ok _ |- _ => let E := fresh "E" in destruct b eqn:E
      end
    | progress queue_cbn ].

Lemma take_front_wake q sh item q' sh' :
  take_front (q, sh) = Ok (item, (q', sh')) → sh'.(Shared.wake) = sh.(Shared.wake).
Proof.
  unfold take_front. destruct (QueueState.items _); intros H; inv_step; [done|].
  match goal with H : release_shared _ _ _ _ = _ |- _ => by apply release_wake in H end.
Qed.
Lemma exec_wake e q sh out q' sh' : exec milliseconds e (q, sh) = Ok (out, (q', sh')) →
  sh'.(Shared.wake) =
  (if Queue.shared_wake q && notifies e then QueueWake.notify sh.(Shared.wake) else sh.(Shared.wake)).
Proof.
  destruct e; unfold exec, try_push_tracked, push_force_tracked_if, try_pop, pop, close, drain, drain_queue,
    shutdown_after_drain, inspect_and_take_expired, notify_shared, gets, lift; intros H; inv_step; rewrite ?andb_false_r, ?andb_true_r.
  all: repeat match goal with
    | H : reserve_shared _ _ _ = _ |- _ => apply reserve_wake in H
    | H : release_shared _ _ _ _ = _ |- _ => apply release_wake in H
    | H : push_back _ _ _ _ = _ |- _ => apply push_back_wake in H
    end.
  all: try match goal with H : take_front _ = _ |- _ => apply take_front_wake in H end.
  all: try match goal with x : option _, H : match ?x with Some _ => _ | None => _ end _ = Ok _ |- _ =>
    destruct x; cbv [mret M_ret] in H; inv_step end.
  all: repeat case_if; cbn [Shared.wake]; congruence.
Qed.

(** A push is accepted only by an open queue with room. *)
Lemma exec_push_room q sh value bytes refused accepted now r :
  exec milliseconds (Push value bytes refused accepted now) (q, sh) = Ok r →
  q.(Queue.state).(QueueState.closed) = false ∧ lenN (items q) < q.(Queue.max_commands).
Proof. intros H. unfold exec, try_push_tracked in H. destruct r as [? []]. inv_step. by eapply validate_capacity_room; destruct x2. Qed.
End StepLemmas.
