(* ===== verification/Lanes.v ===== *)
(** * src/src/native.rs: the queues of one open index

    [Runtime::start] creates the writer queue and, with at least two search
    threads, an ordinary and an expensive lane that share one [QueueBudget] and
    one [QueueWake].  Threads interleave: a run is a sequence of queue methods,
    each on one of the queues; a refused method changes nothing. *)
From S2P Require Import Prelude.
From S2P Require Import Errors.
From S2P Require Import Bytes.
From S2P Require Import Search.
From S2P Require Import Trace.
From S2P Require Import Queue.
Local Open Scope N_scope.

(** The commands of the search lanes ([completion] is the caller's callback). *)
Module SearchOperation.
Inductive t := Search (bytes : bytes) (expensive : bool) | Trace (bytes : bytes).
End SearchOperation.
Module SearchCommand.
Record t (C : Type) := mk { operation : SearchOperation.t; completion : C }.
End SearchCommand.
Arguments SearchCommand.mk {C}. Arguments SearchCommand.operation {C}. Arguments SearchCommand.completion {C}.

(** The budget peeked from a queued command: [.unwrap_or(0)]. *)
Definition command_milliseconds {C} (c : SearchCommand.t C) : N :=
  match (match c.(SearchCommand.operation) with
         | SearchOperation.Search bytes _ => search_budget bytes
         | SearchOperation.Trace bytes => trace_budget bytes
         end) with Ok n => n | _ => 0 end.

Module World.
Record t (T : Type) := mk { queues : list (Queue.t T); shared : Shared.t }.
End World.
Arguments World.mk {T}. Arguments World.queues {T}. Arguments World.shared {T}.

Section Runs.
Context {T : Type} (milliseconds : T → N).
Implicit Types (w : World.t T) (q : Queue.t T).

(** The queues of [Runtime::start]: 0 is the writer, 1 the ordinary lane and,
    with at least two search threads, 2 the expensive lane. *)
Definition start (max_queued_commands max_queued_bytes search_threads : N) : World.t T :=
  let lanes := 2 <=? search_threads in
  World.mk
    (new max_queued_commands max_queued_bytes
     :: new_with_budget_and_wake max_queued_commands max_queued_bytes lanes lanes
     :: if lanes then [new_with_budget_and_wake max_queued_commands max_queued_bytes true true] else [])
    (Shared.mk (QueueBudget.new max_queued_commands max_queued_bytes) QueueWake.new).
(** [Runtime::search_queue] *)
Definition search_queue (w : World.t T) (expensive : bool) : nat :=
  if expensive then match World.queues w !! 2%nat with Some _ => 2 | None => 1 end%nat else 1%nat.

(** One method call on queue [lane], with what it removed if it was not refused. *)
Record call := { lane : nat; method : event (T:=T); result : option (list (Queued.t T)) }.
Inductive step w : call → World.t T → Prop :=
| step_done i e q out q' sh' :
    World.queues w !! i = Some q → exec milliseconds e (q, World.shared w) = Ok (out, (q', sh')) →
    step w {| lane := i; method := e; result := Some out |} (World.mk (<[i:=q']> (World.queues w)) sh')
| step_refused i e q err :
    World.queues w !! i = Some q → exec milliseconds e (q, World.shared w) = Err err →
    step w {| lane := i; method := e; result := None |} w.
Inductive runs w : list call → World.t T → Prop :=
| runs_nil : runs w [] w
| runs_snoc log w' c w'' : runs w log w' → step w' c w'' → runs w (log ++ [c]) w''.

(** ** The invariant *)
Definition shares w : list (N * N) := share <$> World.queues w.
Definition held w : N * N := (sum (shares w).*1, sum (shares w).*2).
Definition world_ok w : Prop :=
  Forall queue_ok (World.queues w) ∧ budget_ok (World.shared w).(Shared.budget)
  ∧ (World.shared w).(Shared.budget).(QueueBudget.state) = held w.

Lemma world_covered w i q : world_ok w → World.queues w !! i = Some q → covered q (World.shared w).
Proof.
  intros (_ & _ & Hh) Hq. unfold covered. rewrite Hh. unfold held, shares. cbn [fst snd].
  split; eapply sum_lookup; rewrite !list_lookup_fmap, Hq; done.
Qed.

Lemma world_exec w i q e : world_ok w → World.queues w !! i = Some q →
  exec_spec e q (World.shared w) (exec milliseconds e (q, World.shared w)).
Proof.
  intros Hw Hq. pose proof Hw as (Hqs & Hb & _). apply exec_ok; [by eapply Forall_lookup_1|by eapply world_covered|done].
Qed.

Lemma world_step w c w' : world_ok w → step w c w' → world_ok w'.
Proof.
  intros Hw [i e q out q' sh' Hq He | i e q err Hq He]; [|done].
  pose proof (world_exec w i q e Hw Hq) as H. rewrite He in H. destruct H as [(Hq' & Hl & [Hm1 Hm2] & Hb') _].
  destruct Hw as (Hqs & Hb & Hh). split_and!; cbn [World.queues World.shared]; [by apply Forall_insert | done|].
  rewrite Hh in *. unfold held, shares in *. cbn [World.queues fst snd] in *. rewrite !list_fmap_insert.
  pose proof (sum_insert ((share <$> World.queues w).*1) i (share q).1 (share q').1) as H1.
  pose proof (sum_insert ((share <$> World.queues w).*2) i (share q).2 (share q').2) as H2.
  rewrite !list_lookup_fmap, Hq in H1, H2. specialize (H1 eq_refl). specialize (H2 eq_refl).
  destruct (QueueBudget.state (Shared.budget sh')) as [a b]. cbn [fst snd] in *. f_equal; lia.
Qed.

Lemma world_runs w log w' : world_ok w → runs w log w' → world_ok w'.
Proof. intros Hw. induction 1; [done|]. by eapply world_step. Qed.

Lemma start_ok max_commands max_bytes threads :
  max_commands <= USIZE_MAX → max_bytes < USIZE_MAX → world_ok (start max_commands max_bytes threads).
Proof.
  intros Hc Hb. unfold start.
  assert (∀ b b', queue_ok (T:=T) (new_with_budget_and_wake max_commands max_bytes b b')) as Hq.
  { intros. unfold queue_ok, total, items. cbn. change (sum []) with 0. split_and!; (done || lia). }
  split_and!; cbn [World.queues World.shared].
  - repeat (constructor; [apply Hq|]). case_if; repeat constructor; apply Hq.
  - unfold budget_ok. cbn. lia.
  - unfold held, shares. cbn [World.queues]. by destruct (2 <=? threads).
Qed.

(** ** Limits along a run *)
Definition limited max_commands max_bytes w : Prop :=
  Forall (λ q, q.(Queue.max_commands) = max_commands ∧ q.(Queue.max_bytes) = max_bytes) (World.queues w)
  ∧ (World.shared w).(Shared.budget).(QueueBudget.max_commands) = max_commands
  ∧ (World.shared w).(Shared.budget).(QueueBudget.max_bytes) = max_bytes.
Definition is_force (e : event (T:=T)) : bool := match e with Force _ _ _ => true | _ => false end.
Definition is_inspect (e : event (T:=T)) : bool := match e with Inspect _ => true | _ => false end.
(** No call of that kind on lane [i]. *)
Definition never (kind : event (T:=T) → bool) (i : nat) (log : list call) : Prop :=
  Forall (λ c, lane c = i → kind (method c) = false) log.

Lemma limited_step mc mb w c w' : world_ok w → limited mc mb w → step w c w' → limited mc mb w'.
Proof.
  intros Hw Hl [i e q out q' sh' Hq He | i e q err Hq He]; [|done].
  pose proof (world_exec w i q e Hw Hq) as H. rewrite He in H. destruct H as [(_ & Hs & Hm & _) _].
  destruct Hl as (Hqs & Hc & Hb). split; cbn [World.queues World.shared]; [|by destruct Hm as (_ & _ & -> & ->)].
  apply Forall_insert; [done|]. destruct Hs as (-> & -> & _). exact (Forall_lookup_1 _ _ _ _ Hqs Hq).
Qed.
Lemma limited_runs mc mb w log w' : world_ok w → limited mc mb w → runs w log w' → limited mc mb w'.
Proof.
  intros Hw Hl. induction 1; [done|]. eapply limited_step; [|by apply IHruns|done]. by eapply world_runs.
Qed.
Lemma start_limited mc mb threads : limited mc mb (start mc mb threads).
Proof. unfold limited, start. cbn. split; [|done]. repeat constructor; by destruct (2 <=? threads); repeat constructor. Qed.

(** What entered and left lane [i]. *)
Definition entered (i : nat) (log : list call) : list (Queued.t T) :=
  log ≫= λ c, if bool_decide (lane c = i) then match result c with Some _ => added (method c) | None => [] end else [].
Definition removed (i : nat) (log : list call) : list (Queued.t T) :=
  log ≫= λ c, if bool_decide (lane c = i) then default [] (result c) else [].

Lemma lane_runs w log w' i q' : world_ok w → runs w log w' → World.queues w' !! i = Some q' →
  ∃ q, World.queues w !! i = Some q ∧
    items q ++ entered i log ≡ₚ removed i log ++ items q' ∧
    (never is_inspect i log → items q ++ entered i log = removed i log ++ items q').
Proof.
  intros Hw Hr. revert q'. induction Hr as [|log w1 c w2 Hr IH Hs]; intros q' Hq'.
  { exists q'. split; [done|]. unfold entered, removed. cbn. by rewrite app_nil_r. }
  unfold entered, removed, never. setoid_rewrite bind_app. setoid_rewrite Forall_app.
  destruct Hs as [j e q out q1 sh' Hq He | j e q err Hq He]; cbn [World.queues] in *.
  - pose proof (world_exec w1 j q e (world_runs _ _ _ Hw Hr) Hq) as H. rewrite He in H. destruct H as [_ Hc].
    destruct (decide (j = i)) as [->|Hne].
    + rewrite list_lookup_insert_eq in Hq' by (by eapply lookup_lt_Some). injection Hq' as <-.
      destruct (IH _ Hq) as (q0 & Hq0 & Hp & Hf). exists q0. split; [done|].
      cbn [mbind list_bind lane method result]. rewrite !bool_decide_eq_true_2 by done. cbn [default from_option id].
      rewrite !app_nil_r, !app_assoc. unfold entered, removed, never in *. cbn [lane method result] in *. split.
      * rewrite Hp, <- !app_assoc. apply Permutation_app_head.
        destruct e; cbn [conserved added] in *; rewrite ?app_nil_r in *; by rewrite Hc.
      * intros [Hn Hni]. rewrite (Hf Hn), <- !app_assoc. f_equal.
        inversion_clear Hni as [|? ? Hi _]. specialize (Hi eq_refl). destruct e; done || exact Hc.
    + rewrite list_lookup_insert_ne in Hq' by done. destruct (IH _ Hq') as (q0 & Hq0 & Hp & Hf). exists q0.
      split; [done|]. cbn [mbind list_bind lane method result]. rewrite !bool_decide_eq_false_2 by done.
      rewrite !app_nil_r. split; [exact Hp|]. intros [Hn _]. exact (Hf Hn).
  - destruct (IH _ Hq') as (q0 & Hq0 & Hp & Hf). exists q0. split; [done|].
    cbn [mbind list_bind lane method result default from_option id].
    replace (if bool_decide (j = i) then [] else []) with (@nil (Queued.t T)) by (by destruct (bool_decide (j = i))).
    rewrite !app_nil_r. split; [exact Hp|]. intros [Hn _]. exact (Hf Hn).
Qed.

Lemma start_items mc mb threads i q : World.queues (start mc mb threads) !! i = Some q → items q = [].
Proof. unfold start. cbn [World.queues]. destruct (2 <=? threads), i as [|[|[|]]]; cbn; naive_solver. Qed.

(** A lane that nobody forces stays within its command limit. *)
Lemma lane_length mc mb threads log w i q :
  world_ok (start mc mb threads) → runs (start mc mb threads) log w → World.queues w !! i = Some q →
  never is_force i log → lenN (items q) <= mc.
Proof.
  intros Hw Hr. revert q. induction Hr as [|log w1 c w2 Hr IH Hs]; intros q' Hq' Hn.
  { rewrite (start_items _ _ _ _ _ Hq'). rewrite lenN_nil. lia. }
  apply Forall_app in Hn as [Hn Hnc]. pose proof (world_runs _ _ _ Hw Hr) as Hw1.
  destruct Hs as [j e q out q1 sh' Hq He | j e q err Hq He]; [|by eapply IH]. cbn [World.queues] in *.
  destruct (decide (j = i)) as [->|Hne]; [|rewrite list_lookup_insert_ne in Hq' by done; by eapply IH].
  rewrite list_lookup_insert_eq in Hq' by (by eapply lookup_lt_Some). injection Hq' as <-.
  specialize (IH _ Hq Hn). inversion_clear Hnc as [|? ? Hi _]. specialize (Hi eq_refl). cbn [method] in Hi.
  pose proof (world_exec w1 i q e Hw1 Hq) as H. rewrite He in H. destruct H as [_ Hc].
  assert (lenN (items q) + lenN (added e) = lenN out + lenN (items q1)) as Hl.
  { rewrite <- !lenN_app. apply lenN_perm. destruct e; cbn [conserved added] in *; rewrite ?app_nil_r in *; by rewrite Hc. }
  destruct e; try done; cbn [added] in Hl; rewrite ?lenN_nil in Hl; try lia.
  apply exec_push_room in He as [_ Hroom].
  destruct (limited_runs _ _ _ _ _ Hw (start_limited mc mb threads) Hr) as (Hqs & _).
  destruct (Forall_lookup_1 _ _ _ _ Hqs Hq) as [Hmc _]. rewrite Hmc in Hroom.
  change (lenN [_]) with 1 in Hl. lia.
Qed.

(** ** Wake-ups *)
(** Which queues hold the shared objects: it never changes. *)
Definition flags w : list (bool * bool) := (λ q, (q.(Queue.shared_budget), q.(Queue.shared_wake))) <$> World.queues w.
Definition holds_wake w (i : nat) : bool := match flags w !! i with Some f => f.2 | None => false end.
(** The calls of a run that notify the sleeping workers. *)
Definition wakes (holds : nat → bool) (log : list call) : N :=
  sum ((λ c, if holds (lane c) && bool_decide (is_Some (result c)) && notifies (method c) then 1 else 0) <$> log).

Lemma flags_step w c w' : world_ok w → step w c w' → flags w' = flags w.
Proof.
  intros Hw [j e q out q' sh' Hq He | j e q err Hq He]; [|done]. unfold flags. cbn [World.queues].
  pose proof (world_exec w j q e Hw Hq) as H. rewrite He in H. destruct H as [(_ & (_ & _ & H1 & H2) & _) _].
  rewrite list_fmap_insert. apply list_insert_id. by rewrite list_lookup_fmap, Hq, H1, H2.
Qed.
Lemma flags_runs w log w' : world_ok w → runs w log w' → flags w' = flags w.
Proof. intros Hw. induction 1 as [|log w1 c w2 Hr IH Hs]; [done|]. rewrite <- IH. eapply flags_step; [|done]. by eapply world_runs. Qed.

Lemma wake_runs w log w' : world_ok w → runs w log w' → (World.shared w).(Shared.wake) < U64 →
  (World.shared w').(Shared.wake) = ((World.shared w).(Shared.wake) + wakes (holds_wake w) log) mod U64.
Proof.
  intros Hw Hr Hlt. induction Hr as [|log w1 c w2 Hr IH Hs].
  { unfold wakes. cbn. change (sum []) with 0. by rewrite N.add_0_r, N.mod_small. }
  pose proof (flags_runs _ _ _ Hw Hr) as Hf.
  unfold wakes in *. rewrite fmap_app, sum_app. cbn [fmap list_fmap].
  rewrite sum_cons. change (sum []) with 0. rewrite N.add_0_r, N.add_assoc.
  destruct Hs as [j e q out q' sh' Hq He | j e q err Hq He]; cbn [lane method result World.shared].
  - apply exec_wake in He as ->. unfold holds_wake. rewrite <- Hf. unfold flags. rewrite list_lookup_fmap, Hq.
    cbn [fmap option_fmap option_map snd]. rewrite bool_decide_eq_true_2 by done. rewrite andb_true_r.
    destruct (Queue.shared_wake q && notifies e).
    + unfold QueueWake.notify. rewrite IH. unfold holds_wake. rewrite <- Hf. apply wrapping_add_mod.
    + rewrite N.add_0_r, IH. unfold holds_wake. by rewrite <- Hf.
  - rewrite bool_decide_eq_false_2 by by intros []. rewrite andb_false_r. cbn [andb]. by rewrite N.add_0_r.
Qed.

(** ** What the queues promise *)

(** No interleaving of queue operations panics: in every state an index can
    reach, each method on each queue returns or is refused. *)
Theorem queues_never_panic max_commands max_bytes threads log w i q e :
  max_commands <= USIZE_MAX → max_bytes < USIZE_MAX →
  runs (start max_commands max_bytes threads) log w → World.queues w !! i = Some q →
  exec milliseconds e (q, World.shared w) ≠ Panic ∧ exec milliseconds e (q, World.shared w) ≠ Fuel.
Proof.
  intros Hc Hb Hr Hq. pose proof (world_runs _ _ _ (start_ok _ _ threads Hc Hb) Hr) as Hw.
  pose proof (world_exec w i q e Hw Hq) as H. by destruct (exec milliseconds e _) as [[? []]|?| |].
Qed.


(** C29: No command is lost or duplicated: what a lane accepted is what it gave out
    and what it still holds; and a lane whose expired commands were never taken
    out gives commands out in the order it accepted them. *)
Theorem commands_conserved max_commands max_bytes threads log w i q :
  max_commands <= USIZE_MAX → max_bytes < USIZE_MAX →
  runs (start max_commands max_bytes threads) log w → World.queues w !! i = Some q →
  entered i log ≡ₚ removed i log ++ items q
  ∧ (never is_inspect i log → entered i log = removed i log ++ items q).
Proof.
  intros Hc Hb Hr Hq. destruct (lane_runs _ _ _ _ _ (start_ok _ _ threads Hc Hb) Hr Hq) as (q0 & Hq0 & Hp).
  by rewrite (start_items _ _ _ _ _ Hq0) in Hp.
Qed.

(** C30: No lost wake-up: a worker that read the wake counter, then found nothing to
    do, sleeps in [wait_for_change] only if no call since its reading pushed to,
    drained or closed a lane (short of 2^64 of them). *)
Theorem no_lost_wakeup max_commands max_bytes threads log w since w' :
  max_commands <= USIZE_MAX → max_bytes < USIZE_MAX →
  runs (start max_commands max_bytes threads) log w → runs w since w' →
  wakes (holds_wake w) since < U64 →
  QueueWake.changed (World.shared w').(Shared.wake) (QueueWake.snapshot (World.shared w).(Shared.wake))
  = (0 <? wakes (holds_wake w) since).
Proof.
  intros Hc Hb Hr Hs Hn. pose proof (start_ok _ _ threads Hc Hb) as H0. pose proof (world_runs _ _ _ H0 Hr) as Hw.
  assert (Shared.wake (World.shared w) < U64) as Hlt.
  { rewrite (wake_runs _ _ _ H0 Hr) by done. by apply N.mod_lt. }
  rewrite (wake_runs _ _ _ Hw Hs Hlt). unfold QueueWake.changed, QueueWake.snapshot.
  set (a := Shared.wake _) in *. set (n := wakes _ _) in *. clearbody a n. unfold U64 in *.
  destruct (N.ltb_spec 0 n) as [H|H].
  - apply negb_true_iff, N.eqb_neq. intros E. destruct (N.lt_ge_cases (a + n) (2 ^ 64)) as [Hs'|Hs'].
    + rewrite N.mod_small in E by done. lia.
    + replace (a + n) with ((a + n - 2 ^ 64) + 1 * 2 ^ 64) in E by lia. rewrite N.Div0.mod_add, N.mod_small in E by lia. lia.
  - assert (n = 0) as -> by lia. rewrite N.add_0_r, N.mod_small by done. by rewrite N.eqb_refl.
Qed.

Lemma least_some clock m es : is_Some m → is_Some (foldl (least milliseconds clock) m es).
Proof. revert m. induction es as [|e es IH]; intros m Hm; [done|]. apply IH. eauto. Qed.
Lemma least_spec clock m es v : foldl (least milliseconds clock) m es = Some v →
  (m = Some v ∨ ∃ e, e ∈ es ∧ remaining_at milliseconds e.2 (clock e.1) = v)
  ∧ (∀ u, m = Some u → v <= u) ∧ (∀ e, e ∈ es → v <= remaining_at milliseconds e.2 (clock e.1)).
Proof.
  revert m. induction es as [|e es IH]; intros m H; cbn [foldl] in H.
  - subst. split_and!; [by left | naive_solver lia | by intros ? ?%not_elem_of_nil].
  - destruct (IH _ H) as (Hv & Hm & He). unfold least in Hv, Hm. specialize (Hm _ eq_refl). cbn beta in Hm. split_and!.
    + destruct Hv as [Hv|(e' & ? & ?)]; [|right; exists e'; split; [by right|done]].
      destruct m as [u|]; [|right; exists e; split; [by left | by injection Hv]].
      injection Hv as Hv. destruct (N.min_spec u (remaining_at milliseconds e.2 (clock e.1))) as [[_ E]|[_ E]];
        rewrite E in Hv; [left; by f_equal | right; exists e; split; [by left | done]].
    + intros u ->. lia.
    + intros e' [->|?]%elem_of_cons; [destruct m; lia | by apply He].
Qed.

(** The expired searches: in every reachable state the inspection takes out
    exactly the commands whose budget has run out when the loop reads the clock
    at them, leaves the others in order, and reports the least time any of them
    has left (nothing when none is left). *)
Theorem inspect_takes_expired max_commands max_bytes threads log w i q clock :
  max_commands <= USIZE_MAX → max_bytes < USIZE_MAX →
  runs (start max_commands max_bytes threads) log w → World.queues w !! i = Some q →
  let numbered := imap pair (items q) in
  let live := filter (λ e, ¬ expired_at milliseconds clock e) numbered in
  ∃ minimum q' sh', inspect_and_take_expired milliseconds clock (q, World.shared w)
    = Ok (((filter (expired_at milliseconds clock) numbered).*2, minimum), (q', sh'))
  ∧ items q' = live.*2
  ∧ (minimum = None ↔ live = [])
  ∧ ∀ m, minimum = Some m → 0 < m ∧ (∃ e, e ∈ live ∧ remaining_at milliseconds e.2 (clock e.1) = m)
      ∧ ∀ e, e ∈ live → m <= remaining_at milliseconds e.2 (clock e.1).
Proof.
  intros Hc Hb Hr Hq numbered live. pose proof (world_runs _ _ _ (start_ok _ _ threads Hc Hb) Hr) as Hw.
  pose proof Hw as (Hqs & Hbu & _).
  destruct (exec_inspect milliseconds q (World.shared w) clock) as (q' & sh' & He & Hi & _);
    [by eapply Forall_lookup_1 | by eapply world_covered | done|].
  eexists _, q', sh'. split; [exact He|]. split; [exact Hi|]. fold numbered live. split.
  - destruct live as [|e l]; [done|]. cbn [foldl]. split; [|done].
    intros E. edestruct (least_some clock (least milliseconds clock None e) l) as [? E']; [by eexists|]. by rewrite E in E'.
  - intros m Hm. destruct (least_spec _ _ _ _ Hm) as ([?|(e & Hin & Hrem)] & _ & Hle); [done|].
    split_and!; [|by exists e|done]. pose proof Hin as Hin'. apply list_elem_of_filter in Hin' as [Hne _].
    unfold expired_at in Hne. lia.
Qed.
End Runs.

(** ** The theorems at an index with two search threads *)

(** One search accepted at time 1 by the ordinary lane, with 5 ms to run. *)
Lemma one_search : ∃ log w q,
  log = [{| lane := 1; method := Push 5%nat 50 None (λ v _, v) 1; result := Some [] |}]
  ∧ runs N.of_nat (start 4 100 2) log w ∧ World.queues w !! 1%nat = Some q ∧ items q = [Queued.mk 5%nat 50 1].
Proof.
  eexists _, _, _. split; [reflexivity|]. split.
  { eapply (runs_snoc _ _ []); [apply runs_nil|].
    eapply (step_done N.of_nat (start 4 100 2) 1%nat (Push 5%nat 50 None (λ v _, v) 1)); reflexivity. }
  split; reflexivity.
Qed.

Lemma queues_never_panic_witness : ∃ (w : World.t nat) q,
  items q = [Queued.mk 5%nat 50 1] ∧ exec N.of_nat (Push 7%nat 60 None (λ v _, v) 3) (q, World.shared w) ≠ Panic.
Proof.
  destruct one_search as (log & w & q & -> & Hr & Hq & Hi). exists w, q. split; [exact Hi|].
  eapply (queues_never_panic N.of_nat 4 100 2 _ w 1%nat q _); [by vm_compute | by vm_compute | exact Hr | exact Hq].
Defined.
Lemma commands_conserved_witness : ∃ q : Queue.t nat, items q = [Queued.mk 5%nat 50 1] ∧ [Queued.mk 5%nat 50 1] ≡ₚ [] ++ items q.
Proof.
  destruct one_search as (log & w & q & -> & Hr & Hq & Hi). exists q. split; [exact Hi|].
  apply (commands_conserved N.of_nat 4 100 2 _ w 1%nat q ltac:(by vm_compute) ltac:(by vm_compute) Hr Hq).
Defined.
Lemma no_lost_wakeup_witness : ∃ w : World.t nat, QueueWake.changed (Shared.wake (World.shared w)) 0 = true.
Proof.
  destruct one_search as (log & w & q & -> & Hr & Hq & Hi). exists w.
  etransitivity; [eapply (no_lost_wakeup N.of_nat 4 100 2 [] (start 4 100 2) _ w);
    [by vm_compute | by vm_compute | apply runs_nil | exact Hr | by vm_compute] | reflexivity].
Defined.
Lemma inspect_takes_expired_witness : ∃ (w : World.t nat) q, items q = [Queued.mk 5%nat 50 1] ∧
  ∃ q' sh', inspect_and_take_expired N.of_nat (λ _, 5000002) (q, World.shared w) = Ok (([Queued.mk 5%nat 50 1], None), (q', sh')).
Proof.
  destruct one_search as (log & w & q & -> & Hr & Hq & Hi). exists w, q. split; [exact Hi|].
  destruct (inspect_takes_expired N.of_nat 4 100 2 _ w 1%nat q (λ _, 5000002)
    ltac:(by vm_compute) ltac:(by vm_compute) Hr Hq) as (m & q' & sh' & He & _ & Hm & _).
  exists q', sh'. rewrite He. rewrite Hi in Hm |- *. assert (m = None) as -> by (apply Hm; by vm_compute). by vm_compute.
Defined.
