(* ===== verification/Budget.v ===== *)
(** * src/src/native.rs: the process-wide runtime budget

    [RuntimeBudget] counts what the open indexes of the process hold;
    [RuntimeBudgetState] says whether it is configured.  Counters are atomics:
    a reservation is built, and dropped, one counter at a time, and other
    threads run in between ([account_step]).  [admit_] and the destructor are the
    sequences the code runs; [admit_all_or_nothing] says what they amount to
    when nobody interferes, [budget_exact] what holds in every interleaving. *)
From S2P Require Import Prelude.
From S2P Require Import Errors.
From S2P Require Import Bytes.
From S2P Require Import Request.
From S2P Require Import Queue.
Local Open Scope N_scope.

(** lifecycle.rs *)
Definition STATE_OPEN : N := 0.
Definition STATE_CLOSING : N := 1.
Definition STATE_CLOSED : N := 2.
Definition STATE_POISONED : N := 3.

Module RuntimeBudget.
Record t := mk {
  limits : RuntimeBudgetLimits.t;
  resident_indexes : N; indexing_threads : N; search_threads : N; writer_memory_bytes : N; queued_bytes : N;
  expensive_searches : N;
  expensive_search_wakes : gmap N N }.
Definition new (limits : RuntimeBudgetLimits.t) : t := mk limits 0 0 0 0 0 0 ∅.
End RuntimeBudget.

Module BudgetReservation.
Record t := mk { resident : bool; indexing_threads : N; search_threads : N; writer_memory_bytes : N; queued_bytes : N }.
Definition empty : t := mk false 0 0 0 0.
End BudgetReservation.

(** The five atomic counters. *)
Inductive counter := ResidentIndexes | IndexingThreads | SearchThreads | WriterMemory | QueuedBytes.
#[export] Instance counter_eq_dec : EqDecision counter.
Proof. solve_decision. Defined.

Definition counted (b : RuntimeBudget.t) (c : counter) : N :=
  match c with
  | ResidentIndexes => b.(RuntimeBudget.resident_indexes)
  | IndexingThreads => b.(RuntimeBudget.indexing_threads)
  | SearchThreads => b.(RuntimeBudget.search_threads)
  | WriterMemory => b.(RuntimeBudget.writer_memory_bytes)
  | QueuedBytes => b.(RuntimeBudget.queued_bytes)
  end.
Definition set_counted (b : RuntimeBudget.t) (c : counter) (n : N) : RuntimeBudget.t :=
  let 'RuntimeBudget.mk l r i s m q e w := b in
  match c with
  | ResidentIndexes => RuntimeBudget.mk l n i s m q e w
  | IndexingThreads => RuntimeBudget.mk l r n s m q e w
  | SearchThreads => RuntimeBudget.mk l r i n m q e w
  | WriterMemory => RuntimeBudget.mk l r i s n q e w
  | QueuedBytes => RuntimeBudget.mk l r i s m n e w
  end.
Definition maximum (l : RuntimeBudgetLimits.t) (c : counter) : N :=
  match c with
  | ResidentIndexes => l.(RuntimeBudgetLimits.max_resident_indexes)
  | IndexingThreads => l.(RuntimeBudgetLimits.max_indexing_threads)
  | SearchThreads => l.(RuntimeBudgetLimits.max_search_threads)
  | WriterMemory => l.(RuntimeBudgetLimits.max_writer_memory_bytes)
  | QueuedBytes => l.(RuntimeBudgetLimits.max_queued_bytes)
  end.
Definition resource_name (c : counter) : string :=
  match c with
  | ResidentIndexes => "resident indexes" | IndexingThreads => "indexing threads"
  | SearchThreads => "search threads" | WriterMemory => "writer memory" | QueuedBytes => "queued bytes"
  end.
Definition reserved (r : BudgetReservation.t) (c : counter) : N :=
  match c with
  | ResidentIndexes => if r.(BudgetReservation.resident) then 1 else 0
  | IndexingThreads => r.(BudgetReservation.indexing_threads)
  | SearchThreads => r.(BudgetReservation.search_threads)
  | WriterMemory => r.(BudgetReservation.writer_memory_bytes)
  | QueuedBytes => r.(BudgetReservation.queued_bytes)
  end.
Definition set_reserved (r : BudgetReservation.t) (c : counter) (n : N) : BudgetReservation.t :=
  let 'BudgetReservation.mk b i s m q := r in
  match c with
  | ResidentIndexes => BudgetReservation.mk (negb (n =? 0)) i s m q
  | IndexingThreads => BudgetReservation.mk b n s m q
  | SearchThreads => BudgetReservation.mk b i n m q
  | WriterMemory => BudgetReservation.mk b i s n q
  | QueuedBytes => BudgetReservation.mk b i s m n
  end.

(** ** One atomic update *)
Definition resource_limit (m : string) : FulltextError := FulltextError_new "E_RESOURCE_LIMIT" m.
(** [fetch_update(|current| current.checked_add(amount).filter(|next| *next <= maximum))] *)
Definition reserve (current amount maximum : N) (resource : string) : outcome N :=
  match checked_add current amount with
  | Some next => if next <=? maximum then Ok next
                 else Err (resource_limit ("process-wide " +:+ resource +:+ " limit exceeded"))
  | None => Err (resource_limit ("process-wide " +:+ resource +:+ " limit exceeded"))
  end.
(** A failed update trips the [debug_assert]. *)
Definition release (current amount : N) : outcome N :=
  if amount =? 0 then Ok current else unwrap (checked_sub current amount).

(** [reserve(&self.<counter>, amount, ..)?; admission.<counter> = amount;] *)
Definition reserve_into (c : counter) (amount : N) : E (RuntimeBudget.t * BudgetReservation.t) () := λ '(b, r),
  match reserve (counted b c) amount (maximum b.(RuntimeBudget.limits) c) (resource_name c) with
  | Ok next => (Ok (), (set_counted b c next, set_reserved r c amount))
  | Err e => (Err e, (b, r)) | Panic => (Panic, (b, r)) | Fuel => (Fuel, (b, r))
  end.
Definition release_from (c : counter) : E (RuntimeBudget.t * BudgetReservation.t) () := λ '(b, r),
  match release (counted b c) (reserved r c) with
  | Ok next => (Ok (), (set_counted b c next, set_reserved r c 0))
  | Err e => (Err e, (b, r)) | Panic => (Panic, (b, r)) | Fuel => (Fuel, (b, r))
  end.

(** ** Admission *)
(** The body of [RuntimeBudget::admit] after the empty reservation is made. *)
Definition admit_body (limits : Limits.t) (read_only : bool) : E (RuntimeBudget.t * BudgetReservation.t) () :=
  _ ← reserve_into ResidentIndexes 1;
  _ ← (if negb read_only then reserve_into IndexingThreads limits.(Limits.indexing_threads) else mret ());
  _ ← reserve_into SearchThreads limits.(Limits.search_threads);
  _ ← (if negb read_only then reserve_into WriterMemory limits.(Limits.writer_memory_bytes) else mret ());
  match checked_mul limits.(Limits.max_queued_bytes) (if read_only then 1 else 2) with
  | Some queued_bytes => reserve_into QueuedBytes queued_bytes
  | None => λ s, (Err (resource_limit "configured queue capacity overflows"), s)
  end.
(** [impl Drop for BudgetReservation]: [release] of a counter never reserved is of 0. *)
Definition drop_reservation : E (RuntimeBudget.t * BudgetReservation.t) () :=
  _ ← release_from ResidentIndexes;
  _ ← release_from IndexingThreads;
  _ ← release_from SearchThreads;
  _ ← release_from WriterMemory;
  release_from QueuedBytes.
(** [RuntimeBudget::admit]: on an early return the partial reservation is dropped. *)
Definition admit_ (b : RuntimeBudget.t) (limits : Limits.t) (read_only : bool)
    : outcome BudgetReservation.t * RuntimeBudget.t :=
  match admit_body limits read_only (b, BudgetReservation.empty) with
  | (Ok _, (b, r)) => (Ok r, b)
  | (Err e, s) => match drop_reservation s with
                  | (Ok _, (b, _)) => (Err e, b) | (Err e', (b, _)) => (Err e', b)
                  | (Panic, (b, _)) => (Panic, b) | (Fuel, (b, _)) => (Fuel, b) end
  | (Panic, (b, _)) => (Panic, b)
  | (Fuel, (b, _)) => (Fuel, b)
  end.

(** What an index asks for, and what the budget looks like with it. *)
Definition demand (limits : Limits.t) (read_only : bool) : BudgetReservation.t :=
  BudgetReservation.mk true
    (if read_only then 0 else limits.(Limits.indexing_threads)) limits.(Limits.search_threads)
    (if read_only then 0 else limits.(Limits.writer_memory_bytes))
    (limits.(Limits.max_queued_bytes) * if read_only then 1 else 2).
Definition charged (b : RuntimeBudget.t) (r : BudgetReservation.t) : RuntimeBudget.t :=
  let 'RuntimeBudget.mk l ri i s m q e w := b in
  RuntimeBudget.mk l (ri + reserved r ResidentIndexes) (i + reserved r IndexingThreads)
    (s + reserved r SearchThreads) (m + reserved r WriterMemory) (q + reserved r QueuedBytes) e w.
Definition fits (b : RuntimeBudget.t) (r : BudgetReservation.t) : Prop :=
  ∀ c, counted b c + reserved r c <= maximum b.(RuntimeBudget.limits) c.
Definition within_limits (b : RuntimeBudget.t) : Prop :=
  ∀ c, counted b c <= maximum b.(RuntimeBudget.limits) c <= USIZE_MAX.

Lemma charged_empty b : charged b BudgetReservation.empty = b.
Proof. destruct b. cbn. by rewrite !N.add_0_r. Qed.
Lemma counted_charged b r c : counted (charged b r) c = counted b c + reserved r c.
Proof. by destruct b, c. Qed.
Lemma limits_charged b r : RuntimeBudget.limits (charged b r) = RuntimeBudget.limits b.
Proof. by destruct b. Qed.

Lemma reserve_spec current amount max name : max <= USIZE_MAX →
  (current + amount <= max ∧ reserve current amount max name = Ok (current + amount))
  ∨ (max < current + amount ∧ ∃ e, reserve current amount max name = Err e ∧ code e = "E_RESOURCE_LIMIT"%string).
Proof.
  intros Hm. unfold reserve, checked_add. destruct (N.leb_spec (current + amount) USIZE_MAX) as [Hu|Hu].
  - destruct (N.leb_spec (current + amount) max); [by left | right; split; [lia | by eexists]].
  - right. split; [lia | by eexists].
Qed.
Lemma release_spec current amount : release (current + amount) amount = Ok current.
Proof.
  unfold release, checked_sub. destruct (N.eqb_spec amount 0) as [->|]; [by rewrite N.add_0_r|].
  destruct (N.leb_spec amount (current + amount)); [|lia]. cbn. f_equal. lia.
Qed.

(** Reserving on top of a partial reservation that the budget already counts. *)
Lemma reserve_into_charged b r c amount :
  within_limits b → reserved r c = 0 → (c = ResidentIndexes → amount = 1) →
  (counted b c + amount <= maximum b.(RuntimeBudget.limits) c
   ∧ reserve_into c amount (charged b r, r) = (Ok (), (charged b (set_reserved r c amount), set_reserved r c amount)))
  ∨ (maximum b.(RuntimeBudget.limits) c < counted b c + amount
   ∧ ∃ e, code e = "E_RESOURCE_LIMIT"%string ∧ reserve_into c amount (charged b r, r) = (Err e, (charged b r, r))).
Proof.
  intros Hw Hr Hc. unfold reserve_into. rewrite counted_charged, limits_charged, Hr, N.add_0_r.
  destruct (reserve_spec (counted b c) amount (maximum (RuntimeBudget.limits b) c) (resource_name c)) as [[H ->]|[H (e & -> & He)]].
  - apply Hw.
  - left. split; [done|]. do 3 f_equal. destruct b, r, c; cbn in *; subst; rewrite ?N.add_0_r; try done.
    rewrite (Hc eq_refl). by destruct resident.
  - right. split; [done|]. by exists e.
Qed.
Lemma drop_charged b r : drop_reservation (charged b r, r) = (Ok (), (b, BudgetReservation.empty)).
Proof.
  destruct b as [l ri i s m q e w], r as [br ir sr mr qr]. unfold drop_reservation, release_from, charged.
  cbv [mbind E_bind counted reserved set_counted set_reserved BudgetReservation.indexing_threads
       BudgetReservation.search_threads BudgetReservation.writer_memory_bytes BudgetReservation.queued_bytes
       BudgetReservation.resident RuntimeBudget.resident_indexes RuntimeBudget.indexing_threads
       RuntimeBudget.search_threads RuntimeBudget.writer_memory_bytes RuntimeBudget.queued_bytes].
  by rewrite !release_spec.
Qed.

Ltac reserve_step Hw Hno c :=
  match goal with
  | |- context [reserve_into c ?amount (charged ?b ?r, ?r)] =>
      let H := fresh "H" in let e := fresh "e" in
      destruct (reserve_into_charged b r c amount Hw) as [[H ->]|[H (e & ? & ->)]];
      [reflexivity | done | | right; split; [apply (Hno c); exact H | by exists e, r]];
      cbn [set_reserved N.eqb Pos.eqb negb]
  end.

Lemma admit_body_spec b limits ro : within_limits b →
  (fits b (demand limits ro) ∧ admit_body limits ro (b, BudgetReservation.empty)
     = (Ok (), (charged b (demand limits ro), demand limits ro)))
  ∨ (¬ fits b (demand limits ro) ∧ ∃ e r, code e = "E_RESOURCE_LIMIT"%string
     ∧ admit_body limits ro (b, BudgetReservation.empty) = (Err e, (charged b r, r))).
Proof.
  intros Hw.
  assert (∀ c, maximum (RuntimeBudget.limits b) c < counted b c + reserved (demand limits ro) c → ¬ fits b (demand limits ro)) as Hno.
  { intros c Hc Hf. specialize (Hf c). lia. }
  assert ((b, BudgetReservation.empty) = (charged b BudgetReservation.empty, BudgetReservation.empty)) as E0
    by (by rewrite charged_empty).
  rewrite E0. unfold BudgetReservation.empty, admit_body. cbv [mbind E_bind mret E_ret].
  pose proof (Hw IndexingThreads) as Hi. pose proof (Hw WriterMemory) as Hm. pose proof (Hw QueuedBytes) as Hq.
  destruct ro; cbn [negb demand] in *; reserve_step Hw Hno ResidentIndexes.
  - reserve_step Hw Hno SearchThreads. unfold checked_mul.
    destruct (N.leb_spec (Limits.max_queued_bytes limits * 1) USIZE_MAX).
    + reserve_step Hw Hno QueuedBytes. left. split; [|done]. intros []; cbn [reserved demand BudgetReservation.resident
        BudgetReservation.indexing_threads BudgetReservation.search_threads BudgetReservation.writer_memory_bytes BudgetReservation.queued_bytes]; lia.
    + right. split; [apply (Hno QueuedBytes); cbn [reserved demand BudgetReservation.queued_bytes]; lia|].
      by eexists _, _; split; [|reflexivity].
  - reserve_step Hw Hno IndexingThreads. reserve_step Hw Hno SearchThreads. reserve_step Hw Hno WriterMemory. unfold checked_mul.
    destruct (N.leb_spec (Limits.max_queued_bytes limits * 2) USIZE_MAX).
    + reserve_step Hw Hno QueuedBytes. left. split; [|done]. by intros [].
    + right. split; [apply (Hno QueuedBytes); cbn [reserved demand BudgetReservation.queued_bytes]; lia|].
      by eexists _, _; split; [|reflexivity].
Qed.

(** C31: Admission is all or nothing: an index is admitted exactly when every
    resource it asks for is still available, and then the budget counts it; a
    refused index leaves the budget as it found it, partial reservations
    included. *)
Theorem admit_all_or_nothing b limits read_only : within_limits b →
  (fits b (demand limits read_only)
   ∧ admit_ b limits read_only = (Ok (demand limits read_only), charged b (demand limits read_only)))
  ∨ (¬ fits b (demand limits read_only)
   ∧ ∃ e, code e = "E_RESOURCE_LIMIT"%string ∧ admit_ b limits read_only = (Err e, b)).
Proof.
  intros Hw. unfold admit_. destruct (admit_body_spec b limits read_only Hw) as [[? ->]|[? (e & r & ? & ->)]].
  - by left.
  - right. split; [done|]. exists e. by rewrite drop_charged.
Qed.

(** ** The state of the process *)
#[export] Instance RuntimeBudgetLimits_eq_dec : EqDecision RuntimeBudgetLimits.t.
Proof. solve_decision. Defined.

Module RuntimeBudgetState.
Inductive t := Unconfigured (pending_opens : N) | Configured (budget : RuntimeBudget.t) | OpenedWithoutBudget.
End RuntimeBudgetState.
Import RuntimeBudgetState.
Module RuntimeAdmissionKind.
Inductive t := Budgeted (reservation : BudgetReservation.t) | Unbudgeted (pending : bool).
End RuntimeAdmissionKind.
Import RuntimeAdmissionKind.

Definition configure_runtime_budget_in (limits : RuntimeBudgetLimits.t) : E RuntimeBudgetState.t () := λ state,
  match state with
  | Unconfigured 0 => (Ok (), Configured (RuntimeBudget.new limits))
  | Unconfigured _ => (Err (FulltextError_new "E_LOCK_BUSY"
      "the process-wide fulltext runtime budget cannot be configured while an index open is pending"), state)
  | Configured configured =>
      if bool_decide (configured.(RuntimeBudget.limits) = limits) then (Ok (), state)
      else (Err (resource_limit "the process-wide fulltext runtime budget is already configured differently"), state)
  | OpenedWithoutBudget => (Err (resource_limit
      "the process-wide fulltext runtime budget cannot be configured after an unbudgeted open or unproven teardown; restart the process"), state)
  end.

Definition admit_runtime (limits : Limits.t) (read_only : bool) : E RuntimeBudgetState.t RuntimeAdmissionKind.t := λ state,
  match state with
  | Unconfigured pending_opens =>
      match checked_add pending_opens 1 with
      | Some n => (Ok (Unbudgeted true), Unconfigured n)
      | None => (Err (resource_limit "too many pending index opens"), state)
      end
  | Configured budget =>
      match admit_ budget limits read_only with
      | (Ok reservation, budget) => (Ok (Budgeted reservation), Configured budget)
      | (Err e, budget) => (Err e, Configured budget)
      | (Panic, budget) => (Panic, Configured budget)
      | (Fuel, budget) => (Fuel, Configured budget)
      end
  | OpenedWithoutBudget => (Ok (Unbudgeted false), state)
  end.

(** [RuntimeAdmission::confirm_open]: the new kind of the admission. *)
Definition confirm_open (kind : RuntimeAdmissionKind.t) : E RuntimeBudgetState.t RuntimeAdmissionKind.t := λ state,
  match kind with
  | Unbudgeted true =>
      (Ok (Unbudgeted false),
       match state with
       | Unconfigured pending_opens => if 0 <? pending_opens then OpenedWithoutBudget else state
       | _ => state
       end)
  | _ => (Ok kind, state)
  end.

(** [retain_until_restart_in]: [true] when the admission was forgotten, so that
    its destructor never runs. *)
Definition retain_until_restart_in (kind : RuntimeAdmissionKind.t) : E RuntimeBudgetState.t bool := λ state,
  match kind with
  | Budgeted _ => (Ok true, state)
  | Unbudgeted false => (Ok false, state)
  | Unbudgeted true =>
      (Ok false, match state with Unconfigured _ => OpenedWithoutBudget | _ => state end)
  end.

(** [impl Drop for RuntimeAdmission], without the destructor of the field. *)
Definition drop_admission (kind : RuntimeAdmissionKind.t) : E RuntimeBudgetState.t () := λ state,
  match kind, state with
  | Unbudgeted true, Unconfigured pending_opens =>
      if 0 <? pending_opens then (Ok (), Unconfigured (saturating_sub pending_opens 1)) else (Panic, state)
  | _, _ => (Ok (), state)
  end.

(** ** Interleavings

    [slots] are the admissions ever made, [retained] the reservations forgotten
    until restart.  While an index is being admitted, or its reservation
    dropped, other threads run between two counters. *)
Inductive slot := Live (kind : RuntimeAdmissionKind.t) | Gone.
Record process := { state : RuntimeBudgetState.t; slots : list slot; retained : list BudgetReservation.t }.
Definition boot : process := {| state := Unconfigured 0; slots := []; retained := [] |}.
Implicit Types p : process.

Inductive process_step : process → process → Prop :=
| step_configure s sl rt limits r s' :
    configure_runtime_budget_in limits s = (r, s') →
    process_step {| state := s; slots := sl; retained := rt |} {| state := s'; slots := sl; retained := rt |}
| step_unbudgeted s sl rt limits read_only pending s' :
    admit_runtime limits read_only s = (Ok (Unbudgeted pending), s') →
    process_step {| state := s; slots := sl; retained := rt |}
                 {| state := s'; slots := sl ++ [Live (Unbudgeted pending)]; retained := rt |}
| step_begin b sl rt :
    process_step {| state := Configured b; slots := sl; retained := rt |}
                 {| state := Configured b; slots := sl ++ [Live (Budgeted BudgetReservation.empty)]; retained := rt |}
| step_reserve b sl rt k r c amount b' r' :
    sl !! k = Some (Live (Budgeted r)) → reserved r c = 0 → (c = ResidentIndexes → amount = 1) →
    reserve_into c amount (b, r) = (Ok (), (b', r')) →
    process_step {| state := Configured b; slots := sl; retained := rt |}
                 {| state := Configured b'; slots := <[k:=Live (Budgeted r')]> sl; retained := rt |}
| step_release b sl rt k r c b' r' :
    sl !! k = Some (Live (Budgeted r)) → release_from c (b, r) = (Ok (), (b', r')) →
    process_step {| state := Configured b; slots := sl; retained := rt |}
                 {| state := Configured b'; slots := <[k:=Live (Budgeted r')]> sl; retained := rt |}
| step_confirm s sl rt k kind kind' s' :
    sl !! k = Some (Live kind) → confirm_open kind s = (Ok kind', s') →
    process_step {| state := s; slots := sl; retained := rt |}
                 {| state := s'; slots := <[k:=Live kind']> sl; retained := rt |}
| step_retain s sl rt k kind forgotten s' :
    sl !! k = Some (Live kind) → retain_until_restart_in kind s = (Ok forgotten, s') →
    process_step {| state := s; slots := sl; retained := rt |}
                 {| state := s'; slots := <[k:=Gone]> sl;
                    retained := match kind with Budgeted r => if forgotten then r :: rt else rt | _ => rt end |}
| step_drop s sl rt k kind s' :
    sl !! k = Some (Live kind) → (∀ r, kind = Budgeted r → r = BudgetReservation.empty) →
    drop_admission kind s = (Ok (), s') →
    process_step {| state := s; slots := sl; retained := rt |}
                 {| state := s'; slots := <[k:=Gone]> sl; retained := rt |}.
Definition process_steps : process → process → Prop := rtc process_step.

(** What the live and the retained reservations hold. *)
Definition slot_reserved (c : counter) (s : slot) : N :=
  match s with Live (Budgeted r) => reserved r c | _ => 0 end.
Definition outstanding p (c : counter) : N :=
  sum (slot_reserved c <$> p.(slots)) + sum ((λ r, reserved r c) <$> p.(retained)).
Definition is_budgeted (s : slot) : Prop := match s with Live (Unbudgeted _) => False | _ => True end.
Definition is_unbudgeted (s : slot) : Prop := match s with Live (Budgeted _) => False | _ => True end.
Definition is_pending (s : slot) : Prop := match s with Live (Unbudgeted true) | Gone => True | _ => False end.
Definition live_count (sl : list slot) : N := sum ((λ s, match s with Live _ => 1 | Gone => 0 end) <$> sl).

Definition process_ok p : Prop :=
  match p.(state) with
  | Unconfigured n => Forall is_pending p.(slots) ∧ n = live_count p.(slots) ∧ p.(retained) = []
  | Configured b => Forall is_budgeted p.(slots) ∧ (∀ c, counted b c = outstanding p c)
                    ∧ (∀ c, counted b c <= maximum b.(RuntimeBudget.limits) c)
  | OpenedWithoutBudget => Forall is_unbudgeted p.(slots) ∧ p.(retained) = []
  end.

(** *** The steps keep the accounts *)
Lemma live_count_insert sl k kind x : sl !! k = Some (Live kind) →
  live_count (<[k:=x]> sl) + 1 = live_count sl + match x with Live _ => 1 | Gone => 0 end.
Proof.
  intros H. unfold live_count. rewrite list_fmap_insert.
  apply (sum_insert ((λ s, match s with Live _ => 1 | Gone => 0 end) <$> sl)). by rewrite list_lookup_fmap, H.
Qed.
Lemma live_count_none sl : live_count sl = 0 → Forall (λ s, s = Gone) sl.
Proof.
  induction sl as [|[kind|] sl IH]; intros H; constructor; unfold live_count in *; rewrite fmap_cons, sum_cons in H; cbn beta iota in H;
    [lia | apply IH; lia | done | apply IH; lia].
Qed.
Lemma live_count_snoc sl kind : live_count (sl ++ [Live kind]) = live_count sl + 1.
Proof. unfold live_count. by rewrite fmap_app, sum_app. Qed.

Lemma outstanding_insert s s' sl rt k x y c : sl !! k = Some x →
  outstanding {| state := s'; slots := <[k:=y]> sl; retained := rt |} c + slot_reserved c x
  = outstanding {| state := s; slots := sl; retained := rt |} c + slot_reserved c y.
Proof.
  intros H. unfold outstanding. cbn [slots retained]. rewrite list_fmap_insert.
  pose proof (sum_insert (slot_reserved c <$> sl) k (slot_reserved c x) (slot_reserved c y)) as Hs.
  rewrite list_lookup_fmap, H in Hs. specialize (Hs eq_refl). lia.
Qed.
Lemma outstanding_snoc s s' sl rt x c :
  outstanding {| state := s'; slots := sl ++ [x]; retained := rt |} c
  = outstanding {| state := s; slots := sl; retained := rt |} c + slot_reserved c x.
Proof. unfold outstanding. cbn [slots retained]. rewrite fmap_app, sum_app. cbn [fmap list_fmap]. rewrite sum_cons. change (sum []) with 0. lia. Qed.
Lemma outstanding_state s s' sl rt c :
  outstanding {| state := s'; slots := sl; retained := rt |} c = outstanding {| state := s; slots := sl; retained := rt |} c.
Proof. done. Qed.

Lemma counted_set b c n c' : counted (set_counted b c n) c' = if decide (c' = c) then n else counted b c'.
Proof. by destruct b, c, c'. Qed.
Lemma limits_set b c n : RuntimeBudget.limits (set_counted b c n) = RuntimeBudget.limits b.
Proof. by destruct b, c. Qed.
Lemma reserved_set r c n c' : (c = ResidentIndexes → n <= 1) →
  reserved (set_reserved r c n) c' = if decide (c' = c) then n else reserved r c'.
Proof.
  intros H. destruct r, c, c'; try done. rewrite decide_True by done. cbn [set_reserved reserved BudgetReservation.resident].
  specialize (H eq_refl). destruct (N.eqb_spec n 0) as [->|]; cbn [negb]; lia.
Qed.

Lemma reserve_into_inv b r c amount b' r' : reserved r c = 0 → (c = ResidentIndexes → amount = 1) →
  reserve_into c amount (b, r) = (Ok (), (b', r')) →
  RuntimeBudget.limits b' = RuntimeBudget.limits b
  ∧ (∀ c', counted b' c' + reserved r c' = counted b c' + reserved r' c')
  ∧ counted b' c <= maximum b.(RuntimeBudget.limits) c ∧ (∀ c', c' ≠ c → counted b' c' = counted b c').
Proof.
  intros Hr Hc H. unfold reserve_into, reserve, checked_add in H.
  destruct (N.leb_spec (counted b c + amount) USIZE_MAX); [|done].
  destruct (N.leb_spec (counted b c + amount) (maximum (RuntimeBudget.limits b) c)); [|done].
  injection H as <- <-. rewrite limits_set. split; [done|].
  assert (∀ c', reserved (set_reserved r c amount) c' = if decide (c' = c) then amount else reserved r c') as Hset.
  { intros. apply reserved_set. intros ->. by rewrite Hc. }
  split_and!.
  - intros c'. rewrite counted_set, Hset. case_if; [subst; lia | lia].
  - rewrite counted_set, decide_True by done. lia.
  - intros c' Hne. by rewrite counted_set, decide_False.
Qed.
Lemma release_from_inv b r c b' r' : release_from c (b, r) = (Ok (), (b', r')) →
  RuntimeBudget.limits b' = RuntimeBudget.limits b
  ∧ (∀ c', counted b' c' + reserved r c' = counted b c' + reserved r' c')
  ∧ (∀ c', counted b' c' <= counted b c').
Proof.
  intros H. unfold release_from, release, checked_sub in H.
  assert (∃ n, n + reserved r c = counted b c ∧ b' = set_counted b c n ∧ r' = set_reserved r c 0) as (n & Hn & -> & ->).
  { destruct (N.eqb_spec (reserved r c) 0) as [E|E].
    - injection H as <- <-. exists (counted b c). by rewrite E, N.add_0_r.
    - destruct (N.leb_spec (reserved r c) (counted b c)); [|done]. injection H as <- <-.
      eexists. split; [|done]. lia. }
  rewrite limits_set. split; [done|]. assert (∀ c', reserved (set_reserved r c 0) c' = if decide (c' = c) then 0 else reserved r c') as Hset.
  { intros. apply reserved_set. lia. }
  split; intros c'; rewrite ?Hset, counted_set; case_if; subst; lia.
Qed.

(** Replacing the reservation of a live slot of a configured process. *)
Lemma configured_update b sl rt k r b' r' :
  process_ok {| state := Configured b; slots := sl; retained := rt |} → sl !! k = Some (Live (Budgeted r)) →
  RuntimeBudget.limits b' = RuntimeBudget.limits b →
  (∀ c, counted b' c + reserved r c = counted b c + reserved r' c) →
  (∀ c, counted b' c <= maximum b.(RuntimeBudget.limits) c) →
  process_ok {| state := Configured b'; slots := <[k:=Live (Budgeted r')]> sl; retained := rt |}.
Proof.
  intros (Hsl & Hc & Hm) Hk Hl He Hb. cbn [process_ok state slots] in *. split_and!.
  - by apply Forall_insert.
  - intros c. pose proof (outstanding_insert (Configured b) (Configured b') sl rt k _ (Live (Budgeted r')) c Hk) as Ho.
    cbn [slot_reserved] in Ho. specialize (He c). rewrite Hc in He. lia.
  - intros c. by rewrite Hl.
Qed.

(** Refutes a slot of the wrong kind. *)
Ltac absurd_slot :=
  exfalso; match goal with
  | Hsl : Forall _ ?sl, Hk : ?sl !! _ = Some _ |- _ => exact (Forall_lookup_1 _ _ _ _ Hsl Hk)
  end.
Ltac process_cbn := cbn [process_ok state slots retained] in *.

Lemma nothing_live sl : live_count sl = 0 → Forall is_budgeted sl ∧ ∀ c, sum (slot_reserved c <$> sl) = 0.
Proof.
  intros H%live_count_none. split; [eapply Forall_impl; [exact H|]; by intros ? ->|].
  intros c. induction H as [|x sl -> H IH]; [done|]. rewrite fmap_cons, sum_cons. by rewrite IH.
Qed.

Lemma configure_ok s sl rt limits r s' : process_ok {| state := s; slots := sl; retained := rt |} →
  configure_runtime_budget_in limits s = (r, s') → process_ok {| state := s'; slots := sl; retained := rt |}.
Proof.
  intros Hp Hs. destruct s as [n|b|]; cbn [configure_runtime_budget_in] in Hs; [| |by injection Hs as <- <-].
  - destruct n; [|by injection Hs as <- <-]. injection Hs as <- <-. process_cbn. destruct Hp as (_ & Hn & ->).
    apply eq_sym, nothing_live in Hn as [Hsl H0]. split_and!; [done| |]; intros c; [|destruct c; cbn; lia].
    unfold outstanding. cbn [slots retained]. rewrite H0. by destruct c.
  - case_bool_decide; by injection Hs as <- <-.
Qed.

Lemma unbudgeted_ok s sl rt limits ro pending s' : process_ok {| state := s; slots := sl; retained := rt |} →
  admit_runtime limits ro s = (Ok (Unbudgeted pending), s') →
  process_ok {| state := s'; slots := sl ++ [Live (Unbudgeted pending)]; retained := rt |}.
Proof.
  intros Hp Hs. destruct s as [n|b|]; cbn [admit_runtime] in Hs.
  - destruct (checked_add n 1) as [n'|] eqn:E; [|done]. injection Hs as <- <-. unfold checked_add in E.
    destruct (n + 1 <=? USIZE_MAX); [|done]. injection E as <-. process_cbn. destruct Hp as (Hsl & Hn & Hrt).
    split_and!; [|rewrite live_count_snoc; lia | done]. apply Forall_app. split; [done | by constructor].
  - by destruct (admit_ b limits ro) as [[?|?| |] ?].
  - injection Hs as <- <-. process_cbn. destruct Hp as (Hsl & Hrt). split; [|done].
    apply Forall_app. split; [done | by constructor].
Qed.

Lemma begin_ok b sl rt : process_ok {| state := Configured b; slots := sl; retained := rt |} →
  process_ok {| state := Configured b; slots := sl ++ [Live (Budgeted BudgetReservation.empty)]; retained := rt |}.
Proof.
  intros (Hsl & Hc & Hm). process_cbn. split_and!; [|intros c|done].
  - apply Forall_app. split; [done | by constructor].
  - rewrite (outstanding_snoc (Configured b)). cbn [slot_reserved]. rewrite Hc. destruct c; cbn; lia.
Qed.

(** From pending opens to an unbudgeted process. *)
Lemma opened_ok n sl rt k x : process_ok {| state := Unconfigured n; slots := sl; retained := rt |} →
  is_unbudgeted x → process_ok {| state := OpenedWithoutBudget; slots := <[k:=x]> sl; retained := rt |}.
Proof.
  intros (Hsl & _ & Hrt) Hx. process_cbn. split; [|done]. apply Forall_insert; [|done].
  eapply Forall_impl; [exact Hsl|]. by intros [[|[]]|].
Qed.

Lemma confirm_ok s sl rt k kind kind' s' : process_ok {| state := s; slots := sl; retained := rt |} →
  sl !! k = Some (Live kind) → confirm_open kind s = (Ok kind', s') →
  process_ok {| state := s'; slots := <[k:=Live kind']> sl; retained := rt |}.
Proof.
  intros Hp Hk Hs. destruct kind as [r|[]]; cbn [confirm_open] in Hs; injection Hs as <- <-; rewrite ?list_insert_id by done; [done| |done].
  destruct s as [n|b|].
  - pose proof Hp as (Hsl & Hn & _). process_cbn.
    pose proof (sum_lookup ((λ s, match s with Live _ => 1 | Gone => 0 end) <$> sl) k 1) as Hle.
    rewrite list_lookup_fmap, Hk in Hle. specialize (Hle eq_refl). fold (live_count sl) in Hle.
    destruct (N.ltb_spec 0 n); [|lia]. by apply (opened_ok n); [exact Hp|].
  - destruct Hp as (Hsl & _). process_cbn. absurd_slot.
  - process_cbn. destruct Hp as (Hsl & Hrt). split; [|done]. by apply Forall_insert.
Qed.

Lemma retain_ok s sl rt k kind forgotten s' : process_ok {| state := s; slots := sl; retained := rt |} →
  sl !! k = Some (Live kind) → retain_until_restart_in kind s = (Ok forgotten, s') →
  process_ok {| state := s'; slots := <[k:=Gone]> sl;
                retained := match kind with Budgeted r => if forgotten then r :: rt else rt | _ => rt end |}.
Proof.
  intros Hp Hk Hs. destruct kind as [r|[]]; cbn [retain_until_restart_in] in Hs; injection Hs as <- <-; destruct s as [n|b|];
    try (destruct Hp as (Hsl & _); process_cbn; absurd_slot).
  - process_cbn. destruct Hp as (Hsl & Hc & Hm). split_and!; [by apply Forall_insert | |done]. intros c. rewrite Hc.
    pose proof (outstanding_insert (Configured b) (Configured b) sl rt k _ Gone c Hk) as Ho. unfold outstanding in *.
    cbn [slot_reserved slots retained] in *. rewrite fmap_cons, sum_cons. lia.
  - by eapply opened_ok.
  - process_cbn. destruct Hp as (Hsl & Hrt). split; [|done]. by apply Forall_insert.
  - process_cbn. destruct Hp as (Hsl & Hrt). split; [|done]. by apply Forall_insert.
Qed.

Lemma drop_ok s sl rt k kind s' : process_ok {| state := s; slots := sl; retained := rt |} →
  sl !! k = Some (Live kind) → (∀ r, kind = Budgeted r → r = BudgetReservation.empty) →
  drop_admission kind s = (Ok (), s') → process_ok {| state := s'; slots := <[k:=Gone]> sl; retained := rt |}.
Proof.
  intros Hp Hk Hg Hs. destruct kind as [r|[]], s as [n|b|]; cbn [drop_admission] in Hs;
    try (destruct Hp as (Hsl & _); process_cbn; absurd_slot).
  - injection Hs as <-. process_cbn. destruct Hp as (Hsl & Hc & Hm). rewrite (Hg r eq_refl) in Hk.
    split_and!; [by apply Forall_insert | |done]. intros c. rewrite Hc.
    pose proof (outstanding_insert (Configured b) (Configured b) sl rt k _ Gone c Hk) as Ho. cbn [slot_reserved] in Ho.
    replace (reserved BudgetReservation.empty c) with 0 in Ho by (by destruct c). lia.
  - process_cbn. destruct Hp as (Hsl & Hn & Hrt). destruct (0 <? n); [|done]. injection Hs as <-. process_cbn.
    pose proof (live_count_insert sl k _ Gone Hk) as Hlc. cbn iota in Hlc.
    split_and!; [by apply Forall_insert | unfold saturating_sub; lia | done].
  - injection Hs as <-. process_cbn. destruct Hp as (Hsl & Hrt). split; [|done]. by apply Forall_insert.
  - injection Hs as <-. process_cbn. destruct Hp as (Hsl & Hrt). split; [|done]. by apply Forall_insert.
Qed.

Lemma process_step_ok p p' : process_ok p → process_step p p' → process_ok p'.
Proof.
  intros Hp Hs. revert Hp. destruct Hs; intros Hp.
  - by eapply configure_ok.
  - by eapply unbudgeted_ok.
  - by apply begin_ok.
  - match goal with H : reserve_into _ _ _ = _ |- _ => apply reserve_into_inv in H as (Hl & He & Hb & Hne); [|done..] end.
    eapply configured_update; [done..|]. intros c'. destruct (decide (c' = c)) as [->|Hn]; [done|].
    rewrite Hne by done. apply Hp.
  - match goal with H : release_from _ _ = _ |- _ => apply release_from_inv in H as (Hl & He & Hb) end.
    eapply configured_update; [done..|]. intros c'. etransitivity; [apply Hb | apply Hp].
  - by eapply confirm_ok.
  - by eapply retain_ok.
  - by eapply drop_ok.
Qed.
Lemma process_reachable_ok p : process_steps boot p → process_ok p.
Proof.
  intros H. assert (process_ok boot) as Hb by (cbn; repeat constructor).
  induction H as [|p q r Hs _ IH]; [done|]. apply IH. by eapply process_step_ok.
Qed.

(** The sequential [admit_] is one of the interleavings. *)
Lemma reserve_snoc b r sl rt c amount b' r' :
  reserve_into c amount (b, r) = (Ok (), (b', r')) → reserved r c = 0 → (c = ResidentIndexes → amount = 1) →
  r' = set_reserved r c amount ∧
  process_step {| state := Configured b; slots := sl ++ [Live (Budgeted r)]; retained := rt |}
               {| state := Configured b'; slots := sl ++ [Live (Budgeted r')]; retained := rt |}.
Proof.
  intros H Hr Hc. split.
  - unfold reserve_into in H. destruct (reserve _ _ _ _); by injection H.
  - replace (sl ++ [Live (Budgeted r')]) with (<[length sl:=Live (Budgeted r')]> (sl ++ [Live (Budgeted r)]))
      by (by rewrite insert_app_r_alt, Nat.sub_diag).
    eapply step_reserve; [by apply list_lookup_middle | done..].
Qed.

Ltac reserve_snoc :=
  match goal with
  | H : mbind _ (reserve_into _ _) _ = (Ok _, _) |- _ =>
      apply E_bind_Ok in H as ([] & [? ?] & ?H1 & H)
  | H : mbind _ (mret _) _ = (Ok _, _) |- _ => apply E_bind_Ok in H as ([] & [? ?] & [= <- <-] & H)
  end;
  try match goal with
  | H1 : reserve_into _ _ _ = (Ok _, _) |- rtc _ {| state := _; slots := ?sl ++ _; retained := ?rt |} _ =>
      apply (reserve_snoc _ _ sl rt) in H1 as (-> & H1); [|done..]; eapply rtc_l; [exact H1|]; clear H1
  end; cbn [negb] in *.

Lemma admit_steps limits read_only b r b' sl rt :
  admit_ b limits read_only = (Ok r, b') →
  process_steps {| state := Configured b; slots := sl; retained := rt |}
                {| state := Configured b'; slots := sl ++ [Live (Budgeted r)]; retained := rt |}.
Proof.
  unfold admit_. destruct (admit_body limits read_only (b, BudgetReservation.empty)) as [[[]|e| |] [b1 r1]] eqn:Ha;
    [intros [= <- <-] | destruct (drop_reservation (b1, r1)) as [[| | |] []]; discriminate | done..].
  eapply rtc_l; [apply step_begin|]. unfold admit_body in Ha.
  destruct read_only; cbn [negb] in Ha; do 4 reserve_snoc;
    (destruct (checked_mul _ _); [|done]);
    (apply (reserve_snoc _ _ sl rt) in Ha as (-> & Ha); [by apply rtc_once | done..]).
Qed.

(** *** What the process budget promises *)

(** C32: In every interleaving of admissions and destructors, each counter of the
    budget is exactly what the live and retained reservations hold, within the
    configured limit. *)
Theorem runtime_budget_exact p b c : process_steps boot p → p.(state) = Configured b →
  counted b c = outstanding p c ∧ counted b c <= maximum b.(RuntimeBudget.limits) c.
Proof.
  intros Hr Hs. apply process_reachable_ok in Hr. unfold process_ok in Hr. rewrite Hs in Hr.
  destruct Hr as (_ & Hc & Hm). by split.
Qed.

(** No destructor trips its assertion: releasing a counter of a live
    reservation, and dropping a live admission, always succeed. *)
Theorem runtime_budget_drop_safe p k kind : process_steps boot p → p.(slots) !! k = Some (Live kind) →
  (∀ b r c, p.(state) = Configured b → kind = Budgeted r → ∃ s, release_from c (b, r) = (Ok (), s))
  ∧ ∃ s', drop_admission kind p.(state) = (Ok (), s').
Proof.
  intros Hr Hk. pose proof (process_reachable_ok _ Hr) as Hp. destruct p as [s sl rt]. process_cbn. split.
  - intros b r c -> ->. process_cbn. destruct Hp as (_ & Hc & _).
    pose proof (sum_lookup (slot_reserved c <$> sl) k (reserved r c)) as Hle. rewrite list_lookup_fmap, Hk in Hle.
    specialize (Hle eq_refl). specialize (Hc c). unfold outstanding in Hc. process_cbn.
    unfold release_from, release, checked_sub. destruct (reserved r c =? 0); [by eexists|].
    destruct (N.leb_spec (reserved r c) (counted b c)); [by eexists | lia].
  - destruct kind as [r|[]], s as [n|b|]; cbn [drop_admission]; try by eexists.
    process_cbn. destruct Hp as (_ & Hn & _).
    pose proof (sum_lookup ((λ s, match s with Live _ => 1 | Gone => 0 end) <$> sl) k 1) as Hle.
    rewrite list_lookup_fmap, Hk in Hle. specialize (Hle eq_refl). fold (live_count sl) in Hle.
    destruct (N.ltb_spec 0 n); [by eexists | lia].
Qed.

Lemma all_gone_count sl : Forall (λ s, s = Gone) sl → live_count sl = 0.
Proof. induction 1 as [|x sl -> _ IH]; [done|]. unfold live_count in *. rewrite fmap_cons, sum_cons, IH. done. Qed.

(** The budget is configured before any index is open or opening, and then
    never differently: [configure] succeeds exactly when no admission is alive
    and the process never ran unbudgeted, or with the limits already set. *)
Theorem configure_iff p limits : process_steps boot p →
  (configure_runtime_budget_in limits p.(state)).1 = Ok () ↔
  ((∃ n, p.(state) = Unconfigured n) ∧ Forall (λ s, s = Gone) p.(slots))
  ∨ ∃ b, p.(state) = Configured b ∧ b.(RuntimeBudget.limits) = limits.
Proof.
  intros Hr. apply process_reachable_ok in Hr. destruct p as [s sl rt]. process_cbn.
  destruct s as [n|b|]; cbn [configure_runtime_budget_in].
  - destruct Hr as (_ & Hn & _). split.
    + destruct n; [intros _; left; split; [by eexists | by apply live_count_none] | done].
    + intros [[_ Hg]|(b & ? & _)]; [|done]. apply all_gone_count in Hg. cbn [slots] in *. subst n. by rewrite Hg.
  - case_bool_decide; split; [by right; exists b | done | done | naive_solver].
  - split; [done|]. intros [[[? ?] _]|(? & ? & _)]; done.
Qed.

Definition decided (s : RuntimeBudgetState.t) : option (option RuntimeBudgetLimits.t) :=
  match s with
  | Unconfigured _ => None | Configured b => Some (Some b.(RuntimeBudget.limits)) | OpenedWithoutBudget => Some None
  end.
Lemma decided_step p p' d : process_step p p' → decided p.(state) = Some d → decided p'.(state) = Some d.
Proof.
  intros Hst. destruct Hst as
    [s sl rt limits r s' H | s sl rt limits ro pending s' H | | b sl rt k r c amount b' r' Hk Hr Hc H
    | b sl rt k r c b' r' Hk H | s sl rt k kind kind' s' Hk H | s sl rt k kind forgotten s' Hk H | s sl rt k kind s' Hk Hg H];
    process_cbn; try done.
  - destruct s as [|b|]; cbn [configure_runtime_budget_in] in H; [done| |by injection H as <- <-].
    case_bool_decide; by injection H as <- <-.
  - destruct s as [|b|]; cbn [admit_runtime] in H; [done| |by injection H as <- <-].
    by destruct (admit_ b limits ro) as [[?|?| |] ?].
  - apply reserve_into_inv in H as (Hl & _); [|done..]. cbn [decided]. by rewrite Hl.
  - apply release_from_inv in H as (Hl & _). cbn [decided]. by rewrite Hl.
  - destruct kind as [|[]], s as [n| |]; cbn [confirm_open] in H; simplify_eq; done.
  - destruct kind as [|[]], s; cbn [retain_until_restart_in] in H; simplify_eq; done.
  - destruct kind as [|[]], s; cbn [drop_admission] in H; simplify_eq; done.
Qed.
(** Once decided, a process stays budgeted with the same limits, or unbudgeted. *)
Theorem budget_decision_final p p' d : process_steps p p' →
  decided p.(state) = Some d → decided p'.(state) = Some d.
Proof.
  intros Hs Hd. induction Hs as [|p q r Hst _ IH]; [done|]. apply IH. clear IH. by eapply decided_step.
Qed.

(** ** Expensive searches *)
Definition with_expensive (b : RuntimeBudget.t) (active : N) (wakes : gmap N N) : RuntimeBudget.t :=
  let 'RuntimeBudget.mk l r i s m q _ _ := b in RuntimeBudget.mk l r i s m q active wakes.
Definition active b := RuntimeBudget.expensive_searches b.
Definition wakes b := RuntimeBudget.expensive_search_wakes b.
Definition max_expensive b := b.(RuntimeBudget.limits).(RuntimeBudgetLimits.max_expensive_searches).

Definition closing : FulltextError := FulltextError_new "E_CLOSED" "index is closing or closed".
Definition search_timeout : FulltextError := FulltextError_new "E_TIMEOUT" SEARCH_TIMEOUT_MESSAGE.

(** From the test of the [while] loop of [acquire_expensive] to the next wait:
    [Some remaining] is a thread that waits, [None] one that got its permit. *)
Definition acquire_expensive (deadline now runtime_state : N) : E RuntimeBudget.t (option N) := λ b,
  if max_expensive b <=? active b then
    if negb (runtime_state =? STATE_OPEN) then (Err closing, b) else
    if now <=? deadline then (Ok (Some (deadline - now)), b) else (Err search_timeout, b)
  else if negb (runtime_state =? STATE_OPEN) then (Err closing, b)
  else (Ok None, with_expensive b (active b + 1) (wakes b)).
(** After a wait. *)
Definition acquire_woken (timed_out : bool) (deadline now runtime_state : N) : E RuntimeBudget.t (option N) := λ b,
  if timed_out && (max_expensive b <=? active b) then (Err search_timeout, b)
  else acquire_expensive deadline now runtime_state b.
(** [before] and [after] are the two readings of the runtime state. *)
Definition try_acquire_expensive (before after : N) : E RuntimeBudget.t bool := λ b,
  if negb (before =? STATE_OPEN) then (Ok false, b) else
  if (max_expensive b <=? active b) || negb (after =? STATE_OPEN) then (Ok false, b)
  else (Ok true, with_expensive b (active b + 1) (wakes b)).

Definition register_expensive_wake (key : N) (b : RuntimeBudget.t) : RuntimeBudget.t :=
  with_expensive b (active b) (<[key := default 0 (wakes b !! key) + 1]> (wakes b)).
(** [impl Drop for ExpensiveWakeDemand] *)
Definition drop_wake_demand (key : N) : E RuntimeBudget.t () := λ b,
  match wakes b !! key with
  | Some n => if 0 <? n then
                let n := saturating_sub n 1 in
                (Ok (), with_expensive b (active b) (if n =? 0 then delete key (wakes b) else <[key := n]> (wakes b)))
              else (Panic, b)
  | None => (Ok (), b)
  end.
(** The wakes to notify; [alive] tells whether a registered wake still exists. *)
Definition notify_expensive_wakes (alive : N → bool) (b : RuntimeBudget.t) : gset N * RuntimeBudget.t :=
  let registered := filter (λ '(key, n), (0 <? n) && alive key = true) (wakes b) in
  (dom registered, with_expensive b (active b) registered).
(** [impl Drop for ExpensiveSearchPermit] *)
Definition drop_permit (alive : N → bool) : E RuntimeBudget.t (gset N) := λ b,
  if 0 <? active b then
    let '(notified, b) := notify_expensive_wakes alive (with_expensive b (saturating_sub (active b) 1) (wakes b)) in
    (Ok notified, b)
  else (Panic, b).

(** Threads hold [permits] permits and the wake demands [demands] (by lane). *)
Record expensive := { budget : RuntimeBudget.t; permits : N; demands : list N }.
Inductive expensive_step : expensive → expensive → Prop :=
| step_acquire b ps ds deadline now st r b' :
    acquire_expensive deadline now st b = (r, b') →
    expensive_step {| budget := b; permits := ps; demands := ds |}
      {| budget := b'; permits := match r with Ok None => ps + 1 | _ => ps end; demands := ds |}
| step_woken b ps ds timed_out deadline now st r b' :
    acquire_woken timed_out deadline now st b = (r, b') →
    expensive_step {| budget := b; permits := ps; demands := ds |}
      {| budget := b'; permits := match r with Ok None => ps + 1 | _ => ps end; demands := ds |}
| step_try b ps ds before after r b' :
    try_acquire_expensive before after b = (Ok r, b') →
    expensive_step {| budget := b; permits := ps; demands := ds |}
      {| budget := b'; permits := if r : bool then ps + 1 else ps; demands := ds |}
| step_release_permit b ps ds alive notified b' :
    0 < ps → (∀ key, key ∈ ds → alive key = true) → drop_permit alive b = (Ok notified, b') →
    expensive_step {| budget := b; permits := ps; demands := ds |}
      {| budget := b'; permits := ps - 1; demands := ds |}
| step_register b ps ds key :
    expensive_step {| budget := b; permits := ps; demands := ds |}
      {| budget := register_expensive_wake key b; permits := ps; demands := key :: ds |}
| step_drop_demand b ps ds ds' key b' :
    ds ≡ₚ key :: ds' → drop_wake_demand key b = (Ok (), b') →
    expensive_step {| budget := b; permits := ps; demands := ds |}
      {| budget := b'; permits := ps; demands := ds' |}.

(** The number of demands of a lane. *)
Definition demanded (key : N) (ds : list N) : N := sum ((λ k, if decide (k = key) then 1 else 0) <$> ds).
Definition expensive_ok (e : expensive) : Prop :=
  active e.(budget) = e.(permits) ∧ e.(permits) <= max_expensive e.(budget)
  ∧ ∀ key, wakes e.(budget) !! key = if demanded key e.(demands) =? 0 then None else Some (demanded key e.(demands)).

Lemma active_with b a w : active (with_expensive b a w) = a.
Proof. by destruct b. Qed.
Lemma wakes_with b a w : wakes (with_expensive b a w) = w.
Proof. by destruct b. Qed.
Lemma max_with b a w : max_expensive (with_expensive b a w) = max_expensive b.
Proof. by destruct b. Qed.
Lemma demanded_cons key k ds : demanded key (k :: ds) = (if decide (k = key) then 1 else 0) + demanded key ds.
Proof. reflexivity. Qed.
Lemma demanded_perm key ds ds' : ds ≡ₚ ds' → demanded key ds = demanded key ds'.
Proof. induction 1; rewrite ?demanded_cons; lia. Qed.
Lemma demanded_elem key ds : 0 < demanded key ds ↔ key ∈ ds.
Proof.
  induction ds as [|k ds IH]; [split; [by intros ?%N.lt_irrefl | by intros ?%not_elem_of_nil]|].
  rewrite demanded_cons, elem_of_cons, <- IH. destruct (decide (k = key)) as [->|]; [|naive_solver lia]. split; [by left | lia].
Qed.

(** A permit is taken only from a budget with room, by an open index. *)
Lemma acquire_inv deadline now st b r b' : acquire_expensive deadline now st b = (r, b') →
  (r = Ok None ∧ active b < max_expensive b ∧ st = STATE_OPEN ∧ b' = with_expensive b (active b + 1) (wakes b))
  ∨ (r ≠ Ok None ∧ b' = b).
Proof.
  unfold acquire_expensive. destruct (N.leb_spec (max_expensive b) (active b)).
  - repeat case_match; intros [= <- <-]; by right.
  - destruct (N.eqb_spec st STATE_OPEN); cbn [negb]; intros [= <- <-]; [by left | by right].
Qed.

Lemma acquired_ok b ps ds (r : outcome (option N)) b' :
  expensive_ok {| budget := b; permits := ps; demands := ds |} →
  (r = Ok None ∧ active b < max_expensive b ∧ b' = with_expensive b (active b + 1) (wakes b)) ∨ (r ≠ Ok None ∧ b' = b) →
  expensive_ok {| budget := b'; permits := match r with Ok None => ps + 1 | _ => ps end; demands := ds |}.
Proof.
  intros (Ha & Hm & Hw) [(-> & Hlt & ->)|[Hr ->]].
  - unfold expensive_ok in *. cbn [budget permits demands] in *. rewrite active_with, max_with, wakes_with.
    split_and!; [lia | lia | done].
  - by destruct r as [[|]| | |].
Qed.

Lemma drop_permit_inv b ps ds alive : expensive_ok {| budget := b; permits := ps; demands := ds |} → 0 < ps →
  (∀ key, key ∈ ds → alive key = true) →
  ∃ notified, drop_permit alive b = (Ok notified, with_expensive b (ps - 1) (wakes b)) ∧ ∀ key, key ∈ notified ↔ key ∈ ds.
Proof.
  intros (Ha & Hm & Hw) Hp Hal. cbn [budget permits demands] in *. unfold drop_permit. rewrite Ha.
  destruct (N.ltb_spec 0 ps); [|lia]. unfold notify_expensive_wakes. rewrite wakes_with, active_with.
  assert (filter (λ '(key, n), (0 <? n) && alive key = true) (wakes b) = wakes b) as ->.
  { apply map_filter_id. intros key n Hk. rewrite Hw in Hk. destruct (N.eqb_spec (demanded key ds) 0); [done|].
    injection Hk as <-. rewrite Hal by (apply demanded_elem; lia). rewrite andb_true_r. apply N.ltb_lt. lia. }
  eexists. split; [by destruct b|]. intros key. rewrite elem_of_dom, Hw, <- demanded_elem.
  destruct (N.eqb_spec (demanded key ds) 0) as [E|E]; [rewrite E; split; [by intros [? ?] | lia] | split; [lia | by eexists]].
Qed.

Lemma drop_demand_inv b ps ds ds' key : expensive_ok {| budget := b; permits := ps; demands := ds |} → ds ≡ₚ key :: ds' →
  ∃ b', drop_wake_demand key b = (Ok (), b') ∧ expensive_ok {| budget := b'; permits := ps; demands := ds' |}.
Proof.
  intros (Ha & Hm & Hw) Hp. unfold expensive_ok in *. cbn [budget permits demands] in *.
  assert (∀ k, demanded k ds = (if decide (key = k) then 1 else 0) + demanded k ds') as Hd.
  { intros k. by rewrite (demanded_perm _ _ _ Hp), demanded_cons. }
  pose proof (Hd key) as Hk. rewrite decide_True in Hk by done. unfold drop_wake_demand. rewrite Hw.
  destruct (N.eqb_spec (demanded key ds) 0); [lia|]. destruct (N.ltb_spec 0 (demanded key ds)); [|lia].
  eexists. split; [done|]. rewrite active_with, max_with, wakes_with. split_and!; [done..|].
  intros k. specialize (Hd k). unfold saturating_sub. destruct (decide (key = k)) as [<-|Hne].
  - replace (demanded key ds - 1) with (demanded key ds') by lia.
    destruct (N.eqb_spec (demanded key ds') 0); [by rewrite lookup_delete_eq | by rewrite lookup_insert_eq].
  - rewrite N.add_0_l in Hd. rewrite <- Hd. destruct (_ =? 0); [by rewrite lookup_delete_ne | by rewrite lookup_insert_ne].
Qed.

Lemma expensive_step_ok e e' : expensive_ok e → expensive_step e e' → expensive_ok e'.
Proof.
  intros He Hs. revert He. destruct Hs as [b ps ds deadline now st r b' H | b ps ds timed_out deadline now st r b' H
    | b ps ds before after r b' H | b ps ds alive notified b' Hp Hal H | b ps ds key | b ps ds ds' key b' Hp H]; intros He.
  - apply acquired_ok with b; [done|]. apply acquire_inv in H. naive_solver.
  - apply acquired_ok with b; [done|]. unfold acquire_woken in H. destruct (timed_out && _).
    + injection H as <- <-. by right.
    + apply acquire_inv in H. naive_solver.
  - replace (if r then ps + 1 else ps) with (match (if r then Ok None else Ok (Some 0)) with Ok None => ps + 1 | _ => ps end) by by destruct r.
    apply acquired_ok with b; [done|]. unfold try_acquire_expensive in H.
    destruct (negb (before =? STATE_OPEN)); [injection H as <- <-; by right|].
    destruct (N.leb_spec (max_expensive b) (active b)); [injection H as <- <-; by right|].
    destruct (negb (after =? STATE_OPEN)); injection H as <- <-; [by right | by left].
  - destruct (drop_permit_inv b ps ds alive He Hp Hal) as (n & Hd & _). rewrite Hd in H. injection H as <- <-.
    destruct He as (Ha & Hm & Hw). unfold expensive_ok in *. cbn [budget permits demands] in *.
    rewrite active_with, max_with, wakes_with. split_and!; [done | lia | done].
  - destruct He as (Ha & Hm & Hw). unfold expensive_ok, register_expensive_wake in *. cbn [budget permits demands] in *.
    rewrite active_with, max_with, wakes_with. split_and!; [done..|]. intros k. rewrite demanded_cons, Hw.
    destruct (decide (key = k)) as [<-|Hne].
    + rewrite lookup_insert_eq. destruct (N.eqb_spec (1 + demanded key ds) 0); [lia|]. f_equal.
      destruct (N.eqb_spec (demanded key ds) 0) as [E|E]; [rewrite E; done|]. cbn. lia.
    + by rewrite lookup_insert_ne, Hw.
  - destruct (drop_demand_inv b ps ds ds' key He Hp) as (b'' & Hd & Hok). rewrite Hd in H. by injection H as <-.
Qed.

Definition expensive_boot (limits : RuntimeBudgetLimits.t) : expensive :=
  {| budget := RuntimeBudget.new limits; permits := 0; demands := [] |}.
Lemma expensive_reachable limits e : rtc expensive_step (expensive_boot limits) e → expensive_ok e.
Proof.
  intros H. assert (expensive_ok (expensive_boot limits)) as Hb.
  { split; [done|]. split; [cbn; lia|]. by intros key. }
  induction H as [|p q r Hs _ IH]; [done|]. apply IH. by eapply expensive_step_ok.
Qed.

(** C33: However the searching threads interleave, the budget counts exactly the
    permits handed out, never more than configured; and giving one back
    succeeds and notifies precisely the lanes that wait for a permit. *)
Theorem expensive_searches_bounded limits e : rtc expensive_step (expensive_boot limits) e →
  active e.(budget) = e.(permits) ∧ e.(permits) <= max_expensive e.(budget)
  ∧ ∀ alive, 0 < e.(permits) → (∀ key, key ∈ e.(demands) → alive key = true) →
    ∃ notified b', drop_permit alive e.(budget) = (Ok notified, b') ∧ ∀ key, key ∈ notified ↔ key ∈ e.(demands).
Proof.
  intros H%expensive_reachable. pose proof H as (Ha & Hm & _). split_and!; [done..|]. intros alive Hp Hal.
  destruct e as [b ps ds]. destruct (drop_permit_inv b ps ds alive H Hp Hal) as (n & Hd & Hk). by eexists _, _.
Qed.

(** ** The theorems at a process with one open index *)
Definition sample_limits : RuntimeBudgetLimits.t := RuntimeBudgetLimits.mk 2 4 8 1000 500 1.
Definition sample_index : Limits.t := Limits.mk 10 10 2 3 600 5 100 50.
Definition sample_process : process :=
  {| state := Configured (charged (RuntimeBudget.new sample_limits) (demand sample_index false));
     slots := [Live (Budgeted (demand sample_index false))]; retained := [] |}.
Lemma sample_reachable : process_steps boot sample_process.
Proof.
  eapply rtc_l; [by apply (step_configure _ _ _ sample_limits (Ok ()))|].
  apply (admit_steps sample_index false _ _ _ []). by vm_compute.
Qed.

Lemma admit_all_or_nothing_witness :
  admit_ (RuntimeBudget.new sample_limits) sample_index false
  = (Ok (demand sample_index false), charged (RuntimeBudget.new sample_limits) (demand sample_index false)).
Proof.
  destruct (admit_all_or_nothing (RuntimeBudget.new sample_limits) sample_index false) as [[_ H]|[H _]]; [|exact H|].
  - intros []; by vm_compute.
  - exfalso. apply H. intros []; by vm_compute.
Defined.
Lemma runtime_budget_exact_witness : 2 = outstanding sample_process IndexingThreads ∧ 2 <= 4.
Proof.
  exact (runtime_budget_exact sample_process _ IndexingThreads sample_reachable eq_refl).
Defined.
Lemma runtime_budget_drop_safe_witness :
  ∃ s', drop_admission (Budgeted (demand sample_index false)) sample_process.(state) = (Ok (), s').
Proof. apply (runtime_budget_drop_safe sample_process 0 _ sample_reachable). reflexivity. Defined.
Lemma configure_iff_witness :
  (configure_runtime_budget_in (RuntimeBudgetLimits.mk 2 4 8 1000 500 2) sample_process.(state)).1 ≠ Ok ().
Proof.
  intros H. apply (configure_iff sample_process _ sample_reachable) in H as [[[n Hn] _]|(b & Hb & Hl)]; [done|].
  injection Hb as <-. by vm_compute in Hl.
Defined.
Lemma budget_decision_final_witness :
  decided sample_process.(state) = Some (Some sample_limits).
Proof.
  apply (budget_decision_final {| state := Configured (RuntimeBudget.new sample_limits); slots := []; retained := [] |}); [|reflexivity].
  apply (admit_steps sample_index false _ _ _ []). by vm_compute.
Defined.
Lemma expensive_searches_bounded_witness : ∃ e, e.(permits) = 1 ∧ active e.(budget) = e.(permits) ∧ e.(permits) <= 1.
Proof.
  eexists {| budget := _; permits := 1; demands := [] |}. split; [done|].
  edestruct (expensive_searches_bounded sample_limits) as (H1 & H2 & _);
    [eapply rtc_l; [by apply (step_try _ _ _ STATE_OPEN STATE_OPEN true)|]; apply rtc_refl|].
  split; [exact H1 | exact H2].
Defined.
