(* ===== verification/Response.v ===== *)
(** * src/src/native.rs: the responses, and encodings a reader can follow

    [Reads enc ok a]: whatever follows it, the encoding of [a] is the encoding of
    no other well-formed value, and tells where it ends.  [Unambiguous] is the
    class of encodings of which this holds for every well-formed value; the
    responses of src/src/native.rs and src/src/catalog.rs and the identity
    sidecar of src/src/engine.rs are shown to be instances. *)
From S2P Require Import Prelude.
From S2P Require Import Errors.
From S2P Require Import Bytes.
From S2P Require Import Wire.
From S2P Require Import Request.
From S2P Require Import Structure.
From S2P Require Import Expression.
From S2P Require Import Catalog.
From S2P Require Import Results.
Local Open Scope N_scope.

Definition Reads {A} (enc : A → bytes) (ok : A → Prop) (a : A) : Prop :=
  ∀ b s t, ok b → enc a ++ s = enc b ++ t → a = b ∧ s = t.
Class Unambiguous {A} (enc : A → bytes) (ok : A → Prop) :=
  unambiguous a : ok a → Reads enc ok a.

Lemma unambiguous_app `{H : Unambiguous A enc ok} a b s t : ok a → ok b → enc a ++ s = enc b ++ t → a = b ∧ s = t.
Proof. intros Ha. apply (H a Ha). Qed.
(** An unambiguous encoding is injective. *)
Lemma unambiguous_inj `{Unambiguous A enc ok} a b : ok a → ok b → enc a = enc b → a = b.
Proof. intros Ha Hb E. apply (unambiguous a Ha b [] [] Hb). by rewrite E. Qed.

Lemma app_same_length {A} (a b s t : list A) : length a = length b → a ++ s = b ++ t → a = b ∧ s = t.
Proof. intros. by apply app_inj_1. Qed.

Definition below (n : nat) (v : N) : Prop := v < 256 ^ N.of_nat n.
#[export] Instance le_split_unambiguous n : Unambiguous (le_split n) (below n).
Proof.
  intros a Ha b s t Hb H. apply app_same_length in H as [H ->]; [|by rewrite !length_le_split].
  split; [|done]. apply (f_equal le_combine) in H. by rewrite !le_combine_split, !N.mod_small in H by done.
Qed.
#[export] Instance str_unambiguous : Unambiguous enc_str (λ s, below 4 (lenN s)).
Proof.
  intros a Ha b s t Hb H. unfold enc_str in H. rewrite <- !app_assoc in H.
  apply (unambiguous_app (H:=le_split_unambiguous 4)) in H as [Hl H]; [|done..].
  apply app_same_length in H as [-> ->]; [done|]. unfold lenN in Hl. lia.
Qed.
Definition flag_ok (b : bool) : Prop := True.
#[export] Instance bool_unambiguous : Unambiguous enc_bool flag_ok.
Proof.
  intros a _ b s t _ H. apply app_same_length in H as [H ->]; [|done]. split; [|done].
  by destruct a, b.
Qed.
#[export] Instance opt_unambiguous `{Unambiguous A enc ok} : Unambiguous (enc_opt enc) (opt_ok ok).
Proof.
  intros a Ha b s t Hb E. destruct a as [a|], b as [b|]; cbn [enc_opt] in E; rewrite <- ?app_assoc in E;
    (apply (unambiguous (enc:=enc_bool)) in E as [? E]; [|done..]); try done.
  apply unambiguous_app in E as [-> ->]; [done | by apply Ha | by apply Hb].
Qed.

(** A count of [n] bytes, then the elements. *)
Definition counted {A} (n : nat) (enc : A → bytes) (l : list A) : bytes := le_split n (lenN l) ++ concat (enc <$> l).
Definition counted_ok {A} (n : nat) (ok : A → Prop) (l : list A) : Prop := below n (lenN l) ∧ Forall ok l.
Lemma counted_reads {A} (enc : A → bytes) (ok : A → Prop) n l :
  below n (lenN l) → Forall (Reads enc ok) l → Reads (counted n enc) (counted_ok n ok) l.
Proof.
  intros Hn Hl k s t [Hkn Hk] H. unfold counted in H. rewrite <- !app_assoc in H.
  apply (unambiguous_app (H:=le_split_unambiguous n)) in H as [Hlen H]; [|done..]. clear Hn Hkn.
  assert (length l = length k) as Hlk by (unfold lenN in Hlen; lia). clear Hlen.
  revert k s t Hk H Hlk. induction Hl as [|a l Ha _ IH]; intros [|b k] s t Hk H Hlk; try done.
  cbn [fmap list_fmap concat] in H. rewrite <- !app_assoc in H. inversion_clear Hk as [|? ? Hb Hk'].
  apply Ha in H as [-> H]; [|done]. apply IH in H as [-> ->]; [done | done | by injection Hlk].
Qed.
#[export] Instance counted_unambiguous n `{Unambiguous A enc ok} : Unambiguous (counted n enc) (counted_ok n ok).
Proof. intros l [Hn Hl]. apply counted_reads; [done|]. eapply Forall_impl; [exact Hl|]. apply unambiguous. Qed.

(** Field after field. *)
Definition enc_pair {A B} (enca : A → bytes) (encb : B → bytes) (p : A * B) : bytes := enca p.1 ++ encb p.2.
Definition pair_ok {A B} (oka : A → Prop) (okb : B → Prop) (p : A * B) : Prop := oka p.1 ∧ okb p.2.
Section Records.
Context {A B C : Type} (enca : A → bytes) (oka : A → Prop) (encb : B → bytes) (okb : B → Prop).
Lemma pair_reads a b : Reads enca oka a → Reads encb okb b → Reads (enc_pair enca encb) (pair_ok oka okb) (a, b).
Proof.
  intros Ha Hb [a' b'] s t [Hoa Hob] E. unfold enc_pair in E. cbn [fst snd] in *. rewrite <- !app_assoc in E.
  apply Ha in E as [-> E]; [|done]. by apply Hb in E as [-> ->].
Qed.
(** A record by its fields. *)
Lemma reads_fields (f : C → A) `{!Inj (=) (=) f} (encc : C → bytes) (okc : C → Prop) c :
  (∀ x, encc x = enca (f x)) → (∀ x, okc x → oka (f x)) → Reads enca oka (f c) → Reads encc okc c.
Proof.
  intros He Ho Hr d s t Hd E. rewrite !He in E. apply Hr in E as [Hf ->]; [|by apply Ho]. by apply (inj f) in Hf.
Qed.
Lemma unambiguous_fields (f : C → A) `{!Inj (=) (=) f} `{!Unambiguous enca oka} (encc : C → bytes) (okc : C → Prop) :
  (∀ x, encc x = enca (f x)) → (∀ x, okc x → oka (f x)) → Unambiguous encc okc.
Proof. intros He Ho c Hc. eapply reads_fields; [done..|]. by apply unambiguous, Ho. Qed.
#[export] Instance pair_unambiguous `{!Unambiguous enca oka} `{!Unambiguous encb okb} :
  Unambiguous (enc_pair enca encb) (pair_ok oka okb).
Proof. intros [a b] [Ha Hb]. by apply pair_reads; apply unambiguous. Qed.
End Records.

(** * src/src/native.rs: the responses

    [success_envelope] and the bodies it carries, with the sizes
    [search_response_bytes] (src/src/engine.rs) computes for them.  The theorems
    show that a response determines the result it was made from. *)
Module SearchHit.
Record t := mk { id : bytes; score : f32; version : option bytes }.
End SearchHit.
Module TotalRelation.
Inductive t := Exact | LowerBound.
End TotalRelation.
Module SearchResult.
Record t := mk {
  aggregations : list AggregationResult.t; encoded_aggregations : option bytes;
  total : N; total_relation : TotalRelation.t; hits : list SearchHit.t; traversal : option (bytes * bool) }.
End SearchResult.
Module TraceSpan.
Record t := mk { start : N; end_ : N }.
End TraceSpan.
Module TraceValueMatch.
Record t := mk { field : bytes; value_index : N; spans : list TraceSpan.t }.
End TraceValueMatch.
Module TraceRecordMatch.
Record t := mk { id : bytes; values : list TraceValueMatch.t }.
End TraceRecordMatch.
Module TraceResult.
Record t := mk { complete : bool; records : list TraceRecordMatch.t }.
End TraceResult.
Module TraceRecordState.
Record t := mk { membership : option bool; analysis_complete : bool; spans_complete : bool }.
End TraceRecordState.
Module TracePageResult.
Record t := mk { trace : TraceResult.t; next_record : N; states : list TraceRecordState.t }.
End TracePageResult.
Module InspectionResult.
Inductive t := Missing | Cursorless | Payload (payload : bytes).
End InspectionResult.
Module ResetResult.
Inductive t := Missing | Reset (path : bytes).
End ResetResult.

(** ** Writing *)
(** [value as u8], [as u16] and [as u32] truncate, and so does [le_split]. *)
Definition push_u8 (bytes : bytes) (value : N) : Bytes.bytes := bytes ++ le_split 1 value.
Definition push_u16 (bytes : bytes) (value : N) : Bytes.bytes := bytes ++ le_split 2 value.
Definition push_u32 (bytes : bytes) (value : N) : Bytes.bytes := bytes ++ le_split 4 value.
Definition push_u64 (bytes : bytes) (value : N) : Bytes.bytes := bytes ++ le_split 8 value.
Definition push_bool (bytes : bytes) (value : bool) : Bytes.bytes := push_u8 bytes (if value then 1 else 0).
Definition push_string (bytes value : bytes) : Bytes.bytes := push_u32 bytes (lenN value) ++ value.

Definition FTRP : bytes := blit "FTRP".
Definition success_envelope (body : bytes) : bytes := push_u8 (push_u16 FTRP PROTOCOL_VERSION) 0 ++ body.
Definition error_envelope (error : FulltextError) : bytes :=
  push_string (push_string (push_u8 (push_u16 FTRP PROTOCOL_VERSION) 1) (blit (code error))) (blit (message error)).

Definition u32_body (value : N) : bytes := le_split 4 value.
Definition u64_body (value : N) : bytes := le_split 8 value.
Definition payload_body (payload : option bytes) : bytes :=
  let bytes := push_bool [] (bool_decide (is_Some payload)) in
  match payload with Some payload => push_string bytes payload | None => bytes end.
Definition open_body (handle : N) (payload : option bytes) : bytes := u32_body handle ++ payload_body payload.
Definition inspection_body (result : InspectionResult.t) : bytes :=
  match result with
  | InspectionResult.Missing => push_u8 [] 0
  | InspectionResult.Cursorless => push_u8 [] 1
  | InspectionResult.Payload payload => push_string (push_u8 [] 2) payload
  end.
Definition reset_body (result : ResetResult.t) : bytes :=
  match result with
  | ResetResult.Missing => push_u8 [] 0
  | ResetResult.Reset path => push_string (push_u8 [] 1) path
  end.

Definition push_hit (bytes : bytes) (hit : SearchHit.t) : Bytes.bytes :=
  let bytes := push_u32 bytes hit.(SearchHit.score) in
  let bytes := push_string bytes hit.(SearchHit.id) in
  let bytes := push_bool bytes (bool_decide (is_Some hit.(SearchHit.version))) in
  match hit.(SearchHit.version) with Some version => push_string bytes version | None => bytes end.
Definition search_body (result : SearchResult.t) : bytes :=
  let bytes := push_u64 [] result.(SearchResult.total) in
  let bytes := push_u8 bytes (match result.(SearchResult.total_relation) with
                              | TotalRelation.Exact => 0 | TotalRelation.LowerBound => 1 end) in
  let bytes := push_u32 bytes (lenN result.(SearchResult.hits)) in
  let bytes := foldl push_hit bytes result.(SearchResult.hits) in
  let bytes := match result.(SearchResult.encoded_aggregations) with
               | Some aggregations => bytes ++ aggregations | None => push_u32 bytes 0 end in
  match result.(SearchResult.traversal) with
  | Some (snapshot, more) => push_bool (push_string bytes snapshot) more
  | None => bytes
  end.

Definition push_span (bytes : bytes) (span : TraceSpan.t) : Bytes.bytes :=
  push_u32 (push_u32 bytes span.(TraceSpan.start)) span.(TraceSpan.end_).
Definition push_value (bytes : bytes) (value : TraceValueMatch.t) : Bytes.bytes :=
  let bytes := push_string bytes value.(TraceValueMatch.field) in
  let bytes := push_u32 bytes value.(TraceValueMatch.value_index) in
  let bytes := push_u16 bytes (lenN value.(TraceValueMatch.spans)) in
  foldl push_span bytes value.(TraceValueMatch.spans).
Definition push_record (bytes : bytes) (record : TraceRecordMatch.t) : Bytes.bytes :=
  let bytes := push_string bytes record.(TraceRecordMatch.id) in
  let bytes := push_u16 bytes (lenN record.(TraceRecordMatch.values)) in
  foldl push_value bytes record.(TraceRecordMatch.values).
Definition trace_body (result : TraceResult.t) : bytes :=
  let bytes := push_bool [] result.(TraceResult.complete) in
  let bytes := push_u16 bytes (lenN result.(TraceResult.records)) in
  foldl push_record bytes result.(TraceResult.records).
(** [membership | (analysis_complete << 2) | (spans_complete << 3)] *)
Definition state_byte (state : TraceRecordState.t) : N :=
  let membership := match state.(TraceRecordState.membership) with
                    | Some false => 0 | Some true => 1 | None => 2 end in
  N.lor (N.lor membership (N.shiftl (if state.(TraceRecordState.analysis_complete) then 1 else 0) 2))
        (N.shiftl (if state.(TraceRecordState.spans_complete) then 1 else 0) 3).
Definition trace_page_body (result : TracePageResult.t) : bytes :=
  let bytes := trace_body result.(TracePageResult.trace) in
  let bytes := push_u16 bytes result.(TracePageResult.next_record) in
  foldl (λ bytes state, push_u8 bytes (state_byte state)) bytes result.(TracePageResult.states).

(** ** engine.rs: the size of a search response *)
Definition hit_bytes (hit : SearchHit.t) : outcome N :=
  n ← usize_add 9 (lenN hit.(SearchHit.id));
  v ← match hit.(SearchHit.version) with Some version => usize_add 4 (lenN version) | None => Ok 0 end;
  usize_add n v.
Definition search_response_bytes (hits : list SearchHit.t) (header_bytes : N) : outcome N :=
  foldO (λ bytes hit,
    if negb (f32_is_finite hit.(SearchHit.score))
    then Err (invalid "search score overflow; reopen with lower field weights") else
    size ← hit_bytes hit;
    ok_or (checked_add bytes size) (FulltextError_new "E_RESULT_TOO_LARGE" "search response size overflow"))
    header_bytes hits.

(** ** Aggregation results can be followed *)
Fixpoint representable (r : AggregationResult.t) : Prop :=
  let 'AggregationResult.mk name value := r in
  below 4 (lenN name) ∧
  match value with
  | AggregationValue.Terms bs other err =>
      below 4 (lenN bs) ∧ below 8 other ∧ opt_ok (below 8) err
      ∧ foldr and True ((λ b, below 4 (lenN b.(TermBucket.key)) ∧ below 8 b.(TermBucket.count)
          ∧ below 4 (lenN b.(TermBucket.aggregations))
          ∧ foldr and True (representable <$> b.(TermBucket.aggregations))) <$> bs)
  | AggregationValue.Stats count sum min max avg =>
      below 8 count ∧ below 8 sum ∧ opt_ok (below 8) min ∧ opt_ok (below 8) max ∧ opt_ok (below 8) avg
  | AggregationValue.Histogram bs =>
      below 4 (lenN bs)
      ∧ foldr and True ((λ b, below 8 b.(NumericBucket.key) ∧ below 8 b.(NumericBucket.count)
          ∧ below 4 (lenN b.(NumericBucket.aggregations))
          ∧ foldr and True (representable <$> b.(NumericBucket.aggregations))) <$> bs)
  | AggregationValue.Range bs =>
      below 4 (lenN bs)
      ∧ foldr and True ((λ b, below 4 (lenN b.(RangeBucket.key)) ∧ opt_ok (below 8) b.(RangeBucket.from)
          ∧ opt_ok (below 8) b.(RangeBucket.to) ∧ below 8 b.(RangeBucket.count)
          ∧ below 4 (lenN b.(RangeBucket.aggregations))
          ∧ foldr and True (representable <$> b.(RangeBucket.aggregations))) <$> bs)
  end.
Definition results_representable : list AggregationResult.t → Prop := counted_ok 4 representable.

(** The buckets as tuples of their fields. *)
Definition term_fields {A} (b : TermBucket.t A) : bytes * (N * list A) :=
  (b.(TermBucket.key), (b.(TermBucket.count), b.(TermBucket.aggregations))).
Definition numeric_fields {A} (b : NumericBucket.t A) : f64 * (N * list A) :=
  (b.(NumericBucket.key), (b.(NumericBucket.count), b.(NumericBucket.aggregations))).
Definition range_fields {A} (b : RangeBucket.t A) : bytes * (option f64 * (option f64 * (N * list A))) :=
  (b.(RangeBucket.key), (b.(RangeBucket.from), (b.(RangeBucket.to), (b.(RangeBucket.count), b.(RangeBucket.aggregations))))).
#[export] Instance term_fields_inj {A} : Inj (=) (=) (@term_fields A).
Proof. intros [] [] [=]; by subst. Qed.
#[export] Instance numeric_fields_inj {A} : Inj (=) (=) (@numeric_fields A).
Proof. intros [] [] [=]; by subst. Qed.
#[export] Instance range_fields_inj {A} : Inj (=) (=) (@range_fields A).
Proof. intros [] [] [=]; by subst. Qed.

Definition enc_term (b : TermBucket.t AggregationResult.t) : bytes :=
  enc_str b.(TermBucket.key) ++ enc_u64 b.(TermBucket.count) ++ enc_level enc_result b.(TermBucket.aggregations).
Definition term_ok (b : TermBucket.t AggregationResult.t) : Prop :=
  below 4 (lenN b.(TermBucket.key)) ∧ below 8 b.(TermBucket.count) ∧ below 4 (lenN b.(TermBucket.aggregations))
  ∧ foldr and True (representable <$> b.(TermBucket.aggregations)).
Definition enc_numeric (b : NumericBucket.t AggregationResult.t) : bytes :=
  enc_u64 b.(NumericBucket.key) ++ enc_u64 b.(NumericBucket.count) ++ enc_level enc_result b.(NumericBucket.aggregations).
Definition numeric_ok (b : NumericBucket.t AggregationResult.t) : Prop :=
  below 8 b.(NumericBucket.key) ∧ below 8 b.(NumericBucket.count) ∧ below 4 (lenN b.(NumericBucket.aggregations))
  ∧ foldr and True (representable <$> b.(NumericBucket.aggregations)).
Definition enc_range_bucket (b : RangeBucket.t AggregationResult.t) : bytes :=
  enc_str b.(RangeBucket.key) ++ enc_opt enc_u64 b.(RangeBucket.from) ++ enc_opt enc_u64 b.(RangeBucket.to)
  ++ enc_u64 b.(RangeBucket.count) ++ enc_level enc_result b.(RangeBucket.aggregations).
Definition range_ok (b : RangeBucket.t AggregationResult.t) : Prop :=
  below 4 (lenN b.(RangeBucket.key)) ∧ opt_ok (below 8) b.(RangeBucket.from) ∧ opt_ok (below 8) b.(RangeBucket.to)
  ∧ below 8 b.(RangeBucket.count) ∧ below 4 (lenN b.(RangeBucket.aggregations))
  ∧ foldr and True (representable <$> b.(RangeBucket.aggregations)).

Section Buckets.
Let u64_reads (v : N) : below 8 v → Reads enc_u64 (below 8) v := le_split_unambiguous 8 v.
Let opt_reads (o : option N) : opt_ok (below 8) o → Reads (enc_opt enc_u64) (opt_ok (below 8)) o :=
  opt_unambiguous (H:=le_split_unambiguous 8) o.

Lemma level_reads l : Forall (λ r, representable r → Reads enc_result representable r) l →
  below 4 (lenN l) → foldr and True (representable <$> l) → Reads (counted 4 enc_result) (counted_ok 4 representable) l.
Proof.
  intros Hr Hl Hf. apply foldr_and_Forall in Hf. apply counted_reads; [done|].
  apply Forall_forall. intros r Hin. rewrite Forall_forall in Hr, Hf. auto.
Qed.
Lemma term_reads b : Forall (λ r, representable r → Reads enc_result representable r) b.(TermBucket.aggregations) →
  term_ok b → Reads enc_term term_ok b.
Proof.
  intros Hr (Hk & Hc & Hl & Hf). eapply (reads_fields (enc_pair enc_str (enc_pair enc_u64 (counted 4 enc_result)))
    (pair_ok (λ s, below 4 (lenN s)) (pair_ok (below 8) (counted_ok 4 representable))) term_fields); [done| |].
  - intros x (? & ? & ? & Hx%foldr_and_Forall). by split_and!.
  - apply pair_reads; [by apply str_unambiguous|]. apply pair_reads; [by apply u64_reads|]. by apply level_reads.
Qed.
Lemma numeric_reads b : Forall (λ r, representable r → Reads enc_result representable r) b.(NumericBucket.aggregations) →
  numeric_ok b → Reads enc_numeric numeric_ok b.
Proof.
  intros Hr (Hk & Hc & Hl & Hf). eapply (reads_fields (enc_pair enc_u64 (enc_pair enc_u64 (counted 4 enc_result)))
    (pair_ok (below 8) (pair_ok (below 8) (counted_ok 4 representable))) numeric_fields); [done| |].
  - intros x (? & ? & ? & Hx%foldr_and_Forall). by split_and!.
  - apply pair_reads; [by apply u64_reads|]. apply pair_reads; [by apply u64_reads|]. by apply level_reads.
Qed.
Lemma range_reads b : Forall (λ r, representable r → Reads enc_result representable r) b.(RangeBucket.aggregations) →
  range_ok b → Reads enc_range_bucket range_ok b.
Proof.
  intros Hr (Hk & Hfr & Ht & Hc & Hl & Hf).
  eapply (reads_fields (enc_pair enc_str (enc_pair (enc_opt enc_u64) (enc_pair (enc_opt enc_u64) (enc_pair enc_u64 (counted 4 enc_result)))))
    (pair_ok (λ s, below 4 (lenN s)) (pair_ok (opt_ok (below 8)) (pair_ok (opt_ok (below 8)) (pair_ok (below 8) (counted_ok 4 representable)))))
    range_fields); [done| |].
  - intros x (? & ? & ? & ? & ? & Hx%foldr_and_Forall). by split_and!.
  - apply pair_reads; [by apply str_unambiguous|]. apply pair_reads; [by apply opt_reads|].
    apply pair_reads; [by apply opt_reads|]. apply pair_reads; [by apply u64_reads|]. by apply level_reads.
Qed.
Lemma buckets_reads {B} (enc : B → bytes) (ok : B → Prop) bs :
  below 4 (lenN bs) → foldr and True (ok <$> bs) → Forall (λ b, ok b → Reads enc ok b) bs →
  Reads (counted 4 enc) (counted_ok 4 ok) bs.
Proof.
  intros Hn Hf Hr. apply foldr_and_Forall in Hf. apply counted_reads; [done|].
  apply Forall_forall. intros b Hin. rewrite Forall_forall in Hr, Hf. auto.
Qed.

Lemma kind_byte j k s t : j < 256 → k < 256 → enc_u8 j ++ s = enc_u8 k ++ t → j = k ∧ s = t.
Proof. apply (unambiguous_app (H:=le_split_unambiguous 1)). Qed.

(** Each kind is recognised by its byte. *)
Lemma result_reads r : representable r → Reads enc_result representable r.
Proof.
  induction r as [n v IH] using result_ind. intros [Hn Hv] [n' v'] s t [Hn' Hv'] E.
  cbn [enc_result] in E. rewrite <- !app_assoc in E. apply unambiguous_app in E as [-> E]; [|done..].
  destruct v as [bs other err|count sm mi ma av|bs|bs], v' as [bs' other' err'|count' sm' mi' ma' av'|bs'|bs'];
    rewrite <- !app_assoc in E; (apply kind_byte in E as [Hk E]; [|done..]); try discriminate Hk; clear Hk;
    cbn [nested] in IH; rewrite ?Forall_fmap in IH.
  - destruct Hv as (Hl & Ho & He & Hf), Hv' as (Hl' & Ho' & He' & Hf'). rewrite !app_assoc in E. rewrite <- !(app_assoc _ _ s), <- !(app_assoc _ _ t) in E.
    rewrite <- (app_assoc (_ ++ _) (enc_u64 other)), <- (app_assoc (_ ++ _) (enc_u64 other')) in E.
    apply (buckets_reads enc_term term_ok) in E as [-> E]; [| done | done | | by split; [|apply foldr_and_Forall]].
    + apply u64_reads in E as [-> E]; [|done..]. by apply opt_reads in E as [-> ->].
    + eapply Forall_impl; [exact IH|]. intros b Hb. by apply term_reads.
  - destruct Hv as (? & ? & ? & ? & ?), Hv' as (? & ? & ? & ? & ?).
    apply u64_reads in E as [-> E]; [|done..]. apply u64_reads in E as [-> E]; [|done..].
    apply opt_reads in E as [-> E]; [|done..]. apply opt_reads in E as [-> E]; [|done..]. by apply opt_reads in E as [-> ->].
  - destruct Hv as (Hl & Hf), Hv' as (Hl' & Hf'). rewrite !app_assoc in E.
    apply (buckets_reads enc_numeric numeric_ok) in E as [-> ->]; [done | done | done | | by split; [|apply foldr_and_Forall]].
    eapply Forall_impl; [exact IH|]. intros b Hb. by apply numeric_reads.
  - destruct Hv as (Hl & Hf), Hv' as (Hl' & Hf'). rewrite !app_assoc in E.
    apply (buckets_reads enc_range_bucket range_ok) in E as [-> ->]; [done | done | done | | by split; [|apply foldr_and_Forall]].
    eapply Forall_impl; [exact IH|]. intros b Hb. by apply range_reads.
Qed.
End Buckets.

#[export] Instance result_unambiguous : Unambiguous enc_result representable.
Proof. exact result_reads. Qed.
#[export] Instance results_unambiguous : Unambiguous enc_results results_representable.
Proof. exact (counted_unambiguous 4). Qed.

(** ** The layout of the bodies *)
Definition enc_hit (h : SearchHit.t) : bytes :=
  enc_u32 h.(SearchHit.score) ++ enc_str h.(SearchHit.id) ++ enc_opt enc_str h.(SearchHit.version).
Definition hit_ok (h : SearchHit.t) : Prop :=
  below 4 h.(SearchHit.score) ∧ below 4 (lenN h.(SearchHit.id)) ∧ opt_ok (λ v, below 4 (lenN v)) h.(SearchHit.version).
Definition enc_span (s : TraceSpan.t) : bytes := enc_u32 s.(TraceSpan.start) ++ enc_u32 s.(TraceSpan.end_).
Definition span_ok (s : TraceSpan.t) : Prop := below 4 s.(TraceSpan.start) ∧ below 4 s.(TraceSpan.end_).
Definition enc_value (v : TraceValueMatch.t) : bytes :=
  enc_str v.(TraceValueMatch.field) ++ enc_u32 v.(TraceValueMatch.value_index) ++ counted 2 enc_span v.(TraceValueMatch.spans).
Definition value_ok (v : TraceValueMatch.t) : Prop :=
  below 4 (lenN v.(TraceValueMatch.field)) ∧ below 4 v.(TraceValueMatch.value_index)
  ∧ counted_ok 2 span_ok v.(TraceValueMatch.spans).
Definition enc_record (r : TraceRecordMatch.t) : bytes :=
  enc_str r.(TraceRecordMatch.id) ++ counted 2 enc_value r.(TraceRecordMatch.values).
Definition record_ok (r : TraceRecordMatch.t) : Prop :=
  below 4 (lenN r.(TraceRecordMatch.id)) ∧ counted_ok 2 value_ok r.(TraceRecordMatch.values).
Definition enc_state (s : TraceRecordState.t) : bytes := enc_u8 (state_byte s).

Lemma foldl_push {A} (push : bytes → A → bytes) (enc : A → bytes) l b :
  (∀ b a, push b a = b ++ enc a) → foldl push b l = b ++ concat (enc <$> l).
Proof.
  intros H. revert b. induction l as [|a l IH]; intros b; cbn [foldl fmap list_fmap concat]; [by rewrite app_nil_r|].
  by rewrite IH, H, app_assoc.
Qed.
Lemma push_opt b (o : option bytes) :
  (let b := push_bool b (bool_decide (is_Some o)) in match o with Some v => push_string b v | None => b end)
  = b ++ enc_opt enc_str o.
Proof. destruct o; cbv zeta; unfold push_string, push_bool, push_u32, push_u8; by rewrite <- ?app_assoc. Qed.
Lemma push_hit_enc b h : push_hit b h = b ++ enc_hit h.
Proof.
  unfold push_hit. pose proof (push_opt (push_string (push_u32 b (SearchHit.score h)) (SearchHit.id h)) (SearchHit.version h)) as H.
  cbv zeta in *. rewrite H. unfold push_string, push_u32, enc_hit, enc_str. by rewrite <- !app_assoc.
Qed.
Lemma push_span_enc b s : push_span b s = b ++ enc_span s.
Proof. unfold push_span, push_u32, enc_span. by rewrite <- !app_assoc. Qed.
Lemma push_value_enc b v : push_value b v = b ++ enc_value v.
Proof.
  unfold push_value. cbv zeta. rewrite (foldl_push _ enc_span) by apply push_span_enc.
  unfold push_string, push_u16, push_u32, enc_value, enc_str, counted. by rewrite <- !app_assoc.
Qed.
Lemma push_record_enc b r : push_record b r = b ++ enc_record r.
Proof.
  unfold push_record. cbv zeta. rewrite (foldl_push _ enc_value) by apply push_value_enc.
  unfold push_string, push_u16, push_u32, enc_record, enc_str, counted. by rewrite <- !app_assoc.
Qed.

Definition enc_aggregations_part (o : option bytes) : bytes := match o with Some a => a | None => enc_u32 0 end.
Definition enc_traversal_part (o : option (bytes * bool)) : bytes :=
  match o with Some (snapshot, more) => enc_str snapshot ++ enc_bool more | None => [] end.
Lemma search_body_layout r :
  search_body r = enc_u64 r.(SearchResult.total)
    ++ enc_bool (match r.(SearchResult.total_relation) with TotalRelation.Exact => false | TotalRelation.LowerBound => true end)
    ++ counted 4 enc_hit r.(SearchResult.hits) ++ enc_aggregations_part r.(SearchResult.encoded_aggregations)
    ++ enc_traversal_part r.(SearchResult.traversal).
Proof.
  unfold search_body. cbv zeta. rewrite (foldl_push _ enc_hit) by apply push_hit_enc.
  destruct r as [ag ea total rel hits tr]; cbn [SearchResult.total SearchResult.total_relation SearchResult.hits
    SearchResult.encoded_aggregations SearchResult.traversal].
  unfold push_bool, push_string, push_u64, push_u32, push_u8, counted, enc_bool, enc_str, enc_u8.
  destruct rel, ea, tr as [[]|]; cbn [enc_aggregations_part enc_traversal_part]; by rewrite <- ?app_assoc, ?app_nil_r.
Qed.
Lemma trace_body_layout r :
  trace_body r = enc_bool r.(TraceResult.complete) ++ counted 2 enc_record r.(TraceResult.records).
Proof.
  unfold trace_body. cbv zeta. rewrite (foldl_push _ enc_record) by apply push_record_enc.
  unfold push_bool, push_u8, push_u16, counted. by rewrite <- !app_assoc.
Qed.
Lemma trace_page_body_layout r :
  trace_page_body r = trace_body r.(TracePageResult.trace) ++ enc_u16 r.(TracePageResult.next_record)
    ++ concat (enc_state <$> r.(TracePageResult.states)).
Proof.
  unfold trace_page_body. cbv zeta. rewrite (foldl_push _ enc_state) by done. unfold push_u16. by rewrite <- !app_assoc.
Qed.

(** ** Sizes *)
Lemma lenN_concat {A} (enc : A → bytes) l : lenN (concat (enc <$> l)) = sum ((λ a, lenN (enc a)) <$> l).
Proof. induction l as [|a l IH]; [done|]. cbn [fmap list_fmap concat]. rewrite lenN_app, IH. reflexivity. Qed.

Lemma hit_bytes_Ok h n : hit_bytes h = Ok n → n = lenN (enc_hit h).
Proof.
  unfold hit_bytes, enc_hit, enc_str, usize_add, checked_add. intros H. destruct (SearchHit.version h); cbn [enc_opt];
    repeat (rewrite bind_Ok in H; destruct H as (? & ?H & H));
    repeat match goal with H : unwrap (if ?b then _ else _) = Ok _ |- _ => destruct b; [injection H as <-|discriminate H] end;
    simplify_eq; unfold enc_u32, enc_bool, enc_u8, enc_str; len_lia.
Qed.
Lemma response_bytes_Ok hits h n : search_response_bytes hits h = Ok n →
  Forall (λ x, f32_is_finite x.(SearchHit.score) = true) hits ∧ n = h + lenN (concat (enc_hit <$> hits)).
Proof.
  unfold search_response_bytes. revert h. induction hits as [|x hits IH]; intros h H; cbn [foldO] in H.
  - injection H as <-. split; [constructor | cbn; by rewrite N.add_0_r].
  - apply bind_Ok in H as (m & Hm & H). apply IH in H as [Hf ->].
    destruct (f32_is_finite (SearchHit.score x)) eqn:E; [|done]. cbn [negb] in Hm.
    apply bind_Ok in Hm as (size & Hs & Hm). apply hit_bytes_Ok in Hs as ->. apply ok_or_Ok in Hm.
    unfold checked_add in Hm. destruct (_ <=? _); [|done]. injection Hm as <-.
    split; [by constructor|]. cbn [fmap list_fmap concat]. len_lia.
Qed.

(** The size of the response. *)
Lemma search_body_size r n :
  (r.(SearchResult.traversal) = None → search_response_bytes r.(SearchResult.hits) 13 = Ok n →
   lenN (search_body r) = n + match r.(SearchResult.encoded_aggregations) with Some a => lenN a | None => 4 end)
  ∧ ∀ snapshot more, r.(SearchResult.traversal) = Some (snapshot, more) → r.(SearchResult.encoded_aggregations) = None →
   search_response_bytes r.(SearchResult.hits) (17 + 4 + lenN snapshot + 1) = Ok n → lenN (search_body r) = n.
Proof.
  rewrite search_body_layout. unfold counted, enc_u64, enc_bool, enc_u8. split.
  - intros -> [_ ->]%response_bytes_Ok. destruct (SearchResult.encoded_aggregations r); cbn [enc_aggregations_part enc_traversal_part];
      unfold enc_u32; len_lia.
  - intros snapshot more -> -> [_ ->]%response_bytes_Ok. cbn [enc_aggregations_part enc_traversal_part].
    unfold enc_str, enc_u32, enc_bool, enc_u8. len_lia.
Qed.
(** The size the engine checks against the response limit is the size of the
    response: 13 bytes before the hits, 4 for an absent aggregation, and for a
    traversal the snapshot with its length and the more flag. *)
Theorem search_response_size r n :
  (r.(SearchResult.traversal) = None → search_response_bytes r.(SearchResult.hits) 13 = Ok n →
   lenN (search_body r) = n + match r.(SearchResult.encoded_aggregations) with Some a => lenN a | None => 4 end)
  ∧ ∀ snapshot more, r.(SearchResult.traversal) = Some (snapshot, more) → r.(SearchResult.encoded_aggregations) = None →
   search_response_bytes r.(SearchResult.hits) (17 + 4 + lenN snapshot + 1) = Ok n → lenN (search_body r) = n.
Proof. apply search_body_size. Qed.

(** ** A response determines its result *)
Definition hit_fields (h : SearchHit.t) : N * (bytes * option bytes) :=
  (h.(SearchHit.score), (h.(SearchHit.id), h.(SearchHit.version))).
#[export] Instance hit_fields_inj : Inj (=) (=) hit_fields.
Proof. intros [] [] [=]; by subst. Qed.
#[export] Instance hit_unambiguous : Unambiguous enc_hit hit_ok.
Proof.
  eapply (unambiguous_fields (enc_pair (le_split 4) (enc_pair enc_str (enc_opt enc_str)))
    (pair_ok (below 4) (pair_ok (λ s, below 4 (lenN s)) (opt_ok (λ s, below 4 (lenN s))))) hit_fields); [done|].
  by intros h (? & ? & ?).
Qed.
Definition span_fields (s : TraceSpan.t) : N * N := (s.(TraceSpan.start), s.(TraceSpan.end_)).
#[export] Instance span_fields_inj : Inj (=) (=) span_fields.
Proof. intros [] [] [=]; by subst. Qed.
#[export] Instance span_unambiguous : Unambiguous enc_span span_ok.
Proof.
  by eapply (unambiguous_fields (enc_pair (le_split 4) (le_split 4)) (pair_ok (below 4) (below 4)) span_fields).
Qed.
Definition value_fields (v : TraceValueMatch.t) : bytes * (N * list TraceSpan.t) :=
  (v.(TraceValueMatch.field), (v.(TraceValueMatch.value_index), v.(TraceValueMatch.spans))).
#[export] Instance value_fields_inj : Inj (=) (=) value_fields.
Proof. intros [] [] [=]; by subst. Qed.
#[export] Instance value_unambiguous : Unambiguous enc_value value_ok.
Proof.
  eapply (unambiguous_fields (enc_pair enc_str (enc_pair (le_split 4) (counted 2 enc_span)))
    (pair_ok (λ s, below 4 (lenN s)) (pair_ok (below 4) (counted_ok 2 span_ok))) value_fields); [done|].
  by intros v (? & ? & ?).
Qed.
Definition record_fields (r : TraceRecordMatch.t) : bytes * list TraceValueMatch.t :=
  (r.(TraceRecordMatch.id), r.(TraceRecordMatch.values)).
#[export] Instance record_fields_inj : Inj (=) (=) record_fields.
Proof. intros [] [] [=]; by subst. Qed.
#[export] Instance record_unambiguous : Unambiguous enc_record record_ok.
Proof.
  eapply (unambiguous_fields (enc_pair enc_str (counted 2 enc_value)) (pair_ok (λ s, below 4 (lenN s)) (counted_ok 2 value_ok))
    record_fields); [done|]. by intros r (? & ?).
Qed.
#[export] Instance state_unambiguous : Unambiguous enc_state (λ _, True).
Proof.
  intros [m a c] _ [m' a' c'] s t _ H. unfold enc_state in H. apply app_same_length in H as [H ->]; [|done].
  split; [|done]. destruct m as [[]|], a, c, m' as [[]|], a', c'; try done; vm_compute in H; discriminate.
Qed.

Lemma envelope_inj body body' : success_envelope body = success_envelope body' → body = body'.
Proof. unfold success_envelope. apply app_inv_head. Qed.

(** What the engine puts in a result: the aggregations are encoded when there
    are any, and every count and length fits its field. *)
Definition search_result_ok (r : SearchResult.t) : Prop :=
  below 8 r.(SearchResult.total) ∧ counted_ok 4 hit_ok r.(SearchResult.hits)
  ∧ results_representable r.(SearchResult.aggregations)
  ∧ r.(SearchResult.encoded_aggregations)
    = (if bool_decide (r.(SearchResult.aggregations) = []) then None else Some (enc_results r.(SearchResult.aggregations)))
  ∧ ∀ snapshot more, r.(SearchResult.traversal) = Some (snapshot, more) → below 4 (lenN snapshot).
Lemma aggregations_part r : search_result_ok r →
  enc_aggregations_part r.(SearchResult.encoded_aggregations) = enc_results r.(SearchResult.aggregations).
Proof. intros (_ & _ & _ & -> & _). case_bool_decide as E; [by rewrite E | done]. Qed.


Definition trace_result_ok (r : TraceResult.t) : Prop := counted_ok 2 record_ok r.(TraceResult.records).
Definition trace_page_ok (r : TracePageResult.t) : Prop :=
  trace_result_ok r.(TracePageResult.trace) ∧ below 2 r.(TracePageResult.next_record)
  ∧ lenN r.(TracePageResult.states) = r.(TracePageResult.next_record).

(** A recoverable trace response determines the page: its spans, how many input
    records it consumed, and the state of each of them. *)
Theorem trace_page_response_determines r r' : trace_page_ok r → trace_page_ok r' →
  success_envelope (trace_page_body r) = success_envelope (trace_page_body r') → r = r'.
Proof.
  intros (Ht & Hn & Hl) (Ht' & Hn' & Hl') E%envelope_inj. rewrite !trace_page_body_layout, !trace_body_layout, <- !app_assoc in E.
  apply (unambiguous_app (H:=bool_unambiguous)) in E as [Ec E]; [|done..].
  apply (unambiguous_app (H:=counted_unambiguous 2)) in E as [Er E]; [|done..].
  assert (counted 2 enc_state r.(TracePageResult.states) ++ [] = counted 2 enc_state r'.(TracePageResult.states) ++ []) as Es.
  { rewrite !app_nil_r. unfold counted. by rewrite Hl, Hl'. }
  apply (unambiguous_app (H:=counted_unambiguous 2)) in Es as [Es _]; [| by split; [rewrite Hl | apply Forall_true]
    | by split; [rewrite Hl' | apply Forall_true]].
  destruct r as [[c rs] n ss], r' as [[c' rs'] n' ss'].
  cbn [TracePageResult.trace TracePageResult.next_record TracePageResult.states TraceResult.complete TraceResult.records] in *.
  by subst.
Qed.

Lemma blit_inj s s' : blit s = blit s' → s = s'.
Proof. intros H%(f_equal String.string_of_list_byte). unfold blit in H. by rewrite !String.string_of_list_byte_of_string in H. Qed.
Definition error_ok (e : FulltextError) : Prop := below 4 (lenN (blit (code e))) ∧ below 4 (lenN (blit (message e))).

(** A caller never takes a failure for a result, and recovers its code and
    message. *)
Theorem error_response_determines e e' body : error_ok e → error_ok e' →
  error_envelope e ≠ success_envelope body ∧ (error_envelope e = error_envelope e' → e = e').
Proof.
  intros [Hc Hm] [Hc' Hm']. split.
  - unfold error_envelope, success_envelope, push_string, push_u32, push_u16, push_u8. rewrite <- !app_assoc.
    intros H%app_inv_head%app_inv_head. discriminate H.
  - unfold error_envelope, push_string, push_u32. rewrite <- !app_assoc. intros H%app_inv_head.
    change (enc_str (blit (code e)) ++ enc_str (blit (message e)) = enc_str (blit (code e')) ++ enc_str (blit (message e'))) in H.
    apply unambiguous_app in H as [H1%blit_inj H2]; [|done..]. apply unambiguous_inj in H2; [|done..]. apply blit_inj in H2.
    destruct e, e'; cbn in *. by subst.
Qed.

(** ** The theorems at small responses *)
Definition sample_result : SearchResult.t :=
  SearchResult.mk [] None 7 TotalRelation.LowerBound [SearchHit.mk (blit "a") 0x3F800000 (Some (blit "v1"))] (Some (blit "00ff", true)).
Lemma sample_result_ok : search_result_ok sample_result.
Proof.
  split_and!; [done| |split; [done|constructor]|done|by intros ? ? [= <- <-]].
  split; [done|]. constructor; [|constructor]. split_and!; [done|done|by intros ? [= <-]].
Qed.
Lemma search_response_size_witness : lenN (search_body sample_result) = 42.
Proof. apply (search_response_size sample_result) with (snapshot := blit "00ff") (more := true); reflexivity. Defined.
Definition sample_page : TracePageResult.t :=
  TracePageResult.mk (TraceResult.mk true [TraceRecordMatch.mk (blit "a") []]) 2
    [TraceRecordState.mk (Some true) true true; TraceRecordState.mk None false false].
Lemma trace_page_response_determines_witness : sample_page = sample_page.
Proof.
  apply (trace_page_response_determines sample_page sample_page); [| |reflexivity];
    (split_and!; [|done|done]; split; [done|]; constructor; [|constructor]; split; [done|]; split; [done|constructor]).
Defined.
Lemma error_response_determines_witness :
  error_envelope (invalid "x") ≠ success_envelope [].
Proof. apply (error_response_determines (invalid "x") (invalid "x") []); by split. Defined.
