(* ===== verification/Identity.v ===== *)
(** * src/src/engine.rs: the identity sidecar of an index

    [identity_bytes] is the file an index is created with and compared against
    ever after; [persisted_index_id] reads the index id back out of a sidecar of
    any format version before it is retired. *)
From S2P Require Import Prelude.
From S2P Require Import Errors.
From S2P Require Import Bytes.
From S2P Require Import Wire.
From S2P Require Import Request.
From S2P Require Import Structure.
From S2P Require Import Expression.
From S2P Require Import Catalog.
From S2P Require Import Frame.
From S2P Require Import Config.
From S2P Require Import Results.
From S2P Require Import Response.
Local Open Scope N_scope.

(** The format versions, and the magic with its version. *)
Definition HTFI (version : N) : bytes := blit "HTFI" ++ le_split 2 version.
Definition versions : list N := [1; 2; 3; 4; 5; 6; 7; 8].
Definition with_synonyms : list N := [3; 4; 5; 6; 7; 8].
Definition with_filters : list N := [5; 7; 8].

Definition push_rule (bytes : bytes) (rule : SynonymRule.t) : Bytes.bytes :=
  let bytes := push_string bytes rule.(SynonymRule.source) in
  let bytes := push_u16 bytes (lenN rule.(SynonymRule.replacements)) in
  foldl push_string bytes rule.(SynonymRule.replacements).
Definition push_filter_field (bytes : bytes) (field : FilterFieldConfig.t) : Bytes.bytes :=
  push_u8 (push_string bytes field.(FilterFieldConfig.name))
    (match field.(FilterFieldConfig.field_type) with
     | FilterFieldType.String => 0 | FilterFieldType.Number => 1 | FilterFieldType.Boolean => 2 end).

Definition identity_version (config : EngineIdentityConfig.t) : N :=
  if bool_decide (config.(EngineIdentityConfig.filter_fields) = []) then 6
  else if existsb (λ field, bool_decide (field.(FilterFieldConfig.field_type) = FilterFieldType.String))
            config.(EngineIdentityConfig.filter_fields) then 8
  else 7.
Definition identity_bytes (config : EngineIdentityConfig.t) : bytes :=
  let bytes := HTFI (identity_version config) in
  let bytes := push_string bytes config.(EngineIdentityConfig.index_id) in
  let bytes := push_string bytes config.(EngineIdentityConfig.generation) in
  let bytes := push_string bytes config.(EngineIdentityConfig.analyzer) in
  let bytes := push_bool bytes config.(EngineIdentityConfig.stop_words) in
  let bytes := push_bool bytes config.(EngineIdentityConfig.positions) in
  let bytes := push_bool bytes config.(EngineIdentityConfig.surface_terms) in
  let bytes := push_u16 bytes (lenN config.(EngineIdentityConfig.synonyms)) in
  let bytes := foldl push_rule bytes config.(EngineIdentityConfig.synonyms) in
  let bytes := push_u16 bytes (lenN config.(EngineIdentityConfig.fields)) in
  let bytes := foldl (λ bytes field, push_string bytes field.(FieldConfig.name)) bytes config.(EngineIdentityConfig.fields) in
  if bool_decide (config.(EngineIdentityConfig.filter_fields) = []) then bytes else
  let bytes := push_u16 bytes (lenN config.(EngineIdentityConfig.filter_fields)) in
  foldl push_filter_field bytes config.(EngineIdentityConfig.filter_fields).

(** ** Reading *)
Section Reader.
Context (data : bytes).

(** [bytes.get(offset..offset.checked_add(length)?)?] *)
Definition get (offset length : N) : option bytes := end_ ← checked_add offset length; Cursor.get_range data offset end_.
Definition take_string (offset : N) : option (bytes * N) :=
  length ← get offset 4;
  let offset := offset + 4 in
  end_ ← checked_add offset (le_combine length);
  value ← Cursor.get_range data offset end_;
  if utf8_valid value then Some (value, end_) else None.
(** [u16::from_le_bytes(..)] and [offset += 2] *)
Definition take_count (offset : N) : option (N * N) :=
  count ← get offset 2; Some (le_combine count, offset + 2).
(** [for _ in 0..count { .. }] *)
Fixpoint repeat_at (count : nat) (body : N → option N) (offset : N) : option N :=
  match count with O => Some offset | Datatypes.S count => offset ← body offset; repeat_at count body offset end.
Definition skip_string (offset : N) : option N := snd <$> take_string offset.
Definition skip_rule (offset : N) : option N :=
  offset ← skip_string offset;
  '(replacement_count, offset) ← take_count offset;
  repeat_at (N.to_nat replacement_count) skip_string offset.
Definition skip_filter (offset : N) : option N :=
  offset ← skip_string offset;
  code ← data !! N.to_nat offset;
  if 2 <? Byte.to_N code then None else Some (offset + 1).

Definition persisted_index_id : option bytes :=
  version ← Cursor.get_range data 4 6;
  magic ← Cursor.get_range data 0 4;
  if negb (bool_decide (magic = blit "HTFI")) || negb (bool_decide (version ∈ le_split 2 <$> versions)) then None else
  '(index_id, offset) ← take_string 6;
  '(_, offset) ← take_string offset;
  '(_, offset) ← take_string offset;
  flags ← get offset 3;
  if existsb (λ value, 1 <? Byte.to_N value) flags then None else
  let offset := offset + 3 in
  offset ← (if bool_decide (version ∈ le_split 2 <$> with_synonyms) then
              '(synonym_count, offset) ← take_count offset;
              repeat_at (N.to_nat synonym_count) skip_rule offset
            else Some offset);
  '(field_count, offset) ← take_count offset;
  offset ← repeat_at (N.to_nat field_count) skip_string offset;
  offset ← (if bool_decide (version ∈ le_split 2 <$> with_filters) then
              '(filter_count, offset) ← take_count offset;
              repeat_at (N.to_nat filter_count) skip_filter offset
            else Some offset);
  if offset =? lenN data then Some index_id else None.
End Reader.

(** ** The layout *)
Definition enc_names (fields : list FieldConfig.t) : bytes := counted 2 enc_str (FieldConfig.name <$> fields).
Definition enc_sidecar_rule (r : SynonymRule.t) : bytes :=
  enc_str r.(SynonymRule.source) ++ counted 2 enc_str r.(SynonymRule.replacements).
Definition enc_filter_part (fs : list FilterFieldConfig.t) : bytes :=
  if bool_decide (fs = []) then [] else counted 2 enc_filter_field fs.
Lemma push_string_enc b s : push_string b s = b ++ enc_str s.
Proof. unfold push_string, push_u32, enc_str. by rewrite <- app_assoc. Qed.
Lemma identity_bytes_layout c :
  identity_bytes c = HTFI (identity_version c) ++ enc_str c.(EngineIdentityConfig.index_id)
    ++ enc_str c.(EngineIdentityConfig.generation) ++ enc_str c.(EngineIdentityConfig.analyzer)
    ++ enc_bool c.(EngineIdentityConfig.stop_words) ++ enc_bool c.(EngineIdentityConfig.positions)
    ++ enc_bool c.(EngineIdentityConfig.surface_terms)
    ++ counted 2 enc_sidecar_rule c.(EngineIdentityConfig.synonyms) ++ enc_names c.(EngineIdentityConfig.fields)
    ++ enc_filter_part c.(EngineIdentityConfig.filter_fields).
Proof.
  unfold identity_bytes. cbv zeta.
  rewrite (foldl_push push_rule enc_sidecar_rule), (foldl_push (λ b f, push_string b f.(FieldConfig.name)) (λ f, enc_str f.(FieldConfig.name))),
    (foldl_push push_filter_field enc_filter_field).
  - unfold enc_filter_part, enc_names, counted. rewrite lenN_fmap, <- list_fmap_compose.
    rewrite !push_string_enc. unfold push_bool, push_u8, push_u16. by case_bool_decide; rewrite <- ?app_assoc, ?app_nil_r.
  - intros b f. unfold push_filter_field, push_u8, enc_filter_field. rewrite push_string_enc, <- app_assoc. by destruct (FilterFieldConfig.field_type f).
  - intros. apply push_string_enc.
  - intros b r. unfold push_rule. cbv zeta. rewrite (foldl_push push_string enc_str) by apply push_string_enc.
    unfold push_u16, enc_sidecar_rule, counted. by rewrite push_string_enc, <- !app_assoc.
Qed.

(** ** Reading it back *)
(** [p] reads [bs] wherever it stands in the file. *)
Definition Takes {A} (p : bytes → N → option (A * N)) (bs : bytes) (a : A) : Prop :=
  ∀ pre post, fits (pre ++ bs ++ post) → p (pre ++ bs ++ post) (lenN pre) = Some (a, lenN (pre ++ bs)).
Definition Skips (p : bytes → N → option N) (bs : bytes) : Prop :=
  ∀ pre post, fits (pre ++ bs ++ post) → p (pre ++ bs ++ post) (lenN pre) = Some (lenN (pre ++ bs)).

Lemma get_range_at (pre bs post : bytes) :
  Cursor.get_range (pre ++ bs ++ post) (lenN pre) (lenN pre + lenN bs) = Some bs.
Proof.
  unfold Cursor.get_range. rewrite !lenN_app.
  rewrite (proj2 (N.leb_le (lenN pre) _)), (proj2 (N.leb_le (lenN pre + lenN bs) _)) by lia. cbn [andb]. f_equal.
  replace (lenN pre + lenN bs - lenN pre) with (lenN bs) by lia. rewrite !lenN_to_nat.
  by rewrite drop_app_length, take_app_length.
Qed.
Lemma get_at n (pre bs post : bytes) : fits (pre ++ bs ++ post) → lenN bs = n →
  get (pre ++ bs ++ post) (lenN pre) n = Some bs.
Proof.
  intros Hf <-. unfold get, checked_add. unfold fits, ISIZE_MAX in Hf. rewrite !lenN_app in Hf. unfold USIZE_MAX.
  rewrite (proj2 (N.leb_le _ _)) by lia. apply get_range_at.
Qed.
Lemma take_count_at n : below 2 n → Takes take_count (le_split 2 n) n.
Proof.
  intros Hn pre post Hf. unfold take_count. rewrite get_at by done. cbn [mbind option_bind].
  rewrite le_combine_split, N.mod_small by done. by rewrite lenN_app.
Qed.
Definition sidecar_str (s : bytes) : Prop := below 4 (lenN s) ∧ utf8_valid s = true.
Lemma take_string_at s : sidecar_str s → Takes take_string (enc_str s) s.
Proof.
  intros [Hs Hu] pre post Hf. unfold take_string, enc_str, enc_u32 in *. rewrite <- !app_assoc in *.
  rewrite (get_at 4) by done. cbn [mbind option_bind]. rewrite le_combine_split, N.mod_small by done.
  unfold checked_add. unfold fits, ISIZE_MAX in Hf. rewrite !lenN_app in *. cbn [lenN_le_split] in Hf.
  change (lenN (le_split 4 (lenN s))) with 4 in *. unfold USIZE_MAX. rewrite (proj2 (N.leb_le _ _)) by lia.
  cbn [mbind option_bind]. pose proof (get_range_at (pre ++ le_split 4 (lenN s)) s post) as Hg.
  rewrite <- app_assoc, lenN_app in Hg. change (lenN (le_split 4 (lenN s))) with 4 in Hg. rewrite Hg.
  cbn [mbind option_bind]. rewrite Hu. do 2 f_equal. lia.
Qed.
Lemma skip_string_at s : sidecar_str s → Skips skip_string (enc_str s).
Proof. intros Hs pre post Hf. unfold skip_string. by rewrite (take_string_at s Hs). Qed.

Lemma repeat_at_ok {A} (body : bytes → N → option N) (enc : A → bytes) l :
  Forall (λ a, Skips body (enc a)) l → Skips (λ data, repeat_at (length l) (body data)) (concat (enc <$> l)).
Proof.
  induction 1 as [|a l Ha _ IH]; intros pre post Hf; cbn [length repeat_at fmap list_fmap concat] in *.
  - by rewrite app_nil_r.
  - rewrite <- app_assoc in *. rewrite Ha by done. cbn [mbind option_bind].
    specialize (IH (pre ++ enc a) post). rewrite <- !app_assoc in IH. by rewrite IH.
Qed.
(** A count of two bytes, then that many elements. *)
Lemma skip_counted {A} (body : bytes → N → option N) (enc : A → bytes) l :
  below 2 (lenN l) → Forall (λ a, Skips body (enc a)) l →
  Skips (λ data offset, '(count, offset) ← take_count data offset; repeat_at (N.to_nat count) (body data) offset) (counted 2 enc l).
Proof.
  intros Hl H pre post Hf. unfold counted in *. rewrite <- app_assoc in *. rewrite take_count_at by done. cbn [mbind option_bind].
  rewrite lenN_to_nat. pose proof (repeat_at_ok body enc l H (pre ++ le_split 2 (lenN l)) post) as Hr.
  rewrite <- !app_assoc in Hr. rewrite Hr by done. by rewrite !lenN_app, N.add_assoc.
Qed.

(** ** Sidecars that can be written *)
Definition rule_ok (r : SynonymRule.t) : Prop :=
  sidecar_str r.(SynonymRule.source) ∧ below 2 (lenN r.(SynonymRule.replacements))
  ∧ Forall sidecar_str r.(SynonymRule.replacements).
Definition sidecar_ok (c : EngineIdentityConfig.t) : Prop :=
  sidecar_str c.(EngineIdentityConfig.index_id) ∧ sidecar_str c.(EngineIdentityConfig.generation)
  ∧ sidecar_str c.(EngineIdentityConfig.analyzer)
  ∧ (below 2 (lenN c.(EngineIdentityConfig.synonyms)) ∧ Forall rule_ok c.(EngineIdentityConfig.synonyms))
  ∧ (below 2 (lenN c.(EngineIdentityConfig.fields)) ∧ Forall (λ f, sidecar_str f.(FieldConfig.name)) c.(EngineIdentityConfig.fields))
  ∧ (below 2 (lenN c.(EngineIdentityConfig.filter_fields))
     ∧ Forall (λ f, sidecar_str f.(FilterFieldConfig.name)) c.(EngineIdentityConfig.filter_fields)).

Lemma skip_rule_at r : rule_ok r → Skips skip_rule (enc_sidecar_rule r).
Proof.
  intros (Hs & Hl & Hr) pre post Hf. unfold skip_rule, enc_sidecar_rule in *. rewrite <- app_assoc in *.
  rewrite skip_string_at by done. cbn [mbind option_bind].
  pose proof (skip_counted skip_string enc_str _ Hl (Forall_impl _ _ _ Hr skip_string_at) (pre ++ enc_str r.(SynonymRule.source)) post) as H.
  rewrite <- !app_assoc in H. specialize (H Hf). cbn [mbind option_bind] in H. exact H.
Qed.
Lemma skip_filter_at f : sidecar_str f.(FilterFieldConfig.name) → Skips skip_filter (enc_filter_field f).
Proof.
  intros Hs pre post Hf. unfold skip_filter, enc_filter_field in *. rewrite <- app_assoc in *.
  rewrite skip_string_at by done. cbn [mbind option_bind].
  rewrite lenN_to_nat, app_assoc, lookup_app_r by done. rewrite Nat.sub_diag.
  assert (∀ k, (enc_u8 k ++ post) !! 0%nat = Some (byte_of_N k)) as -> by done. cbn [mbind option_bind].
  rewrite app_assoc, (lenN_app (pre ++ _) (enc_u8 _)). by destruct (FilterFieldConfig.field_type f).
Qed.

Lemma takes_in {A} (p : bytes → N → option (A * N)) bs a data pre post :
  Takes p bs a → data = pre ++ bs ++ post → fits data → p data (lenN pre) = Some (a, lenN (pre ++ bs)).
Proof. intros Hp -> Hf. by apply Hp. Qed.
Lemma skips_in (p : bytes → N → option N) bs data pre post :
  Skips p bs → data = pre ++ bs ++ post → fits data → p data (lenN pre) = Some (lenN (pre ++ bs)).
Proof. intros Hp -> Hf. by apply Hp. Qed.

Lemma identity_version_cases c :
  (identity_version c = 6 ∧ c.(EngineIdentityConfig.filter_fields) = [])
  ∨ (identity_version c = 7 ∨ identity_version c = 8) ∧ c.(EngineIdentityConfig.filter_fields) ≠ [].
Proof.
  unfold identity_version. case_bool_decide as E; [by left|]. right. split; [|done]. case_if; auto.
Qed.
Lemma flags_small a b c : existsb (λ value, 1 <? Byte.to_N value) (enc_bool a ++ enc_bool b ++ enc_bool c) = false.
Proof. by destruct a, b, c. Qed.

(** The head of the file. *)
Lemma sidecar_head v rest : Cursor.get_range (HTFI v ++ rest) 0 4 = Some (blit "HTFI")
  ∧ Cursor.get_range (HTFI v ++ rest) 4 6 = Some (le_split 2 v).
Proof.
  unfold HTFI. rewrite <- app_assoc. split.
  - exact (get_range_at [] (blit "HTFI") (le_split 2 v ++ rest)).
  - exact (get_range_at (blit "HTFI") (le_split 2 v) rest).
Qed.

(** A counted list in the middle of the file. *)
Lemma counted_in {A} (body : bytes → N → option N) (enc : A → bytes) l data pre post :
  below 2 (lenN l) → Forall (λ a, Skips body (enc a)) l → data = pre ++ counted 2 enc l ++ post → fits data →
  ('(count, offset) ← take_count data (lenN pre); repeat_at (N.to_nat count) (body data) offset)
  = Some (lenN (pre ++ counted 2 enc l)).
Proof. intros Hl H -> Hf. exact (skip_counted body enc l Hl H pre post Hf). Qed.
Lemma counted_then {A B} (body : bytes → N → option N) (enc : A → bytes) l data pre post (k : N → option B) :
  below 2 (lenN l) → Forall (λ a, Skips body (enc a)) l → data = pre ++ counted 2 enc l ++ post → fits data →
  ('(count, offset) ← take_count data (lenN pre); offset ← repeat_at (N.to_nat count) (body data) offset; k offset)
  = k (lenN (pre ++ counted 2 enc l)).
Proof.
  intros Hl H Hd Hf. pose proof (counted_in body enc l data pre post Hl H Hd Hf) as E.
  destruct (take_count data (lenN pre)) as [[n o]|]; [|done]. cbn [mbind option_bind] in *. by rewrite E.
Qed.
Lemma get_in n data pre bs post : data = pre ++ bs ++ post → lenN bs = n → fits data → get data (lenN pre) n = Some bs.
Proof. intros -> Hn Hf. by apply get_at. Qed.

(** The sections after the flags. *)
Lemma sections_read c v data pre : v = identity_version c → sidecar_ok c →
  data = pre ++ counted 2 enc_sidecar_rule c.(EngineIdentityConfig.synonyms) ++ enc_names c.(EngineIdentityConfig.fields)
    ++ enc_filter_part c.(EngineIdentityConfig.filter_fields) → fits data →
  (offset ← (if bool_decide (le_split 2 v ∈ le_split 2 <$> with_synonyms) then
              '(synonym_count, offset) ← take_count data (lenN pre);
              repeat_at (N.to_nat synonym_count) (skip_rule data) offset
            else Some (lenN pre));
   '(field_count, offset) ← take_count data offset;
   offset ← repeat_at (N.to_nat field_count) (skip_string data) offset;
   if bool_decide (le_split 2 v ∈ le_split 2 <$> with_filters) then
              '(filter_count, offset) ← take_count data offset;
              repeat_at (N.to_nat filter_count) (skip_filter data) offset
            else Some offset) = Some (lenN data).
Proof.
  intros -> (_ & _ & _ & [Hsl Hs] & [Hfl Hfs] & [Hffl Hff]) Hd Hf.
  assert (bool_decide (le_split 2 (identity_version c) ∈ le_split 2 <$> with_synonyms) = true) as ->
    by (by destruct (identity_version_cases c) as [[-> _]|[[-> | ->] _]]).
  rewrite (counted_in skip_rule enc_sidecar_rule _ _ _ _ Hsl (Forall_impl _ _ _ Hs skip_rule_at) Hd Hf).
  cbn [mbind option_bind]. set (pre1 := pre ++ counted 2 enc_sidecar_rule _).
  assert (Forall (λ a, Skips skip_string (enc_str a)) (FieldConfig.name <$> c.(EngineIdentityConfig.fields))) as Hn.
  { apply Forall_fmap. eapply Forall_impl; [exact Hfs|]. intros f. apply skip_string_at. }
  assert (data = pre1 ++ counted 2 enc_str (FieldConfig.name <$> c.(EngineIdentityConfig.fields))
    ++ enc_filter_part c.(EngineIdentityConfig.filter_fields)) as Hd1 by (unfold pre1; by rewrite <- app_assoc).
  assert (below 2 (lenN (FieldConfig.name <$> c.(EngineIdentityConfig.fields)))) as Hfl' by (by rewrite lenN_fmap).
  rewrite (counted_then skip_string enc_str _ data pre1 _ _ Hfl' Hn Hd1 Hf).
  set (pre2 := pre1 ++ _). assert (data = pre2 ++ enc_filter_part c.(EngineIdentityConfig.filter_fields)) as Hd2
    by (unfold pre2; by rewrite <- app_assoc). clear Hd Hd1 Hn Hfl'.
  destruct (identity_version_cases c) as [[-> Hnil]|[Hc Hne]].
  - rewrite Hnil in Hd2. unfold enc_filter_part in Hd2. rewrite bool_decide_eq_true_2, app_nil_r in Hd2 by done. by rewrite Hd2.
  - assert (bool_decide (le_split 2 (identity_version c) ∈ le_split 2 <$> with_filters) = true) as -> by (by destruct Hc as [-> | ->]).
    unfold enc_filter_part in Hd2. rewrite bool_decide_eq_false_2 in Hd2 by done.
    assert (Forall (λ f, Skips skip_filter (enc_filter_field f)) c.(EngineIdentityConfig.filter_fields)) as Hn
      by (eapply Forall_impl; [exact Hff|]; intros f; apply skip_filter_at).
    assert (data = pre2 ++ counted 2 enc_filter_field c.(EngineIdentityConfig.filter_fields) ++ []) as Hd3 by (by rewrite app_nil_r).
    rewrite (counted_in skip_filter enc_filter_field _ _ _ _ Hffl Hn Hd3 Hf). by rewrite Hd2.
Qed.

(** The strings and the flags before them, wherever the bytes come from. *)
Lemma strings_read data H i g a F rest :
  sidecar_str i → sidecar_str g → sidecar_str a → lenN H = 6 → lenN F = 3 → fits data →
  data = H ++ enc_str i ++ enc_str g ++ enc_str a ++ F ++ rest →
  ∃ o1 o2 o3 pre, take_string data 6 = Some (i, o1) ∧ take_string data o1 = Some (g, o2)
    ∧ take_string data o2 = Some (a, o3) ∧ get data o3 3 = Some F ∧ o3 + 3 = lenN pre ∧ data = pre ++ rest.
Proof.
  intros Hi Hg Ha H6 H3 Hf Hd.
  exists (lenN (H ++ enc_str i)), (lenN ((H ++ enc_str i) ++ enc_str g)), (lenN (((H ++ enc_str i) ++ enc_str g) ++ enc_str a)),
    ((((H ++ enc_str i) ++ enc_str g) ++ enc_str a) ++ F).
  split; [rewrite <- H6; eapply (takes_in _ _ _ data H _ (take_string_at _ Hi)); [exact Hd|done]|].
  split; [eapply (takes_in _ _ _ data _ _ (take_string_at _ Hg)); [rewrite <- !app_assoc; exact Hd|done]|].
  split; [eapply (takes_in _ _ _ data _ _ (take_string_at _ Ha)); [rewrite <- !app_assoc; exact Hd|done]|].
  split; [eapply get_in; [rewrite <- !app_assoc; exact Hd|done..]|].
  split; [by rewrite (lenN_app _ F), H3|]. by rewrite <- !app_assoc.
Qed.
Lemma version_known c : bool_decide (le_split 2 (identity_version c) ∈ le_split 2 <$> versions) = true.
Proof. by destruct (identity_version_cases c) as [[-> _]|[[-> | ->] _]]. Qed.
Lemma lenN_flags a b c : lenN (enc_bool a ++ enc_bool b ++ enc_bool c) = 3.
Proof. by destruct a, b, c. Qed.
Lemma lenN_HTFI v : lenN (HTFI v) = 6.
Proof. done. Qed.

(** The reader, from what its steps return. *)
Lemma persisted_ok data v i g a F o1 o2 o3 o4 : 
  Cursor.get_range data 0 4 = Some (blit "HTFI") → Cursor.get_range data 4 6 = Some (le_split 2 v) →
  bool_decide (le_split 2 v ∈ le_split 2 <$> versions) = true →
  take_string data 6 = Some (i, o1) → take_string data o1 = Some (g, o2) → take_string data o2 = Some (a, o3) →
  get data o3 3 = Some F → existsb (λ value, 1 <? Byte.to_N value) F = false → o3 + 3 = o4 →
  (offset ← (if bool_decide (le_split 2 v ∈ le_split 2 <$> with_synonyms) then
              '(synonym_count, offset) ← take_count data o4;
              repeat_at (N.to_nat synonym_count) (skip_rule data) offset
            else Some o4);
   '(field_count, offset) ← take_count data offset;
   offset ← repeat_at (N.to_nat field_count) (skip_string data) offset;
   if bool_decide (le_split 2 v ∈ le_split 2 <$> with_filters) then
              '(filter_count, offset) ← take_count data offset;
              repeat_at (N.to_nat filter_count) (skip_filter data) offset
            else Some offset) = Some (lenN data) → persisted_index_id data = Some i.
Proof.
  intros Hm Hv Hk H1 H2 H3 H4 Hfl <- Hs. unfold persisted_index_id. rewrite Hv, Hm. cbn [mbind option_bind].
  rewrite bool_decide_eq_true_2 by reflexivity. rewrite Hk. cbn [negb orb].
  rewrite H1. cbn [mbind option_bind]. rewrite H2. cbn [mbind option_bind]. rewrite H3. cbn [mbind option_bind].
  rewrite H4. cbn [mbind option_bind]. rewrite Hfl.
  destruct (if bool_decide (le_split 2 v ∈ le_split 2 <$> with_synonyms) then _ else _) as [o5|]; [|discriminate Hs]. cbn [mbind option_bind] in *.
  destruct (take_count data o5) as [[n o6]|]; [|discriminate Hs]. cbn [mbind option_bind] in *.
  destruct (repeat_at _ _ o6) as [o7|]; [|discriminate Hs]. cbn [mbind option_bind] in *. rewrite Hs. cbn [mbind option_bind].
  rewrite N.eqb_refl. reflexivity.
Qed.

(** Retiring an index finds the id it was created with: [persisted_index_id]
    reads the index id back from every sidecar [identity_bytes] writes. *)
Theorem persisted_index_id_roundtrip c : sidecar_ok c → fits (identity_bytes c) →
  persisted_index_id (identity_bytes c) = Some c.(EngineIdentityConfig.index_id).
Proof.
  intros Hok Hf. pose proof Hok as (Hi & Hg & Ha & _). pose proof (identity_bytes_layout c) as Hd.
  remember (identity_bytes c) as data eqn:Edata. clear Edata.
  assert (∀ a b d r, enc_bool a ++ enc_bool b ++ enc_bool d ++ r = (enc_bool a ++ enc_bool b ++ enc_bool d) ++ r) as Hfl
    by (intros; by rewrite <- !app_assoc).
  rewrite Hfl in Hd. clear Hfl.
  destruct (strings_read _ _ _ _ _ _ _ Hi Hg Ha (lenN_HTFI _) (lenN_flags _ _ _) Hf Hd)
    as (o1 & o2 & o3 & pre & H1 & H2 & H3 & H4 & H5 & Hp).
  pose proof (sidecar_head (identity_version c)) as Hh. 
  match type of Hd with _ = _ ++ ?r => specialize (Hh r) end. rewrite <- Hd in Hh. destruct Hh as [Hm Hv].
  exact (persisted_ok _ _ _ _ _ _ _ _ _ _ Hm Hv (version_known c) H1 H2 H3 H4 (flags_small _ _ _) H5
    (sections_read c _ data pre eq_refl Hok Hp Hf)).
Qed.

(** ** A sidecar determines the identity *)
(** What the sidecar keeps of a configuration: everything but the query-time
    field weights. *)
Definition identity (c : EngineIdentityConfig.t) :=
  (c.(EngineIdentityConfig.index_id), c.(EngineIdentityConfig.generation), c.(EngineIdentityConfig.analyzer),
   (c.(EngineIdentityConfig.stop_words), c.(EngineIdentityConfig.positions), c.(EngineIdentityConfig.surface_terms)),
   c.(EngineIdentityConfig.synonyms), FieldConfig.name <$> c.(EngineIdentityConfig.fields), c.(EngineIdentityConfig.filter_fields)).

Definition rule_fields (r : SynonymRule.t) : bytes * list bytes := (r.(SynonymRule.source), r.(SynonymRule.replacements)).
#[export] Instance rule_fields_inj : Inj (=) (=) rule_fields.
Proof. intros [] [] [=]; by subst. Qed.
#[export] Instance rule_unambiguous : Unambiguous enc_sidecar_rule rule_ok.
Proof.
  eapply (unambiguous_fields (enc_pair enc_str (counted 2 enc_str))
    (pair_ok (λ s, below 4 (lenN s)) (counted_ok 2 (λ s, below 4 (lenN s)))) rule_fields); [done|].
  intros r ([Hs _] & Hl & Hr). split; [done|]. split; [done|]. eapply Forall_impl; [exact Hr|]. by intros s [? _].
Qed.
#[export] Instance filter_field_unambiguous :
  Unambiguous enc_filter_field (λ f, sidecar_str f.(FilterFieldConfig.name)).
Proof.
  intros [n ty] [Ha _] [n' ty'] s t [Hb _] E. unfold enc_filter_field in E. cbn [FilterFieldConfig.name FilterFieldConfig.field_type] in *.
  rewrite <- !app_assoc in E. apply unambiguous_app in E as [-> E]; [|done..].
  apply (unambiguous_app (H:=le_split_unambiguous 1)) in E as [E ->]; [|by destruct ty, ty'..].
  split; [|done]. by destruct ty, ty'.
Qed.

(** Two configurations have the same sidecar exactly when they have the same
    identity; only the weights of their fields may differ. *)
Theorem identity_bytes_iff c c' : sidecar_ok c → sidecar_ok c' →
  identity_bytes c = identity_bytes c' ↔ identity c = identity c'.
Proof.
  intros Hok Hok'. split.
  - pose proof Hok as ([Hi _] & [Hg _] & [Ha _] & Hs & [Hfl Hfs] & Hff).
    pose proof Hok' as ([Hi' _] & [Hg' _] & [Ha' _] & Hs' & [Hfl' Hfs'] & Hff'). rewrite !identity_bytes_layout.
    intros E. apply app_same_length in E as [Ev E]; [|done].
    apply unambiguous_app in E as [E1 E]; [|done..]. apply unambiguous_app in E as [E2 E]; [|done..].
    apply unambiguous_app in E as [E3 E]; [|done..].
    do 3 (apply (unambiguous_app (H:=bool_unambiguous)) in E as [? E]; [|done..]).
    apply (unambiguous_app (H:=counted_unambiguous 2)) in E as [E4 E]; [|done..].
    assert (∀ c, Forall (λ f, sidecar_str (FieldConfig.name f)) c.(EngineIdentityConfig.fields) → below 2 (lenN c.(EngineIdentityConfig.fields)) →
      counted_ok 2 (λ s, below 4 (lenN s)) (FieldConfig.name <$> c.(EngineIdentityConfig.fields))) as Hn.
    { intros x Hx Hl. split; [by rewrite lenN_fmap|]. apply Forall_fmap. eapply Forall_impl; [exact Hx|]. by intros f [? _]. }
    apply (unambiguous_app (H:=counted_unambiguous 2)) in E as [E5 E]; [|by apply Hn..].
    assert (c.(EngineIdentityConfig.filter_fields) = c'.(EngineIdentityConfig.filter_fields)) as E6.
    { unfold HTFI in Ev. apply app_inv_head in Ev.
      apply (unambiguous_inj (H:=le_split_unambiguous 2)) in Ev;
        [|by destruct (identity_version_cases c) as [[-> _]|[[-> | ->] _]] | by destruct (identity_version_cases c') as [[-> _]|[[-> | ->] _]]].
      unfold enc_filter_part in E.
      destruct (identity_version_cases c) as [[Hv Hn1]|[Hv Hn1]], (identity_version_cases c') as [[Hv' Hn2]|[Hv' Hn2]].
      - by rewrite Hn1, Hn2.
      - rewrite Ev in Hv. destruct Hv'; congruence.
      - rewrite <- Ev in Hv'. destruct Hv; congruence.
      - rewrite !bool_decide_eq_false_2 in E by done. by apply (unambiguous_inj (H:=counted_unambiguous 2)) in E. }
    unfold identity. congruence.
  - intros [= E1 E2 E3 E4 E5 E6 E7 E8 E9]. rewrite !identity_bytes_layout. unfold enc_names, identity_version. by rewrite E1, E2, E3, E4, E5, E6, E7, E8, E9.
Qed.

(** ** A concrete index *)
Definition sample_renamed : EngineIdentityConfig.t :=
  EngineIdentityConfig.mk (magic "products") (magic "g1") [FieldConfig.mk (magic "title") 0] (magic "english@2")
    true true false [SynonymRule.mk (magic "sneaker") [magic "shoe"; magic "trainer"]]
    [FilterFieldConfig.mk (magic "price") FilterFieldType.Number].
Ltac sidecar := repeat split; repeat constructor; vm_compute; reflexivity.
Lemma sample_sidecar : sidecar_ok sample_identity.
Proof. sidecar. Qed.
Lemma persisted_index_id_roundtrip_witness :
  lenN (identity_bytes sample_identity) = 97 ∧ persisted_index_id (identity_bytes sample_identity) = Some (magic "products").
Proof.
  split; [vm_compute; reflexivity|].
  refine (persisted_index_id_roundtrip sample_identity sample_sidecar _). vm_compute. discriminate.
Defined.
Lemma identity_bytes_iff_witness : sample_renamed ≠ sample_identity ∧ identity_bytes sample_renamed = identity_bytes sample_identity.
Proof.
  split; [intros [=]|]. refine (proj2 (identity_bytes_iff sample_renamed sample_identity _ sample_sidecar) eq_refl). sidecar.
Defined.
