(* ===== verification/Text.v ===== *)
(** * Rust strings: characters and order

    [str::chars] and [str::char_indices] on the UTF-8 bytes of a string, and the
    byte-lexicographic order of [str] and [\[u8\]].  Valid UTF-8 is exactly the
    encodings of scalar values, so a string and its characters determine each
    other. *)
From S2P Require Import Prelude.
From S2P Require Import Errors.
From S2P Require Import Bytes.
Local Open Scope N_scope.

(** ** Characters *)
(** [str::chars] of a valid string. *)
Definition chars (s : bytes) : list N := default [] (utf8_chars s).
(** [str::char_indices] *)
Fixpoint indices_from (offset : N) (cs : list N) : list (N * N) :=
  match cs with [] => [] | c :: cs => (offset, c) :: indices_from (offset + len_utf8 c) cs end.
Definition char_indices (source : bytes) : list (N * N) := indices_from 0 (chars source).

(** Division by a positive constant, for [lia]. *)
Lemma div_split (a b q r : N) : r < b → a = q * b + r → a / b = q ∧ a mod b = r.
Proof. intros Hr ->. rewrite N.div_add_l, N.div_small by lia. split; [lia|]. by rewrite N.add_comm, N.Div0.mod_add, N.mod_small. Qed.
Lemma byte_of_eq (b : byte) n : Byte.to_N b = n → byte_of_N n = b.
Proof. intros <-. apply byte_of_to_N. Qed.

Lemma encode_1 b : Byte.to_N b < 128 → utf8_encode_char (Byte.to_N b) = [b].
Proof. intros H. unfold utf8_encode_char. rewrite (proj2 (N.ltb_lt _ _)) by lia. by rewrite byte_of_to_N. Qed.
Lemma encode_2 b0 b1 : 194 <= Byte.to_N b0 → Byte.to_N b0 <= 223 → is_cont (Byte.to_N b1) = true →
  utf8_encode_char ((Byte.to_N b0 - 192) * 64 + (Byte.to_N b1 - 128)) = [b0; b1].
Proof.
  unfold is_cont. intros H0 H1 Hc. b2p. unfold utf8_encode_char.
  rewrite (proj2 (N.ltb_ge _ _)), (proj2 (N.ltb_lt _ 2048)) by lia.
  destruct (div_split ((Byte.to_N b0 - 192) * 64 + (Byte.to_N b1 - 128)) 64 (Byte.to_N b0 - 192) (Byte.to_N b1 - 128)) as [-> ->]; [lia..|].
  repeat f_equal; apply byte_of_eq; lia.
Qed.
Lemma encode_3 b0 b1 b2 : 224 <= Byte.to_N b0 → Byte.to_N b0 <= 239 → is_cont (Byte.to_N b1) = true → is_cont (Byte.to_N b2) = true →
  (Byte.to_N b0 = 224 → 160 <= Byte.to_N b1) →
  utf8_encode_char ((Byte.to_N b0 - 224) * 4096 + (Byte.to_N b1 - 128) * 64 + (Byte.to_N b2 - 128)) = [b0; b1; b2].
Proof.
  unfold is_cont. intros H0 H1 Hc1 Hc2 Hs. b2p. unfold utf8_encode_char. set (n := _ * 4096 + _ + _).
  rewrite (proj2 (N.ltb_ge _ 128)), (proj2 (N.ltb_ge _ 2048)), (proj2 (N.ltb_lt _ 65536)) by lia.
  destruct (div_split n 4096 (Byte.to_N b0 - 224) ((Byte.to_N b1 - 128) * 64 + (Byte.to_N b2 - 128))) as [-> _]; [lia..|].
  destruct (div_split n 64 ((Byte.to_N b0 - 224) * 64 + (Byte.to_N b1 - 128)) (Byte.to_N b2 - 128)) as [-> ->]; [lia..|].
  destruct (div_split ((Byte.to_N b0 - 224) * 64 + (Byte.to_N b1 - 128)) 64 (Byte.to_N b0 - 224) (Byte.to_N b1 - 128)) as [_ ->]; [lia..|].
  repeat f_equal; apply byte_of_eq; lia.
Qed.
Lemma encode_4 b0 b1 b2 b3 : 240 <= Byte.to_N b0 → Byte.to_N b0 <= 244 → is_cont (Byte.to_N b1) = true →
  is_cont (Byte.to_N b2) = true → is_cont (Byte.to_N b3) = true → (Byte.to_N b0 = 240 → 144 <= Byte.to_N b1) →
  utf8_encode_char ((Byte.to_N b0 - 240) * 262144 + (Byte.to_N b1 - 128) * 4096 + (Byte.to_N b2 - 128) * 64 + (Byte.to_N b3 - 128))
  = [b0; b1; b2; b3].
Proof.
  unfold is_cont. intros H0 H1 Hc1 Hc2 Hc3 Hs. b2p. unfold utf8_encode_char. set (n := _ * 262144 + _ + _ + _).
  rewrite (proj2 (N.ltb_ge _ 128)), (proj2 (N.ltb_ge _ 2048)), (proj2 (N.ltb_ge _ 65536)) by lia.
  destruct (div_split n 262144 (Byte.to_N b0 - 240) ((Byte.to_N b1 - 128) * 4096 + (Byte.to_N b2 - 128) * 64 + (Byte.to_N b3 - 128))) as [-> _]; [lia..|].
  destruct (div_split n 4096 ((Byte.to_N b0 - 240) * 64 + (Byte.to_N b1 - 128)) ((Byte.to_N b2 - 128) * 64 + (Byte.to_N b3 - 128))) as [-> _]; [lia..|].
  destruct (div_split n 64 ((Byte.to_N b0 - 240) * 4096 + (Byte.to_N b1 - 128) * 64 + (Byte.to_N b2 - 128)) (Byte.to_N b3 - 128)) as [-> ->]; [lia..|].
  destruct (div_split ((Byte.to_N b0 - 240) * 64 + (Byte.to_N b1 - 128)) 64 (Byte.to_N b0 - 240) (Byte.to_N b1 - 128)) as [_ ->]; [lia..|].
  destruct (div_split ((Byte.to_N b0 - 240) * 4096 + (Byte.to_N b1 - 128) * 64 + (Byte.to_N b2 - 128)) 64
    ((Byte.to_N b0 - 240) * 64 + (Byte.to_N b1 - 128)) (Byte.to_N b2 - 128)) as [_ ->]; [lia..|].
  repeat f_equal; apply byte_of_eq; lia.
Qed.

(** Boolean tests read back as propositions, one case per disjunct. *)
Ltac b2p_cases := repeat (b2p; match goal with H : _ ∨ _ |- _ => destruct H end); b2p.

Lemma scalar_intro n : n < 55296 ∨ 57343 < n ∧ n < 1114112 → is_scalar n = true.
Proof. unfold is_scalar. intros H. apply orb_true_iff. rewrite andb_true_iff, !N.ltb_lt. lia. Qed.

(** The first character of a valid string. *)
Lemma utf8_chars_uncons s cs : utf8_chars s = Some cs →
  s = [] ∧ cs = [] ∨ ∃ c r cs', cs = c :: cs' ∧ s = utf8_encode_char c ++ r ∧ utf8_chars r = Some cs' ∧ is_scalar c = true.
Proof.
  destruct s as [|b0 r0]; [intros [= <-]; by left|]. intros H. right. cbn [utf8_chars] in H.
  pose proof (to_N_lt b0) as L0. destruct (Byte.to_N b0 <? 128) eqn:E0.
  { b2p. apply fmap_Some in H as (cs' & H & ->). exists (Byte.to_N b0), r0, cs'. split; [done|].
    split; [by rewrite encode_1|]. split; [done|]. apply scalar_intro. lia. }
  clear E0. destruct r0 as [|b1 r1]; [done|]. pose proof (to_N_lt b1) as L1. destruct ((194 <=? _) && _) eqn:E1.
  { destruct (is_cont (Byte.to_N b1)) eqn:C1; [|done]. b2p. apply fmap_Some in H as (cs' & H & ->).
    eexists _, r1, cs'. split; [done|]. split; [by rewrite encode_2|]. split; [done|]. apply scalar_intro. lia. }
  clear E1. destruct r1 as [|b2 r2]; [done|]. pose proof (to_N_lt b2) as L2. destruct ((224 <=? _) && _) eqn:E2.
  { destruct (_ && _ && _ && _) eqn:C; [|done]. apply fmap_Some in H as (cs' & H & ->).
    assert (is_cont (Byte.to_N b1) = true ∧ is_cont (Byte.to_N b2) = true) as [C1 C2] by (b2p_cases; done).
    assert ((Byte.to_N b0 = 224 → 160 <= Byte.to_N b1) ∧ (Byte.to_N b0 = 237 → Byte.to_N b1 <= 159)) as [Hs Hl] by (b2p_cases; lia).
    clear C. b2p. eexists _, r2, cs'. split; [done|]. split; [by rewrite encode_3|]. split; [done|].
    apply scalar_intro. unfold is_cont in C1, C2. b2p. lia. }
  clear E2. destruct r2 as [|b3 r3]; [done|]. pose proof (to_N_lt b3) as L3. destruct (_ && _ && _ && _ && _ && _ && _) eqn:C; [|done].
  apply fmap_Some in H as (cs' & H & ->).
  assert (is_cont (Byte.to_N b1) = true ∧ is_cont (Byte.to_N b2) = true ∧ is_cont (Byte.to_N b3) = true) as (C1 & C2 & C3) by (b2p_cases; done).
  assert ((Byte.to_N b0 = 240 → 144 <= Byte.to_N b1) ∧ (Byte.to_N b0 = 244 → Byte.to_N b1 <= 143) ∧ 240 <= Byte.to_N b0 ∧ Byte.to_N b0 <= 244)
    as (Hs & Hl & H0 & H0') by (b2p_cases; lia).
  clear C. eexists _, r3, cs'. split; [done|]. split; [by rewrite encode_4|]. split; [done|].
  apply scalar_intro. unfold is_cont in C1, C2, C3. b2p. lia.
Qed.

(** And the other way: the encoding of a scalar value is read back. *)
Lemma to_N_byte_small n : n < 256 → Byte.to_N (byte_of_N n) = n.
Proof. intros H. rewrite to_N_byte_of_N. by apply N.mod_small. Qed.
Lemma mod_64 n : n mod 64 < 64.
Proof. by apply N.mod_lt. Qed.
Ltac decide_ltb := repeat match goal with
  | |- context [?a <? ?b] => first [rewrite (proj2 (N.ltb_lt a b)) by lia | rewrite (proj2 (N.ltb_ge a b)) by lia]
  | |- context [?a <=? ?b] => first [rewrite (proj2 (N.leb_le a b)) by lia | rewrite (proj2 (N.leb_gt a b)) by lia]
  end; cbn [andb orb negb].
Lemma digits n : ∃ q r, n = 64 * q + r ∧ n / 64 = q ∧ n mod 64 = r ∧ r < 64.
Proof. exists (n / 64), (n mod 64). split; [by apply N.div_mod|]. split; [done|]. split; [done|]. apply mod_64. Qed.
Lemma div_64_64 n : n / 4096 = n / 64 / 64.
Proof. by rewrite N.Div0.div_div. Qed.
Lemma div_64_64_64 n : n / 262144 = n / 64 / 64 / 64.
Proof. by rewrite !N.Div0.div_div. Qed.
Lemma utf8_chars_cons c r : is_scalar c = true → utf8_chars (utf8_encode_char c ++ r) = cons c <$> utf8_chars r.
Proof.
  unfold is_scalar. rewrite orb_true_iff, andb_true_iff, !N.ltb_lt. intros Hc. unfold utf8_encode_char.
  rewrite div_64_64_64, div_64_64.
  destruct (digits c) as (q1 & r1 & H1 & -> & -> & L1), (digits q1) as (q2 & r2 & H2 & -> & -> & L2), (digits q2) as (q3 & r3 & H3 & -> & -> & L3).
  destruct (N.ltb_spec c 128).
  { cbn [app utf8_chars]. rewrite to_N_byte_small by lia. by decide_ltb. }
  destruct (N.ltb_spec c 2048).
  { cbn [app utf8_chars]. rewrite !to_N_byte_small by lia. unfold is_cont. decide_ltb. do 2 f_equal. lia. }
  destruct (N.ltb_spec c 65536).
  { cbn [app utf8_chars]. rewrite !to_N_byte_small by lia. unfold is_cont. decide_ltb.
    destruct (N.eqb_spec (224 + q2) 224), (N.eqb_spec (224 + q2) 237); decide_ltb; try lia; do 2 f_equal; lia. }
  cbn [app utf8_chars]. rewrite !to_N_byte_small by lia. unfold is_cont. decide_ltb.
  destruct (N.eqb_spec (240 + q3) 240), (N.eqb_spec (240 + q3) 244); decide_ltb; try lia; do 2 f_equal; lia.
Qed.

Lemma utf8_chars_iff s cs : utf8_chars s = Some cs ↔ s = utf8_encode cs ∧ Forall (λ c, is_scalar c = true) cs.
Proof.
  split.
  - revert s. induction cs as [|c cs IH]; intros s [[-> H]|(c' & r & cs' & [= <- <-] & -> & H & Hs)]%utf8_chars_uncons; try done.
    apply IH in H as [-> H]. by split; [|constructor].
  - intros [-> H]. induction H as [|c cs Hc _ IH]; [done|]. unfold utf8_encode. cbn [fmap list_fmap concat].
    rewrite utf8_chars_cons by done. unfold utf8_encode in IH. by rewrite IH.
Qed.
Lemma utf8_encode_app a b : utf8_encode (a ++ b) = utf8_encode a ++ utf8_encode b.
Proof. unfold utf8_encode. by rewrite fmap_app, concat_app. Qed.
Lemma utf8_valid_iff s : utf8_valid s = true ↔ utf8_chars s = Some (chars s).
Proof.
  unfold utf8_valid, chars. rewrite bool_decide_eq_true. split; [by intros [cs ->] | intros ->; by eexists].
Qed.
Lemma valid_encode s : utf8_valid s = true → s = utf8_encode (chars s) ∧ Forall (λ c, is_scalar c = true) (chars s).
Proof. intros H. by apply utf8_chars_iff, utf8_valid_iff. Qed.
Lemma chars_inj s t : utf8_valid s = true → utf8_valid t = true → chars s = chars t → s = t.
Proof. intros [Hs _]%valid_encode [Ht _]%valid_encode H. by rewrite Hs, Ht, H. Qed.
Lemma chars_app s t : utf8_valid s = true → utf8_valid t = true → chars (s ++ t) = chars s ++ chars t ∧ utf8_valid (s ++ t) = true.
Proof.
  intros [Hs Fs]%valid_encode [Ht Ft]%valid_encode.
  assert (utf8_chars (s ++ t) = Some (chars s ++ chars t)) as H.
  { apply utf8_chars_iff. rewrite utf8_encode_app, <- Hs, <- Ht. split; [done|]. by apply Forall_app. }
  split; [unfold chars at 1; by rewrite H|]. unfold utf8_valid. apply bool_decide_eq_true. by eexists.
Qed.
Lemma lenN_encode_char c : lenN (utf8_encode_char c) = len_utf8 c.
Proof. unfold utf8_encode_char, len_utf8. by repeat case_if. Qed.
Lemma lenN_valid s : utf8_valid s = true → lenN s = sum (len_utf8 <$> chars s).
Proof.
  intros [Hs _]%valid_encode. rewrite Hs at 1. generalize (chars s). intros cs.
  induction cs as [|c cs IH]; [done|]. unfold utf8_encode in *. cbn [fmap list_fmap concat]. by rewrite lenN_app, lenN_encode_char, sum_cons, IH.
Qed.

(** A string of ASCII bytes has one character per byte. *)
Lemma chars_ascii s : is_ascii s = true → utf8_chars s = Some (Byte.to_N <$> s).
Proof.
  induction s as [|b s IH]; [done|]. unfold is_ascii. cbn [forallb]. intros [Hb Hs]%andb_true_iff. cbn [utf8_chars].
  unfold is_ascii_byte in Hb. rewrite Hb. by rewrite (IH Hs).
Qed.

(** ** The order of [str] and [\[u8\]]: byte-lexicographic *)
Fixpoint bytes_leb (a b : bytes) : bool :=
  match a, b with
  | [], _ => true
  | _ :: _, [] => false
  | x :: a, y :: b => (Byte.to_N x <? Byte.to_N y) || bool_decide (x = y) && bytes_leb a b
  end.
Definition bytes_le (a b : bytes) : Prop := bytes_leb a b = true.
Definition bytes_lt (a b : bytes) : Prop := bytes_le a b ∧ a ≠ b.
#[export] Instance bytes_le_dec : RelDecision bytes_le.
Proof. intros a b. unfold bytes_le. apply _. Defined.

Lemma byte_order (x y : byte) : Byte.to_N x < Byte.to_N y ∨ x = y ∨ Byte.to_N y < Byte.to_N x.
Proof.
  destruct (N.lt_trichotomy (Byte.to_N x) (Byte.to_N y)) as [|[E|]]; [auto| |auto]. right. left.
  by rewrite <- (byte_of_to_N x), <- (byte_of_to_N y), E.
Qed.
Lemma bytes_le_cons x y a b : bytes_le (x :: a) (y :: b) ↔ Byte.to_N x < Byte.to_N y ∨ x = y ∧ bytes_le a b.
Proof. unfold bytes_le. cbn [bytes_leb]. by rewrite orb_true_iff, andb_true_iff, N.ltb_lt, bool_decide_eq_true. Qed.
Lemma bytes_le_nil_r a : bytes_le a [] ↔ a = [].
Proof. by destruct a. Qed.
#[export] Instance bytes_le_reflexive : Reflexive bytes_le.
Proof. intros a. induction a as [|x a IH]; [done|]. apply bytes_le_cons. auto. Qed.
#[export] Instance bytes_le_transitive : Transitive bytes_le.
Proof.
  intros a. induction a as [|x a IH]; intros [|y b] [|z c]; try done. rewrite !bytes_le_cons. intros [?|[-> ?]] [?|[-> ?]]; [lia|auto|auto|].
  right. split; [done|]. by eapply IH.
Qed.
#[export] Instance bytes_le_antisymm : AntiSymm (=) bytes_le.
Proof.
  intros a. induction a as [|x a IH]; intros [|y b]; try done. rewrite !bytes_le_cons. intros [?|[-> ?]] [?|[? ?]]; try lia; subst; try lia.
  f_equal. by apply IH.
Qed.
#[export] Instance bytes_le_total : Total bytes_le.
Proof.
  intros a. induction a as [|x a IH]; intros [|y b]; [by left..|by right|]. rewrite !bytes_le_cons.
  destruct (byte_order x y) as [|[->|]]; [auto| |auto]. destruct (IH b); auto.
Qed.
