(* ===== verification/Spans.v ===== *)
(** * src/src/engine.rs: spans, single edits and prefix ranges

    The leaf routines of match tracing and prefix expansion: UTF-16 offsets of a
    source value, the spans reported for it, [within_one_edit] and
    [prefix_end]. *)
From S2P Require Import Prelude.
From S2P Require Import Errors.
From S2P Require Import Bytes.
From S2P Require Import Text.
From S2P Require Import Response.
Local Open Scope N_scope.

#[export] Instance TraceSpan_eq_dec : EqDecision TraceSpan.t.
Proof. solve_decision. Defined.
#[export] Instance TraceSpan_countable : Countable TraceSpan.t.
Proof.
  refine (inj_countable' (λ s, (s.(TraceSpan.start), s.(TraceSpan.end_))) (λ '(a, b), TraceSpan.mk a b) _). by intros [].
Defined.

(** ** UTF-16 offsets *)
(** [offsets\[index\] = value] *)
Definition set_at (offsets : list N) (index value : N) : outcome (list N) :=
  if index <? lenN offsets then Ok (<[N.to_nat index := value]> offsets) else Panic.
(** [u32] addition, which panics in a debug build when it overflows. *)
Definition u32_add (a b : N) : outcome N := if a + b <=? U32_MAX then Ok (a + b) else Panic.

(** The body of the loop over [char_indices]. *)
Definition offset_step : list N * N → N * N → outcome (list N * N) := λ '(offsets, utf16_offset) '(byte_offset, character),
  offsets ← set_at offsets byte_offset utf16_offset;
  utf16_offset ← u32_add utf16_offset (len_utf16 character);
  offsets ← set_at offsets (byte_offset + len_utf8 character) utf16_offset;
  Ok (offsets, utf16_offset).
Definition utf16_offsets (source : bytes) : outcome (option (list N)) :=
  if is_ascii source then Ok None else
  let offsets := replicate (N.to_nat (lenN source + 1)) 0 in
  '(offsets, _) ← foldO offset_step (offsets, 0) (char_indices source);
  Ok (Some offsets).

(** [u32::try_from(..).ok()] *)
Definition u32_try_from (n : N) : option N := if n <=? U32_MAX then Some n else None.
Definition source_span (utf16_offsets : option (list N)) (start end_ : N) : option TraceSpan.t :=
  if end_ <? start then None else
  '(start, end_) ← (match utf16_offsets with
    | Some offsets => start ← offsets !! N.to_nat start; end_ ← offsets !! N.to_nat end_; Some (start, end_)
    | None => start ← u32_try_from start; end_ ← u32_try_from end_; Some (start, end_)
    end);
  if start <=? end_ then Some (TraceSpan.mk start end_) else None.

(** [spans] and [seen] are passed by mutable reference. *)
Definition push_trace_span (spans : list TraceSpan.t) (seen : gset TraceSpan.t) (span : option TraceSpan.t) (max_spans : N)
  : list TraceSpan.t * gset TraceSpan.t * bool :=
  match span with
  | None => (spans, seen, false)
  | Some span =>
      if decide (span ∈ seen) then (spans, seen, false)
      else if lenN spans <? max_spans then (spans ++ [span], {[span]} ∪ seen, false)
      else (spans, seen, true)
  end.

(** ** Edits *)
Definition abs_diff (a b : N) : N := if a <? b then b - a else a - b.
(** The loop over the zipped characters; [None] is the early [return false]. *)
Fixpoint differences_loop (index : N) (pairs : list (N * N)) (differences : list (N * N * N)) : option (list (N * N * N)) :=
  match pairs with
  | [] => Some differences
  | (left_, right_) :: pairs =>
      if left_ =? right_ then differences_loop (index + 1) pairs differences
      else if lenN differences =? 2 then None
      else differences_loop (index + 1) pairs (differences ++ [(index, left_, right_)])
  end.
(** The loop over the two peekable iterators; [longer] advances every time. *)
Fixpoint edits_loop (shorter longer : list N) (edits : N) : bool :=
  match longer with
  | [] => true
  | long :: longer' =>
      match shorter with
      | [] => true
      | short :: shorter' =>
          if short =? long then edits_loop shorter' longer' edits
          else if 1 <? edits + 1 then false else edits_loop shorter longer' (edits + 1)
      end
  end.
Definition within_one_edit (left right : bytes) : bool :=
  let left_length := lenN (chars left) in
  let right_length := lenN (chars right) in
  if 1 <? abs_diff left_length right_length then false
  else if bool_decide (left = right) then true
  else if left_length =? right_length then
    match differences_loop 0 (zip (chars left) (chars right)) [] with
    | None => false
    | Some [_] => true
    | Some [(i0, l0, r0); (i1, l1, r1)] => (i1 =? i0 + 1) && (l0 =? r1) && (l1 =? r0)
    | Some _ => false
    end
  else
    let '(shorter, longer) := if left_length <? right_length then (left, right) else (right, left) in
    edits_loop (chars shorter) (chars longer) 0.

(** ** Prefix ranges *)
(** The loop on the vector, read from its last byte. *)
Fixpoint prefix_end_loop (reversed : bytes) : option bytes :=
  match reversed with
  | [] => None
  | last :: rest =>
      if negb (Byte.to_N last =? U8_MAX) then Some (rev (byte_of_N (Byte.to_N last + 1) :: rest)) else prefix_end_loop rest
  end.
Definition prefix_end (prefix : bytes) : option bytes := prefix_end_loop (rev prefix).

(** ** Offsets of a source value *)
Definition utf16_length (s : bytes) : N := sum (len_utf16 <$> chars s).
Lemma len_utf8_pos c : 1 <= len_utf8 c ∧ len_utf16 c <= len_utf8 c.
Proof. unfold len_utf8, len_utf16. repeat case_if; b2p; lia. Qed.
Lemma utf16_le_utf8 cs : sum (len_utf16 <$> cs) <= sum (len_utf8 <$> cs).
Proof.
  induction cs as [|c cs IH]; [done|]. rewrite !fmap_cons, !sum_cons. pose proof (len_utf8_pos c).
  lia.
Qed.
Lemma set_at_ok offsets i v : i < lenN offsets → set_at offsets i v = Ok (<[N.to_nat i := v]> offsets).
Proof. intros H. unfold set_at. by rewrite (proj2 (N.ltb_lt _ _)). Qed.
Lemma lenN_insert {A} (l : list A) i x : lenN (<[i:=x]> l) = lenN l.
Proof. unfold lenN. by rewrite length_insert. Qed.

Lemma offset_step_ok offsets u b c : b + len_utf8 c < lenN offsets → u + len_utf16 c <= U32_MAX → offsets !! N.to_nat b = Some u →
  offset_step (offsets, u) (b, c) = Ok (<[N.to_nat (b + len_utf8 c) := u + len_utf16 c]> offsets, u + len_utf16 c).
Proof.
  intros Hl Hu Hb. unfold offset_step, u32_add. rewrite set_at_ok by lia. cbn [mbind outcome_bind].
  rewrite (proj2 (N.leb_le _ _)) by done. cbn [mbind outcome_bind]. rewrite list_insert_id by done.
  by rewrite set_at_ok by lia.
Qed.
(** From byte [b] and offset [u] on, the loop records the offset of every
    character boundary and leaves the earlier entries alone. *)
Lemma offsets_loop cs : ∀ b u offsets,
  lenN offsets = b + sum (len_utf8 <$> cs) + 1 → u + sum (len_utf16 <$> cs) <= U32_MAX → offsets !! N.to_nat b = Some u →
  ∃ offsets', foldO offset_step (offsets, u) (indices_from b cs) = Ok (offsets', u + sum (len_utf16 <$> cs))
    ∧ (∀ i, i <= b → offsets' !! N.to_nat i = offsets !! N.to_nat i)
    ∧ ∀ p q, cs = p ++ q → offsets' !! N.to_nat (b + sum (len_utf8 <$> p)) = Some (u + sum (len_utf16 <$> p)).
Proof.
  induction cs as [|c cs IH]; intros b u offsets Hl Hu Hb.
  - exists offsets. split; [unfold foldO; cbn; do 2 f_equal; lia|]. split; [done|]. intros [|] q E; [|done]. cbn. by rewrite !N.add_0_r.
  - cbn [indices_from foldO] in *. rewrite !fmap_cons, !sum_cons in *. pose proof (len_utf8_pos c) as [Hc1 Hc2].
    rewrite offset_step_ok by first [done | lia]. cbn [mbind outcome_bind].
    destruct (IH (b + len_utf8 c) (u + len_utf16 c) (<[N.to_nat (b + len_utf8 c) := u + len_utf16 c]> offsets)) as (o' & H1 & H2 & H3).
    + rewrite lenN_insert. lia.
    + lia.
    + apply list_lookup_insert_eq. unfold lenN in Hl. lia.
    + exists o'. split; [rewrite H1; do 2 f_equal; lia|]. split.
      * intros i Hi. rewrite H2 by lia. apply list_lookup_insert_ne. lia.
      * intros [|c' p] q E.
        -- cbn. rewrite !N.add_0_r, H2 by lia. rewrite list_lookup_insert_ne by lia. done.
        -- injection E as <- E. rewrite !fmap_cons, !sum_cons, !N.add_assoc. by apply (H3 p q).
Qed.

Lemma lookup_replicate_0 n i : i < n → replicate (N.to_nat n) 0 !! N.to_nat i = Some 0.
Proof. intros H. apply lookup_replicate_2. lia. Qed.
Lemma ascii_length s : is_ascii s = true → utf16_length s = lenN s.
Proof.
  intros Hs. unfold utf16_length. assert (chars s = Byte.to_N <$> s) as -> by (unfold chars; by rewrite chars_ascii). revert Hs.
  induction s as [|b s IH]; [done|]. unfold is_ascii. cbn [forallb]. unfold is_ascii_byte at 1.
  intros [Hb%N.ltb_lt Hs]%andb_true_iff. rewrite !fmap_cons, sum_cons, lenN_cons, (IH Hs). unfold len_utf16. by decide_ltb.
Qed.
(** [utf16_offsets] never panics, and maps every character boundary. *)
Lemma utf16_offsets_spec s : utf8_valid s = true → lenN s <= U32_MAX → ∃ offsets, utf16_offsets s = Ok offsets
  ∧ match offsets with
    | None => is_ascii s = true
    | Some offsets => ∀ p q, chars s = p ++ q → offsets !! N.to_nat (sum (len_utf8 <$> p)) = Some (sum (len_utf16 <$> p))
    end.
Proof.
  intros Hv Hlen. unfold utf16_offsets. destruct (is_ascii s) eqn:Easc; [by eexists|].
  destruct (offsets_loop (chars s) 0 0 (replicate (N.to_nat (lenN s + 1)) 0)) as (offsets & Hf & _ & Hp).
  - unfold lenN at 1. rewrite length_replicate, <- lenN_valid by done. lia.
  - rewrite lenN_valid in Hlen by done. pose proof (utf16_le_utf8 (chars s)). lia.
  - apply lookup_replicate_0. lia.
  - unfold char_indices. rewrite Hf. exists (Some offsets). split; [done|]. intros p q E. specialize (Hp p q E). by rewrite !N.add_0_l in Hp.
Qed.
(** [utf16_offsets] never panics and maps every character boundary of the
    source to the UTF-16 length of what precedes it; a span at two boundaries
    therefore counts UTF-16 code units. *)
Theorem source_span_utf16 (before matched after : bytes) :
  utf8_valid before = true → utf8_valid matched = true → utf8_valid after = true →
  lenN (before ++ matched ++ after) <= U32_MAX →
  ∃ offsets, utf16_offsets (before ++ matched ++ after) = Ok offsets
    ∧ source_span offsets (lenN before) (lenN (before ++ matched))
      = Some (TraceSpan.mk (utf16_length before) (utf16_length (before ++ matched))).
Proof.
  intros Hb Hm Ha Hlen. destruct (chars_app before matched Hb Hm) as [Ebm Hbm].
  destruct (chars_app _ after Hbm Ha) as [Eall Hall]. rewrite <- app_assoc in Eall, Hall.
  assert (utf16_length before <= utf16_length (before ++ matched)) as Hle.
  { unfold utf16_length. rewrite Ebm, fmap_app, sum_app. lia. }
  assert (lenN before <= lenN (before ++ matched) ∧ lenN (before ++ matched) <= lenN (before ++ matched ++ after)) as [Hl1 Hl2]
    by (rewrite !lenN_app; lia).
  destruct (utf16_offsets_spec _ Hall Hlen) as ([offsets|] & Ho & Hp); (eexists; split; [exact Ho|]); unfold source_span.
  - decide_ltb. rewrite (lenN_valid before), (lenN_valid (before ++ matched)) by done.
    pose proof (Hp (chars before) (chars matched ++ chars after)) as P1. rewrite Eall, Ebm, <- app_assoc in P1. specialize (P1 eq_refl).
    pose proof (Hp (chars before ++ chars matched) (chars after)) as P2. rewrite Eall, Ebm in P2. specialize (P2 eq_refl).
    rewrite P1. cbn [mbind option_bind]. rewrite <- Ebm in P2. rewrite P2. cbn [mbind option_bind].
    unfold utf16_length in *. by decide_ltb.
  - unfold u32_try_from. decide_ltb. cbn [mbind option_bind].
    unfold is_ascii in Hp. rewrite !forallb_app in Hp. apply andb_true_iff in Hp as [Eb [Em _]%andb_true_iff].
    rewrite !ascii_length; [|unfold is_ascii; rewrite ?forallb_app, ?Eb, ?Em; done..]. by decide_ltb.
Qed.

(** ** The spans of a value *)
(** What the trace does with the spans it meets, in order. *)
Definition push_all (max_spans : N) (met : list (option TraceSpan.t)) : list TraceSpan.t * bool :=
  let '(spans, _, truncated) := foldl (λ '(spans, seen, truncated) span,
    let '(spans, seen, full) := push_trace_span spans seen span max_spans in (spans, seen, truncated || full)) ([], ∅, false) met in
  (spans, truncated).
Definition met_spans (met : list (option TraceSpan.t)) : list TraceSpan.t := omap id met.

Lemma push_all_loop max met : ∀ acc seen truncated,
  (∀ s, s ∈ seen ↔ s ∈ take (N.to_nat max) acc) → truncated = bool_decide (N.to_nat max < length acc)%nat →
  ∃ seen', foldl (λ '(spans, seen, truncated) span,
    let '(spans, seen, full) := push_trace_span spans seen span max in (spans, seen, truncated || full))
    (take (N.to_nat max) acc, seen, truncated) met
  = (take (N.to_nat max) (distinct_after acc (met_spans met)), seen',
     bool_decide (N.to_nat max < length (distinct_after acc (met_spans met)))%nat).
Proof.
  induction met as [|[s|] met IH]; intros acc seen truncated Hs ->; [by eexists| |].
  - unfold met_spans, distinct_after. cbn [foldl omap list_omap id push_trace_span].
    destruct (decide (s ∈ seen)) as [Hin|Hin].
    + rewrite orb_false_r. assert (s ∈ acc) by (rewrite <- (take_drop (N.to_nat max) acc); apply elem_of_app; left; by apply Hs).
      rewrite decide_True by done. by apply IH.
    + unfold lenN. rewrite length_take. destruct (N.ltb_spec (N.of_nat (N.to_nat max `min` length acc)) max) as [Hlt|Hge].
      * assert (take (N.to_nat max) acc = acc) as E by (apply take_ge; lia). rewrite E in *.
        rewrite decide_False by (by rewrite <- Hs). rewrite orb_false_r.
        assert (acc ++ [s] = take (N.to_nat max) (acc ++ [s])) as E' by (symmetry; apply take_ge; rewrite length_app; cbn; lia).
        pose proof (IH (acc ++ [s]) ({[s]} ∪ seen) (bool_decide (N.to_nat max < length acc)%nat)) as H. rewrite <- E' in H. apply H.
        -- intros x. rewrite elem_of_union, elem_of_singleton, Hs, elem_of_app, list_elem_of_singleton. tauto.
        -- rewrite !bool_decide_eq_false_2 by (rewrite ?length_app; cbn; lia). done.
      * rewrite orb_true_r. destruct (decide (s ∈ acc)).
        -- assert (N.to_nat max < length acc)%nat.
           { rewrite <- (take_drop (N.to_nat max) acc) in e. apply elem_of_app in e as [Ht|Hd]; [by apply Hs in Ht|].
             destruct (drop (N.to_nat max) acc) eqn:Ed; [by apply not_elem_of_nil in Hd|].
             apply (f_equal length) in Ed. rewrite length_drop in Ed. cbn in Ed. lia. }
           apply IH; [done|]. by rewrite bool_decide_eq_true_2.
        -- assert (take (N.to_nat max) acc = take (N.to_nat max) (acc ++ [s])) as E by (rewrite take_app_le by lia; done).
           rewrite E. apply IH; [by rewrite <- E|]. rewrite bool_decide_eq_true_2; [done|]. rewrite length_app. cbn. lia.
  - unfold met_spans. cbn [foldl omap list_omap id push_trace_span]. rewrite orb_false_r. by apply IH.
Qed.
(** A value reports its first distinct spans, at most [max_spans] of them, and
    says whether there were more. *)
Theorem push_trace_span_distinct max_spans met :
  push_all max_spans met = (take (N.to_nat max_spans) (distinct_after [] (met_spans met)),
    bool_decide (N.to_nat max_spans < length (distinct_after [] (met_spans met)))%nat).
Proof.
  unfold push_all. destruct (push_all_loop max_spans met [] ∅ false) as [seen' H].
  - intros s. rewrite take_nil. split; [by intros ?%elem_of_empty | by intros ?%not_elem_of_nil].
  - symmetry. apply bool_decide_eq_false. cbn. lia.
  - rewrite take_nil in H. by rewrite H.
Qed.

(** ** Single edits *)
(** An insertion, a deletion, a substitution or a swap of two neighbours. *)
Inductive OneEdit : list N → list N → Prop :=
| edit_none l : OneEdit l l
| edit_insert p c q : OneEdit (p ++ q) (p ++ c :: q)
| edit_delete p c q : OneEdit (p ++ c :: q) (p ++ q)
| edit_substitute p a b q : OneEdit (p ++ a :: q) (p ++ b :: q)
| edit_transpose p a b q : OneEdit (p ++ a :: b :: q) (p ++ b :: a :: q).

(** The positions where two lists of the same length differ. *)
Fixpoint mismatches (index : N) (l r : list N) : list (N * N * N) :=
  match l, r with
  | a :: l, b :: r => if a =? b then mismatches (index + 1) l r else (index, a, b) :: mismatches (index + 1) l r
  | _, _ => []
  end.
Lemma differences_loop_spec index l r ds : length l = length r → lenN ds <= 2 →
  differences_loop index (zip l r) ds = if lenN (ds ++ mismatches index l r) <=? 2 then Some (ds ++ mismatches index l r) else None.
Proof.
  revert index r ds. induction l as [|a l IH]; intros index [|b r] ds Hl Hd; try done; cbn [zip zip_with differences_loop mismatches].
  - rewrite app_nil_r. by decide_ltb.
  - injection Hl as Hl. destruct (N.eqb_spec a b); [by apply IH|]. destruct (N.eqb_spec (lenN ds) 2) as [E|E].
    + rewrite lenN_app, lenN_cons. decide_ltb. done.
    + fold (zip l r). rewrite IH; [by rewrite <- app_assoc|done|]. rewrite lenN_app, lenN_cons, lenN_nil. lia.
Qed.
Lemma mismatches_nil i l r : length l = length r → mismatches i l r = [] ↔ l = r.
Proof.
  revert i r. induction l as [|a l IH]; intros i [|b r] Hl; try done. injection Hl as Hl. cbn [mismatches].
  destruct (N.eqb_spec a b); [subst; rewrite IH by done; split; congruence | split; [done|congruence]].
Qed.
Lemma mismatches_app i p l r : mismatches i (p ++ l) (p ++ r) = mismatches (i + lenN p) l r.
Proof.
  revert i. induction p as [|c p IH]; intros i; [by rewrite N.add_0_r|]. cbn [app mismatches]. rewrite N.eqb_refl, IH, lenN_cons. f_equal. lia.
Qed.
Lemma mismatches_refl i l : mismatches i l l = [].
Proof. by apply mismatches_nil. Qed.
(** The first difference splits both lists. *)
Lemma mismatches_cons i l r d ds : length l = length r → mismatches i l r = d :: ds →
  ∃ p a b l' r', l = p ++ a :: l' ∧ r = p ++ b :: r' ∧ d = (i + lenN p, a, b) ∧ a ≠ b ∧ length l' = length r'
    ∧ ds = mismatches (i + lenN p + 1) l' r'.
Proof.
  revert i r. induction l as [|x l IH]; intros i [|y r] Hl H; try done. injection Hl as Hl. cbn [mismatches] in H.
  destruct (N.eqb_spec x y) as [->|Hne].
  - destruct (IH _ _ Hl H) as (p & a & b & l' & r' & -> & -> & -> & Hab & Hl' & ->).
    exists (y :: p), a, b, l', r'. rewrite lenN_cons. split; [done|]. split; [done|].
    split; [do 2 f_equal; lia|]. split; [done|]. split; [done|]. f_equal. lia.
  - injection H as <- <-. exists [], x, y, l, r. rewrite lenN_nil, N.add_0_r. done.
Qed.
(** The decision taken on the differences. *)
Lemma same_length_edits l r : length l = length r → l ≠ r →
  match differences_loop 0 (zip l r) [] with
  | None => false
  | Some [_] => true
  | Some [(i0, l0, r0); (i1, l1, r1)] => (i1 =? i0 + 1) && (l0 =? r1) && (l1 =? r0)
  | Some _ => false
  end = true ↔ OneEdit l r.
Proof.
  intros Hl Hne. rewrite differences_loop_spec by done. cbn [app].
  destruct (mismatches 0 l r) as [|d ds] eqn:E; [by apply mismatches_nil in E|].
  destruct (mismatches_cons _ _ _ _ _ Hl E) as (p & a & b & l' & r' & -> & -> & -> & Hab & Hl' & ->). clear E.
  destruct (mismatches (0 + lenN p + 1) l' r') as [|d2 ds] eqn:E.
  { apply mismatches_nil in E as ->; [|done]. cbn [lenN length]. split; [intros _; apply edit_substitute | done]. }
  destruct (mismatches_cons _ _ _ _ _ Hl' E) as (p2 & a2 & b2 & l2 & r2 & -> & -> & -> & Hab2 & Hl2 & ->).
  set (rest := mismatches _ l2 r2). split.
  - destruct rest as [|d3 rest'] eqn:Er; [|rewrite !lenN_cons; decide_ltb; done].
    rewrite !lenN_cons, lenN_nil. decide_ltb. rewrite !andb_true_iff, !N.eqb_eq. intros [[Hp ->] ->].
    assert (lenN p2 = 0) as ->%lenN_zero by lia. apply mismatches_nil in Er as ->; [|done]. apply edit_transpose.
  - intros He.
    assert (mismatches 0 (p ++ a :: p2 ++ a2 :: l2) (p ++ b :: p2 ++ b2 :: r2)
      = (0 + lenN p, a, b) :: (0 + lenN p + 1 + lenN p2, a2, b2) :: rest) as Em.
    { rewrite mismatches_app. cbn [mismatches]. rewrite (proj2 (N.eqb_neq a b)) by done. f_equal. exact E. }
    assert (length (p ++ a :: p2 ++ a2 :: l2) = length (p ++ b :: p2 ++ b2 :: r2)) as Hlen by done.
    revert Em Hlen. inversion He as [k Hk1 Hk2|q c k Hk1 Hk2|q c k Hk1 Hk2|q x y k Hk1 Hk2|q x y k Hk1 Hk2]; intros Em Hlen.
    + by rewrite Hk2 in Hne.
    + rewrite !length_app in Hlen. cbn in Hlen. lia.
    + rewrite !length_app in Hlen. cbn in Hlen. lia.
    + rewrite mismatches_app in Em. cbn [mismatches] in Em. rewrite mismatches_refl in Em. destruct (x =? y); done.
    + rewrite mismatches_app in Em. cbn [mismatches] in Em. rewrite mismatches_refl in Em.
      destruct (N.eqb_spec x y), (N.eqb_spec y x); try congruence.
      injection Em as E1 -> -> E2 -> -> <-. rewrite !lenN_cons, lenN_nil. decide_ltb.
      rewrite !N.eqb_refl, (proj2 (N.eqb_eq _ _)) by lia. done.
Qed.

(** The shorter list is the longer one with a character left out. *)
Lemma edits_loop_equal s l : length s = length l → edits_loop s l 1 = true ↔ s = l.
Proof.
  revert l. induction s as [|x s IH]; intros [|y l] Hl; try done. injection Hl as Hl. cbn [edits_loop].
  destruct (N.eqb_spec x y) as [->|Hne]; [rewrite IH by done; split; congruence|].
  decide_ltb. split; [done|congruence].
Qed.
Lemma edits_loop_insert s l : length l = Datatypes.S (length s) → edits_loop s l 0 = true ↔ ∃ p c q, s = p ++ q ∧ l = p ++ c :: q.
Proof.
  revert l. induction s as [|x s IH]; intros [|y l] Hl; try done; injection Hl as Hl.
  - destruct l; [|done]. split; [intros _; by exists [], y, [] | done].
  - cbn [edits_loop]. destruct (N.eqb_spec x y) as [->|Hne].
    + rewrite IH by done. split.
      * intros (p & c & q & -> & ->). by exists (y :: p), c, q.
      * intros ([|z p] & c & q & E1 & E2); cbn [app] in E1, E2.
        -- subst q. injection E2 as <- ->. by exists [], y, s.
        -- injection E1 as -> ->. injection E2 as ->. by exists p, c, q.
    + decide_ltb. change (0 + 1) with 1. rewrite edits_loop_equal by done. split.
      * intros <-. by exists [], y, (x :: s).
      * intros ([|z p] & c & q & E1 & E2); cbn in E1, E2; simplify_eq/=; done.
Qed.
Lemma OneEdit_sym l r : OneEdit l r → OneEdit r l.
Proof. intros []; constructor. Qed.
Lemma OneEdit_lengths l r : OneEdit l r → length l = length r ∨ length l = Datatypes.S (length r) ∨ length r = Datatypes.S (length l).
Proof. intros []; rewrite ?length_app; cbn [length]; lia. Qed.
Lemma OneEdit_longer s l : length l = Datatypes.S (length s) → OneEdit s l ↔ ∃ p c q, s = p ++ q ∧ l = p ++ c :: q.
Proof.
  intros Hl. split; [|intros (p & c & q & -> & ->); constructor].
  intros He. revert Hl. inversion He; rewrite ?length_app; cbn [length]; intros; [lia|by eexists _, _, _|lia|lia|lia].
Qed.
Lemma edits_loop_longer s l : length l = Datatypes.S (length s) → edits_loop s l 0 = true ↔ OneEdit s l.
Proof. intros Hl. by rewrite edits_loop_insert, OneEdit_longer. Qed.

(** [within_one_edit] accepts exactly the pairs of terms that a single edit, or
    none, turns into each other. *)
Theorem within_one_edit_iff (left_ right_ : bytes) : utf8_valid left_ = true → utf8_valid right_ = true →
  within_one_edit left_ right_ = true ↔ OneEdit (chars left_) (chars right_).
Proof.
  intros Hl Hr. unfold within_one_edit. cbv zeta. unfold lenN, abs_diff.
  destruct (bool_decide_reflect (left_ = right_)) as [->|Hne].
  { rewrite N.ltb_irrefl, N.sub_diag. split; [intros _; constructor|done]. }
  assert (chars left_ ≠ chars right_) as Hc by (intros E; by apply Hne, chars_inj).
  pose proof (OneEdit_lengths (chars left_) (chars right_)) as Hlen.
  destruct (N.ltb_spec (N.of_nat (length (chars left_))) (N.of_nat (length (chars right_)))) as [Hlt|Hge].
  - destruct (N.ltb_spec 1 (N.of_nat (length (chars right_)) - N.of_nat (length (chars left_)))).
    { split; [done|]. intros He. specialize (Hlen He). lia. }
    rewrite (proj2 (N.eqb_neq _ _)) by lia. apply edits_loop_longer. lia.
  - destruct (N.ltb_spec 1 (N.of_nat (length (chars left_)) - N.of_nat (length (chars right_)))).
    { split; [done|]. intros He. specialize (Hlen He). lia. }
    destruct (N.eqb_spec (N.of_nat (length (chars left_))) (N.of_nat (length (chars right_)))) as [E|E].
    + apply same_length_edits; [lia|done].
    + rewrite edits_loop_longer by lia. split; apply OneEdit_sym.
Qed.

(** ** Prefix ranges *)
Lemma prefix_end_snoc p b : prefix_end (p ++ [b]) = if Byte.to_N b =? 255 then prefix_end p else Some (p ++ [byte_of_N (Byte.to_N b + 1)]).
Proof.
  unfold prefix_end. rewrite rev_app_distr. cbn [rev app prefix_end_loop]. change U8_MAX with 255.
  destruct (Byte.to_N b =? 255); [done|]. cbn [negb]. by rewrite rev_involutive.
Qed.
(** Strings from [p] on that stay below its successor extend [p]. *)
Lemma bytes_le_app p a b : bytes_le (p ++ a) (p ++ b) ↔ bytes_le a b.
Proof.
  induction p as [|x p IH]; [done|]. cbn [app]. rewrite bytes_le_cons, IH. split; [intros [?|[_ ?]]; [lia|done] | auto].
Qed.
Lemma bytes_le_head p s : bytes_le p s → p `prefix_of` s ∨ ∃ q a b p' s', p = q ++ a :: p' ∧ s = q ++ b :: s' ∧ Byte.to_N a < Byte.to_N b.
Proof.
  revert s. induction p as [|x p IH]; intros [|y s] H; [left; apply prefix_nil..|done|].
  apply bytes_le_cons in H as [H|[-> H]].
  - right. by exists [], x, y, p, s.
  - destruct (IH s H) as [Hp|(q & a & b & p' & s' & -> & -> & Hab)]; [left; by apply prefix_cons|].
    right. by exists (y :: q), a, b, p', s'.
Qed.
Lemma bytes_lt_iff a b : bytes_lt a b ↔ ¬ bytes_le b a.
Proof.
  unfold bytes_lt. split.
  - intros [H Hne] H'. apply Hne. by apply (anti_symm bytes_le).
  - intros H. destruct (total bytes_le a b) as [|]; [|done]. split; [done|]. by intros ->.
Qed.
Lemma prefix_bytes_le p s : p `prefix_of` s → bytes_le p s.
Proof. intros [k ->]. rewrite <- (app_nil_r p) at 1. by apply bytes_le_app. Qed.
(** Dropping a last byte 255 does not change the strings at or after [p] that
    stay below the successor of the rest. *)
Lemma prefix_range_255 p b s : Byte.to_N b = 255 → bytes_le (p ++ [b]) s → p `prefix_of` s → p ++ [b] `prefix_of` s.
Proof.
  intros Hb Hle [k ->]. apply bytes_le_app in Hle. destruct k as [|c k]; [done|]. apply prefix_app.
  apply bytes_le_cons in Hle as [Hlt|[-> _]]; [pose proof (to_N_lt c); lia|]. apply prefix_cons, prefix_nil.
Qed.
(** [prefix_end] closes the range of the strings with the given prefix: they are
    the strings from the prefix on, up to and excluding its end when it has one. *)
Theorem prefix_end_range (prefix s : bytes) :
  prefix `prefix_of` s ↔ bytes_le prefix s ∧ match prefix_end prefix with None => True | Some end_ => bytes_lt s end_ end.
Proof.
  revert s. induction prefix as [|b p IH] using rev_ind; intros s.
  { split; [intros _; by destruct s | intros _; apply prefix_nil]. }
  rewrite prefix_end_snoc. destruct (N.eqb_spec (Byte.to_N b) 255) as [Hb|Hb].
  - split.
    + intros Hp. split; [by apply prefix_bytes_le|]. apply IH. etrans; [|exact Hp]. by eexists.
    + intros [Hle He]. apply prefix_range_255; [done..|]. apply IH. split; [|done].
      etrans; [|exact Hle]. apply prefix_bytes_le. by eexists.
  - pose proof (to_N_lt b). rewrite bytes_lt_iff. split.
    + intros Hp. split; [by apply prefix_bytes_le|]. destruct Hp as [k ->]. rewrite <- app_assoc, bytes_le_app. cbn [app].
      rewrite bytes_le_cons, to_N_byte_of_N, N.mod_small by lia. intros [?|[E _]]; [lia|].
      apply (f_equal Byte.to_N) in E. rewrite to_N_byte_of_N, N.mod_small in E by lia. lia.
    + intros [Hle Hlt]. destruct (bytes_le_head _ _ Hle) as [|(q & x & y & p' & s' & E & -> & Hxy)]; [done|]. exfalso. apply Hlt. clear Hlt.
      destruct (decide (p' = [])) as [->|Hp'].
      * apply app_inj_tail in E as [-> <-]. apply bytes_le_app, bytes_le_cons. rewrite to_N_byte_of_N, N.mod_small by lia.
        destruct (N.lt_ge_cases (Byte.to_N b + 1) (Byte.to_N y)); [auto|]. right.
        split; [by rewrite <- (byte_of_to_N y); f_equal; lia|by destruct s'].
      * destruct (exists_last Hp') as (p'' & c & ->). rewrite app_comm_cons, app_assoc in E. apply app_inj_tail in E as [-> <-].
        rewrite <- app_assoc. apply bytes_le_app. cbn [app]. apply bytes_le_cons. auto.
Qed.

(** ** Concrete values *)
Definition sample_source : bytes := utf8_encode [104; 233; 128512; 108].
Lemma source_span_utf16_witness : lenN sample_source = 8 ∧ ∃ offsets,
  utf16_offsets sample_source = Ok offsets ∧ source_span offsets 3 7 = Some (TraceSpan.mk 2 4).
Proof.
  split; [vm_compute; reflexivity|].
  pose proof (source_span_utf16 (utf8_encode [104; 233]) (utf8_encode [128512]) (utf8_encode [108])
    ltac:(vm_compute; reflexivity) ltac:(vm_compute; reflexivity) ltac:(vm_compute; reflexivity) ltac:(vm_compute; discriminate)) as H.
  exact H.
Defined.
Lemma within_one_edit_iff_witness : OneEdit (chars (blit "form")) (chars (blit "from")).
Proof.
  apply (within_one_edit_iff (blit "form") (blit "from")); vm_compute; reflexivity.
Defined.
