(* ===== verification/Analysis.v ===== *)
(** * src/src/engine.rs: the token streams of an analyzer

    The tokenizer over normalised characters, the possessive filter and the
    synonym filter, each a state machine pulled with [advance], after Tantivy's
    [TokenStream] trait.  A stream [Produces] the list of tokens its advances
    show.  The Unicode class [char::is_alphanumeric] and Tantivy's
    [Token::reset] are parameters. *)
From S2P Require Import Prelude.
From S2P Require Import Errors.
From S2P Require Import Bytes.
From S2P Require Import Text.
Local Open Scope N_scope.

(** Tantivy's token. *)
Module Token.
Record t := mk { offset_from : N; offset_to : N; position : N; text : bytes; position_length : N }.
Definition with_text (token : t) (text : bytes) : t :=
  mk token.(offset_from) token.(offset_to) token.(position) text token.(position_length).
Definition with_position (token : t) (position : N) : t :=
  mk token.(offset_from) token.(offset_to) position token.(text) token.(position_length).
Definition with_offsets (token : t) (from to : N) : t :=
  mk from to token.(position) token.(text) token.(position_length).
End Token.
(** [usize::wrapping_add(1)] and [usize::wrapping_sub(1)] *)
Definition wrapping_succ (n : N) : N := if n =? USIZE_MAX then 0 else n + 1.
Definition wrapping_pred (n : N) : N := if n =? 0 then USIZE_MAX else n - 1.

(** ** The trait [TokenStream]; [set_token] is an assignment through [token_mut]. *)
Class TokenStream (S : Type) := {
  advance : S → bool * S;
  token : S → Token.t;
  set_token : Token.t → S → S }.
Inductive Produces {S} `{TokenStream S} : S → list Token.t → Prop :=
| Produces_end s s' : advance s = (false, s') → Produces s []
| Produces_token s s' l : advance s = (true, s') → Produces s' l → Produces s (token s' :: l).
Lemma Produces_functional {S} `{TokenStream S} (s : S) l k : Produces s l → Produces s k → l = k.
Proof.
  intros Hl. revert k. induction Hl as [s s' E|s s' l E _ IH]; intros k Hk; inversion Hk as [? s2 E2|? s2 l2 E2 Hk2]; subst;
    rewrite E in E2; simplify_eq; [done|]. f_equal. by apply IH.
Qed.
(** A stream that ends after at most [bound] further tokens. *)
Class Bounded S `{TokenStream S} := {
  bound : S → nat;
  bound_advance s s' : advance s = (true, s') → (bound s' < bound s)%nat;
  bound_set_token s t : bound (set_token t s) = bound s }.

(** ** Characters with their source spans *)
Module SourceSpan.
Record t := mk { start : N; end_ : N }.
Definition merge (self other : t) : t := mk (N.min self.(start) other.(start)) (N.max self.(end_) other.(end_)).
End SourceSpan.
Module MappedCharacter.
Record t := mk { character : N; span : SourceSpan.t }.
End MappedCharacter.
(** [MappedCharacters::Original]: the characters of the text as they stand *)
Definition original_characters (text : bytes) : list MappedCharacter.t :=
  (λ '(start, character), MappedCharacter.mk character (SourceSpan.mk start (start + len_utf8 character))) <$> char_indices text.
Definition MAX_TOKEN_CHARACTERS : N := 40.

(** ** [NfkcTokenStream]: the characters still to come and the current token. *)
Module NfkcTokenStream.
Record t := mk { characters : list MappedCharacter.t; token : Token.t }.
End NfkcTokenStream.
(** [EnglishPossessiveTokenStream] over a tail of type [T]. *)
Module Possessive.
Record t (T : Type) := mk { source : bytes; tail : T }.
Arguments mk {T}.
Arguments source {T}.
Arguments tail {T}.
End Possessive.

Section Tokenizer.
Context (is_alphanumeric : N → bool) (reset : Token.t → Token.t).

(** ** [NfkcTokenStream] *)
Definition push (text : bytes) (c : N) : bytes := text ++ utf8_encode_char c.
(** The inner loop: the rest of a run of alphanumeric characters. *)
Fixpoint run_loop (characters : list MappedCharacter.t) (text : bytes) (source_span : SourceSpan.t) (token_characters : N)
  : list MappedCharacter.t * bytes * SourceSpan.t :=
  match characters with
  | [] => ([], text, source_span)
  | character :: characters =>
      if negb (is_alphanumeric character.(MappedCharacter.character)) then (characters, text, source_span) else
      let source_span := SourceSpan.merge source_span character.(MappedCharacter.span) in
      if token_characters <? MAX_TOKEN_CHARACTERS
      then run_loop characters (push text character.(MappedCharacter.character)) source_span (token_characters + 1)
      else run_loop characters text source_span token_characters
  end.
(** The outer loop: skip to the first alphanumeric character. *)
Fixpoint skip_loop (characters : list MappedCharacter.t) (token : Token.t) : bool * NfkcTokenStream.t :=
  match characters with
  | [] => (false, NfkcTokenStream.mk [] token)
  | character :: characters =>
      if negb (is_alphanumeric character.(MappedCharacter.character)) then skip_loop characters token else
      let '(characters, text, source_span) := run_loop characters (push token.(Token.text) character.(MappedCharacter.character))
        character.(MappedCharacter.span) 1 in
      (true, NfkcTokenStream.mk characters
        (Token.with_offsets (Token.with_text token text) source_span.(SourceSpan.start) source_span.(SourceSpan.end_)))
  end.
Definition nfkc_advance (s : NfkcTokenStream.t) : bool * NfkcTokenStream.t :=
  let token := Token.with_text s.(NfkcTokenStream.token) [] in
  skip_loop s.(NfkcTokenStream.characters) (Token.with_position token (wrapping_succ token.(Token.position))).
#[local] Instance nfkc_stream : TokenStream NfkcTokenStream.t := {
  advance := nfkc_advance;
  token := NfkcTokenStream.token;
  set_token t s := NfkcTokenStream.mk s.(NfkcTokenStream.characters) t }.
(** [Tokenizer::token_stream], on the mapped characters of the text. *)
Definition nfkc_token_stream (token : Token.t) (characters : list MappedCharacter.t) : NfkcTokenStream.t :=
  NfkcTokenStream.mk characters (reset token).

(** ** [EnglishPossessiveTokenStream] *)
Definition strip_suffix (s suffix : bytes) : option bytes :=
  let n := (length s - length suffix)%nat in
  if bool_decide (length suffix <= length s)%nat && bool_decide (drop n s = suffix) then Some (take n s) else None.
(** [str::get(..offset)]: [None] past the end or inside a character *)
Definition get_to (source : bytes) (offset : N) : option bytes :=
  let prefix := take (N.to_nat offset) source in
  if (offset <=? lenN source) && utf8_valid prefix then Some prefix else None.
Definition or_else {A} (a b : option A) : option A := match a with Some _ => a | None => b end.
Definition is_possessive_suffix (source : bytes) (offset : N) : bool :=
  match get_to source offset with
  | None => false
  | Some prefix =>
      let stem := or_else (or_else (strip_suffix prefix (utf8_encode [39])) (strip_suffix prefix (utf8_encode [8217])))
                    (strip_suffix prefix (utf8_encode [65287])) in
      match stem ≫= λ stem, last (chars stem) with Some c => is_alphanumeric c | None => false end
  end.
(** [str::eq_ignore_ascii_case("s")] *)
Definition is_s (text : bytes) : bool := bool_decide (text = blit "s") || bool_decide (text = blit "S").
Definition possessive (source : bytes) (token : Token.t) : bool :=
  is_s token.(Token.text) && is_possessive_suffix source token.(Token.offset_from).

Section Filter.
Context {T} `{Bounded T}.
(** [while self.tail.advance()]; the bound of the tail is the fuel. *)
Fixpoint possessive_loop (fuel : nat) (source : bytes) (tail : T) : bool * T :=
  let '(more, tail) := advance tail in
  if negb more then (false, tail) else
  if possessive source (token tail) then
    let tail := set_token (Token.with_position (token tail) (wrapping_pred (token tail).(Token.position))) tail in
    match fuel with O => (false, tail) | Datatypes.S fuel => possessive_loop fuel source tail end
  else (true, tail).
Definition possessive_advance (s : Possessive.t T) : bool * Possessive.t T :=
  let '(more, tail) := possessive_loop (bound s.(Possessive.tail)) s.(Possessive.source) s.(Possessive.tail) in
  (more, Possessive.mk s.(Possessive.source) tail).
End Filter.
#[local] Instance possessive_stream {T} `{Bounded T} : TokenStream (Possessive.t T) := {
  advance := possessive_advance;
  token s := token s.(Possessive.tail);
  set_token t s := Possessive.mk s.(Possessive.source) (set_token t s.(Possessive.tail)) }.

(** ** What the tokenizer produces *)
(** The text split at the characters that are not alphanumeric. *)
Fixpoint runs (cs : list MappedCharacter.t) : list (list MappedCharacter.t) :=
  match cs with
  | [] => [[]]
  | c :: cs =>
      if is_alphanumeric c.(MappedCharacter.character)
      then match runs cs with r :: rs => (c :: r) :: rs | [] => [[c]] end
      else [] :: runs cs
  end.
Definition words (cs : list MappedCharacter.t) : list (list MappedCharacter.t) := filter (λ w, w ≠ []) (runs cs).
Definition word_text (w : list MappedCharacter.t) : bytes :=
  utf8_encode (take (N.to_nat MAX_TOKEN_CHARACTERS) (MappedCharacter.character <$> w)).
(** The span that covers the characters of a word. *)
Definition word_span (w : list MappedCharacter.t) : SourceSpan.t :=
  match w with
  | [] => SourceSpan.mk 0 0
  | c :: w => foldl SourceSpan.merge c.(MappedCharacter.span) (MappedCharacter.span <$> w)
  end.
Definition word_token (position_length position : N) (w : list MappedCharacter.t) : Token.t :=
  Token.mk (word_span w).(SourceSpan.start) (word_span w).(SourceSpan.end_) position (word_text w) position_length.

Lemma runs_cons cs : ∃ r rs, runs cs = r :: rs.
Proof. induction cs as [|c cs (r & rs & IH)]; [by eexists _, _|]. cbn [runs]. rewrite IH. case_if; by eexists _, _. Qed.
Lemma utf8_encode_cons c cs : utf8_encode (c :: cs) = utf8_encode_char c ++ utf8_encode cs.
Proof. done. Qed.
Lemma run_loop_spec cs : ∀ text span n, n <= MAX_TOKEN_CHARACTERS → ∃ r rs cs', runs cs = r :: rs
  ∧ run_loop cs text span n = (cs', text ++ utf8_encode (take (N.to_nat (MAX_TOKEN_CHARACTERS - n)) (MappedCharacter.character <$> r)),
      foldl SourceSpan.merge span (MappedCharacter.span <$> r))
  ∧ filter (λ w, w ≠ []) rs = words cs' ∧ (length cs' <= length cs)%nat.
Proof.
  induction cs as [|c cs IH]; intros text span n Hn; cbn [runs run_loop].
  { exists [], [], []. cbn [fmap list_fmap foldl]. by rewrite take_nil, app_nil_r. }
  destruct (is_alphanumeric (MappedCharacter.character c)); cbn [negb].
  - destruct (N.ltb_spec n MAX_TOKEN_CHARACTERS) as [Hlt|Hge].
    + destruct (IH (push text c.(MappedCharacter.character)) (SourceSpan.merge span c.(MappedCharacter.span)) (n + 1)) as (r & rs & cs' & -> & -> & Hw & Hl); [lia|].
      exists (c :: r), rs, cs'. split; [done|]. split; [|split; [done|cbn; lia]]. rewrite !fmap_cons.
      replace (N.to_nat (MAX_TOKEN_CHARACTERS - n)) with (Datatypes.S (N.to_nat (MAX_TOKEN_CHARACTERS - (n + 1)))) by lia.
      cbn [take]. by rewrite utf8_encode_cons, app_assoc.
    + destruct (IH text (SourceSpan.merge span c.(MappedCharacter.span)) n) as (r & rs & cs' & -> & -> & Hw & Hl); [lia|].
      exists (c :: r), rs, cs'. split; [done|]. split; [|split; [done|cbn; lia]]. rewrite !fmap_cons.
      by replace (N.to_nat (MAX_TOKEN_CHARACTERS - n)) with 0%nat by lia.
  - exists [], (runs cs), cs. cbn [fmap list_fmap foldl]. rewrite take_nil, app_nil_r. split; [done|]. split; [done|]. split; [done|]. cbn. lia.
Qed.

(** One advance finds the next word, or the end. *)
Lemma skip_loop_spec cs : ∀ t,
  match words cs with
  | [] => skip_loop cs t = (false, NfkcTokenStream.mk [] t)
  | w :: ws => ∃ cs', skip_loop cs t = (true, NfkcTokenStream.mk cs'
        (Token.with_offsets (Token.with_text t (t.(Token.text) ++ word_text w)) (word_span w).(SourceSpan.start) (word_span w).(SourceSpan.end_)))
      ∧ words cs' = ws ∧ (length cs' < length cs)%nat
  end.
Proof.
  induction cs as [|c cs IH]; intros t; [done|]. unfold words. cbn [runs skip_loop].
  destruct (is_alphanumeric (MappedCharacter.character c)) eqn:E; cbn [negb].
  - destruct (run_loop_spec cs (push t.(Token.text) c.(MappedCharacter.character)) c.(MappedCharacter.span) 1) as (r & rs & cs' & -> & -> & Hw & Hl); [done|].
    rewrite filter_cons_True by done. exists cs'. split; [|split; [done|cbn; lia]]. unfold push, word_text. rewrite fmap_cons.
    change (N.to_nat MAX_TOKEN_CHARACTERS) with (Datatypes.S (N.to_nat (MAX_TOKEN_CHARACTERS - 1))). cbn [take].
    by rewrite utf8_encode_cons, app_assoc.
  - rewrite filter_cons_False by (intros H; by apply H). specialize (IH t). unfold words in IH.
    destruct (filter _ (runs cs)); [done|]. destruct IH as (cs' & ? & ? & ?). exists cs'. split; [done|]. split; [done|]. cbn. lia.
Qed.
Lemma nfkc_advance_spec s :
  match words s.(NfkcTokenStream.characters) with
  | [] => ∃ s', nfkc_advance s = (false, s')
  | w :: ws => ∃ cs', nfkc_advance s = (true, NfkcTokenStream.mk cs'
        (word_token s.(NfkcTokenStream.token).(Token.position_length) (wrapping_succ s.(NfkcTokenStream.token).(Token.position)) w))
      ∧ words cs' = ws ∧ (length cs' < length s.(NfkcTokenStream.characters))%nat
  end.
Proof.
  unfold nfkc_advance. pose proof (skip_loop_spec s.(NfkcTokenStream.characters) (Token.with_position (Token.with_text s.(NfkcTokenStream.token) [])
    (wrapping_succ (Token.with_text s.(NfkcTokenStream.token) []).(Token.position)))) as H.
  destruct (words _); [by eexists|]. destruct H as (cs' & -> & Hw & Hl). by exists cs'.
Qed.
Lemma nfkc_advance_bound s s' : nfkc_advance s = (true, s') →
  (length s'.(NfkcTokenStream.characters) < length s.(NfkcTokenStream.characters))%nat.
Proof.
  intros E. pose proof (nfkc_advance_spec s) as H. destruct (words _).
  - destruct H as [? H]. congruence.
  - destruct H as (cs' & H & _ & Hl). rewrite E in H. by simplify_eq.
Qed.
#[local] Instance nfkc_bounded : Bounded NfkcTokenStream.t := {
  bound s := length s.(NfkcTokenStream.characters);
  bound_advance := nfkc_advance_bound;
  bound_set_token s t := eq_refl }.

(** ** Dropping possessives *)
Definition possessive_word (source : bytes) (w : list MappedCharacter.t) : bool :=
  is_s (word_text w) && is_possessive_suffix source (word_span w).(SourceSpan.start).
Fixpoint numbered (position_length position : N) (ws : list (list MappedCharacter.t)) : list Token.t :=
  match ws with [] => [] | w :: ws => word_token position_length position w :: numbered position_length (position + 1) ws end.
Lemma wrapping_succ_pred n : n <= USIZE_MAX → wrapping_succ (wrapping_pred n) = n.
Proof.
  intros H. unfold wrapping_succ, wrapping_pred. destruct (N.eqb_spec n 0) as [->|]; [done|].
  destruct (N.eqb_spec (n - 1) USIZE_MAX); lia.
Qed.
(** The loop passes over possessives and stops at the next word that stays. *)
Lemma possessive_loop_spec source pl fuel : ∀ s, (length s.(NfkcTokenStream.characters) <= fuel)%nat →
  s.(NfkcTokenStream.token).(Token.position_length) = pl → wrapping_succ s.(NfkcTokenStream.token).(Token.position) <= USIZE_MAX →
  match filter (λ w, possessive_word source w = false) (words s.(NfkcTokenStream.characters)) with
  | [] => ∃ s', possessive_loop fuel source s = (false, s')
  | w :: ws => ∃ s', possessive_loop fuel source s = (true, s')
      ∧ s'.(NfkcTokenStream.token) = word_token pl (wrapping_succ s.(NfkcTokenStream.token).(Token.position)) w
      ∧ filter (λ w, possessive_word source w = false) (words s'.(NfkcTokenStream.characters)) = ws
  end.
Proof.
  induction fuel as [|fuel IH]; intros s Hb Hpl Hpos; cbn [possessive_loop advance nfkc_stream];
    pose proof (nfkc_advance_spec s) as Ha; destruct (words (NfkcTokenStream.characters s)) as [|w ws].
  - destruct Ha as [s' ->]. by eexists.
  - destruct Ha as (cs' & _ & _ & ?). lia.
  - destruct Ha as [s' ->]. by eexists.
  - destruct Ha as (cs' & -> & Hw & Hl). cbn [negb]. cbn [token nfkc_stream NfkcTokenStream.token].
    assert (possessive source (word_token pl (wrapping_succ s.(NfkcTokenStream.token).(Token.position)) w) = possessive_word source w) as Hp by done.
    rewrite Hpl, Hp. destruct (possessive_word source w) eqn:E.
    + rewrite filter_cons_False by congruence.
      specialize (IH (set_token (Token.with_position (word_token pl (wrapping_succ s.(NfkcTokenStream.token).(Token.position)) w)
        (wrapping_pred (wrapping_succ s.(NfkcTokenStream.token).(Token.position)))) (NfkcTokenStream.mk cs' (word_token pl (wrapping_succ s.(NfkcTokenStream.token).(Token.position)) w)))).
      cbn [set_token nfkc_stream NfkcTokenStream.characters NfkcTokenStream.token Token.with_position Token.position Token.position_length word_token] in IH.
      rewrite wrapping_succ_pred in IH by done. rewrite <- Hw. apply IH; [lia|done|done].
    + rewrite filter_cons_True by done. eexists. split; [done|]. split; [done|]. cbn [NfkcTokenStream.characters]. by rewrite Hw.
Qed.
Lemma possessive_produces source pl ws : ∀ s position,
  filter (λ w, possessive_word source w = false) (words s.(NfkcTokenStream.characters)) = ws →
  s.(NfkcTokenStream.token).(Token.position_length) = pl → wrapping_succ s.(NfkcTokenStream.token).(Token.position) = position →
  position + lenN ws <= USIZE_MAX → Produces (Possessive.mk source s) (numbered pl position ws).
Proof.
  induction ws as [|w ws IH]; intros s position Hw Hpl Hpos Hb;
    pose proof (possessive_loop_spec source pl (bound s) s (le_n _) Hpl ltac:(rewrite Hpos; lia)) as H; rewrite Hw in H.
  - destruct H as [s' H]. apply (Produces_end _ (Possessive.mk source s')). cbn [advance possessive_stream]. unfold possessive_advance.
    cbn [Possessive.tail Possessive.source]. by rewrite H.
  - destruct H as (s' & H & Ht & Hws). rewrite lenN_cons in Hb. cbn [numbered]. rewrite Hpos in Ht. rewrite <- Ht.
    change (NfkcTokenStream.token s') with (token (Possessive.mk source s')). apply Produces_token.
    + cbn [advance possessive_stream]. unfold possessive_advance. cbn [Possessive.tail Possessive.source]. by rewrite H.
    + apply IH; [done|by rewrite Ht| |lia]. rewrite Ht. cbn [word_token Token.position]. unfold wrapping_succ.
      destruct (N.eqb_spec position USIZE_MAX); [lia|done].
Qed.
(** C37: The stream below Tantivy's filters yields the words of the text, cut at
    [MAX_TOKEN_CHARACTERS], without the possessive suffixes, and numbers what is
    left from 0 without gaps. *)
Theorem english_tokens source characters (initial : Token.t) :
  (∀ t, (reset t).(Token.position) = USIZE_MAX) → lenN (words characters) <= USIZE_MAX →
  Produces (Possessive.mk source (nfkc_token_stream initial characters))
    (numbered (reset initial).(Token.position_length) 0 (filter (λ w, possessive_word source w = false) (words characters))).
Proof.
  intros Hr Hb. apply possessive_produces; [done|done| |].
  - cbn [nfkc_token_stream NfkcTokenStream.token]. by rewrite Hr.
  - assert (lenN (filter (λ w, possessive_word source w = false) (words characters)) <= lenN (words characters)); [|lia].
    unfold lenN. pose proof (length_filter (λ w, possessive_word source w = false) (words characters)). lia.
Qed.
End Tokenizer.

(** ** [SynonymTokenStream] *)
Definition SynonymMap := gmap bytes (list bytes).
(** [pending] is a stack: its last element is the current token. *)
Module Synonym.
Record t (T : Type) := mk { tail : T; rules : SynonymMap; pending : list Token.t }.
Arguments mk {T}.
Arguments tail {T}.
Arguments rules {T}.
Arguments pending {T}.
End Synonym.
(** [Vec::pop] *)
Definition pop {A} (l : list A) : list A := take (length l - 1) l.
Section SynonymFilter.
Context {T} `{TokenStream T}.
Definition synonym_advance (s : Synonym.t T) : bool * Synonym.t T :=
  let '(Synonym.mk tail rules pending) := s in
  let pending := pop pending in
  if negb (bool_decide (pending = [])) then (true, Synonym.mk tail rules pending) else
  let '(more, tail) := advance tail in
  if negb more then (false, Synonym.mk tail rules pending) else
  let pending := match rules !! (token tail).(Token.text) with
    | Some replacements =>
        foldl (λ pending replacement, pending ++ [Token.with_text (token tail) replacement]) pending (rev replacements)
        ++ [token tail]
    | None => pending
    end in
  (true, Synonym.mk tail rules pending).
#[export] Instance synonym_stream : TokenStream (Synonym.t T) := {
  advance := synonym_advance;
  token s := match last s.(Synonym.pending) with Some t => t | None => token s.(Synonym.tail) end;
  set_token t s :=
    match s.(Synonym.pending) with
    | [] => Synonym.mk (set_token t s.(Synonym.tail)) s.(Synonym.rules) []
    | pending => Synonym.mk s.(Synonym.tail) s.(Synonym.rules) (pop pending ++ [t])
    end }.
(** [SynonymFilterWrapper::token_stream] *)
Definition synonym_token_stream (rules : SynonymMap) (tail : T) : Synonym.t T := Synonym.mk tail rules [].

(** Every token is followed by its replacements, at its own place. *)
Definition expand (rules : SynonymMap) (t : Token.t) : list Token.t :=
  t :: (Token.with_text t <$> default [] (rules !! t.(Token.text))).

Lemma foldl_snoc {A B} (f : A → B) (acc : list B) l : foldl (λ acc a, acc ++ [f a]) acc l = acc ++ (f <$> l).
Proof. revert acc. induction l as [|a l IH]; intros acc; cbn [foldl]; [by rewrite app_nil_r|]. by rewrite IH, <- app_assoc, fmap_cons. Qed.
Lemma pop_snoc {A} (l : list A) a : pop (l ++ [a]) = l.
Proof. unfold pop. rewrite length_app. cbn [length]. rewrite Nat.add_sub. by rewrite take_app_length. Qed.
(** The stack shows its elements from the top. *)
Lemma synonym_pending tail rules l tokens : ∀ stack,
  Produces (Synonym.mk tail rules []) tokens → stack = rev l →
  ∀ t, Produces (Synonym.mk tail rules (stack ++ [t])) (l ++ tokens).
Proof.
  induction l as [|a l IH]; intros stack Ht -> t.
  - cbn [rev app] in *. inversion Ht as [? s' E|? s' k E Hk]; subst.
    + apply (Produces_end _ s'). exact E.
    + apply Produces_token; [exact E|done].
  - cbn [rev]. change ((a :: l) ++ tokens) with (a :: (l ++ tokens)).
    replace a with (token (Synonym.mk tail rules (rev l ++ [a]))) at 2 by (cbn; by rewrite last_snoc).
    apply Produces_token; [|by apply IH]. cbn [advance synonym_stream synonym_advance]. rewrite pop_snoc.
    rewrite bool_decide_eq_false_2; [done|]. by destruct (rev l).
Qed.
(** The synonym filter shows every token of its tail, followed by the
    replacements of its text, at the same offsets and position. *)
Theorem synonym_expansion (tail : T) rules l : Produces tail l → Produces (synonym_token_stream rules tail) (l ≫= expand rules).
Proof.
  induction 1 as [s s' E|s s' l E _ IH]; unfold synonym_token_stream in *.
  - apply (Produces_end _ (Synonym.mk s' rules [])). cbn. by rewrite E.
  - change ((token s' :: l) ≫= expand rules) with (expand rules (token s') ++ (l ≫= expand rules)). unfold expand at 1.
    set (r := default [] (rules !! Token.text (token s'))).
    change ((token s' :: ?x) ++ ?y) with (token s' :: (x ++ y)).
    assert (∀ k, k = match rules !! Token.text (token s') with Some _ => rev (Token.with_text (token s') <$> r) ++ [token s'] | None => [] end →
      advance (Synonym.mk s rules []) = (true, Synonym.mk s' rules k)) as Ha.
    { intros k ->. cbn [advance synonym_stream synonym_advance]. cbn. rewrite E. cbn [negb]. f_equal. f_equal. unfold r.
      destruct (rules !! _) as [rs|]; [|done]. cbn [default from_option]. rewrite foldl_snoc. cbn [app]. by rewrite <- map_rev. }
    destruct (rules !! Token.text (token s')) as [rs|] eqn:Er.
    + specialize (Ha _ eq_refl). replace (token s') with (token (Synonym.mk s' rules (rev (Token.with_text (token s') <$> r) ++ [token s']))) at 1
        by (cbn; by rewrite last_snoc).
      eapply Produces_token; [exact Ha|]. by apply synonym_pending.
    + specialize (Ha _ eq_refl). apply (Produces_token _ _ _ Ha). exact IH.
Qed.
End SynonymFilter.

(** ** A concrete stream: ASCII text *)
Definition ascii_alphanumeric (c : N) : bool :=
  (48 <=? c) && (c <=? 57) || (65 <=? c) && (c <=? 90) || (97 <=? c) && (c <=? 122).
Definition sample_reset (t : Token.t) : Token.t := Token.mk 0 0 USIZE_MAX [] 1.
Definition sample_token : Token.t := Token.mk 0 0 0 [] 1.
#[export] Instance sample_nfkc : TokenStream NfkcTokenStream.t := nfkc_stream ascii_alphanumeric.
#[export] Instance sample_bounded : Bounded NfkcTokenStream.t := nfkc_bounded ascii_alphanumeric.
#[export] Instance sample_possessive : TokenStream (Possessive.t NfkcTokenStream.t) := possessive_stream ascii_alphanumeric.
Definition sample_stream (text : bytes) : Possessive.t NfkcTokenStream.t :=
  Possessive.mk text (nfkc_token_stream sample_reset sample_token (original_characters text)).
Lemma english_tokens_witness : Produces (sample_stream (blit "The dog's bark"))
  [Token.mk 0 3 0 (blit "The") 1; Token.mk 4 7 1 (blit "dog") 1; Token.mk 10 14 2 (blit "bark") 1].
Proof.
  pose proof (english_tokens ascii_alphanumeric sample_reset (blit "The dog's bark") (original_characters (blit "The dog's bark")) sample_token
    ltac:(reflexivity) ltac:(vm_compute; discriminate)) as H.
  match type of H with Produces _ ?l => assert (l = [Token.mk 0 3 0 (blit "The") 1; Token.mk 4 7 1 (blit "dog") 1; Token.mk 10 14 2 (blit "bark") 1]) as E
    by (vm_compute; reflexivity) end.
  rewrite E in H. exact H.
Defined.
Definition sample_rules : SynonymMap := {[ blit "dog" := [blit "hound"] ]}.
Lemma synonym_expansion_witness : Produces (synonym_token_stream sample_rules (sample_stream (blit "dog")))
  [Token.mk 0 3 0 (blit "dog") 1; Token.mk 0 3 0 (blit "hound") 1].
Proof.
  assert (Produces (sample_stream (blit "dog")) [Token.mk 0 3 0 (blit "dog") 1]) as H.
  { set (stop := Possessive.mk (blit "dog") (NfkcTokenStream.mk [] (Token.mk 0 3 0 (blit "dog") 1))).
    change [Token.mk 0 3 0 (blit "dog") 1] with [token stop]. apply Produces_token; [vm_compute; reflexivity|].
    eapply Produces_end. vm_compute. reflexivity. }
  pose proof (synonym_expansion (sample_stream (blit "dog")) sample_rules _ H) as Hs.
  match type of Hs with Produces _ ?l => assert (l = [Token.mk 0 3 0 (blit "dog") 1; Token.mk 0 3 0 (blit "hound") 1]) as E
    by (vm_compute; reflexivity) end.
  rewrite E in Hs. exact Hs.
Defined.
