(* ===== verification/Canonical.v ===== *)
(** * src/src/engine.rs: canonical synonyms

    [canonical_identity] replaces the synonym rules of a configuration by what
    the analyzers make of them, sorted.  The theorems characterise what it
    accepts, and show that the order in which rules and replacements are
    declared is irrelevant. *)
From stdpp Require Import sorting.
From S2P Require Import Prelude.
From S2P Require Import Errors.
From S2P Require Import Bytes.
From S2P Require Import Request.
From S2P Require Import Text.
From S2P Require Import Analysis.
Local Open Scope N_scope.

(** [Vec::<String>::sort] *)
Definition sort (l : list bytes) : list bytes := merge_sort bytes_le l.
Module CanonicalIdentity.
Record t (S : Type) := mk {
  config : EngineIdentityConfig.t; analyzer : bytes → S; analyzed_synonyms : SynonymMap; surface_synonyms : SynonymMap }.
Arguments mk {S}.
Arguments config {S}.
Arguments analyzer {S}.
Arguments analyzed_synonyms {S}.
Arguments surface_synonyms {S}.
End CanonicalIdentity.
(** The local variables of the loop over the rules. *)
Module Canonical.
Record t := mk {
  analyzed_sources : gset bytes; surface_sources : gset bytes; rules : list SynonymRule.t;
  analyzed_lookup : SynonymMap; surface_lookup : SynonymMap }.
Definition empty : t := mk ∅ ∅ [] ∅ ∅.
End Canonical.
(** What the two analyzers make of a rule, replacements in declaration order. *)
Module Terms.
Record t := mk { analyzed_source : bytes; surface_source : bytes; analyzed : list bytes; surface : list bytes }.
End Terms.

(** ** Sorting *)
(** On a sorted list nothing is lost exactly when nothing occurs twice. *)
Lemma dedup_sorted l : StronglySorted bytes_le l → length (dedup l) = length l ↔ NoDup l.
Proof.
  induction 1 as [|x l Hs IH Hx]; [by split; constructor|]. destruct l as [|y l]; [split; [intros _; apply NoDup_singleton|done]|].
  cbn [dedup] in *. pose proof (dedup_length_le (y :: l)) as Hle. cbn [dedup] in Hle. rewrite NoDup_cons. case_decide as E.
  - subst y. split; [cbn [length] in *; lia|]. intros [Hn _]. exfalso. apply Hn. by left.
  - cbn [length]. rewrite Nat.succ_inj_wd. cbn [length] in IH. rewrite IH. split; [|tauto]. intros Hnd. split; [|done].
    intros [?|Hin]%elem_of_cons; [done|]. apply E. apply (anti_symm bytes_le); [by apply (Forall_inv Hx)|].
    apply StronglySorted_inv in Hs as [_ Hs]. rewrite Forall_forall in Hs. by apply Hs.
Qed.
Lemma sort_sorted l : StronglySorted bytes_le (sort l).
Proof. apply StronglySorted_merge_sort; apply _. Qed.
Lemma sort_perm l : sort l ≡ₚ l.
Proof. apply merge_sort_Permutation. Qed.
Lemma sort_unique l k : l ≡ₚ k → sort l = sort k.
Proof.
  intros E. apply (StronglySorted_unique bytes_le); [apply sort_sorted..|]. by rewrite !sort_perm.
Qed.
Lemma dedup_sort_length l n : length l = n → (lenN (dedup (sort l)) =? N.of_nat n) = bool_decide (NoDup l).
Proof.
  intros <-. unfold lenN. rewrite <- (Permutation_length (sort_perm l)). apply eq_true_iff_eq.
  rewrite N.eqb_eq, Nat2N.inj_iff, dedup_sorted, bool_decide_eq_true by apply sort_sorted. by rewrite sort_perm.
Qed.

Section Identity.
(** [build_analyzer(stop_words, None)] and [build_surface_analyzer(None)] *)
Context {S} `{TokenStream S} (build_analyzer : bool → outcome (bytes → S)) (normalizer : bytes → S).

Definition canonical_synonym_term (token_stream : bytes → S) (text : bytes) (label : string) : outcome bytes :=
  let '(more, stream) := advance (token_stream text) in
  if negb more then Err (invalid ("synonym " +:+ label +:+ " must produce exactly one analyzed term")) else
  let term := (token stream).(Token.text) in
  let '(more, _) := advance stream in
  if more then Err (invalid ("synonym " +:+ label +:+ " must produce exactly one analyzed term")) else
  Ok term.

Definition canonical_replacement (analyzer : bytes → S) (analyzed_source surface_source : bytes)
  (replacements : list bytes * list bytes) (replacement : bytes) : outcome (list bytes * list bytes) :=
  analyzed_replacement ← canonical_synonym_term analyzer replacement "replacement";
  surface_replacement ← canonical_synonym_term normalizer replacement "replacement";
  if bool_decide (analyzed_replacement = analyzed_source) || bool_decide (surface_replacement = surface_source)
  then Err (invalid "a synonym replacement must differ from its source after analysis")
  else Ok (replacements.1 ++ [analyzed_replacement], replacements.2 ++ [surface_replacement]).

Definition canonical_rule (analyzer : bytes → S) (s : Canonical.t) (rule : SynonymRule.t) : outcome Canonical.t :=
  analyzed_source ← canonical_synonym_term analyzer rule.(SynonymRule.source) "source";
  surface_source ← canonical_synonym_term normalizer rule.(SynonymRule.source) "source";
  if bool_decide (analyzed_source ∈ s.(Canonical.analyzed_sources)) || bool_decide (surface_source ∈ s.(Canonical.surface_sources))
  then Err (invalid ("synonym source " +:+ show_str surface_source +:+ " is declared more than once after analysis")) else
  '(analyzed_replacements, surface_replacements) ←
    foldO (canonical_replacement analyzer analyzed_source surface_source) ([], []) rule.(SynonymRule.replacements);
  let analyzed_replacements := dedup (sort analyzed_replacements) in
  let surface_replacements := dedup (sort surface_replacements) in
  if negb (lenN analyzed_replacements =? lenN rule.(SynonymRule.replacements))
     || negb (lenN surface_replacements =? lenN rule.(SynonymRule.replacements))
  then Err (invalid "synonym replacements must be unique after analysis") else
  Ok (Canonical.mk ({[analyzed_source]} ∪ s.(Canonical.analyzed_sources)) ({[surface_source]} ∪ s.(Canonical.surface_sources))
    (s.(Canonical.rules) ++ [SynonymRule.mk surface_source surface_replacements])
    (<[analyzed_source := analyzed_replacements]> s.(Canonical.analyzed_lookup))
    (<[surface_source := surface_replacements]> s.(Canonical.surface_lookup))).

(** [rules.sort_by(|left, right| left.source.cmp(&right.source))], stable *)
Definition source_le (left_ right_ : SynonymRule.t) : Prop := bytes_le left_.(SynonymRule.source) right_.(SynonymRule.source).
#[local] Instance source_le_dec : RelDecision source_le.
Proof. intros a b. unfold source_le. apply _. Defined.
Definition with_synonyms (c : EngineIdentityConfig.t) (synonyms : list SynonymRule.t) : EngineIdentityConfig.t :=
  EngineIdentityConfig.mk c.(EngineIdentityConfig.index_id) c.(EngineIdentityConfig.generation) c.(EngineIdentityConfig.fields)
    c.(EngineIdentityConfig.analyzer) c.(EngineIdentityConfig.stop_words) c.(EngineIdentityConfig.positions)
    c.(EngineIdentityConfig.surface_terms) synonyms c.(EngineIdentityConfig.filter_fields).
Definition canonical_identity (config : EngineIdentityConfig.t) : outcome (CanonicalIdentity.t S) :=
  analyzer ← build_analyzer config.(EngineIdentityConfig.stop_words);
  s ← foldO (canonical_rule analyzer) Canonical.empty config.(EngineIdentityConfig.synonyms);
  Ok (CanonicalIdentity.mk (with_synonyms config (merge_sort source_le s.(Canonical.rules))) analyzer
    s.(Canonical.analyzed_lookup) s.(Canonical.surface_lookup)).

(** ** What is accepted *)
(** The analyzer makes exactly the term [t] of [text]. *)
Definition term_of (token_stream : bytes → S) (text t : bytes) : Prop :=
  ∃ tok, Produces (token_stream text) [tok] ∧ tok.(Token.text) = t.
Lemma canonical_synonym_term_Ok ts text label t : canonical_synonym_term ts text label = Ok t ↔ term_of ts text t.
Proof.
  unfold canonical_synonym_term, term_of. split.
  - destruct (advance (ts text)) as [[] s] eqn:E; cbn [negb]; [|done]. destruct (advance s) as [[] s'] eqn:E'; [done|]. intros [= <-].
    exists (token s). split; [|done]. eapply Produces_token; [done|]. by eapply Produces_end.
  - intros (tok & Hp & <-). inversion Hp as [|? s l E Hp']; subst. rewrite E. cbn [negb].
    inversion Hp' as [? s' E'|]; subst. by rewrite E'.
Qed.
Lemma term_of_functional ts text a b : term_of ts text a → term_of ts text b → a = b.
Proof. intros (x & Hx & <-) (y & Hy & <-). pose proof (Produces_functional _ _ _ Hx Hy) as E. by simplify_eq. Qed.

(** The terms of a rule the loop accepts. *)
Definition rule_terms (analyzer : bytes → S) (rule : SynonymRule.t) (t : Terms.t) : Prop :=
  term_of analyzer rule.(SynonymRule.source) t.(Terms.analyzed_source)
  ∧ term_of normalizer rule.(SynonymRule.source) t.(Terms.surface_source)
  ∧ Forall2 (term_of analyzer) rule.(SynonymRule.replacements) t.(Terms.analyzed)
  ∧ Forall2 (term_of normalizer) rule.(SynonymRule.replacements) t.(Terms.surface)
  ∧ (t.(Terms.analyzed_source) ∉ t.(Terms.analyzed)) ∧ (t.(Terms.surface_source) ∉ t.(Terms.surface))
  ∧ NoDup t.(Terms.analyzed) ∧ NoDup t.(Terms.surface).
Definition add_terms (s : Canonical.t) (t : Terms.t) : Canonical.t :=
  Canonical.mk ({[t.(Terms.analyzed_source)]} ∪ s.(Canonical.analyzed_sources)) ({[t.(Terms.surface_source)]} ∪ s.(Canonical.surface_sources))
    (s.(Canonical.rules) ++ [SynonymRule.mk t.(Terms.surface_source) (sort t.(Terms.surface))])
    (<[t.(Terms.analyzed_source) := sort t.(Terms.analyzed)]> s.(Canonical.analyzed_lookup))
    (<[t.(Terms.surface_source) := sort t.(Terms.surface)]> s.(Canonical.surface_lookup)).

Lemma replacements_Ok analyzer sa ss rs : ∀ acc acc',
  foldO (canonical_replacement analyzer sa ss) acc rs = Ok acc' ↔
  ∃ a s, Forall2 (term_of analyzer) rs a ∧ Forall2 (term_of normalizer) rs s ∧ (sa ∉ a) ∧ (ss ∉ s) ∧ acc' = (acc.1 ++ a, acc.2 ++ s).
Proof.
  induction rs as [|r rs IH]; intros acc acc'; cbn [foldO].
  - split.
    + intros [= <-]. exists [], []. rewrite !app_nil_r. repeat split; try constructor; try apply not_elem_of_nil. by destruct acc.
    + intros (a & s & Ha & Hs & _ & _ & ->). apply Forall2_nil_inv_l in Ha as ->. apply Forall2_nil_inv_l in Hs as ->.
      rewrite !app_nil_r. by destruct acc.
  - rewrite bind_Ok. unfold canonical_replacement at 1. split.
    + intros (b & Hb & Hr). inv_ok. destruct (_ || _) eqn:E in Hb; [done|]. inv_ok. apply orb_false_iff in E as [E1%bool_decide_eq_false E2%bool_decide_eq_false].
      rewrite canonical_synonym_term_Ok in *. apply IH in Hr as (a & s & Ha & Hs & Hna & Hns & ->).
      eexists (_ :: a), (_ :: s). split; [constructor; [eassumption|done]|]. split; [constructor; [eassumption|done]|].
      rewrite !not_elem_of_cons. split; [by split|]. split; [by split|]. cbn [fst snd]. by rewrite <- !app_assoc.
    + intros (a & s & Ha & Hs & Hna & Hns & ->). apply Forall2_cons_inv_l in Ha as (a1 & a' & H1 & Ha & ->).
      apply Forall2_cons_inv_l in Hs as (s1 & s' & H2 & Hs & ->). apply not_elem_of_cons in Hna as [N1 Hna], Hns as [N2 Hns].
      exists (acc.1 ++ [a1], acc.2 ++ [s1]). split.
      * rewrite (proj2 (canonical_synonym_term_Ok _ _ _ _) H1). cbn [mbind outcome_bind].
        rewrite (proj2 (canonical_synonym_term_Ok _ _ _ _) H2). cbn [mbind outcome_bind].
        by rewrite !bool_decide_eq_false_2 by congruence.
      * apply IH. exists a', s'. cbn [fst snd]. rewrite <- !app_assoc. done.
Qed.
Lemma canonical_rule_Ok analyzer s rule s' : canonical_rule analyzer s rule = Ok s' ↔
  ∃ t, rule_terms analyzer rule t ∧ (t.(Terms.analyzed_source) ∉ s.(Canonical.analyzed_sources))
    ∧ (t.(Terms.surface_source) ∉ s.(Canonical.surface_sources)) ∧ s' = add_terms s t.
Proof.
  unfold canonical_rule. split.
  - intros Hr. apply bind_Ok in Hr as (sa & Ha%canonical_synonym_term_Ok & Hr). apply bind_Ok in Hr as (ss & Hs%canonical_synonym_term_Ok & Hr).
    destruct (_ || _) eqn:E in Hr; [done|]. apply orb_false_iff in E as [E1%bool_decide_eq_false E2%bool_decide_eq_false].
    apply bind_Ok in Hr as (p & (a & r & Fa & Fs & Na & Ns & ->)%replacements_Ok & Hr). cbn [fst snd app] in Hr.
    unfold lenN in Hr at 2 4. rewrite !dedup_sort_length in Hr by (symmetry; by eapply Forall2_length).
    destruct (_ || _) eqn:E in Hr; [done|]. apply orb_false_iff in E as [E3%negb_false_iff%bool_decide_eq_true E4%negb_false_iff%bool_decide_eq_true].
    rewrite !dedup_id in Hr by (by rewrite sort_perm). injection Hr as <-. by exists (Terms.mk sa ss a r).
  - intros ([sa ss a r] & (Ha & Hs & Fa & Fs & Na & Ns & Da & Ds) & N1 & N2 & ->). cbn [Terms.analyzed_source Terms.surface_source Terms.analyzed Terms.surface] in *.
    rewrite (proj2 (canonical_synonym_term_Ok _ _ _ _) Ha). cbn [mbind outcome_bind].
    rewrite (proj2 (canonical_synonym_term_Ok _ _ _ _) Hs). cbn [mbind outcome_bind]. rewrite !bool_decide_eq_false_2 by done. cbn [orb].
    rewrite (proj2 (replacements_Ok analyzer sa ss _ ([], []) (a, r))) by (by exists a, r). cbn [mbind outcome_bind].
    unfold lenN at 2 4. rewrite !dedup_sort_length by (symmetry; by eapply Forall2_length).
    rewrite !bool_decide_eq_true_2 by done. cbn [negb orb]. by rewrite !dedup_id by (by rewrite sort_perm).
Qed.
Lemma canonical_rules_Ok analyzer rules : ∀ s s', foldO (canonical_rule analyzer) s rules = Ok s' ↔
  ∃ ts, Forall2 (rule_terms analyzer) rules ts ∧ s' = foldl add_terms s ts
    ∧ NoDup (Terms.analyzed_source <$> ts) ∧ NoDup (Terms.surface_source <$> ts)
    ∧ Forall (λ t, (t.(Terms.analyzed_source) ∉ s.(Canonical.analyzed_sources)) ∧ (t.(Terms.surface_source) ∉ s.(Canonical.surface_sources))) ts.
Proof.
  induction rules as [|r rules IH]; intros s s'; cbn [foldO].
  - split; [intros [= <-]; exists []; repeat constructor|]. intros (ts & Ht%Forall2_nil_inv_l & -> & _). by subst.
  - rewrite bind_Ok. setoid_rewrite canonical_rule_Ok. setoid_rewrite IH. split.
    + intros (s1 & (t & Ht & N1 & N2 & ->) & ts & Hts & -> & D1 & D2 & F). exists (t :: ts). split; [by constructor|]. split; [done|].
      rewrite Forall_forall in F. cbn [Canonical.analyzed_sources Canonical.surface_sources add_terms] in F.
      setoid_rewrite not_elem_of_union in F. setoid_rewrite not_elem_of_singleton in F. rewrite !fmap_cons, !NoDup_cons, Forall_cons, Forall_forall.
      split; [split; [|done]; intros (x & E & Hx)%list_elem_of_fmap; specialize (F x Hx); by destruct F as [[? _] _]|].
      split; [split; [|done]; intros (x & E & Hx)%list_elem_of_fmap; specialize (F x Hx); by destruct F as [_ [? _]]|].
      split; [done|]. intros x Hx. specialize (F x Hx). tauto.
    + intros (tts & Ht & -> & D1 & D2 & F). apply Forall2_cons_inv_l in Ht as (t & ts & Ht & Hts & ->).
      apply Forall_cons in F as [[N1 N2] F]. rewrite !fmap_cons, !NoDup_cons in D1, D2. destruct D1 as [M1 D1], D2 as [M2 D2].
      exists (add_terms s t). split; [by exists t|]. exists ts. split; [done|]. split; [done|]. split; [done|]. split; [done|].
      rewrite Forall_forall in *. intros x Hx. specialize (F x Hx). cbn [Canonical.analyzed_sources Canonical.surface_sources add_terms].
      rewrite !not_elem_of_union, !not_elem_of_singleton. repeat split; try tauto; intros E; [apply M1|apply M2]; rewrite <- E; by apply list_elem_of_fmap_2.
Qed.
(** The result, from the terms of the rules. *)
Definition rule_of (t : Terms.t) : SynonymRule.t := SynonymRule.mk t.(Terms.surface_source) (sort t.(Terms.surface)).
Definition analyzed_entry (t : Terms.t) : bytes * list bytes := (t.(Terms.analyzed_source), sort t.(Terms.analyzed)).
Definition surface_entry (t : Terms.t) : bytes * list bytes := (t.(Terms.surface_source), sort t.(Terms.surface)).
Definition canonical_of (config : EngineIdentityConfig.t) (analyzer : bytes → S) (ts : list Terms.t) : CanonicalIdentity.t S :=
  CanonicalIdentity.mk (with_synonyms config (merge_sort source_le (rule_of <$> ts))) analyzer
    (list_to_map (analyzed_entry <$> ts)) (list_to_map (surface_entry <$> ts)).

Lemma lookup_fold (f : Terms.t → bytes * list bytes) ts : ∀ m : SynonymMap, NoDup ((f <$> ts).*1) →
  foldl (λ m t, <[(f t).1 := (f t).2]> m) m ts = list_to_map (f <$> ts) ∪ m.
Proof.
  induction ts as [|t ts IH]; intros m Hd; cbn [foldl].
  { change (list_to_map (f <$> [])) with (∅ : SynonymMap). by rewrite (left_id_L ∅ (∪)). }
  rewrite !fmap_cons in Hd. apply NoDup_cons in Hd as [Hn Hd]. rewrite IH by done. rewrite fmap_cons.
  destruct (f t) as [k v] eqn:E. trans (<[k:=v]> (list_to_map (f <$> ts) ∪ m) : SynonymMap); [|apply insert_union_l].
  symmetry. by apply insert_union_r, not_elem_of_list_to_map_1.
Qed.
Lemma add_terms_fold ts : ∀ s, foldl add_terms s ts =
  Canonical.mk (list_to_set (Terms.analyzed_source <$> rev ts) ∪ s.(Canonical.analyzed_sources))
    (list_to_set (Terms.surface_source <$> rev ts) ∪ s.(Canonical.surface_sources)) (s.(Canonical.rules) ++ (rule_of <$> ts))
    (foldl (λ m t, <[(analyzed_entry t).1 := (analyzed_entry t).2]> m) s.(Canonical.analyzed_lookup) ts)
    (foldl (λ m t, <[(surface_entry t).1 := (surface_entry t).2]> m) s.(Canonical.surface_lookup) ts).
Proof.
  induction ts as [|t ts IH]; intros s; cbn [foldl].
  - destruct s as [a b rs m1 m2]. cbn. rewrite app_nil_r. f_equal; set_solver.
  - rewrite IH. cbn [rev Canonical.analyzed_sources Canonical.surface_sources Canonical.rules Canonical.analyzed_lookup Canonical.surface_lookup add_terms].
    f_equal; [| |by rewrite <- app_assoc, fmap_cons]; rewrite fmap_app, list_to_set_app_L; cbn; by rewrite (right_id_L ∅ (∪)), (assoc_L (∪)).
Qed.

(** [canonical_identity] accepts exactly the configurations whose synonyms are
    single terms under both analyzers, with distinct sources, and distinct
    replacements other than the source; it returns them analyzed and sorted. *)
Theorem canonical_identity_iff config r : canonical_identity config = Ok r ↔
  ∃ analyzer ts, build_analyzer config.(EngineIdentityConfig.stop_words) = Ok analyzer
    ∧ Forall2 (rule_terms analyzer) config.(EngineIdentityConfig.synonyms) ts
    ∧ NoDup (Terms.analyzed_source <$> ts) ∧ NoDup (Terms.surface_source <$> ts) ∧ r = canonical_of config analyzer ts.
Proof.
  assert (∀ ts, NoDup (Terms.analyzed_source <$> ts) → NoDup (Terms.surface_source <$> ts) → ∀ analyzer,
    (let s := foldl add_terms Canonical.empty ts in CanonicalIdentity.mk (with_synonyms config (merge_sort source_le s.(Canonical.rules))) analyzer
      s.(Canonical.analyzed_lookup) s.(Canonical.surface_lookup)) = canonical_of config analyzer ts) as Hr.
  { intros ts D1 D2 analyzer. rewrite add_terms_fold. cbv zeta. cbn [Canonical.rules Canonical.analyzed_lookup Canonical.surface_lookup Canonical.empty app].
    rewrite !lookup_fold by (by rewrite <- list_fmap_compose).
    unfold canonical_of. f_equal; apply map_union_empty. }
  unfold canonical_identity. split.
  - intros Hc. inv_ok. rename select (foldO _ _ _ = _) into Hf. apply canonical_rules_Ok in Hf as (ts & Hts & -> & D1 & D2 & _).
    eexists _, ts. split; [done|]. split; [done|]. split; [done|]. split; [done|]. by apply (Hr ts).
  - intros (analyzer & ts & Hb & Hts & D1 & D2 & ->). rewrite Hb. cbn [mbind outcome_bind].
    assert (foldO (canonical_rule analyzer) Canonical.empty config.(EngineIdentityConfig.synonyms) = Ok (foldl add_terms Canonical.empty ts)) as ->.
    { apply canonical_rules_Ok. exists ts. split; [done|]. split; [done|]. split; [done|]. split; [done|].
      apply Forall_forall. intros t _. split; apply not_elem_of_empty. }
    cbn [mbind outcome_bind]. f_equal. by apply (Hr ts).
Qed.

(** ** The order of declaration *)
Definition same_rule (r r' : SynonymRule.t) : Prop :=
  r.(SynonymRule.source) = r'.(SynonymRule.source) ∧ r.(SynonymRule.replacements) ≡ₚ r'.(SynonymRule.replacements).
(** The same configuration with rules and replacements in another order. *)
Definition reordered (c c' : EngineIdentityConfig.t) : Prop :=
  with_synonyms c c'.(EngineIdentityConfig.synonyms) = c'
  ∧ ∃ rules, c.(EngineIdentityConfig.synonyms) ≡ₚ rules ∧ Forall2 same_rule rules c'.(EngineIdentityConfig.synonyms).
Definition same_terms (t t' : Terms.t) : Prop :=
  t.(Terms.analyzed_source) = t'.(Terms.analyzed_source) ∧ t.(Terms.surface_source) = t'.(Terms.surface_source)
  ∧ t.(Terms.analyzed) ≡ₚ t'.(Terms.analyzed) ∧ t.(Terms.surface) ≡ₚ t'.(Terms.surface).

Lemma Forall2_reorder {A B} (R : A → B → Prop) l l' k : l ≡ₚ l' → Forall2 R l k → ∃ k', k ≡ₚ k' ∧ Forall2 R l' k'.
Proof. apply Permutation_Forall2. Qed.
Lemma rule_terms_reorder analyzer r r' t : same_rule r r' → rule_terms analyzer r t → ∃ t', same_terms t t' ∧ rule_terms analyzer r' t'.
Proof.
  intros [Es Hp] (Ha & Hs & Fa & Fs & Na & Ns & Da & Ds).
  destruct (Forall2_reorder _ _ _ _ Hp Fa) as (a' & Pa & Fa'), (Forall2_reorder _ _ _ _ Hp Fs) as (s' & Ps & Fs').
  exists (Terms.mk t.(Terms.analyzed_source) t.(Terms.surface_source) a' s'). split; [done|].
  unfold rule_terms. cbn [Terms.analyzed_source Terms.surface_source Terms.analyzed Terms.surface]. rewrite <- Es.
  split; [done|]. split; [done|]. split; [done|]. split; [done|].
  split; [by rewrite <- Pa|]. split; [by rewrite <- Ps|]. split; [by rewrite <- Pa|by rewrite <- Ps].
Qed.
Lemma rules_terms_reorder analyzer rs rs' ts : Forall2 same_rule rs rs' → Forall2 (rule_terms analyzer) rs ts →
  ∃ ts', Forall2 same_terms ts ts' ∧ Forall2 (rule_terms analyzer) rs' ts'.
Proof.
  intros Hr. revert ts. induction Hr as [|r r' rs rs' Hr _ IH]; intros ts Ht.
  - apply Forall2_nil_inv_l in Ht as ->. by exists [].
  - apply Forall2_cons_inv_l in Ht as (t & ts' & Ht & Hts & ->). destruct (rule_terms_reorder _ _ _ _ Hr Ht) as (t' & ? & ?), (IH _ Hts) as (ts2 & ? & ?).
    exists (t' :: ts2). split; by constructor.
Qed.
Lemma same_terms_results ts ts' : Forall2 same_terms ts ts' →
  rule_of <$> ts = rule_of <$> ts' ∧ analyzed_entry <$> ts = analyzed_entry <$> ts' ∧ surface_entry <$> ts = surface_entry <$> ts'
  ∧ Terms.analyzed_source <$> ts = Terms.analyzed_source <$> ts' ∧ Terms.surface_source <$> ts = Terms.surface_source <$> ts'.
Proof.
  induction 1 as [|t t' ts ts' (E1 & E2 & Pa%sort_unique & Ps%sort_unique) _ (I1 & I2 & I3 & I4 & I5)]; [done|].
  rewrite !fmap_cons, I1, I2, I3, I4, I5. unfold rule_of, analyzed_entry, surface_entry. by rewrite E1, E2, Pa, Ps.
Qed.
#[local] Instance source_le_trans : Transitive source_le.
Proof. intros a b c. unfold source_le. apply bytes_le_transitive. Qed.
#[local] Instance source_le_total : Total source_le.
Proof. intros a b. unfold source_le. apply bytes_le_total. Qed.
(** With distinct sources the sorted rules do not depend on the order. *)
Lemma sort_rules_unique l k : NoDup (SynonymRule.source <$> l) → l ≡ₚ k → merge_sort source_le l = merge_sort source_le k.
Proof.
  intros Hd Hp. apply (StronglySorted_unique_strong source_le); [|apply StronglySorted_merge_sort; apply _..|by rewrite !merge_sort_Permutation].
  intros x y Hx Hy Hxy Hyx. rewrite merge_sort_Permutation in Hx, Hy. rewrite <- Hp in Hy.
  assert (x.(SynonymRule.source) = y.(SynonymRule.source)) as E by (by apply (anti_symm bytes_le)).
  apply list_elem_of_lookup_1 in Hx as [i Hi], Hy as [j Hj].
  assert (i = j) as -> by (apply (NoDup_lookup _ _ _ (SynonymRule.source x) Hd); rewrite list_lookup_fmap, ?Hi, ?Hj; cbn; by rewrite ?E).
  congruence.
Qed.
(** Rules and replacements may be declared in any order: the canonical identity,
    and with it the sidecar and the synonym maps, are the same. *)
Theorem canonical_identity_reordered c c' r : reordered c c' → canonical_identity c = Ok r → canonical_identity c' = Ok r.
Proof.
  intros (Ec & rules & Hp & Hr). rewrite !canonical_identity_iff. intros (analyzer & ts & Hb & Hts & D1 & D2 & ->).
  destruct (Forall2_reorder _ _ _ _ Hp Hts) as (ts1 & Pt & Hts1), (rules_terms_reorder _ _ _ _ Hr Hts1) as (ts2 & Hs & Hts2).
  destruct (same_terms_results _ _ Hs) as (E1 & E2 & E3 & E4 & E5). exists analyzer, ts2.
  split; [by rewrite <- Ec|]. split; [done|]. rewrite <- E4, <- E5, <- Pt. split; [done|]. split; [done|].
  unfold canonical_of. rewrite <- E1, <- E2, <- E3. f_equal.
  - rewrite <- Ec. unfold with_synonyms. cbn. f_equal. apply sort_rules_unique; [by rewrite <- list_fmap_compose|by rewrite Pt].
  - apply list_to_map_proper; [by rewrite <- list_fmap_compose|by rewrite Pt].
  - apply list_to_map_proper; [by rewrite <- list_fmap_compose|by rewrite Pt].
Qed.
End Identity.

(** ** A concrete configuration *)
Definition with_rules (rules : list SynonymRule.t) : EngineIdentityConfig.t :=
  EngineIdentityConfig.mk (blit "products") (blit "g1") [] (blit "english@2") true true false rules [].
Definition sample_declared : EngineIdentityConfig.t := with_rules
  [SynonymRule.mk (blit "tv") [blit "television"]; SynonymRule.mk (blit "sneaker") [blit "trainer"; blit "shoe"]].
Definition sample_reordered : EngineIdentityConfig.t := with_rules
  [SynonymRule.mk (blit "sneaker") [blit "shoe"; blit "trainer"]; SynonymRule.mk (blit "tv") [blit "television"]].
Definition sample_canonical (c : EngineIdentityConfig.t) := canonical_identity (λ _, Ok sample_stream) sample_stream c.
Lemma canonical_identity_reordered_witness : ∃ r, sample_canonical sample_declared = Ok r ∧ sample_canonical sample_reordered = Ok r
  ∧ EngineIdentityConfig.synonyms r.(CanonicalIdentity.config)
    = [SynonymRule.mk (blit "sneaker") [blit "shoe"; blit "trainer"]; SynonymRule.mk (blit "tv") [blit "television"]].
Proof.
  assert (match sample_canonical sample_declared with Ok r => EngineIdentityConfig.synonyms r.(CanonicalIdentity.config)
    = [SynonymRule.mk (blit "sneaker") [blit "shoe"; blit "trainer"]; SynonymRule.mk (blit "tv") [blit "television"]] | _ => False end) as Hc
    by (vm_compute; reflexivity).
  destruct (sample_canonical sample_declared) as [r| | |] eqn:E; [|destruct Hc..].
  exists r. split; [reflexivity|]. split; [|exact Hc].
  refine (canonical_identity_reordered (λ _, Ok sample_stream) sample_stream sample_declared sample_reordered r _ E).
  split; [reflexivity|]. eexists. split; [apply perm_swap|].
  constructor; [split; [reflexivity|apply perm_swap]|]. constructor; [split; reflexivity|constructor].
Defined.
