(* ===== verification/Normal.v ===== *)
(** * src/src/engine.rs: Unicode normalisation

    [MappedNfkc] normalises a text to NFKC while it is read, each character with
    the span of the source it comes from; [is_stream_safe_nfkc] tells when the text
    may be read as it stands.  Both are proved equal to the definition of NFKC:
    decompose, order canonically, compose, on the stream-safe text.  The tables of
    Unicode are parameters. *)
From stdpp Require Import sorting.
From S2P Require Import Prelude.
From S2P Require Import Errors.
From S2P Require Import Bytes.
From S2P Require Import Text.
From S2P Require Import Analysis.
Local Open Scope N_scope.

Definition MAX_NONSTARTERS : N := 30.
Definition COMBINING_GRAPHEME_JOINER : N := 0x34F.
(** The tables of the crate [unicode_normalization]. *)
Class Tables := {
  canonical_combining_class : N → N;
  decompose_compatible : N → list N;
  compose : N → N → option N;
  is_nfkc : bytes → bool }.

(** [slice::sort_by_key], which is stable *)
Section StableSort.
Context {A : Type} (key : A → N).
Fixpoint insert_key (x : A) (l : list A) : list A :=
  match l with [] => [x] | y :: k => if key x <=? key y then x :: l else y :: insert_key x k end.
Definition sort_by_key (l : list A) : list A := foldr insert_key [] l.
End StableSort.
(** [take_while(p).count()] *)
Fixpoint count_while {A} (p : A → bool) (l : list A) : N := match l with [] => 0 | x :: l => if p x then 1 + count_while p l else 0 end.

(** ** [MappedNfkc]; the buffer [decomposed] is local to a step. *)
Module MappedNfkc.
Record t := mk {
  source : list (N * N); decomposition_pending : list (N * MappedCharacter.t); nonstarter_count : N;
  composee : option MappedCharacter.t; composition_pending : list MappedCharacter.t; last_combining_class : option N;
  output : list MappedCharacter.t; output_offset : N; finished : bool }.
Definition new (source : bytes) : t := mk (char_indices source) [] 0 None [] None [] 0 false.
Definition with_source (self : t) (source : list (N * N)) : t :=
  mk source self.(decomposition_pending) self.(nonstarter_count) self.(composee) self.(composition_pending) self.(last_combining_class) self.(output) self.(output_offset) self.(finished).
Definition with_pending (self : t) (pending : list (N * MappedCharacter.t)) : t :=
  mk self.(source) pending self.(nonstarter_count) self.(composee) self.(composition_pending) self.(last_combining_class) self.(output) self.(output_offset) self.(finished).
Definition with_nonstarters (self : t) (count : N) : t :=
  mk self.(source) self.(decomposition_pending) count self.(composee) self.(composition_pending) self.(last_combining_class) self.(output) self.(output_offset) self.(finished).
Definition with_composition (self : t) (composee : option MappedCharacter.t) (pending : list MappedCharacter.t) (last : option N) (output : list MappedCharacter.t) : t :=
  mk self.(source) self.(decomposition_pending) self.(nonstarter_count) composee pending last output self.(output_offset) self.(finished).
Definition with_output (self : t) (output : list MappedCharacter.t) (offset : N) (finished : bool) : t :=
  mk self.(source) self.(decomposition_pending) self.(nonstarter_count) self.(composee) self.(composition_pending) self.(last_combining_class) output offset finished.
End MappedNfkc.
Module MappedCharacters.
Inductive t := Original (characters : list (N * N)) | Normalized (characters : MappedNfkc.t).
End MappedCharacters.
Import MappedNfkc (composee, composition_pending, last_combining_class, decomposition_pending, nonstarter_count, output, output_offset, finished, with_composition, with_pending, with_nonstarters, with_output, with_source).

Section Nfkc.
Context `{Tables}.
Abbreviation class_of c := (canonical_combining_class c.(MappedCharacter.character)).
Definition nonstarter (character : N) : bool := negb (canonical_combining_class character =? 0).
Definition merged (composee character : MappedCharacter.t) (composed : N) : MappedCharacter.t :=
  MappedCharacter.mk composed (SourceSpan.merge composee.(MappedCharacter.span) character.(MappedCharacter.span)).
Definition composition (last : option N) (composee character : MappedCharacter.t) : option N :=
  match last with
  | None => compose composee.(MappedCharacter.character) character.(MappedCharacter.character)
  | Some last =>
      if last <? class_of character then compose composee.(MappedCharacter.character) character.(MappedCharacter.character) else None
  end.
Definition push_recomposition (self : MappedNfkc.t) (character : MappedCharacter.t) : MappedNfkc.t :=
  let combining_class := class_of character in
  match self.(composee) with
  | None =>
      if combining_class =? 0 then with_composition self (Some character) self.(composition_pending) self.(last_combining_class) self.(output)
      else with_composition self None self.(composition_pending) self.(last_combining_class) (self.(output) ++ [character])
  | Some composee =>
      match composition self.(last_combining_class) composee character with
      | Some composed => with_composition self (Some (merged composee character composed)) self.(composition_pending) self.(last_combining_class) self.(output)
      | None =>
          if combining_class =? 0
          then with_composition self (Some character) [] None (self.(output) ++ [composee] ++ self.(composition_pending))
          else with_composition self (Some composee) (self.(composition_pending) ++ [character]) (Some combining_class) self.(output)
      end
  end.
Definition flush_decomposition (self : MappedNfkc.t) : MappedNfkc.t :=
  let pending := sort_by_key fst self.(decomposition_pending) in
  foldl push_recomposition (with_pending self []) (snd <$> pending).
Definition push_decomposed (self : MappedNfkc.t) (character : MappedCharacter.t) : MappedNfkc.t :=
  let combining_class := class_of character in
  if combining_class =? 0 then push_recomposition (flush_decomposition self) character
  else with_pending self (self.(decomposition_pending) ++ [(combining_class, character)]).
Definition finish (self : MappedNfkc.t) : MappedNfkc.t :=
  let self := flush_decomposition self in
  let output := match self.(composee) with Some composee => self.(output) ++ [composee] | None => self.(output) end in
  with_output (with_composition self None [] self.(last_combining_class) (output ++ self.(composition_pending)))
    (output ++ self.(composition_pending)) self.(output_offset) true.
(** The count after a character with this decomposition. *)
Definition next_count (count : N) (decomposed : list N) : N :=
  if count_while nonstarter decomposed =? lenN decomposed then count + lenN decomposed else count_while nonstarter (rev decomposed).
(** The body of the loop for a source character. *)
Definition push_source (self : MappedNfkc.t) (start source_character : N) : MappedNfkc.t :=
  let span := SourceSpan.mk start (start + len_utf8 source_character) in
  let decomposed := decompose_compatible source_character in
  let leading_nonstarters := count_while nonstarter decomposed in
  let self :=
    if MAX_NONSTARTERS <? self.(nonstarter_count) + leading_nonstarters
    then with_nonstarters (push_decomposed self (MappedCharacter.mk COMBINING_GRAPHEME_JOINER span)) 0 else self in
  let self := with_nonstarters self (next_count self.(nonstarter_count) decomposed) in
  foldl push_decomposed self ((λ character, MappedCharacter.mk character span) <$> decomposed).
Definition emit (self : MappedNfkc.t) : option (MappedCharacter.t * MappedNfkc.t) :=
  match self.(output) !! N.to_nat self.(output_offset) with
  | Some character => Some (character, with_output self self.(output) (self.(output_offset) + 1) self.(finished))
  | None => None
  end.
Definition cleared (self : MappedNfkc.t) : MappedNfkc.t := with_output self [] 0 self.(finished).
(** The loop, along what is left of the source. *)
Fixpoint next_loop (source : list (N * N)) (self : MappedNfkc.t) : option MappedCharacter.t * MappedNfkc.t :=
  match emit self with
  | Some (character, self) => (Some character, self)
  | None =>
      let self := cleared self in
      if self.(finished) then (None, self) else
      match source with
      | (start, source_character) :: source => next_loop source (push_source (with_source self source) start source_character)
      | [] =>
          let self := finish self in
          match emit self with Some (character, self) => (Some character, self) | None => (None, cleared self) end
      end
  end.
Definition next (self : MappedNfkc.t) : option MappedCharacter.t * MappedNfkc.t := next_loop self.(MappedNfkc.source) self.

(** ** [is_stream_safe_nfkc] *)
(** What the closure counts: the length, the leading and the trailing
    nonstarters, and whether a starter was seen. *)
Definition count_step (counts : N * N * N * bool) (character : N) : N * N * N * bool :=
  let '(decomposition_length, leading, trailing, saw_starter) := counts in
  if canonical_combining_class character =? 0 then (decomposition_length + 1, leading, 0, true)
  else (decomposition_length + 1, if negb saw_starter then leading + 1 else leading, trailing + 1, saw_starter).
Fixpoint stream_safe_loop (nonstarter_count : N) (characters : list N) : bool :=
  match characters with
  | [] => true
  | source_character :: characters =>
      let '(decomposition_length, leading, trailing, _) := foldl count_step (0, 0, 0, false) (decompose_compatible source_character) in
      if MAX_NONSTARTERS <? nonstarter_count + leading then false
      else stream_safe_loop (if leading =? decomposition_length then nonstarter_count + decomposition_length else trailing) characters
  end.
Definition is_stream_safe_nfkc (text : bytes) : bool := if negb (is_nfkc text) then false else stream_safe_loop 0 (chars text).

(** ** [MappedCharacters] *)
Definition mapped_next (self : MappedCharacters.t) : option MappedCharacter.t * MappedCharacters.t :=
  match self with
  | MappedCharacters.Original [] => (None, self)
  | MappedCharacters.Original ((start, character) :: characters) =>
      (Some (MappedCharacter.mk character (SourceSpan.mk start (start + len_utf8 character))), MappedCharacters.Original characters)
  | MappedCharacters.Normalized characters => let '(character, characters) := next characters in (character, MappedCharacters.Normalized characters)
  end.
(** The characters [token_stream] reads. *)
Definition token_characters (text : bytes) : MappedCharacters.t :=
  if is_ascii text || is_stream_safe_nfkc text then MappedCharacters.Original (char_indices text) else MappedCharacters.Normalized (MappedNfkc.new text).
(** What is read until the end. *)
Inductive Yields : MappedCharacters.t → list MappedCharacter.t → Prop :=
| Yields_end self self' : mapped_next self = (None, self') → Yields self []
| Yields_next self c self' l : mapped_next self = (Some c, self') → Yields self' l → Yields self (c :: l).

(** ** NFKC *)
(** A boundary wherever more than thirty nonstarters would follow each other. *)
Fixpoint stream_safe (count : N) (characters : list N) : list N :=
  match characters with
  | [] => []
  | c :: characters =>
      let decomposed := decompose_compatible c in
      if MAX_NONSTARTERS <? count + count_while nonstarter decomposed
      then COMBINING_GRAPHEME_JOINER :: c :: stream_safe (next_count 0 decomposed) characters
      else c :: stream_safe (next_count count decomposed) characters
  end.
(** Canonical order: a nonstarter moves before those of a greater class. *)
Fixpoint sink (c : N) (l : list N) : list N :=
  match l with
  | [] => [c]
  | d :: k => if nonstarter d && (canonical_combining_class d <? canonical_combining_class c) then d :: sink c k else c :: l
  end.
Fixpoint reorder (l : list N) : list N :=
  match l with [] => [] | c :: l => if nonstarter c then sink c (reorder l) else c :: reorder l end.
(** What precedes the last starter, the starter, and what follows it. *)
Fixpoint split_starter (l : list N) : option (list N * N * list N) :=
  match l with
  | [] => None
  | c :: l =>
      match split_starter l with
      | Some (before, starter, after) => Some (c :: before, starter, after)
      | None => if nonstarter c then None else Some ([], c, l)
      end
  end.
(** A character is blocked from the starter by one of its class or above. *)
Definition blocked (after : list N) (c : N) : bool := existsb (λ b, canonical_combining_class c <=? canonical_combining_class b) after.
Definition compose_step (done : list N) (c : N) : list N :=
  match split_starter done with
  | Some (before, starter, after) =>
      match (if blocked after c then None else compose starter c) with
      | Some p => before ++ p :: after
      | None => done ++ [c]
      end
  | None => done ++ [c]
  end.
Definition nfkc (characters : list N) : list N := foldl compose_step [] (reorder (characters ≫= decompose_compatible)).
End Nfkc.

(** ** What is relied on *)
(** A composite is a starter, the grapheme joiner is one and has no decomposition;
    ASCII characters are starters, have no decomposition and do not compose; and
    [is_nfkc] tells normalised texts. *)
Class TablesLaws `{Tables} : Prop := {
  composite_starter a b p : compose a b = Some p → canonical_combining_class p = 0;
  joiner_starter : canonical_combining_class COMBINING_GRAPHEME_JOINER = 0;
  joiner_decomposition : decompose_compatible COMBINING_GRAPHEME_JOINER = [COMBINING_GRAPHEME_JOINER];
  ascii_starter c : c < 128 → canonical_combining_class c = 0 ∧ decompose_compatible c = [c];
  ascii_compose a b : a < 128 → b < 128 → compose a b = None;
  is_nfkc_ok text : is_nfkc text = true → nfkc (chars text) = chars text }.

(** ** Canonical order *)
Section Order.
Context `{Tables}.
Definition all_nonstarters (l : list N) : Prop := Forall (λ c, nonstarter c = true) l.
Definition headed (l : list N) : Prop := match l with [] => True | c :: _ => nonstarter c = false end.
Lemma sort_key_fmap {A B} (key : A → N) (key' : B → N) (f : A → B) l : (∀ x, key' (f x) = key x) → f <$> sort_by_key key l = sort_by_key key' (f <$> l).
Proof.
  intros Hk. assert (∀ x k, f <$> insert_key key x k = insert_key key' (f x) (f <$> k)) as Hi.
  { intros x k. induction k as [|y k IH]; [done|]. rewrite fmap_cons. cbn [insert_key]. rewrite !Hk. destruct (key x <=? key y); [done|]. by rewrite fmap_cons, IH. }
  induction l as [|x l IH]; [done|]. rewrite fmap_cons. cbn [sort_by_key foldr]. unfold sort_by_key in IH. by rewrite Hi, IH.
Qed.
Lemma insert_key_elem {A} (key : A → N) x l y : y ∈ insert_key key x l ↔ y = x ∨ y ∈ l.
Proof.
  induction l as [|z l IH]; cbn [insert_key]; [by rewrite elem_of_cons|]. destruct (key x <=? key z); rewrite !elem_of_cons; [tauto|]. rewrite IH. tauto.
Qed.
Lemma sort_key_elem {A} (key : A → N) l y : y ∈ sort_by_key key l ↔ y ∈ l.
Proof. induction l as [|x l IH]; [done|]. cbn [sort_by_key foldr]. rewrite insert_key_elem, elem_of_cons. unfold sort_by_key in IH. by rewrite IH. Qed.
Lemma insert_key_sorted {A} (key : A → N) x l : StronglySorted (λ a b, key a <= key b) l → StronglySorted (λ a b, key a <= key b) (insert_key key x l).
Proof.
  induction 1 as [|y l Hs IH Hy]; cbn [insert_key]; [repeat constructor|]. destruct (N.leb_spec (key x) (key y)) as [Hle|Hlt].
  - constructor; [by constructor|]. constructor; [done|]. eapply Forall_impl; [exact Hy|]. intros z Hz. cbn in Hz. lia.
  - constructor; [exact IH|]. apply Forall_forall. intros z [->|Hz]%insert_key_elem; [lia|]. rewrite Forall_forall in Hy. by apply Hy.
Qed.
Lemma sort_key_sorted {A} (key : A → N) l : StronglySorted (λ a b, key a <= key b) (sort_by_key key l).
Proof. induction l as [|x l IH]; [constructor|]. cbn [sort_by_key foldr]. by apply insert_key_sorted. Qed.
Lemma sink_insert c l rest : all_nonstarters l → headed rest → sink c (l ++ rest) = insert_key canonical_combining_class c l ++ rest.
Proof.
  intros Hl Hr. induction Hl as [|d l Hd _ IH]; cbn [app sink insert_key].
  - destruct rest as [|d rest]; [done|]. cbn [headed] in Hr. cbn [sink]. by rewrite Hr.
  - rewrite Hd, andb_true_l. destruct (N.ltb_spec (canonical_combining_class d) (canonical_combining_class c)) as [Hlt|Hge].
    + assert ((canonical_combining_class c <=? canonical_combining_class d) = false) as -> by (apply N.leb_gt; lia). by rewrite IH.
    + assert ((canonical_combining_class c <=? canonical_combining_class d) = true) as -> by (apply N.leb_le; lia). done.
Qed.
Lemma sort_nonstarters l : all_nonstarters l → all_nonstarters (sort_by_key canonical_combining_class l).
Proof. unfold all_nonstarters. rewrite !Forall_forall. intros Hl c Hc%sort_key_elem. by apply Hl. Qed.
(** A run of nonstarters is sorted by class, whatever follows. *)
Lemma reorder_run run rest : all_nonstarters run → headed rest → reorder (run ++ rest) = sort_by_key canonical_combining_class run ++ reorder rest.
Proof.
  intros Hrun Hr. assert (headed (reorder rest)) as Hr' by (destruct rest as [|c rest]; [done|]; cbn [headed reorder] in *; by rewrite Hr).
  induction Hrun as [|c run Hc Hrun IH]; [done|]. cbn [app reorder sort_by_key foldr]. rewrite Hc, IH. apply sink_insert; [by apply sort_nonstarters|done].
Qed.
Lemma reorder_starter l s rest : nonstarter s = false → reorder (l ++ s :: rest) = reorder l ++ s :: reorder rest.
Proof.
  intros Hs. induction l as [|c l IH]; cbn [app reorder]; [by rewrite Hs|]. rewrite IH. destruct (nonstarter c); [|done].
  clear IH. induction (reorder l) as [|d k IH]; cbn [app sink]; [by rewrite Hs|]. destruct (nonstarter d && _); [by rewrite IH|done].
Qed.

(** ** Composition *)
Lemma split_starter_none l : all_nonstarters l → split_starter l = None.
Proof. induction 1 as [|c l Hc _ IH]; [done|]. cbn [split_starter]. by rewrite IH, Hc. Qed.
Lemma split_starter_at before s after : nonstarter s = false → all_nonstarters after → split_starter (before ++ s :: after) = Some (before, s, after).
Proof.
  intros Hs Ha. induction before as [|c before IH]; cbn [app split_starter]; [by rewrite split_starter_none, Hs|]. by rewrite IH.
Qed.
End Order.

(** ** Recomposition follows the definition *)
Section Simulation.
Context `{TablesLaws}.
(** A property of spans that merging keeps. *)
Context (span_ok : SourceSpan.t → Prop).
Hypothesis Hmerge : ∀ a b, span_ok a → span_ok b → span_ok (SourceSpan.merge a b).
Abbreviation char := MappedCharacter.character.
Abbreviation class := canonical_combining_class.

Definition unread (st : MappedNfkc.t) : list MappedCharacter.t := drop (N.to_nat st.(output_offset)) st.(output).
Definition open_characters (st : MappedNfkc.t) : list MappedCharacter.t := match st.(composee) with Some s => s :: st.(composition_pending) | None => [] end.
(** Everything composed so far: what was read, what can be read, and what may still compose. *)
Definition composed (past : list N) (st : MappedNfkc.t) : list N := past ++ (char <$> unread st) ++ (char <$> open_characters st).
Definition last_class (last : option N) (pending : list MappedCharacter.t) : Prop :=
  match last with
  | None => pending = []
  | Some m => Forall (λ c, class (char c) <= m) pending ∧ ∃ c, c ∈ pending ∧ class (char c) = m
  end.
Definition shaped (past : list N) (st : MappedNfkc.t) : Prop :=
  st.(output_offset) <= lenN st.(output)
  ∧ match st.(composee) with
    | None => st.(composition_pending) = [] ∧ st.(last_combining_class) = None ∧ all_nonstarters (past ++ (char <$> unread st))
    | Some s => nonstarter (char s) = false ∧ all_nonstarters (char <$> st.(composition_pending)) ∧ last_class st.(last_combining_class) st.(composition_pending)
    end.
Definition ok (l : list MappedCharacter.t) : Prop := Forall (λ c, span_ok c.(MappedCharacter.span)) l.
(** The spans of every character of the state. *)
Definition spans_ok (st : MappedNfkc.t) : Prop :=
  ok st.(output) ∧ (∀ s, st.(composee) = Some s → span_ok s.(MappedCharacter.span)) ∧ ok st.(composition_pending) ∧ ok (snd <$> st.(decomposition_pending)).
Lemma ok_snoc l c : ok l → span_ok c.(MappedCharacter.span) → ok (l ++ [c]).
Proof. intros Hl Hc. apply Forall_app. split; [exact Hl|]. by apply Forall_singleton. Qed.
(** What recomposition does not touch. *)
Definition same_input (st st' : MappedNfkc.t) : Prop :=
  st'.(MappedNfkc.source) = st.(MappedNfkc.source) ∧ st'.(decomposition_pending) = st.(decomposition_pending) ∧ st'.(nonstarter_count) = st.(nonstarter_count)
  ∧ st'.(output_offset) = st.(output_offset) ∧ st'.(finished) = st.(finished).
Lemma same_input_trans a b c : same_input a b → same_input b c → same_input a c.
Proof. unfold same_input. intros (-> & -> & -> & -> & ->) (-> & -> & -> & -> & ->). done. Qed.

Lemma starter_class c : nonstarter c = false ↔ class c = 0.
Proof. unfold nonstarter. by rewrite negb_false_iff, N.eqb_eq. Qed.
Lemma nonstarter_class c : nonstarter c = true ↔ class c ≠ 0.
Proof. unfold nonstarter. by rewrite negb_true_iff, N.eqb_neq. Qed.
Lemma blocked_last last pending c : last_class last pending →
  blocked (char <$> pending) c = match last with None => false | Some m => negb (m <? class c) end.
Proof.
  unfold last_class, blocked. destruct last as [m|]; [|by intros ->]. intros [Hall (b & Hb & Em)]. rewrite Forall_forall in Hall. apply eq_true_iff_eq.
  rewrite existsb_exists, negb_true_iff, N.ltb_ge. split.
  - intros (x & Hx & Hle%N.leb_le). apply list_elem_of_In, list_elem_of_fmap in Hx as (d & -> & Hd). specialize (Hall _ Hd). lia.
  - intros Hle. exists (char b). split; [apply list_elem_of_In, list_elem_of_fmap; by exists b|]. apply N.leb_le. lia.
Qed.
Lemma composition_step before s st c : st.(composee) = Some s → shaped before st →
  compose_step (composed before st) (char c) = match composition st.(last_combining_class) s c with
    | Some p => before ++ (char <$> unread st) ++ p :: (char <$> st.(composition_pending)) | None => composed before st ++ [char c] end.
Proof.
  intros Es [_ Hs]. rewrite Es in Hs. destruct Hs as (Hs & Hp & Hl). unfold compose_step, composed, open_characters. rewrite Es, fmap_cons, app_assoc.
  rewrite split_starter_at by done. rewrite (blocked_last _ _ _ Hl). unfold composition.
  destruct (last_combining_class st) as [m|]; [destruct (m <? class (char c)); cbn [negb]|]; [|done|].
  - destruct (compose (char s) (char c)); [by rewrite <- app_assoc|done].
  - destruct (compose (char s) (char c)); [by rewrite <- app_assoc|done].
Qed.
Lemma unread_push st st' l : st.(output_offset) <= lenN st.(output) → st'.(output_offset) = st.(output_offset) → st'.(output) = st.(output) ++ l →
  unread st' = unread st ++ l ∧ st'.(output_offset) <= lenN st'.(output).
Proof.
  intros Ho Eo El. unfold unread. rewrite Eo, El. split; [|rewrite lenN_app; lia]. apply drop_app_le. unfold lenN in Ho. lia.
Qed.
Lemma last_class_push last pending c : last_class last pending → Forall (λ b, class (char b) <= class (char c)) pending →
  last_class (Some (class (char c))) (pending ++ [c]).
Proof.
  intros _ Hle. split; [apply Forall_app; split; [exact Hle|by constructor]|]. exists c. split; [|done]. apply elem_of_app. right. by apply list_elem_of_singleton.
Qed.
(** What one step keeps and does. *)
Definition stepped (past : list N) (st : MappedNfkc.t) (c : MappedCharacter.t) (st' : MappedNfkc.t) : Prop :=
  shaped past st' ∧ composed past st' = compose_step (composed past st) (char c) ∧ same_input st st'
  ∧ (spans_ok st → span_ok c.(MappedCharacter.span) → spans_ok st')
  ∧ Forall (λ b, b ∈ st.(composition_pending) ∨ b = c) st'.(composition_pending)
  ∧ (nonstarter (char c) = false → st'.(composition_pending) = [] ∧ st'.(last_combining_class) = None).
Lemma composed_nonstarters past st c : st.(composee) = None → shaped past st → compose_step (composed past st) c = composed past st ++ [c].
Proof.
  intros E [_ Hs]. rewrite E in Hs. destruct Hs as (_ & _ & Hall). unfold compose_step, composed, open_characters. rewrite E. cbn [fmap list_fmap].
  rewrite app_nil_r. by rewrite split_starter_none.
Qed.
Lemma step_first past st c : st.(composee) = None → shaped past st → stepped past st c (push_recomposition st c).
Proof.
  intros E Hsh. pose proof (composed_nonstarters past st (char c) E Hsh) as Ec. pose proof Hsh as [Ho Hs]. rewrite E in Hs. destruct Hs as (Ep & El & Hall).
  unfold push_recomposition. rewrite E. destruct (N.eqb_spec (class (char c)) 0) as [E0|E0].
  - split; [split; [done|]; cbn [composee composition_pending last_combining_class with_composition]; rewrite Ep, El; split; [by apply starter_class|]; split; [constructor|reflexivity]|].
    split; [rewrite Ec; unfold composed, open_characters; rewrite E; cbn; by rewrite Ep, app_assoc, app_nil_r|].
    split; [by unfold same_input|]. split; [|split; [cbn; rewrite Ep; constructor|by intros _]].
    intros (H1 & _ & H3 & H4) Hc. split_and!; [exact H1|by intros ? [= <-]|exact H3|exact H4].
  - destruct (unread_push st (with_composition st None (composition_pending st) (last_combining_class st) (output st ++ [c])) [c] Ho eq_refl eq_refl) as [Eu Ho'].
    split; [split; [exact Ho'|]; cbn [composee composition_pending last_combining_class with_composition]; split; [done|]; split; [done|]|].
    + rewrite Eu, fmap_app, app_assoc. apply Forall_app. split; [exact Hall|]. constructor; [by apply nonstarter_class|constructor].
    + split; [rewrite Ec; unfold composed, open_characters; rewrite Eu, E; cbn; by rewrite fmap_app, !app_nil_r, app_assoc|].
      split; [by unfold same_input|]. split; [|split; [cbn; rewrite Ep; constructor|by intros E1%starter_class]].
      intros (H1 & _ & H3 & H4) Hc. split_and!; [by apply ok_snoc|done|exact H3|exact H4].
Qed.
Lemma step_composed past st s c p : st.(composee) = Some s → shaped past st → composition st.(last_combining_class) s c = Some p →
  stepped past st c (push_recomposition st c).
Proof.
  intros E Hsh Hc. pose proof (composition_step past s st c E Hsh) as Ec. rewrite Hc in Ec. pose proof Hsh as [Ho Hs]. rewrite E in Hs. destruct Hs as (Hs & Hp & Hl).
  unfold push_recomposition. rewrite E, Hc. assert (class p = 0) as Hp0.
  { unfold composition in Hc. destruct (last_combining_class st) as [m|]; [destruct (m <? _); [|done]|]; by eapply composite_starter. }
  split; [split; [done|]; cbn; split; [by apply starter_class|]; by split|]. split; [by rewrite Ec|]. split; [by unfold same_input|]. split; [|split].
  - intros (H1 & H2 & H3 & H4) Hcs. split_and!; [exact H1|intros ? [= <-]; apply Hmerge; [by apply H2|exact Hcs]|exact H3|exact H4].
  - cbn. apply Forall_forall. auto.
  - intros E0%starter_class. cbn. unfold composition in Hc. destruct (last_combining_class st) as [m|]; [|by split].
    destruct (N.ltb_spec m (class (char c))) as [Hlt|]; [|done]. lia.
Qed.
Lemma step_kept past st s c : st.(composee) = Some s → shaped past st → composition st.(last_combining_class) s c = None →
  (nonstarter (char c) = true → Forall (λ b, class (char b) <= class (char c)) st.(composition_pending)) → stepped past st c (push_recomposition st c).
Proof.
  intros E Hsh Hc Hord. pose proof (composition_step past s st c E Hsh) as Ec. rewrite Hc in Ec. pose proof Hsh as [Ho Hs]. rewrite E in Hs. destruct Hs as (Hs & Hp & Hl).
  unfold push_recomposition. rewrite E, Hc. destruct (N.eqb_spec (class (char c)) 0) as [E0|E0].
  - destruct (unread_push st (with_composition st (Some c) [] None (output st ++ [s] ++ composition_pending st)) ([s] ++ composition_pending st) Ho eq_refl eq_refl) as [Eu Ho'].
    split; [split; [exact Ho'|]; cbn; split; [by apply starter_class|]; split; [constructor|reflexivity]|]. split.
    { rewrite Ec. unfold composed, open_characters. rewrite Eu, E. cbn. rewrite !fmap_app. cbn. by rewrite <- !app_assoc. }
    split; [by unfold same_input|]. split; [|split; [cbn; constructor|by intros _]].
    intros (H1 & H2 & H3 & H4) Hcs. split_and!; [|by intros ? [= <-]|constructor|exact H4].
    apply Forall_app. split; [exact H1|]. constructor; [by apply H2|exact H3].
  - assert (nonstarter (char c) = true) as Hn by by apply nonstarter_class.
    split; [split; [done|]; cbn; split; [done|]; split; [rewrite fmap_app; apply Forall_app; split; [done|]; by repeat constructor|by eapply last_class_push, Hord]|].
    split; [rewrite Ec; unfold composed, open_characters; rewrite E; cbn; by rewrite fmap_app, !app_comm_cons, <- !app_assoc|].
    split; [by unfold same_input|]. split; [|split].
    + intros (H1 & H2 & H3 & H4) Hcs. split_and!; [exact H1|intros ? [= <-]; by apply H2|by apply ok_snoc|exact H4].
    + cbn. apply Forall_app. split; [apply Forall_forall; auto|]. constructor; [by right|constructor].
    + intros E1%starter_class. done.
Qed.
(** A character pushed in canonical order is one step of the definition. *)
Lemma push_recomposition_step past st c : shaped past st →
  (nonstarter (char c) = true → Forall (λ b, class (char b) <= class (char c)) st.(composition_pending)) → stepped past st c (push_recomposition st c).
Proof.
  intros Hsh Hord. destruct (composee st) as [s|] eqn:E; [|by apply step_first].
  destruct (composition (last_combining_class st) s c) as [p|] eqn:Hc; [by eapply step_composed|by eapply step_kept].
Qed.

(** ** Decomposition *)
Abbreviation composition_of l := (foldl compose_step [] (reorder l)).
Lemma push_sorted past l : ∀ st, shaped past st → StronglySorted (λ a b, class (char a) <= class (char b)) l → all_nonstarters (char <$> l) →
  Forall (λ b, Forall (λ c, class (char b) <= class (char c)) l) st.(composition_pending) →
  let st' := foldl push_recomposition st l in
  shaped past st' ∧ composed past st' = foldl compose_step (composed past st) (char <$> l) ∧ same_input st st' ∧ (spans_ok st → ok l → spans_ok st').
Proof.
  induction l as [|c l IH]; intros st Hsh Hs Hn Hp; [split; [done|]; split; [done|]; by split|]. apply StronglySorted_inv in Hs as [Hs Hc].
  rewrite fmap_cons in Hn. apply Forall_cons in Hn as [Hcn Hn]. destruct (push_recomposition_step past st c Hsh) as (H1 & H2 & H3 & H4 & H5 & _).
  { intros _. eapply Forall_impl; [exact Hp|]. intros b Hb. by apply Forall_cons in Hb as [? _]. }
  cbn [foldl]. destruct (IH (push_recomposition st c) H1 Hs Hn) as (I1 & I2 & I3 & I4).
  { eapply Forall_impl; [exact H5|]. intros b [Hb| ->]; [|exact Hc]. rewrite Forall_forall in Hp. specialize (Hp b Hb). by apply Forall_cons in Hp as [_ ?]. }
  split; [exact I1|]. split; [by rewrite I2, H2, fmap_cons|]. split; [by eapply same_input_trans|].
  intros Hok Hl. apply Forall_cons in Hl as [Hl1 Hl2]. auto.
Qed.
Definition calm (st : MappedNfkc.t) : Prop := st.(composition_pending) = [] ∧ st.(last_combining_class) = None.
Definition run (st : MappedNfkc.t) : list N := char <$> (snd <$> st.(decomposition_pending)).
Definition cut (before : list N) : Prop := before = [] ∨ ∃ b s, before = b ++ [s] ∧ nonstarter s = false.
(** The state after [decomposed] was pushed: the last run is pending, the rest is composed. *)
Definition pushed (past : list N) (st : MappedNfkc.t) (decomposed : list N) : Prop :=
  shaped past st ∧ calm st ∧ Forall (λ e, e.1 = class (char e.2) ∧ e.1 ≠ 0) st.(decomposition_pending) ∧ spans_ok st
  ∧ ∃ before, decomposed = before ++ run st ∧ cut before ∧ composed past st = composition_of before.
Lemma reorder_cut before l : cut before → reorder (before ++ l) = reorder before ++ reorder l.
Proof.
  intros [->|(b & s & -> & Hs)]; [done|]. rewrite <- app_assoc. cbn [app]. rewrite !reorder_starter by done. cbn [reorder]. by rewrite <- app_assoc.
Qed.
Lemma run_nonstarters st : Forall (λ e, e.1 = class (char e.2) ∧ e.1 ≠ 0) st.(decomposition_pending) → all_nonstarters (run st).
Proof. intros Hp. unfold run, all_nonstarters. rewrite !Forall_fmap. eapply Forall_impl; [exact Hp|]. intros e [E Hn]. apply nonstarter_class. cbn. by rewrite <- E. Qed.
Lemma sorted_run st : Forall (λ e, e.1 = class (char e.2) ∧ e.1 ≠ 0) st.(decomposition_pending) →
  let l := snd <$> sort_by_key fst st.(decomposition_pending) in
  char <$> l = sort_by_key class (run st) ∧ StronglySorted (λ a b, class (char a) <= class (char b)) l
  ∧ ∀ c, c ∈ l ↔ c ∈ snd <$> st.(decomposition_pending).
Proof.
  intros Hp l. split; [|split].
  - unfold l, run. rewrite <- !list_fmap_compose. assert (∀ m : list (N * MappedCharacter.t), Forall (λ e, e.1 = class (char e.2) ∧ e.1 ≠ 0) m → sort_by_key fst m = sort_by_key (λ e, class (char e.2)) m) as ->; [|by apply sort_key_fmap|exact Hp].
    induction 1 as [|e m [Ee _] Hm IH]; [done|]. cbn [sort_by_key foldr] in *. unfold sort_by_key in IH. rewrite IH. clear IH.
    assert (Forall (λ e : N * MappedCharacter.t, e.1 = class (char e.2)) (foldr (insert_key (λ e : N * MappedCharacter.t, class (char e.2))) [] m)) as Hs.
    { apply Forall_forall. intros x Hx. apply (proj1 (sort_key_elem (λ e : N * MappedCharacter.t, class (char e.2)) m x)) in Hx. rewrite Forall_forall in Hm. exact (proj1 (Hm x Hx)). }
    induction Hs as [|x k Hx _ IH]; [done|]. cbn [insert_key]. rewrite Ee, Hx. destruct (_ <=? _); [done|]. by rewrite IH.
  - assert (Forall (λ e, e.1 = class (char e.2)) (sort_by_key fst (decomposition_pending st))) as Hall.
    { apply Forall_forall. intros e He%sort_key_elem. rewrite Forall_forall in Hp. exact (proj1 (Hp e He)). }
    unfold l. pose proof (sort_key_sorted fst (decomposition_pending st)) as Hs. induction Hs as [|e k _ IH He]; [constructor|].
    apply Forall_cons in Hall as [Ee Hall]. rewrite fmap_cons. constructor; [by apply IH|]. apply Forall_fmap, Forall_forall. intros x Hx. cbn.
    rewrite Forall_forall in He, Hall. rewrite <- Ee, <- (Hall x Hx). by apply He.
  - intros c. unfold l. rewrite !list_elem_of_fmap. by setoid_rewrite sort_key_elem.
Qed.
Lemma flush_pushed past st decomposed : pushed past st decomposed → let st' := flush_decomposition st in
  shaped past st' ∧ composed past st' = composition_of decomposed ∧ same_input (with_pending st []) st' ∧ spans_ok st'.
Proof.
  intros (Hsh & [Hcp Hlast] & Hp & Hok & before & -> & Hcut & Ec). unfold flush_decomposition. cbv zeta.
  destruct (sorted_run st Hp) as (El & Hs & Hin). set (l := snd <$> sort_by_key fst (decomposition_pending st)) in *.
  pose proof (run_nonstarters st Hp) as Hn. destruct (push_sorted past l (with_pending st [])) as (I1 & I2 & I3 & I4); [exact Hsh|exact Hs|rewrite El; by apply sort_nonstarters| |].
  { cbn. rewrite Hcp. constructor. }
  split; [exact I1|]. split; [|split; [exact I3|apply I4]].
  - rewrite I2, El. change (composed past (with_pending st [])) with (composed past st). rewrite Ec, reorder_cut by done.
    rewrite <- (app_nil_r (run st)) at 2. rewrite reorder_run by done. cbn [reorder]. by rewrite app_nil_r, foldl_app.
  - destruct Hok as (K1 & K2 & K3 & _). split; [exact K1|]. split; [exact K2|]. split; [exact K3|]. constructor.
  - destruct Hok as (_ & _ & _ & K4). apply Forall_forall. intros c Hc%Hin. unfold ok in K4. rewrite Forall_forall in K4. by apply K4.
Qed.
Definition same_place (st st' : MappedNfkc.t) : Prop :=
  st'.(MappedNfkc.source) = st.(MappedNfkc.source) ∧ st'.(nonstarter_count) = st.(nonstarter_count) ∧ st'.(finished) = st.(finished).
Lemma push_decomposed_pushed past st decomposed c : pushed past st decomposed → span_ok c.(MappedCharacter.span) →
  let st' := push_decomposed st c in pushed past st' (decomposed ++ [char c]) ∧ same_place st st'.
Proof.
  intros Hpu Hc. unfold push_decomposed. cbv zeta. destruct (N.eqb_spec (class (char c)) 0) as [E0|E0].
  - destruct (flush_pushed past st decomposed Hpu) as (F1 & F2 & (F3 & F4 & F5 & F6 & F7) & F8).
    destruct (push_recomposition_step past (flush_decomposition st) c F1) as (S1 & S2 & (S3 & S4 & S5 & S6 & S7) & S8 & _ & S9); [by intros Hn%nonstarter_class|].
    apply starter_class in E0. split; [|split; [by rewrite S3, F3|split; [by rewrite S5, F5|by rewrite S7, F7]]].
    split; [exact S1|]. split; [by apply S9|]. split; [rewrite S4, F4; constructor|]. split; [by apply S8|].
    exists (decomposed ++ [char c]). unfold run. rewrite S4, F4. cbn [decomposition_pending with_pending fmap list_fmap]. split; [by rewrite app_nil_r|].
    split; [right; by exists decomposed, (char c)|]. rewrite S2, F2, reorder_starter by done. cbn [reorder]. by rewrite foldl_app.
  - destruct Hpu as (Hsh & Hcalm & Hp & (K1 & K2 & K3 & K4) & before & -> & Hcut & Ec). split; [|done].
    split; [exact Hsh|]. split; [exact Hcalm|]. split; [apply Forall_app; split; [exact Hp|by apply Forall_singleton]|].
    split; [split; [exact K1|split; [exact K2|split; [exact K3|cbn; rewrite fmap_app; by apply ok_snoc]]]|].
    exists before. unfold run in *. cbn. rewrite !fmap_app, app_assoc. by split.
Qed.
Lemma push_all_pushed past l : ∀ st decomposed, pushed past st decomposed → ok l →
  let st' := foldl push_decomposed st l in pushed past st' (decomposed ++ (char <$> l)) ∧ same_place st st'.
Proof.
  induction l as [|c l IH]; intros st decomposed Hpu Hl; [rewrite app_nil_r; by split|]. apply Forall_cons in Hl as [Hc Hl].
  destruct (push_decomposed_pushed past st decomposed c Hpu Hc) as [Hpu' (E1 & E2 & E3)]. cbn [foldl].
  destruct (IH _ _ Hpu' Hl) as [H1 (E4 & E5 & E6)]. rewrite <- app_assoc in H1. split; [exact H1|]. unfold same_place. by rewrite E4, E5, E6.
Qed.
(** What a source character adds. *)
Definition safe_decomposition (count c : N) : list N :=
  (if MAX_NONSTARTERS <? count + count_while nonstarter (decompose_compatible c) then [COMBINING_GRAPHEME_JOINER] else []) ++ decompose_compatible c.
Definition safe_count (count c : N) : N :=
  next_count (if MAX_NONSTARTERS <? count + count_while nonstarter (decompose_compatible c) then 0 else count) (decompose_compatible c).
Lemma stream_safe_cons count c l :
  stream_safe count (c :: l) ≫= decompose_compatible = safe_decomposition count c ++ (stream_safe (safe_count count c) l ≫= decompose_compatible).
Proof.
  cbn [stream_safe]. unfold safe_decomposition, safe_count. destruct (MAX_NONSTARTERS <? _); cbn [app]; rewrite !bind_cons; [|done].
  by rewrite joiner_decomposition.
Qed.
Lemma push_source_pushed past st decomposed start c : pushed past st decomposed → span_ok (SourceSpan.mk start (start + len_utf8 c)) →
  let st' := push_source st start c in pushed past st' (decomposed ++ safe_decomposition st.(nonstarter_count) c)
    ∧ st'.(MappedNfkc.source) = st.(MappedNfkc.source) ∧ st'.(finished) = st.(finished) ∧ st'.(nonstarter_count) = safe_count st.(nonstarter_count) c.
Proof.
  intros Hpu Hs. unfold push_source, safe_decomposition, safe_count. cbv zeta. set (span := SourceSpan.mk start (start + len_utf8 c)) in *.
  assert (∀ l : list N, ok ((λ x, MappedCharacter.mk x span) <$> l) ∧ char <$> ((λ x, MappedCharacter.mk x span) <$> l) = l) as Hl.
  { intros l. split; [by apply Forall_fmap, Forall_forall|]. rewrite <- list_fmap_compose. apply list_fmap_id. }
  destruct (Hl (decompose_compatible c)) as [Hok El]. destruct (MAX_NONSTARTERS <? _).
  - destruct (push_decomposed_pushed past st decomposed (MappedCharacter.mk COMBINING_GRAPHEME_JOINER span) Hpu Hs) as [Hpu' (E1 & E2 & E3)].
    destruct (push_all_pushed past ((λ x, MappedCharacter.mk x span) <$> decompose_compatible c)
      (with_nonstarters (with_nonstarters (push_decomposed st (MappedCharacter.mk COMBINING_GRAPHEME_JOINER span)) 0) (next_count 0 (decompose_compatible c))) _ Hpu' Hok) as [H1 (E4 & E5 & E6)].
    rewrite El, <- app_assoc in H1. split; [exact H1|]. split_and!; [exact (eq_trans E4 E1)|exact (eq_trans E6 E3)|exact E5].
  - destruct (push_all_pushed past ((λ x, MappedCharacter.mk x span) <$> decompose_compatible c)
      (with_nonstarters st (next_count st.(nonstarter_count) (decompose_compatible c))) _ Hpu Hok) as [H1 (E4 & E5 & E6)].
    rewrite El in H1. split; [exact H1|]. split_and!; [exact E4|exact E6|exact E5].
Qed.
(** ** Reading *)
Lemma finish_pushed past st decomposed : pushed past st decomposed → let st' := finish st in
  past ++ (char <$> unread st') = composition_of decomposed ∧ ok st'.(output) ∧ st'.(finished) = true ∧ st'.(MappedNfkc.source) = st.(MappedNfkc.source).
Proof.
  intros Hpu. destruct (flush_pushed past st decomposed Hpu) as ([Ho Hs] & Ec & (E1 & _ & _ & E4 & _) & (K1 & K2 & K3 & _)).
  unfold finish. cbv zeta. set (st1 := flush_decomposition st) in *. rewrite <- Ec. unfold composed, open_characters.
  assert (∀ l, unread (with_output (with_composition st1 None [] st1.(last_combining_class) (st1.(output) ++ l)) (st1.(output) ++ l) st1.(output_offset) true) = unread st1 ++ l) as Eu.
  { intros l. unfold unread. cbn. apply drop_app_le. unfold lenN in Ho. lia. }
  destruct (composee st1) as [s|].
  - rewrite <- app_assoc, Eu, fmap_app. split_and!; [done| |done|exact E1]. cbn. apply Forall_app. split; [exact K1|]. constructor; [by apply K2|exact K3].
  - destruct Hs as (-> & _ & _). rewrite Eu, app_nil_r. split_and!; [by rewrite app_nil_r| |done|exact E1]. cbn. by rewrite app_nil_r.
Qed.
(** After [past] was read out of [total]. *)
Definition reading (past total : list N) (st : MappedNfkc.t) : Prop :=
  if st.(finished) then past ++ (char <$> unread st) = composition_of total ∧ ok st.(output)
  else ∃ decomposed, pushed past st decomposed
    ∧ total = decomposed ++ (stream_safe st.(nonstarter_count) (snd <$> st.(MappedNfkc.source)) ≫= decompose_compatible)
    ∧ Forall (λ e, span_ok (SourceSpan.mk e.1 (e.1 + len_utf8 e.2))) st.(MappedNfkc.source).
Lemma emit_reading past total st c st' : reading past total st → emit st = Some (c, st') →
  reading (past ++ [char c]) total st' ∧ span_ok c.(MappedCharacter.span) ∧ unread st = c :: unread st'
  ∧ st'.(MappedNfkc.source) = st.(MappedNfkc.source) ∧ st'.(finished) = st.(finished).
Proof.
  unfold emit, reading. intros Hr. destruct (output st !! _) as [d|] eqn:E; [|done]. intros [= -> <-].
  set (st' := with_output st (output st) (output_offset st + 1) (finished st)).
  assert (unread st = c :: unread st') as Eu.
  { unfold unread. cbn. rewrite (drop_S _ _ _ E). do 2 f_equal. lia. }
  assert (∀ rest, (past ++ [char c]) ++ (char <$> unread st') ++ rest = past ++ (char <$> unread st) ++ rest) as Ea by (intros rest; by rewrite Eu, <- app_assoc).
  assert (ok (output st) → span_ok c.(MappedCharacter.span)) as Hok.
  { intros Hall. unfold ok in Hall. rewrite Forall_forall in Hall. apply Hall. by eapply list_elem_of_lookup_2. }
  cbn [finished st' with_output]. destruct (finished st).
  - destruct Hr as [<- Hout]. split_and!; [|exact Hout|by apply Hok|exact Eu|done|done]. specialize (Ea []). rewrite !app_nil_r in Ea. exact Ea.
  - destruct Hr as (decomposed & ([Ho Hs] & Hcalm & Hp & Hk & before & -> & Hcut & Ec) & -> & Hsrc).
    split_and!; [|apply Hok, Hk|exact Eu|done|done]. exists (before ++ run st). split; [|by split]. split; [|split; [exact Hcalm|split; [exact Hp|split; [exact Hk|]]]].
    + split; [cbn; apply lookup_lt_Some in E; unfold lenN; lia|]. cbn [composee st' with_output]. destruct (composee st); [exact Hs|].
      destruct Hs as (H1 & H2 & H3). split_and!; [exact H1|exact H2|]. specialize (Ea []). rewrite !app_nil_r in Ea. by rewrite Ea.
    + exists before. split; [done|]. split; [done|]. rewrite <- Ec. exact (Ea _).
Qed.
Lemma emit_none st : emit st = None → unread st = [].
Proof. unfold emit, unread. destruct (output st !! _) eqn:E; [done|]. intros _. by apply drop_ge, lookup_ge_None. Qed.
Lemma cleared_reading past total st : reading past total st → unread st = [] → reading past total (cleared st).
Proof.
  unfold reading, cleared. cbn [finished with_output]. intros Hr Eu. destruct (finished st).
  - destruct Hr as [E _]. rewrite Eu in E. split; [exact E|constructor].
  - destruct Hr as (decomposed & ([Ho Hs] & Hcalm & Hp & (_ & K2 & K3 & K4) & before & E & Hcut & Ec) & Ht & Hsrc).
    exists decomposed. split; [|by split]. split; [|split; [exact Hcalm|split; [exact Hp|split; [by split; [constructor|]|]]]].
    + split; [done|]. rewrite Eu in Hs. exact Hs.
    + exists before. split; [exact E|]. split; [done|]. rewrite <- Ec. unfold composed. by rewrite Eu.
Qed.
(** What is left to do. *)
Definition phase (st : MappedNfkc.t) : nat := (length st.(MappedNfkc.source) + if st.(finished) then 0 else 1)%nat.
Definition advanced (st st' : MappedNfkc.t) : Prop := (phase st' < phase st)%nat ∨ phase st' = phase st ∧ (length (unread st') < length (unread st))%nat.
Lemma source_reading past total st start c source : reading past total st → st.(finished) = false → st.(MappedNfkc.source) = (start, c) :: source →
  let st' := push_source (with_source st source) start c in reading past total st' ∧ st'.(MappedNfkc.source) = source ∧ st'.(finished) = false.
Proof.
  unfold reading at 1. intros Hr Ef Es. rewrite Ef, Es in Hr. destruct Hr as (decomposed & Hpu & -> & [Hsp Hsrc]%Forall_cons). cbn [fst snd] in Hsp.
  destruct (push_source_pushed past (with_source st source) decomposed start c Hpu Hsp) as (H1 & H2 & H3 & H4).
  split_and!; [|exact H2|exact (eq_trans H3 Ef)]. unfold reading. rewrite (eq_trans H3 Ef). eexists. split; [exact H1|]. rewrite H2, H4. split; [|exact Hsrc].
  rewrite fmap_cons, stream_safe_cons, app_assoc. done.
Qed.
Lemma next_loop_reading source : ∀ past total st, reading past total st → st.(MappedNfkc.source) = source →
  match next_loop source st with
  | (Some c, st') => reading (past ++ [char c]) total st' ∧ span_ok c.(MappedCharacter.span) ∧ advanced st st'
  | (None, _) => past = composition_of total
  end.
Proof.
  induction source as [|[start c] source IH]; intros past total st Hr Es; cbn [next_loop]; (destruct (emit st) as [[d st']|] eqn:Ee;
    [destruct (emit_reading _ _ _ _ _ Hr Ee) as (H1 & H2 & H3 & H4 & H5); split_and!; [exact H1|exact H2|right; unfold phase; rewrite H3, H4, H5; cbn; lia]|]);
    apply emit_none in Ee; pose proof (cleared_reading _ _ _ Hr Ee) as Hc; cbn [finished cleared with_output];
    (destruct (finished st) eqn:Ef; [unfold reading in Hr; rewrite Ef, Ee in Hr; destruct Hr as [<- _]; by rewrite app_nil_r|]).
  - unfold reading in Hc. cbn [finished cleared with_output] in Hc. rewrite Ef in Hc. destruct Hc as (decomposed & Hpu & -> & _).
    destruct (finish_pushed _ _ _ Hpu) as (F1 & F2 & F3 & F4). cbn [MappedNfkc.source cleared with_output]. rewrite Es in *. cbn [fmap list_fmap stream_safe mbind list_bind]. rewrite app_nil_r.
    assert (reading past decomposed (finish (cleared st))) as Hf by (unfold reading; rewrite F3; by split).
    destruct (emit (finish (cleared st))) as [[d st']|] eqn:E2.
    + destruct (emit_reading _ _ _ _ _ Hf E2) as (H1 & H2 & H3 & H4 & H5). split_and!; [exact H1|exact H2|]. left. unfold phase. rewrite H4, H5, F3, F4, Ef. cbn. lia.
    + apply emit_none in E2. rewrite E2 in F1. by rewrite <- F1, app_nil_r.
  - destruct (source_reading past total (cleared st) start c source Hc Ef Es) as (H1 & H2 & H3). specialize (IH past total _ H1 H2).
    destruct (next_loop source _) as [[d|] st']; [|exact IH]. destruct IH as (I1 & I2 & I3). split_and!; [exact I1|exact I2|]. left.
    unfold advanced in I3. unfold phase in *. rewrite H2, H3 in I3. rewrite Es, Ef. cbn. destruct (finished st'); lia.
Qed.
(** The characters read are those of the definition, and their spans are kept. *)
Lemma normalized_yields total : ∀ n m st past, phase st = n → length (unread st) = m → reading past total st →
  ∃ l, Yields (MappedCharacters.Normalized st) l ∧ past ++ (char <$> l) = composition_of total ∧ ok l.
Proof.
  intros n. induction (lt_wf n) as [n _ IHn]. intros m. induction (lt_wf m) as [m _ IHm]. intros st past En Em Hr.
  pose proof (next_loop_reading _ past total st Hr eq_refl) as Hn. destruct (next_loop st.(MappedNfkc.source) st) as [[c|] st'] eqn:E.
  - destruct Hn as (H1 & H2 & H3). assert (∃ l, Yields (MappedCharacters.Normalized st') l ∧ (past ++ [char c]) ++ (char <$> l) = composition_of total ∧ ok l) as (l & Hy & El & Hl).
    { destruct H3 as [Hlt|[Ep Hlt]]; [eapply IHn; [|reflexivity|reflexivity|exact H1]; lia|eapply IHm; [|congruence|reflexivity|exact H1]; lia]. }
    exists (c :: l). split; [|split]; [|by rewrite <- El, <- app_assoc|by constructor].
    eapply Yields_next; [|exact Hy]. cbn [mapped_next]. unfold next. by rewrite E.
  - exists []. split; [|split]; [|by rewrite app_nil_r|constructor]. eapply Yields_end. cbn [mapped_next]. unfold next. by rewrite E.
Qed.
Lemma new_yields text : Forall (λ e, span_ok (SourceSpan.mk e.1 (e.1 + len_utf8 e.2))) (char_indices text) →
  ∃ l, Yields (MappedCharacters.Normalized (MappedNfkc.new text)) l ∧ (char <$> l) = nfkc (stream_safe 0 (snd <$> char_indices text)) ∧ ok l.
Proof.
  intros Hs. apply (normalized_yields _ _ _ _ [] eq_refl eq_refl). unfold reading. cbn [finished MappedNfkc.new]. exists []. split; [|by split].
  split; [split; [done|by split; [|split; [|constructor]]]|]. split; [done|]. split; [constructor|]. split; [split; [constructor|split; [done|split; constructor]]|].
  exists []. split; [done|]. split; [by left|done].
Qed.
End Simulation.

(** ** Reading a text as it stands *)
Section Unchanged.
Context `{TablesLaws}.
Lemma count_while_snoc (p : N → bool) d c : count_while p (d ++ [c]) = if forallb p d then lenN d + (if p c then 1 else 0) else count_while p d.
Proof.
  induction d as [|x d IH]; cbn [app count_while forallb]; [by destruct (p c)|]. destruct (p x); [|done]. rewrite IH, lenN_cons. cbn [andb]. destruct (forallb p d); [lia|done].
Qed.
Lemma count_while_all (p : N → bool) d : forallb p d = true → count_while p d = lenN d.
Proof. induction d as [|x d IH]; [done|]. cbn [forallb count_while]. rewrite lenN_cons. intros [-> Hd]%andb_true_iff. by rewrite IH. Qed.
Lemma count_loop d : foldl count_step (0, 0, 0, false) d = (lenN d, count_while nonstarter d, count_while nonstarter (rev d), negb (forallb nonstarter d)).
Proof.
  induction d as [|c d IH] using rev_ind; [done|]. rewrite foldl_app, IH, rev_app_distr, count_while_snoc, forallb_app, lenN_app.
  cbn [foldl count_step rev app count_while forallb]. change (lenN [c]) with 1.
  assert (nonstarter c = negb (canonical_combining_class c =? 0)) as -> by done.
  destruct (canonical_combining_class c =? 0); cbn [negb]; destruct (forallb nonstarter d) eqn:E; cbn [negb andb];
    rewrite ?(count_while_all nonstarter d E), ?N.add_0_r, 1?(N.add_comm 1); done.
Qed.
(** No boundary is missing in a text that passes the check. *)
Lemma stream_safe_kept l : ∀ count, stream_safe_loop count l = true → stream_safe count l = l.
Proof.
  induction l as [|c l IH]; intros count; [done|]. cbn [stream_safe_loop stream_safe]. rewrite count_loop.
  destruct (MAX_NONSTARTERS <? _); [done|]. intros Hl. by rewrite (IH (next_count count (decompose_compatible c)) Hl).
Qed.
Definition is_plain (c : N) : bool := c <? 128.
Lemma stream_safe_plain l : forallb is_plain l = true → stream_safe 0 l = l.
Proof.
  induction l as [|c l IH]; [done|]. cbn [forallb stream_safe]. intros [Hc%N.ltb_lt Hl]%andb_true_iff. destruct (ascii_starter c Hc) as [E0 ->].
  assert (nonstarter c = false) as Ec by (unfold nonstarter; by rewrite E0). unfold next_count. cbn [rev app count_while]. rewrite Ec. change (c :: stream_safe 0 l = c :: l). by rewrite IH.
Qed.
Lemma nfkc_plain l : forallb is_plain l = true → nfkc l = l.
Proof.
  intros Hl. unfold nfkc. assert (Forall (λ c, c < 128) l) as Hall.
  { apply Forall_forall. intros c Hc. rewrite forallb_forall in Hl. apply N.ltb_lt. by apply Hl, list_elem_of_In. }
  assert (l ≫= decompose_compatible = l) as ->.
  { clear Hl. induction Hall as [|c l Hc _ IH]; [done|]. rewrite bind_cons, IH. by destruct (ascii_starter c Hc) as [_ ->]. }
  assert (reorder l = l) as ->.
  { clear Hl. induction Hall as [|c l Hc _ IH]; [done|]. cbn [reorder]. rewrite IH. unfold nonstarter. by destruct (ascii_starter c Hc) as [-> _]. }
  assert (∀ done, Forall (λ c, c < 128) done → foldl compose_step done l = done ++ l) as Hf; [|by apply (Hf [])].
  clear Hl. induction Hall as [|c l Hc _ IH]; intros past Hp; [by rewrite app_nil_r|]. cbn [foldl].
  assert (compose_step past c = past ++ [c]) as ->; [|rewrite IH; [by rewrite <- app_assoc|by apply Forall_app; split; [|constructor]]].
  unfold compose_step. destruct (split_starter past) as [[[before s] after]|] eqn:E; [|done].
  assert (s ∈ past) as Hs.
  { clear -E. revert before s after E. induction past as [|x past IH]; intros before s after; cbn [split_starter]; [done|].
    destruct (split_starter past) as [[[b s'] a]|]; [intros [= <- <- <-]; right; by eapply IH|]. destruct (nonstarter x); [done|]. intros [= <- <- <-]. by left. }
  rewrite Forall_forall in Hp. rewrite ascii_compose by auto. by destruct (blocked after c).
Qed.
Lemma original_yields l : Yields (MappedCharacters.Original l)
  ((λ '(start, character), MappedCharacter.mk character (SourceSpan.mk start (start + len_utf8 character))) <$> l).
Proof.
  induction l as [|[start c] l IH]; [by eapply Yields_end|]. rewrite fmap_cons. by eapply Yields_next.
Qed.
(** A non-empty span between characters. *)
Definition char_boundary (text : bytes) (n : N) : Prop := ∃ p q, chars text = p ++ q ∧ n = sum (len_utf8 <$> p).
Definition char_span (text : bytes) (s : SourceSpan.t) : Prop :=
  char_boundary text s.(SourceSpan.start) ∧ char_boundary text s.(SourceSpan.end_) ∧ s.(SourceSpan.start) < s.(SourceSpan.end_).
Lemma char_span_merge text a b : char_span text a → char_span text b → char_span text (SourceSpan.merge a b).
Proof.
  intros (H1 & H2 & H3) (H4 & H5 & H6). unfold char_span. cbn. split_and!; [| |lia].
  - by destruct (N.min_spec a.(SourceSpan.start) b.(SourceSpan.start)) as [[_ ->]|[_ ->]].
  - by destruct (N.max_spec a.(SourceSpan.end_) b.(SourceSpan.end_)) as [[_ ->]|[_ ->]].
Qed.
Lemma indices_spans text q : ∀ p, chars text = p ++ q →
  Forall (λ e, char_span text (SourceSpan.mk e.1 (e.1 + len_utf8 e.2))) (indices_from (sum (len_utf8 <$> p)) q).
Proof.
  induction q as [|c q IH]; intros p E; [constructor|]. cbn [indices_from]. assert (1 <= len_utf8 c) as Hc by (unfold len_utf8; by repeat case_if).
  assert (sum (len_utf8 <$> p ++ [c]) = sum (len_utf8 <$> p) + len_utf8 c) as Es by (rewrite fmap_app, sum_app; cbn; lia).
  constructor.
  - split_and!; cbn; [by exists p, (c :: q)| |lia]. exists (p ++ [c]), q. by rewrite <- app_assoc.
  - rewrite <- Es. apply IH. by rewrite <- app_assoc.
Qed.
Lemma indices_chars text : snd <$> char_indices text = chars text.
Proof.
  unfold char_indices. generalize 0. induction (chars text) as [|c l IH]; intros n; [done|]. cbn [indices_from]. by rewrite fmap_cons, IH.
Qed.
End Unchanged.
(** C38: The tokenizer reads a text to its end, and the characters it reads are the
    text in NFKC: made stream-safe, decomposed, put in canonical order and composed.
    A text that is ASCII, or normalised and stream-safe, is read as it stands, and
    that is the same text.  Each character covers a non-empty span between
    characters of the source. *)
Theorem token_characters_nfkc `{TablesLaws} text : utf8_valid text = true →
  ∃ l, Yields (token_characters text) l ∧ (MappedCharacter.character <$> l) = nfkc (stream_safe 0 (chars text))
    ∧ Forall (λ c, char_span text c.(MappedCharacter.span)) l.
Proof.
  intros Hv. pose proof (indices_spans text (chars text) [] eq_refl) as Hs. unfold token_characters.
  destruct (is_ascii text || is_stream_safe_nfkc text) eqn:E.
  - exists (original_characters text). split; [apply original_yields|]. split.
    + unfold original_characters. rewrite <- list_fmap_compose. trans (chars text).
      { rewrite <- (indices_chars text). apply list_fmap_ext. by intros _ [start c] _. }
      symmetry. apply orb_true_iff in E as [E|E].
      * assert (forallb is_plain (chars text) = true) as Hp.
        { unfold chars. rewrite (chars_ascii _ E). apply forallb_forall. intros c Hc%list_elem_of_In. apply list_elem_of_fmap in Hc as (b & -> & Hb).
          unfold is_ascii in E. rewrite forallb_forall in E. apply list_elem_of_In in Hb. exact (E b Hb). }
        by rewrite stream_safe_plain, nfkc_plain.
      * unfold is_stream_safe_nfkc in E. destruct (is_nfkc text) eqn:En; [|done]. rewrite (stream_safe_kept _ _ E). by apply is_nfkc_ok.
    + unfold original_characters. apply Forall_fmap. eapply Forall_impl; [exact Hs|]. by intros [start c].
  - destruct (new_yields (char_span text) (char_span_merge text) text Hs) as (l & Hy & El & Hl). exists l. by rewrite <- (indices_chars text).
Qed.

(** ** Buffers *)
Section Buffers.
Context `{TablesLaws}.
(** No character decomposes into more; the longest decomposition has eighteen. *)
Hypothesis Hshort : ∀ c, lenN (decompose_compatible c) <= MAX_NONSTARTERS.
Abbreviation pending := decomposition_pending.
Definition buffered (st : MappedNfkc.t) : Prop := lenN st.(pending) <= st.(nonstarter_count) ∧ st.(nonstarter_count) <= MAX_NONSTARTERS.
Lemma recomposition_pending st c : pending (push_recomposition st c) = pending st ∧ nonstarter_count (push_recomposition st c) = nonstarter_count st.
Proof.
  unfold push_recomposition. destruct (composee st); [|by destruct (_ =? 0)]. destruct (composition _ _ _); [done|]. by destruct (_ =? 0).
Qed.
Lemma flush_pending st : pending (flush_decomposition st) = [] ∧ nonstarter_count (flush_decomposition st) = nonstarter_count st.
Proof.
  unfold flush_decomposition. cbv zeta. generalize (snd <$> sort_by_key fst (pending st)). intros l.
  assert (∀ s, pending (foldl push_recomposition s l) = pending s ∧ nonstarter_count (foldl push_recomposition s l) = nonstarter_count s) as Hl; [|exact (Hl (with_pending st []))].
  induction l as [|c l IH]; intros s; [done|]. cbn [foldl]. destruct (IH (push_recomposition s c)) as [-> ->]. apply recomposition_pending.
Qed.
(** Only what follows the last starter stays in the buffer. *)
Definition grown (waiting : N) (l : list N) : N := foldl (λ waiting c, if nonstarter c then waiting + 1 else 0) waiting l.
Lemma push_pending l : ∀ st, lenN (pending (foldl push_decomposed st l)) = grown (lenN (pending st)) (MappedCharacter.character <$> l)
  ∧ nonstarter_count (foldl push_decomposed st l) = nonstarter_count st.
Proof.
  induction l as [|c l IH]; intros st; [done|]. rewrite fmap_cons. cbn [foldl grown]. destruct (IH (push_decomposed st c)) as [-> ->]. unfold grown, push_decomposed, nonstarter. cbv zeta.
  destruct (canonical_combining_class (MappedCharacter.character c) =? 0) eqn:E; cbn [negb].
  - destruct (recomposition_pending (flush_decomposition st) c) as [-> ->]. by destruct (flush_pending st) as [-> ->].
  - cbn [pending with_pending]. by rewrite lenN_app.
Qed.
Lemma grown_spec waiting d : grown waiting d = if forallb nonstarter d then waiting + lenN d else count_while nonstarter (rev d).
Proof.
  unfold grown. induction d as [|c d IH] using rev_ind; [change (waiting = waiting + 0); lia|]. rewrite foldl_app, forallb_app, rev_app_distr, IH, lenN_app. cbn [foldl forallb rev app count_while].
  change (lenN [c]) with 1. destruct (nonstarter c); [|by destruct (forallb nonstarter d)]. rewrite !andb_true_r. destruct (forallb nonstarter d); lia.
Qed.
Lemma count_while_le (p : N → bool) d : count_while p d <= lenN d.
Proof. induction d as [|c d IH]; [done|]. cbn [count_while]. rewrite lenN_cons. destruct (p c); lia. Qed.
Lemma next_count_spec count d : next_count count d = grown count d.
Proof.
  rewrite grown_spec. unfold next_count. destruct (forallb nonstarter d) eqn:E; [by rewrite count_while_all, N.eqb_refl|].
  destruct (N.eqb_spec (count_while nonstarter d) (lenN d)) as [Ed|]; [|done]. exfalso. revert E Ed.
  induction d as [|c d IH]; [done|]. cbn [forallb count_while]. rewrite lenN_cons. destruct (nonstarter c); [|lia]. cbn [andb]. intros E Ed. apply IH; [exact E|lia].
Qed.
Lemma grown_le a b d : a <= b → grown a d <= grown b d.
Proof. intros Hab. rewrite !grown_spec. destruct (forallb _ _); lia. Qed.
Lemma grown_bound count d : lenN d <= MAX_NONSTARTERS → count + count_while nonstarter d <= MAX_NONSTARTERS → grown count d <= MAX_NONSTARTERS.
Proof.
  intros Hd Hc. rewrite grown_spec. destruct (forallb nonstarter d) eqn:E; [by rewrite (count_while_all nonstarter d E) in Hc|].
  pose proof (count_while_le nonstarter (rev d)) as Hr. unfold lenN in *. rewrite length_rev in Hr. lia.
Qed.
Lemma push_source_buffered st start c : buffered st → buffered (push_source st start c).
Proof.
  intros [H1 H2]. unfold push_source. cbv zeta. set (span := SourceSpan.mk _ _). specialize (Hshort c). set (d := decompose_compatible c) in *.
  match goal with |- buffered (foldl push_decomposed (with_nonstarters ?s _) ?l) => set (st1 := s); set (l1 := l) end.
  assert (buffered st1 ∧ nonstarter_count st1 + count_while nonstarter d <= MAX_NONSTARTERS) as [[H3 H4] H5].
  { unfold st1. destruct (N.ltb_spec MAX_NONSTARTERS (nonstarter_count st + count_while nonstarter d)) as [Hlt|Hle]; [|split; [by split|exact Hle]].
    pose proof (count_while_le nonstarter d). pose proof (push_pending [MappedCharacter.mk COMBINING_GRAPHEME_JOINER span] st) as [Hp _]. cbn [foldl] in Hp.
    unfold buffered. cbn [pending nonstarter_count with_nonstarters]. unfold buffered in *. rewrite Hp. unfold grown. cbn [fmap list_fmap foldl MappedCharacter.character].
    assert (nonstarter COMBINING_GRAPHEME_JOINER = false) as -> by (unfold nonstarter; by rewrite joiner_starter). lia. }
  destruct (push_pending l1 (with_nonstarters st1 (next_count (nonstarter_count st1) d))) as [E1 E2].
  unfold buffered. rewrite E1, E2. cbn [pending nonstarter_count with_nonstarters]. rewrite next_count_spec. unfold l1. rewrite <- list_fmap_compose.
  assert ((MappedCharacter.character ∘ (λ character, MappedCharacter.mk character span)) <$> d = d) as -> by apply list_fmap_id.
  split; [by apply grown_le|by apply grown_bound].
Qed.
Lemma emit_buffered st c st' : buffered st → emit st = Some (c, st') → buffered st'.
Proof. unfold emit. intros Hb. destruct (output st !! _); [|done]. by intros [= <- <-]. Qed.
Lemma next_loop_buffered source : ∀ st, buffered st → buffered (next_loop source st).2.
Proof.
  induction source as [|[start c] source IH]; intros st Hb; cbn [next_loop]; (destruct (emit st) as [[x st']|] eqn:E; [by eapply emit_buffered|]);
    cbn [finished cleared with_output]; (destruct (finished st); [done|]).
  - assert (buffered (finish (cleared st))) as Hf.
    { unfold finish. cbv zeta. destruct (flush_pending (cleared st)) as [E1 E2]. unfold buffered. cbn [pending nonstarter_count with_output with_composition]. rewrite E1, E2. destruct Hb as [_ Hb]. cbn. split; [apply N.le_0_l|exact Hb]. }
    destruct (emit (finish (cleared st))) as [[x st']|] eqn:E2; [by eapply emit_buffered|exact Hf].
  - by apply IH, push_source_buffered.
Qed.
(** A normaliser that was read any number of times. *)
Inductive Read (text : bytes) : MappedNfkc.t → Prop :=
| Read_new : Read text (MappedNfkc.new text)
| Read_next st c st' : Read text st → next st = (c, st') → Read text st'.
(** C39: However many combining characters the text has in a row, the normaliser
    never holds more than thirty of them back to order them. *)
Theorem pending_bounded text st : Read text st → lenN (decomposition_pending st) <= MAX_NONSTARTERS.
Proof.
  intros Hr. assert (buffered st) as [H1 H2]; [|lia]. induction Hr as [|st c st' _ IH E]; [by split|].
  pose proof (next_loop_buffered (MappedNfkc.source st) st IH) as Hb. unfold next in E. by rewrite E in Hb.
Qed.
End Buffers.

(** ** A small table: one letter and three accents *)
Definition sample_class (c : N) : N := if c =? 0x301 then 230 else if c =? 0x315 then 232 else if c =? 0x323 then 220 else 0.
Definition sample_decompose (c : N) : list N := if c =? 0xE9 then [0x65; 0x301] else [c].
Definition sample_compose (a b : N) : option N := if (a =? 0x65) && (b =? 0x301) then Some 0xE9 else None.
Definition sample_tables (is_nfkc : bytes → bool) : Tables := Build_Tables sample_class sample_decompose sample_compose is_nfkc.
Definition sample_nfkc_ok (text : bytes) : bool := bool_decide (@nfkc (sample_tables (λ _, false)) (chars text) = chars text).
#[local] Instance accents : Tables := sample_tables sample_nfkc_ok.
#[local] Instance accents_laws : TablesLaws.
Proof.
  split.
  - intros a b p. cbn. unfold sample_compose. destruct (_ && _); [|done]. by intros [= <-].
  - reflexivity.
  - reflexivity.
  - intros c Hc. cbn. unfold sample_class, sample_decompose. assert (∀ d, 128 <= d → (c =? d) = false) as E by (intros d Hd; apply N.eqb_neq; lia). by rewrite !E.
  - intros a b _ Hb. cbn. unfold sample_compose. destruct (N.eqb_spec b 0x301); [lia|]. by rewrite andb_false_r.
  - intros text Ht. exact (bool_decide_eq_true_1 _ Ht).
Qed.
(** An acute accent after a comma above right: the accents change places, and the acute composes. *)
Definition accented : bytes := utf8_encode [0x65; 0x315; 0x301; 0x61].
Lemma token_characters_nfkc_witness : is_stream_safe_nfkc accented = false ∧
  ∃ l, Yields (token_characters accented) l ∧ (MappedCharacter.character <$> l) = [0xE9; 0x315; 0x61] ∧ Forall (λ c, char_span accented c.(MappedCharacter.span)) l.
Proof.
  split; [vm_compute; reflexivity|]. destruct (token_characters_nfkc accented) as (l & H1 & H2 & H3); [vm_compute; reflexivity|].
  exists l. split; [exact H1|]. split; [|exact H3]. rewrite H2. vm_compute. reflexivity.
Defined.
Definition stacked : bytes := utf8_encode (0x65 :: replicate 40 0x301).
Lemma sample_decompositions_short (c : N) : lenN (decompose_compatible c) <= MAX_NONSTARTERS.
Proof. cbn. unfold sample_decompose. destruct (c =? 0xE9); by apply N.leb_le. Qed.
Lemma pending_bounded_witness : lenN (decomposition_pending (next (MappedNfkc.new stacked)).2) <= MAX_NONSTARTERS.
Proof.
  apply (pending_bounded sample_decompositions_short stacked).
  eapply Read_next; [apply Read_new|]. apply surjective_pairing.
Defined.
