(* ===== verification/Membership.v ===== *)
(** * src/src/engine.rs: which records match a trace

    [TraceExpression::evaluate] decides a boolean expression from what is known
    of its leaves, in three values; [TraceProgress] keeps the states of a
    recoverable page.  The theorems relate the three values to the two-valued
    meaning: a decision is right whatever the unknown leaves turn out to be, and
    [None] is returned only when they matter. *)
From S2P Require Import Prelude.
From S2P Require Import Errors.
From S2P Require Import Bytes.
From S2P Require Import Response.
Local Open Scope N_scope.

Module TraceExpression.
Inductive t :=
| Leaf (index : N)
| And (children : list t)
| Or (children : list t)
| Not (child : t)
| Optional (required : t) (optional : list t).
Section Ind.
Context (P : t → Prop)
  (HLeaf : ∀ i, P (Leaf i)) (HAnd : ∀ ch, Forall P ch → P (And ch)) (HOr : ∀ ch, Forall P ch → P (Or ch))
  (HNot : ∀ c, P c → P (Not c)) (HOptional : ∀ r o, P r → Forall P o → P (Optional r o)).
Fixpoint ind (e : t) : P e :=
  let all := fix all (l : list t) : Forall P l :=
    match l with [] => Forall_nil_2 _ | c :: l => Forall_cons_2 _ _ _ (ind c) (all l) end in
  match e with
  | Leaf i => HLeaf i
  | And ch => HAnd ch (all ch)
  | Or ch => HOr ch (all ch)
  | Not c => HNot c (ind c)
  | Optional r o => HOptional r o (ind r) (all o)
  end.
End Ind.
End TraceExpression.
Module TraceDecision.
Record t := mk { matched : option bool; leaves : list N }.
End TraceDecision.

(** [membership\[*index\]] *)
Definition index_at (membership : list (option bool)) (index : N) : outcome (option bool) := unwrap (membership !! N.to_nat index).
Definition matched_true (child : TraceDecision.t) : bool := bool_decide (child.(TraceDecision.matched) = Some true).
(** The arm shared by [And] and [Or], once the children are decided. *)
Definition combine_decisions (and : bool) (decisions : list TraceDecision.t) : TraceDecision.t :=
  let matched :=
    if existsb (λ child, bool_decide (child.(TraceDecision.matched) = Some (negb and))) decisions then Some (negb and)
    else if existsb (λ child, bool_decide (child.(TraceDecision.matched) = None)) decisions then None
    else Some and in
  let leaves := if bool_decide (matched = Some true)
    then filter (λ child, matched_true child) decisions ≫= TraceDecision.leaves else [] in
  TraceDecision.mk matched leaves.
Fixpoint evaluate (self : TraceExpression.t) (membership : list (option bool)) : outcome TraceDecision.t :=
  match self with
  | TraceExpression.Leaf index =>
      m ← index_at membership index;
      Ok (TraceDecision.mk m (if bool_decide (m = Some true) then [index] else []))
  | TraceExpression.Not child =>
      d ← evaluate child membership; Ok (TraceDecision.mk (negb <$> d.(TraceDecision.matched)) [])
  | TraceExpression.And children => decisions ← mapO (λ child, evaluate child membership) children; Ok (combine_decisions true decisions)
  | TraceExpression.Or children => decisions ← mapO (λ child, evaluate child membership) children; Ok (combine_decisions false decisions)
  | TraceExpression.Optional required optional =>
      result ← evaluate required membership;
      if matched_true result then
        foldO (λ result child, child ← evaluate child membership;
          Ok (if matched_true child
              then TraceDecision.mk result.(TraceDecision.matched) (result.(TraceDecision.leaves) ++ child.(TraceDecision.leaves))
              else result)) result optional
      else Ok result
  end.

(** ** The states of a page *)
Module TraceProgress.
Record t := mk { recovery : bool; states : list TraceRecordState.t }.
Definition new (recovery : bool) : t := mk recovery [].
Definition defer (self : t) (exhausted : bool) : bool :=
  self.(recovery) && exhausted && negb (bool_decide (self.(states) = [])).
Definition consume (self : t) (state : TraceRecordState.t) : t :=
  if self.(recovery) then mk self.(recovery) (self.(states) ++ [state]) else self.
Definition finish (self : t) (trace : TraceResult.t) : TracePageResult.t :=
  TracePageResult.mk trace (lenN self.(states)) self.(states).
End TraceProgress.

(** ** The two-valued meaning *)
Fixpoint truth (e : TraceExpression.t) (v : N → bool) : bool :=
  match e with
  | TraceExpression.Leaf i => v i
  | TraceExpression.And ch => forallb (λ c, truth c v) ch
  | TraceExpression.Or ch => existsb (λ c, truth c v) ch
  | TraceExpression.Not c => negb (truth c v)
  | TraceExpression.Optional r _ => truth r v
  end.
(** The leaves that decide, and the leaves that can be reported. *)
Fixpoint deciding (e : TraceExpression.t) : list N :=
  match e with
  | TraceExpression.Leaf i => [i]
  | TraceExpression.And ch | TraceExpression.Or ch => ch ≫= deciding
  | TraceExpression.Not c => deciding c
  | TraceExpression.Optional r _ => deciding r
  end.
Fixpoint all_leaves (e : TraceExpression.t) : list N :=
  match e with
  | TraceExpression.Leaf i => [i]
  | TraceExpression.And ch | TraceExpression.Or ch => ch ≫= all_leaves
  | TraceExpression.Not c => all_leaves c
  | TraceExpression.Optional r o => all_leaves r ++ (o ≫= all_leaves)
  end.
Fixpoint positive (e : TraceExpression.t) : list N :=
  match e with
  | TraceExpression.Leaf i => [i]
  | TraceExpression.And ch | TraceExpression.Or ch => ch ≫= positive
  | TraceExpression.Not _ => []
  | TraceExpression.Optional r o => positive r ++ (o ≫= positive)
  end.
(** [v] completes what is known of the leaves. *)
Definition agrees (v : N → bool) (membership : list (option bool)) : Prop :=
  ∀ i b, membership !! N.to_nat i = Some (Some b) → v i = b.
Definition indexed (e : TraceExpression.t) (membership : list (option bool)) : Prop :=
  Forall (λ i, i < lenN membership) (all_leaves e).

(** ** Evaluation *)
(** The optional children leave the decision alone and append their leaves. *)
Lemma optional_Ok membership optional : ∀ d d', foldO (λ result child, child ← evaluate child membership;
    Ok (if matched_true child
        then TraceDecision.mk result.(TraceDecision.matched) (result.(TraceDecision.leaves) ++ child.(TraceDecision.leaves))
        else result)) d optional = Ok d' →
  d'.(TraceDecision.matched) = d.(TraceDecision.matched)
  ∧ ∀ i, i ∈ d'.(TraceDecision.leaves) → i ∈ d.(TraceDecision.leaves)
    ∨ ∃ c k, c ∈ optional ∧ evaluate c membership = Ok k ∧ i ∈ k.(TraceDecision.leaves).
Proof.
  induction optional as [|c optional IH]; intros d d' Hd; cbn [foldO] in Hd; [injection Hd as <-; auto|].
  apply bind_Ok in Hd as (d1 & Hc & Hd). apply bind_Ok in Hc as (k & Hk & [= <-]). destruct (IH _ _ Hd) as [Hm Hl].
  split; [rewrite Hm; by destruct (matched_true k)|]. intros i [Hi|(c' & k' & Hc' & Hk' & Hi)]%Hl.
  - destruct (matched_true k); [|auto]. cbn in Hi. apply elem_of_app in Hi as [|]; [auto|]. right. exists c, k. split; [by left|done].
  - right. exists c', k'. split; [by right|done].
Qed.
Lemma optional_total membership optional : Forall (λ c, ∃ d, evaluate c membership = Ok d) optional → ∀ d, ∃ d', foldO (λ result child, child ← evaluate child membership;
    Ok (if matched_true child
        then TraceDecision.mk result.(TraceDecision.matched) (result.(TraceDecision.leaves) ++ child.(TraceDecision.leaves))
        else result)) d optional = Ok d'.
Proof.
  induction 1 as [|c optional [k Hk] _ IH]; intros d; [by eexists|]. cbn [foldO]. rewrite Hk. cbn [mbind outcome_bind]. apply IH.
Qed.

(** Every expression is of one of the shapes below; [And] and [Or] are dual. *)
Definition junction (and : bool) : list TraceExpression.t → TraceExpression.t := if and then TraceExpression.And else TraceExpression.Or.
Lemma truth_junction and ch v b : truth (junction and ch) v = b ↔
  (b = and ∧ Forall (λ c, truth c v = and) ch) ∨ (b = negb and ∧ Exists (λ c, truth c v = negb and) ch).
Proof.
  assert (∀ (f : TraceExpression.t → bool) l, (forallb f l = true ∧ Forall (λ c, f c = true) l) ∨ (forallb f l = false ∧ Exists (λ c, f c = false) l)) as Hall.
  { intros f l. induction l as [|c l IH]; [by left|]. cbn [forallb]. rewrite Forall_cons, Exists_cons. destruct (f c); [destruct IH; tauto|right; auto]. }
  assert (∀ (f : TraceExpression.t → bool) l, (existsb f l = false ∧ Forall (λ c, f c = false) l) ∨ (existsb f l = true ∧ Exists (λ c, f c = true) l)) as Hex.
  { intros f l. induction l as [|c l IH]; [by left|]. cbn [existsb]. rewrite Forall_cons, Exists_cons. destruct (f c); [right; auto|destruct IH; tauto]. }
  assert (∀ b, Forall (λ c, truth c v = b) ch → Exists (λ c, truth c v = negb b) ch → False) as Hno.
  { intros b' Hf (c & Hc & E)%Exists_exists. rewrite Forall_forall in Hf. rewrite (Hf c Hc) in E. by destruct b'. }
  destruct and; cbn [junction truth negb].
  - destruct (Hall (λ c, truth c v) ch) as [[-> Hf]|[-> He]]; split; intros H; subst; auto; destruct H as [[-> ?]|[-> ?]]; try done; exfalso; eauto.
  - destruct (Hex (λ c, truth c v) ch) as [[-> Hf]|[-> He]]; split; intros H; subst; auto; destruct H as [[-> ?]|[-> ?]]; try done; exfalso; eauto.
Qed.
(** The decision on a list of decided children. *)
Lemma combine_matched and ds : match (combine_decisions and ds).(TraceDecision.matched) with
  | Some b => b = and ∧ Forall (λ d, d.(TraceDecision.matched) = Some and) ds
      ∨ b = negb and ∧ Exists (λ d, d.(TraceDecision.matched) = Some (negb and)) ds
  | None => Exists (λ d, d.(TraceDecision.matched) = None) ds
      ∧ Forall (λ d, d.(TraceDecision.matched) ≠ Some (negb and)) ds
  end.
Proof.
  unfold combine_decisions. cbn [TraceDecision.matched].
  assert (∀ (P : TraceDecision.t → Prop) (H : ∀ d, Decision (P d)), Exists P ds ↔ existsb (λ child, bool_decide (P child)) ds = true) as He.
  { intros P H. rewrite existsb_exists, Exists_exists. setoid_rewrite bool_decide_eq_true. setoid_rewrite <- list_elem_of_In. done. }
  destruct (existsb _ ds) eqn:E1; [right; split; [done|]; by eapply He|].
  assert (Forall (λ d, d.(TraceDecision.matched) ≠ Some (negb and)) ds) as Hn.
  { apply Forall_forall. intros d Hd E. apply not_true_iff_false in E1. eapply E1, He, Exists_exists. by exists d. }
  destruct (existsb (λ child, bool_decide (child.(TraceDecision.matched) = None)) ds) eqn:E2; [split; [by eapply He|done]|].
  left. split; [done|]. apply Forall_forall. intros d Hd. rewrite Forall_forall in Hn. specialize (Hn d Hd).
  destruct (TraceDecision.matched d) as [b|] eqn:E; [destruct b, and; try done; by destruct Hn|]. exfalso. apply not_true_iff_false in E2. eapply E2, He, Exists_exists. by exists d.
Qed.
Lemma evaluate_junction and ch membership d : evaluate (junction and ch) membership = Ok d ↔
  ∃ ds, Forall2 (λ c k, evaluate c membership = Ok k) ch ds ∧ d = combine_decisions and ds.
Proof.
  destruct and; cbn [junction evaluate]; rewrite bind_Ok; setoid_rewrite mapO_Ok;
    (split; intros (ds & Hds & E); exists ds; (split; [done|]); [by injection E|by rewrite E]).
Qed.

Lemma evaluate_total e membership : indexed e membership → ∃ d, evaluate e membership = Ok d.
Proof.
  assert (∀ ch, Forall (λ c, indexed c membership → ∃ d, evaluate c membership = Ok d) ch →
    Forall (λ i, i < lenN membership) (ch ≫= all_leaves) → Forall (λ c, ∃ d, evaluate c membership = Ok d) ch) as Hch.
  { intros ch. induction 1 as [|c ch Hc _ IH]; intros Hl; [done|]. cbn in Hl. apply Forall_app in Hl as [H1 H2]. constructor; [by apply Hc|by apply IH]. }
  assert (∀ ch, Forall (λ c, ∃ d, evaluate c membership = Ok d) ch → ∃ ds, Forall2 (λ c k, evaluate c membership = Ok k) ch ds) as Hds.
  { intros ch. induction 1 as [|c ch [k Hk] _ [ds IH]]; [by exists []|]. exists (k :: ds). by constructor. }
  unfold indexed. induction e as [i|ch IH|ch IH|c IH|r o IHr IHo] using TraceExpression.ind; intros Hi; cbn [all_leaves] in Hi.
  - apply Forall_inv in Hi. cbn [evaluate]. unfold index_at.
    destruct (lookup_lt_is_Some_2 membership (N.to_nat i)) as [m Hm]; [unfold lenN in Hi; lia|]. rewrite Hm. by eexists.
  - destruct (Hds ch) as [ds Hd]; [by apply Hch|]. eexists. apply (evaluate_junction true). by eexists.
  - destruct (Hds ch) as [ds Hd]; [by apply Hch|]. eexists. apply (evaluate_junction false). by eexists.
  - destruct (IH Hi) as [d Hd]. cbn [evaluate]. rewrite Hd. by eexists.
  - apply Forall_app in Hi as [H1 H2]. destruct (IHr H1) as [d Hd]. cbn [evaluate]. rewrite Hd. cbn [mbind outcome_bind].
    destruct (matched_true d); [|by eexists]. apply optional_total. by apply Hch.
Qed.
(** A decision holds for every completion of the membership. *)
Lemma evaluate_sound v membership e : agrees v membership → ∀ d b, evaluate e membership = Ok d → d.(TraceDecision.matched) = Some b → truth e v = b.
Proof.
  intros Hv. assert (∀ and ch, Forall (λ c, ∀ d b, evaluate c membership = Ok d → d.(TraceDecision.matched) = Some b → truth c v = b) ch →
    ∀ d b, evaluate (junction and ch) membership = Ok d → d.(TraceDecision.matched) = Some b → truth (junction and ch) v = b) as Hj.
  { intros and ch IH d b (ds & Hds & ->)%evaluate_junction Hm. apply truth_junction. pose proof (combine_matched and ds) as Hc. rewrite Hm in Hc.
    destruct Hc as [[-> Hc]|[-> Hc]]; [left|right]; (split; [done|]).
    - apply Forall_forall. intros c Hc'. apply list_elem_of_lookup_1 in Hc' as [i Hi]. destruct (Forall2_lookup_l _ _ _ _ _ Hds Hi) as (k & Hk & E).
      rewrite Forall_forall in IH. rewrite Forall_forall in Hc. eapply IH; [by eapply list_elem_of_lookup_2|exact E|]. apply Hc. by eapply list_elem_of_lookup_2.
    - apply Exists_exists in Hc as (k & Hk & E). apply list_elem_of_lookup_1 in Hk as [i Hk]. destruct (Forall2_lookup_r _ _ _ _ _ Hds Hk) as (c & Hi & Hc).
      rewrite Forall_forall in IH. apply Exists_exists. exists c. split; [by eapply list_elem_of_lookup_2|].
      eapply IH; [by eapply list_elem_of_lookup_2|exact Hc|exact E]. }
  induction e as [i|ch IH|ch IH|c IH|r o IHr IHo] using TraceExpression.ind; intros d b He Hm.
  - cbn [evaluate] in He. unfold index_at in He. destruct (membership !! N.to_nat i) eqn:E; [|done]. cbn in He. inv_ok. cbn in Hm. subst. by apply Hv.
  - by apply (Hj true ch IH d b).
  - by apply (Hj false ch IH d b).
  - cbn [evaluate] in He. inv_ok. cbn in Hm. apply fmap_Some in Hm as (b' & Hb & ->). cbn. f_equal. by eapply IH.
  - cbn [evaluate] in He. inv_ok. cbn [truth]. eapply IHr; [done|]. destruct (matched_true _) in *.
    + rename select (foldO _ _ _ = _) into Hf. apply optional_Ok in Hf as [Hf _]. by rewrite <- Hf.
    + by inv_ok.
Qed.


(** ** Completeness: the leaves that decide are independent *)
Lemma truth_junction_ext and ch v v' : Forall (λ c, truth c v = truth c v') ch → truth (junction and ch) v = truth (junction and ch) v'.
Proof. destruct and; cbn [junction truth]; (induction 1 as [|c ch Hc _ IH]; [done|]); cbn [forallb existsb]; by rewrite Hc, IH. Qed.
Lemma truth_ext v v' e : (∀ i, i ∈ deciding e → v i = v' i) → truth e v = truth e v'.
Proof.
  assert (∀ and ch, Forall (λ c, (∀ i, i ∈ deciding c → v i = v' i) → truth c v = truth c v') ch →
    (∀ i, i ∈ (ch ≫= deciding) → v i = v' i) → truth (junction and ch) v = truth (junction and ch) v') as Hj.
  { intros and ch IH Hv. apply truth_junction_ext. rewrite Forall_forall in *. intros c Hc. apply IH; [done|].
    intros i Hi. apply Hv. apply list_elem_of_bind. by exists c. }
  induction e as [i|ch IH|ch IH|c IH|r o IHr IHo] using TraceExpression.ind; intros Hv; cbn [deciding] in Hv.
  - apply Hv. by left.
  - by apply (Hj true).
  - by apply (Hj false).
  - cbn [truth]. by rewrite IH.
  - by apply IHr.
Qed.
(** Independent children can be made to agree on a value together. *)
Lemma agree_together membership b ch : NoDup (ch ≫= deciding) → (∃ v, agrees v membership) →
  Forall (λ c, ∃ v, agrees v membership ∧ truth c v = b) ch → ∃ v, agrees v membership ∧ Forall (λ c, truth c v = b) ch.
Proof.
  intros Hd [v0 Hv0]. induction 1 as [|c ch (v & Hv & Hc) _ IH]; [by exists v0|]. cbn in Hd. apply NoDup_app in Hd as (_ & Hdis & Hd).
  destruct (IH Hd) as (v' & Hv' & Hch). exists (λ i, if decide (i ∈ deciding c) then v i else v' i). split; [|constructor].
  - intros i m Hm. case_decide; [by apply Hv|by apply Hv'].
  - rewrite <- Hc. apply truth_ext. intros i Hi. by rewrite decide_True.
  - rewrite Forall_forall in *. intros c' Hc'. rewrite <- (Hch c' Hc'). apply truth_ext. intros i Hi.
    rewrite decide_False; [done|]. intros Hin. apply (Hdis i Hin). apply list_elem_of_bind. by exists c'.
Qed.
(** What is known, unknown leaves being false. *)
Definition known (membership : list (option bool)) (i : N) : bool :=
  match membership !! N.to_nat i with Some (Some b) => b | _ => false end.
Lemma known_agrees membership : agrees (known membership) membership.
Proof. intros i b H. unfold known. by rewrite H. Qed.
(** Every value a decision does not rule out is reached by some completion. *)
Lemma evaluate_complete membership e : ∀ d b, NoDup (deciding e) → evaluate e membership = Ok d →
  d.(TraceDecision.matched) ≠ Some (negb b) → ∃ v, agrees v membership ∧ truth e v = b.
Proof.
  assert (∀ and ch, Forall (λ c, ∀ d b, NoDup (deciding c) → evaluate c membership = Ok d →
      d.(TraceDecision.matched) ≠ Some (negb b) → ∃ v, agrees v membership ∧ truth c v = b) ch →
    ∀ d b, NoDup (ch ≫= deciding) → evaluate (junction and ch) membership = Ok d →
      d.(TraceDecision.matched) ≠ Some (negb b) → ∃ v, agrees v membership ∧ truth (junction and ch) v = b) as Hj.
  { intros and ch IH d b Hnd (ds & Hds & ->)%evaluate_junction Hm. pose proof (combine_matched and ds) as Hc.
    assert (∀ c, c ∈ ch → NoDup (deciding c)) as Hndc.
    { clear -Hnd. induction ch as [|c' ch IH]; intros c Hc; [by apply not_elem_of_nil in Hc|]. cbn in Hnd. apply NoDup_app in Hnd as (H1 & _ & H2).
      apply elem_of_cons in Hc as [->|]; [done|by apply IH]. }
    rewrite Forall_forall in IH. destruct (decide (b = and)) as [->|Hb].
    - destruct (agree_together membership and ch Hnd) as (v & Hv & Hall); [eexists; apply known_agrees| |exists v; split; [done|]; apply truth_junction; by left].
      apply Forall_forall. intros c Hc'. pose proof (Hndc c Hc'). apply list_elem_of_lookup_1 in Hc' as [i Hi].
      destruct (Forall2_lookup_l _ _ _ _ _ Hds Hi) as (k & Hk & E). eapply IH; [by eapply list_elem_of_lookup_2|done|exact E|].
      apply list_elem_of_lookup_2 in Hk. intros Ek. destruct (TraceDecision.matched (combine_decisions and ds)) as [b|].
      + destruct Hc as [[-> Hc]|[-> _]]; [|done]. rewrite Forall_forall in Hc. rewrite (Hc k Hk) in Ek. injection Ek. by destruct and.
      + destruct Hc as [_ Hc]. rewrite Forall_forall in Hc. by apply (Hc k).
    - assert (b = negb and) as -> by (by destruct b, and). rewrite negb_involutive in Hm.
      assert (Exists (λ d, d.(TraceDecision.matched) ≠ Some and) ds) as (k & Hk & E)%Exists_exists.
      { destruct (TraceDecision.matched (combine_decisions and ds)) as [b|].
        - destruct Hc as [[-> _]|[_ Hc]]; [done|]. eapply Exists_impl; [exact Hc|]. intros k ->. by destruct and.
        - destruct Hc as [Hc _]. eapply Exists_impl; [exact Hc|]. by intros k ->. }
      apply list_elem_of_lookup_1 in Hk as [i Hk]. destruct (Forall2_lookup_r _ _ _ _ _ Hds Hk) as (c & Hi & Hc').
      apply list_elem_of_lookup_2 in Hi. destruct (IH c Hi k (negb and) (Hndc c Hi) Hc') as (v & Hv & Ht); [by rewrite negb_involutive|].
      exists v. split; [done|]. apply truth_junction. right. split; [done|]. apply Exists_exists. by exists c. }
  induction e as [i|ch IH|ch IH|c IH|r o IHr IHo] using TraceExpression.ind; intros d b Hnd He Hm.
  - cbn [evaluate] in He. unfold index_at in He. destruct (membership !! N.to_nat i) as [m|] eqn:E; [|done]. cbn in He. inv_ok. cbn in Hm.
    exists (λ j, if decide (j = i) then b else known membership j). cbn [truth]. rewrite decide_True by done. split; [|done].
    intros j b' Hj0. case_decide; [subst|by apply known_agrees]. rewrite E in Hj0. injection Hj0 as ->. by destruct b, b'.
  - by apply (Hj true ch IH d b).
  - by apply (Hj false ch IH d b).
  - cbn [evaluate] in He. apply bind_Ok in He as (k & Hk & [= <-]). cbn [TraceDecision.matched] in Hm.
    destruct (IH k (negb b) Hnd Hk) as (v & Hv & Ht).
    + intros E. rewrite E in Hm. by apply Hm; rewrite negb_involutive.
    + exists v. split; [done|]. cbn [truth]. by rewrite Ht, negb_involutive.
  - cbn [evaluate] in He. inv_ok. cbn [truth]. eapply IHr; [done..|]. destruct (matched_true _) in *.
    + rename select (foldO _ _ _ = _) into Hf. apply optional_Ok in Hf as [Hf _]. by rewrite <- Hf.
    + by inv_ok.
Qed.
(** ** The leaves a match reports *)
Lemma evaluate_leaves membership e : ∀ d, evaluate e membership = Ok d →
  (d.(TraceDecision.leaves) ≠ [] → d.(TraceDecision.matched) = Some true)
  ∧ ∀ i, i ∈ d.(TraceDecision.leaves) → i ∈ positive e ∧ membership !! N.to_nat i = Some (Some true).
Proof.
  assert (∀ and ch, Forall (λ c, ∀ d, evaluate c membership = Ok d → (d.(TraceDecision.leaves) ≠ [] → d.(TraceDecision.matched) = Some true)
      ∧ ∀ i, i ∈ d.(TraceDecision.leaves) → i ∈ positive c ∧ membership !! N.to_nat i = Some (Some true)) ch →
    ∀ d, evaluate (junction and ch) membership = Ok d → (d.(TraceDecision.leaves) ≠ [] → d.(TraceDecision.matched) = Some true)
      ∧ ∀ i, i ∈ d.(TraceDecision.leaves) → i ∈ (ch ≫= positive) ∧ membership !! N.to_nat i = Some (Some true)) as Hj.
  { intros and ch IH d (ds & Hds & ->)%evaluate_junction. unfold combine_decisions. cbn [TraceDecision.leaves TraceDecision.matched].
    set (m := if existsb _ ds then _ else _). case_bool_decide as Em; [|split; [done|by intros i ?%not_elem_of_nil]]. split; [done|].
    intros i Hi. apply list_elem_of_bind in Hi as (k & Hi & Hk). apply list_elem_of_filter in Hk as [_ Hk].
    apply list_elem_of_lookup_1 in Hk as [j Hk]. destruct (Forall2_lookup_r _ _ _ _ _ Hds Hk) as (c & Hc & E).
    apply list_elem_of_lookup_2 in Hc. rewrite Forall_forall in IH. destruct (IH c Hc k E) as [_ Hl]. destruct (Hl i Hi) as [Hp Ht].
    split; [|done]. apply list_elem_of_bind. by exists c. }
  induction e as [i|ch IH|ch IH|c IH|r o IHr IHo] using TraceExpression.ind; intros d He.
  - cbn [evaluate] in He. unfold index_at in He. destruct (membership !! N.to_nat i) as [m|] eqn:E; [|done]. cbn in He. inv_ok. cbn.
    case_bool_decide; subst; (split; [done|]); intros j Hj0; [|by apply not_elem_of_nil in Hj0]. apply list_elem_of_singleton in Hj0 as ->. split; [by left|done].
  - by apply (Hj true ch IH d).
  - by apply (Hj false ch IH d).
  - cbn [evaluate] in He. inv_ok. cbn. split; [done|by intros i ?%not_elem_of_nil].
  - cbn [evaluate] in He. apply bind_Ok in He as (k & Hk & He). destruct (IHr k Hk) as [Hm Hl]. cbn [positive]. destruct (matched_true k) eqn:Em.
    + apply optional_Ok in He as [Em' Ho]. unfold matched_true in Em. apply bool_decide_eq_true in Em. split; [by rewrite Em'|].
      intros i [Hi|(c & k' & Hc & Hk' & Hi)]%Ho; [destruct (Hl i Hi); split; [apply elem_of_app; by left|done]|].
      rewrite Forall_forall in IHo. destruct (IHo c Hc k' Hk') as [_ Hl']. destruct (Hl' i Hi). split; [|done].
      apply elem_of_app. right. apply list_elem_of_bind. by exists c.
    + injection He as <-. split; [done|]. intros i Hi. destruct (Hl i Hi). split; [apply elem_of_app; by left|done].
Qed.
(** Without unknown leaves there is a decision. *)
Lemma evaluate_known membership e : ∀ d, evaluate e membership = Ok d → Forall is_Some membership → is_Some d.(TraceDecision.matched).
Proof.
  assert (∀ and ch, Forall (λ c, ∀ d, evaluate c membership = Ok d → Forall is_Some membership → is_Some d.(TraceDecision.matched)) ch →
    ∀ d, evaluate (junction and ch) membership = Ok d → Forall is_Some membership → is_Some d.(TraceDecision.matched)) as Hj.
  { intros and ch IH d (ds & Hds & ->)%evaluate_junction Hk. pose proof (combine_matched and ds) as Hc.
    destruct (TraceDecision.matched (combine_decisions and ds)) as [b|]; [by eexists|]. destruct Hc as [(k & Hin & E)%Exists_exists _].
    apply list_elem_of_lookup_1 in Hin as [j Hj]. destruct (Forall2_lookup_r _ _ _ _ _ Hds Hj) as (c & Hc & Ek). apply list_elem_of_lookup_2 in Hc.
    rewrite Forall_forall in IH. destruct (IH c Hc k Ek Hk). congruence. }
  induction e as [i|ch IH|ch IH|c IH|r o IHr IHo] using TraceExpression.ind; intros d He Hk.
  - cbn [evaluate] in He. unfold index_at in He. destruct (membership !! N.to_nat i) as [m|] eqn:E; [|done]. cbn in He. inv_ok. cbn.
    rewrite Forall_forall in Hk. by eapply Hk, list_elem_of_lookup_2.
  - by apply (Hj true ch IH d).
  - by apply (Hj false ch IH d).
  - cbn [evaluate] in He. inv_ok. cbn. apply fmap_is_Some. eauto.
  - cbn [evaluate] in He. apply bind_Ok in He as (k & Hr & He). destruct (matched_true k).
    + apply optional_Ok in He as [-> _]. eauto.
    + injection He as <-. eauto.
Qed.
(** C40: [evaluate] decides for [b] exactly when every completion of the known
    leaves makes the expression [b]; the leaves it reports matched, and none of
    them stands under a negation. *)
Theorem evaluate_decides membership e : indexed e membership → NoDup (deciding e) →
  ∃ d, evaluate e membership = Ok d
    ∧ (∀ b, d.(TraceDecision.matched) = Some b ↔ ∀ v, agrees v membership → truth e v = b)
    ∧ (d.(TraceDecision.leaves) ≠ [] → d.(TraceDecision.matched) = Some true)
    ∧ ∀ i, i ∈ d.(TraceDecision.leaves) → i ∈ positive e ∧ membership !! N.to_nat i = Some (Some true).
Proof.
  intros Hi Hnd. destruct (evaluate_total e membership Hi) as [d Hd]. exists d. split; [done|]. split; [|by apply evaluate_leaves].
  intros b. split; [intros Hm v Hv; by eapply evaluate_sound|]. intros Hall.
  destruct (decide (d.(TraceDecision.matched) = Some b)) as [|Hne]; [done|]. exfalso.
  destruct (evaluate_complete membership e d (negb b) Hnd Hd) as (v & Hv & Ht); [by rewrite negb_involutive|].
  rewrite (Hall v Hv) in Ht. by destruct b.
Qed.
Definition sample_expression : TraceExpression.t :=
  TraceExpression.And [TraceExpression.Leaf 0; TraceExpression.Or [TraceExpression.Leaf 1; TraceExpression.Not (TraceExpression.Leaf 2)]].
Lemma evaluate_decides_witness : ∃ d, evaluate sample_expression [Some true; None; None] = Ok d ∧ d.(TraceDecision.matched) = None
  ∧ ∃ d, evaluate sample_expression [Some true; None; Some false] = Ok d
    ∧ (∀ v, agrees v [Some true; None; Some false] → truth sample_expression v = true).
Proof.
  eexists. split; [vm_compute; reflexivity|]. split; [reflexivity|].
  destruct (evaluate_decides [Some true; None; Some false] sample_expression) as (d & Hd & Hm & _);
    [repeat constructor|apply (bool_decide_unpack _); vm_compute; exact I|].
  exists d. split; [exact Hd|]. apply Hm. vm_compute in Hd. injection Hd as <-. reflexivity.
Defined.
