(* ===== verification/Deadline.v ===== *)
(** * src/src/engine.rs: deadlines

    [check_deadline] reads the clock.  Time only advances, so what a run sees of
    it is how many more checks pass before the deadline: a number, or [None] for
    a request without deadline.  Computations that check it pass that number
    along. *)
From S2P Require Import Prelude.
From S2P Require Import Errors.
Local Open Scope N_scope.

Definition Clock := option N.
Definition timeout : FulltextError := FulltextError_new "E_TIMEOUT" SEARCH_TIMEOUT_MESSAGE.
Definition check_deadline : M Clock () := λ s,
  match s with
  | None => Ok ((), None)
  | Some n => if n =? 0 then Err timeout else Ok ((), Some (n - 1))
  end.

(** ** What a computation under a deadline does

    [Timed m Q E]: without a deadline [m] returns a value in [Q] or fails with
    an error in [E]; with one it may also time out, and nothing else changes.  A
    deadline stays one. *)
Definition Timed {A} (m : M Clock A) (Q : A → Prop) (E : FulltextError → Prop) : Prop :=
  ∀ s, match m s with
    | Ok (a, s') => Q a ∧ (s = None ↔ s' = None)
    | Err e => E e ∨ e = timeout ∧ s ≠ None
    | Panic | Fuel => False
    end.
Section Rules.
Context {A B : Type}.
Implicit Types Q : A → Prop.
Lemma Timed_ret Q E a : Q a → Timed (mret a) Q E.
Proof. intros H s. cbn. auto. Qed.
Lemma Timed_weaken (m : M Clock A) Q Q' (E E' : FulltextError → Prop) :
  Timed m Q E → (∀ a, Q a → Q' a) → (∀ e, E e → E' e) → Timed m Q' E'.
Proof. intros H HQ HE s. specialize (H s). destruct (m s) as [[a s']|e| |]; naive_solver. Qed.
Lemma Timed_bind (m : M Clock A) (f : A → M Clock B) Q (R : B → Prop) E :
  Timed m Q E → (∀ a, Q a → Timed (f a) R E) → Timed (mbind f m) R E.
Proof.
  intros Hm Hf s. cbv [mbind M_bind]. specialize (Hm s). destruct (m s) as [[a s']|e| |]; [|done..].
  destruct Hm as [HQ Hs]. specialize (Hf a HQ s'). destruct (f a s') as [[b s'']|e| |]; [|destruct Hf as [|[-> Hn]]|done|done].
  - destruct Hf as [HR Hs']. split; [done|]. by rewrite Hs.
  - auto.
  - right. split; [done|]. by rewrite Hs.
Qed.
Lemma Timed_lift (r : outcome A) Q E :
  match r with Ok a => Q a | Err e => E e | Panic | Fuel => False end → Timed (lift r) Q E.
Proof. intros H s. unfold lift. destruct r; [split; auto|left; auto|done|done]. Qed.
Lemma Timed_if (b : bool) (m k : M Clock A) Q E :
  (b = true → Timed m Q E) → (b = false → Timed k Q E) → Timed (if b then m else k) Q E.
Proof. destruct b; auto. Qed.
End Rules.
Lemma Timed_check E : Timed check_deadline (λ _, True) E.
Proof. intros [n|]; cbn; [|auto]. destruct (n =? 0); [right; auto|split; done]. Qed.
(** A loop that keeps a relation between the elements done and its state. *)
Lemma Timed_foldM {A S} (f : S → A → M Clock S) (P : list A → S → Prop) E l s :
  P [] s → (∀ done a todo s, l = done ++ a :: todo → P done s → Timed (f s a) (P (done ++ [a])) E) → Timed (foldM f s l) (P l) E.
Proof.
  intros Hs Hf. assert (∀ todo done s, l = done ++ todo → P done s → Timed (foldM f s todo) (P l) E) as Hloop; [|by apply (Hloop l [])].
  clear s Hs. induction todo as [|a todo IH]; intros done s El Hs; cbn [foldM].
  - apply Timed_ret. rewrite app_nil_r in El. by subst.
  - eapply Timed_bind; [by eapply Hf|]. intros s' Hs'. eapply IH; [|exact Hs']. by rewrite <- app_assoc.
Qed.
Lemma foldO_inv {A S} (f : S → A → outcome S) (P : list A → S → Prop) l s :
  P [] s → (∀ done a todo s, l = done ++ a :: todo → P done s → ∃ s', f s a = Ok s' ∧ P (done ++ [a]) s') →
  ∃ s', foldO f s l = Ok s' ∧ P l s'.
Proof.
  intros Hs Hf. assert (∀ todo done s, l = done ++ todo → P done s → ∃ s', foldO f s todo = Ok s' ∧ P l s') as Hloop; [|by apply (Hloop l [])].
  clear s Hs. induction todo as [|a todo IH]; intros done s El Hs; cbn [foldO].
  - exists s. rewrite app_nil_r in El. by subst.
  - destruct (Hf _ _ _ _ El Hs) as (s' & -> & Hs'). apply (IH (done ++ [a]) s'); [by rewrite <- app_assoc|done].
Qed.
(** The result of a run without a deadline. *)
Lemma Timed_none {A} (m : M Clock A) Q E : Timed m Q E → match m None with Ok (a, None) => Q a | Err e => E e | _ => False end.
Proof. intros H. specialize (H None). destruct (m None) as [[a s']|e| |]; [|naive_solver..]. destruct H as [HQ Hs]. by rewrite (proj1 Hs eq_refl). Qed.
(** A pure step that fails only with an invalid argument. *)
Definition invalid_argument (e : FulltextError) : Prop := code e = "E_INVALID_ARGUMENT"%string.
Lemma Timed_tame {A} (r : outcome A) (Q : A → Prop) : tame r → (∀ a, r = Ok a → Q a) → Timed (lift r) Q invalid_argument.
Proof. intros Ht HQ. apply Timed_lift. destruct r; auto. Qed.
Create HintDb timed.
#[export] Hint Resolve Timed_check Timed_ret : timed.
