(* ===== verification/Plan.v ===== *)
(** * src/src/engine.rs: trace plans

    What a search clause asks of a source value: the analysis of its text, the
    [TracePlan] built from it, the fuzzy matchers, and the leaves of a prepared
    trace expression. *)
From stdpp Require Import sorting.
From S2P Require Import Prelude.
From S2P Require Import Errors.
From S2P Require Import Bytes.
From S2P Require Import Wire.
From S2P Require Import Request.
From S2P Require Import Structure.
From S2P Require Import Text.
From S2P Require Import Spans.
From S2P Require Import Analysis.
From S2P Require Import Membership.
Local Open Scope N_scope.

(** ** Code outside the repository *)
(** The character classes of [char]. *)
Class Unicode := { is_alphabetic : N → bool; is_numeric : N → bool; is_whitespace : N → bool }.
(** The Levenshtein automata of Tantivy's [FuzzyTermQuery]. *)
Module Dfa.
Record t (S : Type) := mk { start : S; accept : S → byte → S; can_match : S → bool; is_match : S → bool }.
Arguments mk {S}.
Arguments start {S}.
Arguments accept {S}.
Arguments can_match {S}.
Arguments is_match {S}.
End Dfa.
Class Automata := { State : Type; automaton : N → bytes → QueryOptions.t → bool → outcome (Dfa.t State) }.

(** ** [Engine]: what tracing uses of it; an analyzer is the list of tokens its stream produces. *)
Module EngineField.
Record t := mk { name : bytes; field : N; surface_field : option N; weight : f32 }.
End EngineField.
Module Engine.
Record t := mk {
  id_field : N; fields : list EngineField.t; field_lookup : gmap bytes N;
  analyzer : bytes → list Token.t; surface_analyzer : bytes → list Token.t;
  index_analyzer : bytes → list Token.t; surface_index_analyzer : bytes → list Token.t;
  positions : bool; max_query_terms : N; max_query_clauses : N }.
End Engine.

(** ** [QueryConstructionBudget] *)
Definition MAX_PHRASE_CONSTRUCTION_TERMS : N := 64 * 256.
Definition MAX_FUZZY_CONSTRUCTION_WORK_UNITS : N := 256.
Module QueryConstructionBudget.
Record t := mk { phrase_terms : N; fuzzy_work_units : N }.
Definition default : t := mk 0 0.
Definition phrase (terms fields : N) : M t () := λ self,
  let phrase_terms := saturating_add self.(phrase_terms) (saturating_mul terms fields) in
  if MAX_PHRASE_CONSTRUCTION_TERMS <? phrase_terms
  then Err (invalid ("phrase construction exceeds " +:+ show MAX_PHRASE_CONSTRUCTION_TERMS +:+ " term-field positions"))
  else Ok ((), mk phrase_terms self.(fuzzy_work_units)).
Definition fuzzy (terms fields distance : N) : M t () := λ self,
  if distance =? 0 then Ok ((), self) else
  let weight := if distance =? 2 then 4 else 1 in
  let fuzzy_work_units := saturating_add self.(fuzzy_work_units) (saturating_mul (saturating_mul terms fields) weight) in
  if MAX_FUZZY_CONSTRUCTION_WORK_UNITS <? fuzzy_work_units
  then Err (invalid ("fuzzy construction exceeds " +:+ show MAX_FUZZY_CONSTRUCTION_WORK_UNITS +:+ " construction work units"))
  else Ok ((), mk self.(phrase_terms) fuzzy_work_units).
End QueryConstructionBudget.

(** ** [TraceTerms] *)
Module TraceTerms.
Inductive t := Small (terms : list bytes) | Large (terms : gset bytes).
Definition from_iter (terms : list bytes) : t := if lenN terms <=? 8 then Small terms else Large (list_to_set terms).
Definition len (self : t) : N := match self with Small terms => lenN terms | Large terms => N.of_nat (size terms) end.
Definition contains (self : t) (term : bytes) : bool :=
  match self with
  | Small terms => existsb (λ candidate, bool_decide (candidate = term)) terms
  | Large terms => bool_decide (term ∈ terms)
  end.
End TraceTerms.

(** ** Fuzzy matching *)
Module FuzzyMatcher.
Record t := mk { text : bytes; field : N; options : QueryOptions.t; prefix : bool }.
End FuzzyMatcher.
Module NativeFuzzyTraceMatchers.
Record t := mk { analyzed : FuzzyMatcher.t; surface : option FuzzyMatcher.t }.
Definition surface_matcher (self : t) : FuzzyMatcher.t := default self.(analyzed) self.(surface).
End NativeFuzzyTraceMatchers.
Module FuzzyTraceTerm.
Record t := mk { analyzed : bytes; surface : bytes; matchers : option NativeFuzzyTraceMatchers.t }.
Definition new (analyzed surface : bytes) (field : N) (options : QueryOptions.t) : t :=
  let matchers :=
    if negb (options.(QueryOptions.fuzzy_distance) =? 1) || negb options.(QueryOptions.fuzzy_transpositions)
    then Some (NativeFuzzyTraceMatchers.mk (FuzzyMatcher.mk analyzed field options false)
           (if negb (bool_decide (analyzed = surface)) then Some (FuzzyMatcher.mk surface field options false) else None))
    else None in
  mk analyzed surface matchers.
End FuzzyTraceTerm.
(** [str::starts_with] *)
Definition starts_with (s prefix : bytes) : bool := bool_decide (take (length prefix) s = prefix).

Module TracePlan.
Inductive t :=
| Any (terms : TraceTerms.t)
| All (terms : TraceTerms.t)
| Phrase (terms : list (N * bytes))
| Prefix (completed : TraceTerms.t) (prefix : bytes) (matcher : option FuzzyMatcher.t)
| Fuzzy (exact : TraceTerms.t) (fuzzy : list FuzzyTraceTerm.t).
Definition needs_surface (self : t) (analyzed_fuzzy : bool) : bool :=
  match self with Prefix _ _ _ => true | Fuzzy _ _ => negb analyzed_fuzzy | _ => false end.
(** The private markers of phrase and prefix matches. *)
Definition phrase_marker : bytes := blit "__phrase".
Definition prefix_marker : bytes := blit "__prefix".
Definition record_matches (self : t) (found : gset bytes) : bool :=
  match self with
  | Any _ | Fuzzy _ _ => negb (bool_decide (found = ∅))
  | All terms => negb (TraceTerms.len terms =? 0) && (N.of_nat (size found) =? TraceTerms.len terms)
  | Phrase terms => negb (bool_decide (terms = [])) && bool_decide (phrase_marker ∈ found)
  | Prefix completed prefix _ =>
      negb (bool_decide (prefix = [])) && bool_decide (prefix_marker ∈ found)
      && (N.of_nat (size found) =? TraceTerms.len completed + 1)
  end.
End TracePlan.
Module TraceLeaf.
Record t := mk { plan : TracePlan.t; fields : gset bytes; analyzed_fuzzy : bool }.
Definition needs_surface (self : t) : bool := TracePlan.needs_surface self.(plan) self.(analyzed_fuzzy).
End TraceLeaf.

Section Fuzzy.
Context `{Unicode} `{Automata}.
(** The loop over the bytes of the candidate. *)
Fixpoint dfa_loop (dfa : Dfa.t State) (state : State) (candidate : bytes) : bool :=
  match candidate with
  | [] => dfa.(Dfa.is_match) state
  | b :: candidate =>
      let state := dfa.(Dfa.accept) state b in
      if negb (dfa.(Dfa.can_match) state) then false else dfa_loop dfa state candidate
  end.
(** [FuzzyMatcher::matches]; the cell only caches the automaton. *)
Definition matcher_matches (self : FuzzyMatcher.t) (candidate : bytes) : outcome bool :=
  if bool_decide (candidate = self.(FuzzyMatcher.text)) || (self.(FuzzyMatcher.prefix) && starts_with candidate self.(FuzzyMatcher.text))
  then Ok true
  else if self.(FuzzyMatcher.options).(QueryOptions.fuzzy_distance) =? 0 then Ok false else
  dfa ← automaton self.(FuzzyMatcher.field) self.(FuzzyMatcher.text) self.(FuzzyMatcher.options) self.(FuzzyMatcher.prefix);
  Ok (dfa_loop dfa dfa.(Dfa.start) candidate).
(** [for term in terms { if body(term)? { return Ok(true) } }] *)
Fixpoint any_matches (body : bytes → outcome bool) (terms : list bytes) : outcome bool :=
  match terms with [] => Ok false | term :: terms => b ← body term; if b : bool then Ok true else any_matches body terms end.
Definition matches_analyzed (self : FuzzyTraceTerm.t) (analyzed : option (list bytes)) : outcome bool :=
  match analyzed with
  | Some terms => any_matches (λ term, match self.(FuzzyTraceTerm.matchers) with
      | Some matchers => matcher_matches matchers.(NativeFuzzyTraceMatchers.analyzed) term
      | None => Ok (within_one_edit self.(FuzzyTraceTerm.analyzed) term) end) terms
  | None => Ok false
  end.
Definition matches (self : FuzzyTraceTerm.t) (analyzed : option (list bytes)) (surface : bytes) : outcome bool :=
  match self.(FuzzyTraceTerm.matchers) with
  | Some matchers =>
      found ← (match analyzed with
        | Some terms => any_matches (matcher_matches matchers.(NativeFuzzyTraceMatchers.analyzed)) terms
        | None => Ok false end);
      if found : bool then Ok true else matcher_matches (NativeFuzzyTraceMatchers.surface_matcher matchers) surface
  | None =>
      Ok (match analyzed with Some terms => existsb (within_one_edit self.(FuzzyTraceTerm.analyzed)) terms | None => false end
          || within_one_edit self.(FuzzyTraceTerm.surface) surface)
  end.
Definition fuzzy_eligible (term : bytes) : bool :=
  (4 <=? lenN (chars term)) && existsb is_alphabetic (chars term)
  && negb (existsb (λ character, is_numeric character || (character =? 45) || (character =? 95) || (character =? 47)) (chars term)).
End Fuzzy.

(** ** Analysis of the query text *)
Definition MAX_FUZZY_TERMS : N := 16.
Section Plans.
Context `{Unicode} `{Automata}.
(** The analyzer [final_surface_term] builds for itself. *)
Context (final_analyzer : bytes → list Token.t).
Context (self : Engine.t).

Definition too_many_terms : FulltextError :=
  invalid ("search text produces more than " +:+ show self.(Engine.max_query_terms) +:+ " terms").
Definition analyze (text : bytes) (surface deduplicate : bool) : outcome (list bytes) :=
  let analyzer := if surface then self.(Engine.surface_analyzer) else self.(Engine.analyzer) in
  '(terms, _) ← foldO (λ '(terms, seen) token,
    if negb deduplicate || negb (bool_decide (token.(Token.text) ∈ seen)) then
      let seen := if deduplicate then {[token.(Token.text)]} ∪ seen else seen in
      if lenN terms =? self.(Engine.max_query_terms) then Err too_many_terms
      else Ok (terms ++ [token.(Token.text)], seen)
    else Ok (terms, seen)) ([], (∅ : gset bytes)) (analyzer text);
  Ok terms.
Definition analyze_positioned (text : bytes) : outcome (list (N * bytes)) :=
  foldO (λ terms token,
    let terms := terms ++ [(token.(Token.position), token.(Token.text))] in
    if self.(Engine.max_query_terms) <? lenN terms then Err too_many_terms else Ok terms) [] (self.(Engine.analyzer) text).
(** The first occurrences of the terms before the final one. *)
Definition completed_terms (final_position : N) (terms : list (N * bytes)) : list bytes :=
  (foldl (λ '(completed, seen) '(position, term),
    if (position <? final_position) && negb (bool_decide (term ∈ seen)) then (completed ++ [term], {[term]} ∪ seen) else (completed, seen))
    ([], (∅ : gset bytes)) terms).1.
Definition final_surface_term (text : bytes) : outcome (list bytes * option bytes) :=
  let final := last (final_analyzer text) in
  if match final with Some token => 40 <=? lenN token.(Token.text) | None => false end
  then Err (invalid "the final prefix token must be shorter than 40 UTF-8 bytes") else
  completed ← (match final with
    | Some token => terms ← analyze_positioned text; Ok (completed_terms token.(Token.position) terms)
    | None => Ok []
    end);
  Ok (completed, Token.text <$> final).

(** ** Fields *)
Definition selected_fields (requested : list bytes) : outcome (list EngineField.t) :=
  if bool_decide (requested = []) then Ok self.(Engine.fields) else
  '(fields, _) ← foldO (λ '(fields, seen) name,
    if bool_decide (name ∈ seen) then Err (invalid ("duplicate search field " +:+ show_str name)) else
    index ← ok_or (self.(Engine.field_lookup) !! name) (invalid ("unknown search field " +:+ show_str name));
    field ← unwrap (self.(Engine.fields) !! N.to_nat index);
    Ok (fields ++ [field], {[name]} ∪ seen)) ([], (∅ : gset bytes)) requested;
  Ok fields.
Definition require_surface_fields (fields : list EngineField.t) : outcome () :=
  if existsb (λ field, bool_decide (field.(EngineField.surface_field) = None)) fields
  then Err (invalid "prefix search and match tracing require surfaceTerms to be enabled") else Ok ().

(** ** [trace_plan] *)
Definition fuzzy_pairs (text : bytes) : outcome (list (bytes * bytes)) :=
  surfaces ← analyze text true true;
  foldO (λ terms surface, analyzed ← analyze surface false false;
    Ok (match analyzed with [analyzed] => terms ++ [(analyzed, surface)] | _ => terms end)) [] surfaces.
(** The arm of the prefix modes. *)
Definition prefix_plan (text : bytes) (mode : SearchMode.t) (options : QueryOptions.t) : outcome TracePlan.t :=
  if match last (chars text) with Some c => is_whitespace c | None => false end
  then terms ← analyze text false true; Ok (TracePlan.All (TraceTerms.from_iter terms)) else
  '(completed, prefix) ← final_surface_term text;
  let prefix := default [] prefix in
  let minimum := if bool_decide (mode = SearchMode.FuzzyPrefix) then 4 else 3 in
  if negb (bool_decide (prefix = [])) && (lenN (chars prefix) <? minimum)
  then Err (invalid ((if bool_decide (mode = SearchMode.FuzzyPrefix) then "fuzzy" else "exact")
                     +:+ " prefix must contain at least " +:+ show minimum +:+ " Unicode characters")) else
  let matcher := if bool_decide (mode = SearchMode.FuzzyPrefix) && fuzzy_eligible prefix
    then Some (FuzzyMatcher.mk prefix self.(Engine.id_field) options true) else None in
  Ok (TracePlan.Prefix (TraceTerms.from_iter completed) prefix matcher).
Definition trace_plan (request : SearchClause.t) : outcome TracePlan.t :=
  let text := request.(SearchClause.text) in
  match request.(SearchClause.mode) with
  | SearchMode.Any => terms ← analyze text false true; Ok (TracePlan.Any (TraceTerms.from_iter terms))
  | SearchMode.All => terms ← analyze text false true; Ok (TracePlan.All (TraceTerms.from_iter terms))
  | SearchMode.Phrase =>
      if negb self.(Engine.positions) then Err (invalid "phrase search requires positions to be enabled")
      else terms ← analyze_positioned text; Ok (TracePlan.Phrase terms)
  | (SearchMode.Prefix | SearchMode.FuzzyPrefix) as mode =>
      prefix_plan text mode request.(SearchClause.options)
  | SearchMode.Fuzzy =>
      terms ← fuzzy_pairs text;
      let eligible := filter (λ '(_, surface), fuzzy_eligible surface) terms in
      if MAX_FUZZY_TERMS <? lenN eligible
      then Err (invalid ("fuzzy search contains more than " +:+ show MAX_FUZZY_TERMS +:+ " eligible terms")) else
      Ok (TracePlan.Fuzzy (TraceTerms.from_iter (fst <$> terms))
        ((λ '(analyzed, surface), FuzzyTraceTerm.new analyzed surface self.(Engine.id_field) request.(SearchClause.options)) <$> eligible))
  end.

(** ** [prepare_trace_expression]; the leaves and the budget are passed along. *)
Definition Prepare := M (list TraceLeaf.t * QueryConstructionBudget.t).
Definition charge_plan (plan : TracePlan.t) (fields distance : N) : M QueryConstructionBudget.t () :=
  match plan with
  | TracePlan.Phrase terms => QueryConstructionBudget.phrase (lenN terms) fields
  | TracePlan.Fuzzy _ fuzzy => QueryConstructionBudget.fuzzy (lenN fuzzy) fields distance
  | TracePlan.Prefix _ _ matcher => QueryConstructionBudget.fuzzy (match matcher with Some _ => 1 | None => 0 end) fields distance
  | _ => mret ()
  end.
Definition push_leaf (leaf : TraceLeaf.t) : Prepare N := λ '(leaves, budget), Ok (lenN leaves, (leaves ++ [leaf], budget)).
Definition prepare_leaf (clause : SearchClause.t) (negative : bool) : Prepare TraceExpression.t :=
  fields ← lift (selected_fields clause.(SearchClause.fields));
  _ ← lift (require_surface_fields fields);
  plan ← lift (trace_plan clause);
  _ ← on_snd (charge_plan plan (lenN fields) clause.(SearchClause.options).(QueryOptions.fuzzy_distance));
  index ← push_leaf (TraceLeaf.mk plan (list_to_set (EngineField.name <$> fields)) negative);
  mret (TraceExpression.Leaf index).
Fixpoint prepare_trace_expression (expression : SearchExpression.t) (negative : bool) : Prepare TraceExpression.t :=
  let children ch := foldM (λ acc child, c ← prepare_trace_expression child negative; mret (acc ++ [c])) [] ch in
  match expression with
  | SearchExpression.Clause clause => prepare_leaf clause negative
  | SearchExpression.And ch => ch ← children ch; mret (TraceExpression.And ch)
  | SearchExpression.Or ch => ch ← children ch; mret (TraceExpression.Or ch)
  | SearchExpression.Not child => c ← prepare_trace_expression child true; mret (TraceExpression.Not c)
  | SearchExpression.Boost _ clause => prepare_trace_expression clause negative
  | SearchExpression.Optional required optional =>
      r ← prepare_trace_expression required negative; o ← children optional; mret (TraceExpression.Optional r o)
  end.
End Plans.

(** ** Terms *)
Definition elems (t : TraceTerms.t) : gset bytes := match t with TraceTerms.Small l => list_to_set l | TraceTerms.Large s => s end.
(** [len] counts the distinct terms. *)
Definition terms_ok (t : TraceTerms.t) : Prop := TraceTerms.len t = N.of_nat (size (elems t)).
Lemma contains_elems t x : TraceTerms.contains t x = true ↔ x ∈ elems t.
Proof.
  destruct t as [l|s]; cbn [TraceTerms.contains elems]; [|apply bool_decide_eq_true].
  rewrite existsb_exists, elem_of_list_to_set. setoid_rewrite bool_decide_eq_true. setoid_rewrite <- list_elem_of_In. naive_solver.
Qed.
Lemma from_iter_elems l : elems (TraceTerms.from_iter l) = list_to_set l.
Proof. unfold TraceTerms.from_iter. by destruct (lenN l <=? 8). Qed.
Lemma from_iter_ok l : NoDup l → terms_ok (TraceTerms.from_iter l).
Proof.
  intros Hd. unfold terms_ok. rewrite from_iter_elems. unfold TraceTerms.from_iter. destruct (lenN l <=? 8); cbn [TraceTerms.len]; [|done].
  by rewrite size_list_to_set.
Qed.

(** What the plans of [trace_plan] satisfy: terms are counted once, and no
    completed term is taken for the marker of a prefix match. *)
Definition plan_ok (plan : TracePlan.t) : Prop :=
  match plan with
  | TracePlan.All terms => terms_ok terms
  | TracePlan.Prefix completed _ _ => terms_ok completed ∧ TracePlan.prefix_marker ∉ elems completed
  | _ => True
  end.
(** The terms a plan can find. *)
Definition vocabulary (plan : TracePlan.t) (found : gset bytes) : Prop :=
  match plan with
  | TracePlan.Any terms | TracePlan.All terms => found ⊆ elems terms
  | TracePlan.Phrase _ => found ⊆ {[TracePlan.phrase_marker]}
  | TracePlan.Prefix completed _ _ => found ⊆ {[TracePlan.prefix_marker]} ∪ elems completed
  | TracePlan.Fuzzy _ _ => True
  end.
(** Finding more never undoes a match. *)
Lemma record_matches_mono plan F G : plan_ok plan → vocabulary plan G → F ⊆ G →
  TracePlan.record_matches plan F = true → TracePlan.record_matches plan G = true.
Proof.
  intros Hok Hv Hs. assert (∀ n, (size G <= n)%nat → N.of_nat (size F) = N.of_nat n → G = F) as Heq.
  { intros n Hn E. symmetry. apply set_subseteq_size_eq; [done|lia]. }
  destruct plan as [t|t|ts|t p m|e f]; cbn [TracePlan.record_matches vocabulary plan_ok] in *.
  - rewrite !negb_true_iff, !bool_decide_eq_false. set_solver.
  - rewrite !andb_true_iff. intros [Hn HF%N.eqb_eq]. rewrite Hok in HF. rewrite (Heq _ (subseteq_size _ _ Hv) HF), Hok.
    split; [by rewrite Hok in Hn|by apply N.eqb_eq].
  - rewrite !andb_true_iff, !bool_decide_eq_true. set_solver.
  - destruct Hok as [Hok Hm]. rewrite !andb_true_iff, !bool_decide_eq_true. intros [[Hp HF] HS%N.eqb_eq]. rewrite Hok in HS.
    assert (N.of_nat (size F) = N.of_nat (size ({[TracePlan.prefix_marker]} ∪ elems t))) as E
      by (rewrite size_union by set_solver; rewrite size_singleton; lia).
    rewrite (Heq _ (subseteq_size _ _ Hv) E). split; [done|]. apply N.eqb_eq. by rewrite Hok.
  - rewrite !negb_true_iff, !bool_decide_eq_false. set_solver.
Qed.

(** ** What [trace_plan] returns *)
(** What tracing relies on: the query analyzer numbers its tokens in increasing
    order ([english_tokens], and Tantivy's filters only drop tokens), and no
    token is a private marker (tokens are alphanumeric). *)
Record analyzer_ok (analyzer : bytes → list Token.t) : Prop := {
  positions_increase : ∀ text, StronglySorted N.lt (Token.position <$> analyzer text);
  positions_bounded : ∀ text, Forall (λ t, t.(Token.position) <= ISIZE_MAX) (analyzer text);
  no_marker : ∀ text, Forall (λ t, t.(Token.text) ≠ TracePlan.prefix_marker) (analyzer text) }.
Definition increasing (terms : list (N * bytes)) : Prop := StronglySorted (λ a b, a.1 < b.1) terms.
Definition query_small (terms : list (N * bytes)) : Prop := Forall (λ t, t.1 <= ISIZE_MAX) terms.
Definition query_ok (plan : TracePlan.t) : Prop :=
  match plan with TracePlan.Phrase terms => increasing terms ∧ query_small terms | _ => True end.

Section PlanOk.
Context `{Unicode} `{Automata} (final_analyzer : bytes → list Token.t) (self : Engine.t).
(** With [deduplicate], the distinct texts, unless there are too many. *)
Lemma analyze_distinct text surface terms : analyze self text surface true = Ok terms → NoDup terms.
Proof.
  unfold analyze. generalize ((if surface then Engine.surface_analyzer self else Engine.analyzer self) text). intros tokens.
  set (body := λ '(terms, seen) token, _). intros Ha. apply bind_Ok in Ha as ([r seen] & Hf & [= <-]).
  assert (∀ tokens acc sn r seen, (∀ x, x ∈ sn ↔ x ∈ acc) → NoDup acc → foldO body (acc, sn) tokens = Ok (r, seen) → NoDup r) as Hloop.
  { clear. induction tokens as [|t tokens IH]; intros acc sn r seen Hs Hd Hf; cbn [foldO] in Hf; [by injection Hf as <- _|].
    apply bind_Ok in Hf as ([acc' sn'] & Hb & Hf). unfold body in Hb. cbn [negb orb] in Hb.
    destruct (bool_decide_reflect (Token.text t ∈ sn)) as [Hin|Hin]; cbn [negb] in Hb; [injection Hb as <- <-; by eapply IH|].
    destruct (lenN acc =? _); [done|]. injection Hb as <- <-. eapply IH; [| |exact Hf].
    - intros x. rewrite elem_of_union, elem_of_singleton, Hs, elem_of_app, list_elem_of_singleton. tauto.
    - apply NoDup_app. split; [done|]. split; [|apply NoDup_singleton]. intros x Hx ->%list_elem_of_singleton. by apply Hin, Hs. }
  eapply Hloop; [|apply NoDup_nil_2|exact Hf]. intros x. split; [by intros ?%elem_of_empty|by intros ?%not_elem_of_nil].
Qed.
(** The terms with their positions, unless there are too many. *)
Lemma analyze_positioned_Ok text terms : analyze_positioned self text = Ok terms →
  terms = (λ t, (t.(Token.position), t.(Token.text))) <$> self.(Engine.analyzer) text.
Proof.
  unfold analyze_positioned. generalize (Engine.analyzer self text). intros tokens Ha.
  assert (∀ tokens acc, foldO (λ terms token,
    let terms := terms ++ [(token.(Token.position), token.(Token.text))] in
    if self.(Engine.max_query_terms) <? lenN terms then Err (too_many_terms self) else Ok terms) acc tokens = Ok terms →
    terms = acc ++ ((λ t, (t.(Token.position), t.(Token.text))) <$> tokens)) as Hloop; [|by apply (Hloop tokens [])].
  clear. induction tokens as [|t tokens IH]; intros acc Hf; cbn [foldO] in Hf; [injection Hf as <-; by rewrite app_nil_r|].
  apply bind_Ok in Hf as (acc' & Hb & Hf). cbv zeta in Hb. destruct (_ <? _); [done|]. injection Hb as <-.
  rewrite fmap_cons. rewrite (IH _ Hf), <- app_assoc. done.
Qed.
Lemma completed_terms_spec position terms : NoDup (completed_terms position terms) ∧ ∀ x, x ∈ completed_terms position terms → x ∈ terms.*2.
Proof.
  unfold completed_terms. set (body := λ '(completed, seen) '(p, term), _).
  assert (∀ terms acc sn, (∀ x, x ∈ sn ↔ x ∈ acc) → NoDup acc → let r := foldl body (acc, sn) terms in
    NoDup r.1 ∧ ∀ x, x ∈ r.1 → x ∈ acc ∨ x ∈ terms.*2) as Hloop.
  { clear. induction terms as [|[p t] terms IH]; intros acc sn Hs Hd; cbn [foldl]; [split; auto|].
    unfold body at 2 4. destruct (_ && _) eqn:E.
    - apply andb_true_iff in E as [_ E%negb_true_iff%bool_decide_eq_false]. destruct (IH (acc ++ [t]) ({[t]} ∪ sn)) as [IH1 IH2].
      + intros x. rewrite elem_of_union, elem_of_singleton, Hs, elem_of_app, list_elem_of_singleton. tauto.
      + apply NoDup_app. split; [done|]. split; [|apply NoDup_singleton]. intros x Hx ->%list_elem_of_singleton. by apply E, Hs.
      + split; [done|]. intros x [Hx|Hx]%IH2; rewrite fmap_cons, elem_of_cons; [|auto].
        apply elem_of_app in Hx as [|Hx%list_elem_of_singleton]; auto.
    - destruct (IH acc sn Hs Hd) as [IH1 IH2]. split; [done|]. intros x [Hx|Hx]%IH2; rewrite fmap_cons, elem_of_cons; auto. }
  destruct (Hloop terms [] ∅) as [H1 H2]; [|apply NoDup_nil_2|].
  - intros x. split; [by intros ?%elem_of_empty|by intros ?%not_elem_of_nil].
  - split; [done|]. by intros x [?%not_elem_of_nil|]%H2.
Qed.
Lemma prefix_plan_ok text mode options plan : analyzer_ok self.(Engine.analyzer) → 
  prefix_plan final_analyzer self text mode options = Ok plan → plan_ok plan ∧ query_ok plan.
Proof.
  intros Ha Hp. unfold prefix_plan in Hp. destruct (match last (chars text) with Some c => is_whitespace c | None => false end).
  - apply bind_Ok in Hp as (terms & Ht & [= <-]). split; [|done]. apply from_iter_ok. by eapply analyze_distinct.
  - apply bind_Ok in Hp as ([completed prefix] & Hf & Hp). cbv zeta in Hp. destruct (_ && _) in Hp; [done|]. injection Hp as <-.
    unfold final_surface_term in Hf. destruct (match last _ with Some token => _ | None => _ end); [done|].
    apply bind_Ok in Hf as (terms & Hc & [= <- _]).
    assert (NoDup terms ∧ TracePlan.prefix_marker ∉ terms) as [Hd Hm].
    { destruct (last (final_analyzer text)) as [token|]; [|injection Hc as <-; split; [apply NoDup_nil_2|apply not_elem_of_nil]].
      apply bind_Ok in Hc as (ts & Hts%analyze_positioned_Ok & [= <-]). destruct (completed_terms_spec token.(Token.position) ts) as [Hd Hsub].
      split; [done|]. intros Hin%Hsub. subst ts. rewrite <- list_fmap_compose in Hin. apply list_elem_of_fmap in Hin as (t & Et & Hin).
      pose proof (no_marker _ Ha text) as Hn. rewrite Forall_forall in Hn. by apply (Hn t Hin). }
    split; [|done]. split; [by apply from_iter_ok|]. by rewrite from_iter_elems, elem_of_list_to_set.
Qed.
Lemma trace_plan_ok clause plan : analyzer_ok self.(Engine.analyzer) → trace_plan final_analyzer self clause = Ok plan → plan_ok plan ∧ query_ok plan.
Proof.
  intros Ha Hp. pose proof Ha as [Hinc Hsmall _]. unfold trace_plan in Hp. destruct (SearchClause.mode clause) eqn:Emode.
  - inv_ok. done.
  - inv_ok. split; [|done]. apply from_iter_ok. by eapply analyze_distinct.
  - destruct (negb _); [done|]. inv_ok. split; [done|]. rename select (analyze_positioned _ _ = _) into Hx. apply analyze_positioned_Ok in Hx as ->.
    specialize (Hinc (SearchClause.text clause)). specialize (Hsmall (SearchClause.text clause)). split.
    + unfold increasing. revert Hinc. generalize (Engine.analyzer self (SearchClause.text clause)). clear. intros l.
      induction l as [|t l IH]; [constructor|]. rewrite !fmap_cons. intros [Hs Ht]%StronglySorted_inv. constructor; [by apply IH|].
      apply Forall_fmap. exact (proj1 (Forall_fmap Token.position (N.lt (Token.position t)) l) Ht).
    + unfold query_small. by apply Forall_fmap.
  - by eapply prefix_plan_ok.
  - inv_ok. destruct (_ <? _); [done|]. by inv_ok.
  - by eapply prefix_plan_ok.
Qed.
End PlanOk.

(** ** Errors *)
(** The lookup is built from the fields. *)
Definition lookup_ok (self : Engine.t) : Prop := ∀ name i, self.(Engine.field_lookup) !! name = Some i → i < lenN self.(Engine.fields).
Section Tame.
Context `{Unicode} `{Automata} (final_analyzer : bytes → list Token.t) (self : Engine.t).
Ltac tame_step := repeat first [done | apply tame_bind; [|intros ? _] | apply foldO_tame; intros | case_match | case_if].
Lemma analyze_tame text surface deduplicate : tame (analyze self text surface deduplicate).
Proof. unfold analyze. tame_step. Qed.
Lemma analyze_positioned_tame text : tame (analyze_positioned self text).
Proof. unfold analyze_positioned. tame_step. Qed.
Lemma final_surface_term_tame text : tame (final_surface_term final_analyzer self text).
Proof.
  unfold final_surface_term. case_if; [done|]. apply tame_bind; [|done]. case_match; [|done]. apply tame_bind; [apply analyze_positioned_tame|done].
Qed.
Lemma trace_plan_tame clause : tame (trace_plan final_analyzer self clause).
Proof.
  unfold trace_plan. assert (∀ text mode options, tame (prefix_plan final_analyzer self text mode options)) as Hp.
  { intros. unfold prefix_plan. case_if; [apply tame_bind; [apply analyze_tame|done]|]. apply tame_bind; [apply final_surface_term_tame|].
    intros [completed prefix] _. cbv zeta. by case_if. }
  destruct (SearchClause.mode clause); try apply Hp; try (apply tame_bind; [apply analyze_tame|done]).
  - case_if; [done|]. apply tame_bind; [apply analyze_positioned_tame|done].
  - apply tame_bind; [|intros; by case_if]. unfold fuzzy_pairs. apply tame_bind; [apply analyze_tame|]. intros surfaces _.
    apply foldO_tame. intros. apply tame_bind; [apply analyze_tame|done].
Qed.
Lemma selected_fields_tame requested : lookup_ok self → tame (selected_fields self requested).
Proof.
  intros Hok. unfold selected_fields. case_if; [done|]. apply tame_bind; [|by intros []]. apply foldO_tame. intros [fields seen] name.
  case_if; [done|]. destruct (Engine.field_lookup self !! name) as [i|] eqn:Ei; [|done]. cbn [ok_or mbind outcome_bind].
  specialize (Hok _ _ Ei). destruct (lookup_lt_is_Some_2 (Engine.fields self) (N.to_nat i)) as [field ->]; [unfold lenN in Hok; lia|done].
Qed.
Lemma require_surface_fields_tame fields : tame (require_surface_fields fields).
Proof. unfold require_surface_fields. by case_if. Qed.
End Tame.
