(* ===== verification/Prepared.v ===== *)
(** * Preparing a trace expression

    [prepare_trace_expression] turns a search expression into a trace expression
    over numbered leaves.  What relates the two: the numbers are in bounds, the
    leaf of a clause has its plan and fields, and the two expressions mean the
    same. *)
From S2P Require Import Prelude.
From S2P Require Import Errors.
From S2P Require Import Bytes.
From S2P Require Import Wire.
From S2P Require Import Request.
From S2P Require Import Structure.
From S2P Require Import Text.
From S2P Require Import Response.
From S2P Require Import Spans.
From S2P Require Import Analysis.
From S2P Require Import Membership.
From S2P Require Import Deadline.
From S2P Require Import Plan.
Local Open Scope N_scope.

(** ** The meaning of a search expression *)
Section Holds.
Context (clause_holds : bool → SearchClause.t → Prop).
(** [negative] tells the clauses under a negation; boosts and optional parts do not decide. *)
Fixpoint holds (negative : bool) (e : SearchExpression.t) : Prop :=
  match e with
  | SearchExpression.Clause clause => clause_holds negative clause
  | SearchExpression.And ch => (fix all l := match l with [] => True | c :: l => holds negative c ∧ all l end) ch
  | SearchExpression.Or ch => (fix any l := match l with [] => False | c :: l => holds negative c ∨ any l end) ch
  | SearchExpression.Not c => ¬ holds true c
  | SearchExpression.Boost _ c => holds negative c
  | SearchExpression.Optional r _ => holds negative r
  end.
Lemma holds_and negative ch : holds negative (SearchExpression.And ch) ↔ Forall (holds negative) ch.
Proof. induction ch as [|c ch IH]; [by split|]. cbn in *. by rewrite Forall_cons, IH. Qed.
Lemma holds_or negative ch : holds negative (SearchExpression.Or ch) ↔ Exists (holds negative) ch.
Proof. induction ch as [|c ch IH]; [cbn; by rewrite Exists_nil|]. cbn in *. by rewrite Exists_cons, IH. Qed.
End Holds.

Section Prepared.
Context `{Unicode} `{Automata} (final_analyzer : bytes → list Token.t) (self : Engine.t).
Definition field_names (fields : list EngineField.t) : gset bytes := list_to_set (EngineField.name <$> fields).
(** The leaf of a clause *)
Definition leaf_of (negative : bool) (clause : SearchClause.t) (leaf : TraceLeaf.t) : Prop :=
  trace_plan final_analyzer self clause = Ok leaf.(TraceLeaf.plan) ∧ leaf.(TraceLeaf.analyzed_fuzzy) = negative
  ∧ ∃ fields, selected_fields self clause.(SearchClause.fields) = Ok fields ∧ leaf.(TraceLeaf.fields) = field_names fields.
Inductive Compiled (leaves : list TraceLeaf.t) : bool → SearchExpression.t → TraceExpression.t → Prop :=
| CompiledClause negative clause index leaf : leaves !! N.to_nat index = Some leaf → leaf_of negative clause leaf →
    Compiled leaves negative (SearchExpression.Clause clause) (TraceExpression.Leaf index)
| CompiledAnd negative ch ch' : Forall2 (Compiled leaves negative) ch ch' →
    Compiled leaves negative (SearchExpression.And ch) (TraceExpression.And ch')
| CompiledOr negative ch ch' : Forall2 (Compiled leaves negative) ch ch' →
    Compiled leaves negative (SearchExpression.Or ch) (TraceExpression.Or ch')
| CompiledNot negative c c' : Compiled leaves true c c' → Compiled leaves negative (SearchExpression.Not c) (TraceExpression.Not c')
| CompiledBoost negative boost c c' : Compiled leaves negative c c' → Compiled leaves negative (SearchExpression.Boost boost c) c'
| CompiledOptional negative r r' o o' : Compiled leaves negative r r' → Forall2 (Compiled leaves negative) o o' →
    Compiled leaves negative (SearchExpression.Optional r o) (TraceExpression.Optional r' o').

Lemma forall2_forall {A B} (R S : A → B → Prop) l k : Forall (λ a, ∀ b, R a b → S a b) l → Forall2 R l k → Forall2 S l k.
Proof. intros Hl. induction 1; [constructor|]. apply Forall_cons in Hl as [? ?]. constructor; auto. Qed.
Lemma compiled_more leaves more negative e te : Compiled leaves negative e te → Compiled (leaves ++ more) negative e te.
Proof.
  revert negative te. induction e using SearchExpression.ind; intros negative te Hc; inversion Hc; subst.
  - econstructor; [|eassumption]. by apply lookup_app_l_Some.
  - constructor. eapply forall2_forall; [|eassumption]. eapply Forall_impl; [eassumption|]. cbn. auto.
  - constructor. eapply forall2_forall; [|eassumption]. eapply Forall_impl; [eassumption|]. cbn. auto.
  - constructor. auto.
  - constructor. auto.
  - constructor; [auto|]. eapply forall2_forall; [|eassumption]. eapply Forall_impl; [eassumption|]. cbn. auto.
Qed.
(** The leaves are numbered within bounds. *)
Lemma compiled_indexed leaves negative e te : Compiled leaves negative e te → Forall (λ i, i < lenN leaves) (all_leaves te).
Proof.
  assert (∀ negative ch ch', Forall (λ e, ∀ negative te, Compiled leaves negative e te → Forall (λ i, i < lenN leaves) (all_leaves te)) ch →
    Forall2 (Compiled leaves negative) ch ch' → Forall (λ i, i < lenN leaves) (ch' ≫= all_leaves)) as Hch.
  { intros n ch ch' IH. induction 1 as [|c c' ch ch' Hc _ IHch]; [constructor|]. apply Forall_cons in IH as [IHc IH]. cbn.
    apply Forall_app. split; [by eapply IHc|by apply IHch]. }
  revert negative te. induction e using SearchExpression.ind; intros negative te Hc; inversion Hc; subst; cbn [all_leaves]; [|by eauto..|].
  - apply Forall_singleton. rename select (leaves !! _ = _) into Hi. apply lookup_lt_Some in Hi. unfold lenN. lia.
  - apply Forall_app. eauto.
Qed.
(** The leaves that can be reported do not stand under a negation. *)
Lemma compiled_positive leaves negative e te : Compiled leaves negative e te →
  ∀ i, i ∈ positive te → ∃ leaf, leaves !! N.to_nat i = Some leaf ∧ leaf.(TraceLeaf.analyzed_fuzzy) = negative.
Proof.
  assert (∀ negative ch ch', Forall (λ e, ∀ negative te, Compiled leaves negative e te → ∀ i, i ∈ positive te →
      ∃ leaf, leaves !! N.to_nat i = Some leaf ∧ leaf.(TraceLeaf.analyzed_fuzzy) = negative) ch →
    Forall2 (Compiled leaves negative) ch ch' → ∀ i, i ∈ (ch' ≫= positive) →
      ∃ leaf, leaves !! N.to_nat i = Some leaf ∧ leaf.(TraceLeaf.analyzed_fuzzy) = negative) as Hch.
  { intros n ch ch' IH. induction 1 as [|c c' ch ch' Hc _ IHch]; intros i Hi; [by apply not_elem_of_nil in Hi|].
    apply Forall_cons in IH as [IHc IH]. cbn in Hi. apply elem_of_app in Hi as [Hi|Hi]; [by eapply IHc|by apply IHch]. }
  revert negative te. induction e using SearchExpression.ind; intros negative te Hc; inversion Hc; subst; cbn [positive]; [|by eauto|by eauto| |by eauto|].
  - intros i ->%list_elem_of_singleton. rename select (leaf_of _ _ _) into Hl. destruct Hl as (_ & Hn & _). eauto.
  - by intros i ?%not_elem_of_nil.
  - intros i [Hi|Hi]%elem_of_app; eauto.
Qed.
(** The two expressions mean the same. *)
Lemma compiled_truth leaves (clause_holds : bool → SearchClause.t → Prop) v :
  (∀ i leaf negative clause, leaves !! N.to_nat i = Some leaf → leaf_of negative clause leaf → v i = true ↔ clause_holds negative clause) →
  ∀ e negative te, Compiled leaves negative e te → truth te v = true ↔ holds clause_holds negative e.
Proof.
  intros Hv. induction e using SearchExpression.ind; intros negative te Hc; inversion Hc; subst; clear Hc.
  - cbn [truth holds]. by eapply Hv.
  - rewrite holds_and. cbn [truth]. rewrite forallb_forall. setoid_rewrite <- list_elem_of_In. rewrite <- Forall_forall.
    rename select (Forall2 _ _ _) into H2. induction H2 as [|c c' ch ch' Hcc _ IH2]; [by rewrite !Forall_nil|].
    rename select (Forall _ (c :: ch)) into Hall. apply Forall_cons in Hall as [Hh Ht]. rewrite !Forall_cons. rewrite (Hh _ _ Hcc). by apply and_iff_compat_l, IH2.
  - rewrite holds_or. cbn [truth]. rewrite existsb_exists. setoid_rewrite <- list_elem_of_In. rewrite <- Exists_exists.
    rename select (Forall2 _ _ _) into H2. induction H2 as [|c c' ch ch' Hcc _ IH2]; [by rewrite !Exists_nil|].
    rename select (Forall _ (c :: ch)) into Hall. apply Forall_cons in Hall as [Hh Ht]. rewrite !Exists_cons. rewrite (Hh _ _ Hcc). by apply or_iff_compat_l, IH2.
  - cbn [truth holds]. rename select (Compiled _ _ _ _) into Hcc. rewrite negb_true_iff, <- not_true_iff_false. apply not_iff_compat. eauto.
  - cbn [holds]. eauto.
  - cbn [truth holds]. eauto.
Qed.
End Prepared.

(** ** [prepare_trace_expression] compiles *)
Definition leaf_ok (leaf : TraceLeaf.t) : Prop := plan_ok leaf.(TraceLeaf.plan) ∧ query_ok leaf.(TraceLeaf.plan).
(** A preparation appends good leaves and returns something in [P], or fails with an invalid argument. *)
Definition Prep {A} (m : Prepare A) (P : list TraceLeaf.t → A → Prop) : Prop := ∀ leaves budget,
  match m (leaves, budget) with
  | Ok (a, (leaves', _)) => ∃ new, leaves' = leaves ++ new ∧ Forall leaf_ok new ∧ P leaves' a
  | Err e => code e = "E_INVALID_ARGUMENT"%string
  | Panic | Fuel => False
  end.
Lemma Prep_ret {A} (a : A) (P : list TraceLeaf.t → A → Prop) : (∀ leaves, P leaves a) → Prep (mret a) P.
Proof. intros HP leaves budget. exists []. by rewrite app_nil_r. Qed.
Lemma Prep_lift {A} (r : outcome A) (P : list TraceLeaf.t → A → Prop) : tame r → (∀ a leaves, r = Ok a → P leaves a) → Prep (lift r) P.
Proof. intros Ht HP leaves budget. unfold lift. destruct r; [|done..]. exists []. rewrite app_nil_r. auto. Qed.
Lemma Prep_bind {A B} (m : Prepare A) (f : A → Prepare B) P Q : Prep m P →
  (∀ a leaves budget, P leaves a → match f a (leaves, budget) with
    | Ok (b, (leaves', _)) => ∃ new, leaves' = leaves ++ new ∧ Forall leaf_ok new ∧ Q leaves' b
    | Err e => code e = "E_INVALID_ARGUMENT"%string
    | Panic | Fuel => False
    end) → Prep (mbind f m) Q.
Proof.
  intros Hm Hf leaves budget. cbv [mbind M_bind]. specialize (Hm leaves budget). destruct (m (leaves, budget)) as [[a [leaves1 budget1]]|e| |]; [|done..].
  destruct Hm as (new & -> & Hnew & Ha). specialize (Hf a _ budget1 Ha). destruct (f a _) as [[b [leaves2 budget2]]|e| |]; [|done..].
  destruct Hf as (new' & -> & Hnew' & Hb). exists (new ++ new'). split; [by rewrite app_assoc|]. split; [by apply Forall_app|done].
Qed.
Section Compile.
Context `{Unicode} `{Automata} (final_analyzer : bytes → list Token.t) (self : Engine.t).
Abbreviation compiled := (Compiled final_analyzer self).
Hypothesis Hlookup : lookup_ok self.
Hypothesis Hanalyzer : analyzer_ok self.(Engine.analyzer).
Lemma charge_plan_spec plan fields distance budget :
  match charge_plan plan fields distance budget with Ok _ => True | Err e => code e = "E_INVALID_ARGUMENT"%string | _ => False end.
Proof.
  destruct plan; cbn [charge_plan]; try done; unfold QueryConstructionBudget.phrase, QueryConstructionBudget.fuzzy; by repeat case_if.
Qed.
Lemma prepare_leaf_spec clause negative :
  Prep (prepare_leaf final_analyzer self clause negative) (λ leaves te, compiled leaves negative (SearchExpression.Clause clause) te).
Proof.
  unfold prepare_leaf. apply (Prep_bind _ _ (λ _ fields, selected_fields self clause.(SearchClause.fields) = Ok fields)).
  { apply Prep_lift; [by apply selected_fields_tame|done]. }
  intros fields leaves budget Hf. revert leaves budget. change (Prep (_ ← lift (require_surface_fields fields); plan ← lift (trace_plan final_analyzer self clause);
    _ ← on_snd (charge_plan plan (lenN fields) clause.(SearchClause.options).(QueryOptions.fuzzy_distance));
    index ← push_leaf (TraceLeaf.mk plan (list_to_set (EngineField.name <$> fields)) negative); mret (TraceExpression.Leaf index))
    (λ leaves te, compiled leaves negative (SearchExpression.Clause clause) te)).
  apply (Prep_bind _ _ (λ _ _, True)); [apply Prep_lift; [apply require_surface_fields_tame|done]|]. intros _u leaves budget _. revert leaves budget.
  apply (Prep_bind _ _ (λ _ plan, trace_plan final_analyzer self clause = Ok plan)); [apply Prep_lift; [apply trace_plan_tame|done]|].
  intros plan leaves budget Hp. cbv [mbind M_bind on_snd].
  pose proof (charge_plan_spec plan (lenN fields) (QueryOptions.fuzzy_distance (SearchClause.options clause)) budget) as Hc.
  destruct (charge_plan _ _ _ budget) as [[[] budget']|e| |]; [|done..]. cbn.
  set (leaf := TraceLeaf.mk plan _ negative). exists [leaf]. split; [done|]. split.
  - apply Forall_singleton. by apply (trace_plan_ok final_analyzer self clause).
  - apply (CompiledClause _ _ _ _ _ _ leaf); [|split; [done|split; [done|by exists fields]]]. rewrite lenN_to_nat. by rewrite list_lookup_middle.
Qed.
Lemma prepare_children (ch : list SearchExpression.t) negative :
  Forall (λ e, ∀ negative, Prep (prepare_trace_expression final_analyzer self e negative) (λ leaves te, compiled leaves negative e te)) ch →
  ∀ l acc leaves budget, Forall2 (compiled leaves negative) l acc →
  match foldM (λ acc child, c ← prepare_trace_expression final_analyzer self child negative; mret (acc ++ [c])) acc ch (leaves, budget) with
  | Ok (r, (leaves', _)) => ∃ new, leaves' = leaves ++ new ∧ Forall leaf_ok new ∧ Forall2 (compiled leaves' negative) (l ++ ch) r
  | Err e => code e = "E_INVALID_ARGUMENT"%string
  | Panic | Fuel => False
  end.
Proof.
  induction 1 as [|c ch Hc _ IH]; intros l acc leaves budget Hacc; cbn [foldM].
  { exists []. by rewrite !app_nil_r. }
  cbv [mbind M_bind mret M_ret]. specialize (Hc negative leaves budget).
  destruct (prepare_trace_expression _ _ c negative _) as [[te [leaves1 budget1]]|e| |]; [|done..]. destruct Hc as (new & -> & Hnew & Hte).
  specialize (IH (l ++ [c]) (acc ++ [te]) (leaves ++ new) budget1). destruct (foldM _ _ ch _) as [[r [leaves2 budget2]]|e| |].
  - destruct IH as (new' & -> & Hnew' & Hr).
    { apply Forall2_app; [|by repeat constructor]. eapply Forall2_impl; [exact Hacc|]. intros. by apply compiled_more. }
    exists (new ++ new'). split; [by rewrite app_assoc|]. split; [by apply Forall_app|]. by rewrite <- (app_assoc l) in Hr.
  - apply IH. apply Forall2_app; [|by repeat constructor]. eapply Forall2_impl; [exact Hacc|]. intros. by apply compiled_more.
  - apply IH. apply Forall2_app; [|by repeat constructor]. eapply Forall2_impl; [exact Hacc|]. intros. by apply compiled_more.
  - apply IH. apply Forall2_app; [|by repeat constructor]. eapply Forall2_impl; [exact Hacc|]. intros. by apply compiled_more.
Qed.
Lemma prepare_spec e : ∀ negative,
  Prep (prepare_trace_expression final_analyzer self e negative) (λ leaves te, compiled leaves negative e te).
Proof.
  assert (∀ ch negative, Forall (λ e, ∀ negative, Prep (prepare_trace_expression final_analyzer self e negative) (λ leaves te, compiled leaves negative e te)) ch →
    Prep (foldM (λ acc child, c ← prepare_trace_expression final_analyzer self child negative; mret (acc ++ [c])) [] ch)
      (λ leaves r, Forall2 (compiled leaves negative) ch r)) as Hch.
  { intros ch negative Hall leaves budget. by apply (prepare_children ch negative Hall [] [] leaves budget). }
  induction e using SearchExpression.ind; intros negative; cbn [prepare_trace_expression].
  - apply prepare_leaf_spec.
  - eapply Prep_bind; [by apply Hch|]. intros ch' leaves budget Hc. exists []. rewrite app_nil_r. split; [done|]. split; [done|]. by constructor.
  - eapply Prep_bind; [by apply Hch|]. intros ch' leaves budget Hc. exists []. rewrite app_nil_r. split; [done|]. split; [done|]. by constructor.
  - eapply Prep_bind; [by apply IHe|]. intros c' leaves budget Hc. exists []. rewrite app_nil_r. split; [done|]. split; [done|]. by constructor.
  - intros leaves budget. specialize (IHe negative leaves budget). destruct (prepare_trace_expression _ _ e _ _) as [[te [leaves' budget']]|err| |]; [|done..].
    destruct IHe as (new & ? & ? & ?). exists new. split; [done|]. split; [done|]. by constructor.
  - eapply Prep_bind; [by apply IHe|]. intros r leaves budget Hr. cbv [mbind M_bind].
    pose proof (Hch _ negative ltac:(done) leaves budget) as Hopt. destruct (foldM _ _ _ _) as [[opts [leaves' budget']]|err| |]; [|done..].
    destruct Hopt as (new & -> & Hnew & Ho). exists new. split; [done|]. split; [done|]. constructor; [by apply compiled_more|done].
Qed.
End Compile.

(** ** The leaves are numbered in order, each once *)
Section Numbers.
Context `{Unicode} `{Automata} (final_analyzer : bytes → list Token.t) (self : Engine.t).
Abbreviation prepare := (prepare_trace_expression final_analyzer self).
Definition numbered (from to : nat) (l : list N) : Prop := (from <= to)%nat ∧ l = N.of_nat <$> seq from (to - from).
Lemma numbered_app a b c l k : numbered a b l → numbered b c k → numbered a c (l ++ k).
Proof.
  intros [Hab ->] [Hbc ->]. split; [lia|]. replace (c - a)%nat with ((b - a) + (c - b))%nat by lia. rewrite seq_app, fmap_app.
  by replace (a + (b - a))%nat with b by lia.
Qed.
Lemma numbered_nil a : numbered a a [].
Proof. split; [lia|]. by rewrite Nat.sub_diag. Qed.
Definition Numbers {A} (m : Prepare A) (count : A → list N) : Prop := ∀ leaves budget a leaves' budget',
  m (leaves, budget) = Ok (a, (leaves', budget')) → numbered (length leaves) (length leaves') (count a).
Lemma numbers_children negative ch : Forall (λ e, ∀ negative, Numbers (prepare e negative) all_leaves) ch → ∀ acc leaves budget r leaves' budget',
  foldM (λ acc child, c ← prepare child negative; mret (acc ++ [c])) acc ch (leaves, budget) = Ok (r, (leaves', budget')) →
  ∃ new, r = acc ++ new ∧ numbered (length leaves) (length leaves') (new ≫= all_leaves).
Proof.
  induction 1 as [|c ch Hc _ IH]; intros acc leaves budget r leaves' budget' Hf; cbn [foldM] in Hf.
  { injection Hf as <- <- <-. exists []. rewrite app_nil_r. split; [done|apply numbered_nil]. }
  apply M_bind_Ok in Hf as (acc1 & [leaves1 budget1] & H1 & Hf). apply M_bind_Ok in H1 as (te & s1 & Hte & H1). injection H1 as <- ->.
  destruct (IH _ _ _ _ _ _ Hf) as (new & -> & Hn). exists (te :: new). rewrite <- app_assoc. split; [done|]. cbn. eapply numbered_app; [by eapply Hc|done].
Qed.
Lemma prepare_numbers e : ∀ negative, Numbers (prepare e negative) all_leaves.
Proof.
  induction e using SearchExpression.ind; intros negative leaves budget te leaves' budget' Hp; cbn [prepare_trace_expression] in Hp.
  - unfold prepare_leaf in Hp. apply M_bind_Ok in Hp as (fs & s1 & H1 & Hp). unfold lift in H1. destruct (selected_fields _ _); [|done..]. injection H1 as <- <-.
    apply M_bind_Ok in Hp as (u & s1 & H1 & Hp). unfold lift in H1. destruct (require_surface_fields _); [|done..]. injection H1 as <- <-.
    apply M_bind_Ok in Hp as (plan & s1 & H1 & Hp). unfold lift in H1. destruct (trace_plan _ _ _); [|done..]. injection H1 as <- <-.
    apply M_bind_Ok in Hp as (u' & s1 & H1 & Hp). unfold on_snd in H1. destruct (charge_plan _ _ _ _) as [[u2 b2]|err| |]; [|done..]. injection H1 as <- <-.
    cbn in Hp. injection Hp as <- <- <-. split; rewrite length_app; cbn; [lia|]. replace (length leaves + 1 - length leaves)%nat with 1%nat by lia. done.
  - apply M_bind_Ok in Hp as (ch' & s1 & Hch & Hp). injection Hp as <- ->. by destruct (numbers_children _ _ ltac:(eassumption) _ _ _ _ _ _ Hch) as (new & -> & Hn).
  - apply M_bind_Ok in Hp as (ch' & s1 & Hch & Hp). injection Hp as <- ->. by destruct (numbers_children _ _ ltac:(eassumption) _ _ _ _ _ _ Hch) as (new & -> & Hn).
  - apply M_bind_Ok in Hp as (c' & s1 & Hc & Hp). injection Hp as <- ->. exact (IHe true _ _ _ _ _ Hc).
  - exact (IHe negative _ _ _ _ _ Hp).
  - apply M_bind_Ok in Hp as (r & [l1 b1] & Hr & Hp). apply M_bind_Ok in Hp as (o' & s1 & Ho & Hp). injection Hp as <- ->.
    destruct (numbers_children _ _ ltac:(eassumption) _ _ _ _ _ _ Ho) as (new & -> & Hn). cbn. eapply numbered_app; [by eapply IHe|done].
Qed.
Lemma deciding_sublist te : deciding te `sublist_of` all_leaves te.
Proof.
  assert (∀ ch, Forall (λ te, deciding te `sublist_of` all_leaves te) ch → (ch ≫= deciding) `sublist_of` (ch ≫= all_leaves)) as Hch.
  { induction 1; cbn; [done|]. by apply sublist_app. }
  induction te using TraceExpression.ind; cbn [deciding all_leaves]; auto. by apply sublist_inserts_r.
Qed.
(** C23: Prepared expressions are well formed: [prepare_trace_expression] never
    panics and fails only with an invalid argument; otherwise it appends to the
    leaves good plans only, numbers them in order from the first free index, each
    once, and the leaves that can be reported keep the fuzzy analysis of the
    context, so that the evaluation of the expression is total and exact. *)
Theorem prepare_well_formed e negative leaves budget : lookup_ok self → analyzer_ok self.(Engine.analyzer) →
  match prepare e negative (leaves, budget) with
  | Ok (te, (leaves', _)) => ∃ new, leaves' = leaves ++ new ∧ Forall leaf_ok new
      ∧ all_leaves te = N.of_nat <$> seq (length leaves) (length new) ∧ NoDup (deciding te)
      ∧ Forall (λ i, i < lenN leaves') (all_leaves te)
      ∧ ∀ i, i ∈ positive te → ∃ leaf, leaves' !! N.to_nat i = Some leaf ∧ leaf.(TraceLeaf.analyzed_fuzzy) = negative
  | Err err => code err = "E_INVALID_ARGUMENT"%string
  | Panic | Fuel => False
  end.
Proof.
  intros Hl Ha. pose proof (prepare_spec final_analyzer self Hl Ha e negative leaves budget) as Hs.
  destruct (prepare e negative (leaves, budget)) as [[te [leaves' budget']]|err| |] eqn:Ep; [|done..]. destruct Hs as (new & -> & Hnew & Hc).
  destruct (prepare_numbers e negative _ _ _ _ _ Ep) as [_ Hnum]. exists new. split; [done|]. split; [done|].
  assert (all_leaves te = N.of_nat <$> seq (length leaves) (length new)) as E.
  { rewrite Hnum, length_app. by replace (length leaves + length new - length leaves)%nat with (length new) by lia. }
  split; [done|]. split; [|split; [by eapply compiled_indexed|by eapply compiled_positive]].
  eapply sublist_NoDup; [|apply deciding_sublist]. rewrite E. apply NoDup_fmap_2; [apply _|]. apply NoDup_seq.
Qed.
End Numbers.
