(* ===== verification/Tokens.v ===== *)
(** * src/src/engine.rs: matching a source value

    [source_tokens] and [trace_tokens]: the analyzed tokens of a value are
    scanned for the terms of a plan, each match adds a term to [found] and a span
    to [spans], and the scan stops early once it knows enough.  The theorems
    compare it with the list of all matches: stopping early changes neither the
    spans, nor whether they are complete, nor whether the record matches. *)
From stdpp Require Import sorting.
From S2P Require Import Prelude.
From S2P Require Import Errors.
From S2P Require Import Bytes.
From S2P Require Import Request.
From S2P Require Import Text.
From S2P Require Import Response.
From S2P Require Import Spans.
From S2P Require Import Analysis.
From S2P Require Import Membership.
From S2P Require Import Deadline.
From S2P Require Import Plan.
Local Open Scope N_scope.

Definition MAX_TRACE_TOKENS_PER_VALUE : N := 262144.
Module SourceToken.
Record t := mk { text : bytes; start : N; end_ : N; position : N }.
End SourceToken.
Module TraceSource.
Record t := mk {
  field : bytes; value_index : N; analyzed : list SourceToken.t; surface : list SourceToken.t;
  utf16 : option (list N); analyzed_truncated : bool; surface_truncated : bool }.
End TraceSource.

(** The stream of the analyzer is the list [stream] of its tokens. *)
Fixpoint source_tokens_loop (stream : list Token.t) (tokens : list SourceToken.t) : M Clock (list SourceToken.t * bool) :=
  match stream with
  | [] => mret (tokens, false)
  | token :: stream =>
      _ ← (if lenN tokens `mod` 256 =? 0 then check_deadline else mret ());
      if lenN tokens =? MAX_TRACE_TOKENS_PER_VALUE then mret (tokens, true) else
      source_tokens_loop stream
        (tokens ++ [SourceToken.mk token.(Token.text) token.(Token.offset_from) token.(Token.offset_to) token.(Token.position)])
  end.
Definition source_tokens (analyzer : bytes → list Token.t) (text : bytes) : M Clock (list SourceToken.t * bool) :=
  source_tokens_loop (analyzer text) [].

(** ** The local variables of [trace_tokens] *)
Module Traced.
Record t := mk { spans : list TraceSpan.t; seen_spans : gset TraceSpan.t; found : gset bytes; spans_truncated : bool }.
Definition empty : t := mk [] ∅ ∅ false.
(** [found.insert(term)] and [spans_truncated |= push_trace_span(..)] *)
Definition hit (max_spans : N) (s : t) (h : option TraceSpan.t * bytes) : t :=
  let '(spans, seen, full) := push_trace_span s.(spans) s.(seen_spans) h.1 max_spans in
  mk spans seen ({[h.2]} ∪ s.(found)) (s.(spans_truncated) || full).
End Traced.

Section Trace.
Context `{Unicode} `{Automata}.
Context (plan : TracePlan.t) (source : TraceSource.t) (max_spans : N).
Definition token_span (token : SourceToken.t) : option TraceSpan.t :=
  source_span source.(TraceSource.utf16) token.(SourceToken.start) token.(SourceToken.end_).
(** [if spans_truncated && plan.record_matches(&found) { break; }] *)
Definition enough (s : Traced.t) : bool := s.(Traced.spans_truncated) && TracePlan.record_matches plan s.(Traced.found).
(** The loops over tokens: [hit] decides what a token adds to [found]; the test
    that ends the loop follows every hit, or with [always] every token. *)
Fixpoint scan (hit : SourceToken.t → outcome (option bytes)) (always : bool) (index : N) (tokens : list SourceToken.t) (s : Traced.t)
  : M Clock Traced.t :=
  match tokens with
  | [] => mret s
  | token :: tokens =>
      _ ← (if index `mod` 256 =? 0 then check_deadline else mret ());
      term ← lift (hit token);
      let s := match term with Some term => Traced.hit max_spans s (token_span token, term) | None => s end in
      if (always || match term with Some _ => true | None => false end) && enough s then mret s
      else scan hit always (index + 1) tokens s
  end.

Definition terms_hit (terms : TraceTerms.t) (token : SourceToken.t) : outcome (option bytes) :=
  Ok (if TraceTerms.contains terms token.(SourceToken.text) then Some token.(SourceToken.text) else None).
Definition prefix_hit (prefix : bytes) (matcher : option FuzzyMatcher.t) (token : SourceToken.t) : outcome (option bytes) :=
  matched ← (if starts_with token.(SourceToken.text) prefix then Ok true else
    match matcher with Some matcher => matcher_matches matcher token.(SourceToken.text) | None => Ok false end);
  Ok (if matched : bool then Some TracePlan.prefix_marker else None).
Definition analyzed_by_position : gmap N (list bytes) :=
  foldl (λ m token, <[token.(SourceToken.position) := default [] (m !! token.(SourceToken.position)) ++ [token.(SourceToken.text)]]> m)
    ∅ source.(TraceSource.analyzed).
(** [for alternative in fuzzy { if .. { fuzzy_match = Some(..); break; } }] *)
Fixpoint fuzzy_alternative (body : FuzzyTraceTerm.t → outcome bool) (fuzzy : list FuzzyTraceTerm.t) : outcome (option bytes) :=
  match fuzzy with
  | [] => Ok None
  | alternative :: fuzzy =>
      b ← body alternative;
      if b : bool then Ok (Some alternative.(FuzzyTraceTerm.analyzed)) else fuzzy_alternative body fuzzy
  end.
Definition fuzzy_hit (exact : TraceTerms.t) (fuzzy : list FuzzyTraceTerm.t) (analyzed_fuzzy : bool) (by_position : gmap N (list bytes))
  (token : SourceToken.t) : outcome (option bytes) :=
  let source_terms := if analyzed_fuzzy then Some [token.(SourceToken.text)] else by_position !! token.(SourceToken.position) in
  match source_terms ≫= λ terms, head (filter (λ term, TraceTerms.contains exact term) terms) with
  | Some term => Ok (Some term)
  | None => fuzzy_alternative (λ alternative,
      if analyzed_fuzzy then matches_analyzed alternative source_terms
      else matches alternative source_terms token.(SourceToken.text)) fuzzy
  end.

Fixpoint skip_while (p : SourceToken.t → bool) (tokens : list SourceToken.t) : list SourceToken.t :=
  match tokens with [] => [] | t :: ts => if p t then skip_while p ts else tokens end.
Fixpoint take_while (p : SourceToken.t → bool) (tokens : list SourceToken.t) : list SourceToken.t :=
  match tokens with [] => [] | t :: ts => if p t then t :: take_while p ts else [] end.
(** The loop over the later terms of a phrase; [rest] is
    [analyzed\[source_index..\]].  [None]: some term has no token in its place. *)
Fixpoint phrase_rest (first_source first_query : N) (terms : list (N * bytes)) (rest : list SourceToken.t) (final_token : SourceToken.t)
  : outcome (option SourceToken.t) :=
  match terms with
  | [] => Ok (Some final_token)
  | (position, term) :: terms =>
      offset ← usize_sub position first_query;
      expected ← usize_add first_source offset;
      let rest := skip_while (λ t, t.(SourceToken.position) <? expected) rest in
      let here := take_while (λ t, t.(SourceToken.position) =? expected) rest in
      let rest := skip_while (λ t, t.(SourceToken.position) =? expected) rest in
      match head (filter (λ t, t.(SourceToken.text) = term) here) with
      | Some token => phrase_rest first_source first_query terms rest token
      | None => Ok None
      end
  end.
(** The loop over the anchors. *)
Fixpoint phrase_loop (first : N * bytes) (later : list (N * bytes)) (tokens : list SourceToken.t) (s : Traced.t) : M Clock Traced.t :=
  match tokens with
  | [] => mret s
  | anchor :: tokens =>
      _ ← check_deadline;
      if negb (bool_decide (anchor.(SourceToken.text) = first.2)) then phrase_loop first later tokens s else
      final_token ← lift (phrase_rest anchor.(SourceToken.position) first.1 later tokens anchor);
      match final_token with
      | None => phrase_loop first later tokens s
      | Some final_token =>
          let s := Traced.hit max_spans s (source_span source.(TraceSource.utf16) anchor.(SourceToken.start) final_token.(SourceToken.end_),
                     TracePlan.phrase_marker) in
          if enough s then mret s else phrase_loop first later tokens s
      end
  end.

Definition span_le (a b : TraceSpan.t) : Prop :=
  a.(TraceSpan.start) < b.(TraceSpan.start) ∨ a.(TraceSpan.start) = b.(TraceSpan.start) ∧ a.(TraceSpan.end_) <= b.(TraceSpan.end_).
#[export] Instance span_le_dec : RelDecision span_le.
Proof. intros a b. unfold span_le. apply _. Defined.
(** [spans.sort_by_key(|span| (span.start, span.end))] and [spans.dedup()] *)
Definition sort_spans (l : list TraceSpan.t) : list TraceSpan.t := dedup (merge_sort span_le l).

Definition trace_loops (analyzed_fuzzy : bool) : M Clock Traced.t :=
  let analyzed := source.(TraceSource.analyzed) in
  let surface := source.(TraceSource.surface) in
  match plan with
  | TracePlan.Any terms | TracePlan.All terms => scan (terms_hit terms) false 0 analyzed Traced.empty
  | TracePlan.Phrase [] => mret Traced.empty
  | TracePlan.Phrase (first :: later) => phrase_loop first later analyzed Traced.empty
  | TracePlan.Prefix completed prefix matcher =>
      s ← scan (terms_hit completed) false 0 analyzed Traced.empty;
      scan (prefix_hit prefix matcher) false 0 surface s
  | TracePlan.Fuzzy exact fuzzy =>
      let by_position := if analyzed_fuzzy then ∅ else analyzed_by_position in
      scan (fuzzy_hit exact fuzzy analyzed_fuzzy by_position) true 0 (if analyzed_fuzzy then analyzed else surface) Traced.empty
  end.
Definition trace_tokens (analyzed_fuzzy : bool) : M Clock (list TraceSpan.t * gset bytes * bool * bool) :=
  let needs_surface := TracePlan.needs_surface plan analyzed_fuzzy in
  let analysis_truncated := source.(TraceSource.analyzed_truncated) || (needs_surface && source.(TraceSource.surface_truncated)) in
  s ← trace_loops analyzed_fuzzy;
  mret (sort_spans s.(Traced.spans), s.(Traced.found), s.(Traced.spans_truncated), analysis_truncated).
End Trace.

(** [trace_value]: the tokens of a value, then its matches *)
Definition trace_value `{Unicode} `{Automata} (plan : TracePlan.t) (value : bytes) (max_spans : N)
  (analyzed_source_analyzer surface_source_analyzer : bytes → list Token.t) : M Clock (list TraceSpan.t * gset bytes * bool * bool) :=
  '(analyzed, analyzed_truncated) ← source_tokens analyzed_source_analyzer value;
  '(surface, surface_truncated) ← (if TracePlan.needs_surface plan false then source_tokens surface_source_analyzer value else mret ([], false));
  utf16 ← lift (utf16_offsets value);
  trace_tokens plan (TraceSource.mk [] 0 analyzed surface utf16 analyzed_truncated surface_truncated) max_spans false.

(** ** All the matches of a source *)
Section Reference.
Context `{Unicode} `{Automata}.
Context (plan : TracePlan.t) (source : TraceSource.t) (max_spans : N).
Abbreviation hits := (list (option TraceSpan.t * bytes)).
(** The same decisions, without stopping early. *)
Fixpoint token_hits (hit : SourceToken.t → outcome (option bytes)) (tokens : list SourceToken.t) : outcome hits :=
  match tokens with
  | [] => Ok []
  | token :: tokens =>
      term ← hit token; hs ← token_hits hit tokens;
      Ok (match term with Some term => (token_span source token, term) :: hs | None => hs end)
  end.
Fixpoint phrase_hits (first : N * bytes) (later : list (N * bytes)) (tokens : list SourceToken.t) : outcome hits :=
  match tokens with
  | [] => Ok []
  | anchor :: tokens =>
      if negb (bool_decide (anchor.(SourceToken.text) = first.2)) then phrase_hits first later tokens else
      final_token ← phrase_rest anchor.(SourceToken.position) first.1 later tokens anchor;
      hs ← phrase_hits first later tokens;
      Ok (match final_token with
          | Some final_token => (source_span source.(TraceSource.utf16) anchor.(SourceToken.start) final_token.(SourceToken.end_),
                                 TracePlan.phrase_marker) :: hs
          | None => hs end)
  end.
Definition source_hits (analyzed_fuzzy : bool) : outcome hits :=
  let analyzed := source.(TraceSource.analyzed) in
  let surface := source.(TraceSource.surface) in
  match plan with
  | TracePlan.Any terms | TracePlan.All terms => token_hits (terms_hit terms) analyzed
  | TracePlan.Phrase [] => Ok []
  | TracePlan.Phrase (first :: later) => phrase_hits first later analyzed
  | TracePlan.Prefix completed prefix matcher =>
      hs ← token_hits (terms_hit completed) analyzed; ks ← token_hits (prefix_hit prefix matcher) surface; Ok (hs ++ ks)
  | TracePlan.Fuzzy exact fuzzy =>
      let by_position := if analyzed_fuzzy then ∅ else analyzed_by_position source in
      token_hits (fuzzy_hit exact fuzzy analyzed_fuzzy by_position) (if analyzed_fuzzy then analyzed else surface)
  end.
Definition hit_terms (hs : hits) : gset bytes := list_to_set hs.*2.
Definition distinct_spans (hs : hits) : list TraceSpan.t := distinct_after [] (met_spans hs.*1).

(** [s'] has met the hits [hs] after [s], or enough of them. *)
Definition Stops (s : Traced.t) (hs : hits) (s' : Traced.t) : Prop :=
  ∃ hs1 hs2, hs = hs1 ++ hs2 ∧ s' = foldl (Traced.hit max_spans) s hs1 ∧ (hs2 = [] ∨ enough plan s' = true).
Lemma Stops_here s hs : hs = [] ∨ enough plan s = true → Stops s hs s.
Proof. intros Hs. by exists [], hs. Qed.
Lemma Stops_cons s h hs s' : Stops (Traced.hit max_spans s h) hs s' → Stops s (h :: hs) s'.
Proof. intros (hs1 & hs2 & -> & -> & He). by exists (h :: hs1), hs2. Qed.
Lemma check_every E index : Timed (if index `mod` 256 =? 0 then check_deadline else mret ()) (λ _, True) E.
Proof. case_if; auto with timed. Qed.

Lemma scan_stops hit always tokens : ∀ index s hs, token_hits hit tokens = Ok hs →
  Timed (scan plan source max_spans hit always index tokens s) (Stops s hs) (λ _, False).
Proof.
  induction tokens as [|token tokens IH]; intros index s hs Hh; cbn [token_hits scan] in *.
  { injection Hh as <-. apply Timed_ret, Stops_here. by left. }
  inv_ok. rename select (hit token = _) into Ht. rename select (token_hits _ _ = _) into Hts. rename x into term, x0 into hs.
  eapply Timed_bind; [apply check_every|]. intros _ _. eapply (Timed_bind _ _ (λ t, t = term)); [apply Timed_lift; by rewrite Ht|].
  intros ? ->. apply Timed_if.
  - intros [_ He]%andb_true_iff. apply Timed_ret. destruct term; [apply Stops_cons|]; apply Stops_here; auto.
  - intros _. eapply Timed_weaken; [by apply IH| |done]. intros s'. destruct term; [apply Stops_cons|done].
Qed.
Lemma phrase_loop_stops first later tokens : ∀ s hs, phrase_hits first later tokens = Ok hs →
  Timed (phrase_loop plan source max_spans first later tokens s) (Stops s hs) (λ _, False).
Proof.
  induction tokens as [|anchor tokens IH]; intros s hs Hh; cbn [phrase_hits phrase_loop] in *.
  { injection Hh as <-. apply Timed_ret, Stops_here. by left. }
  eapply Timed_bind; [apply Timed_check|]. intros _ _. destruct (negb _); [by apply IH|].
  inv_ok. rename select (phrase_rest _ _ _ _ _ = _) into Ht. rename select (phrase_hits _ _ _ = _) into Hts. rename x into final.
  eapply (Timed_bind _ _ (λ t, t = final)); [apply Timed_lift; by rewrite Ht|]. intros ? ->. destruct final as [final|]; [|by apply IH].
  apply Timed_if; intros He.
  - apply Timed_ret, Stops_cons, Stops_here. auto.
  - eapply Timed_weaken; [by apply IH| |done]. intros s'. apply Stops_cons.
Qed.

(** What a number of hits amounts to. *)
Lemma fold_found hs s : Traced.found (foldl (Traced.hit max_spans) s hs) = hit_terms hs ∪ s.(Traced.found).
Proof.
  revert s. induction hs as [|h hs IH]; intros s; cbn [foldl].
  { change (hit_terms []) with (∅ : gset bytes). by rewrite (left_id_L ∅ (∪)). }
  rewrite IH. unfold Traced.hit.
  destruct (push_trace_span _ _ _ _) as [[spans seen] full]. cbn [Traced.found]. unfold hit_terms. rewrite fmap_cons. cbn. set_solver.
Qed.
Lemma fold_spans hs : ∀ s, let s' := foldl (Traced.hit max_spans) s hs in
  (s'.(Traced.spans), s'.(Traced.seen_spans), s'.(Traced.spans_truncated))
  = foldl (λ '(spans, seen, truncated) span,
    let '(spans, seen, full) := push_trace_span spans seen span max_spans in (spans, seen, truncated || full))
    (s.(Traced.spans), s.(Traced.seen_spans), s.(Traced.spans_truncated)) hs.*1.
Proof.
  induction hs as [|h hs IH]; intros s; [done|]. rewrite fmap_cons. cbn [foldl]. cbv zeta in *. rewrite IH. unfold Traced.hit.
  by destruct (push_trace_span _ _ _ _) as [[spans seen] full].
Qed.
Lemma fold_empty hs : let s := foldl (Traced.hit max_spans) Traced.empty hs in
  s.(Traced.spans) = take (N.to_nat max_spans) (distinct_spans hs)
  ∧ s.(Traced.spans_truncated) = bool_decide (N.to_nat max_spans < length (distinct_spans hs))%nat
  ∧ s.(Traced.found) = hit_terms hs.
Proof.
  cbv zeta. rewrite fold_found. cbn [Traced.found Traced.empty]. rewrite (right_id_L ∅ (∪)).
  destruct (push_all_loop max_spans hs.*1 [] ∅ false) as [seen Hp].
  - intros x. rewrite take_nil. split; [by intros ?%elem_of_empty|by intros ?%not_elem_of_nil].
  - symmetry. apply bool_decide_eq_false. cbn. lia.
  - rewrite take_nil in Hp. pose proof (fold_spans hs Traced.empty) as E. cbv zeta in E. cbn [Traced.spans Traced.seen_spans Traced.spans_truncated Traced.empty] in E.
    rewrite Hp in E. injection E as -> _ ->. done.
Qed.
(** Stopping early loses no span: the limit was reached. *)
Lemma distinct_app hs ks : ∃ l, distinct_spans (hs ++ ks) = distinct_spans hs ++ l.
Proof.
  unfold distinct_spans, met_spans. rewrite fmap_app, omap_app. unfold distinct_after. rewrite foldl_app. apply distinct_after_extends.
Qed.
Lemma stops_empty hs s : Stops Traced.empty hs s →
  s.(Traced.spans) = take (N.to_nat max_spans) (distinct_spans hs)
  ∧ s.(Traced.spans_truncated) = bool_decide (N.to_nat max_spans < length (distinct_spans hs))%nat
  ∧ s.(Traced.found) ⊆ hit_terms hs ∧ (s.(Traced.found) = hit_terms hs ∨ TracePlan.record_matches plan s.(Traced.found) = true).
Proof.
  intros (hs1 & hs2 & -> & -> & He). destruct (fold_empty hs1) as (Es & Et & Ef). rewrite Es, Et, Ef.
  destruct He as [->|He]; [rewrite app_nil_r; auto|]. unfold enough in He. apply andb_true_iff in He as [Ht Hm]. rewrite Et in Ht.
  apply bool_decide_eq_true in Ht. rewrite Ef in Hm. destruct (distinct_app hs1 hs2) as [l ->].
  split; [by rewrite take_app_le by lia|]. split; [by rewrite !bool_decide_eq_true_2 by (rewrite ?length_app; lia)|].
  split; [|auto]. unfold hit_terms. rewrite fmap_app, list_to_set_app_L. set_solver.
Qed.
End Reference.

(** ** Stopping early is unobservable *)
#[export] Instance span_le_trans : Transitive span_le.
Proof. intros a b c. unfold span_le. lia. Qed.
#[export] Instance span_le_total : Total span_le.
Proof. intros a b. unfold span_le. lia. Qed.
Lemma sort_spans_spec l : NoDup l → StronglySorted span_le (sort_spans l) ∧ sort_spans l ≡ₚ l.
Proof.
  intros Hd. unfold sort_spans. rewrite dedup_id by (by rewrite merge_sort_Permutation).
  split; [apply StronglySorted_merge_sort; apply _|apply merge_sort_Permutation].
Qed.

Section Loops.
Context `{Unicode} `{Automata}.
Context (source : TraceSource.t).
Abbreviation hits := (list (option TraceSpan.t * bytes)).
Implicit Types hs : hits.

(** The terms of the hits are those the decisions return. *)
Lemma token_hits_elem hit tokens hs : token_hits source hit tokens = Ok hs →
  ∀ x, x ∈ hit_terms hs ↔ ∃ token, token ∈ tokens ∧ hit token = Ok (Some x).
Proof.
  revert hs. induction tokens as [|token tokens IH]; intros hs Hh x; cbn [token_hits] in Hh.
  { injection Hh as <-. unfold hit_terms. cbn. rewrite elem_of_empty. split; [done|]. by intros (t & ?%not_elem_of_nil & _). }
  inv_ok. rename select (hit token = _) into Ht. rename select (token_hits _ _ _ = _) into Hts. rename x0 into term, x1 into ks.
  specialize (IH _ Hts x). setoid_rewrite elem_of_cons. destruct term as [term|].
  - unfold hit_terms in *. rewrite fmap_cons. cbn [snd list_to_set]. rewrite elem_of_union, elem_of_singleton, IH. split.
    + intros [->|(t & Hin & E)]; [exists token; auto|exists t; auto].
    + intros (t & [->|Hin] & E); [left; congruence|right; by exists t].
  - rewrite IH. split; [intros (t & ? & ?); exists t; auto|]. intros (t & [->|Hin] & E); [congruence|by exists t].
Qed.
Lemma terms_hit_Some terms token x : terms_hit terms token = Ok (Some x) ↔ x = token.(SourceToken.text) ∧ x ∈ elems terms.
Proof.
  unfold terms_hit. destruct (TraceTerms.contains terms token.(SourceToken.text)) eqn:E.
  - apply contains_elems in E. split; [intros [= <-]; auto|intros [-> _]; done].
  - split; [done|]. intros [-> Hx%contains_elems]. congruence.
Qed.
Lemma prefix_hit_Some prefix matcher token x : prefix_hit prefix matcher token = Ok (Some x) → x = TracePlan.prefix_marker.
Proof. unfold prefix_hit. intros Hp. apply bind_Ok in Hp as (b & _ & Hp). destruct b; congruence. Qed.
Lemma phrase_hits_terms first later tokens : ∀ hs, phrase_hits source first later tokens = Ok hs → hit_terms hs ⊆ {[TracePlan.phrase_marker]}.
Proof.
  induction tokens as [|anchor tokens IH]; intros hs Hh; cbn [phrase_hits] in Hh; [injection Hh as <-; unfold hit_terms; cbn; set_solver|].
  destruct (negb _); [by apply IH|]. inv_ok. rename select (phrase_hits _ _ _ _ = _) into Hts. specialize (IH _ Hts).
  destruct x; [|done]. unfold hit_terms in *. rewrite fmap_cons. cbn [snd list_to_set]. set_solver.
Qed.
Lemma hit_terms_app hs ks : hit_terms (hs ++ ks) = hit_terms hs ∪ hit_terms ks.
Proof. unfold hit_terms. by rewrite fmap_app, list_to_set_app_L. Qed.

(** No completed term ends the scan for them: the prefix is still missing. *)
Lemma not_enough_yet t p m s : TracePlan.prefix_marker ∉ s.(Traced.found) → enough (TracePlan.Prefix t p m) s = false.
Proof.
  intros Hn. unfold enough. cbn [TracePlan.record_matches]. rewrite (bool_decide_eq_false_2 (_ ∈ _)) by done.
  by rewrite andb_false_r, andb_false_l, andb_false_r.
Qed.
Lemma Stops_app plan max_spans s hs s' ks s'' :
  Stops plan max_spans s hs s' → enough plan s' = false → Stops plan max_spans s' ks s'' → Stops plan max_spans s (hs ++ ks) s''.
Proof.
  intros (hs1 & hs2 & -> & -> & [->|He]) Hn (ks1 & ks2 & -> & -> & Hk); [|congruence].
  exists (hs1 ++ ks1), ks2. rewrite app_nil_r, <- app_assoc, foldl_app. done.
Qed.

Section Plan.
Context (plan : TracePlan.t) (max_spans : N).
Lemma source_hits_vocabulary af hs : source_hits plan source af = Ok hs → vocabulary plan (hit_terms hs).
Proof.
  assert (∀ terms tokens hs, token_hits source (terms_hit terms) tokens = Ok hs → hit_terms hs ⊆ elems terms) as Ht.
  { intros terms tokens ks Hk x (token & _ & [_ ?]%terms_hit_Some)%(token_hits_elem _ _ _ Hk). done. }
  destruct plan as [t|t|[|first later]|t p m|e f]; cbn [source_hits vocabulary]; intros Hh; [by eapply Ht..| | | |done].
  - injection Hh as <-. unfold hit_terms. cbn. set_solver.
  - by eapply phrase_hits_terms.
  - inv_ok. rewrite hit_terms_app. rename select (token_hits _ (terms_hit _) _ = _) into H1. rename select (token_hits _ (prefix_hit _ _) _ = _) into H2.
    specialize (Ht _ _ _ H1). assert (hit_terms x0 ⊆ {[TracePlan.prefix_marker]}); [|set_solver].
    intros y (token & _ & ->%prefix_hit_Some)%(token_hits_elem _ _ _ H2). set_solver.
Qed.
Lemma trace_loops_stops af hs : plan_ok plan → source_hits plan source af = Ok hs →
  Timed (trace_loops plan source max_spans af) (Stops plan max_spans Traced.empty hs) (λ _, False).
Proof.
  intros Hok Hh. unfold trace_loops, source_hits in *. destruct plan as [t|t|[|first later]|t p m|e f].
  - by apply scan_stops.
  - by apply scan_stops.
  - injection Hh as <-. apply Timed_ret, Stops_here. auto.
  - by apply phrase_loop_stops.
  - inv_ok. rename select (token_hits _ (terms_hit _) _ = _) into H1. rename select (token_hits _ (prefix_hit _ _) _ = _) into H2.
    eapply Timed_bind; [by apply scan_stops|]. intros s Hs. eapply Timed_weaken; [by apply scan_stops| |done]. intros s' Hs'.
    eapply Stops_app; [exact Hs| |exact Hs']. apply not_enough_yet.
    destruct (stops_empty _ max_spans _ _ Hs) as (_ & _ & Hf & _). intros Hin%Hf. destruct Hok as [_ Hm]. apply Hm.
    by apply (token_hits_elem _ _ _ H1) in Hin as (token & _ & [_ ?]%terms_hit_Some).
  - by apply scan_stops.
Qed.
(** What [trace_tokens] returns, next to the list of all matches: the spans are
    the first distinct ones, sorted; it is exact whether there were more; and the
    terms found decide the record as all of them would, whatever [others] the
    other values contribute. *)
Lemma trace_tokens_reference af hs : plan_ok plan → source_hits plan source af = Ok hs →
  Timed (trace_tokens plan source max_spans af) (λ '(spans, found, spans_truncated, analysis_truncated),
      StronglySorted span_le spans ∧ spans ≡ₚ take (N.to_nat max_spans) (distinct_spans hs)
      ∧ spans_truncated = bool_decide (N.to_nat max_spans < length (distinct_spans hs))%nat
      ∧ analysis_truncated = (source.(TraceSource.analyzed_truncated)
                              || TracePlan.needs_surface plan af && source.(TraceSource.surface_truncated))
      ∧ found ⊆ hit_terms hs
      ∧ ∀ others, vocabulary plan others →
          TracePlan.record_matches plan (found ∪ others) = TracePlan.record_matches plan (hit_terms hs ∪ others))
    (λ _, False).
Proof.
  intros Hok Hh. unfold trace_tokens. eapply Timed_bind; [by apply trace_loops_stops|]. intros s Hs. apply Timed_ret.
  destruct (stops_empty plan max_spans _ _ Hs) as (-> & -> & Hf & Hm).
  assert (NoDup (take (N.to_nat max_spans) (distinct_spans hs))) as Hd.
  { assert (NoDup (distinct_spans hs)) as Hd by (apply distinct_after_NoDup, NoDup_nil_2).
    rewrite <- (take_drop (N.to_nat max_spans)) in Hd. by apply NoDup_app in Hd as [? _]. }
  destruct (sort_spans_spec _ Hd) as [Hsort Hperm]. split; [done|]. split; [done|]. split; [done|]. split; [done|]. split; [done|].
  intros others Ho. pose proof (source_hits_vocabulary _ _ Hh) as Hv. destruct Hm as [->|Hm]; [done|].
  assert (vocabulary plan (hit_terms hs ∪ others)) as Hvo by (destruct plan; cbn [vocabulary] in *; set_solver).
  assert (vocabulary plan (s.(Traced.found) ∪ others)) as Hvs by (destruct plan; cbn [vocabulary] in *; set_solver).
  rewrite (record_matches_mono plan s.(Traced.found) (s.(Traced.found) ∪ others)) by (set_solver || done).
  by rewrite (record_matches_mono plan s.(Traced.found) (hit_terms hs ∪ others)) by (set_solver || done).
Qed.
End Plan.
End Loops.

(** ** Every value has its matches *)
Definition convert_token (t : Token.t) : SourceToken.t :=
  SourceToken.mk t.(Token.text) t.(Token.offset_from) t.(Token.offset_to) t.(Token.position).
Definition truncate_stream (stream : list Token.t) : list SourceToken.t :=
  convert_token <$> take (N.to_nat MAX_TRACE_TOKENS_PER_VALUE) stream.
Definition stream_truncated (stream : list Token.t) : bool := bool_decide (N.to_nat MAX_TRACE_TOKENS_PER_VALUE < length stream)%nat.
Lemma source_tokens_loop_spec limit stream tokens : N.of_nat limit = MAX_TRACE_TOKENS_PER_VALUE → (length tokens <= limit)%nat →
  Timed (source_tokens_loop stream tokens)
    (λ r, r = (tokens ++ (convert_token <$> take (limit - length tokens) stream), bool_decide (limit < length tokens + length stream)%nat)) (λ _, False).
Proof.
  intros Hlimit. revert tokens. induction stream as [|t stream IH]; intros tokens Hl; cbn [source_tokens_loop].
  - apply Timed_ret. rewrite take_nil, app_nil_r. rewrite bool_decide_eq_false_2; [done|]. cbn. lia.
  - eapply Timed_bind; [apply check_every|]. intros _ _. rewrite <- Hlimit. unfold lenN. apply Timed_if; [intros E%N.eqb_eq|intros E%N.eqb_neq].
    + apply Timed_ret. assert (length tokens = limit) as El by lia. rewrite El, Nat.sub_diag.
      cbn [take fmap list_fmap]. rewrite app_nil_r, bool_decide_eq_true_2; [done|]. cbn. lia.
    + assert (length tokens < limit)%nat as El by lia.
      eapply Timed_weaken; [apply IH; rewrite length_app; cbn; lia| |done]. intros r ->. rewrite length_app. cbn [length].
      replace (limit - length tokens)%nat with (Datatypes.S (limit - (length tokens + 1))) by lia. cbn [take]. rewrite fmap_cons, <- app_assoc.
      f_equal. apply bool_decide_ext. lia.
Qed.
Lemma source_tokens_spec analyzer text :
  Timed (source_tokens analyzer text) (λ r, r = (truncate_stream (analyzer text), stream_truncated (analyzer text))) (λ _, False).
Proof.
  unfold source_tokens, truncate_stream, stream_truncated. generalize (N2Nat.id MAX_TRACE_TOKENS_PER_VALUE).
  generalize (N.to_nat MAX_TRACE_TOKENS_PER_VALUE). intros limit Hlimit.
  eapply Timed_weaken; [apply (source_tokens_loop_spec limit _ [] Hlimit); cbn; lia| |done]. intros r ->. cbn [length app]. by rewrite Nat.sub_0_r.
Qed.
(** The automata of the fuzzy matchers can be built. *)
Definition automata_total `{Automata} : Prop := ∀ field text options prefix, ∃ dfa, automaton field text options prefix = Ok dfa.
Section Total.
Context `{Unicode} `{Automata} (Htotal : automata_total).
Lemma matcher_matches_total m x : ∃ b, matcher_matches m x = Ok b.
Proof.
  unfold matcher_matches. destruct (_ || _); [by eexists|]. destruct (_ =? 0); [by eexists|].
  destruct (Htotal m.(FuzzyMatcher.field) m.(FuzzyMatcher.text) m.(FuzzyMatcher.options) m.(FuzzyMatcher.prefix)) as [dfa ->]. by eexists.
Qed.
Lemma any_matches_total body terms : (∀ x, ∃ b, body x = Ok b) → ∃ b, any_matches body terms = Ok b.
Proof.
  intros Hb. induction terms as [|x terms IH]; [by eexists|]. cbn [any_matches]. destruct (Hb x) as [b ->]. cbn. destruct b; [by eexists|done].
Qed.
Lemma matches_analyzed_total a terms : ∃ b, matches_analyzed a terms = Ok b.
Proof.
  unfold matches_analyzed. destruct terms; [|by eexists]. apply any_matches_total. intros x. destruct (FuzzyTraceTerm.matchers a); [apply matcher_matches_total|by eexists].
Qed.
Lemma matches_total a terms x : ∃ b, matches a terms x = Ok b.
Proof.
  unfold matches. destruct (FuzzyTraceTerm.matchers a) as [m|]; [|by eexists].
  assert (∃ b, match terms with Some terms => any_matches (matcher_matches m.(NativeFuzzyTraceMatchers.analyzed)) terms | None => Ok false end = Ok b) as [b ->].
  { destruct terms; [|by eexists]. apply any_matches_total, matcher_matches_total. }
  cbn. destruct b; [by eexists|apply matcher_matches_total].
Qed.
Lemma token_hits_exist source hit tokens : (∀ t, ∃ r, hit t = Ok r) → ∃ hs, token_hits source hit tokens = Ok hs.
Proof.
  intros Hh. induction tokens as [|t tokens [hs IH]]; [by eexists|]. cbn [token_hits]. destruct (Hh t) as [r ->]. cbn. rewrite IH. cbn. by eexists.
Qed.
Lemma fuzzy_alternative_total body fuzzy : (∀ a, ∃ b, body a = Ok b) → ∃ r, fuzzy_alternative body fuzzy = Ok r.
Proof.
  intros Hb. induction fuzzy as [|a fuzzy IH]; [by eexists|]. cbn [fuzzy_alternative]. destruct (Hb a) as [b ->]. cbn. destruct b; [by eexists|done].
Qed.
Lemma fuzzy_hit_total exact fuzzy af m token : ∃ r, fuzzy_hit exact fuzzy af m token = Ok r.
Proof.
  unfold fuzzy_hit. destruct (_ ≫= _); [by eexists|]. apply fuzzy_alternative_total. intros a.
  destruct af; [apply matches_analyzed_total|apply matches_total].
Qed.
End Total.
