(* ===== verification/Matching.v ===== *)
(** * When a record matches a plan

    The meaning of a trace plan, stated on the tokens of the record's values and
    without reference to the scan, and the theorem that [record_matches] decides
    it from the terms found. *)
From stdpp Require Import sorting.
From S2P Require Import Prelude.
From S2P Require Import Errors.
From S2P Require Import Bytes.
From S2P Require Import Request.
From S2P Require Import Text.
From S2P Require Import Response.
From S2P Require Import Spans.
From S2P Require Import Analysis.
From S2P Require Import Plan.
From S2P Require Import Tokens.
Local Open Scope N_scope.

(** Token streams number their tokens in order. *)
Definition in_order (tokens : list SourceToken.t) : Prop :=
  StronglySorted (λ a b, a.(SourceToken.position) <= b.(SourceToken.position)) tokens.
Definition positions_small (tokens : list SourceToken.t) : Prop := Forall (λ t, t.(SourceToken.position) <= ISIZE_MAX) tokens.

(** Some token of [tokens] has this text, or this position and text. *)
Definition occurs (tokens : list SourceToken.t) (x : bytes) : Prop := ∃ token, token ∈ tokens ∧ token.(SourceToken.text) = x.
Definition occurs_at (tokens : list SourceToken.t) (position : N) (x : bytes) : Prop :=
  ∃ token, token ∈ tokens ∧ token.(SourceToken.position) = position ∧ token.(SourceToken.text) = x.

(** ** Phrases *)
Lemma skip_while_app p l k : Forall (λ t, p t = true) l → skip_while p (l ++ k) = skip_while p k.
Proof. induction 1 as [|t l Ht _ IH]; [done|]. cbn [app skip_while]. by rewrite Ht. Qed.
(** A sorted list splits at a position. *)
Lemma split_at_position n tokens : in_order tokens → ∃ before here after, tokens = before ++ here ++ after
  ∧ Forall (λ t, t.(SourceToken.position) < n) before ∧ Forall (λ t, t.(SourceToken.position) = n) here
  ∧ Forall (λ t, n < t.(SourceToken.position)) after
  ∧ skip_while (λ t, t.(SourceToken.position) <? n) tokens = here ++ after
  ∧ take_while (λ t, t.(SourceToken.position) =? n) (here ++ after) = here
  ∧ skip_while (λ t, t.(SourceToken.position) =? n) (here ++ after) = after.
Proof.
  intros Ho. induction Ho as [|t tokens Ho IH Ht]; [by exists [], [], []|]. destruct IH as (b & h & a & E & Hb & Hh & Ha & E1 & E2 & E3).
  cbn [skip_while]. destruct (N.ltb_spec (SourceToken.position t) n) as [Hlt|Hge].
  { exists (t :: b), h, a. split; [by rewrite E|]. split; [by constructor|]. split; [done|]. split; [done|]. split; [by rewrite <- E1, E|done]. }
  assert (b = []) as ->.
  { destruct b as [|x b]; [done|]. rewrite E in Ht. apply Forall_inv in Ht. apply Forall_inv in Hb. lia. }
  cbn [app] in E. destruct (decide (SourceToken.position t = n)) as [Et|Et].
  - exists [], (t :: h), a. cbn [app]. split; [by rewrite E|]. split; [constructor|]. split; [by constructor|]. split; [done|].
    split; [by rewrite E|]. cbn [take_while skip_while]. rewrite (proj2 (N.eqb_eq _ _) Et), E2, E3. done.
  - assert (h = []) as ->.
    { destruct h as [|x h]; [done|]. rewrite E in Ht. apply Forall_inv in Ht. apply Forall_inv in Hh. lia. }
    exists [], [], (t :: a). cbn [app] in *. split; [by rewrite E|]. split; [constructor|]. split; [constructor|]. split; [constructor; [lia|done]|].
    split; [by rewrite E|]. cbn [take_while skip_while]. by rewrite (proj2 (N.eqb_neq _ _) Et).
Qed.
Lemma head_filter_Some {A} (P : A → Prop) `{∀ x, Decision (P x)} (l : list A) :
  match head (filter P l) with Some x => x ∈ l ∧ P x | None => ∀ x, x ∈ l → ¬ P x end.
Proof.
  destruct (filter P l) as [|x k] eqn:E; cbn.
  - intros x Hx HP. assert (x ∈ filter P l) as Hin by by apply list_elem_of_filter. rewrite E in Hin. by apply not_elem_of_nil in Hin.
  - assert (x ∈ filter P l) as Hin by (rewrite E; by left). apply list_elem_of_filter in Hin as [? ?]. done.
Qed.
(** The loop over the later terms finds them in their places. *)
Lemma phrase_rest_spec first_source first_query terms : ∀ rest final_token, increasing terms → query_small terms → in_order rest →
  first_source <= ISIZE_MAX → Forall (λ t, first_query < t.1) terms →
  ∃ r, phrase_rest first_source first_query terms rest final_token = Ok r
    ∧ (is_Some r ↔ Forall (λ '(position, x), occurs_at rest (first_source + (position - first_query)) x) terms).
Proof.
  induction terms as [|[p x] terms IH]; intros rest final Hi Hq Ho Hfs Hf; cbn [phrase_rest].
  { eexists. split; [done|]. split; [constructor|]. intros _. by eexists. }
  apply StronglySorted_inv in Hi as [Hi Hp]. apply Forall_cons in Hq as [Hpq Hq]. apply Forall_cons in Hf as [Hpf Hf]. cbn [fst] in *.
  unfold usize_sub, checked_sub, usize_add, checked_add. rewrite (proj2 (N.leb_le _ _)) by lia. cbn [mbind outcome_bind unwrap].
  unfold ISIZE_MAX in *. rewrite (proj2 (N.leb_le _ USIZE_MAX)) by (unfold USIZE_MAX; lia). cbn [mbind outcome_bind unwrap].
  destruct (split_at_position (first_source + (p - first_query)) rest Ho) as (b & h & a & E & Hb & Hh & Ha & -> & -> & ->).
  assert (Forall (λ t, t.(SourceToken.position) ≠ first_source + (p - first_query)) (b ++ a)) as Hother.
  { apply Forall_app. split; eapply Forall_impl; eauto; cbn; lia. }
  assert (occurs_at rest (first_source + (p - first_query)) x ↔ ∃ t, t ∈ h ∧ t.(SourceToken.text) = x) as Hx.
  { unfold occurs_at. rewrite E. split.
    - intros (t & Hin & Ep & Et). exists t. split; [|done]. rewrite !elem_of_app in Hin. rewrite Forall_app, !Forall_forall in Hother.
      destruct Hother as [H1 H2]. destruct Hin as [Hin|[Hin|Hin]]; [by apply H1 in Hin|done|by apply H2 in Hin].
    - intros (t & Hin & Et). exists t. rewrite Forall_forall in Hh. rewrite !elem_of_app. auto. }
  pose proof (head_filter_Some (λ t, SourceToken.text t = x) h) as Hhead. destruct (head _) as [token|].
  - destruct Hhead as [Hin Et]. destruct (IH a token) as (r & Hr & Hiff); [done|done| |done|done|].
    { rewrite E in Ho. apply StronglySorted_app_1_r in Ho. by apply StronglySorted_app_1_r in Ho. }
    exists r. split; [done|]. rewrite Forall_cons, Hx, Hiff. split.
    + intros Hall. split; [by exists token|]. eapply Forall_impl; [exact Hall|]. intros [q y] (t & Hint & Hy). exists t. split; [|done].
      rewrite E, !elem_of_app. auto.
    + intros [_ Hall]. rewrite Forall_forall in *. intros [q y] Hqy. destruct (Hall _ Hqy) as (t & Hint & Eq & Ey). exists t. split; [|done].
      specialize (Hp _ Hqy). specialize (Hf _ Hqy). cbn [fst] in *. rewrite E, !elem_of_app in Hint.
      destruct Hint as [Hint|[Hint|Hint]]; [| |done]; rewrite Forall_forall in Hb, Hh; [specialize (Hb _ Hint)|specialize (Hh _ Hint)]; lia.
  - eexists. split; [done|]. split; [by intros []|]. rewrite Forall_cons, Hx. intros [(t & Hin & Et) _]. by apply Hhead in Hin.
Qed.
(** A phrase starts at an anchor when every later term occurs at its distance. *)
Definition phrase_at (terms : list (N * bytes)) (tokens : list SourceToken.t) : Prop :=
  match terms with
  | [] => False
  | first :: later => ∃ anchor, anchor ∈ tokens ∧ anchor.(SourceToken.text) = first.2
      ∧ Forall (λ '(position, x), occurs_at tokens (anchor.(SourceToken.position) + (position - first.1)) x) later
  end.
Lemma phrase_hits_iff source first later hs tokens : ∀ before, increasing (first :: later) → query_small (first :: later) →
  in_order (before ++ tokens) → positions_small (before ++ tokens) → phrase_hits source first later tokens = Ok hs →
  TracePlan.phrase_marker ∈ hit_terms hs ↔ ∃ anchor, anchor ∈ tokens ∧ anchor.(SourceToken.text) = first.2
      ∧ Forall (λ '(position, x), occurs_at (before ++ tokens) (anchor.(SourceToken.position) + (position - first.1)) x) later.
Proof.
  intros before Hi Hq. revert before hs. induction tokens as [|anchor tokens IH]; intros before hs Ho Hs Hh; cbn [phrase_hits] in Hh.
  { injection Hh as <-. unfold hit_terms. cbn. rewrite elem_of_empty. split; [done|]. by intros (t & ?%not_elem_of_nil & _). }
  assert (before ++ anchor :: tokens = (before ++ [anchor]) ++ tokens) as Eb by (by rewrite <- app_assoc).
  rewrite Eb in Ho, Hs. rewrite Eb. setoid_rewrite elem_of_cons.
  destruct (bool_decide_reflect (SourceToken.text anchor = first.2)) as [Ea|Ea]; cbn [negb] in Hh.
  - apply bind_Ok in Hh as (final & Hf & Hh). apply bind_Ok in Hh as (ks & Hk & Hh).
    pose proof Hi as [Hi' Hp]%StronglySorted_inv. pose proof Hq as [_ Hq']%Forall_cons.
    destruct (phrase_rest_spec anchor.(SourceToken.position) first.1 later tokens anchor) as (r & Hr & Hiff); [done|done| | |done|].
    { by apply StronglySorted_app_1_r in Ho. }
    { unfold positions_small in Hs. rewrite !Forall_app in Hs. destruct Hs as [[_ Hs] _]. by apply Forall_inv in Hs. }
    rewrite Hf in Hr. injection Hr as <-. specialize (IH _ _ Ho Hs Hk).
    assert (is_Some final ↔ Forall (λ '(position, x), occurs_at ((before ++ [anchor]) ++ tokens) (anchor.(SourceToken.position) + (position - first.1)) x) later) as Hall.
    { rewrite Hiff, !Forall_forall. split; intros Hall [q y] Hqy; destruct (Hall _ Hqy) as (t & Hin & Et & Ey); exists t; (split; [|done]).
      - apply elem_of_app. auto.
      - apply elem_of_app in Hin as [Hin|]; [|done]. rewrite Forall_forall in Hp. specialize (Hp _ Hqy). cbn [fst] in Hp. exfalso.
        rewrite <- app_assoc in Ho. apply elem_of_app in Hin as [Hin|Hin%list_elem_of_singleton]; [|subst; lia].
        pose proof (StronglySorted_app_1_elem_of _ _ _ _ anchor Ho Hin ltac:(by left)) as Hle. cbn in Hle. lia. }
    destruct final as [final|]; injection Hh as <-.
    + unfold hit_terms. rewrite fmap_cons. cbn [snd list_to_set]. split; [|set_solver]. intros _. exists anchor. split; [by left|]. split; [done|].
      apply Hall. by eexists.
    + rewrite IH. split; [intros (t & ? & ?); exists t; auto|]. intros (t & [->|Hin] & Et & Hl); [|by exists t].
      apply Hall in Hl as [? ?]. done.
  - rewrite (IH _ _ Ho Hs Hh). split; [intros (t & ? & ?); exists t; auto|]. intros (t & [->|Hin] & Et & Hl); [done|by exists t].
Qed.

(** ** The meaning of a plan *)
Section Meaning.
Context `{Unicode} `{Automata}.
Implicit Types source : TraceSource.t.
Definition matcher_accepts (m : option FuzzyMatcher.t) (x : bytes) : Prop := ∃ matcher, m = Some matcher ∧ matcher_matches matcher x = Ok true.
(** The analyzed terms a fuzzy token is compared by. *)
Definition compared (analyzed_fuzzy : bool) source (token : SourceToken.t) : option (list bytes) :=
  if analyzed_fuzzy then Some [token.(SourceToken.text)] else analyzed_by_position source !! token.(SourceToken.position).
Definition alternative_matches (analyzed_fuzzy : bool) source (token : SourceToken.t) (alternative : FuzzyTraceTerm.t) : outcome bool :=
  if analyzed_fuzzy then matches_analyzed alternative (compared analyzed_fuzzy source token)
  else matches alternative (compared analyzed_fuzzy source token) token.(SourceToken.text).
Definition fuzzy_accepts (exact : TraceTerms.t) (fuzzy : list FuzzyTraceTerm.t) (analyzed_fuzzy : bool) source (token : SourceToken.t) : Prop :=
  (∃ terms x, compared analyzed_fuzzy source token = Some terms ∧ x ∈ terms ∧ x ∈ elems exact)
  ∨ ∃ alternative, alternative ∈ fuzzy ∧ alternative_matches analyzed_fuzzy source token alternative = Ok true.
(** A record with these values matches. *)
Definition plan_holds (plan : TracePlan.t) (analyzed_fuzzy : bool) (sources : list TraceSource.t) : Prop :=
  let somewhere x := ∃ source, source ∈ sources ∧ occurs source.(TraceSource.analyzed) x in
  match plan with
  | TracePlan.Any terms => ∃ x, x ∈ elems terms ∧ somewhere x
  | TracePlan.All terms => elems terms ≠ ∅ ∧ ∀ x, x ∈ elems terms → somewhere x
  | TracePlan.Phrase terms => ∃ source, source ∈ sources ∧ phrase_at terms source.(TraceSource.analyzed)
  | TracePlan.Prefix completed prefix matcher =>
      prefix ≠ [] ∧ (∀ x, x ∈ elems completed → somewhere x)
      ∧ ∃ source token, source ∈ sources ∧ token ∈ source.(TraceSource.surface)
          ∧ (prefix `prefix_of` token.(SourceToken.text) ∨ matcher_accepts matcher token.(SourceToken.text))
  | TracePlan.Fuzzy exact fuzzy =>
      ∃ source token, source ∈ sources
        ∧ token ∈ (if analyzed_fuzzy then source.(TraceSource.analyzed) else source.(TraceSource.surface))
        ∧ fuzzy_accepts exact fuzzy analyzed_fuzzy source token
  end.
Definition source_ok source : Prop := in_order source.(TraceSource.analyzed) ∧ positions_small source.(TraceSource.analyzed).

Lemma starts_with_iff s p : starts_with s p = true ↔ p `prefix_of` s.
Proof.
  unfold starts_with. rewrite bool_decide_eq_true. split.
  - intros <-. exists (drop (length p) s). by rewrite take_drop.
  - intros [k ->]. by rewrite take_app_length.
Qed.
Lemma prefix_hit_iff p m token x : prefix_hit p m token = Ok (Some x) ↔
  x = TracePlan.prefix_marker ∧ (p `prefix_of` token.(SourceToken.text) ∨ matcher_accepts m token.(SourceToken.text)
    ∧ starts_with token.(SourceToken.text) p = false).
Proof.
  unfold prefix_hit, matcher_accepts. rewrite <- starts_with_iff. destruct (starts_with _ p); cbn [mbind outcome_bind].
  - split; [intros [= <-]; auto|]. by intros [-> _].
  - destruct m as [m|]; cbn [mbind outcome_bind]; [|split; [done|]; by intros [_ [?|[(m & ? & _) _]]]].
    destruct (matcher_matches m _) as [[]| | |] eqn:E; cbn; (split; [try done; intros [= <-]; eauto 8|]); intros [-> [?|[(m' & [= <-] & E') _]]]; congruence.
Qed.
Lemma fuzzy_alternative_iff body fuzzy r : fuzzy_alternative body fuzzy = Ok r → is_Some r ↔ ∃ a, a ∈ fuzzy ∧ body a = Ok true.
Proof.
  revert r. induction fuzzy as [|a fuzzy IH]; intros r Hr; cbn [fuzzy_alternative] in Hr.
  - injection Hr as <-. split; [by intros []|]. by intros (a & ?%not_elem_of_nil & _).
  - apply bind_Ok in Hr as (b & Hb & Hr). setoid_rewrite elem_of_cons. destruct b.
    + injection Hr as <-. split; [exists a; auto|by eexists].
    + rewrite (IH _ Hr). split; [intros (c & ? & ?); exists c; auto|]. intros (c & [->|?] & E); [congruence|by exists c].
Qed.
Lemma fuzzy_hit_iff exact fuzzy af source token r :
  fuzzy_hit exact fuzzy af (if af then ∅ else analyzed_by_position source) token = Ok r → is_Some r ↔ fuzzy_accepts exact fuzzy af source token.
Proof.
  unfold fuzzy_hit, fuzzy_accepts.
  assert ((if af then Some [SourceToken.text token] else (if af then ∅ else analyzed_by_position source) !! SourceToken.position token)
    = compared af source token) as -> by by destruct af.
  intros Hr. destruct (compared af source token ≫= _) as [x|] eqn:E.
  - injection Hr as <-. split; [intros _; left|by eexists]. apply bind_Some in E as (terms & Hc & E). exists terms, x. split; [done|].
    pose proof (head_filter_Some (λ term, TraceTerms.contains exact term) terms) as Hh. rewrite E in Hh.
    destruct Hh as [? ?%Is_true_eq_true%contains_elems]. done.
  - assert ((∃ terms x, compared af source token = Some terms ∧ x ∈ terms ∧ x ∈ elems exact) ↔ False) as ->.
    { split; [|done]. intros (terms & x & Hc & Hx & Hex). rewrite Hc in E. cbn in E.
      pose proof (head_filter_Some (λ term, TraceTerms.contains exact term) terms) as Hh. rewrite E in Hh.
      apply (Hh x Hx). by apply Is_true_eq_left, contains_elems. }
    rewrite (fuzzy_alternative_iff _ _ _ Hr). unfold alternative_matches. rewrite (left_id False (∨)). done.
Qed.

(** ** Deciding it from the terms found *)
Lemma set_nonempty (X : gset bytes) : negb (bool_decide (X = ∅)) = true ↔ ∃ x, x ∈ X.
Proof.
  rewrite negb_true_iff, bool_decide_eq_false. split; [intros Hn; by apply set_choose_L|]. intros [x Hx] ->. by apply elem_of_empty in Hx.
Qed.
Section Record_.
Context (plan : TracePlan.t) (af : bool) (sources : list TraceSource.t) (hss : list (list (option TraceSpan.t * bytes))).
Hypothesis Hhits : Forall2 (λ source hs, source_hits plan source af = Ok hs) sources hss.
Definition all_found : gset bytes := ⋃ (hit_terms <$> hss).
Lemma all_found_elem x : x ∈ all_found ↔ ∃ source hs, source ∈ sources ∧ source_hits plan source af = Ok hs ∧ x ∈ hit_terms hs.
Proof.
  unfold all_found. rewrite elem_of_union_list. split.
  - intros (X & HX & Hx). apply list_elem_of_fmap in HX as (hs & -> & Hin). apply list_elem_of_lookup_1 in Hin as [i Hi].
    destruct (Forall2_lookup_r _ _ _ _ _ Hhits Hi) as (source & Hs & E). exists source, hs. split; [by eapply list_elem_of_lookup_2|done].
  - intros (source & hs & Hin & E & Hx). apply list_elem_of_lookup_1 in Hin as [i Hi].
    destruct (Forall2_lookup_l _ _ _ _ _ Hhits Hi) as (hs' & Hs & E'). rewrite E in E'. injection E' as <-.
    exists (hit_terms hs). split; [|done]. apply list_elem_of_fmap. exists hs. split; [done|]. by eapply list_elem_of_lookup_2.
Qed.
Lemma all_found_vocabulary : vocabulary plan all_found.
Proof.
  assert (∀ source hs, source_hits plan source af = Ok hs → vocabulary plan (hit_terms hs)) as Hv by (intros; by eapply source_hits_vocabulary).
  assert (∀ V : gset bytes, (∀ source hs, source_hits plan source af = Ok hs → hit_terms hs ⊆ V) → all_found ⊆ V) as Hsub.
  { intros V HV x (source & hs & _ & E & Hx)%all_found_elem. by eapply HV. }
  destruct plan; cbn [vocabulary] in *; [by apply Hsub..|done].
Qed.
Lemma sources_have_hits source : source ∈ sources → ∃ hs, source_hits plan source af = Ok hs.
Proof. intros [i Hi]%list_elem_of_lookup_1. destruct (Forall2_lookup_l _ _ _ _ _ Hhits Hi) as (hs & _ & E). by exists hs. Qed.
End Record_.
(** A text analyzed token is found exactly where it occurs. *)
Lemma terms_found source terms hs x : token_hits source (terms_hit terms) source.(TraceSource.analyzed) = Ok hs →
  x ∈ hit_terms hs ↔ x ∈ elems terms ∧ occurs source.(TraceSource.analyzed) x.
Proof.
  intros Hh. rewrite (token_hits_elem _ _ _ _ Hh). setoid_rewrite terms_hit_Some. unfold occurs. naive_solver.
Qed.
Lemma size_full (F V : gset bytes) : F ⊆ V → (N.of_nat (size F) =? N.of_nat (size V)) = true ↔ V ⊆ F.
Proof.
  intros Hs. rewrite N.eqb_eq. split; [|intros Hs'; f_equal; f_equal; by apply (anti_symm (⊆))].
  intros E. rewrite (set_subseteq_size_eq F V Hs) by lia. done.
Qed.
(** What a prefix plan finds in a source. *)
Lemma prefix_source_hits t p m af source hs x : source_hits (TracePlan.Prefix t p m) source af = Ok hs → x ∈ hit_terms hs ↔
  (x ∈ elems t ∧ occurs source.(TraceSource.analyzed) x) ∨ (x = TracePlan.prefix_marker ∧ ∃ token, token ∈ source.(TraceSource.surface)
    ∧ (p `prefix_of` token.(SourceToken.text) ∨ matcher_accepts m token.(SourceToken.text))).
Proof.
  intros E. cbn [source_hits] in E. apply bind_Ok in E as (h1 & E1 & E). apply bind_Ok in E as (h2 & E2 & [= <-]).
  rewrite hit_terms_app, elem_of_union, (terms_found _ _ _ x E1), (token_hits_elem _ _ _ _ E2).
  setoid_rewrite prefix_hit_iff. apply or_iff_compat_l. split.
  - intros (token & Hin & -> & [?|[? _]]); split; eauto.
  - intros (-> & token & Hin & Hd). exists token. split; [done|]. split; [done|].
    destruct (starts_with (SourceToken.text token) p) eqn:Ew; [left; by apply starts_with_iff|].
    destruct Hd as [Hd%starts_with_iff|]; [congruence|auto].
Qed.
Lemma token_hits_total source hit tokens hs : token_hits source hit tokens = Ok hs → ∀ token, token ∈ tokens → ∃ r, hit token = Ok r.
Proof.
  revert hs. induction tokens as [|t tokens IH]; intros hs Hh token Ht; [by apply not_elem_of_nil in Ht|]. cbn [token_hits] in Hh.
  apply bind_Ok in Hh as (r & Hr & Hh). apply bind_Ok in Hh as (ks & Hk & _). apply elem_of_cons in Ht as [->|Ht]; [by exists r|by eapply IH].
Qed.
(** ** Every source has its matches *)
Lemma phrase_hits_total source first later tokens : increasing (first :: later) → query_small (first :: later) →
  in_order tokens → positions_small tokens → ∃ hs, phrase_hits source first later tokens = Ok hs.
Proof.
  intros Hi Hq. induction tokens as [|anchor tokens IH]; intros Ho Hs; cbn [phrase_hits]; [by eexists|].
  apply StronglySorted_inv in Ho as [Ho _]. apply Forall_cons in Hs as [Ha Hs]. destruct (IH Ho Hs) as [ks Hk].
  destruct (negb _); [by exists ks|]. pose proof Hi as [Hi' Hp]%StronglySorted_inv. pose proof Hq as [_ Hq']%Forall_cons.
  destruct (phrase_rest_spec anchor.(SourceToken.position) first.1 later tokens anchor) as (r & -> & _); [done..|].
  cbn [mbind outcome_bind]. rewrite Hk. by eexists.
Qed.
Lemma prefix_hit_total p m token : automata_total → ∃ r, prefix_hit p m token = Ok r.
Proof.
  intros Ht. unfold prefix_hit. destruct (starts_with _ p); cbn [mbind outcome_bind]; [by eexists|].
  destruct m as [m|]; cbn [mbind outcome_bind]; [|by eexists].
  destruct (matcher_matches_total Ht m token.(SourceToken.text)) as [b ->]. by eexists.
Qed.
Lemma source_hits_total plan af source : automata_total → query_ok plan → source_ok source → ∃ hs, source_hits plan source af = Ok hs.
Proof.
  intros Ht Hq [Ho Hs]. assert (∀ t tokens, ∃ hs, token_hits source (terms_hit t) tokens = Ok hs) as Hterms.
  { intros t tokens. apply token_hits_exist. intros x. by eexists. }
  destruct plan as [t|t|[|first later]|t p m|e f]; cbn [source_hits query_ok] in *.
  - apply Hterms.
  - apply Hterms.
  - by eexists.
  - destruct Hq. by apply phrase_hits_total.
  - destruct (Hterms t source.(TraceSource.analyzed)) as [h1 ->]. cbn [mbind outcome_bind].
    destruct (token_hits_exist source (prefix_hit p m) source.(TraceSource.surface)) as [h2 ->]; [|by eexists].
    intros x. by apply prefix_hit_total.
  - apply token_hits_exist. intros x. by apply fuzzy_hit_total.
Qed.
(** The terms found decide whether the record matches. *)
Lemma record_matches_iff plan af sources hss : plan_ok plan → query_ok plan → Forall source_ok sources →
  Forall2 (λ source hs, source_hits plan source af = Ok hs) sources hss →
  TracePlan.record_matches plan (all_found hss) = true ↔ plan_holds plan af sources.
Proof.
  intros Hok Hq Hs Hh. pose proof (all_found_elem _ _ _ _ Hh) as Hf. pose proof (all_found_vocabulary _ _ _ _ Hh) as Hv.
  pose proof (sources_have_hits _ _ _ _ Hh) as Hex. rewrite Forall_forall in Hs.
  destruct plan as [t|t|ts|t p m|e f]; cbn [TracePlan.record_matches plan_holds plan_ok query_ok vocabulary] in *.
  - rewrite set_nonempty. setoid_rewrite Hf. split.
    + intros (x & source & hs & Hin & E & Hx). apply (terms_found _ _ _ x E) in Hx as [Hx Ho]. exists x. split; [done|]. by exists source.
    + intros (x & Hx & source & Hin & Ho). destruct (Hex source Hin) as [hs E]. exists x, source, hs. split; [done|]. split; [done|].
      by apply (terms_found _ _ _ x E).
  - rewrite Hok, andb_true_iff, size_full, negb_true_iff, N.eqb_neq by done. split.
    + intros [Hn Hsub]. split; [intros E; rewrite E, size_empty in Hn; done|]. intros x Hx. apply Hsub, Hf in Hx as (source & hs & Hin & E & Hx).
      exists source. split; [done|]. by apply (terms_found _ _ _ x E) in Hx as [_ ?].
    + intros [Hn Hall]. split; [intros E; apply Hn, leibniz_equiv, size_empty_inv; lia|]. intros x Hx. destruct (Hall x Hx) as (source & Hin & Ho).
      destruct (Hex source Hin) as [hs E]. apply Hf. exists source, hs. split; [done|]. split; [done|]. by apply (terms_found _ _ _ x E).
  - rewrite andb_true_iff, negb_true_iff, bool_decide_eq_false, bool_decide_eq_true, Hf. destruct ts as [|first later].
    { split; [by intros [? _]|by intros (source & _ & [])]. }
    destruct Hq as [Hi Hqs]. split.
    + intros (_ & source & hs & Hin & E & Hx). exists source. split; [done|]. destruct (Hs source Hin) as [Ho Hp].
      by apply (phrase_hits_iff source first later hs source.(TraceSource.analyzed) []) in Hx.
    + intros (source & Hin & Ha). split; [done|]. destruct (Hex source Hin) as [hs E]. destruct (Hs source Hin) as [Ho Hp].
      exists source, hs. split; [done|]. split; [done|]. by apply (phrase_hits_iff source first later hs source.(TraceSource.analyzed) []).
  - destruct Hok as [Hok Hm]. rewrite !andb_true_iff, negb_true_iff, bool_decide_eq_false, bool_decide_eq_true, Hok.
    assert (N.of_nat (size (elems t)) + 1 = N.of_nat (size ({[TracePlan.prefix_marker]} ∪ elems t))) as ->
      by (rewrite size_union by set_solver; rewrite size_singleton; lia).
    rewrite size_full by done.
    rewrite Hf. split.
    + intros [[Hp (source & hs & Hin & E & Hx)] Hsub]. split; [done|]. split.
      * intros x Hx'. assert (x ∈ all_found hss) as (s' & hs' & Hin' & E' & Hx2)%Hf by set_solver.
        apply (prefix_source_hits _ _ _ _ _ _ _ E') in Hx2 as [[_ Ho]|[-> _]]; [by exists s'|done].
      * apply (prefix_source_hits _ _ _ _ _ _ _ E) in Hx as [[? _]|(_ & token & Ht)]; [done|]. by exists source, token.
    + intros (Hp & Hall & source & token & Hin & Ht). destruct (Hex source Hin) as [hs E].
      assert (TracePlan.prefix_marker ∈ all_found hss) as Hmf.
      { apply Hf. exists source, hs. split; [done|]. split; [done|]. apply (prefix_source_hits _ _ _ _ _ _ _ E). right. split; [done|]. by exists token. }
      split; [split; [done|by apply Hf]|]. intros x [->%elem_of_singleton|Hx]%elem_of_union; [done|].
      destruct (Hall x Hx) as (s' & Hin' & Ho). destruct (Hex s' Hin') as [hs' E']. apply Hf. exists s', hs'. split; [done|]. split; [done|].
      apply (prefix_source_hits _ _ _ _ _ _ _ E'). by left.
  - rewrite set_nonempty. setoid_rewrite Hf. split.
    + intros (x & source & hs & Hin & E & Hx). cbn [source_hits] in E. apply (token_hits_elem _ _ _ _ E) in Hx as (token & Ht & Ex).
      exists source, token. split; [done|]. split; [done|]. apply (fuzzy_hit_iff _ _ _ _ _ _ Ex). by eexists.
    + intros (source & token & Hin & Ht & Ha). destruct (Hex source Hin) as [hs E]. cbn [source_hits] in E.
      destruct (token_hits_total _ _ _ _ E token Ht) as [r Hr]. apply (fuzzy_hit_iff _ _ _ _ _ _ Hr) in Ha as [x ->].
      exists x, source, hs. split; [done|]. split; [done|]. apply (token_hits_elem _ _ _ _ E). by exists token.
Qed.

(** ** More tokens, more matches *)
Definition source_le (surface : bool) (s s' : TraceSource.t) : Prop :=
  s.(TraceSource.analyzed) ⊆ s'.(TraceSource.analyzed) ∧ (surface = true → s.(TraceSource.surface) ⊆ s'.(TraceSource.surface)).
(** A source without tokens does not matter. *)
Definition source_silent (surface : bool) (s : TraceSource.t) : Prop :=
  s.(TraceSource.analyzed) = [] ∧ (surface = true → s.(TraceSource.surface) = []).
Lemma analyzed_by_position_spec source position : match analyzed_by_position source !! position with
  | Some terms => terms ≠ [] ∧ ∀ x, x ∈ terms ↔ occurs_at source.(TraceSource.analyzed) position x
  | None => ∀ x, ¬ occurs_at source.(TraceSource.analyzed) position x
  end.
Proof.
  unfold analyzed_by_position. generalize (TraceSource.analyzed source). intros tokens. induction tokens as [|token tokens IH] using rev_ind.
  { cbn [foldl]. rewrite lookup_empty. intros x (t & Hin & _). by apply not_elem_of_nil in Hin. }
  rewrite foldl_app. cbn [foldl]. set (m := foldl _ ∅ tokens) in *.
  assert (∀ x, occurs_at (tokens ++ [token]) position x ↔
    occurs_at tokens position x ∨ token.(SourceToken.position) = position ∧ token.(SourceToken.text) = x) as Hx.
  { intros x. unfold occurs_at. setoid_rewrite elem_of_app. setoid_rewrite list_elem_of_singleton. naive_solver. }
  destruct (decide (token.(SourceToken.position) = position)) as [E|E].
  - subst position. rewrite lookup_insert_eq. split; [by intros ?%app_nil; naive_solver|]. intros x. rewrite elem_of_app, list_elem_of_singleton, Hx.
    destruct (m !! token.(SourceToken.position)) as [terms|]; cbn [default].
    + destruct IH as [_ IH]. rewrite IH. naive_solver.
    + specialize (IH x). split; [intros [Hn|]; [by apply not_elem_of_nil in Hn|naive_solver]|naive_solver].
  - rewrite lookup_insert_ne by done. destruct (m !! position) as [terms|].
    + destruct IH as [? IH]. split; [done|]. intros x. rewrite Hx, IH. naive_solver.
    + intros x. rewrite Hx. specialize (IH x). naive_solver.
Qed.
Lemma any_matches_iff body terms : (∀ x, ∃ b, body x = Ok b) → any_matches body terms = Ok true ↔ ∃ x, x ∈ terms ∧ body x = Ok true.
Proof.
  intros Hb. induction terms as [|x terms IH]; cbn [any_matches].
  - split; [done|]. by intros (x & ?%not_elem_of_nil & _).
  - destruct (Hb x) as [b E]. rewrite E. cbn [mbind outcome_bind]. setoid_rewrite elem_of_cons. destruct b; [split; [eauto|done]|].
    rewrite IH. split; [intros (y & ? & ?); eauto|]. intros (y & [->|?] & Hy); [congruence|eauto].
Qed.
Lemma matches_mono alternative text (terms terms' : option (list bytes)) : automata_total →
  (∀ l, terms = Some l → ∃ l', terms' = Some l' ∧ l ⊆ l') → matches alternative terms text = Ok true → matches alternative terms' text = Ok true.
Proof.
  intros Ht Hle. unfold matches. destruct (FuzzyTraceTerm.matchers alternative) as [m|].
  - pose proof (matcher_matches_total Ht m.(NativeFuzzyTraceMatchers.analyzed)) as Htot.
    destruct (any_matches_total _ (default [] terms') Htot) as [b' Eb'].
    intros Hm. assert ((match terms' with Some terms => any_matches (matcher_matches m.(NativeFuzzyTraceMatchers.analyzed)) terms | None => Ok false end) = Ok b') as ->.
    { destruct terms'; [done|]. injection Eb' as <-. done. }
    cbn [mbind outcome_bind]. destruct b'; [done|]. apply bind_Ok in Hm as (b & Hb & Hm). destruct b; [|done]. exfalso.
    destruct terms as [l|]; [|done]. destruct (Hle l eq_refl) as (l' & -> & Hsub). apply any_matches_iff in Hb as (x & Hx & E); [|done].
    assert (any_matches (matcher_matches m.(NativeFuzzyTraceMatchers.analyzed)) l' = Ok true) as E' by (apply any_matches_iff; [done|]; eauto).
    cbn in Eb'. congruence.
  - intros [= Hm]. f_equal. apply orb_true_iff in Hm. apply orb_true_iff. destruct Hm as [Hm|]; [left|by right].
    destruct terms as [l|]; [|done]. destruct (Hle l eq_refl) as (l' & -> & Hsub). apply existsb_exists in Hm as (x & Hx & E).
    apply existsb_exists. exists x. split; [|done]. apply list_elem_of_In. apply Hsub. by apply list_elem_of_In.
Qed.
Lemma compared_mono af surface s s' token l : source_le surface s s' → compared af s token = Some l → ∃ l', compared af s' token = Some l' ∧ l ⊆ l'.
Proof.
  intros [Ha _]. unfold compared. destruct af; [intros [= <-]; eauto|]. intros E.
  pose proof (analyzed_by_position_spec s token.(SourceToken.position)) as H1. rewrite E in H1.
  pose proof (analyzed_by_position_spec s' token.(SourceToken.position)) as H2.
  assert (∀ x, occurs_at (TraceSource.analyzed s) (SourceToken.position token) x → occurs_at (TraceSource.analyzed s') (SourceToken.position token) x) as Hocc.
  { intros x (t & Hin & ?). exists t. split; [by apply Ha|done]. }
  destruct (analyzed_by_position s' !! _) as [l'|].
  - exists l'. split; [done|]. destruct H1 as [_ H1], H2 as [_ H2]. intros x Hx. apply H2, Hocc, H1, Hx.
  - destruct H1 as [Hn H1]. destruct l as [|x l]; [done|]. exfalso. eapply H2, Hocc, H1. by left.
Qed.
Lemma plan_holds_mono plan af sources sources' : automata_total →
  (∀ s, s ∈ sources → source_silent (TracePlan.needs_surface plan af) s
    ∨ ∃ s', s' ∈ sources' ∧ source_le (TracePlan.needs_surface plan af) s s') →
  plan_holds plan af sources → plan_holds plan af sources'.
Proof.
  intros Ht Hle. assert (∀ s token, s ∈ sources → token ∈ TraceSource.analyzed s →
    ∃ s', s' ∈ sources' ∧ source_le (TracePlan.needs_surface plan af) s s') as Hloud.
  { intros s token Hs Hin. destruct (Hle s Hs) as [[E _]|]; [|done]. rewrite E in Hin. by apply not_elem_of_nil in Hin. }
  assert (∀ s token, TracePlan.needs_surface plan af = true → s ∈ sources → token ∈ TraceSource.surface s →
    ∃ s', s' ∈ sources' ∧ source_le true s s') as Hloud'.
  { intros s token En Hs Hin. rewrite En in Hle. destruct (Hle s Hs) as [[_ E]|]; [|done]. rewrite (E eq_refl) in Hin. by apply not_elem_of_nil in Hin. }
  assert (∀ x, (∃ source, source ∈ sources ∧ occurs (TraceSource.analyzed source) x) →
    ∃ source, source ∈ sources' ∧ occurs (TraceSource.analyzed source) x) as Hsome.
  { intros x (s & Hs & t & Hin & Et). destruct (Hloud s t Hs Hin) as (s' & Hs' & Ha & _). exists s'. split; [done|]. exists t. split; [by apply Ha|done]. }
  destruct plan as [t|t|ts|t p m|e f]; cbn [plan_holds].
  - intros (x & Hx & Ho). eauto.
  - intros [Hn Hall]. split; [done|]. eauto.
  - intros (s & Hs & Hp). destruct ts as [|first later]; [done|]. destruct Hp as (anchor & Hin & Et & Hl).
    destruct (Hloud s anchor Hs Hin) as (s' & Hs' & Ha & _). exists s'. split; [done|]. exists anchor. split; [by apply Ha|]. split; [done|].
    eapply Forall_impl; [exact Hl|]. intros [q x] (t & Ht' & ?). exists t. split; [by apply Ha|done].
  - intros (Hp & Hall & s & token & Hs & Htok & Hd). split; [done|]. split; [eauto|]. destruct (Hloud' s token eq_refl Hs Htok) as (s' & Hs' & _ & Hf).
    exists s', token. split; [done|]. split; [by apply Hf|done].
  - intros (s & token & Hs & Htok & Hacc). assert (∃ s', s' ∈ sources' ∧ source_le (negb af) s s') as (s' & Hs' & Hsle).
    { destruct af; [by eapply Hloud|by eapply Hloud']. }
    exists s', token. split; [done|]. split.
    { destruct Hsle as [Ha Hf]. destruct af; [by apply Ha|by apply Hf]. }
    destruct Hacc as [(l & x & Hc & Hx & He)|(a & Ha & Hm)]; [left|right].
    + destruct (compared_mono _ _ _ _ _ _ Hsle Hc) as (l' & Hc' & Hsub). exists l', x. split; [done|]. split; [by apply Hsub|done].
    + exists a. split; [done|]. unfold alternative_matches in *. destruct af; [done|]. eapply matches_mono; [done| |exact Hm].
      intros l Hc. by apply (compared_mono _ (negb false) s).
Qed.
End Meaning.
