(* ===== verification/Page.v ===== *)
(** * src/src/engine.rs: tracing the records of a page, single clauses

    [trace_matches_inner] for a request that is one clause: each record's values
    are matched, the spans kept are fitted into what is left of the response, and
    in recovery mode the page ends before a record that no longer fits. *)
From stdpp Require Import sorting.
From S2P Require Import Prelude.
From S2P Require Import Errors.
From S2P Require Import Bytes.
From S2P Require Import Wire.
From S2P Require Import Request.
From S2P Require Import Structure.
From S2P Require Import Admission.
From S2P Require Import Text.
From S2P Require Import Response.
From S2P Require Import Spans.
From S2P Require Import Analysis.
From S2P Require Import Membership.
From S2P Require Import Deadline.
From S2P Require Import Plan.
From S2P Require Import Tokens.
Local Open Scope N_scope.

Definition MAX_TRACE_SPANS : N := 1024.
Definition MAX_SEARCH_RESPONSE_BYTES : N := N.shiftl 8 20.

(** The variables of a record's first pass. *)
Module RecordTrace.
Record t := mk {
  pending_values : list (bytes * N * list TraceSpan.t); found : gset bytes; record_span_budget : N;
  shared_exhausted : bool; record_truncated : bool; record_analysis_truncated : bool }.
Definition start (remaining_spans : N) : t := mk [] ∅ remaining_spans false false false.
End RecordTrace.
(** The variables of its second pass, and of the whole page. *)
Module Kept.
Record t := mk {
  shared_exhausted : bool; complete : bool; remaining_spans : N; record_bytes : N; values : list TraceValueMatch.t }.
End Kept.
Module Page.
Record t := mk {
  complete : bool; remaining_spans : N; response_bytes : N; progress : TraceProgress.t; matched_records : list TraceRecordMatch.t }.
End Page.

Section Trace.
Context `{Unicode} `{Automata}.
Context (final_analyzer : bytes → list Token.t) (self : Engine.t).

(** The body of the loop over [source_values]. *)
Definition trace_source_value (plan : TracePlan.t) (field : bytes) (s : RecordTrace.t) (entry : nat * bytes) : M Clock RecordTrace.t :=
  let '(value_index, value) := entry in
  _ ← check_deadline;
  '(spans, terms, spans_truncated, analysis_truncated) ←
    trace_value plan value s.(RecordTrace.record_span_budget) self.(Engine.index_analyzer) self.(Engine.surface_index_analyzer);
  let s := RecordTrace.mk s.(RecordTrace.pending_values) (terms ∪ s.(RecordTrace.found)) s.(RecordTrace.record_span_budget)
    (s.(RecordTrace.shared_exhausted) || spans_truncated) (s.(RecordTrace.record_truncated) || (spans_truncated || analysis_truncated))
    (s.(RecordTrace.record_analysis_truncated) || analysis_truncated) in
  if bool_decide (spans = []) then mret s else
  mret (RecordTrace.mk (s.(RecordTrace.pending_values) ++ [(field, N.of_nat value_index, spans)]) s.(RecordTrace.found)
    (saturating_sub s.(RecordTrace.record_span_budget) (lenN spans)) s.(RecordTrace.shared_exhausted) s.(RecordTrace.record_truncated)
    s.(RecordTrace.record_analysis_truncated)).
(** [.iter().enumerate()] *)
Definition enumerate {A} (l : list A) : list (nat * A) := imap pair l.
Definition trace_source_field (plan : TracePlan.t) (selected_names : gset bytes) (s : RecordTrace.t) (field : bytes * list bytes)
  : M Clock RecordTrace.t :=
  let '(field, source_values) := field in
  if bool_decide (self.(Engine.field_lookup) !! field = None) then fail_with (invalid ("unknown trace field " +:+ show_str field)) else
  if negb (bool_decide (field ∈ selected_names)) then mret s else
  foldM (trace_source_value plan field) s (enumerate source_values).

(** The body of the loop over [pending_values]. *)
Definition keep_value (response_bytes record_header_bytes : N) (k : Kept.t) (entry : bytes * N * list TraceSpan.t) : outcome Kept.t :=
  let '(field, value_index, spans) := entry in
  let value_header_bytes := saturating_add 10 (lenN field) in
  let available := saturating_sub (saturating_sub (saturating_sub MAX_SEARCH_RESPONSE_BYTES response_bytes) record_header_bytes)
    k.(Kept.record_bytes) in
  let byte_limited_spans := saturating_sub available value_header_bytes / 8 in
  let keep := N.min (N.min (lenN spans) k.(Kept.remaining_spans)) byte_limited_spans in
  let cut := keep <? lenN spans in
  let k := Kept.mk (k.(Kept.shared_exhausted) || cut) (k.(Kept.complete) && negb cut) k.(Kept.remaining_spans) k.(Kept.record_bytes) k.(Kept.values) in
  if keep =? 0 then Ok k else
  remaining_spans ← usize_sub k.(Kept.remaining_spans) keep;
  Ok (Kept.mk k.(Kept.shared_exhausted) k.(Kept.complete) remaining_spans
    (saturating_add k.(Kept.record_bytes) (value_header_bytes + keep * 8))
    (k.(Kept.values) ++ [TraceValueMatch.mk field value_index (take (N.to_nat keep) spans)])).

(** The end of the loop body: the state of the record is consumed. *)
Definition consume_record (page : Page.t) (recovery matched analysis_truncated shared_exhausted : bool) : Page.t * bool :=
  let state := TraceRecordState.mk
    (if matched then Some true else if analysis_truncated then None else Some false)
    (negb analysis_truncated) (negb analysis_truncated && (negb matched || negb shared_exhausted)) in
  (Page.mk page.(Page.complete) page.(Page.remaining_spans) page.(Page.response_bytes)
     (TraceProgress.consume page.(Page.progress) state) page.(Page.matched_records),
   negb (recovery && shared_exhausted && matched)).
Definition with_complete (page : Page.t) (complete : bool) : Page.t :=
  Page.mk complete page.(Page.remaining_spans) page.(Page.response_bytes) page.(Page.progress) page.(Page.matched_records).
(** The body of the loop over the records; the boolean is false for [break]. *)
Definition page_record (plan : TracePlan.t) (selected_names : gset bytes) (candidates : option (gset bytes)) (recovery : bool)
  (page : Page.t) (record : TraceRecord.t) : M Clock (Page.t * bool) :=
  _ ← check_deadline;
  if match candidates with Some ids => negb (bool_decide (record.(TraceRecord.id) ∈ ids)) | None => false end
  then mret (Page.mk page.(Page.complete) page.(Page.remaining_spans) page.(Page.response_bytes)
               (TraceProgress.consume page.(Page.progress) (TraceRecordState.mk (Some false) true true)) page.(Page.matched_records), true)
  else
  s ← foldM (trace_source_field plan selected_names) (RecordTrace.start page.(Page.remaining_spans)) record.(TraceRecord.fields);
  let page := with_complete page (page.(Page.complete) && negb s.(RecordTrace.record_analysis_truncated)) in
  let matched := TracePlan.record_matches plan s.(RecordTrace.found) in
  if negb matched
  then mret (consume_record page recovery matched s.(RecordTrace.record_analysis_truncated) s.(RecordTrace.shared_exhausted)) else
  let page := with_complete page (page.(Page.complete) && negb s.(RecordTrace.record_truncated)) in
  if negb recovery && bool_decide (s.(RecordTrace.pending_values) = []) then mret (page, true) else
  let record_header_bytes := saturating_add 6 (lenN record.(TraceRecord.id)) in
  k ← lift (foldO (keep_value page.(Page.response_bytes) record_header_bytes)
    (Kept.mk s.(RecordTrace.shared_exhausted) page.(Page.complete) page.(Page.remaining_spans) 0 []) s.(RecordTrace.pending_values));
  let page := Page.mk k.(Kept.complete) k.(Kept.remaining_spans) page.(Page.response_bytes) page.(Page.progress) page.(Page.matched_records) in
  if negb recovery && bool_decide (k.(Kept.values) = []) then mret (page, true) else
  let shared_exhausted := k.(Kept.shared_exhausted)
    || (saturating_sub MAX_SEARCH_RESPONSE_BYTES page.(Page.response_bytes) <? record_header_bytes + k.(Kept.record_bytes)) in
  if TraceProgress.defer page.(Page.progress) shared_exhausted then mret (with_complete page false, false) else
  let page := Page.mk page.(Page.complete) page.(Page.remaining_spans)
    (saturating_add page.(Page.response_bytes) (record_header_bytes + k.(Kept.record_bytes))) page.(Page.progress)
    (page.(Page.matched_records) ++ [TraceRecordMatch.mk record.(TraceRecord.id) k.(Kept.values)]) in
  mret (consume_record page recovery matched s.(RecordTrace.record_analysis_truncated) shared_exhausted).
(** [for record in records { .. }] with [break] *)
Fixpoint page_loop (body : Page.t → TraceRecord.t → M Clock (Page.t * bool)) (page : Page.t) (records : list TraceRecord.t) : M Clock Page.t :=
  match records with
  | [] => mret page
  | record :: records => '(page, more) ← body page record; if more : bool then page_loop body page records else mret page
  end.

Definition page_result (recovery : bool) (records : list TraceRecord.t) (page : Page.t) : TracePageResult.t :=
  let complete := page.(Page.complete)
    && (negb recovery || (lenN page.(Page.progress).(TraceProgress.states) =? lenN records)) in
  TraceProgress.finish page.(Page.progress) (TraceResult.mk complete page.(Page.matched_records)).
Definition trace_clause (request : SearchRequest.t) (clause : SearchClause.t) (records : list TraceRecord.t) (recovery : bool)
  : M Clock TracePageResult.t :=
  selected ← lift (selected_fields self clause.(SearchClause.fields));
  _ ← lift (require_surface_fields selected);
  let selected_names : gset bytes := list_to_set (EngineField.name <$> selected) in
  let candidates : option (gset bytes) := list_to_set <$> request.(SearchRequest.candidate_ids) in
  if negb recovery && bool_decide (candidates = Some ∅)
  then mret (TraceProgress.finish (TraceProgress.new false) (TraceResult.mk true [])) else
  plan ← lift (trace_plan final_analyzer self clause);
  page ← page_loop (page_record plan selected_names candidates recovery)
    (Page.mk true MAX_TRACE_SPANS (3 + (if recovery then 2 + lenN records else 0)) (TraceProgress.new recovery) []) records;
  mret (page_result recovery records page).
Definition trace_matches_inner (trace_expression : M Clock TracePageResult.t) (request : SearchRequest.t)
  (records : list TraceRecord.t) (recovery : bool) : M Clock TracePageResult.t :=
  _ ← check_deadline;
  _ ← lift (validate_trace_admission request records);
  match request.(SearchRequest.expression) with
  | SearchExpression.Clause clause => trace_clause request clause records recovery
  | _ => trace_expression
  end.
End Trace.
