(* ===== verification/Trails.v ===== *)
(** * src/src/engine.rs: tracing the records of a page, expressions

    [trace_expression]: every value of a record is analyzed once, within a token
    budget; each leaf of the expression is decided from the values of its fields,
    within a budget of work; the expression is evaluated in three values; and the
    spans of the deciding leaves are collected and fitted into the response. *)
From stdpp Require Import sorting.
From S2P Require Import Prelude.
From S2P Require Import Errors.
From S2P Require Import Bytes.
From S2P Require Import Wire.
From S2P Require Import Request.
From S2P Require Import Structure.
From S2P Require Import Admission.
From S2P Require Import Text.
From S2P Require Import Response.
From S2P Require Import Spans.
From S2P Require Import Analysis.
From S2P Require Import Membership.
From S2P Require Import Deadline.
From S2P Require Import Plan.
From S2P Require Import Tokens.
From S2P Require Import Page.
Local Open Scope N_scope.

Definition MAX_TRACE_EXPRESSION_TOKENS : N := 524288.
Definition MAX_TRACE_EXPRESSION_VALUES : N := 4096.
Definition MAX_TRACE_WORK_TOKENS : N := 8388608.

(** A step of a loop inside the body of ['records]: the next state, or
    [break 'records] (before which [result.complete] is always set to false). *)
Inductive step (A : Type) := Next (a : A) | BreakRecords.
Arguments Next {A}.
Arguments BreakRecords {A}.
Section FoldS.
Context {A S : Type} (f : S → A → M Clock (step S)).
Fixpoint foldS (s : S) (l : list A) : M Clock (step S) :=
  match l with
  | [] => mret (Next s)
  | a :: l => r ← f s a; match r with Next s => foldS s l | BreakRecords => mret BreakRecords end
  end.
End FoldS.

(** The variables of the loops. *)
Module Gather.
Record t := mk { sources : list TraceSource.t; remaining_tokens : N; missing_fields : gset bytes }.
Definition start : t := mk [] MAX_TRACE_EXPRESSION_TOKENS ∅.
Definition missing (g : t) (field : bytes) : t := mk g.(sources) g.(remaining_tokens) ({[field]} ∪ g.(missing_fields)).
End Gather.
Module Probe.
Record t := mk { found : gset bytes; unknown : bool; work : N; shared_exhausted : bool }.
End Probe.
Module Survey.
Record t := mk { membership : list (option bool); complete : bool; analysis_complete : bool; work : N; shared_exhausted : bool }.
End Survey.
Module Harvest.
Record t := mk {
  values : gmap (bytes * N) (gset TraceSpan.t); pending_spans : N; work : N;
  shared_exhausted : bool; spans_complete : bool; complete : bool }.
(** [shared_exhausted = true; spans_complete = false; result.complete = false] *)
Definition exhaust (h : t) : t := mk h.(values) h.(pending_spans) h.(work) true false false.
End Harvest.
Module Emit.
Record t := mk {
  record_bytes : N; matched_values : list TraceValueMatch.t; remaining_spans : N;
  shared_exhausted : bool; spans_complete : bool; complete : bool }.
End Emit.
Module Trail.
Record t := mk {
  complete : bool; records : list TraceRecordMatch.t; remaining_spans : N; remaining_bytes : N;
  progress : TraceProgress.t; work : N }.
Definition stop (t : t) : Trail.t := mk false t.(records) t.(remaining_spans) t.(remaining_bytes) t.(progress) t.(work).
Definition consume (t : t) (state : TraceRecordState.t) : Trail.t :=
  mk t.(complete) t.(records) t.(remaining_spans) t.(remaining_bytes) (TraceProgress.consume t.(progress) state) t.(work).
End Trail.

Section Trace.
Context `{Unicode} `{Automata}.
Context (self : Engine.t).

(** ** The sources of a record *)
(** [if tokens.len() > remaining_tokens { tokens.truncate(remaining_tokens); truncated = true }] *)
Definition truncate_to (remaining : N) (r : list SourceToken.t * bool) : list SourceToken.t * bool :=
  if remaining <? lenN r.1 then (take (N.to_nat remaining) r.1, true) else r.
Definition gather_value (surface_fields : gset bytes) (field : bytes) (g : Gather.t) (entry : nat * bytes) : M Clock Gather.t :=
  let '(value_index, value) := entry in
  if (lenN g.(Gather.sources) =? MAX_TRACE_EXPRESSION_VALUES) || ((g.(Gather.remaining_tokens) =? 0) && negb (bool_decide (value = [])))
  then mret (Gather.missing g field) else
  analyzed ← source_tokens self.(Engine.index_analyzer) value;
  let '(analyzed, analyzed_truncated) := truncate_to g.(Gather.remaining_tokens) analyzed in
  remaining_tokens ← lift (usize_sub g.(Gather.remaining_tokens) (lenN analyzed));
  surface ← (if negb (bool_decide (field ∈ surface_fields)) then mret ([], false)
             else if remaining_tokens =? 0 then mret ([], negb (bool_decide (value = [])))
             else source_tokens self.(Engine.surface_index_analyzer) value);
  let '(surface, surface_truncated) := truncate_to remaining_tokens surface in
  remaining_tokens ← lift (usize_sub remaining_tokens (lenN surface));
  if bool_decide (analyzed = []) && bool_decide (surface = []) && negb analyzed_truncated && negb surface_truncated
  then mret (Gather.mk g.(Gather.sources) remaining_tokens g.(Gather.missing_fields)) else
  utf16 ← lift (utf16_offsets value);
  mret (Gather.mk
    (g.(Gather.sources) ++ [TraceSource.mk field (N.of_nat value_index) analyzed surface utf16 analyzed_truncated surface_truncated])
    remaining_tokens g.(Gather.missing_fields)).
Definition gather_field (selected surface_fields : gset bytes) (g : Gather.t) (field : bytes * list bytes) : M Clock Gather.t :=
  let '(field, values) := field in
  if bool_decide (self.(Engine.field_lookup) !! field = None) then fail_with (invalid ("unknown trace field " +:+ show_str field)) else
  if negb (bool_decide (field ∈ selected)) then mret g else
  foldM (gather_value surface_fields field) g (enumerate values).

(** ** Which leaves match *)
Definition source_cost (leaf : TraceLeaf.t) (source : TraceSource.t) : N :=
  lenN source.(TraceSource.analyzed) + (if TraceLeaf.needs_surface leaf then lenN source.(TraceSource.surface) else 0).
Definition probe_source (progress : TraceProgress.t) (leaf : TraceLeaf.t) (p : Probe.t) (source : TraceSource.t) : M Clock (step Probe.t) :=
  if negb (bool_decide (source.(TraceSource.field) ∈ leaf.(TraceLeaf.fields))) then mret (Next p) else
  let cost := source_cost leaf source in
  if p.(Probe.work) <? cost then
    if TraceProgress.defer progress true then mret BreakRecords
    else mret (Next (Probe.mk p.(Probe.found) true p.(Probe.work) true))
  else
  work ← lift (usize_sub p.(Probe.work) cost);
  '(_, terms, _, truncated) ← trace_tokens leaf.(TraceLeaf.plan) source 0 leaf.(TraceLeaf.analyzed_fuzzy);
  mret (Next (Probe.mk (terms ∪ p.(Probe.found)) (p.(Probe.unknown) || truncated) work p.(Probe.shared_exhausted))).
Definition probe_leaf (progress : TraceProgress.t) (g : Gather.t) (s : Survey.t) (leaf : TraceLeaf.t) : M Clock (step Survey.t) :=
  let unknown := negb (bool_decide (leaf.(TraceLeaf.fields) ∩ g.(Gather.missing_fields) = ∅)) in
  r ← foldS (probe_source progress leaf) (Probe.mk ∅ unknown s.(Survey.work) s.(Survey.shared_exhausted)) g.(Gather.sources);
  match r with
  | BreakRecords => mret BreakRecords
  | Next p =>
      let m := if TracePlan.record_matches leaf.(TraceLeaf.plan) p.(Probe.found) then Some true
               else if p.(Probe.unknown) then None else Some false in
      mret (Next (Survey.mk (s.(Survey.membership) ++ [m]) (s.(Survey.complete) && negb p.(Probe.unknown))
        (s.(Survey.analysis_complete) && negb p.(Probe.unknown)) p.(Probe.work) p.(Probe.shared_exhausted)))
  end.

(** ** The spans of the deciding leaves *)
Definition entry_of (values : gmap (bytes * N) (gset TraceSpan.t)) (key : bytes * N) : gset TraceSpan.t := default ∅ (values !! key).
(** The loop over the spans of a source. *)
Fixpoint collect_spans (progress : TraceProgress.t) (key : bytes * N) (h : Harvest.t) (spans : list TraceSpan.t) : step Harvest.t :=
  match spans with
  | [] => Next h
  | span :: spans =>
      let entry := entry_of h.(Harvest.values) key in
      if decide (span ∈ entry) then collect_spans progress key h spans
      else if h.(Harvest.pending_spans) =? 0 then
        if TraceProgress.defer progress true then BreakRecords else Next (Harvest.exhaust h)
      else collect_spans progress key
        (Harvest.mk (<[key := {[span]} ∪ entry]> h.(Harvest.values)) (h.(Harvest.pending_spans) - 1) h.(Harvest.work)
          h.(Harvest.shared_exhausted) h.(Harvest.spans_complete) h.(Harvest.complete)) spans
  end.
Definition collect_source (progress : TraceProgress.t) (leaf : TraceLeaf.t) (h : Harvest.t) (source : TraceSource.t) : M Clock (step Harvest.t) :=
  if negb (bool_decide (source.(TraceSource.field) ∈ leaf.(TraceLeaf.fields))) then mret (Next h) else
  let cost := source_cost leaf source in
  if h.(Harvest.work) <? cost then
    if TraceProgress.defer progress true then mret BreakRecords else mret (Next (Harvest.exhaust h))
  else
  work ← lift (usize_sub h.(Harvest.work) cost);
  let key := (source.(TraceSource.field), source.(TraceSource.value_index)) in
  let entry := entry_of h.(Harvest.values) key in
  candidate_spans ← lift (usize_add h.(Harvest.pending_spans) (N.of_nat (size entry)));
  '(spans, _, truncated, _) ← trace_tokens leaf.(TraceLeaf.plan) source candidate_spans false;
  if truncated && TraceProgress.defer progress true then mret BreakRecords else
  mret (collect_spans progress key
    (Harvest.mk (<[key := entry]> h.(Harvest.values)) h.(Harvest.pending_spans) work (h.(Harvest.shared_exhausted) || truncated)
      (h.(Harvest.spans_complete) && negb truncated) (h.(Harvest.complete) && negb truncated)) spans).
Definition collect_leaf (progress : TraceProgress.t) (leaves : list TraceLeaf.t) (sources : list TraceSource.t) (h : Harvest.t) (index : N)
  : M Clock (step Harvest.t) :=
  leaf ← lift (unwrap (leaves !! N.to_nat index));
  foldS (collect_source progress leaf) h sources.

(** ** What fits *)
(** The order of the [BTreeMap]: fields as strings, then indices. *)
Definition key_le (a b : (bytes * N) * gset TraceSpan.t) : Prop :=
  bytes_lt a.1.1 b.1.1 ∨ a.1.1 = b.1.1 ∧ a.1.2 <= b.1.2.
#[local] Instance key_le_dec : RelDecision key_le.
Proof. intros a b. unfold key_le, bytes_lt. apply _. Defined.
Definition sorted_values (values : gmap (bytes * N) (gset TraceSpan.t)) : list ((bytes * N) * gset TraceSpan.t) :=
  merge_sort key_le (map_to_list values).
(** The body of the loop over [values]. *)
Definition emit_value (remaining_bytes : N) (e : Emit.t) (value : (bytes * N) * gset TraceSpan.t) : outcome Emit.t :=
  let '((field, value_index), spans) := value in
  let spans := merge_sort span_le (elements spans) in
  let header := 10 + lenN field in
  let keep := N.min (lenN spans) (saturating_sub remaining_bytes (e.(Emit.record_bytes) + header) / 8) in
  let cut := keep <? lenN spans in
  let e := Emit.mk e.(Emit.record_bytes) e.(Emit.matched_values) e.(Emit.remaining_spans) (e.(Emit.shared_exhausted) || cut)
    (e.(Emit.spans_complete) && negb cut) (e.(Emit.complete) && negb cut) in
  if keep =? 0 then Ok e else
  remaining_spans ← usize_sub e.(Emit.remaining_spans) keep;
  Ok (Emit.mk (e.(Emit.record_bytes) + (header + keep * 8))
    (e.(Emit.matched_values) ++ [TraceValueMatch.mk field value_index (take (N.to_nat keep) spans)]) remaining_spans
    e.(Emit.shared_exhausted) e.(Emit.spans_complete) e.(Emit.complete)).

(** ** A record *)
(** The end of the body, once the spans are collected. *)
Definition report_record (recovery : bool) (t : Trail.t) (record : TraceRecord.t) (analysis_complete : bool) (h : Harvest.t)
  : outcome (Trail.t * bool) :=
  e ← foldO (emit_value t.(Trail.remaining_bytes))
    (Emit.mk (6 + lenN record.(TraceRecord.id)) [] t.(Trail.remaining_spans) h.(Harvest.shared_exhausted) h.(Harvest.spans_complete)
      h.(Harvest.complete)) (sorted_values h.(Harvest.values));
  let over := t.(Trail.remaining_bytes) <? e.(Emit.record_bytes) in
  let t := Trail.mk (e.(Emit.complete) && negb over) t.(Trail.records) e.(Emit.remaining_spans) t.(Trail.remaining_bytes) t.(Trail.progress)
    h.(Harvest.work) in
  if over && negb recovery then Ok (t, true) else
  let shared_exhausted := e.(Emit.shared_exhausted) || over in
  let spans_complete := e.(Emit.spans_complete) && negb over in
  if TraceProgress.defer t.(Trail.progress) shared_exhausted then Ok (Trail.stop t, false) else
  let t := Trail.mk t.(Trail.complete) (t.(Trail.records) ++ [TraceRecordMatch.mk record.(TraceRecord.id) e.(Emit.matched_values)])
    t.(Trail.remaining_spans) (saturating_sub t.(Trail.remaining_bytes) e.(Emit.record_bytes)) t.(Trail.progress) t.(Trail.work) in
  Ok (Trail.consume t (TraceRecordState.mk (Some true) analysis_complete (spans_complete && analysis_complete)),
      negb (recovery && shared_exhausted)).
(** The decision of a record and what follows from it. *)
Definition decide_record (expression : TraceExpression.t) (leaves : list TraceLeaf.t) (recovery : bool) (t : Trail.t)
  (record : TraceRecord.t) (sources : list TraceSource.t) (s : Survey.t) : M Clock (Trail.t * bool) :=
  let t := Trail.mk s.(Survey.complete) t.(Trail.records) t.(Trail.remaining_spans) t.(Trail.remaining_bytes) t.(Trail.progress)
    s.(Survey.work) in
  decision ← lift (evaluate expression s.(Survey.membership));
  if TraceProgress.defer t.(Trail.progress) s.(Survey.shared_exhausted) then mret (Trail.stop t, false) else
  if negb (matched_true decision)
  then mret (Trail.consume t (TraceRecordState.mk decision.(TraceDecision.matched) s.(Survey.analysis_complete) s.(Survey.analysis_complete)),
             negb (recovery && s.(Survey.shared_exhausted)))
  else
  r ← foldS (collect_leaf t.(Trail.progress) leaves sources)
    (Harvest.mk ∅ t.(Trail.remaining_spans) t.(Trail.work) s.(Survey.shared_exhausted) true t.(Trail.complete))
    decision.(TraceDecision.leaves);
  match r with
  | BreakRecords => mret (Trail.stop t, false)
  | Next h => lift (report_record recovery t record s.(Survey.analysis_complete) h)
  end.
(** The body of ['records]; the boolean is false for [break]. *)
Definition trail_record (expression : TraceExpression.t) (leaves : list TraceLeaf.t) (selected surface_fields : gset bytes)
  (candidates : option (gset bytes)) (recovery : bool) (t : Trail.t) (record : TraceRecord.t) : M Clock (Trail.t * bool) :=
  _ ← check_deadline;
  if match candidates with Some ids => negb (bool_decide (record.(TraceRecord.id) ∈ ids)) | None => false end
  then mret (Trail.consume t (TraceRecordState.mk (Some false) true true), true) else
  g ← foldM (gather_field selected surface_fields) Gather.start record.(TraceRecord.fields);
  r ← foldS (probe_leaf t.(Trail.progress) g) (Survey.mk [] t.(Trail.complete) true t.(Trail.work) false) leaves;
  match r with
  | BreakRecords => mret (Trail.stop t, false)
  | Next s => decide_record expression leaves recovery t record g.(Gather.sources) s
  end.
Fixpoint trail_loop (body : Trail.t → TraceRecord.t → M Clock (Trail.t * bool)) (t : Trail.t) (records : list TraceRecord.t) : M Clock Trail.t :=
  match records with
  | [] => mret t
  | record :: records => '(t, more) ← body t record; if more : bool then trail_loop body t records else mret t
  end.

Definition trail_result (recovery : bool) (records : list TraceRecord.t) (t : Trail.t) : TracePageResult.t :=
  let complete := t.(Trail.complete) && (negb recovery || (lenN t.(Trail.progress).(TraceProgress.states) =? lenN records)) in
  TraceProgress.finish t.(Trail.progress) (TraceResult.mk complete t.(Trail.records)).
Definition leaf_fields (leaves : list TraceLeaf.t) : gset bytes := ⋃ (TraceLeaf.fields <$> leaves).
Definition trace_expression (final_analyzer : bytes → list Token.t) (request : SearchRequest.t) (records : list TraceRecord.t) (recovery : bool)
  : M Clock TracePageResult.t :=
  _ ← lift (validate_search_structure request.(SearchRequest.expression) self.(Engine.max_query_clauses) (lenN self.(Engine.fields)));
  '(expression, (leaves, _)) ← lift (prepare_trace_expression final_analyzer self request.(SearchRequest.expression) false
    ([], QueryConstructionBudget.default));
  let selected := leaf_fields leaves in
  let candidates : option (gset bytes) := list_to_set <$> request.(SearchRequest.candidate_ids) in
  remaining_bytes ← lift (usize_sub (MAX_SEARCH_RESPONSE_BYTES - 3) (if recovery then 2 + lenN records else 0));
  let surface_fields := leaf_fields (filter (λ leaf, TraceLeaf.needs_surface leaf) leaves) in
  t ← trail_loop (trail_record expression leaves selected surface_fields candidates recovery)
    (Trail.mk true [] MAX_TRACE_SPANS remaining_bytes (TraceProgress.new recovery) MAX_TRACE_WORK_TOKENS) records;
  mret (trail_result recovery records t).
End Trace.

(** [trace_matches] and [trace_matches_page] *)
Definition trace_matches `{Unicode} `{Automata} (final_analyzer : bytes → list Token.t) (self : Engine.t) (request : SearchRequest.t)
  (records : list TraceRecord.t) : M Clock TraceResult.t :=
  r ← trace_matches_inner final_analyzer self (trace_expression self final_analyzer request records false) request records false;
  mret r.(TracePageResult.trace).
Definition trace_matches_page `{Unicode} `{Automata} (final_analyzer : bytes → list Token.t) (self : Engine.t) (request : SearchRequest.t)
  (records : list TraceRecord.t) : M Clock TracePageResult.t :=
  trace_matches_inner final_analyzer self (trace_expression self final_analyzer request records true) request records true.
