(* ===== verification/Paging.v ===== *)
(** * The pages of a trace are right

    What the page of a single clause must say of each record, stated on the
    record's values and the plan, and the theorems that [trace_clause] says it:
    decisions, spans, completeness, progress and size. *)
From stdpp Require Import sorting.
From S2P Require Import Prelude.
From S2P Require Import Errors.
From S2P Require Import Bytes.
From S2P Require Import Wire.
From S2P Require Import Request.
From S2P Require Import Structure.
From S2P Require Import Admission.
From S2P Require Import Text.
From S2P Require Import Response.
From S2P Require Import Spans.
From S2P Require Import Analysis.
From S2P Require Import Membership.
From S2P Require Import Deadline.
From S2P Require Import Plan.
From S2P Require Import Tokens.
From S2P Require Import Matching.
From S2P Require Import Page.
Local Open Scope N_scope.

(** Token streams: positions never decrease (synonyms share theirs). *)
Definition stream_ok (analyzer : bytes → list Token.t) : Prop := ∀ text,
  StronglySorted (λ a b, a.(Token.position) <= b.(Token.position)) (analyzer text)
  ∧ Forall (λ t, t.(Token.position) <= ISIZE_MAX) (analyzer text).
Definition value_ok (value : bytes) : Prop := utf8_valid value = true ∧ lenN value <= U32_MAX.

(** ** One value *)
Section Value.
Context `{Unicode} `{Automata} (self : Engine.t) (plan : TracePlan.t).
(** The tokens of a value, all its matches and their spans. *)
Definition value_source (value : bytes) : TraceSource.t :=
  let analyzed := self.(Engine.index_analyzer) value in
  let surface := if TracePlan.needs_surface plan false then self.(Engine.surface_index_analyzer) value else [] in
  TraceSource.mk [] 0 (truncate_stream analyzed) (truncate_stream surface) (match utf16_offsets value with Ok offsets => offsets | _ => None end)
    (stream_truncated analyzed) (stream_truncated surface).
Definition value_hits (value : bytes) : list (option TraceSpan.t * bytes) :=
  match source_hits plan (value_source value) false with Ok hs => hs | _ => [] end.
Definition full_spans (value : bytes) : list TraceSpan.t := merge_sort span_le (distinct_spans (value_hits value)).
Definition value_truncated (value : bytes) : bool :=
  let source := value_source value in
  source.(TraceSource.analyzed_truncated) || TracePlan.needs_surface plan false && source.(TraceSource.surface_truncated).

Hypothesis Htotal : automata_total.
Hypothesis Hplan : plan_ok plan.
Hypothesis Hquery : query_ok plan.
Hypothesis Hstream : stream_ok self.(Engine.index_analyzer).
Lemma sorted_take {A} (R : A → A → Prop) n l : StronglySorted R l → StronglySorted R (take n l).
Proof. intros Hl. rewrite <- (take_drop n l) in Hl. by apply StronglySorted_app_1_l in Hl. Qed.
Lemma sorted_fmap {A B} (R : A → A → Prop) (R' : B → B → Prop) (f : A → B) l :
  (∀ a b, R a b → R' (f a) (f b)) → StronglySorted R l → StronglySorted R' (f <$> l).
Proof.
  intros Hf. induction 1 as [|a l _ IH Ha]; [constructor|]. rewrite fmap_cons. constructor; [done|]. apply Forall_fmap. eapply Forall_impl; [exact Ha|].
  cbn. auto.
Qed.
Lemma value_source_ok value : source_ok (value_source value).
Proof.
  destruct (Hstream value) as [Ho Hs]. unfold source_ok, in_order, positions_small, value_source, truncate_stream. cbn [TraceSource.analyzed].
  generalize (N.to_nat MAX_TRACE_TOKENS_PER_VALUE). intros n. split.
  - eapply sorted_fmap; [|by eapply sorted_take]. done.
  - apply Forall_fmap. by apply Forall_take.
Qed.
Lemma value_hits_Ok value : source_hits plan (value_source value) false = Ok (value_hits value).
Proof.
  unfold value_hits. destruct (source_hits_total plan false (value_source value) Htotal Hquery (value_source_ok value)) as [hs ->]. done.
Qed.
Lemma distinct_spans_NoDup hs : NoDup (distinct_spans hs).
Proof. apply distinct_after_NoDup, NoDup_nil_2. Qed.
Lemma full_spans_spec value : StronglySorted span_le (full_spans value) ∧ full_spans value ≡ₚ distinct_spans (value_hits value).
Proof. split; [apply StronglySorted_merge_sort; apply _|apply merge_sort_Permutation]. Qed.
(** What [trace_value] reports of a value. *)
Definition ValueTraced (value : bytes) (max_spans : N) (r : list TraceSpan.t * gset bytes * bool * bool) : Prop :=
  let '(spans, found, spans_truncated, analysis_truncated) := r in
  spans ⊆ full_spans value ∧ (spans_truncated = false → spans = full_spans value) ∧ lenN spans <= max_spans
  ∧ analysis_truncated = value_truncated value
  ∧ found ⊆ hit_terms (value_hits value)
  ∧ ∀ others, vocabulary plan others →
      TracePlan.record_matches plan (found ∪ others) = TracePlan.record_matches plan (hit_terms (value_hits value) ∪ others).
Lemma span_le_antisym a b : span_le a b → span_le b a → a = b.
Proof. destruct a as [a1 a2], b as [b1 b2]. unfold span_le. cbn. intros H1 H2. assert (a1 = b1 ∧ a2 = b2) as [-> ->] by lia. done. Qed.
Lemma trace_value_spec value max_spans : value_ok value →
  Timed (trace_value plan value max_spans self.(Engine.index_analyzer) self.(Engine.surface_index_analyzer))
    (ValueTraced value max_spans) (λ _, False).
Proof.
  intros [Hv Hl]. destruct (utf16_offsets_spec value Hv Hl) as (offsets & Ho & _). unfold trace_value.
  eapply Timed_bind; [apply source_tokens_spec|]. intros r1 ->.
  apply (Timed_bind _ _ (λ r, r = let surface := if TracePlan.needs_surface plan false then self.(Engine.surface_index_analyzer) value else [] in
    (truncate_stream surface, stream_truncated surface))).
  { apply Timed_if; intros ->; [apply source_tokens_spec|]. apply Timed_ret. unfold truncate_stream, stream_truncated.
    generalize (N.to_nat MAX_TRACE_TOKENS_PER_VALUE). intros n. rewrite take_nil, bool_decide_eq_false_2 by (cbn; lia). done. }
  intros r2 ->. cbv zeta. eapply Timed_bind; [apply (Timed_lift _ (λ o, o = offsets)); by rewrite Ho|]. intros o ->.
  replace (TraceSource.mk _ _ _ _ _ _ _) with (value_source value) by (unfold value_source; by rewrite Ho).
  eapply Timed_weaken; [eapply trace_tokens_reference; [exact Hplan|apply value_hits_Ok]| |done].
  intros [[[spans found] st] at_] (Hsort & Hperm & -> & -> & Hf & Hm). destruct (full_spans_spec value) as [Fs Fp].
  split; [|split; [|split; [|split; [done|split; [done|exact Hm]]]]].
  - intros x Hx. rewrite Hperm in Hx. rewrite Fp. by apply subseteq_take in Hx.
  - rewrite bool_decide_eq_false. intros Hn. rewrite take_ge in Hperm by lia.
    apply (StronglySorted_unique_strong span_le); [|done|done|by rewrite Hperm, Fp]. intros; by apply span_le_antisym.
  - unfold lenN. rewrite Hperm, length_take. lia.
Qed.
End Value.

(** ** One record *)
Section Record_.
Context `{Unicode} `{Automata} (self : Engine.t) (plan : TracePlan.t) (selected_names : gset bytes).
Abbreviation entry := (bytes * N * bytes)%type.
(** The values traced: those of the selected fields, with field and index. *)
Definition field_values (field : bytes * list bytes) : list entry :=
  if bool_decide (field.1 ∈ selected_names) then imap (λ i value, (field.1, N.of_nat i, value)) field.2 else [].
Definition record_values (record : TraceRecord.t) : list entry := record.(TraceRecord.fields) ≫= field_values.
Definition found_in (entries : list entry) : gset bytes := ⋃ ((λ e, hit_terms (value_hits self plan e.2)) <$> entries).
Definition truncated_in (entries : list entry) : bool := existsb (λ e, value_truncated self plan e.2) entries.
(** The spans of an entry, when there are some. *)
Definition full_value (e : entry) : option (bytes * N * list TraceSpan.t) :=
  let spans := full_spans self plan e.2 in if bool_decide (spans = []) then None else Some (e.1.1, e.1.2, spans).
(** A value reported is one of the entries, with some of its spans. *)
Definition genuine (entries : list entry) (p : bytes * N * list TraceSpan.t) : Prop :=
  p.2 ≠ [] ∧ ∃ value, (p.1.1, p.1.2, value) ∈ entries ∧ p.2 ⊆ full_spans self plan value.
Record RecordInv (entries : list entry) (s : RecordTrace.t) : Prop := {
  inv_vocabulary : vocabulary plan s.(RecordTrace.found);
  inv_matches : ∀ others, vocabulary plan others →
    TracePlan.record_matches plan (s.(RecordTrace.found) ∪ others) = TracePlan.record_matches plan (found_in entries ∪ others);
  inv_analysis : s.(RecordTrace.record_analysis_truncated) = truncated_in entries;
  inv_truncated : s.(RecordTrace.record_truncated) = s.(RecordTrace.shared_exhausted) || s.(RecordTrace.record_analysis_truncated);
  inv_pending : s.(RecordTrace.shared_exhausted) = false → s.(RecordTrace.pending_values) = omap full_value entries;
  inv_genuine : Forall (genuine entries) s.(RecordTrace.pending_values) }.

Lemma vocabulary_union F G : vocabulary plan F → vocabulary plan G → vocabulary plan (F ∪ G).
Proof. destruct plan; cbn [vocabulary]; [set_solver..|done]. Qed.
Lemma vocabulary_empty : vocabulary plan ∅.
Proof. destruct plan; cbn [vocabulary]; [apply empty_subseteq..|done]. Qed.
Lemma vocabulary_subseteq F G : F ⊆ G → vocabulary plan G → vocabulary plan F.
Proof. destruct plan; cbn [vocabulary]; [set_solver..|done]. Qed.
Lemma found_in_app l k : found_in (l ++ k) = found_in l ∪ found_in k.
Proof. unfold found_in. by rewrite fmap_app, union_list_app_L. Qed.
Lemma genuine_more entries more p : genuine entries p → genuine (entries ++ more) p.
Proof. intros (Hn & v & Hin & Hs). split; [done|]. exists v. split; [|done]. apply elem_of_app. auto. Qed.

Lemma record_inv_start remaining : RecordInv [] (RecordTrace.start remaining).
Proof.
  split; cbn; try done. apply vocabulary_empty.
Qed.
Hypothesis Htotal : automata_total.
Hypothesis Hplan : plan_ok plan.
Hypothesis Hquery : query_ok plan.
Hypothesis Hstream : stream_ok self.(Engine.index_analyzer).
Lemma value_vocabulary value : vocabulary plan (hit_terms (value_hits self plan value)).
Proof. eapply source_hits_vocabulary. by apply value_hits_Ok. Qed.
Lemma found_in_vocabulary entries : vocabulary plan (found_in entries).
Proof.
  induction entries as [|e entries IH]; [apply vocabulary_empty|]. unfold found_in. rewrite fmap_cons. cbn [union_list foldr].
  apply vocabulary_union; [apply value_vocabulary|exact IH].
Qed.
Lemma trace_source_value_spec entries field i value s : value_ok value → RecordInv entries s →
  Timed (trace_source_value self plan field s (i, value)) (RecordInv (entries ++ [(field, N.of_nat i, value)])) (λ _, False).
Proof.
  intros Hv [Hvoc Hm Ha Ht Hp Hg]. unfold trace_source_value. eapply Timed_bind; [apply Timed_check|]. intros _ _.
  eapply Timed_bind; [by apply trace_value_spec|]. intros [[[spans terms] st] at_] (Hsub & Hfull & _ & -> & Hf & Hvm). cbv zeta.
  set (entry := (field, N.of_nat i, value)).
  assert (vocabulary plan (terms ∪ s.(RecordTrace.found))) as Hvoc'.
  { apply vocabulary_union; [|done]. eapply vocabulary_subseteq; [exact Hf|apply value_vocabulary]. }
  assert (∀ others, vocabulary plan others → TracePlan.record_matches plan (terms ∪ s.(RecordTrace.found) ∪ others)
    = TracePlan.record_matches plan (found_in (entries ++ [entry]) ∪ others)) as Hm'.
  { intros others Ho. rewrite <- (assoc_L (∪)), Hvm by by apply vocabulary_union.
    replace (hit_terms (value_hits self plan value) ∪ (RecordTrace.found s ∪ others))
      with (RecordTrace.found s ∪ (hit_terms (value_hits self plan value) ∪ others)) by set_solver.
    rewrite Hm by (apply vocabulary_union; [apply value_vocabulary|done]). rewrite found_in_app. unfold found_in at 2. cbn.
    f_equal. set_solver. }
  assert (truncated_in (entries ++ [entry]) = truncated_in entries || value_truncated self plan value) as Ha'.
  { unfold truncated_in. rewrite existsb_app. cbn [existsb]. unfold entry. cbn [snd]. by rewrite orb_false_r. }
  assert (∀ x : bytes * N * list TraceSpan.t, spans ≠ [] → x = (field, N.of_nat i, spans) → genuine (entries ++ [entry]) x) as Hnew.
  { intros x Hn ->. split; [done|]. exists value. split; [|done]. apply elem_of_app. right. by left. }
  assert (omap full_value (entries ++ [entry]) = omap full_value entries ++ omap full_value [entry]) as Eo by by rewrite omap_app.
  assert (RecordTrace.record_truncated s || (st || value_truncated self plan value)
    = (RecordTrace.shared_exhausted s || st) || (RecordTrace.record_analysis_truncated s || value_truncated self plan value)) as Ht'.
  { rewrite Ht. destruct (RecordTrace.shared_exhausted s), (RecordTrace.record_analysis_truncated s), st; done. }
  destruct (bool_decide_reflect (spans = [])) as [Es|Es]; apply Timed_ret; split; cbn [RecordTrace.found RecordTrace.record_analysis_truncated
    RecordTrace.record_truncated RecordTrace.shared_exhausted RecordTrace.pending_values];
    try first [exact Hvoc' | exact Hm' | by rewrite Ha' , Ha | exact Ht'].
  - intros [Hs ->]%orb_false_iff. rewrite Eo, (Hp Hs). specialize (Hfull eq_refl). cbn. unfold full_value. cbn [entry fst snd].
    rewrite <- Hfull, bool_decide_eq_true_2 by done. by rewrite app_nil_r.
  - eapply Forall_impl; [exact Hg|]. intros p. apply genuine_more.
  - intros [Hs ->]%orb_false_iff. rewrite Eo, (Hp Hs). specialize (Hfull eq_refl). cbn. unfold full_value. cbn [entry fst snd].
    by rewrite <- Hfull, bool_decide_eq_false_2 by done.
  - apply Forall_app. split; [eapply Forall_impl; [exact Hg|]; intros p; apply genuine_more|]. apply Forall_singleton. by apply Hnew.
Qed.
Lemma enumerate_elem {A} (l : list A) before i a after : enumerate l = before ++ (i, a) :: after → a ∈ l.
Proof.
  intros E. assert ((i, a) ∈ enumerate l) as Hin by (rewrite E; apply elem_of_app; right; by left).
  unfold enumerate in Hin. apply elem_of_lookup_imap in Hin as (j & x & [= -> ->] & Hx). by eapply list_elem_of_lookup_2.
Qed.
Definition unknown_field (e : FulltextError) : Prop :=
  ∃ field, self.(Engine.field_lookup) !! field = None ∧ e = invalid ("unknown trace field " +:+ show_str field).
Lemma trace_source_field_spec entries field s : Forall value_ok field.2 → RecordInv entries s →
  Timed (trace_source_field self plan selected_names s field) (RecordInv (entries ++ field_values field)) unknown_field.
Proof.
  destruct field as [field vs]. intros Hv Hs. unfold trace_source_field, field_values. cbn [fst snd] in *.
  apply Timed_if; [intros E%bool_decide_eq_true; intros s0; left; by exists field|intros _].
  destruct (bool_decide_reflect (field ∈ selected_names)) as [Hf|Hf]; cbn [negb]; [|apply Timed_ret; by rewrite app_nil_r].
  apply (Timed_weaken _ (RecordInv (entries ++ ((λ '(i, value), (field, N.of_nat i, value)) <$> enumerate vs))) _ (λ _, False)); [| |done].
  2:{ intros s'. unfold enumerate. by rewrite fmap_imap. }
  apply (Timed_foldM _ (λ done, RecordInv (entries ++ ((λ '(i, value), (field, N.of_nat i, value)) <$> done)))); [by rewrite app_nil_r|].
  intros before [i value] todo s' E Hs'. rewrite fmap_app, app_assoc. apply trace_source_value_spec; [|done].
  rewrite Forall_forall in Hv. apply Hv. by eapply enumerate_elem.
Qed.
Lemma record_pass_spec record remaining : Forall (λ f, Forall value_ok f.2) record.(TraceRecord.fields) →
  Timed (foldM (trace_source_field self plan selected_names) (RecordTrace.start remaining) record.(TraceRecord.fields))
    (RecordInv (record_values record)) unknown_field.
Proof.
  intros Hv. unfold record_values. apply (Timed_foldM _ (λ done, RecordInv (done ≫= field_values))); [apply record_inv_start|].
  intros before field todo s E Hs. rewrite bind_app. cbn [mbind list_bind]. rewrite app_nil_r. apply trace_source_field_spec; [|done].
  rewrite Forall_forall in Hv. apply Hv. rewrite E. apply elem_of_app. right. by left.
Qed.
(** The record's own decision, from all its values. *)
Definition record_matched (record : TraceRecord.t) : bool := TracePlan.record_matches plan (found_in (record_values record)).
Lemma record_inv_matched record s : RecordInv (record_values record) s → TracePlan.record_matches plan s.(RecordTrace.found) = record_matched record.
Proof.
  intros [_ Hm _ _ _ _]. specialize (Hm ∅ vocabulary_empty). rewrite !(right_id_L ∅ (∪)) in Hm. exact Hm.
Qed.
Lemma record_matched_iff record : record_matched record = true ↔
  plan_holds plan false ((λ e, value_source self plan e.2) <$> record_values record).
Proof.
  assert (found_in (record_values record) = all_found ((λ e, value_hits self plan e.2) <$> record_values record)) as E.
  { unfold found_in, all_found. by rewrite <- list_fmap_compose. }
  unfold record_matched. rewrite E. apply record_matches_iff; [done|done| |].
  - apply Forall_fmap, Forall_true. intros e. by apply value_source_ok.
  - apply Forall2_fmap, Forall_Forall2_diag, Forall_true. intros e. by apply value_hits_Ok.
Qed.
End Record_.

(** ** What is kept of a record's spans *)
Definition value_match (p : bytes * N * list TraceSpan.t) : TraceValueMatch.t := TraceValueMatch.mk p.1.1 p.1.2 p.2.
Definition value_size (v : TraceValueMatch.t) : N := 10 + lenN v.(TraceValueMatch.field) + 8 * lenN v.(TraceValueMatch.spans).
Definition values_size (vs : list TraceValueMatch.t) : N := sum (value_size <$> vs).
Definition values_spans (vs : list TraceValueMatch.t) : N := sum ((λ v, lenN v.(TraceValueMatch.spans)) <$> vs).
(** A value kept comes from a pending one. *)
Definition kept_from (pending : list (bytes * N * list TraceSpan.t)) (v : TraceValueMatch.t) : Prop :=
  v.(TraceValueMatch.spans) ≠ [] ∧ ∃ p, p ∈ pending ∧ v.(TraceValueMatch.field) = p.1.1 ∧ v.(TraceValueMatch.value_index) = p.1.2
    ∧ v.(TraceValueMatch.spans) ⊆ p.2.
Section Kept.
Context (response_bytes header remaining : N) (shared complete : bool).
Record KeptInv (pending : list (bytes * N * list TraceSpan.t)) (k : Kept.t) : Prop := {
  kept_spans : k.(Kept.remaining_spans) + values_spans k.(Kept.values) = remaining;
  kept_bytes : k.(Kept.record_bytes) = values_size k.(Kept.values);
  kept_fits : k.(Kept.values) = [] ∨ response_bytes + header + k.(Kept.record_bytes) <= MAX_SEARCH_RESPONSE_BYTES;
  kept_shared : k.(Kept.shared_exhausted) = false → shared = false;
  kept_all : k.(Kept.shared_exhausted) = false → k.(Kept.values) = value_match <$> pending;
  kept_complete : k.(Kept.complete) = true → complete = true ∧ k.(Kept.values) = value_match <$> pending;
  kept_genuine : Forall (kept_from pending) k.(Kept.values) }.
Lemma max_response_small : MAX_SEARCH_RESPONSE_BYTES < USIZE_MAX.
Proof. by vm_compute. Qed.
Lemma values_size_snoc vs v : values_size (vs ++ [v]) = values_size vs + value_size v.
Proof. unfold values_size. rewrite fmap_app, sum_app. cbn. lia. Qed.
Lemma values_spans_snoc vs v : values_spans (vs ++ [v]) = values_spans vs + lenN v.(TraceValueMatch.spans).
Proof. unfold values_spans. rewrite fmap_app, sum_app. cbn. lia. Qed.
Lemma kept_from_more pending p v : kept_from pending v → kept_from (pending ++ [p]) v.
Proof. intros (Hn & q & Hq & ?). split; [done|]. exists q. split; [|done]. apply elem_of_app. auto. Qed.
Lemma keep_fits available vh keep : 0 < keep → keep <= (available - vh) / 8 → vh + keep * 8 <= available.
Proof.
  intros H0 Hk. pose proof (N.Div0.mul_div_le (available - vh) 8). lia.
Qed.
Lemma keep_value_spec pending p k : p.2 ≠ [] → KeptInv pending k →
  ∃ k', keep_value response_bytes header k p = Ok k' ∧ KeptInv (pending ++ [p]) k'.
Proof.
  destruct p as [[field index] spans]. cbn [snd]. intros Hn [Hs Hb Hf Hsh Ha Hc Hg]. unfold keep_value. cbv zeta.
  set (vh := saturating_add 10 (lenN field)). set (available := saturating_sub (saturating_sub (saturating_sub MAX_SEARCH_RESPONSE_BYTES _) _) _).
  set (keep := N.min _ _). destruct (N.eqb_spec keep 0) as [E0|E0].
  - assert ((keep <? lenN spans) = true) as ->.
    { apply N.ltb_lt. rewrite E0. destruct spans; [done|]. rewrite lenN_cons. lia. }
    eexists. split; [done|]. split; cbn [Kept.remaining_spans Kept.values Kept.record_bytes Kept.shared_exhausted Kept.complete]; try done.
    + by rewrite orb_true_r.
    + by rewrite orb_true_r.
    + by rewrite andb_false_r.
    + eapply Forall_impl; [exact Hg|]. intros v. apply kept_from_more.
  - assert (keep <= k.(Kept.remaining_spans) ∧ keep <= lenN spans ∧ keep <= saturating_sub available vh / 8) as (Hk1 & Hk2 & Hk3)
      by (unfold keep; lia).
    unfold saturating_sub in Hk3. apply keep_fits in Hk3; [|lia]. unfold available, saturating_sub in Hk3.
    assert (vh = 10 + lenN field) as Evh.
    { unfold vh in Hk3 |- *. unfold saturating_add in Hk3 |- *. pose proof max_response_small. lia. }
    assert (response_bytes + header + k.(Kept.record_bytes) + (vh + keep * 8) <= MAX_SEARCH_RESPONSE_BYTES) as Hfit by lia.
    cbn [Kept.remaining_spans]. unfold usize_sub, checked_sub. rewrite (proj2 (N.leb_le _ _) Hk1). cbn [unwrap mbind outcome_bind].
    eexists. split; [reflexivity|]. set (v := TraceValueMatch.mk field index (take (N.to_nat keep) spans)).
    assert (lenN v.(TraceValueMatch.spans) = keep) as Ev by (unfold v; cbn; rewrite lenN_take; lia).
    assert (saturating_add (Kept.record_bytes k) (vh + keep * 8) = Kept.record_bytes k + (vh + keep * 8)) as Esat.
    { unfold saturating_add. pose proof max_response_small. lia. }
    assert ((keep <? lenN spans) = false → value_match <$> pending ++ [(field, index, spans)] = (value_match <$> pending) ++ [v]) as Efull.
    { intros E%N.ltb_ge. rewrite fmap_app. cbn. unfold v, value_match. cbn. rewrite take_ge by (unfold lenN in *; lia). done. }
    split; cbn [Kept.remaining_spans Kept.values Kept.record_bytes Kept.shared_exhausted Kept.complete].
    + rewrite values_spans_snoc, Ev. lia.
    + rewrite Esat, values_size_snoc, Hb. unfold value_size. rewrite Ev, Evh. cbn. lia.
    + right. rewrite Esat. lia.
    + by intros [E1 _]%orb_false_iff; apply Hsh.
    + intros [E1 E2]%orb_false_iff. by rewrite (Efull E2), (Ha E1).
    + intros [E1 E2%negb_true_iff]%andb_true_iff. rewrite (Efull E2). destruct (Hc E1) as [-> ->]. done.
    + apply Forall_app. split; [eapply Forall_impl; [exact Hg|]; intros w; apply kept_from_more|]. apply Forall_singleton. split.
      * intros E. apply E0. by rewrite <- Ev, E.
      * exists (field, index, spans). split; [apply elem_of_app; right; by left|]. split; [done|]. split; [done|]. apply subseteq_take.
Qed.
Lemma keep_all_spec pending : Forall (λ p, p.2 ≠ []) pending →
  ∃ k, foldO (keep_value response_bytes header) (Kept.mk shared complete remaining 0 []) pending = Ok k ∧ KeptInv pending k.
Proof.
  intros Hn. apply (foldO_inv _ KeptInv).
  - split; cbn; try done; [lia|by left].
  - intros before p todo k E Hk. apply keep_value_spec; [|done]. rewrite Forall_forall in Hn. apply Hn. rewrite E. apply elem_of_app.
    right. by left.
Qed.
End Kept.

(** ** The page *)
Lemma sum_singleton {A} (f : A → N) a : sum (f <$> [a]) = f a.
Proof. cbn. lia. Qed.
Definition record_size (r : TraceRecordMatch.t) : N := 6 + lenN r.(TraceRecordMatch.id) + values_size r.(TraceRecordMatch.values).
Definition record_spans (r : TraceRecordMatch.t) : N := values_spans r.(TraceRecordMatch.values).
Section Page.
Context `{Unicode} `{Automata} (self : Engine.t) (plan : TracePlan.t) (selected_names : gset bytes) (candidates : option (gset bytes))
  (recovery : bool) (records : list TraceRecord.t).
Abbreviation matched_ record := (record_matched self plan selected_names record).
Abbreviation truncated_ record := (truncated_in self plan (record_values selected_names record)).
Definition rejected (record : TraceRecord.t) : bool :=
  match candidates with Some ids => negb (bool_decide (record.(TraceRecord.id) ∈ ids)) | None => false end.
(** The record with all its spans. *)
Definition full_match (record : TraceRecord.t) : TraceRecordMatch.t :=
  TraceRecordMatch.mk record.(TraceRecord.id) (value_match <$> omap (full_value self plan) (record_values selected_names record)).
(** What a complete page reports of a record; without recovery, records without spans are left out. *)
Definition reported (record : TraceRecord.t) : option TraceRecordMatch.t :=
  if rejected record then None else if negb (matched_ record) then None
  else if negb recovery && bool_decide ((full_match record).(TraceRecordMatch.values) = []) then None else Some (full_match record).
(** What the state of a record says. *)
Definition state_right (reports : list TraceRecordMatch.t) (record : TraceRecord.t) (state : TraceRecordState.t) : Prop :=
  if rejected record then state = TraceRecordState.mk (Some false) true true else
  state.(TraceRecordState.membership) = (if matched_ record then Some true else if truncated_ record then None else Some false)
  ∧ state.(TraceRecordState.analysis_complete) = negb (truncated_ record)
  ∧ (state.(TraceRecordState.spans_complete) = true → truncated_ record = false ∧ (matched_ record = true → full_match record ∈ reports)).
(** Whatever is reported is a match of a record, with some of its spans. *)
Definition match_genuine (from : list TraceRecord.t) (r : TraceRecordMatch.t) : Prop :=
  ∃ record, record ∈ from ∧ rejected record = false ∧ matched_ record = true ∧ r.(TraceRecordMatch.id) = record.(TraceRecord.id)
    ∧ Forall (λ v, v.(TraceValueMatch.spans) ≠ [] ∧ ∃ value, (v.(TraceValueMatch.field), v.(TraceValueMatch.value_index), value) ∈ record_values selected_names record
        ∧ v.(TraceValueMatch.spans) ⊆ full_spans self plan value) r.(TraceRecordMatch.values).
Record PageInv (consumed : list TraceRecord.t) (page : Page.t) : Prop := {
  page_spans : page.(Page.remaining_spans) + sum (record_spans <$> page.(Page.matched_records)) <= MAX_TRACE_SPANS;
  page_bytes : page.(Page.response_bytes)
    = 3 + (if recovery then 2 + lenN records else 0) + sum (record_size <$> page.(Page.matched_records));
  page_fits : page.(Page.response_bytes) <= MAX_SEARCH_RESPONSE_BYTES;
  page_recovery : page.(Page.progress).(TraceProgress.recovery) = recovery;
  page_states : if recovery then Forall2 (state_right page.(Page.matched_records)) consumed page.(Page.progress).(TraceProgress.states)
    else page.(Page.progress).(TraceProgress.states) = [];
  page_exact : page.(Page.complete) = true → page.(Page.matched_records) = omap reported consumed;
  page_genuine : Forall (match_genuine consumed) page.(Page.matched_records);
  page_order : (TraceRecordMatch.id <$> page.(Page.matched_records)) `sublist_of` (TraceRecord.id <$> consumed) }.

Lemma state_right_more reports more record state : state_right reports record state → state_right (reports ++ more) record state.
Proof.
  unfold state_right. destruct (rejected record); [done|]. intros (Hm & Ha & Hs). split; [done|]. split; [done|].
  intros E. destruct (Hs E) as [Ht Hr]. split; [done|]. intros Em. apply elem_of_app. left. by apply Hr.
Qed.
Lemma match_genuine_more from more r : match_genuine from r → match_genuine (from ++ more) r.
Proof. intros (record & Hin & ?). exists record. split; [apply elem_of_app; auto|done]. Qed.
(** A record is consumed, and [new] is reported of it. *)
Lemma page_inv_step consumed page record complete remaining bytes_ state new : PageInv consumed page →
  remaining + sum (record_spans <$> new) <= page.(Page.remaining_spans) →
  bytes_ = page.(Page.response_bytes) + sum (record_size <$> new) → bytes_ <= MAX_SEARCH_RESPONSE_BYTES →
  (recovery = true → state_right (page.(Page.matched_records) ++ new) record state) →
  (complete = true → page.(Page.complete) = true ∧ new = option_list (reported record)) →
  Forall (match_genuine [record]) new → (TraceRecordMatch.id <$> new) `sublist_of` [record.(TraceRecord.id)] →
  PageInv (consumed ++ [record]) (Page.mk complete remaining bytes_ (TraceProgress.consume page.(Page.progress) state) (page.(Page.matched_records) ++ new)).
Proof.
  intros [Hsp Hb Hf Hr Hst He Hg Ho] Hrem -> Hfit Hstate Hc Hgen Hord.
  split; cbn [Page.remaining_spans Page.matched_records Page.response_bytes Page.progress Page.complete].
  - rewrite fmap_app, sum_app. lia.
  - rewrite fmap_app, sum_app. lia.
  - done.
  - unfold TraceProgress.consume. rewrite Hr. by case_match.
  - unfold TraceProgress.consume. rewrite Hr. destruct recovery; [|done]. cbn [TraceProgress.states]. apply Forall2_app.
    + eapply Forall2_impl; [exact Hst|]. intros r st. apply state_right_more.
    + constructor; [by apply Hstate|constructor].
  - intros E. destruct (Hc E) as [E' ->]. rewrite (He E'), omap_app. f_equal.
  - apply Forall_app. split; (eapply Forall_impl; [eassumption|]); intros r; [apply match_genuine_more|].
    intros (x & ->%list_elem_of_singleton & ?). exists record. split; [apply elem_of_app; right; by left|done].
  - rewrite !fmap_app. by apply sublist_app.
Qed.
Lemma page_inv_start : lenN records <= MAX_TRACE_RECORDS →
  PageInv [] (Page.mk true MAX_TRACE_SPANS (3 + (if recovery then 2 + lenN records else 0)) (TraceProgress.new recovery) []).
Proof.
  intros Hl. assert (3 + (2 + MAX_TRACE_RECORDS) <= MAX_SEARCH_RESPONSE_BYTES) as Hmax by by vm_compute.
  split; cbn; try done; [lia|destruct recovery; lia|by destruct recovery].
Qed.
Lemma page_nothing_reported consumed page : PageInv consumed page → recovery = true →
  page.(Page.progress).(TraceProgress.states) = [] → consumed = [] ∧ page.(Page.matched_records) = [].
Proof.
  intros [_ _ _ _ Hst _ _ Ho] Er Es. rewrite Er, Es in Hst. apply Forall2_nil_inv_r in Hst as ->. split; [done|].
  cbn in Ho. apply sublist_nil_r in Ho. by apply fmap_nil_inv in Ho.
Qed.

(** What holds of the values before they are kept. *)
Definition record_fine (record : TraceRecord.t) : Prop :=
  lenN record.(TraceRecord.id) <= MAX_RECORD_ID_BYTES ∧ Forall (λ f, Forall value_ok f.2) record.(TraceRecord.fields).
Hypothesis Htotal : automata_total.
Hypothesis Hplan : plan_ok plan.
Hypothesis Hquery : query_ok plan.
Hypothesis Hstream : stream_ok self.(Engine.index_analyzer).
Hypothesis Hcount : lenN records <= MAX_TRACE_RECORDS.
(** The spans of a value kept are spans of the value. *)
Lemma kept_genuine_match record pending k resp header remaining shared complete :
  Forall (genuine self plan (record_values selected_names record)) pending → rejected record = false → matched_ record = true →
  KeptInv resp header remaining shared complete pending k →
  match_genuine [record] (TraceRecordMatch.mk record.(TraceRecord.id) k.(Kept.values)).
Proof.
  intros Hg Hr Hm [_ _ _ _ _ _ Hk]. exists record. split; [by left|]. split; [done|]. split; [done|]. split; [done|].
  cbn [TraceRecordMatch.values]. rewrite Forall_forall in Hg. rewrite Forall_forall in Hk. apply Forall_forall. intros v Hv. destruct (Hk v Hv) as (Hn & p & Hp & Ef & Ei & Hs).
  destruct (Hg p Hp) as (_ & value & Hin & Hsub). split; [done|]. exists value. rewrite Ef, Ei. split; [done|]. by etrans.
Qed.
(** The values kept, when nothing was cut, are all of them. *)
Lemma kept_full record s k resp header remaining complete :
  RecordInv self plan (record_values selected_names record) s →
  KeptInv resp header remaining s.(RecordTrace.shared_exhausted) complete s.(RecordTrace.pending_values) k →
  (k.(Kept.shared_exhausted) = false → TraceRecordMatch.mk record.(TraceRecord.id) k.(Kept.values) = full_match record)
  ∧ (k.(Kept.complete) = true → s.(RecordTrace.shared_exhausted) = false →
       TraceRecordMatch.mk record.(TraceRecord.id) k.(Kept.values) = full_match record).
Proof.
  intros [_ _ _ _ Hp _] [_ _ _ Hsh Ha Hc _]. unfold full_match. split.
  - intros E. by rewrite (Ha E), (Hp (Hsh E)).
  - intros E Es. destruct (Hc E) as [_ ->]. by rewrite (Hp Es).
Qed.
(** A matched record whose values are kept fits in what is left of the response. *)
Lemma kept_record_fits consumed page record pending k remaining shared complete : PageInv consumed page → record_fine record →
  KeptInv page.(Page.response_bytes) (6 + lenN record.(TraceRecord.id)) remaining shared complete pending k →
  (recovery = false → k.(Kept.values) ≠ []) →
  TraceProgress.defer page.(Page.progress) (k.(Kept.shared_exhausted)
    || (saturating_sub MAX_SEARCH_RESPONSE_BYTES page.(Page.response_bytes) <? 6 + lenN record.(TraceRecord.id) + k.(Kept.record_bytes))) = false →
  page.(Page.response_bytes) + (6 + lenN record.(TraceRecord.id) + k.(Kept.record_bytes)) <= MAX_SEARCH_RESPONSE_BYTES.
Proof.
  intros Hinv [Hid _] Hk Hv Hd. destruct Hk as [_ Hb [Hf|Hf] _ _ _ _]; [|lia].
  rewrite Hf in Hb. unfold values_size in Hb. cbn in Hb. destruct recovery eqn:Er; [|by destruct Hv].
  unfold TraceProgress.defer in Hd. rewrite (page_recovery _ _ Hinv), Er in Hd. cbn [andb] in Hd.
  pose proof (page_fits _ _ Hinv) as Hpf. apply andb_false_iff in Hd as [[_ Hd%N.ltb_ge]%orb_false_iff|Hd%negb_false_iff%bool_decide_eq_true].
  - unfold saturating_sub in Hd. lia.
  - destruct (page_nothing_reported _ _ Hinv Er Hd) as [_ En]. pose proof (page_bytes _ _ Hinv) as Epb. rewrite En, Er in Epb. cbn in Epb.
    assert (5 + MAX_TRACE_RECORDS + 6 + MAX_RECORD_ID_BYTES <= MAX_SEARCH_RESPONSE_BYTES) as Hmax by by vm_compute. lia.
Qed.
(** One round: the record is consumed, or the page ends before it. *)
Definition Stepped (consumed : list TraceRecord.t) (record : TraceRecord.t) (r : Page.t * bool) : Prop :=
  PageInv (consumed ++ [record]) r.1 ∧ (recovery = false → r.2 = true)
  ∨ r.2 = false ∧ recovery = true ∧ consumed ≠ [] ∧ PageInv consumed r.1 ∧ r.1.(Page.complete) = false.
(** Without recovery, a record passed over leaves the progress alone. *)
Lemma page_pass_over consumed page record complete remaining : PageInv consumed page → recovery = false →
  remaining <= page.(Page.remaining_spans) → (complete = true → page.(Page.complete) = true ∧ reported record = None) →
  Stepped consumed record
    (Page.mk complete remaining page.(Page.response_bytes) page.(Page.progress) page.(Page.matched_records), true).
Proof.
  intros Hinv Er Hrem Hc. left. split; [|done]. cbn [fst].
  assert (page.(Page.progress) = TraceProgress.consume page.(Page.progress) (TraceRecordState.mk None false false)) as ->.
  { unfold TraceProgress.consume. by rewrite (page_recovery _ _ Hinv), Er. }
  rewrite <- (app_nil_r (Page.matched_records page)). apply (page_inv_step _ _ _ _ _ _ _ []); cbn; try done.
  - lia.
  - lia.
  - by apply page_fits in Hinv.
  - by rewrite Er.
  - intros E. destruct (Hc E) as [? ->]. done.
  - apply sublist_nil_l.
Qed.
(** Nothing is reported of a record whose state is known. *)
Lemma page_unreported consumed page record complete state : PageInv consumed page → 
  state_right page.(Page.matched_records) record state → (complete = true → page.(Page.complete) = true) → reported record = None →
  PageInv (consumed ++ [record]) (Page.mk complete page.(Page.remaining_spans) page.(Page.response_bytes)
    (TraceProgress.consume page.(Page.progress) state) page.(Page.matched_records)).
Proof.
  intros Hinv Hs Hc Hn. rewrite <- (app_nil_r (Page.matched_records page)). apply (page_inv_step _ _ _ _ _ _ _ []); cbn; try done.
  - lia.
  - lia.
  - by apply page_fits in Hinv.
  - by rewrite app_nil_r.
  - rewrite Hn. auto.
  - apply sublist_nil_l.
Qed.
(** A matched record is reported with the values kept. *)
Lemma page_reported consumed page record s k complete : PageInv consumed page → record_fine record →
  RecordInv self plan (record_values selected_names record) s → rejected record = false → matched_ record = true →
  (complete = true → page.(Page.complete) = true ∧ s.(RecordTrace.record_truncated) = false) →
  KeptInv page.(Page.response_bytes) (6 + lenN record.(TraceRecord.id)) page.(Page.remaining_spans) s.(RecordTrace.shared_exhausted) complete
    s.(RecordTrace.pending_values) k →
  (recovery = false → k.(Kept.values) ≠ []) →
  let shared := k.(Kept.shared_exhausted)
    || (saturating_sub MAX_SEARCH_RESPONSE_BYTES page.(Page.response_bytes) <? 6 + lenN record.(TraceRecord.id) + k.(Kept.record_bytes)) in
  TraceProgress.defer page.(Page.progress) shared = false →
  Stepped consumed record (consume_record
    (Page.mk k.(Kept.complete) k.(Kept.remaining_spans)
      (saturating_add page.(Page.response_bytes) (6 + lenN record.(TraceRecord.id) + k.(Kept.record_bytes))) page.(Page.progress)
      (page.(Page.matched_records) ++ [TraceRecordMatch.mk record.(TraceRecord.id) k.(Kept.values)]))
    recovery true s.(RecordTrace.record_analysis_truncated) shared).
Proof.
  intros Hinv Hfine Hs Hr Hm Hc Hk Hv shared Hd. left. split; [|cbn; by intros ->].
  pose proof (kept_record_fits _ _ _ _ _ _ _ _ Hinv Hfine Hk Hv Hd) as Hfit. destruct (kept_full _ _ _ _ _ _ _ Hs Hk) as [Hfull Hfullc].
  pose proof (inv_analysis _ _ _ _ Hs) as Ea. pose proof (inv_truncated _ _ _ _ Hs) as Et. pose proof max_response_small as Hmax.
  unfold consume_record. cbn [fst Page.complete Page.remaining_spans Page.response_bytes Page.progress Page.matched_records].
  apply page_inv_step; [done| | | | | | |].
  - rewrite sum_singleton. unfold record_spans. cbn [TraceRecordMatch.values]. rewrite <- (kept_spans _ _ _ _ _ _ _ Hk). lia.
  - rewrite sum_singleton. unfold record_size, saturating_add. cbn [TraceRecordMatch.id TraceRecordMatch.values].
    rewrite <- (kept_bytes _ _ _ _ _ _ _ Hk). lia.
  - unfold saturating_add. lia.
  - intros _. unfold state_right. rewrite Hr, Hm. cbn [TraceRecordState.membership TraceRecordState.analysis_complete TraceRecordState.spans_complete].
    split; [done|]. rewrite Ea. split; [done|]. intros [E1%negb_true_iff E2%negb_true_iff]%andb_true_iff. split; [done|]. intros _.
    apply orb_false_iff in E2 as [E2 _]. rewrite (Hfull E2). apply elem_of_app. right. by left.
  - intros E. destruct (kept_complete _ _ _ _ _ _ _ Hk E) as [Ec Ev]. destruct (Hc Ec) as [Ep Ert]. split; [done|].
    rewrite Et in Ert. apply orb_false_iff in Ert as [Es _]. rewrite (Hfullc E Es). unfold reported. rewrite Hr, Hm. cbn [negb].
    destruct recovery; [done|]. cbn [negb andb]. rewrite bool_decide_eq_false_2; [done|]. rewrite <- (Hfullc E Es). by apply Hv.
  - apply Forall_singleton. eapply kept_genuine_match; [apply (inv_genuine _ _ _ _ Hs)|done|done|exact Hk].
  - done.
Qed.
Lemma page_record_spec consumed page record : PageInv consumed page → record_fine record →
  Timed (page_record self plan selected_names candidates recovery page record) (Stepped consumed record) (unknown_field self).
Proof.
  intros Hinv Hfine. unfold page_record. eapply Timed_bind; [apply Timed_check|]. intros _ _. fold (rejected record).
  apply Timed_if; intros Er.
  { apply Timed_ret. left. split; [|done]. apply page_unreported; [done| |done|]; unfold state_right, reported; by rewrite Er. }
  eapply Timed_bind; [apply record_pass_spec; [done..|apply Hfine]|]. intros s Hs. cbv zeta.
  rewrite (record_inv_matched _ _ _ _ _ Hs). pose proof (inv_analysis _ _ _ _ Hs) as Ea. pose proof (inv_truncated _ _ _ _ Hs) as Et.
  destruct (matched_ record) eqn:Em; cbn [negb].
  2:{ apply Timed_ret. left. split; [|intros; cbn; by rewrite andb_false_r]. unfold consume_record, with_complete. cbn [fst
        Page.complete Page.remaining_spans Page.response_bytes Page.progress Page.matched_records].
      apply page_unreported; [done| | |].
      - unfold state_right. rewrite Er, Em, Ea. split; [done|]. split; [done|]. by intros [E%negb_true_iff _]%andb_true_iff.
      - by intros [? _]%andb_true_iff.
      - unfold reported. by rewrite Er, Em. }
  unfold with_complete. cbn [Page.complete Page.remaining_spans Page.response_bytes Page.progress Page.matched_records].
  set (complete := _ && negb (RecordTrace.record_truncated s)).
  assert (complete = true → Page.complete page = true ∧ RecordTrace.record_truncated s = false) as Hc.
  { unfold complete. rewrite !andb_true_iff, !negb_true_iff. tauto. }
  assert (RecordTrace.record_truncated s = false → RecordTrace.pending_values s = omap (full_value self plan) (record_values selected_names record)) as Hp.
  { rewrite Et. intros [Hn _]%orb_false_iff. by apply (inv_pending _ _ _ _ Hs). }
  assert (∀ vs, recovery = false → (complete = true → vs = value_match <$> RecordTrace.pending_values s) → vs = [] →
    complete = true → Page.complete page = true ∧ reported record = None) as Hskip.
  { intros vs Enr Hvs Evs Ec. destruct (Hc Ec) as [? Ert]. split; [done|]. unfold reported. rewrite Er, Em, Enr. cbn [negb andb].
    rewrite bool_decide_eq_true_2; [done|]. unfold full_match. cbn. by rewrite <- (Hp Ert), <- Hvs. }
  apply Timed_if; [intros [Enr%negb_true_iff Epn%bool_decide_eq_true]%andb_true_iff|intros _].
  { apply Timed_ret. apply page_pass_over; [done|done|lia|]. apply (Hskip []); [done| |done]. by rewrite Epn. }
  assert (saturating_add 6 (lenN (TraceRecord.id record)) = 6 + lenN (TraceRecord.id record)) as ->.
  { destruct Hfine as [Hid _]. unfold saturating_add. assert (6 + MAX_RECORD_ID_BYTES < USIZE_MAX) by by vm_compute. lia. }
  destruct (keep_all_spec (Page.response_bytes page) (6 + lenN (TraceRecord.id record)) (Page.remaining_spans page)
    (RecordTrace.shared_exhausted s) complete (RecordTrace.pending_values s)) as (k & Ek & Hk).
  { eapply Forall_impl; [apply (inv_genuine _ _ _ _ Hs)|]. by intros p [? _]. }
  eapply Timed_bind; [apply (Timed_lift _ (λ r, r = k)); by rewrite Ek|]. intros ? ->.
  assert (Kept.complete k = true → complete = true ∧ Kept.values k = value_match <$> RecordTrace.pending_values s) as Hkc by apply Hk.
  pose proof (kept_spans _ _ _ _ _ _ _ Hk) as Hks.
  apply Timed_if; [intros [Enr%negb_true_iff Evn%bool_decide_eq_true]%andb_true_iff|intros Ev].
  { apply Timed_ret. apply page_pass_over; [done|done|lia|]. intros Ec. destruct (Hkc Ec) as [Ec' Evs]. by apply (Hskip (Kept.values k)). }
  assert (recovery = false → Kept.values k ≠ []) as Hv.
  { intros Enr E. rewrite Enr, E in Ev. by rewrite bool_decide_eq_true_2 in Ev. }
  apply Timed_if; intros Ed; apply Timed_ret; cbn [Page.progress Page.response_bytes Page.complete
    Page.remaining_spans Page.matched_records] in *.
  - right. unfold TraceProgress.defer in Ed. rewrite (page_recovery _ _ Hinv), !andb_true_iff in Ed. destruct Ed as [[Enr _] Es].
    split; [done|]. split; [done|]. split; [|split; [|done]].
    + intros ->. pose proof (page_states _ _ Hinv) as Hst. rewrite Enr in Hst. apply Forall2_nil_inv_l in Hst. by rewrite Hst in Es.
    + destruct Hinv as [Hsp Hb Hf Hr Hst He Hg Ho]. split; try done. cbn [fst Page.remaining_spans Page.matched_records]. lia.
  - by apply page_reported with complete.
Qed.
(** The whole loop: a first part of the records is consumed, all of them without
    recovery, and at least one if there is one. *)
Definition PageDone (page : Page.t) : Prop := ∃ consumed rest, records = consumed ++ rest ∧ PageInv consumed page
  ∧ (recovery = false → rest = []) ∧ (records ≠ [] → consumed ≠ []).
Lemma page_loop_spec : Forall record_fine records →
  Timed (page_loop (page_record self plan selected_names candidates recovery)
    (Page.mk true MAX_TRACE_SPANS (3 + (if recovery then 2 + lenN records else 0)) (TraceProgress.new recovery) []) records)
    PageDone (unknown_field self).
Proof.
  intros Hfine. assert (∀ todo consumed page, records = consumed ++ todo → PageInv consumed page →
    Timed (page_loop (page_record self plan selected_names candidates recovery) page todo) PageDone (unknown_field self)) as Hloop;
    [|by apply (Hloop records []), page_inv_start].
  induction todo as [|record todo IH]; intros consumed page El Hinv; cbn [page_loop].
  - apply Timed_ret. exists consumed, []. rewrite app_nil_r in *. by subst.
  - eapply Timed_bind; [apply page_record_spec; [exact Hinv|]|].
    { rewrite Forall_forall in Hfine. apply Hfine. rewrite El. apply elem_of_app. right. by left. }
    intros [page' more] [[Hinv' Hmore]|(Em & Enr & Hne & Hinv' & _)].
    + apply Timed_if; intros E.
      * apply (IH (consumed ++ [record])); [by rewrite <- app_assoc|done].
      * apply Timed_ret. exists (consumed ++ [record]), todo. split; [by rewrite <- app_assoc|]. split; [done|]. split.
        -- intros Enr. specialize (Hmore Enr). cbn in Hmore. congruence.
        -- intros _ ?%app_nil. naive_solver.
    + cbn in Em. subst more. apply Timed_ret. exists consumed, (record :: todo). split; [done|]. split; [done|]. split; [congruence|done].
Qed.
End Page.
