(* ===== verification/Gathering.v ===== *)
(** * The sources of a record

    What [gather_field] keeps of a record's values: initial parts of their token
    streams, marked when they were cut, and which fields lost values. *)
From stdpp Require Import sorting.
From S2P Require Import Prelude.
From S2P Require Import Errors.
From S2P Require Import Bytes.
From S2P Require Import Wire.
From S2P Require Import Request.
From S2P Require Import Structure.
From S2P Require Import Admission.
From S2P Require Import Text.
From S2P Require Import Response.
From S2P Require Import Spans.
From S2P Require Import Analysis.
From S2P Require Import Membership.
From S2P Require Import Deadline.
From S2P Require Import Plan.
From S2P Require Import Tokens.
From S2P Require Import Matching.
From S2P Require Import Page.
From S2P Require Import Paging.
From S2P Require Import Trails.
Local Open Scope N_scope.

Abbreviation entry := (bytes * N * bytes)%type.
(** [tokens] is an initial part of what the stream holds, all of it unless [truncated]. *)
Definition covers (stream : list Token.t) (r : list SourceToken.t * bool) : Prop :=
  r.1 `prefix_of` (convert_token <$> stream) ∧ (r.2 = false → r.1 = convert_token <$> stream).
Lemma covers_truncated stream : covers stream (truncate_stream stream, stream_truncated stream).
Proof.
  unfold covers, truncate_stream, stream_truncated. generalize (N.to_nat MAX_TRACE_TOKENS_PER_VALUE). intros n. cbn [fst snd]. split.
  - rewrite fmap_take. apply prefix_take.
  - rewrite bool_decide_eq_false. intros Hn. by rewrite take_ge by lia.
Qed.
Lemma covers_truncate_to stream remaining r : covers stream r → covers stream (truncate_to remaining r).
Proof.
  intros [Hp Hc]. unfold truncate_to. case_match; [|done]. split; [|done]. cbn [fst]. etrans; [apply prefix_take|exact Hp].
Qed.
Lemma truncate_to_fits remaining r : lenN (truncate_to remaining r).1 <= remaining.
Proof. unfold truncate_to. case_match eqn:E; cbn [fst]; [rewrite lenN_take; lia|]. apply N.ltb_ge in E. lia. Qed.
Lemma covers_empty stream truncated : (truncated = false → stream = []) → covers stream ([], truncated).
Proof. intros Ht. split; [apply prefix_nil|]. cbn. intros E. by rewrite (Ht E). Qed.

Section Gather.
Context (self : Engine.t) (surface_fields : gset bytes).
(** The source of a value *)
Record SourceOf (e : entry) (source : TraceSource.t) : Prop := {
  source_field : source.(TraceSource.field) = e.1.1;
  source_index : source.(TraceSource.value_index) = e.1.2;
  source_utf16 : utf16_offsets e.2 = Ok source.(TraceSource.utf16);
  source_analyzed : covers (self.(Engine.index_analyzer) e.2) (source.(TraceSource.analyzed), source.(TraceSource.analyzed_truncated));
  source_surface : source.(TraceSource.surface) `prefix_of` (convert_token <$> self.(Engine.surface_index_analyzer) e.2);
  source_surface_whole : e.1.1 ∈ surface_fields → source.(TraceSource.surface_truncated) = false →
    source.(TraceSource.surface) = convert_token <$> self.(Engine.surface_index_analyzer) e.2 }.
(** A value without tokens *)
Definition silent (e : entry) : Prop :=
  self.(Engine.index_analyzer) e.2 = [] ∧ (e.1.1 ∈ surface_fields → self.(Engine.surface_index_analyzer) e.2 = []).
Definition source_tokens_kept (source : TraceSource.t) : N := lenN source.(TraceSource.analyzed) + lenN source.(TraceSource.surface).
Record GatherInv (entries : list entry) (g : Gather.t) : Prop := {
  gather_genuine : Forall (λ source, ∃ e, e ∈ entries ∧ SourceOf e source) g.(Gather.sources);
  gather_all : Forall (λ e, e.1.1 ∈ g.(Gather.missing_fields) ∨ silent e ∨ ∃ source, source ∈ g.(Gather.sources) ∧ SourceOf e source) entries;
  gather_tokens : sum (source_tokens_kept <$> g.(Gather.sources)) + g.(Gather.remaining_tokens) <= MAX_TRACE_EXPRESSION_TOKENS;
  gather_values : lenN g.(Gather.sources) <= MAX_TRACE_EXPRESSION_VALUES }.
Lemma gather_inv_start : GatherInv [] Gather.start.
Proof. by split. Qed.
(** The next value: the sources grow by [new], the fields missing by [missing]. *)
Lemma gather_inv_step entries g e new remaining missing : GatherInv entries g →
  Forall (SourceOf e) new → e.1.1 ∈ missing ∨ silent e ∨ new ≠ [] → g.(Gather.missing_fields) ⊆ missing →
  sum (source_tokens_kept <$> new) + remaining <= g.(Gather.remaining_tokens) →
  lenN g.(Gather.sources) + lenN new <= MAX_TRACE_EXPRESSION_VALUES →
  GatherInv (entries ++ [e]) (Gather.mk (g.(Gather.sources) ++ new) remaining missing).
Proof.
  intros [Hg Ha Ht Hv] Hnew He Hm Hr Hl. split; cbn [Gather.sources Gather.missing_fields Gather.remaining_tokens].
  - apply Forall_app. split; (eapply Forall_impl; [eassumption|]); cbn.
    + intros source (e' & Hin & ?). exists e'. split; [apply elem_of_app; by left|done].
    + intros source Hs. exists e. split; [apply elem_of_app; right; by left|done].
  - apply Forall_app. split.
    + eapply Forall_impl; [exact Ha|]. intros e' [?|[?|(source & Hin & ?)]]; [left; set_solver|right; by left|right; right].
      exists source. split; [apply elem_of_app; by left|done].
    + apply Forall_singleton. destruct He as [?|[?|Hn]]; [by left|right; by left|right; right]. destruct new as [|source new]; [done|].
      apply Forall_inv in Hnew. exists source. split; [|done]. apply elem_of_app. right. by left.
  - rewrite fmap_app, sum_app. lia.
  - rewrite lenN_app. lia.
Qed.
Hypothesis Hempty : self.(Engine.surface_index_analyzer) [] = [].
Definition surface_stream (value : bytes) : list SourceToken.t := convert_token <$> self.(Engine.surface_index_analyzer) value.
Lemma gather_value_spec entries g field i value : value_ok value → GatherInv entries g →
  Timed (gather_value self surface_fields field g (i, value)) (GatherInv (entries ++ [(field, N.of_nat i, value)])) (λ _, False).
Proof.
  intros [Hv Hlen] Hg. pose proof Hg as [_ _ _ Hvals]. set (e := (field, N.of_nat i, value)). unfold gather_value.
  apply Timed_if; intros Efull.
  { apply Timed_ret. unfold Gather.missing. rewrite <- (app_nil_r (Gather.sources g)). apply gather_inv_step; [done|constructor|left; set_solver|set_solver|cbn; lia|].
    rewrite lenN_nil. lia. }
  apply orb_false_iff in Efull as [Ecount%N.eqb_neq _].
  eapply Timed_bind; [apply source_tokens_spec|]. intros analyzed ->.
  pose proof (covers_truncate_to _ (Gather.remaining_tokens g) _ (covers_truncated (Engine.index_analyzer self value))) as Ca.
  pose proof (truncate_to_fits (Gather.remaining_tokens g) (truncate_stream (Engine.index_analyzer self value), stream_truncated (Engine.index_analyzer self value))) as Fa.
  destruct (truncate_to _ _) as [analyzed at_]. cbn [fst] in Fa.
  eapply Timed_bind; [apply (Timed_lift _ (λ r, r = Gather.remaining_tokens g - lenN analyzed))|].
  { unfold usize_sub, checked_sub. by rewrite (proj2 (N.leb_le _ _) Fa). }
  intros r1 ->. set (r1 := Gather.remaining_tokens g - lenN analyzed).
  apply (Timed_bind _ _ (λ s, s.1 `prefix_of` surface_stream value ∧ (field ∈ surface_fields → s.2 = false → s.1 = surface_stream value))).
  { apply Timed_if; [intros Ef%negb_true_iff%bool_decide_eq_false|intros _].
    { apply Timed_ret. split; [apply prefix_nil|done]. }
    apply Timed_if; intros Er.
    { apply Timed_ret. split; [apply prefix_nil|]. cbn. intros _ En%negb_false_iff%bool_decide_eq_true. unfold surface_stream. by rewrite En, Hempty. }
    eapply Timed_weaken; [apply source_tokens_spec| |done]. intros s ->. destruct (covers_truncated (Engine.surface_index_analyzer self value)). auto. }
  intros s [Sp Sf]. pose proof (truncate_to_fits r1 s) as Fs.
  assert ((truncate_to r1 s).1 `prefix_of` surface_stream value
    ∧ (field ∈ surface_fields → (truncate_to r1 s).2 = false → (truncate_to r1 s).1 = surface_stream value)) as [Tp Tf].
  { unfold truncate_to. case_match; [|done]. split; [|done]. cbn [fst]. etrans; [apply prefix_take|exact Sp]. }
  destruct (truncate_to r1 s) as [surface st]. cbn [fst snd] in *. clear s Sp Sf.
  eapply Timed_bind; [apply (Timed_lift _ (λ r, r = r1 - lenN surface))|].
  { unfold usize_sub, checked_sub. by rewrite (proj2 (N.leb_le _ _) Fs). }
  intros r2 ->. apply Timed_if; intros Eq.
  - rewrite !andb_true_iff, !negb_true_iff, !bool_decide_eq_true in Eq. destruct Eq as [[[-> ->] ->] ->]. apply Timed_ret.
    rewrite <- (app_nil_r (Gather.sources g)). apply gather_inv_step; [done|constructor| |done|cbn; lia|rewrite lenN_nil; lia].
    right. left. split.
    + destruct Ca as [_ Ca]. symmetry in Ca. by apply fmap_nil_inv in Ca.
    + intros Hf. cbn in Hf. specialize (Tf Hf eq_refl). symmetry in Tf. by apply fmap_nil_inv in Tf.
  - destruct (utf16_offsets_spec value Hv Hlen) as (offsets & Ho & _).
    eapply Timed_bind; [apply (Timed_lift _ (λ o, o = offsets)); by rewrite Ho|]. intros o ->. apply Timed_ret.
    apply gather_inv_step; [done| |by right; right|done| |].
    + apply Forall_singleton. by split.
    + rewrite sum_singleton. unfold source_tokens_kept. cbn [TraceSource.analyzed TraceSource.surface]. unfold r1 in *. lia.
    + rewrite lenN_cons, lenN_nil. lia.
Qed.
Lemma gather_field_spec selected entries field g : Forall value_ok field.2 → GatherInv entries g →
  Timed (gather_field self selected surface_fields g field) (GatherInv (entries ++ field_values selected field)) (unknown_field self).
Proof.
  destruct field as [field vs]. intros Hv Hg. unfold gather_field, field_values. cbn [fst snd] in *.
  apply Timed_if; [intros E%bool_decide_eq_true; intros s0; left; by exists field|intros _].
  destruct (bool_decide_reflect (field ∈ selected)) as [Hf|Hf]; cbn [negb]; [|apply Timed_ret; by rewrite app_nil_r].
  apply (Timed_weaken _ (GatherInv (entries ++ ((λ '(i, value), (field, N.of_nat i, value)) <$> enumerate vs))) _ (λ _, False)); [| |done].
  2:{ intros g'. unfold enumerate. by rewrite fmap_imap. }
  apply (Timed_foldM _ (λ done, GatherInv (entries ++ ((λ '(i, value), (field, N.of_nat i, value)) <$> done)))); [by rewrite app_nil_r|].
  intros before [i value] todo g' E Hg'. rewrite fmap_app, app_assoc. apply gather_value_spec; [|done].
  rewrite Forall_forall in Hv. apply Hv. by eapply enumerate_elem.
Qed.
Lemma gather_pass_spec selected record : Forall (λ f, Forall value_ok f.2) record.(TraceRecord.fields) →
  Timed (foldM (gather_field self selected surface_fields) Gather.start record.(TraceRecord.fields))
    (GatherInv (record_values selected record)) (unknown_field self).
Proof.
  intros Hv. unfold record_values. apply (Timed_foldM _ (λ done, GatherInv (done ≫= field_values selected))); [apply gather_inv_start|].
  intros before field todo s E Hs. rewrite bind_app. cbn [mbind list_bind]. rewrite app_nil_r. apply gather_field_spec; [|done].
  rewrite Forall_forall in Hv. apply Hv. rewrite E. apply elem_of_app. right. by left.
Qed.
(** Once the sources are full, a value without text loses its field too. *)
Theorem full_sources_miss_empty field g i s : lenN g.(Gather.sources) = MAX_TRACE_EXPRESSION_VALUES →
  gather_value self surface_fields field g (i, []) s = Ok (Gather.missing g field, s).
Proof. intros E. unfold gather_value. by rewrite E, N.eqb_refl. Qed.
End Gather.
