(* ===== verification/Probing.v ===== *)
(** * Deciding the leaves of a record

    What [probe_leaf] decides about a leaf is right for the whole values of the
    record, whatever was cut: a leaf that matches an initial part of the tokens
    matches, and a leaf is said not to match only when all of its values were
    seen whole. *)
From stdpp Require Import sorting.
From S2P Require Import Prelude.
From S2P Require Import Errors.
From S2P Require Import Bytes.
From S2P Require Import Wire.
From S2P Require Import Request.
From S2P Require Import Structure.
From S2P Require Import Admission.
From S2P Require Import Text.
From S2P Require Import Response.
From S2P Require Import Spans.
From S2P Require Import Analysis.
From S2P Require Import Membership.
From S2P Require Import Deadline.
From S2P Require Import Plan.
From S2P Require Import Prepared.
From S2P Require Import Tokens.
From S2P Require Import Matching.
From S2P Require Import Page.
From S2P Require Import Paging.
From S2P Require Import Trails.
From S2P Require Import Gathering.
Local Open Scope N_scope.

Lemma Timed_foldS {A S} (f : S → A → M Clock (step S)) (P : list A → S → Prop) (B : Prop) E l s :
  P [] s → (∀ done a todo s, l = done ++ a :: todo → P done s →
    Timed (f s a) (λ r, match r with Next s' => P (done ++ [a]) s' | BreakRecords => B end) E) →
  Timed (foldS f s l) (λ r, match r with Next s' => P l s' | BreakRecords => B end) E.
Proof.
  intros Hs Hf. assert (∀ todo done s, l = done ++ todo → P done s →
    Timed (foldS f s todo) (λ r, match r with Next s' => P l s' | BreakRecords => B end) E) as Hloop; [|by apply (Hloop l [])].
  clear s Hs. induction todo as [|a todo IH]; intros done s El Hs; cbn [foldS].
  - apply Timed_ret. rewrite app_nil_r in El. by subst.
  - eapply Timed_bind; [by eapply Hf|]. intros [s'|] Hs'; [|by apply Timed_ret]. eapply IH; [|exact Hs']. by rewrite <- app_assoc.
Qed.

Section Probing.
Context `{Unicode} `{Automata} (self : Engine.t) (surface_fields : gset bytes).
Hypothesis Htotal : automata_total.
Hypothesis Hstream : stream_ok self.(Engine.index_analyzer).

(** ** What a leaf means for a record *)
Definition full_source (value : bytes) : TraceSource.t :=
  TraceSource.mk [] 0 (convert_token <$> self.(Engine.index_analyzer) value) (convert_token <$> self.(Engine.surface_index_analyzer) value)
    None false false.
Definition leaf_holds (entries : list entry) (leaf : TraceLeaf.t) : Prop :=
  plan_holds leaf.(TraceLeaf.plan) leaf.(TraceLeaf.analyzed_fuzzy)
    ((λ e : entry, full_source e.2) <$> filter (λ e : entry, e.1.1 ∈ leaf.(TraceLeaf.fields)) entries).
Definition leaf_right (entries : list entry) (leaf : TraceLeaf.t) (m : option bool) : Prop :=
  (m = Some true → leaf_holds entries leaf) ∧ (m = Some false → ¬ leaf_holds entries leaf).
Lemma prefix_source_ok source value : source.(TraceSource.analyzed) `prefix_of` (convert_token <$> self.(Engine.index_analyzer) value) → source_ok source.
Proof.
  intros [k Hk]. destruct (Hstream value) as [Ho Hs].
  assert (in_order (convert_token <$> self.(Engine.index_analyzer) value)) as Hio by (eapply sorted_fmap; [|exact Ho]; done).
  assert (positions_small (convert_token <$> self.(Engine.index_analyzer) value)) as Hps by by apply Forall_fmap.
  unfold source_ok, in_order, positions_small in *. rewrite Hk in Hio, Hps. split; [by apply StronglySorted_app_1_l in Hio|by apply Forall_app in Hps as [? _]].
Qed.
Lemma source_of_ok e source : SourceOf self surface_fields e source → source_ok source.
Proof. intros Hs. eapply prefix_source_ok. apply (source_analyzed _ _ _ _ Hs). Qed.

(** ** The hits of some sources *)
Section Leaf.
Context (plan : TracePlan.t) (af : bool).
Hypothesis Hplan : plan_ok plan.
Hypothesis Hquery : query_ok plan.
Definition hits_of (source : TraceSource.t) : list (option TraceSpan.t * bytes) :=
  match source_hits plan source af with Ok hs => hs | _ => [] end.
Lemma hits_of_Ok source : source_ok source → source_hits plan source af = Ok (hits_of source).
Proof. intros Hs. unfold hits_of. by destruct (source_hits_total plan af source Htotal Hquery Hs) as [hs ->]. Qed.
Definition found_of (sources : list TraceSource.t) : gset bytes := all_found (hits_of <$> sources).
Lemma found_of_app l k : found_of (l ++ k) = found_of l ∪ found_of k.
Proof. unfold found_of, all_found. by rewrite !fmap_app, union_list_app_L. Qed.
Lemma found_of_singleton source : found_of [source] = hit_terms (hits_of source).
Proof. unfold found_of, all_found. cbn. apply (right_id_L ∅ (∪)). Qed.
Lemma hits_vocabulary source : source_ok source → vocabulary plan (hit_terms (hits_of source)).
Proof. intros Hs. eapply source_hits_vocabulary. by apply hits_of_Ok. Qed.
Lemma found_of_iff sources : Forall source_ok sources → TracePlan.record_matches plan (found_of sources) = true ↔ plan_holds plan af sources.
Proof.
  intros Hs. apply record_matches_iff; [done..|]. apply Forall2_fmap_r, Forall_Forall2_diag. eapply Forall_impl; [exact Hs|]. intros s. apply hits_of_Ok.
Qed.
End Leaf.

(** ** One leaf *)
(** Nothing the leaf looks at was cut. *)
Definition whole (leaf : TraceLeaf.t) (source : TraceSource.t) : Prop :=
  source.(TraceSource.analyzed_truncated) = false ∧ (TraceLeaf.needs_surface leaf = true → source.(TraceSource.surface_truncated) = false).
Section Probe.
Context (progress : TraceProgress.t) (leaf : TraceLeaf.t).
Hypothesis Hleaf : leaf_ok leaf.
Abbreviation plan := (leaf.(TraceLeaf.plan)).
Abbreviation af := (leaf.(TraceLeaf.analyzed_fuzzy)).
Abbreviation of_leaf source := (source.(TraceSource.field) ∈ leaf.(TraceLeaf.fields)).
(** [examined] of the sources done were traced. *)
Record ProbeInv (start : Probe.t) (before : list TraceSource.t) (examined : list TraceSource.t) (p : Probe.t) : Prop := {
  probe_examined : examined ⊆ before;
  probe_vocabulary : vocabulary plan p.(Probe.found);
  probe_matches : ∀ others, vocabulary plan others →
    TracePlan.record_matches plan (p.(Probe.found) ∪ others) = TracePlan.record_matches plan (found_of plan af examined ∪ others);
  probe_known : p.(Probe.unknown) = false → start.(Probe.unknown) = false
    ∧ Forall (λ source, of_leaf source → source ∈ examined ∧ whole leaf source) before;
  probe_of_leaf : Forall (λ source, of_leaf source) examined }.
Lemma probe_inv_start start : start.(Probe.found) = ∅ → ProbeInv start [] [] start.
Proof. intros E. split; try rewrite E; try done; apply vocabulary_empty. Qed.
Lemma probe_inv_pass start before examined p p' source : ProbeInv start before examined p →
  p'.(Probe.found) = p.(Probe.found) → (p'.(Probe.unknown) = false → p.(Probe.unknown) = false ∧ ¬ of_leaf source) →
  ProbeInv start (before ++ [source]) examined p'.
Proof.
  intros [He Hv Hm Hk Ho] Ef Hu. split; try rewrite Ef; try done.
  - set_solver.
  - intros E. destruct (Hu E) as [E' Hn]. destruct (Hk E') as [? Hall]. split; [done|]. apply Forall_app. split; [done|]. by apply Forall_singleton.
Qed.
(** The hits of one more source *)
Lemma probe_inv_trace start before examined p source terms truncated work shared : ProbeInv start before examined p → source_ok source → of_leaf source →
  truncated = source.(TraceSource.analyzed_truncated) || TraceLeaf.needs_surface leaf && source.(TraceSource.surface_truncated) →
  terms ⊆ hit_terms (hits_of plan af source) →
  (∀ others, vocabulary plan others → TracePlan.record_matches plan (terms ∪ others)
    = TracePlan.record_matches plan (hit_terms (hits_of plan af source) ∪ others)) →
  ProbeInv start (before ++ [source]) (examined ++ [source])
    (Probe.mk (terms ∪ p.(Probe.found)) (p.(Probe.unknown) || truncated) work shared).
Proof.
  intros [He Hv Hm Hk Ho] Hs Hof Ht Hsub Hterms. destruct Hleaf as [_ Hq].
  pose proof (hits_vocabulary plan af Hq source Hs) as Hvs.
  split; cbn [Probe.found Probe.unknown].
  - set_solver.
  - apply vocabulary_union; [by eapply vocabulary_subseteq|done].
  - intros others Hvo. rewrite <- (assoc_L (∪)), Hterms by by apply vocabulary_union.
    replace (hit_terms (hits_of plan af source) ∪ (p.(Probe.found) ∪ others))
      with (p.(Probe.found) ∪ (hit_terms (hits_of plan af source) ∪ others)) by set_solver.
    rewrite Hm by by apply vocabulary_union. rewrite found_of_app, found_of_singleton. f_equal. set_solver.
  - intros [E1 E2]%orb_false_iff. destruct (Hk E1) as [? Hall]. split; [done|]. apply Forall_app. split.
    + eapply Forall_impl; [exact Hall|]. cbn. intros s Hs' Hof'. destruct (Hs' Hof'). split; [apply elem_of_app; by left|done].
    + apply Forall_singleton. intros _. split; [apply elem_of_app; right; by left|]. subst truncated.
      apply orb_false_iff in E2 as [E2 E3]. split; [done|]. intros En. by rewrite En in E3.
  - apply Forall_app. split; [done|]. by apply Forall_singleton.
Qed.
Lemma probe_sources_spec sources start : Forall source_ok sources → start.(Probe.found) = ∅ →
  Timed (foldS (probe_source progress leaf) start sources)
    (λ r, match r with
      | Next p => (∃ examined, ProbeInv start sources examined p) ∧ (p.(Probe.shared_exhausted) = false → start.(Probe.shared_exhausted) = false)
      | BreakRecords => TraceProgress.defer progress true = true end) (λ _, False).
Proof.
  intros Hs Hst. destruct Hleaf as [Hp Hq].
  apply (Timed_foldS _ (λ before p, (∃ examined, ProbeInv start before examined p) ∧ (p.(Probe.shared_exhausted) = false → start.(Probe.shared_exhausted) = false))).
  { split; [|done]. exists []. by apply probe_inv_start. }
  intros before source todo p El [[examined Hinv] Hsh]. unfold probe_source.
  destruct (bool_decide_reflect (of_leaf source)) as [Hof|Hof]; cbn [negb].
  2:{ apply Timed_ret. split; [|done]. exists examined. by eapply probe_inv_pass. }
  apply Timed_if; intros Ew.
  - apply Timed_if; intros Ed; apply Timed_ret; [done|]. cbn [Probe.shared_exhausted]. split; [|done]. exists examined. by eapply probe_inv_pass.
  - apply N.ltb_ge in Ew. eapply Timed_bind; [apply (Timed_lift _ (λ _, True))|].
    { unfold usize_sub, checked_sub. by rewrite (proj2 (N.leb_le _ _) Ew). }
    intros work _. assert (source_ok source) as Hok.
    { rewrite Forall_forall in Hs. apply Hs. rewrite El. apply elem_of_app. right. by left. }
    eapply Timed_bind; [eapply trace_tokens_reference; [exact Hp|by apply hits_of_Ok]|].
    intros [[[spans terms] st] truncated] (_ & _ & _ & Et & Hsub & Hm). apply Timed_ret. cbn [Probe.shared_exhausted]. split; [|done].
    exists (examined ++ [source]). by apply probe_inv_trace.
Qed.
End Probe.

(** ** All the leaves *)
Section Survey.
Context (progress : TraceProgress.t) (entries : list entry) (g : Gather.t).
Hypothesis Hgather : GatherInv self surface_fields entries g.
(** The leaf saw all of the values of its fields. *)
Definition seen (leaf : TraceLeaf.t) : Prop := ∀ e, e ∈ entries → e.1.1 ∈ leaf.(TraceLeaf.fields) →
  silent self surface_fields e ∨ ∃ source, source ∈ g.(Gather.sources) ∧ SourceOf self surface_fields e source ∧ whole leaf source.
(** Surface tokens are kept for the fields of the leaves that need them. *)
Definition surfaced (leaf : TraceLeaf.t) : Prop := TraceLeaf.needs_surface leaf = true → leaf.(TraceLeaf.fields) ⊆ surface_fields.
Lemma gathered_ok : Forall source_ok g.(Gather.sources).
Proof. eapply Forall_impl; [apply Hgather|]. cbn. intros source (e & _ & Hs). by eapply source_of_ok. Qed.
Lemma gathered_le leaf e source : SourceOf self surface_fields e source → source_le (TraceLeaf.needs_surface leaf) source (full_source e.2).
Proof.
  intros Hs. split; cbn [full_source TraceSource.analyzed TraceSource.surface].
  - destruct (source_analyzed _ _ _ _ Hs) as [[k Hk] _]. cbn in Hk. rewrite Hk. set_solver.
  - intros _. destruct (source_surface _ _ _ _ Hs) as [k Hk]. rewrite Hk. set_solver.
Qed.
Lemma whole_le leaf e source : surfaced leaf → e.1.1 ∈ leaf.(TraceLeaf.fields) → SourceOf self surface_fields e source → whole leaf source →
  source_le (TraceLeaf.needs_surface leaf) (full_source e.2) source.
Proof.
  intros Hsf He Hs [Ha Hf]. split; cbn [full_source TraceSource.analyzed TraceSource.surface].
  - destruct (source_analyzed _ _ _ _ Hs) as [_ Hw]. cbn in Hw. by rewrite (Hw Ha).
  - intros En. rewrite (source_surface_whole _ _ _ _ Hs); [done|by apply (Hsf En)|by apply Hf].
Qed.
Lemma silent_source leaf e : surfaced leaf → e.1.1 ∈ leaf.(TraceLeaf.fields) → silent self surface_fields e →
  source_silent (TraceLeaf.needs_surface leaf) (full_source e.2).
Proof.
  intros Hsf He [Ha Hf]. split; cbn [full_source TraceSource.analyzed TraceSource.surface]; [by rewrite Ha|].
  intros En. by rewrite Hf by by apply (Hsf En).
Qed.
(** What the sources examined say of the leaf. *)
Lemma examined_holds leaf examined : Forall (λ s, s.(TraceSource.field) ∈ leaf.(TraceLeaf.fields)) examined → examined ⊆ g.(Gather.sources) →
  plan_holds leaf.(TraceLeaf.plan) leaf.(TraceLeaf.analyzed_fuzzy) examined → leaf_holds entries leaf.
Proof.
  intros Hof Hsub. apply plan_holds_mono; [done|]. intros source Hin. right. pose proof (gather_genuine _ _ _ _ Hgather) as Hg.
  rewrite Forall_forall in Hg. destruct (Hg source (Hsub _ Hin)) as (e & He & Hs). exists (full_source e.2). split; [|by apply gathered_le].
  apply list_elem_of_fmap. exists e. split; [done|]. apply list_elem_of_filter. split; [|done].
  rewrite <- (source_field _ _ _ _ Hs). rewrite Forall_forall in Hof. by apply Hof.
Qed.
Lemma seen_holds leaf sources : surfaced leaf →
  (∀ e, e ∈ entries → e.1.1 ∈ leaf.(TraceLeaf.fields) → silent self surface_fields e
    ∨ ∃ source, source ∈ sources ∧ SourceOf self surface_fields e source ∧ whole leaf source) →
  leaf_holds entries leaf → plan_holds leaf.(TraceLeaf.plan) leaf.(TraceLeaf.analyzed_fuzzy) sources.
Proof.
  intros Hsf Hseen. apply plan_holds_mono; [done|]. intros s Hs. apply list_elem_of_fmap in Hs as (e & -> & He).
  apply list_elem_of_filter in He as [Hf He]. destruct (Hseen e He Hf) as [Hsil|(source & Hin & Hs & Hw)]; [left|right].
  - by apply silent_source.
  - exists source. split; [done|]. by apply whole_le.
Qed.
Record SurveyInv (start : Survey.t) (before : list TraceLeaf.t) (s : Survey.t) : Prop := {
  survey_right : Forall2 (leaf_right entries) before s.(Survey.membership);
  survey_analysis : s.(Survey.analysis_complete) = true → Forall seen before ∧ Forall is_Some s.(Survey.membership);
  survey_complete : s.(Survey.complete) = true → start.(Survey.complete) = true ∧ s.(Survey.analysis_complete) = true }.
Lemma probe_leaf_spec start before leaf s : leaf_ok leaf → surfaced leaf → SurveyInv start before s →
  Timed (probe_leaf progress g s leaf)
    (λ r, match r with Next s' => SurveyInv start (before ++ [leaf]) s' | BreakRecords => TraceProgress.defer progress true = true end) (λ _, False).
Proof.
  intros Hok Hsf [Hr Ha Hc]. unfold probe_leaf. eapply Timed_bind; [apply probe_sources_spec; [done|apply gathered_ok|done]|].
  intros [p|] Hp; [|by apply Timed_ret]. destruct Hp as [(examined & Hinv) _]. apply Timed_ret.
  pose proof Hok as [Hpo Hq]. pose proof Hinv as [He Hv Hm Hk Hof].
  assert (Forall source_ok examined) as Hexok.
  { pose proof gathered_ok as Hg. rewrite Forall_forall in Hg. apply Forall_forall. intros x Hx. by apply Hg, He. }
  assert (TracePlan.record_matches (TraceLeaf.plan leaf) (Probe.found p) = true
    ↔ plan_holds (TraceLeaf.plan leaf) (TraceLeaf.analyzed_fuzzy leaf) examined) as Hiff.
  { rewrite <- (found_of_iff _ _ Hpo Hq _ Hexok). specialize (Hm ∅ (vocabulary_empty _)). rewrite !(right_id_L ∅ (∪)) in Hm. by rewrite Hm. }
  assert (Probe.unknown p = false → seen leaf ∧ (∀ e, e ∈ entries → e.1.1 ∈ leaf.(TraceLeaf.fields) → silent self surface_fields e
    ∨ ∃ source, source ∈ examined ∧ SourceOf self surface_fields e source ∧ whole leaf source)) as Hseen.
  { intros Eu. destruct (Hk Eu) as [Eu0 Hall]. cbn in Eu0. apply negb_false_iff, bool_decide_eq_true in Eu0.
    assert (∀ e, e ∈ entries → e.1.1 ∈ leaf.(TraceLeaf.fields) → silent self surface_fields e
      ∨ ∃ source, source ∈ g.(Gather.sources) ∧ source ∈ examined ∧ SourceOf self surface_fields e source ∧ whole leaf source) as Hs.
    { intros e Hin Hf. pose proof (gather_all _ _ _ _ Hgather) as Hga. rewrite Forall_forall in Hga.
      destruct (Hga e Hin) as [Hmiss|[|(source & Hsin & Hs)]]; [exfalso; set_solver|by left|right]. exists source. split; [done|].
      rewrite Forall_forall in Hall. destruct (Hall source Hsin) as [? ?]; [|done]. by rewrite (source_field _ _ _ _ Hs). }
    split; intros e Hin Hf; (destruct (Hs e Hin Hf) as [|(source & ? & ? & ? & ?)]; [by left|right; by exists source]). }
  split; cbn [Survey.membership Survey.analysis_complete Survey.complete].
  - apply Forall2_app; [done|]. constructor; [|constructor]. destruct (TracePlan.record_matches _ _).
    + split; [|done]. intros _. eapply examined_holds; [done|done|by apply Hiff].
    + destruct (Probe.unknown p) eqn:Eu; split; try done. intros _ Hl. destruct (Hseen eq_refl) as [_ Hs].
      assert (false = true) by (apply Hiff; by eapply seen_holds). done.
  - intros [E1 E2%negb_true_iff]%andb_true_iff. destruct (Ha E1) as [? ?]. destruct (Hseen E2) as [? _]. rewrite E2. split; apply Forall_app; (split; [done|]); apply Forall_singleton; [done|].
    by destruct (TracePlan.record_matches _ _).
  - intros [E1 E2]%andb_true_iff. destruct (Hc E1) as [? E3]. by rewrite E3, E2.
Qed.
Lemma survey_spec start leaves : Forall leaf_ok leaves → Forall surfaced leaves → start.(Survey.membership) = [] → start.(Survey.analysis_complete) = true →
  Timed (foldS (probe_leaf progress g) start leaves)
    (λ r, match r with Next s => SurveyInv start leaves s | BreakRecords => TraceProgress.defer progress true = true end) (λ _, False).
Proof.
  intros Hok Hsf Em Ea. apply (Timed_foldS _ (SurveyInv start)).
  { split; rewrite ?Em; try done. }
  intros before leaf todo s El Hs. rewrite Forall_forall in Hok. rewrite Forall_forall in Hsf.
  assert (leaf ∈ leaves) as Hin by (rewrite El; apply elem_of_app; right; by left). apply probe_leaf_spec; auto.
Qed.
End Survey.
End Probing.
