(* ===== verification/Harvesting.v ===== *)
(** * The spans of a record

    What the loops over the deciding leaves collect, and what of it is reported:
    spans that were found, all of them unless something was cut, within the
    budgets. *)
From stdpp Require Import sorting.
From S2P Require Import Prelude.
From S2P Require Import Errors.
From S2P Require Import Bytes.
From S2P Require Import Wire.
From S2P Require Import Request.
From S2P Require Import Structure.
From S2P Require Import Admission.
From S2P Require Import Text.
From S2P Require Import Response.
From S2P Require Import Spans.
From S2P Require Import Analysis.
From S2P Require Import Membership.
From S2P Require Import Deadline.
From S2P Require Import Plan.
From S2P Require Import Prepared.
From S2P Require Import Tokens.
From S2P Require Import Matching.
From S2P Require Import Page.
From S2P Require Import Paging.
From S2P Require Import Trails.
From S2P Require Import Gathering.
From S2P Require Import Probing.
Local Open Scope N_scope.

(** ** The number of spans of a table *)
Definition size_at (kv : (bytes * N) * gset TraceSpan.t) : N := N.of_nat (size kv.2).
Definition values_count (values : gmap (bytes * N) (gset TraceSpan.t)) : N := sum (size_at <$> map_to_list values).
#[local] Instance sum_proper : Proper ((≡ₚ) ==> (=)) sum.
Proof. intros l k Hp. induction Hp; rewrite ?sum_cons; lia. Qed.
Lemma values_count_delete values key : values_count values = N.of_nat (size (entry_of values key)) + values_count (delete key values).
Proof.
  unfold values_count, entry_of. destruct (values !! key) as [spans|] eqn:E; cbn [default].
  - rewrite <- (map_to_list_delete _ _ _ E). by rewrite fmap_cons, sum_cons.
  - by rewrite delete_id by done.
Qed.
Lemma entry_of_insert values key spans : entry_of (<[key := spans]> values) key = spans.
Proof. unfold entry_of. by rewrite lookup_insert_eq. Qed.
Lemma values_count_insert values key spans : 
  values_count (<[key := spans]> values) + N.of_nat (size (entry_of values key)) = values_count values + N.of_nat (size spans).
Proof.
  rewrite (values_count_delete values key), (values_count_delete (<[key := spans]> values) key), delete_insert_eq, entry_of_insert. lia.
Qed.
Lemma entry_of_insert_ne values key key' spans : key ≠ key' → entry_of (<[key := spans]> values) key' = entry_of values key'.
Proof. intros Hn. unfold entry_of. by rewrite lookup_insert_ne. Qed.

(** ** One source *)
Section Collect.
Context (progress : TraceProgress.t) (key : bytes * N).
Record Collected (h : Harvest.t) (spans : list TraceSpan.t) (h' : Harvest.t) : Prop := {
  collected_count : values_count h'.(Harvest.values) + h'.(Harvest.pending_spans) = values_count h.(Harvest.values) + h.(Harvest.pending_spans);
  collected_others : ∀ k, k ≠ key → entry_of h'.(Harvest.values) k = entry_of h.(Harvest.values) k;
  collected_more : entry_of h.(Harvest.values) key ⊆ entry_of h'.(Harvest.values) key;
  collected_only : entry_of h'.(Harvest.values) key ⊆ entry_of h.(Harvest.values) key ∪ list_to_set spans;
  collected_all : h'.(Harvest.spans_complete) = true → h.(Harvest.spans_complete) = true ∧ list_to_set spans ⊆ entry_of h'.(Harvest.values) key;
  collected_complete : h'.(Harvest.complete) = true → h.(Harvest.complete) = true ∧ list_to_set spans ⊆ entry_of h'.(Harvest.values) key }.
Lemma collect_spans_spec spans : ∀ h, match collect_spans progress key h spans with
  | Next h' => Collected h spans h'
  | BreakRecords => TraceProgress.defer progress true = true
  end.
Proof.
  induction spans as [|span spans IH]; intros h; cbn [collect_spans].
  { split; try done; set_solver. }
  destruct (decide (span ∈ entry_of (Harvest.values h) key)) as [Hin|Hin].
  { specialize (IH h). destruct (collect_spans _ _ h spans) as [h'|]; [|done]. destruct IH as [H1 H2 H3 H4 H5 H6]. split; [done|done|done|set_solver|..].
    - intros E. destruct (H5 E). split; [done|]. cbn. set_solver.
    - intros E. destruct (H6 E). split; [done|]. cbn. set_solver. }
  destruct (N.eqb_spec (Harvest.pending_spans h) 0) as [E0|E0].
  { destruct (TraceProgress.defer progress true) eqn:Ed; [done|]. split; cbn; try done; set_solver. }
  set (h1 := Harvest.mk _ _ _ _ _ _). specialize (IH h1). destruct (collect_spans _ _ h1 spans) as [h'|]; [|done].
  destruct IH as [H1 H2 H3 H4 H5 H6]. unfold h1 in *. cbn [Harvest.values Harvest.pending_spans Harvest.spans_complete Harvest.complete] in *.
  rewrite entry_of_insert in *. split; [|..|set_solver|set_solver| |].
  - rewrite H1. pose proof (values_count_insert (Harvest.values h) key ({[span]} ∪ entry_of (Harvest.values h) key)) as Hc.
    rewrite (size_union {[span]}), size_singleton in Hc by set_solver. lia.
  - intros k Hk. rewrite H2 by done. by rewrite entry_of_insert_ne.
  - intros E. destruct (H5 E). split; [done|]. cbn. set_solver.
  - intros E. destruct (H6 E). split; [done|]. cbn. set_solver.
Qed.
End Collect.

(** ** The sources of the deciding leaves *)
Section Harvest.
Context `{Unicode} `{Automata} (progress : TraceProgress.t).
Hypothesis Htotal : automata_total.
Definition key_of (source : TraceSource.t) : bytes * N := (source.(TraceSource.field), source.(TraceSource.value_index)).
Definition leaf_spans (leaf : TraceLeaf.t) (source : TraceSource.t) : list TraceSpan.t := distinct_spans (hits_of leaf.(TraceLeaf.plan) false source).
Definition all_harvested (met : list (TraceLeaf.t * TraceSource.t)) (h : Harvest.t) : Prop := ∀ leaf source, (leaf, source) ∈ met →
  source.(TraceSource.field) ∈ leaf.(TraceLeaf.fields) → list_to_set (leaf_spans leaf source) ⊆ entry_of h.(Harvest.values) (key_of source).
Record HarvestInv (start : Harvest.t) (met : list (TraceLeaf.t * TraceSource.t)) (h : Harvest.t) : Prop := {
  harvest_count : values_count h.(Harvest.values) + h.(Harvest.pending_spans) = values_count start.(Harvest.values) + start.(Harvest.pending_spans);
  harvest_genuine : ∀ key span, span ∈ entry_of h.(Harvest.values) key → ∃ leaf source, (leaf, source) ∈ met ∧ key = key_of source
    ∧ source.(TraceSource.field) ∈ leaf.(TraceLeaf.fields) ∧ span ∈ leaf_spans leaf source;
  harvest_all : h.(Harvest.spans_complete) = true → all_harvested met h;
  harvest_complete : h.(Harvest.complete) = true → start.(Harvest.complete) = true ∧ all_harvested met h }.
Lemma all_harvested_more met met' h h' : all_harvested met h → (∀ key, entry_of h.(Harvest.values) key ⊆ entry_of h'.(Harvest.values) key) →
  all_harvested met' h' → all_harvested (met ++ met') h'.
Proof. intros H1 Hsub H2 leaf source [Hin|Hin]%elem_of_app Hf; [|by apply H2]. etrans; [by apply H1|done]. Qed.
Lemma all_harvested_pass met h leaf source : all_harvested met h → source.(TraceSource.field) ∉ leaf.(TraceLeaf.fields) →
  all_harvested (met ++ [(leaf, source)]) h.
Proof. intros Ha Hn. apply (all_harvested_more _ _ h); [done|done|]. intros l s [= -> ->]%list_elem_of_singleton. done. Qed.
Lemma entry_le_count values key : N.of_nat (size (entry_of values key)) <= values_count values.
Proof. rewrite (values_count_delete values key). lia. Qed.
Lemma collect_source_spec start met h leaf source : leaf_ok leaf → source_ok source → values_count start.(Harvest.values) + start.(Harvest.pending_spans) <= MAX_TRACE_SPANS →
  HarvestInv start met h →
  Timed (collect_source progress leaf h source)
    (λ r, match r with Next h' => HarvestInv start (met ++ [(leaf, source)]) h' | BreakRecords => TraceProgress.defer progress true = true end)
    (λ _, False).
Proof.
  intros [Hp Hq] Hs Hmax [Hc Hg Ha Hco]. unfold collect_source.
  destruct (bool_decide_reflect (TraceSource.field source ∈ TraceLeaf.fields leaf)) as [Hf|Hf]; cbn [negb].
  2:{ apply Timed_ret. split; [done| | |].
      - intros key span Hin. destruct (Hg key span Hin) as (l & s & ? & ?). exists l, s. split; [apply elem_of_app; by left|done].
      - intros E. apply all_harvested_pass; auto.
      - intros E. destruct (Hco E). split; [done|]. by apply all_harvested_pass. }
  apply Timed_if; intros Ew.
  { apply Timed_if; intros Ed; apply Timed_ret; [done|]. split; cbn [Harvest.exhaust Harvest.values Harvest.pending_spans]; try done.
    intros key span Hin. destruct (Hg key span Hin) as (l & s & ? & ?). exists l, s. split; [apply elem_of_app; by left|done]. }
  apply N.ltb_ge in Ew. eapply Timed_bind; [apply (Timed_lift _ (λ _, True))|].
  { unfold usize_sub, checked_sub. by rewrite (proj2 (N.leb_le _ _) Ew). }
  intros work _. fold (key_of source). set (key := key_of source). set (old := entry_of (Harvest.values h) key).
  assert (Harvest.pending_spans h + N.of_nat (size old) <= MAX_TRACE_SPANS) as Hcand.
  { pose proof (entry_le_count (Harvest.values h) key). unfold old. lia. }
  eapply Timed_bind; [apply (Timed_lift _ (λ r, r = Harvest.pending_spans h + N.of_nat (size old)))|].
  { unfold usize_add, checked_add. assert (MAX_TRACE_SPANS <= USIZE_MAX) by by vm_compute. by rewrite (proj2 (N.leb_le _ _)) by lia. }
  intros candidates ->. eapply Timed_bind; [eapply trace_tokens_reference; [exact Hp|by apply hits_of_Ok]|].
  intros [[[spans found] truncated] at_] (_ & Hperm & Et & _).
  apply Timed_if; intros Ed; apply Timed_ret; [by apply andb_true_iff in Ed as [_ ?]|].
  pose proof (collect_spans_spec progress key spans (Harvest.mk (<[key:=old]> (Harvest.values h)) (Harvest.pending_spans h) work
    (Harvest.shared_exhausted h || truncated) (Harvest.spans_complete h && negb truncated) (Harvest.complete h && negb truncated))) as Hcol.
  destruct (collect_spans _ _ _ _) as [h'|]; [|done]. destruct Hcol as [C1 C2 C3 C4 C5 C6].
  cbn [Harvest.values Harvest.pending_spans Harvest.spans_complete Harvest.complete] in *. rewrite entry_of_insert in C3, C4.
  pose proof (values_count_insert (Harvest.values h) key old) as Hins. fold old in Hins.
  assert (∀ k, entry_of (Harvest.values h) k ⊆ entry_of (Harvest.values h') k) as Hmono.
  { intros k. destruct (decide (k = key)) as [->|Hn]; [exact C3|]. rewrite C2 by done. rewrite entry_of_insert_ne by done. done. }
  assert (∀ span, span ∈ spans → span ∈ leaf_spans leaf source) as Hsub.
  { intros span Hin. rewrite Hperm in Hin. by apply subseteq_take in Hin. }
  assert (truncated = false → list_to_set spans ⊆ entry_of (Harvest.values h') key → all_harvested [(leaf, source)] h') as Hnew.
  { intros Etr Hin l s [= -> ->]%list_elem_of_singleton _. rewrite Et in Etr. apply bool_decide_eq_false in Etr. rewrite take_ge in Hperm by lia.
    etrans; [|exact Hin]. intros x Hx%elem_of_list_to_set. apply elem_of_list_to_set. by rewrite Hperm. }
  split.
  - lia.
  - intros k span Hin. destruct (decide (k = key)) as [->|Hn].
    + apply C4, elem_of_union in Hin as [Hin|Hin%elem_of_list_to_set].
      * destruct (Hg key span Hin) as (l & s & ? & ?). exists l, s. split; [apply elem_of_app; by left|done].
      * exists leaf, source. split; [apply elem_of_app; right; by left|]. split; [done|]. split; [done|by apply Hsub].
    + rewrite C2, entry_of_insert_ne in Hin by done. destruct (Hg k span Hin) as (l & s & ? & ?). exists l, s. split; [apply elem_of_app; by left|done].
  - intros E. destruct (C5 E) as [[E1 E2%negb_true_iff]%andb_true_iff Hin]. apply (all_harvested_more _ _ h); auto.
  - intros E. destruct (C6 E) as [[E1 E2%negb_true_iff]%andb_true_iff Hin]. destruct (Hco E1). split; [done|]. apply (all_harvested_more _ _ h); auto.
Qed.
(** All the leaves, in the order of the decision. *)
Definition pairs (leaves : list TraceLeaf.t) (sources : list TraceSource.t) (indices : list N) : list (TraceLeaf.t * TraceSource.t) :=
  indices ≫= λ i, match leaves !! N.to_nat i with Some leaf => pair leaf <$> sources | None => [] end.
Lemma harvest_spec leaves sources indices start : Forall leaf_ok leaves → Forall source_ok sources → Forall (λ i, i < lenN leaves) indices →
  start.(Harvest.values) = ∅ → start.(Harvest.pending_spans) <= MAX_TRACE_SPANS →
  Timed (foldS (collect_leaf progress leaves sources) start indices)
    (λ r, match r with Next h => HarvestInv start (pairs leaves sources indices) h | BreakRecords => TraceProgress.defer progress true = true end)
    (λ _, False).
Proof.
  intros Hl Hs Hi Ev Hmax. assert (values_count start.(Harvest.values) + start.(Harvest.pending_spans) <= MAX_TRACE_SPANS) as Hmax'.
  { rewrite Ev. unfold values_count. rewrite map_to_list_empty. cbn. lia. }
  apply (Timed_foldS _ (λ before, HarvestInv start (pairs leaves sources before))).
  { split; [done| | |].
    - intros key span Hin. rewrite Ev in Hin. unfold entry_of in Hin. rewrite lookup_empty in Hin. cbn in Hin. set_solver.
    - intros _ l s Hin. by apply not_elem_of_nil in Hin.
    - intros ?. split; [done|]. intros l s Hin. by apply not_elem_of_nil in Hin. }
  intros before i todo h El Hh. unfold collect_leaf. assert (i < lenN leaves) as Hlt.
  { rewrite Forall_forall in Hi. apply Hi. rewrite El. apply elem_of_app. right. by left. }
  destruct (lookup_lt_is_Some_2 leaves (N.to_nat i)) as [leaf Hleaf]; [unfold lenN in Hlt; lia|].
  eapply Timed_bind; [apply (Timed_lift _ (λ r, r = leaf)); by rewrite Hleaf|]. intros ? ->.
  assert (pairs leaves sources (before ++ [i]) = pairs leaves sources before ++ (pair leaf <$> sources)) as ->.
  { unfold pairs. rewrite bind_app. cbn. by rewrite Hleaf, app_nil_r. }
  apply (Timed_foldS _ (λ done, HarvestInv start (pairs leaves sources before ++ (pair leaf <$> done)))); [by rewrite app_nil_r|].
  intros done_ source todo' h' Es Hh'. rewrite fmap_app, app_assoc. apply collect_source_spec; [| |done|done].
  - rewrite Forall_forall in Hl. apply Hl. by eapply list_elem_of_lookup_2.
  - rewrite Forall_forall in Hs. apply Hs. rewrite Es. apply elem_of_app. right. by left.
Qed.
End Harvest.

(** ** What is reported of them *)
Section Emit.
Context (remaining_bytes header remaining : N) (spans_complete complete : bool).
Abbreviation keyed := ((bytes * N) * gset TraceSpan.t)%type.
Definition sorted_spans (spans : gset TraceSpan.t) : list TraceSpan.t := merge_sort span_le (elements spans).
(** The value a table entry stands for *)
Definition whole_value (kv : keyed) : option TraceValueMatch.t :=
  if bool_decide (kv.2 = ∅) then None else Some (TraceValueMatch.mk kv.1.1 kv.1.2 (sorted_spans kv.2)).
Definition emitted_from (before : list keyed) (v : TraceValueMatch.t) : Prop := v.(TraceValueMatch.spans) ≠ []
  ∧ ∃ kv, kv ∈ before ∧ (v.(TraceValueMatch.field), v.(TraceValueMatch.value_index)) = kv.1 ∧ ∀ span, span ∈ v.(TraceValueMatch.spans) → span ∈ kv.2.
Record EmitInv (before : list keyed) (e : Emit.t) : Prop := {
  emit_spans : e.(Emit.remaining_spans) + values_spans e.(Emit.matched_values) = remaining;
  emit_left : remaining <= e.(Emit.remaining_spans) + sum (size_at <$> before);
  emit_bytes : e.(Emit.record_bytes) = header + values_size e.(Emit.matched_values);
  emit_fits : e.(Emit.matched_values) = [] ∨ e.(Emit.record_bytes) <= remaining_bytes;
  emit_all : e.(Emit.spans_complete) = true → spans_complete = true ∧ e.(Emit.matched_values) = omap whole_value before;
  emit_complete : e.(Emit.complete) = true → complete = true ∧ e.(Emit.matched_values) = omap whole_value before;
  emit_genuine : Forall (emitted_from before) e.(Emit.matched_values) }.
Lemma sorted_spans_perm spans : sorted_spans spans ≡ₚ elements spans.
Proof. apply merge_sort_Permutation. Qed.
Lemma lenN_sorted_spans spans : lenN (sorted_spans spans) = N.of_nat (size spans).
Proof. unfold lenN. by rewrite sorted_spans_perm. Qed.
Lemma emitted_from_more before kv v : emitted_from before v → emitted_from (before ++ [kv]) v.
Proof. intros (Hn & kv' & Hin & ?). split; [done|]. exists kv'. split; [apply elem_of_app; by left|done]. Qed.
Lemma emit_value_spec before kv e : size_at kv + sum (size_at <$> before) <= remaining → EmitInv before e →
  ∃ e', emit_value remaining_bytes e kv = Ok e' ∧ EmitInv (before ++ [kv]) e'.
Proof.
  destruct kv as [[field index] spans]. unfold size_at at 1. cbn [snd]. intros Hroom [Hs Hl Hb Hf Ha Hc Hg]. unfold emit_value. cbv zeta. fold (sorted_spans spans).
  assert (sum (size_at <$> before ++ [((field, index), spans)]) = sum (size_at <$> before) + N.of_nat (size spans)) as Esum.
  { rewrite fmap_app, sum_app, sum_singleton. done. }
  set (hd := 10 + lenN field). set (keep := N.min _ _).
  assert (omap whole_value (before ++ [((field, index), spans)])
    = omap whole_value before ++ option_list (whole_value ((field, index), spans))) as Eo by by rewrite omap_app.
  destruct (N.eqb_spec keep 0) as [E0|E0].
  - eexists. split; [done|]. rewrite E0.
    assert ((0 <? lenN (sorted_spans spans)) = false → whole_value ((field, index), spans) = None) as Enone.
    { intros E%N.ltb_ge. rewrite lenN_sorted_spans in E. unfold whole_value. cbn [snd]. rewrite bool_decide_eq_true_2; [done|].
      apply leibniz_equiv, size_empty_inv. lia. }
    split; cbn [Emit.remaining_spans Emit.matched_values Emit.record_bytes Emit.spans_complete Emit.complete]; try done.
    + lia.
    + intros [E1 E2%negb_true_iff]%andb_true_iff. destruct (Ha E1) as [? ->]. split; [done|]. rewrite Eo, (Enone E2). cbn. by rewrite app_nil_r.
    + intros [E1 E2%negb_true_iff]%andb_true_iff. destruct (Hc E1) as [? ->]. split; [done|]. rewrite Eo, (Enone E2). cbn. by rewrite app_nil_r.
    + eapply Forall_impl; [exact Hg|]. intros v. apply emitted_from_more.
  - assert (keep <= lenN (sorted_spans spans) ∧ keep <= saturating_sub remaining_bytes (e.(Emit.record_bytes) + hd) / 8) as [Hk1 Hk2] by (unfold keep; lia).
    unfold saturating_sub in Hk2. assert (hd + keep * 8 <= remaining_bytes - e.(Emit.record_bytes)) as Hfit.
    { pose proof (N.Div0.mul_div_le (remaining_bytes - (e.(Emit.record_bytes) + hd)) 8). lia. }
    assert (keep <= e.(Emit.remaining_spans)) as Hk3 by (rewrite lenN_sorted_spans in Hk1; lia).
    cbn [Emit.remaining_spans]. unfold usize_sub, checked_sub. rewrite (proj2 (N.leb_le _ _) Hk3). cbn [unwrap mbind outcome_bind].
    eexists. split; [reflexivity|]. set (v := TraceValueMatch.mk field index (take (N.to_nat keep) (sorted_spans spans))).
    assert (lenN v.(TraceValueMatch.spans) = keep) as Ev by (unfold v; cbn; rewrite lenN_take; lia).
    assert ((keep <? lenN (sorted_spans spans)) = false → option_list (whole_value ((field, index), spans)) = [v]) as Efull.
    { intros E%N.ltb_ge. unfold whole_value. cbn [fst snd]. rewrite bool_decide_eq_false_2.
      - cbn. unfold v. rewrite take_ge by (unfold lenN in *; lia). done.
      - intros ->. rewrite lenN_sorted_spans, size_empty in Hk1. lia. }
    split; cbn [Emit.remaining_spans Emit.matched_values Emit.record_bytes Emit.spans_complete Emit.complete].
    + rewrite values_spans_snoc, Ev. lia.
    + rewrite Esum. rewrite lenN_sorted_spans in Hk1. lia.
    + rewrite values_size_snoc, Hb. unfold value_size. rewrite Ev. cbn. unfold hd. lia.
    + right. lia.
    + intros [E1 E2%negb_true_iff]%andb_true_iff. destruct (Ha E1) as [? ->]. split; [done|]. by rewrite Eo, (Efull E2).
    + intros [E1 E2%negb_true_iff]%andb_true_iff. destruct (Hc E1) as [? ->]. split; [done|]. by rewrite Eo, (Efull E2).
    + apply Forall_app. split; [eapply Forall_impl; [exact Hg|]; intros w; apply emitted_from_more|]. apply Forall_singleton. split.
      * intros E. apply E0. by rewrite <- Ev, E.
      * exists ((field, index), spans). split; [apply elem_of_app; right; by left|]. split; [done|]. intros span Hin. cbn in Hin.
        apply subseteq_take in Hin. rewrite sorted_spans_perm in Hin. by apply elem_of_elements in Hin.
Qed.
Lemma emit_spec shared values : values_count values <= remaining →
  ∃ e, foldO (emit_value remaining_bytes) (Emit.mk header [] remaining shared spans_complete complete) (sorted_values values) = Ok e
    ∧ EmitInv (sorted_values values) e.
Proof.
  intros Hroom. apply (foldO_inv _ EmitInv).
  - split; cbn; try done; [lia|lia|lia|by left].
  - intros before kv todo e El He. apply emit_value_spec; [|done]. unfold values_count in Hroom.
    assert (map_to_list values ≡ₚ before ++ kv :: todo) as Hp by (rewrite <- El; symmetry; apply merge_sort_Permutation).
    rewrite Hp, fmap_app, fmap_cons, sum_app, sum_cons in Hroom. lia.
Qed.
End Emit.
