(* ===== verification/Trailing.v ===== *)
(** * The pages of a trace of an expression are right

    What [trace_expression] must say of each record, stated on the search
    expression and the whole values of the record, and the invariant of the loop
    over the records. *)
From stdpp Require Import sorting.
From S2P Require Import Prelude.
From S2P Require Import Errors.
From S2P Require Import Bytes.
From S2P Require Import Wire.
From S2P Require Import Request.
From S2P Require Import Structure.
From S2P Require Import Admission.
From S2P Require Import Text.
From S2P Require Import Response.
From S2P Require Import Spans.
From S2P Require Import Analysis.
From S2P Require Import Membership.
From S2P Require Import Deadline.
From S2P Require Import Plan.
From S2P Require Import Prepared.
From S2P Require Import Tokens.
From S2P Require Import Matching.
From S2P Require Import Page.
From S2P Require Import Paging.
From S2P Require Import Trails.
From S2P Require Import Gathering.
From S2P Require Import Probing.
From S2P Require Import Harvesting.
Local Open Scope N_scope.

(** Matches depend on the tokens, and on the surface tokens only if they are used. *)
Lemma token_hits_ext s s' hit tokens : s.(TraceSource.utf16) = s'.(TraceSource.utf16) → token_hits s hit tokens = token_hits s' hit tokens.
Proof. intros E. unfold token_hits, token_span. rewrite E. done. Qed.
Lemma phrase_hits_ext s s' first later tokens : s.(TraceSource.utf16) = s'.(TraceSource.utf16) →
  phrase_hits s first later tokens = phrase_hits s' first later tokens.
Proof. intros E. unfold phrase_hits. rewrite E. done. Qed.
Lemma source_hits_ext `{Unicode} `{Automata} plan af s s' : s.(TraceSource.utf16) = s'.(TraceSource.utf16) → s.(TraceSource.analyzed) = s'.(TraceSource.analyzed) →
  (TracePlan.needs_surface plan af = true → s.(TraceSource.surface) = s'.(TraceSource.surface)) → source_hits plan s af = source_hits plan s' af.
Proof.
  intros Eu Ea Es. unfold source_hits. destruct plan as [t|t|[|first later]|t p m|e f]; rewrite ?Ea.
  - by apply token_hits_ext.
  - by apply token_hits_ext.
  - done.
  - by apply phrase_hits_ext.
  - rewrite (Es eq_refl), (token_hits_ext s s' (terms_hit t)), (token_hits_ext s s' (prefix_hit p m)) by done. done.
  - unfold analyzed_by_position. rewrite Ea. destruct af; [|rewrite (Es eq_refl)]; by apply token_hits_ext.
Qed.

Section Meaning.
Context `{Unicode} `{Automata} (final_analyzer : bytes → list Token.t) (self : Engine.t).
(** ** What a record must satisfy *)
Definition clause_holds (record : TraceRecord.t) (negative : bool) (clause : SearchClause.t) : Prop :=
  ∃ plan fields, trace_plan final_analyzer self clause = Ok plan ∧ selected_fields self clause.(SearchClause.fields) = Ok fields
    ∧ plan_holds plan negative ((λ e : entry, full_source self e.2) <$> record_values (field_names fields) record).
Definition record_holds (record : TraceRecord.t) (e : SearchExpression.t) : Prop := holds (clause_holds record) false e.

Lemma field_values_restrict (fields selected : gset bytes) field : fields ⊆ selected →
  filter (λ e : entry, e.1.1 ∈ fields) (field_values selected field) = field_values fields field.
Proof.
  intros Hsub. unfold field_values. destruct field as [field vs]. cbn [fst snd].
  assert (∀ (f : nat → N) vs, field ∈ fields → filter (λ e : entry, e.1.1 ∈ fields) (imap (λ i value, (field, f i, value)) vs)
    = imap (λ i value, (field, f i, value)) vs) as Hin.
  { clear vs. intros f vs Hf. revert f. induction vs as [|v vs IH]; intros f; [done|]. cbn [imap]. rewrite filter_cons_True by done. f_equal. apply (IH (f ∘ S)). }
  assert (∀ (f : nat → N) vs, field ∉ fields → filter (λ e : entry, e.1.1 ∈ fields) (imap (λ i value, (field, f i, value)) vs) = []) as Hout.
  { clear vs. intros f vs Hf. revert f. induction vs as [|v vs IH]; intros f; [done|]. cbn [imap]. rewrite filter_cons_False by done. apply (IH (f ∘ S)). }
  destruct (bool_decide_reflect (field ∈ selected)) as [Hs|Hs]; destruct (bool_decide_reflect (field ∈ fields)) as [Hf|Hf]; try done; [..|set_solver].
  - apply (Hin (λ i, N.of_nat i) vs Hf).
  - apply (Hout (λ i, N.of_nat i) vs Hf).
Qed.
Lemma record_values_restrict (fields selected : gset bytes) record : fields ⊆ selected →
  filter (λ e : entry, e.1.1 ∈ fields) (record_values selected record) = record_values fields record.
Proof.
  intros Hsub. unfold record_values. induction (TraceRecord.fields record) as [|f fs IH]; [done|]. cbn. by rewrite filter_app, field_values_restrict, IH.
Qed.

Section Expression.
Context (expression : SearchExpression.t) (te : TraceExpression.t) (leaves : list TraceLeaf.t).
Hypothesis Htotal : automata_total.
Hypothesis Hstream : stream_ok self.(Engine.index_analyzer).
Hypothesis Hcompiled : Compiled final_analyzer self leaves false expression te.
Hypothesis Hleaves : Forall leaf_ok leaves.
Definition selected : gset bytes := leaf_fields leaves.
Definition surface_fields : gset bytes := leaf_fields (filter (λ leaf, TraceLeaf.needs_surface leaf) leaves).
Definition entries (record : TraceRecord.t) : list entry := record_values selected record.
Lemma leaf_fields_elem ls leaf : leaf ∈ ls → leaf.(TraceLeaf.fields) ⊆ leaf_fields ls.
Proof.
  intros Hin x Hx. unfold leaf_fields. apply elem_of_union_list. exists (TraceLeaf.fields leaf). split; [|done].
  apply list_elem_of_fmap. by exists leaf.
Qed.
Lemma leaves_surfaced : Forall (surfaced surface_fields) leaves.
Proof.
  apply Forall_forall. intros leaf Hin En. unfold surface_fields. apply leaf_fields_elem. apply list_elem_of_filter. split; [by rewrite En|done].
Qed.
Lemma leaf_holds_clause record leaf negative clause : leaf ∈ leaves → leaf_of final_analyzer self negative clause leaf →
  leaf_holds self (entries record) leaf ↔ clause_holds record negative clause.
Proof.
  intros Hin (Hp & <- & fields & Hf & Hn). unfold leaf_holds, entries.
  assert (filter (λ e : entry, e.1.1 ∈ TraceLeaf.fields leaf) (record_values selected record) = record_values (field_names fields) record) as ->.
  { rewrite record_values_restrict by by apply leaf_fields_elem. by rewrite Hn. }
  split; [intros Hh; by exists (TraceLeaf.plan leaf), fields|]. intros (plan & fs & Hp' & Hf' & Hh). rewrite Hp in Hp'. rewrite Hf in Hf'.
  injection Hp' as <-. by injection Hf' as <-.
Qed.
(** The leaves that hold, as a valuation *)
Definition leaf_true (record : TraceRecord.t) (leaf : TraceLeaf.t) : bool :=
  TracePlan.record_matches leaf.(TraceLeaf.plan) (found_of leaf.(TraceLeaf.plan) leaf.(TraceLeaf.analyzed_fuzzy)
    ((λ e : entry, full_source self e.2) <$> filter (λ e : entry, e.1.1 ∈ leaf.(TraceLeaf.fields)) (entries record))).
Lemma leaf_true_iff record leaf : leaf_ok leaf → leaf_true record leaf = true ↔ leaf_holds self (entries record) leaf.
Proof.
  intros [Hp Hq]. apply found_of_iff; [done..|]. apply Forall_fmap, Forall_true. intros e. by apply (prefix_source_ok self Hstream _ e.2).
Qed.
Definition valuation (record : TraceRecord.t) (i : N) : bool :=
  match leaves !! N.to_nat i with Some leaf => leaf_true record leaf | None => false end.
Lemma valuation_truth record : truth te (valuation record) = true ↔ record_holds record expression.
Proof.
  unfold record_holds. eapply compiled_truth; [|exact Hcompiled]. intros i leaf negative clause Hi Hl. unfold valuation. rewrite Hi.
  pose proof (list_elem_of_lookup_2 _ _ _ Hi) as Hin. rewrite Forall_forall in Hleaves. rewrite leaf_true_iff by by apply Hleaves.
  by apply leaf_holds_clause.
Qed.
Lemma right_agrees record membership : Forall2 (leaf_right self (entries record)) leaves membership → agrees (valuation record) membership.
Proof.
  intros Hr i b Hi. destruct (Forall2_lookup_r _ _ _ _ _ Hr Hi) as (leaf & Hl & Ht & Hf). unfold valuation. rewrite Hl.
  pose proof (list_elem_of_lookup_2 _ _ _ Hl) as Hin. rewrite Forall_forall in Hleaves. pose proof (leaf_true_iff record leaf (Hleaves leaf Hin)) as Hiff.
  destruct b, (leaf_true record leaf); try done; exfalso.
  - assert (false = true) by (apply Hiff, Ht; done). done.
  - apply (Hf eq_refl). by apply Hiff.
Qed.
(** A decision about the leaves is right about the record. *)
Lemma decision_right record membership : Forall2 (leaf_right self (entries record)) leaves membership →
  ∃ d, evaluate te membership = Ok d
    ∧ (d.(TraceDecision.matched) = Some true → record_holds record expression)
    ∧ (d.(TraceDecision.matched) = Some false → ¬ record_holds record expression)
    ∧ Forall (λ i, i < lenN leaves) d.(TraceDecision.leaves)
    ∧ Forall (λ i, ∀ leaf, leaves !! N.to_nat i = Some leaf → leaf.(TraceLeaf.analyzed_fuzzy) = false) d.(TraceDecision.leaves)
    ∧ (Forall is_Some membership → is_Some d.(TraceDecision.matched)).
Proof.
  intros Hr. pose proof (Forall2_length _ _ _ Hr) as Hlen. pose proof (compiled_indexed _ _ _ _ _ _ Hcompiled) as Hidx.
  destruct (evaluate_total te membership) as [d Hd]; [by unfold indexed, lenN in *; rewrite <- Hlen|]. exists d. split; [done|].
  pose proof (right_agrees _ _ Hr) as Hag. destruct (evaluate_leaves _ _ _ Hd) as [_ Hl]. split; [|split; [|split; [|split]]].
  - intros E. apply valuation_truth. by apply (evaluate_sound _ _ _ Hag _ _ Hd).
  - intros E Hh%valuation_truth. rewrite (evaluate_sound _ _ _ Hag _ _ Hd E) in Hh. done.
  - apply Forall_forall. intros i Hi. destruct (Hl i Hi) as [_ Hm]. apply lookup_lt_Some in Hm. unfold lenN. lia.
  - apply Forall_forall. intros i Hi leaf Hleaf. destruct (Hl i Hi) as [Hpos _].
    destruct (compiled_positive _ _ _ _ _ _ Hcompiled i Hpos) as (leaf' & Hl' & E). rewrite Hleaf in Hl'. by injection Hl' as <-.
  - apply (evaluate_known _ _ _ Hd).
Qed.

(** ** What is said of a record *)
Section Records.
Context (candidates : option (gset bytes)) (recovery : bool) (records : list TraceRecord.t).
(** The whole tokens of a value, and the spans a leaf has in them *)
Definition whole_source (e : entry) : TraceSource.t :=
  TraceSource.mk e.1.1 e.1.2 (convert_token <$> self.(Engine.index_analyzer) e.2) (convert_token <$> self.(Engine.surface_index_analyzer) e.2)
    (match utf16_offsets e.2 with Ok offsets => offsets | _ => None end) false false.
Definition whole_spans (leaf : TraceLeaf.t) (e : entry) : list TraceSpan.t := leaf_spans leaf (whole_source e).
Definition leaf_known (record : TraceRecord.t) (leaf : TraceLeaf.t) (m : option bool) : Prop :=
  ∃ b, m = Some b ∧ (b = true ↔ leaf_holds self (entries record) leaf).
(** The report has every span of the leaves that decide for the record. *)
Definition report_whole (record : TraceRecord.t) (r : TraceRecordMatch.t) : Prop :=
  r.(TraceRecordMatch.id) = record.(TraceRecord.id)
  ∧ ∃ membership d, Forall2 (leaf_known record) leaves membership ∧ evaluate te membership = Ok d
    ∧ ∀ i leaf e span, i ∈ d.(TraceDecision.leaves) → leaves !! N.to_nat i = Some leaf → e ∈ entries record → e.1.1 ∈ leaf.(TraceLeaf.fields) →
        span ∈ whole_spans leaf e →
        ∃ v, v ∈ r.(TraceRecordMatch.values) ∧ v.(TraceValueMatch.field) = e.1.1 ∧ v.(TraceValueMatch.value_index) = e.1.2
          ∧ span ∈ v.(TraceValueMatch.spans).
(** The report is about a record that matches, and each of its spans was found. *)
Definition span_found (record : TraceRecord.t) (v : TraceValueMatch.t) (span : TraceSpan.t) : Prop :=
  ∃ leaf e source, leaf ∈ leaves ∧ e ∈ entries record ∧ e.1 = (v.(TraceValueMatch.field), v.(TraceValueMatch.value_index))
    ∧ e.1.1 ∈ leaf.(TraceLeaf.fields) ∧ SourceOf self surface_fields e source ∧ span ∈ leaf_spans leaf source.
Definition report_genuine (from : list TraceRecord.t) (r : TraceRecordMatch.t) : Prop :=
  ∃ record, record ∈ from ∧ rejected candidates record = false ∧ record_holds record expression
    ∧ r.(TraceRecordMatch.id) = record.(TraceRecord.id)
    ∧ Forall (λ v, v.(TraceValueMatch.spans) ≠ [] ∧ Forall (span_found record v) v.(TraceValueMatch.spans)) r.(TraceRecordMatch.values).
Definition state_says (reports : list TraceRecordMatch.t) (record : TraceRecord.t) (state : TraceRecordState.t) : Prop :=
  if rejected candidates record then state = TraceRecordState.mk (Some false) true true else
  (state.(TraceRecordState.membership) = Some true → record_holds record expression)
  ∧ (state.(TraceRecordState.membership) = Some false → ¬ record_holds record expression)
  ∧ (state.(TraceRecordState.analysis_complete) = true → is_Some state.(TraceRecordState.membership))
  ∧ (state.(TraceRecordState.spans_complete) = true → state.(TraceRecordState.analysis_complete) = true
      ∧ (state.(TraceRecordState.membership) = Some true → ∃ r, r ∈ reports ∧ report_whole record r)).
Definition header_bytes : N := 3 + (if recovery then 2 + lenN records else 0).
Record TrailInv (consumed : list TraceRecord.t) (t : Trail.t) : Prop := {
  trail_spans : t.(Trail.remaining_spans) + sum (record_spans <$> t.(Trail.records)) <= MAX_TRACE_SPANS;
  trail_bytes : header_bytes + sum (record_size <$> t.(Trail.records)) + t.(Trail.remaining_bytes) = MAX_SEARCH_RESPONSE_BYTES;
  trail_recovery : t.(Trail.progress).(TraceProgress.recovery) = recovery;
  trail_states : if recovery then Forall2 (state_says t.(Trail.records)) consumed t.(Trail.progress).(TraceProgress.states)
    else t.(Trail.progress).(TraceProgress.states) = [];
  trail_complete : t.(Trail.complete) = true → Forall (λ record, rejected candidates record = false → record_holds record expression →
    ∃ r, r ∈ t.(Trail.records) ∧ report_whole record r) consumed;
  trail_genuine : Forall (report_genuine consumed) t.(Trail.records);
  trail_order : (TraceRecordMatch.id <$> t.(Trail.records)) `sublist_of` (TraceRecord.id <$> consumed) }.
Lemma state_says_more reports more record state : state_says reports record state → state_says (reports ++ more) record state.
Proof.
  unfold state_says. destruct (rejected candidates record); [done|]. intros (Ht & Hf & Ha & Hs). split; [done|]. split; [done|]. split; [done|].
  intros E. destruct (Hs E) as [? Hr]. split; [done|]. intros Em. destruct (Hr Em) as (r & ? & ?). exists r. split; [apply elem_of_app; by left|done].
Qed.
Lemma report_genuine_more from more r : report_genuine from r → report_genuine (from ++ more) r.
Proof. intros (record & Hin & ?). exists record. split; [apply elem_of_app; by left|done]. Qed.
(** A record is consumed, and [new] is reported of it. *)
Lemma trail_inv_step consumed t record complete remaining bytes_ state work new : TrailInv consumed t →
  remaining + sum (record_spans <$> new) <= t.(Trail.remaining_spans) →
  bytes_ + sum (record_size <$> new) = t.(Trail.remaining_bytes) →
  (recovery = true → state_says (t.(Trail.records) ++ new) record state) →
  (complete = true → t.(Trail.complete) = true ∧ (rejected candidates record = false → record_holds record expression →
    ∃ r, r ∈ new ∧ report_whole record r)) →
  Forall (report_genuine [record]) new → (TraceRecordMatch.id <$> new) `sublist_of` [record.(TraceRecord.id)] →
  TrailInv (consumed ++ [record]) (Trail.mk complete (t.(Trail.records) ++ new) remaining bytes_ (TraceProgress.consume t.(Trail.progress) state) work).
Proof.
  intros [Hsp Hb Hr Hst Hc Hg Ho] Hrem Hbytes Hstate Hcomp Hgen Hord.
  split; cbn [Trail.remaining_spans Trail.records Trail.remaining_bytes Trail.progress Trail.complete].
  - rewrite fmap_app, sum_app. lia.
  - rewrite fmap_app, sum_app. lia.
  - unfold TraceProgress.consume. rewrite Hr. by case_match.
  - unfold TraceProgress.consume. rewrite Hr. destruct recovery; [|done]. cbn [TraceProgress.states]. apply Forall2_app.
    + eapply Forall2_impl; [exact Hst|]. intros r st. apply state_says_more.
    + constructor; [by apply Hstate|constructor].
  - intros E. destruct (Hcomp E) as [E' Hnew]. apply Forall_app. split.
    + eapply Forall_impl; [by apply Hc|]. cbn. intros r Hr' E1 E2. destruct (Hr' E1 E2) as (x & ? & ?). exists x. split; [apply elem_of_app; by left|done].
    + apply Forall_singleton. intros E1 E2. destruct (Hnew E1 E2) as (x & ? & ?). exists x. split; [apply elem_of_app; by right|done].
  - apply Forall_app. split; (eapply Forall_impl; [eassumption|]); intros r; [apply report_genuine_more|].
    intros (x & ->%list_elem_of_singleton & ?). exists record. split; [apply elem_of_app; right; by left|done].
  - rewrite !fmap_app. by apply sublist_app.
Qed.
Lemma trail_inv_stop consumed t t' : TrailInv consumed t → t'.(Trail.records) = t.(Trail.records) →
  t'.(Trail.remaining_spans) <= t.(Trail.remaining_spans) → t'.(Trail.remaining_bytes) = t.(Trail.remaining_bytes) →
  t'.(Trail.progress) = t.(Trail.progress) → t'.(Trail.complete) = false → TrailInv consumed t'.
Proof. intros [Hsp Hb Hr Hst Hc Hg Ho] E1 E2 E3 E4 E5. split; rewrite ?E1, ?E3, ?E4, ?E5; try done. lia. Qed.
Lemma trail_nothing_reported consumed t : TrailInv consumed t → recovery = true →
  t.(Trail.progress).(TraceProgress.states) = [] → consumed = [] ∧ t.(Trail.records) = [].
Proof.
  intros [_ _ _ Hst _ _ Ho] Er Es. rewrite Er, Es in Hst. apply Forall2_nil_inv_r in Hst as ->. split; [done|].
  cbn in Ho. apply sublist_nil_r in Ho. by apply fmap_nil_inv in Ho.
Qed.
Lemma trail_deferred consumed t exhausted : TrailInv consumed t → TraceProgress.defer t.(Trail.progress) exhausted = true →
  recovery = true ∧ consumed ≠ [].
Proof.
  intros Hinv Hd. unfold TraceProgress.defer in Hd. rewrite (trail_recovery _ _ Hinv), !andb_true_iff in Hd. destruct Hd as [[Er _] Es].
  split; [done|]. intros ->. pose proof (trail_states _ _ Hinv) as Hst. rewrite Er in Hst. apply Forall2_nil_inv_l in Hst. by rewrite Hst in Es.
Qed.

(** ** Nothing is lost when nothing is cut *)
Lemma silent_hits plan af s : source_silent (TracePlan.needs_surface plan af) s → hits_of plan af s = [].
Proof.
  intros [Ea Es]. unfold hits_of. destruct plan as [t|t|[|first later]|t p m|e f]; cbn [source_hits]; rewrite ?Ea; try done.
  - by rewrite (Es eq_refl).
  - destruct af; [done|]. by rewrite (Es eq_refl).
Qed.
Lemma whole_hits leaf e source : leaf.(TraceLeaf.analyzed_fuzzy) = false → surfaced surface_fields leaf → e.1.1 ∈ leaf.(TraceLeaf.fields) →
  SourceOf self surface_fields e source → whole leaf source → leaf_spans leaf source = whole_spans leaf e.
Proof.
  intros Eaf Hsf Hf Hs [Ha Hw]. unfold whole_spans, leaf_spans, hits_of. rewrite (source_hits_ext _ _ source (whole_source e)); [done|..]; cbn.
  - by rewrite (source_utf16 _ _ _ _ Hs).
  - destruct (source_analyzed _ _ _ _ Hs) as [_ Hwhole]. by apply Hwhole.
  - intros En. unfold surfaced, TraceLeaf.needs_surface in *. rewrite Eaf in *. apply (source_surface_whole _ _ _ _ Hs); [by apply (Hsf En)|by apply Hw].
Qed.
Lemma silent_spans leaf e : leaf.(TraceLeaf.analyzed_fuzzy) = false → surfaced surface_fields leaf → e.1.1 ∈ leaf.(TraceLeaf.fields) →
  silent self surface_fields e → whole_spans leaf e = [].
Proof.
  intros Eaf Hsf Hf [Ha Hs]. unfold whole_spans, leaf_spans. rewrite silent_hits; [done|]. split; cbn; [by rewrite Ha|].
  intros En. unfold surfaced, TraceLeaf.needs_surface in Hsf. rewrite Eaf in Hsf. by rewrite Hs by by apply (Hsf En).
Qed.
Lemma right_known record membership : Forall2 (leaf_right self (entries record)) leaves membership → Forall is_Some membership →
  Forall2 (leaf_known record) leaves membership.
Proof.
  intros Hr Hs. apply Forall2_same_length_lookup. split; [by eapply Forall2_length|]. intros i leaf m Hl Hm.
  destruct (Forall2_lookup_lr _ _ _ _ _ _ Hr Hl Hm) as [Ht Hf]. rewrite Forall_forall in Hs.
  destruct (Hs m) as [b ->]; [by eapply list_elem_of_lookup_2|]. exists b. split; [done|].
  destruct b; split; try done; [by intros _; apply Ht|]. intros Hh. by destruct (Hf eq_refl).
Qed.
Lemma harvested_whole record membership d g h : GatherInv self surface_fields (entries record) g →
  Forall2 (leaf_right self (entries record)) leaves membership → Forall is_Some membership →
  Forall (seen self surface_fields (entries record) g) leaves → evaluate te membership = Ok d →
  Forall (λ i, ∀ leaf, leaves !! N.to_nat i = Some leaf → leaf.(TraceLeaf.analyzed_fuzzy) = false) d.(TraceDecision.leaves) →
  all_harvested (pairs leaves g.(Gather.sources) d.(TraceDecision.leaves)) h →
  report_whole record (TraceRecordMatch.mk record.(TraceRecord.id) (omap whole_value (sorted_values h.(Harvest.values)))).
Proof.
  intros Hg Hr Hk Hseen Hd Haf Hall. split; [done|]. exists membership, d. split; [by apply right_known|]. split; [done|].
  intros i leaf e span Hi Hleaf He Hf Hspan. pose proof (list_elem_of_lookup_2 _ _ _ Hleaf) as Hin.
  rewrite Forall_forall in Haf. specialize (Haf i Hi leaf Hleaf). rewrite Forall_forall in Hseen.
  pose proof leaves_surfaced as Hsf. rewrite Forall_forall in Hsf. specialize (Hsf leaf Hin).
  destruct (Hseen leaf Hin e He Hf) as [Hsil|(source & Hsin & Hs & Hw)].
  { rewrite silent_spans in Hspan by done. by apply not_elem_of_nil in Hspan. }
  rewrite <- (whole_hits leaf e source) in Hspan by done.
  assert (span ∈ entry_of (Harvest.values h) (key_of source)) as Hentry.
  { apply (Hall leaf source); [|by rewrite (source_field _ _ _ _ Hs)|by apply elem_of_list_to_set].
    unfold pairs. apply list_elem_of_bind. exists i. split; [|done]. rewrite Hleaf. apply list_elem_of_fmap. by exists source. }
  unfold entry_of, key_of in Hentry. rewrite (source_field _ _ _ _ Hs), (source_index _ _ _ _ Hs) in Hentry.
  destruct (Harvest.values h !! (e.1.1, e.1.2)) as [spans|] eqn:E; cbn in Hentry; [|set_solver].
  exists (TraceValueMatch.mk e.1.1 e.1.2 (sorted_spans spans)). split; [|split; [done|split; [done|]]].
  - cbn. apply list_elem_of_omap. exists ((e.1.1, e.1.2), spans). split.
    + unfold sorted_values. rewrite merge_sort_Permutation. by apply elem_of_map_to_list.
    + unfold whole_value. cbn. rewrite bool_decide_eq_false_2; [done|]. set_solver.
  - cbn. rewrite sorted_spans_perm. by apply elem_of_elements.
Qed.

(** ** One record *)
Definition TrailStepped (consumed : list TraceRecord.t) (record : TraceRecord.t) (r : Trail.t * bool) : Prop :=
  TrailInv (consumed ++ [record]) r.1 ∧ (recovery = false → r.2 = true)
  ∨ r.2 = false ∧ recovery = true ∧ consumed ≠ [] ∧ TrailInv consumed r.1.
Lemma trail_stopped consumed t t' record exhausted : TrailInv consumed t → TraceProgress.defer t.(Trail.progress) exhausted = true →
  t'.(Trail.records) = t.(Trail.records) → t'.(Trail.remaining_spans) <= t.(Trail.remaining_spans) →
  t'.(Trail.remaining_bytes) = t.(Trail.remaining_bytes) → t'.(Trail.progress) = t.(Trail.progress) →
  TrailStepped consumed record (Trail.stop t', false).
Proof.
  intros Hinv Hd E1 E2 E3 E4. destruct (trail_deferred _ _ _ Hinv Hd) as [Er Hn]. right. split; [done|]. split; [done|]. split; [done|].
  by eapply trail_inv_stop.
Qed.
(** Nothing is reported of the record. *)
Lemma trail_unreported consumed t record complete remaining state work : TrailInv consumed t → remaining <= t.(Trail.remaining_spans) →
  (recovery = true → state_says t.(Trail.records) record state) →
  (complete = true → t.(Trail.complete) = true ∧ (rejected candidates record = false → ¬ record_holds record expression)) →
  TrailInv (consumed ++ [record]) (Trail.mk complete t.(Trail.records) remaining t.(Trail.remaining_bytes) (TraceProgress.consume t.(Trail.progress) state) work).
Proof.
  intros Hinv Hrem Hs Hc. rewrite <- (app_nil_r (Trail.records t)). apply trail_inv_step; [done|cbn; lia|cbn; lia|by rewrite app_nil_r| |done|apply sublist_nil_l].
  intros E. destruct (Hc E) as [? Hn]. split; [done|]. intros Er Hh. by destruct (Hn Er).
Qed.
Lemma report_record_spec consumed t record analysis_complete sources indices start h : TrailInv consumed t → lenN records <= MAX_TRACE_RECORDS →
  record_fine record → rejected candidates record = false → record_holds record expression →
  HarvestInv start (pairs leaves sources indices) h → start.(Harvest.values) = ∅ → start.(Harvest.pending_spans) = t.(Trail.remaining_spans) →
  (start.(Harvest.complete) = true → t.(Trail.complete) = true ∧ analysis_complete = true) →
  Forall (λ source, ∃ e, e ∈ entries record ∧ SourceOf self surface_fields e source) sources →
  (analysis_complete = true → all_harvested (pairs leaves sources indices) h →
    report_whole record (TraceRecordMatch.mk record.(TraceRecord.id) (omap whole_value (sorted_values h.(Harvest.values))))) →
  ∃ r, report_record recovery t record analysis_complete h = Ok r ∧ TrailStepped consumed record r.
Proof.
  intros Hinv Hcount [Hid _] Hrej Hholds [Hhc Hhg Hha Hhco] Ev Epend Hca Hsources Hwhole. unfold report_record.
  assert (values_count h.(Harvest.values) <= t.(Trail.remaining_spans)) as Hroom.
  { rewrite Ev in Hhc. unfold values_count at 2 in Hhc. rewrite map_to_list_empty in Hhc. cbn in Hhc. lia. }
  destruct (emit_spec t.(Trail.remaining_bytes) (6 + lenN record.(TraceRecord.id)) t.(Trail.remaining_spans) h.(Harvest.spans_complete)
    h.(Harvest.complete) h.(Harvest.shared_exhausted) h.(Harvest.values) Hroom) as (e & Ee & [Es _ Eb Ef Ea Ec Eg]).
  rewrite Ee. cbn [mbind outcome_bind]. cbv zeta. destruct (Trail.remaining_bytes t <? Emit.record_bytes e) eqn:Eover; cbn [andb negb].
  - destruct (negb recovery) eqn:Enr; cbn [andb].
    { eexists. split; [done|]. left. split; [|done]. cbn [fst].
      assert (t.(Trail.progress) = TraceProgress.consume t.(Trail.progress) (TraceRecordState.mk None false false)) as ->.
      { unfold TraceProgress.consume. rewrite (trail_recovery _ _ Hinv). apply negb_true_iff in Enr. by rewrite Enr. }
      apply trail_unreported; [done|lia| |by rewrite andb_false_r]. apply negb_true_iff in Enr. by rewrite Enr. }
    rewrite !orb_true_r. cbn [Trail.progress].
    destruct (TraceProgress.defer (Trail.progress t) true) eqn:Ed.
    { eexists. split; [done|]. eapply trail_stopped; [done|exact Ed|done| |done|done]. cbn. lia. }
    exfalso. apply N.ltb_lt in Eover. unfold TraceProgress.defer in Ed. rewrite (trail_recovery _ _ Hinv) in Ed. apply negb_false_iff in Enr. rewrite Enr in Ed.
    cbn [andb] in Ed. apply negb_false_iff, bool_decide_eq_true in Ed. destruct (trail_nothing_reported _ _ Hinv Enr Ed) as [_ En].
    pose proof (trail_bytes _ _ Hinv) as Hb. rewrite En in Hb. unfold header_bytes in Hb. rewrite Enr in Hb. cbn [fmap list_fmap sum foldr] in Hb.
    destruct Ef as [Ef|Ef]; [|lia]. rewrite Ef in Eb. unfold values_size in Eb. cbn in Eb.
    assert (5 + MAX_TRACE_RECORDS + 6 + MAX_RECORD_ID_BYTES <= MAX_SEARCH_RESPONSE_BYTES) as Hmax by by vm_compute. lia.
  - rewrite orb_false_r, !andb_true_r. apply N.ltb_ge in Eover. cbn [Trail.progress Trail.complete Trail.records Trail.remaining_spans Trail.remaining_bytes Trail.work].
    destruct (TraceProgress.defer (Trail.progress t) (Emit.shared_exhausted e)) eqn:Ed.
    { eexists. split; [done|]. eapply trail_stopped; [done|exact Ed|done| |done|done]. cbn. lia. }
    eexists. split; [done|]. left. split; [|by intros ->]. unfold Trail.consume. cbn [fst Trail.complete Trail.records Trail.remaining_spans
      Trail.remaining_bytes Trail.progress Trail.work].
    assert (analysis_complete = true → all_harvested (pairs leaves sources indices) h → Emit.matched_values e = omap whole_value (sorted_values (Harvest.values h)) →
      report_whole record (TraceRecordMatch.mk (TraceRecord.id record) (Emit.matched_values e))) as Hrep.
    { intros E1 E2 ->. by apply Hwhole. }
    apply trail_inv_step; [done| | | | | |done].
    + rewrite sum_singleton. unfold record_spans. cbn [TraceRecordMatch.values]. lia.
    + rewrite sum_singleton. unfold record_size, saturating_sub. cbn [TraceRecordMatch.id TraceRecordMatch.values]. lia.
    + intros _. unfold state_says. rewrite Hrej. cbn. split; [done|]. split; [done|]. split; [by eexists|].
      intros [E1 E2]%andb_true_iff. split; [done|]. intros _. destruct (Ea E1) as [Eh Em]. eexists. split; [apply elem_of_app; right; by left|].
      apply Hrep; [done|by apply Hha|done].
    + intros E. destruct (Ec E) as [Eh Em]. destruct (Hhco Eh) as [Estart Eall]. destruct (Hca Estart) as [? Ean]. split; [done|].
      intros _ _. eexists. split; [by left|]. by apply Hrep.
    + apply Forall_singleton. exists record. split; [by left|]. split; [done|]. split; [done|]. split; [done|]. cbn.
      eapply Forall_impl; [exact Eg|]. intros v (Hn & kv & Hkv & Ekey & Hsub). split; [done|]. apply Forall_forall. intros span Hspan.
      unfold sorted_values in Hkv. rewrite merge_sort_Permutation in Hkv. destruct kv as [key spans]. apply elem_of_map_to_list in Hkv.
      destruct (Hhg key span) as (leaf & source & Hpair & Ek & Hf & Hls).
      { unfold entry_of. rewrite Hkv. cbn. by apply (Hsub span Hspan). }
      unfold pairs in Hpair. apply list_elem_of_bind in Hpair as (i & Hpair & _). destruct (leaves !! N.to_nat i) as [leaf'|] eqn:El; [|by apply not_elem_of_nil in Hpair].
      apply list_elem_of_fmap in Hpair as (source' & [= -> ->] & Hin). rewrite Forall_forall in Hsources. destruct (Hsources source' Hin) as (en & Hen & Hof).
      exists leaf', en, source'. split; [by eapply list_elem_of_lookup_2|]. split; [done|]. cbn in Ekey. rewrite Ekey, Ek. unfold key_of.
      split; [rewrite (source_field _ _ _ _ Hof), (source_index _ _ _ _ Hof); by destruct en as [[] ]|]. rewrite <- (source_field _ _ _ _ Hof). done.
Qed.
Lemma decide_record_spec consumed t record g start s : TrailInv consumed t → lenN records <= MAX_TRACE_RECORDS →
  record_fine record → rejected candidates record = false → GatherInv self surface_fields (entries record) g →
  SurveyInv self surface_fields (entries record) g start leaves s → start.(Survey.complete) = t.(Trail.complete) →
  Timed (decide_record te leaves recovery t record g.(Gather.sources) s) (TrailStepped consumed record) (λ _, False).
Proof.
  intros Hinv0 Hcount Hfine Hrej Hg [Hsr Hsa Hsc] Estart. unfold decide_record. cbv zeta.
  set (t1 := Trail.mk s.(Survey.complete) _ _ _ _ _).
  assert (TrailInv consumed t1) as Hinv.
  { destruct Hinv0 as [H1 H2 H3 H4 H5 H6 H7]. split; try done. cbn. intros E. apply H5. rewrite <- Estart. by apply Hsc. }
  destruct (decision_right record s.(Survey.membership) Hsr) as (d & Ed & Ht & Hf & Hidx & Haf & Hknown).
  eapply Timed_bind; [apply (Timed_lift _ (λ r, r = d)); by rewrite Ed|]. intros ? ->.
  apply Timed_if; intros Edefer; [apply Timed_ret; by eapply trail_stopped|].
  unfold matched_true. destruct (bool_decide_reflect (TraceDecision.matched d = Some true)) as [Em|Em]; cbn [negb].
  2:{ apply Timed_ret. left. split; [|cbn; by intros ->]. cbn [fst].
      apply (trail_unreported consumed t1); [done|cbn; lia| |].
      - intros _. unfold state_says. rewrite Hrej. cbn. split; [done|]. split; [done|]. split; [|by intros E; split].
        intros E. apply Hknown. by apply Hsa.
      - cbn. intros E. split; [done|]. intros _. destruct (Hsc E) as [_ Ea]. apply Hf.
        destruct (Hknown (proj2 (Hsa Ea))) as [b Eb]. rewrite Eb in *. by destruct b. }
  pose proof (gathered_ok self surface_fields Hstream (entries record) g Hg) as Hsok.
  eapply Timed_bind; [apply harvest_spec; [done|done|exact Hsok|exact Hidx|done|]|].
  { cbn. pose proof (trail_spans _ _ Hinv) as Hts. cbn in Hts. lia. }
  intros [h|] Hh; [|apply Timed_ret; by eapply trail_stopped].
  destruct (report_record_spec consumed t1 record s.(Survey.analysis_complete) g.(Gather.sources) d.(TraceDecision.leaves) _ h
    Hinv Hcount Hfine Hrej (Ht Em) Hh) as (r & Er & Hr); [done|done| | | |].
  - cbn. intros E. split; [done|]. by apply Hsc.
  - apply Hg.
  - intros Ea Hall. destruct (Hsa Ea) as [Hseen Hk]. by eapply harvested_whole.
  - apply Timed_lift. by rewrite Er.
Qed.
Lemma trail_record_spec consumed t record : self.(Engine.surface_index_analyzer) [] = [] → TrailInv consumed t → lenN records <= MAX_TRACE_RECORDS → record_fine record →
  Timed (trail_record self te leaves selected surface_fields candidates recovery t record) (TrailStepped consumed record) (unknown_field self).
Proof.
  intros Hempty Hinv Hcount Hfine. unfold trail_record. eapply Timed_bind; [apply Timed_check|]. intros _ _. fold (rejected candidates record).
  apply Timed_if; intros Er.
  { apply Timed_ret. left. split; [|done]. unfold Trail.consume. cbn [fst]. apply trail_unreported; [done|lia| |].
    - intros _. unfold state_says. by rewrite Er.
    - intros E. split; [done|]. by rewrite Er. }
  eapply Timed_bind; [apply (gather_pass_spec self surface_fields Hempty); apply Hfine|]. intros g Hg.
  pose proof leaves_surfaced as Hsf.
  eapply Timed_bind; [eapply Timed_weaken; [apply (survey_spec self surface_fields Htotal Hstream (Trail.progress t) (entries record) g Hg
    (Survey.mk [] t.(Trail.complete) true t.(Trail.work) false) leaves Hleaves Hsf); done|intros r Hr; exact Hr|done]|].
  intros [s|] Hs.
  - eapply Timed_weaken; [by eapply decide_record_spec|done|done].
  - apply Timed_ret. by eapply trail_stopped.
Qed.
Definition TrailDone (t : Trail.t) : Prop := ∃ consumed rest, records = consumed ++ rest ∧ TrailInv consumed t
  ∧ (recovery = false → rest = []) ∧ (records ≠ [] → consumed ≠ []).
Lemma trail_loop_spec remaining_bytes : self.(Engine.surface_index_analyzer) [] = [] → lenN records <= MAX_TRACE_RECORDS → Forall record_fine records →
  header_bytes + remaining_bytes = MAX_SEARCH_RESPONSE_BYTES →
  Timed (trail_loop (trail_record self te leaves selected surface_fields candidates recovery)
    (Trail.mk true [] MAX_TRACE_SPANS remaining_bytes (TraceProgress.new recovery) MAX_TRACE_WORK_TOKENS) records) TrailDone (unknown_field self).
Proof.
  intros Hempty Hcount Hfine Hbytes. assert (∀ todo consumed t, records = consumed ++ todo → TrailInv consumed t →
    Timed (trail_loop (trail_record self te leaves selected surface_fields candidates recovery) t todo) TrailDone (unknown_field self)) as Hloop.
  { induction todo as [|record todo IH]; intros consumed t El Hinv; cbn [trail_loop].
    - apply Timed_ret. exists consumed, []. rewrite app_nil_r in *. by subst.
    - eapply Timed_bind; [apply trail_record_spec; [done|exact Hinv|done|]|].
      { rewrite Forall_forall in Hfine. apply Hfine. rewrite El. apply elem_of_app. right. by left. }
      intros [t' more] [[Hinv' Hmore]|(Em & Enr & Hne & Hinv')].
      + apply Timed_if; intros E.
        * apply (IH (consumed ++ [record])); [by rewrite <- app_assoc|done].
        * apply Timed_ret. exists (consumed ++ [record]), todo. split; [by rewrite <- app_assoc|]. split; [done|]. split.
          -- intros Enr. specialize (Hmore Enr). cbn in Hmore. congruence.
          -- intros _ ?%app_nil. naive_solver.
      + cbn in Em. subst more. apply Timed_ret. exists consumed, (record :: todo). split; [done|]. split; [done|]. split; [congruence|done]. }
  apply (Hloop records []); [done|]. split; cbn; try done; [lia|by destruct recovery].
Qed.
End Records.
End Expression.
End Meaning.
