(* ===== verification/TracePage.v ===== *)
(** * What a trace promises

    The theorems about [trace_matches_inner]: whatever the deadline, the call
    returns an error with the code of an invalid argument, times out, or answers;
    its answer makes progress, fits in a response and is right, on requests that
    are one clause and on expressions. *)
From stdpp Require Import sorting.
From S2P Require Import Prelude.
From S2P Require Import Errors.
From S2P Require Import Bytes.
From S2P Require Import Wire.
From S2P Require Import Request.
From S2P Require Import Structure.
From S2P Require Import Admission.
From S2P Require Import Text.
From S2P Require Import Response.
From S2P Require Import Spans.
From S2P Require Import Analysis.
From S2P Require Import Membership.
From S2P Require Import Deadline.
From S2P Require Import Plan.
From S2P Require Import Prepared.
From S2P Require Import Tokens.
From S2P Require Import Matching.
From S2P Require Import Page.
From S2P Require Import Trails.
From S2P Require Import Paging.
From S2P Require Import Gathering.
From S2P Require Import Probing.
From S2P Require Import Harvesting.
From S2P Require Import Trailing.
Local Open Scope N_scope.

(** What tracing relies on: the field lookup is in bounds, the token streams
    number their tokens in order, no token is a private marker, and no text has no
    surface token. *)
Record engine_ok (self : Engine.t) : Prop := {
  engine_lookup : lookup_ok self;
  engine_query : analyzer_ok self.(Engine.analyzer);
  engine_index : stream_ok self.(Engine.index_analyzer);
  engine_empty : self.(Engine.surface_index_analyzer) [] = [] }.
(** The source values are strings. *)
Definition record_strings (record : TraceRecord.t) : Prop :=
  Forall (λ f, Forall (λ value, utf8_valid value = true) f.2) record.(TraceRecord.fields).

Lemma sum_fmap_le {A} (f : A → N) l a : a ∈ l → f a <= sum (f <$> l).
Proof. intros Ha. apply sum_elem_le. apply list_elem_of_fmap. by exists a. Qed.
Lemma admitted_fine request records : trace_admissible request records → Forall record_strings records →
  lenN records <= MAX_TRACE_RECORDS ∧ Forall record_fine records.
Proof.
  intros (_ & _ & _ & Hn & Hok & _ & Hsum) Hs. split; [done|]. rewrite Forall_forall in Hok. rewrite Forall_forall in Hs. apply Forall_forall.
  intros record Hr. split; [apply (Hok _ Hr)|]. specialize (Hs _ Hr). unfold record_strings in Hs. rewrite Forall_forall in Hs.
  apply Forall_forall. intros f Hf. specialize (Hs _ Hf). rewrite Forall_forall in Hs. apply Forall_forall. intros value Hv. split; [by apply Hs|].
  pose proof (sum_fmap_le trace_source _ _ Hr) as H1. pose proof (sum_fmap_le (λ f, sum (lenN <$> f.2)) _ _ Hf) as H2.
  pose proof (sum_fmap_le lenN _ _ Hv) as H3. unfold trace_source in H1 at 1. assert (MAX_TRACE_SOURCE_BYTES <= U32_MAX) as Hmax by by vm_compute.
  cbn in H2. lia.
Qed.

Section Answers.
Context `{Unicode} `{Automata} (final_analyzer : bytes → list Token.t) (self : Engine.t) (otherwise : M Clock TracePageResult.t).
Context (request : SearchRequest.t) (clause : SearchClause.t) (records : list TraceRecord.t) (recovery : bool).
Definition selected_names (selected : list EngineField.t) : gset bytes := list_to_set (EngineField.name <$> selected).
Definition request_candidates : option (gset bytes) := list_to_set <$> request.(SearchRequest.candidate_ids).
(** The page was computed for the fields selected and the plan of the clause, or
    there was nothing to look for. *)
Definition Answered (r : TracePageResult.t) : Prop :=
  trace_admissible request records ∧
  (recovery = false ∧ request_candidates = Some ∅ ∧ r = TracePageResult.mk (TraceResult.mk true []) 0 []
   ∨ ∃ selected plan page, selected_fields self clause.(SearchClause.fields) = Ok selected ∧ trace_plan final_analyzer self clause = Ok plan
      ∧ PageDone self plan (selected_names selected) request_candidates recovery records page ∧ r = page_result recovery records page).
Lemma trace_clause_answers : engine_ok self → automata_total → Forall record_strings records →
  request.(SearchRequest.expression) = SearchExpression.Clause clause →
  Timed (trace_matches_inner final_analyzer self otherwise request records recovery) Answered invalid_argument.
Proof.
  intros [Hlook Hquery Hindex Hempty] Htotal Hstrings Hexpr. unfold trace_matches_inner.
  eapply Timed_bind; [apply Timed_check|]. intros _ _.
  eapply Timed_bind; [apply (Timed_tame _ (λ _, trace_admissible request records)); [apply validate_trace_admission_tame|]|].
  { intros [] E. by apply validate_trace_admission_Ok. }
  intros ? Hadm. cbn beta in Hadm. destruct (admitted_fine _ _ Hadm Hstrings) as [Hcount Hfine]. rewrite Hexpr. unfold trace_clause.
  eapply Timed_bind; [apply (Timed_tame _ (λ selected, selected_fields self clause.(SearchClause.fields) = Ok selected));
    [by apply selected_fields_tame|done]|]. intros selected Es.
  eapply Timed_bind; [apply (Timed_tame _ (λ _, True)); [apply require_surface_fields_tame|done]|]. intros _ _. cbv zeta.
  apply Timed_if; [intros [Er%negb_true_iff Ec%bool_decide_eq_true]%andb_true_iff; apply Timed_ret; split; [done|]; by left|intros _].
  eapply Timed_bind; [apply (Timed_tame _ (λ plan, trace_plan final_analyzer self clause = Ok plan)); [apply trace_plan_tame|done]|].
  intros plan Ep. destruct (trace_plan_ok final_analyzer self clause plan Hquery Ep) as [Hplan Hq].
  eapply Timed_bind; [eapply Timed_weaken; [by apply page_loop_spec|intros page Hp; exact Hp|]|].
  { intros e (field & _ & ->). done. }
  intros page Hp. apply Timed_ret. split; [done|]. right. by exists selected, plan, page.
Qed.
(** The page of an expression *)
Definition AnsweredExpression (r : TracePageResult.t) : Prop :=
  ∃ te leaves budget t, prepare_trace_expression final_analyzer self request.(SearchRequest.expression) false ([], QueryConstructionBudget.default)
      = Ok (te, (leaves, budget))
    ∧ Compiled final_analyzer self leaves false request.(SearchRequest.expression) te ∧ Forall leaf_ok leaves
    ∧ TrailDone final_analyzer self request.(SearchRequest.expression) te leaves request_candidates recovery records t
    ∧ r = trail_result recovery records t.
Lemma trace_expression_answers : engine_ok self → automata_total → lenN records <= MAX_TRACE_RECORDS → Forall record_fine records →
  Timed (trace_expression self final_analyzer request records recovery) AnsweredExpression invalid_argument.
Proof.
  intros [Hlook Hquery Hindex Hempty] Htotal Hcount Hfine. unfold trace_expression.
  eapply Timed_bind; [apply (Timed_tame _ (λ _, True)); [apply validate_search_structure_tame|done]|]. intros _u _.
  pose proof (prepare_spec final_analyzer self Hlook Hquery request.(SearchRequest.expression) false [] QueryConstructionBudget.default) as Hprep.
  eapply Timed_bind; [apply (Timed_lift _ (λ r, prepare_trace_expression final_analyzer self request.(SearchRequest.expression) false
    ([], QueryConstructionBudget.default) = Ok r))|].
  { by destruct (prepare_trace_expression _ _ _ _ _) as [[te [leaves budget]]|e| |]. }
  intros [te [leaves budget]] Ep. rewrite Ep in Hprep. destruct Hprep as (new & -> & Hok & Hcomp). cbn [app] in *.
  assert (2 + MAX_TRACE_RECORDS <= MAX_SEARCH_RESPONSE_BYTES - 3) as Hmax by by vm_compute.
  assert ((if recovery then 2 + lenN records else 0) <= MAX_SEARCH_RESPONSE_BYTES - 3) as Hle by (destruct recovery; lia).
  eapply Timed_bind; [apply (Timed_lift _ (λ r, r = MAX_SEARCH_RESPONSE_BYTES - 3 - (if recovery then 2 + lenN records else 0)))|].
  { unfold usize_sub, checked_sub. by rewrite (proj2 (N.leb_le _ _) Hle). }
  intros remaining ->. cbv zeta.
  eapply Timed_bind; [eapply Timed_weaken; [apply (trail_loop_spec final_analyzer self request.(SearchRequest.expression) te new Htotal Hindex Hcomp Hok
    request_candidates recovery records _ Hempty Hcount Hfine)|intros t Ht; exact Ht|]|].
  { unfold header_bytes. lia. }
  { intros e (field & _ & ->). done. }
  intros t Ht. apply Timed_ret. by exists te, new, budget, t.
Qed.
End Answers.

(** ** The size of the response *)
Lemma lenN_counted {A} n (enc : A → bytes) l : lenN (counted n enc l) = N.of_nat n + sum ((λ a, lenN (enc a)) <$> l).
Proof. unfold counted. by rewrite lenN_app, lenN_concat, lenN_le_split. Qed.
Lemma sum_const {A} (f : A → N) c l : (∀ a, f a = c) → sum (f <$> l) = c * lenN l.
Proof. intros Hf. induction l as [|a l IH]; [by rewrite N.mul_0_r|]. rewrite fmap_cons, sum_cons, IH, lenN_cons, Hf. lia. Qed.
Lemma lenN_enc_record r : lenN (enc_record r) = record_size r.
Proof.
  unfold enc_record, record_size, values_size. rewrite lenN_app, lenN_counted, lenN_enc_str.
  replace ((λ a, lenN (enc_value a)) <$> TraceRecordMatch.values r) with (value_size <$> TraceRecordMatch.values r); [lia|].
  apply list_fmap_ext. intros _ v _. unfold enc_value, value_size. rewrite !lenN_app, lenN_counted, lenN_enc_str.
  rewrite (sum_const _ 8); [unfold enc_u32; rewrite lenN_le_split; lia|]. intros s. unfold enc_span, enc_u32. by rewrite lenN_app, !lenN_le_split.
Qed.
Lemma lenN_trace_body r : lenN (trace_body r) = 3 + sum (record_size <$> r.(TraceResult.records)).
Proof.
  rewrite trace_body_layout, lenN_app, lenN_counted. unfold enc_bool, enc_u8. rewrite lenN_le_split.
  replace ((λ a, lenN (enc_record a)) <$> TraceResult.records r) with (record_size <$> TraceResult.records r); [lia|].
  apply list_fmap_ext. intros _ x _. by rewrite lenN_enc_record.
Qed.
Lemma lenN_trace_page_body r : lenN (trace_page_body r) = lenN (trace_body r.(TracePageResult.trace)) + 2 + lenN r.(TracePageResult.states).
Proof.
  rewrite trace_page_body_layout, !lenN_app, lenN_concat. unfold enc_u16. rewrite lenN_le_split, (sum_const _ 1); [lia|].
  intros s. unfold enc_state, enc_u8. by rewrite lenN_le_split.
Qed.

(** ** The theorems *)
Section Theorems.
Context `{Unicode} `{Automata} (final_analyzer : bytes → list Token.t) (self : Engine.t).
Context (request : SearchRequest.t) (records : list TraceRecord.t) (recovery : bool).
Hypothesis Hengine : engine_ok self.
Hypothesis Htotal : automata_total.
Hypothesis Hstrings : Forall record_strings records.
Abbreviation trace := (trace_matches_inner final_analyzer self (trace_expression self final_analyzer request records recovery) request records recovery).
Abbreviation rejected_ := (rejected (request_candidates request)).
Lemma trace_answers : Timed trace (λ r,
    match request.(SearchRequest.expression) with
    | SearchExpression.Clause clause => Answered final_analyzer self request clause records recovery r
    | _ => AnsweredExpression final_analyzer self request records recovery r
    end) invalid_argument.
Proof using Hengine Hstrings Htotal.
  destruct (SearchRequest.expression request) as [clause|ch|ch|c|b c|r o] eqn:E; [by apply trace_clause_answers|..];
    (unfold trace_matches_inner; eapply Timed_bind; [apply Timed_check|]; intros _ _;
     eapply Timed_bind; [apply (Timed_tame _ (λ _, trace_admissible request records)); [apply validate_trace_admission_tame|]|];
       [intros [] Ea; by apply validate_trace_admission_Ok|]; intros u Hadm; destruct (admitted_fine _ _ Hadm Hstrings) as [Hcount Hfine];
     rewrite E; by apply trace_expression_answers).
Qed.
(** A page consumed the first records, and accounts for its bytes and spans. *)
Definition page_accounts (r : TracePageResult.t) (consumed rest : list TraceRecord.t) : Prop :=
  records = consumed ++ rest
  ∧ r.(TracePageResult.next_record) = lenN r.(TracePageResult.states)
  ∧ (if recovery then length r.(TracePageResult.states) = length consumed else r.(TracePageResult.states) = [])
  ∧ (recovery = true → records ≠ [] → consumed ≠ [])
  ∧ (recovery = true → r.(TracePageResult.trace).(TraceResult.complete) = true → lenN r.(TracePageResult.states) = lenN records)
  ∧ sum (record_spans <$> r.(TracePageResult.trace).(TraceResult.records)) <= MAX_TRACE_SPANS
  ∧ 3 + (if recovery then 2 + lenN records else 0) + sum (record_size <$> r.(TracePageResult.trace).(TraceResult.records)) <= MAX_SEARCH_RESPONSE_BYTES.
Lemma page_accounted : Timed trace (λ r, ∃ consumed rest, page_accounts r consumed rest) invalid_argument.
Proof using Hengine Hstrings Htotal.
  eapply Timed_weaken; [apply trace_answers| |done]. intros r Hr.
  assert ((∃ clause, Answered final_analyzer self request clause records recovery r) ∨ AnsweredExpression final_analyzer self request records recovery r) as [(clause & _ & Ha)|Ha]
    by (destruct (SearchRequest.expression request); eauto).
  - destruct Ha as [(Er & _ & ->)|(selected & plan & page & _ & _ & (consumed & rest & El & Hinv & _ & Hne) & ->)].
    { exists [], records. unfold page_accounts. rewrite Er. cbn. split_and!; done. }
    exists consumed, rest. destruct Hinv as [Hsp Hb Hf _ Hst _ _ _]. unfold page_accounts, page_result. cbn [TracePageResult.trace TracePageResult.states
      TracePageResult.next_record TraceProgress.finish TraceResult.complete TraceResult.records].
    split_and!; [done|done| |auto| |lia|lia].
    + destruct recovery; [|done]. by apply Forall2_length in Hst.
    + intros ->. cbn. by intros [_ ?%N.eqb_eq]%andb_true_iff.
  - destruct Ha as (te & leaves & budget & t & _ & _ & _ & (consumed & rest & El & Hinv & _ & Hne) & ->).
    exists consumed, rest. destruct Hinv as [Hsp Hb _ Hst _ _ _]. unfold page_accounts, trail_result. cbn [TracePageResult.trace TracePageResult.states
      TracePageResult.next_record TraceProgress.finish TraceResult.complete TraceResult.records].
    unfold header_bytes in Hb. split_and!; [done|done| |auto| |lia|lia].
    + destruct recovery; [|done]. by apply Forall2_length in Hst.
    + intros ->. cbn. by intros [_ ?%N.eqb_eq]%andb_true_iff.
Qed.
(** C21: A recoverable trace makes progress: it consumes the first [next_record]
    records, at least one when there is one, gives each a state, and consumes
    all of them when it claims to be complete. *)
Theorem trace_page_progress : Timed trace (λ r,
    recovery = true → lenN r.(TracePageResult.states) = r.(TracePageResult.next_record)
      ∧ r.(TracePageResult.next_record) <= lenN records
      ∧ (records ≠ [] → 0 < r.(TracePageResult.next_record))
      ∧ (r.(TracePageResult.trace).(TraceResult.complete) = true → r.(TracePageResult.next_record) = lenN records))
    invalid_argument.
Proof.
  eapply Timed_weaken; [apply page_accounted| |done]. intros r (consumed & rest & El & -> & Hst & Hne & Hc & _) Er. rewrite Er in Hst.
  assert (lenN (TracePageResult.states r) = lenN consumed) as E by (unfold lenN; congruence). split; [done|]. split; [|split; [|auto]].
  - rewrite E, El, lenN_app. lia.
  - intros Hn. specialize (Hne Er Hn). rewrite E. destruct consumed; [done|]. rewrite lenN_cons. lia.
Qed.
(** C22: A trace fits: it reports at most 1024 spans, and the body of its response
    is at most 8 MiB, for a recoverable trace with the states. *)
Theorem trace_page_bounded : Timed trace (λ r,
    sum (record_spans <$> r.(TracePageResult.trace).(TraceResult.records)) <= MAX_TRACE_SPANS
    ∧ lenN (if recovery then trace_page_body r else trace_body r.(TracePageResult.trace)) <= MAX_SEARCH_RESPONSE_BYTES) invalid_argument.
Proof.
  eapply Timed_weaken; [apply page_accounted| |done]. intros r (consumed & rest & El & _ & Hst & _ & _ & Hsp & Hb). split; [done|]. destruct recovery.
  - rewrite lenN_trace_page_body, lenN_trace_body.
    assert (lenN (TracePageResult.states r) <= lenN records) as Hle by (rewrite El, lenN_app; unfold lenN; rewrite Hst; lia). lia.
  - rewrite lenN_trace_body. lia.
Qed.
(** The fields selected and the plan of a clause are unique. *)
Section Plan.
Context (clause : SearchClause.t) (selected : list EngineField.t) (plan : TracePlan.t).
Hypothesis Hexpr : request.(SearchRequest.expression) = SearchExpression.Clause clause.
Hypothesis Hselected : selected_fields self clause.(SearchClause.fields) = Ok selected.
Hypothesis Hplan : trace_plan final_analyzer self clause = Ok plan.
Abbreviation names := (selected_names selected).
Lemma answered_page r : Answered final_analyzer self request clause records recovery r →
  recovery = false ∧ request_candidates request = Some ∅ ∧ r = TracePageResult.mk (TraceResult.mk true []) 0 []
  ∨ ∃ page, PageDone self plan names (request_candidates request) recovery records page ∧ r = page_result recovery records page.
Proof using Hselected Hplan Hexpr.
  intros [_ [?|(s & p & page & Es & Ep & Hp & ->)]]; [by left|right]. rewrite Hselected in Es. rewrite Hplan in Ep. injection Es as <-. injection Ep as <-.
  by exists page.
Qed.
(** The state of a record is right: a record that is not a candidate does not
    match; any other matches if, and only if, the plan holds of the tokens of
    its values in the selected fields, and is known not to match only when none
    of these values was cut short.  Complete spans are all of them. *)
Theorem trace_page_decides : Timed trace (λ r, ∀ i record state, records !! i = Some record → r.(TracePageResult.states) !! i = Some state →
    let sources := (λ e, value_source self plan e.2) <$> record_values names record in
    let truncated := truncated_in self plan (record_values names record) in
    if rejected_ record then state = TraceRecordState.mk (Some false) true true else
    (state.(TraceRecordState.membership) = Some true ↔ plan_holds plan false sources)
    ∧ (state.(TraceRecordState.membership) = Some false ↔ ¬ plan_holds plan false sources ∧ truncated = false)
    ∧ (state.(TraceRecordState.analysis_complete) = true ↔ truncated = false)
    ∧ (state.(TraceRecordState.spans_complete) = true → truncated = false ∧
        (plan_holds plan false sources → full_match self plan names record ∈ r.(TracePageResult.trace).(TraceResult.records))))
    invalid_argument.
Proof.
  pose proof Hengine as [_ Hquery Hindex _]. destruct (trace_plan_ok final_analyzer self clause plan Hquery Hplan) as [Hpo Hq].
  eapply Timed_weaken; [apply trace_answers| |done]. intros r Hr i record state Hi Hst sources truncated. rewrite Hexpr in Hr.
  apply answered_page in Hr as [(_ & _ & ->)|(page & (consumed & rest & El & Hinv & _) & ->)]; [done|].
  change (TracePageResult.states _) with (TraceProgress.states (Page.progress page)) in Hst.
  change (TraceResult.records _) with (Page.matched_records page).
  pose proof (page_states _ _ _ _ _ _ _ _ Hinv) as Hs. destruct recovery; [|by rewrite Hs in Hst].
  destruct (Forall2_lookup_r _ _ _ _ _ Hs Hst) as (record' & Hi' & Hright).
  assert (record' = record) as ->.
  { rewrite El, lookup_app_l in Hi by (by eapply lookup_lt_Some). congruence. }
  unfold state_right in Hright. destruct (rejected_ record); [done|].
  pose proof (record_matched_iff self plan names Htotal Hpo Hq Hindex record) as Hiff. fold sources in Hiff. fold truncated in Hright.
  destruct Hright as (Hm & Ha & Hsp). rewrite Hm, Ha. rewrite <- Hiff. destruct (record_matched self plan names record), truncated; naive_solver.
Qed.
End Plan.
(** ** Expressions *)
Section Expression.
Hypothesis Hexpr : ∀ clause, request.(SearchRequest.expression) ≠ SearchExpression.Clause clause.
Abbreviation holds_ record := (record_holds final_analyzer self record request.(SearchRequest.expression)).
Lemma answered_expression : Timed trace (AnsweredExpression final_analyzer self request records recovery) invalid_argument.
Proof using Hengine Hstrings Htotal Hexpr.
  eapply Timed_weaken; [apply trace_answers| |done]. intros r Hr. destruct (SearchRequest.expression request); try done. by destruct (Hexpr clause).
Qed.
(** C18: The decision on a record is right whatever was cut: a record said to
    match satisfies the search expression, and one said not to match does not;
    the decision is left open only when the analysis is not complete. *)
Theorem trace_expression_decides : Timed trace (λ r, ∀ i record state, records !! i = Some record → r.(TracePageResult.states) !! i = Some state →
    if rejected_ record then state = TraceRecordState.mk (Some false) true true else
    (state.(TraceRecordState.membership) = Some true → holds_ record)
    ∧ (state.(TraceRecordState.membership) = Some false → ¬ holds_ record)
    ∧ (state.(TraceRecordState.analysis_complete) = true → is_Some state.(TraceRecordState.membership))) invalid_argument.
Proof.
  eapply Timed_weaken; [apply answered_expression| |done]. intros r (te & leaves & budget & t & _ & _ & _ & (consumed & rest & El & Hinv & _) & ->).
  intros i record state Hi Hst. change (TracePageResult.states _) with (TraceProgress.states (Trail.progress t)) in Hst.
  pose proof (trail_states _ _ _ _ _ _ _ _ _ _ Hinv) as Hs. destruct recovery; [|by rewrite Hs in Hst].
  destruct (Forall2_lookup_r _ _ _ _ _ Hs Hst) as (record' & Hi' & Hsays).
  assert (record' = record) as ->.
  { rewrite El, lookup_app_l in Hi by (by eapply lookup_lt_Some). congruence. }
  unfold state_says in Hsays. destruct (rejected_ record); [done|]. destruct Hsays as (? & ? & ? & _). done.
Qed.
(** C19: Nothing is made up, and nothing is lost when the trace claims to be
    complete: every record reported satisfies the expression, in the order of the
    request, and every span reported was found in one of its values by a leaf of
    the expression; a complete answer reports every record that satisfies the
    expression with all the spans of the leaves that decide. *)
Theorem trace_expression_exact te leaves budget :
  prepare_trace_expression final_analyzer self request.(SearchRequest.expression) false ([], QueryConstructionBudget.default) = Ok (te, (leaves, budget)) →
  Timed trace (λ r, let reports := r.(TracePageResult.trace).(TraceResult.records) in
    Forall (report_genuine final_analyzer self request.(SearchRequest.expression) leaves (request_candidates request) records) reports
    ∧ (TraceRecordMatch.id <$> reports) `sublist_of` (TraceRecord.id <$> records)
    ∧ (r.(TracePageResult.trace).(TraceResult.complete) = true → Forall (λ record, rejected_ record = false → holds_ record →
        ∃ r, r ∈ reports ∧ report_whole self te leaves record r) records)) invalid_argument.
Proof.
  intros Ep. eapply Timed_weaken; [apply answered_expression| |done].
  intros r (te' & leaves' & budget' & t & Ep' & _ & _ & (consumed & rest & El & Hinv & Hrest & _) & ->) reports. rewrite Ep in Ep'. injection Ep' as <- <- <-.
  unfold reports. change (TraceResult.records _) with (Trail.records t). destruct Hinv as [_ _ _ Hst Hc Hg Ho]. split; [|split].
  - rewrite El. eapply Forall_impl; [exact Hg|]. intros x. apply report_genuine_more.
  - rewrite El, fmap_app. etrans; [exact Ho|by apply sublist_inserts_r].
  - cbn. intros [Ec Hl]%andb_true_iff. assert (rest = []) as ->.
    { destruct recovery; [|by apply Hrest]. cbn in Hl. apply N.eqb_eq in Hl. apply Forall2_length in Hst.
      rewrite El, lenN_app in Hl. apply lenN_zero. unfold lenN in *. lia. }
    rewrite app_nil_r in El. rewrite El. by apply Hc.
Qed.
End Expression.
End Theorems.
