(* ===== verification/Sample.v ===== *)
(** * A small engine

    An engine with a word analyzer, two fields and two records: the theorems
    about tracing hold of it, and it can be run. *)
From stdpp Require Import sorting.
From S2P Require Import Prelude.
From S2P Require Import Errors.
From S2P Require Import Bytes.
From S2P Require Import Wire.
From S2P Require Import Request.
From S2P Require Import Structure.
From S2P Require Import Admission.
From S2P Require Import Text.
From S2P Require Import Response.
From S2P Require Import Spans.
From S2P Require Import Analysis.
From S2P Require Import Membership.
From S2P Require Import Deadline.
From S2P Require Import Plan.
From S2P Require Import Prepared.
From S2P Require Import Tokens.
From S2P Require Import Matching.
From S2P Require Import Page.
From S2P Require Import Trails.
From S2P Require Import Paging.
From S2P Require Import Gathering.
From S2P Require Import Probing.
From S2P Require Import Harvesting.
From S2P Require Import Trailing.
From S2P Require Import TracePage.
Local Open Scope N_scope.

(** ** Words between spaces *)
Definition word_token (word : bytes) (offset position : N) : list Token.t :=
  if bool_decide (word = []) then [] else [Token.mk (offset - lenN word) offset position word 1].
Fixpoint words (s : bytes) (word : bytes) (offset position : N) : list Token.t :=
  match s with
  | [] => word_token word offset position
  | b :: s =>
      if Byte.to_N b =? 32 then word_token word offset position ++ words s [] (offset + 1) (position + 1)
      else words s (word ++ [b]) (offset + 1) position
  end.
Definition word_analyzer (s : bytes) : list Token.t :=
  filter (λ t, t.(Token.position) <= ISIZE_MAX ∧ t.(Token.text) ≠ TracePlan.prefix_marker) (words s [] 0 0).
Lemma sorted_positions (tokens : list Token.t) : StronglySorted N.lt (Token.position <$> tokens) ↔
  StronglySorted (λ a b, a.(Token.position) < b.(Token.position)) tokens.
Proof.
  induction tokens as [|t tokens IH]; [split; constructor|]. rewrite fmap_cons. split; intros [Hs Ht]%StronglySorted_inv;
    (constructor; [by apply IH|]).
  - exact (proj1 (Forall_fmap _ _ _) Ht).
  - by apply Forall_fmap.
Qed.
Lemma words_sorted s : ∀ word offset position,
  StronglySorted (λ a b, a.(Token.position) < b.(Token.position)) (words s word offset position)
  ∧ Forall (λ t, position <= t.(Token.position)) (words s word offset position).
Proof.
  induction s as [|b s IH]; intros word offset position; cbn [words].
  { unfold word_token. case_bool_decide; (split; repeat constructor). cbn. lia. }
  destruct (Byte.to_N b =? 32); [|apply IH]. destruct (IH [] (offset + 1) (position + 1)) as [H1 H2]. unfold word_token.
  case_bool_decide; cbn [app]; split; try done.
  - eapply Forall_impl; [exact H2|]. cbn. lia.
  - constructor; [done|]. eapply Forall_impl; [exact H2|]. cbn. lia.
  - constructor; [cbn; lia|]. eapply Forall_impl; [exact H2|]. cbn. lia.
Qed.
Lemma sorted_filter {A} (R : A → A → Prop) (P : A → Prop) `{∀ x, Decision (P x)} l : StronglySorted R l → StronglySorted R (filter P l).
Proof.
  induction 1 as [|a l _ IH Ha]; [constructor|]. rewrite filter_cons. case_decide; [|done]. constructor; [done|].
  rewrite Forall_forall in Ha. apply Forall_forall. intros x [_ Hx]%list_elem_of_filter. by apply Ha.
Qed.
Lemma word_analyzer_sorted s : StronglySorted (λ a b, a.(Token.position) < b.(Token.position)) (word_analyzer s).
Proof. apply sorted_filter, words_sorted. Qed.
Lemma word_analyzer_tokens s : Forall (λ t, t.(Token.position) <= ISIZE_MAX ∧ t.(Token.text) ≠ TracePlan.prefix_marker) (word_analyzer s).
Proof. apply Forall_forall. intros t Ht. unfold word_analyzer in Ht. by apply list_elem_of_filter in Ht as [? _]. Qed.
Lemma word_analyzer_ok : analyzer_ok word_analyzer.
Proof.
  split; intros text; [apply sorted_positions, word_analyzer_sorted| |]; (eapply Forall_impl; [apply word_analyzer_tokens|]); by intros t [? ?].
Qed.
Lemma word_stream_ok : stream_ok word_analyzer.
Proof.
  intros text. split; [|eapply Forall_impl; [apply word_analyzer_tokens|]; by intros t [? ?]].
  pose proof (word_analyzer_sorted text) as Hs. induction Hs as [|t l _ IH Ht]; constructor; [done|]. eapply Forall_impl; [exact Ht|]. cbn. lia.
Qed.

(** ** The engine *)
Definition sample_unicode : Unicode := {|
  is_alphabetic := λ c, (97 <=? c) && (c <=? 122);
  is_numeric := λ c, (48 <=? c) && (c <=? 57);
  is_whitespace := λ c, c =? 32 |}.
(** An automaton that accepts what starts with the term. *)
Definition sample_automata : Automata := {|
  State := bytes;
  automaton := λ _ term _ prefix, Ok (Dfa.mk [] (λ seen b, seen ++ [b]) (λ _, true) (λ seen, starts_with seen term)) |}.
#[export] Existing Instance sample_unicode.
#[export] Existing Instance sample_automata.
Lemma sample_automata_total : automata_total.
Proof. intros field text options prefix. by eexists. Qed.
Definition sample_engine : Engine.t :=
  Engine.mk 0 [EngineField.mk (blit "title") 1 (Some 2) 0x3F800000; EngineField.mk (blit "body") 3 (Some 4) 0x3F800000]
    (<[blit "title" := 0]> (<[blit "body" := 1]> ∅)) word_analyzer word_analyzer word_analyzer word_analyzer true 1024 1024.
Lemma sample_engine_ok : engine_ok sample_engine.
Proof.
  split; [|apply word_analyzer_ok|apply word_stream_ok|done]. intros name i. cbn [Engine.field_lookup sample_engine Engine.fields].
  rewrite !lookup_insert_Some, lookup_empty. intros [[_ <-]|[_ [[_ <-]|[_ [=]]]]]; by vm_compute.
Qed.
Definition sample_clause : SearchClause.t := SearchClause.mk (blit "quick fox") SearchMode.All (QueryOptions.mk 1 true) [].
Definition sample_trace_request : SearchRequest.t :=
  SearchRequest.mk None [] (SearchExpression.Clause sample_clause) (Some [blit "a"; blit "b"]) None 0 10 false 50 false None.
Definition sample_records : list TraceRecord.t :=
  [TraceRecord.mk (blit "a") [(blit "title", [blit "the quick"; blit "fox"]); (blit "body", [blit "a fox"])];
   TraceRecord.mk (blit "b") [(blit "title", [blit "quick quick"])];
   TraceRecord.mk (blit "c") [(blit "title", [blit "quick fox"])]].
Definition sample_page_result : TracePageResult.t :=
  TracePageResult.mk
    (TraceResult.mk true [TraceRecordMatch.mk (blit "a")
      [TraceValueMatch.mk (blit "title") 0 [TraceSpan.mk 4 9]; TraceValueMatch.mk (blit "title") 1 [TraceSpan.mk 0 3];
       TraceValueMatch.mk (blit "body") 0 [TraceSpan.mk 2 5]]]) 3
    [TraceRecordState.mk (Some true) true true; TraceRecordState.mk (Some false) true true; TraceRecordState.mk (Some false) true true].
Abbreviation trace_of request recovery :=
  (trace_matches_inner word_analyzer sample_engine (trace_expression sample_engine word_analyzer request sample_records recovery)
    request sample_records recovery).
Lemma sample_run : trace_of sample_trace_request true None = Ok (sample_page_result, None).
Proof. vm_compute. reflexivity. Qed.
Lemma sample_strings : Forall record_strings sample_records.
Proof. unfold record_strings. repeat constructor. Qed.
Lemma trace_page_progress_witness : lenN sample_page_result.(TracePageResult.states) = 3.
Proof.
  pose proof (Timed_none _ _ _ (trace_page_progress word_analyzer sample_engine sample_trace_request sample_records
    true sample_engine_ok sample_automata_total sample_strings)) as Hw.
  rewrite sample_run in Hw. destruct (Hw eq_refl) as [Hl _]. exact Hl.
Defined.
Lemma trace_page_bounded_witness : lenN (trace_page_body sample_page_result) <= MAX_SEARCH_RESPONSE_BYTES.
Proof.
  pose proof (Timed_none _ _ _ (trace_page_bounded word_analyzer sample_engine sample_trace_request sample_records
    true sample_engine_ok sample_automata_total sample_strings)) as Hw.
  rewrite sample_run in Hw. apply Hw.
Defined.
Lemma sample_selected : selected_fields sample_engine [] = Ok sample_engine.(Engine.fields).
Proof. reflexivity. Qed.
Definition sample_clause_plan : TracePlan.t := TracePlan.All (TraceTerms.Small [blit "quick"; blit "fox"]).
Lemma sample_plan : trace_plan word_analyzer sample_engine sample_clause = Ok sample_clause_plan.
Proof. vm_compute. reflexivity. Qed.
Lemma trace_page_decides_witness :
  ¬ plan_holds sample_clause_plan false ((λ e, value_source sample_engine sample_clause_plan e.2)
       <$> record_values (selected_names sample_engine.(Engine.fields)) (TraceRecord.mk (blit "b") [(blit "title", [blit "quick quick"])])).
Proof.
  pose proof (Timed_none _ _ _ (trace_page_decides word_analyzer sample_engine sample_trace_request sample_records
    true sample_engine_ok sample_automata_total sample_strings sample_clause _ _ eq_refl sample_selected sample_plan)) as Hw.
  rewrite sample_run in Hw. specialize (Hw 1%nat _ _ eq_refl eq_refl).
  assert (rejected (request_candidates sample_trace_request) (TraceRecord.mk (blit "b") [(blit "title", [blit "quick quick"])]) = false) as E
    by (vm_compute; reflexivity).
  cbv zeta in Hw. rewrite E in Hw. destruct Hw as (_ & Hw & _). destruct Hw as [Hw _]. apply Hw. reflexivity.
Defined.

(** ** An expression: quick or fox in the title, and no "lazy" anywhere *)
Definition word_clause (text : string) (fields : list bytes) : SearchExpression.t :=
  SearchExpression.Clause (SearchClause.mk (blit text) SearchMode.Any (QueryOptions.mk 1 true) fields).
Definition sample_search : SearchExpression.t :=
  SearchExpression.And [SearchExpression.Or [word_clause "quick" [blit "title"]; word_clause "fox" [blit "title"]];
    SearchExpression.Not (word_clause "lazy" [])].
Definition sample_expression_request : SearchRequest.t :=
  SearchRequest.mk None [] sample_search None None 0 10 false 50 false None.
Definition sample_expression_result : TracePageResult.t :=
  TracePageResult.mk
    (TraceResult.mk true
      [TraceRecordMatch.mk (blit "a") [TraceValueMatch.mk (blit "title") 0 [TraceSpan.mk 4 9]; TraceValueMatch.mk (blit "title") 1 [TraceSpan.mk 0 3]];
       TraceRecordMatch.mk (blit "b") [TraceValueMatch.mk (blit "title") 0 [TraceSpan.mk 0 5; TraceSpan.mk 6 11]];
       TraceRecordMatch.mk (blit "c") [TraceValueMatch.mk (blit "title") 0 [TraceSpan.mk 0 5; TraceSpan.mk 6 9]]]) 3
    (replicate 3 (TraceRecordState.mk (Some true) true true)).
Lemma sample_expression_run : trace_of sample_expression_request true None = Ok (sample_expression_result, None).
Proof. vm_compute. reflexivity. Qed.
Lemma sample_not_clause clause : sample_expression_request.(SearchRequest.expression) ≠ SearchExpression.Clause clause.
Proof. discriminate. Qed.
Lemma trace_expression_decides_witness :
  record_holds word_analyzer sample_engine (TraceRecord.mk (blit "b") [(blit "title", [blit "quick quick"])]) sample_search.
Proof.
  pose proof (Timed_none _ _ _ (trace_expression_decides word_analyzer sample_engine sample_expression_request sample_records
    true sample_engine_ok sample_automata_total sample_strings sample_not_clause)) as Hw.
  rewrite sample_expression_run in Hw. specialize (Hw 1%nat _ _ eq_refl eq_refl).
  destruct Hw as [Hw _]. apply Hw. reflexivity.
Defined.
Lemma trace_expression_exact_witness : ∃ te leaves, Forall (λ record, rejected (request_candidates sample_expression_request) record = false →
  record_holds word_analyzer sample_engine record sample_search →
  ∃ r, r ∈ sample_expression_result.(TracePageResult.trace).(TraceResult.records) ∧ report_whole sample_engine te leaves record r) sample_records.
Proof.
  destruct (prepare_trace_expression word_analyzer sample_engine sample_search false ([], QueryConstructionBudget.default)) as [[te [leaves budget]]|e| |] eqn:E;
    [|vm_compute in E; discriminate E..].
  exists te, leaves. pose proof (Timed_none _ _ _ (trace_expression_exact word_analyzer sample_engine sample_expression_request sample_records
    true sample_engine_ok sample_automata_total sample_strings sample_not_clause te leaves budget E)) as Hw.
  rewrite sample_expression_run in Hw. apply Hw. reflexivity.
Defined.
Lemma prepare_well_formed_witness : ∃ te leaves,
  prepare_trace_expression word_analyzer sample_engine sample_search false ([], QueryConstructionBudget.default) = Ok (te, (leaves, QueryConstructionBudget.default))
  ∧ NoDup (deciding te) ∧ Forall (λ i, i < lenN leaves) (all_leaves te).
Proof.
  pose proof (prepare_well_formed word_analyzer sample_engine sample_search false [] QueryConstructionBudget.default
    (engine_lookup _ sample_engine_ok) (engine_query _ sample_engine_ok)) as Hw.
  destruct (prepare_trace_expression word_analyzer sample_engine sample_search false ([], QueryConstructionBudget.default)) as [[te [leaves budget]]|e| |] eqn:E;
    [|vm_compute in E; discriminate E..].
  destruct Hw as (new & _ & _ & _ & Hd & Hi & _). exists te, leaves. split; [|split; [exact Hd|exact Hi]].
  assert (budget = QueryConstructionBudget.default) as -> by (vm_compute in E; injection E as _ _ <-; reflexivity). reflexivity.
Defined.

(** ** Without candidates a clause is not planned *)
(** A prefix that is too short: [trace_plan] rejects the clause. *)
Definition short_prefix : SearchClause.t := SearchClause.mk (blit "qu") SearchMode.Prefix (QueryOptions.mk 1 true) [].
Definition short_prefix_request : SearchRequest.t :=
  SearchRequest.mk None [] (SearchExpression.Clause short_prefix) (Some []) None 0 10 false 50 false None.
(** The recoverable trace of a request without candidates fails with the clause,
    the plain trace answers that nothing matches. *)
Theorem empty_candidates_skip_plan : ∃ e,
  trace_plan word_analyzer sample_engine short_prefix = Err e
  ∧ trace_of short_prefix_request true None = Err e
  ∧ trace_of short_prefix_request false None = Ok (TracePageResult.mk (TraceResult.mk true []) 0 [], None).
Proof. eexists. split; [vm_compute; reflexivity|]. split; vm_compute; reflexivity. Qed.
