(* ===== verification/Scores.v ===== *)
(** * The order of scores

    [f32::total_cmp] compares bit patterns; [==] and [<=] compare the numbers
    they denote.  On the patterns of numbers that are not negative, where
    scores live, both are the order of the patterns. *)
From Stdlib Require Import Floats.SpecFloat.
From stdpp Require Import sorting.
From S2P Require Import Prelude.
From S2P Require Import Bytes.
Local Open Scope N_scope.

(** [f32::total_cmp]: the sign bit flips the order of the rest. *)
Definition f32_total_key (v : f32) : Z := if N.testbit v 31 then (-1 - Z.of_N (N.land v (N.ones 31)))%Z else Z.of_N v.
Definition f32_total_cmp (a b : f32) : comparison := (f32_total_key a ?= f32_total_key b)%Z.

(** ** Patterns of numbers that are not negative *)
Section Order.
Context (mbits ebits : N).
Hypothesis Hebits : 1 <= ebits.
Abbreviation unit := (2 ^ mbits).
Definition infinity_bits : N := N.ones ebits * unit.
Definition not_negative (v : N) : Prop := v <= infinity_bits.
Abbreviation bias := (2 ^ Z.of_N (ebits - 1) - 1 + Z.of_N mbits)%Z.
Definition mantissa (v : N) : N := v mod unit + if v / unit =? 0 then 0 else unit.
Definition exponent (v : N) : Z := (Z.of_N (N.max (v / unit) 1) - bias)%Z.

Lemma unit_pos : 0 < unit. Proof. apply N.neq_0_lt_0, N.pow_nonzero. lia. Qed.
Lemma split_bits v : v = v / unit * unit + v mod unit.
Proof. rewrite N.mul_comm. apply N.Div0.div_mod. Qed.
Lemma exponent_bits v : not_negative v → v / unit <= N.ones ebits.
Proof. intros Hv. pose proof unit_pos. unfold not_negative, infinity_bits in Hv. apply N.Div0.div_le_upper_bound; lia. Qed.

Lemma float_spec_view v : not_negative v → float_spec mbits ebits v =
  if v =? infinity_bits then S754_infinity false else
  match mantissa v with N0 => S754_zero false | Npos p => S754_finite false p (exponent v) end.
Proof using Hebits.
  intros Hv. pose proof unit_pos as Hu. pose proof (exponent_bits v Hv) as He. pose proof (split_bits v) as Ev.
  pose proof (N.mod_lt v unit ltac:(lia)) as Hm.
  assert (v < 2 ^ (mbits + ebits)) as Hlt.
  { unfold not_negative, infinity_bits in Hv. rewrite N.ones_equiv in Hv. rewrite N.pow_add_r.
    assert (0 < 2 ^ ebits) by (apply N.neq_0_lt_0, N.pow_nonzero; lia). nia. }
  unfold float_spec. rewrite N.shiftr_div_pow2, !N.land_ones.
  assert (N.testbit v (mbits + ebits) = false) as ->.
  { destruct (N.eq_dec v 0) as [->|Hn]; [apply N.bits_0|]. apply N.bits_above_log2, N.log2_lt_pow2; lia. }
  assert ((v / unit) mod 2 ^ ebits = v / unit) as ->.
  { apply N.mod_small. apply N.Div0.div_lt_upper_bound. by rewrite <- N.pow_add_r. }
  assert (2 <= 2 ^ ebits) as H2 by (change 2 with (2 ^ 1) at 1; apply N.pow_le_mono_r; lia).
  assert (N.ones ebits ≠ 0) as Hone by (rewrite N.ones_equiv; lia).
  unfold mantissa, exponent, not_negative, infinity_bits in *. destruct (N.eqb_spec (v / unit) (N.ones ebits)) as [E|E].
  - rewrite E in Ev. assert (v mod unit = 0) as E0. { clear -Hv Ev. revert Hv Ev. generalize (v mod unit), (N.ones ebits * unit). lia. }
    rewrite E0, N.add_0_r in Ev. by rewrite E0, N.eqb_refl, Ev, N.eqb_refl.
  - destruct (N.eqb_spec v (N.ones ebits * unit)) as [E'|_].
    { exfalso. apply E. rewrite E'. apply N.div_mul. lia. }
    destruct (N.eqb_spec (v / unit) 0) as [E0|E0].
    + rewrite E0. cbn [N.max]. rewrite N.add_0_r. destruct (v mod unit); [done|]. by rewrite N.max_r by lia.
    + rewrite N.max_l; [done|]. revert E0. generalize (v / unit). lia.
Qed.

Lemma mantissa_exponent a b : not_negative a → not_negative b → a < b →
  (exponent a < exponent b)%Z ∨ exponent a = exponent b ∧ mantissa a < mantissa b.
Proof.
  intros Ha Hb Hab. pose proof unit_pos as Hu. pose proof (split_bits a) as Ea. pose proof (split_bits b) as Eb.
  pose proof (N.mod_lt a unit ltac:(lia)). pose proof (N.mod_lt b unit ltac:(lia)).
  assert (a / unit <= b / unit) as Hle by (apply N.Div0.div_le_mono; by apply N.lt_le_incl). unfold exponent, mantissa.
  revert Hu Ea Eb H H0 Hle Hab. clear Ha Hb. generalize (a / unit), (b / unit), (a mod unit), (b mod unit). generalize unit, bias. clear.
  intros u c qa qb ra rb Hu Ea Eb Ha Hb Hle Hab. destruct (N.eq_dec qa qb) as [->|E]; [right; split; [done|]; destruct (qb =? 0); nia|].
  destruct (N.eqb_spec qa 0) as [->|E0]; [|left; lia]. destruct (N.eqb_spec qb 0) as [->|E1]; [lia|].
  destruct (N.eq_dec qb 1) as [->|E2]; [right; lia|left; lia].
Qed.
Lemma mantissa_zero v : mantissa v = 0 → v = 0.
Proof.
  unfold mantissa. pose proof unit_pos as Hu. pose proof (split_bits v) as Ev. revert Hu Ev. generalize (v / unit), (v mod unit). generalize unit. clear.
  intros u q r Hu Ev E. destruct (N.eqb_spec q 0) as [->|E0]; lia.
Qed.

Lemma SFcompare_lt a b : not_negative a → not_negative b → a < b →
  SFcompare (float_spec mbits ebits a) (float_spec mbits ebits b) = Some Lt
  ∧ SFcompare (float_spec mbits ebits b) (float_spec mbits ebits a) = Some Gt.
Proof using Hebits.
  intros Ha Hb Hab. rewrite !float_spec_view by done. pose proof (mantissa_exponent a b Ha Hb Hab) as Hord.
  unfold not_negative in Ha, Hb. destruct (N.eqb_spec a infinity_bits) as [E|_]; [lia|].
  destruct (mantissa a) as [|p] eqn:Ema.
  - destruct (N.eqb_spec b infinity_bits) as [E|_]; [done|]. destruct (mantissa b) as [|q] eqn:Emb; [|done].
    apply mantissa_zero in Emb. lia.
  - destruct (N.eqb_spec b infinity_bits) as [E|_]; [done|]. destruct (mantissa b) as [|q] eqn:Emb.
    { apply mantissa_zero in Emb. lia. }
    cbn [SFcompare]. destruct Hord as [Hlt|[-> Hlt]].
    + pose proof (proj2 (Z.compare_lt_iff _ _) Hlt) as E1. pose proof (proj2 (Z.compare_gt_iff _ _) Hlt) as E2. by rewrite E1, E2.
    + rewrite Z.compare_refl. change (Pos.compare_cont Eq) with Pos.compare.
      rewrite (proj2 (Pos.compare_lt_iff p q)), (proj2 (Pos.compare_gt_iff q p)) by lia. done.
Qed.
Lemma SFcompare_bits a b : not_negative a → not_negative b →
  SFcompare (float_spec mbits ebits a) (float_spec mbits ebits b) = Some (a ?= b).
Proof using Hebits.
  intros Ha Hb. destruct (N.compare_spec a b) as [->|H|H]; [|by apply SFcompare_lt..].
  rewrite float_spec_view by done. destruct (b =? infinity_bits); [done|]. destruct (mantissa b) as [|p]; [done|]. cbn.
  rewrite Z.compare_refl. change (Pos.compare_cont Eq p p) with (Pos.compare p p). by rewrite Pos.compare_refl.
Qed.
End Order.

(** ** Scores *)
Definition score_ok (v : f32) : Prop := v <= 0x7F800000.
#[export] Instance score_ok_dec v : Decision (score_ok v).
Proof. unfold score_ok. apply _. Defined.
Lemma score_compare a b : score_ok a → score_ok b → SFcompare (f32_spec a) (f32_spec b) = Some (a ?= b).
Proof. intros Ha Hb. apply SFcompare_bits; [done|exact Ha|exact Hb]. Qed.
Lemma f32_eq_score a b : score_ok a → score_ok b → f32_eq a b = true ↔ a = b.
Proof.
  intros Ha Hb. unfold f32_eq, SFeqb. rewrite score_compare by done. rewrite <- N.compare_eq_iff. by destruct (a ?= b).
Qed.
Lemma f32_le_score a b : score_ok a → score_ok b → f32_le a b = true ↔ a <= b.
Proof.
  intros Ha Hb. unfold f32_le, SFleb. rewrite score_compare by done. unfold N.le. by destruct (a ?= b).
Qed.
Lemma f32_total_cmp_score a b : score_ok a → score_ok b → f32_total_cmp a b = (a ?= b).
Proof.
  intros Ha Hb. unfold f32_total_cmp, f32_total_key, score_ok in *.
  assert (∀ v, v <= 0x7F800000 → N.testbit v 31 = false) as Hbit.
  { intros v Hv. destruct (N.eq_dec v 0) as [->|?]; [done|]. apply N.bits_above_log2, N.log2_lt_pow2; [lia|]. change (2 ^ 31) with 0x80000000. lia. }
  rewrite !Hbit by done. apply N2Z.inj_compare.
Qed.

(** * The best elements of a list

    A collector keeps the [n] best hits it has seen.  [Best n l t] says that [t]
    holds [n] elements of [l], or all of them, none worse than those left out:
    all that is known of a top-n computation whose internals are not read.
    Under a linear order the sorted best are a prefix of the sorted list, and the
    best of the parts contain the best of the whole. *)
Section Best.
Context {A : Type} (R : relation A).
Implicit Types (l t rest : list A) (n : N).

Definition Best n l t : Prop :=
  ∃ rest, l ≡ₚ t ++ rest ∧ lenN t = N.min n (lenN l) ∧ (∀ a b, a ∈ t → b ∈ rest → R a b).

Lemma Best_elem n l t a : Best n l t → a ∈ t → a ∈ l.
Proof. intros (rest & E & _) ?. rewrite E. apply elem_of_app. by left. Qed.
Lemma Best_perm n l l' t : l ≡ₚ l' → Best n l t → Best n l' t.
Proof.
  intros Hl (rest & E & Hlen & HR). exists rest. split_and!; [by rewrite <- Hl| |done].
  rewrite Hlen. f_equal. by apply lenN_perm.
Qed.
Lemma Best_all n l : lenN l <= n → Best n l l.
Proof. intros H. exists []. rewrite app_nil_r. split_and!; [done|lia|]. by intros a b _ ?%not_elem_of_nil. Qed.
Lemma Best_length n l t : Best n l t → lenN t = N.min n (lenN l).
Proof. by intros (rest & _ & ? & _). Qed.

(** Everything was kept, or exactly [n] elements were. *)
Lemma Best_cut n l t b rest : l ≡ₚ t ++ rest → lenN t = N.min n (lenN l) → b ∈ rest → lenN t = n.
Proof.
  intros E Hlen Hb. apply Permutation_length in E. rewrite length_app in E. destruct rest; [by apply not_elem_of_nil in Hb|].
  cbn in E. unfold lenN in *. lia.
Qed.

(** ** The best of the parts *)
Context `{!Transitive R}.
Lemma Best_concat n ls ts t : NoDup (concat ls) → Forall2 (Best n) ls ts → Best n (concat ts) t → Best n (concat ls) t.
Proof.
  intros Hnd Hts (rest & Et & Hlen & HR).
  assert (∃ others, concat ls ≡ₚ concat ts ++ others
    ∧ ∀ b, b ∈ others → ∃ ti, ti ∈ ts ∧ lenN ti = n ∧ ∀ a, a ∈ ti → R a b) as (others & El & Hothers).
  { clear -Hts. induction Hts as [|l t ls ts (rest & E & Hlen & HR) _ (others & El & Ho)].
    - exists []. split; [done|]. by intros b ?%not_elem_of_nil.
    - exists (rest ++ others). split.
      + cbn [concat]. rewrite E, El, <- !app_assoc. apply Permutation_app_head. rewrite !app_assoc. apply Permutation_app_tail, Permutation_app_comm.
      + intros b [Hb|Hb]%elem_of_app.
        * exists t. split; [by left|]. split; [by eapply Best_cut|]. intros a Ha. by apply HR.
        * destruct (Ho b Hb) as (ti & Hti & ? & ?). exists ti. split; [by right|done]. }
  exists (rest ++ others). split; [|split].
  - by rewrite El, Et, app_assoc.
  - rewrite Hlen. destruct (decide (others = [])) as [->|Hne]; [rewrite app_nil_r in El; by rewrite (lenN_perm _ _ El)|].
    destruct others as [|b others]; [done|]. destruct (Hothers b) as (ti & Hti & Hn & _); [by left|].
    assert (n <= lenN (concat ts)) as Hle.
    { rewrite <- Hn. clear -Hti. induction Hti as [ti ts|ti t ts _ IH]; cbn [concat]; rewrite lenN_app; lia. }
    assert (lenN (concat ls) = lenN (concat ts) + lenN (b :: others)) as -> by (rewrite (lenN_perm _ _ El); apply lenN_app). lia.
  - intros a b Ha [Hb|Hb]%elem_of_app; [by apply HR|]. destruct (Hothers b Hb) as (ti & Hti & Hn & Hbest).
    assert (NoDup (t ++ rest)) as Hnd'. { rewrite <- Et. rewrite El in Hnd. by apply NoDup_app in Hnd as (? & _). }
    assert (NoDup ti ∧ ti ⊆ t ++ rest) as [Hndi Hsub].
    { rewrite <- Et in Hnd'. clear -Hnd' Hti Et. split.
      - clear Et. induction Hti as [ti ts|ti t' ts _ IH]; cbn [concat] in Hnd'; apply NoDup_app in Hnd' as (? & _ & ?); auto.
      - intros x Hx. rewrite <- Et. apply list_elem_of_In, in_concat. exists ti. split; by apply list_elem_of_In. }
    assert ((∃ c, c ∈ ti ∧ c ∈ rest) ∨ ti ⊆ t) as [(c & Hc & Hcr)|Hincl].
    { clear -Hsub. induction ti as [|x ti IH]; [right; set_solver|]. destruct IH as [(c & ? & ?)|IH]; [set_solver|left; exists c; set_solver|].
      assert (x ∈ t ++ rest) as [?|?]%elem_of_app by set_solver; [right; set_solver|left; exists x; set_solver]. }
    + transitivity c; [by apply HR|by apply Hbest].
    + apply Hbest. assert (ti ≡ₚ t) as ->; [|done]. apply submseteq_length_Permutation.
      * apply NoDup_submseteq; [done|]. intros x. apply Hincl.
      * unfold lenN in *. lia.
Qed.
End Best.

(** Keys that are compared through a map. *)
Lemma Best_fmap {A B} (R : relation A) (R' : relation B) (f : A → B) n l t :
  (∀ x y, x ∈ l → y ∈ l → R x y → R' (f x) (f y)) → Best R n l t → Best R' n (f <$> l) (f <$> t).
Proof.
  intros Hf (rest & E & Hlen & HR). exists (f <$> rest). rewrite !lenN_fmap. split; [by rewrite <- fmap_app, E|]. split; [done|].
  intros a b (x & -> & Hx)%list_elem_of_fmap (y & -> & Hy)%list_elem_of_fmap. apply Hf; [rewrite E; apply elem_of_app; auto..|]. by apply HR.
Qed.

(** ** Sorting *)
Section Sorted.
Context {A : Type} (R : relation A) `{!RelDecision R} `{!Transitive R} `{!Total R} `{!AntiSymm (=) R}.
Implicit Types (l t rest : list A) (n : N).
Lemma merge_sort_perm l l' : l ≡ₚ l' → merge_sort R l = merge_sort R l'.
Proof.
  intros E. apply (StronglySorted_unique R); [by apply StronglySorted_merge_sort..|].
  by rewrite !merge_sort_Permutation.
Qed.
Lemma StronglySorted_join l k : StronglySorted R l → StronglySorted R k → (∀ a b, a ∈ l → b ∈ k → R a b) → StronglySorted R (l ++ k).
Proof.
  intros Hl Hk H. induction Hl as [|a l Hl IH Ha]; [done|]. cbn. constructor.
  - apply IH. intros x y ? ?. apply H; [by right|done].
  - apply Forall_app. split; [done|]. apply Forall_forall. intros y ?. apply H; [by left|done].
Qed.
Lemma Best_sorted n l t : Best R n l t → merge_sort R t = take (N.to_nat n) (merge_sort R l).
Proof.
  intros (rest & E & Hlen & HR).
  assert (merge_sort R l = merge_sort R t ++ merge_sort R rest) as ->.
  { apply (StronglySorted_unique R).
    - by apply StronglySorted_merge_sort.
    - apply StronglySorted_join; [by apply StronglySorted_merge_sort..|]. intros a b. rewrite !merge_sort_Permutation. apply HR.
    - by rewrite !merge_sort_Permutation. }
  assert (length (merge_sort R t) = length t) as Hl by (by rewrite merge_sort_Permutation).
  destruct (decide (rest = [])) as [->|Hne].
  - rewrite take_ge; [by rewrite app_nil_r|]. rewrite app_nil_r in E. apply Permutation_length in E.
    rewrite length_app, Hl. unfold lenN in *. cbn. lia.
  - destruct rest as [|b rest]; [done|]. rewrite take_app_length'; [done|].
    rewrite Hl. pose proof (Best_cut n l t b (b :: rest) E Hlen ltac:(by left)). unfold lenN in *. lia.
Qed.
Lemma Best_take n l : Best R n l (take (N.to_nat n) (merge_sort R l)).
Proof.
  exists (drop (N.to_nat n) (merge_sort R l)). rewrite take_drop. split; [by rewrite merge_sort_Permutation|]. split.
  - unfold lenN. rewrite length_take, merge_sort_Permutation. lia.
  - intros a b Ha Hb. pose proof (StronglySorted_merge_sort R l) as Hs. rewrite <- (take_drop (N.to_nat n)) in Hs.
    by eapply StronglySorted_app_1_elem_of.
Qed.
End Sorted.
