(* ===== verification/Failures.v ===== *)
(** * src/src/error.rs, engine.rs, catalog.rs: errors of the index

    The errors of the index come from another crate; what the code reads of them
    is their constructor, and the text they display. *)
From S2P Require Import Prelude.
From S2P Require Import Errors.
From S2P Require Import Results.
Local Open Scope N_scope.

(** [std::io::ErrorKind], as far as it is told apart. *)
Inductive IoErrorKind := InvalidData | UnexpectedEof | OtherKind.
Module OpenReadError.
Inductive t := FileDoesNotExist | IncompatibleIndex | IoError (kind : IoErrorKind).
End OpenReadError.
Module AggregationError.
Inductive t := MemoryExceeded | BucketLimitExceeded | InvalidRequest | Other.
End AggregationError.
(** [tantivy::TantivyError], with what the code matches on. *)
Module TantivyError.
Inductive kind :=
| LockFailure (busy : bool)
| OpenDirectoryError
| OpenReadError (error : OpenReadError.t)
| OpenWriteError
| IoError (kind : IoErrorKind)
| DataCorruption
| IncompatibleIndex
| InvalidArgument (message : string)
| AggregationError (error : AggregationError.t)
| Other.
Record t := mk { error : kind; display : string }.
End TantivyError.

Definition E_LOCK_BUSY : FulltextError := FulltextError_new "E_LOCK_BUSY" "another writer owns the Tantivy index lock".
Definition storage_error (display : string) : FulltextError := FulltextError_new "E_STORAGE" display.
Definition index_error (error : TantivyError.t) : FulltextError :=
  match error.(TantivyError.error) with
  | TantivyError.LockFailure true => E_LOCK_BUSY
  | TantivyError.OpenDirectoryError | TantivyError.OpenReadError _ | TantivyError.OpenWriteError | TantivyError.IoError _ =>
      FulltextError_new "E_STORAGE" error.(TantivyError.display)
  | _ => native error.(TantivyError.display)
  end.
Definition search_timeout : FulltextError := FulltextError_new "E_TIMEOUT" SEARCH_TIMEOUT_MESSAGE.
Definition collection_error (error : TantivyError.t) : FulltextError :=
  match error.(TantivyError.error) with
  | TantivyError.InvalidArgument message => if (message =? SEARCH_TIMEOUT_MESSAGE)%string then search_timeout else index_error error
  | _ => index_error error
  end.
Definition HISTOGRAM_POSITIONS : string := "Histogram values exceed representable bucket positions".
Definition native_error (error : TantivyError.t) : FulltextError :=
  match error.(TantivyError.error) with
  | TantivyError.AggregationError (AggregationError.MemoryExceeded | AggregationError.BucketLimitExceeded) => resource error.(TantivyError.display)
  | TantivyError.InvalidArgument message =>
      if (message =? HISTOGRAM_POSITIONS)%string then resource message
      else if (message =? SEARCH_TIMEOUT_MESSAGE)%string then search_timeout
      else invalid error.(TantivyError.display)
  | TantivyError.AggregationError AggregationError.InvalidRequest => invalid error.(TantivyError.display)
  | _ => index_error error
  end.
Definition commit_error (operation : string) (error : TantivyError.t) : FulltextError :=
  let error := index_error error in mkError (code error) ("Tantivy " +:+ operation +:+ ": " +:+ message error).
Definition corrupt_io (kind : IoErrorKind) : bool := match kind with OtherKind => false | _ => true end.
Definition recovery_index_error (error : TantivyError.t) : FulltextError :=
  let coded c := FulltextError_new c error.(TantivyError.display) in
  match error.(TantivyError.error) with
  | TantivyError.DataCorruption => coded "E_INDEX_CORRUPT"
  | TantivyError.IncompatibleIndex | TantivyError.OpenReadError OpenReadError.IncompatibleIndex => coded "E_INDEX_FORMAT_INCOMPATIBLE"
  | TantivyError.OpenReadError OpenReadError.FileDoesNotExist => coded "E_INDEX_CORRUPT"
  | TantivyError.OpenReadError (OpenReadError.IoError kind) | TantivyError.IoError kind =>
      if corrupt_io kind then coded "E_INDEX_CORRUPT" else index_error error
  | _ => index_error error
  end.

(** ** The codes that come out *)
Definition native_failure (e : FulltextError) : Prop := code e ∈ ["E_LOCK_BUSY"; "E_STORAGE"; "E_NATIVE_FAILURE"]%string.
Lemma index_error_native error : native_failure (index_error error).
Proof. unfold native_failure, index_error. destruct (TantivyError.error error) as [[]| | | | | | | | |]; cbn; set_solver. Qed.
Lemma storage_error_native display : native_failure (storage_error display).
Proof. unfold native_failure. cbn. set_solver. Qed.
Lemma collection_error_native error : collection_error error = search_timeout ∨ native_failure (collection_error error).
Proof.
  unfold collection_error. destruct (TantivyError.error error) as [| | | | | | |m| |]; try (right; apply index_error_native).
  destruct (m =? SEARCH_TIMEOUT_MESSAGE)%string; [by left|right; apply index_error_native].
Qed.
(** The codes of the errors of a collection. *)
Definition collection_failure (e : FulltextError) : Prop :=
  native_failure e ∨ code e = "E_RESOURCE_LIMIT"%string ∨ code e = "E_INVALID_ARGUMENT"%string.
Lemma native_error_codes error : native_error error = search_timeout ∨ collection_failure (native_error error).
Proof.
  unfold native_error, collection_failure. destruct (TantivyError.error error) as [| | | | | | |m|k|]; try (right; left; apply index_error_native).
  - destruct (m =? HISTOGRAM_POSITIONS)%string; [naive_solver|]. destruct (m =? SEARCH_TIMEOUT_MESSAGE)%string; naive_solver.
  - destruct k; try (right; left; apply index_error_native); naive_solver.
Qed.
(** The codes of the errors of building a query. *)
Definition query_failure (e : FulltextError) : Prop :=
  native_failure e ∨ code e = "E_INVALID_ARGUMENT"%string ∨ code e = "E_PREFIX_TOO_BROAD"%string.
(** A deadline keeps its code through every mapping of errors. *)
Lemma timeout_kept display : let error := TantivyError.mk (TantivyError.InvalidArgument SEARCH_TIMEOUT_MESSAGE) display in
  native_error error = search_timeout ∧ collection_error error = search_timeout.
Proof. done. Qed.
Lemma recovery_codes error :
  code (recovery_index_error error) ∈ ["E_LOCK_BUSY"; "E_STORAGE"; "E_NATIVE_FAILURE"; "E_INDEX_CORRUPT"; "E_INDEX_FORMAT_INCOMPATIBLE"]%string.
Proof.
  pose proof (index_error_native error) as H. unfold native_failure in H.
  assert (code (index_error error) ∈ ["E_LOCK_BUSY"; "E_STORAGE"; "E_NATIVE_FAILURE"; "E_INDEX_CORRUPT"; "E_INDEX_FORMAT_INCOMPATIBLE"]%string) as H' by set_solver.
  unfold recovery_index_error. destruct (TantivyError.error error) as [b| |[| |[]]| |[]| | |m|k|]; try exact H'; cbn; set_solver.
Qed.
