(* ===== verification/Collecting.v ===== *)
(** * src/src/catalog.rs: collecting the matches of a segment

    [DeadlineCollector] wraps the collectors of a search: it visits the matches
    of a segment in order, looks at the deadline at least every 1024 of them,
    leaves deleted documents out, refuses values no histogram bucket can hold and
    hands the rest to the collector inside, one by one with their scores or in
    blocks. *)
From Stdlib Require Import Floats.SpecFloat.
From S2P Require Import Prelude.
From S2P Require Import Errors.
From S2P Require Import Bytes.
From S2P Require Import Wire.
From S2P Require Import Results.
From S2P Require Import Deadline.
From S2P Require Import Failures.
Local Open Scope N_scope.

(** ** Positions of histogram buckets *)
(** [f64::floor] on the number a pattern denotes. *)
Definition spec_floor (x : spec_float) : spec_float :=
  match x with
  | S754_finite s m e =>
      if (0 <=? e)%Z then x else
      let z := ((if s then Z.neg m else Z.pos m) / 2 ^ (- e))%Z in
      match z with Z0 => S754_zero s | _ => binary_normalize 53 1024 z 0 s end
  | _ => x
  end.
Definition bucket_position (value interval : f64) : spec_float := spec_floor (SFdiv 53 1024 (f64_spec value) (f64_spec interval)).
(** [i64::MIN as f64] and [i64::MAX as f64], which rounds up. *)
Definition I64_MIN_F64 : spec_float := S754_finite true (2 ^ 52) 11.
Definition I64_MAX_F64 : spec_float := S754_finite false (2 ^ 52) 11.
Definition histogram_position_safe (value interval : f64) : bool :=
  let position := bucket_position value interval in
  spec_is_finite position && SFleb I64_MIN_F64 position && SFltb position I64_MAX_F64.

Module HistogramCheck.
Record t := mk { field : bytes; interval : f64; ancestors : list bytes }.
End HistogramCheck.
(** A fast field of numbers. *)
Module Column.
Record t := mk { values_for_doc : N → list f64; num_vals : N; min_value : f64; max_value : f64 }.
End Column.
(** An ancestor column is read only for whether a document has a value. *)
Module HistogramColumns.
Record t := mk { column : Column.t; interval : f64; ancestors : list (N → bool) }.
End HistogramColumns.

Definition histogram_error : FulltextError := resource HISTOGRAM_POSITIONS.
Definition validate_histogram_doc (histograms : list HistogramColumns.t) (doc : N) : outcome () :=
  foldO (λ _ check,
    if existsb (λ first, negb (first doc)) check.(HistogramColumns.ancestors) then Ok () else
    foldO (λ _ value, if negb (histogram_position_safe value check.(HistogramColumns.interval)) then Err histogram_error else Ok ())
      () (check.(HistogramColumns.column).(Column.values_for_doc) doc)) () histograms.

(** ** Collectors *)
Module Collector.
Record t (Seg S F : Type) := mk {
  for_segment : N → Seg → outcome S;
  collect : S → N → f32 → outcome S;
  collect_block : S → list N → outcome S;
  harvest : S → F;
  requires_scoring : bool }.
End Collector.
Arguments Collector.mk {Seg S F}. Arguments Collector.for_segment {Seg S F}. Arguments Collector.collect {Seg S F}.
Arguments Collector.collect_block {Seg S F}. Arguments Collector.harvest {Seg S F}. Arguments Collector.requires_scoring {Seg S F}.

(** [usize::is_multiple_of] *)
Definition is_multiple_of (n m : N) : bool := if m =? 0 then n =? 0 else n mod m =? 0.

(** What is read of a segment, for the query of the search. *)
Class Segments (Seg : Type) := {
  scorer : Seg → outcome (list (N * f32));
  alive_bitset : Seg → option (N → bool);
  f64_column : Seg → bytes → outcome Column.t;
  first_of : Seg → bytes → outcome (option (N → bool));
  COLLECT_BLOCK_BUFFER_LEN : N }.

Section Collect.
Context {Seg S F : Type} `{!Segments Seg} (inner : Collector.t Seg S F).
Definition is_alive (alive : option (N → bool)) (doc : N) : bool := match alive with Some alive => alive doc | None => true end.
(** The columns of the checks a segment needs. *)
Definition histogram_columns (reader : Seg) (check : HistogramCheck.t) : outcome (option HistogramColumns.t) :=
  column ← f64_column reader check.(HistogramCheck.field);
  let interval := check.(HistogramCheck.interval) in
  if (column.(Column.num_vals) =? 0)
     || (histogram_position_safe column.(Column.min_value) interval && histogram_position_safe column.(Column.max_value) interval)
  then Ok None else
  ancestors ← foldO (λ acc name, first ← first_of reader name; Ok (acc ++ [default (λ _, false) first])) [] check.(HistogramCheck.ancestors);
  Ok (Some (HistogramColumns.mk column interval ancestors)).
Definition all_columns (reader : Seg) (checks : list HistogramCheck.t) : outcome (list HistogramColumns.t) :=
  foldO (λ acc check, columns ← histogram_columns reader check; Ok (acc ++ option_list columns)) [] checks.

(** The loop over scored documents. *)
Fixpoint scoring_loop (histograms : list HistogramColumns.t) (alive : option (N → bool)) (visited : N) (s : S) (docs : list (N * f32)) : M Clock S :=
  match docs with
  | [] => mret s
  | (doc, score) :: docs =>
      _ ← (if is_multiple_of visited 1024 then check_deadline else mret ());
      s ← (if is_alive alive doc
           then _ ← lift (validate_histogram_doc histograms doc); lift (inner.(Collector.collect) s doc score)
           else mret s);
      scoring_loop histograms alive (visited + 1) s docs
  end.
(** The loop over blocks; the last, empty block ends it after a check. *)
Definition retain (alive : option (N → bool)) (block : list N) : list N :=
  match alive with Some alive => List.filter alive block | None => block end.
Definition collect_one_block (histograms : list HistogramColumns.t) (alive : option (N → bool)) (s : S) (buffer : list N) : M Clock S :=
  let block := retain alive buffer in
  _ ← (if negb (bool_decide (histograms = [])) then foldM (λ _ doc, lift (validate_histogram_doc histograms doc)) () block else mret ());
  if negb (bool_decide (block = [])) then lift (inner.(Collector.collect_block) s block) else mret s.
Fixpoint block_loop (fuel : nat) (histograms : list HistogramColumns.t) (alive : option (N → bool)) (visited : N) (s : S) (docs : list N) : M Clock S :=
  match fuel with
  | O => out_of_fuel
  | Datatypes.S fuel =>
      _ ← (if is_multiple_of visited (1024 / COLLECT_BLOCK_BUFFER_LEN) then check_deadline else mret ());
      if bool_decide (docs = []) then mret s else
      let buffer := take (N.to_nat COLLECT_BLOCK_BUFFER_LEN) docs in
      s ← collect_one_block histograms alive s buffer;
      block_loop fuel histograms alive (visited + 1) s (drop (N.to_nat COLLECT_BLOCK_BUFFER_LEN) docs)
  end.
(** [DeadlineCollector::for_segment] *)
Definition for_segment (ordinal : N) (reader : Seg) : M Clock S := _ ← check_deadline; lift (inner.(Collector.for_segment) ordinal reader).
(** [DeadlineCollector::collect_segment]; without a deadline and histograms the
    collector inside does it, [inner_collect_segment]. *)
Definition collect_segment (inner_collect_segment : N → Seg → M Clock F) (histograms : list HistogramCheck.t) (ordinal : N) (reader : Seg)
  : M Clock F := λ clock,
  (if bool_decide (clock = None) && bool_decide (histograms = []) then inner_collect_segment ordinal reader else
   _ ← check_deadline;
   s ← for_segment ordinal reader;
   histograms ← lift (all_columns reader histograms);
   docs ← lift (scorer reader);
   s ← (if inner.(Collector.requires_scoring) then scoring_loop histograms (alive_bitset reader) 0 s docs
        else block_loop (Datatypes.S (length docs)) histograms (alive_bitset reader) 0 s (fst <$> docs));
   _ ← check_deadline;
   mret (inner.(Collector.harvest) s)) clock.
(** [DeadlineCollector::merge_fruits] *)
Definition merge_fruits {G} (merge : list F → outcome G) (fruits : list F) : M Clock G :=
  _ ← check_deadline; result ← lift (merge fruits); _ ← check_deadline; mret result.
End Collect.

(** ** What is collected *)
Lemma foldO_ext {A B} (f g : B → A → outcome B) b l : (∀ b a, f b a = g b a) → foldO f b l = foldO g b l.
Proof. intros H. revert b. induction l as [|a l IH]; intros b; cbn [foldO]; [done|]. rewrite H. by destruct (g b a); cbn. Qed.
Lemma foldO_first_error {A} (bad : A → bool) e l : foldO (λ _ a, if bad a then Err e else Ok ()) () l = if existsb bad l then Err e else Ok ().
Proof. induction l as [|a l IH]; [done|]. cbn. by destruct (bad a). Qed.
Section Spec.
Context {Seg S F : Type} `{!Segments Seg} (inner : Collector.t Seg S F).
Context (histograms : list HistogramColumns.t) (alive : option (N → bool)).
(** A document with a value no bucket holds, in a histogram it belongs to. *)
Definition doc_unsafe (doc : N) : bool := existsb (λ check,
  negb (existsb (λ first, negb (first doc)) check.(HistogramColumns.ancestors))
  && existsb (λ value, negb (histogram_position_safe value check.(HistogramColumns.interval))) (check.(HistogramColumns.column).(Column.values_for_doc) doc))
  histograms.
Lemma validate_histogram_doc_is doc : validate_histogram_doc histograms doc = if doc_unsafe doc then Err histogram_error else Ok ().
Proof.
  unfold validate_histogram_doc, doc_unsafe. rewrite <- foldO_first_error. apply foldO_ext. intros [] check.
  rewrite foldO_first_error. by destruct (existsb _ _).
Qed.

(** Documents that are alive, in the order of the scorer. *)
Definition live {B} (docs : list (N * B)) : list (N * B) := List.filter (λ d, is_alive alive d.1) docs.
Context (E : FulltextError → Prop).

Section Scoring.
Context (P : list (N * f32) → S → Prop) (all : list (N * f32)).
Hypothesis Hstep : ∀ done d todo s, live all = done ++ d :: todo → P done s → ∃ s', inner.(Collector.collect) s d.1 d.2 = Ok s' ∧ P (done ++ [d]) s'.
Hypothesis Herror : Exists (λ d, doc_unsafe d.1 = true) (live all) → E histogram_error.
Lemma scoring_loop_spec docs : ∀ seen visited s, all = seen ++ docs → P (live seen) s → Forall (λ d, doc_unsafe d.1 = false) (live seen) →
  Timed (scoring_loop inner histograms alive visited s docs) (λ s, P (live all) s ∧ Forall (λ d, doc_unsafe d.1 = false) (live all)) E.
Proof using Hstep Herror.
  induction docs as [|[doc score] docs IH]; intros seen visited s Eall HP Hsafe; cbn [scoring_loop].
  { rewrite app_nil_r in Eall. subst. by apply Timed_ret. }
  eapply (Timed_bind _ _ (λ _, True)); [apply Timed_if; intros _; [apply Timed_check|by apply Timed_ret]|intros _ _].
  assert (live (seen ++ [(doc, score)]) = live seen ++ if is_alive alive doc then [(doc, score)] else []) as Elive.
  { unfold live. rewrite List.filter_app. cbn. by destruct (is_alive alive doc). }
  eapply (Timed_bind _ _ (λ s', P (live (seen ++ [(doc, score)])) s' ∧ Forall (λ d, doc_unsafe d.1 = false) (live (seen ++ [(doc, score)])))).
  2: { intros s' [HP' Hsafe']. apply (IH (seen ++ [(doc, score)])); [by rewrite <- app_assoc|done..]. }
  rewrite Elive. destruct (is_alive alive doc) eqn:Ealive; [|apply Timed_ret; by rewrite app_nil_r].
  assert (live all = live seen ++ (doc, score) :: live docs) as El.
  { subst all. unfold live. rewrite List.filter_app. cbn. by rewrite Ealive. }
  rewrite validate_histogram_doc_is. destruct (doc_unsafe doc) eqn:Eu.
  - eapply (Timed_bind _ _ (λ _, False)); [apply Timed_lift|by intros _ []]. apply Herror. rewrite El, Exists_app, Exists_cons. auto.
  - eapply (Timed_bind _ _ (λ _, True)); [by apply Timed_lift|intros _ _]. destruct (Hstep _ _ _ s El HP) as (s' & Es & HP'). cbn in Es. rewrite Es.
    apply Timed_lift. split; [done|]. apply Forall_app. by rewrite Forall_singleton.
Qed.
End Scoring.

Section Blocks.
Hypothesis Hlen : 0 < COLLECT_BLOCK_BUFFER_LEN.
Definition live_ids (docs : list N) : list N := retain alive docs.
Context (P : list N → S → Prop) (all : list N).
Hypothesis Hstep : ∀ done block todo s, live_ids all = done ++ block ++ todo → block ≠ [] → P done s →
  ∃ s', inner.(Collector.collect_block) s block = Ok s' ∧ P (done ++ block) s'.
Hypothesis Herror : Exists (λ d, doc_unsafe d = true) (live_ids all) → E histogram_error.
Lemma live_ids_app a b : live_ids (a ++ b) = live_ids a ++ live_ids b.
Proof. unfold live_ids, retain. destruct alive; [apply List.filter_app|done]. Qed.
Lemma doc_unsafe_none doc : histograms = [] → doc_unsafe doc = false.
Proof. unfold doc_unsafe. by intros ->. Qed.
Lemma collect_one_block_spec seen buffer rest s : all = seen ++ buffer ++ rest → P (live_ids seen) s → Forall (λ d, doc_unsafe d = false) (live_ids seen) →
  Timed (collect_one_block inner histograms alive s buffer) (λ s', P (live_ids (seen ++ buffer)) s' ∧ Forall (λ d, doc_unsafe d = false) (live_ids (seen ++ buffer))) E.
Proof using Hstep Herror.
  intros Eall HP Hsafe. unfold collect_one_block. fold (live_ids buffer). rewrite live_ids_app.
  assert (live_ids all = live_ids seen ++ live_ids buffer ++ live_ids rest) as El by (by rewrite Eall, !live_ids_app).
  eapply (Timed_bind _ _ (λ _, Forall (λ d, doc_unsafe d = false) (live_ids buffer))).
  - apply Timed_if; [intros _|].
    + apply (Timed_foldM _ (λ done _, Forall (λ d, doc_unsafe d = false) done)); [constructor|]. intros done doc todo [] E' Hdone.
      rewrite validate_histogram_doc_is. apply Timed_lift. destruct (doc_unsafe doc) eqn:Eu.
      * apply Herror. rewrite El, E', !Exists_app, Exists_cons. auto.
      * apply Forall_app. by rewrite Forall_singleton.
    + intros Eh%negb_false_iff%bool_decide_eq_true. apply Timed_ret, Forall_forall. intros d _. by apply doc_unsafe_none.
  - intros _u Hb. apply Timed_if.
    + intros Hne%negb_true_iff%bool_decide_eq_false. destruct (Hstep _ _ _ s El Hne HP) as (s' & -> & HP'). apply Timed_lift.
      split; [done|]. by apply Forall_app.
    + intros Enil%negb_false_iff%bool_decide_eq_true. apply Timed_ret. by rewrite Enil, app_nil_r.
Qed.
Lemma block_loop_spec fuel : ∀ docs seen visited s, (length docs < fuel)%nat → all = seen ++ docs → P (live_ids seen) s →
  Forall (λ d, doc_unsafe d = false) (live_ids seen) →
  Timed (block_loop inner fuel histograms alive visited s docs) (λ s, P (live_ids all) s ∧ Forall (λ d, doc_unsafe d = false) (live_ids all)) E.
Proof using Hstep Herror Hlen.
  induction fuel as [|fuel IH]; intros docs seen visited s Hf Eall HP Hsafe; [lia|]. cbn [block_loop].
  eapply (Timed_bind _ _ (λ _, True)); [apply Timed_if; intros _; [apply Timed_check|by apply Timed_ret]|intros _ _].
  apply Timed_if; [intros ->%bool_decide_eq_true; rewrite app_nil_r in Eall; subst; by apply Timed_ret|].
  intros Hne%bool_decide_eq_false.
  eapply Timed_bind; [apply (collect_one_block_spec seen _ (drop (N.to_nat COLLECT_BLOCK_BUFFER_LEN) docs)); [by rewrite take_drop|done..]|].
  intros s' [HP' Hsafe']. apply (IH _ (seen ++ take (N.to_nat COLLECT_BLOCK_BUFFER_LEN) docs)); [|by rewrite <- app_assoc, take_drop|done..].
  rewrite length_drop. destruct docs; [done|]. cbn [length] in *. lia.
Qed.
End Blocks.
End Spec.
