(* ===== verification/Hits.v ===== *)
(** * src/src/engine.rs: the hits of a segment

    A hit is a score, the record's ID and its address.  IDs and versions are
    read through the dictionary of a string column: [resolve_string_ordinals]
    looks sorted ordinals up in one pass. *)
From stdpp Require Import sorting.
From Stdlib Require Import Floats.SpecFloat.
From S2P Require Import Prelude.
From S2P Require Import Errors.
From S2P Require Import Bytes.
From S2P Require Import Wire.
From S2P Require Import Text.
From S2P Require Import Response.
From S2P Require Import Scores.
From S2P Require Import Deadline.
From S2P Require Import Failures.
Local Open Scope N_scope.

(** A document's segment and number. *)
Definition DocAddress : Type := N * N.
(** [StableScoreTieHit] *)
Definition Hit : Type := (f32 * bytes) * DocAddress.

(** ** The order of hits *)
(** [Ordering::then] *)
Definition then_ (a b : comparison) : comparison := match a with Eq => b | _ => a end.
(** [PartialOrd] of scores, as [NaturalComparator] uses it. *)
Definition compare_scores (a b : f32) : comparison := default Eq (SFcompare (f32_spec a) (f32_spec b)).
Definition compare_bytes (a b : bytes) : comparison := if decide (a = b) then Eq else if decide (bytes_le a b) then Lt else Gt.
Definition compare_address (a b : DocAddress) : comparison := then_ (a.1 ?= b.1) (a.2 ?= b.2).
(** [(NaturalComparator, ReverseComparator)] on scores and ordinals, and with
    IDs and addresses. *)
Definition segment_compare (a b : f32 * N) : comparison := then_ (compare_scores a.1 b.1) (CompOpp (a.2 ?= b.2)).
Definition hit_compare (a b : Hit) : comparison :=
  then_ (then_ (compare_scores a.1.1 b.1.1) (CompOpp (compare_bytes a.1.2 b.1.2))) (CompOpp (compare_address a.2 b.2)).

(** The reference: higher scores first, then smaller IDs, then addresses. *)
Definition address_le (a b : DocAddress) : Prop := a.1 < b.1 ∨ a.1 = b.1 ∧ a.2 <= b.2.
Definition ranks_before (a b : Hit) : Prop :=
  b.1.1 < a.1.1 ∨ b.1.1 = a.1.1 ∧ (bytes_lt a.1.2 b.1.2 ∨ a.1.2 = b.1.2 ∧ address_le a.2 b.2).
#[export] Instance bytes_lt_dec : RelDecision bytes_lt.
Proof. intros a b. unfold bytes_lt. apply _. Defined.
#[export] Instance address_le_dec : RelDecision address_le.
Proof. intros a b. unfold address_le. apply _. Defined.
#[export] Instance ranks_before_dec : RelDecision ranks_before.
Proof. intros a b. unfold ranks_before. apply _. Defined.

Lemma bytes_trichotomy a b : bytes_lt a b ∨ a = b ∨ bytes_lt b a.
Proof. destruct (decide (a = b)) as [|Hn]; [auto|]. unfold bytes_lt. destruct (total bytes_le a b); [auto|]. right. right. auto. Qed.
Lemma bytes_lt_trans a b c : bytes_lt a b → bytes_lt b c → bytes_lt a c.
Proof. intros [? ?] [? ?]. split; [by etrans|]. intros ->. by apply H0, (anti_symm bytes_le). Qed.
Lemma bytes_lt_irrefl a : ¬ bytes_lt a a.
Proof. by intros [_ ?]. Qed.
Lemma bytes_lt_asymm a b : bytes_lt a b → ¬ bytes_lt b a.
Proof. intros H1 H2. by eapply bytes_lt_irrefl, bytes_lt_trans. Qed.
#[export] Instance ranks_before_trans : Transitive ranks_before.
Proof.
  intros [[s1 i1] a1] [[s2 i2] a2] [[s3 i3] a3]. unfold ranks_before, address_le. cbn.
  intros [?|[-> [?|[-> ?]]]] [?|[-> [?|[-> ?]]]]; try (left; lia); right; (split; [done|]); try (by left; eauto using bytes_lt_trans).
  right. split; [done|]. lia.
Qed.
#[export] Instance ranks_before_total : Total ranks_before.
Proof.
  intros [[s1 i1] a1] [[s2 i2] a2]. unfold ranks_before, address_le. cbn.
  destruct (N.lt_trichotomy s1 s2) as [?|[->|?]]; [auto| |auto].
  destruct (bytes_trichotomy i1 i2) as [?|[->|?]]; [auto| |auto].
  destruct (N.lt_trichotomy a1.1 a2.1) as [?|[E|?]]; [left; auto 6| |right; auto 6].
  destruct (N.le_ge_cases a1.2 a2.2); [left|right]; right; (split; [done|]); right; (split; [done|]); right; split; auto.
Qed.
#[export] Instance ranks_before_antisymm : AntiSymm (=) ranks_before.
Proof.
  intros [[s1 i1] [x1 y1]] [[s2 i2] [x2 y2]]. unfold ranks_before, address_le. cbn.
  intros [?|[-> [?|[-> ?]]]] [?|[? [?|[? ?]]]]; subst; try lia; try (exfalso; by eapply bytes_lt_asymm); try (exfalso; by eapply bytes_lt_irrefl).
  assert (x1 = x2 ∧ y1 = y2) as [-> ->] by lia. done.
Qed.
Definition ranking (hits : list Hit) : list Hit := merge_sort ranks_before hits.

(** ** The comparators agree with the reference *)
Lemma then_not_lt a b : then_ a b ≠ Lt ↔ a = Gt ∨ a = Eq ∧ b ≠ Lt.
Proof. destruct a; cbn; naive_solver. Qed.
Lemma compare_scores_ok a b : score_ok a → score_ok b → compare_scores a b = (a ?= b).
Proof. intros. unfold compare_scores. by rewrite score_compare. Qed.
Lemma hit_compare_ranks a b : score_ok a.1.1 → score_ok b.1.1 → hit_compare a b ≠ Lt ↔ ranks_before a b.
Proof.
  intros Ha Hb. unfold hit_compare, ranks_before. rewrite compare_scores_ok by done. destruct a as [[s1 i1] a1], b as [[s2 i2] a2]. cbn [fst snd].
  assert (CompOpp (compare_bytes i1 i2) = Gt ↔ bytes_lt i1 i2) as Hi.
  { unfold compare_bytes, bytes_lt. destruct (decide (i1 = i2)) as [->|Hn]; [naive_solver|].
    destruct (decide (bytes_le i1 i2)); cbn; naive_solver. }
  assert (CompOpp (compare_bytes i1 i2) = Eq ↔ i1 = i2) as He.
  { unfold compare_bytes. destruct (decide (i1 = i2)) as [->|Hn]; [naive_solver|]. destruct (decide (bytes_le i1 i2)); cbn; naive_solver. }
  assert (CompOpp (compare_address a1 a2) ≠ Lt ↔ address_le a1 a2) as Had.
  { unfold compare_address, address_le. destruct (N.compare_spec a1.1 a2.1), (N.compare_spec a1.2 a2.2); cbn; split; try done; try lia; intros; try lia;
    intros [=]; lia. }
  rewrite then_not_lt, Had, <- Hi, <- He. destruct (N.compare_spec s1 s2) as [->|?|?]; cbn [then_]; [|split; [intros [?|[? _]]; done|lia]|split; [lia|auto]].
  split; [naive_solver|]. intros [?|[_ ?]]; [lia|]. naive_solver.
Qed.

(** ** String columns *)
(** The terms of a segment in order, and the ordinals of a document's values. *)
Module StrColumn.
Record t := mk { dictionary : list bytes; ords : N → list N }.
Definition first (column : t) (doc : N) : option N := head (column.(ords) doc).
End StrColumn.
(** What is asked of a dictionary: the terms handed out for sorted ordinals,
    with whether all were found, and the first ordinal after a term. *)
Class Dictionaries := {
  sorted_ords_to_term : list bytes → list N → outcome (list bytes * bool);
  term_after : list bytes → bytes → outcome (option N) }.
(** An answer or a storage failure. *)
Definition stored {A} (r : outcome A) (Q : A → Prop) : Prop :=
  match r with Ok a => Q a | Err e => native_failure e | Panic | Fuel => False end.
Class DictionariesLaws `{!Dictionaries} : Prop := {
  sorted_ords_to_term_ok dictionary ords : StronglySorted N.le ords →
    stored (sorted_ords_to_term dictionary ords) (λ r, Forall (λ o, o < lenN dictionary) ords →
      r.2 = true ∧ Forall2 (λ o term, dictionary !! N.to_nat o = Some term) ords r.1);
  term_after_ok dictionary term : StronglySorted bytes_lt dictionary →
    stored (term_after dictionary term) (λ r, ∀ o t, dictionary !! N.to_nat o = Some t →
      bytes_lt term t ↔ ∃ first, r = Some first ∧ first <= o) }.

Section Resolve.
Context `{!Dictionaries}.
Definition vec_set {A} (l : list A) (i : N) (a : A) : outcome (list A) := if i <? lenN l then Ok (<[N.to_nat i := a]> l) else Panic.
(** [sort_unstable] of pairs. *)
Definition pair_le (a b : N * N) : Prop := a.1 < b.1 ∨ a.1 = b.1 ∧ a.2 <= b.2.
#[local] Instance pair_le_dec : RelDecision pair_le.
Proof. intros a b. unfold pair_le. apply _. Defined.
(** The variables the callback writes. *)
Definition resolved : Type := list (option bytes) * N * bool.
Definition resolve_term (ordinals : list (N * N)) (s : resolved) (value : bytes) : outcome resolved :=
  let '(values, next_ordinal, extra_terms) := s in
  match ordinals !! N.to_nat next_ordinal with
  | Some (_, result_index) => values ← vec_set values result_index (Some value); Ok (values, next_ordinal + 1, extra_terms)
  | None => Ok (values, next_ordinal + 1, true)
  end.
Definition resolve_string_ordinals (column : StrColumn.t) (ordinals : list (N * N)) (value_count : N) (missing_message : string)
  : outcome (list (option bytes)) :=
  let ordinals := merge_sort pair_le ordinals in
  '(terms, found_all) ← sorted_ords_to_term column.(StrColumn.dictionary) (fst <$> ordinals);
  '(values, next_ordinal, extra_terms) ← foldO (resolve_term ordinals) (replicate (N.to_nat value_count) None, 0, false) terms;
  if (extra_terms : bool) then Err (storage_error "string dictionary returned too many terms") else
  if negb found_all || negb (next_ordinal =? lenN ordinals) then Err (native missing_message) else Ok values.

(** *** Every slot asked for holds its term, the others nothing *)
Definition slots_filled (dictionary : list bytes) (ordinals : list (N * N)) (value_count : N) (values : list (option bytes)) : Prop :=
  lenN values = value_count
  ∧ (∀ o i, (o, i) ∈ ordinals → values !! N.to_nat i = Some (dictionary !! N.to_nat o))
  ∧ (∀ i, i < value_count → i ∉ (snd <$> ordinals) → values !! N.to_nat i = Some None).
Lemma slots_empty dictionary n : slots_filled dictionary [] n (replicate (N.to_nat n) None).
Proof.
  split_and!; [unfold lenN; rewrite length_replicate; lia|by intros o i ?%not_elem_of_nil|]. intros i Hi _. apply lookup_replicate. split; [done|lia].
Qed.
Lemma slots_step dictionary done o i n values value : i ∉ (snd <$> done) → i < n → dictionary !! N.to_nat o = Some value →
  slots_filled dictionary done n values → slots_filled dictionary (done ++ [(o, i)]) n (<[N.to_nat i := Some value]> values).
Proof.
  intros Hi Hlt Ho (Hlen & Hset & Hrest). unfold slots_filled. split_and!.
  - unfold lenN. by rewrite length_insert.
  - intros o' i' [Hin|[= -> ->]%list_elem_of_singleton]%elem_of_app; [|rewrite list_lookup_insert_eq by (unfold lenN in Hlen; lia); by rewrite Ho].
    rewrite list_lookup_insert_ne; [by apply Hset|]. intros E%N2Nat.inj. subst. apply Hi, list_elem_of_fmap. by exists (o', i').
  - intros j Hj. rewrite fmap_app. intros Hn. rewrite list_lookup_insert_ne; [|intros ->%N2Nat.inj; apply Hn, elem_of_app; right; by left].
    apply Hrest; [done|]. intros ?. apply Hn, elem_of_app. by left.
Qed.
#[local] Instance pair_le_trans : Transitive pair_le.
Proof. intros a b c. unfold pair_le. lia. Qed.
#[local] Instance pair_le_total : Total pair_le.
Proof. intros a b. unfold pair_le. destruct (N.lt_trichotomy a.1 b.1) as [?|[?|?]]; [auto| |auto]. destruct (N.le_ge_cases a.2 b.2); auto. Qed.
Lemma sorted_ordinals (l : list (N * N)) : StronglySorted N.le (fst <$> merge_sort pair_le l).
Proof.
  pose proof (StronglySorted_merge_sort pair_le l) as Hs. induction Hs as [|a k Hk IH Ha]; [constructor|]. cbn. constructor; [done|].
  apply Forall_fmap. eapply Forall_impl; [exact Ha|]. unfold pair_le. cbn. lia.
Qed.
Lemma resolve_spec `{!DictionariesLaws} column ordinals value_count missing :
  Forall (λ e, e.1 < lenN column.(StrColumn.dictionary) ∧ e.2 < value_count) ordinals → NoDup (snd <$> ordinals) →
  stored (resolve_string_ordinals column ordinals value_count missing) (slots_filled column.(StrColumn.dictionary) ordinals value_count).
Proof.
  intros Hok Hnd. unfold resolve_string_ordinals. set (sorted := merge_sort pair_le ordinals).
  assert (sorted ≡ₚ ordinals) as Hperm by apply merge_sort_Permutation.
  pose proof (sorted_ords_to_term_ok column.(StrColumn.dictionary) (fst <$> sorted) (sorted_ordinals _)) as Hterms.
  destruct (sorted_ords_to_term _ _) as [[terms found]|e| |]; [|done..]. cbn [mbind outcome_bind stored fst snd] in *.
  destruct Hterms as [-> Hterms].
  { apply Forall_fmap. rewrite Hperm. eapply Forall_impl; [exact Hok|]. by intros ? [? _]. }
  assert (Forall (λ e, e.2 < value_count) sorted) as Hidx by (rewrite Hperm; eapply Forall_impl; [exact Hok|]; by intros ? [_ ?]).
  assert (NoDup (snd <$> sorted)) as Hnd' by (by rewrite Hperm).
  apply Forall2_fmap_l in Hterms. pose proof (Forall2_length _ _ _ Hterms) as Hlen.
  destruct (foldO_inv (resolve_term sorted) (λ done s, s.1.2 = lenN done ∧ s.2 = false
    ∧ slots_filled column.(StrColumn.dictionary) (take (length done) sorted) value_count s.1.1)
    terms (replicate (N.to_nat value_count) None, 0, false)) as ([[values next] extra] & -> & En & Ee & Hslots).
  - split_and!; [done..|]. apply slots_empty.
  - intros done term todo [[values next] extra] El (En & Ee & Hslots). cbn [fst snd] in *. subst next extra.
    destruct (Forall2_lookup_r _ _ _ (length done) term Hterms) as ([o i] & Hoi & Ho); [by rewrite El, list_lookup_middle|].
    unfold resolve_term. rewrite lenN_to_nat, Hoi. unfold vec_set.
    assert (i < value_count) as Hi by (by eapply (Forall_lookup_1 _ _ _ _ Hidx Hoi)). rewrite (proj1 Hslots), (proj2 (N.ltb_lt _ _) Hi).
    cbn [mbind outcome_bind]. eexists. split; [done|]. cbn [fst snd]. rewrite lenN_app, length_app. split_and!; [done..|].
    replace (length done + length [term])%nat with (S (length done)) by (cbn; lia). rewrite (take_S_r _ _ (o, i)) by done.
    apply slots_step; [|done..]. rewrite fmap_take. intros (j & Hj)%list_elem_of_lookup. rewrite lookup_take_Some in Hj. destruct Hj as [Hj Hlt].
    eapply (NoDup_lookup _ j (length done)) in Hnd'; [lia|done|]. by rewrite list_lookup_fmap, Hoi.
  - cbn [fst snd mbind outcome_bind] in *. subst next extra. rewrite take_ge in Hslots by lia.
    assert ((lenN terms =? lenN sorted) = true) as -> by (apply N.eqb_eq; unfold lenN; by rewrite Hlen). cbn [negb orb stored].
    destruct Hslots as (H1 & H2 & H3). split_and!; [done| |].
    + intros o i. rewrite <- Hperm. apply H2.
    + intros i Hi Hn. apply H3; [done|]. by rewrite Hperm.
Qed.
End Resolve.
