(* ===== verification/Ranking.v ===== *)
(** * src/src/engine.rs: the score-tie collectors

    [StableScoreTieCollector] ranks the matches of every segment by score and ID
    ordinal, keeps the best, reads their IDs and merges the segments by score, ID
    and address.  [TraversalScoreTieCollector] leaves out what a page before has
    shown. *)
From stdpp Require Import sorting.
From S2P Require Import Prelude.
From S2P Require Import Errors.
From S2P Require Import Bytes.
From S2P Require Import Wire.
From S2P Require Import Request.
From S2P Require Import Text.
From S2P Require Import Deadline.
From S2P Require Import Scores.
From S2P Require Import Failures.
From S2P Require Import Collecting.
From S2P Require Import Hits.
Local Open Scope N_scope.

Definition ID_FIELD_NAME : bytes := blit "__fulltext_id".
Definition VERSION_FIELD_NAME : bytes := blit "__fulltext_version".

(** ** Top-n computations *)
(** [TopNComputer], after the pushes: the best [n] in any order, and sorted. *)
Class TopNComputer := {
  into_vec : ∀ {K D : Type}, (K → K → comparison) → N → list (K * D) → list (K * D);
  into_sorted_vec : ∀ {K D : Type}, (K → K → comparison) → N → list (K * D) → list (K * D) }.
(** Comparators that order the keys pushed. *)
Definition consistent {K} (compare : K → K → comparison) (keys : list K) : Prop :=
  (∀ a b, a ∈ keys → b ∈ keys → compare b a = CompOpp (compare a b))
  ∧ (∀ a b c, a ∈ keys → b ∈ keys → c ∈ keys → compare a b ≠ Lt → compare b c ≠ Lt → compare a c ≠ Lt).
Definition not_worse {K D} (compare : K → K → comparison) (a b : K * D) : Prop := compare a.1 b.1 ≠ Lt.
Class TopNLaws `{!TopNComputer} : Prop := {
  into_vec_best {K D} (compare : K → K → comparison) n (l : list (K * D)) :
    consistent compare (fst <$> l) → Best (not_worse compare) n l (into_vec compare n l);
  into_sorted_vec_best {K D} (compare : K → K → comparison) n (l : list (K * D)) :
    consistent compare (fst <$> l) → Best (not_worse compare) n l (into_sorted_vec compare n l);
  into_sorted_vec_sorted {K D} (compare : K → K → comparison) n (l : list (K * D)) :
    consistent compare (fst <$> l) → StronglySorted (not_worse compare) (into_sorted_vec compare n l) }.

(** ** The stable collector *)
Class Columns (Seg : Type) := { str_column : Seg → bytes → outcome (option StrColumn.t) }.

(** [StableScoreTieSegmentCollector]; [top_docs] holds what was pushed. *)
Module TieSegment.
Record t := mk {
  limit : N; top_docs : list ((f32 * N) * N); id_column : StrColumn.t; segment_ord : N; match_count : N; missing_id : bool }.
Definition count (self : t) (n : N) : t := mk self.(limit) self.(top_docs) self.(id_column) self.(segment_ord) n self.(missing_id).
Definition miss (self : t) : t := mk self.(limit) self.(top_docs) self.(id_column) self.(segment_ord) self.(match_count) true.
Definition push (self : t) (entry : (f32 * N) * N) : t :=
  mk self.(limit) (self.(top_docs) ++ [entry]) self.(id_column) self.(segment_ord) self.(match_count) self.(missing_id).
End TieSegment.

Section Collectors.
Context {Seg : Type} `{!Columns Seg} `{!Dictionaries} `{!TopNComputer}.
Definition tie_for_segment (end_ : N) (segment_ord : N) (segment : Seg) : outcome TieSegment.t :=
  id_column ← str_column segment ID_FIELD_NAME;
  id_column ← ok_or id_column (native "search segment has no ID fast field");
  Ok (TieSegment.mk end_ [] id_column segment_ord 0 false).
Definition tie_collect (self : TieSegment.t) (doc : N) (score : f32) : outcome TieSegment.t :=
  match_count ← usize_add self.(TieSegment.match_count) 1;
  let self := TieSegment.count self match_count in
  match StrColumn.first self.(TieSegment.id_column) doc with
  | None => Ok (TieSegment.miss self)
  | Some id_ord => Ok (TieSegment.push self ((score, id_ord), doc))
  end.
(** The hit of a kept entry and the ID resolved for it. *)
Definition tie_hit (segment_ord : N) (entry : ((f32 * N) * N) * option bytes) : outcome Hit :=
  let '(((score, _), doc), id) := entry in
  id ← ok_or id (native "search hit ID ordinal is missing");
  if utf8_valid id then Ok ((score, id), (segment_ord, doc)) else Err (native "search hit ID is not UTF-8").
Definition tie_harvest (self : TieSegment.t) : outcome (N * list Hit) :=
  if self.(TieSegment.missing_id) then Err (native "search hit has no ID ordinal") else
  let top_docs := into_vec segment_compare self.(TieSegment.limit) self.(TieSegment.top_docs) in
  let ordinals := imap (λ index hit, (hit.1.2, N.of_nat index)) top_docs in
  ids ← resolve_string_ordinals self.(TieSegment.id_column) ordinals (lenN top_docs) "search hit ID ordinal is missing";
  hits ← mapO (tie_hit self.(TieSegment.segment_ord)) (zip top_docs ids);
  Ok (self.(TieSegment.match_count), hits).
Definition StableScoreTieCollector (end_ : N) : Collector.t Seg TieSegment.t (outcome (N * list Hit)) :=
  Collector.mk (tie_for_segment end_) tie_collect (λ s docs, foldO (λ s doc, tie_collect s doc 0) s docs) tie_harvest true.

(** [merge_fruits]: how many were kept, how many matched, and the hits from
    [start] on. *)
Definition merge_fruit (acc : list (Hit * DocAddress) * N) (segment_hits : outcome (N * list Hit)) : outcome (list (Hit * DocAddress) * N) :=
  let '(top_docs, match_count) := acc in
  '(segment_match_count, segment_hits) ← segment_hits;
  match_count ← usize_add match_count segment_match_count;
  Ok (top_docs ++ ((λ hit : Hit, (hit, hit.2)) <$> segment_hits), match_count).
Definition tie_merge_fruits (start end_ : N) (segment_fruits : list (outcome (N * list Hit))) : outcome (N * N * list Hit) :=
  '(top_docs, match_count) ← foldO merge_fruit ([], 0) segment_fruits;
  let top_docs := into_sorted_vec hit_compare end_ top_docs in
  Ok (lenN top_docs, match_count, (λ hit : Hit * DocAddress, (hit.1.1, hit.2)) <$> drop (N.to_nat start) top_docs).

(** ** The traversal collector *)
(** [TraversalScoreTieSegmentCollector] *)
Definition TraversalSegment : Type := TieSegment.t * option (f32 * option N).
Definition traversal_for_segment (end_ : N) (after : option SearchBoundary.t) (segment_ord : N) (segment : Seg) : outcome TraversalSegment :=
  inner ← tie_for_segment end_ segment_ord segment;
  after ← match after with
          | Some boundary =>
              first_after_id ← term_after inner.(TieSegment.id_column).(StrColumn.dictionary) boundary.(SearchBoundary.id);
              Ok (Some (boundary.(SearchBoundary.score), first_after_id))
          | None => Ok None
          end;
  Ok (inner, after).
(** Whether a page before the boundary has shown the document. *)
Definition already_seen (after : option (f32 * option N)) (score : f32) (id_ord : N) : bool :=
  match after with
  | Some (boundary_score, first_after_id) =>
      match f32_total_cmp score boundary_score with
      | Gt => true
      | Eq => match first_after_id with None => true | Some first => id_ord <? first end
      | Lt => false
      end
  | None => false
  end.
Definition traversal_collect (self : TraversalSegment) (doc : N) (score : f32) : outcome TraversalSegment :=
  let '(inner, after) := self in
  match_count ← usize_add inner.(TieSegment.match_count) 1;
  let inner := TieSegment.count inner match_count in
  match StrColumn.first inner.(TieSegment.id_column) doc with
  | None => Ok (TieSegment.miss inner, after)
  | Some id_ord =>
      if already_seen after score id_ord then Ok (inner, after) else Ok (TieSegment.push inner ((score, id_ord), doc), after)
  end.
Definition TraversalScoreTieCollector (end_ : N) (after : option SearchBoundary.t) : Collector.t Seg TraversalSegment (outcome (N * list Hit)) :=
  Collector.mk (traversal_for_segment end_ after) traversal_collect (λ s docs, foldO (λ s doc, traversal_collect s doc 0) s docs)
    (λ self, tie_harvest self.1) true.
(** Its own loop; a missed deadline is an error of the search either way. *)
Definition traversal_collect_segment `{!Segments Seg} (end_ : N) (after : option SearchBoundary.t) (segment_ord : N) (reader : Seg)
  : M Clock (outcome (N * list Hit)) :=
  let inner := TraversalScoreTieCollector end_ after in
  collector ← lift (inner.(Collector.for_segment) segment_ord reader);
  docs ← lift (scorer reader);
  collector ← scoring_loop inner [] (alive_bitset reader) 0 collector docs;
  mret (inner.(Collector.harvest) collector).
End Collectors.

(** * What a segment contributes to a ranking

    A segment's collector keeps the best of its matches under the reference order
    of [Hits.ranks_before]: ordinals of a sorted dictionary are in the order of
    the IDs, and no two live documents of a segment share an ID. *)
(** ** Rules for [stored] *)
Lemma stored_bind {A B} (m : outcome A) (f : A → outcome B) Q R :
  stored m Q → (∀ a, Q a → stored (f a) R) → stored (mbind f m) R.
Proof. intros Hm Hf. destruct m as [a|e| |]; [by apply Hf|exact Hm|done..]. Qed.
Lemma stored_weaken {A} (m : outcome A) (Q R : A → Prop) : stored m Q → (∀ a, Q a → R a) → stored m R.
Proof. intros Hm HR. destruct m as [a|e| |]; [by apply HR|exact Hm|done..]. Qed.
Lemma stored_eq {A} (m : outcome A) Q : stored m Q → stored m (λ a, m = Ok a ∧ Q a).
Proof. intros Hm. by destruct m. Qed.
Lemma stored_Ok {A} (m : outcome A) a Q : m = Ok a → Q a → stored m Q.
Proof. by intros ->. Qed.
Lemma stored_ok_or {A} (o : option A) m : stored (ok_or o (native m)) (λ a, o = Some a).
Proof. destruct o; [done|]. unfold stored, ok_or, native_failure. cbn. set_solver. Qed.
Lemma native_is_failure m : native_failure (native m).
Proof. unfold native_failure. cbn. set_solver. Qed.
Lemma Timed_stored {A} (r : outcome A) (Q : A → Prop) : stored r Q → Timed (lift r) Q native_failure.
Proof. intros H. apply Timed_lift. by destruct r. Qed.
Lemma mapO_stored {A B} (f : A → outcome B) (Q : A → B → Prop) l :
  Forall (λ a, stored (f a) (Q a)) l → stored (mapO f l) (Forall2 Q l).
Proof.
  induction 1 as [|a l Ha Hl IH]; cbn [mapO]; [constructor|].
  eapply stored_bind; [exact Ha|]. intros b Hb. eapply stored_bind; [exact IH|]. intros bs Hbs. by constructor.
Qed.

Lemma Forall2_map {A B} (f : A → B) l k : Forall2 (λ a b, b = f a) l k → k = f <$> l.
Proof. induction 1 as [|a b l k -> _ IH]; [done|]. by rewrite fmap_cons, IH. Qed.

Record column_ok (c : StrColumn.t) : Prop := {
  terms_sorted : StronglySorted bytes_lt c.(StrColumn.dictionary);
  terms_short : Forall (λ t, lenN t <= U32_MAX) c.(StrColumn.dictionary);
  ords_within doc : Forall (λ o, o < lenN c.(StrColumn.dictionary)) (c.(StrColumn.ords) doc) }.
Definition term_at (c : StrColumn.t) (o : N) : option bytes := c.(StrColumn.dictionary) !! N.to_nat o.

(** ** Comparing scores and ordinals *)
Lemma segment_compare_ok a b : score_ok a.1 → score_ok b.1 → segment_compare a b = then_ (a.1 ?= b.1) (CompOpp (a.2 ?= b.2)).
Proof. intros Ha Hb. unfold segment_compare. by rewrite compare_scores_ok. Qed.
Lemma segment_compare_le a b : score_ok a.1 → score_ok b.1 → segment_compare a b ≠ Lt ↔ b.1 < a.1 ∨ b.1 = a.1 ∧ a.2 <= b.2.
Proof.
  intros Ha Hb. rewrite segment_compare_ok by done.
  destruct (N.compare_spec a.1 b.1), (N.compare_spec a.2 b.2); cbn; split; intros; try done; try lia; try (intros [=]; lia).
Qed.
Lemma segment_consistent keys : Forall (λ k, score_ok k.1) keys → consistent segment_compare keys.
Proof.
  intros Hk. rewrite Forall_forall in Hk. split.
  - intros a b Ha Hb. rewrite !segment_compare_ok by auto. rewrite (N.compare_antisym a.1), (N.compare_antisym a.2).
    by destruct (a.1 ?= b.1), (a.2 ?= b.2).
  - intros a b c Ha Hb Hc. rewrite !segment_compare_le by auto. lia.
Qed.
Lemma hit_consistent hits : Forall (λ h : Hit, score_ok h.1.1) hits → consistent hit_compare hits.
Proof.
  intros Hk. rewrite Forall_forall in Hk. split.
  - intros [[s1 i1] [x1 y1]] [[s2 i2] [x2 y2]] Ha Hb. unfold hit_compare. rewrite !compare_scores_ok by (by apply Hk in Ha; apply Hk in Hb).
    cbn [fst snd]. unfold compare_address. cbn [fst snd]. rewrite (N.compare_antisym s1), (N.compare_antisym x1), (N.compare_antisym y1).
    assert (compare_bytes i2 i1 = CompOpp (compare_bytes i1 i2)) as ->.
    { unfold compare_bytes. destruct (decide (i1 = i2)) as [->|Hn]; [by rewrite decide_True|]. rewrite (decide_False (P := i2 = i1)) by done.
      destruct (decide (bytes_le i1 i2)), (decide (bytes_le i2 i1)); try done.
      - exfalso. apply Hn. by apply (anti_symm bytes_le).
      - exfalso. by destruct (total bytes_le i1 i2). }
    by destruct (s1 ?= s2), (compare_bytes i1 i2), (x1 ?= x2), (y1 ?= y2).
  - intros a b c Ha Hb Hc. rewrite !hit_compare_ranks by auto. apply ranks_before_trans.
Qed.

(** ** The collector of a segment *)
Section Segment.
Context {Seg : Type} `{!Columns Seg} `{!Dictionaries} `{!DictionariesLaws} `{!TopNComputer} `{!TopNLaws}.
Context (limit : N) (c : StrColumn.t) (segment_ord : N) (keep : f32 → N → bool).
Hypothesis Hcolumn : column_ok c.
Definition entry_for (d : N * f32) : option ((f32 * N) * N) := o ← StrColumn.first c d.1; if keep d.2 o then Some ((d.2, o), d.1) else None.
Definition has_id (d : N * f32) : Prop := is_Some (StrColumn.first c d.1).
#[local] Instance has_id_dec d : Decision (has_id d).
Proof. unfold has_id. apply _. Defined.
(** The state after the documents [docs]. *)
Definition tie_state (docs : list (N * f32)) : TieSegment.t :=
  TieSegment.mk limit (omap entry_for docs) c segment_ord (lenN docs) (bool_decide (¬ Forall has_id docs)).
(** The hit of an entry. *)
Definition entry_hit (e : (f32 * N) * N) : Hit := ((e.1.1, default [] (term_at c e.1.2)), (segment_ord, e.2)).

Lemma tie_state_snoc docs d : tie_state (docs ++ [d]) =
  let s := TieSegment.count (tie_state docs) (lenN docs + 1) in
  match StrColumn.first c d.1 with
  | None => TieSegment.miss s
  | Some o => if keep d.2 o then TieSegment.push s ((d.2, o), d.1) else s
  end.
Proof.
  unfold tie_state. rewrite lenN_app, omap_app. cbn [omap list_omap]. unfold entry_for at 2.
  assert (bool_decide (¬ Forall has_id (docs ++ [d])) = bool_decide (¬ Forall has_id docs) || match StrColumn.first c d.1 with None => true | _ => false end) as ->.
  { apply eq_true_iff_eq. rewrite orb_true_iff, !bool_decide_eq_true, Forall_app, Forall_singleton. unfold has_id at 2.
    destruct (decide (Forall has_id docs)), (StrColumn.first c d.1); naive_solver. }
  destruct (StrColumn.first c d.1) as [o|]; cbn [mbind option_bind].
  - rewrite orb_false_r. by destruct (keep d.2 o); cbn; rewrite ?app_nil_r.
  - rewrite orb_true_r. cbn. by rewrite app_nil_r.
Qed.

Lemma dictionary_order i j a b : c.(StrColumn.dictionary) !! i = Some a → c.(StrColumn.dictionary) !! j = Some b → (i < j)%nat → bytes_lt a b.
Proof using Hcolumn.
  intros Ha Hb Hij. pose proof (terms_sorted _ Hcolumn) as Hs. eapply StronglySorted_app_1_elem_of.
  - rewrite <- (take_drop j) in Hs. exact Hs.
  - apply (list_elem_of_lookup_2 _ i). by rewrite lookup_take_lt.
  - apply (list_elem_of_lookup_2 _ 0%nat). by rewrite lookup_drop, Nat.add_0_r.
Qed.
Lemma first_within d o : StrColumn.first c d = Some o → o < lenN c.(StrColumn.dictionary) ∧ is_Some (term_at c o).
Proof using Hcolumn.
  intros Ho. pose proof (ords_within _ Hcolumn d) as Hf. unfold StrColumn.first in Ho. destruct (StrColumn.ords c d); [done|].
  injection Ho as ->. apply Forall_cons_1 in Hf as [Hlt _]. split; [done|]. apply lookup_lt_is_Some. unfold lenN in Hlt. lia.
Qed.
Lemma entry_elem (docs : list (N * f32)) e : e ∈ omap entry_for docs → ∃ d o, d ∈ docs ∧ e = ((d.2, o), d.1) ∧ StrColumn.first c d.1 = Some o.
Proof.
  intros (d & Hd & He)%list_elem_of_omap. unfold entry_for in He. destruct (StrColumn.first c d.1) as [o|] eqn:Eo; [|done]. cbn in He.
  destruct (keep d.2 o); [|done]. injection He as <-. by exists d, o.
Qed.

Section Docs.
Context (docs : list (N * f32)).
Hypothesis Hscores : Forall (λ d, score_ok d.2) docs.
Hypothesis Hunique : ∀ d d', d ∈ docs → d' ∈ docs → StrColumn.first c d.1 = StrColumn.first c d'.1 → has_id d → d = d'.
Lemma entries_ranked x y : x ∈ omap entry_for docs → y ∈ omap entry_for docs → not_worse segment_compare x y → ranks_before (entry_hit x) (entry_hit y).
Proof using Hcolumn Hscores Hunique.
  intros (d & o & Hd & -> & Eo)%entry_elem (d' & o' & Hd' & -> & Eo')%entry_elem Hle. rewrite Forall_forall in Hscores.
  unfold not_worse in Hle. rewrite segment_compare_le in Hle by (cbn; auto). unfold ranks_before, entry_hit. cbn [fst snd] in *.
  destruct Hle as [?|[-> Ho]]; [auto|right]. split; [done|].
  destruct (first_within _ _ Eo) as [_ [t Ht]], (first_within _ _ Eo') as [_ [t' Ht']]. rewrite Ht, Ht'. cbn [default].
  destruct (N.eq_dec o o') as [<-|Hn].
  - right. assert (d = d') as <-.
    { apply Hunique; [done..|by rewrite Eo, Eo'|]. by eexists. }
    split; [congruence|]. right. split; [done|]. cbn [snd]. lia.
  - left. eapply dictionary_order; [exact Ht|exact Ht'|lia].
Qed.
Lemma tie_harvest_spec : stored (tie_harvest (tie_state docs)) (λ r, Forall has_id docs ∧ r.1 = lenN docs
  ∧ Best ranks_before limit (entry_hit <$> omap entry_for docs) r.2).
Proof using All.
  unfold tie_harvest, tie_state. cbn [TieSegment.missing_id TieSegment.limit TieSegment.top_docs TieSegment.id_column TieSegment.segment_ord TieSegment.match_count].
  case_bool_decide as Hids; [apply native_is_failure|].
  set (pushed := omap entry_for docs). set (top := into_vec segment_compare limit pushed).
  assert (Best (not_worse segment_compare) limit pushed top) as Hbest.
  { apply into_vec_best, segment_consistent, Forall_fmap, Forall_forall. intros e (d & o & Hd & -> & _)%entry_elem. cbn. rewrite Forall_forall in Hscores. auto. }
  assert (Forall (λ e, e.1.2 < lenN c.(StrColumn.dictionary) ∧ is_Some (term_at c e.1.2)) top) as Hin.
  { apply Forall_forall. intros e He. eapply Best_elem, entry_elem in He as (d & o & _ & -> & Eo); [|exact Hbest]. by eapply first_within. }
  eapply stored_bind; [apply resolve_spec|].
  - apply Forall_lookup. intros i e. rewrite list_lookup_imap. intros (e' & He & ->)%fmap_Some. cbn. split; [by eapply (Forall_lookup_1 _ _ _ _ Hin He)|].
    apply lookup_lt_Some in He. unfold lenN. lia.
  - rewrite fmap_imap. apply NoDup_alt. intros i j x. rewrite !list_lookup_imap.
    intros (? & _ & ->)%fmap_Some (? & _ & E)%fmap_Some. cbn in E. lia.
  - intros ids (Hlen & Hset & _). eapply stored_bind; [apply (mapO_stored _ (λ e h, h = entry_hit e.1))|].
    + apply Forall_lookup. intros i [e id] Hi. rewrite lookup_zip_with in Hi. apply bind_Some in Hi as (e' & He & (id' & Hid & [= -> ->])%bind_Some).
      assert (Some (term_at c e.1.2) = Some id) as [= <-].
      { rewrite <- Hid. rewrite <- (Nat2N.id i). symmetry. apply (Hset e.1.2 (N.of_nat i)). apply (list_elem_of_lookup_2 _ i). by rewrite list_lookup_imap, He. }
      unfold tie_hit. destruct e as [[s o] d]. cbn [fst snd]. eapply stored_bind; [apply stored_ok_or|]. intros term Et.
      destruct (utf8_valid term); [|apply native_is_failure]. unfold entry_hit. cbn [stored fst snd]. by rewrite Et.
    + intros hits Hhits. cbn [stored fst snd]. split; [done|]. split; [done|].
      assert (hits = entry_hit <$> top) as ->; [|eapply Best_fmap; [apply entries_ranked|done]].
      apply (Forall2_map (λ e : _ * option bytes, entry_hit e.1)) in Hhits as ->. rewrite <- (fst_zip top ids) at 2 by (unfold lenN in Hlen; lia).
      by rewrite <- list_fmap_compose.
Qed.
End Docs.
End Segment.
