(* ===== verification/Merging.v ===== *)
(** * The ranking of a whole search

    Merging the best of the segments gives the best of all matches: the result of
    a search with the stable collector is a slice of the reference ranking, and
    the traversal collector gives the ranking of what comes after its boundary. *)
From stdpp Require Import sorting.
From S2P Require Import Prelude.
From S2P Require Import Errors.
From S2P Require Import Bytes.
From S2P Require Import Wire.
From S2P Require Import Request.
From S2P Require Import Text.
From S2P Require Import Scores.
From S2P Require Import Deadline.
From S2P Require Import Failures.
From S2P Require Import Collecting.
From S2P Require Import Hits.
From S2P Require Import Ranking.
Local Open Scope N_scope.

(** ** Searching *)
(** A search runs a collector on every segment, in some order, and merges what it
    returns.  [collect_default] is the loop of a collector without one of its
    own; [top_docs_by_score] ranks by score alone. *)
Class Searcher (Seg : Type) := {
  segment_readers : list Seg;
  search_with : ∀ {F G : Type}, (N → Seg → M Clock F) → (list F → M Clock G) → M Clock G;
  collect_default : ∀ {S F : Type}, Collector.t Seg S F → N → Seg → M Clock F;
  top_docs_by_score : N → outcome (list (f32 * DocAddress)) }.

Section Reference.
Context {Seg : Type} `{!Segments Seg} `{!Columns Seg} `{!Searcher Seg}.
(** The live matches of a segment, and its ID column. *)
Definition matches (seg : Seg) : list (N * f32) := match scorer seg with Ok docs => live (alive_bitset seg) docs | _ => [] end.
Definition id_column (seg : Seg) : option StrColumn.t := match str_column seg ID_FIELD_NAME with Ok o => o | _ => None end.
Definition segment_hits (segment_ord : N) (seg : Seg) : list Hit :=
  match id_column seg with Some c => entry_hit c segment_ord <$> omap (entry_for c (λ _ _, true)) (matches seg) | None => [] end.
Definition all_hits : list Hit := concat (imap (λ i, segment_hits (N.of_nat i)) segment_readers).
Definition match_count : N := sum ((λ seg, lenN (matches seg)) <$> segment_readers).

(** The index is well formed: scores are numbers that are not negative, documents
    are numbered below [2^32], dictionaries are sorted and live documents of a
    segment have different IDs. *)
Record segment_ok (seg : Seg) : Prop := {
  scorer_ok : stored (scorer seg) (λ docs, NoDup (fst <$> docs) ∧ Forall (λ d, score_ok d.2) docs ∧ lenN docs < 2 ^ 32);
  column_of_ids : stored (str_column seg ID_FIELD_NAME) (λ o, ∀ c, o = Some c → column_ok c);
  ids_unique c d d' : id_column seg = Some c → d ∈ matches seg → d' ∈ matches seg →
    StrColumn.first c d.1 = StrColumn.first c d'.1 → has_id c d → d = d' }.
Class SearcherLaws : Prop := {
  segments_few : lenN segment_readers < 2 ^ 32;
  segments_ok : Forall segment_ok segment_readers;
  search_with_ok {F G} (collect : N → Seg → M Clock F) (merge : list F → M Clock G) (Q : N → Seg → F → Prop) (R : G → Prop) (E : FulltextError → Prop) :
    (∀ e, native_failure e → E e) →
    (∀ i seg, segment_readers !! N.to_nat i = Some seg → Timed (collect i seg) (Q i seg) E) →
    (∀ fruits, Forall2 (λ e f, Q (N.of_nat e.1) e.2 f) (imap pair segment_readers) fruits → Timed (merge fruits) R E) →
    Timed (search_with collect merge) R E;
  collect_default_ok {S F} (inner : Collector.t Seg S F) i seg (Q : F → Prop) : inner.(Collector.requires_scoring) = true →
    stored (docs ← scorer seg; s ← inner.(Collector.for_segment) i seg;
            s ← foldO (λ s d, inner.(Collector.collect) s d.1 d.2) s (live (alive_bitset seg) docs); Ok (inner.(Collector.harvest) s)) Q →
    Timed (collect_default inner i seg) Q native_failure;
  top_docs_ok n : stored (top_docs_by_score n) (λ r,
    let scored := concat (imap (λ i seg, (λ d, (d.2, (N.of_nat i, d.1))) <$> matches seg) segment_readers) in
    Forall (λ seg, ∃ docs, scorer seg = Ok docs) segment_readers
    ∧ Best (λ a b, b.1 <= a.1) n scored r ∧ StronglySorted (λ a b, b.1 <= a.1) r) }.
End Reference.
Arguments SearcherLaws Seg {_ _ _}.

(** ** One segment *)
Section Segment.
Context {Seg : Type} `{!Segments Seg} `{!Columns Seg} `{!Dictionaries} `{!DictionariesLaws} `{!TopNComputer} `{!TopNLaws}.
Context (end_ : N) (segment_ord : N) (seg : Seg).
Hypothesis Hseg : segment_ok seg.
(** What the fruit of a segment must be, for the documents that are kept. *)
Definition fruit_right (keep : StrColumn.t → f32 → N → bool) (fruit : outcome (N * list Hit)) : Prop :=
  stored fruit (λ r, ∃ c, id_column seg = Some c ∧ Forall (has_id c) (matches seg) ∧ r.1 = lenN (matches seg)
    ∧ Best ranks_before end_ (entry_hit c segment_ord <$> omap (entry_for c (keep c)) (matches seg)) r.2).

Lemma matches_ok docs : scorer seg = Ok docs → matches seg = live (alive_bitset seg) docs
  ∧ Forall (λ d, score_ok d.2) (matches seg) ∧ lenN (matches seg) < 2 ^ 32 ∧ NoDup (fst <$> matches seg).
Proof using Hseg.
  intros E. pose proof (scorer_ok _ Hseg) as H'. unfold matches. rewrite E in *. destruct H' as (Hnd & Hs & Hl). unfold live.
  split; [done|]. split; [|split].
  - apply Forall_forall. intros d Hd. apply list_elem_of_In, filter_In in Hd as [Hd _]. apply list_elem_of_In in Hd. rewrite Forall_forall in Hs. auto.
  - eapply N.le_lt_trans; [|exact Hl]. clear. unfold lenN. pose proof (List.filter_length_le (λ d : N * f32, is_alive (alive_bitset seg) d.1) docs). lia.
  - clear -Hnd. induction docs as [|d docs IH]; [constructor|]. cbn in Hnd. apply NoDup_cons in Hnd as [Hn Hnd]. cbn [List.filter].
    destruct (is_alive _ _); [|auto]. cbn. apply NoDup_cons. split; [|auto]. intros (d' & E & Hd')%list_elem_of_fmap. apply Hn, list_elem_of_fmap.
    exists d'. split; [done|]. apply list_elem_of_In, filter_In in Hd' as [? _]. by apply list_elem_of_In.
Qed.
Lemma usize_add_small a b : a + b < 2 ^ 64 → usize_add a b = Ok (a + b).
Proof. intros H'. unfold usize_add, checked_add. by rewrite (proj2 (N.leb_le _ _)) by (unfold USIZE_MAX; lia). Qed.
Lemma tie_for_segment_ok : stored (tie_for_segment end_ segment_ord seg) (λ s, ∃ c, id_column seg = Some c ∧ column_ok c ∧
  ∀ keep, s = tie_state end_ c segment_ord keep []).
Proof using Hseg.
  unfold tie_for_segment, id_column. pose proof (column_of_ids _ Hseg) as Hids. destruct (str_column seg ID_FIELD_NAME) as [o|e| |]; [|done..].
  cbn [mbind outcome_bind]. eapply stored_bind; [apply stored_ok_or|]. intros c ->. exists c. split; [done|]. split; [by apply Hids|]. intros keep. done.
Qed.
Lemma tie_collect_step c docs d : lenN docs < 2 ^ 32 →
  tie_collect (tie_state end_ c segment_ord (λ _ _, true) docs) d.1 d.2 = Ok (tie_state end_ c segment_ord (λ _ _, true) (docs ++ [d])).
Proof.
  intros Hl. rewrite tie_state_snoc. unfold tie_collect. cbn [tie_state TieSegment.match_count].
  rewrite usize_add_small by lia. cbn [mbind outcome_bind]. destruct d as [doc score]. cbn [fst snd].
  change (TieSegment.id_column _) with c. by destruct (StrColumn.first c doc).
Qed.
Lemma tie_harvest_right c docs keep : scorer seg = Ok docs → id_column seg = Some c → column_ok c →
  fruit_right (λ _, keep) (tie_harvest (tie_state end_ c segment_ord keep (matches seg))).
Proof using All.
  intros E Ec Hc. destruct (matches_ok docs E) as (_ & Hs & _).
  eapply stored_weaken; [apply tie_harvest_spec; [done..|]|]; [intros d d'; by apply (ids_unique _ Hseg)|].
  intros r (? & ? & ?). by exists c.
Qed.
End Segment.

(** The stable collector under a deadline. *)
Section Stable.
Context {Seg : Type} `{!Segments Seg} `{!Columns Seg} `{!Searcher Seg} (HS : SearcherLaws Seg) `{!Dictionaries} `{!DictionariesLaws} `{!TopNComputer} `{!TopNLaws}.
Context (end_ : N).
Abbreviation everything := (λ (_ : StrColumn.t) (_ : f32) (_ : N), true).
Lemma live_app {B} (alive : option (N → bool)) (a b : list (N * B)) : live alive (a ++ b) = live alive a ++ live alive b.
Proof. apply List.filter_app. Qed.
Lemma tie_loop_step seg docs c segment_ord : segment_ok seg → scorer seg = Ok docs →
  ∀ done d todo s, live (alive_bitset seg) docs = done ++ d :: todo → s = tie_state end_ c segment_ord (λ _ _, true) done →
  ∃ s', tie_collect s d.1 d.2 = Ok s' ∧ s' = tie_state end_ c segment_ord (λ _ _, true) (done ++ [d]).
Proof.
  intros Hseg E done d todo s El ->. eexists. split; [|done]. apply tie_collect_step. destruct (matches_ok _ Hseg docs E) as (Em & _ & Hl & _).
  rewrite Em, El, lenN_app in Hl. lia.
Qed.
Lemma stable_segment_ok i seg : segment_ok seg →
  Timed (collect_segment (StableScoreTieCollector end_) (collect_default (StableScoreTieCollector end_)) [] i seg)
    (fruit_right end_ i seg everything) native_failure.
Proof using All.
  intros Hseg clock. unfold collect_segment. set (inner := StableScoreTieCollector end_).
  destruct (bool_decide (clock = None) && bool_decide ([] = [])).
  - apply (collect_default_ok inner); [done|].
    eapply stored_bind; [apply stored_eq, (scorer_ok _ Hseg)|]. intros docs [E _].
    eapply stored_bind; [apply (tie_for_segment_ok end_ i seg Hseg)|]. intros s (c & Ec & Hc & Es). specialize (Es (λ _ _, true)).
    destruct (foldO_inv (λ s d, inner.(Collector.collect) s d.1 d.2) (λ done s, s = tie_state end_ c i (λ _ _, true) done)
      (live (alive_bitset seg) docs) s) as (s' & -> & ->); [done|intros; by eapply tie_loop_step|].
    destruct (matches_ok _ Hseg docs E) as (<- & _). by apply (tie_harvest_right _ _ _ Hseg c docs).
  - eapply Timed_bind; [apply Timed_check|]. intros _ _. unfold for_segment.
    eapply Timed_bind; [eapply Timed_bind; [apply Timed_check|]; intros _ _; apply Timed_stored, (tie_for_segment_ok end_ i seg Hseg)|].
    intros s (c & Ec & Hc & Es). specialize (Es (λ _ _, true)). cbn [all_columns foldO].
    eapply Timed_bind; [by apply (Timed_lift _ (λ h, h = []))|]. intros ? ->.
    eapply Timed_bind; [apply Timed_stored, stored_eq, (scorer_ok _ Hseg)|]. intros docs [E _]. cbn [Collector.requires_scoring StableScoreTieCollector].
    eapply Timed_bind; [eapply (scoring_loop_spec inner [] (alive_bitset seg) native_failure (λ done s, s = tie_state end_ c i (λ _ _, true) done) docs _ _ docs []);
      [done|done|constructor]|].
    intros s' [-> _]. eapply Timed_bind; [apply Timed_check|]. intros _ _. apply Timed_ret.
    destruct (matches_ok _ Hseg docs E) as (<- & _). by apply (tie_harvest_right _ _ _ Hseg c docs).
  Unshelve. all: try (intros; by eapply tie_loop_step).
  intros (d & _ & Hd)%Exists_exists. done.
Qed.
End Stable.

(** The traversal collector. *)
Section Traversal.
Context {Seg : Type} `{!Segments Seg} `{!Columns Seg} `{!Dictionaries} `{!DictionariesLaws} `{!TopNComputer} `{!TopNLaws}.
Context (end_ : N) (after : option SearchBoundary.t).
(** What comes after the boundary. *)
Definition comes_after (h : Hit) : Prop :=
  match after with
  | Some boundary => f32_total_cmp h.1.1 boundary.(SearchBoundary.score) = Lt
      ∨ f32_total_cmp h.1.1 boundary.(SearchBoundary.score) = Eq ∧ bytes_lt boundary.(SearchBoundary.id) h.1.2
  | None => True
  end.
#[export] Instance comes_after_dec h : Decision (comes_after h).
Proof. unfold comes_after. destruct after; apply _. Defined.
(** The boundary of a segment: the ordinal of the first ID after it. *)
Definition boundary_right (c : StrColumn.t) (bound : option (f32 * option N)) : Prop :=
  match after, bound with
  | None, None => True
  | Some b, Some (score, first) => score = b.(SearchBoundary.score)
      ∧ ∀ o t, term_at c o = Some t → bytes_lt b.(SearchBoundary.id) t ↔ ∃ f, first = Some f ∧ f <= o
  | _, _ => False
  end.
Definition unseen (bound : option (f32 * option N)) (score : f32) (o : N) : bool := negb (already_seen bound score o).
Lemma unseen_iff c bound score o t segment_ord doc : boundary_right c bound → term_at c o = Some t →
  unseen bound score o = true ↔ comes_after ((score, t), (segment_ord, doc)).
Proof.
  unfold boundary_right, unseen, already_seen, comes_after. destruct after as [b|], bound as [[bs first]|]; try done. intros [-> Hb] Ht. cbn [fst snd].
  rewrite negb_true_iff. specialize (Hb o t Ht). destruct (f32_total_cmp score _); [|naive_solver|naive_solver].
  transitivity (∃ f, first = Some f ∧ f <= o).
  - destruct first as [f|]; [|naive_solver]. rewrite N.ltb_ge. naive_solver.
  - rewrite <- Hb. naive_solver.
Qed.
Lemma omap_entry c keep d (docs : list (N * f32)) : omap (entry_for c keep) (d :: docs) =
  match StrColumn.first c d.1 with
  | Some o => if keep d.2 o then ((d.2, o), d.1) :: omap (entry_for c keep) docs else omap (entry_for c keep) docs
  | None => omap (entry_for c keep) docs
  end.
Proof.
  cbn [omap list_omap]. replace (entry_for c keep d) with (o ← StrColumn.first c d.1; if keep d.2 o then Some ((d.2, o), d.1) else None) by done.
  destruct (StrColumn.first c d.1) as [o|]; [|done]. cbn. by destruct (keep d.2 o).
Qed.
Lemma omap_unseen c bound segment_ord (docs : list (N * f32)) : column_ok c → boundary_right c bound →
  entry_hit c segment_ord <$> omap (entry_for c (unseen bound)) docs
  = filter comes_after (entry_hit c segment_ord <$> omap (entry_for c (λ _ _, true)) docs).
Proof.
  intros Hc Hb. induction docs as [|d docs IH]; [done|]. rewrite !omap_entry.
  destruct (StrColumn.first c d.1) as [o|] eqn:Eo; [|exact IH].
  destruct (first_within c Hc _ _ Eo) as [_ [t Ht]].
  pose proof (unseen_iff c bound d.2 o t segment_ord d.1 Hb Ht) as Hiff. rewrite fmap_cons. rewrite filter_cons.
  assert (entry_hit c segment_ord ((d.2, o), d.1) = ((d.2, t), (segment_ord, d.1))) as Eh by (unfold entry_hit; cbn [fst snd]; by rewrite Ht).
  rewrite <- Eh in Hiff. destruct (unseen bound d.2 o) eqn:Eu.
  - rewrite decide_True by (by apply Hiff). rewrite fmap_cons. by f_equal.
  - rewrite decide_False by (intros Hca; by apply Hiff in Hca). exact IH.
Qed.
Definition traversal_fruit_right (i : N) (seg : Seg) (fruit : outcome (N * list Hit)) : Prop :=
  stored fruit (λ r, ∃ c, id_column seg = Some c ∧ Forall (has_id c) (matches seg) ∧ r.1 = lenN (matches seg)
    ∧ Best ranks_before end_ (filter comes_after (segment_hits i seg)) r.2).
Lemma traversal_collect_step c bound docs d i : lenN docs < 2 ^ 32 →
  traversal_collect (tie_state end_ c i (unseen bound) docs, bound) d.1 d.2 = Ok (tie_state end_ c i (unseen bound) (docs ++ [d]), bound).
Proof.
  intros Hl. rewrite tie_state_snoc. unfold traversal_collect. cbn [tie_state TieSegment.match_count].
  rewrite usize_add_small by lia. cbn [mbind outcome_bind]. destruct d as [doc score]. cbn [fst snd].
  change (TieSegment.id_column _) with c. destruct (StrColumn.first c doc) as [o|]; [|done]. unfold unseen. by destruct (already_seen bound score o).
Qed.
Lemma traversal_for_segment_ok i seg : segment_ok seg → stored (traversal_for_segment end_ after i seg) (λ s, ∃ c bound,
  id_column seg = Some c ∧ column_ok c ∧ boundary_right c bound ∧ s = (tie_state end_ c i (unseen bound) [], bound)).
Proof using All.
  intros Hseg. unfold traversal_for_segment. eapply stored_bind; [apply (tie_for_segment_ok end_ i seg Hseg)|].
  intros s (c & Ec & Hc & Es). rewrite (Es (λ _ _, true)). cbn [tie_state TieSegment.id_column].
  eapply (stored_bind _ _ (λ bound, boundary_right c bound)).
  - unfold boundary_right. destruct after as [b|]; [|done]. eapply stored_bind; [apply term_after_ok, (terms_sorted _ Hc)|].
    intros first Hf. cbn. split; [done|]. exact Hf.
  - intros bound Hb. cbn [stored]. exists c, bound. split_and!; [done..|]. by rewrite <- (Es (unseen bound)), (Es (λ _ _, true)).
Qed.
Lemma traversal_segment_ok i seg : segment_ok seg → Timed (traversal_collect_segment end_ after i seg) (traversal_fruit_right i seg) native_failure.
Proof using All.
  intros Hseg. unfold traversal_collect_segment. set (inner := TraversalScoreTieCollector end_ after).
  eapply Timed_bind; [apply Timed_stored, (traversal_for_segment_ok i seg Hseg)|]. intros s (c & bound & Ec & Hc & Hb & ->).
  eapply Timed_bind; [apply Timed_stored, stored_eq, (scorer_ok _ Hseg)|]. intros docs [E _].
  destruct (matches_ok _ Hseg docs E) as (Em & _ & Hl & _).
  eapply Timed_bind; [apply (scoring_loop_spec inner [] (alive_bitset seg) native_failure (λ done s, s = (tie_state end_ c i (unseen bound) done, bound)) docs) with (seen := []);
    [|by intros (d & _ & Hd)%Exists_exists|done|done|constructor]|].
  - intros done d todo s El ->. eexists. split; [apply traversal_collect_step|done]. rewrite Em, El, lenN_app in Hl. lia.
  - intros s' [-> _]. apply Timed_ret. rewrite <- Em. cbn [Collector.harvest inner TraversalScoreTieCollector fst].
    pose proof (tie_harvest_right end_ i seg Hseg c docs (unseen bound) E Ec Hc) as Hr.
    eapply stored_weaken; [exact Hr|]. intros r (c' & Ec' & Hids & Hn & Hbest). rewrite Ec in Ec'. injection Ec' as <-.
    exists c. split_and!; [done..|]. unfold segment_hits. rewrite Ec. by rewrite <- (omap_unseen c bound i _ Hc Hb).
Qed.
End Traversal.

(** ** All segments *)
Section Merge.
Context {Seg : Type} `{!Segments Seg} `{!Columns Seg} `{!Searcher Seg} (HS : SearcherLaws Seg) `{!TopNComputer} `{!TopNLaws}.
Lemma segment_lookup_ok i seg : segment_readers !! i = Some seg → segment_ok seg.
Proof using HS. intros Hi. pose proof (@segments_ok _ _ _ _ HS) as Hf. by eapply (Forall_lookup_1 _ _ _ _ Hf). Qed.
Lemma matches_stored seg : segment_ok seg → Forall (λ d, score_ok d.2) (matches seg) ∧ lenN (matches seg) < 2 ^ 32 ∧ NoDup (fst <$> matches seg).
Proof.
  intros Hseg. destruct (scorer seg) as [docs|e| |] eqn:E; [by apply (matches_ok seg Hseg docs E)|..];
    (unfold matches; rewrite E; split_and!; [constructor|done|constructor]).
Qed.
Lemma segment_hits_elem i seg h : segment_ok seg → h ∈ segment_hits i seg → score_ok h.1.1 ∧ h.2.1 = i ∧ h.2.2 ∈ (fst <$> matches seg).
Proof.
  intros Hseg Hh. unfold segment_hits in Hh. destruct (id_column seg) as [c|]; [|by apply not_elem_of_nil in Hh].
  apply list_elem_of_fmap in Hh as (e & -> & (d & o & Hd & -> & _)%entry_elem). cbn. destruct (matches_stored seg Hseg) as (Hs & _).
  rewrite Forall_forall in Hs. split_and!; [by apply Hs|done|]. apply list_elem_of_fmap. by exists d.
Qed.
Lemma segment_hits_distinct i seg : segment_ok seg → NoDup (segment_hits i seg).
Proof.
  intros Hseg. unfold segment_hits. destruct (id_column seg) as [c|]; [|constructor]. destruct (matches_stored seg Hseg) as (_ & _ & Hnd).
  induction (matches seg) as [|d docs IH]; [constructor|]. cbn in Hnd. apply NoDup_cons in Hnd as [Hn Hnd]. rewrite omap_entry.
  destruct (StrColumn.first c d.1) as [o|]; [|auto]. rewrite fmap_cons. apply NoDup_cons. split; [|auto].
  intros (e & E & (d' & o' & Hd' & -> & _)%entry_elem)%list_elem_of_fmap. unfold entry_hit in E. injection E as _ _ Ed.
  apply Hn, list_elem_of_fmap. by exists d'.
Qed.
Lemma all_hits_distinct : NoDup all_hits.
Proof using HS.
  unfold all_hits. assert (∀ (l : list Seg) k, Forall segment_ok l → NoDup (concat (imap (λ i, segment_hits (N.of_nat (k + i))) l))) as Hl.
  { intros l. induction l as [|seg l IH]; intros k Hok; [constructor|]. apply Forall_cons in Hok as [Hseg Hok]. cbn [imap concat].
    apply NoDup_app. split; [by apply segment_hits_distinct|]. split.
    - intros h Hh Hh'. destruct (segment_hits_elem _ _ _ Hseg Hh) as (_ & E & _).
      apply list_elem_of_In, in_concat in Hh' as (hits & Hin & Hh'). apply list_elem_of_In in Hin, Hh'. apply list_elem_of_lookup in Hin as (j & Hj).
      rewrite list_lookup_imap in Hj. apply fmap_Some in Hj as (seg' & Hseg' & ->).
      destruct (segment_hits_elem _ _ _ (Forall_lookup_1 _ _ _ _ Hok Hseg') Hh') as (_ & E' & _). unfold compose in E'. lia.
    - erewrite imap_ext; [apply (IH (S k) Hok)|]. intros i x _. unfold compose. by replace (k + S i)%nat with (S k + i)%nat by lia. }
  apply (Hl _ 0%nat), (@segments_ok _ _ _ _ HS).
Qed.
Lemma all_hits_scores : Forall (λ h : Hit, score_ok h.1.1) all_hits.
Proof using HS.
  apply Forall_forall. intros h Hh. apply list_elem_of_In, in_concat in Hh as (hits & Hin & Hh). apply list_elem_of_In in Hin, Hh.
  apply list_elem_of_lookup in Hin as (j & Hj). rewrite list_lookup_imap in Hj. apply fmap_Some in Hj as (seg & Hseg & ->).
  by destruct (segment_hits_elem _ _ _ (segment_lookup_ok _ _ Hseg) Hh).
Qed.

Context (P : Hit → Prop) `{!∀ h, Decision (P h)} (start end_ : N).
Definition contributes (i : N) (seg : Seg) (fruit : outcome (N * list Hit)) : Prop :=
  stored fruit (λ r, (∃ c, id_column seg = Some c ∧ Forall (has_id c) (matches seg)) ∧ r.1 = lenN (matches seg)
    ∧ Best ranks_before end_ (filter P (segment_hits i seg)) r.2).
Definition with_address (h : Hit) : Hit * DocAddress := (h, h.2).

Lemma merge_fold fruits : ∀ k readers top count, Forall2 (λ e f, contributes (N.of_nat e.1) e.2 f) (imap (λ i, pair (k + i)%nat) readers) fruits →
  Forall segment_ok readers → count + 2 ^ 32 * lenN readers < 2 ^ 64 →
  stored (foldO merge_fruit (top, count) fruits) (λ r, ∃ ts,
    Forall2 (Best ranks_before end_) (imap (λ i seg, filter P (segment_hits (N.of_nat (k + i)) seg)) readers) ts
    ∧ Forall (λ seg, ∃ c, id_column seg = Some c ∧ Forall (has_id c) (matches seg)) readers
    ∧ r = (top ++ (with_address <$> concat ts), count + sum ((λ seg, lenN (matches seg)) <$> readers))).
Proof.
  induction fruits as [|fruit fruits IH]; intros k readers top count Hf Hok Hcount; cbn [foldO].
  { apply Forall2_nil_inv_r in Hf. destruct readers; [|done]. exists []. split_and!; [constructor..|]. cbn. by rewrite app_nil_r, N.add_0_r. }
  destruct readers as [|seg readers]; [by apply Forall2_length in Hf|]. cbn [imap] in Hf. apply Forall2_cons in Hf as [Hfruit Hf]. cbn [fst snd] in Hfruit.
  apply Forall_cons in Hok as [Hseg Hok]. rewrite lenN_cons in Hcount. destruct (matches_stored seg Hseg) as (_ & Hl & _).
  unfold merge_fruit at 1. eapply (stored_bind _ _ (λ acc, ∃ hits, Best ranks_before end_ (filter P (segment_hits (N.of_nat (k + 0)) seg)) hits
    ∧ (∃ c, id_column seg = Some c ∧ Forall (has_id c) (matches seg))
    ∧ acc = (top ++ (with_address <$> hits), count + lenN (matches seg)))).
  - eapply stored_bind; [exact Hfruit|]. intros [n hits] (Hid & En & Hbest). cbn [fst snd] in *. subst n.
    rewrite usize_add_small by lia. cbn [mbind outcome_bind stored]. by exists hits.
  - intros acc (hits & Hbest & Hid & ->). eapply stored_weaken; [apply (IH (S k) readers); [|done|lia]|].
    + erewrite imap_ext; [exact Hf|]. intros i x _. unfold compose. by replace (k + S i)%nat with (S k + i)%nat by lia.
    + intros r (ts & Hts & Hids & ->). exists (hits :: ts). cbn [imap]. split_and!.
      * constructor; [done|]. erewrite imap_ext; [exact Hts|]. intros i x _. unfold compose. by replace (k + S i)%nat with (S k + i)%nat by lia.
      * by constructor.
      * cbn [concat]. rewrite fmap_app, fmap_cons, sum_cons, app_assoc, N.add_assoc. done.
Qed.
Definition hits_page (r : N * N * list Hit) : Prop :=
  r = (N.min end_ (lenN (filter P all_hits)), match_count, drop (N.to_nat start) (take (N.to_nat end_) (ranking (filter P all_hits)))).
Definition ids_known : Prop := Forall (λ seg, ∃ c, id_column seg = Some c ∧ Forall (has_id c) (matches seg)) segment_readers.
Lemma tie_merge_spec fruits : Forall2 (λ e f, contributes (N.of_nat e.1) e.2 f) (imap pair segment_readers) fruits →
  stored (tie_merge_fruits start end_ fruits) (λ r, ids_known ∧ hits_page r).
Proof using All.
  intros Hf. unfold tie_merge_fruits. pose proof (@segments_few _ _ _ _ HS) as Hfew.
  eapply stored_bind; [apply (merge_fold fruits 0 segment_readers [] 0); [exact Hf|apply (@segments_ok _ _ _ _ HS)|lia]|].
  intros r (ts & Hts & Hids & ->). cbn [app]. rewrite N.add_0_l. cbn [stored].
  set (sv := into_sorted_vec hit_compare end_ (with_address <$> concat ts)).
  assert (concat (imap (λ i seg, filter P (segment_hits (N.of_nat i) seg)) segment_readers) = filter P all_hits) as Eall.
  { unfold all_hits. by rewrite filter_concat, fmap_imap. }
  assert (∀ h, h ∈ concat ts → h ∈ filter P all_hits) as Hsub.
  { intros h (t & Ht & Hh)%list_elem_of_In%in_concat. apply list_elem_of_In in Ht, Hh. rewrite <- Eall. apply list_elem_of_lookup in Ht as (i & Hi).
    destruct (Forall2_lookup_r _ _ _ _ _ Hts Hi) as (l & Hl & Hb). apply list_elem_of_In, in_concat. exists l. split; apply list_elem_of_In;
      [by eapply list_elem_of_lookup_2|by eapply Best_elem]. }
  assert (∀ h, h ∈ concat ts → score_ok h.1.1) as Hscore.
  { intros h Hh. pose proof all_hits_scores as Hs. rewrite Forall_forall in Hs. apply Hs. apply Hsub, list_elem_of_filter in Hh. by destruct Hh. }
  assert (consistent hit_compare (fst <$> (with_address <$> concat ts))) as Hcons.
  { rewrite <- list_fmap_compose. rewrite (list_fmap_ext _ id) by done. rewrite list_fmap_id. apply hit_consistent, Forall_forall. exact Hscore. }
  pose proof (into_sorted_vec_best hit_compare end_ _ Hcons) as Hb. fold sv in Hb.
  pose proof (into_sorted_vec_sorted hit_compare end_ _ Hcons) as Hsorted. fold sv in Hsorted.
  assert (∀ x, x ∈ sv → x.2 = x.1.2 ∧ score_ok x.1.1.1) as Hx.
  { intros x Hx. eapply Best_elem, list_elem_of_fmap in Hx as (h & -> & Hh); [|exact Hb]. split; [done|]. by apply Hscore. }
  assert (Best ranks_before end_ (concat ts) (fst <$> sv)) as Hbest.
  { replace (concat ts) with (fst <$> (with_address <$> concat ts)).
    - eapply Best_fmap; [|exact Hb]. intros x y (h & -> & Hh)%list_elem_of_fmap (h' & -> & Hh')%list_elem_of_fmap. cbn. intros Hle.
      apply hit_compare_ranks; [by apply Hscore..|exact Hle].
    - rewrite <- list_fmap_compose. rewrite (list_fmap_ext _ id) by done. by rewrite list_fmap_id. }
  apply (Best_concat ranks_before end_ (imap (λ i seg, filter P (segment_hits (N.of_nat i) seg)) segment_readers) ts) in Hbest;
    [|rewrite Eall; apply NoDup_filter, all_hits_distinct|exact Hts]. rewrite Eall in Hbest.
  assert (StronglySorted ranks_before (fst <$> sv)) as Hss.
  { clear -Hsorted Hx. induction Hsorted as [|x l Hl IH Ha]; [constructor|]. cbn. constructor; [apply IH; intros y Hy; apply Hx; by right|].
    apply Forall_fmap, Forall_forall. intros y Hy. rewrite Forall_forall in Ha. apply hit_compare_ranks; [apply Hx; by left|apply Hx; by right|by apply Ha]. }
  assert (fst <$> sv = take (N.to_nat end_) (ranking (filter P all_hits))) as Esv.
  { unfold ranking. rewrite <- (Best_sorted ranks_before end_ _ _ Hbest). symmetry.
    apply (StronglySorted_unique ranks_before); [exact (StronglySorted_merge_sort ranks_before _)|exact Hss|apply merge_sort_Permutation]. }
  split; [done|]. unfold hits_page. rewrite <- Esv. pose proof (Best_length _ _ _ _ Hbest) as El. rewrite lenN_fmap in El. rewrite <- El. f_equal.
  rewrite <- fmap_drop. apply list_fmap_ext. intros i x Hi. destruct (Hx x) as [E _].
  { apply (list_elem_of_lookup_2 _ (N.to_nat start + i)). by rewrite <- lookup_drop. }
  destruct x as [[key address] address']. cbn [fst snd] in *. by subst.
Qed.
End Merge.
