(* ===== verification/Searching.v ===== *)
(** * src/src/engine.rs: running a search

    [collect_search] collects the hits of a query with one of four strategies: the
    traversal collector, a sorted catalog, the stable collector, or the best
    scores first with a second pass when the page ends inside a tie. *)
From stdpp Require Import sorting.
From S2P Require Import Prelude.
From S2P Require Import Errors.
From S2P Require Import Bytes.
From S2P Require Import Wire.
From S2P Require Import Request.
From S2P Require Import Admission.
From S2P Require Import Results.
From S2P Require Import Aggregation.
From S2P Require Import Text.
From S2P Require Import Response.
From S2P Require Import Scores.
From S2P Require Import Deadline.
From S2P Require Import Failures.
From S2P Require Import Collecting.
From S2P Require Import Hits.
From S2P Require Import Ranking.
From S2P Require Import Merging.
From S2P Require Import Page.
Local Open Scope N_scope.

Section Hits.
Context {Seg : Type} `{!Segments Seg} `{!Columns Seg} `{!Searcher Seg} `{!Dictionaries}.

(** ** IDs and versions *)
(** The [HashMap] from segments to the hits in them, with their positions. *)
Definition add_hit (m : gmap N (list (N * N))) (entry : nat * DocAddress) : gmap N (list (N * N)) :=
  let '(index, (segment_ord, doc_id)) := entry in
  <[segment_ord := default [] (m !! segment_ord) ++ [(N.of_nat index, doc_id)]]> m.
Definition hits_by_segment (addresses : list DocAddress) : gmap N (list (N * N)) := foldl add_hit ∅ (enumerate addresses).
Definition from_utf8 (value : bytes) (message : string) : outcome bytes := if utf8_valid value then Ok value else Err (native message).
(** The ordinals of the documents that have a value, with their positions. *)
Definition known_ordinals (column : StrColumn.t) (segment_hits : list (N * N)) : list (N * N) :=
  omap (λ e : nat * (N * N), o ← StrColumn.first column e.2.2; Some (o, N.of_nat e.1)) (enumerate segment_hits).
Definition store_version (versions : list (option bytes)) (entry : (N * N) * option bytes) : outcome (list (option bytes)) :=
  match entry.2 with
  | None => Ok versions
  | Some value => value ← from_utf8 value "search hit version is not UTF-8"; vec_set versions entry.1.1 (Some value)
  end.
Definition segment_versions (versions : list (option bytes)) (group : N * list (N * N)) : outcome (list (option bytes)) :=
  let '(segment_ord, segment_hits) := group in
  segment ← unwrap (segment_readers !! N.to_nat segment_ord);
  column ← str_column segment VERSION_FIELD_NAME;
  match column with
  | None => Ok versions
  | Some column =>
      values ← resolve_string_ordinals column (known_ordinals column segment_hits) (lenN segment_hits) "search hit version ordinal is missing";
      foldO store_version versions (zip segment_hits values)
  end.
Definition search_hit_versions (addresses : list DocAddress) : outcome (list (option bytes)) :=
  foldO segment_versions (replicate (length addresses) None) (map_to_list (hits_by_segment addresses)).
Definition search_hits (scored_docs : list Hit) : outcome (list SearchHit.t) :=
  versions ← search_hit_versions (snd <$> scored_docs);
  Ok ((λ e : Hit * option bytes, SearchHit.mk e.1.1.2 e.1.1.1 e.2) <$> zip scored_docs versions).

Definition all_ordinals (column : StrColumn.t) (segment_hits : list (N * N)) : outcome (list (N * N)) :=
  mapO (λ e : nat * (N * N), o ← ok_or (StrColumn.first column e.2.2) (native "search hit has no ID ordinal"); Ok (o, N.of_nat e.1)) (enumerate segment_hits).
Definition store_id (ids : list bytes) (entry : (N * N) * option bytes) : outcome (list bytes) :=
  id ← ok_or entry.2 (native "search hit ID ordinal is missing");
  id ← from_utf8 id "search hit ID is not UTF-8";
  vec_set ids entry.1.1 id.
Definition segment_ids (ids : list bytes) (group : N * list (N * N)) : outcome (list bytes) :=
  let '(segment_ord, segment_hits) := group in
  segment ← unwrap (segment_readers !! N.to_nat segment_ord);
  id_column ← str_column segment ID_FIELD_NAME;
  id_column ← ok_or id_column (native "search segment has no ID fast field");
  id_ordinals ← all_ordinals id_column segment_hits;
  segment_ids ← resolve_string_ordinals id_column id_ordinals (lenN segment_hits) "search hit ID ordinal is missing";
  foldO store_id ids (zip segment_hits segment_ids).
Definition search_hit_ids (scored_docs : list (f32 * DocAddress)) : outcome (list bytes) :=
  foldO segment_ids (replicate (length scored_docs) []) (map_to_list (hits_by_segment (snd <$> scored_docs))).

(** ** Ranking by score, then by ID *)
(** The closure of [sort_unstable_by]. *)
Definition ranked_compare (left right : Hit) : comparison :=
  then_ (then_ (f32_total_cmp right.1.1 left.1.1) (compare_bytes left.1.2 right.1.2)) (compare_address left.2 right.2).
Definition ranked_le (left right : Hit) : Prop := ranked_compare left right ≠ Gt.
#[export] Instance ranked_le_dec : RelDecision ranked_le.
Proof. intros a b. unfold ranked_le. apply _. Defined.
Definition ranked_page (scored_docs : list (f32 * DocAddress)) (ids : list bytes) (offset limit : N) : list Hit :=
  let ranked := (λ e : (f32 * DocAddress) * bytes, ((e.1.1, e.2), e.1.2)) <$> zip scored_docs ids in
  take (N.to_nat limit) (drop (N.to_nat offset) (merge_sort ranked_le ranked)).
End Hits.

(** ** The number of matches *)
(** [Count] counts documents in blocks. *)
Class Counting (Seg : Type) := {
  CountState : Type;
  Count : Collector.t Seg CountState N;
  count_merge : list N → outcome N }.

Section Search.
Context {Seg : Type} `{!Segments Seg} `{!Columns Seg} `{!Searcher Seg} `{!Dictionaries} `{!TopNComputer} `{!Counting Seg}.
Definition count_matches : M Clock N :=
  _ ← check_deadline;
  search_with (λ i seg, collect_segment Count (collect_default Count) [] i seg) (merge_fruits count_merge).
(** A search with [DeadlineCollector::new(StableScoreTieCollector::new(..))]. *)
Definition search_stable (start end_ : N) : M Clock (N * N * list Hit) :=
  search_with (λ i seg, collect_segment (StableScoreTieCollector end_) (collect_default (StableScoreTieCollector end_)) [] i seg)
    (merge_fruits (tie_merge_fruits start end_)).
Definition search_traversal (after : option SearchBoundary.t) (end_ : N) : M Clock (N * N * list Hit) :=
  search_with (λ i seg, traversal_collect_segment end_ after i seg) (λ fruits, lift (tie_merge_fruits 0 end_ fruits)).

Definition result_too_large (message : string) : FulltextError := FulltextError_new "E_RESULT_TOO_LARGE" message.

(** The branch of a traversal. *)
Definition collect_traversal (request : SearchRequest.t) (snapshot : bytes) : M Clock SearchResult.t :=
  '(_, total, scored_docs) ← search_traversal request.(SearchRequest.after) (saturating_add request.(SearchRequest.limit) 1);
  _ ← check_deadline;
  let more := request.(SearchRequest.limit) <? lenN scored_docs in
  let scored_docs := take (N.to_nat request.(SearchRequest.limit)) scored_docs in
  hits ← lift (search_hits scored_docs);
  bytes ← lift (search_response_bytes hits (17 + 4 + lenN snapshot + 1));
  if MAX_SEARCH_RESPONSE_BYTES <? bytes then fail_with (result_too_large "search traversal response exceeds its byte limit") else
  _ ← check_deadline;
  mret (SearchResult.mk [] None total TotalRelation.Exact hits (Some (snapshot, more))).

(** The two ways to the page of a plain search: the hits, the bounded total, and
    the exact total when a collector counted. *)
Definition bounded_total (retained window_end : N) : N * TotalRelation.t :=
  if retained <? saturating_add window_end 1 then (retained, TotalRelation.Exact) else (window_end, TotalRelation.LowerBound).
Definition collect_stable (offset limit window_end : N) : M Clock (list SearchHit.t * (N * TotalRelation.t) * option N) :=
  '(retained, match_count, scored_docs) ← search_stable offset (saturating_add window_end 1);
  _ ← check_deadline;
  hits ← lift (search_hits (take (N.to_nat limit) scored_docs));
  mret (hits, bounded_total retained window_end, Some match_count).
(** [scored_docs.len() > window_end && scored_docs[window_end - 1].0 == scored_docs[window_end].0] *)
Definition boundary_tie (scored_docs : list (f32 * DocAddress)) (window_end : N) : outcome bool :=
  if window_end <? lenN scored_docs then
    previous ← usize_sub window_end 1;
    last ← unwrap (scored_docs !! N.to_nat previous);
    next ← unwrap (scored_docs !! N.to_nat window_end);
    Ok (f32_eq last.1 next.1)
  else Ok false.
Definition collect_by_score (offset limit window_end : N) : M Clock (list SearchHit.t * (N * TotalRelation.t) * option N) :=
  scored_docs ← lift (top_docs_by_score (saturating_add window_end 1));
  _ ← check_deadline;
  tie ← lift (boundary_tie scored_docs window_end);
  '(hits, collected_total) ← (if (tie : bool) then
      '(_, match_count, scored_docs) ← search_stable offset window_end;
      hits ← lift (search_hits scored_docs);
      mret (hits, Some match_count)
    else
      ids ← lift (search_hit_ids scored_docs);
      hits ← lift (search_hits (ranked_page scored_docs ids offset limit));
      mret (hits, None));
  mret (hits, (if lenN scored_docs <=? window_end then (lenN scored_docs, TotalRelation.Exact) else (window_end, TotalRelation.LowerBound)), collected_total).

(** ** The catalog *)
(** What the catalog collects: sorted hits with their total and aggregations, or
    aggregations with or without a count. *)
Record Catalogs := {
  sorted_catalog : N → N → M Clock (list Hit * N * list AggregationResult.t);
  aggregate_count : M Clock (N * list AggregationResult.t);
  aggregate : M Clock (list AggregationResult.t) }.
Definition encode_nonempty (aggregations : list AggregationResult.t) : outcome (option bytes) :=
  if bool_decide (aggregations = []) then Ok None else bytes ← encode_results aggregations; Ok (Some bytes).
Definition encoded_length (encoded : option bytes) : N := match encoded with Some bytes => lenN bytes | None => 4 end.

(** The branch of a sorted search. *)
Definition collect_sorted_search (request : SearchRequest.t) (catalog : option Catalogs) : M Clock SearchResult.t :=
  catalog ← lift (ok_or catalog (native "Validated catalog missing for sorted search"));
  '(scored_docs, total, aggregations) ← sorted_catalog catalog request.(SearchRequest.offset) request.(SearchRequest.limit);
  hits ← lift (search_hits scored_docs);
  encoded_aggregations ← lift (encode_nonempty aggregations);
  bytes ← lift (search_response_bytes hits 13);
  if MAX_SEARCH_RESPONSE_BYTES <? saturating_add bytes (encoded_length encoded_aggregations)
  then fail_with (result_too_large "search response exceeds its byte limit") else
  _ ← check_deadline;
  mret (SearchResult.mk aggregations encoded_aggregations total TotalRelation.Exact hits None).

(** [(aggregation_total, aggregations)] *)
Definition collect_aggregations (exact_total : bool) (catalog : option Catalogs) (collected_total : option N) (relation : TotalRelation.t)
  : M Clock (option N * list AggregationResult.t) :=
  match catalog with
  | Some catalog =>
      if exact_total && bool_decide (collected_total = None) && match relation with TotalRelation.Exact => false | TotalRelation.LowerBound => true end
      then '(total, results) ← aggregate_count catalog; mret (Some total, results)
      else results ← aggregate catalog; mret (None, results)
  | None => mret (None, [])
  end.
(** [(total, total_relation)] *)
Definition final_total (exact_total : bool) (collected_total : option N) (bounded : N * TotalRelation.t) : M Clock (N * TotalRelation.t) :=
  if exact_total then
    match collected_total, bounded.2 with
    | Some total, _ => _ ← check_deadline; mret (total, TotalRelation.Exact)
    | None, TotalRelation.Exact => mret (bounded.1, TotalRelation.Exact)
    | None, TotalRelation.LowerBound => _ ← check_deadline; total ← count_matches; mret (total, TotalRelation.Exact)
    end
  else mret bounded.
Definition collect_plain (request : SearchRequest.t) (catalog : option Catalogs) (query_stable_scores : bool) : M Clock SearchResult.t :=
  window_end ← lift (usize_add request.(SearchRequest.offset) request.(SearchRequest.limit));
  let stable_scores := bool_decide (request.(SearchRequest.candidate_ids) = None) && bool_decide (¬ is_Some request.(SearchRequest.filter)) && query_stable_scores in
  '(hits, bounded, collected_total) ←
    (if stable_scores then collect_stable request.(SearchRequest.offset) request.(SearchRequest.limit) window_end
     else collect_by_score request.(SearchRequest.offset) request.(SearchRequest.limit) window_end);
  '(aggregation_total, aggregations) ← collect_aggregations request.(SearchRequest.exact_total) catalog collected_total bounded.2;
  let collected_total := match collected_total with Some _ => collected_total | None => aggregation_total end in
  '(total, total_relation) ← final_total request.(SearchRequest.exact_total) collected_total bounded;
  _ ← check_deadline;
  encoded_aggregations ← lift (encode_nonempty aggregations);
  bytes ← lift (search_response_bytes hits 13);
  let response_bytes := saturating_add bytes (encoded_length encoded_aggregations) in
  _ ← check_deadline;
  if MAX_SEARCH_RESPONSE_BYTES <? response_bytes
  then fail_with (result_too_large ("search response exceeds " +:+ show MAX_SEARCH_RESPONSE_BYTES +:+ " bytes")) else
  mret (SearchResult.mk aggregations encoded_aggregations total total_relation hits None).
Definition collect_search (request : SearchRequest.t) (catalog : option Catalogs) (snapshot : option bytes) (query_stable_scores : bool)
  : M Clock SearchResult.t :=
  match snapshot with
  | Some snapshot => collect_traversal request snapshot
  | None =>
      if bool_decide (is_Some request.(SearchRequest.sort)) then collect_sorted_search request catalog
      else collect_plain request catalog query_stable_scores
  end.
End Search.
