(* ===== verification/Versions.v ===== *)
(** * IDs and versions of hits

    [search_hit_ids] and [search_hit_versions] group the hits by segment, resolve
    the ordinals of each group in one pass and scatter the terms back: every hit
    gets the ID and the version of its own document. *)
From stdpp Require Import sorting.
From S2P Require Import Prelude.
From S2P Require Import Errors.
From S2P Require Import Bytes.
From S2P Require Import Wire.
From S2P Require Import Text.
From S2P Require Import Response.
From S2P Require Import Deadline.
From S2P Require Import Failures.
From S2P Require Import Collecting.
From S2P Require Import Hits.
From S2P Require Import Ranking.
From S2P Require Import Merging.
From S2P Require Import Page.
From S2P Require Import Searching.
Local Open Scope N_scope.

(** ** Groups *)
(** The hits of a segment with their positions. *)
Definition in_segment (s : N) (entries : list (nat * DocAddress)) : list (N * N) :=
  omap (λ e : nat * DocAddress, if bool_decide (e.2.1 = s) then Some (N.of_nat e.1, e.2.2) else None) entries.
Lemma in_segment_elem s entries i d : (i, d) ∈ in_segment s entries ↔ ∃ k, i = N.of_nat k ∧ (k, (s, d)) ∈ entries.
Proof.
  unfold in_segment. rewrite list_elem_of_omap. split.
  - intros ([k [s' d']] & Hin & E). cbn in E. case_bool_decide; [|done]. injection E as <- <-. subst. by exists k.
  - intros (k & -> & Hin). exists (k, (s, d)). split; [done|]. cbn. by rewrite bool_decide_true.
Qed.
Lemma add_hits entries : ∀ m done, (∀ s l, m !! s = Some l ↔ l = in_segment s done ∧ l ≠ []) →
  ∀ s l, foldl add_hit m entries !! s = Some l ↔ l = in_segment s (done ++ entries) ∧ l ≠ [].
Proof.
  induction entries as [|[k [s' d]] entries IH]; intros m done Hm s l; [by rewrite app_nil_r|]. cbn [foldl].
  rewrite (cons_middle _ done entries), app_assoc.
  apply (IH (add_hit m (k, (s', d))) (done ++ [(k, (s', d))])). clear s l. intros s l.
  assert (default [] (m !! s') = in_segment s' done) as Ed.
  { destruct (m !! s') as [l'|] eqn:El; [by apply Hm in El as [-> _]|]. cbn. destruct (in_segment s' done) eqn:E; [done|].
    assert (m !! s' = Some (in_segment s' done)) as E' by (apply Hm; by rewrite E). congruence. }
  unfold add_hit. rewrite Ed. unfold in_segment at 2. rewrite omap_app. fold (in_segment s done). cbn [omap list_omap fst snd].
  destruct (decide (s' = s)) as [->|Hn].
  - rewrite lookup_insert_eq, bool_decide_true by done. split; [intros [= <-]; split; [done|by destruct (in_segment s done)]|intros [-> _]; done].
  - rewrite lookup_insert_ne, bool_decide_false, app_nil_r by done. apply Hm.
Qed.
Lemma hits_by_segment_lookup addresses s l : hits_by_segment addresses !! s = Some l ↔ l = in_segment s (enumerate addresses) ∧ l ≠ [].
Proof. apply (add_hits _ ∅ []). intros s' l'. rewrite lookup_empty. split; [done|]. by intros [-> ?]. Qed.
Lemma enumerate_lookup {A} (l : list A) k a : (k, a) ∈ enumerate l ↔ l !! k = Some a.
Proof.
  unfold enumerate. rewrite list_elem_of_lookup. split.
  - intros [i Hi]. rewrite list_lookup_imap in Hi. apply fmap_Some in Hi as (a' & Ha & [= -> ->]). done.
  - intros Ha. exists k. by rewrite list_lookup_imap, Ha.
Qed.
Lemma in_segment_distinct s {addresses : list DocAddress} : NoDup ((λ e, N.to_nat e.1) <$> in_segment s (enumerate addresses)).
Proof.
  unfold enumerate. assert (∀ k, NoDup ((λ e, N.to_nat e.1) <$> in_segment s (imap (λ i, pair (k + i)%nat) addresses))
    ∧ Forall (λ e, (k <= N.to_nat e.1)%nat) (in_segment s (imap (λ i, pair (k + i)%nat) addresses))) as H; [|exact (proj1 (H 0%nat))].
  induction addresses as [|[s' d] l IH]; intros k; [split; constructor|].
  assert (imap ((λ i, pair (k + i)%nat) ∘ S) l = imap (λ i, pair (S k + i)%nat) l) as E.
  { apply imap_ext. intros i x _. unfold compose. by replace (k + S i)%nat with (S k + i)%nat by lia. }
  destruct (IH (S k)) as [Hnd Hle]. cbn [imap]. rewrite E. unfold in_segment in *. cbn [omap list_omap fst snd].
  assert (Forall (λ e : N * N, (k <= N.to_nat e.1)%nat) (omap (λ e : nat * DocAddress, if bool_decide (e.2.1 = s) then Some (N.of_nat e.1, e.2.2) else None)
    (imap (λ i, pair (S k + i)%nat) l))) as Hle'. { eapply Forall_impl; [exact Hle|]. intros e. cbn. lia. }
  case_bool_decide; [|done]. rewrite fmap_cons, NoDup_cons, Forall_cons. split_and!; [|done|cbn; lia|done].
  intros (e & He & Hin)%list_elem_of_fmap. rewrite Forall_forall in Hle. specialize (Hle e Hin). cbn in *. lia.
Qed.

(** ** Scattering values *)
Section Scatter.
Context {V : Type} (init : V).
(** Slots of the hits [l] are still empty; afterwards they hold values related to
    the hits, and the others are as before. *)
Definition scattered (R : N → V → Prop) (l : list (N * N)) (vs vs' : list V) : Prop :=
  length vs' = length vs
  ∧ (∀ i d, (i, d) ∈ l → ∃ v, vs' !! N.to_nat i = Some v ∧ R d v)
  ∧ (∀ i, i ∉ ((λ e : N * N, N.to_nat e.1) <$> l) → vs' !! i = vs !! i).
Lemma vec_set_Ok (vs : list V) i v v' : vs !! N.to_nat i = Some v → vec_set vs i v' = Ok (<[N.to_nat i := v']> vs).
Proof. intros Hi. unfold vec_set. by rewrite (proj2 (N.ltb_lt _ _)) by (apply lookup_lt_Some in Hi; unfold lenN; lia). Qed.
Lemma scatter {W} (f : list V → (N * N) * W → outcome (list V)) (R : N → V → Prop) zs : ∀ vs,
  (∀ e vs, e ∈ zs → vs !! N.to_nat e.1.1 = Some init → stored (f vs e) (λ vs', ∃ v, vs' = <[N.to_nat e.1.1 := v]> vs ∧ R e.1.2 v)) →
  NoDup ((λ e : N * N, N.to_nat e.1) <$> (fst <$> zs)) → Forall (λ e, vs !! N.to_nat e.1.1 = Some init) zs →
  stored (foldO f vs zs) (scattered R (fst <$> zs) vs).
Proof.
  induction zs as [|e zs IH]; intros vs Hf Hnd Hinit; cbn [foldO fmap list_fmap].
  { split_and!; [done|by intros i d ?%not_elem_of_nil|done]. }
  apply NoDup_cons in Hnd as [Hn Hnd]. apply Forall_cons in Hinit as [He Hinit].
  eapply stored_bind; [apply Hf; [by left|done]|]. intros vs1 (v & -> & Hv).
  eapply stored_weaken; [apply IH; [intros e' vs' Hin; apply Hf; by right|done|]|].
  - apply Forall_forall. intros e' Hin. rewrite Forall_forall in Hinit. rewrite list_lookup_insert_ne; [by apply Hinit|].
    intros E. apply Hn, list_elem_of_fmap. exists e'.1. split; [done|]. apply list_elem_of_fmap. by exists e'.
  - intros vs' (Hlen & Hset & Hrest). split_and!.
    + by rewrite Hlen, length_insert.
    + intros i d [[= E]|Hin]%elem_of_cons; [|by apply Hset]. rewrite <- E in Hv. cbn in Hv. exists v. split; [|done].
      rewrite <- E in Hn, He, Hrest. cbn [fst] in *. rewrite Hrest by done. apply list_lookup_insert_eq. by eapply lookup_lt_Some.
    + intros i Hi. apply not_elem_of_cons in Hi as [Hi Hi']. rewrite Hrest by done. by apply list_lookup_insert_ne.
Qed.
Lemma scatter_groups (g : list V → N * list (N * N) → outcome (list V)) (R : DocAddress → V → Prop) addresses :
  (∀ s vs, (∃ d, (s, d) ∈ addresses) → Forall (λ e, vs !! N.to_nat e.1 = Some init) (in_segment s (enumerate addresses)) →
    stored (g vs (s, in_segment s (enumerate addresses))) (scattered (λ d, R (s, d)) (in_segment s (enumerate addresses)) vs)) →
  stored (foldO g (replicate (length addresses) init) (map_to_list (hits_by_segment addresses))) (Forall2 R addresses).
Proof.
  intros Hg. set (groups := map_to_list (hits_by_segment addresses)).
  assert (∀ s l, (s, l) ∈ groups ↔ l = in_segment s (enumerate addresses) ∧ l ≠ []) as Hgroups.
  { intros s l. unfold groups. rewrite elem_of_map_to_list. apply hits_by_segment_lookup. }
  assert (NoDup (groups.*1)) as Hkeys by apply NoDup_fst_map_to_list.
  assert (∀ todo done vs, groups = done ++ todo → length vs = length addresses →
    (∀ i a, addresses !! i = Some a → if decide (a.1 ∈ done.*1) then ∃ v, vs !! i = Some v ∧ R a v else vs !! i = Some init) →
    stored (foldO g vs todo) (Forall2 R addresses)) as Hloop.
  2: { apply (Hloop groups []); [done|by rewrite length_replicate|]. intros i a Ha. rewrite decide_False by (by apply not_elem_of_nil).
    apply lookup_replicate. split; [done|]. by eapply lookup_lt_Some. }
  induction todo as [|[s l] todo IH]; intros done vs Egroups Hlen Hvs; cbn [foldO].
  - rewrite app_nil_r in Egroups. subst done. cbn [stored]. apply Forall2_same_length_lookup. split; [done|]. intros i a v Ha Hv.
    specialize (Hvs i a Ha). rewrite decide_True in Hvs; [destruct Hvs as (v' & Hv' & HR); congruence|].
    destruct a as [s d]. apply list_elem_of_fmap. exists (s, in_segment s (enumerate addresses)). split; [done|]. apply Hgroups. split; [done|].
    intros E. assert ((N.of_nat i, d) ∈ in_segment s (enumerate addresses)) as Hin. { apply in_segment_elem. exists i. split; [done|]. by apply enumerate_lookup. }
    rewrite E in Hin. by apply not_elem_of_nil in Hin.
  - destruct (proj1 (Hgroups s l)) as [-> Hne]; [rewrite Egroups; apply elem_of_app; right; by left|].
    assert (s ∉ done.*1) as Hs.
    { rewrite Egroups, fmap_app in Hkeys. apply NoDup_app in Hkeys as (_ & Hdisj & _). intros Hs. apply (Hdisj s Hs). by left. }
    eapply stored_bind; [apply Hg|].
    + destruct (in_segment s (enumerate addresses)) as [|[i d] l] eqn:E; [done|]. exists d.
      assert ((i, d) ∈ in_segment s (enumerate addresses)) as (k & _ & Hk%enumerate_lookup)%in_segment_elem by (rewrite E; by left).
      by eapply list_elem_of_lookup_2.
    + apply Forall_forall. intros [i d] (k & -> & Hk%enumerate_lookup)%in_segment_elem. cbn. rewrite Nat2N.id. specialize (Hvs k _ Hk).
      by rewrite decide_False in Hvs.
    + intros vs' (Hlen' & Hset & Hrest). apply (IH (done ++ [(s, in_segment s (enumerate addresses))])); [by rewrite <- app_assoc|by rewrite Hlen'|].
      intros i [s' d] Ha. rewrite fmap_app. cbn [fmap list_fmap fst]. destruct (decide (s' = s)) as [->|Hn].
      * rewrite decide_True by (apply elem_of_app; right; by left). rewrite <- (Nat2N.id i). apply Hset, in_segment_elem. exists i. split; [done|]. by apply enumerate_lookup.
      * assert (vs' !! i = vs !! i) as ->.
        { apply Hrest. intros ([i' d'] & -> & (k & -> & Hk%enumerate_lookup)%in_segment_elem)%list_elem_of_fmap. cbn in Ha. rewrite Nat2N.id in Ha. apply Hn. by pose proof (eq_trans (eq_sym Ha) Hk) as [= ->]. }
        specialize (Hvs i _ Ha). cbn [fst] in Hvs. destruct (decide (s' ∈ done.*1)).
        -- rewrite decide_True by (apply elem_of_app; by left). done.
        -- rewrite decide_False; [done|]. intros [?|?%list_elem_of_singleton]%elem_of_app; done.
Qed.
End Scatter.

(** ** Versions and IDs *)
Section Values.
Context {Seg : Type} `{!Segments Seg} `{!Columns Seg} `{!Searcher Seg} (HS : SearcherLaws Seg) `{!Dictionaries} `{!DictionariesLaws}.
Definition versions_ok : Prop := Forall (λ seg, stored (str_column seg VERSION_FIELD_NAME) (λ o, ∀ c, o = Some c → column_ok c)) segment_readers.
Hypothesis Hversions : versions_ok.
Definition value_at (c : StrColumn.t) (doc : N) : option bytes := o ← StrColumn.first c doc; term_at c o.
Definition version_of (address : DocAddress) : option bytes :=
  seg ← segment_readers !! N.to_nat address.1;
  match str_column seg VERSION_FIELD_NAME with Ok (Some c) => value_at c address.2 | _ => None end.
Definition id_of (address : DocAddress) : option bytes :=
  seg ← segment_readers !! N.to_nat address.1; c ← id_column seg; value_at c address.2.
Definition within (addresses : list DocAddress) : Prop := Forall (λ a : DocAddress, a.1 < lenN segment_readers) addresses.

Lemma elem_zip_lookup {A B} (l : list A) (k : list B) e : e ∈ zip l k → ∃ i, l !! i = Some e.1 ∧ k !! i = Some e.2.
Proof.
  intros (i & Hi)%list_elem_of_lookup. exists i. rewrite lookup_zip_with in Hi.
  apply bind_Some in Hi as (a & Ha & (b & Hb & [= <-])%bind_Some). done.
Qed.
Lemma resolved_values c hits ordinals values : column_ok c → NoDup (snd <$> ordinals) →
  Forall (λ e : N * N, e.2 < lenN hits ∧ ∃ h : N * N, hits !! N.to_nat e.2 = Some h ∧ StrColumn.first c h.2 = Some e.1) ordinals →
  (∀ i h o, hits !! N.to_nat i = Some h → StrColumn.first c h.2 = Some o → (o, i) ∈ ordinals) →
  slots_filled c.(StrColumn.dictionary) ordinals (lenN hits) values →
  ∀ i h, hits !! N.to_nat i = Some h → values !! N.to_nat i = Some (value_at c h.2).
Proof.
  intros Hc Hnd Hord Hall (Hlen & Hset & Hrest) i h Hi. unfold value_at.
  destruct (StrColumn.first c h.2) as [o|] eqn:Eo; cbn [mbind option_bind].
  - apply Hset. by eapply Hall.
  - apply Hrest; [apply lookup_lt_Some in Hi; unfold lenN; lia|]. intros ([o j] & -> & Hin)%list_elem_of_fmap. rewrite Forall_forall in Hord.
    destruct (Hord _ Hin) as (_ & h' & Hh' & Ho'). cbn [fst snd] in *. rewrite Hi in Hh'. injection Hh' as <-. congruence.
Qed.
Lemma known_ordinals_elem c (hits : list (N * N)) o i : (o, i) ∈ known_ordinals c hits ↔ ∃ h, hits !! N.to_nat i = Some h ∧ StrColumn.first c h.2 = Some o.
Proof.
  unfold known_ordinals. rewrite list_elem_of_omap. split.
  - intros ([k h] & Hk%enumerate_lookup & E). cbn in E. apply bind_Some in E as (o' & Ho & [= <- <-]). exists h. by rewrite Nat2N.id.
  - intros (h & Hh & Ho). exists (N.to_nat i, h). split; [by apply enumerate_lookup|]. cbn. rewrite Ho. cbn. by rewrite N2Nat.id.
Qed.
Lemma known_ordinals_distinct c (hits : list (N * N)) : NoDup (snd <$> known_ordinals c hits).
Proof.
  unfold known_ordinals, enumerate. assert (∀ k, NoDup (snd <$> omap (λ e : nat * (N * N), o ← StrColumn.first c e.2.2; Some (o, N.of_nat e.1)) (imap (λ i, pair (k + i)%nat) hits))
    ∧ Forall (λ e : N * N, N.of_nat k <= e.2) (omap (λ e : nat * (N * N), o ← StrColumn.first c e.2.2; Some (o, N.of_nat e.1)) (imap (λ i, pair (k + i)%nat) hits))) as Hshift;
    [|exact (proj1 (Hshift 0%nat))].
  induction hits as [|h l IH]; intros k; [split; constructor|].
  assert (imap ((λ i, pair (k + i)%nat) ∘ S) l = imap (λ i, pair (S k + i)%nat) l) as E.
  { apply imap_ext. intros i x _. unfold compose. by replace (k + S i)%nat with (S k + i)%nat by lia. }
  destruct (IH (S k)) as [Hnd Hle]. cbn [imap]. rewrite E. cbn [omap list_omap fst snd].
  assert (Forall (λ e : N * N, N.of_nat k <= e.2) (omap (λ e : nat * (N * N), o ← StrColumn.first c e.2.2; Some (o, N.of_nat e.1)) (imap (λ i, pair (S k + i)%nat) l))) as Hle'.
  { eapply Forall_impl; [exact Hle|]. intros e. cbn. lia. }
  destruct (StrColumn.first c h.2) as [o|]; cbn [mbind option_bind]; [|done].
  rewrite fmap_cons, NoDup_cons, Forall_cons. split_and!; [|done|cbn; lia|done].
  intros (e & He & Hin)%list_elem_of_fmap. rewrite Forall_forall in Hle. specialize (Hle e Hin). cbn in *. lia.
Qed.
Lemma known_ordinals_resolved c hits missing : column_ok c → stored (resolve_string_ordinals c (known_ordinals c hits) (lenN hits) missing)
  (λ values, lenN values = lenN hits ∧ ∀ i h, hits !! i = Some h → values !! i = Some (value_at c h.2)).
Proof using All.
  intros Hc. assert (Forall (λ e : N * N, e.2 < lenN hits ∧ ∃ h : N * N, hits !! N.to_nat e.2 = Some h ∧ StrColumn.first c h.2 = Some e.1) (known_ordinals c hits)) as Hord.
  { apply Forall_forall. intros [o i] (h & Hh & Ho)%known_ordinals_elem. cbn. split; [|by exists h]. apply lookup_lt_Some in Hh. unfold lenN. lia. }
  eapply stored_weaken; [apply resolve_spec; [|apply known_ordinals_distinct]|].
  - eapply Forall_impl; [exact Hord|]. intros e (Hi & h & _ & Ho). split; [|done]. by eapply first_within.
  - intros values Hslots. split; [apply Hslots|]. intros i h Hi. rewrite <- (Nat2N.id i). rewrite <- (Nat2N.id i) in Hi.
    eapply resolved_values; [exact Hc|apply known_ordinals_distinct|exact Hord| |exact Hslots|exact Hi].
    intros j h' o Hh' Ho. apply known_ordinals_elem. by exists h'.
Qed.
(** When every hit has an ordinal, all of them are known. *)
Lemma all_ordinals_known c hits : stored (all_ordinals c hits) (λ ordinals, ordinals = known_ordinals c hits ∧ Forall (λ h : N * N, is_Some (StrColumn.first c h.2)) hits).
Proof.
  unfold all_ordinals, known_ordinals, enumerate.
  assert (∀ k, stored (mapO (λ e : nat * (N * N), o ← ok_or (StrColumn.first c e.2.2) (native "search hit has no ID ordinal"); Ok (o, N.of_nat e.1)) (imap (λ i, pair (k + i)%nat) hits))
    (λ ordinals, ordinals = omap (λ e : nat * (N * N), o ← StrColumn.first c e.2.2; Some (o, N.of_nat e.1)) (imap (λ i, pair (k + i)%nat) hits)
      ∧ Forall (λ h : N * N, is_Some (StrColumn.first c h.2)) hits)) as Hshift; [|exact (Hshift 0%nat)].
  induction hits as [|h l IH]; intros k; [by split|].
  assert (imap ((λ i, pair (k + i)%nat) ∘ S) l = imap (λ i, pair (S k + i)%nat) l) as E.
  { apply imap_ext. intros i x _. unfold compose. by replace (k + S i)%nat with (S k + i)%nat by lia. }
  cbn [imap]. rewrite E. cbn [mapO omap list_omap fst snd].
  destruct (StrColumn.first c h.2) as [o|] eqn:Eo; cbn [ok_or mbind outcome_bind option_bind]; [|apply native_is_failure].
  eapply stored_bind; [apply (IH (S k))|]. intros ordinals [-> Hs]. cbn [stored]. split; [done|]. constructor; [by eexists|done].
Qed.

Lemma zip_scattered {B} (s : N) (addresses : list DocAddress) (values : list B) : lenN values = lenN (in_segment s (enumerate addresses)) →
  fst <$> zip (in_segment s (enumerate addresses)) values = in_segment s (enumerate addresses).
Proof. intros El. apply fst_zip. unfold lenN in El. lia. Qed.

(** Every hit gets the version of its document. *)
Lemma search_hit_versions_spec addresses : within addresses → stored (search_hit_versions addresses) (λ versions, versions = version_of <$> addresses).
Proof using All.
  intros Hwithin. eapply stored_weaken; [apply (scatter_groups None segment_versions (λ a v, v = version_of a))|].
  2: { intros vs Hvs. by apply Forall2_map. }
  intros s vs [d Hd] Hinit. unfold within in Hwithin. rewrite Forall_forall in Hwithin. specialize (Hwithin _ Hd). cbn in Hwithin.
  destruct (lookup_lt_is_Some_2 segment_readers (N.to_nat s)) as [seg Eseg]; [unfold lenN in Hwithin; lia|].
  unfold segment_versions. rewrite Eseg. cbn [unwrap mbind outcome_bind].
  assert (∀ doc, version_of (s, doc) = match str_column seg VERSION_FIELD_NAME with Ok (Some c) => value_at c doc | _ => None end) as Ever.
  { intros doc. unfold version_of. cbn [fst snd]. by rewrite Eseg. }
  pose proof (Forall_lookup_1 _ _ _ _ Hversions Eseg) as Hcol. cbn beta in Hcol.
  destruct (str_column seg VERSION_FIELD_NAME) as [[c|]|e| |]; [| |exact Hcol|done..]; cbn [mbind outcome_bind].
  - eapply stored_bind; [apply (known_ordinals_resolved c _ _ (Hcol c eq_refl))|]. intros values [Hlen Hvalues].
    rewrite <- (zip_scattered s addresses values) at 2 by done.
    apply (scatter None).
    + intros e vs' He Hslot. unfold store_version. apply elem_zip_lookup in He as (i & Hi & Hv). specialize (Hvalues _ _ Hi). rewrite Hv in Hvalues. injection Hvalues as ->.
      destruct (value_at c e.1.2) as [value|] eqn:Ev.
      * eapply (stored_bind _ _ (λ v, v = value)); [unfold from_utf8; destruct (utf8_valid value); [done|apply native_is_failure]|]. intros ? ->.
        rewrite (vec_set_Ok vs' _ None) by done. cbn [stored]. exists (Some value). split; [done|]. by rewrite Ever.
      * cbn [stored]. exists None. split; [|by rewrite Ever]. symmetry. by apply list_insert_id.
    + rewrite zip_scattered by done. apply in_segment_distinct.
    + apply Forall_forall. intros e (i & Hi & _)%elem_zip_lookup. rewrite Forall_forall in Hinit. apply Hinit. by eapply list_elem_of_lookup_2.
  - cbn [stored]. split_and!; [done| |done]. intros i doc Hin. rewrite Forall_forall in Hinit. exists None. split; [by apply (Hinit (i, doc))|by rewrite Ever].
Qed.
(** Every hit gets the ID of its document, or the search fails. *)
Lemma search_hit_ids_spec (scored : list (f32 * DocAddress)) : within (snd <$> scored) →
  stored (search_hit_ids scored) (λ ids, Forall2 (λ e id, id_of e.2 = Some id) scored ids).
Proof using All.
  intros Hwithin. unfold search_hit_ids. rewrite <- (length_fmap snd scored).
  eapply stored_weaken; [apply (scatter_groups [] segment_ids (λ a id, id_of a = Some id))|intros ids Hids; by apply Forall2_fmap_l in Hids].
  intros s vs [d Hd] Hinit. unfold within in Hwithin. rewrite Forall_forall in Hwithin. specialize (Hwithin _ Hd). cbn in Hwithin.
  destruct (lookup_lt_is_Some_2 segment_readers (N.to_nat s)) as [seg Eseg]; [unfold lenN in Hwithin; lia|].
  unfold segment_ids. rewrite Eseg. cbn [unwrap mbind outcome_bind].
  assert (∀ doc, id_of (s, doc) = c ← id_column seg; value_at c doc) as Eid.
  { intros doc. unfold id_of. cbn [fst snd]. by rewrite Eseg. }
  pose proof (column_of_ids _ (segment_lookup_ok HS _ _ Eseg)) as Hcol. unfold id_column in Eid.
  destruct (str_column seg ID_FIELD_NAME) as [o|e| |]; [|exact Hcol|done..]; cbn [mbind outcome_bind].
  eapply stored_bind; [apply stored_ok_or|]. intros c ->. specialize (Hcol c eq_refl).
  eapply stored_bind; [apply all_ordinals_known|]. intros ordinals [-> Hknown].
  eapply stored_bind; [apply (known_ordinals_resolved c _ _ Hcol)|]. intros values [Hlen Hvalues].
  rewrite <- (zip_scattered s (snd <$> scored) values) at 2 by done. apply (scatter []).
  - intros e vs' He Hslot. unfold store_id. apply elem_zip_lookup in He as (i & Hi & Hv). specialize (Hvalues _ _ Hi). rewrite Hv in Hvalues. injection Hvalues as ->.
    eapply stored_bind; [apply stored_ok_or|]. intros value Ev. eapply (stored_bind _ _ (λ v, v = value)).
    { unfold from_utf8. destruct (utf8_valid value); [done|apply native_is_failure]. }
    intros ? ->. rewrite (vec_set_Ok vs' _ []) by done. cbn [stored]. exists value. split; [done|]. by rewrite Eid.
  - rewrite zip_scattered by done. apply in_segment_distinct.
  - apply Forall_forall. intros e (i & Hi & _)%elem_zip_lookup. rewrite Forall_forall in Hinit. apply Hinit. by eapply list_elem_of_lookup_2.
Qed.
End Values.
