(* ===== verification/Searched.v ===== *)
(** * What a search promises

    Whatever the strategy, the deadline and the number of segments, a search
    returns the page of the reference ranking that was asked for, with the totals
    it claims, or fails; pages of a traversal follow each other without gap or
    overlap. *)
From stdpp Require Import sorting.
From S2P Require Import Prelude.
From S2P Require Import Errors.
From S2P Require Import Bytes.
From S2P Require Import Wire.
From S2P Require Import Request.
From S2P Require Import Admission.
From S2P Require Import Results.
From S2P Require Import Response.
From S2P Require Import Text.
From S2P Require Import Deadline.
From S2P Require Import Page.
From S2P Require Import Scores.
From S2P Require Import Failures.
From S2P Require Import Collecting.
From S2P Require Import Hits.
From S2P Require Import Ranking.
From S2P Require Import Merging.
From S2P Require Import Searching.
From S2P Require Import Versions.
Local Open Scope N_scope.

Section Pages.
Context {Seg : Type} `{!Segments Seg} `{!Columns Seg} `{!Searcher Seg} (HS : SearcherLaws Seg) `{!Dictionaries} `{!DictionariesLaws}
  `{!TopNComputer} `{!TopNLaws}.
Hypothesis Hversions : versions_ok.
(** Every live document was added with its ID. *)
Hypothesis Hids : ids_known.

Definition to_search_hit (h : Hit) : SearchHit.t := SearchHit.mk h.1.2 h.1.1 (version_of h.2).
Definition page_of (offset limit : N) : list SearchHit.t := to_search_hit <$> take (N.to_nat limit) (drop (N.to_nat offset) (ranking all_hits)).

(** ** Hits and matches *)
Lemma segment_hits_scored i seg : (∃ c, id_column seg = Some c ∧ Forall (has_id c) (matches seg)) →
  (λ h : Hit, (h.1.1, h.2)) <$> segment_hits i seg = (λ d : N * f32, (d.2, (i, d.1))) <$> matches seg.
Proof.
  intros (c & Ec & Hid). unfold segment_hits. rewrite Ec. induction Hid as [|d docs [o Ho] _ IH]; [done|].
  rewrite omap_entry, Ho, !fmap_cons, IH. done.
Qed.
Definition scored_matches : list (f32 * DocAddress) := concat (imap (λ i seg, (λ d : N * f32, (d.2, (N.of_nat i, d.1))) <$> matches seg) segment_readers).
Lemma all_hits_scored : (λ h : Hit, (h.1.1, h.2)) <$> all_hits = scored_matches.
Proof using Hids.
  unfold all_hits, scored_matches. etrans; [apply concat_map|]. f_equal. etrans; [apply fmap_imap|]. apply imap_ext. intros i seg Hi. unfold compose.
  apply segment_hits_scored. by apply (Forall_lookup_1 _ _ _ _ Hids Hi).
Qed.
Lemma concat_lengths {A B} (l : list A) (f : nat → A → list B) (n : A → N) : (∀ i a, lenN (f i a) = n a) → lenN (concat (imap f l)) = sum (n <$> l).
Proof.
  revert f. induction l as [|a l IH]; intros f Hf; [done|]. cbn [imap concat fmap list_fmap]. rewrite lenN_app, sum_cons, Hf. f_equal.
  apply IH. intros i x. apply Hf.
Qed.
Lemma all_hits_count : lenN all_hits = match_count.
Proof using Hids.
  rewrite <- (lenN_fmap (λ h : Hit, (h.1.1, h.2))), all_hits_scored. apply concat_lengths. intros i seg. by rewrite lenN_fmap.
Qed.
Lemma match_count_bound : match_count < 2 ^ 64.
Proof using HS.
  pose proof (@segments_few _ _ _ _ HS) as Hfew. pose proof (@segments_ok _ _ _ _ HS) as Hok. unfold match_count.
  assert (sum ((λ seg, lenN (matches seg)) <$> segment_readers) <= 2 ^ 32 * lenN segment_readers) as Hle; [|lia].
  clear Hfew. induction Hok as [|seg l Hseg _ IH]; [done|]. rewrite fmap_cons, sum_cons, lenN_cons. destruct (matches_stored seg Hseg) as (_ & ? & _). lia.
Qed.
Lemma all_hits_elem h : h ∈ all_hits → score_ok h.1.1 ∧ h.2.1 < lenN segment_readers ∧ id_of h.2 = Some h.1.2 ∧ lenN h.1.2 <= U32_MAX.
Proof using HS.
  intros (hits & Hin & Hh)%list_elem_of_In%in_concat. apply list_elem_of_In in Hin, Hh. apply list_elem_of_lookup in Hin as (j & Hj).
  rewrite list_lookup_imap in Hj. apply fmap_Some in Hj as (seg & Hseg & ->). pose proof (segment_lookup_ok HS _ _ Hseg) as Hok.
  destruct (segment_hits_elem _ _ _ Hok Hh) as (Hs & E & _). split; [done|]. split; [rewrite E; apply lookup_lt_Some in Hseg; unfold lenN; lia|].
  unfold segment_hits in Hh. destruct (id_column seg) as [c|] eqn:Ec; [|by apply not_elem_of_nil in Hh].
  apply list_elem_of_fmap in Hh as (e & -> & (d & o & Hd & -> & Eo)%entry_elem). unfold entry_hit, id_of. cbn [fst snd].
  rewrite Nat2N.id, Hseg. cbn [mbind option_bind]. rewrite Ec. cbn [mbind option_bind]. unfold value_at. rewrite Eo. cbn [mbind option_bind].
  pose proof (column_of_ids _ Hok) as Hc. unfold id_column in Ec. destruct (str_column seg ID_FIELD_NAME) as [o'| | |]; try done. subst o'.
  specialize (Hc c eq_refl). destruct (first_within c Hc _ _ Eo) as [_ [t Ht]]. rewrite Ht. cbn. split; [done|].
  eapply (Forall_lookup_1 _ _ _ _ (terms_short _ Hc)). exact Ht.
Qed.
Lemma ranking_elem l h : h ∈ ranking l ↔ h ∈ l.
Proof. unfold ranking. by rewrite merge_sort_Permutation. Qed.
Lemma lenN_ranking l : lenN (ranking l) = lenN l.
Proof. unfold lenN, ranking. by rewrite merge_sort_Permutation. Qed.
Lemma slice_elem {A} (l : list A) n m x : x ∈ take n (drop m l) → x ∈ l.
Proof. intros Hx. rewrite <- (take_drop m l), <- (take_drop n (drop m l)). apply elem_of_app. right. apply elem_of_app. by left. Qed.

(** ** The hits of a page *)
Lemma search_hits_spec hits : Forall (λ h, h ∈ all_hits) hits → stored (search_hits hits) (λ r, r = to_search_hit <$> hits).
Proof using All.
  intros Hh. unfold search_hits. eapply stored_bind; [apply (search_hit_versions_spec HS Hversions)|].
  - apply Forall_fmap. eapply Forall_impl; [exact Hh|]. intros h Hin. cbn. by apply all_hits_elem.
  - intros versions ->. cbn [stored]. clear Hh. induction hits as [|h hits IH]; [done|]. cbn [fmap list_fmap zip zip_with]. f_equal. exact IH.
Qed.
Lemma filter_True (hits : list Hit) : filter (λ _, True) hits = hits.
Proof. induction hits as [|h hits IH]; [done|]. rewrite filter_cons_True by done. by rewrite IH. Qed.
Lemma search_stable_spec start end_ : Timed (search_stable start end_)
  (λ r, r = (N.min end_ match_count, match_count, drop (N.to_nat start) (take (N.to_nat end_) (ranking all_hits)))) native_failure.
Proof using All.
  unfold search_stable. apply (search_with_ok _ _ (λ i seg, contributes (λ _, True) end_ i seg)); [done| |].
  - intros i seg Hi. eapply Timed_weaken; [by apply (stable_segment_ok HS), (segment_lookup_ok HS _ _ Hi)| |done].
    intros fruit Hf. eapply stored_weaken; [exact Hf|]. intros r (c & Ec & Hid & En & Hb). split; [by exists c|]. split; [done|].
    rewrite filter_True. unfold segment_hits. by rewrite Ec.
  - intros fruits Hf. unfold merge_fruits. eapply Timed_bind; [apply Timed_check|]. intros _ _.
    eapply Timed_bind; [apply Timed_stored, (tie_merge_spec HS (λ _, True) start end_ fruits Hf)|]. intros r [_ Hr].
    eapply Timed_bind; [apply Timed_check|]. intros _ _. apply Timed_ret. unfold hits_page in Hr. by rewrite filter_True, all_hits_count in Hr.
Qed.

(** ** The page of a plain search *)
(** The total that is known without counting. *)
Definition bounded_total_of (window_end : N) : N * TotalRelation.t :=
  if match_count <=? window_end then (match_count, TotalRelation.Exact) else (window_end, TotalRelation.LowerBound).
Definition page_found (offset limit : N) (r : list SearchHit.t * (N * TotalRelation.t) * option N) : Prop :=
  r.1 = (page_of offset limit, bounded_total_of (offset + limit)) ∧ (∀ total, r.2 = Some total → total = match_count).
Section Window.
Context (offset limit : N).
Hypothesis Hlimit : 0 < limit.
Hypothesis Hwindow : offset + limit <= MAX_SEARCH_WINDOW.
Lemma window_next : saturating_add (offset + limit) 1 = offset + limit + 1.
Proof using Hlimit Hwindow. unfold saturating_add. apply N.min_l. assert (MAX_SEARCH_WINDOW < USIZE_MAX) by by vm_compute. lia. Qed.
Lemma ranking_page n : offset + limit <= n → take (N.to_nat limit) (drop (N.to_nat offset) (take (N.to_nat n) (ranking all_hits)))
  = take (N.to_nat limit) (drop (N.to_nat offset) (ranking all_hits)).
Proof. intros Hn. rewrite !take_drop_commute, take_take. f_equal. f_equal. lia. Qed.
Lemma slice_in_all l : Forall (λ h, h ∈ all_hits) (take (N.to_nat limit) (drop l (ranking all_hits))).
Proof. apply Forall_forall. intros h Hh%slice_elem. by apply ranking_elem. Qed.
Lemma collect_stable_spec : Timed (collect_stable offset limit (offset + limit)) (page_found offset limit) native_failure.
Proof using All.
  unfold collect_stable. eapply Timed_bind; [apply search_stable_spec|]. intros ? ->. rewrite window_next.
  eapply Timed_bind; [apply Timed_check|]. intros _ _. rewrite ranking_page by lia.
  eapply Timed_bind; [apply Timed_stored, search_hits_spec, slice_in_all|]. intros hits ->. apply Timed_ret.
  unfold page_found. cbn [fst snd]. split; [|by intros ? [= <-]]. f_equal. unfold bounded_total, bounded_total_of. rewrite window_next.
  destruct (N.ltb_spec (N.min (offset + limit + 1) match_count) (offset + limit + 1)), (N.leb_spec match_count (offset + limit)); try lia; [|done].
  f_equal. lia.
Qed.

(** *** By score *)
Lemma Permutation_app_fmap {A B} (f : A → B) l t rest : f <$> l ≡ₚ t ++ rest → ∃ t' rest', l ≡ₚ t' ++ rest' ∧ f <$> t' = t ∧ f <$> rest' = rest.
Proof.
  intros E. symmetry in E. apply Permutation_map_inv in E as (l' & E & Hl). symmetry in E. apply fmap_app_inv in E as (t' & rest' & Et & Er & ->).
  exists t', rest'. split; [done|]. split; done.
Qed.
(** The hits of what was ranked by score: all of the best, and no others. *)
Definition by_score (scored : list (f32 * DocAddress)) (hits : list Hit) : Prop :=
  (λ h : Hit, (h.1.1, h.2)) <$> hits = scored ∧ ∃ rest, all_hits ≡ₚ hits ++ rest ∧ (∀ a b, a ∈ hits → b ∈ rest → b.1.1 <= a.1.1).
Lemma ranked_hits scored ids n : Best (λ a b : f32 * DocAddress, b.1 <= a.1) n scored_matches scored → Forall2 (λ e id, id_of e.2 = Some id) scored ids →
  by_score scored ((λ e : (f32 * DocAddress) * bytes, ((e.1.1, e.2), e.1.2)) <$> zip scored ids).
Proof using All.
  intros (rest & E & Hlen & HR) Hid. rewrite <- all_hits_scored in E. apply Permutation_app_fmap in E as (hits & rest' & E & Es & Er).
  assert ((λ e : (f32 * DocAddress) * bytes, ((e.1.1, e.2), e.1.2)) <$> zip scored ids = hits) as ->.
  { subst scored. assert (∀ h, h ∈ hits → id_of h.2 = Some h.1.2) as Hh.
    { intros h Hh. apply all_hits_elem. rewrite E. apply elem_of_app. by left. }
    clear -Hid Hh. revert ids Hid. induction hits as [|[[s i] a] hits IH]; intros ids Hid; [done|]. rewrite fmap_cons in Hid.
    apply Forall2_cons_inv_l in Hid as (id & ids' & Hi & Hrest & ->). cbn [snd] in Hi.
    pose proof (Hh ((s, i), a) ltac:(by left)) as Hi'. cbn [fst snd] in Hi'. rewrite Hi' in Hi. injection Hi as <-.
    cbn [fmap list_fmap zip zip_with fst snd]. f_equal. apply IH; [|done]. intros h ?. apply Hh. by right. }
  split; [done|]. exists rest'. split; [done|]. intros a b Ha Hb. subst scored rest.
  apply (HR (a.1.1, a.2) (b.1.1, b.2)); apply list_elem_of_fmap; eauto.
Qed.
(** Without a tie at its end, the window is the same as that of the ranking. *)
Lemma by_score_window scored hits n : by_score scored hits → StronglySorted (λ a b : f32 * DocAddress, b.1 <= a.1) scored →
  (lenN scored <= n ∧ lenN scored = lenN all_hits
   ∨ ∃ last next, scored !! N.to_nat (n - 1) = Some last ∧ scored !! N.to_nat n = Some next ∧ 0 < n ∧ last.1 ≠ next.1 ∧ lenN scored = n + 1) →
  take (N.to_nat n) (ranking hits) = take (N.to_nat n) (ranking all_hits).
Proof using All.
  intros (Es & rest & E & HR) Hsorted [[Hle Hlen]|(last & next & Hl & Hn & Hpos & Hne & Hlen)].
  - assert (rest = []) as ->.
    { apply lenN_zero. rewrite (lenN_perm _ _ E), lenN_app, <- Es, lenN_fmap in Hlen. lia. }
    rewrite app_nil_r in E. f_equal. unfold ranking. symmetry. exact (merge_sort_perm ranks_before _ _ E).
  - assert (∃ top x, hits = top ++ [x] ∧ lenN top = n ∧ x.1.1 = next.1 ∧ ∀ a, a ∈ top → next.1 < a.1.1) as (top & x & -> & Htop & Hx & Hbetter).
    { assert (length hits = S (N.to_nat n)) as Hlh by (rewrite <- (length_fmap (λ h : Hit, (h.1.1, h.2))), Es; unfold lenN in Hlen; lia).
      destruct (lookup_lt_is_Some_2 hits (N.to_nat n)) as [x Hx]; [lia|]. exists (take (N.to_nat n) hits), x.
      split; [rewrite <- (take_S_r _ _ _ Hx); symmetry; apply take_ge; lia|]. split; [unfold lenN; rewrite length_take; lia|].
      rewrite <- Es in Hl, Hn. rewrite list_lookup_fmap, Hx in Hn. injection Hn as <-. cbn [fst]. split; [done|].
      intros a Ha. rewrite list_lookup_fmap in Hl. apply fmap_Some in Hl as (y & Hy & ->). cbn [fst] in Hne.
      assert (y.1.1 <= a.1.1 ∧ x.1.1 <= y.1.1) as [? ?]; [|lia]. rewrite <- Es in Hsorted.
      apply list_elem_of_lookup in Ha as (j & Hj). apply lookup_take_Some in Hj as [Hj Hjn]. clear -Hsorted Hj Hjn Hy Hx Hpos.
      assert (∀ i k h h', (i <= k)%nat → hits !! i = Some h → hits !! k = Some h' → h'.1.1 <= h.1.1) as Hmono.
      { intros i k h h' Hik Hi Hk. destruct (decide (i = k)) as [->|Hn]; [rewrite Hi in Hk; injection Hk as ->; done|].
        rewrite <- (take_drop k hits), fmap_app in Hsorted.
        apply (StronglySorted_app_1_elem_of _ _ _ (h.1.1, h.2) (h'.1.1, h'.2) Hsorted); apply list_elem_of_fmap.
        - exists h. split; [done|]. apply (list_elem_of_lookup_2 _ i). rewrite lookup_take_lt; [done|lia].
        - exists h'. split; [done|]. apply (list_elem_of_lookup_2 _ 0%nat). by rewrite lookup_drop, Nat.add_0_r. }
      split; [eapply (Hmono j); [|exact Hj|exact Hy]; lia|eapply Hmono; [|exact Hy|exact Hx]; lia]. }
    assert (∀ l, Best ranks_before n (top ++ l) top ∨ ¬ (∀ b, b ∈ l → b.1.1 <= next.1)) as Hbest.
    { intros l. destruct (decide (Forall (λ b : Hit, b.1.1 <= next.1) l)) as [Hf|Hn']; [left|right; by rewrite <- Forall_forall].
      exists l. split; [done|]. split; [rewrite lenN_app; lia|]. intros a b Ha Hb. rewrite Forall_forall in Hf. specialize (Hbetter a Ha). specialize (Hf b Hb).
      left. by eapply N.le_lt_trans. }
    assert (Best ranks_before n (top ++ [x]) top) as Hb1.
    { destruct (Hbest [x]) as [?|Hn']; [done|]. exfalso. apply Hn'. intros b ->%list_elem_of_singleton. by apply N.eq_le_incl. }
    assert (Best ranks_before n all_hits top) as Hb2.
    { eapply Best_perm; [symmetry; exact E|]. rewrite <- app_assoc. destruct (Hbest ([x] ++ rest)) as [?|Hn']; [done|]. exfalso. apply Hn'.
      intros b [->%list_elem_of_singleton|Hb]%elem_of_app; [by apply N.eq_le_incl|]. etrans; [|by apply N.eq_le_incl]. apply HR; [|done]. apply elem_of_app. right. by left. }
    unfold ranking. by rewrite <- (Best_sorted ranks_before n _ _ Hb1), <- (Best_sorted ranks_before n _ _ Hb2).
Qed.
(** The closure of the sort is the order of the ranking. *)
Lemma ranked_compare_le (a b : Hit) : score_ok a.1.1 → score_ok b.1.1 → ranked_le a b ↔ ranks_before a b.
Proof.
  intros Ha Hb. rewrite <- hit_compare_ranks by done. unfold ranked_le, ranked_compare, hit_compare.
  rewrite f32_total_cmp_score, compare_scores_ok by done. rewrite (N.compare_antisym a.1.1 b.1.1).
  by destruct (a.1.1 ?= b.1.1), (compare_bytes a.1.2 b.1.2), (compare_address a.2 b.2).
Qed.
Lemma merge_sort_agree {A} (R R' : relation A) `{!RelDecision R, !RelDecision R', !Transitive R, !Total R, !Transitive R', !Total R', !AntiSymm (=) R} l :
  (∀ a b, a ∈ l → b ∈ l → R' a b → R a b) → merge_sort R' l = merge_sort R l.
Proof.
  intros Hag. apply (StronglySorted_unique R); [|exact (StronglySorted_merge_sort R l)|by rewrite !merge_sort_Permutation].
  assert (∀ k, (∀ a, a ∈ k → a ∈ l) → StronglySorted R' k → StronglySorted R k) as Hk.
  { intros k. induction k as [|a k IH]; intros Hin Hs; [constructor|]. apply StronglySorted_inv in Hs as [Hs Ha]. constructor; [apply IH; [|done]; intros; apply Hin; by right|].
    apply Forall_forall. intros b Hb. rewrite Forall_forall in Ha. apply Hag; [apply Hin; by left|apply Hin; by right|by apply Ha]. }
  apply Hk; [|exact (StronglySorted_merge_sort R' l)]. intros a. by rewrite merge_sort_Permutation.
Qed.
Lemma compare_ids (a b : Hit) : then_ (compare_bytes a.1.2 b.1.2) (compare_address a.2 b.2) ≠ Gt ↔ bytes_lt a.1.2 b.1.2 ∨ a.1.2 = b.1.2 ∧ address_le a.2 b.2.
Proof.
  unfold compare_bytes, compare_address, address_le, bytes_lt. destruct (decide (a.1.2 = b.1.2)) as [->|Hn]; cbn [then_].
  - destruct (N.compare_spec a.2.1 b.2.1), (N.compare_spec a.2.2 b.2.2); cbn; split; intros Hc; try done; try (by right; split; [done|lia]); try (exfalso; by apply Hc);
      (destruct Hc as [[_ Hc]|[_ Hc]]; [done|lia]).
  - destruct (decide (bytes_le a.1.2 b.1.2)); cbn [then_]; naive_solver.
Qed.
Definition score_key (h : Hit) : Z := f32_total_key h.1.1.
Lemma ranked_le_iff (a b : Hit) : ranked_le a b ↔ (score_key b < score_key a)%Z ∨ score_key b = score_key a ∧ (bytes_lt a.1.2 b.1.2 ∨ a.1.2 = b.1.2 ∧ address_le a.2 b.2).
Proof.
  rewrite <- compare_ids. unfold ranked_le, ranked_compare, f32_total_cmp, score_key.
  destruct (Z.compare_spec (f32_total_key b.1.1) (f32_total_key a.1.1)) as [->|Hlt|Hgt]; cbn [then_].
  - split; [intros Hc; right; split; [done|exact Hc]|intros [?|[_ Hc]]; [lia|exact Hc]].
  - split; [auto|done].
  - split; [done|lia].
Qed.
#[local] Instance ranked_le_trans : Transitive ranked_le.
Proof.
  intros a b c. rewrite !ranked_le_iff. unfold address_le.
  intros [?|[E1 [L1|[E2 A1]]]] [?|[E3 [L2|[E4 A2]]]]; try (left; lia); right; (split; [lia|]).
  - left. by eapply bytes_lt_trans.
  - left. by rewrite <- E4.
  - left. by rewrite E2.
  - right. split; [congruence|]. lia.
Qed.
#[local] Instance ranked_le_total : Total ranked_le.
Proof.
  intros a b. rewrite !ranked_le_iff. unfold address_le. destruct (Z.lt_trichotomy (score_key a) (score_key b)) as [?|[->|?]]; [auto| |auto].
  destruct (bytes_trichotomy a.1.2 b.1.2) as [?|[->|?]]; [auto| |auto].
  destruct (N.lt_trichotomy a.2.1 b.2.1) as [?|[E|?]]; [left; auto 6| |right; auto 6].
  destruct (N.le_ge_cases a.2.2 b.2.2); [left|right]; right; (split; [done|]); right; (split; [done|]); right; split; auto.
Qed.
Lemma ranked_sort hits : Forall (λ h : Hit, score_ok h.1.1) hits → merge_sort ranked_le hits = ranking hits.
Proof using All.
  intros Hs. rewrite Forall_forall in Hs. apply (merge_sort_agree ranks_before ranked_le). intros a b Ha Hb. apply ranked_compare_le; by apply Hs.
Qed.

Lemma boundary_tie_spec scored : Forall (λ e : f32 * DocAddress, score_ok e.1) scored → lenN scored <= offset + limit + 1 →
  ∃ tie, boundary_tie scored (offset + limit) = Ok tie ∧ (tie = false → lenN scored <= offset + limit ∨
    ∃ last next, scored !! N.to_nat (offset + limit - 1) = Some last ∧ scored !! N.to_nat (offset + limit) = Some next ∧ last.1 ≠ next.1
      ∧ lenN scored = offset + limit + 1).
Proof using All.
  intros Hs Hl. unfold boundary_tie. destruct (N.ltb_spec (offset + limit) (lenN scored)) as [Hlt|Hge]; [|by exists false; auto].
  unfold usize_sub, checked_sub. rewrite (proj2 (N.leb_le _ _)) by lia. cbn [unwrap mbind outcome_bind].
  destruct (lookup_lt_is_Some_2 scored (N.to_nat (offset + limit - 1))) as [last Hlast]; [unfold lenN in *; lia|].
  destruct (lookup_lt_is_Some_2 scored (N.to_nat (offset + limit))) as [next Hnext]; [unfold lenN in *; lia|].
  rewrite Hlast, Hnext. cbn [unwrap mbind outcome_bind]. eexists. split; [done|]. intros Hne. right. exists last, next. split_and!; [done..| |lia].
  intros E. rewrite E in Hne. pose proof (Forall_lookup_1 _ _ _ _ Hs Hnext) as Hn. apply not_true_iff_false in Hne. by apply Hne, f32_eq_score.
Qed.
Lemma scored_page scored : Best (λ a b : f32 * DocAddress, b.1 <= a.1) (offset + limit + 1) scored_matches scored →
  StronglySorted (λ a b : f32 * DocAddress, b.1 <= a.1) scored →
  (lenN scored <= offset + limit ∨ ∃ last next, scored !! N.to_nat (offset + limit - 1) = Some last ∧ scored !! N.to_nat (offset + limit) = Some next ∧ last.1 ≠ next.1
      ∧ lenN scored = offset + limit + 1) →
  stored (ids ← search_hit_ids scored; search_hits (ranked_page scored ids offset limit)) (λ hits, hits = page_of offset limit).
Proof using All.
  intros Hbest Hsorted Hwin. pose proof (Best_length _ _ _ _ Hbest) as Hlen.
  assert (lenN scored_matches = lenN all_hits) as Em by (rewrite <- all_hits_scored; apply lenN_fmap).
  eapply stored_bind; [apply (search_hit_ids_spec HS Hversions)|].
  - apply Forall_fmap, Forall_forall. intros e He. eapply Best_elem in He; [|exact Hbest]. rewrite <- all_hits_scored in He.
    apply list_elem_of_fmap in He as (h & -> & Hh). cbn. by apply all_hits_elem.
  - intros ids Hid. destruct (ranked_hits _ _ _ Hbest Hid) as (Es & rest & E & HR).
    set (hits := (λ e : (f32 * DocAddress) * bytes, ((e.1.1, e.2), e.1.2)) <$> zip scored ids) in *.
    assert (∀ h, h ∈ hits → h ∈ all_hits) as Hin by (intros h Hh; rewrite E; apply elem_of_app; by left).
    assert (take (N.to_nat limit) (drop (N.to_nat offset) (ranking hits)) = take (N.to_nat limit) (drop (N.to_nat offset) (ranking all_hits))) as Epage.
    { rewrite !take_drop_commute. f_equal. replace (N.to_nat offset + N.to_nat limit)%nat with (N.to_nat (offset + limit)) by lia.
      apply (by_score_window scored); [split; [done|by exists rest]|done|]. destruct Hwin as [Hle|(last & next & ? & ? & ? & ?)].
      - left. split; [done|]. rewrite <- Em. lia.
      - right. exists last, next. split_and!; try done. lia. }
    unfold ranked_page. fold hits. rewrite ranked_sort.
    + rewrite Epage. apply search_hits_spec, slice_in_all.
    + apply Forall_forall. intros h Hh. by apply all_hits_elem, Hin.
Qed.
Lemma collect_by_score_spec : Timed (collect_by_score offset limit (offset + limit)) (page_found offset limit) native_failure.
Proof using All.
  unfold collect_by_score. rewrite window_next.
  eapply Timed_bind; [apply Timed_stored, (top_docs_ok (offset + limit + 1))|]. intros scored (_ & Hbest & Hsorted).
  change (Best (λ a b : f32 * DocAddress, b.1 <= a.1) (offset + limit + 1) scored_matches scored) in Hbest.
  pose proof (Best_length _ _ _ _ Hbest) as Hlen.
  assert (lenN scored_matches = match_count) as Em by (rewrite <- all_hits_scored, lenN_fmap; apply all_hits_count).
  rewrite Em in Hlen.
  eapply Timed_bind; [apply Timed_check|]. intros _ _.
  destruct (boundary_tie_spec scored) as (tie & Etie & Htie).
  { apply Forall_forall. intros e He. eapply Best_elem in He; [|exact Hbest]. rewrite <- all_hits_scored in He.
    apply list_elem_of_fmap in He as (h & -> & Hh). cbn. by apply all_hits_elem. }
  { lia. }
  rewrite Etie. eapply (Timed_bind _ _ (λ t, t = tie)); [by apply Timed_lift|]. intros ? ->.
  eapply (Timed_bind _ _ (λ r, r.1 = page_of offset limit ∧ (∀ total, r.2 = Some total → total = match_count))).
  - apply Timed_if; [intros ->|intros Hf].
    + eapply Timed_bind; [apply search_stable_spec|]. intros ? ->.
      assert (drop (N.to_nat offset) (take (N.to_nat (offset + limit)) (ranking all_hits)) = take (N.to_nat limit) (drop (N.to_nat offset) (ranking all_hits))) as ->.
      { rewrite take_drop_commute. f_equal. f_equal. lia. }
      eapply Timed_bind; [apply Timed_stored, search_hits_spec, slice_in_all|]. intros hits ->. apply Timed_ret. split; [done|]. by intros ? [= <-].
    + pose proof (scored_page scored Hbest Hsorted (Htie Hf)) as Hpage. intros clock. specialize (Timed_stored _ _ Hpage clock) as Ht. clear -Ht.
      cbv [mbind M_bind outcome_bind lift mret M_ret] in *. destruct (search_hit_ids scored) as [ids|e| |]; [|done..].
      destruct (search_hits _) as [hits|e| |]; [|done..]. cbn [fst snd]. split; [|apply Ht]. split; [apply Ht|done].
  - intros [hits collected] [Eh Hc]. cbn [fst snd] in *. subst hits. apply Timed_ret. split; [|exact Hc]. cbn [fst]. f_equal. unfold bounded_total_of.
    destruct (N.leb_spec (lenN scored) (offset + limit)), (N.leb_spec match_count (offset + limit)); try lia; [|done]. f_equal. lia.
Qed.
End Window.
End Pages.

(** * The number of matches

    [Count] counts documents in blocks; under a deadline the blocks are those of
    [DeadlineCollector].  Whichever way it is collected, the count is that of the
    live matches of all segments. *)
Section Count.
Context {Seg : Type} `{!Segments Seg} `{!Columns Seg} `{!Searcher Seg} (HS : SearcherLaws Seg) `{!Counting Seg}.
(** A collector that does not ask for scores and adds the blocks it is given; a
    block is never larger than the documents of a segment. *)
Class CountingLaws : Prop := {
  block_positive : 0 < COLLECT_BLOCK_BUFFER_LEN;
  count_scoring : Count.(Collector.requires_scoring) = false;
  count_start i seg : stored (Count.(Collector.for_segment) i seg) (λ s, Count.(Collector.harvest) s = 0);
  count_block s docs : Count.(Collector.harvest) s + lenN docs < 2 ^ 64 →
    ∃ s', Count.(Collector.collect_block) s docs = Ok s' ∧ Count.(Collector.harvest) s' = Count.(Collector.harvest) s + lenN docs;
  count_default i seg : segment_ok seg → Timed (collect_default Count i seg) (λ n, n = lenN (matches seg)) native_failure;
  count_merge_ok fruits : sum fruits < 2 ^ 64 → count_merge fruits = Ok (sum fruits) }.
Context (HC : CountingLaws).

Lemma live_ids_matches docs alive : live_ids alive (fst <$> docs) = fst <$> live alive (docs : list (N * f32)).
Proof.
  unfold live_ids, retain, live, is_alive. destruct alive as [alive|].
  - induction docs as [|d docs IH]; [done|]. cbn [fmap list_fmap List.filter]. destruct (alive d.1); [|done]. cbn [fmap list_fmap]. by f_equal.
  - f_equal. symmetry. induction docs as [|d docs IH]; [done|]. cbn [List.filter]. by f_equal.
Qed.
Lemma count_segment_ok i seg : segment_ok seg → Timed (collect_segment Count (collect_default Count) [] i seg) (λ n, n = lenN (matches seg)) native_failure.
Proof using HC.
  intros Hseg clock. unfold collect_segment. destruct (bool_decide (clock = None) && bool_decide ([] = [])).
  { by apply (@count_default HC). }
  eapply Timed_bind; [apply Timed_check|]. intros _ _. unfold for_segment.
  eapply Timed_bind; [eapply Timed_bind; [apply Timed_check|]; intros _ _; apply Timed_stored, (@count_start HC)|]. intros s Hs.
  cbn [all_columns foldO]. eapply Timed_bind; [by apply (Timed_lift _ (λ h, h = []))|]. intros ? ->.
  eapply Timed_bind; [apply Timed_stored, stored_eq, (scorer_ok _ Hseg)|]. intros docs [E _]. rewrite (@count_scoring HC).
  destruct (matches_ok _ Hseg docs E) as (Em & _ & Hl & _).
  assert (lenN (live_ids (alive_bitset seg) (fst <$> docs)) = lenN (matches seg)) as Elen by (by rewrite live_ids_matches, lenN_fmap, Em).
  eapply (Timed_bind _ _ (λ s, Count.(Collector.harvest) s = lenN (matches seg))).
  2: { intros s' Hs'. eapply Timed_bind; [apply Timed_check|]. intros _ _. by apply Timed_ret. }
  rewrite <- Elen. eapply Timed_weaken.
  - apply (block_loop_spec Count [] (alive_bitset seg) native_failure (@block_positive HC)
      (λ done s, Count.(Collector.harvest) s = lenN done) (fst <$> docs)) with (seen := []).
    + intros done block todo s' El _ HP. destruct (@count_block HC s' block) as (s'' & -> & E').
      { rewrite El, !lenN_app in Elen. lia. }
      exists s''. split; [done|]. rewrite E', HP, lenN_app. done.
    + intros (d & _ & Hd)%Exists_exists. done.
    + rewrite length_fmap. lia.
    + done.
    + unfold live_ids, retain. by destruct (alive_bitset seg).
    + unfold live_ids, retain. destruct (alive_bitset seg); constructor.
  - by intros s' [? _].
  - done.
Qed.
Lemma count_matches_spec : match_count < 2 ^ 64 → Timed count_matches (λ n, n = match_count) native_failure.
Proof using HS HC.
  intros Hb. unfold count_matches. eapply Timed_bind; [apply Timed_check|]. intros _ _.
  apply (search_with_ok _ _ (λ _ seg n, n = lenN (matches seg))); [done| |].
  - intros i seg Hi. apply count_segment_ok. by apply (segment_lookup_ok HS _ _ Hi).
  - intros fruits Hf. assert (fruits = (λ seg, lenN (matches seg)) <$> segment_readers) as ->.
    { apply Forall2_map in Hf as ->. rewrite fmap_imap. clear. unfold compose.
      rewrite <- (imap_const (λ seg, lenN (matches seg))). by apply imap_ext. }
    unfold merge_fruits. eapply Timed_bind; [apply Timed_check|]. intros _ _. rewrite (@count_merge_ok HC) by done.
    eapply (Timed_bind _ _ (λ n, n = match_count)); [by apply Timed_lift|]. intros ? ->.
    eapply Timed_bind; [apply Timed_check|]. intros _ _. by apply Timed_ret.
Qed.
End Count.
Arguments CountingLaws Seg {_ _ _ _}.
