(* ===== verification/Answers.v ===== *)
(** * The answers of whole searches

    [collect_search] answers with the page asked for and with the totals it
    claims, whatever strategy collects it, in a response of a bounded size; a
    traversal that is continued from its last hit goes on where it stopped. *)
From stdpp Require Import sorting.
From S2P Require Import Prelude.
From S2P Require Import Errors.
From S2P Require Import Bytes.
From S2P Require Import Wire.
From S2P Require Import Request.
From S2P Require Import Admission.
From S2P Require Import Results.
From S2P Require Import Aggregation.
From S2P Require Import Text.
From S2P Require Import Response.
From S2P Require Import Scores.
From S2P Require Import Deadline.
From S2P Require Import Failures.
From S2P Require Import Collecting.
From S2P Require Import Hits.
From S2P Require Import Ranking.
From S2P Require Import Merging.
From S2P Require Import Searching.
From S2P Require Import Versions.
From S2P Require Import Searched.
Local Open Scope N_scope.

(** ** What a search may fail with *)
(** A failure of the index, of the collection, or a response that is too large or
    holds a score that overflowed. *)
Definition search_failure (e : FulltextError) : Prop := collection_failure e ∨ code e = "E_RESULT_TOO_LARGE"%string.
Lemma native_search_failure e : native_failure e → search_failure e.
Proof. left. by left. Qed.
Lemma collection_search_failure e : collection_failure e → search_failure e.
Proof. by left. Qed.
Lemma graceful_search {A} (r : outcome A) Q : graceful r → (∀ a, r = Ok a → Q a) → Timed (lift r) Q search_failure.
Proof. intros Hg HQ. apply Timed_lift. destruct r; [by apply HQ| |done..]. destruct Hg; [left; right; by left|by right]. Qed.
Lemma Timed_native {A} (m : M Clock A) Q : Timed m Q native_failure → Timed m Q search_failure.
Proof. intros Hm. eapply Timed_weaken; [exact Hm|done|]. apply native_search_failure. Qed.
Lemma Timed_collection {A} (m : M Clock A) Q : Timed m Q collection_failure → Timed m Q search_failure.
Proof. intros Hm. eapply Timed_weaken; [exact Hm|done|]. apply collection_search_failure. Qed.
Lemma Timed_too_large {A} message (Q : A → Prop) : Timed (fail_with (result_too_large message)) Q search_failure.
Proof. intros s. cbv [fail_with]. left. by right. Qed.

(** ** Sizes *)
(** Strings as short as the terms of a dictionary. *)
Definition hit_short (h : SearchHit.t) : Prop :=
  lenN h.(SearchHit.id) <= U32_MAX ∧ ∀ v, h.(SearchHit.version) = Some v → lenN v <= U32_MAX.
Lemma hit_bytes_short h : hit_short h → ∃ n, hit_bytes h = Ok n.
Proof.
  intros [Hid Hv]. unfold hit_bytes. assert (U32_MAX = 4294967295) as Eu by done. rewrite usize_add_small by lia. cbn [mbind outcome_bind].
  destruct (SearchHit.version h) as [v|].
  - specialize (Hv v eq_refl). rewrite usize_add_small by lia. cbn [mbind outcome_bind]. eexists. apply usize_add_small. lia.
  - eexists. cbn [mbind outcome_bind]. apply usize_add_small. lia.
Qed.
Lemma search_response_bytes_ok hits h : Forall hit_short hits → Timed (lift (search_response_bytes hits h)) (λ n, search_response_bytes hits h = Ok n) search_failure.
Proof.
  intros Hh. assert (match search_response_bytes hits h with Ok _ => True | Err e => search_failure e | Panic | Fuel => False end) as Hr.
  { unfold search_response_bytes. revert h. induction Hh as [|x hits Hx Hhits IH]; intros h; cbn [foldO]; [done|].
    destruct (f32_is_finite _); cbn [negb]; [|left; right; by right].
    destruct (hit_bytes_short x Hx) as [n ->]. cbn [mbind outcome_bind].
    destruct (checked_add h n) as [m|]; cbn [ok_or mbind outcome_bind]; [apply IH|by right]. }
  apply Timed_lift. by destruct (search_response_bytes hits h).
Qed.

(** ** What the catalog promises *)
Section Answers.
Context {Seg : Type} `{!Segments Seg} `{!Columns Seg} `{!Searcher Seg} (HS : SearcherLaws Seg) `{!Dictionaries} `{!DictionariesLaws}
  `{!TopNComputer} `{!TopNLaws} `{!Counting Seg} (HC : CountingLaws Seg).
Hypothesis Hversions : versions_ok.
Hypothesis Hids : ids_known.
(** [page offset limit hits]: the hits of a sorted page. *)
Record catalog_ok (page : N → N → list Hit → Prop) (catalog : Catalogs) : Prop := {
  sorted_ok offset limit : 0 < limit → offset + limit <= MAX_SEARCH_WINDOW → Timed (sorted_catalog catalog offset limit)
    (λ r, r.1.2 = match_count ∧ Forall (λ h, h ∈ all_hits) r.1.1 ∧ lenN r.1.1 <= limit ∧ page offset limit r.1.1) collection_failure;
  aggregate_count_ok : Timed (aggregate_count catalog) (λ r, r.1 = match_count) collection_failure;
  aggregate_ok : Timed (aggregate catalog) (λ _, True) collection_failure }.

Lemma version_short address v : version_of address = Some v → lenN v <= U32_MAX.
Proof using Hversions.
  unfold version_of. destruct (segment_readers !! N.to_nat address.1) as [seg|] eqn:Eseg; [|done]. cbn [mbind option_bind].
  pose proof (Forall_lookup_1 _ _ _ _ Hversions Eseg) as Hv. cbn beta in Hv. destruct (str_column seg VERSION_FIELD_NAME) as [[c|]| | |]; [|done..].
  specialize (Hv c eq_refl). unfold value_at. destruct (StrColumn.first c address.2) as [o|]; [|done]. cbn [mbind option_bind]. unfold term_at.
  intros Ht. apply (Forall_lookup_1 _ _ _ _ (terms_short _ Hv) Ht).
Qed.
Lemma hits_short hits : Forall (λ h, h ∈ all_hits) hits → Forall hit_short (to_search_hit <$> hits).
Proof using HS Hversions.
  intros Hh. apply Forall_fmap. eapply Forall_impl; [exact Hh|]. intros h Hin. split; cbn [to_search_hit SearchHit.id SearchHit.version].
  - by apply (all_hits_elem HS).
  - by apply version_short.
Qed.
Lemma page_in_all offset limit : Forall (λ h, h ∈ all_hits) (take (N.to_nat limit) (drop (N.to_nat offset) (ranking all_hits))).
Proof. apply Forall_forall. intros h Hh%slice_elem. by apply ranking_elem. Qed.

(** ** A plain search *)
Definition claimed_total (exact : bool) (window_end : N) : N * TotalRelation.t :=
  if exact then (match_count, TotalRelation.Exact) else bounded_total_of window_end.
Definition plain_answer (request : SearchRequest.t) (r : SearchResult.t) : Prop :=
  let offset := request.(SearchRequest.offset) in let limit := request.(SearchRequest.limit) in
  r.(SearchResult.hits) = page_of offset limit
  ∧ (r.(SearchResult.total), r.(SearchResult.total_relation)) = claimed_total request.(SearchRequest.exact_total) (offset + limit)
  ∧ r.(SearchResult.traversal) = None
  ∧ Forall (λ h, f32_is_finite h.(SearchHit.score) = true) r.(SearchResult.hits)
  ∧ lenN (search_body r) <= MAX_SEARCH_RESPONSE_BYTES.
Lemma encode_nonempty_ok aggregations : graceful (encode_nonempty aggregations).
Proof.
  unfold encode_nonempty. case_bool_decide; [done|]. pose proof (encode_results_graceful aggregations) as Hg. by destruct (encode_results aggregations).
Qed.
Lemma collect_aggregations_ok {page} exact catalog collected relation : (∀ c, catalog = Some c → catalog_ok page c) →
  Timed (collect_aggregations exact catalog collected relation) (λ r, ∀ total, r.1 = Some total → total = match_count) search_failure.
Proof.
  intros Hc. unfold collect_aggregations. destruct catalog as [catalog|]; [|by apply Timed_ret]. specialize (Hc _ eq_refl).
  destruct (exact && _ && _).
  - eapply Timed_bind; [apply Timed_collection, (aggregate_count_ok _ _ Hc)|]. intros [total results] E. cbn [fst] in E. subst. apply Timed_ret. by intros ? [= <-].
  - eapply Timed_bind; [apply Timed_collection, (aggregate_ok _ _ Hc)|]. intros results _. by apply Timed_ret.
Qed.
Lemma final_total_ok exact collected window_end : (∀ total, collected = Some total → total = match_count) →
  Timed (final_total exact collected (bounded_total_of window_end)) (λ r, r = claimed_total exact window_end) search_failure.
Proof using HS HC.
  intros Hcol. unfold final_total, claimed_total. destruct exact; [|by apply Timed_ret]. unfold bounded_total_of.
  destruct collected as [total|]; [|destruct (match_count <=? window_end); cbn [fst snd]].
  - rewrite (Hcol _ eq_refl). eapply Timed_bind; [apply Timed_check|]. intros _ _. by apply Timed_ret.
  - by apply Timed_ret.
  - eapply Timed_bind; [apply Timed_check|]. intros _ _.
    eapply Timed_bind; [apply Timed_native, (count_matches_spec HS HC), (match_count_bound HS)|]. intros ? ->. by apply Timed_ret.
Qed.
Lemma saturating_le a b m : m < USIZE_MAX → ¬ m < saturating_add a b → a + b <= m.
Proof. unfold saturating_add. lia. Qed.
Lemma plain_body_size r n encoded : r.(SearchResult.traversal) = None → r.(SearchResult.encoded_aggregations) = encoded →
  search_response_bytes r.(SearchResult.hits) 13 = Ok n → (MAX_SEARCH_RESPONSE_BYTES <? saturating_add n (encoded_length encoded)) = false →
  lenN (search_body r) <= MAX_SEARCH_RESPONSE_BYTES.
Proof.
  intros Ht <- Hn Hle%N.ltb_ge. rewrite (proj1 (search_body_size r n) Ht Hn). apply saturating_le; [by vm_compute|]. apply N.le_ngt. exact Hle.
Qed.
Lemma collect_plain_ok {page} request catalog stable_scores : 0 < request.(SearchRequest.limit) →
  request.(SearchRequest.offset) + request.(SearchRequest.limit) <= MAX_SEARCH_WINDOW → (∀ c, catalog = Some c → catalog_ok page c) →
  Timed (collect_plain request catalog stable_scores) (plain_answer request) search_failure.
Proof using All.
  destruct request as [sort aggregations query candidates filter offset limit exact budget traversal after]. cbn [SearchRequest.limit SearchRequest.offset]. intros Hl Hw Hc.
  unfold collect_plain, plain_answer. cbn [SearchRequest.limit SearchRequest.offset SearchRequest.exact_total SearchRequest.candidate_ids SearchRequest.filter].
  assert (MAX_SEARCH_WINDOW < 2 ^ 64) by by vm_compute. rewrite usize_add_small by lia.
  eapply (Timed_bind _ _ (λ w, w = offset + limit)); [by apply Timed_lift|]. intros ? ->.
  eapply (Timed_bind _ _ (page_found offset limit)).
  { apply Timed_native. apply Timed_if; intros _; [by apply (collect_stable_spec HS)|by apply (collect_by_score_spec HS)]. }
  intros [[hits bounded] collected] [[= -> ->] Hcol]. cbn [snd] in Hcol.
  eapply Timed_bind; [by apply (collect_aggregations_ok (page := page))|]. intros [aggregation_total results] Hagg. cbn [fst] in Hagg.
  eapply Timed_bind; [apply final_total_ok; by destruct collected|]. intros [total relation] Htot.
  eapply Timed_bind; [apply Timed_check|]. intros _ _.
  eapply Timed_bind; [apply (graceful_search _ (λ _, True)); [apply encode_nonempty_ok|done]|]. intros encoded _.
  eapply Timed_bind; [apply search_response_bytes_ok, hits_short, page_in_all|]. intros n Hn.
  eapply Timed_bind; [apply Timed_check|]. intros _ _.
  apply Timed_if; [intros _; apply Timed_too_large|]. intros Hle. apply Timed_ret.
  cbn [SearchResult.hits SearchResult.total SearchResult.total_relation SearchResult.traversal]. split; [done|]. split; [done|]. split; [done|].
  split; [exact (proj1 (response_bytes_Ok _ _ _ Hn))|exact (plain_body_size (SearchResult.mk results encoded total relation _ None) n encoded eq_refl eq_refl Hn Hle)].
Qed.

(** ** A sorted search *)
(** What every answer satisfies. *)
Definition answer_bounded (request : SearchRequest.t) (r : SearchResult.t) : Prop :=
  lenN r.(SearchResult.hits) <= request.(SearchRequest.limit)
  ∧ Forall (λ h, ∃ hit, hit ∈ all_hits ∧ h = to_search_hit hit) r.(SearchResult.hits)
  ∧ Forall (λ h, f32_is_finite h.(SearchHit.score) = true) r.(SearchResult.hits)
  ∧ lenN (search_body r) <= MAX_SEARCH_RESPONSE_BYTES.
Lemma hits_from_all hits : Forall (λ h, h ∈ all_hits) hits → Forall (λ h, ∃ hit, hit ∈ all_hits ∧ h = to_search_hit hit) (to_search_hit <$> hits).
Proof. intros Hh. apply Forall_fmap. eapply Forall_impl; [exact Hh|]. intros h Hin. by exists h. Qed.
Lemma page_length offset limit : lenN (page_of offset limit) <= limit.
Proof. unfold page_of. rewrite lenN_fmap. unfold lenN. rewrite length_take. lia. Qed.
Lemma plain_answer_bounded request r : plain_answer request r → answer_bounded request r.
Proof. unfold answer_bounded. intros (-> & _ & _ & Hf & Hb). split_and!; [apply page_length|apply hits_from_all, page_in_all|done|done]. Qed.
Lemma collect_sorted_ok {page} request catalog : 0 < request.(SearchRequest.limit) → request.(SearchRequest.offset) + request.(SearchRequest.limit) <= MAX_SEARCH_WINDOW →
  (∀ c, catalog = Some c → catalog_ok page c) →
  Timed (collect_sorted_search request catalog)
    (λ r, (r.(SearchResult.total), r.(SearchResult.total_relation)) = (match_count, TotalRelation.Exact)
      ∧ r.(SearchResult.traversal) = None ∧ answer_bounded request r
      ∧ ∃ hits, page request.(SearchRequest.offset) request.(SearchRequest.limit) hits ∧ r.(SearchResult.hits) = to_search_hit <$> hits) search_failure.
Proof using All.
  intros Hpos Hw Hc. unfold collect_sorted_search. eapply (Timed_bind _ _ (catalog_ok page)).
  { destruct catalog as [catalog|]; [apply Timed_lift; by apply Hc|]. apply Timed_lift. cbn. apply native_search_failure, native_is_failure. }
  clear Hc. intros c Hc. eapply Timed_bind; [by apply Timed_collection, (sorted_ok _ _ Hc)|]. intros [[hits total] results] (Et & Hin & Hlen & Hpage). cbn [fst snd] in *. subst total.
  eapply Timed_bind; [apply Timed_native, Timed_stored, (search_hits_spec HS Hversions Hids), Hin|]. intros ? ->.
  eapply Timed_bind; [apply (graceful_search _ (λ _, True)); [apply encode_nonempty_ok|done]|]. intros encoded _.
  eapply Timed_bind; [apply search_response_bytes_ok, hits_short, Hin|]. intros n Hn.
  apply Timed_if; [intros _; apply Timed_too_large|]. intros Hle.
  eapply Timed_bind; [apply Timed_check|]. intros _ _. apply Timed_ret. split; [done|]. split; [done|]. split; [|by exists hits].
  split; [cbn [SearchResult.hits]; by rewrite lenN_fmap|]. split; [by apply hits_from_all|].
  split; [exact (proj1 (response_bytes_Ok _ _ _ Hn))|].
  exact (plain_body_size (SearchResult.mk results encoded match_count TotalRelation.Exact _ None) n encoded eq_refl eq_refl Hn Hle).
Qed.

(** ** A traversal *)
Definition after_hits (after : option SearchBoundary.t) : list Hit := ranking (filter (comes_after after) all_hits).
Lemma search_traversal_spec after end_ : Timed (search_traversal after end_)
  (λ r, r = (N.min end_ (lenN (after_hits after)), match_count, take (N.to_nat end_) (after_hits after))) native_failure.
Proof using HS Hids H0 H2.
  unfold search_traversal. apply (search_with_ok _ _ (λ i seg, contributes (comes_after after) end_ i seg)); [done| |].
  - intros i seg Hi. eapply Timed_weaken; [by apply traversal_segment_ok, (segment_lookup_ok HS _ _ Hi)| |done].
    intros fruit Hf. eapply stored_weaken; [exact Hf|]. intros r (c & Ec & Hid & En & Hb). split; [by exists c|]. split; [done|exact Hb].
  - intros fruits Hf. eapply Timed_weaken; [apply Timed_stored, (tie_merge_spec HS (comes_after after) 0 end_ fruits Hf)| |done].
    intros r [_ ->]. unfold after_hits. by rewrite drop_0, lenN_ranking.
Qed.
Lemma after_hits_in after : Forall (λ h, h ∈ all_hits) (after_hits after).
Proof. apply Forall_forall. intros h Hh. apply ranking_elem, list_elem_of_filter in Hh. by destruct Hh. Qed.
Definition traversal_answer (request : SearchRequest.t) (snapshot : bytes) (r : SearchResult.t) : Prop :=
  let rest := after_hits request.(SearchRequest.after) in let limit := request.(SearchRequest.limit) in
  r.(SearchResult.hits) = to_search_hit <$> take (N.to_nat limit) rest
  ∧ (r.(SearchResult.total), r.(SearchResult.total_relation)) = (match_count, TotalRelation.Exact)
  ∧ r.(SearchResult.traversal) = Some (snapshot, limit <? lenN rest)
  ∧ Forall (λ h, f32_is_finite h.(SearchHit.score) = true) r.(SearchResult.hits)
  ∧ lenN (search_body r) <= MAX_SEARCH_RESPONSE_BYTES.
Lemma collect_traversal_ok request snapshot : request.(SearchRequest.limit) <= MAX_SEARCH_PAGE_SIZE →
  Timed (collect_traversal request snapshot) (traversal_answer request snapshot) search_failure.
Proof using HS Hversions Hids H0 H2.
  destruct request as [sort aggregations query candidates filter offset limit exact budget traversal after]. cbn [SearchRequest.limit]. intros Hl.
  unfold collect_traversal, traversal_answer. cbn [SearchRequest.limit SearchRequest.after].
  assert (MAX_SEARCH_PAGE_SIZE < USIZE_MAX) by by vm_compute. unfold saturating_add. rewrite N.min_l by lia.
  eapply Timed_bind; [apply Timed_native, search_traversal_spec|]. intros ? ->.
  eapply Timed_bind; [apply Timed_check|]. intros _ _. cbv zeta. rewrite take_take, Nat.min_l by lia.
  assert (Forall (λ h, h ∈ all_hits) (take (N.to_nat limit) (after_hits after))) as Hin by (apply Forall_take, after_hits_in).
  eapply Timed_bind; [apply Timed_native, Timed_stored, (search_hits_spec HS Hversions Hids), Hin|]. intros ? ->.
  eapply Timed_bind; [apply search_response_bytes_ok, hits_short, Hin|]. intros n Hn.
  apply Timed_if; [intros _; apply Timed_too_large|]. intros Hle%N.ltb_ge.
  eapply Timed_bind; [apply Timed_check|]. intros _ _. apply Timed_ret. cbn [SearchResult.hits SearchResult.total SearchResult.total_relation SearchResult.traversal].
  split; [done|]. split; [done|]. split; [|split; [exact (proj1 (response_bytes_Ok _ _ _ Hn))|]].
  - do 2 f_equal. unfold lenN. rewrite length_take. destruct (N.ltb_spec limit (N.of_nat (length (after_hits after)))) as [?|?]; [apply N.ltb_lt|apply N.ltb_ge]; lia.
  - set (r := SearchResult.mk _ _ _ _ _ _). by rewrite (proj2 (search_body_size r n) snapshot _ eq_refl eq_refl Hn).
Qed.
End Answers.
