(* ===== verification/SearchSample.v ===== *)
(** * A concrete index

    The interfaces a search relies on, implemented over lists: two segments, one
    with a deleted document, searched in order.  The laws hold of it, so the
    theorems about searches apply to it. *)
From stdpp Require Import sorting.
From S2P Require Import Prelude.
From S2P Require Import Errors.
From S2P Require Import Bytes.
From S2P Require Import Request.
From S2P Require Import Results.
From S2P Require Import Text.
From S2P Require Import Response.
From S2P Require Import Scores.
From S2P Require Import Deadline.
From S2P Require Import Failures.
From S2P Require Import Collecting.
From S2P Require Import Hits.
From S2P Require Import Ranking.
From S2P Require Import Merging.
From S2P Require Import Searching.
From S2P Require Import Versions.
From S2P Require Import Searched.
Local Open Scope N_scope.

(** ** Sorting by insertion *)
Section Insertion.
Context {A : Type} (better : A → A → bool).
Fixpoint insert_by (x : A) (l : list A) : list A :=
  match l with [] => [x] | y :: k => if better x y then x :: l else y :: insert_by x k end.
Definition insertion_sort (l : list A) : list A := foldr insert_by [] l.
Lemma insert_by_perm x l : insert_by x l ≡ₚ x :: l.
Proof. induction l as [|y l IH]; [done|]. cbn. destruct (better x y); [done|]. by rewrite IH, Permutation_swap. Qed.
Lemma insertion_sort_perm l : insertion_sort l ≡ₚ l.
Proof. induction l as [|x l IH]; [done|]. cbn. by rewrite insert_by_perm, IH. Qed.
Context (R : relation A) (l : list A).
Hypothesis Hbetter : ∀ a b, a ∈ l → b ∈ l → if better a b then R a b else R b a.
Hypothesis Htrans : ∀ a b c, a ∈ l → b ∈ l → c ∈ l → R a b → R b c → R a c.
Lemma insert_by_sorted x k : x ∈ l → Forall (λ y, y ∈ l) k → StronglySorted R k → StronglySorted R (insert_by x k).
Proof using Hbetter Htrans.
  intros Hx Hk Hs. induction Hs as [|y k Hs IH Hy]; [repeat constructor|]. apply Forall_cons in Hk as [Hyl Hk]. cbn.
  pose proof (Hbetter x y Hx Hyl) as Hxy. destruct (better x y).
  - constructor; [by constructor|]. constructor; [done|]. apply Forall_forall. intros z Hz. rewrite Forall_forall in Hy, Hk. eapply Htrans; eauto.
  - constructor; [by apply IH|]. rewrite insert_by_perm. by constructor.
Qed.
Lemma insertion_sort_sorted : StronglySorted R (insertion_sort l).
Proof using Hbetter Htrans.
  assert (∀ k, Forall (λ y, y ∈ l) k → StronglySorted R (insertion_sort k)) as Hk; [|apply Hk, Forall_forall; auto].
  induction k as [|x k IH]; intros Hin; [constructor|]. apply Forall_cons in Hin as [Hx Hin]. apply insert_by_sorted; [done| |by apply IH].
  fold (insertion_sort k). by rewrite insertion_sort_perm.
Qed.
End Insertion.
Lemma sorted_best {A} (R : relation A) n l k : StronglySorted R k → k ≡ₚ l → Best R n l (take (N.to_nat n) k) ∧ StronglySorted R (take (N.to_nat n) k).
Proof.
  intros Hs E. rewrite <- (take_drop (N.to_nat n) k) in Hs. split.
  - exists (drop (N.to_nat n) k). rewrite take_drop. split; [by symmetry|]. split; [rewrite <- (lenN_perm _ _ E); unfold lenN; rewrite length_take; lia|].
    intros a b Ha Hb. by apply (StronglySorted_app_1_elem_of _ _ _ a b Hs).
  - clear E. induction (take (N.to_nat n) k) as [|a t IH]; [constructor|]. apply StronglySorted_inv in Hs as [Hs Ha]. apply Forall_app in Ha as [Ha _].
    constructor; [by apply IH|done].
Qed.

#[export] Instance list_top_n : TopNComputer := {
  into_vec K D compare n l := take (N.to_nat n) (insertion_sort (λ a b : K * D, match compare a.1 b.1 with Lt => false | _ => true end) l);
  into_sorted_vec K D compare n l := take (N.to_nat n) (insertion_sort (λ a b : K * D, match compare a.1 b.1 with Lt => false | _ => true end) l) }.
Lemma list_top_n_best {K D} (compare : K → K → comparison) n (l : list (K * D)) : consistent compare (fst <$> l) →
  Best (not_worse compare) n l (into_sorted_vec compare n l) ∧ StronglySorted (not_worse compare) (into_sorted_vec compare n l).
Proof.
  intros [Hanti Htrans]. assert (∀ e : K * D, e ∈ l → e.1 ∈ (fst <$> l)) as Hin by (intros e He; apply list_elem_of_fmap; by exists e).
  apply sorted_best; [|apply insertion_sort_perm]. apply insertion_sort_sorted.
  - intros a b Ha Hb. unfold not_worse. rewrite (Hanti b.1 a.1) by auto. rewrite (Hanti a.1 b.1) by auto. destruct (compare a.1 b.1); done.
  - intros a b c Ha Hb Hc. unfold not_worse. apply Htrans; auto.
Qed.
#[export] Instance list_top_n_laws : TopNLaws.
Proof. split; intros; by apply list_top_n_best. Qed.

(** ** Dictionaries *)
#[export] Instance list_dictionaries : Dictionaries := {
  sorted_ords_to_term dictionary ords :=
    Ok (omap (λ o, dictionary !! N.to_nat o) ords, forallb (λ o, o <? lenN dictionary) ords);
  term_after dictionary term := Ok ((λ e : nat * bytes, N.of_nat e.1) <$> list_find (λ t, bytes_lt term t) dictionary) }.
#[export] Instance list_dictionaries_laws : DictionariesLaws.
Proof.
  split.
  - intros dictionary ords _. cbn. intros Hin. split.
    + apply forallb_forall. intros o Ho%list_elem_of_In. rewrite Forall_forall in Hin. by apply N.ltb_lt, Hin.
    + induction Hin as [|o ords Ho Hin IH]; [constructor|]. cbn [omap list_omap].
      destruct (lookup_lt_is_Some_2 dictionary (N.to_nat o)) as [t Ht]; [unfold lenN in Ho; lia|]. rewrite Ht. by constructor.
  - intros dictionary term Hs. cbn. intros o t Ht. destruct (list_find _ dictionary) as [[i u]|] eqn:Ef.
    + apply list_find_Some in Ef as (Hu & Hlt & Hfirst). cbn. split.
      * intros Htt. eexists. split; [done|]. apply N.le_ngt. intros Hoi. apply (Hfirst _ _ Ht); [lia|done].
      * intros (f & [= <-] & Hle). destruct (decide (N.to_nat o = i)) as [E|Hn]; [rewrite E, Hu in Ht; by injection Ht as <-|].
        eapply bytes_lt_trans; [exact Hlt|]. rewrite <- (take_drop (N.to_nat o) dictionary) in Hs.
        apply (StronglySorted_app_1_elem_of _ _ _ u t Hs).
        -- apply (list_elem_of_lookup_2 _ i). rewrite lookup_take_lt by lia. done.
        -- apply (list_elem_of_lookup_2 _ 0%nat). by rewrite lookup_drop, Nat.add_0_r.
    + rewrite list_find_None in Ef. split; [|naive_solver]. intros Htt. exfalso. rewrite Forall_forall in Ef.
      apply (Ef t); [by eapply list_elem_of_lookup_2|done].
Qed.

(** ** Segments *)
Module ListSegment.
Record t := mk { docs : list (N * f32); alive : option (N → bool); ids : list bytes; versions : option (list bytes) }.
End ListSegment.
Definition column_of (terms : list bytes) : StrColumn.t := StrColumn.mk terms (λ doc, if doc <? lenN terms then [doc] else []).
#[export] Instance list_segments : Segments ListSegment.t := {
  scorer seg := Ok seg.(ListSegment.docs);
  alive_bitset seg := seg.(ListSegment.alive);
  f64_column _ _ := Ok (Column.mk (λ _, []) 0 0 0);
  first_of _ _ := Ok None;
  COLLECT_BLOCK_BUFFER_LEN := 64 }.
#[export] Instance list_columns : Columns ListSegment.t := { str_column seg field :=
  Ok (if decide (field = ID_FIELD_NAME) then Some (column_of seg.(ListSegment.ids)) else column_of <$> seg.(ListSegment.versions)) }.
Definition first_segment : ListSegment.t :=
  ListSegment.mk [(0, 0x3F800000); (1, 0x40000000); (2, 0x40400000)] (Some (λ doc, doc <? 2)) [blit "a"; blit "d"; blit "e"] (Some [blit "1"; blit "2"; blit "3"]).
Definition second_segment : ListSegment.t := ListSegment.mk [(0, 0x40000000); (1, 0x3F000000)] None [blit "b"; blit "c"] None.

Definition list_collect_default {S F} (inner : Collector.t ListSegment.t S F) (i : N) (seg : ListSegment.t) : outcome F :=
  docs ← scorer seg;
  s ← inner.(Collector.for_segment) i seg;
  s ← (if inner.(Collector.requires_scoring) then foldO (λ s d, inner.(Collector.collect) s d.1 d.2) s (live (alive_bitset seg) docs)
       else inner.(Collector.collect_block) s (fst <$> live (alive_bitset seg) docs));
  Ok (inner.(Collector.harvest) s).
#[export] Instance list_searcher : Searcher ListSegment.t := {
  segment_readers := [first_segment; second_segment];
  search_with F G collect merge :=
    fruits ← foldM (λ acc e, fruit ← collect (N.of_nat e.1) e.2; mret (acc ++ [fruit])) [] (imap pair [first_segment; second_segment]);
    merge fruits;
  collect_default S F inner i seg := lift (list_collect_default inner i seg);
  top_docs_by_score n :=
    let live_docs seg := live (alive_bitset seg) seg.(ListSegment.docs) in
    Ok (take (N.to_nat n) (insertion_sort (λ a b : f32 * DocAddress, b.1 <=? a.1)
      (concat (imap (λ i seg, (λ d : N * f32, (d.2, (N.of_nat i, d.1))) <$> live_docs seg) [first_segment; second_segment])))) }.
#[export] Instance list_counting : Counting ListSegment.t := {
  CountState := N;
  Count := Collector.mk (λ _ _, Ok 0) (λ s _ _, Ok (s + 1)) (λ s docs, Ok (s + lenN docs)) id false;
  count_merge fruits := Ok (sum fruits) }.

(** ** The laws *)
Ltac decide_now := apply (bool_decide_unpack _); vm_compute; exact I.
Lemma column_of_ok terms : StronglySorted bytes_lt terms → Forall (λ t, lenN t <= U32_MAX) terms → column_ok (column_of terms).
Proof.
  intros Hs Hl. split; [done..|]. intros doc. cbn [column_of StrColumn.ords StrColumn.dictionary]. destruct (N.ltb_spec doc (lenN terms)); [by constructor|constructor].
Qed.
Lemma segment_right seg : NoDup (fst <$> seg.(ListSegment.docs)) → Forall (λ d, score_ok d.2) seg.(ListSegment.docs) → lenN seg.(ListSegment.docs) < 2 ^ 32 →
  column_ok (column_of seg.(ListSegment.ids)) → segment_ok seg.
Proof.
  intros Hnd Hs Hl Hc. split.
  - done.
  - cbn. intros c [= <-]. done.
  - intros c d d' [= <-] Hd Hd' E (o & Ho). pose proof E as E'. rewrite Ho in E'. unfold StrColumn.first, column_of in Ho, E'. cbn [StrColumn.ords] in Ho, E'.
    destruct (d.1 <? _); [|done]. destruct (d'.1 <? _); [|done]. cbn in Ho, E'.
    assert (d.1 = d'.1) as Ed by congruence. clear -Hnd Hd Hd' Ed. unfold matches in Hd, Hd'. cbn in Hd, Hd'. unfold live in Hd, Hd'.
    apply list_elem_of_In, filter_In in Hd as [Hd%list_elem_of_In _]. apply list_elem_of_In, filter_In in Hd' as [Hd'%list_elem_of_In _].
    apply list_elem_of_lookup in Hd as (i & Hi). apply list_elem_of_lookup in Hd' as (j & Hj).
    assert (i = j) as ->; [|congruence]. apply (NoDup_lookup _ i j d.1 Hnd); rewrite list_lookup_fmap; [by rewrite Hi|by rewrite Hj, Ed].
Qed.
Lemma sorted_terms (l : list bytes) : Sorted bytes_lt l → StronglySorted bytes_lt l.
Proof. apply Sorted_StronglySorted. intros a b c. apply bytes_lt_trans. Qed.
Lemma Forall_two {A} (P : A → Prop) a b : P a → P b → Forall P [a; b].
Proof. intros. by repeat constructor. Qed.
Lemma sample_segments_ok : Forall segment_ok [first_segment; second_segment].
Proof.
  apply Forall_two; (apply segment_right; [decide_now..|apply column_of_ok; [apply sorted_terms; repeat constructor; decide_now|decide_now]]).
Qed.
Lemma list_search_with_ok {F G} (collect : N → ListSegment.t → M Clock F) (merge : list F → M Clock G) (Q : N → ListSegment.t → F → Prop) (R : G → Prop) E :
  (∀ i seg, segment_readers !! N.to_nat i = Some seg → Timed (collect i seg) (Q i seg) E) →
  (∀ fruits, Forall2 (λ e f, Q (N.of_nat e.1) e.2 f) (imap pair segment_readers) fruits → Timed (merge fruits) R E) →
  Timed (search_with collect merge) R E.
Proof.
  intros Hc Hm. eapply Timed_bind; [|exact Hm].
  apply (Timed_foldM _ (λ done acc, Forall2 (λ e f, Q (N.of_nat e.1) e.2 f) done acc)); [constructor|].
  intros done [i seg] todo acc El Hacc. eapply Timed_bind.
  - apply Hc. rewrite Nat2N.id. assert (imap pair segment_readers !! length done = Some (i, seg)) as Hi by (cbn in *; by rewrite El, list_lookup_middle).
    rewrite list_lookup_imap in Hi. apply fmap_Some in Hi as (s & Hs & [= -> ->]). exact Hs.
  - intros fruit Hf. apply Timed_ret, Forall2_app; [done|]. by constructor.
Qed.
#[export] Instance list_searcher_laws : SearcherLaws ListSegment.t.
Proof.
  split.
  - done.
  - exact sample_segments_ok.
  - intros F G collect merge Q R E _. apply list_search_with_ok.
  - intros S F inner i seg Q Hs Hr. apply Timed_stored. cbn. unfold list_collect_default. by rewrite Hs.
  - intros n. split; [repeat constructor; by eexists|]. apply sorted_best; [|apply insertion_sort_perm]. apply insertion_sort_sorted.
    + intros [s a] [s' a'] _ _. cbn. destruct (N.leb_spec s' s) as [?|?]; [done|by apply N.lt_le_incl].
    + intros a b c _ _ _. intros. by etrans.
Qed.
#[export] Instance list_counting_laws : CountingLaws ListSegment.t.
Proof.
  split; [done|done|done| | |done].
  - intros s docs _. by eexists.
  - intros i seg Hseg. apply Timed_stored. cbn. by rewrite lenN_fmap.
Qed.
Lemma sample_versions_ok : versions_ok (Seg := ListSegment.t).
Proof.
  apply Forall_two; cbn; [|by intros c [=]].
  intros c [= <-]. apply column_of_ok; [apply sorted_terms; repeat constructor; decide_now|decide_now].
Qed.
Lemma sample_ids_known : ids_known (Seg := ListSegment.t).
Proof.
  apply Forall_two; (eexists; split; [reflexivity|]); repeat constructor; eexists; reflexivity.
Qed.
