(* ===== verification/SearchPages.v ===== *)
(** * Pages that follow each other

    The properties of collections: the page of a plain search, the pages of a
    traversal, and that the strategies agree. *)
From stdpp Require Import sorting.
From S2P Require Import Prelude.
From S2P Require Import Errors.
From S2P Require Import Bytes.
From S2P Require Import Wire.
From S2P Require Import Request.
From S2P Require Import Admission.
From S2P Require Import Results.
From S2P Require Import Aggregation.
From S2P Require Import Text.
From S2P Require Import Response.
From S2P Require Import Scores.
From S2P Require Import Deadline.
From S2P Require Import Failures.
From S2P Require Import Collecting.
From S2P Require Import Hits.
From S2P Require Import Ranking.
From S2P Require Import Merging.
From S2P Require Import Searching.
From S2P Require Import Versions.
From S2P Require Import Searched.
From S2P Require Import Answers.
From S2P Require Import SearchSample.
Local Open Scope N_scope.

(** ** Sorting and filtering *)
Section Filter.
Context {A : Type} (R : relation A) `{!RelDecision R, !Transitive R, !Total R, !AntiSymm (=) R} (P : A → Prop) `{!∀ a, Decision (P a)}.
Lemma StronglySorted_filter l : StronglySorted R l → StronglySorted R (filter P l).
Proof.
  induction 1 as [|a l Hl IH Ha]; [constructor|]. rewrite filter_cons. destruct (decide (P a)); [|done]. constructor; [done|].
  apply Forall_forall. intros b [_ Hb]%list_elem_of_filter. rewrite Forall_forall in Ha. auto.
Qed.
Lemma merge_sort_filter l : merge_sort R (filter P l) = filter P (merge_sort R l).
Proof using All.
  apply (StronglySorted_unique R); [exact (StronglySorted_merge_sort R _)|apply StronglySorted_filter, (StronglySorted_merge_sort R _)|].
  by rewrite !merge_sort_Permutation.
Qed.
Lemma filter_none (l : list A) : (∀ a, a ∈ l → ¬ P a) → filter P l = [].
Proof. induction l as [|a l IH]; intros Hn; [done|]. rewrite filter_cons_False by (apply Hn; by left). apply IH. intros b ?. apply Hn. by right. Qed.
Lemma filter_all (l : list A) : (∀ a, a ∈ l → P a) → filter P l = l.
Proof. induction l as [|a l IH]; intros Hn; [done|]. rewrite filter_cons_True by (apply Hn; by left). f_equal. apply IH. intros b ?. apply Hn. by right. Qed.
End Filter.

(** ** The boundary of a page *)
Definition boundary_at (b : SearchBoundary.t) (h : Hit) : Prop := b.(SearchBoundary.score) = h.1.1 ∧ b.(SearchBoundary.id) = h.1.2.
Section Boundary.
Context (boundary : SearchBoundary.t) (b h : Hit).
Hypothesis Hat : boundary_at boundary b.
Hypothesis Hb : score_ok b.1.1.
Hypothesis Hh : score_ok h.1.1.
Lemma comes_after_boundary : comes_after (Some boundary) h ↔ h.1.1 < b.1.1 ∨ h.1.1 = b.1.1 ∧ bytes_lt b.1.2 h.1.2.
Proof using All.
  destruct Hat as [Es Ei]. unfold comes_after. rewrite Es, Ei.
  rewrite f32_total_cmp_score by done. by rewrite N.compare_lt_iff, N.compare_eq_iff.
Qed.
Lemma seen_before : ranks_before h b → ¬ comes_after (Some boundary) h.
Proof using All.
  intros Hr Ha. apply comes_after_boundary in Ha. unfold ranks_before in Hr.
  destruct Hr as [?|[E [L|[E' _]]]], Ha as [?|[? L']]; try lia; [by eapply bytes_lt_asymm|]. rewrite E' in L'. by eapply bytes_lt_irrefl.
Qed.
Lemma still_ahead : b.1.2 ≠ h.1.2 → ranks_before b h → comes_after (Some boundary) h.
Proof using All.
  intros Hn Hr. apply comes_after_boundary. destruct Hr as [?|[E [L|[E' _]]]]; [by left|by right|done].
Qed.
End Boundary.

Section Pages.
Context {Seg : Type} `{!Segments Seg} `{!Columns Seg} `{!Searcher Seg} (HS : SearcherLaws Seg) `{!Dictionaries} `{!DictionariesLaws}
  `{!TopNComputer} `{!TopNLaws} `{!Counting Seg} (HC : CountingLaws Seg).
(** Every live document has an ID of its own. *)
Definition ids_distinct : Prop := NoDup ((λ h : Hit, h.1.2) <$> all_hits).
Lemma after_hits_none : after_hits None = ranking all_hits.
Proof. unfold after_hits. f_equal. by apply filter_all. Qed.
Lemma after_hits_drop boundary k h : ids_distinct → ranking all_hits !! k = Some h → boundary_at boundary h → after_hits (Some boundary) = drop (S k) (ranking all_hits).
Proof using HS.
  intros Hd Hk Hat. unfold after_hits. unfold ranking at 1. rewrite merge_sort_filter by apply _. fold (ranking all_hits).
  pose proof (StronglySorted_merge_sort ranks_before all_hits) as Hs. fold (ranking all_hits) in Hs.
  assert (∀ x, x ∈ ranking all_hits → score_ok x.1.1) as Hscore by (intros x Hx; apply (ranking_elem all_hits) in Hx; by destruct (all_hits_elem HS x Hx)).
  assert (NoDup ((λ h : Hit, h.1.2) <$> ranking all_hits)) as Hnd.
  { unfold ids_distinct in Hd. unfold ranking. by rewrite merge_sort_Permutation. }
  revert Hk Hs Hscore Hnd. generalize (ranking all_hits). clear Hd. intros l Hk Hs Hscore Hnd.
  assert (h ∈ l) as Hin by (by eapply list_elem_of_lookup_2).
  rewrite <- (take_drop (S k) l) at 1. rewrite filter_app, filter_none, filter_all; [done| |].
  - intros x Hx. assert (x ∈ l) as Hxl by (rewrite <- (take_drop (S k) l); apply elem_of_app; by right).
    rewrite <- (take_drop (S k) l) in Hs. rewrite <- (take_drop (S k) l), fmap_app in Hnd. apply NoDup_app in Hnd as (_ & Hdis & _).
    assert (h ∈ take (S k) l) as Hht by (rewrite (take_S_r _ _ h Hk); apply elem_of_app; right; by left).
    apply (still_ahead boundary h); [done|by apply Hscore..| |by apply (StronglySorted_app_1_elem_of _ _ _ h x Hs)].
    intros E. apply (Hdis h.1.2); apply list_elem_of_fmap; [by exists h|by exists x].
  - intros x Hx. assert (x ∈ l) as Hxl by (rewrite <- (take_drop (S k) l); apply elem_of_app; by left).
    apply (seen_before boundary h); [done|by apply Hscore..|]. rewrite (take_S_r _ _ h Hk) in Hx. apply elem_of_app in Hx as [Hx| ->%list_elem_of_singleton]; [|by destruct (total ranks_before h h)].
    rewrite <- (take_drop k l) in Hs. apply (StronglySorted_app_1_elem_of _ _ _ x h Hs); [done|]. apply (list_elem_of_lookup_2 _ 0%nat). by rewrite lookup_drop, Nat.add_0_r.
Qed.
(** The request asks for what follows the first [n] hits. *)
Definition continues (request : SearchRequest.t) (n : N) : Prop :=
  match request.(SearchRequest.after) with
  | None => n = 0
  | Some boundary => ∃ h, 0 < n ∧ ranking all_hits !! N.to_nat (n - 1) = Some h ∧ boundary_at boundary h
  end.
Lemma continues_rest request n : ids_distinct → continues request n → after_hits request.(SearchRequest.after) = drop (N.to_nat n) (ranking all_hits).
Proof using HS.
  unfold continues. intros Hd. destruct (SearchRequest.after request) as [b|].
  - intros (h & Hn & Hk & Hat). rewrite (after_hits_drop _ _ _ Hd Hk Hat). f_equal. lia.
  - intros ->. apply after_hits_none.
Qed.
Hypothesis Hversions : versions_ok.
Hypothesis Hids : ids_known.


(** C5: Pages of a traversal follow each other: a request continued from the last
    of the first [n] hits answers with the page that starts at [n], without gap
    or overlap, with the exact total and with whether more hits follow. *)
Theorem traversal_page request snapshot catalog stable_scores n :
  window_ok request.(SearchRequest.offset) request.(SearchRequest.limit) true → ids_distinct → n <= match_count → continues request n →
  Timed (collect_search request catalog (Some snapshot) stable_scores) (λ r,
    r.(SearchResult.hits) = page_of n request.(SearchRequest.limit)
    ∧ (r.(SearchResult.total), r.(SearchResult.total_relation)) = (match_count, TotalRelation.Exact)
    ∧ r.(SearchResult.traversal) = Some (snapshot, n + request.(SearchRequest.limit) <? match_count)
    ∧ lenN (search_body r) <= MAX_SEARCH_RESPONSE_BYTES) search_failure.
Proof using HS Hversions Hids H0 H2.
  intros [_ [_ Hw]] Hd Hn Hc. unfold collect_search. eapply Timed_weaken; [by apply (collect_traversal_ok HS Hversions Hids)| |done].
  intros r (Eh & Et & Em & _ & Hb). rewrite (continues_rest _ _ Hd Hc) in Eh, Em. split; [exact Eh|]. split; [exact Et|]. split; [|exact Hb].
  rewrite Em. do 2 f_equal. unfold lenN at 1. rewrite length_drop. pose proof (lenN_ranking all_hits) as El. rewrite (all_hits_count Hids) in El. unfold lenN in El.
  destruct (N.ltb_spec (n + request.(SearchRequest.limit)) match_count) as [?|?]; [apply N.ltb_lt|apply N.ltb_ge]; lia.
Qed.

(** The strategies agree: the stable collector and the ranking by score, with
    or without a deadline, give the same hits and totals. *)
Theorem strategies_agree page request catalog catalog' stable stable' clock clock' r r' rest rest' :
  window_ok request.(SearchRequest.offset) request.(SearchRequest.limit) false → request.(SearchRequest.sort) = None →
  (∀ c, catalog = Some c → catalog_ok page c) → (∀ c, catalog' = Some c → catalog_ok page c) →
  collect_search request catalog None stable clock = Ok (r, rest) → collect_search request catalog' None stable' clock' = Ok (r', rest') →
  r.(SearchResult.hits) = r'.(SearchResult.hits) ∧ r.(SearchResult.total) = r'.(SearchResult.total)
  ∧ r.(SearchResult.total_relation) = r'.(SearchResult.total_relation).
Proof using All.
  intros [Hl Hw] Hs Hc Hc' E E'. unfold collect_search in E, E'. rewrite Hs in E, E'. rewrite bool_decide_eq_false_2 in E, E' by by intros [? ?].
  pose proof (collect_plain_ok HS HC Hversions Hids (page := page) request catalog stable Hl Hw Hc clock) as Hr. rewrite E in Hr. destruct Hr as [(-> & Ht & _) _].
  pose proof (collect_plain_ok HS HC Hversions Hids (page := page) request catalog' stable' Hl Hw Hc' clock') as Hr. rewrite E' in Hr. destruct Hr as [(-> & Ht' & _) _].
  rewrite <- Ht' in Ht. injection Ht as -> ->. done.
Qed.
End Pages.

(** ** The sample *)
Definition sample_search (after : option SearchBoundary.t) (traversal : bool) : SearchRequest.t :=
  SearchRequest.mk None [] (SearchExpression.Clause (SearchClause.mk (blit "t") SearchMode.Any (QueryOptions.mk 1 true) [])) None None 0 2 true 1000 traversal after.
Definition sample_page : list SearchHit.t :=
  [SearchHit.mk (blit "b") 0x40000000 None; SearchHit.mk (blit "d") 0x40000000 (Some (blit "2"))].
Definition sample_next : list SearchHit.t :=
  [SearchHit.mk (blit "a") 0x3F800000 (Some (blit "1")); SearchHit.mk (blit "c") 0x3F000000 None].
Definition sample_boundary : SearchBoundary.t := SearchBoundary.mk (blit "s") 0x40000000 (blit "d").
Lemma sample_distinct : ids_distinct (Seg := ListSegment.t).
Proof. unfold ids_distinct. decide_now. Qed.
Lemma sample_window : window_ok 0 2 false ∧ window_ok 0 2 true.
Proof. unfold window_ok. split; (split; [done|]); [done|split; done]. Qed.

Lemma traversal_page_witness : page_of (Seg := ListSegment.t) 2 2 = sample_next
  ∧ Timed (collect_search (Seg := ListSegment.t) (sample_search (Some sample_boundary) true) None (Some (blit "s")) true) (λ r,
      r.(SearchResult.hits) = page_of (Seg := ListSegment.t) 2 2 ∧ (r.(SearchResult.total), r.(SearchResult.total_relation)) = (match_count (Seg := ListSegment.t), TotalRelation.Exact)
      ∧ r.(SearchResult.traversal) = Some (blit "s", 2 + 2 <? match_count (Seg := ListSegment.t))
      ∧ lenN (search_body r) <= MAX_SEARCH_RESPONSE_BYTES) search_failure.
Proof.
  split; [reflexivity|]. apply (traversal_page list_searcher_laws sample_versions_ok sample_ids_known (sample_search (Some sample_boundary) true) (blit "s") None true 2);
    [apply sample_window|exact sample_distinct|vm_compute; discriminate|].
  exists ((0x40000000, blit "d"), (0, 1)). split; [reflexivity|]. split; [reflexivity|]. split; reflexivity.
Defined.
Definition sample_outcome (stable : bool) (clock : Clock) : SearchResult.t * Clock :=
  match collect_search (Seg := ListSegment.t) (sample_search None false) None None stable clock with
  | Ok r => r | _ => (SearchResult.mk [] None 0 TotalRelation.Exact [] None, None) end.
Lemma strategies_agree_witness :
  (sample_outcome true None).1.(SearchResult.hits) = (sample_outcome false (Some 100)).1.(SearchResult.hits)
  ∧ (sample_outcome true None).1.(SearchResult.total) = (sample_outcome false (Some 100)).1.(SearchResult.total)
  ∧ (sample_outcome true None).1.(SearchResult.total_relation) = (sample_outcome false (Some 100)).1.(SearchResult.total_relation).
Proof.
  apply (strategies_agree list_searcher_laws list_counting_laws sample_versions_ok sample_ids_known (λ _ _ _, True) (sample_search None false) None None true false None (Some 100)
    _ _ (sample_outcome true None).2 (sample_outcome false (Some 100)).2);
    [apply sample_window|reflexivity|discriminate|discriminate|vm_compute; reflexivity|vm_compute; reflexivity].
Defined.
