(* ===== verification/Engine.v ===== *)
(** * src/src/engine.rs: a search from its request to its answer

    [search_inner] admits a request, validates its catalog, checks that a
    traversal is continued on the snapshot it started on, builds the query and
    collects its answer.  The hash of a snapshot and the query are parameters. *)
From stdpp Require Import sorting.
From S2P Require Import Prelude.
From S2P Require Import Errors.
From S2P Require Import Bytes.
From S2P Require Import Wire.
From S2P Require Import Request.
From S2P Require Import Catalog.
From S2P Require Import Admission.
From S2P Require Import Results.
From S2P Require Import Aggregation.
From S2P Require Import Shape.
From S2P Require Import Response.
From S2P Require Import Deadline.
From S2P Require Import Failures.
From S2P Require Import Collecting.
From S2P Require Import Hits.
From S2P Require Import Ranking.
From S2P Require Import Merging.
From S2P Require Import Searching.
From S2P Require Import Versions.
From S2P Require Import Searched.
From S2P Require Import Answers.
From S2P Require Import SearchSample.
From S2P Require Import SearchPages.
Local Open Scope N_scope.

(** ** Snapshots *)
(** A segment by the text of its UUID, with the stamp of its last deletion: the
    entries of the [BTreeMap], in its order. *)
Definition Generation : Type := list (bytes * option N).
Definition SNAPSHOT_TAG : bytes := blit "fulltext-snapshot-v1" ++ [byte_of_N 0].
(** What the digest is updated with. *)
Definition snapshot_segment (entry : bytes * option N) : bytes :=
  entry.1 ++ le_split 1 (match entry.2 with Some _ => 1 | None => 0 end) ++ match entry.2 with Some opstamp => le_split 8 opstamp | None => [] end.
Definition snapshot_input (segments : Generation) : bytes :=
  SNAPSHOT_TAG ++ le_split 8 (lenN segments) ++ concat (snapshot_segment <$> segments).
(** [format!("{:x}", digest)] *)
Definition hex_digit (n : N) : byte := byte_of_N (if n <? 10 then 48 + n else 87 + n).
Definition hex (digest : bytes) : bytes := mjoin ((λ b, [hex_digit (Byte.to_N b / 16); hex_digit (Byte.to_N b mod 16)]) <$> digest).
Definition search_snapshot (sha256 : bytes → bytes) (segments : Generation) : bytes := hex (sha256 (snapshot_input segments)).

(** ** The search *)
Section Inner.
Context {Seg : Type} `{!Segments Seg} `{!Columns Seg} `{!Searcher Seg} `{!Dictionaries} `{!TopNComputer} `{!Counting Seg}.
(** The hash, the segments of the reader, the configured filter fields, the query
    (whether its scores are stable), and the collection of a request's catalog. *)
Context (sha256 : bytes → bytes) (generation : Generation) (filter_fields : list FilterFieldConfig.t).
Context (build_query : SearchRequest.t → M Clock bool) (catalogs : SearchRequest.t → Catalogs).
Definition cursor_expired : FulltextError := FulltextError_new "E_CURSOR_EXPIRED" "search snapshot changed; restart traversal on a dedicated reader".
(** The validated catalog of a request that has one. *)
Definition inner_catalog (request : SearchRequest.t) : outcome (option Catalogs) :=
  if request_has_catalog request then
    _ ← validate_requests request.(SearchRequest.sort) request.(SearchRequest.aggregations) filter_fields;
    _ ← check_aggregation_shape request.(SearchRequest.aggregations) (lenN segment_readers);
    Ok (Some (catalogs request))
  else Ok None.
Definition inner_snapshot (request : SearchRequest.t) : outcome (option bytes) :=
  if request.(SearchRequest.traversal) then
    let snapshot := search_snapshot sha256 generation in
    if match request.(SearchRequest.after) with Some after => negb (bool_decide (after.(SearchBoundary.snapshot) = snapshot)) | None => false end
    then Err cursor_expired else Ok (Some snapshot)
  else Ok None.
Definition search_inner (request : SearchRequest.t) : M Clock SearchResult.t :=
  _ ← lift (validate_search_admission request);
  if request.(SearchRequest.traversal) && request_has_catalog request
  then fail_with (invalid "sort and aggregations are not supported by searchPage") else
  catalog ← lift (inner_catalog request);
  _ ← check_deadline;
  snapshot ← lift (inner_snapshot request);
  stable_scores ← build_query request;
  _ ← check_deadline;
  collect_search request catalog snapshot stable_scores.
(** [search] and [search_with_deadline] *)
Definition search (request : SearchRequest.t) : outcome SearchResult.t := run (search_inner request) None.
Definition search_with_deadline (request : SearchRequest.t) (checks : N) : outcome SearchResult.t := run (search_inner request) (Some checks).
End Inner.

(** ** Hexadecimal text *)
Lemma hex_digit_lower n : n < 16 → is_lower_hex (hex_digit n) = true.
Proof.
  intros Hn. unfold is_lower_hex, hex_digit. rewrite to_N_byte_of_N. destruct (N.ltb_spec n 10).
  - rewrite N.mod_small by lia. apply orb_true_iff. left. rewrite andb_true_iff, !N.leb_le. lia.
  - rewrite N.mod_small by lia. apply orb_true_iff. right. rewrite andb_true_iff, !N.leb_le. lia.
Qed.
Lemma hex_digit_inj a b : a < 16 → b < 16 → hex_digit a = hex_digit b → a = b.
Proof.
  intros Ha Hb E. apply (f_equal Byte.to_N) in E. unfold hex_digit in E. rewrite !to_N_byte_of_N in E.
  destruct (N.ltb_spec a 10), (N.ltb_spec b 10); rewrite !N.mod_small in E by lia; lia.
Qed.
Lemma nibbles b : Byte.to_N b / 16 < 16 ∧ Byte.to_N b mod 16 < 16.
Proof. pose proof (to_N_lt b). split; [apply N.Div0.div_lt_upper_bound; lia|by apply N.mod_lt]. Qed.
Lemma hex_cons b digest : hex (b :: digest) = hex_digit (Byte.to_N b / 16) :: hex_digit (Byte.to_N b mod 16) :: hex digest.
Proof. done. Qed.
Lemma hex_inj digest digest' : hex digest = hex digest' → digest = digest'.
Proof.
  revert digest'. induction digest as [|b digest IH]; intros [|b' digest'] E; [done..|].
  rewrite !hex_cons in E. injection E as E1 E2 E. f_equal; [|by apply IH].
  apply hex_digit_inj in E1, E2; try apply nibbles.
  rewrite <- (byte_of_to_N b), <- (byte_of_to_N b'). f_equal. rewrite (N.div_mod' (Byte.to_N b) 16), (N.div_mod' (Byte.to_N b') 16). by rewrite E1, E2.
Qed.
(** A digest of 32 bytes is a snapshot a continuation may name. *)
Lemma hex_snapshot digest : lenN digest = 32 → is_snapshot (hex digest) = true.
Proof.
  intros Hl. unfold is_snapshot. apply andb_true_iff. split.
  - apply N.eqb_eq. assert (lenN (hex digest) = 2 * lenN digest) as ->; [|lia]. clear Hl. induction digest as [|b digest IH]; [done|].
    rewrite hex_cons, !lenN_cons, IH. lia.
  - clear Hl. induction digest as [|b digest IH]; [done|]. rewrite hex_cons. cbn [forallb].
    rewrite !hex_digit_lower by apply nibbles. exact IH.
Qed.

(** ** What a snapshot tells *)
Definition generation_ok (segments : Generation) : Prop :=
  below 8 (lenN segments) ∧ Forall (λ s : bytes * option N, lenN s.1 = 32 ∧ ∀ opstamp, s.2 = Some opstamp → below 8 opstamp) segments.
Instance uuid_unambiguous : Unambiguous (λ s : bytes, s) (λ s, lenN s = 32).
Proof. intros a Ha b s t Hb. apply app_same_length. unfold lenN in *. lia. Qed.
Lemma snapshot_input_inj segments segments' : generation_ok segments → generation_ok segments' → snapshot_input segments = snapshot_input segments' → segments = segments'.
Proof.
  intros [Hl Hs] [Hl' Hs'] E. unfold snapshot_input in E. apply app_inv_head in E.
  assert (∀ l, concat (snapshot_segment <$> l) = concat (enc_pair (λ s : bytes, s) (enc_opt (le_split 8)) <$> l)) as Ex.
  { intros l. f_equal. apply list_fmap_ext. intros _ [u [o|]] _; unfold snapshot_segment, enc_pair, enc_opt, enc_bool, enc_u8; cbn [fst snd]; [done|by rewrite app_nil_r]. }
  rewrite !Ex in E. revert E. apply (unambiguous_inj (enc := counted 8 (enc_pair (λ s : bytes, s) (enc_opt (le_split 8)))));
    (split; [done|]); (eapply Forall_impl; [eassumption|]); intros [u o] [Hu Ho]; (split; [exact Hu|exact Ho]).
Qed.

(** * What a search promises

    The properties of [search_inner]: what it answers for which requests, with
    which errors it fails, and what its snapshots tell apart. *)
Section Promise.
Context {Seg : Type} `{!Segments Seg} `{!Columns Seg} `{!Searcher Seg} (HS : SearcherLaws Seg) `{!Dictionaries} `{!DictionariesLaws}
  `{!TopNComputer} `{!TopNLaws} `{!Counting Seg} (HC : CountingLaws Seg).
Hypothesis Hversions : versions_ok.
Hypothesis Hids : ids_known.
Context (sha256 : bytes → bytes) (generation : Generation) (filter_fields : list FilterFieldConfig.t).
Context (build_query : SearchRequest.t → M Clock bool) (catalogs : SearchRequest.t → Catalogs) (page : SearchRequest.t → N → N → list Hit → Prop).

Definition inner_failure (e : FulltextError) : Prop := search_failure e ∨ query_failure e ∨ e = cursor_expired.
(** The catalog was validated and its shape fits. *)
Definition catalog_admissible (request : SearchRequest.t) : Prop :=
  request_has_catalog request = true → request.(SearchRequest.traversal) = false
  ∧ requests_valid request.(SearchRequest.sort) request.(SearchRequest.aggregations) filter_fields
  ∧ shape_fits request.(SearchRequest.aggregations) (lenN segment_readers).
Hypothesis Hcatalogs : ∀ request, request_has_catalog request = true → catalog_admissible request →
  Forall strings_short request.(SearchRequest.aggregations) → catalog_ok (page request) (catalogs request).
(** The page a search promises: of the hits that come after the boundary for a
    traversal, of all hits without a sort, and what its catalog promises with one. *)
Definition promised_hits (request : SearchRequest.t) (r : SearchResult.t) : Prop :=
  if request.(SearchRequest.traversal) then
    r.(SearchResult.hits) = to_search_hit <$> take (N.to_nat request.(SearchRequest.limit)) (after_hits request.(SearchRequest.after))
    ∧ r.(SearchResult.traversal) = Some (search_snapshot sha256 generation, request.(SearchRequest.limit) <? lenN (after_hits request.(SearchRequest.after)))
    ∧ ∀ after, request.(SearchRequest.after) = Some after → after.(SearchBoundary.snapshot) = search_snapshot sha256 generation
  else r.(SearchResult.traversal) = None
    ∧ (request.(SearchRequest.sort) = None → r.(SearchResult.hits) = page_of request.(SearchRequest.offset) request.(SearchRequest.limit))
    ∧ (is_Some request.(SearchRequest.sort) → ∃ hits, page request request.(SearchRequest.offset) request.(SearchRequest.limit) hits ∧ r.(SearchResult.hits) = to_search_hit <$> hits).
Definition promised (request : SearchRequest.t) (r : SearchResult.t) : Prop :=
  search_admissible request ∧ catalog_admissible request ∧ promised_hits request r ∧ answer_bounded request r
  ∧ (request.(SearchRequest.exact_total) = true ∨ request.(SearchRequest.traversal) = true →
     (r.(SearchResult.total), r.(SearchResult.total_relation)) = (match_count, TotalRelation.Exact)).

Lemma inner_catalog_ok request : Forall strings_short request.(SearchRequest.aggregations) →
  request.(SearchRequest.traversal) && request_has_catalog request = false →
  Timed (lift (inner_catalog filter_fields catalogs request)) (λ c, (∀ catalog, c = Some catalog → catalog_ok (page request) catalog) ∧ catalog_admissible request) inner_failure.
Proof using Hcatalogs.
  intros Hshort Htraversal. unfold inner_catalog, catalog_admissible. apply Timed_lift. destruct (request_has_catalog request) eqn:Ehas; [|done].
  rewrite andb_true_r in Htraversal.
  pose proof (validate_requests_rejects request.(SearchRequest.sort) request.(SearchRequest.aggregations) filter_fields) as Hv.
  destruct (validate_requests _ _ _) as [[]|e| |] eqn:Ev; [|left; left; right; destruct Hv; auto|done..]. cbn [mbind outcome_bind].
  apply validate_requests_Ok in Ev. destruct (check_shape_iff request.(SearchRequest.aggregations) (lenN segment_readers) Hshort) as [Hg Hs].
  destruct (check_aggregation_shape _ _) as [n|e| |]; [|destruct Hg; [left; left; right; by left|left; by right]|done..]. cbn [mbind outcome_bind].
  destruct (proj1 (Hs n) eq_refl) as [Hfits _]. assert (catalog_admissible request) as Hadm by (intros _; done).
  split; [intros ? [= <-]; by apply Hcatalogs|by intros _].
Qed.
Lemma inner_snapshot_ok request : Timed (lift (inner_snapshot sha256 generation request)) (λ s,
    s = (if request.(SearchRequest.traversal) then Some (search_snapshot sha256 generation) else None)
    ∧ (request.(SearchRequest.traversal) = true → ∀ after, request.(SearchRequest.after) = Some after → after.(SearchBoundary.snapshot) = search_snapshot sha256 generation)) inner_failure.
Proof.
  apply Timed_lift. unfold inner_snapshot. destruct (SearchRequest.traversal request); [|done]. cbv zeta.
  destruct (SearchRequest.after request) as [after|]; [|split; [done|by intros _ ? ?]]. case_bool_decide; cbn [negb]; [|by right; right].
  split; [done|]. by intros _ ? [= <-].
Qed.
Lemma Timed_inner {A} (m : M Clock A) Q : Timed m Q search_failure → Timed m Q inner_failure.
Proof. intros Hm. eapply Timed_weaken; [exact Hm|done|]. by left. Qed.
(** What is known once the query is built stays known. *)
Lemma search_inner_kept (P : Prop) request : Timed (build_query request) (λ _, P) query_failure →
  request.(SearchRequest.offset) <= USIZE_MAX → request.(SearchRequest.limit) <= USIZE_MAX → Forall strings_short request.(SearchRequest.aggregations) →
  Timed (search_inner sha256 generation filter_fields build_query catalogs request) (λ r, promised request r ∧ P) inner_failure.
Proof using All.
  intros Hquery Ho Hl Hshort. unfold search_inner. eapply (Timed_bind _ _ (λ _, search_admissible request)).
  { apply Timed_lift. pose proof (validate_search_admission_tame request) as Ht. pose proof (validate_search_admission_Ok request Ho Hl) as Ha.
    destruct (validate_search_admission request) as [[]|e| |]; [by apply Ha|left; left; right; by right|done..]. }
  intros _ Hadm. apply Timed_if; [intros _ s; left; left; left; right; by right|]. intros Htraversal.
  eapply Timed_bind; [by apply inner_catalog_ok|]. intros catalog [Hc Hadmc].
  eapply Timed_bind; [apply Timed_check|]. intros _ _.
  eapply Timed_bind; [apply inner_snapshot_ok|]. intros snapshot [-> Hsnap].
  eapply Timed_bind; [eapply Timed_weaken; [exact Hquery|intros ? HP; exact HP|by right; left]|]. intros stable HP. eapply (Timed_weaken _ (promised request)); [|intros r Hr; exact (conj Hr HP)|done].
  eapply Timed_bind; [apply Timed_check|]. intros _ _. apply Timed_inner.
  pose proof Hadm as Hadm'. destruct Hadm as [[Hpos Hw] _].
  unfold promised, promised_hits. destruct (SearchRequest.traversal request) eqn:Et.
  - destruct Hw as [_ Hw]. cbn [collect_search]. eapply Timed_weaken; [by apply (collect_traversal_ok HS Hversions Hids)| |done].
    intros r (Eh & Etot & Em & Hf & Hb). split; [done|]. split; [done|]. split; [split; [done|]; split; [done|]; by apply Hsnap|]. split; [|by intros _].
    unfold answer_bounded. rewrite Eh in *. split; [rewrite lenN_fmap, lenN_take; lia|]. split; [by apply hits_from_all, Forall_take, after_hits_in|done].
  - unfold collect_search. case_bool_decide as Hsort.
    + eapply Timed_weaken; [by apply (collect_sorted_ok HS HC Hversions Hids (page := page request))| |done]. intros r (Etot & Etr & Hb & Hpage).
      split; [done|]. split; [done|]. split; [|by split]. split; [done|]. split; [|by intros _]. intros En. rewrite En in Hsort. by destruct Hsort.
    + eapply Timed_weaken; [by apply (collect_plain_ok HS HC Hversions Hids (page := page request))| |done]. intros r Hr.
      split; [done|]. split; [done|]. pose proof (plain_answer_bounded _ _ Hr). destruct Hr as (Eh & Etot & Etr & _).
      split; [split; [done|]; by split|]. split; [done|]. rewrite Etot. unfold claimed_total. by intros [->|?].
Qed.
(** A search keeps its promise: an answer is given only to an admissible request
    with a valid catalog whose shape fits, and holds the page of the reference
    ranking that was asked for, all of them matches with finite scores, at most
    as many as asked for, in at most 8 MiB; a total that claims to be exact is
    the number of matches; a continued traversal is on the snapshot it started
    on.  Otherwise the search fails with an error of the index, of the request,
    of a limit, or with the deadline, and never panics. *)
Theorem search_inner_promise request : Timed (build_query request) (λ _, True) query_failure →
  request.(SearchRequest.offset) <= USIZE_MAX → request.(SearchRequest.limit) <= USIZE_MAX → Forall strings_short request.(SearchRequest.aggregations) →
  Timed (search_inner sha256 generation filter_fields build_query catalogs request) (promised request) inner_failure.
Proof using All. intros Hquery Ho Hl Hshort. eapply Timed_weaken; [by apply (search_inner_kept True)|by intros r [Hr _]|done]. Qed.
End Promise.

(** ** Snapshots *)
(** C17: Snapshots tell readers apart: two readers have the same snapshot only when
    they have the same segments with the same deletions, unless two different
    inputs of the hash collide; and a snapshot is accepted as the boundary of a
    continuation. *)
Theorem snapshot_determines (sha256 : bytes → bytes) segments segments' :
  generation_ok segments → generation_ok segments' → search_snapshot sha256 segments = search_snapshot sha256 segments' →
  (segments = segments' ∨ ∃ a b, a ≠ b ∧ sha256 a = sha256 b)
  ∧ ((∀ input, lenN (sha256 input) = 32) → is_snapshot (search_snapshot sha256 segments) = true).
Proof.
  intros Hok Hok' E. apply hex_inj in E. split; [|intros Hl; by apply hex_snapshot].
  destruct (decide (snapshot_input segments = snapshot_input segments')) as [Ei|Hn]; [left; by apply snapshot_input_inj|]. right. eauto.
Qed.

(** ** The sample *)
Definition sample_hash (input : bytes) : bytes := take 32 (input ++ replicate 32 "0"%byte).
Definition sample_generation : Generation := [(replicate 32 "a"%byte, None); (replicate 32 "b"%byte, Some 7)].
Definition sample_query (_ : SearchRequest.t) : M Clock bool := mret true.
Definition sample_catalogs (_ : SearchRequest.t) : Catalogs := {|
  sorted_catalog _ _ := mret ([], match_count (Seg := ListSegment.t), []);
  aggregate_count := mret (match_count (Seg := ListSegment.t), []);
  aggregate := mret [] |}.
Lemma sample_catalog_ok request : catalog_ok (Seg := ListSegment.t) (λ _ _ _, True) (sample_catalogs request).
Proof. split; intros; apply Timed_ret; cbn; [|done|done]. split; [done|]. split; [constructor|]. unfold lenN. cbn. lia. Qed.
Lemma search_inner_promise_witness :
  Timed (search_inner (Seg := ListSegment.t) sample_hash sample_generation [] sample_query sample_catalogs (sample_search None false))
    (promised (Seg := ListSegment.t) sample_hash sample_generation [] (λ _ _ _ _, True) (sample_search None false)) inner_failure
  ∧ match search (Seg := ListSegment.t) sample_hash sample_generation [] sample_query sample_catalogs (sample_search None false) with
    | Ok r => r.(SearchResult.hits) = sample_page | _ => False end.
Proof.
  split; [|vm_compute; reflexivity].
  apply (search_inner_promise list_searcher_laws list_counting_laws sample_versions_ok sample_ids_known sample_hash sample_generation [] sample_query sample_catalogs (λ _ _ _ _, True));
    [intros; apply sample_catalog_ok|by apply Timed_ret|vm_compute; discriminate|vm_compute; discriminate|constructor].
Defined.
Lemma sample_generation_ok : generation_ok sample_generation.
Proof. split; [done|]. repeat constructor; cbn; congruence || (intros ? [= <-]; done). Qed.
Lemma snapshot_determines_witness :
  (sample_generation = sample_generation ∨ ∃ a b, a ≠ b ∧ sample_hash a = sample_hash b)
  ∧ ((∀ input, lenN (sample_hash input) = 32) → is_snapshot (search_snapshot sample_hash sample_generation) = true).
Proof. apply (snapshot_determines sample_hash sample_generation sample_generation); [exact sample_generation_ok|exact sample_generation_ok|reflexivity]. Defined.
