(* ===== verification/Query.v ===== *)
(** * src/src/engine.rs: the query of a search

    A search expression, the candidate IDs and the filter of a request become a
    query of the index crate, given here by the constructors the code uses.  The
    construction is bounded by the clauses of the configuration. *)
From stdpp Require Import sorting.
From Stdlib Require Import Floats.SpecFloat.
From S2P Require Import Prelude.
From S2P Require Import Errors.
From S2P Require Import Bytes.
From S2P Require Import Wire.
From S2P Require Import Request.
From S2P Require Import Structure.
From S2P Require Import Admission.
From S2P Require Import Text.
From S2P Require Import Spans.
From S2P Require Import Analysis.
From S2P Require Import Membership.
From S2P Require Import Plan.
From S2P Require Import Hits.
From S2P Require Import Merging.
From S2P Require Import Ranking.
From S2P Require Import Collecting.
Local Open Scope N_scope.

(** ** Queries of the index crate *)
Module Term.
Inductive value := Text (s : bytes) | Bytes (s : bytes) | F64 (v : f64) | Bool (b : bool).
Record t := mk { field : N; content : value }.
Definition from_field_text (field : N) (s : bytes) : t := mk field (Text s).
Definition from_field_bytes (field : N) (s : bytes) : t := mk field (Bytes s).
Definition from_field_f64 (field : N) (v : f64) : t := mk field (F64 v).
Definition from_field_bool (field : N) (b : bool) : t := mk field (Bool b).
End Term.
Module Occur.
Inductive t := Should | Must | MustNot.
End Occur.
#[export] Instance Occur_eq_dec : EqDecision Occur.t.
Proof. solve_decision. Defined.
Module Bound.
Inductive t := Unbounded | Included (term : Term.t) | Excluded (term : Term.t).
End Bound.
Module Query.
Inductive t :=
| AllQuery
| EmptyQuery
| TermQuery (term : Term.t)
| TermSetQuery (terms : list Term.t)
| PhraseQuery (terms : list (N * Term.t))
| FuzzyTermQuery (term : Term.t) (distance : N) (transpositions prefix : bool)
| RangeQuery (lower upper : Bound.t)
| ExistsQuery (field : bytes)
| BooleanQuery (clauses : list (Occur.t * t))
| DisjunctionMaxQuery (disjuncts : list t)
| ConstScoreQuery (query : t) (score : f32)
| BoostQuery (query : t) (boost : f32).
End Query.
Import Query.
Module BuiltQuery.
Record t := mk { query : Query.t; clauses : N; stable_scores : bool }.
End BuiltQuery.

(** ** Weights *)
(** The pattern of a canonical single. *)
Definition f32_bits (x : spec_float) : f32 :=
  let sign (s : bool) := if s then 2 ^ 31 else 0 in
  match x with
  | S754_zero s => sign s
  | S754_infinity s => sign s + 255 * 2 ^ 23
  | S754_nan => 255 * 2 ^ 23 + 2 ^ 22
  | S754_finite s m e => sign s + (if N.pos m <? 2 ^ 23 then N.pos m else Z.to_N (e + 150) * 2 ^ 23 + (N.pos m - 2 ^ 23))
  end.
Definition f32_mul (a b : f32) : f32 := f32_bits (SFmul 24 128 (f32_spec a) (f32_spec b)).
Definition f32_add (a b : f32) : f32 := f32_bits (SFadd 24 128 (f32_spec a) (f32_spec b)).
(** [f32::max]: a number when one of the two is. *)
Definition f32_max (a b : f32) : f32 := match SFcompare (f32_spec a) (f32_spec b) with Some Lt => b | Some _ => a | None => match f32_spec a with S754_nan => b | _ => a end end.
Definition F32_QUARTER : f32 := 0x3E800000.
(** The bonus of an exact match. *)
Definition exact_bonus (fields : list EngineField.t) : f32 := f32_add (f32_mul (foldl f32_max 0 (EngineField.weight <$> fields)) F32_QUARTER) F32_ONE.
Definition boosted (query : Query.t) (weight : f32) : Query.t := if f32_eq weight F32_ONE then query else BoostQuery query weight.
Definition complement_query (query : Query.t) : Query.t := BooleanQuery [(Occur.Must, AllQuery); (Occur.MustNot, query)].

(** ** What is read of the index *)
(** The terms of a field's dictionary in a segment, from one term on and below
    another, in order; the name of a field in the schema; and the length of the
    longest term. *)
Class Terms (Seg : Type) := {
  term_range : Seg → N → bytes → option bytes → outcome (list bytes);
  get_field_name : N → bytes;
  MAX_TOKEN_LEN : N }.
Module EngineFilterField.
Record t := mk { name : bytes; field : N; field_type : FilterFieldType.t }.
End EngineFilterField.

Section Build.
Context `{Unicode} `{Automata} {Seg : Type} `{!Searcher Seg} `{!Terms Seg}.
Context (final_analyzer : bytes → list Token.t) (self : Engine.t).
Context (filter_fields : list EngineFilterField.t) (filter_field_lookup : gmap bytes N).

(** ** Checks *)
Definition too_many_clauses : FulltextError := invalid ("search query exceeds " +:+ show self.(Engine.max_query_clauses) +:+ " clauses").
Definition check_clause_count (groups alternatives : N) : outcome () :=
  if self.(Engine.max_query_clauses) <? saturating_mul groups alternatives then Err too_many_clauses else Ok ().
Definition check_total_clause_count (clauses additional : N) : outcome () :=
  if self.(Engine.max_query_clauses) <? saturating_add clauses additional then Err too_many_clauses else Ok ().
Definition too_broad (message : string) : FulltextError := FulltextError_new "E_PREFIX_TOO_BROAD" message.
Definition prefix_exceeds : FulltextError := too_broad ("prefix query exceeds " +:+ show self.(Engine.max_query_clauses) +:+ " clauses").
Definition no_surface_terms : FulltextError := invalid "prefix search requires surfaceTerms to be enabled".

(** ** Terms *)
(** A query with its clauses and whether its scores are stable. *)
Definition Built : Type := Query.t * N * bool.
Definition weighted_term (term : bytes) (field : EngineField.t) : Query.t :=
  boosted (TermQuery (Term.from_field_text field.(EngineField.field) term)) field.(EngineField.weight).
Definition term_group (term : bytes) (fields : list EngineField.t) : Query.t :=
  BooleanQuery ((λ field, (Occur.Should, weighted_term term field)) <$> fields).
Definition term_query (text : bytes) (fields : list EngineField.t) (occur : Occur.t) : outcome Built :=
  terms ← analyze self text false true;
  if bool_decide (terms = []) then Ok (EmptyQuery, 0, false) else
  _ ← check_clause_count (lenN terms) (lenN fields);
  let clauses := saturating_mul (lenN terms) (lenN fields) in
  if bool_decide (occur = Occur.Should) then
    let alternatives := terms ≫= λ term : bytes, (λ field, (Occur.Should, weighted_term term field)) <$> fields in
    Ok (BooleanQuery alternatives, clauses, 1 <? clauses)
  else Ok (BooleanQuery ((λ term : bytes, (occur, term_group term fields)) <$> terms), clauses, (2 <? lenN terms) && (0 <? clauses)).
(** [terms[0].0] and the positions relative to it. *)
Definition phrase_of (terms : list (N * bytes)) (field : EngineField.t) : outcome Query.t :=
  first ← unwrap (head terms);
  offsets ← mapO (λ e : N * bytes, offset ← usize_sub e.1 first.1; Ok (offset, Term.from_field_text field.(EngineField.field) e.2)) terms;
  Ok (boosted (PhraseQuery offsets) field.(EngineField.weight)).
Definition phrase_query (text : bytes) (fields : list EngineField.t) : M QueryConstructionBudget.t Built :=
  if negb self.(Engine.positions) then lift (Err (invalid "phrase search requires positions to be enabled")) else
  terms ← lift (analyze_positioned self text);
  match terms with
  | [] => mret (EmptyQuery, 0, false)
  | first :: rest =>
      _ ← lift (check_clause_count 1 (lenN fields));
      _ ← QueryConstructionBudget.phrase (lenN terms) (lenN fields);
      if bool_decide (rest = []) then mret (term_group first.2 fields, lenN fields, 1 <? lenN fields) else
      alternatives ← lift (mapO (λ field, q ← phrase_of terms field; Ok (Occur.Should, q)) fields);
      mret (BooleanQuery alternatives, lenN fields, false)
  end.

(** ** Fuzzy terms *)
Definition fuzzy_alternative (term : bytes) (prefix : bool) (options : QueryOptions.t) (field : EngineField.t) : outcome Query.t :=
  query_field ← (if prefix then ok_or field.(EngineField.surface_field) no_surface_terms else Ok field.(EngineField.field));
  let query := FuzzyTermQuery (Term.from_field_text query_field term) options.(QueryOptions.fuzzy_distance) options.(QueryOptions.fuzzy_transpositions) prefix in
  Ok (BoostQuery (ConstScoreQuery query F32_QUARTER) field.(EngineField.weight)).
Definition fuzzy_group (term : bytes) (fields : list EngineField.t) (prefix : bool) (options : QueryOptions.t) : outcome Query.t :=
  alternatives ← mapO (fuzzy_alternative term prefix options) fields; Ok (DisjunctionMaxQuery alternatives).
(** A match that scores more when it is exact. *)
Definition exact_branch (exact : Query.t) (bonus : f32) : Query.t := BooleanQuery [(Occur.Must, exact); (Occur.Must, ConstScoreQuery exact bonus)].
Definition with_fuzzy (exact : Query.t) (term : bytes) (fields : list EngineField.t) (prefix : bool) (options : QueryOptions.t) : outcome Query.t :=
  let exact_branch := exact_branch exact (exact_bonus fields) in
  if options.(QueryOptions.fuzzy_distance) =? 0 then Ok exact_branch else
  fuzzy ← fuzzy_group term fields prefix options; Ok (DisjunctionMaxQuery [exact_branch; fuzzy]).
Definition fuzzy_clause (fields : list EngineField.t) (options : QueryOptions.t) (pair : bytes * bytes) : outcome (Occur.t * Query.t) :=
  let '(analyzed, surface) := pair in
  let exact := term_group analyzed fields in
  if negb (fuzzy_eligible surface) then Ok (Occur.Should, exact) else
  query ← with_fuzzy exact analyzed fields false options; Ok (Occur.Should, query).
Definition fuzzy_query (text : bytes) (fields : list EngineField.t) (options : QueryOptions.t) : M QueryConstructionBudget.t Built :=
  pairs ← lift (fuzzy_pairs self text);
  if bool_decide (pairs = []) then mret (EmptyQuery, 0, false) else
  let fuzzy_terms := lenN (filter (λ '(_, term), fuzzy_eligible term) pairs) in
  if MAX_FUZZY_TERMS <? fuzzy_terms then lift (Err (invalid ("fuzzy search contains more than " +:+ show MAX_FUZZY_TERMS +:+ " eligible terms"))) else
  _ ← lift (check_clause_count (lenN pairs) (saturating_mul (lenN fields) 3));
  _ ← QueryConstructionBudget.fuzzy fuzzy_terms (lenN fields) options.(QueryOptions.fuzzy_distance);
  stable ← lift (usize_sub (lenN pairs) fuzzy_terms);
  let clause_count := saturating_mul (lenN pairs) (saturating_mul (lenN fields) 3) in
  clauses ← lift (mapO (fuzzy_clause fields options) pairs);
  mret (BooleanQuery clauses, clause_count, 2 <=? stable).

(** ** Prefixes *)
(** A term of the stream, after those already seen. *)
Definition expand_term (alternatives remaining_clauses : N) (terms : gset bytes) (term : bytes) : outcome (gset bytes) :=
  let terms := {[term]} ∪ terms in
  if MAX_PREFIX_EXPANSIONS <? N.of_nat (size terms)
  then Err (too_broad ("prefix expands to more than " +:+ show MAX_PREFIX_EXPANSIONS +:+ " terms")) else
  if remaining_clauses <? saturating_add alternatives (N.of_nat (size terms)) then Err prefix_exceeds else Ok terms.
Definition expand_segment (prefix : bytes) (surface_field alternatives remaining_clauses : N) (terms : gset bytes) (segment : Seg) : outcome (gset bytes) :=
  stream ← term_range segment surface_field prefix (prefix_end prefix);
  foldO (expand_term alternatives remaining_clauses) terms stream.
Definition expand_field (prefix : bytes) (remaining_clauses : N) (alternatives : list Query.t) (field : EngineField.t) : outcome (list Query.t) :=
  surface_field ← ok_or field.(EngineField.surface_field) no_surface_terms;
  terms ← foldO (expand_segment prefix surface_field (lenN alternatives) remaining_clauses) ∅ segment_readers;
  Ok (alternatives ++ ((λ term, boosted (TermQuery (Term.from_field_bytes surface_field term)) field.(EngineField.weight))
    <$> merge_sort bytes_le (elements terms))).
Definition expanded_prefix_group (prefix : bytes) (fields : list EngineField.t) (remaining_clauses : N) : outcome (Query.t * N) :=
  alternatives ← foldO (expand_field prefix remaining_clauses) [] fields;
  if bool_decide (alternatives = []) then Ok (EmptyQuery, 0) else Ok (DisjunctionMaxQuery alternatives, lenN alternatives).
(** The last clause: the expanded prefix, and what is near it. *)
Definition prefix_final (exact_prefix : Query.t) (surface_prefix : bytes) (fields : list EngineField.t) (fuzzy : bool) (options : QueryOptions.t) : outcome Query.t :=
  if fuzzy && fuzzy_eligible surface_prefix then with_fuzzy exact_prefix surface_prefix fields true options else Ok exact_prefix.
Definition prefix_clauses (completed : list bytes) (surface_prefix : bytes) (fields : list EngineField.t) (fuzzy : bool) (options : QueryOptions.t)
  : M QueryConstructionBudget.t Built :=
  let eligible := fuzzy && fuzzy_eligible surface_prefix in
  let minimum := if fuzzy then 4 else 3 in
  if lenN (chars surface_prefix) <? minimum
  then lift (Err (invalid ((if fuzzy then "fuzzy" else "exact") +:+ " prefix must contain at least " +:+ show minimum +:+ " Unicode characters"))) else
  let completed_clause_count := saturating_mul (lenN completed) (lenN fields) in
  let fuzzy_clause_count := if eligible then lenN fields else 0 in
  let known_clause_count := saturating_add completed_clause_count fuzzy_clause_count in
  if self.(Engine.max_query_clauses) <? known_clause_count then lift (Err prefix_exceeds) else
  let stable_scores := (2 <? lenN completed + 1) && negb eligible in
  remaining ← lift (usize_sub self.(Engine.max_query_clauses) known_clause_count);
  '(exact_prefix, prefix_clause_count) ← lift (expanded_prefix_group surface_prefix fields remaining);
  if self.(Engine.max_query_clauses) <? saturating_add (saturating_add completed_clause_count prefix_clause_count) fuzzy_clause_count
  then lift (Err prefix_exceeds) else
  _ ← QueryConstructionBudget.fuzzy (if eligible then 1 else 0) (lenN fields) options.(QueryOptions.fuzzy_distance);
  final_group ← lift (prefix_final exact_prefix surface_prefix fields fuzzy options);
  clauses ← lift (usize_add completed_clause_count prefix_clause_count);
  clauses ← lift (usize_add clauses fuzzy_clause_count);
  mret (BooleanQuery (((λ term, (Occur.Must, term_group term fields)) <$> completed) ++ [(Occur.Must, final_group)]), clauses, stable_scores).
Definition prefix_query (text : bytes) (fields : list EngineField.t) (fuzzy : bool) (options : QueryOptions.t) : M QueryConstructionBudget.t Built :=
  _ ← lift (require_surface_fields fields);
  if match last (chars text) with Some c => is_whitespace c | None => false end then lift (term_query text fields Occur.Must) else
  '(completed, surface_prefix) ← lift (final_surface_term final_analyzer self text);
  match surface_prefix with
  | None => mret (EmptyQuery, 0, false)
  | Some surface_prefix => prefix_clauses completed surface_prefix fields fuzzy options
  end.

(** ** Expressions *)
Definition built (b : Built) : BuiltQuery.t := let '(query, clauses, stable_scores) := b in BuiltQuery.mk query clauses stable_scores.
Definition clause_query (clause : SearchClause.t) : M QueryConstructionBudget.t BuiltQuery.t :=
  fields ← lift (selected_fields self clause.(SearchClause.fields));
  let text := clause.(SearchClause.text) in let options := clause.(SearchClause.options) in
  b ← match clause.(SearchClause.mode) with
    | SearchMode.Any => lift (term_query text fields Occur.Should)
    | SearchMode.All => lift (term_query text fields Occur.Must)
    | SearchMode.Phrase => phrase_query text fields
    | SearchMode.Prefix => prefix_query text fields false options
    | SearchMode.Fuzzy => fuzzy_query text fields options
    | SearchMode.FuzzyPrefix => prefix_query text fields true options
    end;
  mret (built b).
Section Children.
Context (expression_query_inner : SearchExpression.t → M QueryConstructionBudget.t BuiltQuery.t).
(** The body of the loops over children. *)
Definition push_child (occur : Occur.t) (acc : N * list (Occur.t * Query.t)) (child : SearchExpression.t)
  : M QueryConstructionBudget.t (N * list (Occur.t * Query.t)) :=
  let '(clauses, queries) := acc in
  child ← expression_query_inner child;
  _ ← lift (check_total_clause_count clauses child.(BuiltQuery.clauses));
  clauses ← lift (usize_add clauses child.(BuiltQuery.clauses));
  mret (clauses, queries ++ [(occur, child.(BuiltQuery.query))]).
Definition boolean_query (children : list SearchExpression.t) (occur : Occur.t) : M QueryConstructionBudget.t BuiltQuery.t :=
  '(clauses, queries) ← foldM (push_child occur) (lenN children, []) children;
  mret (BuiltQuery.mk (BooleanQuery queries) clauses ((if bool_decide (occur = Occur.Must) then 2 else 1) <? lenN children)).
End Children.
Fixpoint expression_query_inner (expression : SearchExpression.t) : M QueryConstructionBudget.t BuiltQuery.t :=
  match expression with
  | SearchExpression.Clause clause => clause_query clause
  | SearchExpression.And children => boolean_query expression_query_inner children Occur.Must
  | SearchExpression.Or children => boolean_query expression_query_inner children Occur.Should
  | SearchExpression.Boost boost clause =>
      child ← expression_query_inner clause;
      _ ← lift (check_total_clause_count child.(BuiltQuery.clauses) 1);
      clauses ← lift (usize_add child.(BuiltQuery.clauses) 1);
      mret (BuiltQuery.mk (boosted child.(BuiltQuery.query) boost) clauses (child.(BuiltQuery.stable_scores) && f32_eq boost F32_ONE))
  | SearchExpression.Optional required optional =>
      let clauses := lenN optional + 1 in
      required ← expression_query_inner required;
      _ ← lift (check_total_clause_count clauses required.(BuiltQuery.clauses));
      clauses ← lift (usize_add clauses required.(BuiltQuery.clauses));
      '(clauses, queries) ← foldM (push_child expression_query_inner Occur.Should) (clauses, [(Occur.Must, required.(BuiltQuery.query))]) optional;
      mret (BuiltQuery.mk (BooleanQuery queries) clauses false)
  | SearchExpression.Not child =>
      child ← expression_query_inner child;
      _ ← lift (check_total_clause_count child.(BuiltQuery.clauses) 2);
      clauses ← lift (usize_add child.(BuiltQuery.clauses) 2);
      mret (BuiltQuery.mk (ConstScoreQuery (BooleanQuery [(Occur.Must, AllQuery); (Occur.MustNot, child.(BuiltQuery.query))]) 0) clauses false)
  end.
(** The boosted words at the root, whose weights are multiplied. *)
Definition boosted_words (expression : SearchExpression.t) : option (f32 * SearchClause.t) :=
  match expression with
  | SearchExpression.Boost boost (SearchExpression.Clause leaf) =>
      match leaf.(SearchClause.mode) with SearchMode.Any | SearchMode.All => Some (boost, leaf) | _ => None end
  | _ => None
  end.
Definition with_boost (boost : f32) (field : EngineField.t) : EngineField.t :=
  EngineField.mk field.(EngineField.name) field.(EngineField.field) field.(EngineField.surface_field) (f32_mul field.(EngineField.weight) boost).
Definition expression_query (expression : SearchExpression.t) : outcome BuiltQuery.t :=
  _ ← validate_search_structure expression self.(Engine.max_query_clauses) (lenN self.(Engine.fields));
  match boosted_words expression with
  | Some (boost, leaf) =>
      fields ← selected_fields self leaf.(SearchClause.fields);
      let occur := if bool_decide (leaf.(SearchClause.mode) = SearchMode.Any) then Occur.Should else Occur.Must in
      '(query, clauses, stable_scores) ← term_query leaf.(SearchClause.text) (with_boost boost <$> fields) occur;
      _ ← check_total_clause_count clauses 1;
      clauses ← usize_add clauses 1;
      Ok (BuiltQuery.mk query clauses stable_scores)
  | None => run (expression_query_inner expression) QueryConstructionBudget.default
  end.

(** ** Candidates *)
Definition with_candidates (query : Query.t) (candidate_ids : option (list bytes)) : Query.t :=
  match candidate_ids with
  | None => query
  | Some [] => EmptyQuery
  | Some candidate_ids =>
      let terms := Term.from_field_text self.(Engine.id_field) <$> elements (list_to_set candidate_ids : gset bytes) in
      BooleanQuery [(Occur.Must, query); (Occur.Must, ConstScoreQuery (TermSetQuery terms) 0)]
  end.

(** ** Filters *)
Definition canonical_number (value : f64) : f64 := if f64_eq value F64_ZERO then F64_ZERO else value.
Definition filter_term (field : EngineFilterField.t) (value : FilterValue.t) : outcome Term.t :=
  match field.(EngineFilterField.field_type), value with
  | FilterFieldType.String, FilterValue.String value =>
      if MAX_TOKEN_LEN <? lenN value
      then Err (invalid ("filter field " +:+ show_str field.(EngineFilterField.name) +:+ " exceeds " +:+ show MAX_TOKEN_LEN +:+ " UTF-8 bytes"))
      else Ok (Term.from_field_text field.(EngineFilterField.field) value)
  | FilterFieldType.Number, FilterValue.Number value =>
      _ ← validate_filter_number value; Ok (Term.from_field_f64 field.(EngineFilterField.field) (canonical_number value))
  | FilterFieldType.Boolean, FilterValue.Boolean value => Ok (Term.from_field_bool field.(EngineFilterField.field) value)
  | _, _ => Err (invalid ("filter field " +:+ show_str field.(EngineFilterField.name) +:+ " received the wrong value type"))
  end.
Definition expected_values (comparator : FilterComparator.t) : option N :=
  match comparator with
  | FilterComparator.In => None
  | FilterComparator.Between => Some 2
  | FilterComparator.Exists | FilterComparator.Missing => Some 0
  | _ => Some 1
  end.
Definition exists_query (field : EngineFilterField.t) : Query.t :=
  if bool_decide (field.(EngineFilterField.field_type) = FilterFieldType.Boolean)
  then BooleanQuery [(Occur.Should, TermQuery (Term.from_field_bool field.(EngineFilterField.field) true));
    (Occur.Should, TermQuery (Term.from_field_bool field.(EngineFilterField.field) false))]
  else ExistsQuery (get_field_name field.(EngineFilterField.field)).
Definition range_bounds (comparator : FilterComparator.t) (terms : list Term.t) : outcome (Bound.t * Bound.t) :=
  first ← unwrap (terms !! 0%nat);
  match comparator with
  | FilterComparator.Lt => Ok (Bound.Unbounded, Bound.Excluded first)
  | FilterComparator.Le => Ok (Bound.Unbounded, Bound.Included first)
  | FilterComparator.Gt => Ok (Bound.Excluded first, Bound.Unbounded)
  | FilterComparator.Ge => Ok (Bound.Included first, Bound.Unbounded)
  | FilterComparator.Between => second ← unwrap (terms !! 1%nat); Ok (Bound.Included first, Bound.Included second)
  | _ => Panic
  end.
Definition compare_query (field : EngineFilterField.t) (comparator : FilterComparator.t) (terms : list Term.t) : outcome Query.t :=
  match comparator with
  | FilterComparator.Exists | FilterComparator.Missing => Panic
  | FilterComparator.Equals => first ← unwrap (terms !! 0%nat); Ok (TermQuery first)
  | FilterComparator.In =>
      if lenN terms =? 1 then first ← unwrap (terms !! 0%nat); Ok (TermQuery first) else Ok (TermSetQuery terms)
  | _ =>
      if negb (bool_decide (field.(EngineFilterField.field_type) = FilterFieldType.Number))
      then Err (invalid "range filters require a number field") else
      '(lower, upper) ← range_bounds comparator terms; Ok (RangeQuery lower upper)
  end.
Definition filter_clause (name : bytes) (comparator : FilterComparator.t) (values : list FilterValue.t) : outcome Query.t :=
  let expected_values := expected_values comparator in
  if (bool_decide (values = []) && negb (bool_decide (expected_values = Some 0))) || (MAX_QUERY_CLAUSES <? lenN values)
    || match expected_values with Some count => negb (count =? lenN values) | None => false end
  then Err (invalid "invalid filter value count") else
  index ← ok_or (filter_field_lookup !! name) (invalid ("unknown filter field " +:+ show_str name));
  field ← unwrap (filter_fields !! N.to_nat index);
  match comparator with
  | FilterComparator.Missing => Ok (complement_query (exists_query field))
  | FilterComparator.Exists => Ok (exists_query field)
  | _ => terms ← mapO (filter_term field) values; compare_query field comparator terms
  end.
(** The leaves are counted along. *)
Fixpoint filter_query_inner (expression : FilterExpression.t) (depth : N) : M N Query.t :=
  if MAX_EXPRESSION_DEPTH <? depth then fail_with (invalid "filter expression nesting exceeds 8 levels") else
  let children (occur : Occur.t) (ch : list FilterExpression.t) : M N Query.t :=
    if bool_decide (ch = []) || (MAX_QUERY_CLAUSES <? lenN ch)
    then fail_with (invalid ("filter boolean expressions require 1 to " +:+ show MAX_QUERY_CLAUSES +:+ " clauses")) else
    queries ← foldM (λ queries child, q ← filter_query_inner child (depth + 1); mret (queries ++ [(occur, q)])) [] ch;
    mret (BooleanQuery queries) in
  match expression with
  | FilterExpression.Clause field comparator values => λ leaves,
      let leaves := leaves + 1 in
      if MAX_QUERY_CLAUSES <? leaves then Err (invalid "filter expression exceeds 256 clauses") else
      lift (filter_clause field comparator values) leaves
  | FilterExpression.Not child => q ← filter_query_inner child (depth + 1); mret (complement_query q)
  | FilterExpression.And ch => children Occur.Must ch
  | FilterExpression.Or ch => children Occur.Should ch
  end.
Definition filter_query (expression : FilterExpression.t) : outcome Query.t := run (filter_query_inner expression 0) 0.
Definition with_filter (query : Query.t) (filter : option FilterExpression.t) : outcome Query.t :=
  match filter with
  | None => Ok query
  | Some filter => f ← filter_query filter; Ok (BooleanQuery [(Occur.Must, query); (Occur.Must, ConstScoreQuery f 0)])
  end.

(** ** The query of a request *)
Definition query (request : SearchRequest.t) : outcome BuiltQuery.t :=
  b ← expression_query request.(SearchRequest.expression);
  let q := with_candidates b.(BuiltQuery.query) request.(SearchRequest.candidate_ids) in
  q ← with_filter q request.(SearchRequest.filter);
  Ok (BuiltQuery.mk q b.(BuiltQuery.clauses) b.(BuiltQuery.stable_scores)).
End Build.
