(* ===== verification/Opening.v ===== *)
(** * src/src/engine.rs: opening an index

    The directory of an index holds the identity sidecar and the metadata of the
    index crate.  [Engine::open] creates, completes or checks them, and
    [Engine::inspect] only reads them.  The directory and the index crate are
    behind classes; every call may fail, and what a failed write leaves behind is
    the old or the new content. *)
From S2P Require Import Prelude.
From S2P Require Import Errors.
From S2P Require Import Bytes.
From S2P Require Import Wire.
From S2P Require Import Request.
From S2P Require Import Structure.
From S2P Require Import Config.
From S2P Require Import Response.
From S2P Require Import Identity.
From S2P Require Import Analysis.
From S2P Require Import Canonical.
From S2P Require Import Plan.
From S2P Require Import Failures.
From S2P Require Import Query.
Local Open Scope N_scope.

Definition ID_FIELD_NAME : bytes := blit "__fulltext_id".
Definition VERSION_FIELD_NAME : bytes := blit "__fulltext_version".
Definition IDENTITY_PATH : bytes := blit ".harper-fulltext-identity".
Definition META_PATH : bytes := blit "meta.json".
Definition ANALYZER_NAME : bytes := blit "english@2".
Definition SURFACE_ANALYZER_NAME : bytes := blit "english_surface@2".
Definition MAX_COMMIT_PAYLOAD_BYTES : N := 64 * 1024.

(** [Result::map_err] *)
Definition map_err {A B} (f : A → FulltextError) (r : A + B) : outcome B := match r with inl e => Err (f e) | inr b => Ok b end.
(** A call that changes the directory, with its error mapped. *)
Definition effect {D A B} (f : A → FulltextError) (call : D → (A + B) * D) : E D B := λ d, let '(r, d) := call d in (map_err f r, d).
(** A call that only reads it. *)
Definition reads {D A} (call : D → outcome A) : E D A := λ d, (call d, d).

(** ** Analyzers *)
(** The filters after the tokenizer; each [filter_dynamic] appends one. *)
Module TokenFilter.
Inductive t := EnglishPossessive | LowerCaser | AsciiFolding | RemoveLong (limit : N) | EnglishStopWords | EnglishStemmer | Synonym (rules : SynonymMap).
End TokenFilter.
Module TextAnalyzer.
Record t := mk { filters : list TokenFilter.t }.
Definition builder : t := mk [].
Definition filter_dynamic (self : t) (filter : TokenFilter.t) : t := mk (self.(filters) ++ [filter]).
End TextAnalyzer.
Import TextAnalyzer (filter_dynamic).
Definition with_rules (builder : TextAnalyzer.t) (synonyms : option SynonymMap) : TextAnalyzer.t :=
  match synonyms with
  | Some rules => if bool_decide (rules = ∅) then builder else filter_dynamic builder (TokenFilter.Synonym rules)
  | None => builder
  end.
Definition surface_filters : TextAnalyzer.t :=
  filter_dynamic (filter_dynamic (filter_dynamic (filter_dynamic TextAnalyzer.builder TokenFilter.EnglishPossessive) TokenFilter.LowerCaser)
    TokenFilter.AsciiFolding) (TokenFilter.RemoveLong 40).
Definition build_surface_analyzer (synonyms : option SynonymMap) : TextAnalyzer.t := with_rules surface_filters synonyms.
(** What the crate's analyzers make of a text, and whether it has English stop words. *)
Class Analyzers := { tokenize : TextAnalyzer.t → bytes → list Token.t; stop_words_available : bool }.
Definition build_analyzer `{Analyzers} (stop_words : bool) (synonyms : option SynonymMap) : outcome TextAnalyzer.t :=
  builder ← (if stop_words
    then if stop_words_available then Ok (filter_dynamic surface_filters TokenFilter.EnglishStopWords)
      else Err (FulltextError_new "E_NATIVE_FAILURE" "English stop words are unavailable")
    else Ok surface_filters);
  Ok (with_rules (filter_dynamic builder TokenFilter.EnglishStemmer) synonyms).
(** The stream over the tokens of a text. *)
Module Stream.
Record t := mk { shown : Token.t; rest : list Token.t }.
End Stream.
#[export] Instance list_stream : TokenStream Stream.t := {
  advance s := match s.(Stream.rest) with [] => (false, s) | t :: rest => (true, Stream.mk t rest) end;
  token := Stream.shown;
  set_token t s := Stream.mk t s.(Stream.rest) }.
Definition token_stream `{Analyzers} (analyzer : TextAnalyzer.t) (text : bytes) : Stream.t := Stream.mk (Token.mk 0 0 USIZE_MAX [] 1) (tokenize analyzer text).
Definition canonical_config `{Analyzers} (config : EngineIdentityConfig.t) : outcome (CanonicalIdentity.t Stream.t) :=
  canonical_identity (λ stop_words, analyzer ← build_analyzer stop_words None; Ok (token_stream analyzer)) (token_stream (build_surface_analyzer None)) config.
(** [Engine::validate] *)
Definition validate `{Analyzers} (config : EngineConfig.t) : outcome () := _ ← canonical_config config.(EngineConfig.identity); Ok ().

(** ** The schema *)
Module IndexRecordOption.
Inductive t := Basic | WithFreqs | WithFreqsAndPositions.
End IndexRecordOption.
(** What is set of the options of a field; [None] is the default. *)
Module TextFieldIndexing.
Record t := mk { tokenizer : bytes; index_option : IndexRecordOption.t; fieldnorms : option bool }.
End TextFieldIndexing.
Module FieldOptions.
Inductive t := Text (indexing : option TextFieldIndexing.t) (fast : option bytes) | F64 (indexed fast : bool) | Bool (indexed : bool).
End FieldOptions.
(** The schema builder of the index crate: adding a field returns its number, or
    panics when the name is taken. *)
Class Schemas := {
  Schema : Type; SchemaBuilder : Type;
  #[global] Schema_eq_dec :: EqDecision Schema;
  builder : SchemaBuilder;
  add_field : bytes → FieldOptions.t → M SchemaBuilder N;
  build : SchemaBuilder → Schema;
  RAW_TOKENIZER_NAME : bytes }.
Module BuiltSchema.
Record t `{Schemas} := mk { schema : Schema; id_field : N; version_field : N; fields : list EngineField.t; filter_fields : list EngineFilterField.t }.
End BuiltSchema.
Section BuildSchema.
Context `{Schemas}.
Definition add_text_field (name : bytes) (indexing : option TextFieldIndexing.t) (fast : option bytes) : M SchemaBuilder N :=
  add_field name (FieldOptions.Text indexing fast).
Definition add_engine_field (record surface_record : IndexRecordOption.t) (surface_terms : bool) (fields : list EngineField.t) (field : FieldConfig.t)
  : M SchemaBuilder (list EngineField.t) :=
  schema_field ← add_text_field field.(FieldConfig.name) (Some (TextFieldIndexing.mk ANALYZER_NAME record None)) None;
  surface_field ← (if surface_terms
    then surface_field ← add_text_field (blit "__fulltext_surface_" ++ blit (show (lenN fields))) (Some (TextFieldIndexing.mk SURFACE_ANALYZER_NAME surface_record None)) None;
      mret (Some surface_field)
    else mret None);
  mret (fields ++ [EngineField.mk field.(FieldConfig.name) schema_field surface_field field.(FieldConfig.weight)]).
Definition filter_options (field_type : FilterFieldType.t) : FieldOptions.t :=
  match field_type with
  | FilterFieldType.String => FieldOptions.Text (Some (TextFieldIndexing.mk (blit "raw") IndexRecordOption.Basic (Some false))) (Some (blit "raw"))
  | FilterFieldType.Number => FieldOptions.F64 true true
  | FilterFieldType.Boolean => FieldOptions.Bool true
  end.
Definition add_filter_field (filter_fields : list EngineFilterField.t) (filter : FilterFieldConfig.t) : M SchemaBuilder (list EngineFilterField.t) :=
  field ← add_field (blit "__fulltext_filter_" ++ blit (show (lenN filter_fields))) (filter_options filter.(FilterFieldConfig.field_type));
  mret (filter_fields ++ [EngineFilterField.mk filter.(FilterFieldConfig.name) field filter.(FilterFieldConfig.field_type)]).
Definition build_schema_with_surface_record (config : EngineIdentityConfig.t) (surface_record : IndexRecordOption.t) : outcome BuiltSchema.t :=
  run (id_field ← add_text_field ID_FIELD_NAME (Some (TextFieldIndexing.mk (blit "raw") IndexRecordOption.Basic (Some false))) (Some RAW_TOKENIZER_NAME);
    version_field ← add_text_field VERSION_FIELD_NAME None (Some RAW_TOKENIZER_NAME);
    let record := if config.(EngineIdentityConfig.positions) then IndexRecordOption.WithFreqsAndPositions else IndexRecordOption.WithFreqs in
    fields ← foldM (add_engine_field record surface_record config.(EngineIdentityConfig.surface_terms)) [] config.(EngineIdentityConfig.fields);
    filter_fields ← foldM add_filter_field [] config.(EngineIdentityConfig.filter_fields);
    gets (λ builder, Ok (BuiltSchema.mk _ (build builder) id_field version_field fields filter_fields))) builder.
Definition build_schema (config : EngineIdentityConfig.t) : outcome BuiltSchema.t := build_schema_with_surface_record config IndexRecordOption.WithFreqs.
End BuildSchema.

(** ** Directories *)
(** The files of a directory: whether one exists, its content, and writing it at once. *)
Class Directory (D : Type) := {
  file_exists : bytes → D → string + bool;
  atomic_read : bytes → D → string + bytes;
  atomic_write : bytes → bytes → D → (string + ()) * D;
  sync_directory : D → (string + ()) * D }.
(** [IndexMeta]: the live segments with the stamp of their deletions, and the payload of the last commit. *)
Module IndexMeta.
Record t := mk { segments : gmap bytes (option N); payload : option bytes }.
End IndexMeta.
(** The index crate on a directory; of an index the code reads its schema. *)
Class IndexDirectory (D : Type) `{Schemas} := {
  index_open : D → TantivyError.t + Schema;
  index_create : Schema → D → (TantivyError.t + Schema) * D;
  load_metas : D → TantivyError.t + IndexMeta.t }.

(** [Engine], with what queries and traces read of it in [Plan.Engine] *)
Module Opened.
Record t := mk { engine : Engine.t; version_field : N; filter_fields : list EngineFilterField.t; filter_field_lookup : gmap bytes N }.
End Opened.
(** [.enumerate().map(|(index, field)| (name, index)).collect()] *)
Definition lookup_of {A} (name : A → bytes) (l : list A) : gmap bytes N :=
  foldl (λ m '(i, a), <[name a := i]> m) ∅ (imap (λ i a, (N.of_nat i, a)) l).

Definition validated_payload (payload : option bytes) : outcome (option bytes) :=
  if match payload with Some payload => MAX_COMMIT_PAYLOAD_BYTES <? lenN payload | None => false end
  then Err (FulltextError_new "E_INDEX_CORRUPT" "the persisted commit payload exceeds the supported bound")
  else Ok payload.
Definition incomplete_create : FulltextError := FulltextError_new "E_INCOMPLETE_CREATE" "meta.json exists without a fulltext identity sidecar".
Definition identity_mismatch : FulltextError :=
  FulltextError_new "E_IDENTITY_MISMATCH" "the persisted index identity does not match the requested configuration".
Definition schema_mismatch : FulltextError :=
  FulltextError_new "E_SCHEMA_MISMATCH" "the persisted Tantivy schema does not match the requested configuration".

Section Opening.
Context {D : Type} `{!Directory D} `{!Schemas} `{!IndexDirectory D} `{!Analyzers}.
Definition validated_committed_payload (directory : D) : outcome (option bytes) :=
  metas ← map_err recovery_index_error (load_metas directory);
  validated_payload metas.(IndexMeta.payload).
Definition committed_payload (directory : D) : outcome (option bytes) := validated_committed_payload directory.
(** The payload of the commit that a searcher, given by its segments, shows. *)
Definition committed_payload_for_searcher (generation : gmap bytes (option N)) (directory : D) : outcome (option bytes) :=
  metas ← map_err recovery_index_error (load_metas directory);
  if negb (bool_decide (generation = metas.(IndexMeta.segments)))
  then Err (FulltextError_new "E_RELOAD_FAILED" "native index changed during reload; retry the reload")
  else validated_payload metas.(IndexMeta.payload).

Definition inspect (directory : D) (config : EngineIdentityConfig.t) : outcome InspectionResult.t :=
  canonical ← canonical_config config;
  let identity := canonical.(CanonicalIdentity.config) in
  expected ← build_schema identity;
  let expected_identity := identity_bytes identity in
  sidecar_exists ← map_err storage_error (file_exists IDENTITY_PATH directory);
  meta_exists ← map_err storage_error (file_exists META_PATH directory);
  if negb sidecar_exists && negb meta_exists then Ok InspectionResult.Missing else
  if negb sidecar_exists then Err incomplete_create else
  actual_identity ← map_err storage_error (atomic_read IDENTITY_PATH directory);
  if negb (bool_decide (actual_identity = expected_identity)) then Err identity_mismatch else
  if negb meta_exists then Ok InspectionResult.Cursorless else
  schema ← map_err recovery_index_error (index_open directory);
  if negb (bool_decide (schema = expected.(BuiltSchema.schema))) then Err schema_mismatch else
  payload ← validated_committed_payload directory;
  Ok match payload with Some payload => InspectionResult.Payload payload | None => InspectionResult.Cursorless end.

(** The sidecar is checked, or written before anything else exists. *)
Definition claim_identity (expected_identity : bytes) (sidecar_exists meta_exists : bool) : E D () :=
  if sidecar_exists then
    actual ← reads (λ d, map_err storage_error (atomic_read IDENTITY_PATH d));
    if negb (bool_decide (actual = expected_identity)) then reads (λ _, Err identity_mismatch) else mret ()
  else if meta_exists then reads (λ _, Err incomplete_create)
  else
    _ ← effect storage_error (atomic_write IDENTITY_PATH expected_identity);
    effect storage_error sync_directory.
Definition open (config : EngineConfig.t) : E D Opened.t :=
  _ ← reads (λ _, validate_query_limits config.(EngineConfig.limits).(Limits.max_query_terms) config.(EngineConfig.limits).(Limits.max_query_clauses));
  canonical ← reads (λ _, canonical_config config.(EngineConfig.identity));
  let identity := canonical.(CanonicalIdentity.config) in
  let analyzer := canonical.(CanonicalIdentity.analyzer) in
  built ← reads (λ _, build_schema identity);
  let expected_identity := identity_bytes identity in
  sidecar_exists ← reads (λ d, map_err storage_error (file_exists IDENTITY_PATH d));
  meta_exists ← reads (λ d, map_err storage_error (file_exists META_PATH d));
  _ ← claim_identity expected_identity sidecar_exists meta_exists;
  schema ← (if meta_exists : bool then reads (λ d, map_err recovery_index_error (index_open d))
    else effect index_error (index_create built.(BuiltSchema.schema)));
  if negb (bool_decide (schema = built.(BuiltSchema.schema))) then reads (λ _, Err schema_mismatch) else
  let surface_analyzer := build_surface_analyzer None in
  index_analyzer ← reads (λ _, build_analyzer identity.(EngineIdentityConfig.stop_words) (Some canonical.(CanonicalIdentity.analyzed_synonyms)));
  let surface_index_analyzer := build_surface_analyzer (Some canonical.(CanonicalIdentity.surface_synonyms)) in
  mret (Opened.mk
    (Engine.mk built.(BuiltSchema.id_field) built.(BuiltSchema.fields) (lookup_of EngineField.name built.(BuiltSchema.fields))
      (λ text, (analyzer text).(Stream.rest)) (tokenize surface_analyzer) (tokenize index_analyzer) (tokenize surface_index_analyzer)
      identity.(EngineIdentityConfig.positions) config.(EngineConfig.limits).(Limits.max_query_terms) config.(EngineConfig.limits).(Limits.max_query_clauses))
    built.(BuiltSchema.version_field) built.(BuiltSchema.filter_fields) (lookup_of EngineFilterField.name built.(BuiltSchema.filter_fields))).
End Opening.

(** ** What is relied on *)
(** The sidecar and the metadata of a directory.  A read that succeeds shows the
    content; a write replaces it at once, and when it fails leaves the old or the
    new content; a new index has no payload. *)
Class DirectoryLaws (D : Type) `{!Directory D} `{!Schemas} `{!IndexDirectory D} := {
  sidecar : D → option bytes;
  committed : D → option (Schema * IndexMeta.t);
  sidecar_exists d b : file_exists IDENTITY_PATH d = inr b → b = bool_decide (is_Some (sidecar d));
  meta_exists d b : file_exists META_PATH d = inr b → b = bool_decide (is_Some (committed d));
  sidecar_read d s : atomic_read IDENTITY_PATH d = inr s → sidecar d = Some s;
  sidecar_write s d r d' : atomic_write IDENTITY_PATH s d = (r, d') →
    committed d' = committed d ∧ (sidecar d' = Some s ∨ (∃ e, r = inl e) ∧ sidecar d' = sidecar d);
  sync_keeps d r d' : sync_directory d = (r, d') → sidecar d' = sidecar d ∧ committed d' = committed d;
  open_reads d s : index_open d = inr s → ∃ m, committed d = Some (s, m);
  create_writes s d r d' : index_create s d = (r, d') → sidecar d' = sidecar d
    ∧ ((∃ m, m.(IndexMeta.payload) = None ∧ committed d' = Some (s, m)) ∧ (∀ s', r = inr s' → s' = s) ∨ (∃ e, r = inl e) ∧ committed d' = committed d);
  metas_read d m : load_metas d = inr m → ∃ s, committed d = Some (s, m) }.
(** No call fails on what is there, as long as the directory is [sound]. *)
Record reliable {D : Type} `{!Directory D} `{!Schemas} `{!IndexDirectory D} `{!DirectoryLaws D} (sound : D → Prop) : Prop := {
  exists_reliable path d : sound d → ∃ b, file_exists path d = inr b;
  read_reliable d s : sound d → sidecar d = Some s → ∃ s, atomic_read IDENTITY_PATH d = inr s;
  write_reliable s d : sound d → ∃ d', atomic_write IDENTITY_PATH s d = (inr (), d') ∧ sound d';
  sync_reliable d : sound d → ∃ d', sync_directory d = (inr (), d') ∧ sound d';
  open_reliable d c : sound d → committed d = Some c → ∃ s, index_open d = inr s;
  create_reliable s d : sound d → ∃ s' d', index_create s d = (inr s', d');
  metas_reliable d c : sound d → committed d = Some c → ∃ m, load_metas d = inr m }.

(** ** Running effects *)
Definition ends {D A} (m : E D A) (d : D) (Q : outcome A → D → Prop) : Prop := Q (m d).1 (m d).2.
Section Ends.
Context {D A B : Type}.
Implicit Types (Q : outcome A → D → Prop) (R : outcome B → D → Prop).
Lemma ends_bind (m : E D A) (f : A → E D B) d R :
  ends m d (λ r d', match r with Ok a => ends (f a) d' R | Err e => R (Err e) d' | Panic => R Panic d' | Fuel => R Fuel d' end) → ends (mbind f m) d R.
Proof. unfold ends, mbind, E_bind. destruct (m d) as [[a|e| |] d']; done. Qed.
Lemma ends_reads (call : D → outcome A) d Q : Q (call d) d → ends (reads call) d Q.
Proof. done. Qed.
Lemma ends_ret (a : A) d Q : Q (Ok a) d → ends (mret a) d Q.
Proof. done. Qed.
Lemma ends_then (m : E D A) (f : A → E D B) d Q R : ends m d Q → (∀ a d', Q (Ok a) d' → ends (f a) d' R) →
  (∀ e d', Q (Err e) d' → R (Err e) d') → (∀ d', Q Panic d' → R Panic d') → (∀ d', Q Fuel d' → R Fuel d') → ends (mbind f m) d R.
Proof. unfold ends, mbind, E_bind. destruct (m d) as [[a|e| |] d']; cbn [fst snd]; auto. Qed.
End Ends.
Lemma ends_effect {D A B} (f : A → FulltextError) (call : D → (A + B) * D) d (Q : outcome B → D → Prop) :
  (∀ r d', call d = (r, d') → Q (map_err f r) d') → ends (effect f call) d Q.
Proof. unfold ends, effect. intros HQ. destruct (call d) as [r d'] eqn:E. by apply HQ. Qed.
Ltac ends_step := first [apply ends_bind | apply ends_reads | apply ends_ret | apply ends_effect].

(** ** The verdict on a directory *)
Section Verdict.
Context {D : Type} `{!Directory D} `{!Schemas} `{!IndexDirectory D} `{!Analyzers} `{!DirectoryLaws D}.
Context (sound : D → Prop) (Hsound : reliable sound).
(** By the sidecar and the metadata that are there, for an expected identity and schema. *)
Definition verdict (expected : bytes) (schema : Schema) (d : D) : outcome () :=
  match sidecar d, committed d with
  | None, None => Ok ()
  | None, Some _ => Err incomplete_create
  | Some s, c => if negb (bool_decide (s = expected)) then Err identity_mismatch else
      match c with Some (s, _) => if bool_decide (s = schema) then Ok () else Err schema_mismatch | None => Ok () end
  end.
(** What an inspection reports of a directory that can be opened. *)
Definition inspected (d : D) : outcome InspectionResult.t :=
  match sidecar d, committed d with
  | None, _ => Ok InspectionResult.Missing
  | Some _, None => Ok InspectionResult.Cursorless
  | Some _, Some (_, m) => payload ← validated_payload m.(IndexMeta.payload);
      Ok match payload with Some payload => InspectionResult.Payload payload | None => InspectionResult.Cursorless end
  end.
(** What opening may leave: nothing it did not find, except the sidecar in an
    empty directory and a new index without a payload beside its own sidecar. *)
Definition kept (expected : bytes) (schema : Schema) (d d' : D) : Prop :=
  (sidecar d' = sidecar d ∨ sidecar d = None ∧ committed d = None ∧ sidecar d' = Some expected)
  ∧ (committed d' = committed d
    ∨ committed d = None ∧ sidecar d' = Some expected ∧ ∃ m, m.(IndexMeta.payload) = None ∧ committed d' = Some (schema, m)).
Lemma kept_refl expected schema d : kept expected schema d d.
Proof. split; by left. Qed.
Definition complete (expected : bytes) (schema : Schema) (d : D) : Prop := sidecar d = Some expected ∧ ∃ m, committed d = Some (schema, m).

Lemma claim_identity_ends expected schema d bs bm : bs = bool_decide (is_Some (sidecar d)) → bm = bool_decide (is_Some (committed d)) →
  ends (claim_identity expected bs bm) d (λ r d', kept expected schema d d' ∧ committed d' = committed d
    ∧ match r with
      | Ok _ => sidecar d' = Some expected ∧ (sidecar d = Some expected ∨ sidecar d = None ∧ committed d = None) ∧ (sound d → sound d')
      | Err e => sound d → verdict expected schema d = Err e ∧ sidecar d' = sidecar d
      | _ => False end).
Proof using Hsound.
  intros -> ->. unfold claim_identity, verdict. destruct (sidecar d) as [s|] eqn:Es.
  - rewrite (bool_decide_eq_true_2 (is_Some (Some s))) by done. ends_step. ends_step. destruct (atomic_read IDENTITY_PATH d) as [e|s'] eqn:E; cbn [map_err].
    { split; [apply kept_refl|]. split; [done|]. intros Hd. destruct (read_reliable _ Hsound d s Hd Es) as [? ?]. congruence. }
    apply sidecar_read in E. rewrite Es in E. injection E as <-. case_bool_decide as Eq; cbn [negb]; ends_step; (split; [apply kept_refl|]); (split; [done|]).
    + split; [congruence|]. split; [left; congruence|done].
    + done.
  - rewrite (bool_decide_eq_false_2 (is_Some None)) by (by intros []). destruct (committed d) as [c|] eqn:Ec.
    { rewrite bool_decide_eq_true_2 by done. ends_step. split; [apply kept_refl|]. done. }
    rewrite bool_decide_eq_false_2 by (by intros []). ends_step. ends_step. intros r d1 Ew. destruct (sidecar_write _ _ _ _ Ew) as [Ec1 Hs].
    assert (kept expected schema d d1) as Hk.
    { split; [|left; congruence]. destruct Hs as [Hs|[_ Hs]]; [right; by rewrite Es, Ec|by left]. }
    destruct r as [e|[]]; cbn [map_err].
    { split; [exact Hk|]. split; [congruence|]. intros Hd. destruct (write_reliable _ Hsound expected d Hd) as (? & ? & _). congruence. }
    assert (sound d → sound d1) as Hd1.
    { intros Hd. destruct (write_reliable _ Hsound expected d Hd) as (d1' & E1 & Hd1). congruence. }
    ends_step. intros r d2 E2. destruct (sync_keeps _ _ _ E2) as [Es2 Ec2]. destruct Hs as [Hs|[[e [=]] _]].
    assert (kept expected schema d d2) as Hk2.
    { destruct Hk as [H1 H2]. split; [by rewrite Es2|]. rewrite Ec2, Es2. destruct H2; [by left|by right]. }
    split; [by destruct r as [e|[]]|]. split; [congruence|]. destruct r as [e|[]]; cbn [map_err].
    + intros Hd. destruct (sync_reliable _ Hsound d1 (Hd1 Hd)) as (? & ? & _). congruence.
    + split; [congruence|]. split; [by right|]. intros Hd. destruct (sync_reliable _ Hsound d1 (Hd1 Hd)) as (? & ? & ?). congruence.
Qed.

Lemma build_analyzer_Ok stop_words synonyms : (∃ a, build_analyzer stop_words synonyms = Ok a) ∨ ∃ e, build_analyzer stop_words synonyms = Err e ∧ ∀ synonyms a, build_analyzer stop_words synonyms ≠ Ok a.
Proof.
  unfold build_analyzer. destruct stop_words; [destruct stop_words_available|]; cbn [mbind outcome_bind]; [left; by eexists|right|left; by eexists].
  eexists. split; [done|]. by intros.
Qed.
Lemma canonical_stop_words config canonical : canonical_config config = Ok canonical →
  ∀ synonyms, ∃ a, build_analyzer canonical.(CanonicalIdentity.config).(EngineIdentityConfig.stop_words) synonyms = Ok a.
Proof.
  unfold canonical_config, canonical_identity. intros E synonyms. apply bind_Ok in E as (analyzer & Ea & E). apply bind_Ok in E as (s & _ & E).
  injection E as <-. cbn [CanonicalIdentity.config with_synonyms EngineIdentityConfig.stop_words]. apply bind_Ok in Ea as (a & Ea & _).
  destruct (build_analyzer_Ok (EngineIdentityConfig.stop_words config) synonyms) as [Ho|(e & _ & Hn)]; [exact Ho|]. by apply Hn in Ea.
Qed.
Section Decided.
Context (config : EngineConfig.t) (canonical : CanonicalIdentity.t Stream.t) (built : BuiltSchema.t).
Hypothesis Hlimits : validate_query_limits config.(EngineConfig.limits).(Limits.max_query_terms) config.(EngineConfig.limits).(Limits.max_query_clauses) = Ok ().
Hypothesis Hcanonical : canonical_config config.(EngineConfig.identity) = Ok canonical.
Hypothesis Hbuilt : build_schema canonical.(CanonicalIdentity.config) = Ok built.
Abbreviation expected := (identity_bytes canonical.(CanonicalIdentity.config)).
Abbreviation schema := built.(BuiltSchema.schema).
(** The end of [open], once the sidecar is there. *)
Definition opened_ok (d : D) (r : outcome Opened.t) (d' : D) : Prop :=
  kept expected schema d d' ∧ match r with
  | Ok o => complete expected schema d' ∧ verdict expected schema d = Ok ()
      ∧ o.(Opened.engine).(Engine.id_field) = built.(BuiltSchema.id_field) ∧ o.(Opened.version_field) = built.(BuiltSchema.version_field)
      ∧ o.(Opened.engine).(Engine.fields) = built.(BuiltSchema.fields) ∧ o.(Opened.filter_fields) = built.(BuiltSchema.filter_fields)
      ∧ o.(Opened.engine).(Engine.field_lookup) = lookup_of EngineField.name built.(BuiltSchema.fields)
      ∧ o.(Opened.filter_field_lookup) = lookup_of EngineFilterField.name built.(BuiltSchema.filter_fields)
  | Err e => sound d → verdict expected schema d = Err e ∧ sidecar d' = sidecar d ∧ committed d' = committed d
  | Panic | Fuel => False
  end.
Lemma open_ends d : ends (open config) d (opened_ok d).
Proof using All.
  unfold open. do 2 ends_step. rewrite Hlimits. do 2 ends_step. rewrite Hcanonical. do 2 ends_step. rewrite Hbuilt.
  do 2 ends_step. destruct (file_exists IDENTITY_PATH d) as [e|bs] eqn:Es; cbn [map_err].
  { split; [apply kept_refl|]. intros Hd. destruct (exists_reliable _ Hsound IDENTITY_PATH d Hd) as [b ?]. congruence. }
  do 2 ends_step. destruct (file_exists META_PATH d) as [e|bm] eqn:Em; cbn [map_err].
  { split; [apply kept_refl|]. intros Hd. destruct (exists_reliable _ Hsound META_PATH d Hd) as [b ?]. congruence. }
  apply sidecar_exists in Es. apply meta_exists in Em. eapply ends_then; [by apply (claim_identity_ends expected schema d)| |..].
  2: { intros e d1 (Hk & Ec & Hr). split; [exact Hk|]. intros Hd. by destruct (Hr Hd). }
  2, 3: by intros d1 (_ & _ & []).
  intros [] d1 (Hk & Ec1 & Es1 & Hwas & Hd1). eapply (ends_then _ _ _ (λ r d2, kept expected schema d d2 ∧ match r with
      | Ok s => sidecar d2 = Some expected ∧ (∃ m, committed d2 = Some (s, m)) ∧ (s = schema ∧ committed d = None ∨ sidecar d = Some expected ∧ d2 = d1)
      | Err e => ¬ sound d | _ => False end)).
  - rewrite Em. destruct (committed d) as [c|] eqn:Ec.
    + rewrite bool_decide_eq_true_2 by done. ends_step. split; [by destruct (index_open d1)|]. destruct (index_open d1) as [e|s] eqn:Eo; cbn [map_err].
      * intros Hd. destruct (open_reliable _ Hsound d1 c (Hd1 Hd) Ec1) as [? ?]. congruence.
      * split; [done|]. split; [by apply open_reads|]. right. split; [|done]. by destruct Hwas as [?|[_ ?]].
    + rewrite bool_decide_eq_false_2 by (by intros []). ends_step. intros r d2 E2. destruct (create_writes _ _ _ _ E2) as [Es2 Hc].
      assert (kept expected schema d d2) as Hk2.
      { split; [destruct Hk as [Hk _]; by rewrite Es2|]. rewrite Es2, Es1. destruct Hc as [[(m & Hm & Hc) _]|[_ Hc]]; [right; by eauto|left; congruence]. }
      split; [by destruct r|]. destruct r as [e|s]; cbn [map_err].
      * intros Hd. destruct (create_reliable _ Hsound schema d1 (Hd1 Hd)) as (? & ? & ?). congruence.
      * destruct Hc as [[(m & _ & Hc) Hs]|[[e [=]] _]]. rewrite (Hs s eq_refl). split; [congruence|]. split; [by exists m|by left].
  - intros s d2 (Hk2 & Es2 & [m Em2] & Hwas2). assert (verdict expected schema d = if bool_decide (s = schema) then Ok () else Err schema_mismatch) as Hv.
    { unfold verdict. destruct Hwas2 as [[-> Ec]|[Es0 ->]].
      - rewrite Ec, bool_decide_eq_true_2 by done. destruct Hwas as [->|[-> _]]; [|done]. by rewrite bool_decide_eq_true_2.
      - rewrite Es0, bool_decide_eq_true_2 by done. cbn [negb]. rewrite <- Ec1, Em2. done. }
    case_bool_decide as Eq; cbn [negb].
    + subst s. destruct (canonical_stop_words _ _ Hcanonical (Some canonical.(CanonicalIdentity.analyzed_synonyms))) as [a Ha].
      ends_step. ends_step. rewrite Ha. ends_step. split; [exact Hk2|]. split; [split; [exact Es2|by exists m]|]. by split.
    + ends_step. split; [exact Hk2|]. intros _. split; [exact Hv|]. destruct Hwas2 as [[-> _]|[Es0 ->]]; [done|]. by rewrite Es1, Es0.
  - intros e d2 [Hk2 Hr]. split; [exact Hk2|]. by intros Hd%Hr.
  - by intros d2 [_ []].
  - by intros d2 [_ []].
Qed.
Lemma inspect_spec d : match inspect d config.(EngineConfig.identity) with
  | Ok i => verdict expected schema d = Ok () ∧ inspected d = Ok i
  | Err e => sound d → verdict expected schema d = Err e ∨ verdict expected schema d = Ok () ∧ inspected d = Err e
  | Panic | Fuel => False
  end.
Proof using Hcanonical Hbuilt Hsound.
  unfold inspect, verdict, inspected. rewrite Hcanonical. cbn [mbind outcome_bind]. rewrite Hbuilt. cbn [mbind outcome_bind].
  destruct (file_exists IDENTITY_PATH d) as [e|bs] eqn:Es; cbn [map_err mbind outcome_bind].
  { intros Hd. destruct (exists_reliable _ Hsound IDENTITY_PATH d Hd) as [b ?]. congruence. }
  destruct (file_exists META_PATH d) as [e|bm] eqn:Em; cbn [map_err mbind outcome_bind].
  { intros Hd. destruct (exists_reliable _ Hsound META_PATH d Hd) as [b ?]. congruence. }
  apply sidecar_exists in Es as ->. apply meta_exists in Em as ->. destruct (sidecar d) as [s|] eqn:Es.
  2: { rewrite (bool_decide_eq_false_2 (is_Some None)) by (by intros []). destruct (committed d) as [c|] eqn:Ec.
    - rewrite bool_decide_eq_true_2 by done. cbn. by left.
    - by rewrite bool_decide_eq_false_2 by (by intros []). }
  rewrite (bool_decide_eq_true_2 (is_Some (Some s))) by done. cbn [negb andb]. destruct (atomic_read IDENTITY_PATH d) as [e|s'] eqn:Er; cbn [map_err mbind outcome_bind].
  { intros Hd. destruct (read_reliable _ Hsound d s Hd Es) as [? ?]. congruence. }
  apply sidecar_read in Er. rewrite Es in Er. injection Er as <-. case_bool_decide as Eq; cbn [negb]; [|by left].
  destruct (committed d) as [[sc m]|] eqn:Ec; [rewrite bool_decide_eq_true_2 by done|by rewrite bool_decide_eq_false_2 by (by intros [])]. cbn [negb].
  destruct (index_open d) as [e|sc'] eqn:Eo; cbn [map_err mbind outcome_bind].
  { intros Hd. destruct (open_reliable _ Hsound d _ Hd Ec) as [? ?]. congruence. }
  apply open_reads in Eo as [m' Eo]. rewrite Ec in Eo. injection Eo as <- <-. case_bool_decide as Eqs; cbn [negb]; [|by left].
  unfold validated_committed_payload. destruct (load_metas d) as [e|m'] eqn:El; cbn [map_err mbind outcome_bind].
  { intros Hd. destruct (metas_reliable _ Hsound d _ Hd Ec) as [? ?]. congruence. }
  apply metas_read in El as [s' El]. rewrite Ec in El. injection El as <- <-. destruct (validated_payload (IndexMeta.payload m)) as [p|e| |] eqn:Ep; cbn [mbind outcome_bind]; [done|by right|..];
    revert Ep; unfold validated_payload; by case_if.
Qed.
End Decided.
(** C10: Opening an index.  Whatever fails on the way, an existing sidecar and an
    existing index are left as they are, and what is created is the sidecar of the
    requested identity and then an empty index beside it; an opened index has its
    sidecar and its schema.  When no call fails, the sidecar and the metadata that
    are there decide whether the index opens, and with which error it does not. *)
Theorem open_decides config canonical built d :
  validate_query_limits config.(EngineConfig.limits).(Limits.max_query_terms) config.(EngineConfig.limits).(Limits.max_query_clauses) = Ok () →
  canonical_config config.(EngineConfig.identity) = Ok canonical → build_schema canonical.(CanonicalIdentity.config) = Ok built →
  let expected := identity_bytes canonical.(CanonicalIdentity.config) in
  let schema := built.(BuiltSchema.schema) in
  let '(r, d') := open config d in
  kept expected schema d d' ∧ match r with
  | Ok _ => verdict expected schema d = Ok () ∧ complete expected schema d'
  | Err e => sound d → verdict expected schema d = Err e ∧ sidecar d' = sidecar d ∧ committed d' = committed d
  | Panic | Fuel => False
  end.
Proof using Hsound.
  intros Hl Hc Hb. cbv zeta. pose proof (open_ends config canonical built Hl Hc Hb d) as [Hk Hr]. destruct (open config d) as [r d']. split; [exact Hk|].
  cbn [fst snd] in Hr. destruct r as [o|e| |]; [|exact Hr..]. destruct Hr as (H1 & H2 & _). by split.
Qed.
(** A directory on which opening failed can still be opened. *)
Lemma kept_verdict expected schema d d' : kept expected schema d d' → verdict expected schema d = Ok () → verdict expected schema d' = Ok ().
Proof.
  intros [Hs Hc]. unfold verdict. destruct (sidecar d) as [s|] eqn:Es.
  - destruct Hs as [->|([=] & _)]. case_bool_decide as Eq; cbn [negb]; [|done]. destruct Hc as [->|(Ec & _ & m & _ & ->)]; [done|]. by rewrite bool_decide_eq_true_2.
  - destruct (committed d) as [c|] eqn:Ec; [done|]. intros _. destruct Hc as [->|(_ & -> & m & _ & ->)].
    + destruct Hs as [->|(_ & _ & ->)]; [done|]. by rewrite bool_decide_eq_true_2.
    + rewrite bool_decide_eq_true_2 by done. cbn [negb]. by rewrite bool_decide_eq_true_2.
Qed.
(** Attempts to open, each of which may fail anywhere; between two of them only
    what makes calls fail may change. *)
Inductive attempts (config : EngineConfig.t) : D → D → Prop :=
| attempts_refl d : attempts config d d
| attempts_step d r d1 d2 d3 : open config d = (r, d1) → sidecar d2 = sidecar d1 → committed d2 = committed d1 → attempts config d2 d3 → attempts config d d3.
(** C11: Creation resumes: however many attempts to open a directory were cut short,
    from a directory that an attempt may open the next attempt on which no call
    fails opens it; in particular from an empty one. *)
Theorem create_resumes config canonical built d d' :
  validate_query_limits config.(EngineConfig.limits).(Limits.max_query_terms) config.(EngineConfig.limits).(Limits.max_query_clauses) = Ok () →
  canonical_config config.(EngineConfig.identity) = Ok canonical → build_schema canonical.(CanonicalIdentity.config) = Ok built →
  let expected := identity_bytes canonical.(CanonicalIdentity.config) in
  let schema := built.(BuiltSchema.schema) in
  attempts config d d' → verdict expected schema d = Ok () → sound d' →
  ∃ opened d2, open config d' = (Ok opened, d2) ∧ complete expected schema d2.
Proof using Hsound.
  intros Hl Hc Hb. cbv zeta. intros Ha Hv Hd.
  assert (verdict (identity_bytes canonical.(CanonicalIdentity.config)) built.(BuiltSchema.schema) d' = Ok ()) as Hv'.
  { clear Hd. induction Ha as [|d r d1 d2 d3 E Es Ec _ IH]; [exact Hv|]. apply IH. destruct (open_ends config canonical built Hl Hc Hb d) as [Hk _]. rewrite E in Hk.
    unfold verdict. rewrite Es, Ec. by apply (kept_verdict _ _ d). }
  destruct (open_ends config canonical built Hl Hc Hb d') as [_ Hr]. destruct (open config d') as [r d2]. cbn [fst snd] in Hr.
  destruct r as [o|e| |]; [|by destruct (Hr Hd); congruence|done..]. exists o, d2. by destruct Hr.
Qed.
End Verdict.

(** ** Fields *)
Section Fields.
Context `{Schemas}.
(** Everything of a field but its weight. *)
Definition unweighted (field : EngineField.t) : bytes * N * option N := (field.(EngineField.name), field.(EngineField.field), field.(EngineField.surface_field)).
Definition alike {A B} (f : A → B) (r r' : outcome (A * SchemaBuilder)) : Prop :=
  match r, r' with
  | Ok (a, b), Ok (a', b') => f a = f a' ∧ b = b'
  | Err e, Err e' => e = e'
  | Panic, Panic | Fuel, Fuel => True
  | _, _ => False
  end.
Lemma add_engine_field_alike record surface_record surface_terms fields fields' field field' b :
  unweighted <$> fields = unweighted <$> fields' → field.(FieldConfig.name) = field'.(FieldConfig.name) →
  alike (fmap unweighted) (add_engine_field record surface_record surface_terms fields field b) (add_engine_field record surface_record surface_terms fields' field' b).
Proof.
  intros Ef En. assert (lenN fields = lenN fields') as El by (unfold lenN; by rewrite <- (length_fmap unweighted fields), Ef, length_fmap).
  unfold add_engine_field. rewrite En, El. cbv [mbind M_bind mret M_ret]. destruct (add_text_field (FieldConfig.name field') _ _ b) as [[n b']| | |]; [|done..].
  destruct surface_terms; [|cbn; by rewrite !fmap_app, Ef].
  destruct (add_text_field _ _ _ b') as [[n2 b2]| | |]; [|done..]. cbn. by rewrite !fmap_app, Ef.
Qed.
Lemma add_fields_alike record surface_record surface_terms l : ∀ l' fields fields' b,
  unweighted <$> fields = unweighted <$> fields' → FieldConfig.name <$> l = FieldConfig.name <$> l' →
  alike (fmap unweighted) (foldM (add_engine_field record surface_record surface_terms) fields l b) (foldM (add_engine_field record surface_record surface_terms) fields' l' b).
Proof.
  induction l as [|field l IH]; intros [|field' l'] fields fields' b Ef El; [done..|]. rewrite !fmap_cons in El. injection El as En El.
  cbn [foldM]. cbv [mbind M_bind]. pose proof (add_engine_field_alike record surface_record surface_terms fields fields' field field' b Ef En) as Ha.
  destruct (add_engine_field _ _ _ fields field b) as [[f1 b1]| | |], (add_engine_field _ _ _ fields' field' b) as [[f2 b2]| | |]; try done.
  destruct Ha as [Ha ->]. by apply IH.
Qed.
(** Configurations of the same identity have the same schema: weights belong to queries. *)
Lemma build_schema_identity c c' built built' : identity c = identity c' → build_schema c = Ok built → build_schema c' = Ok built' →
  built.(BuiltSchema.schema) = built'.(BuiltSchema.schema) ∧ unweighted <$> built.(BuiltSchema.fields) = unweighted <$> built'.(BuiltSchema.fields)
  ∧ built.(BuiltSchema.filter_fields) = built'.(BuiltSchema.filter_fields) ∧ built.(BuiltSchema.id_field) = built'.(BuiltSchema.id_field)
  ∧ built.(BuiltSchema.version_field) = built'.(BuiltSchema.version_field).
Proof.
  unfold identity. intros [= _ _ _ _ Ep Es _ Ef Eff]. unfold build_schema, build_schema_with_surface_record, run, gets. rewrite Ep, Es, Eff. cbv [mbind M_bind lift].
  destruct (add_text_field ID_FIELD_NAME _ _ builder) as [[id b1]| | |]; [|done..]. destruct (add_text_field VERSION_FIELD_NAME _ _ b1) as [[version b2]| | |]; [|done..].
  match goal with |- context [foldM (add_engine_field ?r ?s ?t) [] (EngineIdentityConfig.fields c) b2] => pose proof (add_fields_alike r s t _ _ [] [] b2 eq_refl Ef) as Ha end.
  destruct (foldM (add_engine_field _ _ _) [] (EngineIdentityConfig.fields c) b2) as [[f1 b3]| | |], (foldM (add_engine_field _ _ _) [] (EngineIdentityConfig.fields c') b2) as [[f2 b3']| | |]; try done.
  destruct Ha as [Ha <-]. destruct (foldM add_filter_field [] _ b3) as [[ff b4]| | |]; [|done..]. intros [= <-] [= <-]. by cbn.
Qed.
Lemma lookup_of_bound {A} (name : A → bytes) l n i : lookup_of name l !! n = Some i → ∃ a, l !! N.to_nat i = Some a ∧ name a = n.
Proof.
  unfold lookup_of. induction l as [|a l IH] using rev_ind; [done|]. rewrite imap_app, foldl_app. cbn [imap foldl]. rewrite Nat.add_0_r.
  intros [[<- <-]|[Hn Hl]]%lookup_insert_Some.
  - exists a. rewrite Nat2N.id. by rewrite list_lookup_middle.
  - destruct (IH Hl) as (x & Hx & <-). exists x. split; [|done]. by apply lookup_app_l_Some.
Qed.
End Fields.

(** ** What opening establishes *)
Section Established.
Context {D : Type} `{!Directory D} `{!Schemas} `{!IndexDirectory D} `{!Analyzers} `{!DirectoryLaws D}.
(** A directory that was created for one identity opens for no other, and its
    schema never is the obstacle. *)
Lemma created_verdict c0 b0 c b d : sidecar_ok c0 → sidecar_ok c → build_schema c0 = Ok b0 → build_schema c = Ok b →
  complete (identity_bytes c0) b0.(BuiltSchema.schema) d →
  verdict (identity_bytes c) b.(BuiltSchema.schema) d = if bool_decide (identity_bytes c0 = identity_bytes c) then Ok () else Err identity_mismatch.
Proof.
  intros Hok0 Hok E0 E1 [Es [m Ec]]. unfold verdict. rewrite Es, Ec. case_bool_decide as Eq; [|done]. cbn [negb].
  apply identity_bytes_iff in Eq; [|done..]. destruct (build_schema_identity c0 c b0 b Eq E0 E1) as [-> _]. by rewrite bool_decide_eq_true_2.
Qed.
Lemma opened_built config canonical built d o d' :
  canonical_config config.(EngineConfig.identity) = Ok canonical → build_schema canonical.(CanonicalIdentity.config) = Ok built →
  open config d = (Ok o, d') → opened_ok (λ _, False) canonical built d (Ok o) d'.
Proof.
  intros Hc Hb E. assert (validate_query_limits config.(EngineConfig.limits).(Limits.max_query_terms) config.(EngineConfig.limits).(Limits.max_query_clauses) = Ok ()) as Hl.
  { revert E. unfold open. cbv [mbind E_bind reads]. by destruct (validate_query_limits _ _) as [[]| | |]. }
  assert (reliable (λ _ : D, False)) as Hnever by by split.
  pose proof (open_ends _ Hnever config canonical built Hl Hc Hb d) as Hr. unfold ends in Hr. by rewrite E in Hr.
Qed.
Lemma opened_parts config canonical built d o d' :
  canonical_config config.(EngineConfig.identity) = Ok canonical → build_schema canonical.(CanonicalIdentity.config) = Ok built →
  open config d = (Ok o, d') →
  o.(Opened.engine).(Engine.id_field) = built.(BuiltSchema.id_field) ∧ o.(Opened.version_field) = built.(BuiltSchema.version_field)
  ∧ o.(Opened.engine).(Engine.fields) = built.(BuiltSchema.fields) ∧ o.(Opened.filter_fields) = built.(BuiltSchema.filter_fields).
Proof. intros Hc Hb E. destruct (opened_built _ _ _ _ _ _ Hc Hb E) as (_ & _ & _ & H1 & H2 & H3 & H4 & _). by split_and!. Qed.
(** The lookups of an opened engine stay within its fields. *)
Lemma opened_lookups config canonical built d o d' :
  canonical_config config.(EngineConfig.identity) = Ok canonical → build_schema canonical.(CanonicalIdentity.config) = Ok built →
  open config d = (Ok o, d') →
  lookup_ok o.(Opened.engine) ∧ ∀ name i, o.(Opened.filter_field_lookup) !! name = Some i → i < lenN o.(Opened.filter_fields).
Proof.
  intros Hc Hb E. destruct (opened_built _ _ _ _ _ _ Hc Hb E) as (_ & _ & _ & _ & _ & Ef & Eff & El & Elf). split.
  - intros name i. rewrite El, Ef. intros (f & Hf & _)%lookup_of_bound. apply lookup_lt_Some in Hf. unfold lenN. lia.
  - intros name i. rewrite Elf, Eff. intros (f & Hf & _)%lookup_of_bound. apply lookup_lt_Some in Hf. unfold lenN. lia.
Qed.
End Established.

(** ** A directory in memory, whose disk may be full *)
#[export] Instance IndexRecordOption_eq_dec : EqDecision IndexRecordOption.t.
Proof. solve_decision. Defined.
#[export] Instance TextFieldIndexing_eq_dec : EqDecision TextFieldIndexing.t.
Proof. solve_decision. Defined.
#[export] Instance FieldOptions_eq_dec : EqDecision FieldOptions.t.
Proof. solve_decision. Defined.
Module Disk.
Record t (S X : Type) := mk { identity : option bytes; index : option (S * IndexMeta.t); content : X; full : bool }.
Arguments mk {S X}.
Arguments identity {S X}.
Arguments index {S X}.
Arguments content {S X}.
Arguments full {S X}.
End Disk.
Definition named (name : bytes) (fields : list (bytes * FieldOptions.t)) : bool := bool_decide (name ∈ fields.*1).
#[export] Instance list_schemas : Schemas := {
  Schema := list (bytes * FieldOptions.t); SchemaBuilder := list (bytes * FieldOptions.t); Schema_eq_dec := _;
  builder := [];
  add_field name options fields := if named name fields then Panic else Ok (lenN fields, fields ++ [(name, options)]);
  build fields := fields;
  RAW_TOKENIZER_NAME := blit "raw" }.
Definition disk_full : TantivyError.t := TantivyError.mk (TantivyError.IoError OtherKind) "disk full".
Section DiskDirectory.
Context {X : Type}.
#[export] Instance disk_directory : Directory (Disk.t Schema X) := {
  file_exists path d := inr (if bool_decide (path = IDENTITY_PATH) then bool_decide (is_Some d.(Disk.identity)) else bool_decide (is_Some d.(Disk.index)));
  atomic_read path d := match d.(Disk.identity) with Some s => inr s | None => inl "no such file"%string end;
  atomic_write path s d := (inr (), Disk.mk (Some s) d.(Disk.index) d.(Disk.content) d.(Disk.full));
  sync_directory d := (inr (), d) }.
#[export] Instance disk_index : IndexDirectory (Disk.t Schema X) := {
  index_open d := match d.(Disk.index) with Some (s, _) => inr s | None => inl disk_full end;
  index_create s d := if d.(Disk.full) then (inl disk_full, d) else (inr s, Disk.mk d.(Disk.identity) (Some (s, IndexMeta.mk ∅ None)) d.(Disk.content) false);
  load_metas d := match d.(Disk.index) with Some (_, m) => inr m | None => inl disk_full end }.
#[export] Instance disk_laws : DirectoryLaws (Disk.t Schema X).
Proof.
  refine {| sidecar := Disk.identity : Disk.t Schema X → option bytes; committed := Disk.index |}.
  - by intros d b [= <-].
  - by intros d b [= <-].
  - intros [[i|] x c f] s; cbn; [by intros [= ->]|done].
  - intros s d r d' [= <- <-]. split; [done|by left].
  - by intros d r d' [= <- <-].
  - intros [i [[s' m]|] c f] s; cbn; [|done]. intros [= <-]. by exists m.
  - intros s [i x c []] r d'; cbn; intros [= <- <-]; (split; [done|]); [right; split; [by eexists|done]|].
    left. split; [by exists (IndexMeta.mk ∅ None)|]. by intros s' [= <-].
  - intros [i [[s' m']|] c f] m; cbn; [|done]. intros [= <-]. by exists s'.
Defined.
Lemma disk_reliable : reliable (D := Disk.t Schema X) (λ d, d.(Disk.full) = false).
Proof.
  split.
  - intros path d _. by eexists.
  - intros [i x c f] s _ E. exists s. cbn in *. by subst i.
  - intros s d Hd. eexists. by split.
  - intros d Hd. by exists d.
  - intros [i x c f] [s m] _ E. exists s. cbn in *. by subst x.
  - intros s [i x c f] Hd. cbn in *. subst f. by eexists _, _.
  - intros [i x c f] [s m] _ E. exists m. cbn in *. by subst x.
Qed.
End DiskDirectory.
(** Every text but the private marker is one token. *)
#[export] Instance whole_texts : Analyzers := {
  tokenize _ text := if decide (text = TracePlan.prefix_marker) then [] else [Token.mk 0 (lenN text) 0 text 1];
  stop_words_available := true }.
Definition empty_disk {X} (content : X) (full : bool) : Disk.t Schema X := Disk.mk None None content full.
Definition sample_canonical : CanonicalIdentity.t Stream.t := match canonical_config sample_identity with Ok c => c | _ => CanonicalIdentity.mk sample_identity (token_stream (build_surface_analyzer None)) ∅ ∅ end.
Definition sample_schema : BuiltSchema.t := match build_schema sample_canonical.(CanonicalIdentity.config) with Ok b => b | _ => BuiltSchema.mk _ [] 0 0 [] [] end.
Lemma sample_canonical_ok : canonical_config sample_identity = Ok sample_canonical.
Proof. vm_compute. reflexivity. Qed.
Lemma sample_schema_ok : build_schema sample_canonical.(CanonicalIdentity.config) = Ok sample_schema.
Proof. vm_compute. reflexivity. Qed.
Lemma open_decides_witness : let '(r, d') := open sample_config (empty_disk () true) in
  kept (identity_bytes sample_canonical.(CanonicalIdentity.config)) sample_schema.(BuiltSchema.schema) (empty_disk () true) d'
  ∧ r = Err (FulltextError_new "E_STORAGE" "disk full") ∧ is_Some d'.(Disk.identity) ∧ d'.(Disk.index) = None.
Proof.
  pose proof (open_decides _ disk_reliable sample_config sample_canonical sample_schema (empty_disk () true) eq_refl sample_canonical_ok sample_schema_ok) as Ho. cbv zeta in Ho.
  destruct (open sample_config (empty_disk () true)) as [r d'] eqn:E. split; [exact (proj1 Ho)|]. vm_compute in E. injection E as <- <-. split_and!; [reflexivity|by eexists|reflexivity].
Defined.
(** The second attempt, with space on the disk, completes what the first one left. *)
Lemma create_resumes_witness : ∃ opened d', open sample_config (Disk.mk (open sample_config (empty_disk () true)).2.(Disk.identity) None () false) = (Ok opened, d')
  ∧ complete (identity_bytes sample_canonical.(CanonicalIdentity.config)) sample_schema.(BuiltSchema.schema) d'.
Proof.
  apply (create_resumes _ disk_reliable sample_config sample_canonical sample_schema (empty_disk () true) _ eq_refl sample_canonical_ok sample_schema_ok); [|reflexivity|reflexivity].
  eapply attempts_step; [apply surjective_pairing| | |apply attempts_refl]; [reflexivity|vm_compute; reflexivity].
Defined.
