(* ===== verification/Writing.v ===== *)
(** * src/src/engine.rs: writing an index

    [Writer] turns a batch into documents and deletions, gives them to the writer
    of the index crate and commits them with or without a payload.  The crate's
    writer is behind a class; its laws say what a deletion, a document and a commit
    do to the documents of the index.  The index is then a map from record IDs to
    documents, and a writer refines updates of that map. *)
From S2P Require Import Prelude.
From S2P Require Import Errors.
From S2P Require Import Bytes.
From S2P Require Import Wire.
From S2P Require Import Request.
From S2P Require Import Structure.
From S2P Require Import Admission.
From S2P Require Import Config.
From S2P Require Import Identity.
From S2P Require Import Analysis.
From S2P Require Import Canonical.
From S2P Require Import Plan.
From S2P Require Import Failures.
From S2P Require Import Query.
From S2P Require Import Opening.
Local Open Scope N_scope.

(** ** Documents *)
(** [TantivyDocument]: values with their fields, in the order they were added *)
Module DocValue.
Inductive t := Text (s : bytes) | F64 (v : f64) | Bool (b : bool).
End DocValue.
#[export] Instance DocValue_eq_dec : EqDecision DocValue.t.
Proof. solve_decision. Defined.
Abbreviation Document := (list (N * DocValue.t)).
Definition add_text (document : Document) (field : N) (s : bytes) : Document := document ++ [(field, DocValue.Text s)].
Definition add_f64 (document : Document) (field : N) (v : f64) : Document := document ++ [(field, DocValue.F64 v)].
Definition add_bool (document : Document) (field : N) (b : bool) : Document := document ++ [(field, DocValue.Bool b)].

(** ** The writer of the index crate *)
Class IndexWriter (D W : Type) := {
  writer_with_num_threads : N → N → D → TantivyError.t + W;
  delete_term : Term.t → W → W;
  add_document : Document → W → (TantivyError.t + ()) * W;
  prepare_commit : W → (TantivyError.t + ()) * W;
  (** [PreparedCommit::set_payload], when there is one, and [PreparedCommit::commit] *)
  commit_prepared : option bytes → W → (TantivyError.t + N) * W;
  index_rollback : W → (TantivyError.t + N) * W;
  wait_merging_threads : W → TantivyError.t + () }.

Module Writer.
Record t (W : Type) := mk {
  inner : W; checkpoint_required : bool; worker_ownership_unproven : bool; id_field : N; version_field : N;
  fields : list EngineField.t; field_lookup : gmap bytes N; filter_fields : list EngineFilterField.t; filter_field_lookup : gmap bytes N }.
Arguments mk {W}.
Arguments inner {W}.
Arguments checkpoint_required {W}.
Arguments worker_ownership_unproven {W}.
Arguments id_field {W}.
Arguments version_field {W}.
Arguments fields {W}.
Arguments field_lookup {W}.
Arguments filter_fields {W}.
Arguments filter_field_lookup {W}.
Definition with_inner {W} (self : t W) (inner : W) : t W :=
  mk inner self.(checkpoint_required) self.(worker_ownership_unproven) self.(id_field) self.(version_field) self.(fields) self.(field_lookup) self.(filter_fields) self.(filter_field_lookup).
Definition with_flags {W} (self : t W) (required unproven : bool) : t W :=
  mk self.(inner) required unproven self.(id_field) self.(version_field) self.(fields) self.(field_lookup) self.(filter_fields) self.(filter_field_lookup).
End Writer.
Import Writer (inner, checkpoint_required, worker_ownership_unproven, with_inner, with_flags).
Module PreparedBatch.
Record t := mk { mutation_count : N; deletes : list bytes; documents : list (bytes * Document) }.
End PreparedBatch.

Section Operations.
Context {D W : Type} `{!Schemas} `{!IndexDirectory D} `{!IndexWriter D W}.
(** The longest term of the index crate. *)
Context (MAX_TOKEN_LEN : N).

Definition writer_with_payload_using (self : Opened.t) (config : EngineConfig.t) (map_error : TantivyError.t → FulltextError) (directory : D)
  : outcome (Writer.t W * option bytes) :=
  inner ← map_err map_error (writer_with_num_threads config.(EngineConfig.limits).(Limits.indexing_threads) config.(EngineConfig.limits).(Limits.writer_memory_bytes) directory);
  payload ← committed_payload directory;
  Ok (Writer.mk inner (bool_decide (is_Some payload)) false self.(Opened.engine).(Engine.id_field) self.(Opened.version_field)
    self.(Opened.engine).(Engine.fields) self.(Opened.engine).(Engine.field_lookup) self.(Opened.filter_fields) self.(Opened.filter_field_lookup), payload).
Definition writer_with_payload (self : Opened.t) (config : EngineConfig.t) : D → outcome (Writer.t W * option bytes) :=
  writer_with_payload_using self config recovery_index_error.

(** *** [prepare] *)
Section Prepare.
Context (self : Writer.t W).
Definition add_value (field : EngineField.t) (document : Document) (value : bytes) : Document :=
  let document := add_text document field.(EngineField.field) value in
  match field.(EngineField.surface_field) with Some surface_field => add_text document surface_field value | None => document end.
Definition add_field_values (s : gset bytes * Document) (entry : bytes * list bytes) : outcome (gset bytes * Document) :=
  let '(seen, document) := s in
  let '(name, values) := entry in
  if bool_decide (name ∈ seen) then Err (invalid ("duplicate mutation field " +:+ show_str name)) else
  index ← ok_or (self.(Writer.field_lookup) !! name) (invalid ("unknown mutation field " +:+ show_str name));
  document ← foldO (λ document value, field ← unwrap (self.(Writer.fields) !! N.to_nat index); Ok (add_value field document value)) document values;
  Ok ({[name]} ∪ seen, document).
Definition add_filter_value (name : bytes) (filter : EngineFilterField.t) (deduplicate : bool) (s : gset bytes * Document) (value : FilterValue.t)
  : outcome (gset bytes * Document) :=
  let '(seen_values, document) := s in
  match filter.(EngineFilterField.field_type), value with
  | FilterFieldType.String, FilterValue.String value =>
      if MAX_TOKEN_LEN <? lenN value
      then Err (invalid ("mutation filter " +:+ show_str name +:+ " exceeds " +:+ show MAX_TOKEN_LEN +:+ " UTF-8 bytes"))
      else if deduplicate && bool_decide (value ∈ seen_values) then Ok s
      else Ok (if deduplicate then {[value]} ∪ seen_values else seen_values, add_text document filter.(EngineFilterField.field) value)
  | FilterFieldType.Number, FilterValue.Number value => Ok (seen_values, add_f64 document filter.(EngineFilterField.field) (canonical_number value))
  | FilterFieldType.Boolean, FilterValue.Boolean value => Ok (seen_values, add_bool document filter.(EngineFilterField.field) value)
  | _, _ => Err (invalid ("mutation filter " +:+ show_str name +:+ " has the wrong value type"))
  end.
Definition add_filter_values (s : gset bytes * Document) (entry : bytes * list FilterValue.t) : outcome (gset bytes * Document) :=
  let '(seen_filters, document) := s in
  let '(name, values) := entry in
  if bool_decide (name ∈ seen_filters) then Err (invalid ("duplicate mutation filter " +:+ show_str name)) else
  index ← ok_or (self.(Writer.filter_field_lookup) !! name) (FulltextError_new "E_SCHEMA_MISMATCH" ("unknown mutation filter " +:+ show_str name));
  filter ← unwrap (self.(Writer.filter_fields) !! N.to_nat index);
  '(_, document) ← foldO (add_filter_value name filter (1 <? lenN values)) (∅, document) values;
  Ok ({[name]} ∪ seen_filters, document).
Definition prepare_upsert (upsert : Upsert.t) : outcome (bytes * Document) :=
  _ ← validate_record_id upsert.(Upsert.id);
  let document := add_text [] self.(Writer.id_field) upsert.(Upsert.id) in
  let document := match upsert.(Upsert.version) with Some version => add_text document self.(Writer.version_field) version | None => document end in
  '(_, document) ← foldO add_field_values (∅, document) upsert.(Upsert.fields);
  '(_, document) ← foldO add_filter_values (∅, document) upsert.(Upsert.filters);
  Ok (upsert.(Upsert.id), document).
Definition prepare (batch : MutationBatch.t) : outcome PreparedBatch.t :=
  mutation_count ← usize_add (lenN batch.(MutationBatch.upserts)) (lenN batch.(MutationBatch.deletes));
  _ ← mapO validate_record_id batch.(MutationBatch.deletes);
  documents ← mapO prepare_upsert batch.(MutationBatch.upserts);
  Ok (PreparedBatch.mk mutation_count batch.(MutationBatch.deletes) documents).
End Prepare.

(** *** Applying and committing *)
Definition delete_record (id : bytes) : E (Writer.t W) () := λ self,
  (Ok (), with_inner self (delete_term (Term.from_field_text self.(Writer.id_field) id) self.(inner))).
Definition inner_effect {A} (map_error : TantivyError.t → FulltextError) (call : W → (TantivyError.t + A) * W) : E (Writer.t W) A := λ self,
  let '(r, inner) := call self.(inner) in (map_err map_error r, with_inner self inner).
Definition set_flags (required unproven : bool → bool) : E (Writer.t W) () := λ self,
  (Ok (), with_flags self (required self.(checkpoint_required)) (unproven self.(worker_ownership_unproven))).
Fixpoint each {A} (f : A → E (Writer.t W) ()) (l : list A) : E (Writer.t W) () := match l with [] => mret () | a :: l => _ ← f a; each f l end.
Definition apply_prepared (prepared : PreparedBatch.t) : E (Writer.t W) N :=
  _ ← each delete_record prepared.(PreparedBatch.deletes);
  _ ← each (λ '(id, document), _ ← delete_record id; inner_effect index_error (add_document document)) prepared.(PreparedBatch.documents);
  mret prepared.(PreparedBatch.mutation_count).
Definition apply (batch : MutationBatch.t) : E (Writer.t W) N := prepared ← reads (λ self, prepare self batch); apply_prepared prepared.

Definition commit_with_payload (payload : option bytes) : E (Writer.t W) N :=
  self ← reads (λ self, Ok self);
  if self.(checkpoint_required) && negb (bool_decide (is_Some payload))
  then reads (λ _, Err (FulltextError_new "E_CHECKPOINT_REQUIRED" "index has a checkpoint; use publish with a payload"))
  else if match payload with Some payload => MAX_COMMIT_PAYLOAD_BYTES <? lenN payload | None => false end
  then reads (λ _, Err (invalid ("commit payload exceeds " +:+ show MAX_COMMIT_PAYLOAD_BYTES +:+ " UTF-8 bytes")))
  else
    let previously_unproven := self.(worker_ownership_unproven) in
    _ ← set_flags id (λ _, true);
    _ ← inner_effect (commit_error "prepare_commit") prepare_commit;
    _ ← set_flags (λ required, required || bool_decide (is_Some payload)) (λ _, previously_unproven);
    inner_effect (commit_error "commit") (commit_prepared payload).
Definition commit : E (Writer.t W) N := commit_with_payload None.
Definition rollback : E (Writer.t W) N := inner_effect index_error index_rollback.
Definition quiescence_unproven : string :=
  "Tantivy commit preparation left worker ownership unproven; restart before reusing this generation".
Definition close (self : Writer.t W) : outcome () :=
  let result := map_err index_error (wait_merging_threads self.(inner)) in
  if self.(worker_ownership_unproven)
  then Err (FulltextError_new "E_QUIESCENCE_FAILED" (quiescence_unproven +:+
    match result with Err error => "; writer join also reported: " +:+ code error +:+ ": " +:+ message error | _ => "" end))
  else result.
End Operations.

(** ** What a batch becomes *)
Section Prepared.
Context {W : Type} (MAX_TOKEN_LEN : N) (self : Writer.t W).
Definition strings (values : list FilterValue.t) : list bytes := omap (λ v : FilterValue.t, match v with FilterValue.String s => Some s | _ => None end) values.
Definition typed (filter : EngineFilterField.t) (value : FilterValue.t) : Prop :=
  match filter.(EngineFilterField.field_type), value with
  | FilterFieldType.String, FilterValue.String s => lenN s <= MAX_TOKEN_LEN
  | FilterFieldType.Number, FilterValue.Number _ | FilterFieldType.Boolean, FilterValue.Boolean _ => True
  | _, _ => False
  end.
(** Strings are stored once, at their first place; zero is stored positive. *)
Definition stored_values (filter : EngineFilterField.t) (values : list FilterValue.t) : list DocValue.t :=
  match filter.(EngineFilterField.field_type) with
  | FilterFieldType.String => DocValue.Text <$> distinct_after [] (strings values)
  | FilterFieldType.Number => omap (λ v : FilterValue.t, match v with FilterValue.Number v => Some (DocValue.F64 (canonical_number v)) | _ => None end) values
  | FilterFieldType.Boolean => omap (λ v : FilterValue.t, match v with FilterValue.Boolean b => Some (DocValue.Bool b) | _ => None end) values
  end.
Definition field_named (name : bytes) : option EngineField.t := i ← self.(Writer.field_lookup) !! name; self.(Writer.fields) !! N.to_nat i.
Definition filter_named (name : bytes) : option EngineFilterField.t := i ← self.(Writer.filter_field_lookup) !! name; self.(Writer.filter_fields) !! N.to_nat i.
Definition field_values (entry : bytes * list bytes) : Document :=
  match field_named entry.1 with Some field => entry.2 ≫= (λ value, add_value field [] value) | None => [] end.
Definition filter_values (entry : bytes * list FilterValue.t) : Document :=
  match filter_named entry.1 with Some filter => pair filter.(EngineFilterField.field) <$> stored_values filter entry.2 | None => [] end.
Definition filter_entry_ok (entry : bytes * list FilterValue.t) : Prop := ∃ filter, filter_named entry.1 = Some filter ∧ Forall (typed filter) entry.2.
Definition head_values (upsert : Upsert.t) : Document :=
  (self.(Writer.id_field), DocValue.Text upsert.(Upsert.id)) :: match upsert.(Upsert.version) with Some version => [(self.(Writer.version_field), DocValue.Text version)] | None => [] end.
Definition document_of (upsert : Upsert.t) : Document :=
  head_values upsert ++ (upsert.(Upsert.fields) ≫= field_values) ++ (upsert.(Upsert.filters) ≫= filter_values).
(** Known fields and filters, each named once, and values of the filters' types. *)
Definition upsert_ok (upsert : Upsert.t) : Prop :=
  0 < lenN upsert.(Upsert.id) <= MAX_RECORD_ID_BYTES
  ∧ (NoDup upsert.(Upsert.fields).*1 ∧ Forall (λ entry : bytes * list bytes, is_Some (field_named entry.1)) upsert.(Upsert.fields))
  ∧ (NoDup upsert.(Upsert.filters).*1 ∧ Forall filter_entry_ok upsert.(Upsert.filters)).
(** Every lookup is in bounds, as [Engine::open] makes it. *)
Definition writer_ok : Prop :=
  (∀ name i, self.(Writer.field_lookup) !! name = Some i → i < lenN self.(Writer.fields))
  ∧ ∀ name i, self.(Writer.filter_field_lookup) !! name = Some i → i < lenN self.(Writer.filter_fields).
Context (Hself : writer_ok).

Lemma foldO_entries {A} (f : gset bytes * Document → bytes * A → outcome (gset bytes * Document)) (P : bytes * A → Prop) (out : bytes * A → Document) :
  (∀ seen d e r, f (seen, d) e = Ok r ↔ (e.1 ∉ seen) ∧ P e ∧ r = ({[e.1]} ∪ seen, d ++ out e)) →
  ∀ l seen d d', (∃ seen', foldO f (seen, d) l = Ok (seen', d')) ↔ (NoDup l.*1 ∧ Forall (λ n, n ∉ seen) l.*1) ∧ Forall P l ∧ d' = d ++ (l ≫= out).
Proof.
  intros Hf l. induction l as [|e l IH]; intros seen d d'; cbn [foldO].
  - rewrite app_nil_r. split; [intros (seen' & [= <- <-]); split; [by split; constructor|by split; [constructor|]]|intros (_ & _ & ->); by eexists].
  - rewrite fmap_cons, NoDup_cons, !Forall_cons, bind_cons, app_assoc. setoid_rewrite bind_Ok. split.
    + intros (seen' & s & (H1 & H2 & ->)%Hf & H). destruct (proj1 (IH ({[e.1]} ∪ seen) (d ++ out e) d') (ex_intro _ _ H)) as ([H3 H4] & H5 & ->).
      split; [|done]. split; [|split; [done|]].
      * split; [|done]. intros Hin. rewrite Forall_forall in H4. apply (H4 _ Hin). set_solver.
      * eapply Forall_impl; [exact H4|]. set_solver.
    + intros (([H1 H2] & H3 & H4) & [H5 H6] & ->). destruct (proj2 (IH ({[e.1]} ∪ seen) (d ++ out e) ((d ++ out e) ++ (l ≫= out)))) as (seen' & H).
      { split; [split; [done|]|done]. apply Forall_forall. intros n Hn. rewrite Forall_forall in H4. specialize (H4 _ Hn). intros [->%elem_of_singleton|]%elem_of_union; done. }
      exists seen', ({[e.1]} ∪ seen, d ++ out e). split; [by apply Hf|exact H].
Qed.
Lemma named_field name : is_Some (self.(Writer.field_lookup) !! name) ↔ is_Some (field_named name).
Proof using Hself.
  unfold field_named. destruct (Writer.field_lookup self !! name) as [i|] eqn:E; cbn [mbind option_bind]; [|done].
  apply (proj1 Hself) in E. unfold lenN in E. split; [intros _|done]. apply lookup_lt_is_Some. lia.
Qed.
Lemma add_values_spec field values : ∀ d, foldO (λ document value, field ← unwrap (Some field); Ok (add_value field document value)) d values
  = Ok (d ++ (values ≫= (λ value, add_value field [] value))).
Proof.
  induction values as [|v values IH]; intros d; [cbn; by rewrite app_nil_r|]. cbn [foldO unwrap mbind outcome_bind]. rewrite IH, bind_cons, app_assoc. do 2 f_equal.
  unfold add_value. destruct (EngineField.surface_field field); unfold add_text; [by rewrite <- app_assoc|done].
Qed.
Lemma add_field_values_spec seen d e r : add_field_values self (seen, d) e = Ok r ↔ (e.1 ∉ seen) ∧ is_Some (field_named e.1) ∧ r = ({[e.1]} ∪ seen, d ++ field_values e).
Proof using Hself.
  destruct e as [name values]. unfold add_field_values, field_values. cbn [fst snd]. rewrite <- named_field. case_bool_decide as Hin; [naive_solver|].
  unfold field_named. destruct (Writer.field_lookup self !! name) as [i|] eqn:E; cbn [ok_or mbind outcome_bind option_bind].
  2: { split; [done|]. by intros (_ & [? [=]] & _). }
  apply (proj1 Hself) in E. unfold lenN in E. destruct (lookup_lt_is_Some_2 (Writer.fields self) (N.to_nat i)) as [field Ef]; [lia|]. rewrite Ef, add_values_spec.
  cbn [mbind outcome_bind]. split; [intros [= <-]; by split_and!|by intros (_ & _ & ->)].
Qed.
Lemma string_step name filter b seen d v : filter.(EngineFilterField.field_type) = FilterFieldType.String →
  (∃ r, add_filter_value MAX_TOKEN_LEN name filter b (seen, d) v = Ok r ∧ ∃ s, v = FilterValue.String s ∧ lenN s <= MAX_TOKEN_LEN
    ∧ r = if b && bool_decide (s ∈ seen) then (seen, d) else (if b then {[s]} ∪ seen else seen, d ++ [(filter.(EngineFilterField.field), DocValue.Text s)]))
  ∨ ∃ e, add_filter_value MAX_TOKEN_LEN name filter b (seen, d) v = Err e ∧ ¬ typed filter v.
Proof.
  unfold add_filter_value, typed. intros ->. destruct v as [s|v|c]; [|right; eexists; split; [done|tauto]..].
  destruct (N.ltb_spec MAX_TOKEN_LEN (lenN s)); [right; eexists; split; [done|lia]|]. left.
  exists (if b && bool_decide (s ∈ seen) then (seen, d) else (if b then {[s]} ∪ seen else seen, d ++ [(filter.(EngineFilterField.field), DocValue.Text s)])).
  split; [by destruct (b && _)|]. by exists s.
Qed.
Lemma add_string_values name filter values : filter.(EngineFilterField.field_type) = FilterFieldType.String → ∀ (acc : list bytes) (d d' : Document),
  (∃ seen', foldO (add_filter_value MAX_TOKEN_LEN name filter true) (list_to_set acc, d ++ (pair filter.(EngineFilterField.field) <$> (DocValue.Text <$> acc))) values = Ok (seen', d'))
  ↔ Forall (typed filter) values ∧ d' = d ++ (pair filter.(EngineFilterField.field) <$> (DocValue.Text <$> distinct_after acc (strings values))).
Proof.
  intros Ef. induction values as [|v values IH]; intros acc d d'; cbn [foldO].
  - split; [intros (? & [= <- <-]); split; [constructor|done]|intros [_ ->]; by eexists].
  - rewrite Forall_cons. destruct (string_step name filter true (list_to_set acc) (d ++ (pair (EngineFilterField.field filter) <$> (DocValue.Text <$> acc))) v Ef) as [(r & -> & s & -> & Hle & ->)|(e & -> & Hn)];
      cbn [mbind outcome_bind andb]; [|split; [by intros (? & ?)|tauto]]. rewrite bool_decide_decide.
    assert (typed filter (FilterValue.String s)) as Hs by (unfold typed; by rewrite Ef).
    change (strings (FilterValue.String s :: values)) with (s :: strings values). unfold distinct_after. cbn [foldl]. fold (distinct_after (A := bytes)).
    destruct (decide (s ∈ list_to_set (C := gset bytes) acc)) as [Hin|Hin]; rewrite elem_of_list_to_set in Hin; cbn [mbind outcome_bind].
    + rewrite decide_True by done. rewrite IH. tauto.
    + rewrite decide_False by done. specialize (IH (acc ++ [s]) d d'). rewrite !fmap_app, app_assoc in IH. cbn [fmap list_fmap] in IH.
      assert (list_to_set (C := gset bytes) (acc ++ [s]) = {[s]} ∪ list_to_set acc) as El by (rewrite list_to_set_app_L; set_solver). rewrite El in IH. rewrite IH. tauto.
Qed.
Lemma add_other_values name filter b values : filter.(EngineFilterField.field_type) ≠ FilterFieldType.String → ∀ seen (d d' : Document),
  (∃ seen', foldO (add_filter_value MAX_TOKEN_LEN name filter b) (seen, d) values = Ok (seen', d'))
  ↔ Forall (typed filter) values ∧ d' = d ++ (pair filter.(EngineFilterField.field) <$> stored_values filter values).
Proof.
  intros Ef. assert (∀ v values, typed filter v → ∃ x, stored_values filter (v :: values) = x :: stored_values filter values
    ∧ ∀ seen d, add_filter_value MAX_TOKEN_LEN name filter b (seen, d) v = Ok (seen, d ++ [(filter.(EngineFilterField.field), x)])) as Hs.
  { intros v l. unfold typed, stored_values, add_filter_value. destruct (EngineFilterField.field_type filter), v; try done; intros _; by eexists. }
  assert (∀ seen d v r, add_filter_value MAX_TOKEN_LEN name filter b (seen, d) v = Ok r → typed filter v) as Ht.
  { intros seen d v r. unfold typed, add_filter_value. destruct (EngineFilterField.field_type filter), v; done. }
  induction values as [|v values IH]; intros seen d d'; cbn [foldO].
  - unfold stored_values. destruct (EngineFilterField.field_type filter); [done|..]; cbn; rewrite app_nil_r;
      (split; [intros (? & [= <- <-]); split; [constructor|done]|intros [_ ->]; by eexists]).
  - rewrite Forall_cons. setoid_rewrite bind_Ok. split.
    + intros (seen' & s & Es & H). pose proof (Ht _ _ _ _ Es) as Hv. destruct (Hs v values Hv) as (x & -> & Ex). rewrite Ex in Es. injection Es as <-.
      destruct (proj1 (IH _ _ _) (ex_intro _ _ H)) as [Hall ->]. split; [done|]. by rewrite fmap_cons, <- app_assoc.
    + intros [[Hv Hall] ->]. destruct (Hs v values Hv) as (x & -> & Ex). rewrite fmap_cons.
      destruct (proj2 (IH seen (d ++ [(EngineFilterField.field filter, x)]) (d ++ (EngineFilterField.field filter, x) :: (pair (EngineFilterField.field filter) <$> stored_values filter values)))) as (seen' & H).
      { split; [done|]. by rewrite <- app_assoc. }
      exists seen', (seen, d ++ [(EngineFilterField.field filter, x)]). by rewrite Ex.
Qed.
Lemma add_values_all name filter values d d' :
  (∃ seen', foldO (add_filter_value MAX_TOKEN_LEN name filter (1 <? lenN values)) (∅, d) values = Ok (seen', d'))
  ↔ Forall (typed filter) values ∧ d' = d ++ (pair filter.(EngineFilterField.field) <$> stored_values filter values).
Proof.
  destruct (decide (filter.(EngineFilterField.field_type) = FilterFieldType.String)) as [Ef|Ef]; [|by apply add_other_values].
  destruct (N.ltb_spec 1 (lenN values)) as [Hlt|Hle].
  - unfold stored_values. rewrite Ef. pose proof (add_string_values name filter values Ef [] d d') as Ha. cbn [fmap list_fmap list_to_set] in Ha. by rewrite app_nil_r in Ha.
  - unfold stored_values. rewrite Ef. destruct values as [|v [|v' values]]; [| |rewrite !lenN_cons in Hle; lia]; cbn [foldO].
    + cbn. rewrite app_nil_r. split; [intros (? & [= <- <-]); split; [constructor|done]|intros [_ ->]; by eexists].
    + rewrite Forall_singleton. destruct (string_step name filter false ∅ d v Ef) as [(r & Er & s & -> & Hs & ->)|(e & Er & Hn)]; cbn [lenN length] in *; change (1 <? lenN _) with false; rewrite Er; cbn [mbind outcome_bind].
      * cbn. unfold typed. rewrite Ef. split; [intros (? & [= <- <-]); by split|intros [_ ->]; by eexists].
      * split; [by intros (? & ?)|tauto].
Qed.
Lemma named_filter name : is_Some (self.(Writer.filter_field_lookup) !! name) ↔ is_Some (filter_named name).
Proof using Hself.
  unfold filter_named. destruct (Writer.filter_field_lookup self !! name) as [i|] eqn:E; cbn [mbind option_bind]; [|done].
  apply (proj2 Hself) in E. unfold lenN in E. split; [intros _|done]. apply lookup_lt_is_Some. lia.
Qed.
Lemma add_filter_values_spec seen d e r : add_filter_values MAX_TOKEN_LEN self (seen, d) e = Ok r ↔ (e.1 ∉ seen) ∧ filter_entry_ok e ∧ r = ({[e.1]} ∪ seen, d ++ filter_values e).
Proof using Hself.
  destruct e as [name values]. unfold add_filter_values, filter_values, filter_entry_ok. cbn [fst snd]. case_bool_decide as Hin; [naive_solver|].
  unfold filter_named. destruct (Writer.filter_field_lookup self !! name) as [i|] eqn:E; cbn [ok_or mbind outcome_bind option_bind].
  2: { split; [done|]. by intros (_ & (? & [=] & _) & _). }
  apply (proj2 Hself) in E. unfold lenN in E. destruct (lookup_lt_is_Some_2 (Writer.filter_fields self) (N.to_nat i)) as [filter Ef]; [lia|]. rewrite Ef. cbn [unwrap mbind outcome_bind].
  pose proof (λ d', add_values_all name filter values d d') as Ha. split.
  - intros H. apply bind_Ok in H as ([seen' d'] & H & [= <-]). destruct (proj1 (Ha d') (ex_intro _ _ H)) as [Hall ->]. split; [done|]. split; [by exists filter|done].
  - intros (_ & (f & [= <-] & Hall) & ->). destruct (proj2 (Ha (d ++ (pair (EngineFilterField.field filter) <$> stored_values filter values))) (conj Hall eq_refl)) as [seen' ->]. done.
Qed.
Lemma prepare_upsert_iff upsert r : prepare_upsert MAX_TOKEN_LEN self upsert = Ok r ↔ upsert_ok upsert ∧ r = (upsert.(Upsert.id), document_of upsert).
Proof using Hself.
  unfold prepare_upsert, upsert_ok, document_of. rewrite <- validate_record_id_iff. destruct (validate_record_id (Upsert.id upsert)) as [[]| | |]; cbn [mbind outcome_bind]; [|naive_solver..].
  set (h := match Upsert.version upsert with Some version => _ | None => _ end). assert (h = head_values upsert) as -> by (unfold h, head_values; by destruct (Upsert.version upsert)).
  pose proof (λ d', foldO_entries _ _ _ add_field_values_spec upsert.(Upsert.fields) ∅ (head_values upsert) d') as Hf.
  pose proof (λ d d', foldO_entries _ _ _ add_filter_values_spec upsert.(Upsert.filters) ∅ d d') as Hff.
  assert (∀ l : list bytes, Forall (λ n, n ∉ (∅ : gset bytes)) l) as Hn by (intros l; apply Forall_forall; set_solver).
  split.
  - intros H. apply bind_Ok in H as ([s1 d1] & H1 & H). apply bind_Ok in H as ([s2 d2] & H2 & [= <-]).
    destruct (proj1 (Hf d1) (ex_intro _ _ H1)) as ([N1 _] & F1 & ->). destruct (proj1 (Hff _ d2) (ex_intro _ _ H2)) as ([N2 _] & F2 & ->).
    split; [by split_and!|]. by rewrite app_assoc.
  - intros ((_ & [N1 F1] & N2 & F2) & ->). destruct (proj2 (Hf (head_values upsert ++ (Upsert.fields upsert ≫= field_values)))) as [s1 ->]; [by split_and!|]. cbn [mbind outcome_bind].
    destruct (proj2 (Hff (head_values upsert ++ (Upsert.fields upsert ≫= field_values)) ((head_values upsert ++ (Upsert.fields upsert ≫= field_values)) ++ (Upsert.filters upsert ≫= filter_values)))) as [s2 ->]; [by split_and!|].
    cbn [mbind outcome_bind]. by rewrite <- app_assoc.
Qed.
Definition prepared_of (batch : MutationBatch.t) : PreparedBatch.t :=
  PreparedBatch.mk (lenN batch.(MutationBatch.upserts) + lenN batch.(MutationBatch.deletes)) batch.(MutationBatch.deletes)
    ((λ upsert, (upsert.(Upsert.id), document_of upsert)) <$> batch.(MutationBatch.upserts)).
Definition batch_ok (batch : MutationBatch.t) : Prop :=
  Forall (λ id, 0 < lenN id <= MAX_RECORD_ID_BYTES) batch.(MutationBatch.deletes) ∧ Forall upsert_ok batch.(MutationBatch.upserts).
Lemma prepare_Ok batch p : lenN batch.(MutationBatch.upserts) + lenN batch.(MutationBatch.deletes) <= USIZE_MAX →
  prepare MAX_TOKEN_LEN self batch = Ok p ↔ batch_ok batch ∧ p = prepared_of batch.
Proof using Hself.
  intros Hfit. unfold prepare, usize_add, checked_add, batch_ok, prepared_of. rewrite (proj2 (N.leb_le _ _) Hfit). cbn [unwrap mbind outcome_bind]. rewrite bind_Ok. setoid_rewrite bind_Ok. split.
  - intros (us & Hd%mapO_Ok & docs & Hu%mapO_Ok & [= <-]). split; [split|].
    + clear -Hd. induction Hd as [|id [] l us E _ IH]; constructor; [by apply validate_record_id_iff|exact IH].
    + clear -Hu Hself. induction Hu as [|u r l rs E _ IH]; constructor; [by apply prepare_upsert_iff in E as [? _]|exact IH].
    + f_equal. clear -Hu Hself. induction Hu as [|u r l rs E _ IH]; [done|]. apply prepare_upsert_iff in E as [_ ->]. by rewrite fmap_cons, IH.
  - intros ([Hd Hu] & ->). exists ((λ _, ()) <$> batch.(MutationBatch.deletes)). split.
    { apply mapO_Ok. clear Hfit. induction Hd as [|id l Hid _ IH]; [constructor|]. rewrite fmap_cons. constructor; [by apply validate_record_id_iff|exact IH]. }
    exists ((λ upsert, (upsert.(Upsert.id), document_of upsert)) <$> batch.(MutationBatch.upserts)). split; [|done].
    apply mapO_Ok. clear Hfit. induction Hu as [|u l Hu0 _ IH]; [constructor|]. rewrite fmap_cons. constructor; [by apply prepare_upsert_iff|exact IH].
Qed.
(** A batch that is refused is an invalid argument, or names a filter the index does not have. *)
Definition refused {A} (r : outcome A) : Prop :=
  match r with Ok _ => True | Err e => code e = "E_INVALID_ARGUMENT"%string ∨ code e = "E_SCHEMA_MISMATCH"%string | Panic | Fuel => False end.
Lemma refused_bind {A B} (r : outcome A) (f : A → outcome B) : refused r → (∀ a, r = Ok a → refused (f a)) → refused (mbind f r).
Proof. destruct r; cbn; auto. Qed.
Lemma refused_tame {A} (r : outcome A) : tame r → refused r.
Proof. destruct r; cbn; auto. Qed.
Lemma refused_foldO {A B} (f : B → A → outcome B) (Hf : ∀ b a, refused (f b a)) l : ∀ b, refused (foldO f b l).
Proof. induction l as [|a l IH]; intros b; [done|]. cbn [foldO]. apply refused_bind; [apply Hf|]. intros b' _. apply IH. Qed.
Lemma refused_mapO {A B} (f : A → outcome B) (Hf : ∀ a, refused (f a)) l : refused (mapO f l).
Proof. induction l as [|a l IH]; [done|]. cbn [mapO]. apply refused_bind; [apply Hf|]. intros b _. apply refused_bind; [exact IH|]. done. Qed.
Lemma prepare_refused batch : lenN batch.(MutationBatch.upserts) + lenN batch.(MutationBatch.deletes) <= USIZE_MAX → refused (prepare MAX_TOKEN_LEN self batch).
Proof using Hself.
  intros Hfit. unfold prepare, usize_add, checked_add. rewrite (proj2 (N.leb_le _ _) Hfit). cbn [unwrap mbind outcome_bind].
  apply refused_bind; [apply refused_mapO; intros id; apply refused_tame, validate_record_id_tame|]. intros us _.
  apply refused_bind; [|done]. apply refused_mapO. intros u. unfold prepare_upsert. apply refused_bind; [apply refused_tame, validate_record_id_tame|]. intros _ _. cbv zeta.
  apply refused_bind; [apply refused_foldO|]; [|intros [seen d] _; apply refused_bind; [apply refused_foldO|by intros [] _]].
  - intros [seen d] [name values]. unfold add_field_values. case_bool_decide; [by left|]. destruct (Writer.field_lookup self !! name) as [i|] eqn:E; cbn [ok_or mbind outcome_bind]; [|by left].
    apply (proj1 Hself) in E. unfold lenN in E. destruct (lookup_lt_is_Some_2 (Writer.fields self) (N.to_nat i)) as [field Ef]; [lia|]. by rewrite Ef, add_values_spec.
  - intros [seen' d'] [name values]. unfold add_filter_values. case_bool_decide; [by left|]. destruct (Writer.filter_field_lookup self !! name) as [i|] eqn:E; cbn [ok_or mbind outcome_bind]; [|by right].
    apply (proj2 Hself) in E. unfold lenN in E. destruct (lookup_lt_is_Some_2 (Writer.filter_fields self) (N.to_nat i)) as [filter Ef]; [lia|]. rewrite Ef. cbn [unwrap mbind outcome_bind].
    apply refused_bind; [|by intros [] _]. apply refused_foldO. intros [sv d1] v. unfold add_filter_value. destruct (EngineFilterField.field_type filter), v; try (by left); try done. case_if; [by left|]. by destruct (_ && _).
Qed.
End Prepared.

(** ** The index as a map *)
(** The texts a document has in a field. *)
Definition texts (field : N) (document : Document) : list bytes :=
  omap (λ '(f, v), if f =? field then match v with DocValue.Text s => Some s | _ => None end else None) document.
(** The documents are those of the map, each with its key as its ID. *)
Definition holds (id_field : N) (m : gmap bytes Document) (documents : list Document) : Prop :=
  documents ≡ₚ (map_to_list m).*2 ∧ ∀ id d, m !! id = Some d → texts id_field d = [id].
#[export] Instance holds_proper id_field m : Proper ((≡ₚ) ==> iff) (holds id_field m).
Proof. intros l k Hlk. unfold holds. by rewrite Hlk. Qed.
Section Holds.
Context (id_field : N).
Lemma holds_delete id m l : holds id_field m l → holds id_field (delete id m) (filter (λ d, id ∉ texts id_field d) l).
Proof.
  intros [Hl Hid]. split; [|intros k d Hd; apply lookup_delete_Some in Hd as [_ Hd]; by apply Hid]. rewrite Hl.
  assert (∀ k : list (bytes * Document), (∀ e, e ∈ k → texts id_field e.2 = [e.1] ∧ e.1 ≠ id) → filter (λ d, id ∉ texts id_field d) k.*2 = k.*2) as Hk.
  { intros k. induction k as [|[n d] k IH]; intros Hk; [done|]. rewrite fmap_cons. destruct (Hk (n, d)) as [E Hn]; [by left|]. cbn [fst snd] in *.
    rewrite filter_cons_True by (rewrite E; intros ->%list_elem_of_singleton; done). f_equal. apply IH. intros e He. apply Hk. by right. }
  destruct (m !! id) as [d|] eqn:E.
  - rewrite <- (map_to_list_delete m id d E), fmap_cons; cbn [snd]; rewrite filter_cons_False by (rewrite (Hid _ _ E); intros Hn; apply Hn; by left).
    rewrite Hk; [done|]. intros [n d'] He%elem_of_map_to_list. apply lookup_delete_Some in He as [Hne He]. split; [by apply Hid|by apply not_eq_sym].
  - rewrite delete_id by done. rewrite Hk; [done|]. intros [n d'] He%elem_of_map_to_list. split; [by apply Hid|]. cbn. intros ->. congruence.
Qed.
Lemma holds_insert id d m l : m !! id = None → texts id_field d = [id] → holds id_field m l → holds id_field (<[id := d]> m) (l ++ [d]).
Proof.
  intros E Ed [Hl Hid]. split.
  - rewrite map_to_list_insert by done. rewrite fmap_cons, Hl. cbn [snd]. by rewrite <- Permutation_cons_append.
  - intros k d' [[<- <-]|[_ Hk]]%lookup_insert_Some; [done|by apply Hid].
Qed.
End Holds.
Definition updated (m : gmap bytes Document) (prepared : PreparedBatch.t) : gmap bytes Document :=
  foldl (λ m '(id, d), <[id := d]> m) (foldl (λ m id, delete id m) m prepared.(PreparedBatch.deletes)) prepared.(PreparedBatch.documents).

(** What is relied on of the writer of the index crate: which documents a commit
    would publish ([live]), and which the directory has ([published]).  Nothing
    but a commit changes the directory, and a commit replaces what is published,
    with the payload, at once. *)
Definition payload_of {D} `{DirectoryLaws D} (d : D) : option bytes := c ← committed d; (snd c).(IndexMeta.payload).
Definition schema_of {D} `{DirectoryLaws D} (d : D) : option Schema := fst <$> committed d.
Class IndexWriterLaws (D W : Type) (id_field : N) `{!Directory D} `{!Schemas} `{!IndexDirectory D} `{!DirectoryLaws D} `{!IndexWriter D W} := {
  disk : W → D;
  live : W → list Document;
  published : D → list Document;
  new_live threads memory d w : writer_with_num_threads threads memory d = inr w → disk w = d ∧ live w ≡ₚ published d;
  delete_live id w : lenN id <= MAX_RECORD_ID_BYTES →
    disk (delete_term (Term.from_field_text id_field id) w) = disk w
    ∧ live (delete_term (Term.from_field_text id_field id) w) ≡ₚ filter (λ d, id ∉ texts id_field d) (live w);
  add_live d w r w' : add_document d w = (r, w') → disk w' = disk w ∧ (r = inr () → live w' ≡ₚ live w ++ [d]);
  prepare_live w r w' : prepare_commit w = (r, w') → disk w' = disk w ∧ (r = inr () → live w' ≡ₚ live w);
  commit_live payload w r w' : commit_prepared payload w = (r, w') →
    sidecar (disk w') = sidecar (disk w) ∧ schema_of (disk w') = schema_of (disk w)
    ∧ (published (disk w') ≡ₚ live w ∧ payload_of (disk w') = payload ∧ (∀ n, r = inr n → live w' ≡ₚ live w)
      ∨ (∃ e, r = inl e) ∧ published (disk w') = published (disk w) ∧ payload_of (disk w') = payload_of (disk w));
  rollback_live w r w' : index_rollback w = (r, w') → disk w' = disk w ∧ ∀ n, r = inr n → live w' ≡ₚ published (disk w) }.

(** ** A writer refines a store *)
(** What the writer would publish, what is published, and the payload of that commit. *)
Module Store.
Record t := mk { pending : gmap bytes Document; visible : gmap bytes Document; checkpoint : option bytes }.
End Store.
Module Op.
Inductive t := Apply (batch : MutationBatch.t) | Commit | Publish (payload : bytes) | Rollback.
End Op.
Section Refinement.
Context {D W : Type} `{!Directory D} `{!Schemas} `{!IndexDirectory D} `{!DirectoryLaws D} `{!IndexWriter D W} (id_field : N) `{!IndexWriterLaws D W id_field} (MAX_TOKEN_LEN : N).
Implicit Types (self : Writer.t W) (s : Store.t).
(** The ID is the only text of the field of IDs. *)
Definition ids_apart (self : Writer.t W) : Prop :=
  self.(Writer.id_field) = id_field ∧ self.(Writer.version_field) ≠ id_field
  ∧ Forall (λ f, f.(EngineField.field) ≠ id_field ∧ f.(EngineField.surface_field) ≠ Some id_field) self.(Writer.fields)
  ∧ Forall (λ f, f.(EngineFilterField.field) ≠ id_field) self.(Writer.filter_fields).
Definition writer_for (self : Writer.t W) : Prop := writer_ok self ∧ ids_apart self.
Definition same_setup (self self' : Writer.t W) : Prop :=
  self'.(Writer.id_field) = self.(Writer.id_field) ∧ self'.(Writer.version_field) = self.(Writer.version_field) ∧ self'.(Writer.fields) = self.(Writer.fields)
  ∧ self'.(Writer.field_lookup) = self.(Writer.field_lookup) ∧ self'.(Writer.filter_fields) = self.(Writer.filter_fields)
  ∧ self'.(Writer.filter_field_lookup) = self.(Writer.filter_field_lookup).
Lemma setup_refl self : same_setup self self.
Proof. done. Qed.
Lemma setup_trans a b c : same_setup a b → same_setup b c → same_setup a c.
Proof. unfold same_setup. intros (-> & -> & -> & -> & -> & ->) (-> & -> & -> & -> & -> & ->). done. Qed.
Lemma writer_for_setup self self' : same_setup self self' → writer_for self → writer_for self'.
Proof. unfold same_setup, writer_for, writer_ok, ids_apart. by intros (-> & -> & -> & -> & -> & ->). Qed.

Lemma texts_app f a b : texts f (a ++ b) = texts f a ++ texts f b.
Proof. apply omap_app. Qed.
Lemma texts_apart field (l : Document) : Forall (λ e : N * DocValue.t, e.1 ≠ field) l → texts field l = [].
Proof.
  induction 1 as [|[f v] l Hf _ IH]; [done|]. unfold texts in *. cbn [omap list_omap]. cbn [fst] in Hf. by rewrite (proj2 (N.eqb_neq f field) Hf).
Qed.
Lemma document_id self upsert : writer_for self → texts id_field (document_of self upsert) = [upsert.(Upsert.id)].
Proof.
  intros [_ (Eid & Hv & Hf & Hff)]. unfold document_of. rewrite !texts_app. rewrite (texts_apart id_field (_ ≫= field_values self)), (texts_apart id_field (_ ≫= filter_values self)).
  - rewrite !app_nil_r. unfold head_values. rewrite Eid. unfold texts. cbn [omap list_omap]. rewrite N.eqb_refl. f_equal. apply (texts_apart id_field).
    destruct (Upsert.version upsert); [by apply Forall_singleton|constructor].
  - apply Forall_bind, Forall_forall. intros [name values] _. unfold filter_values. cbn. destruct (filter_named self name) as [f|] eqn:E; [|constructor].
    apply bind_Some in E as (i & _ & E). apply list_elem_of_lookup_2 in E. rewrite Forall_forall in Hff. apply Forall_fmap, Forall_forall. intros v _. cbn. by apply Hff.
  - apply Forall_bind, Forall_forall. intros [name values] _. unfold field_values. cbn. destruct (field_named self name) as [f|] eqn:E; [|constructor].
    apply bind_Some in E as (i & _ & E). apply list_elem_of_lookup_2 in E. rewrite Forall_forall in Hf. destruct (Hf _ E) as [H1 H2].
    apply Forall_bind, Forall_forall. intros v _. unfold add_value, add_text. destruct (EngineField.surface_field f) as [g|]; cbn [app].
    + constructor; [exact H1|]. apply Forall_singleton. cbn. congruence.
    + by apply Forall_singleton.
Qed.

(** *** Applying *)
Lemma delete_record_holds id self m : lenN id <= MAX_RECORD_ID_BYTES → writer_for self → holds id_field m (live self.(inner)) →
  let '(r, self') := delete_record (D := D) id self in
  r = Ok () ∧ same_setup self self' ∧ self'.(checkpoint_required) = self.(checkpoint_required) ∧ disk self'.(inner) = disk self.(inner) ∧ holds id_field (delete id m) (live self'.(inner)).
Proof.
  intros Hid [_ (Eid & _)] Hm. unfold delete_record. cbn. rewrite Eid. destruct (delete_live id self.(inner) Hid) as [-> ->]. split_and!; [done..|]. by apply holds_delete.
Qed.
Definition applied (self self' : Writer.t W) : Prop :=
  same_setup self self' ∧ self'.(checkpoint_required) = self.(checkpoint_required) ∧ disk self'.(inner) = disk self.(inner).
Lemma applied_trans a b c : applied a b → applied b c → applied a c.
Proof. unfold applied. intros (H1 & -> & ->) (H2 & -> & ->). split; [by eapply setup_trans|done]. Qed.
Lemma deletes_hold deletes : ∀ self m, Forall (λ id, lenN id <= MAX_RECORD_ID_BYTES) deletes → writer_for self → holds id_field m (live self.(inner)) →
  ends (each (delete_record (D := D)) deletes) self (λ r self', r = Ok () ∧ applied self self' ∧ holds id_field (foldl (λ m id, delete id m) m deletes) (live self'.(inner))).
Proof.
  induction deletes as [|id deletes IH]; intros self m Hids Hw Hm; cbn [each]; [by ends_step|]. apply Forall_cons in Hids as [Hid Hids]. ends_step.
  pose proof (delete_record_holds id self m Hid Hw Hm) as Hd. unfold ends. destruct (delete_record id self) as [r self']. destruct Hd as (-> & Hs & Hc & Hdisk & Hm').
  cbn [fst snd]. pose proof (IH self' _ Hids (writer_for_setup _ _ Hs Hw) Hm') as Hi. unfold ends in *. destruct Hi as (H1 & H2 & H3). split; [exact H1|]. split; [|exact H3].
  by eapply applied_trans.
Qed.
Lemma documents_hold (documents : list (bytes * Document)) : ∀ self m, Forall (λ e : bytes * Document, lenN e.1 <= MAX_RECORD_ID_BYTES ∧ texts id_field e.2 = [e.1]) documents →
  writer_for self → holds id_field m (live self.(inner)) →
  ends (each (λ '(id, document), _ ← delete_record (D := D) id; inner_effect index_error (add_document document)) documents) self (λ r self', applied self self'
    ∧ match r with Ok _ => holds id_field (foldl (λ m '(id, d), <[id := d]> m) m documents) (live self'.(inner)) | Err e => native_failure e | _ => False end).
Proof.
  induction documents as [|[id document] documents IH]; intros self m Hids Hw Hm; cbn [each]; [by ends_step|]. apply Forall_cons in Hids as [[Hid Ht] Hids]. cbn [fst snd] in *.
  ends_step. ends_step. pose proof (delete_record_holds id self m Hid Hw Hm) as Hd. unfold ends. destruct (delete_record id self) as [r self']. destruct Hd as (-> & Hs & Hc & Hdisk & Hm').
  cbn [fst snd]. unfold inner_effect. destruct (add_document document (inner self')) as [r w'] eqn:Ea. destruct (add_live _ _ _ _ Ea) as [Ed Hl].
  assert (applied self (with_inner self' w')) as Ha by (split; [by eapply setup_trans|]; cbn; by rewrite Ed).
  destruct r as [e|[]]; cbn [map_err fst snd]; [split; [exact Ha|apply index_error_native]|].
  destruct (IH (with_inner self' w') (<[id := document]> m) Hids) as [Hi1 Hi2].
  - eapply writer_for_setup; [|exact Hw]. apply Ha.
  - cbn. rewrite (Hl eq_refl). rewrite <- insert_delete_eq. apply holds_insert; [apply lookup_delete_eq|exact Ht|exact Hm'].
  - split; [by eapply applied_trans|exact Hi2].
Qed.
Definition fits_batch (batch : MutationBatch.t) : Prop := lenN batch.(MutationBatch.upserts) + lenN batch.(MutationBatch.deletes) <= USIZE_MAX.
Lemma apply_holds batch self m : fits_batch batch → writer_for self → holds id_field m (live self.(inner)) →
  ends (apply (D := D) MAX_TOKEN_LEN batch) self (λ r self', match r with
    | Ok n => batch_ok MAX_TOKEN_LEN self batch ∧ n = lenN batch.(MutationBatch.upserts) + lenN batch.(MutationBatch.deletes)
        ∧ applied self self' ∧ holds id_field (updated m (prepared_of self batch)) (live self'.(inner))
    | Err e => ¬ batch_ok MAX_TOKEN_LEN self batch ∧ self' = self ∧ prepare MAX_TOKEN_LEN self batch = Err e
        ∨ batch_ok MAX_TOKEN_LEN self batch ∧ applied self self' ∧ native_failure e
    | Panic | Fuel => False end).
Proof using All.
  intros Hfit Hw Hm. unfold apply. ends_step. ends_step. pose proof (prepare_refused MAX_TOKEN_LEN self (proj1 Hw) batch Hfit) as Hr.
  destruct (prepare MAX_TOKEN_LEN self batch) as [p|e| |] eqn:E; [|left|done..].
  2: { split; [|done]. intros Hok. pose proof (proj2 (prepare_Ok MAX_TOKEN_LEN self (proj1 Hw) batch _ Hfit) (conj Hok eq_refl)) as E'. congruence. }
  apply (prepare_Ok MAX_TOKEN_LEN self (proj1 Hw) batch _ Hfit) in E as [Hok ->]. unfold apply_prepared. cbn [PreparedBatch.deletes PreparedBatch.documents PreparedBatch.mutation_count prepared_of].
  ends_step. destruct Hok as [Hd Hu]. assert (Forall (λ id, lenN id <= MAX_RECORD_ID_BYTES) (MutationBatch.deletes batch)) as Hd' by (eapply Forall_impl; [exact Hd|]; by intros id [_ ?]).
  pose proof (deletes_hold _ self m Hd' Hw Hm) as Hdel. unfold ends in Hdel |- *. destruct (each _ (MutationBatch.deletes batch) self) as [r1 self1]. cbn [fst snd] in Hdel |- *.
  destruct Hdel as (-> & Ha1 & Hm1). change (ends ?m self1 ?Q) with (ends m self1 Q).
  eapply ends_then; [apply documents_hold; [|by eapply writer_for_setup; [apply Ha1|]|exact Hm1]|..].
  - apply Forall_fmap. eapply Forall_impl; [exact Hu|]. intros u [[_ Hid] _]. cbn. split; [exact Hid|by apply document_id].
  - intros [] d' [Ha2 Hh]. ends_step. split; [by split|]. split; [done|]. split; [by eapply applied_trans|exact Hh].
  - intros e d' [Ha2 Hn]. right. split; [by split|]. split; [by eapply applied_trans|exact Hn].
  - by intros d' [_ []].
  - by intros d' [_ []].
Qed.

(** *** Committing *)
Definition too_long (payload : option bytes) : bool := match payload with Some payload => MAX_COMMIT_PAYLOAD_BYTES <? lenN payload | None => false end.
Lemma commit_holds payload self m : holds id_field m (live self.(inner)) →
  ends (commit_with_payload (D := D) payload) self (λ r self', same_setup self self' ∧ match r with
    | Ok n => (self.(checkpoint_required) = true → is_Some payload) ∧ too_long payload = false
        ∧ holds id_field m (live self'.(inner)) ∧ holds id_field m (published (disk self'.(inner))) ∧ payload_of (disk self'.(inner)) = payload
        ∧ self'.(checkpoint_required) = self.(checkpoint_required) || bool_decide (is_Some payload)
        ∧ self'.(worker_ownership_unproven) = self.(worker_ownership_unproven)
    | Err e => self.(checkpoint_required) = true ∧ payload = None ∧ self' = self ∧ code e = "E_CHECKPOINT_REQUIRED"%string
        ∨ too_long payload = true ∧ self' = self ∧ code e = "E_INVALID_ARGUMENT"%string
        ∨ native_failure e ∧ (self.(checkpoint_required) = true → is_Some payload)
          ∧ (payload_of (disk self'.(inner)) = payload ∧ holds id_field m (published (disk self'.(inner)))
            ∨ payload_of (disk self'.(inner)) = payload_of (disk self.(inner)) ∧ published (disk self'.(inner)) = published (disk self.(inner)))
    | Panic | Fuel => False end).
Proof using All.
  intros Hm. unfold commit_with_payload, too_long. do 2 ends_step. destruct (checkpoint_required self && negb (bool_decide (is_Some payload))) eqn:Eg.
  { ends_step. split; [done|]. left. apply andb_true_iff in Eg as [? Hp%negb_true_iff%bool_decide_eq_false]. split; [done|]. split; [by apply eq_None_not_Some|done]. }
  destruct (match payload with Some payload => MAX_COMMIT_PAYLOAD_BYTES <? lenN payload | None => false end) eqn:El; [ends_step; split; [done|]; by right; left|].
  assert (checkpoint_required self = true → is_Some payload) as Hreq.
  { intros Ereq. rewrite Ereq in Eg. cbn [andb] in Eg. by apply negb_false_iff, bool_decide_eq_true in Eg. }
  assert (∀ e operation, native_failure (commit_error operation e)) as Hnative by (intros e operation; apply index_error_native).
  ends_step. unfold ends at 1. cbn [set_flags fst snd id]. ends_step. unfold ends at 1, inner_effect. cbn [inner with_flags].
  destruct (prepare_commit (inner self)) as [r w1] eqn:Ep. destruct (prepare_live _ _ _ Ep) as [Ed1 Hl1]. destruct r as [e|[]]; cbn [map_err fst snd].
  { split; [done|]. right. right. cbn. rewrite Ed1. split; [apply Hnative|]. split; [exact Hreq|]. right. by split. }
  ends_step. unfold ends at 1. cbn [set_flags fst snd]. unfold ends, inner_effect. cbn [inner with_flags with_inner].
  destruct (commit_prepared payload w1) as [r w2] eqn:Ec. destruct (commit_live _ _ _ _ Ec) as (_ & _ & Hc). rewrite Ed1 in Hc.
  assert (holds id_field m (live w1)) as Hm1 by by rewrite (Hl1 eq_refl). destruct r as [e|n]; cbn [map_err fst snd].
  - split; [done|]. right. right. split; [apply Hnative|]. split; [exact Hreq|]. cbn. destruct Hc as [(Hp & Hpay & _)|(_ & Hp & Hpay)]; [left|right; by split]. split; [exact Hpay|by rewrite Hp].
  - destruct Hc as [(Hp & Hpay & Hl2)|((e & [=]) & _)]. split; [done|]. cbn. split; [exact Hreq|]. split; [done|]. split; [by rewrite (Hl2 n eq_refl)|]. split; [by rewrite Hp|]. by split.
Qed.

(** *** Sequences of operations *)
Definition run_op (op : Op.t) : E (Writer.t W) N :=
  match op with
  | Op.Apply batch => apply (D := D) MAX_TOKEN_LEN batch
  | Op.Commit => commit (D := D)
  | Op.Publish payload => commit_with_payload (D := D) (Some payload)
  | Op.Rollback => rollback (D := D)
  end.
Definition op_fits (op : Op.t) : Prop := match op with Op.Apply batch => fits_batch batch | _ => True end.
(** The operation on the store. *)
Definition store_op self (op : Op.t) s : Store.t :=
  match op with
  | Op.Apply batch => Store.mk (updated s.(Store.pending) (prepared_of self batch)) s.(Store.visible) s.(Store.checkpoint)
  | Op.Commit => Store.mk s.(Store.pending) s.(Store.pending) None
  | Op.Publish payload => Store.mk s.(Store.pending) s.(Store.pending) (Some payload)
  | Op.Rollback => Store.mk s.(Store.visible) s.(Store.visible) s.(Store.checkpoint)
  end.
(** What the code refuses before it touches the index. *)
Definition refuses self (op : Op.t) : Prop :=
  match op with
  | Op.Apply batch => ¬ batch_ok MAX_TOKEN_LEN self batch
  | Op.Commit => self.(checkpoint_required) = true
  | Op.Publish payload => MAX_COMMIT_PAYLOAD_BYTES < lenN payload
  | Op.Rollback => False
  end.
Definition refines self s : Prop :=
  holds id_field s.(Store.pending) (live self.(inner)) ∧ holds id_field s.(Store.visible) (published (disk self.(inner)))
  ∧ payload_of (disk self.(inner)) = s.(Store.checkpoint) ∧ (is_Some s.(Store.checkpoint) → self.(checkpoint_required) = true).
(** A writer over an index that holds a map, after operations that succeeded or were refused. *)
Inductive Reach : Writer.t W → Store.t → Prop :=
| Reach_new opened config d self payload m : writer_with_payload opened config d = Ok (self, payload) → writer_for self → holds id_field m (published d) →
    Reach self (Store.mk m m payload)
| Reach_done self s op n self' : Reach self s → op_fits op → run_op op self = (Ok n, self') → Reach self' (store_op self op s)
| Reach_refused self s op e self' : Reach self s → op_fits op → refuses self op → run_op op self = (Err e, self') → Reach self' s.

Lemma op_refines op self s : writer_for self → refines self s → op_fits op →
  ends (run_op op) self (λ r self', same_setup self self' ∧ match r with
    | Ok _ => ¬ refuses self op ∧ refines self' (store_op self op s)
    | Err e => refuses self op ∧ self' = self ∨ ¬ refuses self op ∧ native_failure e
        ∧ (is_Some s.(Store.checkpoint) → is_Some (payload_of (disk self'.(inner))))
    | Panic | Fuel => False end).
Proof using All.
  intros Hw (Hp & Hv & Hc & Hreq) Hfit. destruct op as [batch| |payload|]; cbn [run_op op_fits refuses store_op] in *.
  - destruct (apply (D := D) MAX_TOKEN_LEN batch self) as [r self'] eqn:E. pose proof (apply_holds batch self _ Hfit Hw Hp) as Ha. unfold ends in *. rewrite E in *. cbn [fst snd] in *.
    destruct r as [n|e| |]; [| |done..].
    + destruct Ha as (Hok & _ & (Hs & Er & Ed) & Hh). split; [exact Hs|]. split; [tauto|]. split; [exact Hh|]. cbn. rewrite Er, Ed. by split_and!.
    + destruct Ha as [(Hok & -> & _)|(Hok & (Hs & _ & Ed) & Hn)]; [split; [apply setup_refl|by left]|]. split; [exact Hs|]. right. rewrite Ed, Hc. tauto.
  - unfold commit. destruct (commit_with_payload (D := D) None self) as [r self'] eqn:E. pose proof (commit_holds None self _ Hp) as Ha. unfold ends in *. rewrite E in *. cbn [fst snd] in *.
    destruct Ha as [Hs Ha]. split; [exact Hs|]. destruct r as [n|e| |]; [| |done..].
    + destruct Ha as (Hr & _ & H1 & H2 & H3 & _). split; [by intros [? [=]]%Hr|]. split; [exact H1|]. split; [exact H2|]. split; [exact H3|]. by intros [? [=]].
    + destruct Ha as [(Hr & _ & -> & _)|[[[=] _]|(Hn & Hr & Hpay)]]; [by left|]. right. split; [by intros [? [=]]%Hr|]. split; [exact Hn|].
      intros Hsome. by destruct (Hr (Hreq Hsome)) as [? [=]].
  - destruct (commit_with_payload (D := D) (Some payload) self) as [r self'] eqn:E. pose proof (commit_holds (Some payload) self _ Hp) as Ha. unfold ends in *. rewrite E in *. cbn [fst snd too_long] in *.
    destruct Ha as [Hs Ha]. split; [exact Hs|]. destruct r as [n|e| |]; [| |done..].
    + destruct Ha as (_ & Hl%N.ltb_ge & H1 & H2 & H3 & H4 & _). split; [lia|]. split; [exact H1|]. split; [exact H2|]. split; [exact H3|]. intros _. rewrite H4. apply orb_true_r.
    + destruct Ha as [(_ & [=] & _)|[(Hl%N.ltb_lt & -> & _)|(Hn & _ & Hpay)]]; [by left|]. destruct (N.ltb_spec MAX_COMMIT_PAYLOAD_BYTES (lenN payload)) as [Hlt|Hge].
      { exfalso. revert E. unfold commit_with_payload. cbv [mbind E_bind reads]. rewrite andb_false_r, (proj2 (N.ltb_lt _ _) Hlt). intros [= <- _].
        unfold native_failure in Hn. cbn in Hn. set_solver. }
      right. split; [lia|]. split; [exact Hn|]. intros Hsome. destruct Hpay as [[-> _]|[-> _]]; [by eexists|by rewrite Hc].
  - unfold ends, rollback, inner_effect. destruct (index_rollback (inner self)) as [r w'] eqn:E. destruct (rollback_live _ _ _ E) as [Ed Hl]. destruct r as [e|n]; cbn [map_err fst snd].
    + split; [done|]. right. split; [by intros []|]. split; [apply index_error_native|]. cbn. by rewrite Ed, Hc.
    + split; [done|]. split; [by intros []|]. split; cbn; [by rewrite (Hl n eq_refl)|]. rewrite Ed. by split_and!.
Qed.
Lemma new_refines opened config d self payload m : writer_with_payload opened config d = Ok (self, payload) → holds id_field m (published d) → refines self (Store.mk m m payload).
Proof using All.
  unfold writer_with_payload, writer_with_payload_using. intros E Hm. apply bind_Ok in E as (w & Ew & E). apply bind_Ok in E as (p & Ep & [= <- <-]).
  unfold map_err in Ew. destruct (writer_with_num_threads _ _ d) as [e|w'] eqn:En; [done|]. injection Ew as ->. destruct (new_live _ _ _ _ En) as [Ed Hl].
  split; [cbn; by rewrite Hl|]. split; [cbn; by rewrite Ed|]. cbn. rewrite Ed. split.
  - unfold committed_payload, validated_committed_payload in Ep. destruct (load_metas d) as [e|meta] eqn:El; [done|]. destruct (metas_read _ _ El) as [sch Ecm].
    unfold payload_of. rewrite Ecm. cbn [map_err mbind outcome_bind option_bind snd] in *. unfold validated_payload in Ep. destruct (match IndexMeta.payload meta with Some _ => _ | None => _ end); [done|by injection Ep].
  - intros Hs. by apply bool_decide_eq_true.
Qed.
Lemma reach_refines self s : Reach self s → writer_for self ∧ refines self s.
Proof using All.
  induction 1 as [opened config d self payload m E Hw Hm|self s op n self' _ [Hw Hr] Hf E|self s op e self' _ [Hw Hr] Hf Href E].
  - split; [exact Hw|by eapply new_refines].
  - pose proof (op_refines op self s Hw Hr Hf) as Ho. unfold ends in Ho. rewrite E in Ho. cbn [fst snd] in Ho. destruct Ho as (Hs & _ & H1). split; [by eapply writer_for_setup|exact H1].
  - pose proof (op_refines op self s Hw Hr Hf) as Ho. unfold ends in Ho. rewrite E in Ho. cbn [fst snd] in Ho. destruct Ho as (Hs & [[_ ->]|[Hn _]]); [by split|done].
Qed.
(** C7: The index is a map from record IDs to documents.  From a writer over an
    index that holds a map, whatever batches were applied, committed, published or
    rolled back, what a commit would publish and what is published are the maps
    those operations describe: a batch deletes its IDs and then puts its documents,
    the last one of an ID, and a commit publishes all of it at once, with the
    payload.  The next operation is refused exactly as its checks say, leaving the
    writer as it was, or does this, or fails with an error of the index. *)
Theorem writer_refines_store self s op : Reach self s → op_fits op →
  refines self s ∧ let '(r, self') := run_op op self in match r with
    | Ok _ => ¬ refuses self op ∧ refines self' (store_op self op s)
    | Err e => refuses self op ∧ self' = self ∨ ¬ refuses self op ∧ native_failure e
    | Panic | Fuel => False end.
Proof using All.
  intros [Hw Hr]%reach_refines Hf. split; [exact Hr|]. pose proof (op_refines op self s Hw Hr Hf) as Ho. unfold ends in Ho. destruct (run_op op self) as [r self']. cbn [fst snd] in Ho.
  destruct Ho as [_ Ho]. destruct r as [n|e| |]; [exact Ho| |exact Ho..]. destruct Ho as [Ho|(Hn & He & _)]; [by left|by right].
Qed.
End Refinement.

(** ** Batches *)
Section Batches.
Context {W : Type} (MAX_TOKEN_LEN : N).
(** C9: Preparing a batch.  A batch is accepted exactly when its IDs are not empty
    and not too long and every upsert names known fields and filters, each once,
    with values of the filters' types; the documents have the ID, the version, the
    values of the fields, also as surface terms where they are kept, and those of
    the filters, strings once each.  Any other batch is an invalid argument or, for
    an unknown filter, a schema mismatch, and never a panic. *)
Theorem prepare_iff (self : Writer.t W) batch : writer_ok self → fits_batch batch →
  (∀ prepared, prepare MAX_TOKEN_LEN self batch = Ok prepared ↔ batch_ok MAX_TOKEN_LEN self batch ∧ prepared = prepared_of self batch)
  ∧ refused (prepare MAX_TOKEN_LEN self batch).
Proof.
  intros Hself Hfit. split; [intros prepared; by apply prepare_Ok|by apply prepare_refused].
Qed.
End Batches.

(** ** The writer of an opened index *)
(** Fields are numbered as they are added. *)
Class SchemasLaws `{Schemas} := {
  count : SchemaBuilder → N;
  add_count name options b n b' : add_field name options b = Ok (n, b') → n = count b ∧ count b' = count b + 1 }.
Section Fresh.
Context `{SchemasLaws}.
Definition field_above (n : N) (f : EngineField.t) : Prop := n <= f.(EngineField.field) ∧ ∀ g, f.(EngineField.surface_field) = Some g → n <= g.
Lemma fields_above record surface_record surface_terms n l : ∀ fields b fields' b', n <= count b → Forall (field_above n) fields →
  foldM (add_engine_field record surface_record surface_terms) fields l b = Ok (fields', b') → Forall (field_above n) fields' ∧ n <= count b'.
Proof.
  induction l as [|field l IH]; intros fields b fields' b' Hb Hf; cbn [foldM]; [by intros [= <- <-]|]. intros E. apply M_bind_Ok in E as (f1 & b1 & E1 & E). revert E.
  assert (Forall (field_above n) f1 ∧ n <= count b1) as [H1 H2]; [|by apply IH]. revert E1. unfold add_engine_field, add_text_field. intros E1.
  apply M_bind_Ok in E1 as (n1 & b2 & [-> Ec1]%add_count & E1). apply M_bind_Ok in E1 as (surface & b3 & E2 & [= <- <-]). destruct surface_terms.
  - apply M_bind_Ok in E2 as (n2 & b4 & [-> Ec2]%add_count & [= <- <-]). split; [|lia]. apply Forall_app. split; [exact Hf|]. apply Forall_singleton. split; cbn; [lia|]. intros g [= <-]. lia.
  - injection E2 as <- <-. split; [|lia]. apply Forall_app. split; [exact Hf|]. apply Forall_singleton. by split.
Qed.
Lemma filters_above n l : ∀ fields b fields' b', n <= count b → Forall (λ f, n <= f.(EngineFilterField.field)) fields →
  foldM add_filter_field fields l b = Ok (fields', b') → Forall (λ f, n <= f.(EngineFilterField.field)) fields'.
Proof.
  induction l as [|field l IH]; intros fields b fields' b' Hb Hf; cbn [foldM]; [by intros [= <- <-]|]. intros E. apply M_bind_Ok in E as (f1 & b1 & E1 & E). revert E.
  assert (Forall (λ f, n <= f.(EngineFilterField.field)) f1 ∧ n <= count b1) as [H1 H2]; [|by apply IH]. revert E1. unfold add_filter_field. intros E1.
  apply M_bind_Ok in E1 as (n1 & b2 & [-> Ec1]%add_count & [= <- <-]). split; [|lia]. apply Forall_app. split; [exact Hf|]. by apply Forall_singleton.
Qed.
Lemma build_schema_apart config built : build_schema config = Ok built →
  built.(BuiltSchema.version_field) ≠ built.(BuiltSchema.id_field)
  ∧ Forall (λ f, f.(EngineField.field) ≠ built.(BuiltSchema.id_field) ∧ f.(EngineField.surface_field) ≠ Some built.(BuiltSchema.id_field)) built.(BuiltSchema.fields)
  ∧ Forall (λ f, f.(EngineFilterField.field) ≠ built.(BuiltSchema.id_field)) built.(BuiltSchema.filter_fields).
Proof.
  unfold build_schema, build_schema_with_surface_record, run. intros E. match type of E with match ?m with _ => _ end = _ => destruct m as [[built' b]| | |] eqn:Em; [|done..] end. injection E as ->.
  unfold add_text_field in Em. apply M_bind_Ok in Em as (id & b1 & [-> E1]%add_count & Em). apply M_bind_Ok in Em as (version & b2 & [-> E2]%add_count & Em).
  apply M_bind_Ok in Em as (fields & b3 & Ef & Em). apply M_bind_Ok in Em as (filters & b4 & Eff & [= <- _]). cbn [BuiltSchema.version_field BuiltSchema.id_field BuiltSchema.fields BuiltSchema.filter_fields].
  destruct (fields_above _ _ _ (count b2) _ _ _ _ _ (N.le_refl _) (Forall_nil_2 _) Ef) as [Hf H3]. pose proof (filters_above (count b2) _ _ _ _ _ H3 (Forall_nil_2 _) Eff) as Hff.
  split; [lia|]. split.
  - eapply Forall_impl; [exact Hf|]. intros f [Ha Hs]. split; [lia|]. intros E. apply Hs in E. lia.
  - eapply Forall_impl; [exact Hff|]. cbn. lia.
Qed.
End Fresh.
Section OpenedWriter.
Context {D W : Type} `{!Directory D} `{!Schemas} `{!IndexDirectory D} `{!Analyzers} `{!DirectoryLaws D} `{!IndexWriter D W} `{!SchemasLaws}.
(** The writer of an opened index may be used. *)
Lemma opened_writer_for config canonical built d o d' d2 (self : Writer.t W) payload :
  canonical_config config.(EngineConfig.identity) = Ok canonical → build_schema canonical.(CanonicalIdentity.config) = Ok built →
  open config d = (Ok o, d') → writer_with_payload o config d2 = Ok (self, payload) → writer_for built.(BuiltSchema.id_field) self.
Proof.
  intros Hc Hb E Ew. destruct (opened_lookups _ _ _ _ _ _ Hc Hb E) as [L1 L2]. destruct (build_schema_apart _ _ Hb) as (A1 & A2 & A3).
  destruct (opened_parts _ _ _ _ _ _ Hc Hb E) as (E1 & E2 & E3 & E4).
  unfold writer_with_payload, writer_with_payload_using in Ew. apply bind_Ok in Ew as (w & _ & Ew). apply bind_Ok in Ew as (p & _ & [= <- _]).
  split; [split; [exact L1|exact L2]|]. unfold ids_apart. cbn. rewrite E1, E2, E3, E4. by split_and!.
Qed.
End OpenedWriter.

(** ** The directory in memory, and its writer *)
Abbreviation ListDisk := (Disk.t Schema (list Document)).
Module DiskWriter.
Record t := mk { base : ListDisk; memory : list Document }.
End DiskWriter.
#[export] Instance disk_writer : IndexWriter ListDisk DiskWriter.t := {
  writer_with_num_threads _ _ d := inr (DiskWriter.mk d d.(Disk.content));
  delete_term term w := match term.(Term.content) with
    | Term.Text s => DiskWriter.mk w.(DiskWriter.base) (filter (λ d, s ∉ texts term.(Term.field) d) w.(DiskWriter.memory))
    | _ => w end;
  add_document document w := (inr (), DiskWriter.mk w.(DiskWriter.base) (w.(DiskWriter.memory) ++ [document]));
  prepare_commit w := (inr (), w);
  commit_prepared payload w := match w.(DiskWriter.base) with
    | Disk.mk identity (Some (schema, meta)) _ false =>
        (inr 1, DiskWriter.mk (Disk.mk identity (Some (schema, IndexMeta.mk meta.(IndexMeta.segments) payload)) w.(DiskWriter.memory) false) w.(DiskWriter.memory))
    | _ => (inl disk_full, w) end;
  index_rollback w := (inr 0, DiskWriter.mk w.(DiskWriter.base) w.(DiskWriter.base).(Disk.content));
  wait_merging_threads w := inr () }.
#[export] Instance disk_writer_laws id_field : IndexWriterLaws ListDisk DiskWriter.t id_field.
Proof.
  refine {| disk := DiskWriter.base; live := DiskWriter.memory; published := Disk.content : ListDisk → list Document |}.
  - by intros threads memory d w [= <-].
  - by intros id w _.
  - by intros d w r w' [= <- <-].
  - by intros w r w' [= <- <-].
  - intros payload [[i [[s m]|] c []] l] r w'; cbn; intros [= <- <-]; (split; [done|]); (split; [done|]); try (right; split; [by eexists|done]). by left.
  - by intros w r w' [= <- <-].
Defined.
#[export] Instance list_schemas_laws : SchemasLaws.
Proof.
  refine {| count := (λ b, lenN b) : SchemaBuilder → N |}. intros name options b n b'. cbn. destruct (named name b); [done|]. intros [= <- <-]. split; [done|]. by rewrite lenN_app.
Defined.
(** The sample index, opened in an empty directory. *)
Definition sample_opened : outcome Opened.t * ListDisk := open sample_config (empty_disk [] false).
Definition opened_sample : Opened.t := match sample_opened.1 with Ok o => o | _ => Opened.mk (Engine.mk 0 [] ∅ (λ _, []) (λ _, []) (λ _, []) (λ _, []) false 0 0) 0 [] ∅ end.
Definition sample_writer : Writer.t DiskWriter.t :=
  match writer_with_payload opened_sample sample_config sample_opened.2 with
  | Ok (w, _) => w | _ => Writer.mk (DiskWriter.mk (empty_disk [] true) []) false false 0 0 [] ∅ [] ∅ end.
Lemma sample_open_ok : open sample_config (empty_disk [] false) = (Ok opened_sample, sample_opened.2 : ListDisk).
Proof. vm_compute. reflexivity. Qed.
Lemma sample_writer_ok : writer_with_payload opened_sample sample_config sample_opened.2 = Ok (sample_writer, None).
Proof. vm_compute. reflexivity. Qed.
Lemma sample_writer_for : writer_for sample_schema.(BuiltSchema.id_field) sample_writer.
Proof.
  apply (opened_writer_for sample_config sample_canonical sample_schema (empty_disk [] false : ListDisk) opened_sample sample_opened.2 sample_opened.2 sample_writer None);
    [exact sample_canonical_ok|exact sample_schema_ok|exact sample_open_ok|exact sample_writer_ok].
Qed.
Definition sample_upsert (id title : string) : Upsert.t :=
  Upsert.mk (blit id) None [(blit "title", [blit title])] [(blit "price", [FilterValue.Number (2 ^ 63)])].
Definition sample_batch : MutationBatch.t := MutationBatch.mk [sample_upsert "a" "first"; sample_upsert "b" "second"; sample_upsert "a" "third"] [blit "c"].
Definition sample_document (id title : string) : Document :=
  [(0, DocValue.Text (blit id)); (2, DocValue.Text (blit title)); (3, DocValue.F64 0)].
Lemma sample_fits : fits_batch sample_batch.
Proof. by apply N.leb_le. Qed.
Lemma prepare_iff_witness : batch_ok 65530 sample_writer sample_batch
  ∧ prepare 65530 sample_writer sample_batch = Ok (PreparedBatch.mk 4 [blit "c"]
      [(blit "a", sample_document "a" "first"); (blit "b", sample_document "b" "second"); (blit "a", sample_document "a" "third")]).
Proof.
  pose proof (prepare_iff 65530 sample_writer sample_batch (proj1 sample_writer_for) sample_fits) as [Hp _].
  assert (prepare 65530 sample_writer sample_batch = Ok (PreparedBatch.mk 4 [blit "c"]
      [(blit "a", sample_document "a" "first"); (blit "b", sample_document "b" "second"); (blit "a", sample_document "a" "third")])) as E by (vm_compute; reflexivity).
  split; [|exact E]. by apply Hp in E as [? _].
Defined.
Lemma sample_reach : Reach (D := ListDisk) sample_schema.(BuiltSchema.id_field) 65530 sample_writer (Store.mk ∅ ∅ None).
Proof. eapply Reach_new; [exact sample_writer_ok|exact sample_writer_for|]. split; [done|]. intros id d E. by apply lookup_empty_Some in E. Qed.
(** After the batch, a publication: the last document of an ID is the one published. *)
Lemma sample_applied : Reach (D := ListDisk) sample_schema.(BuiltSchema.id_field) 65530 (run_op (D := ListDisk) 65530 (Op.Apply sample_batch) sample_writer).2
  (store_op sample_writer (Op.Apply sample_batch) (Store.mk ∅ ∅ None)).
Proof. eapply Reach_done; [exact sample_reach|exact sample_fits|vm_compute; reflexivity]. Qed.
Lemma writer_refines_store_witness :
  let self := (run_op (D := ListDisk) 65530 (Op.Apply sample_batch) sample_writer).2 in
  let self' := (run_op (D := ListDisk) 65530 (Op.Publish (blit "1")) self).2 in
  refines (D := ListDisk) sample_schema.(BuiltSchema.id_field) self' (store_op self (Op.Publish (blit "1")) (store_op sample_writer (Op.Apply sample_batch) (Store.mk ∅ ∅ None)))
  ∧ (disk (id_field := sample_schema.(BuiltSchema.id_field)) self'.(inner)).(Disk.content) = [sample_document "b" "second"; sample_document "a" "third"].
Proof.
  cbv zeta. destruct (writer_refines_store (D := ListDisk) sample_schema.(BuiltSchema.id_field) 65530 _ _ (Op.Publish (blit "1")) sample_applied I) as [_ Hw].
  assert ((run_op (D := ListDisk) 65530 (Op.Publish (blit "1")) (run_op (D := ListDisk) 65530 (Op.Apply sample_batch) sample_writer).2).1 = Ok 1) as E by (vm_compute; reflexivity).
  destruct (run_op (D := ListDisk) 65530 (Op.Publish (blit "1")) _) as [r self'] eqn:Er. cbn [fst snd] in *. subst r. split; [exact (proj2 Hw)|].
  vm_compute in Er. injection Er as <-. vm_compute. reflexivity.
Defined.
