(* ===== verification/Doubles.v ===== *)
(** * The numbers of an index

    A number is stored and asked for by its 64-bit pattern, once a negative zero
    was replaced.  Numbers compare by what their patterns denote; the lemmas here
    relate the two. *)
From Stdlib Require Import Floats.SpecFloat.
From S2P Require Import Prelude.
From S2P Require Import Errors.
From S2P Require Import Bytes.
From S2P Require Import Scores.
From S2P Require Import Query.
Local Open Scope N_scope.

(** A number the index holds is finite, and zero is positive. *)
Definition number_stored (v : f64) : Prop := v < 2 ^ 64 ∧ f64_is_finite v = true ∧ v ≠ 2 ^ 63.

(** ** Patterns of doubles *)
Definition magnitude (v : f64) : N := N.land v (N.ones 63).
Lemma magnitude_spec v : f64_spec (magnitude v) = SFabs (f64_spec v).
Proof.
  unfold magnitude, f64_spec, float_spec.
  assert (N.land (N.shiftr (N.land v (N.ones 63)) 52) (N.ones 11) = N.land (N.shiftr v 52) (N.ones 11)) as ->.
  { rewrite N.shiftr_land, <- N.land_assoc. f_equal. }
  assert (N.land (N.land v (N.ones 63)) (N.ones 52) = N.land v (N.ones 52)) as -> by (rewrite <- N.land_assoc; f_equal).
  assert (N.testbit (N.land v (N.ones 63)) (52 + 11) = false) as -> by (rewrite N.land_spec, (N.ones_spec_high 63 (52 + 11)) by done; apply andb_false_r).
  destruct (N.land (N.shiftr v 52) (N.ones 11) =? N.ones 11); [by destruct (_ =? 0)|].
  destruct (N.land (N.shiftr v 52) (N.ones 11) =? 0); [by destruct (N.land v (N.ones 52))|]. by destruct (N.land v (N.ones 52) + 2 ^ 52).
Qed.
Definition spec_sign (x : spec_float) : bool := match x with S754_zero s | S754_infinity s | S754_finite s _ _ => s | S754_nan => false end.
Lemma sign_spec v : f64_is_finite v = true → spec_sign (f64_spec v) = N.testbit v 63.
Proof.
  unfold f64_is_finite, f64_spec, float_spec. change (52 + 11) with 63.
  destruct (N.land (N.shiftr v 52) (N.ones 11) =? N.ones 11); [by destruct (_ =? 0)|].
  destruct (N.land (N.shiftr v 52) (N.ones 11) =? 0); [by destruct (N.land v (N.ones 52))|]. by destruct (N.land v (N.ones 52) + 2 ^ 52).
Qed.
Lemma magnitude_finite v : f64_is_finite v = true → not_negative 52 11 (magnitude v).
Proof.
  intros Hf. unfold not_negative, infinity_bits. destruct (N.le_gt_cases (magnitude v) (N.ones 11 * 2 ^ 52)) as [|Hgt]; [done|exfalso].
  assert (f64_is_finite (magnitude v) = true) as Hm.
  { unfold f64_is_finite in *. rewrite magnitude_spec. by destruct (f64_spec v). }
  revert Hm. unfold f64_is_finite, f64_spec, float_spec. rewrite N.shiftr_div_pow2.
  assert (magnitude v / 2 ^ 52 = N.ones 11) as ->.
  { assert (magnitude v < 2 ^ 63) by (unfold magnitude; rewrite N.land_ones; by apply N.mod_lt).
    apply N.le_antisymm; [|by apply N.div_le_lower_bound; [|rewrite N.mul_comm; apply N.lt_le_incl]].
    change (N.ones 11) with (N.pred (2 ^ 11)). apply N.lt_le_pred. by apply N.Div0.div_lt_upper_bound. }
  rewrite N.land_diag, N.eqb_refl. by destruct (_ =? 0).
Qed.
Lemma split_sign v : v < 2 ^ 64 → v = magnitude v + (if N.testbit v 63 then 2 ^ 63 else 0).
Proof.
  intros Hv. unfold magnitude. rewrite N.land_ones, N.testbit_eqb. rewrite (N.div_mod' v (2 ^ 63)) at 1.
  assert (v / 2 ^ 63 < 2) as Hq by (by apply N.Div0.div_lt_upper_bound). rewrite (N.mod_small (v / 2 ^ 63)) by done.
  revert Hq. generalize (v / 2 ^ 63), (v mod 2 ^ 63). generalize (2 ^ 63). intros u q r Hq.
  destruct (N.eqb_spec q 1) as [->|Hn]; [lia|]. assert (q = 0) as -> by lia. lia.
Qed.
(** A finite number has one pattern for its sign and magnitude. *)
Lemma f64_spec_inj a b : a < 2 ^ 64 → b < 2 ^ 64 → f64_is_finite a = true → f64_spec a = f64_spec b → a = b.
Proof.
  intros Ha Hb Hfa E. assert (f64_is_finite b = true) as Hfb by (unfold f64_is_finite in *; by rewrite <- E).
  rewrite (split_sign a), (split_sign b), <- !sign_spec, E by done. f_equal. apply N.compare_eq_iff.
  assert (Some (magnitude a ?= magnitude b) = Some (magnitude a ?= magnitude a)) as Es; [|injection Es as ->; apply N.compare_refl].
  rewrite <- !(SFcompare_bits 52 11) by (by apply magnitude_finite || done). change (float_spec 52 11) with f64_spec. by rewrite !magnitude_spec, E.
Qed.
Lemma SFcompare_equal x y : SFcompare x y = Some Eq → x = y ∨ ∃ s t, x = S754_zero s ∧ y = S754_zero t.
Proof.
  destruct x as [s|[]| |[] m e], y as [t|[]| |[] n f]; cbn; try done; try (intros _; right; by eexists _, _); try (by left).
  - destruct (Z.compare_spec e f) as [->| |]; try done. change (Pos.compare_cont Eq m n) with (m ?= n)%positive. destruct (Pos.compare_spec m n) as [->| |]; try done. by left.
  - destruct (Z.compare_spec e f) as [->| |]; try done. change (Pos.compare_cont Eq m n) with (m ?= n)%positive. destruct (Pos.compare_spec m n) as [->| |]; try done. by left.
Qed.
Lemma SFcompare_refl x : x ≠ S754_nan → SFcompare x x = Some Eq.
Proof.
  destruct x as [s|[]| |[] m e]; cbn; try done; rewrite Z.compare_refl; change (Pos.compare_cont Eq m m) with (m ?= m)%positive; by rewrite Pos.compare_refl.
Qed.
Lemma f64_eq_zero v : f64_eq v F64_ZERO = true → ∃ s, f64_spec v = S754_zero s.
Proof.
  unfold f64_eq, SFeqb. destruct (SFcompare (f64_spec v) (f64_spec F64_ZERO)) as [[]|] eqn:E; try done.
  apply SFcompare_equal in E as [E|(s & t & E & _)]; intros _; [|by exists s]. by exists false.
Qed.
(** A number and its canonical pattern compare alike. *)
Lemma canonical_compare v w : SFcompare (f64_spec v) (f64_spec (canonical_number w)) = SFcompare (f64_spec v) (f64_spec w)
  ∧ SFcompare (f64_spec (canonical_number w)) (f64_spec v) = SFcompare (f64_spec w) (f64_spec v).
Proof.
  unfold canonical_number. destruct (f64_eq w F64_ZERO) eqn:E; [|done]. apply f64_eq_zero in E as [s ->].
  change (f64_spec F64_ZERO) with (S754_zero false). by destruct (f64_spec v) as [| [] | |[]].
Qed.
(** The number asked for is the one stored exactly when they have the same
    pattern, once zeros are positive. *)
Lemma canonical_stored v d : v < 2 ^ 64 → f64_is_finite v = true → number_stored d → f64_eq v d = bool_decide (canonical_number v = d).
Proof.
  intros Hv Hf (Hd & Hdf & Hz). apply eq_true_iff_eq. rewrite bool_decide_eq_true. unfold canonical_number. split.
  - intros E. unfold f64_eq, SFeqb in E. destruct (SFcompare (f64_spec v) (f64_spec d)) as [[]|] eqn:Ec; try done.
    apply SFcompare_equal in Ec as [Ec|(s & t & E1 & E2)].
    + apply f64_spec_inj in Ec as ->; [|done..]. destruct (f64_eq d F64_ZERO) eqn:E0; [|done]. apply f64_eq_zero in E0 as [[] E0]; [|by apply f64_spec_inj].
      exfalso. apply Hz. by apply f64_spec_inj.
    + destruct (f64_eq v F64_ZERO) eqn:E0; [|unfold f64_eq in E0; by rewrite E1 in E0]. destruct t; [|by apply f64_spec_inj]. exfalso. apply Hz. by apply f64_spec_inj.
  - destruct (f64_eq v F64_ZERO) eqn:E0; intros <-; [exact E0|]. unfold f64_eq, SFeqb. rewrite SFcompare_refl; [done|]. intros E. unfold f64_is_finite in Hf. by rewrite E in Hf.
Qed.
