(* ===== verification/Selecting.v ===== *)
(** * What a query selects

    The documents of the index, as far as a query tells them apart, and which of
    them each query of the index crate matches; then, independently of queries,
    which documents a search expression, the candidates and the filter of a
    request ask for. *)
From Stdlib Require Import Floats.SpecFloat.
From S2P Require Import Prelude.
From S2P Require Import Errors.
From S2P Require Import Bytes.
From S2P Require Import Wire.
From S2P Require Import Request.
From S2P Require Import Structure.
From S2P Require Import Text.
From S2P Require Import Spans.
From S2P Require Import Analysis.
From S2P Require Import Plan.
From S2P Require Import Failures.
From S2P Require Import Hits.
From S2P Require Import Merging.
From S2P Require Import Query.
Import Query.
Local Open Scope N_scope.

(** ** Documents *)
(** The tokens of a field with their positions, its numbers and truth values,
    and whether a field, by name, has a value. *)
Module Doc.
Record t := mk { tokens : N → list (N * bytes); numbers : N → list f64; booleans : N → list bool; has : bytes → bool }.
End Doc.
Definition has_token (doc : Doc.t) (field : N) (token : bytes) : bool := existsb (λ e : N * bytes, bool_decide (e.2 = token)) (doc.(Doc.tokens) field).
Definition has_at (doc : Doc.t) (field position : N) (token : bytes) : bool := bool_decide ((position, token) ∈ doc.(Doc.tokens) field).
(** A term is looked up by the bytes of its value. *)
Definition text_of (term : Term.t) : option bytes := match term.(Term.content) with Term.Text s | Term.Bytes s => Some s | _ => None end.
Definition has_term (doc : Doc.t) (term : Term.t) : bool :=
  match term.(Term.content) with
  | Term.Text s | Term.Bytes s => has_token doc term.(Term.field) s
  | Term.F64 v => bool_decide (v ∈ doc.(Doc.numbers) term.(Term.field))
  | Term.Bool b => bool_decide (b ∈ doc.(Doc.booleans) term.(Term.field))
  end.
(** The terms of a phrase at their offsets from one position on. *)
Definition has_phrase (doc : Doc.t) (terms : list (N * Term.t)) : bool :=
  match terms with
  | [] => false
  | (offset, term) :: _ =>
      existsb (λ e : N * bytes, (offset <=? e.1) && forallb (λ '(o, t), match text_of t with
        | Some s => has_at doc t.(Term.field) (e.1 - offset + o) s | None => false end) terms) (doc.(Doc.tokens) term.(Term.field))
  end.
Definition f64_lt (a b : f64) : bool := SFltb (f64_spec a) (f64_spec b).
Definition above (lower : Bound.t) (v : f64) : bool :=
  match lower with
  | Bound.Unbounded => true
  | Bound.Included (Term.mk _ (Term.F64 w)) => f64_le w v
  | Bound.Excluded (Term.mk _ (Term.F64 w)) => f64_lt w v
  | _ => false
  end.
Definition below_bound (upper : Bound.t) (v : f64) : bool :=
  match upper with
  | Bound.Unbounded => true
  | Bound.Included (Term.mk _ (Term.F64 w)) => f64_le v w
  | Bound.Excluded (Term.mk _ (Term.F64 w)) => f64_lt v w
  | _ => false
  end.
Definition bound_field (lower upper : Bound.t) : option N :=
  match lower, upper with
  | Bound.Included t, _ | Bound.Excluded t, _ | Bound.Unbounded, Bound.Included t | Bound.Unbounded, Bound.Excluded t => Some t.(Term.field)
  | Bound.Unbounded, Bound.Unbounded => None
  end.
Definition in_range (doc : Doc.t) (lower upper : Bound.t) : bool :=
  match bound_field lower upper with
  | Some field => existsb (λ v, above lower v && below_bound upper v) (doc.(Doc.numbers) field)
  | None => false
  end.

(** ** Queries *)
(** Every required clause and no excluded one; without a required clause, one of the others. *)
Definition boolean_matches {A} (m : A → bool) (clauses : list (Occur.t * A)) : bool :=
  forallb (λ '(occur, q), match occur with Occur.Must => m q | Occur.MustNot => negb (m q) | Occur.Should => true end) clauses
  && (existsb (λ '(occur, _), bool_decide (occur = Occur.Must)) clauses
      || existsb (λ '(occur, q), bool_decide (occur = Occur.Should) && m q) clauses).
Section Matches.
Context `{Automata}.
(** What the automaton of a term accepts. *)
Definition automaton_accepts (field : N) (text : bytes) (options : QueryOptions.t) (prefix : bool) (token : bytes) : bool :=
  match automaton field text options prefix with Ok dfa => dfa_loop dfa dfa.(Dfa.start) token | _ => false end.
Fixpoint matches (query : Query.t) (doc : Doc.t) : bool :=
  match query with
  | AllQuery => true
  | EmptyQuery => false
  | TermQuery term => has_term doc term
  | TermSetQuery terms => existsb (has_term doc) terms
  | PhraseQuery terms => has_phrase doc terms
  | FuzzyTermQuery term distance transpositions prefix =>
      match text_of term with
      | Some s => existsb (λ e : N * bytes, automaton_accepts term.(Term.field) s (QueryOptions.mk distance transpositions) prefix e.2) (doc.(Doc.tokens) term.(Term.field))
      | None => false
      end
  | RangeQuery lower upper => in_range doc lower upper
  | ExistsQuery field => doc.(Doc.has) field
  | BooleanQuery clauses => boolean_matches (λ q, matches q doc) clauses
  | DisjunctionMaxQuery disjuncts => existsb (λ q, matches q doc) disjuncts
  | ConstScoreQuery query _ => matches query doc
  | BoostQuery query _ => matches query doc
  end.
End Matches.
(** The queries at the leaves. *)
Fixpoint leaves (query : Query.t) : N :=
  match query with
  | EmptyQuery => 0
  | BooleanQuery clauses => sum ((λ '(_, q), leaves q) <$> clauses)
  | DisjunctionMaxQuery disjuncts => sum (leaves <$> disjuncts)
  | ConstScoreQuery query _ | BoostQuery query _ => leaves query
  | _ => 1
  end.

(** ** What a request asks for *)
Section Asked.
Context `{Unicode} `{Automata} (final_analyzer : bytes → list Token.t) (self : Engine.t).
Context {Seg : Type} `{!Terms Seg} (filter_fields : list EngineFilterField.t) (filter_field_lookup : gmap bytes N).

(** *** Clauses *)
Section Fields.
Context (fields : list EngineField.t) (doc : Doc.t).
Definition somewhere (token : bytes) : bool := existsb (λ field, has_token doc field.(EngineField.field) token) fields.
Definition all_words (text : bytes) : bool :=
  negb (bool_decide (self.(Engine.analyzer) text = [])) && forallb (λ t, somewhere t.(Token.text)) (self.(Engine.analyzer) text).
(** The tokens of a phrase, as far apart as in the text. *)
Definition phrase_asked (tokens : list Token.t) : bool :=
  match tokens with
  | [] => false
  | first :: _ => existsb (λ field, existsb (λ e : N * bytes, forallb (λ t,
      has_at doc field.(EngineField.field) (e.1 + (t.(Token.position) - first.(Token.position))) t.(Token.text)) tokens)
      (doc.(Doc.tokens) field.(EngineField.field))) fields
  end.
(** A token that a matcher of the traces accepts. *)
Definition accepted (matcher : FuzzyMatcher.t) : bool :=
  existsb (λ e : N * bytes, match matcher_matches matcher e.2 with Ok b => b | _ => false end) (doc.(Doc.tokens) matcher.(FuzzyMatcher.field)).
Definition fuzzy_asked (options : QueryOptions.t) (pair : bytes * bytes) : bool :=
  if fuzzy_eligible pair.2 then existsb (λ field, accepted (FuzzyMatcher.mk pair.1 field.(EngineField.field) options false)) fields
  else somewhere pair.1.
(** The surface words of the text that are analyzed to a single word. *)
Definition asked_pairs (text : bytes) : list (bytes * bytes) :=
  (Token.text <$> self.(Engine.surface_analyzer) text) ≫= λ surface,
    match self.(Engine.analyzer) surface with [token] => [(token.(Token.text), surface)] | _ => [] end.
Definition prefix_asked (fuzzy : bool) (options : QueryOptions.t) (prefix : bytes) : bool :=
  existsb (λ field, match field.(EngineField.surface_field) with
    | Some surface_field =>
        if fuzzy && fuzzy_eligible prefix then accepted (FuzzyMatcher.mk prefix surface_field options true)
        else existsb (λ e : N * bytes, starts_with e.2 prefix) (doc.(Doc.tokens) surface_field)
    | None => false
    end) fields.
Definition ends_in_space (text : bytes) : bool := match last (chars text) with Some c => is_whitespace c | None => false end.
(** The words before the last, and a word that starts with the last. *)
Definition prefix_mode (fuzzy : bool) (options : QueryOptions.t) (text : bytes) : bool :=
  if ends_in_space text then all_words text else
  match last (final_analyzer text) with
  | None => false
  | Some final =>
      forallb (λ t, somewhere t.(Token.text)) (filter (λ t, t.(Token.position) < final.(Token.position)) (self.(Engine.analyzer) text))
      && prefix_asked fuzzy options final.(Token.text)
  end.
Definition mode_asked (clause : SearchClause.t) : bool :=
  let text := clause.(SearchClause.text) in let options := clause.(SearchClause.options) in
  match clause.(SearchClause.mode) with
  | SearchMode.Any => existsb (λ t, somewhere t.(Token.text)) (self.(Engine.analyzer) text)
  | SearchMode.All => all_words text
  | SearchMode.Phrase => phrase_asked (self.(Engine.analyzer) text)
  | SearchMode.Prefix => prefix_mode false options text
  | SearchMode.FuzzyPrefix => prefix_mode true options text
  | SearchMode.Fuzzy => existsb (fuzzy_asked options) (asked_pairs text)
  end.
End Fields.
Definition clause_asked (doc : Doc.t) (clause : SearchClause.t) : bool :=
  match selected_fields self clause.(SearchClause.fields) with Ok fields => mode_asked fields doc clause | _ => false end.
Fixpoint asked (doc : Doc.t) (expression : SearchExpression.t) : bool :=
  match expression with
  | SearchExpression.Clause clause => clause_asked doc clause
  | SearchExpression.And children => forallb (asked doc) children
  | SearchExpression.Or children => existsb (asked doc) children
  | SearchExpression.Boost _ clause => asked doc clause
  | SearchExpression.Optional required _ => asked doc required
  | SearchExpression.Not child => negb (asked doc child)
  end.

(** *** Candidates and filters *)
Definition candidate_asked (doc : Doc.t) (candidate_ids : option (list bytes)) : bool :=
  match candidate_ids with None => true | Some ids => existsb (has_token doc self.(Engine.id_field)) ids end.
Definition value_asked (doc : Doc.t) (field : EngineFilterField.t) (value : FilterValue.t) : bool :=
  match value with
  | FilterValue.String s => has_token doc field.(EngineFilterField.field) s
  | FilterValue.Number v => existsb (f64_eq v) (doc.(Doc.numbers) field.(EngineFilterField.field))
  | FilterValue.Boolean b => bool_decide (b ∈ doc.(Doc.booleans) field.(EngineFilterField.field))
  end.
Definition some_number (doc : Doc.t) (field : EngineFilterField.t) (p : f64 → bool) : bool := existsb p (doc.(Doc.numbers) field.(EngineFilterField.field)).
Definition present (doc : Doc.t) (field : EngineFilterField.t) : bool :=
  if bool_decide (field.(EngineFilterField.field_type) = FilterFieldType.Boolean) then negb (bool_decide (doc.(Doc.booleans) field.(EngineFilterField.field) = []))
  else doc.(Doc.has) (get_field_name field.(EngineFilterField.field)).
Definition comparator_asked (doc : Doc.t) (field : EngineFilterField.t) (comparator : FilterComparator.t) (values : list FilterValue.t) : bool :=
  match comparator, values with
  | FilterComparator.Exists, _ => present doc field
  | FilterComparator.Missing, _ => negb (present doc field)
  | (FilterComparator.Equals | FilterComparator.In), values => existsb (value_asked doc field) values
  | FilterComparator.Lt, [FilterValue.Number w] => some_number doc field (λ v, f64_lt v w)
  | FilterComparator.Le, [FilterValue.Number w] => some_number doc field (λ v, f64_le v w)
  | FilterComparator.Gt, [FilterValue.Number w] => some_number doc field (λ v, f64_lt w v)
  | FilterComparator.Ge, [FilterValue.Number w] => some_number doc field (λ v, f64_le w v)
  | FilterComparator.Between, [FilterValue.Number l; FilterValue.Number u] => some_number doc field (λ v, f64_le l v && f64_le v u)
  | _, _ => false
  end.
Fixpoint filter_asked (doc : Doc.t) (expression : FilterExpression.t) : bool :=
  match expression with
  | FilterExpression.Clause name comparator values =>
      match filter_field_lookup !! name ≫= λ index, filter_fields !! N.to_nat index with
      | Some field => comparator_asked doc field comparator values
      | None => false
      end
  | FilterExpression.And ch => forallb (filter_asked doc) ch
  | FilterExpression.Or ch => existsb (filter_asked doc) ch
  | FilterExpression.Not child => negb (filter_asked doc child)
  end.
Definition request_asked (doc : Doc.t) (request : SearchRequest.t) : bool :=
  asked doc request.(SearchRequest.expression) && candidate_asked doc request.(SearchRequest.candidate_ids)
  && match request.(SearchRequest.filter) with Some filter => filter_asked doc filter | None => true end.
End Asked.

(** * What the construction of a query keeps

    Rules for computations that return or fail with the code of a query error,
    and the meaning of the clauses of the index crate's queries. *)
(** ** Results and coded failures *)
Definition coded {A} (r : outcome A) (Q : A → Prop) : Prop :=
  match r with Ok a => Q a | Err e => query_failure e | Panic | Fuel => False end.
Definition Builds {S A} (m : M S A) (Q : A → Prop) : Prop := ∀ s, coded (m s) (λ r, Q r.1).
Section Rules.
Context {A B : Type}.
Implicit Types Q : A → Prop.
Lemma coded_weaken (r : outcome A) Q Q' : coded r Q → (∀ a, Q a → Q' a) → coded r Q'.
Proof. destruct r; cbn; auto. Qed.
Lemma coded_bind (r : outcome A) (f : A → outcome B) Q (R : B → Prop) : coded r Q → (∀ a, Q a → coded (f a) R) → coded (mbind f r) R.
Proof. destruct r; cbn; auto. Qed.
Lemma coded_tame (r : outcome A) : tame r → coded r (λ a, r = Ok a).
Proof. destruct r; cbn; [done| |done..]. intros Hc. right. by left. Qed.
Lemma coded_invalid message Q : coded (Err (invalid message)) Q.
Proof. right. by left. Qed.
Lemma coded_broad message Q : coded (Err (too_broad message)) Q.
Proof. right. by right. Qed.
Lemma Builds_ret {S} (a : A) Q : Q a → Builds (S := S) (mret a) Q.
Proof. by intros HQ s. Qed.
Lemma Builds_lift {S} (r : outcome A) Q : coded r Q → Builds (S := S) (lift r) Q.
Proof. intros HQ s. unfold lift. by destruct r. Qed.
Lemma Builds_bind {S} (m : M S A) (f : A → M S B) Q (R : B → Prop) : Builds m Q → (∀ a, Q a → Builds (f a) R) → Builds (mbind f m) R.
Proof.
  intros Hm Hf s. cbv [mbind M_bind]. specialize (Hm s). destruct (m s) as [[a s']| | |]; cbn in *; [|done..]. by apply Hf.
Qed.
Lemma Builds_if {S} (b : bool) (m k : M S A) Q : (b = true → Builds m Q) → (b = false → Builds k Q) → Builds (if b then m else k) Q.
Proof. destruct b; auto. Qed.
Lemma Builds_run {S} (m : M S A) s Q : Builds m Q → coded (run m s) Q.
Proof. intros Hm. specialize (Hm s). unfold run. by destruct (m s) as [[]| | |]. Qed.
Lemma Builds_fail {S} message Q : Builds (S := S) (fail_with (invalid message)) Q.
Proof. intros s. right. by left. Qed.
End Rules.
Lemma coded_foldO {A S} (f : S → A → outcome S) (P : list A → S → Prop) l s :
  P [] s → (∀ done a todo s, l = done ++ a :: todo → P done s → coded (f s a) (P (done ++ [a]))) → coded (foldO f s l) (P l).
Proof.
  intros Hs Hf. assert (∀ todo done s, l = done ++ todo → P done s → coded (foldO f s todo) (P l)) as Hloop; [|by apply (Hloop l [])].
  clear s Hs. induction todo as [|a todo IH]; intros done s El Hs; cbn [foldO].
  - cbn. by rewrite El, app_nil_r.
  - eapply coded_bind; [by eapply Hf|]. intros s' Hs'. apply (IH (done ++ [a])); [|done]. by rewrite <- app_assoc.
Qed.
Lemma Builds_foldM {A X S} (f : S → A → M X S) (P : list A → S → Prop) l s :
  P [] s → (∀ done a todo s, l = done ++ a :: todo → P done s → Builds (f s a) (P (done ++ [a]))) → Builds (foldM f s l) (P l).
Proof.
  intros Hs Hf. assert (∀ todo done s, l = done ++ todo → P done s → Builds (foldM f s todo) (P l)) as Hloop; [|by apply (Hloop l [])].
  clear s Hs. induction todo as [|a todo IH]; intros done s El Hs; cbn [foldM].
  - apply Builds_ret. by rewrite El, app_nil_r.
  - eapply Builds_bind; [by eapply Hf|]. intros s' Hs'. apply (IH (done ++ [a])); [|done]. by rewrite <- app_assoc.
Qed.
Lemma coded_mapO {A B} (f : A → outcome B) (Q : A → B → Prop) l : Forall (λ a, coded (f a) (Q a)) l → coded (mapO f l) (Forall2 Q l).
Proof.
  induction 1 as [|a l Ha _ IH]; cbn [mapO]; [constructor|]. eapply coded_bind; [exact Ha|]. intros b Hb.
  eapply coded_bind; [exact IH|]. intros bs Hbs. by constructor.
Qed.
Lemma saturating_mul_exact a b m : saturating_mul a b <= m → m < USIZE_MAX → saturating_mul a b = a * b.
Proof. unfold saturating_mul. lia. Qed.

(** ** Existence and universality over lists *)
Section Quantifiers.
Context {A B : Type}.
Implicit Types (f g : A → bool) (l k : list A).
Lemma existsb_true f l : existsb f l = true ↔ ∃ x, x ∈ l ∧ f x = true.
Proof. rewrite existsb_exists. by setoid_rewrite list_elem_of_In. Qed.
Lemma forallb_true f l : forallb f l = true ↔ ∀ x, x ∈ l → f x = true.
Proof. rewrite forallb_forall. by setoid_rewrite list_elem_of_In. Qed.
Lemma existsb_same f g l k : (∀ x, x ∈ l ↔ x ∈ k) → (∀ x, x ∈ l → f x = g x) → existsb f l = existsb g k.
Proof.
  intros Hlk Hfg. apply eq_true_iff_eq. rewrite !existsb_true. split; intros (x & Hx & E); exists x.
  - split; [by apply Hlk|]. by rewrite <- Hfg.
  - apply Hlk in Hx. split; [done|]. by rewrite Hfg.
Qed.
Lemma forallb_same f g l k : (∀ x, x ∈ l ↔ x ∈ k) → (∀ x, x ∈ l → f x = g x) → forallb f l = forallb g k.
Proof.
  intros Hlk Hfg. apply eq_true_iff_eq. rewrite !forallb_true. split; intros Hall x Hx.
  - apply Hlk in Hx. rewrite <- Hfg by done. auto.
  - rewrite Hfg by done. apply Hall. by apply Hlk.
Qed.
Lemma existsb_fmap (h : B → A) f (l : list B) : existsb f (h <$> l) = existsb (λ x, f (h x)) l.
Proof. induction l as [|x l IH]; [done|]. rewrite fmap_cons. cbn [existsb]. by rewrite IH. Qed.
Lemma forallb_fmap (h : B → A) f (l : list B) : forallb f (h <$> l) = forallb (λ x, f (h x)) l.
Proof. induction l as [|x l IH]; [done|]. rewrite fmap_cons. cbn [forallb]. by rewrite IH. Qed.
Lemma existsb_bind (h : B → list A) f (l : list B) : existsb f (l ≫= h) = existsb (λ x, existsb f (h x)) l.
Proof. induction l as [|x l IH]; [done|]. rewrite bind_cons, existsb_app. cbn [existsb]. by rewrite IH. Qed.
Lemma existsb_Forall2 (R : B → A → Prop) (p : B → bool) f (bs : list B) l : Forall2 R bs l → (∀ b a, R b a → f a = p b) → existsb f l = existsb p bs.
Proof. intros Hl HR. induction Hl as [|b a bs l Hba _ IH]; [done|]. cbn [existsb]. by rewrite IH, (HR _ _ Hba). Qed.
Lemma forallb_Forall2 (R : B → A → Prop) (p : B → bool) f (bs : list B) l : Forall2 R bs l → (∀ b a, R b a → f a = p b) → forallb f l = forallb p bs.
Proof. intros Hl HR. induction Hl as [|b a bs l Hba _ IH]; [done|]. cbn [forallb]. by rewrite IH, (HR _ _ Hba). Qed.
Lemma sum_constant (f : A → N) n l : (∀ x, f x = n) → sum (f <$> l) = lenN l * n.
Proof. intros Hf. induction l as [|x l IH]; [done|]. rewrite fmap_cons, sum_cons, lenN_cons, IH, Hf. lia. Qed.
End Quantifiers.

(** ** Clauses *)
Section Clauses.
Context {A : Type} (m : A → bool).
Lemma all_required (clauses : list (Occur.t * A)) : clauses ≠ [] → Forall (λ c, c.1 = Occur.Must) clauses → boolean_matches m clauses = forallb (λ c, m c.2) clauses.
Proof.
  intros Hn Hall. unfold boolean_matches. destruct clauses as [|[o q] clauses]; [done|]. clear Hn.
  assert (existsb (λ c : Occur.t * A, let '(occur, _) := c in bool_decide (occur = Occur.Must)) ((o, q) :: clauses) = true) as ->.
  { apply Forall_inv in Hall. cbn in Hall. cbn [existsb]. by rewrite Hall. }
  rewrite orb_true_l, andb_true_r. induction Hall as [|[o' q'] l Ho _ IH]; [done|]. cbn [forallb snd fst] in *. rewrite Ho, IH. done.
Qed.
Lemma all_optional (clauses : list (Occur.t * A)) : Forall (λ c, c.1 = Occur.Should) clauses → boolean_matches m clauses = existsb (λ c, m c.2) clauses.
Proof.
  intros Hall. unfold boolean_matches.
  assert (existsb (λ c : Occur.t * A, let '(occur, _) := c in bool_decide (occur = Occur.Must)) clauses = false
    ∧ forallb (λ c : Occur.t * A, let '(occur, q) := c in match occur with Occur.Must => m q | Occur.MustNot => negb (m q) | Occur.Should => true end) clauses = true
    ∧ existsb (λ c : Occur.t * A, let '(occur, q) := c in bool_decide (occur = Occur.Should) && m q) clauses = existsb (λ c, m c.2) clauses) as (-> & -> & ->); [|done].
  induction Hall as [|[o q] l Ho _ (IH1 & IH2 & IH3)]; [done|]. cbn [forallb existsb snd fst] in *. rewrite Ho, IH1, IH2, IH3. done.
Qed.
(** With a required clause, the optional ones only score. *)
Lemma required_first q (clauses : list (Occur.t * A)) : Forall (λ c, c.1 = Occur.Should) clauses → boolean_matches m ((Occur.Must, q) :: clauses) = m q.
Proof.
  intros Hall. unfold boolean_matches. cbn [forallb existsb]. rewrite bool_decide_true, orb_true_l, andb_true_r by done.
  assert (forallb (λ c : Occur.t * A, let '(occur, q) := c in match occur with Occur.Must => m q | Occur.MustNot => negb (m q) | Occur.Should => true end) clauses = true) as ->; [|by rewrite andb_true_r].
  induction Hall as [|[o q'] l Ho _ IH]; [done|]. cbn [forallb fst] in *. by rewrite Ho, IH.
Qed.
Lemma optional_fmap {B} (f : B → A) l : boolean_matches m ((λ x, (Occur.Should, f x)) <$> l) = existsb (λ x, m (f x)) l.
Proof. rewrite all_optional by (apply Forall_fmap, Forall_forall; done). by rewrite existsb_fmap. Qed.
Lemma required_fmap {B} (f : B → A) l : l ≠ [] → boolean_matches m ((λ x, (Occur.Must, f x)) <$> l) = forallb (λ x, m (f x)) l.
Proof. intros Hn. rewrite all_required; [by rewrite forallb_fmap|by destruct l|apply Forall_fmap, Forall_forall; done]. Qed.
Lemma both_required p q : boolean_matches m [(Occur.Must, p); (Occur.Must, q)] = m p && m q.
Proof. unfold boolean_matches. cbn. by rewrite !andb_true_r. Qed.
Lemma all_but p q : m p = true → boolean_matches m [(Occur.Must, p); (Occur.MustNot, q)] = negb (m q).
Proof. intros Hp. unfold boolean_matches. cbn. by rewrite Hp, !andb_true_r. Qed.
End Clauses.
