(* ===== verification/Clauses.v ===== *)
(** * The query of a clause selects what the clause asks for

    Each mode of a clause, from the analysis of its text to the query: the
    clauses counted are within the limit and bound the leaves of the query, and
    the query matches a searchable document exactly when the clause asks for it. *)
From stdpp Require Import sorting.
From S2P Require Import Prelude.
From S2P Require Import Errors.
From S2P Require Import Bytes.
From S2P Require Import Wire.
From S2P Require Import Request.
From S2P Require Import Structure.
From S2P Require Import Text.
From S2P Require Import Spans.
From S2P Require Import Analysis.
From S2P Require Import Plan.
From S2P Require Import Failures.
From S2P Require Import Hits.
From S2P Require Import Matching.
From S2P Require Import Merging.
From S2P Require Import Query.
From S2P Require Import Doubles.
From S2P Require Import Selecting.
Import Query.
Local Open Scope N_scope.

(** ** The documents of the index *)
Class Documents (Seg : Type) := documents : Seg → list Doc.t.
(** Every token of a document is a term of the dictionary. *)
Class TermsLaws (Seg : Type) `{!Terms Seg} `{!Documents Seg} : Prop := {
  term_range_ok (seg : Seg) field from below : stored (term_range seg field from below) (λ terms,
    Forall (λ s, bytes_le from s ∧ match below with None => True | Some e => bytes_lt s e end) terms
    ∧ ∀ doc e, doc ∈ documents seg → e ∈ doc.(Doc.tokens) field → bytes_le from e.2 →
        match below with None => True | Some b => bytes_lt e.2 b end → e.2 ∈ terms);
  numbers_ok (seg : Seg) doc field v : doc ∈ documents seg → v ∈ doc.(Doc.numbers) field → number_stored v }.
Definition searchable {Seg} `{!Searcher Seg} `{!Documents Seg} (doc : Doc.t) : Prop := ∃ seg : Seg, seg ∈ segment_readers ∧ doc ∈ documents seg.

(** ** Analysis *)
Section Analysed.
Context `{Unicode} `{Automata} (self : Engine.t).
Abbreviation tokens_of text := (self.(Engine.analyzer) text).
Lemma analyze_distinct_elem text surface terms : analyze self text surface true = Ok terms →
  ∀ x, x ∈ terms ↔ x ∈ Token.text <$> (if surface then self.(Engine.surface_analyzer) else self.(Engine.analyzer)) text.
Proof.
  unfold analyze. generalize ((if surface then Engine.surface_analyzer self else Engine.analyzer self) text). intros tokens.
  set (body := λ '(terms, seen) token, _). intros Ha. apply bind_Ok in Ha as ([r seen] & Hf & [= <-]).
  assert (∀ tokens acc sn, (∀ x, x ∈ sn ↔ x ∈ acc) → foldO body (acc, sn) tokens = Ok (r, seen) → ∀ x, x ∈ r ↔ x ∈ acc ∨ x ∈ Token.text <$> tokens) as Hloop.
  { clear. induction tokens as [|t tokens IH]; intros acc sn Hs Hf x; cbn [foldO] in Hf.
    - injection Hf as <- _. split; [auto|]. by intros [?|?%not_elem_of_nil].
    - apply bind_Ok in Hf as ([acc' sn'] & Hb & Hf). unfold body in Hb. cbn [negb orb] in Hb. rewrite fmap_cons, elem_of_cons.
      destruct (bool_decide_reflect (Token.text t ∈ sn)) as [Hin|Hin]; cbn [negb] in Hb.
      + injection Hb as <- <-. rewrite (IH _ _ Hs Hf). apply Hs in Hin. split; [naive_solver|]. intros [?|[->|?]]; auto.
      + destruct (lenN acc =? _); [done|]. injection Hb as <- <-. rewrite (IH _ _) with (2 := Hf).
        * rewrite elem_of_app, list_elem_of_singleton. tauto.
        * intros y. rewrite elem_of_union, elem_of_singleton, Hs, elem_of_app, list_elem_of_singleton. tauto. }
  intros x. rewrite (Hloop tokens [] ∅) with (2 := Hf).
  - split; [by intros [?%not_elem_of_nil|]|auto].
  - intros y. split; [by intros ?%elem_of_empty|by intros ?%not_elem_of_nil].
Qed.
Lemma analyze_all text terms : analyze self text false false = Ok terms → terms = Token.text <$> tokens_of text.
Proof.
  unfold analyze. generalize (tokens_of text). intros tokens Ha. apply bind_Ok in Ha as ([r seen] & Hf & [= <-]).
  match type of Hf with foldO ?b _ _ = _ => set (body := b) in Hf end.
  assert (∀ tokens acc sn, foldO body (acc, sn) tokens = Ok (r, seen) → r = acc ++ (Token.text <$> tokens)) as Hloop; [|by apply Hloop in Hf].
  clear. induction tokens as [|t tokens IH]; intros acc sn Hf; cbn [foldO] in Hf; [injection Hf as <- _; by rewrite app_nil_r|].
  apply bind_Ok in Hf as ([acc' sn'] & Hb & Hf). unfold body in Hb. cbn [negb orb] in Hb. destruct (lenN acc =? _); [done|]. injection Hb as <- <-.
  rewrite (IH _ _ Hf), fmap_cons, <- app_assoc. done.
Qed.
Lemma fuzzy_pairs_elem text pairs : fuzzy_pairs self text = Ok pairs → ∀ x, x ∈ pairs ↔ x ∈ asked_pairs self text.
Proof.
  unfold fuzzy_pairs. intros Hp. apply bind_Ok in Hp as (surfaces & Ha & Hf).
  set (expand surface := match tokens_of surface with [token] => [(token.(Token.text), surface)] | _ => [] end).
  match type of Hf with foldO ?b _ _ = _ => set (body := b) in Hf end.
  assert (∀ surfaces acc pairs, foldO body acc surfaces = Ok pairs → pairs = acc ++ (surfaces ≫= expand)) as Hloop.
  { clear. induction surfaces as [|s l IH]; intros acc pairs Hf; cbn [foldO] in Hf; [injection Hf as <-; by rewrite app_nil_r|].
    apply bind_Ok in Hf as (acc' & Hb & Hf). unfold body in Hb. apply bind_Ok in Hb as (analyzed & Hb & [= <-]). apply analyze_all in Hb as ->.
    rewrite (IH _ _ Hf), bind_cons. unfold expand at 2. destruct (tokens_of s) as [|t [|t' ts]]; cbn [fmap list_fmap app]; [done|by rewrite <- app_assoc|done]. }
  intros x. rewrite (Hloop _ _ _ Hf). cbn [app]. unfold asked_pairs. rewrite !list_elem_of_bind.
  pose proof (analyze_distinct_elem _ _ _ Ha) as Helem. cbn [negb] in Helem. unfold expand. split; intros (s & Hx & Hs); exists s; (split; [done|]); by apply Helem.
Qed.
Lemma completed_elem position terms x : x ∈ completed_terms position terms ↔ ∃ p, (p, x) ∈ terms ∧ p < position.
Proof.
  unfold completed_terms. set (body := λ '(completed, seen) '(p, term), _).
  assert (∀ terms acc sn, (∀ x, x ∈ sn ↔ x ∈ acc) → ∀ x, x ∈ (foldl body (acc, sn) terms).1 ↔ x ∈ acc ∨ ∃ p, (p, x) ∈ terms ∧ p < position) as Hloop.
  { clear. induction terms as [|[p t] terms IH]; intros acc sn Hs x; cbn [foldl].
    - split; [auto|]. intros [?|(p & ?%not_elem_of_nil & _)]; done.
    - assert ((∃ q, (q, x) ∈ (p, t) :: terms ∧ q < position) ↔ (x = t ∧ p < position) ∨ ∃ q, (q, x) ∈ terms ∧ q < position) as ->.
      { split; [intros (q & [[= -> ->]|Hq]%elem_of_cons & Hlt); [auto|right; by exists q]|].
        intros [[-> Hlt]|(q & Hq & Hlt)]; [exists p|exists q]; (split; [|done]); apply elem_of_cons; auto. }
      unfold body at 2. destruct (N.ltb_spec p position) as [Hlt|Hge]; destruct (bool_decide_reflect (t ∈ sn)) as [Hin|Hin]; cbn [negb andb].
      + rewrite (IH _ _ Hs). apply Hs in Hin. split; [naive_solver|]. intros [?|[[-> _]|?]]; auto.
      + rewrite IH; [|intros y; rewrite elem_of_union, elem_of_singleton, Hs, elem_of_app, list_elem_of_singleton; tauto].
        rewrite elem_of_app, list_elem_of_singleton. naive_solver.
      + rewrite (IH _ _ Hs). split; [naive_solver|]. intros [?|[[_ ?]|?]]; auto; lia.
      + rewrite (IH _ _ Hs). split; [naive_solver|]. intros [?|[[_ ?]|?]]; auto; lia. }
  rewrite (Hloop terms [] ∅).
  - split; [by intros [?%not_elem_of_nil|]|auto].
  - intros y. split; [by intros ?%elem_of_empty|by intros ?%not_elem_of_nil].
Qed.
End Analysed.

(** ** Groups of terms *)
Section Terms.
Context `{Automata}.
Lemma boosted_matches q weight doc : matches (boosted q weight) doc = matches q doc.
Proof. unfold boosted. by destruct (f32_eq weight F32_ONE). Qed.
Lemma boosted_leaves q weight : leaves (boosted q weight) = leaves q.
Proof. unfold boosted. by destruct (f32_eq weight F32_ONE). Qed.
Lemma weighted_matches term field doc : matches (weighted_term term field) doc = has_token doc field.(EngineField.field) term.
Proof. unfold weighted_term. by rewrite boosted_matches. Qed.
Lemma weighted_leaves term field : leaves (weighted_term term field) = 1.
Proof. unfold weighted_term. by rewrite boosted_leaves. Qed.
Lemma group_matches term fields doc : matches (term_group term fields) doc = somewhere fields doc term.
Proof. unfold term_group. cbn [matches]. rewrite (optional_fmap (λ q, matches q doc)). apply existsb_same; [done|]. intros. apply weighted_matches. Qed.
Lemma group_leaves term fields : leaves (term_group term fields) = lenN fields.
Proof.
  unfold term_group. cbn [leaves]. rewrite <- list_fmap_compose, (sum_constant _ 1); [lia|]. intros field. apply weighted_leaves.
Qed.
Lemma alternatives_leaves terms fields :
  leaves (BooleanQuery (terms ≫= λ term : bytes, (λ field, (Occur.Should, weighted_term term field)) <$> fields)) = lenN terms * lenN fields.
Proof.
  cbn [leaves]. induction terms as [|t l IH]; [done|].
  rewrite bind_cons, fmap_app, sum_app, IH, lenN_cons, <- list_fmap_compose, (sum_constant _ 1); [lia|]. intros field. apply weighted_leaves.
Qed.
(** A match that scores more when it is exact is the match. *)
Lemma exact_branch_matches exact bonus doc : matches (exact_branch exact bonus) doc = matches exact doc.
Proof. unfold exact_branch. cbn [matches]. rewrite both_required. cbn [matches]. apply andb_diag. Qed.
Lemma exact_branch_leaves exact bonus : leaves (exact_branch exact bonus) = 2 * leaves exact.
Proof. unfold exact_branch. cbn [leaves fmap list_fmap]. rewrite !sum_cons. cbn. lia. Qed.

(** ** Matchers *)
Lemma existsb_orb {A} (f g : A → bool) l : existsb (λ x, f x || g x) l = existsb f l || existsb g l.
Proof. induction l as [|x l IH]; [done|]. cbn [existsb]. rewrite IH. by destruct (f x), (g x), (existsb f l). Qed.
Lemma existsb_andb {A} b (f : A → bool) l : existsb (λ x, b && f x) l = b && existsb f l.
Proof. induction l as [|x l IH]; [by rewrite andb_false_r|]. cbn [existsb]. rewrite IH. by destruct b. Qed.
(** A matcher accepts the term itself, its extensions when it is a prefix, and what is near. *)
Lemma accepted_cases doc text field options prefix : accepted doc (FuzzyMatcher.mk text field options prefix)
  = has_token doc field text || (prefix && existsb (λ e : N * bytes, starts_with e.2 text) (doc.(Doc.tokens) field))
    || (negb (options.(QueryOptions.fuzzy_distance) =? 0) && existsb (λ e : N * bytes, automaton_accepts field text options prefix e.2) (doc.(Doc.tokens) field)).
Proof.
  unfold accepted, has_token. cbn [FuzzyMatcher.field]. rewrite <- !existsb_andb, <- !existsb_orb. apply existsb_same; [done|]. intros e _.
  unfold matcher_matches, automaton_accepts. cbn [FuzzyMatcher.text FuzzyMatcher.field FuzzyMatcher.options FuzzyMatcher.prefix].
  destruct (bool_decide (e.2 = text) || prefix && starts_with e.2 text); [done|]. destruct (QueryOptions.fuzzy_distance options =? 0); [done|]. cbn [negb orb andb].
  by destruct (automaton field text options prefix).
Qed.
End Terms.

Section Modes.
Context `{Unicode} `{Automata} (self : Engine.t).
Context {Seg : Type} `{!Searcher Seg} `{!Terms Seg} `{!Documents Seg} (HT : TermsLaws Seg).
Hypothesis Hanalyzer : analyzer_ok self.(Engine.analyzer).
Hypothesis Hlookup : lookup_ok self.
Hypothesis Hmax : self.(Engine.max_query_clauses) < USIZE_MAX.

(** The clauses are within the limit and bound the leaves, and the query selects
    what is asked for. *)
Definition means (q : Query.t) (clauses : N) (a : Doc.t → bool) : Prop :=
  clauses <= self.(Engine.max_query_clauses) ∧ leaves q <= 2 * clauses ∧ ∀ doc, searchable (Seg := Seg) doc → matches q doc = a doc.
Definition built_means (a : Doc.t → bool) (b : Built) : Prop := means b.1.1 b.1.2 a.
Lemma empty_means a : (∀ doc, searchable (Seg := Seg) doc → a doc = false) → built_means a (EmptyQuery, 0, false).
Proof using All. intros Ha. split; [cbn; lia|]. split; [done|]. intros doc Hd. by rewrite Ha. Qed.
Lemma clause_count_coded groups alternatives : coded (check_clause_count self groups alternatives)
  (λ _, saturating_mul groups alternatives = groups * alternatives ∧ groups * alternatives <= self.(Engine.max_query_clauses)).
Proof using Hmax.
  unfold check_clause_count. destruct (N.ltb_spec (Engine.max_query_clauses self) (saturating_mul groups alternatives)) as [|Hle]; [apply coded_invalid|].
  pose proof (saturating_mul_exact _ _ _ Hle Hmax) as E. split; [done|lia].
Qed.
Lemma total_count_coded clauses additional : coded (check_total_clause_count self clauses additional)
  (λ _, clauses + additional <= self.(Engine.max_query_clauses) ∧ usize_add clauses additional = Ok (clauses + additional)).
Proof using Hmax.
  unfold check_total_clause_count, saturating_add. destruct (N.ltb_spec (Engine.max_query_clauses self) (N.min (clauses + additional) USIZE_MAX)) as [|Hle]; [apply coded_invalid|].
  unfold usize_add. destruct (checked_add_cases clauses additional) as [[-> ?]|[_ ?]]; cbn; [split; [lia|done]|lia].
Qed.
Lemma text_empty (text : bytes) terms : (∀ x, x ∈ terms ↔ x ∈ Token.text <$> self.(Engine.analyzer) text) → terms = [] → self.(Engine.analyzer) text = [].
Proof.
  intros Helem ->. destruct (Engine.analyzer self text) as [|t l]; [done|]. exfalso. apply (not_elem_of_nil (Token.text t)), Helem. rewrite fmap_cons. apply elem_of_cons. by left.
Qed.

(** *** Words *)
Definition words_asked (occur : Occur.t) (fields : list EngineField.t) (text : bytes) (doc : Doc.t) : bool :=
  if bool_decide (occur = Occur.Should) then existsb (λ t, somewhere fields doc t.(Token.text)) (self.(Engine.analyzer) text) else all_words self fields doc text.
Lemma term_query_means text fields occur : occur ≠ Occur.MustNot → coded (term_query self text fields occur) (built_means (words_asked occur fields text)).
Proof using Hmax.
  intros Hocc. unfold term_query. eapply coded_bind; [apply coded_tame, analyze_tame|]. intros terms Ha.
  pose proof (analyze_distinct_elem _ _ _ _ Ha) as Helem. cbn [negb] in Helem. case_bool_decide as En.
  { apply (text_empty _ _ Helem) in En. split; [cbn; lia|]. split; [done|]. intros doc _. unfold words_asked, all_words. rewrite En. by destruct occur. }
  eapply coded_bind; [apply clause_count_coded|]. intros _ [Ec Hle]. rewrite Ec.
  assert (∀ (doc : Doc.t), existsb (λ t, somewhere fields doc t.(Token.text)) (Engine.analyzer self text) = existsb (somewhere fields doc) terms
    ∧ forallb (λ t, somewhere fields doc t.(Token.text)) (Engine.analyzer self text) = forallb (somewhere fields doc) terms) as Hsame.
  { intros doc. rewrite <- (existsb_fmap Token.text (somewhere fields doc)), <- (forallb_fmap Token.text (somewhere fields doc)).
    split; [apply existsb_same|apply forallb_same]; try done; intros x; by rewrite Helem. }
  destruct (bool_decide_reflect (occur = Occur.Should)) as [->|Hs].
  - split; [exact Hle|]. split.
    + cbn [fst snd]. rewrite alternatives_leaves. lia.
    + intros doc _. unfold words_asked. rewrite bool_decide_true by done. rewrite (proj1 (Hsame doc)). cbn [fst matches].
      rewrite all_optional.
      * rewrite existsb_bind. apply existsb_same; [done|]. intros t _. rewrite existsb_fmap. apply existsb_same; [done|]. intros field _. apply weighted_matches.
      * apply Forall_forall. intros c (t & (f & -> & _)%list_elem_of_fmap & _)%list_elem_of_bind. done.
  - split; [exact Hle|]. split.
    + cbn [fst snd leaves]. rewrite <- list_fmap_compose, (sum_constant _ (lenN fields)); [lia|]. intros t. apply group_leaves.
    + intros doc _. unfold words_asked, all_words. rewrite bool_decide_false by done. rewrite (proj2 (Hsame doc)). destruct occur; [done| |done].
      cbn [fst matches]. rewrite required_fmap by done. rewrite bool_decide_false.
      * apply forallb_same; [done|]. intros t _. apply group_matches.
      * intros E. apply En. destruct terms as [|x l]; [done|]. exfalso. apply (not_elem_of_nil (A := bytes) x).
        rewrite E in Helem. apply Helem, elem_of_cons. by left.
Qed.

(** *** Phrases *)
Abbreviation positioned t := (t.(Token.position), t.(Token.text)).
Lemma positions_from first tokens t : StronglySorted N.lt (Token.position <$> first :: tokens) → t ∈ first :: tokens → first.(Token.position) <= t.(Token.position).
Proof.
  rewrite fmap_cons. intros [_ Hall]%StronglySorted_inv [->|Ht]%elem_of_cons; [done|]. rewrite Forall_fmap, Forall_forall in Hall. apply N.lt_le_incl. by apply Hall.
Qed.
Definition phrase_in (first : Token.t) (tokens : list Token.t) (field : EngineField.t) (doc : Doc.t) : bool :=
  existsb (λ e : N * bytes, forallb (λ t, has_at doc field.(EngineField.field) (e.1 + (t.(Token.position) - first.(Token.position))) t.(Token.text)) (first :: tokens))
    (doc.(Doc.tokens) field.(EngineField.field)).
Lemma phrase_of_means first tokens field : StronglySorted N.lt (Token.position <$> first :: tokens) →
  coded (phrase_of ((λ t, positioned t) <$> first :: tokens) field) (λ q, leaves q = 1 ∧ ∀ doc, matches q doc = phrase_in first tokens field doc).
Proof.
  intros Hs. unfold phrase_of. change (head ((λ t, positioned t) <$> first :: tokens)) with (Some (positioned first)). cbn [unwrap mbind outcome_bind].
  set (offset (e : N * bytes) := (e.1 - first.(Token.position), Term.from_field_text field.(EngineField.field) e.2)).
  eapply (coded_bind _ _ (λ offsets, offsets = offset <$> ((λ t, positioned t) <$> first :: tokens))).
  - eapply coded_weaken; [apply (coded_mapO _ (λ e b, b = offset e))|].
    + apply Forall_fmap, Forall_forall. intros t Ht. pose proof (positions_from _ _ _ Hs Ht) as Hle. cbn [compose fst snd]. unfold usize_sub, checked_sub.
      assert ((first.(Token.position) <=? t.(Token.position)) = true) as -> by by apply N.leb_le. done.
    + intros bs Hbs. induction Hbs as [|e b l bs -> _ IH]; [done|]. rewrite fmap_cons. by rewrite IH.
  - intros offsets ->. split; [apply boosted_leaves|]. intros doc. rewrite boosted_matches, <- list_fmap_compose. cbn [matches].
    set (terms := (offset ∘ (λ t, positioned t)) <$> (first :: tokens)). unfold has_phrase, phrase_in.
    assert (terms = (offset (positioned first)) :: ((offset ∘ (λ t, positioned t)) <$> tokens)) as Et by done. rewrite Et at 1.
    unfold offset at 1. cbn [fst snd Term.from_field_text Term.field]. rewrite N.sub_diag. apply existsb_same; [done|]. intros e _.
    assert ((0 <=? e.1) = true) as -> by (apply N.leb_le; lia). rewrite andb_true_l. unfold terms. rewrite forallb_fmap. apply forallb_same; [done|]. intros t _.
    unfold offset. cbn. by rewrite N.sub_0_r.
Qed.
Lemma phrase_in_single first field doc : phrase_in first [] field doc = has_token doc field.(EngineField.field) first.(Token.text).
Proof.
  unfold phrase_in, has_token. apply eq_true_iff_eq. rewrite !existsb_true. setoid_rewrite bool_decide_eq_true. cbn [forallb]. setoid_rewrite andb_true_r.
  rewrite N.sub_diag. unfold has_at. setoid_rewrite bool_decide_eq_true. setoid_rewrite N.add_0_r. split.
  - intros (e & _ & He). by eexists.
  - intros ([p s] & He & E). cbn in E. subst s. by exists (p, first.(Token.text)).
Qed.
Lemma budget_phrase terms fields Q : (∀ u, Q u) → Builds (QueryConstructionBudget.phrase terms fields) Q.
Proof. intros HQ s. unfold QueryConstructionBudget.phrase. case_if; [apply coded_invalid|]. apply HQ. Qed.
Lemma budget_fuzzy terms fields distance Q : (∀ u, Q u) → Builds (QueryConstructionBudget.fuzzy terms fields distance) Q.
Proof. intros HQ s. unfold QueryConstructionBudget.fuzzy. case_if; [apply HQ|]. case_if; [apply coded_invalid|]. apply HQ. Qed.
Lemma phrase_query_means text fields : Builds (phrase_query self text fields) (built_means (λ doc, phrase_asked fields doc (self.(Engine.analyzer) text))).
Proof using All.
  unfold phrase_query. apply Builds_if; intros _; [apply Builds_lift, coded_invalid|].
  eapply Builds_bind; [apply Builds_lift, coded_tame, analyze_positioned_tame|]. intros terms Ha. apply analyze_positioned_Ok in Ha as ->.
  pose proof (positions_increase _ Hanalyzer text) as Hs. destruct (Engine.analyzer self text) as [|first tokens] eqn:Et.
  { apply Builds_ret. split; [cbn; lia|]. split; [done|]. done. }
  cbn [fmap list_fmap]. cbv iota. change (positioned first :: list_fmap _ _ (λ t, positioned t) tokens) with ((λ t, positioned t) <$> first :: tokens).
  eapply Builds_bind; [apply Builds_lift, clause_count_coded|]. intros _ [_ Hle].
  eapply Builds_bind; [by apply (budget_phrase _ _ (λ _, True))|]. intros _ _. apply Builds_if; intros En.
  - apply bool_decide_eq_true in En. apply Builds_ret. split; [cbn; lia|]. split; [cbn [fst snd]; rewrite group_leaves; lia|]. intros doc _.
    cbn [fst snd]. rewrite group_matches. unfold somewhere, phrase_asked. apply existsb_same; [done|]. intros field _.
    destruct tokens; [|by rewrite fmap_cons in En]. symmetry. apply (phrase_in_single first field doc).
  - eapply (Builds_bind _ _ (Forall2 (λ field c, c.1 = Occur.Should ∧ leaves c.2 = 1 ∧ ∀ doc, matches c.2 doc = phrase_in first tokens field doc) fields)).
    + apply Builds_lift, coded_mapO, Forall_forall. intros field _. eapply coded_bind; [by apply phrase_of_means|]. intros q [Hl Hq]. done.
    + intros alternatives Hc. apply Builds_ret. split; [cbn; lia|]. cbn [fst snd leaves matches]. split.
      * assert (sum ((λ c : Occur.t * Query.t, let '(_, q) := c in leaves q) <$> alternatives) = lenN fields) as ->; [|lia].
        clear -Hc. induction Hc as [|f [o q] l k (_ & Hl & _) _ IH]; [done|]. rewrite fmap_cons, sum_cons, lenN_cons, IH. cbn in Hl. by rewrite Hl.
      * intros doc _. unfold phrase_asked. rewrite all_optional.
        -- eapply existsb_Forall2; [exact Hc|]. intros field c (_ & _ & Hq). exact (Hq doc).
        -- clear -Hc. induction Hc as [|f c l k (Ho & _) _ IH]; constructor; done.
Qed.

(** *** Fuzzy terms *)
(** The clauses of children in order, all optional. *)
Lemma optional_children_match {A} (R : A → Occur.t * Query.t → Prop) (a : A → bool) doc l clauses :
  Forall2 R l clauses → (∀ x c, R x c → c.1 = Occur.Should ∧ matches c.2 doc = a x) → matches (BooleanQuery clauses) doc = existsb a l.
Proof.
  intros Hc HR. cbn [matches]. rewrite all_optional.
  - eapply existsb_Forall2; [exact Hc|]. intros x c Hx. apply (HR _ _ Hx).
  - induction Hc as [|x c l k Hx _ IH]; constructor; [apply (HR _ _ Hx)|exact IH].
Qed.
Lemma clauses_leaves {A} (R : A → Occur.t * Query.t → Prop) n (l : list A) clauses :
  Forall2 R l clauses → (∀ x c, R x c → leaves c.2 <= n) → leaves (BooleanQuery clauses) <= lenN l * n.
Proof.
  intros Hc HR. cbn [leaves]. induction Hc as [|x [o q] l k Hx _ IH]; [done|]. rewrite fmap_cons, sum_cons, lenN_cons. specialize (HR _ _ Hx). cbn in HR. lia.
Qed.
Definition query_field (prefix : bool) (field : EngineField.t) : option N := if prefix then field.(EngineField.surface_field) else Some field.(EngineField.field).
Definition near_in (doc : Doc.t) (term : bytes) (prefix : bool) (options : QueryOptions.t) (field : EngineField.t) : bool :=
  match query_field prefix field with
  | Some f => existsb (λ e : N * bytes, automaton_accepts f term options prefix e.2) (doc.(Doc.tokens) f)
  | None => false
  end.
Lemma fuzzy_alternative_means term prefix options field :
  coded (fuzzy_alternative term prefix options field) (λ q, leaves q = 1 ∧ ∀ doc, matches q doc = near_in doc term prefix options field).
Proof.
  unfold fuzzy_alternative. eapply (coded_bind _ _ (λ f, query_field prefix field = Some f)).
  - unfold query_field. destruct prefix; [|done]. destruct (EngineField.surface_field field); [done|apply coded_invalid].
  - intros f Hf. split; [done|]. intros doc. unfold near_in. rewrite Hf. by destruct options.
Qed.
Lemma fuzzy_group_means term fields prefix options :
  coded (fuzzy_group term fields prefix options) (λ q, leaves q = lenN fields ∧ ∀ doc, matches q doc = existsb (near_in doc term prefix options) fields).
Proof.
  unfold fuzzy_group. eapply coded_bind; [apply coded_mapO, Forall_forall; intros field _; apply fuzzy_alternative_means|].
  intros qs Hqs. cbn [coded leaves matches]. split.
  - induction Hqs as [|f q l k [Hl _] _ IH]; [done|]. rewrite fmap_cons, sum_cons, lenN_cons, IH, Hl. done.
  - intros doc. eapply existsb_Forall2; [exact Hqs|]. intros field q [_ Hq]. exact (Hq doc).
Qed.
Lemma with_fuzzy_means exact term fields prefix options :
  coded (with_fuzzy exact term fields prefix options) (λ q, leaves q <= 2 * leaves exact + lenN fields
    ∧ ∀ doc, matches q doc = matches exact doc || (negb (options.(QueryOptions.fuzzy_distance) =? 0) && existsb (near_in doc term prefix options) fields)).
Proof.
  unfold with_fuzzy. destruct (QueryOptions.fuzzy_distance options =? 0); cbn [negb].
  - split; [rewrite exact_branch_leaves; lia|]. intros doc. by rewrite exact_branch_matches, orb_false_r.
  - eapply coded_bind; [apply fuzzy_group_means|]. intros fuzzy [Hl Hm]. split.
    + cbn [leaves fmap list_fmap]. rewrite !sum_cons, exact_branch_leaves, Hl. cbn. lia.
    + intros doc. cbn [matches existsb]. rewrite exact_branch_matches, Hm. by rewrite orb_false_r.
Qed.
Lemma fuzzy_clause_means fields options pair : coded (fuzzy_clause fields options pair)
  (λ c, c.1 = Occur.Should ∧ leaves c.2 <= lenN fields * 3 ∧ ∀ doc, matches c.2 doc = fuzzy_asked fields doc options pair).
Proof.
  destruct pair as [analyzed surface]. unfold fuzzy_clause, fuzzy_asked. cbn [fst snd]. destruct (fuzzy_eligible surface); cbn [negb].
  - eapply coded_bind; [apply with_fuzzy_means|]. intros q [Hl Hm]. split; [done|]. split; [rewrite group_leaves in Hl; cbn [snd]; lia|].
    intros doc. cbn [snd]. rewrite Hm, group_matches. unfold somewhere. rewrite <- existsb_andb, <- existsb_orb. apply existsb_same; [done|]. intros field _.
    rewrite accepted_cases. by rewrite andb_false_l, orb_false_r.
  - split; [done|]. cbn [snd]. split; [rewrite group_leaves; lia|]. intros doc. apply group_matches.
Qed.
Lemma fuzzy_query_means text fields options : Builds (fuzzy_query self text fields options) (built_means (λ doc, existsb (fuzzy_asked fields doc options) (asked_pairs self text))).
Proof using Hmax.
  unfold fuzzy_query. eapply Builds_bind; [apply Builds_lift, coded_tame|].
  { unfold fuzzy_pairs. apply tame_bind; [apply analyze_tame|]. intros surfaces _. apply foldO_tame. intros. apply tame_bind; [apply analyze_tame|done]. }
  intros pairs Hp. pose proof (fuzzy_pairs_elem _ _ _ Hp) as Helem. apply Builds_if; intros En.
  { apply bool_decide_eq_true in En as ->. apply Builds_ret. split; [cbn; lia|]. split; [done|]. intros doc _. by rewrite <- (existsb_same (fuzzy_asked fields doc options) _ [] _ Helem). }
  apply Builds_if; intros _; [apply Builds_lift, coded_invalid|].
  eapply Builds_bind; [apply Builds_lift, clause_count_coded|]. intros _ [Ec Hle].
  eapply Builds_bind; [by apply (budget_fuzzy _ _ _ (λ _, True))|]. intros _ _.
  eapply (Builds_bind _ _ (λ _, True)).
  { apply Builds_lift. unfold usize_sub, checked_sub. destruct (N.leb_spec (lenN (filter (λ '(_, term), fuzzy_eligible term) pairs)) (lenN pairs)) as [|Hgt]; [done|].
    exfalso. unfold lenN in Hgt. pose proof (length_filter (λ '(_, term), fuzzy_eligible term) pairs). lia. }
  intros stable _. eapply Builds_bind; [apply Builds_lift, coded_mapO, Forall_forall; intros pair _; apply fuzzy_clause_means|].
  intros clauses Hc. apply Builds_ret. split; [cbn [fst snd]; lia|]. cbn [fst snd]. split.
  - assert (1 <= lenN pairs) as Hn by (apply bool_decide_eq_false in En; destruct pairs; [done|rewrite lenN_cons; lia]).
    etrans; [apply (clauses_leaves _ (lenN fields * 3) _ _ Hc)|]; [by intros pair c (_ & Hl & _)|].
    rewrite Ec. assert (saturating_mul (lenN fields) 3 = lenN fields * 3) as ->; [|lia].
    apply (saturating_mul_exact _ _ (Engine.max_query_clauses self)); [|done]. nia.
  - intros doc _. rewrite (optional_children_match _ (fuzzy_asked fields doc options) doc _ _ Hc).
    + apply existsb_same; [|done]. intros x. apply Helem.
    + intros pair c (Ho & _ & Hm). by split.
Qed.

(** *** Prefixes *)
Definition starts_in (doc : Doc.t) (prefix : bytes) (field : EngineField.t) : bool :=
  match field.(EngineField.surface_field) with
  | Some f => existsb (λ e : N * bytes, starts_with e.2 prefix) (doc.(Doc.tokens) f)
  | None => false
  end.
Lemma expand_terms_means alternatives remaining terms stream :
  coded (foldO (expand_term self alternatives remaining) terms stream) (λ T, ∀ s, s ∈ T ↔ s ∈ terms ∨ s ∈ stream).
Proof.
  apply (coded_foldO _ (λ done T, ∀ s, s ∈ T ↔ s ∈ terms ∨ s ∈ done)).
  - intros s. split; [auto|]. by intros [?|?%not_elem_of_nil].
  - intros seen term todo T _ HT'. unfold expand_term. case_if; [apply coded_broad|]. case_if; [apply coded_broad|].
    intros s. rewrite elem_of_union, elem_of_singleton, HT', elem_of_app, list_elem_of_singleton. tauto.
Qed.
(** The terms of a field so far: they start with the prefix, and no token of a
    document that does is missing. *)
Definition expanded (prefix : bytes) (f : N) (segs : list Seg) (terms : gset bytes) : Prop :=
  (∀ s, s ∈ terms → prefix `prefix_of` s)
  ∧ ∀ seg doc e, seg ∈ segs → doc ∈ documents seg → e ∈ doc.(Doc.tokens) f → prefix `prefix_of` e.2 → e.2 ∈ terms.
Lemma expand_segments_means prefix f alternatives remaining :
  coded (foldO (expand_segment self prefix f alternatives remaining) ∅ segment_readers) (expanded prefix f segment_readers).
Proof using HT.
  apply (coded_foldO _ (expanded prefix f)).
  - split; [by intros s ?%elem_of_empty|]. by intros seg doc e ?%not_elem_of_nil.
  - intros seen seg todo terms _ [Hp Hall]. unfold expand_segment.
    eapply (coded_bind _ _ (λ stream, Forall (λ s, prefix `prefix_of` s) stream ∧ ∀ doc e, doc ∈ documents seg → e ∈ doc.(Doc.tokens) f → prefix `prefix_of` e.2 → e.2 ∈ stream)).
    + pose proof (term_range_ok seg f prefix (prefix_end prefix)) as Hr. destruct (term_range seg f prefix (prefix_end prefix)) as [stream|e| |]; [|by left|done..].
      destruct Hr as [Hin Hout]. split.
      * eapply Forall_impl; [exact Hin|]. intros s Hs. by apply prefix_end_range.
      * intros doc e Hd He Hs. apply prefix_end_range in Hs as [Hle Hlt]. by apply (Hout doc).
    + intros stream [Hin Hout]. eapply coded_weaken; [apply expand_terms_means|]. intros T HT'. split.
      * intros s [?|Hs]%HT'; [by apply Hp|]. rewrite Forall_forall in Hin. by apply Hin.
      * intros seg' doc e [Hseg|Hseg%list_elem_of_singleton]%elem_of_app Hd He Hs; apply HT'; [left; by apply (Hall seg' doc)|right; subst seg'; by apply (Hout doc)].
Qed.
Definition alternatives_mean (prefix : bytes) (fields : list EngineField.t) (alternatives : list Query.t) : Prop :=
  Forall (λ q, leaves q = 1) alternatives
  ∧ ∀ doc, searchable (Seg := Seg) doc → existsb (λ q, matches q doc) alternatives = existsb (starts_in doc prefix) fields.
Lemma expand_field_means prefix remaining fields alternatives field : alternatives_mean prefix fields alternatives →
  coded (expand_field self prefix remaining alternatives field) (alternatives_mean prefix (fields ++ [field])).
Proof using HT.
  intros [Hl Hm]. unfold expand_field.
  eapply (coded_bind _ _ (λ f, field.(EngineField.surface_field) = Some f)); [destruct (EngineField.surface_field field); [done|apply coded_invalid]|].
  intros f Hf. eapply coded_bind; [apply expand_segments_means|]. intros terms [Hp Hall]. cbn [coded]. split.
  - apply Forall_app. split; [exact Hl|]. apply Forall_fmap, Forall_forall. intros term _. apply boosted_leaves.
  - intros doc Hd. rewrite !existsb_app, Hm by done. f_equal. cbn [existsb]. rewrite orb_false_r, existsb_fmap. unfold starts_in. rewrite Hf.
    apply eq_true_iff_eq. rewrite !existsb_true. setoid_rewrite boosted_matches. cbn [matches]. setoid_rewrite starts_with_iff. split.
    + intros (term & Hin & Ht). rewrite merge_sort_Permutation in Hin. apply elem_of_elements, Hp in Hin. unfold has_term in Ht. cbn in Ht.
      apply existsb_true in Ht as (e & He & E%bool_decide_eq_true). exists e. by rewrite E.
    + intros (e & He & Hs). exists e.2. rewrite merge_sort_Permutation, elem_of_elements. destruct Hd as (seg & Hseg & Hdoc). split; [by eapply Hall|].
      unfold has_term. cbn. apply existsb_true. exists e. split; [done|]. by apply bool_decide_eq_true.
Qed.
Lemma expanded_group_means prefix fields remaining : coded (expanded_prefix_group self prefix fields remaining)
  (λ r, leaves r.1 = r.2 ∧ ∀ doc, searchable (Seg := Seg) doc → matches r.1 doc = existsb (starts_in doc prefix) fields).
Proof using HT.
  unfold expanded_prefix_group. eapply (coded_bind _ _ (alternatives_mean prefix fields)).
  - apply (coded_foldO _ (alternatives_mean prefix)); [by split|]. intros seen field todo alternatives _ Ha. by apply expand_field_means.
  - intros alternatives [Hl Hm]. case_bool_decide as En; [subst alternatives; split; [done|]; intros doc Hd; by rewrite <- Hm|].
    split; [|exact Hm]. cbn [fst snd leaves]. clear En Hm. induction Hl as [|q l Hq _ IH]; [done|]. rewrite fmap_cons, sum_cons, lenN_cons, IH, Hq. done.
Qed.
Lemma starts_with_itself text : starts_with text text = true.
Proof. by apply starts_with_iff. Qed.
(** What a prefix matcher accepts: what starts with the prefix, and what is near it. *)
Lemma accepted_prefix doc prefix f options : accepted doc (FuzzyMatcher.mk prefix f options true)
  = existsb (λ e : N * bytes, starts_with e.2 prefix) (doc.(Doc.tokens) f)
    || (negb (options.(QueryOptions.fuzzy_distance) =? 0) && existsb (λ e : N * bytes, automaton_accepts f prefix options true e.2) (doc.(Doc.tokens) f)).
Proof.
  rewrite accepted_cases. f_equal. rewrite andb_true_l. unfold has_token. rewrite <- existsb_orb. apply existsb_same; [done|]. intros e _.
  case_bool_decide as E; [|done]. by rewrite E, starts_with_itself.
Qed.
Lemma prefix_final_means exact prefix fields fuzzy options n :
  leaves exact = n → (∀ doc, searchable (Seg := Seg) doc → matches exact doc = existsb (starts_in doc prefix) fields) →
  coded (prefix_final exact prefix fields fuzzy options) (λ q, leaves q <= 2 * n + (if fuzzy && fuzzy_eligible prefix then lenN fields else 0)
    ∧ ∀ doc, searchable (Seg := Seg) doc → matches q doc = prefix_asked fields doc fuzzy options prefix).
Proof.
  intros <- Hm. unfold prefix_final, prefix_asked. destruct (fuzzy && fuzzy_eligible prefix).
  - eapply coded_weaken; [apply with_fuzzy_means|]. intros q [Hl Hq]. split; [exact Hl|]. intros doc Hd. rewrite Hq, Hm by done.
    rewrite <- existsb_andb, <- existsb_orb. apply existsb_same; [done|]. intros field _. unfold starts_in, near_in, query_field.
    destruct (EngineField.surface_field field) as [f|]; [by rewrite accepted_prefix|]. by rewrite andb_false_r.
  - split; [lia|]. intros doc Hd. rewrite Hm by done. apply existsb_same; [done|]. done.
Qed.

Lemma prefix_clauses_means completed prefix fields fuzzy options :
  Builds (prefix_clauses self completed prefix fields fuzzy options)
    (built_means (λ doc, forallb (somewhere fields doc) completed && prefix_asked fields doc fuzzy options prefix)).
Proof using All.
  unfold prefix_clauses. apply Builds_if; intros _; [apply Builds_lift, coded_invalid|]. apply Builds_if; intros Hknown; [apply Builds_lift, coded_broad|].
  apply N.ltb_ge in Hknown. eapply (Builds_bind _ _ (λ _, True)).
  { apply Builds_lift. unfold usize_sub, checked_sub. by rewrite (proj2 (N.leb_le _ _) Hknown). }
  intros remaining _. eapply Builds_bind; [apply Builds_lift, expanded_group_means|]. intros [exact n] [Hl Hm]. cbn [fst snd] in *.
  apply Builds_if; intros Hle; [apply Builds_lift, coded_broad|]. apply N.ltb_ge in Hle.
  eapply Builds_bind; [by apply (budget_fuzzy _ _ _ (λ _, True))|]. intros _ _.
  eapply Builds_bind; [by apply Builds_lift, prefix_final_means|]. intros final [Hfl Hfm].
  set (k := if fuzzy && fuzzy_eligible prefix then lenN fields else 0) in *.
  assert (saturating_mul (lenN completed) (lenN fields) = lenN completed * lenN fields) as Ec.
  { apply (saturating_mul_exact _ _ (Engine.max_query_clauses self)); [|done]. unfold saturating_add in Hknown. unfold saturating_mul in *. lia. }
  rewrite Ec in *. unfold saturating_add in Hle.
  assert (lenN completed * lenN fields + n + k <= Engine.max_query_clauses self) as Htotal by lia.
  eapply (Builds_bind _ _ (λ c, c = lenN completed * lenN fields + n)).
  { apply Builds_lift. unfold usize_add. destruct (checked_add_cases (lenN completed * lenN fields) n) as [[-> _]|[_ ?]]; [done|lia]. }
  intros _ ->. eapply (Builds_bind _ _ (λ c, c = lenN completed * lenN fields + n + k)).
  { apply Builds_lift. unfold usize_add. destruct (checked_add_cases (lenN completed * lenN fields + n) k) as [[-> _]|[_ ?]]; [done|lia]. }
  intros _ ->. apply Builds_ret. split; [exact Htotal|]. cbn [fst snd]. split.
  - cbn [leaves]. rewrite fmap_app, sum_app, <- list_fmap_compose, (sum_constant _ (lenN fields)) by (intros; apply group_leaves).
    cbn [fmap list_fmap]. rewrite sum_cons. cbn. lia.
  - intros doc Hd. cbn [matches]. rewrite all_required.
    + rewrite forallb_app, forallb_fmap. cbn [forallb snd]. rewrite andb_true_r, Hfm by done. f_equal. apply forallb_same; [done|]. intros t _. apply group_matches.
    + by destruct completed.
    + apply Forall_app. split; [apply Forall_fmap, Forall_forall; done|by constructor].
Qed.
Context (final_analyzer : bytes → list Token.t).
Lemma prefix_query_means text fields fuzzy options :
  Builds (prefix_query final_analyzer self text fields fuzzy options) (built_means (λ doc, prefix_mode final_analyzer self fields doc fuzzy options text)).
Proof using All.
  unfold prefix_query. eapply Builds_bind; [apply Builds_lift, coded_tame, require_surface_fields_tame|]. intros _ _. unfold prefix_mode, ends_in_space.
  destruct (match last (chars text) with Some c => is_whitespace c | None => false end).
  { apply Builds_lift. by apply (term_query_means text fields Occur.Must). }
  eapply Builds_bind; [apply Builds_lift, coded_tame, final_surface_term_tame|]. intros [completed prefix] Hf. unfold final_surface_term in Hf.
  match type of Hf with (if ?b then _ else _) = _ => destruct b; [done|] end.
  apply bind_Ok in Hf as (c & Hc & [= -> <-]). destruct (last (final_analyzer text)) as [final|]; cbn [fmap option_fmap option_map] in *.
  - apply bind_Ok in Hc as (terms & Ha & [= <-]). apply analyze_positioned_Ok in Ha as ->.
    intros s. eapply coded_weaken; [apply prefix_clauses_means|]. intros [b s'] (H1 & H2 & H3). split; [done|]. split; [done|]. intros doc Hd.
    rewrite H3 by done. f_equal. rewrite <- (forallb_fmap Token.text (somewhere fields doc)). apply forallb_same; [|done]. intros x.
    rewrite completed_elem, list_elem_of_fmap. setoid_rewrite list_elem_of_fmap. setoid_rewrite list_elem_of_filter. split.
    + intros (p & (t & [= -> ->] & Ht) & Hlt). by exists t.
    + intros (t & -> & Hlt & Ht). exists t.(Token.position). split; [|done]. by exists t.
  - injection Hc as <-. apply Builds_ret. by apply empty_means.
Qed.
Lemma clause_query_means clause : Builds (clause_query final_analyzer self clause)
  (λ b, means b.(BuiltQuery.query) b.(BuiltQuery.clauses) (λ doc, clause_asked final_analyzer self doc clause)).
Proof using All.
  unfold clause_query. eapply Builds_bind; [by apply Builds_lift, coded_tame, selected_fields_tame|]. intros fields Hf. cbv zeta.
  eapply (Builds_bind _ _ (built_means (λ doc, mode_asked final_analyzer self fields doc clause))).
  - unfold mode_asked. destruct (SearchClause.mode clause).
    + apply Builds_lift. by apply (term_query_means _ fields Occur.Should).
    + apply Builds_lift. by apply (term_query_means _ fields Occur.Must).
    + apply phrase_query_means.
    + apply prefix_query_means.
    + apply fuzzy_query_means.
    + apply prefix_query_means.
  - intros [[q n] b] Hb. apply Builds_ret. destruct Hb as (H1 & H2 & H3). split; [done|]. split; [done|]. intros doc Hd. unfold clause_asked. rewrite Hf. by apply H3.
Qed.
End Modes.
