(* ===== verification/Selected.v ===== *)
(** * The query of a request selects what the request asks for

    Expressions, candidates and filters on top of the queries of clauses, and the
    query of a whole request. *)
From S2P Require Import Prelude.
From S2P Require Import Errors.
From S2P Require Import Bytes.
From S2P Require Import Wire.
From S2P Require Import Request.
From S2P Require Import Structure.
From S2P Require Import Admission.
From S2P Require Import Text.
From S2P Require Import Spans.
From S2P Require Import Analysis.
From S2P Require Import Plan.
From S2P Require Import Failures.
From S2P Require Import Hits.
From S2P Require Import Merging.
From S2P Require Import Query.
From S2P Require Import Doubles.
From S2P Require Import Selecting.
From S2P Require Import Clauses.
Import Query.
Local Open Scope N_scope.

(** ** Expressions *)
Section Expressions.
Context `{Unicode} `{Automata} (self : Engine.t).
Context {Seg : Type} `{!Searcher Seg} `{!Terms Seg} `{!Documents Seg} (HT : TermsLaws Seg).
Hypothesis Hanalyzer : analyzer_ok self.(Engine.analyzer).
Hypothesis Hlookup : lookup_ok self.
Context (final_analyzer : bytes → list Token.t).

Abbreviation expression_asked := (λ e doc, asked final_analyzer self doc e).
Definition query_means (a : Doc.t → bool) (b : BuiltQuery.t) : Prop := means self (Seg := Seg) b.(BuiltQuery.query) b.(BuiltQuery.clauses) a.
Definition child_means (occur : Occur.t) (child : SearchExpression.t) (c : Occur.t * Query.t) : Prop :=
  c.1 = occur ∧ ∀ doc, searchable (Seg := Seg) doc → matches c.2 doc = expression_asked child doc.

Section Bounded.
Hypothesis Hmax : self.(Engine.max_query_clauses) < USIZE_MAX.
Lemma children_means inner occur n init children :
  Forall (λ child, Builds (inner child) (query_means (expression_asked child))) children → leaves (BooleanQuery init) <= 2 * n →
  Builds (foldM (push_child self inner occur) (n, init) children)
    (λ r, (r.1 <= self.(Engine.max_query_clauses) ∨ children = [] ∧ r.1 = n) ∧ leaves (BooleanQuery r.2) <= 2 * r.1
      ∧ ∃ rest, r.2 = init ++ rest ∧ Forall2 (child_means occur) children rest).
Proof using Hmax.
  intros Hc Hn. apply (Builds_foldM _ (λ seen r, (r.1 <= self.(Engine.max_query_clauses) ∨ seen = [] ∧ r.1 = n) ∧ leaves (BooleanQuery r.2) <= 2 * r.1
      ∧ ∃ rest, r.2 = init ++ rest ∧ Forall2 (child_means occur) seen rest)).
  - split; [by right|]. split; [done|]. exists []. by rewrite app_nil_r.
  - intros seen child todo [clauses queries] El (_ & Hl & rest & Er & Hrest). cbn [fst snd] in *. unfold push_child.
    rewrite Forall_forall in Hc. eapply Builds_bind; [apply Hc; rewrite El; apply elem_of_app; right; apply elem_of_cons; by left|].
    intros b (Hb & Hbl & Hbm). eapply Builds_bind; [by apply Builds_lift, total_count_coded|]. intros _ [Ht ->].
    eapply (Builds_bind _ _ (λ c, c = clauses + b.(BuiltQuery.clauses))); [by apply Builds_lift|]. intros _ ->. apply Builds_ret. cbn [fst snd].
    split; [by left|]. split.
    + cbn [leaves] in *. rewrite fmap_app, sum_app. cbn [fmap list_fmap]. rewrite sum_cons. cbn. lia.
    + exists (rest ++ [(occur, b.(BuiltQuery.query))]). split; [by rewrite Er, app_assoc|]. apply Forall2_app; [exact Hrest|]. apply Forall2_cons_2; [by split|constructor].
Qed.
Lemma children_occur occur children clauses : Forall2 (child_means occur) children clauses → Forall (λ c, c.1 = occur) clauses.
Proof. intros Hc. induction Hc as [|child c l k [Ho _] _ IH]; by constructor. Qed.
Lemma boolean_query_means inner occur children : children ≠ [] → occur ≠ Occur.MustNot →
  Forall (λ child, Builds (inner child) (query_means (expression_asked child))) children →
  Builds (boolean_query self inner children occur)
    (query_means (λ doc, if bool_decide (occur = Occur.Must) then forallb (λ child, expression_asked child doc) children else existsb (λ child, expression_asked child doc) children)).
Proof using Hmax.
  intros Hn Hocc Hc. unfold boolean_query. eapply Builds_bind; [apply (children_means inner occur (lenN children) []); [exact Hc|cbn; lia]|].
  intros [clauses queries] (Hmx & Hl & rest & E & Hrest). cbn [fst snd app] in *. subst queries. apply Builds_ret.
  split; [cbn; by destruct Hmx as [|[? _]]|]. split; [exact Hl|]. intros doc Hd. cbn [BuiltQuery.query matches].
  pose proof (children_occur _ _ _ Hrest) as Ho. destruct (bool_decide_reflect (occur = Occur.Must)) as [->|Hs].
  - rewrite all_required; [|intros ->; apply Forall2_nil_inv_r in Hrest; done|done].
    eapply forallb_Forall2; [exact Hrest|]. intros child c [_ Hm]. by apply Hm.
  - destruct occur; [|done|done]. rewrite all_optional by done. eapply existsb_Forall2; [exact Hrest|]. intros child c [_ Hm]. by apply Hm.
Qed.
Lemma expression_means fields e : well_shaped fields e → Builds (expression_query_inner final_analyzer self e) (query_means (expression_asked e)).
Proof using All.
  induction e as [c|ch IH|ch IH|child IH|boost child IH|required optional IHr IHo] using SearchExpression.ind; cbn [well_shaped expression_query_inner].
  - intros _. by apply clause_query_means.
  - intros [Hn Hw]. rewrite foldr_and_Forall in Hw. apply (boolean_query_means _ Occur.Must); [by intros ->|done|].
    clear Hn. induction Hw as [|child ch Hc _ IHw]; [constructor|]. apply Forall_cons in IH as [IH1 IH2]. constructor; auto.
  - intros [Hn Hw]. rewrite foldr_and_Forall in Hw. apply (boolean_query_means _ Occur.Should); [by intros ->|done|].
    clear Hn. induction Hw as [|child ch Hc _ IHw]; [constructor|]. apply Forall_cons in IH as [IH1 IH2]. constructor; auto.
  - intros Hw. eapply Builds_bind; [by apply IH|]. intros b (Hb & Hbl & Hbm). eapply Builds_bind; [by apply Builds_lift, total_count_coded|]. intros _ [Ht ->].
    eapply (Builds_bind _ _ (λ c, c = b.(BuiltQuery.clauses) + 2)); [by apply Builds_lift|]. intros _ ->. apply Builds_ret. split; [exact Ht|]. split.
    + cbn [BuiltQuery.query BuiltQuery.clauses leaves fmap list_fmap]. rewrite !sum_cons. cbn. lia.
    + intros doc Hd. cbn [BuiltQuery.query matches]. rewrite all_but by done. cbn [asked]. by rewrite Hbm.
  - intros [_ Hw]. eapply Builds_bind; [by apply IH|]. intros b (Hb & Hbl & Hbm). eapply Builds_bind; [by apply Builds_lift, total_count_coded|]. intros _ [Ht ->].
    eapply (Builds_bind _ _ (λ c, c = b.(BuiltQuery.clauses) + 1)); [by apply Builds_lift|]. intros _ ->. apply Builds_ret. split; [exact Ht|]. split.
    + cbn [BuiltQuery.query BuiltQuery.clauses]. rewrite boosted_leaves. lia.
    + intros doc Hd. cbn [BuiltQuery.query]. rewrite boosted_matches. cbn [asked]. by apply Hbm.
  - intros (_ & Hwr & Hwo). rewrite foldr_and_Forall in Hwo. eapply Builds_bind; [by apply IHr|]. intros b (Hb & Hbl & Hbm).
    eapply Builds_bind; [by apply Builds_lift, total_count_coded|]. intros _ [Ht ->].
    eapply (Builds_bind _ _ (λ c, c = lenN optional + 1 + b.(BuiltQuery.clauses))); [by apply Builds_lift|]. intros _ ->.
    eapply Builds_bind; [apply children_means|].
    + clear Ht. induction Hwo as [|child ch Hc _ IHw]; [constructor|]. apply Forall_cons in IHo as [IH1 IH2]. constructor; auto.
    + cbn [leaves fmap list_fmap]. rewrite sum_cons. cbn. lia.
    + intros [clauses queries] (Hmx & Hl & rest & E & Hrest). cbn [fst snd] in *. subst queries. apply Builds_ret.
      split; [cbn; destruct Hmx as [|[_ ->]]; lia|]. split; [exact Hl|]. intros doc Hd. cbn [BuiltQuery.query matches app].
      rewrite required_first by by eapply children_occur. cbn [asked]. by apply Hbm.
Qed.
End Bounded.
Lemma structure_limit e : structure_ok e self.(Engine.max_query_clauses) (lenN self.(Engine.fields)) → self.(Engine.max_query_clauses) < USIZE_MAX.
Proof. intros ([_ Hc] & _). assert (MAX_CONFIGURED_QUERY_CLAUSES < USIZE_MAX) by by vm_compute. lia. Qed.
End Expressions.

(** ** The expression of a request *)
Section Requests.
Context `{Unicode} `{Automata} (self : Engine.t).
Context {Seg : Type} `{!Searcher Seg} `{!Terms Seg} `{!Documents Seg} (HT : TermsLaws Seg).
Hypothesis Hanalyzer : analyzer_ok self.(Engine.analyzer).
Hypothesis Hlookup : lookup_ok self.
Context (final_analyzer : bytes → list Token.t).
Abbreviation expression_asked := (λ e doc, asked final_analyzer self doc e).
Abbreviation limit := (self.(Engine.max_query_clauses)).

(** Weights do not change what matches. *)
Lemma boosted_somewhere boost fields doc token : somewhere (with_boost boost <$> fields) doc token = somewhere fields doc token.
Proof. unfold somewhere. by rewrite existsb_fmap. Qed.
Lemma boosted_words_asked occur boost fields text doc :
  words_asked self occur (with_boost boost <$> fields) text doc = words_asked self occur fields text doc.
Proof.
  unfold words_asked, all_words. case_bool_decide; [apply existsb_same; [done|]; intros; apply boosted_somewhere|].
  f_equal. apply forallb_same; [done|]. intros. apply boosted_somewhere.
Qed.
Lemma boosted_words_is e boost leaf : boosted_words e = Some (boost, leaf) →
  e = SearchExpression.Boost boost (SearchExpression.Clause leaf) ∧ (leaf.(SearchClause.mode) = SearchMode.Any ∨ leaf.(SearchClause.mode) = SearchMode.All).
Proof.
  destruct e as [|?|?|?|b c|? ?]; try done. destruct c as [l|?|?|?|?|? ?]; try done. cbn. destruct (SearchClause.mode l) eqn:El; try done; intros [= <- <-]; auto.
Qed.
Lemma expression_query_means e : coded (expression_query final_analyzer self e) (query_means self (Seg := Seg) (expression_asked e)).
Proof using All.
  unfold expression_query. eapply coded_bind; [apply coded_tame, validate_search_structure_tame|]. intros [] Hv. apply validate_search_structure_Ok in Hv.
  pose proof (structure_limit _ _ Hv) as Hmax. destruct Hv as (_ & _ & _ & _ & Hw). destruct (boosted_words e) as [[boost leaf]|] eqn:Eb.
  2: { apply Builds_run. by eapply expression_means. }
  apply boosted_words_is in Eb as [-> Hmode]. eapply coded_bind; [by apply coded_tame, selected_fields_tame|]. intros fields Hf.
  set (occur := if bool_decide _ then Occur.Should else Occur.Must).
  eapply coded_bind; [apply (term_query_means (Seg := Seg) self Hmax); by unfold occur; case_bool_decide|]. intros [[q n] stable] (Hn & Hl & Hm). cbn [fst snd] in *.
  eapply coded_bind; [by apply total_count_coded|]. intros _ [Ht ->]. split; [exact Ht|]. split; [cbn; lia|]. intros doc Hd. cbn [BuiltQuery.query].
  rewrite Hm by done. rewrite boosted_words_asked. cbn [asked]. unfold clause_asked, mode_asked, words_asked, occur. rewrite Hf. by destruct Hmode as [-> | ->].
Qed.

(** ** Candidates *)
Lemma candidates_matches q ids doc : matches (with_candidates self q ids) doc = matches q doc && candidate_asked self doc ids.
Proof.
  unfold with_candidates, candidate_asked. destruct ids as [[|id ids]|]; [by rewrite andb_false_r| |by rewrite andb_true_r].
  cbn [matches]. rewrite both_required. cbn [matches]. f_equal. rewrite existsb_fmap. apply existsb_same; [|done]. intros x.
  by rewrite elem_of_elements, elem_of_list_to_set.
Qed.
End Requests.
