(* ===== verification/Filtered.v ===== *)
(** * Filters, and the query of a whole request

    The query of a filter selects the documents the filter asks for; with it, the
    query of a request selects what the request asks for. *)
From Stdlib Require Import Floats.SpecFloat.
From S2P Require Import Prelude.
From S2P Require Import Errors.
From S2P Require Import Bytes.
From S2P Require Import Wire.
From S2P Require Import Request.
From S2P Require Import Structure.
From S2P Require Import Admission.
From S2P Require Import Text.
From S2P Require Import Plan.
From S2P Require Import Failures.
From S2P Require Import Merging.
From S2P Require Import Query.
From S2P Require Import Doubles.
From S2P Require Import Selecting.
From S2P Require Import Clauses.
From S2P Require Import Selected.
Import Query.
Local Open Scope N_scope.

(** The numbers of a filter are 64-bit patterns. *)
Definition value_pattern (value : FilterValue.t) : Prop := match value with FilterValue.Number v => v < 2 ^ 64 | _ => True end.
Fixpoint patterns (expression : FilterExpression.t) : Prop :=
  match expression with
  | FilterExpression.Clause _ _ values => Forall value_pattern values
  | FilterExpression.And ch | FilterExpression.Or ch => foldr and True (patterns <$> ch)
  | FilterExpression.Not child => patterns child
  end.

Section Filters.
Context `{Automata} {Seg : Type} `{!Searcher Seg} `{!Terms Seg} `{!Documents Seg} (HT : TermsLaws Seg).
Context (filter_fields : list EngineFilterField.t) (filter_field_lookup : gmap bytes N).
Hypothesis Hfilters : ∀ name i, filter_field_lookup !! name = Some i → i < lenN filter_fields.

Definition selects (a : Doc.t → bool) (q : Query.t) : Prop := ∀ doc, searchable (Seg := Seg) doc → matches q doc = a doc.
(** ** Values *)
Definition value_term (field : EngineFilterField.t) (value : FilterValue.t) (term : Term.t) : Prop :=
  match value with
  | FilterValue.String s => field.(EngineFilterField.field_type) = FilterFieldType.String ∧ term = Term.from_field_text field.(EngineFilterField.field) s
  | FilterValue.Number v => field.(EngineFilterField.field_type) = FilterFieldType.Number ∧ f64_is_finite v = true
      ∧ term = Term.from_field_f64 field.(EngineFilterField.field) (canonical_number v)
  | FilterValue.Boolean b => field.(EngineFilterField.field_type) = FilterFieldType.Boolean ∧ term = Term.from_field_bool field.(EngineFilterField.field) b
  end.
Lemma filter_term_means field value : coded (filter_term (Seg := Seg) field value) (value_term field value).
Proof.
  unfold filter_term, value_term. destruct (EngineFilterField.field_type field), value as [s|v|b];
    lazymatch goal with |- coded (Err _) _ => apply coded_invalid | _ => idtac end.
  - case_if; [apply coded_invalid|]. by split.
  - unfold validate_filter_number. destruct (f64_is_finite v); [by split_and!|apply coded_invalid].
  - by split.
Qed.
Lemma value_term_matches doc field value term : searchable (Seg := Seg) doc → value_pattern value → value_term field value term →
  has_term doc term = value_asked doc field value.
Proof using HT.
  intros (seg & _ & Hdoc) Hp Ht. destruct value as [s|v|b]; cbn in Hp, Ht.
  - destruct Ht as [_ ->]. done.
  - destruct Ht as (_ & Hf & ->). unfold has_term. cbn. apply eq_true_iff_eq. rewrite bool_decide_eq_true, existsb_true. split.
    + intros Hin. exists (canonical_number v). split; [done|]. rewrite canonical_stored by (try done; by eapply numbers_ok). by apply bool_decide_eq_true.
    + intros (d & Hin & E). rewrite canonical_stored in E by (try done; by eapply numbers_ok). by apply bool_decide_eq_true in E as ->.
  - destruct Ht as [_ ->]. done.
Qed.
Lemma values_match doc field values terms : searchable (Seg := Seg) doc → Forall value_pattern values → Forall2 (value_term field) values terms →
  existsb (has_term doc) terms = existsb (value_asked doc field) values.
Proof using HT.
  intros Hd Hp Ht. induction Ht as [|value term values terms Hv _ IH]; [done|]. apply Forall_cons in Hp as [Hp1 Hp2]. cbn [existsb].
  by rewrite IH, (value_term_matches doc field value term).
Qed.
(** A number field has terms for numbers only. *)
Lemma number_term field value term : field.(EngineFilterField.field_type) = FilterFieldType.Number → value_term field value term →
  ∃ v, value = FilterValue.Number v ∧ term = Term.from_field_f64 field.(EngineFilterField.field) (canonical_number v).
Proof. intros Hn Ht. destruct value as [s|v|b]; cbn in Ht; [destruct Ht; congruence| |destruct Ht; congruence]. destruct Ht as (_ & _ & ->). by exists v. Qed.
Lemma canonical_bounds v w : f64_lt v (canonical_number w) = f64_lt v w ∧ f64_lt (canonical_number w) v = f64_lt w v
  ∧ f64_le v (canonical_number w) = f64_le v w ∧ f64_le (canonical_number w) v = f64_le w v.
Proof. destruct (canonical_compare v w) as [E1 E2]. unfold f64_lt, f64_le, SFltb, SFleb. by rewrite E1, E2. Qed.

(** ** Clauses *)
Lemma present_matches doc field : matches (exists_query (Seg := Seg) field) doc = present (Seg := Seg) doc field.
Proof.
  unfold exists_query, present. case_bool_decide; [|done]. cbn [matches]. rewrite all_optional by repeat constructor. cbn [existsb snd matches]. unfold has_term. cbn.
  destruct (Doc.booleans doc (EngineFilterField.field field)) as [|[] l] eqn:El; [done| |].
  - by rewrite (bool_decide_true (true ∈ true :: l)) by (apply elem_of_cons; by left).
  - rewrite (bool_decide_true (false ∈ false :: l)) by (apply elem_of_cons; by left). by rewrite orb_false_r, orb_true_r.
Qed.
Lemma complement_matches q doc : matches (complement_query q) doc = negb (matches q doc).
Proof. unfold complement_query. cbn [matches]. by rewrite all_but. Qed.
(** What the value counts leave. *)
Definition counted (comparator : FilterComparator.t) (values : list FilterValue.t) : Prop :=
  match comparator with
  | FilterComparator.In => values ≠ []
  | FilterComparator.Between => ∃ a b, values = [a; b]
  | FilterComparator.Exists | FilterComparator.Missing => values = []
  | _ => ∃ a, values = [a]
  end.
Lemma length_one {A} (l : list A) : lenN l = 1 → ∃ a, l = [a].
Proof. destruct l as [|a [|b l]]; [done|by exists a|]. rewrite !lenN_cons. lia. Qed.
Lemma length_two {A} (l : list A) : lenN l = 2 → ∃ a b, l = [a; b].
Proof. destruct l as [|a [|b [|c l]]]; [done|done|by exists a, b|]. rewrite !lenN_cons. lia. Qed.
Lemma counted_values comparator values :
  (bool_decide (values = []) && negb (bool_decide (expected_values comparator = Some 0))) || (MAX_QUERY_CLAUSES <? lenN values)
    || match expected_values comparator with Some count => negb (count =? lenN values) | None => false end = false →
  counted comparator values.
Proof.
  rewrite !orb_false_iff. intros [[Hn _] Hc]. destruct comparator; cbn [expected_values counted] in *; try (apply negb_false_iff, N.eqb_eq in Hc; symmetry in Hc);
    first [exact (length_one _ Hc)|exact (length_two _ Hc)|exact (proj1 (lenN_zero _) Hc)|destruct values; [discriminate Hn|discriminate]].
Qed.
(** A range with one bound; the other is open. *)
Ltac range_of_one Hc Ht bounds :=
  let En := fresh "En" in
  match goal with |- context [bool_decide (EngineFilterField.field_type ?f = ?n)] =>
    destruct (bool_decide_reflect (EngineFilterField.field_type f = n)) as [En|En] end; cbn [negb]; [|apply coded_invalid];
  destruct Hc as [? ->]; apply Forall2_cons_inv_l in Ht as (? & ? & Ht & _ & ->); apply number_term in Ht as (w & -> & ->); [|exact En];
  intros doc Hd; apply existsb_same; [done|]; intros v _; destruct (bounds v w) as (E1 & E2 & E3 & E4);
  first [exact (eq_trans (andb_true_r _) E2)|exact (eq_trans (andb_true_r _) E4)|exact E1|exact E3].
Lemma compare_query_means field comparator values terms : counted comparator values → Forall value_pattern values → Forall2 (value_term field) values terms →
  comparator ≠ FilterComparator.Exists → comparator ≠ FilterComparator.Missing →
  coded (compare_query field comparator terms) (selects (λ doc, comparator_asked (Seg := Seg) doc field comparator values)).
Proof using HT.
  intros Hc Hp Ht He Hm. assert (∀ doc, searchable (Seg := Seg) doc → existsb (has_term doc) terms = existsb (value_asked doc field) values) as Hany.
  { intros doc Hd. by apply values_match. }
  destruct comparator; try done; cbn [counted compare_query] in *.
  - destruct Hc as [a ->]. apply Forall2_cons_inv_l in Ht as (t & ts & _ & Hts & ->). cbn. intros doc Hd. cbn. specialize (Hany doc Hd).
    apply Forall2_nil_inv_l in Hts as ->. cbn in Hany. by rewrite orb_false_r in Hany.
  - destruct (N.eqb_spec (lenN terms) 1) as [E|_].
    + apply length_one in E as [t ->]. cbn. intros doc Hd. cbn. rewrite <- Hany by done. cbn. by rewrite orb_false_r.
    + intros doc Hd. cbn [matches comparator_asked]. by apply Hany.
  - range_of_one Hc Ht canonical_bounds.
  - range_of_one Hc Ht canonical_bounds.
  - range_of_one Hc Ht canonical_bounds.
  - range_of_one Hc Ht canonical_bounds.
  - destruct (bool_decide_reflect (field.(EngineFilterField.field_type) = FilterFieldType.Number)) as [En|En]; cbn [negb]; [|apply coded_invalid].
    destruct Hc as (a & b & ->). apply Forall2_cons_inv_l in Ht as (t & ts & Hv & Hts & ->). apply Forall2_cons_inv_l in Hts as (t2 & ts2 & Hv2 & _ & ->).
    apply number_term in Hv as (w & -> & ->); [|done]. apply number_term in Hv2 as (u & -> & ->); [|done]. intros doc Hd.
    apply existsb_same; [done|]. intros v _. destruct (canonical_bounds v w) as (_ & _ & _ & <-). by destruct (canonical_bounds v u) as (_ & _ & <- & _).
Qed.

Abbreviation build := (filter_query_inner (Seg := Seg) filter_fields filter_field_lookup).
Abbreviation wanted := (filter_asked (Seg := Seg) filter_fields filter_field_lookup).
Lemma filter_clause_means name comparator values : Forall value_pattern values →
  coded (filter_clause filter_fields filter_field_lookup name comparator values)
    (selects (λ doc, wanted doc (FilterExpression.Clause name comparator values))).
Proof using All.
  intros Hp. unfold filter_clause. cbv zeta. match goal with |- coded (if ?b then _ else _) _ => destruct b eqn:Eb end; [apply coded_invalid|].
  apply counted_values in Eb. cbn [filter_asked]. destruct (filter_field_lookup !! name) as [i|] eqn:Ei; [|apply coded_invalid]. cbn [ok_or mbind outcome_bind option_bind].
  specialize (Hfilters _ _ Ei). destruct (lookup_lt_is_Some_2 filter_fields (N.to_nat i)) as [field Hfield]; [unfold lenN in Hfilters; lia|].
  rewrite Hfield. cbn [unwrap]. destruct (decide (comparator = FilterComparator.Exists)) as [->|He]; [intros doc _; apply present_matches|].
  destruct (decide (comparator = FilterComparator.Missing)) as [->|Hm]; [intros doc _; rewrite complement_matches, present_matches; reflexivity|].
  assert (coded (terms ← mapO (filter_term (Seg := Seg) field) values; compare_query field comparator terms)
    (selects (λ doc, comparator_asked (Seg := Seg) doc field comparator values))) as Hc; [|by destruct comparator].
  eapply coded_bind; [apply coded_mapO, Forall_forall; intros value _; apply filter_term_means|]. intros terms Ht. by apply compare_query_means.
Qed.
(** ** Filters *)
Lemma filter_children_means occur (ch : list FilterExpression.t) depth :
  Forall (λ child, Builds (build child depth) (selects (λ doc, wanted doc child))) ch →
  Builds (foldM (λ queries (child : FilterExpression.t), q ← build child depth; mret (queries ++ [(occur, q)])) [] ch)
    (Forall2 (λ child (c : Occur.t * Query.t), c.1 = occur ∧ selects (λ doc, wanted doc child) c.2) ch).
Proof.
  intros Hc. apply (Builds_foldM _ (Forall2 _)); [constructor|]. intros seen child todo queries El Hq. rewrite Forall_forall in Hc.
  eapply Builds_bind; [apply Hc; rewrite El; apply elem_of_app; right; apply elem_of_cons; by left|]. intros q Hs. apply Builds_ret.
  apply Forall2_app; [exact Hq|]. by apply Forall2_cons_2.
Qed.
Lemma patterns_children depth (ch : list FilterExpression.t) :
  Forall (λ c, ∀ depth, patterns c → Builds (build c depth) (selects (λ doc, wanted doc c))) ch →
  foldr and True (patterns <$> ch) →
  Forall (λ c, Builds (build c depth) (selects (λ doc, wanted doc c))) ch.
Proof. rewrite foldr_and_Forall, !Forall_forall. intros IH Hp c Hc. apply IH; [done|]. by apply Hp. Qed.
Lemma filter_means e : ∀ depth, patterns e →
  Builds (build e depth) (selects (λ doc, wanted doc e)).
Proof using All.
  induction e as [f c vs|ch IH|ch IH|child IH] using FilterExpression.ind; intros depth Hp; cbn [patterns filter_query_inner] in *;
    (apply Builds_if; intros _; [apply Builds_fail|]).
  - intros leaves. case_if; [apply coded_invalid|]. by apply Builds_lift, filter_clause_means.
  - apply Builds_if; intros Hn; [apply Builds_fail|]. apply orb_false_iff in Hn as [Hn%bool_decide_eq_false _].
    eapply Builds_bind; [by apply filter_children_means, patterns_children|]. intros queries Hq. apply Builds_ret. intros doc Hd. cbn [matches filter_asked].
    rewrite all_required; [|intros ->; by apply Forall2_nil_inv_r in Hq|clear -Hq; induction Hq as [|x c l k [Ho _] _ IH]; by constructor].
    eapply forallb_Forall2; [exact Hq|]. intros x c [_ Hs]. by apply Hs.
  - apply Builds_if; intros Hn; [apply Builds_fail|]. eapply Builds_bind; [by apply filter_children_means, patterns_children|]. intros queries Hq. apply Builds_ret. intros doc Hd. cbn [matches filter_asked].
    rewrite all_optional; [|clear -Hq; induction Hq as [|x c l k [Ho _] _ IH]; by constructor].
    eapply existsb_Forall2; [exact Hq|]. intros x c [_ Hs]. by apply Hs.
  - eapply Builds_bind; [by apply IH|]. intros q Hq. apply Builds_ret. intros doc Hd. rewrite complement_matches. cbn [filter_asked]. f_equal. by apply Hq.
Qed.
Lemma with_filter_means q a filter : match filter with Some f => patterns f | None => True end → selects a q →
  coded (with_filter filter_fields filter_field_lookup q filter)
    (selects (λ doc, a doc && match filter with Some f => wanted doc f | None => true end)).
Proof using All.
  intros Hp Hq. unfold with_filter. destruct filter as [f|]; [|intros doc Hd; rewrite andb_true_r; by apply Hq].
  eapply coded_bind; [by apply Builds_run, filter_means|]. intros fq Hf doc Hd. cbn [matches]. rewrite both_required. cbn [matches]. by rewrite Hq, Hf.
Qed.
End Filters.
