(* ===== verification/Metrics.v ===== *)
(** * src/src/telemetry.rs: counters

    The counters of an index: admission and outcome of its operations, latency
    histograms, phases, and what is known of its reader.  A [Ticket] follows one
    operation and settles once.  Counters are atomic additions modulo [2^64];
    instants are nanoseconds. *)
From S2P Require Import Prelude.
From S2P Require Import Errors.
From S2P Require Import Bytes.
From S2P Require Import Budget.
Local Open Scope N_scope.

Definition OP_NAMES : list string := ["applyFrame"; "commit"; "publish"; "reload"; "close"; "search"; "expensiveSearch"; "trace"]%string.
Definition U64_MAX : N := 2 ^ 64 - 1.
Definition BOUNDS : list N :=
  [1000; 10000; 50000; 100000; 500000; 1000000; 5000000; 10000000; 50000000; 100000000; 1000000000; U64_MAX].
Definition nanos (duration : N) : N := N.min duration U64_MAX.
(** [fetch_add] and [fetch_sub] *)
Definition add (value amount : N) : N := (value + amount) mod 2 ^ 64.
Definition fetch_sub (value amount : N) : N := (value + (2 ^ 64 - amount mod 2 ^ 64)) mod 2 ^ 64.
(** [Instant::saturating_duration_since] *)
Definition since (later earlier : N) : N := later - earlier.

Module Latency.
Record t := mk { count : N; sum : N; histogram_count : N; histogram_sum : N; buckets : list N }.
Definition default : t := mk 0 0 0 0 (replicate 12 0).
(** The first bound that is not exceeded. *)
Definition bucket (value : N) : nat := match list_find (λ bound, value <= bound) BOUNDS with Some (i, _) => i | None => (length BOUNDS - 1)%nat end.
Definition record (self : t) (duration : N) (enabled : bool) : t :=
  let value := nanos duration in
  let count := add self.(count) 1 in
  let total := add self.(sum) value in
  if enabled
  then mk count total (add self.(histogram_count) 1) (add self.(histogram_sum) value) (alter (λ n, add n 1) (bucket value) self.(buckets))
  else mk count total self.(histogram_count) self.(histogram_sum) self.(buckets).
End Latency.

Module AdmissionCounters.
Record t := mk { attempted : N; accepted : N; rejected : N; request_bytes : N }.
Definition default : t := mk 0 0 0 0.
Definition attempt (self : t) : t := mk (add self.(attempted) 1) self.(accepted) self.(rejected) self.(request_bytes).
Definition accept (bytes : N) (self : t) : t := mk self.(attempted) (add self.(accepted) 1) self.(rejected) (add self.(request_bytes) bytes).
Definition reject (self : t) : t := mk self.(attempted) self.(accepted) (add self.(rejected) 1) self.(request_bytes).
End AdmissionCounters.
Module ActorCounters.
Record t := mk { dispatched : N; succeeded : N; failed : N; queue : Latency.t; execution : Latency.t; errors : list N }.
Definition default : t := mk 0 0 0 Latency.default Latency.default (replicate (length ERROR_CODES + 1) 0).
Definition dispatch (self : t) : t :=
  mk (add self.(dispatched) 1) self.(succeeded) self.(failed) self.(queue) self.(execution) self.(errors).
Definition undispatch (self : t) : t :=
  mk (fetch_sub self.(dispatched) 1) self.(succeeded) self.(failed) self.(queue) self.(execution) self.(errors).
Definition record_queue (duration : N) (enabled : bool) (self : t) : t :=
  mk self.(dispatched) self.(succeeded) self.(failed) (Latency.record self.(queue) duration enabled) self.(execution) self.(errors).
Definition record_execution (duration : N) (enabled : bool) (self : t) : t :=
  mk self.(dispatched) self.(succeeded) self.(failed) self.(queue) (Latency.record self.(execution) duration enabled) self.(errors).
Definition succeed (self : t) : t :=
  mk self.(dispatched) (add self.(succeeded) 1) self.(failed) self.(queue) self.(execution) self.(errors).
Definition fail (self : t) : t :=
  mk self.(dispatched) self.(succeeded) (add self.(failed) 1) self.(queue) self.(execution) self.(errors).
(** The slot of a code, or the last for any other. *)
Definition error_slot (error : string) : nat := match list_find (λ v, v = error) ERROR_CODES with Some (i, _) => i | None => length ERROR_CODES end.
Definition count_error (error : string) (self : t) : t :=
  mk self.(dispatched) self.(succeeded) self.(failed) self.(queue) self.(execution) (alter (λ n, add n 1) (error_slot error) self.(errors)).
End ActorCounters.
Module Operation.
Record t := mk { admission : AdmissionCounters.t; counters : ActorCounters.t; mutations : N }.
Definition default : t := mk AdmissionCounters.default ActorCounters.default 0.
Definition admitted (f : AdmissionCounters.t → AdmissionCounters.t) (self : t) : t := mk (f self.(admission)) self.(counters) self.(mutations).
Definition act (f : ActorCounters.t → ActorCounters.t) (self : t) : t := mk self.(admission) (f self.(counters)) self.(mutations).
Definition mutate (count : N) (self : t) : t := mk self.(admission) self.(counters) (add self.(mutations) count).
End Operation.

(** ** The reader *)
Definition Signature : Type := list (bytes * option N).
Module ReaderStats.
Record t := mk {
  error : option string; available : bool; documents : N; deleted : N; segments : N; generation : N;
  observed : option N; duration : N; signature : Signature;
  bytes : option N; bytes_observed : option N; bytes_signature : option Signature; bytes_pending : bool;
  bytes_error : option string; bytes_duration : N }.
Definition default : t := mk None false 0 0 0 0 None 0 [] None None None false None 0.
End ReaderStats.
Module ReaderValues.
Record t := mk { documents : N; deleted : N; segments : N; generation : N; signature : Signature }.
End ReaderValues.

Module Metrics.
Record t := mk {
  operations : list Operation.t; search_workers : list (list ActorCounters.t);
  histograms : bool; snapshot_bytes : bool; state : N; teardown_started : option N;
  phases : list Latency.t; phase_succeeded : list N; phase_failed : list N; reader : ReaderStats.t }.
Definition set_operations (self : t) (operations : list Operation.t) : t :=
  mk operations self.(search_workers) self.(histograms) self.(snapshot_bytes) self.(state) self.(teardown_started)
     self.(phases) self.(phase_succeeded) self.(phase_failed) self.(reader).
Definition set_workers (self : t) (workers : list (list ActorCounters.t)) : t :=
  mk self.(operations) workers self.(histograms) self.(snapshot_bytes) self.(state) self.(teardown_started)
     self.(phases) self.(phase_succeeded) self.(phase_failed) self.(reader).
Definition set_teardown (self : t) (started : option N) : t :=
  mk self.(operations) self.(search_workers) self.(histograms) self.(snapshot_bytes) self.(state) started
     self.(phases) self.(phase_succeeded) self.(phase_failed) self.(reader).
Definition set_phases (self : t) (phases : list Latency.t) (succeeded failed : list N) : t :=
  mk self.(operations) self.(search_workers) self.(histograms) self.(snapshot_bytes) self.(state) self.(teardown_started)
     phases succeeded failed self.(reader).
Definition set_reader (self : t) (reader : ReaderStats.t) : t :=
  mk self.(operations) self.(search_workers) self.(histograms) self.(snapshot_bytes) self.(state) self.(teardown_started)
     self.(phases) self.(phase_succeeded) self.(phase_failed) reader.
Definition set_flags (self : t) (histograms snapshot_bytes : bool) : t :=
  mk self.(operations) self.(search_workers) histograms snapshot_bytes self.(state) self.(teardown_started)
     self.(phases) self.(phase_succeeded) self.(phase_failed) self.(reader).
End Metrics.

(** ** Recording *)
(** [Metrics::with_search_workers] *)
Definition with_search_workers (workers : N) : Metrics.t :=
  Metrics.mk (replicate 8 Operation.default) (replicate (N.to_nat workers) (replicate 3 ActorCounters.default))
    false false STATE_OPEN None (replicate 3 Latency.default) (replicate 3 0) (replicate 3 0) ReaderStats.default.
(** [self.operations[operation]], which must exist. *)
Definition with_operation (m : Metrics.t) (operation : N) (f : Operation.t → Operation.t) : outcome Metrics.t :=
  op ← unwrap (m.(Metrics.operations) !! N.to_nat operation);
  Ok (Metrics.set_operations m (<[N.to_nat operation := f op]> m.(Metrics.operations))).
Definition attempt (m : Metrics.t) (operation : N) : outcome Metrics.t :=
  with_operation m operation (Operation.admitted AdmissionCounters.attempt).
Definition reject (m : Metrics.t) (operation : N) (error : string) : outcome Metrics.t :=
  with_operation m operation (λ op, Operation.act (ActorCounters.count_error error) (Operation.admitted AdmissionCounters.reject op)).
(** The actor of a ticket: the operation's own, or a worker's. *)
Definition worker_actor (m : Metrics.t) (operation worker : N) : outcome (nat * list ActorCounters.t * ActorCounters.t) :=
  row ← unwrap (m.(Metrics.search_workers) !! N.to_nat worker);
  class ← usize_sub operation 5;
  actor ← unwrap (row !! N.to_nat class);
  Ok (N.to_nat class, row, actor).
Definition with_actor (m : Metrics.t) (operation : N) (worker : option N) (f : ActorCounters.t → ActorCounters.t) : outcome Metrics.t :=
  match worker with
  | None => with_operation m operation (Operation.act f)
  | Some worker =>
      '(class, row, actor) ← worker_actor m operation worker;
      Ok (Metrics.set_workers m (<[N.to_nat worker := <[class := f actor]> row]> m.(Metrics.search_workers)))
  end.

(** *** Tickets *)
Module Ticket.
Record t := mk {
  operation : N; worker : option N; bytes : N; accepted : bool; dispatched : bool; settled : bool;
  enqueued : option N; started : option N; execution : option N }.
(** [Metrics::ticket] *)
Definition new (operation bytes : N) : t := mk operation None bytes false false false None None None.
Definition bind (self : t) (worker : N) : t :=
  mk self.(operation) (Some worker) self.(bytes) self.(accepted) self.(dispatched) self.(settled) self.(enqueued) self.(started) self.(execution).
Definition accept (self : t) (enqueued : N) : t :=
  mk self.(operation) self.(worker) self.(bytes) true self.(dispatched) self.(settled) (Some enqueued) self.(started) self.(execution).
Definition set_dispatched (self : t) : t :=
  mk self.(operation) self.(worker) self.(bytes) self.(accepted) true self.(settled) self.(enqueued) self.(started) self.(execution).
Definition set_started (self : t) (started : N) : t :=
  mk self.(operation) self.(worker) self.(bytes) self.(accepted) self.(dispatched) self.(settled) self.(enqueued) (Some started) self.(execution).
Definition set_execution (self : t) (execution : option N) : t :=
  mk self.(operation) self.(worker) self.(bytes) self.(accepted) self.(dispatched) self.(settled) self.(enqueued) self.(started) execution.
Definition set_settled (self : t) : t :=
  mk self.(operation) self.(worker) self.(bytes) self.(accepted) self.(dispatched) true self.(enqueued) self.(started) self.(execution).
End Ticket.
(** A method of a ticket, which shares the counters. *)
Abbreviation TicketM := (Metrics.t * Ticket.t → outcome (Metrics.t * Ticket.t)).
Definition bind_worker (worker : N) : TicketM := λ '(m, self),
  if bool_decide (self.(Ticket.worker) = None) && negb self.(Ticket.dispatched) && negb self.(Ticket.settled)
     && ((5 <=? self.(Ticket.operation)) && (self.(Ticket.operation) <? 8)) && (worker <? lenN m.(Metrics.search_workers))
  then Ok (m, Ticket.bind self worker) else Ok (m, self).
Definition arm_at (enqueued : N) : TicketM := λ '(m, self),
  if negb self.(Ticket.accepted) then
    m ← with_operation m self.(Ticket.operation) (Operation.admitted (AdmissionCounters.accept self.(Ticket.bytes)));
    Ok (m, Ticket.accept self enqueued)
  else Ok (m, self).
Definition dispatch : TicketM := λ '(m, self),
  if self.(Ticket.accepted) && negb self.(Ticket.dispatched) then
    m ← with_actor m self.(Ticket.operation) self.(Ticket.worker) ActorCounters.dispatch;
    Ok (m, Ticket.set_dispatched self)
  else Ok (m, self).
Definition start_at (started : N) : TicketM := λ '(m, self),
  if negb self.(Ticket.accepted) || bool_decide (is_Some self.(Ticket.started)) || self.(Ticket.settled) then Ok (m, self) else
  '(m, self) ← dispatch (m, self);
  m ← match self.(Ticket.enqueued) with
      | Some enqueued => with_actor m self.(Ticket.operation) self.(Ticket.worker) (ActorCounters.record_queue (since started enqueued) m.(Metrics.histograms))
      | None => Ok m
      end;
  Ok (m, Ticket.set_started self started).
Definition finish_at (finished : N) : TicketM := λ '(m, self),
  if negb self.(Ticket.settled) && bool_decide (self.(Ticket.execution) = None)
  then Ok (m, Ticket.set_execution self (since finished <$> self.(Ticket.started))) else Ok (m, self).
Definition mutations (count : N) : TicketM := λ '(m, self),
  m ← with_operation m self.(Ticket.operation) (Operation.mutate count); Ok (m, self).
(** What [settle] does to the counters of the actor, one after the other. *)
Definition settle_counters (self : Ticket.t) (error : option string) (now : N) (histograms : bool) (actor : ActorCounters.t) : ActorCounters.t :=
  let actor := if self.(Ticket.dispatched) then ActorCounters.undispatch actor else actor in
  let execution := match self.(Ticket.execution) with Some execution => Some execution | None => since now <$> self.(Ticket.started) end in
  let actor := match execution, self.(Ticket.enqueued) with
               | Some execution, _ => ActorCounters.record_execution execution histograms actor
               | None, Some enqueued => ActorCounters.record_queue (since now enqueued) histograms actor
               | None, None => actor
               end in
  let actor := match error with None => ActorCounters.succeed actor | Some _ => ActorCounters.fail actor end in
  match error with Some error => ActorCounters.count_error error actor | None => actor end.
Definition settle (error : option string) (now : N) : TicketM := λ '(m, self),
  if self.(Ticket.settled) then Ok (m, self) else
  m ← with_actor m self.(Ticket.operation) self.(Ticket.worker)
        (if self.(Ticket.accepted) then settle_counters self error now m.(Metrics.histograms) else id);
  Ok (m, Ticket.set_settled self).
(** [Drop for Ticket] *)
Definition drop_ticket (now : N) : TicketM := settle (Some "E_CLOSED"%string) now.

(** *** Phases and teardown *)
Definition phase (m : Metrics.t) (phase : N) (duration : N) (success : bool) : outcome Metrics.t :=
  let i := N.to_nat phase in
  latency ← unwrap (m.(Metrics.phases) !! i);
  _ ← unwrap ((if success then m.(Metrics.phase_succeeded) else m.(Metrics.phase_failed)) !! i);
  let count := alter (λ n, add n 1) i in
  Ok (Metrics.set_phases m (<[i := Latency.record latency duration m.(Metrics.histograms)]> m.(Metrics.phases))
        ((if success then count else id) m.(Metrics.phase_succeeded)) ((if success then id else count) m.(Metrics.phase_failed))).
Definition begin_teardown_at (m : Metrics.t) (started : N) : Metrics.t :=
  Metrics.set_teardown m (Some (default started m.(Metrics.teardown_started))).
Definition finish_teardown_at (m : Metrics.t) (finished : N) (success : bool) : outcome Metrics.t :=
  match m.(Metrics.teardown_started) with
  | Some started => phase (Metrics.set_teardown m None) 2 (since finished started) success
  | None => Ok m
  end.

(** *** The reader *)
(** [install_reader] at [now]: [values] are missing when reading them panicked. *)
Definition install_reader (m : Metrics.t) (values : option ReaderValues.t) (duration now : N) : Metrics.t :=
  let r := m.(Metrics.reader) in
  match values with
  | Some v =>
      let signature := v.(ReaderValues.signature) in
      let same := bool_decide (r.(ReaderStats.bytes_signature) = Some signature) in
      Metrics.set_reader m (ReaderStats.mk None true v.(ReaderValues.documents) v.(ReaderValues.deleted) v.(ReaderValues.segments)
        v.(ReaderValues.generation) (Some now) duration signature
        (if same then r.(ReaderStats.bytes) else None) (if same then r.(ReaderStats.bytes_observed) else None)
        (if same then r.(ReaderStats.bytes_signature) else None) (m.(Metrics.snapshot_bytes) && negb same)
        (if same then r.(ReaderStats.bytes_error) else None) r.(ReaderStats.bytes_duration))
  | None =>
      Metrics.set_reader m (ReaderStats.mk (Some "E_NATIVE_PANIC"%string) r.(ReaderStats.available) r.(ReaderStats.documents) r.(ReaderStats.deleted)
        r.(ReaderStats.segments) r.(ReaderStats.generation) r.(ReaderStats.observed) r.(ReaderStats.duration) r.(ReaderStats.signature)
        r.(ReaderStats.bytes) r.(ReaderStats.bytes_observed) r.(ReaderStats.bytes_signature) r.(ReaderStats.bytes_pending)
        r.(ReaderStats.bytes_error) r.(ReaderStats.bytes_duration))
  end.
(** [observe_bytes] takes the lock twice: before it measures, for the signature it
    measures, and after, to install the bytes if the reader is still the same. *)
Definition observe_bytes_begin (m : Metrics.t) : option Signature :=
  let r := m.(Metrics.reader) in
  if negb m.(Metrics.snapshot_bytes) then None else
  if bool_decide (r.(ReaderStats.bytes_signature) = Some r.(ReaderStats.signature)) then None else Some r.(ReaderStats.signature).
Module Observed.
Inductive t := Bytes (bytes : N) | Failed | Panicked.
End Observed.
Definition observe_bytes_end (m : Metrics.t) (signature : Signature) (result : Observed.t) (duration now : N) : Metrics.t :=
  let r := m.(Metrics.reader) in
  if negb (bool_decide (r.(ReaderStats.signature) = signature)) then m else
  let '(bytes, observed, measured, error) :=
    match result with
    | Observed.Bytes bytes => (Some bytes, Some now, Some signature, None)
    | Observed.Failed => (r.(ReaderStats.bytes), r.(ReaderStats.bytes_observed), r.(ReaderStats.bytes_signature), Some "E_STORAGE"%string)
    | Observed.Panicked => (r.(ReaderStats.bytes), r.(ReaderStats.bytes_observed), r.(ReaderStats.bytes_signature), Some "E_NATIVE_PANIC"%string)
    end in
  Metrics.set_reader m (ReaderStats.mk r.(ReaderStats.error) r.(ReaderStats.available) r.(ReaderStats.documents) r.(ReaderStats.deleted)
    r.(ReaderStats.segments) r.(ReaderStats.generation) r.(ReaderStats.observed) r.(ReaderStats.duration) r.(ReaderStats.signature)
    bytes observed measured false error (nanos duration)).
Definition configure (m : Metrics.t) (histograms bytes : bool) : Metrics.t :=
  let r := m.(Metrics.reader) in
  let m := Metrics.set_flags m histograms bytes in
  Metrics.set_reader m (ReaderStats.mk r.(ReaderStats.error) r.(ReaderStats.available) r.(ReaderStats.documents) r.(ReaderStats.deleted)
    r.(ReaderStats.segments) r.(ReaderStats.generation) r.(ReaderStats.observed) r.(ReaderStats.duration) r.(ReaderStats.signature)
    r.(ReaderStats.bytes) r.(ReaderStats.bytes_observed) r.(ReaderStats.bytes_signature)
    (bytes && negb (bool_decide (r.(ReaderStats.bytes_signature) = Some r.(ReaderStats.signature)))) r.(ReaderStats.bytes_error) r.(ReaderStats.bytes_duration)).
