(* ===== verification/Status.v ===== *)
(** * src/src/telemetry.rs: the status page

    What a status page says of the counters: the sums over the workers of an
    operation, and the JSON text.  In the texts of this file an apostrophe stands
    for a double quote. *)
From S2P Require Import Prelude.
From S2P Require Import Errors.
From S2P Require Import Bytes.
From S2P Require Import Budget.
From S2P Require Import Metrics.
Local Open Scope N_scope.
Local Open Scope string_scope.

(** ** Sums over the actors of an operation *)
Module LatencyValues.
Record t := mk { count : N; sum : N; histogram_count : N; histogram_sum : N; buckets : list N }.
Definition default : t := mk 0 0 0 0 (replicate 12 0).
Definition include (self : t) (source : Latency.t) : t :=
  mk (add self.(count) source.(Latency.count)) (add self.(sum) source.(Latency.sum))
     (add self.(histogram_count) source.(Latency.histogram_count)) (add self.(histogram_sum) source.(Latency.histogram_sum))
     (zip_with add self.(buckets) source.(Latency.buckets)).
End LatencyValues.
Module ActorValues.
Record t := mk { dispatched : N; succeeded : N; failed : N; queue : LatencyValues.t; execution : LatencyValues.t; errors : list N }.
Definition default : t := mk 0 0 0 LatencyValues.default LatencyValues.default (replicate (length ERROR_CODES + 1) 0).
Definition include (self : t) (source : ActorCounters.t) : t :=
  mk (add self.(dispatched) source.(ActorCounters.dispatched)) (add self.(succeeded) source.(ActorCounters.succeeded))
     (add self.(failed) source.(ActorCounters.failed)) (LatencyValues.include self.(queue) source.(ActorCounters.queue))
     (LatencyValues.include self.(execution) source.(ActorCounters.execution)) (zip_with add self.(errors) source.(ActorCounters.errors)).
End ActorValues.
Definition actor_values (m : Metrics.t) (operation : N) : outcome ActorValues.t :=
  op ← unwrap (m.(Metrics.operations) !! N.to_nat operation);
  let values := ActorValues.include ActorValues.default op.(Operation.counters) in
  match (class ← checked_sub operation 5; if (class <? 3)%N then Some class else None) with
  | Some class =>
      foldO (λ values worker, actor ← unwrap (worker !! N.to_nat class); Ok (ActorValues.include values actor)) values m.(Metrics.search_workers)
  | None => Ok values
  end.

(** ** JSON *)
Definition quote_char : Ascii.ascii := Ascii.ascii_of_nat 34.
Fixpoint json_text (s : string) : string :=
  match s with
  | String.EmptyString => String.EmptyString
  | String.String c s => String.String (if Ascii.eqb c (Ascii.ascii_of_nat 39) then quote_char else c) (json_text s)
  end.
(** [\"{n}\"] *)
Definition quoted (s : string) : string := json_text "'" +:+ s +:+ json_text "'".
Definition number (n : N) : string := quoted (show n).
Definition boolean (b : bool) : string := if b then "true" else "false".
Definition nullable {A} (f : A → string) (o : option A) : string := match o with Some a => f a | None => "null" end.
Definition join (l : list string) : string := String.concat "," l.
Definition field (name value : string) : string := quoted name +:+ ":" +:+ value.
Definition object (fields : list string) : string := "{" +:+ join fields +:+ "}".

(** [LatencyValues::json] *)
Definition upper_bounds : list string := imap (λ index value, if (index + 1 =? length BOUNDS)%nat then "null" else number value) BOUNDS.
Definition latency_fields (self : LatencyValues.t) : list string :=
  [ field "count" (number self.(LatencyValues.count));
    field "sumNanoseconds" (number self.(LatencyValues.sum));
    field "histogram" (object
      [ field "count" (number self.(LatencyValues.histogram_count));
        field "sumNanoseconds" (number self.(LatencyValues.histogram_sum));
        field "buckets" ("[" +:+ join (number <$> self.(LatencyValues.buckets)) +:+ "]");
        field "upperBoundsNanoseconds" ("[" +:+ join upper_bounds +:+ "]") ]) ].
Definition latency_values_json (self : LatencyValues.t) : string := object (latency_fields self).
Definition latency_json (self : Latency.t) : string := latency_values_json (LatencyValues.include LatencyValues.default self).
(** [String::pop] *)
Fixpoint pop (s : string) : string :=
  match s with
  | String.EmptyString => String.EmptyString
  | String.String c String.EmptyString => String.EmptyString
  | String.String c s => String.String c (pop s)
  end.
Definition phase_json (m : Metrics.t) (phase : N) : outcome string :=
  let i := N.to_nat phase in
  latency ← unwrap (m.(Metrics.phases) !! i);
  succeeded ← unwrap (m.(Metrics.phase_succeeded) !! i);
  failed ← unwrap (m.(Metrics.phase_failed) !! i);
  Ok (pop (latency_json latency) +:+ "," +:+ field "succeeded" (number succeeded) +:+ "," +:+ field "failed" (number failed) +:+ "}").

Definition state_name (state : N) : string :=
  if (state =? STATE_OPEN)%N then "open" else if (state =? STATE_CLOSING)%N then "closing" else if (state =? STATE_CLOSED)%N then "closed" else "poisoned".
Definition completed (b : ActorValues.t) : N := add b.(ActorValues.succeeded) b.(ActorValues.failed).
(** One entry of the loop over the operations. *)
Definition operation_json (m : Metrics.t) (i : nat) (op : Operation.t) : outcome string :=
  name ← unwrap (OP_NAMES !! i);
  let a := op.(Operation.admission) in
  b ← actor_values m (N.of_nat i);
  errors ← mapO (λ e : nat * string, n ← unwrap (b.(ActorValues.errors) !! e.1); Ok (field e.2 (number n))) (imap pair (ERROR_CODES ++ ["other"]));
  Ok (field name (object
    [ field "attempted" (number a.(AdmissionCounters.attempted)); field "accepted" (number a.(AdmissionCounters.accepted));
      field "rejected" (number a.(AdmissionCounters.rejected)); field "dispatched" (number b.(ActorValues.dispatched));
      field "completed" (number (completed b)); field "succeeded" (number b.(ActorValues.succeeded)); field "failed" (number b.(ActorValues.failed));
      field "requestBytes" (number a.(AdmissionCounters.request_bytes)); field "mutations" (number op.(Operation.mutations));
      field "queue" (latency_values_json b.(ActorValues.queue)); field "execution" (latency_values_json b.(ActorValues.execution));
      field "errors" (object errors) ])).
Definition reader_json (r : ReaderStats.t) (now : N) : string :=
  object
    [ field "error" (nullable quoted r.(ReaderStats.error)); field "available" (boolean r.(ReaderStats.available));
      field "documents" (number r.(ReaderStats.documents)); field "deletedDocuments" (number r.(ReaderStats.deleted));
      field "segments" (number r.(ReaderStats.segments)); field "generationId" (number r.(ReaderStats.generation));
      field "ageNanoseconds" (nullable (λ v, number (nanos (since now v))) r.(ReaderStats.observed));
      field "durationNanoseconds" (number r.(ReaderStats.duration)); field "snapshotBytes" (nullable number r.(ReaderStats.bytes));
      field "snapshotBytesAgeNanoseconds" (nullable (λ v, number (nanos (since now v))) r.(ReaderStats.bytes_observed));
      field "snapshotBytesPending" (boolean r.(ReaderStats.bytes_pending)); field "snapshotBytesError" (nullable quoted r.(ReaderStats.bytes_error));
      field "snapshotBytesDurationNanoseconds" (number r.(ReaderStats.bytes_duration)) ].
Definition unsupported_json : string :=
  object
    [ field "directoryTotalBytes" (quoted "native snapshot bytes exclude directory metadata and uncommitted files");
      field "automaticMergeStats" (quoted "Tantivy public API has no automatic merge counters");
      field "perIndexRss" (quoted "RSS is process-wide and cannot be attributed to one index");
      field "nativeCancellation" (quoted "cooperative deadlines do not provide active cancellation") ].
(** [Metrics::json] *)
Definition json (m : Metrics.t) (queues : string) (now : N) : outcome string :=
  operations ← mapO (λ e : nat * Operation.t, operation_json m e.1 e.2) (imap pair m.(Metrics.operations));
  commit ← phase_json m 0;
  reload ← phase_json m 1;
  teardown ← phase_json m 2;
  Ok (object
    [ field "apiVersion" "1"; field "histogramsEnabled" (boolean m.(Metrics.histograms)); field "snapshotBytesEnabled" (boolean m.(Metrics.snapshot_bytes));
      field "state" (quoted (state_name m.(Metrics.state))); field "operations" (object operations);
      field "phases" (object [ field "commit" commit; field "readerReload" reload; field "teardown" teardown ]);
      field "queues" queues; field "reader" (reader_json m.(Metrics.reader) now); field "unsupported" unsupported_json ]).

(** ** A phase is an object with two more fields *)
Lemma string_app_assoc (a b c : string) : (a +:+ b) +:+ c = a +:+ (b +:+ c).
Proof. induction a as [|x a IH]; [done|]. exact (f_equal (String.String x) IH). Qed.
Lemma pop_char s c : pop (s +:+ String.String c "") = s.
Proof.
  induction s as [|x s IH]; [done|]. change (String.String x s +:+ String.String c "") with (String.String x (s +:+ String.String c "")). destruct s as [|y s]; [done|].
  exact (f_equal (String.String x) IH).
Qed.
Lemma join_two (a : string) l b : join (a :: (l ++ [b])) = join (a :: l) +:+ "," +:+ b.
Proof.
  unfold join. revert a. induction l as [|x l IH]; intros a; [done|]. cbn [app String.concat] in *. rewrite IH.
  destruct l; cbn [String.concat app]; by rewrite ?string_app_assoc.
Qed.
Lemma Ok_inv {A} (a b : A) : Ok a = Ok b → b = a.
Proof. by intros [= ->]. Qed.
Lemma phase_json_object m phase s : phase_json m phase = Ok s → ∃ latency succeeded failed,
  m.(Metrics.phases) !! N.to_nat phase = Some latency ∧ m.(Metrics.phase_succeeded) !! N.to_nat phase = Some succeeded
  ∧ m.(Metrics.phase_failed) !! N.to_nat phase = Some failed
  ∧ s = object (latency_fields (LatencyValues.include LatencyValues.default latency) ++ [field "succeeded" (number succeeded); field "failed" (number failed)]).
Proof.
  unfold phase_json. intros H. apply bind_Ok in H as (latency & Hl & H). apply bind_Ok in H as (succeeded & Hs & H). apply bind_Ok in H as (failed & Hf & H).
  apply Ok_inv in H. subst s. exists latency, succeeded, failed.
  assert (∀ A (o : option A) a, unwrap o = Ok a → o = Some a) as Hu by (by intros A [x|] a [= ->]).
  split_and!; [by apply Hu..|]. unfold latency_json, latency_values_json, object. set (fields := latency_fields _).
  assert (∃ a l, fields = a :: l) as (a & l & E) by (by eexists _, _). clearbody fields. subst fields.
  rewrite <- (string_app_assoc "{" (join (a :: l)) "}"), pop_char.
  assert ((a :: l) ++ [field "succeeded" (number succeeded); field "failed" (number failed)]
    = a :: ((l ++ [field "succeeded" (number succeeded)]) ++ [field "failed" (number failed)]))%list as -> by (rewrite <- app_assoc; done).
  rewrite !join_two, !string_app_assoc. done.
Qed.
