(* ===== verification/Tickets.v ===== *)
(** * Tickets settle exactly once

    In every interleaving of the calls on the counters of an index and on the
    tickets of its operations, the counters balance: what was accepted is what is
    live, has succeeded or has failed; gauges of dispatched work count live
    tickets; every failure and rejection has one error; histograms sum up.  The
    counters wrap around, so the balance is modulo [2^64]. *)
From S2P Require Import Prelude.
From S2P Require Import Errors.
From S2P Require Import Bytes.
From S2P Require Import Budget.
From S2P Require Import Metrics.
From S2P Require Import Status.
Local Open Scope N_scope.

(** ** Equality modulo [2^64] *)
Definition same (a b : N) : Prop := ∃ k : Z, Z.of_N a = (Z.of_N b + k * 2 ^ 64)%Z.
#[export] Instance same_equiv : Equivalence same.
Proof.
  split; [intros a; exists 0%Z; lia|intros a b [k H]; exists (- k)%Z; lia|intros a b c [k H] [l H']; exists (k + l)%Z; lia].
Qed.
#[export] Instance same_add : Proper (same ==> same ==> same) N.add.
Proof. intros a b [k H] c d [l H']. exists (k + l)%Z. lia. Qed.
Lemma same_mod a : same (a mod 2 ^ 64) a.
Proof. exists (- Z.of_N (a / 2 ^ 64))%Z. pose proof (N.div_mod' a (2 ^ 64)). lia. Qed.
Lemma same_cancel a b c : same (a + c) (b + c) → same a b.
Proof. intros [k H]. exists k. lia. Qed.
Lemma same_bounded a b : a < 2 ^ 64 → b < 2 ^ 64 → same a b → a = b.
Proof. intros Ha Hb [k H]. assert (k = 0)%Z by lia. lia. Qed.
Lemma add_same v a : same (add v a) (v + a).
Proof. apply same_mod. Qed.
Lemma fetch_sub_same v : same (fetch_sub v 1 + 1) v.
Proof. unfold fetch_sub. rewrite same_mod. change (1 mod 2 ^ 64) with 1. exists 1%Z. lia. Qed.

(** ** Sums *)
Definition total {A} (f : A → N) (l : list A) : N := sum (f <$> l).
Lemma total_app {A} (f : A → N) l k : total f (l ++ k) = total f l + total f k.
Proof. unfold total. by rewrite fmap_app, sum_app. Qed.
Lemma total_cons {A} (f : A → N) a l : total f (a :: l) = f a + total f l.
Proof. unfold total. by rewrite fmap_cons, sum_cons. Qed.
Lemma total_insert {A} (f : A → N) l i a b : l !! i = Some a → total f (<[i := b]> l) + f a = total f l + f b.
Proof.
  revert i. induction l as [|c l IH]; intros [|i] H; [done..| |].
  - injection H as ->. change (<[0%nat := b]> (a :: l)) with (b :: l). rewrite !total_cons. lia.
  - change (<[S i := b]> (c :: l)) with (c :: <[i := b]> l). specialize (IH i H). rewrite !total_cons. lia.
Qed.
Lemma total_delete {A} (f : A → N) l i a : l !! i = Some a → total f (delete i l) + f a = total f l.
Proof.
  revert i. induction l as [|c l IH]; intros [|i] H; [done..| |].
  - injection H as ->. change (delete 0%nat (a :: l)) with l. rewrite total_cons. lia.
  - change (delete (S i) (c :: l)) with (c :: delete i l). specialize (IH i H). rewrite !total_cons. lia.
Qed.
Lemma total_alter l i : (i < length l)%nat → same (total id (alter (λ n, add n 1) i l)) (total id l + 1).
Proof.
  intros Hi. destruct (lookup_lt_is_Some_2 l i Hi) as [n Hn].
  assert (alter (λ n, add n 1) i l = <[i := add n 1]> l) as ->.
  { apply list_eq. intros j. destruct (decide (j = i)) as [->|Hne].
    - rewrite list_lookup_alter_eq, Hn. symmetry. apply list_lookup_insert_eq. by eapply lookup_lt_Some.
    - by rewrite list_lookup_alter_ne, list_lookup_insert_ne. }
  pose proof (total_insert id l _ _ (add n 1) Hn) as E. cbn in E. apply (same_cancel _ _ n). rewrite E, add_same. exists 0%Z. lia.
Qed.

(** ** Latencies *)
Definition latency_ok (l : Latency.t) : Prop := length l.(Latency.buckets) = 12%nat ∧ same (total id l.(Latency.buckets)) l.(Latency.histogram_count).
Lemma bucket_bound v : (Latency.bucket v < 12)%nat.
Proof.
  unfold Latency.bucket. destruct (list_find _ BOUNDS) as [[i b]|] eqn:E; [|vm_compute; lia]. apply list_find_Some in E as (E & _). apply lookup_lt_Some in E. exact E.
Qed.
(** The bucket is the first that holds the value. *)
Lemma bucket_first v : v <= U64_MAX → ∃ bound, BOUNDS !! Latency.bucket v = Some bound ∧ v <= bound ∧ ∀ j b, (j < Latency.bucket v)%nat → BOUNDS !! j = Some b → b < v.
Proof.
  intros Hv. unfold Latency.bucket. destruct (list_find _ BOUNDS) as [[i b]|] eqn:E.
  - apply list_find_Some in E as (E & Hb & Hf). exists b. split_and!; [done..|]. intros j c Hj Hc. apply N.nle_gt. by apply (Hf j).
  - apply list_find_None in E. rewrite Forall_forall in E. exfalso. apply (E U64_MAX); [|done]. unfold BOUNDS. set_solver.
Qed.
Lemma record_ok l duration enabled : latency_ok l → latency_ok (Latency.record l duration enabled)
  ∧ same (Latency.record l duration enabled).(Latency.count) (l.(Latency.count) + 1).
Proof.
  intros [Hl Hs]. unfold Latency.record. cbv zeta. destruct enabled; cbn [Latency.count]; (split; [|apply add_same]); [|done]. split; cbn [Latency.buckets Latency.histogram_count].
  - by rewrite length_alter.
  - pose proof (bucket_bound (nanos duration)) as Hb. rewrite total_alter by lia. rewrite Hs, add_same. done.
Qed.

(** ** Actors *)
Definition errors_total (a : ActorCounters.t) : N := total id a.(ActorCounters.errors).
Definition settled_total (a : ActorCounters.t) : N := a.(ActorCounters.succeeded) + a.(ActorCounters.failed).
Record actor_ok (a : ActorCounters.t) : Prop := {
  queue_ok : latency_ok a.(ActorCounters.queue);
  execution_ok : latency_ok a.(ActorCounters.execution);
  errors_length : length a.(ActorCounters.errors) = (length ERROR_CODES + 1)%nat }.
(** The actors of an operation: its own, then those of the search workers. *)
Definition own_actor (m : Metrics.t) (operation : N) : list ActorCounters.t :=
  option_list (Operation.counters <$> m.(Metrics.operations) !! N.to_nat operation).
Definition column (m : Metrics.t) (operation : N) : list ActorCounters.t :=
  if (5 <=? operation) && (operation <? 8)
  then (λ row, default ActorCounters.default (row !! N.to_nat (operation - 5))) <$> m.(Metrics.search_workers) else [].
Definition actors_of (m : Metrics.t) (operation : N) : list ActorCounters.t := own_actor m operation ++ column m operation.
Definition admission_of (m : Metrics.t) (operation : N) : option AdmissionCounters.t := Operation.admission <$> m.(Metrics.operations) !! N.to_nat operation.
Definition key (worker : option N) : nat := match worker with None => 0%nat | Some w => S (N.to_nat w) end.
Definition worker_ok (m : Metrics.t) (operation : N) (worker : option N) : Prop :=
  ∀ w, worker = Some w → 5 <= operation < 8 ∧ w < lenN m.(Metrics.search_workers).
Record metrics_ok (m : Metrics.t) : Prop := {
  eight_operations : length m.(Metrics.operations) = 8%nat;
  three_classes : Forall (λ row, length row = 3%nat) m.(Metrics.search_workers);
  actors_ok operation a : a ∈ actors_of m operation → actor_ok a }.

(** What a change of one operation and one of its actors keeps. *)
Record changed (m m' : Metrics.t) (operation : N) (k : nat) (f : ActorCounters.t → ActorCounters.t) (g : AdmissionCounters.t → AdmissionCounters.t) : Prop := {
  changed_actors : ∃ a, actors_of m operation !! k = Some a ∧ actors_of m' operation = <[k := f a]> (actors_of m operation);
  other_actors op : op ≠ operation → op < 8 → actors_of m' op = actors_of m op;
  changed_admission : admission_of m' operation = g <$> admission_of m operation;
  other_admission op : op ≠ operation → admission_of m' op = admission_of m op;
  changed_length : length m'.(Metrics.operations) = length m.(Metrics.operations);
  changed_workers : lenN m'.(Metrics.search_workers) = lenN m.(Metrics.search_workers);
  changed_rows : Forall (λ row, length row = 3%nat) m.(Metrics.search_workers) → Forall (λ row, length row = 3%nat) m'.(Metrics.search_workers) }.
Lemma changed_compose m m' m'' operation k f g f' g' : changed m m' operation k f g → changed m' m'' operation k f' g' →
  changed m m'' operation k (λ a, f' (f a)) (λ a, g' (g a)).
Proof.
  intros H H'. split.
  - destruct (changed_actors _ _ _ _ _ _ H) as (a & Ha & E). destruct (changed_actors _ _ _ _ _ _ H') as (a' & Ha' & E').
    rewrite E in Ha', E'. rewrite list_lookup_insert_eq in Ha' by (by eapply lookup_lt_Some). injection Ha' as <-. rewrite list_insert_insert_eq in E'. eauto.
  - intros op Hn Hop. by rewrite (other_actors _ _ _ _ _ _ H'), (other_actors _ _ _ _ _ _ H).
  - rewrite (changed_admission _ _ _ _ _ _ H'), (changed_admission _ _ _ _ _ _ H). by rewrite <- option_fmap_compose.
  - intros op Hn. by rewrite (other_admission _ _ _ _ _ _ H'), (other_admission _ _ _ _ _ _ H).
  - by rewrite (changed_length _ _ _ _ _ _ H'), (changed_length _ _ _ _ _ _ H).
  - by rewrite (changed_workers _ _ _ _ _ _ H'), (changed_workers _ _ _ _ _ _ H).
  - intros Hr. apply (changed_rows _ _ _ _ _ _ H'), (changed_rows _ _ _ _ _ _ H), Hr.
Qed.
Lemma with_operation_changed m operation f fa ga : metrics_ok m → operation < 8 →
  (∀ op, (f op).(Operation.counters) = fa op.(Operation.counters)) → (∀ op, (f op).(Operation.admission) = ga op.(Operation.admission)) →
  ∃ m', with_operation m operation f = Ok m' ∧ changed m m' operation 0 fa ga ∧ m'.(Metrics.histograms) = m.(Metrics.histograms).
Proof.
  intros Hm Hop Hf Hg. pose proof (eight_operations _ Hm) as H8. destruct (lookup_lt_is_Some_2 m.(Metrics.operations) (N.to_nat operation)) as [op Hlook]; [lia|].
  unfold with_operation. rewrite Hlook. cbn [unwrap mbind outcome_bind]. eexists. split; [done|]. split; [|done]. split.
  - exists op.(Operation.counters). unfold actors_of, own_actor, column. cbn [Metrics.set_operations Metrics.operations Metrics.search_workers].
    rewrite Hlook, list_lookup_insert_eq by (by eapply lookup_lt_Some). cbn. split; [done|]. by rewrite Hf.
  - intros op' Hn _. unfold actors_of, own_actor, column. cbn [Metrics.set_operations Metrics.operations Metrics.search_workers]. by rewrite list_lookup_insert_ne by lia.
  - unfold admission_of. cbn [Metrics.set_operations Metrics.operations]. rewrite Hlook, list_lookup_insert_eq by (by eapply lookup_lt_Some). cbn. by rewrite Hg.
  - intros op' Hn. unfold admission_of. cbn [Metrics.set_operations Metrics.operations]. destruct (decide (N.to_nat op' = N.to_nat operation)); [lia|]. by rewrite list_lookup_insert_ne.
  - cbn. by rewrite length_insert.
  - done.
  - done.
Qed.
Lemma with_actor_changed m operation worker f : metrics_ok m → operation < 8 → worker_ok m operation worker →
  ∃ m', with_actor m operation worker f = Ok m' ∧ changed m m' operation (key worker) f id ∧ m'.(Metrics.histograms) = m.(Metrics.histograms).
Proof.
  intros Hm Hop Hw. destruct worker as [w|]; [|by apply with_operation_changed]. destruct (Hw w eq_refl) as [[H5 H8] Hlt].
  destruct (lookup_lt_is_Some_2 m.(Metrics.search_workers) (N.to_nat w)) as [row Hrow]; [unfold lenN in Hlt; lia|].
  pose proof (Forall_lookup_1 _ _ _ _ (three_classes _ Hm) Hrow) as H3. cbn in H3.
  destruct (lookup_lt_is_Some_2 row (N.to_nat (operation - 5))) as [a Ha]; [lia|].
  destruct (lookup_lt_is_Some_2 m.(Metrics.operations) (N.to_nat operation)) as [op Hlook]; [rewrite (eight_operations _ Hm); lia|].
  unfold with_actor, worker_actor, usize_sub, checked_sub. rewrite Hrow. cbn [unwrap mbind outcome_bind]. rewrite (proj2 (N.leb_le 5 operation) H5). cbn [unwrap mbind outcome_bind].
  rewrite Ha. cbn [unwrap mbind outcome_bind]. eexists. split; [done|]. split; [|done].
  assert (∀ op', 5 <= op' < 8 → column m op' = (λ row, default ActorCounters.default (row !! N.to_nat (op' - 5))) <$> m.(Metrics.search_workers)) as Hcol.
  { intros op' [? ?]. unfold column. by rewrite (proj2 (N.leb_le _ _)), (proj2 (N.ltb_lt _ _)) by done. }
  split; try done.
  - exists a. unfold actors_of, own_actor. cbn [Metrics.set_workers Metrics.operations Metrics.search_workers]. rewrite Hlook. cbn [option_list fmap option_fmap option_map app key].
    unfold column. cbn [Metrics.set_workers Metrics.search_workers]. rewrite (proj2 (N.leb_le _ _) H5), (proj2 (N.ltb_lt _ _) H8). cbn [andb]. split.
    + match goal with |- (_ ++ ?l) !! S ?n = _ => change (l !! n = Some a) end. rewrite list_lookup_fmap, Hrow. cbn. by rewrite Ha.
    + match goal with |- ?x ++ ?l = <[S ?n := ?b]> (?x ++ ?k) => change (x ++ l = x ++ <[n := b]> k) end. f_equal. rewrite list_fmap_insert. f_equal. rewrite list_lookup_insert_eq; [done|]. by eapply lookup_lt_Some.
  - intros op' Hn Hop'. unfold actors_of, own_actor, column. cbn [Metrics.set_workers Metrics.operations Metrics.search_workers]. f_equal.
    destruct ((5 <=? op') && (op' <? 8)) eqn:E; [|done]. apply andb_true_iff in E as [E1%N.leb_le E2%N.ltb_lt]. rewrite list_fmap_insert. rewrite list_lookup_insert_ne by lia.
    apply list_insert_id. by rewrite list_lookup_fmap, Hrow.
  - by rewrite option_fmap_id.
  - cbn [Metrics.set_workers Metrics.search_workers]. unfold lenN. by rewrite length_insert.
  - intros Hr. cbn [Metrics.set_workers Metrics.search_workers]. apply Forall_insert; [done|]. by rewrite length_insert.
Qed.

(** ** The balance *)
Definition accepted_live (t : Ticket.t) : N := N.b2n (t.(Ticket.accepted) && negb t.(Ticket.settled)).
Definition dispatched_live (t : Ticket.t) : N := N.b2n (t.(Ticket.dispatched) && negb t.(Ticket.settled)).
Definition started_live (t : Ticket.t) : N := N.b2n (bool_decide (is_Some t.(Ticket.started)) && negb t.(Ticket.settled)).
Definition of_operation (operation : N) (f : Ticket.t → N) (t : Ticket.t) : N := if t.(Ticket.operation) =? operation then f t else 0.
Definition of_actor (operation : N) (k : nat) (f : Ticket.t → N) (t : Ticket.t) : N :=
  if (t.(Ticket.operation) =? operation) && (key t.(Ticket.worker) =? k)%nat then f t else 0.
Record balanced (m : Metrics.t) (tickets : list Ticket.t) : Prop := {
  accepted_balance op adm : op < 8 → admission_of m op = Some adm →
    same adm.(AdmissionCounters.accepted) (total (of_operation op accepted_live) tickets + total settled_total (actors_of m op));
  dispatched_balance op k a : op < 8 → actors_of m op !! k = Some a → same a.(ActorCounters.dispatched) (total (of_actor op k dispatched_live) tickets);
  error_balance op adm : op < 8 → admission_of m op = Some adm →
    same (total errors_total (actors_of m op)) (total ActorCounters.failed (actors_of m op) + adm.(AdmissionCounters.rejected));
  queue_balance op k a : op < 8 → actors_of m op !! k = Some a →
    same a.(ActorCounters.queue).(Latency.count) (settled_total a + total (of_actor op k started_live) tickets) }.
(** What a change of one actor and one admission must keep, when the live work
    of the actor goes from [x] to [x'], [y] to [y'] and [z] to [z']. *)
Record local_balance (f : ActorCounters.t → ActorCounters.t) (g : AdmissionCounters.t → AdmissionCounters.t) (x x' y y' z z' : N) : Prop := {
  local_actor a : actor_ok a → actor_ok (f a);
  local_accepted a adm : same ((g adm).(AdmissionCounters.accepted) + settled_total a + x) (adm.(AdmissionCounters.accepted) + settled_total (f a) + x');
  local_dispatched a : same ((f a).(ActorCounters.dispatched) + y) (a.(ActorCounters.dispatched) + y');
  local_errors a adm : actor_ok a → same (errors_total (f a) + a.(ActorCounters.failed) + adm.(AdmissionCounters.rejected))
    (errors_total a + (f a).(ActorCounters.failed) + (g adm).(AdmissionCounters.rejected));
  local_queue a : actor_ok a → same ((f a).(ActorCounters.queue).(Latency.count) + settled_total a + z) (a.(ActorCounters.queue).(Latency.count) + settled_total (f a) + z') }.
Section Change.
Context (m m' : Metrics.t) (operation : N) (k : nat) (f : ActorCounters.t → ActorCounters.t) (g : AdmissionCounters.t → AdmissionCounters.t).
Hypothesis Hop : operation < 8.
Hypothesis Hchanged : changed m m' operation k f g.
Hypothesis Hm : metrics_ok m.
Context (x x' y y' z z' : N).
Hypothesis Hlocal : local_balance f g x x' y y' z z'.
Lemma changed_metrics_ok : metrics_ok m'.
Proof using All.
  split.
  - rewrite (changed_length _ _ _ _ _ _ Hchanged). apply Hm.
  - apply (changed_rows _ _ _ _ _ _ Hchanged), Hm.
  - intros op a Ha. destruct (decide (op < 8)) as [H8|H8].
    + destruct (decide (op = operation)) as [->|Hn]; [|rewrite (other_actors _ _ _ _ _ _ Hchanged) in Ha by done; by apply (actors_ok _ Hm op)].
      destruct (changed_actors _ _ _ _ _ _ Hchanged) as (b & Hb & E). rewrite E in Ha. apply list_elem_of_lookup in Ha as (j & Hj).
      apply list_lookup_insert_Some in Hj as [(-> & <- & _)|(_ & Hj)].
      * apply (local_actor _ _ _ _ _ _ _ _ Hlocal). apply (actors_ok _ Hm operation). by eapply list_elem_of_lookup_2.
      * apply (actors_ok _ Hm operation). by eapply list_elem_of_lookup_2.
    + exfalso. unfold actors_of, own_actor, column in Ha. rewrite lookup_ge_None_2 in Ha.
      * cbn in Ha. rewrite (proj2 (N.ltb_ge op 8)), andb_false_r in Ha by lia. by apply not_elem_of_nil in Ha.
      * rewrite (changed_length _ _ _ _ _ _ Hchanged), (eight_operations _ Hm). lia.
Qed.
Context (tickets tickets' : list Ticket.t).
Hypothesis Haccepted : ∀ op, total (of_operation op accepted_live) tickets' + (if op =? operation then x else 0)
  = total (of_operation op accepted_live) tickets + (if op =? operation then x' else 0).
Hypothesis Hdispatched : ∀ op j, total (of_actor op j dispatched_live) tickets' + (if (op =? operation) && (j =? k)%nat then y else 0)
  = total (of_actor op j dispatched_live) tickets + (if (op =? operation) && (j =? k)%nat then y' else 0).
Hypothesis Hstarted : ∀ op j, total (of_actor op j started_live) tickets' + (if (op =? operation) && (j =? k)%nat then z else 0)
  = total (of_actor op j started_live) tickets + (if (op =? operation) && (j =? k)%nat then z' else 0).
Lemma changed_balanced : balanced m tickets → balanced m' tickets'.
Proof using All.
  intros Hb. destruct (changed_actors _ _ _ _ _ _ Hchanged) as (a & Ha & Eactors).
  assert (actor_ok a) as Hok by (apply (actors_ok _ Hm operation); by eapply list_elem_of_lookup_2).
  split.
  - intros op adm H8 Hadm. specialize (Haccepted op). destruct (decide (op = operation)) as [->|Hn].
    + rewrite N.eqb_refl in Haccepted. rewrite (changed_admission _ _ _ _ _ _ Hchanged) in Hadm. apply fmap_Some in Hadm as (old & Hold & ->).
      pose proof (accepted_balance _ _ Hb operation old Hop Hold) as Hbal. pose proof (local_accepted _ _ _ _ _ _ _ _ Hlocal a old) as Hl.
      rewrite Eactors. pose proof (total_insert settled_total _ _ _ (f a) Ha) as Et. apply (same_cancel _ _ (settled_total a + x)).
      rewrite N.add_assoc, Hl, Hbal. exists 0%Z. lia.
    + rewrite (proj2 (N.eqb_neq op operation) Hn) in Haccepted. rewrite (other_actors _ _ _ _ _ _ Hchanged) by done. rewrite (other_admission _ _ _ _ _ _ Hchanged) in Hadm by done.
      rewrite (accepted_balance _ _ Hb op adm H8 Hadm). exists 0%Z. lia.
  - intros op j b H8 Hj. specialize (Hdispatched op j). destruct (decide (op = operation)) as [->|Hn].
    + rewrite N.eqb_refl in Hdispatched. cbn [andb] in Hdispatched. rewrite Eactors in Hj. apply list_lookup_insert_Some in Hj as [(-> & <- & _)|(Hne & Hj)].
      * rewrite Nat.eqb_refl in Hdispatched. apply (same_cancel _ _ y). rewrite (local_dispatched _ _ _ _ _ _ _ _ Hlocal), (dispatched_balance _ _ Hb operation _ a Hop Ha). exists 0%Z. lia.
      * rewrite (proj2 (Nat.eqb_neq j k)) in Hdispatched by done. rewrite (dispatched_balance _ _ Hb operation j b Hop Hj). exists 0%Z. lia.
    + rewrite (proj2 (N.eqb_neq op operation) Hn) in Hdispatched. cbn [andb] in Hdispatched. rewrite (other_actors _ _ _ _ _ _ Hchanged) in Hj by done.
      rewrite (dispatched_balance _ _ Hb op j b H8 Hj). exists 0%Z. lia.
  - intros op adm H8 Hadm. destruct (decide (op = operation)) as [->|Hn].
    + rewrite (changed_admission _ _ _ _ _ _ Hchanged) in Hadm. apply fmap_Some in Hadm as (old & Hold & ->).
      pose proof (error_balance _ _ Hb operation old Hop Hold) as Hbal. pose proof (local_errors _ _ _ _ _ _ _ _ Hlocal a old Hok) as Hl.
      rewrite Eactors. pose proof (total_insert errors_total _ _ _ (f a) Ha) as Et. pose proof (total_insert ActorCounters.failed _ _ _ (f a) Ha) as Ef.
      destruct Hl as [p Hl], Hbal as [q Hbal]. exists (p + q)%Z. lia.
    + rewrite (other_actors _ _ _ _ _ _ Hchanged) by done. rewrite (other_admission _ _ _ _ _ _ Hchanged) in Hadm by done. by apply (error_balance _ _ Hb).
  - intros op j b H8 Hj. specialize (Hstarted op j). destruct (decide (op = operation)) as [->|Hn].
    + rewrite N.eqb_refl in Hstarted. cbn [andb] in Hstarted. rewrite Eactors in Hj. apply list_lookup_insert_Some in Hj as [(-> & <- & _)|(Hne & Hj)].
      * rewrite Nat.eqb_refl in Hstarted. pose proof (local_queue _ _ _ _ _ _ _ _ Hlocal a Hok) as [p Hl]. pose proof (queue_balance _ _ Hb operation _ a Hop Ha) as [q Hbal].
        exists (p + q)%Z. lia.
      * rewrite (proj2 (Nat.eqb_neq j k)) in Hstarted by done. pose proof (queue_balance _ _ Hb operation j b Hop Hj) as [q Hbal]. exists q. lia.
    + rewrite (proj2 (N.eqb_neq op operation) Hn) in Hstarted. cbn [andb] in Hstarted. rewrite (other_actors _ _ _ _ _ _ Hchanged) in Hj by done.
      pose proof (queue_balance _ _ Hb op j b H8 Hj) as [q Hbal]. exists q. lia.
Qed.
End Change.

(** ** The calls *)
Record ticket_ok (m : Metrics.t) (t : Ticket.t) : Prop := {
  operation_ok : t.(Ticket.operation) < 8;
  binding_ok : worker_ok m t.(Ticket.operation) t.(Ticket.worker);
  enqueued_ok : t.(Ticket.accepted) = true → is_Some t.(Ticket.enqueued);
  dispatched_ok : t.(Ticket.dispatched) = true → t.(Ticket.accepted) = true;
  started_ok : is_Some t.(Ticket.started) → t.(Ticket.dispatched) = true;
  execution_started : is_Some t.(Ticket.execution) → is_Some t.(Ticket.started) }.
Lemma ticket_ok_workers m m' t : lenN m'.(Metrics.search_workers) = lenN m.(Metrics.search_workers) → ticket_ok m t → ticket_ok m' t.
Proof. intros E [Ho Hw ????]. split; try done. intros w Hww. rewrite E. by apply Hw. Qed.
Lemma total_operation f t t' tickets i op : tickets !! i = Some t → t'.(Ticket.operation) = t.(Ticket.operation) →
  total (of_operation op f) (<[i := t']> tickets) + (if op =? t.(Ticket.operation) then f t else 0)
  = total (of_operation op f) tickets + (if op =? t.(Ticket.operation) then f t' else 0).
Proof.
  intros Ht E. pose proof (total_insert (of_operation op f) _ _ _ t' Ht) as H. unfold of_operation at 2 4 in H. rewrite E in H. by rewrite (N.eqb_sym op).
Qed.
Lemma total_actor f t t' tickets i op j : tickets !! i = Some t → t'.(Ticket.operation) = t.(Ticket.operation) → key t'.(Ticket.worker) = key t.(Ticket.worker) →
  total (of_actor op j f) (<[i := t']> tickets) + (if (op =? t.(Ticket.operation)) && (j =? key t.(Ticket.worker))%nat then f t else 0)
  = total (of_actor op j f) tickets + (if (op =? t.(Ticket.operation)) && (j =? key t.(Ticket.worker))%nat then f t' else 0).
Proof.
  intros Ht E Ek. pose proof (total_insert (of_actor op j f) _ _ _ t' Ht) as H. unfold of_actor at 2 4 in H. rewrite E, Ek in H. by rewrite (N.eqb_sym op), (Nat.eqb_sym j).
Qed.
(** A ticket of which the live work is the same may be replaced. *)
Lemma balanced_replace m tickets i t t' : tickets !! i = Some t → t'.(Ticket.operation) = t.(Ticket.operation) → accepted_live t' = accepted_live t →
  (∀ op j, of_actor op j dispatched_live t' = of_actor op j dispatched_live t) → (∀ op j, of_actor op j started_live t' = of_actor op j started_live t) →
  balanced m tickets → balanced m (<[i := t']> tickets).
Proof.
  intros Ht Eo Ea Ed Es [B1 B2 B3 B4].
  assert (∀ op, total (of_operation op accepted_live) (<[i := t']> tickets) = total (of_operation op accepted_live) tickets) as T1.
  { intros op. pose proof (total_operation accepted_live t t' tickets i op Ht Eo) as H. rewrite Ea in H. lia. }
  assert (∀ (f : Ticket.t → N) op j, (∀ op j, of_actor op j f t' = of_actor op j f t) → total (of_actor op j f) (<[i := t']> tickets) = total (of_actor op j f) tickets) as T2.
  { intros f op j Ef. pose proof (total_insert (of_actor op j f) _ _ _ t' Ht) as H. rewrite Ef in H. lia. }
  split; [intros op adm|intros op k a|done|intros op k a]; rewrite ?T1, ?T2 by done; auto.
Qed.
Lemma balanced_delete m tickets i t : tickets !! i = Some t → t.(Ticket.settled) = true → balanced m tickets → balanced m (delete i tickets).
Proof.
  intros Ht Hs [B1 B2 B3 B4].
  assert (∀ f, f t = 0 → total f (delete i tickets) = total f tickets) as T by (intros f Hf; pose proof (total_delete f _ _ _ Ht); lia).
  split; [intros op adm|intros op k a|done|intros op k a]; rewrite T; auto.
  all: unfold of_operation, of_actor, accepted_live, dispatched_live, started_live; rewrite Hs, andb_false_r; by repeat case_match.
Qed.
Lemma ticket_changed m m' tickets i t t' f : metrics_ok m → Forall (ticket_ok m) tickets → tickets !! i = Some t →
  t'.(Ticket.operation) = t.(Ticket.operation) → t'.(Ticket.worker) = t.(Ticket.worker) →
  changed m m' t.(Ticket.operation) (key t.(Ticket.worker)) f id →
  local_balance f id (accepted_live t) (accepted_live t') (dispatched_live t) (dispatched_live t') (started_live t) (started_live t') →
  balanced m tickets → metrics_ok m' ∧ balanced m' (<[i := t']> tickets).
Proof.
  intros Hm Htickets Ht Eo Ew Hc Hl Hb. pose proof (Forall_lookup_1 _ _ _ _ Htickets Ht) as Hok. split.
  - by apply (changed_metrics_ok m m' _ _ f id (operation_ok _ _ Hok) Hc Hm _ _ _ _ _ _ Hl).
  - apply (changed_balanced m m' _ _ f id (operation_ok _ _ Hok) Hc Hm _ _ _ _ _ _ Hl tickets); [intros op|intros op j|intros op j|done].
    + by apply total_operation.
    + apply total_actor; [done..|by rewrite Ew].
    + apply total_actor; [done..|by rewrite Ew].
Qed.
Lemma local_compose f f' x x' y y' z z' x'' y'' z'' : local_balance f id x x' y y' z z' → local_balance f' id x' x'' y' y'' z' z'' →
  local_balance (λ a, f' (f a)) id x x'' y y'' z z''.
Proof.
  intros L L'. split.
  - intros a Ha. by apply (local_actor _ _ _ _ _ _ _ _ L'), (local_actor _ _ _ _ _ _ _ _ L).
  - intros a adm. destruct (local_accepted _ _ _ _ _ _ _ _ L a adm) as [p Hp], (local_accepted _ _ _ _ _ _ _ _ L' (f a) adm) as [q Hq]. exists (p + q)%Z. cbn in *. lia.
  - intros a. destruct (local_dispatched _ _ _ _ _ _ _ _ L a) as [p Hp], (local_dispatched _ _ _ _ _ _ _ _ L' (f a)) as [q Hq]. exists (p + q)%Z. lia.
  - intros a adm Ha. pose proof (local_actor _ _ _ _ _ _ _ _ L a Ha) as Hfa.
    destruct (local_errors _ _ _ _ _ _ _ _ L a adm Ha) as [p Hp], (local_errors _ _ _ _ _ _ _ _ L' (f a) adm Hfa) as [q Hq]. exists (p + q)%Z. cbn in *. lia.
  - intros a Ha. pose proof (local_actor _ _ _ _ _ _ _ _ L a Ha) as Hfa.
    destruct (local_queue _ _ _ _ _ _ _ _ L a Ha) as [p Hp], (local_queue _ _ _ _ _ _ _ _ L' (f a) Hfa) as [q Hq]. exists (p + q)%Z. lia.
Qed.
Lemma local_id x y z : local_balance id id x x y y z z.
Proof. split; unfold id; intros; try done; exists 0%Z; lia. Qed.
Lemma local_dispatch x z : local_balance ActorCounters.dispatch id x x 0 1 z z.
Proof.
  split; unfold id; intros; cbn.
  - by destruct H as [???]; split.
  - exists 0%Z. unfold settled_total. cbn. lia.
  - rewrite add_same. exists 0%Z. lia.
  - reflexivity.
  - exists 0%Z. unfold settled_total. cbn. lia.
Qed.
Lemma local_record_queue duration enabled x y : local_balance (ActorCounters.record_queue duration enabled) id x x y y 0 1.
Proof.
  split; unfold id; intros; cbn.
  - destruct H as [Hq ? ?]. split; cbn; [|done..]. by apply record_ok.
  - exists 0%Z. unfold settled_total. cbn. lia.
  - exists 0%Z. lia.
  - reflexivity.
  - destruct (record_ok _ duration enabled (queue_ok _ H)) as [_ E]. rewrite E. unfold settled_total. cbn. exists 0%Z. lia.
Qed.
Lemma local_record_execution duration enabled x y z : local_balance (ActorCounters.record_execution duration enabled) id x x y y z z.
Proof.
  split; unfold id; intros; cbn.
  - destruct H as [? He ?]. split; cbn; [done| |done]. by apply record_ok.
  - exists 0%Z. unfold settled_total. cbn. lia.
  - exists 0%Z. lia.
  - reflexivity.
  - exists 0%Z. unfold settled_total. cbn. lia.
Qed.
Lemma local_undispatch x z : local_balance ActorCounters.undispatch id x x 1 0 z z.
Proof.
  split; unfold id; intros; cbn.
  - by destruct H as [???]; split.
  - exists 0%Z. unfold settled_total. cbn. lia.
  - rewrite fetch_sub_same. exists 0%Z. lia.
  - reflexivity.
  - exists 0%Z. unfold settled_total. cbn. lia.
Qed.
(** The outcome: a success, or a failure with its error. *)
Definition record_outcome (error : option string) (a : ActorCounters.t) : ActorCounters.t :=
  match error with None => ActorCounters.succeed a | Some error => ActorCounters.count_error error (ActorCounters.fail a) end.
Lemma error_slot_bound error : (ActorCounters.error_slot error < length ERROR_CODES + 1)%nat.
Proof.
  unfold ActorCounters.error_slot. destruct (list_find _ ERROR_CODES) as [[i b]|] eqn:E; [|lia]. apply list_find_Some in E as (E & _). apply lookup_lt_Some in E. lia.
Qed.
Lemma count_error_total error a : actor_ok a → same (errors_total (ActorCounters.count_error error a)) (errors_total a + 1).
Proof.
  intros Ha. unfold errors_total, ActorCounters.count_error. cbn [ActorCounters.errors]. rewrite total_alter; [done|].
  rewrite (errors_length _ Ha). apply error_slot_bound.
Qed.
Lemma settled_outcome error a : same (settled_total (record_outcome error a)) (settled_total a + 1).
Proof. destruct error; unfold settled_total; cbn; rewrite add_same; exists 0%Z; lia. Qed.
Lemma local_outcome error y : local_balance (record_outcome error) id 1 0 y y 1 0.
Proof.
  split; unfold id.
  - intros a [? ? He]. destruct error; split; cbn; try done. by rewrite length_alter.
  - intros a adm. rewrite settled_outcome. exists 0%Z. lia.
  - intros a. destruct error; exists 0%Z; cbn; lia.
  - intros a adm Ha. destruct error as [error|]; [|reflexivity]. cbn [record_outcome].
    rewrite count_error_total by (by destruct Ha; split). change (errors_total (ActorCounters.fail a)) with (errors_total a).
    change (ActorCounters.failed _) with (add a.(ActorCounters.failed) 1) at 2. rewrite add_same. exists 0%Z. lia.
  - intros a Ha. rewrite settled_outcome. destruct error; exists 0%Z; cbn; lia.
Qed.
Lemma settle_counters_local m self error now histograms : ticket_ok m self → self.(Ticket.settled) = false → self.(Ticket.accepted) = true →
  local_balance (settle_counters self error now histograms) id (accepted_live self) 0 (dispatched_live self) 0 (started_live self) 0.
Proof.
  intros Hok Hs Ha. unfold accepted_live, dispatched_live, started_live. rewrite Hs, Ha. cbn [andb negb]. rewrite !andb_true_r.
  set (z := N.b2n (bool_decide (is_Some self.(Ticket.started)))).
  set (f1 := if self.(Ticket.dispatched) then ActorCounters.undispatch else id).
  set (execution := match self.(Ticket.execution) with Some execution => Some execution | None => since now <$> self.(Ticket.started) end).
  set (f2 := match execution, self.(Ticket.enqueued) with
               | Some execution, _ => ActorCounters.record_execution execution histograms
               | None, Some enqueued => ActorCounters.record_queue (since now enqueued) histograms
               | None, None => id
               end).
  assert (local_balance f1 id 1 1 (N.b2n self.(Ticket.dispatched)) 0 z z) as L1.
  { unfold f1. destruct self.(Ticket.dispatched); [apply local_undispatch|apply local_id]. }
  assert (local_balance f2 id 1 1 0 0 z 1) as L2.
  { assert (bool_decide (is_Some execution) = bool_decide (is_Some self.(Ticket.started))) as E.
    { apply bool_decide_ext. unfold execution. destruct self.(Ticket.execution) as [e|] eqn:Ee.
      - split; [|eauto]. intros _. apply (execution_started _ _ Hok). rewrite Ee. eauto.
      - by rewrite fmap_is_Some. }
    unfold f2, z. rewrite <- E. destruct execution; [apply local_record_execution|].
    destruct (enqueued_ok _ _ Hok Ha) as [e ->]. apply local_record_queue. }
  pose proof (local_compose _ _ _ _ _ _ _ _ _ _ _ (local_compose _ _ _ _ _ _ _ _ _ _ _ L1 L2) (local_outcome error 0)) as L.
  enough (settle_counters self error now histograms = λ a, record_outcome error (f2 (f1 a))) as -> by exact L.
  unfold settle_counters, f1, f2, record_outcome, execution, id. by repeat case_match.
Qed.

(** What the calls of tickets leave alone. *)
Record frame (m m' : Metrics.t) : Prop := {
  frame_histograms : m'.(Metrics.histograms) = m.(Metrics.histograms);
  frame_snapshot_bytes : m'.(Metrics.snapshot_bytes) = m.(Metrics.snapshot_bytes);
  frame_phases : m'.(Metrics.phases) = m.(Metrics.phases);
  frame_succeeded : m'.(Metrics.phase_succeeded) = m.(Metrics.phase_succeeded);
  frame_failed : m'.(Metrics.phase_failed) = m.(Metrics.phase_failed);
  frame_reader : m'.(Metrics.reader) = m.(Metrics.reader) }.
Lemma frame_refl m : frame m m.
Proof. by split. Qed.
Lemma frame_trans m m' m'' : frame m m' → frame m' m'' → frame m m''.
Proof. intros [] []. split; congruence. Qed.
Lemma with_operation_frame m operation f m' : with_operation m operation f = Ok m' → frame m m'.
Proof. unfold with_operation. destruct (_ !! _); [|done]. cbn. intros ->%Ok_inv. by split. Qed.
Lemma with_actor_frame m operation worker f m' : with_actor m operation worker f = Ok m' → frame m m'.
Proof.
  destruct worker as [w|]; [|apply with_operation_frame]. unfold with_actor. destruct (worker_actor m operation w) as [[[class row] actor]| | |]; [|done..].
  cbn. intros ->%Ok_inv. by split.
Qed.

(** The calls on a ticket. *)
Module Action.
Inductive t := Bind (worker : N) | Arm (enqueued : N) | Dispatch | Start (started : N) | Finish (finished : N) | Mutations (count : N) | Settle (error : option string) (now : N).
End Action.
Definition act (a : Action.t) : TicketM :=
  match a with
  | Action.Bind worker => bind_worker worker
  | Action.Arm enqueued => arm_at enqueued
  | Action.Dispatch => dispatch
  | Action.Start started => start_at started
  | Action.Finish finished => finish_at finished
  | Action.Mutations count => mutations count
  | Action.Settle error now => settle error now
  end.
(** An operation that has settled is not armed or dispatched. *)
Definition orderly (a : Action.t) (t : Ticket.t) : bool :=
  match a with Action.Arm _ | Action.Dispatch => negb t.(Ticket.settled) | _ => true end.
(** What an action on ticket [i] keeps. *)
Record kept (m : Metrics.t) (tickets : list Ticket.t) (i : nat) (m' : Metrics.t) (t' : Ticket.t) : Prop := {
  kept_metrics : metrics_ok m';
  kept_balance : balanced m' (<[i := t']> tickets);
  kept_ticket : ticket_ok m' t';
  kept_workers : lenN m'.(Metrics.search_workers) = lenN m.(Metrics.search_workers);
  kept_frame : frame m m' }.
Lemma kept_actor m tickets i t t' f : metrics_ok m → Forall (ticket_ok m) tickets → balanced m tickets → tickets !! i = Some t →
  t'.(Ticket.operation) = t.(Ticket.operation) → t'.(Ticket.worker) = t.(Ticket.worker) → (∀ m', lenN m'.(Metrics.search_workers) = lenN m.(Metrics.search_workers) → ticket_ok m' t') →
  local_balance f id (accepted_live t) (accepted_live t') (dispatched_live t) (dispatched_live t') (started_live t) (started_live t') →
  ∃ m', with_actor m t.(Ticket.operation) t.(Ticket.worker) f = Ok m' ∧ kept m tickets i m' t'.
Proof.
  intros Hm Htickets Hb Ht Eo Ew Ht' Hl. pose proof (Forall_lookup_1 _ _ _ _ Htickets Ht) as Hok.
  destruct (with_actor_changed m t.(Ticket.operation) t.(Ticket.worker) f Hm (operation_ok _ _ Hok) (binding_ok _ _ Hok)) as (m' & E & Hc & _).
  destruct (ticket_changed m m' tickets i t t' f) as [Hm' Hb']; try done.
  exists m'. split; [done|]. pose proof (changed_workers _ _ _ _ _ _ Hc). split; try done; [by apply Ht'|]. by eapply with_actor_frame.
Qed.
Lemma kept_same m tickets i t t' : metrics_ok m → Forall (ticket_ok m) tickets → balanced m tickets → tickets !! i = Some t →
  t'.(Ticket.operation) = t.(Ticket.operation) → accepted_live t' = accepted_live t →
  (∀ op j, of_actor op j dispatched_live t' = of_actor op j dispatched_live t) → (∀ op j, of_actor op j started_live t' = of_actor op j started_live t) →
  ticket_ok m t' → kept m tickets i m t'.
Proof. intros. split; [done|by apply (balanced_replace m tickets i t)|done|done|apply frame_refl]. Qed.
Lemma kept_unchanged m tickets i t : metrics_ok m → Forall (ticket_ok m) tickets → balanced m tickets → tickets !! i = Some t → kept m tickets i m t.
Proof. intros Hm Htickets Hb Ht. apply (kept_same m tickets i t t); try done. by apply (Forall_lookup_1 _ _ _ _ Htickets Ht). Qed.

Section Acting.
Context (m : Metrics.t) (tickets : list Ticket.t) (i : nat) (t : Ticket.t).
Hypothesis Hm : metrics_ok m.
Hypothesis Htickets : Forall (ticket_ok m) tickets.
Hypothesis Hb : balanced m tickets.
Hypothesis Ht : tickets !! i = Some t.
Lemma live_ticket_ok : ticket_ok m t.
Proof using All. by apply (Forall_lookup_1 _ _ _ _ Htickets Ht). Qed.
Lemma bind_kept worker : ∃ m' t', bind_worker worker (m, t) = Ok (m', t') ∧ kept m tickets i m' t'.
Proof using All.
  pose proof live_ticket_ok as Hok. unfold bind_worker. case_match eqn:E; [|by eexists _, _; split; [done|apply kept_unchanged]].
  rewrite !andb_true_iff, negb_true_iff, N.leb_le, !N.ltb_lt, negb_true_iff, bool_decide_eq_true in E. destruct E as ((((Ew & Ed) & Es) & Hop) & Hlt).
  eexists _, _. split; [done|]. apply (kept_same m tickets i t); try done.
  - intros op j. unfold of_actor, dispatched_live. cbn. rewrite Ed. by repeat case_match.
  - intros op j. unfold of_actor, started_live. cbn. destruct (bool_decide (is_Some t.(Ticket.started))) eqn:E; [|by repeat case_match].
    apply bool_decide_eq_true in E. by rewrite (started_ok _ _ Hok E) in Ed.
  - destruct Hok as [Ho Hw ? ? ? ?]. split; try done. intros w [= <-]. done.
Qed.
Lemma dispatch_kept : t.(Ticket.settled) = false → ∃ m' t', dispatch (m, t) = Ok (m', t') ∧ kept m tickets i m' t' ∧ t'.(Ticket.dispatched) = t.(Ticket.accepted)
  ∧ (t' = t ∨ t' = Ticket.set_dispatched t).
Proof using All.
  intros Hs. pose proof live_ticket_ok as Hok. unfold dispatch. destruct (t.(Ticket.accepted)) eqn:Ea; cbn [andb].
  - destruct (t.(Ticket.dispatched)) eqn:Ed; cbn [negb]; [eexists _, _; split; [done|]; split_and!; [by apply kept_unchanged|done|by left]|].
    destruct (kept_actor m tickets i t (Ticket.set_dispatched t) ActorCounters.dispatch) as (m' & E & Hk); try done.
    + intros m' Ew. apply (ticket_ok_workers m); [done|]. by destruct Hok; split.
    + unfold dispatched_live. cbn. rewrite Ed, Hs. apply local_dispatch.
    + rewrite E. cbn [mbind outcome_bind]. eexists _, _. split; [done|]. split_and!; [done..|by right].
  - eexists _, _. split; [done|]. split_and!; [by apply kept_unchanged| |by left].
    destruct (t.(Ticket.dispatched)) eqn:Ed; [|done]. by rewrite (dispatched_ok _ _ Hok Ed) in Ea.
Qed.
Lemma finish_kept finished : ∃ m' t', finish_at finished (m, t) = Ok (m', t') ∧ kept m tickets i m' t'.
Proof using All.
  unfold finish_at. case_match; [|by eexists _, _; split; [done|apply kept_unchanged]].
  eexists _, _. split; [done|]. apply (kept_same m tickets i t); try done. destruct live_ticket_ok. split; try done. cbn. by rewrite fmap_is_Some.
Qed.
Lemma settle_kept error now : ∃ m' t', settle error now (m, t) = Ok (m', t') ∧ kept m tickets i m' t' ∧ t'.(Ticket.settled) = true.
Proof using All.
  pose proof live_ticket_ok as Hok. unfold settle. destruct (t.(Ticket.settled)) eqn:Es; [by eexists _, _; split; [done|]; split; [apply kept_unchanged|]|].
  edestruct (kept_actor m tickets i t (Ticket.set_settled t)) as (m' & E & Hk); [done..| | |rewrite E; cbn [mbind outcome_bind]; eexists _, _; done].
  - intros m' Ew. apply (ticket_ok_workers m); [done|]. by destruct Hok; split.
  - change (accepted_live (Ticket.set_settled t)) with (N.b2n (t.(Ticket.accepted) && false)).
    change (dispatched_live (Ticket.set_settled t)) with (N.b2n (t.(Ticket.dispatched) && false)).
    change (started_live (Ticket.set_settled t)) with (N.b2n (bool_decide (is_Some t.(Ticket.started)) && false)). rewrite !andb_false_r. cbn [N.b2n].
    destruct (t.(Ticket.accepted)) eqn:Ea; [by apply (settle_counters_local m)|].
    unfold accepted_live, dispatched_live, started_live. rewrite Ea. destruct (t.(Ticket.dispatched)) eqn:Ed; [by rewrite (dispatched_ok _ _ Hok Ed) in Ea|].
    destruct (bool_decide (is_Some t.(Ticket.started))) eqn:E; [|apply local_id]. apply bool_decide_eq_true in E. by rewrite (started_ok _ _ Hok E) in Ed.
Qed.
Lemma arm_kept enqueued : t.(Ticket.settled) = false → ∃ m' t', arm_at enqueued (m, t) = Ok (m', t') ∧ kept m tickets i m' t'.
Proof using All.
  intros Hs. pose proof live_ticket_ok as Hok. unfold arm_at. destruct (t.(Ticket.accepted)) eqn:Ea; cbn [negb]; [by eexists _, _; split; [done|apply kept_unchanged]|].
  assert (t.(Ticket.dispatched) = false) as Ed by (destruct (t.(Ticket.dispatched)) eqn:Ed; [by rewrite (dispatched_ok _ _ Hok Ed) in Ea|done]).
  destruct (with_operation_changed m t.(Ticket.operation) (Operation.admitted (AdmissionCounters.accept t.(Ticket.bytes))) id (AdmissionCounters.accept t.(Ticket.bytes)) Hm (operation_ok _ _ Hok))
    as (m' & E & Hc & _); [done..|]. rewrite E. cbn [mbind outcome_bind]. eexists _, _. split; [done|].
  assert (local_balance id (AdmissionCounters.accept t.(Ticket.bytes)) 0 1 0 0 0 0) as Hl.
  { split; unfold id; intros; cbn; [done| |reflexivity|reflexivity|reflexivity]. rewrite add_same. exists 0%Z. lia. }
  split.
  - by apply (changed_metrics_ok m m' _ _ id _ (operation_ok _ _ Hok) Hc Hm _ _ _ _ _ _ Hl).
  - apply (changed_balanced m m' _ _ id _ (operation_ok _ _ Hok) Hc Hm _ _ _ _ _ _ Hl tickets); [intros op|intros op j|intros op j|done].
    + pose proof (total_operation accepted_live t (Ticket.accept t enqueued) tickets i op Ht eq_refl) as H. unfold accepted_live at 2 4 in H. cbn in H. by rewrite Ea, Hs in H.
    + pose proof (total_actor dispatched_live t (Ticket.accept t enqueued) tickets i op j Ht eq_refl eq_refl) as H. change (dispatched_live (Ticket.accept _ _)) with (dispatched_live t) in H.
      repeat case_match; lia.
    + pose proof (total_actor started_live t (Ticket.accept t enqueued) tickets i op j Ht eq_refl eq_refl) as H. change (started_live (Ticket.accept _ _)) with (started_live t) in H.
      repeat case_match; lia.
  - apply (ticket_ok_workers m); [apply (changed_workers _ _ _ _ _ _ Hc)|]. destruct Hok. by split.
  - apply (changed_workers _ _ _ _ _ _ Hc).
  - by eapply with_operation_frame.
Qed.
Lemma kept_tickets m' t' : kept m tickets i m' t' → Forall (ticket_ok m') (<[i := t']> tickets).
Proof using All.
  intros [? ? Ht' Hw ?]. apply Forall_insert; [|done]. apply (Forall_impl _ _ _ Htickets). intros x. by apply ticket_ok_workers.
Qed.
Lemma kept_trans m' t' m'' t'' : kept m tickets i m' t' → kept m' (<[i := t']> tickets) i m'' t'' → kept m tickets i m'' t''.
Proof using All.
  intros Hk [Hm'' Hb'' Ht'' Hw'' Hf'']. rewrite list_insert_insert_eq in Hb''. split; try done; [by rewrite Hw'', (kept_workers _ _ _ _ _ Hk)|].
  by apply (frame_trans _ m'), Hf''; apply (kept_frame _ _ _ _ _ Hk).
Qed.
Lemma mutations_kept count : ∃ m' t', mutations count (m, t) = Ok (m', t') ∧ kept m tickets i m' t'.
Proof using All.
  pose proof live_ticket_ok as Hok.
  destruct (with_operation_changed m t.(Ticket.operation) (Operation.mutate count) id id Hm (operation_ok _ _ Hok)) as (m' & E & Hc & _); [done..|].
  unfold mutations. rewrite E. cbn [mbind outcome_bind]. eexists _, _. split; [done|].
  pose proof (local_id 0 0 0) as Hl. split.
  - by apply (changed_metrics_ok m m' _ _ id _ (operation_ok _ _ Hok) Hc Hm _ _ _ _ _ _ Hl).
  - rewrite list_insert_id by done. apply (changed_balanced m m' _ _ id _ (operation_ok _ _ Hok) Hc Hm _ _ _ _ _ _ Hl tickets); [done..|]. done.
  - apply (ticket_ok_workers m); [apply (changed_workers _ _ _ _ _ _ Hc)|done].
  - apply (changed_workers _ _ _ _ _ _ Hc).
  - by eapply with_operation_frame.
Qed.
End Acting.
Lemma start_kept m tickets i t started : metrics_ok m → Forall (ticket_ok m) tickets → balanced m tickets → tickets !! i = Some t →
  ∃ m' t', start_at started (m, t) = Ok (m', t') ∧ kept m tickets i m' t'.
Proof.
  intros Hm Htickets Hb Ht. pose proof (live_ticket_ok m tickets i t Hm Htickets Hb Ht) as Hok. unfold start_at. case_match eqn:E; [by eexists _, _; split; [done|apply kept_unchanged]|].
  rewrite !orb_false_iff, negb_false_iff, bool_decide_eq_false in E. destruct E as ((Ea & Est) & Es).
  destruct (dispatch_kept m tickets i t Hm Htickets Hb Ht Es) as (m1 & t1 & E1 & Hk & Ed & Et). rewrite E1. cbn [mbind outcome_bind].
  destruct (enqueued_ok _ _ Hok Ea) as [e Ee].
  assert (t1.(Ticket.enqueued) = Some e ∧ t1.(Ticket.settled) = false ∧ t1.(Ticket.started) = None ∧ t1.(Ticket.dispatched) = true) as (Ee1 & Es1 & Est1 & Ed1).
  { rewrite Ed. split_and!; [..|done]; destruct Et as [->| ->]; cbn; try done; by apply eq_None_not_Some. }
  rewrite Ee1. pose proof (kept_tickets m tickets i t Hm Htickets Hb Ht _ _ Hk) as Htickets1. pose proof (kept_ticket _ _ _ _ _ Hk) as Hok1.
  destruct (kept_actor m1 (<[i := t1]> tickets) i t1 (Ticket.set_started t1 started) (ActorCounters.record_queue (since started e) m1.(Metrics.histograms))) as (m2 & E2 & Hk2); try done.
  - apply (kept_metrics _ _ _ _ _ Hk).
  - apply (kept_balance _ _ _ _ _ Hk).
  - apply list_lookup_insert_eq. by eapply lookup_lt_Some.
  - intros m' Ew. apply (ticket_ok_workers m1); [done|]. by destruct Hok1; split.
  - unfold started_live. cbn. rewrite Est1, Es1. apply local_record_queue.
  - rewrite E2. cbn [mbind outcome_bind]. eexists _, _. split; [done|]. by apply (kept_trans m tickets i t Hm Htickets Hb Ht _ _ _ _ Hk).
Qed.
Lemma act_kept a m tickets i t : metrics_ok m → Forall (ticket_ok m) tickets → balanced m tickets → tickets !! i = Some t → orderly a t = true →
  ∃ m' t', act a (m, t) = Ok (m', t') ∧ kept m tickets i m' t'.
Proof.
  intros Hm Htickets Hb Ht Ho. destruct a; cbn [act orderly] in *; try apply negb_true_iff in Ho.
  - by apply bind_kept.
  - by apply arm_kept.
  - destruct (dispatch_kept m tickets i t) as (m' & t' & ? & ? & _); eauto.
  - by apply start_kept.
  - by apply finish_kept.
  - by apply mutations_kept.
  - destruct (settle_kept m tickets i t Hm Htickets Hb Ht error now) as (m' & t' & ? & ? & _); eauto.
Qed.
