(* ===== verification/Ledger.v ===== *)
(** * The counters of an index balance

    The calls that the actors of an index make on its counters and on the tickets
    of its operations, in any order, as steps of a world.  In every world that is
    reached the counters balance and no call panics. *)
From S2P Require Import Prelude.
From S2P Require Import Errors.
From S2P Require Import Bytes.
From S2P Require Import Budget.
From S2P Require Import Metrics.
From S2P Require Import Status.
From S2P Require Import Tickets.
Local Open Scope N_scope.

(** ** The world *)
Module World.
Record t := mk { metrics : Metrics.t; tickets : list Ticket.t }.
End World.
Module Event.
Inductive t :=
| Attempt (operation : N)
| Reject (operation : N) (error : string)
| Open (operation bytes : N)
| On (ticket : nat) (action : Action.t)
| Drop (ticket : nat) (now : N)
| Phase (phase duration : N) (success : bool)
| BeginTeardown (started : N)
| FinishTeardown (finished : N) (success : bool)
| InstallReader (values : option ReaderValues.t) (duration now : N)
| InstallBytes (signature : Signature) (result : Observed.t) (duration now : N)
| Configure (histograms bytes : bool).
End Event.
Definition keep (w : World.t) (m : outcome Metrics.t) : outcome World.t := m ← m; Ok (World.mk m w.(World.tickets)).
Definition on_ticket (w : World.t) (i : nat) (f : TicketM) (g : Ticket.t → list Ticket.t) : outcome World.t :=
  match w.(World.tickets) !! i with
  | Some t => '(m, t) ← f (w.(World.metrics), t); Ok (World.mk m (g t))
  | None => Ok w
  end.
Definition step (w : World.t) (e : Event.t) : outcome World.t :=
  let m := w.(World.metrics) in
  match e with
  | Event.Attempt operation => keep w (attempt m operation)
  | Event.Reject operation error => keep w (reject m operation error)
  | Event.Open operation bytes => Ok (World.mk m (w.(World.tickets) ++ [Ticket.new operation bytes]))
  | Event.On i action => on_ticket w i (act action) (λ t, <[i := t]> w.(World.tickets))
  | Event.Drop i now => on_ticket w i (drop_ticket now) (λ _, delete i w.(World.tickets))
  | Event.Phase i duration success => keep w (phase m i duration success)
  | Event.BeginTeardown started => Ok (World.mk (begin_teardown_at m started) w.(World.tickets))
  | Event.FinishTeardown finished success => keep w (finish_teardown_at m finished success)
  | Event.InstallReader values duration now => Ok (World.mk (install_reader m values duration now) w.(World.tickets))
  | Event.InstallBytes signature result duration now => Ok (World.mk (observe_bytes_end m signature result duration now) w.(World.tickets))
  | Event.Configure histograms bytes => Ok (World.mk (configure m histograms bytes) w.(World.tickets))
  end.
Definition opened (workers : N) : World.t := World.mk (with_search_workers workers) [].

(** ** The runs *)
Section Runs.
(** The size of the files of a reader. *)
Context (size : Signature → N).
(** An operation is one of [OP_NAMES] and a phase one of three; a ticket that has
    settled is not armed or dispatched; bytes are those of the reader they were
    measured for. *)
Definition permitted (w : World.t) (e : Event.t) : Prop :=
  match e with
  | Event.Attempt operation | Event.Reject operation _ | Event.Open operation _ => operation < lenN OP_NAMES
  | Event.On i action => match w.(World.tickets) !! i with Some t => orderly action t = true | None => True end
  | Event.Phase i _ _ => i < 3
  | Event.InstallBytes signature (Observed.Bytes bytes) _ _ => bytes = size signature
  | _ => True
  end.
Inductive reachable (workers : N) : World.t → Prop :=
| reachable_opened : reachable workers (opened workers)
| reachable_step w e w' : reachable workers w → permitted w e → step w e = Ok w' → reachable workers w'.
#[export] Instance permitted_dec w e : Decision (permitted w e).
Proof. destruct e as [| | |i a| | | | | |? [] ? ?|]; cbn; try apply _. destruct (_ !! i); apply _. Defined.
(** The world after some calls, if they are permitted. *)
Fixpoint run (w : World.t) (es : list Event.t) : option World.t :=
  match es with
  | [] => Some w
  | e :: es => if decide (permitted w e) then match step w e with Ok w => run w es | _ => None end else None
  end.
Lemma run_reachable workers w es : reachable workers w → run w es <> None → reachable workers (default w (run w es)).
Proof.
  intros Hw Hr. destruct (run w es) as [w'|] eqn:E; [|done]. cbn. clear Hr. revert w Hw E. induction es as [|e es IH]; intros w Hw; cbn.
  - by intros [= <-].
  - destruct (decide (permitted w e)) as [He|]; [|done]. destruct (step w e) as [v| | |] eqn:Es; [|done..]. apply IH. by apply (reachable_step _ w e).
Qed.

(** ** The invariant *)
Record phases_ok (m : Metrics.t) : Prop := {
  three_phases : length m.(Metrics.phases) = 3%nat ∧ length m.(Metrics.phase_succeeded) = 3%nat ∧ length m.(Metrics.phase_failed) = 3%nat;
  phase_latencies : Forall latency_ok m.(Metrics.phases);
  phase_balance i l s f : m.(Metrics.phases) !! i = Some l → m.(Metrics.phase_succeeded) !! i = Some s → m.(Metrics.phase_failed) !! i = Some f →
    same l.(Latency.count) (s + f) }.
Record reader_ok (m : Metrics.t) : Prop := {
  bytes_of_signature b : m.(Metrics.reader).(ReaderStats.bytes) = Some b → b = size m.(Metrics.reader).(ReaderStats.signature);
  measured_current s : m.(Metrics.reader).(ReaderStats.bytes_signature) = Some s → s = m.(Metrics.reader).(ReaderStats.signature);
  bytes_measured : is_Some m.(Metrics.reader).(ReaderStats.bytes) → is_Some m.(Metrics.reader).(ReaderStats.bytes_signature);
  pending_wanted : m.(Metrics.reader).(ReaderStats.bytes_pending) = true → m.(Metrics.snapshot_bytes) = true ∧ m.(Metrics.reader).(ReaderStats.bytes) = None }.
Record world_ok (w : World.t) : Prop := {
  world_metrics : metrics_ok w.(World.metrics);
  world_balance : balanced w.(World.metrics) w.(World.tickets);
  world_tickets : Forall (ticket_ok w.(World.metrics)) w.(World.tickets);
  world_phases : phases_ok w.(World.metrics);
  world_reader : reader_ok w.(World.metrics) }.
Lemma reader_same m m' : m'.(Metrics.reader) = m.(Metrics.reader) → m'.(Metrics.snapshot_bytes) = m.(Metrics.snapshot_bytes) → reader_ok m → reader_ok m'.
Proof. intros Er Es [H1 H2 H3 H4]. split; rewrite ?Er, ?Es; done. Qed.
Lemma reader_frame m m' : frame m m' → reader_ok m → reader_ok m'.
Proof. intros [_ Es _ _ _ Er]. by apply reader_same. Qed.
Lemma phases_same m m' : m'.(Metrics.phases) = m.(Metrics.phases) → m'.(Metrics.phase_succeeded) = m.(Metrics.phase_succeeded) →
  m'.(Metrics.phase_failed) = m.(Metrics.phase_failed) → phases_ok m → phases_ok m'.
Proof. intros Ep Es Ef [H1 H2 H3]. split; rewrite ?Ep, ?Es, ?Ef; done. Qed.
Lemma phases_frame m m' : frame m m' → phases_ok m → phases_ok m'.
Proof. intros [_ _ Ep Es Ef _]. by apply phases_same. Qed.
(** A change of the metrics that keeps operations and workers. *)
Lemma actors_same m m' op : m'.(Metrics.operations) = m.(Metrics.operations) → m'.(Metrics.search_workers) = m.(Metrics.search_workers) → actors_of m' op = actors_of m op.
Proof. intros E E'. unfold actors_of, own_actor, column. by rewrite E, E'. Qed.
Lemma admission_same m m' op : m'.(Metrics.operations) = m.(Metrics.operations) → admission_of m' op = admission_of m op.
Proof. intros E. unfold admission_of. by rewrite E. Qed.
Lemma world_aside w m' : m'.(Metrics.operations) = w.(World.metrics).(Metrics.operations) → m'.(Metrics.search_workers) = w.(World.metrics).(Metrics.search_workers) →
  world_ok w → phases_ok m' → reader_ok m' → world_ok (World.mk m' w.(World.tickets)).
Proof.
  intros E E' [[H8 H3 Ha] [B1 B2 B3 B4] Ht _ _] Hp Hr. split; cbn; try done.
  - split; [by rewrite E|by rewrite E'|]. intros op a. rewrite (actors_same _ _ _ E E'). apply Ha.
  - split; intros op; rewrite ?(actors_same _ _ _ E E'), ?(admission_same _ _ _ E); auto.
  - apply (Forall_impl _ _ _ Ht). intros t. apply ticket_ok_workers. by rewrite E'.
Qed.

(** ** Every call keeps it *)
(** A call on an operation and its own actor. *)
Lemma keep_operation w operation f fa ga : world_ok w → operation < 8 →
  (∀ op, (f op).(Operation.counters) = fa op.(Operation.counters)) → (∀ op, (f op).(Operation.admission) = ga op.(Operation.admission)) →
  local_balance fa ga 0 0 0 0 0 0 → ∃ w', keep w (with_operation w.(World.metrics) operation f) = Ok w' ∧ world_ok w'.
Proof.
  intros [Hm Hb Ht Hp Hr] Hop Hfa Hga Hl. destruct (with_operation_changed _ _ f fa ga Hm Hop Hfa Hga) as (m' & E & Hc & _).
  pose proof (with_operation_frame _ _ _ _ E) as Hf. unfold keep. rewrite E. cbn [mbind outcome_bind]. eexists. split; [done|]. split; cbn.
  - by apply (changed_metrics_ok _ m' _ _ fa ga Hop Hc Hm _ _ _ _ _ _ Hl).
  - apply (changed_balanced _ m' _ _ fa ga Hop Hc Hm _ _ _ _ _ _ Hl w.(World.tickets)); done.
  - apply (Forall_impl _ _ _ Ht). intros t. apply ticket_ok_workers, (changed_workers _ _ _ _ _ _ Hc).
  - by apply (phases_frame _ _ Hf).
  - by apply (reader_frame _ _ Hf).
Qed.
Lemma attempt_local : local_balance id AdmissionCounters.attempt 0 0 0 0 0 0.
Proof. split; unfold id; intros; cbn; done || reflexivity. Qed.
Lemma reject_local error : local_balance (ActorCounters.count_error error) AdmissionCounters.reject 0 0 0 0 0 0.
Proof.
  split; intros; try reflexivity.
  - destruct H as [? ? He]. split; cbn; try done. by rewrite length_alter.
  - rewrite count_error_total by done. cbn. rewrite add_same. exists 0%Z. lia.
Qed.
Lemma delete_replaced {A} (l : list A) i a : delete i (<[i := a]> l) = delete i l.
Proof. revert i. induction l as [|b l IH]; intros [|i]; [done..|]. cbn. f_equal. apply IH. Qed.
Lemma on_ticket_ok w i f g : world_ok w →
  (∀ t, w.(World.tickets) !! i = Some t → ∃ m' t', f (w.(World.metrics), t) = Ok (m', t') ∧ kept w.(World.metrics) w.(World.tickets) i m' t'
     ∧ (g t' = <[i := t']> w.(World.tickets) ∨ (g t' = delete i w.(World.tickets) ∧ t'.(Ticket.settled) = true))) →
  ∃ w', on_ticket w i f g = Ok w' ∧ world_ok w'.
Proof.
  intros Hw Hf. unfold on_ticket. destruct (w.(World.tickets) !! i) as [t|] eqn:Et; [|by eauto]. destruct (Hf t eq_refl) as (m' & t' & E & Hk & Hg).
  rewrite E. cbn [mbind outcome_bind]. destruct Hw as [Hm Hb Ht Hp Hr]. eexists. split; [done|].
  pose proof (kept_tickets _ _ _ _ Hm Ht Hb Et _ _ Hk) as Htickets. pose proof (kept_frame _ _ _ _ _ Hk) as Hframe. split; cbn.
  - apply Hk.
  - destruct Hg as [->|[-> Hs]]; [apply Hk|]. assert (i < length w.(World.tickets))%nat as Hi by by eapply lookup_lt_Some.
    rewrite <- (delete_replaced w.(World.tickets) i t'). by apply (balanced_delete _ _ _ t'); [apply list_lookup_insert_eq| |apply Hk].
  - destruct Hg as [->|[-> _]]; [done|]. rewrite <- (delete_replaced w.(World.tickets) i t'). by apply Forall_delete.
  - by apply (phases_frame _ _ Hframe).
  - by apply (reader_frame _ _ Hframe).
Qed.
Lemma bump_lookup (l : list N) (i j : nat) (n : N) : alter (λ n, add n 1) i l !! j = Some n → ∃ n0, l !! j = Some n0 ∧ n = if decide (j = i) then add n0 1 else n0.
Proof.
  destruct (decide (j = i)) as [->|Hn]; [rewrite list_lookup_alter_eq|rewrite list_lookup_alter_ne by done; eauto].
  intros (n0 & -> & ->)%fmap_Some. eauto.
Qed.
Lemma phase_kept m i duration success : phases_ok m → i < 3 → ∃ m', phase m i duration success = Ok m' ∧ phases_ok m'
  ∧ m'.(Metrics.operations) = m.(Metrics.operations) ∧ m'.(Metrics.search_workers) = m.(Metrics.search_workers)
  ∧ m'.(Metrics.reader) = m.(Metrics.reader) ∧ m'.(Metrics.snapshot_bytes) = m.(Metrics.snapshot_bytes).
Proof.
  intros [(L1 & L2 & L3) Hl Hp] Hi. unfold phase. destruct (lookup_lt_is_Some_2 m.(Metrics.phases) (N.to_nat i)) as [l El]; [lia|].
  destruct (lookup_lt_is_Some_2 (if success then m.(Metrics.phase_succeeded) else m.(Metrics.phase_failed)) (N.to_nat i)) as [c Ec]; [destruct success; lia|].
  rewrite El, Ec. cbn [unwrap mbind outcome_bind]. eexists. split; [done|]. split; [|by cbn]. pose proof (Forall_lookup_1 _ _ _ _ Hl El) as Hlat.
  destruct (record_ok l duration m.(Metrics.histograms) Hlat) as [Hrec Hcount]. split; cbn [Metrics.set_phases Metrics.phases Metrics.phase_succeeded Metrics.phase_failed].
  - destruct success; unfold id; by rewrite ?length_alter, length_insert.
  - by apply Forall_insert.
  - intros j l' s f Hl' Hs Hf. apply list_lookup_insert_Some in Hl' as [(<- & <- & _)|(Hne & Hl')].
    + rewrite Hcount. destruct success; unfold id in Hs, Hf.
      * apply bump_lookup in Hs as (s0 & Hs & ->). rewrite decide_True by done. rewrite (Hp _ _ _ _ El Hs Hf), add_same. exists 0%Z. lia.
      * apply bump_lookup in Hf as (f0 & Hf & ->). rewrite decide_True by done. rewrite (Hp _ _ _ _ El Hs Hf), add_same. exists 0%Z. lia.
    + destruct success; unfold id in Hs, Hf.
      * apply bump_lookup in Hs as (s0 & Hs & ->). rewrite decide_False by done. by apply (Hp j).
      * apply bump_lookup in Hf as (f0 & Hf & ->). rewrite decide_False by done. by apply (Hp j).
Qed.
Lemma install_reader_kept m values duration now : reader_ok m → reader_ok (install_reader m values duration now).
Proof.
  intros [H1 H2 H3 H4]. unfold install_reader. destruct values as [v|]; [|by split]. case_bool_decide as E; split; cbn.
  - intros b Hb. rewrite (H1 b Hb). f_equal. symmetry. by apply H2.
  - intros s Hs. rewrite E in Hs. by injection Hs as <-.
  - apply H3.
  - by rewrite andb_false_r.
  - done.
  - done.
  - by intros [? ?].
  - by rewrite andb_true_r.
Qed.
Lemma install_bytes_kept m signature result duration now : reader_ok m → (∀ b, result = Observed.Bytes b → b = size signature) →
  reader_ok (observe_bytes_end m signature result duration now).
Proof.
  intros [H1 H2 H3 H4] Hr. unfold observe_bytes_end. case_bool_decide as E; cbn [negb]; [|by split]. destruct result; split; cbn; try done.
  - intros b [= <-]. rewrite E. by apply Hr.
  - by intros s [= <-].
Qed.
Lemma configure_kept m histograms bytes : reader_ok m → reader_ok (configure m histograms bytes).
Proof.
  intros [H1 H2 H3 H4]. split; cbn; try done. intros [-> Hn]%andb_true_iff. split; [done|]. apply negb_true_iff, bool_decide_eq_false in Hn.
  destruct (ReaderStats.bytes (Metrics.reader m)) eqn:Eb; [|done]. destruct H3 as [s Hs]; [eauto|]. destruct Hn. by rewrite Hs, (H2 _ Hs).
Qed.
Lemma step_ok w e : world_ok w → permitted w e → ∃ w', step w e = Ok w' ∧ world_ok w'.
Proof.
  intros Hw He. pose proof Hw as [Hm Hb Ht Hp Hr]. destruct e; cbn [step permitted] in *.
  - apply (keep_operation w _ _ id AdmissionCounters.attempt); [done..|apply attempt_local].
  - apply (keep_operation w _ _ (ActorCounters.count_error error) AdmissionCounters.reject); [done..|apply reject_local].
  - eexists. split; [done|]. split; cbn; try done.
    + destruct Hb as [B1 B2 B3 B4]. split; intros op; [intros adm|intros k a|apply B3|intros k a]; rewrite total_app, total_cons; intros H8 Hx.
      1: rewrite (B1 op adm H8 Hx). 2: rewrite (B2 op k a H8 Hx). 3: rewrite (B4 op k a H8 Hx).
      all: unfold of_operation, of_actor, accepted_live, dispatched_live, started_live, total; cbn; repeat case_match; exists 0%Z; cbn; lia.
    + apply Forall_app. split; [done|]. apply Forall_singleton. split; cbn; try done. all: by intros [? ?].
  - apply on_ticket_ok; [done|]. intros t Et. rewrite Et in He. destruct (act_kept action _ _ _ t Hm Ht Hb Et He) as (m' & t' & ? & ?). eauto 6.
  - apply on_ticket_ok; [done|]. intros t Et. destruct (settle_kept _ _ _ _ Hm Ht Hb Et (Some "E_CLOSED"%string) now) as (m' & t' & ? & ? & ?). eauto 8.
  - destruct (phase_kept _ _ duration success Hp He) as (m' & E & Hp' & E1 & E2 & E3 & E4). unfold keep. rewrite E. cbn [mbind outcome_bind]. eexists. split; [done|].
    apply world_aside; try done. by apply (reader_same _ _ E3 E4).
  - eexists. split; [done|]. apply world_aside; [done..| |]; [by apply (phases_same w.(World.metrics))|by apply (reader_same w.(World.metrics))].
  - unfold keep, finish_teardown_at. destruct (Metrics.teardown_started w.(World.metrics)) as [started|]; [|cbn [mbind outcome_bind]; eexists; split; [done|by destruct w]].
    destruct (phase_kept (Metrics.set_teardown w.(World.metrics) None) 2 (since finished started) success) as (m' & E & Hp' & E1 & E2 & E3 & E4); [by apply (phases_same w.(World.metrics))|done|].
    rewrite E. cbn [mbind outcome_bind]. eexists. split; [done|]. apply world_aside; try done. by apply (reader_same w.(World.metrics)).
  - eexists. split; [done|]. apply world_aside; [by destruct values|by destruct values|done| |by apply install_reader_kept].
    apply (phases_same w.(World.metrics)); by destruct values.
  - eexists. split; [done|]. assert (∀ b, result = Observed.Bytes b → b = size signature) as Hres by (by intros b ->).
    apply world_aside; [| |done| |by apply install_bytes_kept]; [| |apply (phases_same w.(World.metrics)); try done];
      unfold observe_bytes_end; by repeat case_match.
  - eexists. split; [done|]. apply world_aside; [done..| |by apply configure_kept]. by apply (phases_same w.(World.metrics)).
Qed.
Lemma default_latency_ok : latency_ok Latency.default.
Proof. split; [done|]. by exists 0%Z. Qed.
Lemma default_actor_ok : actor_ok ActorCounters.default.
Proof. split; [apply default_latency_ok..|done]. Qed.
Lemma opened_operation (op : N) : op < 8 → replicate 8 Operation.default !! N.to_nat op = Some Operation.default.
Proof. intros H. apply lookup_replicate. split; [done|lia]. Qed.
Lemma opened_actor workers op a : a ∈ actors_of (with_search_workers workers) op → a = ActorCounters.default.
Proof.
  unfold actors_of, own_actor, column. rewrite elem_of_app. intros [H|H].
  - destruct (Metrics.operations _ !! _) as [o|] eqn:Ho; [|by apply not_elem_of_nil in H]. apply list_elem_of_singleton in H as ->.
    by apply (lookup_replicate 8 Operation.default) in Ho as [-> _].
  - case_match eqn:E; [|by apply not_elem_of_nil in H]. apply andb_true_iff in E as [E1%N.leb_le E2%N.ltb_lt].
    apply list_elem_of_fmap in H as (row & -> & Hrow). apply elem_of_replicate in Hrow as [-> _]. by rewrite lookup_replicate_2 by lia.
Qed.
Lemma total_zero {A} (f : A → N) l : (∀ a, a ∈ l → f a = 0) → total f l = 0.
Proof. induction l as [|a l IH]; intros H; [done|]. rewrite total_cons, IH, H by set_solver. done. Qed.
Lemma opened_ledger_ok workers : world_ok (opened workers).
Proof.
  split; cbn.
  - split; [done|by apply Forall_replicate|]. intros op a ->%opened_actor. apply default_actor_ok.
  - assert (∀ op adm, op < 8 → admission_of (with_search_workers workers) op = Some adm → adm = AdmissionCounters.default) as Hadm.
    { intros op adm Hop. unfold admission_of. cbn. rewrite opened_operation by done. by intros [= <-]. }
    split.
    + intros op adm Hop ->%Hadm; [|done]. rewrite (total_zero settled_total) by (by intros a ->%opened_actor). done.
    + intros op k a Hop Hk. apply list_elem_of_lookup_2, opened_actor in Hk as ->. done.
    + intros op adm Hop ->%Hadm; [|done]. rewrite !total_zero by (by intros a ->%opened_actor). done.
    + intros op k a Hop Hk. apply list_elem_of_lookup_2, opened_actor in Hk as ->. done.
  - done.
  - split; [done| |]; [repeat constructor; apply default_latency_ok|].
    intros i l s f Hl Hs Hf. cbn [with_search_workers Metrics.phases Metrics.phase_succeeded Metrics.phase_failed] in Hl, Hs, Hf.
    apply lookup_replicate in Hl as [-> _]. apply lookup_replicate in Hs as [-> _]. by apply lookup_replicate in Hf as [-> _].
  - split; try done. by intros [? ?].
Qed.
Lemma reachable_ok workers w : reachable workers w → world_ok w.
Proof. induction 1 as [|w e w' _ IH He E]; [apply opened_ledger_ok|]. destruct (step_ok w e IH He) as (w'' & E' & Hw). rewrite E in E'. by injection E' as ->. Qed.
End Runs.

(** ** What the status page adds up *)
Lemma actor_values_sum m op : metrics_ok m → op < 8 → actor_values m op = Ok (foldl ActorValues.include ActorValues.default (actors_of m op)).
Proof.
  intros Hm Hop. unfold actor_values, actors_of, own_actor, column. destruct (lookup_lt_is_Some_2 m.(Metrics.operations) (N.to_nat op)) as [o Eo]; [rewrite (eight_operations _ Hm); lia|].
  rewrite Eo. cbn [unwrap mbind outcome_bind option_list fmap option_fmap option_map app foldl]. unfold checked_sub.
  destruct (N.leb_spec 5 op) as [H5|H5]; cbn [mbind option_bind andb]; [|done].
  rewrite (proj2 (N.ltb_lt (op - 5) 3)), (proj2 (N.ltb_lt op 8)) by lia. rewrite foldl_app.
  change (foldl ActorValues.include ActorValues.default (option_list (Some o.(Operation.counters)))) with (ActorValues.include ActorValues.default o.(Operation.counters)).
  generalize (ActorValues.include ActorValues.default o.(Operation.counters)).
  pose proof (three_classes _ Hm) as H3. revert H3. generalize m.(Metrics.search_workers).
  induction 1 as [|row rows Hrow _ IH]; intros values; [reflexivity|].
  cbn [foldO fmap list_fmap foldl]. destruct (lookup_lt_is_Some_2 row (N.to_nat (op - 5))) as [a Ea]; [lia|]. rewrite Ea. cbn [unwrap mbind outcome_bind default]. apply IH.
Qed.
(** The sums of a field over the actors. *)
Lemma include_sums l values : let values' := foldl ActorValues.include values l in
  same values'.(ActorValues.dispatched) (values.(ActorValues.dispatched) + total ActorCounters.dispatched l)
  ∧ same values'.(ActorValues.succeeded) (values.(ActorValues.succeeded) + total ActorCounters.succeeded l)
  ∧ same values'.(ActorValues.failed) (values.(ActorValues.failed) + total ActorCounters.failed l)
  ∧ same values'.(ActorValues.queue).(LatencyValues.count) (values.(ActorValues.queue).(LatencyValues.count) + total (λ a, a.(ActorCounters.queue).(Latency.count)) l).
Proof.
  cbv zeta. revert values. induction l as [|a l IH]; intros values; cbn [foldl].
  - unfold total. cbn. split_and!; exists 0%Z; lia.
  - destruct (IH (ActorValues.include values a)) as (H1 & H2 & H3 & H4). rewrite H1, H2, H3, H4, !total_cons. cbn. rewrite !add_same. split_and!; exists 0%Z; lia.
Qed.
Lemma zip_total l k : length l = length k → same (total id (zip_with add l k)) (total id l + total id k).
Proof.
  revert k. induction l as [|a l IH]; intros [|b k] H; try done. cbn [zip_with]. rewrite !total_cons, (IH k) by (by injection H). unfold id. rewrite add_same. exists 0%Z. lia.
Qed.
Lemma include_errors l values : Forall (λ a, length a.(ActorCounters.errors) = length values.(ActorValues.errors)) l →
  same (total id (foldl ActorValues.include values l).(ActorValues.errors)) (total id values.(ActorValues.errors) + total errors_total l).
Proof.
  revert values. induction l as [|a l IH]; intros values H; cbn [foldl]; [exists 0%Z; unfold total; cbn; lia|].
  apply Forall_cons in H as [Ha Hl]. rewrite IH.
  - cbn [ActorValues.include ActorValues.errors]. rewrite zip_total by done. rewrite total_cons. exists 0%Z. unfold errors_total. lia.
  - apply (Forall_impl _ _ _ Hl). intros b Hb. cbn [ActorValues.include ActorValues.errors]. rewrite length_zip_with. lia.
Qed.
(** A sum over the tickets of an operation, by actor. *)
Lemma total_same {A} (g c : A → N) (h : nat → N) l i : (∀ k a, l !! k = Some a → same (g a) (c a + h (i + k)%nat)) →
  same (total g l) (total c l + total h (seq i (length l))).
Proof.
  revert i. induction l as [|a l IH]; intros i H; [done|]. cbn [length seq]. rewrite !total_cons, (IH (S i)).
  - pose proof (H 0%nat a eq_refl) as H0. rewrite Nat.add_0_r in H0. rewrite H0. exists 0%Z. lia.
  - intros k b Hk. rewrite Nat.add_succ_comm. by apply (H (S k)).
Qed.
Lemma total_swap {A B} (f : A → B → N) l k : total (λ a, total (f a) k) l = total (λ b, total (λ a, f a b) l) k.
Proof.
  induction l as [|a l IH]; [unfold total at 1; cbn; symmetry; by apply total_zero|]. rewrite total_cons, IH. clear IH.
  induction k as [|b k IH]; [done|]. rewrite !total_cons. lia.
Qed.
Lemma total_ext {A} (f g : A → N) l : (∀ a, a ∈ l → f a = g a) → total f l = total g l.
Proof. induction l as [|a l IH]; intros H; [done|]. rewrite !total_cons, IH, H by set_solver. done. Qed.
Lemma of_actor_total op f t i n : (i <= key t.(Ticket.worker) < i + n)%nat → total (λ k, of_actor op k f t) (seq i n) = of_operation op f t.
Proof.
  revert i. induction n as [|n IH]; intros i Hk; [lia|]. cbn [seq]. rewrite total_cons. unfold of_actor at 1.
  destruct (decide (key t.(Ticket.worker) = i)) as [E|E].
  - rewrite E, Nat.eqb_refl, andb_true_r. rewrite total_zero; [unfold of_operation; lia|]. intros k Hk'%elem_of_seq. unfold of_actor.
    rewrite (proj2 (Nat.eqb_neq _ _)) by lia. by rewrite andb_false_r.
  - rewrite (proj2 (Nat.eqb_neq _ _)) by lia. rewrite andb_false_r. rewrite IH by lia. done.
Qed.
Lemma actors_length m op : metrics_ok m → op < 8 → length (actors_of m op) = S (length (column m op)).
Proof.
  intros Hm Hop. unfold actors_of, own_actor. destruct (lookup_lt_is_Some_2 m.(Metrics.operations) (N.to_nat op)) as [o ->]; [rewrite (eight_operations _ Hm); lia|]. done.
Qed.
Lemma total_by_actor w op f g c : metrics_ok w.(World.metrics) → Forall (ticket_ok w.(World.metrics)) w.(World.tickets) → op < 8 →
  (∀ k a, actors_of w.(World.metrics) op !! k = Some a → same (g a) (c a + total (of_actor op k f) w.(World.tickets))) →
  same (total g (actors_of w.(World.metrics) op)) (total c (actors_of w.(World.metrics) op) + total (of_operation op f) w.(World.tickets)).
Proof.
  intros Hm Ht Hop H. rewrite (total_same g c (λ k, total (of_actor op k f) w.(World.tickets)) _ 0) by exact H.
  rewrite total_swap. rewrite (total_ext _ (of_operation op f)); [done|]. intros t Hin. rewrite Forall_forall in Ht. specialize (Ht t Hin).
  destruct (decide (t.(Ticket.operation) = op)) as [<-|Hn].
  - apply of_actor_total. rewrite actors_length by done. split; [lia|]. destruct (t.(Ticket.worker)) as [v|] eqn:Ew; cbn [key]; [|lia].
    destruct (binding_ok _ _ Ht v Ew) as [[H5 H8] Hlt]. unfold column. rewrite (proj2 (N.leb_le _ _) H5), (proj2 (N.ltb_lt _ _) H8). cbn [andb]. rewrite length_fmap. unfold lenN in Hlt. lia.
  - apply N.eqb_neq in Hn. rewrite total_zero; [unfold of_operation; by rewrite Hn|]. intros k _. unfold of_actor. by rewrite Hn.
Qed.

(** ** The balance *)
(** What balances of an operation, in the sums of a status page. *)
Record operation_balances (w : World.t) (op : N) (adm : AdmissionCounters.t) (values : ActorValues.t) : Prop := {
  all_accounted : same adm.(AdmissionCounters.accepted)
    (total (of_operation op accepted_live) w.(World.tickets) + (values.(ActorValues.succeeded) + values.(ActorValues.failed)));
  gauge : same values.(ActorValues.dispatched) (total (of_operation op dispatched_live) w.(World.tickets));
  errors_accounted : same (total id values.(ActorValues.errors)) (values.(ActorValues.failed) + adm.(AdmissionCounters.rejected));
  queue_accounted : same values.(ActorValues.queue).(LatencyValues.count)
    (total (of_operation op started_live) w.(World.tickets) + (values.(ActorValues.succeeded) + values.(ActorValues.failed))) }.
Lemma total_add {A} (f g : A → N) l : total (λ a, f a + g a) l = total f l + total g l.
Proof. induction l as [|a l IH]; [done|]. rewrite !total_cons, IH. lia. Qed.
Lemma operation_balances_ok size w op : world_ok size w → op < 8 → ∃ adm values, admission_of w.(World.metrics) op = Some adm
  ∧ actor_values w.(World.metrics) op = Ok values ∧ operation_balances w op adm values.
Proof.
  intros [Hm Hb Ht _ _] Hop. destruct (lookup_lt_is_Some_2 w.(World.metrics).(Metrics.operations) (N.to_nat op)) as [o Eo]; [rewrite (eight_operations _ Hm); lia|].
  exists o.(Operation.admission). eexists. assert (admission_of w.(World.metrics) op = Some o.(Operation.admission)) as Hadm by (unfold admission_of; by rewrite Eo).
  split; [done|]. split; [by apply actor_values_sum|].
  destruct (include_sums (actors_of w.(World.metrics) op) ActorValues.default) as (H1 & H2 & H3 & H4).
  assert (total settled_total (actors_of w.(World.metrics) op) = total ActorCounters.succeeded (actors_of w.(World.metrics) op) + total ActorCounters.failed (actors_of w.(World.metrics) op)) as Hs by apply total_add.
  split.
  - rewrite H2, H3, (accepted_balance _ _ Hb op _ Hop Hadm), Hs. reflexivity.
  - rewrite H1. rewrite (total_by_actor w op dispatched_live _ (λ _, 0) Hm Ht Hop); [by rewrite total_zero|]. intros k a. by apply (dispatched_balance _ _ Hb).
  - rewrite include_errors.
    + rewrite H3. rewrite (error_balance _ _ Hb op _ Hop Hadm). reflexivity.
    + apply Forall_forall. intros a Ha. by rewrite (errors_length _ (actors_ok _ Hm op a Ha)).
  - rewrite H4, H2, H3. rewrite (total_by_actor w op started_live _ settled_total Hm Ht Hop), Hs; [exists 0%Z; cbn; lia|].
    intros k a. by apply (queue_balance _ _ Hb).
Qed.

(** A search of two that a worker took up and that failed; the other waits. *)
Definition sample_events : list Event.t :=
  [ Event.Attempt 5; Event.Open 5 100; Event.On 0 (Action.Arm 10); Event.Open 5 50; Event.On 1 (Action.Arm 20); Event.On 0 (Action.Bind 0);
    Event.On 0 (Action.Start 1020); Event.On 0 (Action.Settle (Some "E_TIMEOUT"%string) 5000); Event.Reject 5 "E_BUSY" ].
Lemma sample_ledger_reachable : reachable (λ _, 0) 1 (default (opened 1) (run (λ _, 0) (opened 1) sample_events)).
Proof. apply (run_reachable _ _ (opened 1) sample_events); [apply reachable_opened|]. vm_compute. discriminate. Qed.

(** The size that a status page reports is that of the reader it reports: in
    every world that is reached bytes are of the current signature, a measurement
    that an update of the reader overtook is discarded, and a size is pending only
    while none is known and sizes are asked for.  The outcomes of a phase add up to
    its count. *)
Theorem reader_bytes_current (size : Signature → N) (workers : N) (w : World.t) : reachable size workers w →
  let r := w.(World.metrics).(Metrics.reader) in
  (∀ b : N, r.(ReaderStats.bytes) = Some b → b = size r.(ReaderStats.signature) ∧ r.(ReaderStats.bytes_signature) = Some r.(ReaderStats.signature))
  ∧ (r.(ReaderStats.bytes_pending) = true → w.(World.metrics).(Metrics.snapshot_bytes) = true ∧ r.(ReaderStats.bytes) = None)
  ∧ (∀ (i : nat) l s f, w.(World.metrics).(Metrics.phases) !! i = Some l → w.(World.metrics).(Metrics.phase_succeeded) !! i = Some s →
       w.(World.metrics).(Metrics.phase_failed) !! i = Some f → same l.(Latency.count) (s + f)).
Proof.
  intros [_ _ _ Hp [H1 H2 H3 H4]]%reachable_ok. cbv zeta. split; [|split; [done|apply (phase_balance _ Hp)]]. intros b Hb. split; [by apply H1|].
  destruct H3 as [s Hs]; [eauto|]. by rewrite Hs, (H2 _ Hs).
Qed.
Definition reader_events : list Event.t :=
  [ Event.Configure true true; Event.InstallReader (Some (ReaderValues.mk 3 0 1 1 [([], None)])) 5 10; Event.InstallBytes [([], None)] (Observed.Bytes 1) 7 20;
    Event.InstallBytes [] (Observed.Bytes 0) 7 30; Event.Phase 1 100 true ].
Lemma reader_reachable : reachable lenN 0 (default (opened 0) (run lenN (opened 0) reader_events)).
Proof. apply (run_reachable _ _ (opened 0) reader_events); [apply reachable_opened|]. vm_compute. discriminate. Qed.
Lemma reader_bytes_current_witness :
  (default (opened 0) (run lenN (opened 0) reader_events)).(World.metrics).(Metrics.reader).(ReaderStats.bytes_signature)
  = Some (default (opened 0) (run lenN (opened 0) reader_events)).(World.metrics).(Metrics.reader).(ReaderStats.signature).
Proof. exact (proj2 (proj1 (reader_bytes_current lenN 0 _ reader_reachable) 1 eq_refl)). Defined.
