(* ===== verification/Maxima.v ===== *)
(** * src/src/catalog.rs: the longest term of a dictionary

    Budgets of sorts and aggregations need the longest term of a segment's
    dictionary.  It is found by a scan, which checks the deadline, and kept in a
    cache that all indexes of the process share and that errors do not undo. *)
From S2P Require Import Prelude.
From S2P Require Import Errors.
From S2P Require Import Bytes.
From S2P Require Import Results.
From S2P Require Import Deadline.
From S2P Require Import Failures.
From S2P Require Import Collecting.
From S2P Require Import Hits.
From S2P Require Import Ranking.
Local Open Scope N_scope.

Definition MAX_DICTIONARY_CACHE_ENTRIES : N := 1024.
(** A segment's ID and a field of its schema. *)
Definition DictionaryCacheKey : Type := bytes * N.
Module DictionaryCache.
Record t := mk { maxima : gmap DictionaryCacheKey N; insertion_order : list DictionaryCacheKey }.
Definition default : t := mk ∅ [].
Definition evict (self : t) : t :=
  if N.of_nat (size self.(maxima)) =? MAX_DICTIONARY_CACHE_ENTRIES then
    match self.(insertion_order) with
    | oldest :: order => mk (delete oldest self.(maxima)) order
    | [] => self
    end
  else self.
Definition insert (key : DictionaryCacheKey) (maximum : N) (self : t) : t :=
  if decide (is_Some (self.(maxima) !! key)) then self else
  let self := evict self in
  mk (<[key := maximum]> self.(maxima)) (self.(insertion_order) ++ [key]).
End DictionaryCache.

(** ** What survives an error: the clock, and the cache of the process *)
Module Session.
Record t := mk { clock : Clock; cache : DictionaryCache.t }.
End Session.
Definition lift_E {S A} (r : outcome A) : E S A := λ s, (r, s).
Definition fail_E {S A} (e : FulltextError) : E S A := λ s, (Err e, s).
(** [check_deadline(deadline).map_err(native_error)] *)
Definition check : E Session.t () := λ s,
  match s.(Session.clock) with
  | None => (Ok (), s)
  | Some n => if n =? 0 then (Err timeout, s) else (Ok (), Session.mk (Some (n - 1)) s.(Session.cache))
  end.
Section FoldE.
Context {S A B : Type} (f : B → A → E S B).
Fixpoint foldE (acc : B) (l : list A) : E S B :=
  match l with [] => mret acc | a :: l => acc' ← f acc a; foldE acc' l end.
End FoldE.

(** ** The scan *)
(** The loop, given what is left of the stream. *)
Fixpoint scan_loop (visited maximum : N) (lengths : list N) : E Session.t N :=
  _ ← (if is_multiple_of visited 1024 then check else mret ());
  match lengths with
  | [] => mret maximum
  | length :: lengths => scan_loop (visited + 1) (N.max maximum length) lengths
  end.
Definition scan_dictionary_max (lengths : list N) : E Session.t N := scan_loop 0 0 lengths.

(** What is read of a segment: its ID, the field of a name, the lengths of the
    terms a dictionary streams, the number of values of a string column, and the
    number of documents. *)
Class FastFields (Seg : Type) := {
  segment_id : Seg → bytes;
  get_field : Seg → bytes → outcome N;
  key_lengths : StrColumn.t → outcome (list N);
  str_num_vals : Seg → bytes → N;
  num_docs : Seg → N }.

Section Max.
Context {Seg : Type} `{!Columns Seg} `{!FastFields Seg}.
Definition cached (key : DictionaryCacheKey) : E Session.t (option N) := λ s, (Ok (s.(Session.cache).(DictionaryCache.maxima) !! key), s).
Definition cache_insert (key : DictionaryCacheKey) (maximum : N) : E Session.t () := λ s,
  (Ok (), Session.mk s.(Session.clock) (DictionaryCache.insert key maximum s.(Session.cache))).
Definition scan_column (segment : Seg) (name : bytes) : E Session.t N :=
  column ← lift_E (str_column segment name);
  match column with
  | Some column => lengths ← lift_E (key_lengths column); scan_dictionary_max lengths
  | None => mret 0
  end.
(** [max_dictionary_key] *)
Definition max_dictionary_key (segment : Seg) (name : bytes) : E Session.t N :=
  _ ← check;
  field ← lift_E (get_field segment name);
  let key := (segment_id segment, field) in
  maximum ← cached key;
  match maximum with
  | Some maximum => mret maximum
  | None =>
      maximum ← scan_column segment name;
      _ ← cache_insert key maximum;
      _ ← check;
      mret maximum
  end.
End Max.

(** ** The cache *)
(** The maximum the terms of a column justify. *)
Definition longest (column : option StrColumn.t) : N :=
  match column with Some c => foldr N.max 0 (lenN <$> c.(StrColumn.dictionary)) | None => 0 end.
Section Cache.
(** [right key maximum]: the cached maximum is that of the column. *)
Context (right : DictionaryCacheKey → N → Prop).
Record cache_ok (c : DictionaryCache.t) : Prop := {
  order_nodup : NoDup c.(DictionaryCache.insertion_order);
  order_dom key : key ∈ c.(DictionaryCache.insertion_order) ↔ is_Some (c.(DictionaryCache.maxima) !! key);
  order_few : lenN c.(DictionaryCache.insertion_order) <= MAX_DICTIONARY_CACHE_ENTRIES;
  entries_right key m : c.(DictionaryCache.maxima) !! key = Some m → right key m }.
Lemma order_size c : cache_ok c → N.of_nat (size c.(DictionaryCache.maxima)) = lenN c.(DictionaryCache.insertion_order).
Proof.
  intros [Hnd Hdom _ _]. unfold lenN. f_equal. rewrite <- size_dom, <- (size_list_to_set (C := gset DictionaryCacheKey) _ Hnd). f_equal.
  apply set_eq. intros key. by rewrite elem_of_list_to_set, Hdom, elem_of_dom.
Qed.
Lemma default_cache_ok : cache_ok DictionaryCache.default.
Proof. split; cbn; [constructor|intros key; rewrite lookup_empty; split; [by intros ?%not_elem_of_nil|by intros [? ?]]|done|done]. Qed.
Lemma evict_ok c : cache_ok c → cache_ok (DictionaryCache.evict c)
  ∧ lenN (DictionaryCache.evict c).(DictionaryCache.insertion_order) < MAX_DICTIONARY_CACHE_ENTRIES
  ∧ ∀ key, c.(DictionaryCache.maxima) !! key = None → (DictionaryCache.evict c).(DictionaryCache.maxima) !! key = None.
Proof.
  intros Hc. pose proof (order_size c Hc) as Hsize. pose proof (order_few _ Hc) as Hfew. unfold DictionaryCache.evict.
  destruct (N.eqb_spec (N.of_nat (size c.(DictionaryCache.maxima))) MAX_DICTIONARY_CACHE_ENTRIES) as [Hfull|Hn]; [|split_and!; [done|lia|done]].
  destruct Hc as [Hnd Hdom _ Hright]. destruct c.(DictionaryCache.insertion_order) as [|oldest order] eqn:Eo; [unfold lenN in Hsize; cbn in Hsize; rewrite Hfull in Hsize; done|].
  apply NoDup_cons in Hnd as [Hnotin Hnd]. rewrite lenN_cons in Hsize, Hfew. split_and!.
  - split; cbn; [done| |lia|].
    + intros key. destruct (decide (key = oldest)) as [->|Hne]; [rewrite lookup_delete_eq; split; [done|by intros [? ?]]|].
      rewrite lookup_delete_ne by done. rewrite <- Hdom. set_solver.
    + intros key m [_ Hk]%lookup_delete_Some. by apply Hright.
  - cbn. lia.
  - intros key Hk. cbn. apply lookup_delete_None. by right.
Qed.
Lemma insert_ok key m c : cache_ok c → right key m → cache_ok (DictionaryCache.insert key m c).
Proof.
  intros Hc Hr. unfold DictionaryCache.insert. destruct (decide (is_Some _)) as [|Hn]; [done|]. apply eq_None_not_Some in Hn.
  destruct (evict_ok c Hc) as ([Hnd Hdom _ Hright] & Hlt & Hsub). specialize (Hsub key Hn). split; cbn.
  - apply NoDup_app. split_and!; [done| |apply NoDup_singleton]. intros k Hk ->%list_elem_of_singleton. apply Hdom in Hk. rewrite Hsub in Hk. by destruct Hk.
  - intros k. rewrite elem_of_app, list_elem_of_singleton, Hdom. destruct (decide (k = key)) as [->|Hne]; [rewrite lookup_insert_eq; naive_solver|].
    rewrite lookup_insert_ne by done. naive_solver.
  - rewrite lenN_app. change (lenN [key]) with 1. lia.
  - intros k n [(<- & <-)|(_ & Hk)]%lookup_insert_Some; [done|by apply Hright].
Qed.
End Cache.

(** ** Runs

    [Runs m Q F]: from a session with a right cache [m] leaves one, and returns a
    value in [Q], or fails with an error in [F] or with the deadline; without a
    deadline there stays none. *)
Section Rules.
Context (right : DictionaryCacheKey → N → Prop).
Definition session_ok (s : Session.t) : Prop := cache_ok right s.(Session.cache).
Definition Runs {A} (m : E Session.t A) (Q : A → Prop) (F : FulltextError → Prop) : Prop :=
  ∀ s, session_ok s → session_ok (m s).2 ∧ (s.(Session.clock) = None ↔ (m s).2.(Session.clock) = None)
    ∧ match (m s).1 with Ok a => Q a | Err e => F e ∨ e = timeout ∧ s.(Session.clock) ≠ None | Panic | Fuel => False end.
Lemma Runs_ret {A} (a : A) (Q : A → Prop) F : Q a → Runs (mret a) Q F.
Proof. intros HQ s Hs. by split_and!. Qed.
Lemma Runs_weaken {A} (m : E Session.t A) (Q Q' : A → Prop) (F F' : FulltextError → Prop) :
  Runs m Q F → (∀ a, Q a → Q' a) → (∀ e, F e → F' e) → Runs m Q' F'.
Proof. intros H HQ HF s Hs. destruct (H s Hs) as (H1 & H2 & H3). split_and!; [done..|]. destruct (m s).1; naive_solver. Qed.
Lemma Runs_bind {A B} (m : E Session.t A) (f : A → E Session.t B) Q (R : B → Prop) F :
  Runs m Q F → (∀ a, Q a → Runs (f a) R F) → Runs (mbind f m) R F.
Proof.
  intros Hm Hf s Hs. cbv [mbind E_bind]. destruct (Hm s Hs) as (H1 & H2 & H3). destruct (m s) as [[a|e| |] s'] eqn:Em; cbn [fst snd] in *; [|done..].
  destruct (Hf a H3 s' H1) as (H4 & H5 & H6). split_and!; [done|by rewrite H2|]. destruct (f a s').1 as [b|e| |]; [done| |done..].
  destruct H6 as [|[-> Hn]]; [by left|]. right. split; [done|]. by rewrite H2.
Qed.
Lemma Runs_lift {A} (r : outcome A) Q F : match r with Ok a => Q a | Err e => F e | Panic | Fuel => False end → Runs (lift_E r) Q F.
Proof. intros H s Hs. unfold lift_E. cbn. split_and!; [done..|]. destruct r; [done|by left|done..]. Qed.
Lemma Runs_check F : Runs check (λ _, True) F.
Proof.
  intros s Hs. unfold check. destruct (Session.clock s) as [n|] eqn:E; [|cbn; by rewrite E]. destruct (n =? 0); cbn; split_and!; try done.
  - by rewrite E.
  - by right.
Qed.
Lemma Runs_if {A} (b : bool) (m k : E Session.t A) Q F : (b = true → Runs m Q F) → (b = false → Runs k Q F) → Runs (if b then m else k) Q F.
Proof. destruct b; auto. Qed.
Lemma Runs_foldE {A S} (f : S → A → E Session.t S) (P : list A → S → Prop) F l s :
  P [] s → (∀ done a todo s, l = done ++ a :: todo → P done s → Runs (f s a) (P (done ++ [a])) F) → Runs (foldE f s l) (P l) F.
Proof.
  intros Hs Hf. assert (∀ todo done s, l = done ++ todo → P done s → Runs (foldE f s todo) (P l) F) as Hloop; [|by apply (Hloop l [])].
  clear s Hs. induction todo as [|a todo IH]; intros done s El Hs; cbn [foldE].
  - apply Runs_ret. rewrite app_nil_r in El. by subst.
  - eapply Runs_bind; [by eapply Hf|]. intros s' Hs'. eapply IH; [|exact Hs']. by rewrite <- app_assoc.
Qed.
Lemma scan_runs lengths F : Runs (scan_dictionary_max lengths) (λ m, m = foldr N.max 0 lengths) F.
Proof.
  assert (∀ visited maximum, Runs (scan_loop visited maximum lengths) (λ m, m = N.max maximum (foldr N.max 0 lengths)) F) as H.
  { induction lengths as [|n lengths IH]; intros visited maximum; cbn [scan_loop foldr].
    all: eapply Runs_bind; [apply Runs_if; intros _; [apply Runs_check|by apply Runs_ret]|intros _ _].
    - apply Runs_ret. lia.
    - eapply Runs_weaken; [apply IH| |done]. intros m ->. lia. }
  eapply Runs_weaken; [apply H| |done]. intros m ->. lia.
Qed.
End Rules.

(** ** The longest term *)
(** Segments are immutable, and a field is a column: there is one longest term of a
    field of a segment ID.  Dictionaries stream the terms they hold, of at most
    65530 bytes. *)
Section Laws.
Context (Seg : Type) `{!Columns Seg} `{!FastFields Seg} (longest_term : DictionaryCacheKey → N).
Class FastFieldsLaws : Prop := {
  str_column_stored seg name : stored (str_column seg name) (λ _, True);
  get_field_stored seg name : stored (get_field seg name) (λ _, True);
  key_lengths_ok column : stored (key_lengths column) (λ lengths, lengths = lenN <$> column.(StrColumn.dictionary));
  columns_immutable seg name field column : get_field seg name = Ok field → str_column seg name = Ok column → longest column = longest_term (segment_id seg, field);
  terms_short key : longest_term key <= 65530 }.
End Laws.
Section Longest.
Context {Seg : Type} `{!Columns Seg} `{!FastFields Seg} {longest_term : DictionaryCacheKey → N} (HF : FastFieldsLaws Seg longest_term).
Definition right_maximum (key : DictionaryCacheKey) (maximum : N) : Prop := maximum = longest_term key.
(** The longest term of a segment's field. *)
Definition longest_of (seg : Seg) (name : bytes) : N := match get_field seg name with Ok field => longest_term (segment_id seg, field) | _ => 0 end.
Definition column_of (seg : Seg) (name : bytes) : option StrColumn.t := match str_column seg name with Ok column => column | _ => None end.
Lemma longest_of_short seg name : longest_of seg name <= 65530.
Proof using HF. unfold longest_of. destruct (get_field seg name); try lia. apply (terms_short Seg _ _). Qed.
Lemma scan_column_runs seg name : Runs right_maximum (scan_column seg name) (λ m, ∃ column, str_column seg name = Ok column ∧ m = longest column) native_failure.
Proof using HF.
  unfold scan_column. eapply (Runs_bind _ _ _ (λ column, str_column seg name = Ok column)).
  { apply Runs_lift. pose proof (str_column_stored Seg longest_term seg name) as Hs. destruct (str_column seg name); done. }
  intros [column|] E; [|apply Runs_ret; by exists None].
  eapply (Runs_bind _ _ _ (λ lengths, lengths = lenN <$> column.(StrColumn.dictionary))).
  { apply Runs_lift. pose proof (key_lengths_ok Seg longest_term column) as Hs. destruct (key_lengths column); done. }
  intros lengths ->. eapply Runs_weaken; [apply scan_runs| |done]. intros m ->. by exists (Some column).
Qed.
(** Whatever the cache holds, the longest term is found. *)
Lemma max_dictionary_key_runs seg name : Runs right_maximum (max_dictionary_key seg name) (λ m, m = longest_of seg name) native_failure.
Proof using HF.
  unfold max_dictionary_key, longest_of. eapply Runs_bind; [apply Runs_check|]. intros _ _.
  eapply (Runs_bind _ _ _ (λ field, get_field seg name = Ok field)).
  { apply Runs_lift. pose proof (get_field_stored Seg longest_term seg name) as Hs. destruct (get_field seg name); done. }
  intros field Ef. rewrite Ef. cbv zeta.
  eapply (Runs_bind _ _ _ (λ m, ∀ n, m = Some n → right_maximum (segment_id seg, field) n)).
  { intros s Hs. unfold cached. cbn. split_and!; [done..|]. intros n Hn. by apply (entries_right _ _ Hs). }
  intros [n|] Hm; [apply Runs_ret; by apply Hm|].
  eapply Runs_bind; [apply scan_column_runs|]. intros m (column & Ec & ->). rewrite (columns_immutable Seg longest_term seg name field column Ef Ec).
  eapply (Runs_bind _ _ _ (λ _, True)).
  { intros s Hs. unfold cache_insert. cbn. split_and!; [|done..]. by apply insert_ok. }
  intros _ _. eapply Runs_bind; [apply Runs_check|]. intros _ _. by apply Runs_ret.
Qed.
End Longest.
