(* ===== verification/Native.v ===== *)
(** * src/src/catalog.rs: aggregations of the index

    The aggregations of a catalog are built as requests of the index crate, and
    what it answers is read back into results: [build_native_aggregations],
    [histogram_checks] and [finish_aggregations].  The requests and the results
    of the index crate are given by the constructors and fields the code uses. *)
From Stdlib Require Import Floats.SpecFloat.
From S2P Require Import Prelude.
From S2P Require Import Errors.
From S2P Require Import Bytes.
From S2P Require Import Wire.
From S2P Require Import Request.
From S2P Require Import Results.
From S2P Require Import Aggregation.
From S2P Require Import Shape.
From S2P Require Import Deadline.
From S2P Require Import Failures.
From S2P Require Import Collecting.
From S2P Require Import Maxima.
Local Open Scope N_scope.

(** [format!("__fulltext_filter_{index}")] *)
Definition filter_name (index : nat) : bytes := blit "__fulltext_filter_" ++ blit (show (N.of_nat index)).

(** ** Requests *)
Module AggregationVariants.
Inductive t :=
| Terms (field : bytes) (size segment_size : option N) (show_term_doc_count_error : option bool) (min_doc_count : option N)
| Stats (field : bytes)
| Histogram (field : bytes) (interval : f64) (min_doc_count : option N) (keyed is_normalized_to_ns : bool)
| Range (field : bytes) (ranges : list (option f64 * option f64)) (keyed : bool).
End AggregationVariants.
Module Aggregation.
Inductive t := mk (agg : AggregationVariants.t) (sub_aggregation : list (bytes * t)).
Definition agg (a : t) : AggregationVariants.t := let 'mk a _ := a in a.
Definition sub_aggregation (a : t) : list (bytes * t) := let 'mk _ l := a in l.
End Aggregation.
Definition Aggregations : Type := list (bytes * Aggregation.t).
(** [HashMap::insert] *)
Fixpoint map_insert {A} (name : bytes) (a : A) (m : list (bytes * A)) : list (bytes * A) :=
  match m with
  | [] => [(name, a)]
  | (n, b) :: m => if decide (n = name) then (name, a) :: m else (n, b) :: map_insert name a m
  end.

Definition native_variant (name : bytes) (kind : AggregationKind.t) : outcome AggregationVariants.t :=
  match kind with
  | AggregationKind.Terms size =>
      segment_size ← terms_segment_size size;
      Ok (AggregationVariants.Terms name (Some size) (Some segment_size) (Some true) (Some 1))
  | AggregationKind.Stats => Ok (AggregationVariants.Stats name)
  | AggregationKind.Histogram interval => Ok (AggregationVariants.Histogram name interval (Some 1) false false)
  | AggregationKind.Range ranges => Ok (AggregationVariants.Range name ranges false)
  end.
Section BuildLevel.
Context (build : N → AggregationRequest.t → E Session.t Aggregation.t).
Definition build_level (depth : N) (requests : list AggregationRequest.t) : E Session.t Aggregations :=
  if bool_decide (requests = []) then mret [] else
  _ ← lift_E (check_aggregation_depth depth);
  foldE (λ native request, agg ← build depth request; mret (map_insert (AggregationRequest.name request) agg native)) [] requests.
End BuildLevel.
Fixpoint build_aggregation (fields : list FilterFieldConfig.t) (depth : N) (request : AggregationRequest.t) : E Session.t Aggregation.t :=
  let 'AggregationRequest.mk _ field_name kind children := request in
  _ ← check;
  entry ← lift_E (field field_name fields);
  agg ← lift_E (native_variant (filter_name entry.1) kind);
  sub_aggregation ← build_level (build_aggregation fields) (depth + 1) children;
  mret (Aggregation.mk agg sub_aggregation).
Definition build_native_aggregations (fields : list FilterFieldConfig.t) (requests : list AggregationRequest.t) (depth : N) : E Session.t Aggregations :=
  build_level (build_aggregation fields) depth requests.

(** ** The histograms whose positions are checked *)
Definition HistogramBoundKey : Type := N * f64 * list bytes.
Definition ChecksState : Type := gset HistogramBoundKey * list HistogramCheck.t.
Section CheckLevel.
Context (visit : N → list bytes → ChecksState → AggregationRequest.t → outcome ChecksState).
Definition checks_level (depth : N) (ancestors : list bytes) (state : ChecksState) (requests : list AggregationRequest.t) : outcome ChecksState :=
  if bool_decide (requests = []) then Ok state else
  _ ← check_aggregation_depth depth;
  foldO (visit depth ancestors) state requests.
End CheckLevel.
Fixpoint checks_walk (fields : list FilterFieldConfig.t) (depth : N) (ancestors : list bytes) (state : ChecksState) (request : AggregationRequest.t)
  : outcome ChecksState :=
  let 'AggregationRequest.mk _ field_name kind children := request in
  '(index, _) ← field field_name fields;
  let name := filter_name index in
  let state :=
    match kind with
    | AggregationKind.Histogram interval =>
        let key := (N.of_nat index, interval, ancestors) in
        if bool_decide (key ∈ state.1) then state else ({[key]} ∪ state.1, state.2 ++ [HistogramCheck.mk name interval ancestors])
    | _ => state
    end in
  checks_level (checks_walk fields) (depth + 1) (ancestors ++ [name]) state children.
Definition histogram_checks (requests : list AggregationRequest.t) (fields : list FilterFieldConfig.t) : outcome (list HistogramCheck.t) :=
  state ← checks_level (checks_walk fields) 1 [] (∅, []) requests; Ok state.2.

(** ** Results *)
Module Key.
Inductive t := Str (s : bytes) | F64 (n : f64) | U64 (n : N) | I64 (n : Z) | Other.
End Key.
Module BucketEntries.
Inductive t (A : Type) := Vec (buckets : list A) | HashMap (buckets : list (bytes * A)).
End BucketEntries.
Arguments BucketEntries.Vec {A}. Arguments BucketEntries.HashMap {A}.
(** A bucket, with its bounds for a range. *)
Module NativeBucket.
Record t (A : Type) := mk { key : Key.t; doc_count : N; from : option f64; to : option f64; sub_aggregation : list (bytes * A) }.
End NativeBucket.
Arguments NativeBucket.mk {A}. Arguments NativeBucket.key {A}. Arguments NativeBucket.doc_count {A}.
Arguments NativeBucket.from {A}. Arguments NativeBucket.to {A}. Arguments NativeBucket.sub_aggregation {A}.
Module NativeResult.
Inductive t :=
| Terms (buckets : list (NativeBucket.t t)) (sum_other_doc_count : N) (doc_count_error_upper_bound : option N)
| Stats (count : N) (sum : f64) (min max avg : option f64)
| Histogram (buckets : BucketEntries.t (NativeBucket.t t))
| Range (buckets : BucketEntries.t (NativeBucket.t t))
| Unexpected.
End NativeResult.
Definition NativeResults : Type := list (bytes * NativeResult.t).
(** [HashMap::remove] *)
Fixpoint map_remove {A} (name : bytes) (m : list (bytes * A)) : option (A * list (bytes * A)) :=
  match m with
  | [] => None
  | (n, a) :: m => if decide (n = name) then Some (a, m) else '(b, m) ← map_remove name m; Some (b, (n, a) :: m)
  end.

(** The pattern of a canonical number. *)
Definition f64_bits (x : spec_float) : f64 :=
  let sign (s : bool) := if s then 2 ^ 63 else 0 in
  match x with
  | S754_zero s => sign s
  | S754_infinity s => sign s + 2047 * 2 ^ 52
  | S754_nan => 2047 * 2 ^ 52 + 2 ^ 51
  | S754_finite s m e => sign s + (if N.pos m <? 2 ^ 52 then N.pos m else Z.to_N (e + 1075) * 2 ^ 52 + (N.pos m - 2 ^ 52))
  end.
(** [n as f64] *)
Definition f64_from (n : Z) : f64 := f64_bits (binary_normalize 53 1024 n 0 false).
Definition string_key (key : Key.t) : outcome bytes := match key with Key.Str s => Ok s | _ => Err (native "Expected string bucket key") end.
Definition number_key (key : Key.t) : outcome f64 :=
  match key with
  | Key.F64 n => Ok n
  | Key.U64 n => Ok (f64_from (Z.of_N n))
  | Key.I64 n => Ok (f64_from n)
  | _ => Err (native "Expected numeric bucket key")
  end.
Definition unkeyed_buckets {A} (buckets : BucketEntries.t A) : outcome (list A) :=
  match buckets with BucketEntries.Vec buckets => Ok buckets | BucketEntries.HashMap _ => Err (native "Unexpected keyed aggregation buckets") end.

Section MapE.
Context {S A B : Type} (f : A → E S B).
Fixpoint mapE (l : list A) : E S (list B) :=
  match l with [] => mret [] | a :: l => b ← f a; bs ← mapE l; mret (b :: bs) end.
End MapE.
Definition not_finite : FulltextError := resource "Aggregation numeric result is not finite".
Definition infinite (n : option f64) : bool := is_some_and n (λ n, negb (f64_is_finite n)).
(** The test of the value before it is pushed. *)
Definition value_finite {A} (value : AggregationValue.t A) : outcome () :=
  match value with
  | AggregationValue.Stats _ sum min max avg =>
      if negb (f64_is_finite sum) || (infinite min || infinite max || infinite avg) then Err not_finite else Ok ()
  | AggregationValue.Histogram buckets =>
      if existsb (λ b : NumericBucket.t A, negb (f64_is_finite b.(NumericBucket.key))) buckets then Err not_finite else Ok ()
  | _ => Ok ()
  end.
Section FinishLevel.
Context (finish : N → AggregationRequest.t → NativeResult.t → E Session.t AggregationResult.t).
Definition finish_request (depth : N) (state : NativeResults * list AggregationResult.t) (request : AggregationRequest.t)
  : E Session.t (NativeResults * list AggregationResult.t) :=
  let '(results, output) := state in
  _ ← check;
  '(result, results) ← lift_E (ok_or (map_remove (AggregationRequest.name request) results) (native "Missing aggregation result"));
  r ← finish depth request result;
  mret (results, output ++ [r]).
Definition finish_level (depth : N) (requests : list AggregationRequest.t) (results : NativeResults) : E Session.t (list AggregationResult.t) :=
  if bool_decide (requests = []) then mret [] else
  _ ← lift_E (check_aggregation_depth depth);
  '(_, output) ← foldE (finish_request depth) (results, []) requests;
  _ ← check;
  mret output.
End FinishLevel.
(** The body of the loop, after the result was removed. *)
Fixpoint finish_result (depth : N) (request : AggregationRequest.t) (result : NativeResult.t) : E Session.t AggregationResult.t :=
  let 'AggregationRequest.mk name _ _ children := request in
  let sub b := finish_level finish_result (depth + 1) children b.(NativeBucket.sub_aggregation) in
  value ← match result with
          | NativeResult.Terms buckets other error =>
              buckets ← mapE (λ b : NativeBucket.t NativeResult.t, key ← lift_E (string_key b.(NativeBucket.key)); aggregations ← sub b;
                                   mret (TermBucket.mk key b.(NativeBucket.doc_count) aggregations)) buckets;
              mret (AggregationValue.Terms buckets other error)
          | NativeResult.Stats count sum min max avg => mret (AggregationValue.Stats count sum min max avg)
          | NativeResult.Histogram buckets =>
              buckets ← lift_E (unkeyed_buckets buckets);
              buckets ← mapE (λ b : NativeBucket.t NativeResult.t, key ← lift_E (number_key b.(NativeBucket.key)); aggregations ← sub b;
                                   mret (NumericBucket.mk key b.(NativeBucket.doc_count) aggregations)) buckets;
              mret (AggregationValue.Histogram buckets)
          | NativeResult.Range buckets =>
              buckets ← lift_E (unkeyed_buckets buckets);
              buckets ← mapE (λ b : NativeBucket.t NativeResult.t, key ← lift_E (string_key b.(NativeBucket.key)); aggregations ← sub b;
                                   mret (RangeBucket.mk key b.(NativeBucket.from) b.(NativeBucket.to) b.(NativeBucket.doc_count) aggregations)) buckets;
              mret (AggregationValue.Range buckets)
          | NativeResult.Unexpected => fail_E (native "Unexpected aggregation result kind")
          end;
  _ ← lift_E (value_finite value);
  mret (AggregationResult.mk name value).
Definition finish_aggregation_level (results : NativeResults) (requests : list AggregationRequest.t) (depth : N) : E Session.t (list AggregationResult.t) :=
  finish_level finish_result depth requests results.
Definition finish_aggregations (results : option NativeResults) (requests : list AggregationRequest.t) : E Session.t (list AggregationResult.t) :=
  match results with Some results => finish_aggregation_level results requests 1 | None => mret [] end.

(** ** What is asked for *)
Definition index_of (fields : list FilterFieldConfig.t) (name : bytes) : nat :=
  match list_find (λ f, f.(FilterFieldConfig.name) = name) fields with Some (i, _) => i | None => 0%nat end.
Definition variant_of (name : bytes) (kind : AggregationKind.t) : AggregationVariants.t :=
  match kind with
  | AggregationKind.Terms size => AggregationVariants.Terms name (Some size) (Some (size * 10)) (Some true) (Some 1)
  | AggregationKind.Stats => AggregationVariants.Stats name
  | AggregationKind.Histogram interval => AggregationVariants.Histogram name interval (Some 1) false false
  | AggregationKind.Range ranges => AggregationVariants.Range name ranges false
  end.
Fixpoint native_of (fields : list FilterFieldConfig.t) (request : AggregationRequest.t) : Aggregation.t :=
  let 'AggregationRequest.mk _ field kind children := request in
  Aggregation.mk (variant_of (filter_name (index_of fields field)) kind) ((λ c, (AggregationRequest.name c, native_of fields c)) <$> children).

Section MapRule.
Context (right : DictionaryCacheKey → N → Prop).
Lemma Runs_mapE {A B} (f : A → E Session.t B) (Q : A → B → Prop) F l :
  Forall (λ a, Runs right (f a) (Q a) F) l → Runs right (mapE f l) (λ bs, Forall2 Q l bs) F.
Proof.
  induction 1 as [|a l Ha _ IH]; cbn [mapE]; [apply Runs_ret; constructor|]. eapply Runs_bind; [exact Ha|]. intros b Hb.
  eapply Runs_bind; [exact IH|]. intros bs Hbs. apply Runs_ret. by constructor.
Qed.
Lemma Runs_mapE_Forall {A B} (f : A → E Session.t B) (Q : B → Prop) F l :
  Forall (λ a, Runs right (f a) Q F) l → Runs right (mapE f l) (Forall Q) F.
Proof.
  intros H. eapply Runs_weaken; [apply (Runs_mapE f (λ _, Q)), H| |done]. intros bs Hbs. clear H. induction Hbs; by constructor.
Qed.
Lemma map_insert_fresh {A} name (a : A) m : name ∉ (fst <$> m) → map_insert name a m = m ++ [(name, a)].
Proof.
  induction m as [|[n b] m IH]; intros Hn; [done|]. cbn [map_insert app]. rewrite fmap_cons, not_elem_of_cons in Hn. destruct Hn as [Hne Hn].
  rewrite decide_False by (intros ->; by apply Hne). by rewrite IH.
Qed.
(** A level of valid aggregations, in order. *)
Lemma build_level_runs fields build depth requests : siblings_valid (aggregation_valid fields) depth requests →
  Forall (λ r, Runs right (build depth r) (λ a, a = native_of fields r) (λ _, False)) requests →
  Runs right (build_level build depth requests) (λ native, native = (λ c, (AggregationRequest.name c, native_of fields c)) <$> requests) (λ _, False).
Proof.
  intros (Hd & _ & Hnd & _) Hb. unfold build_level. case_bool_decide as Hnil; [subst; by apply Runs_ret|].
  eapply (Runs_bind _ _ _ (λ _, True)); [apply Runs_lift; destruct Hd as [->|Hd]; [done|]; apply depth_ok in Hd; by rewrite Hd|]. intros _ _.
  eapply (Runs_foldE _ _ (λ done native, native = (λ c, (AggregationRequest.name c, native_of fields c)) <$> done)); [done|].
  intros done r todo native El ->. rewrite Forall_forall in Hb. eapply Runs_bind; [apply Hb; rewrite El; set_solver|]. intros a ->. apply Runs_ret.
  rewrite map_insert_fresh; [by rewrite fmap_app|]. rewrite <- list_fmap_compose. cbn [compose fst].
  rewrite El, fmap_app, fmap_cons in Hnd. apply NoDup_app in Hnd as (_ & Hdisj & _). intros Hin. apply (Hdisj _ Hin). by left.
Qed.
Lemma kind_variant_ok fields name kind children t : field_type_of fields name = Some t → kind_valid t kind children →
  native_variant (filter_name (index_of fields name)) kind = Ok (variant_of (filter_name (index_of fields name)) kind).
Proof.
  intros _ Hk. destruct kind as [size| | |]; try done. cbn in *. unfold terms_segment_size. destruct Hk as (_ & _ & Hs). by rewrite (proj2 (N.leb_le _ _) Hs).
Qed.
Lemma build_runs fields r : ∀ depth, aggregation_valid fields depth r →
  Runs right (build_aggregation fields depth r) (λ a, a = native_of fields r) (λ _, False).
Proof.
  induction r as [name f kind children IH] using AggregationRequest.ind. intros depth [(t & Ht & Hk) Hc]. cbn [build_aggregation native_of].
  eapply Runs_bind; [apply Runs_check|]. intros _ _.
  eapply (Runs_bind _ _ _ (λ e, e.1 = index_of fields f)).
  { apply Runs_lift. apply field_type_of_Some in Ht as ([i c] & Hf & _). rewrite Hf. apply field_Ok in Hf. unfold index_of. by rewrite Hf. }
  intros [i c] E. cbn [fst] in *. subst i. eapply (Runs_bind _ _ _ (λ v, v = variant_of (filter_name (index_of fields f)) kind)).
  { apply Runs_lift. by rewrite (kind_variant_ok _ _ _ _ _ Ht Hk). }
  intros v ->. eapply Runs_bind; [apply (build_level_runs fields); [exact Hc|]|].
  - destruct Hc as (_ & _ & _ & Hv%foldr_and_Forall). rewrite Forall_forall in IH, Hv |- *. eauto.
  - intros native ->. by apply Runs_ret.
Qed.
End MapRule.

(** ** What is answered *)
Fixpoint assoc {A} (name : bytes) (m : list (bytes * A)) : option A :=
  match m with [] => None | (n, a) :: m => if decide (n = name) then Some a else assoc name m end.
Definition numeric (key : Key.t) : Prop := match key with Key.F64 _ | Key.U64 _ | Key.I64 _ => True | _ => False end.
Definition textual (key : Key.t) : Prop := match key with Key.Str s => lenN s <= U32_MAX | _ => False end.
(** What the index crate answers to a request: a result of its kind, whose buckets
    have keys of their kind and answer the nested requests. *)
Fixpoint fits (request : Aggregation.t) (result : NativeResult.t) : Prop :=
  let 'Aggregation.mk agg sub := request in
  let answered (b : NativeBucket.t NativeResult.t) :=
    foldr and True ((λ e, ∃ r, assoc e.1 b.(NativeBucket.sub_aggregation) = Some r ∧ fits e.2 r) <$> sub) in
  match agg, result with
  | AggregationVariants.Terms _ _ _ _ _, NativeResult.Terms buckets _ _ => Forall (λ b, textual b.(NativeBucket.key) ∧ answered b) buckets
  | AggregationVariants.Stats _, NativeResult.Stats _ _ _ _ _ => True
  | AggregationVariants.Histogram _ _ _ _ _, NativeResult.Histogram (BucketEntries.Vec buckets) => Forall (λ b, numeric b.(NativeBucket.key) ∧ answered b) buckets
  | AggregationVariants.Range _ _ _, NativeResult.Range (BucketEntries.Vec buckets) =>
      Forall (λ b, (textual b.(NativeBucket.key) ∧ finite_opt b.(NativeBucket.from) ∧ finite_opt b.(NativeBucket.to)) ∧ answered b) buckets
  | _, _ => False
  end.
Definition answers (requests : Aggregations) (results : NativeResults) : Prop :=
  Forall (λ e, ∃ r, assoc e.1 results = Some r ∧ fits e.2 r) requests.

Section Zipped.
Context {A B : Type} (P : A → B → Prop).
Fixpoint zipped (l : list A) (k : list B) : Prop :=
  match l, k with [], [] => True | a :: l, b :: k => P a b ∧ zipped l k | _, _ => False end.
Lemma zipped_Forall2 l k : zipped l k ↔ Forall2 P l k.
Proof.
  revert k. induction l as [|a l IH]; intros [|b k]; cbn [zipped]; [split; constructor|split; [done|by intros ?%Forall2_nil_cons_inv]|split; [done|by intros ?%Forall2_cons_nil_inv]|].
  by rewrite IH, Forall2_cons.
Qed.
End Zipped.
(** What is returned for a request: its name, its kind, and in every bucket what
    is returned for the nested requests, in their order. *)
Fixpoint shaped (request : AggregationRequest.t) (result : AggregationResult.t) : Prop :=
  let 'AggregationRequest.mk name _ kind children := request in
  let 'AggregationResult.mk n value := result in
  n = name ∧
  match kind, value with
  | AggregationKind.Terms _, AggregationValue.Terms buckets _ _ => Forall (λ b, zipped shaped children b.(TermBucket.aggregations)) buckets
  | AggregationKind.Stats, AggregationValue.Stats _ _ _ _ _ => True
  | AggregationKind.Histogram _, AggregationValue.Histogram buckets => Forall (λ b, zipped shaped children b.(NumericBucket.aggregations)) buckets
  | AggregationKind.Range _, AggregationValue.Range buckets => Forall (λ b, zipped shaped children b.(RangeBucket.aggregations)) buckets
  | _, _ => False
  end.
(** Levels short enough for their count. *)
Fixpoint few (request : AggregationRequest.t) : Prop :=
  let 'AggregationRequest.mk _ _ _ children := request in lenN children <= U32_MAX ∧ foldr and True (few <$> children).
Definition level_valid fields depth requests : Prop :=
  siblings_valid (aggregation_valid fields) depth requests ∧ lenN requests <= U32_MAX ∧ Forall few requests.

Lemma assoc_remove {A} name (m : list (bytes * A)) a : assoc name m = Some a →
  ∃ m', map_remove name m = Some (a, m') ∧ ∀ n, n ≠ name → assoc n m' = assoc n m.
Proof.
  induction m as [|[n b] m IH]; [done|]. cbn [assoc map_remove]. destruct (decide (n = name)) as [->|Hn].
  - intros [= ->]. exists m. split; [done|]. intros k Hk. by rewrite decide_False by done.
  - intros (m' & -> & H)%IH. cbn. eexists. split; [done|]. intros k Hk. cbn [assoc]. destruct (decide (n = k)); [done|by apply H].
Qed.
Lemma number_key_ok key : numeric key → ∃ n, number_key key = Ok n.
Proof. destruct key; try done; cbn; eauto. Qed.
Definition unfinished (e : FulltextError) : Prop := e = not_finite.
Section Finish.
Context (right : DictionaryCacheKey → N → Prop) (fields : list FilterFieldConfig.t).
Definition request_of (c : AggregationRequest.t) : bytes * Aggregation.t := (AggregationRequest.name c, native_of fields c).
Lemma finish_level_runs depth requests results : level_valid fields depth requests → answers (request_of <$> requests) results →
  Forall (λ r, ∀ result, fits (native_of fields r) result → Runs right (finish_result depth r result) (λ out, shaped r out ∧ result_ok depth out) unfinished) requests →
  Runs right (finish_level finish_result depth requests results) (λ out, zipped shaped requests out ∧ level_ok result_ok depth out) unfinished.
Proof.
  intros ((Hd & _ & Hnd & _) & Hlen & _) Ha Hr. unfold finish_level. case_bool_decide as Hnil.
  { subst. apply Runs_ret. split; [done|]. split; [by left|]. split; [done|constructor]. }
  destruct Hd as [->|Hd]; [done|]. eapply (Runs_bind _ _ _ (λ _, True)); [apply Runs_lift; pose proof Hd as Hd'; apply depth_ok in Hd'; by rewrite Hd'|]. intros _ _.
  eapply (Runs_bind _ _ _ (λ s : NativeResults * list AggregationResult.t, Forall2 (λ r out, shaped r out ∧ result_ok depth out) requests s.2)).
  - eapply (Runs_weaken _ _ _ _ unfinished unfinished); [eapply (Runs_foldE _ _ (λ done s, Forall2 (λ r out, shaped r out ∧ result_ok depth out) done s.2
      ∧ ∀ r, r ∈ requests → r ∉ done → assoc (AggregationRequest.name r) s.1 = assoc (AggregationRequest.name r) results))|by intros s [H _]|done].
    + cbn. split; [constructor|done].
    + intros done r todo [rest output] El [Hout Hrest]. cbn [fst snd] in *. unfold finish_request. eapply Runs_bind; [apply Runs_check|]. intros _ _.
      assert (r ∈ requests) as Hin by (rewrite El; set_solver). assert (NoDup requests) as Hndr by (by eapply NoDup_fmap_1).
      assert (r ∉ done) as Hnew by (rewrite El in Hndr; apply NoDup_app in Hndr as (_ & Hdisj & _); intros ?; by apply (Hdisj r); [|left]).
      unfold answers in Ha. rewrite Forall_fmap, Forall_forall in Ha. destruct (Ha r Hin) as (result & Hres & Hfits). cbn [request_of fst snd compose] in *.
      rewrite <- (Hrest r Hin Hnew) in Hres. destruct (assoc_remove _ _ _ Hres) as (rest' & Erem & Hkeep).
      eapply (Runs_bind _ _ _ (λ p, p = (result, rest'))); [apply Runs_lift; by rewrite Erem|]. intros p ->.
      rewrite Forall_forall in Hr. eapply Runs_bind; [exact (Hr r Hin result Hfits)|]. intros out Hshape. apply Runs_ret. cbn [fst snd]. split.
      * by apply Forall2_app; [|constructor; [|constructor]].
      * intros r' Hin' Hnew'. rewrite not_elem_of_app, not_elem_of_cons in Hnew'. destruct Hnew' as [Hnd' [Hne _]]. rewrite Hkeep; [by apply Hrest|].
        intros En. apply Hne. apply list_elem_of_lookup in Hin as (i & Hi), Hin' as (j & Hj).
        assert (j = i) as -> by (eapply (NoDup_lookup _ j i _ Hnd); rewrite list_lookup_fmap, ?Hi, ?Hj; cbn; by rewrite ?En). rewrite Hi in Hj. by injection Hj.
  - intros [rest output] Hout. cbn [snd] in Hout. eapply Runs_bind; [apply Runs_check|]. intros _ _. apply Runs_ret. split.
    + apply zipped_Forall2. eapply Forall2_impl; [exact Hout|]. by intros ? ? [? _].
    + split; [by right|]. split; [unfold lenN in *; by rewrite <- (Forall2_length _ _ _ Hout)|]. apply foldr_and_Forall. eapply Forall2_Forall_r; [exact Hout|]. apply Forall_true. by intros r out [_ ?].
Qed.
Lemma value_finite_cases {A} (v : AggregationValue.t A) : value_finite v = Ok () ∨ value_finite v = Err not_finite.
Proof.
  destruct v as [bs o e|count sm mn mx av|bs|bs]; unfold value_finite; [by left| | |by left].
  - destruct (negb (f64_is_finite sm) || _); auto.
  - destruct (existsb _ bs); auto.
Qed.
Lemma finish_value_runs (m : E Session.t (AggregationValue.t AggregationResult.t)) name (P : AggregationValue.t AggregationResult.t → Prop) (Q : AggregationResult.t → Prop) :
  Runs right m P unfinished → (∀ v, P v → value_finite v = Ok () → Q (AggregationResult.mk name v)) →
  Runs right (value ← m; _ ← lift_E (value_finite value); mret (AggregationResult.mk name value)) Q unfinished.
Proof.
  intros Hm HQ. eapply Runs_bind; [exact Hm|]. intros v Hpv. eapply (Runs_bind _ _ _ (λ _, value_finite v = Ok ())).
  - apply Runs_lift. by destruct (value_finite_cases v) as [-> | ->].
  - intros _ Hf. apply Runs_ret. by apply HQ.
Qed.
Lemma buckets_runs {K B} (key : NativeBucket.t NativeResult.t → outcome K) (sub : NativeBucket.t NativeResult.t → E Session.t (list AggregationResult.t))
    (mk : NativeBucket.t NativeResult.t → K → list AggregationResult.t → B) (PK : NativeBucket.t NativeResult.t → K → Prop) (PL : list AggregationResult.t → Prop) bs :
  Forall (λ b, (∃ k, key b = Ok k ∧ PK b k) ∧ Runs right (sub b) PL unfinished) bs →
  Runs right (mapE (λ b, k ← lift_E (key b); a ← sub b; mret (mk b k a)) bs) (Forall (λ x, ∃ b k a, x = mk b k a ∧ PK b k ∧ PL a)) unfinished.
Proof.
  intros H. apply Runs_mapE_Forall. eapply Forall_impl; [exact H|]. intros b [(k & Ek & Hk) Hs]. eapply (Runs_bind _ _ _ (PK b)); [apply Runs_lift; by rewrite Ek|].
  intros k' Hk'. eapply Runs_bind; [exact Hs|]. intros a Ha. apply Runs_ret. eauto 6.
Qed.
Lemma finite_of (o : option f64) : infinite o = false → finite_opt o.
Proof. intros H v ->. cbn in H. by apply negb_false_iff in H. Qed.
Lemma finish_runs r : ∀ depth result, aggregation_valid fields depth r → few r → lenN (AggregationRequest.name r) <= U32_MAX → fits (native_of fields r) result →
  Runs right (finish_result depth r result) (λ out, shaped r out ∧ result_ok depth out) unfinished.
Proof.
  induction r as [name f kind children IH] using AggregationRequest.ind. intros depth result [_ Hc] [Hlen Hfew] Hname Hfits. cbn [AggregationRequest.name] in Hname.
  apply foldr_and_Forall in Hfew. assert (level_valid fields (depth + 1) children) as Hlevel by done.
  assert (∀ b : NativeBucket.t NativeResult.t, foldr and True ((λ e, ∃ r, assoc e.1 b.(NativeBucket.sub_aggregation) = Some r ∧ fits e.2 r) <$> (request_of <$> children)) →
    Runs right (finish_level finish_result (depth + 1) children b.(NativeBucket.sub_aggregation)) (λ out, zipped shaped children out ∧ level_ok result_ok (depth + 1) out) unfinished) as Hsub.
  { intros b Hb%foldr_and_Forall. apply finish_level_runs; [done|done|]. destruct Hc as (_ & Hnames & _ & Hv%foldr_and_Forall).
    rewrite Forall_forall in IH, Hfew, Hv, Hnames |- *. intros c Hin res Hres. apply IH; [done|by apply Hv|by apply Hfew| |done]. specialize (Hnames c Hin). cbn beta in Hnames. unfold U32_MAX. lia. }
  clear IH. cbn [native_of] in Hfits. cbn [finish_result].
  destruct kind as [size| |interval|ranges] eqn:Ek, result as [bs other err|count sm mn mx av|[bs|bs]|[bs|bs]|]; cbn [fits variant_of] in Hfits; try contradiction;
    (eapply (finish_value_runs _ name (λ v, value_finite v = Ok () → shaped (AggregationRequest.mk name f kind children) (AggregationResult.mk name v) ∧ result_ok depth (AggregationResult.mk name v)));
      [|intros v Hv Hf; rewrite <- Ek; exact (Hv Hf)]); rewrite Ek.
  - eapply Runs_bind; [apply (buckets_runs _ _ _ (λ _ k, lenN k <= U32_MAX) (λ out, zipped shaped children out ∧ level_ok result_ok (depth + 1) out))|].
    + eapply Forall_impl; [exact Hfits|]. intros b [Hk Hb]. split; [|by apply Hsub]. destruct b.(NativeBucket.key); try contradiction. by eexists.
    + intros out Hout. apply Runs_ret. intros _. cbn [shaped result_ok]. split; [split; [done|]|split; [done|apply foldr_and_Forall]]; eapply Forall_impl; try exact Hout.
      * by intros ? (b & k & a & -> & _ & Hz & _).
      * by intros ? (b & k & a & -> & Hk & _ & Hok).
  - apply Runs_ret. intros Hf. cbn [shaped result_ok]. split; [done|]. split; [done|]. unfold value_finite in Hf.
    destruct (f64_is_finite sm); [|discriminate Hf]. destruct (infinite mn) eqn:E1; [discriminate Hf|]. destruct (infinite mx) eqn:E2; [discriminate Hf|].
    destruct (infinite av) eqn:E3; [discriminate Hf|]. split; [reflexivity|]. split; [|split]; by apply finite_of.
  - eapply (Runs_bind _ _ _ (λ l, l = bs)); [by apply Runs_lift|]. intros ? ->.
    eapply Runs_bind; [apply (buckets_runs _ _ _ (λ _ _, True) (λ out, zipped shaped children out ∧ level_ok result_ok (depth + 1) out))|].
    + eapply Forall_impl; [exact Hfits|]. intros b [Hk Hb]. split; [|by apply Hsub]. destruct (number_key_ok _ Hk) as [n Hn]. by exists n.
    + intros out Hout. apply Runs_ret. intros Hf. cbn [shaped result_ok]. unfold value_finite in Hf. destruct (existsb _ out) eqn:Ex; [discriminate Hf|].
      split; [split; [done|]|split; [done|apply foldr_and_Forall]].
      * eapply Forall_impl; [exact Hout|]. by intros ? (b & k & a & -> & _ & Hz & _).
      * apply Forall_forall. intros x Hin. rewrite Forall_forall in Hout. destruct (Hout x Hin) as (b & k & a & Ex' & _ & _ & Hok). split; [|by rewrite Ex'].
        destruct (f64_is_finite x.(NumericBucket.key)) eqn:Ef; [reflexivity|]. rewrite <- Ex. apply existsb_exists. exists x.
        split; [by apply list_elem_of_In|]. by rewrite Ef.
  - eapply (Runs_bind _ _ _ (λ l, l = bs)); [by apply Runs_lift|]. intros ? ->.
    eapply Runs_bind; [apply (buckets_runs _ _ _ (λ b k, lenN k <= U32_MAX ∧ finite_opt b.(NativeBucket.from) ∧ finite_opt b.(NativeBucket.to)) (λ out, zipped shaped children out ∧ level_ok result_ok (depth + 1) out))|].
    + eapply Forall_impl; [exact Hfits|]. intros b [(Hk & Hft) Hb]. split; [|by apply Hsub]. destruct b.(NativeBucket.key); try contradiction. by eexists.
    + intros out Hout. apply Runs_ret. intros _. cbn [shaped result_ok]. split; [split; [done|]|split; [done|apply foldr_and_Forall]]; eapply Forall_impl; try exact Hout.
      * by intros ? (b & k & a & -> & _ & Hz & _).
      * by intros ? (b & k & a & -> & (Hk & Hfrom & Hto) & _ & Hok).
Qed.
End Finish.

(** ** Answered requests *)
Lemma cost_few r : (shape_cost r).1 <= U32_MAX → few r.
Proof.
  induction r as [name f kind children IH] using AggregationRequest.ind. cbn [shape_cost few fst]. intros Hc.
  assert (∀ c, c ∈ children → (shape_cost c).1 <= sum ((λ c, (shape_cost c).1) <$> children)) as Hle.
  { intros c Hin. apply sum_elem_le. by apply list_elem_of_fmap_2 with (f := λ c, (shape_cost c).1). }
  assert (lenN children <= sum ((λ c, (shape_cost c).1) <$> children)) as Hlen.
  { clear. induction children as [|c children IH]; [done|]. rewrite lenN_cons, fmap_cons, sum_cons. destruct c. cbn [shape_cost fst] in *. lia. }
  split; [lia|]. apply foldr_and_Forall. rewrite Forall_forall in IH |- *. intros c Hin. apply (IH c Hin). specialize (Hle c Hin). lia.
Qed.
Lemma fitting_few requests segments : shape_fits requests segments → lenN requests <= U32_MAX ∧ Forall few requests.
Proof.
  intros (_ & Hm & _). assert (memory_cost requests <= MAX_AGGREGATION_MEMORY_BYTES) as Hc by (assert (1 <= N.max segments 1) by lia; nia).
  unfold memory_cost, MAX_AGGREGATION_MEMORY_BYTES in Hc. split.
  - assert (lenN requests <= sum ((λ c, (shape_cost c).1) <$> requests)) as Hlen; [|unfold U32_MAX; lia].
    clear. induction requests as [|c requests IH]; [done|]. rewrite lenN_cons, fmap_cons, sum_cons. destruct c. cbn [shape_cost fst] in *. lia.
  - apply Forall_forall. intros r Hin. apply cost_few. apply (list_elem_of_fmap_2 (λ c, (shape_cost c).1)), sum_elem_le in Hin. unfold U32_MAX. lia.
Qed.
(** What the catalog does with its requests around the search that answers them. *)
Definition around_search (fields : list FilterFieldConfig.t) (requests : list AggregationRequest.t) (search : Aggregations → NativeResults) : E Session.t (list AggregationResult.t) :=
  native ← build_native_aggregations fields requests 1;
  finish_aggregations (Some (search native)) requests.
(** A terms aggregation over a histogram, as it may be answered. *)
Definition sample_fields : list FilterFieldConfig.t := [FilterFieldConfig.mk (blit "kind") FilterFieldType.String; FilterFieldConfig.mk (blit "price") FilterFieldType.Number].
Definition sample_requests : list AggregationRequest.t :=
  [AggregationRequest.mk (blit "kinds") (blit "kind") (AggregationKind.Terms 10) [AggregationRequest.mk (blit "prices") (blit "price") (AggregationKind.Histogram 4607182418800017408) []]].
Definition sample_answer : NativeResults :=
  [(blit "kinds", NativeResult.Terms
      [NativeBucket.mk (Key.Str (blit "a")) 2 None None
         [(blit "prices", NativeResult.Histogram (BucketEntries.Vec [NativeBucket.mk (Key.F64 4611686018427387904) 1 None None []; NativeBucket.mk (Key.U64 5) 1 None None []]))]] 0 (Some 0))].
