(* ===== verification/Costs.v ===== *)
(** * src/src/catalog.rs: the budget of aggregations

    Before aggregations are collected, [check_terms_budget] bounds the memory of
    their collectors and the bytes of their term keys in every segment: first
    roughly, then with the longest terms of the dictionaries, and at last with the
    number of buckets a histogram is found to have. *)
From Stdlib Require Import Floats.SpecFloat.
From S2P Require Import Prelude.
From S2P Require Import Errors.
From S2P Require Import Bytes.
From S2P Require Import Wire.
From S2P Require Import Request.
From S2P Require Import Results.
From S2P Require Import Aggregation.
From S2P Require Import Shape.
From S2P Require Import Deadline.
From S2P Require Import Failures.
From S2P Require Import Collecting.
From S2P Require Import Hits.
From S2P Require Import Ranking.
From S2P Require Import Merging.
From S2P Require Import Maxima.
From S2P Require Import Native.
Local Open Scope N_scope.

Definition MAX_TERM_KEY_BYTES : N := 16 * 1024 * 1024.
Definition INTERMEDIATE_COLLECTOR_MEMORY_ERROR : string := "Nested aggregation intermediate collector memory budget exceeded".
Definition intermediate_error : FulltextError := resource INTERMEDIATE_COLLECTOR_MEMORY_ERROR.
Definition decoded_error : FulltextError := resource "Nested aggregation decoded term-key byte budget exceeded".
Definition overflow_error : FulltextError := resource "Retained key memory overflow".
Definition add_key_budget (total count bytes limit : N) : outcome N :=
  product ← ok_or (checked_mul count bytes) overflow_error;
  total ← ok_or (checked_add total product) overflow_error;
  if limit <? total then Err (resource "Retained keys exceed materialization memory budget") else Ok total.
(** [.map_err(|_| error)] *)
Definition map_err {A} (r : outcome A) (e : FulltextError) : outcome A := match r with Err _ => Err e | _ => r end.

(** ** Histograms *)
(** [x as i64] of a floor in range. *)
Definition spec_to_Z (x : spec_float) : Z :=
  match x with
  | S754_finite s m e => let n := if (0 <=? e)%Z then (Z.pos m * 2 ^ e)%Z else (Z.pos m / 2 ^ (- e))%Z in if s then (- n)%Z else n
  | _ => 0%Z
  end.
Definition histogram_bucket_bound (column : Column.t) (interval : f64) : N :=
  let values := column.(Column.num_vals) in
  if values =? 0 then 0 else
  let min := column.(Column.min_value) in
  let max := column.(Column.max_value) in
  if histogram_position_safe min interval && histogram_position_safe max interval then
    let positions := (spec_to_Z (bucket_position max interval) - spec_to_Z (bucket_position min interval) + 1)%Z in
    if (0 <=? positions)%Z && (positions <=? Z.of_N USIZE_MAX)%Z then N.min values (Z.to_N positions) else values
  else values.
Definition HistogramBounds : Type := gmap HistogramBoundKey N.
Definition is_histogram (kind : AggregationKind.t) : bool := match kind with AggregationKind.Histogram _ => true | _ => false end.
Fixpoint refinable_histogram (request : AggregationRequest.t) : bool :=
  let 'AggregationRequest.mk _ _ kind children := request in
  negb (bool_decide (children = [])) && (is_histogram kind || existsb refinable_histogram children).
Definition has_refinable_histogram (requests : list AggregationRequest.t) : bool := existsb refinable_histogram requests.

Section Bounds.
Context (fields : list FilterFieldConfig.t).
(** The histograms with aggregations below them. *)
Definition Wanted : Type := gmap HistogramBoundKey f64.
Section WantedLevel.
Context (visit : N → list bytes → Wanted → AggregationRequest.t → E Session.t Wanted).
Definition wanted_level (depth : N) (ancestors : list bytes) (histograms : Wanted) (requests : list AggregationRequest.t) : E Session.t Wanted :=
  if bool_decide (requests = []) then mret histograms else
  _ ← lift_E (check_aggregation_depth depth);
  foldE (visit depth ancestors) histograms requests.
End WantedLevel.
Fixpoint wanted_walk (depth : N) (ancestors : list bytes) (histograms : Wanted) (request : AggregationRequest.t) : E Session.t Wanted :=
  let 'AggregationRequest.mk _ field_name kind children := request in
  _ ← check;
  if bool_decide (children = []) then mret histograms else
  histograms ← match kind with
               | AggregationKind.Histogram interval =>
                   entry ← lift_E (field field_name fields);
                   mret (<[(N.of_nat entry.1, interval, ancestors) := interval]> histograms)
               | _ => mret histograms
               end;
  entry ← lift_E (field field_name fields);
  wanted_level wanted_walk (depth + 1) (ancestors ++ [filter_name entry.1]) histograms children.

(** [searcher.search(&scoped_query, &DeadlineCollector { .. })]: the query, with a
    value in every ancestor, collected by one histogram whose positions are
    checked. *)
Context (search : list bytes → Aggregations → HistogramCheck.t → E Session.t NativeResults).
(** A result, or the error that was caught. *)
Definition caught {A} (m : E Session.t A) : E Session.t (A + FulltextError) := λ s,
  match m s with
  | (Ok a, s) => (Ok (inl a), s) | (Err e, s) => (Ok (inr e), s) | (Panic, s) => (Panic, s) | (Fuel, s) => (Fuel, s)
  end.
Definition bucket_count (buckets : BucketEntries.t (NativeBucket.t NativeResult.t)) : N :=
  match buckets with BucketEntries.Vec buckets => lenN buckets | BucketEntries.HashMap buckets => lenN buckets end.
Definition histogram_bound (bounds : HistogramBounds) (entry : HistogramBoundKey * f64) : E Session.t HistogramBounds :=
  let '((index, bits, ancestors), interval) := entry in
  _ ← check;
  let name := filter_name (N.to_nat index) in
  let request := Aggregation.mk (AggregationVariants.Histogram name interval (Some 1) false false) [] in
  result ← caught (search ancestors [(blit "histogram", request)] (HistogramCheck.mk name interval []));
  match result with
  | inl results =>
      match map_remove (blit "histogram") results with
      | Some (NativeResult.Histogram buckets, _) => mret (<[(index, bits, ancestors) := bucket_count buckets]> bounds)
      | _ => fail_E (native "Missing histogram admission result")
      end
  | inr error => if negb (code error =? "E_RESOURCE_LIMIT")%string && negb (code error =? "E_INVALID_ARGUMENT")%string then fail_E error else mret bounds
  end.
Definition query_histogram_bounds (requests : list AggregationRequest.t) : E Session.t HistogramBounds :=
  histograms ← wanted_level wanted_walk 1 [] ∅ requests;
  foldE histogram_bound ∅ (map_to_list histograms).

(** ** The walk *)
Context {Seg : Type} `{!Segments Seg} `{!Columns Seg} `{!FastFields Seg} `{!Searcher Seg}.
Definition terms_count (segment : Seg) (name : bytes) (column : option StrColumn.t) : N :=
  match column with Some c => N.min (lenN c.(StrColumn.dictionary)) (str_num_vals segment name) | None => 0 end.
Section Walk.
Context (histograms : HistogramBounds) (exact : bool) (segment : Seg).
(** [BudgetWalk], what changes of it. *)
Definition BudgetWalk : Type := N * N.
Definition walk_terms (name : bytes) (size parents : N) (self : BudgetWalk) : E Session.t (N * N * BudgetWalk) :=
  let '(keys, memory) := self in
  column ← lift_E (str_column segment name);
  let count := terms_count segment name column in
  size ← lift_E (terms_segment_size size);
  let retained := N.min size count in
  maximum ← (if exact && negb (retained =? 0) then max_dictionary_key segment name else mret 65530);
  instances ← lift_E (ok_or (checked_mul parents retained) decoded_error);
  bytes ← lift_E (usize_add maximum 128);
  keys ← lift_E (add_key_budget keys instances bytes MAX_TERM_KEY_BYTES);
  mret (retained, count, (keys, memory)).
Definition walk_histogram (name : bytes) (key : HistogramBoundKey) (interval : f64) (leaf : bool) : E Session.t N :=
  if leaf then mret 0 else
  column ← lift_E (f64_column segment name);
  let bound := histogram_bucket_bound column interval in
  mret (match histograms !! key with Some count => N.min bound count | None => bound end).
Definition walk_kind (index : nat) (kind : AggregationKind.t) (leaf : bool) (parents : N) (ancestors : list bytes) (self : BudgetWalk) : E Session.t (N * N * BudgetWalk) :=
  let name := filter_name index in
  match kind with
  | AggregationKind.Terms size => walk_terms name size parents self
  | AggregationKind.Histogram interval => count ← walk_histogram name (N.of_nat index, interval, ancestors) interval leaf; mret (count, count, self)
  | AggregationKind.Range ranges => count ← lift_E (range_bucket_bound ranges); mret (count, count, self)
  | AggregationKind.Stats => mret (0, 0, self)
  end.
Section WalkLevel.
Context (visit : N → N → N → list bytes → BudgetWalk → AggregationRequest.t → E Session.t BudgetWalk).
Definition walk_budget_level (depth parents collected_parents : N) (ancestors : list bytes) (self : BudgetWalk) (requests : list AggregationRequest.t) : E Session.t BudgetWalk :=
  if bool_decide (requests = []) || (collected_parents =? 0) then mret self else
  _ ← lift_E (check_aggregation_depth depth);
  foldE (visit depth parents collected_parents ancestors) self requests.
End WalkLevel.
Fixpoint walk_budget (depth parents collected_parents : N) (ancestors : list bytes) (self : BudgetWalk) (request : AggregationRequest.t) : E Session.t BudgetWalk :=
  let 'AggregationRequest.mk name field_name kind children := request in
  _ ← check;
  bytes ← lift_E (usize_add 512 (lenN name));
  memory ← lift_E (map_err (add_key_budget self.2 collected_parents bytes MAX_AGGREGATION_MEMORY_BYTES) intermediate_error);
  entry ← lift_E (field field_name fields);
  '(buckets, collected_buckets, self) ← walk_kind entry.1 kind (bool_decide (children = [])) parents ancestors (self.1, memory);
  if bool_decide (children = []) then mret self else
  instances ← lift_E (ok_or (checked_mul parents buckets) decoded_error);
  collected_instances ← lift_E (ok_or (checked_mul collected_parents collected_buckets) intermediate_error);
  walk_budget_level walk_budget (depth + 1) instances collected_instances (ancestors ++ [filter_name entry.1]) self children.
End Walk.

(** ** The check *)
Definition estimate (construction : N) (requests : list AggregationRequest.t) (exact : bool) (histograms : HistogramBounds) : E Session.t () :=
  _ ← foldE (λ self segment, walk_budget_level (walk_budget histograms exact segment) 1 1 1 [] self requests) (0, construction) segment_readers;
  mret ().
Definition is_resource_limit (e : FulltextError) : bool := (code e =? "E_RESOURCE_LIMIT")%string.
Definition check_terms_budget (requests : list AggregationRequest.t) : E Session.t () :=
  construction ← lift_E (check_aggregation_shape requests (lenN (segment_readers (Seg := Seg))));
  approximate ← caught (estimate construction requests false ∅);
  match approximate with
  | inl _ => mret ()
  | inr error =>
      if negb (is_resource_limit error) then fail_E error else
      if negb (has_refinable_histogram requests) && (message error =? INTERMEDIATE_COLLECTOR_MEMORY_ERROR)%string then fail_E error else
      exact ← caught (estimate construction requests true ∅);
      match exact with
      | inl _ => mret ()
      | inr original =>
          if negb (is_resource_limit original) then fail_E original else
          bounds ← query_histogram_bounds requests;
          if bool_decide (bounds = ∅) then fail_E original else estimate construction requests true bounds
      end
  end.
End Bounds.
