(* ===== verification/Budgeted.v ===== *)
(** * What the budget of aggregations decides

    [check_terms_budget] lets aggregations pass only if, with the longest terms of
    the dictionaries and the buckets histograms were found to have, what they need
    in all segments is within the limits; and it refuses them for a limit only if
    without those buckets it is not. *)
From Stdlib Require Import Floats.SpecFloat.
From S2P Require Import Prelude.
From S2P Require Import Errors.
From S2P Require Import Bytes.
From S2P Require Import Wire.
From S2P Require Import Request.
From S2P Require Import Results.
From S2P Require Import Aggregation.
From S2P Require Import Shape.
From S2P Require Import Deadline.
From S2P Require Import Failures.
From S2P Require Import Collecting.
From S2P Require Import Hits.
From S2P Require Import Ranking.
From S2P Require Import Merging.
From S2P Require Import Maxima.
From S2P Require Import Native.
From S2P Require Import Costs.
Local Open Scope N_scope.

Section Costs.
Context {Seg : Type} `{!Segments Seg} `{!Columns Seg} `{!FastFields Seg} `{!Searcher Seg}.
Context (longest_term : DictionaryCacheKey → N) (fields : list FilterFieldConfig.t).
Abbreviation longest_of := (longest_of (Seg := Seg) (longest_term := longest_term)).

(** ** The cost *)
Section Cost.
Context (histograms : HistogramBounds) (exact : bool) (segment : Seg).
Definition f64_of (name : bytes) : Column.t :=
  match f64_column segment name with Ok column => column | _ => Column.mk (λ _, []) 0 0 0 end.
(** Buckets that are kept of a request, and collected for it. *)
Definition buckets_of (name : bytes) (key : HistogramBoundKey) (kind : AggregationKind.t) (leaf : bool) : N * N :=
  match kind with
  | AggregationKind.Terms size =>
      let count := terms_count segment name (column_of segment name) in (N.min (size * 10) count, count)
  | AggregationKind.Histogram interval =>
      let bound := histogram_bucket_bound (f64_of name) interval in
      let count := if leaf then 0 else match histograms !! key with Some count => N.min bound count | None => bound end in (count, count)
  | AggregationKind.Range ranges => (range_buckets ranges, range_buckets ranges)
  | AggregationKind.Stats => (0, 0)
  end.
Definition interval_of (kind : AggregationKind.t) : f64 := match kind with AggregationKind.Histogram interval => interval | _ => 0 end.
(** The bytes of a decoded term. *)
Definition term_bytes (name : bytes) (retained : N) : N := (if exact && negb (retained =? 0) then longest_of segment name else 65530) + 128.
(** Bytes of keys and of memory. *)
Definition plus (a b : N * N) : N * N := (a.1 + b.1, a.2 + b.2).
Definition plus_all (l : list (N * N)) : N * N := (sum (fst <$> l), sum (snd <$> l)).
Fixpoint cost (parents collected : N) (ancestors : list bytes) (request : AggregationRequest.t) : N * N :=
  let 'AggregationRequest.mk name field kind children := request in
  let index := index_of fields field in
  let column := filter_name index in
  let leaf := bool_decide (children = []) in
  let '(buckets, collected_buckets) := buckets_of column (N.of_nat index, interval_of kind, ancestors) kind leaf in
  plus (match kind with AggregationKind.Terms _ => parents * buckets * term_bytes column buckets | _ => 0 end, collected * (512 + lenN name))
    (plus_all (cost (parents * buckets) (collected * collected_buckets) (ancestors ++ [column]) <$> children)).
End Cost.
Definition segment_cost histograms exact (requests : list AggregationRequest.t) (segment : Seg) : N * N :=
  plus_all (cost histograms exact segment 1 1 [] <$> requests).
Definition total_cost histograms exact (requests : list AggregationRequest.t) : N * N :=
  plus_all (segment_cost histograms exact requests <$> segment_readers).
Definition within (w : N * N) : Prop := w.1 <= MAX_TERM_KEY_BYTES ∧ w.2 <= MAX_AGGREGATION_MEMORY_BYTES.
(** The collectors of the shape and what the walk adds are within the limits. *)
Definition budget_fits histograms exact (requests : list AggregationRequest.t) : Prop :=
  within (plus (0, memory_cost requests * N.max (lenN (segment_readers (Seg := Seg))) 1) (total_cost histograms exact requests)).

Lemma plus_assoc a b c : plus (plus a b) c = plus a (plus b c).
Proof. unfold plus. cbn. by rewrite !N.add_assoc. Qed.
Lemma plus_zero_r a : plus a (0, 0) = a.
Proof. destruct a. unfold plus. cbn. by rewrite !N.add_0_r. Qed.
Lemma plus_all_app l k : plus_all (l ++ k) = plus (plus_all l) (plus_all k).
Proof. unfold plus_all, plus. cbn. by rewrite !fmap_app, !sum_app. Qed.
Lemma plus_all_one a : plus_all [a] = a.
Proof. destruct a. unfold plus_all, sum. cbn. by rewrite !N.add_0_r. Qed.
Lemma plus_all_zero {A} (f : A → N * N) l : (∀ a, a ∈ l → f a = (0, 0)) → plus_all (f <$> l) = (0, 0).
Proof.
  intros H. induction l as [|a l IH]; [done|]. change (f <$> a :: l) with ([f a] ++ (f <$> l)). rewrite plus_all_app, plus_all_one, H, IH by set_solver. done.
Qed.
Lemma within_plus a b : within (plus a b) → within a.
Proof. unfold within, plus. cbn. lia. Qed.
(** A part that does not fit, does not fit in the whole. *)
Lemma within_part a b c : ¬ within (plus a b) → ¬ within (plus a (plus b c)).
Proof. rewrite <- plus_assoc. intros H Hw. apply H. by apply within_plus in Hw. Qed.
Lemma cost_zero histograms exact segment ancestors r : cost histograms exact segment 0 0 ancestors r = (0, 0).
Proof.
  revert ancestors. induction r as [name f kind children IH] using AggregationRequest.ind. intros ancestors. cbn [cost].
  destruct (buckets_of _ _ _ _ _ _) as [b c]. rewrite !N.mul_0_l. rewrite plus_all_zero; [by destruct kind|]. rewrite Forall_forall in IH. auto.
Qed.
Lemma memory_least histograms exact segment parents collected ancestors r : collected * 512 <= (cost histograms exact segment parents collected ancestors r).2.
Proof. destruct r. cbn [cost]. destruct (buckets_of _ _ _ _ _ _) as [b c]. cbn. lia. Qed.

(** ** The walk adds the cost *)
Context (HF : FastFieldsLaws Seg longest_term).
Hypothesis Hf64 : ∀ (seg : Seg) name, stored (f64_column seg name) (λ _, True).
(** The budget was exceeded by [w]; the memory when the error says so. *)
Definition exceeds (e : FulltextError) (w : N * N) : Prop :=
  code e = "E_RESOURCE_LIMIT"%string ∧ ¬ within w ∧ (message e = INTERMEDIATE_COLLECTOR_MEMORY_ERROR → MAX_AGGREGATION_MEMORY_BYTES < w.2).
Definition budget_failure (w : N * N) (e : FulltextError) : Prop := native_failure e ∨ exceeds e w.
Lemma exceeds_more e a b : exceeds e a → exceeds e (plus a b).
Proof. intros (Hc & Hw & Hm). split_and!; [done| |]. - intros H. by apply Hw, (within_plus a b). - intros H. specialize (Hm H). cbn. lia. Qed.
Lemma failure_more e a b : budget_failure a e → budget_failure (plus a b) e.
Proof. intros [?|?]; [by left|right; by apply exceeds_more]. Qed.
Lemma add_key_budget_ok total count bytes limit : total <= limit → limit <= USIZE_MAX →
  match add_key_budget total count bytes limit with
  | Ok n => n = total + count * bytes ∧ n <= limit
  | Err e => code e = "E_RESOURCE_LIMIT"%string ∧ message e ≠ INTERMEDIATE_COLLECTOR_MEMORY_ERROR ∧ limit < total + count * bytes
  | _ => False
  end.
Proof.
  intros Ht Hl. unfold add_key_budget, checked_mul, checked_add. destruct (N.leb_spec (count * bytes) USIZE_MAX); cbn [ok_or mbind outcome_bind]; [|split_and!; [done|done|lia]].
  destruct (N.leb_spec (total + count * bytes) USIZE_MAX); cbn [ok_or mbind outcome_bind]; [|split_and!; [done|done|lia]].
  destruct (N.ltb_spec limit (total + count * bytes)); [split_and!; done|]. done.
Qed.
Section Walk.
Context (histograms : HistogramBounds) (exact : bool) (segment : Seg).
Abbreviation right := (right_maximum (longest_term := longest_term)).
Lemma walk_terms_runs name size parents self : within self → size * 10 <= U32_MAX →
  let '(retained, count) := buckets_of histograms segment name (0, 0, []) (AggregationKind.Terms size) false in
  let w := plus self (parents * retained * term_bytes exact segment name retained, 0) in
  Runs right (walk_terms exact segment name size parents self) (λ r, r = (retained, count, w) ∧ within w) (budget_failure w).
Proof using HF.
  intros [Hk Hm] Hs. destruct self as [keys memory]. cbn [fst snd] in *. unfold walk_terms. cbn [buckets_of]. cbv zeta.
  eapply (Runs_bind _ _ _ (λ column, str_column segment name = Ok column)).
  { apply Runs_lift. pose proof (str_column_stored Seg longest_term segment name) as Hc. destruct (str_column segment name); [done|by left|done..]. }
  intros column Ec. assert (column_of segment name = column) as Ecol by (unfold column_of; by rewrite Ec). rewrite Ecol. unfold terms_segment_size.
  rewrite (proj2 (N.leb_le _ _) Hs). eapply (Runs_bind _ _ _ (λ n, n = size * 10)); [by apply Runs_lift|]. intros ? ->.
  set (count := terms_count segment name column). set (retained := N.min (size * 10) count).
  eapply (Runs_bind _ _ _ (λ m, m + 128 = term_bytes exact segment name retained)).
  { unfold term_bytes. apply Runs_if; intros Hexact; rewrite Hexact; [|by apply Runs_ret].
    eapply Runs_weaken; [apply (max_dictionary_key_runs HF)| |by left]. by intros m ->. }
  intros m Em. assert (term_bytes exact segment name retained <= 65658) as Hterm.
  { unfold term_bytes. pose proof (longest_of_short HF segment name). destruct (exact && _); lia. }
  assert (0 < term_bytes exact segment name retained) as Hpos by (rewrite <- Em; lia).
  unfold checked_mul, usize_add, checked_add. rewrite (proj2 (N.leb_le _ _)) by (rewrite Em; unfold USIZE_MAX; lia). rewrite Em. cbn [unwrap].
  destruct (N.leb_spec (parents * retained) USIZE_MAX) as [Hle|Hgt]; cbn [ok_or].
  2: { intros s Hsok. cbn. split_and!; [done..|]. left. right. split_and!; [done| |done]. unfold within. cbn. unfold MAX_TERM_KEY_BYTES, USIZE_MAX in *. nia. }
  eapply (Runs_bind _ _ _ (λ i, i = parents * retained)); [by apply Runs_lift|]. intros ? ->.
  eapply (Runs_bind _ _ _ (λ b, b = term_bytes exact segment name retained)); [by apply Runs_lift|]. intros ? ->.
  pose proof (add_key_budget_ok keys (parents * retained) (term_bytes exact segment name retained) MAX_TERM_KEY_BYTES Hk ltac:(done)) as Hadd.
  eapply (Runs_bind _ _ _ (λ n, n = keys + parents * retained * term_bytes exact segment name retained ∧ n <= MAX_TERM_KEY_BYTES)).
  { apply Runs_lift. destruct (add_key_budget _ _ _ _) as [n|e| |]; [done| |done..]. right. destruct Hadd as (Hcode & Hmsg & Hlim). split_and!; [done| |done]. unfold within. cbn. lia. }
  intros n [-> Hn]. apply Runs_ret. unfold plus, within. cbn. rewrite N.add_0_r. done.
Qed.
Lemma buckets_le name key kind leaf : (buckets_of histograms segment name key kind leaf).1 <= (buckets_of histograms segment name key kind leaf).2.
Proof. destruct kind; cbn; lia. Qed.
(** The keys a request adds. *)
Definition own_keys (column : bytes) (kind : AggregationKind.t) (parents buckets : N) : N :=
  match kind with AggregationKind.Terms _ => parents * buckets * term_bytes exact segment column buckets | _ => 0 end.
Lemma walk_kind_runs index kind children parents ancestors self : within self → (∃ t, kind_valid t kind children) → lenN (ranges_of kind) <= U32_MAX →
  let b := buckets_of histograms segment (filter_name index) (N.of_nat index, interval_of kind, ancestors) kind (bool_decide (children = [])) in
  let w := plus self (own_keys (filter_name index) kind parents b.1, 0) in
  Runs right (walk_kind histograms exact segment index kind (bool_decide (children = [])) parents ancestors self) (λ r, r = (b, w) ∧ within w) (budget_failure w).
Proof using HF Hf64.
  intros Hself [t Hk] Hr. cbv zeta. unfold walk_kind. destruct kind as [size| |interval|ranges].
  - destruct Hk as (_ & _ & Hs). pose proof (walk_terms_runs (filter_name index) size parents self Hself Hs) as Hw. cbn [buckets_of own_keys fst] in *. exact Hw.
  - apply Runs_ret. cbn [buckets_of own_keys]. by rewrite plus_zero_r.
  - cbn [buckets_of own_keys interval_of]. cbv zeta. rewrite plus_zero_r. eapply (Runs_bind _ _ _ (λ count, count = if bool_decide (children = []) then 0 else
      match histograms !! (N.of_nat index, interval, ancestors) with Some count => N.min (histogram_bucket_bound (f64_of segment (filter_name index)) interval) count
      | None => histogram_bucket_bound (f64_of segment (filter_name index)) interval end)).
    + unfold walk_histogram. apply Runs_if; intros Hleaf; rewrite Hleaf; [by apply Runs_ret|].
      eapply (Runs_bind _ _ _ (λ c, c = f64_of segment (filter_name index))).
      { apply Runs_lift. unfold f64_of. pose proof (Hf64 segment (filter_name index)) as Hc. destruct (f64_column segment _); [done|by left|done..]. }
      intros c ->. by apply Runs_ret.
    + intros ? ->. by apply Runs_ret.
  - cbn [buckets_of own_keys ranges_of] in *. rewrite plus_zero_r, range_bucket_bound_ok by done. eapply (Runs_bind _ _ _ (λ n, n = range_buckets ranges)); [by apply Runs_lift|].
    intros ? ->. by apply Runs_ret.
Qed.
(** A level, given its requests. *)
Lemma walk_level_runs depth parents collected ancestors self requests : siblings_valid (aggregation_valid fields) depth requests → parents <= collected → within self →
  Forall (λ r, ∀ self, within self → Runs right (walk_budget fields histograms exact segment depth parents collected ancestors self r)
    (λ self', self' = plus self (cost histograms exact segment parents collected ancestors r) ∧ within self')
    (budget_failure (plus self (cost histograms exact segment parents collected ancestors r)))) requests →
  let w := plus self (plus_all (cost histograms exact segment parents collected ancestors <$> requests)) in
  Runs right (walk_budget_level (walk_budget fields histograms exact segment) depth parents collected ancestors self requests) (λ self', self' = w ∧ within self') (budget_failure w).
Proof.
  intros (Hd & _ & _ & _) Hle Hself Hr. cbv zeta. unfold walk_budget_level. case_bool_decide as Hnil; [subst; apply Runs_ret; by rewrite plus_zero_r|]. cbn [orb].
  destruct (N.eqb_spec collected 0) as [->|Hc].
  { assert (parents = 0) as -> by lia. rewrite plus_all_zero by (intros; apply cost_zero). apply Runs_ret. by rewrite plus_zero_r. }
  destruct Hd as [->|Hd]; [done|]. eapply (Runs_bind _ _ _ (λ _, True)); [apply Runs_lift; apply depth_ok in Hd; by rewrite Hd|]. intros _ _.
  eapply (Runs_foldE _ _ (λ done s, s = plus self (plus_all (cost histograms exact segment parents collected ancestors <$> done)) ∧ within s)); [by rewrite plus_zero_r|].
  intros done r todo s El [-> Hw]. rewrite Forall_forall in Hr. eapply Runs_weaken; [apply (Hr r); [rewrite El; set_solver|done]| |].
  - intros s' [-> Hw']. rewrite fmap_app, plus_all_app. change (_ <$> [r]) with [cost histograms exact segment parents collected ancestors r].
    rewrite plus_all_one, <- plus_assoc. done.
  - intros e He. rewrite El. replace (done ++ r :: todo) with ((done ++ [r]) ++ todo) by (by rewrite <- app_assoc). rewrite fmap_app, plus_all_app, fmap_app, plus_all_app.
    change (_ <$> [r]) with [cost histograms exact segment parents collected ancestors r]. rewrite plus_all_one, <- !plus_assoc. by apply failure_more.
Qed.
Lemma cost_unfold parents collected ancestors name f kind children :
  let column := filter_name (index_of fields f) in
  let b := buckets_of histograms segment column (N.of_nat (index_of fields f), interval_of kind, ancestors) kind (bool_decide (children = [])) in
  cost histograms exact segment parents collected ancestors (AggregationRequest.mk name f kind children)
  = plus (plus (0, collected * (512 + lenN name)) (own_keys column kind parents b.1, 0))
      (plus_all (cost histograms exact segment (parents * b.1) (collected * b.2) (ancestors ++ [column]) <$> children)).
Proof. cbv zeta. cbn [cost]. destruct (buckets_of _ _ _ _ _ _) as [b c]. unfold plus. cbn [fst snd]. rewrite N.add_0_r, N.add_0_l. by destruct kind. Qed.
Lemma children_memory parents collected ancestors children : children ≠ [] →
  collected * 512 <= (plus_all (cost histograms exact segment parents collected ancestors <$> children)).2.
Proof.
  destruct children as [|c children]; [done|]. intros _. change (_ <$> c :: children) with ([cost histograms exact segment parents collected ancestors c] ++ (cost histograms exact segment parents collected ancestors <$> children)).
  rewrite plus_all_app, plus_all_one. pose proof (memory_least histograms exact segment parents collected ancestors c). cbn [plus snd]. lia.
Qed.
Lemma walk_budget_runs r : ∀ depth parents collected ancestors self, aggregation_valid fields depth r → strings_short r → parents <= collected → within self →
  Runs right (walk_budget fields histograms exact segment depth parents collected ancestors self r)
    (λ self', self' = plus self (cost histograms exact segment parents collected ancestors r) ∧ within self')
    (budget_failure (plus self (cost histograms exact segment parents collected ancestors r))).
Proof using HF Hf64.
  induction r as [name f kind children IH] using AggregationRequest.ind. intros depth parents collected ancestors self [(t & Ht & Hk) Hc] (Hname & _ & Hranges & Hshort%foldr_and_Forall) Hle Hself.
  rewrite cost_unfold. cbv zeta. set (column := filter_name (index_of fields f)). set (b := buckets_of histograms segment column _ kind _).
  set (below := plus_all _). cbn [walk_budget]. eapply Runs_bind; [apply Runs_check|]. intros _ _.
  eapply (Runs_bind _ _ _ (λ n, n = 512 + lenN name)).
  { apply Runs_lift. unfold usize_add, checked_add, U32_MAX, USIZE_MAX in *. by rewrite (proj2 (N.leb_le _ _)) by lia. }
  intros ? ->. pose proof (add_key_budget_ok self.2 collected (512 + lenN name) MAX_AGGREGATION_MEMORY_BYTES (proj2 Hself) ltac:(done)) as Hadd.
  eapply (Runs_bind _ _ _ (λ n, n = self.2 + collected * (512 + lenN name) ∧ n <= MAX_AGGREGATION_MEMORY_BYTES)).
  { apply Runs_lift. unfold map_err. destruct (add_key_budget _ _ _ _) as [n|e| |]; [done| |done..]. destruct Hadd as (_ & _ & Hlim). right. split_and!; [done| |].
    - unfold within. cbn. lia.
    - intros _. cbn. lia. }
  intros memory [-> Hmem]. eapply (Runs_bind _ _ _ (λ e, e.1 = index_of fields f)).
  { apply Runs_lift. apply field_type_of_Some in Ht as ([i c] & Hf & _). rewrite Hf. apply field_Ok in Hf. unfold index_of. by rewrite Hf. }
  intros [i c] E. cbn [fst] in *. subst i. fold column.
  set (self1 := plus self (0, collected * (512 + lenN name))). assert ((self.1, self.2 + collected * (512 + lenN name)) = self1) as -> by (unfold self1, plus; cbn; by rewrite N.add_0_r).
  assert (within self1) as Hself1 by (unfold self1, within, plus in *; cbn in *; lia).
  rewrite <- (plus_assoc self), <- (plus_assoc self). fold self1.
  eapply Runs_bind; [eapply Runs_weaken; [apply (walk_kind_runs (index_of fields f) kind children parents ancestors self1); eauto| |]|].
  { intros r Hr. exact Hr. }
  { intros e He. by apply failure_more. }
  cbv zeta. fold column b. intros [[buckets collected_buckets] self2] [E Hself2]. pose proof (buckets_le column (N.of_nat (index_of fields f), interval_of kind, ancestors) kind (bool_decide (children = []))) as Hb.
  fold b in Hb. clearbody b. injection E as <- Es2. cbn [fst snd] in *. unfold below. rewrite <- Es2 in *. clear Es2 below.
  apply Runs_if; [intros ->%bool_decide_eq_true; apply Runs_ret; by rewrite plus_zero_r|intros Hnil%bool_decide_eq_false].
  assert (∀ n, USIZE_MAX < n → n <= collected * collected_buckets → MAX_AGGREGATION_MEMORY_BYTES < (plus self2 (plus_all (cost histograms exact segment (parents * buckets) (collected * collected_buckets) (ancestors ++ [column]) <$> children))).2) as Hover.
  { intros n Hn Hle'. pose proof (children_memory (parents * buckets) (collected * collected_buckets) (ancestors ++ [column]) children Hnil). cbn [plus snd]. unfold MAX_AGGREGATION_MEMORY_BYTES, USIZE_MAX in *. lia. }
  unfold checked_mul. destruct (N.leb_spec (parents * buckets) USIZE_MAX) as [Hp|Hp]; cbn [ok_or].
  2: { assert (parents * buckets <= collected * collected_buckets) as Hcc by nia. specialize (Hover _ Hp Hcc).
       eapply (Runs_bind _ _ _ (λ _, False)); [|done]. apply Runs_lift. right. split_and!; [done| |done]. intros [_ Hm%N.le_ngt]. exact (Hm Hover). }
  eapply (Runs_bind _ _ _ (λ n, n = parents * buckets)); [by apply Runs_lift|]. intros ? ->.
  destruct (N.leb_spec (collected * collected_buckets) USIZE_MAX) as [Hcol|Hcol]; cbn [ok_or].
  2: { specialize (Hover _ Hcol ltac:(lia)). eapply (Runs_bind _ _ _ (λ _, False)); [|done]. apply Runs_lift. right. split_and!; [done| |done].
       intros [_ Hm%N.le_ngt]. exact (Hm Hover). }
  eapply (Runs_bind _ _ _ (λ n, n = collected * collected_buckets)); [by apply Runs_lift|]. intros ? ->.
  apply walk_level_runs; [exact Hc|nia|done|]. destruct Hc as (_ & _ & _ & Hv%foldr_and_Forall). rewrite Forall_forall in IH, Hv, Hshort |- *.
  intros c' Hin s Hs. apply IH; [done|by apply Hv|by apply Hshort|nia|done].
Qed.
End Walk.

(** ** An error that is caught *)
Lemma Runs_caught {A B} right (m : E Session.t A) (k : A + FulltextError → E Session.t B) Q R F F' : Runs right m Q F →
  (∀ a, Q a → Runs right (k (inl a)) R F') → (∀ e, F e → Runs right (k (inr e)) R F') → Runs right (k (inr timeout)) R (λ e, F' e ∨ e = timeout) →
  Runs right (caught m ≫= k) R F'.
Proof.
  intros Hm Hl Hr Ht s Hs. cbv [mbind E_bind caught]. destruct (Hm s Hs) as (H1 & H2 & H3). destruct (m s) as [[a|e| |] s']; cbn [fst snd] in *; [| |done..].
  - destruct (Hl a H3 s' H1) as (H4 & H5 & H6). split_and!; [done|by rewrite H2|]. destruct (k (inl a) s').1; [done| |done..]. by rewrite H2.
  - destruct H3 as [He|[-> Hn]].
    + destruct (Hr e He s' H1) as (H4 & H5 & H6). split_and!; [done|by rewrite H2|]. destruct (k (inr e) s').1; [done| |done..]. by rewrite H2.
    + destruct (Ht s' H1) as (H4 & H5 & H6). split_and!; [done|by rewrite H2|]. destruct (k (inr timeout) s').1; [done| |done..].
      destruct H6 as [[|]|[? _]]; auto.
Qed.

(** ** The estimate *)
Abbreviation right := (right_maximum (longest_term := longest_term)).
Definition valid_requests (requests : list AggregationRequest.t) : Prop := siblings_valid (aggregation_valid fields) 1 requests ∧ Forall strings_short requests.
Lemma estimate_runs construction requests exact histograms : valid_requests requests → construction <= MAX_AGGREGATION_MEMORY_BYTES →
  let w := plus (0, construction) (total_cost histograms exact requests) in
  Runs right (estimate fields construction requests exact histograms) (λ _, within w) (budget_failure w).
Proof using HF Hf64.
  intros [Hv Hshort] Hc. cbv zeta. unfold estimate, total_cost.
  eapply (Runs_bind _ _ _ (λ w, w = plus (0, construction) (plus_all (segment_cost histograms exact requests <$> segment_readers)) ∧ within w)); [|by intros ? [-> Hw]; apply Runs_ret].
  eapply (Runs_foldE _ _ (λ done w, w = plus (0, construction) (plus_all (segment_cost histograms exact requests <$> done)) ∧ within w)); [by split; [rewrite plus_zero_r|split; cbn; [done|lia]]|].
  intros done seg todo w El [-> Hw]. pose proof Hv as (_ & _ & _ & Hva%foldr_and_Forall).
  eapply Runs_weaken; [eapply (walk_level_runs histograms exact seg 1 1 1 [] _ requests Hv ltac:(lia) Hw)| |].
  - rewrite Forall_forall in Hva, Hshort |- *. intros r Hin self Hself. apply walk_budget_runs; [by apply Hva|by apply Hshort|lia|done].
  - intros w' [-> Hw']. fold (segment_cost histograms exact requests seg) in *. rewrite fmap_app, plus_all_app. change (_ <$> [seg]) with [segment_cost histograms exact requests seg].
    rewrite plus_all_one, <- plus_assoc. done.
  - fold (segment_cost histograms exact requests seg). intros e He. rewrite El. replace (done ++ seg :: todo) with ((done ++ [seg]) ++ todo) by (by rewrite <- app_assoc).
    rewrite fmap_app, plus_all_app, fmap_app, plus_all_app. change (_ <$> [seg]) with [segment_cost histograms exact requests seg]. rewrite plus_all_one, <- !plus_assoc. by apply failure_more.
Qed.
(** Looking at the dictionaries only lowers the cost, and not that of memory. *)
Lemma term_bytes_exact seg name n : term_bytes true seg name n <= term_bytes false seg name n.
Proof using HF.
  unfold term_bytes. pose proof (longest_of_short HF seg name). destruct (n =? 0); cbn [negb andb]; lia.
Qed.
Lemma cost_exact histograms seg r : ∀ parents collected ancestors,
  (cost histograms true seg parents collected ancestors r).1 <= (cost histograms false seg parents collected ancestors r).1
  ∧ (cost histograms true seg parents collected ancestors r).2 = (cost histograms false seg parents collected ancestors r).2.
Proof using HF.
  induction r as [name f kind children IH] using AggregationRequest.ind. intros parents collected ancestors. rewrite !cost_unfold. cbv zeta.
  set (b := buckets_of _ _ _ _ _ _). set (column := filter_name _).
  assert (∀ p c a, (plus_all (cost histograms true seg p c a <$> children)).1 <= (plus_all (cost histograms false seg p c a <$> children)).1
    ∧ (plus_all (cost histograms true seg p c a <$> children)).2 = (plus_all (cost histograms false seg p c a <$> children)).2) as Hc.
  { intros p c a. induction IH as [|x l Hx _ IHl]; [done|].
    change (?f <$> x :: l) with ([f x] ++ (f <$> l)). rewrite !plus_all_app, !plus_all_one. destruct (Hx p c a), IHl. cbn [plus fst snd]. lia. }
  destruct (Hc (parents * b.1) (collected * b.2) (ancestors ++ [column])) as [H1 H2]. cbn [plus fst snd]. rewrite H2. split; [|lia].
  assert (own_keys true seg column kind parents b.1 <= own_keys false seg column kind parents b.1) as Hown; [|lia].
  unfold own_keys. destruct kind; try done. apply N.mul_le_mono_l, term_bytes_exact.
Qed.
Lemma total_exact histograms requests : (total_cost histograms true requests).1 <= (total_cost histograms false requests).1
  ∧ (total_cost histograms true requests).2 = (total_cost histograms false requests).2.
Proof using HF.
  unfold total_cost. induction segment_readers as [|seg segs IH]; [done|]. change (?f <$> seg :: segs) with ([f seg] ++ (f <$> segs)).
  rewrite !plus_all_app, !plus_all_one. cbn [plus fst snd].
  assert ((segment_cost histograms true requests seg).1 <= (segment_cost histograms false requests seg).1
    ∧ (segment_cost histograms true requests seg).2 = (segment_cost histograms false requests seg).2) as [H1 H2]; [|lia].
  unfold segment_cost. clear IH. induction requests as [|r requests IH]; [done|]. change (?f <$> r :: requests) with ([f r] ++ (f <$> requests)).
  rewrite !plus_all_app, !plus_all_one. destruct (cost_exact histograms seg r 1 1 []). cbn [plus fst snd]. lia.
Qed.

(** ** Histograms that are counted *)
Definition wanted_ok (histograms : Wanted) : Prop := ∀ (key : HistogramBoundKey) (interval : f64), histograms !! key = Some interval → interval = key.1.2.
Lemma wanted_level_runs depth ancestors histograms requests : siblings_valid (aggregation_valid fields) depth requests → wanted_ok histograms →
  Forall (λ r, ∀ histograms, wanted_ok histograms → Runs right (wanted_walk fields depth ancestors histograms r) wanted_ok (λ _, False)) requests →
  Runs right (wanted_level (wanted_walk fields) depth ancestors histograms requests) wanted_ok (λ _, False).
Proof.
  intros (Hd & _) Hw Hr. unfold wanted_level. case_bool_decide; [by apply Runs_ret|]. destruct Hd as [->|Hd]; [done|].
  eapply (Runs_bind _ _ _ (λ _, True)); [apply Runs_lift; apply depth_ok in Hd; by rewrite Hd|]. intros _ _.
  apply (Runs_foldE _ _ (λ _, wanted_ok)); [done|]. intros done r todo h El Hh. rewrite Forall_forall in Hr. apply Hr; [rewrite El; set_solver|done].
Qed.
Lemma wanted_walk_runs r : ∀ depth ancestors histograms, aggregation_valid fields depth r → wanted_ok histograms →
  Runs right (wanted_walk fields depth ancestors histograms r) wanted_ok (λ _, False).
Proof.
  induction r as [name f kind children IH] using AggregationRequest.ind. intros depth ancestors histograms [(t & Ht & _) Hc] Hw. cbn [wanted_walk].
  eapply Runs_bind; [apply Runs_check|]. intros _ _. case_bool_decide as Hnil; [by apply Runs_ret|].
  apply field_type_of_Some in Ht as (c & Hf & _).
  eapply (Runs_bind _ _ _ wanted_ok).
  { destruct kind; try by apply Runs_ret. eapply (Runs_bind _ _ _ (λ _, True)); [apply Runs_lift; by rewrite Hf|]. intros e _. apply Runs_ret.
    intros key i [(<- & <-)|(_ & Hk)]%lookup_insert_Some; [done|by apply Hw]. }
  intros h Hh. eapply (Runs_bind _ _ _ (λ _, True)); [apply Runs_lift; by rewrite Hf|]. intros e _.
  apply wanted_level_runs; [exact Hc|exact Hh|]. destruct Hc as (_ & _ & _ & Hv%foldr_and_Forall). rewrite Forall_forall in IH, Hv |- *. intros c' Hin h' Hh'. apply IH; [done|by apply Hv|done].
Qed.
(** What the index answers to a search of the matches with a value in the ancestors. *)
Context (search : list bytes → Aggregations → HistogramCheck.t → E Session.t NativeResults) (Answered : list bytes → Aggregations → NativeResults → Prop).
Hypothesis Hsearch : ∀ ancestors native check, Runs right (search ancestors native check) (Answered ancestors native) collection_failure.
Definition histogram_request (key : HistogramBoundKey) : Aggregations :=
  [(blit "histogram", Aggregation.mk (AggregationVariants.Histogram (filter_name (N.to_nat key.1.1)) key.1.2 (Some 1) false false) [])].
(** A number of buckets that was found by a search. *)
Definition admitted (key : HistogramBoundKey) (n : N) : Prop :=
  ∃ results buckets rest, Answered key.2 (histogram_request key) results ∧ map_remove (blit "histogram") results = Some (NativeResult.Histogram buckets, rest) ∧ n = bucket_count buckets.
Definition all_admitted (bounds : HistogramBounds) : Prop := ∀ (key : HistogramBoundKey) (n : N), bounds !! key = Some n → admitted key n.
Lemma histogram_bound_runs bounds key : all_admitted bounds → Runs right (histogram_bound search bounds (key, key.1.2)) all_admitted collection_failure.
Proof using All.
  intros Hb. destruct key as [[index interval] ancestors]. unfold histogram_bound. cbn [fst snd]. eapply Runs_bind; [apply Runs_check|]. intros _ _.
  eapply (Runs_caught _ _ _ _ all_admitted _ collection_failure); [apply Hsearch| | |].
  - intros results Hres.
    assert (Runs right (fail_E (native "Missing histogram admission result") : E Session.t HistogramBounds) all_admitted collection_failure) as Hmissing
      by (apply Runs_lift; left; unfold native_failure; cbn; set_solver).
    destruct (map_remove _ results) as [[[| |buckets| |] rest]|] eqn:E; try exact Hmissing.
    apply Runs_ret. intros k n [(<- & <-)|(_ & Hk)]%lookup_insert_Some; [|by apply Hb]. by exists results, buckets, rest.
  - intros e He. destruct (negb (code e =? _)%string && _); [by apply Runs_lift|by apply Runs_ret].
  - apply Runs_lift. by right.
Qed.
Lemma query_bounds_runs requests : siblings_valid (aggregation_valid fields) 1 requests →
  Runs right (query_histogram_bounds fields search requests) all_admitted collection_failure.
Proof using All.
  intros Hv. unfold query_histogram_bounds. eapply (Runs_bind _ _ _ wanted_ok).
  { eapply Runs_weaken; [apply wanted_level_runs; [exact Hv|by intros k i ?%lookup_empty_Some|]|done|done].
    destruct Hv as (_ & _ & _ & Hva%foldr_and_Forall). rewrite Forall_forall in Hva |- *. intros r Hin h Hh. apply wanted_walk_runs; [by apply Hva|done]. }
  intros histograms Hw. apply (Runs_foldE _ _ (λ _, all_admitted)); [by intros k n ?%lookup_empty_Some|].
  intros done [key i] todo bounds El Hb. assert ((key, i) ∈ done ++ (key, i) :: todo) as Hk by set_solver. rewrite <- El in Hk. apply elem_of_map_to_list in Hk.
  rewrite (Hw _ _ Hk). by apply histogram_bound_runs.
Qed.

(** ** The decision *)
(** Refused for a limit: without histograms that were counted the budget does not fit. *)
Definition over_budget (requests : list AggregationRequest.t) (e : FulltextError) : Prop :=
  (code e = "E_RESOURCE_LIMIT"%string ∨ code e = "E_RESULT_TOO_LARGE"%string ∧ ¬ shape_fits requests (lenN (segment_readers (Seg := Seg))))
  ∧ ¬ (shape_fits requests (lenN (segment_readers (Seg := Seg))) ∧ budget_fits ∅ true requests).
Definition terms_failure (requests : list AggregationRequest.t) (e : FulltextError) : Prop :=
  native_failure e ∨ over_budget requests e ∨ collection_failure e ∧ ¬ budget_fits ∅ true requests.
Definition terms_fit (requests : list AggregationRequest.t) : Prop :=
  shape_fits requests (lenN (segment_readers (Seg := Seg))) ∧ ∃ bounds, all_admitted bounds ∧ budget_fits bounds true requests.
Lemma empty_admitted : all_admitted ∅.
Proof. by intros k n ?%lookup_empty_Some. Qed.
Lemma check_terms_runs requests : valid_requests requests →
  Runs right (check_terms_budget fields search (Seg := Seg) requests) (λ _, terms_fit requests) (terms_failure requests).
Proof using All.
  intros Hv. unfold check_terms_budget. destruct (check_shape_iff requests (lenN (segment_readers (Seg := Seg))) (proj2 Hv)) as [Hg Hshape].
  eapply (Runs_bind _ _ _ (λ n, shape_fits requests (lenN (segment_readers (Seg := Seg))) ∧ n = memory_cost requests * N.max (lenN (segment_readers (Seg := Seg))) 1)).
  { apply Runs_lift. destruct (check_aggregation_shape _ _) as [n|e| |] eqn:E; [by apply Hshape| |done..]. right. left.
    assert (¬ shape_fits requests (lenN (segment_readers (Seg := Seg)))) as Hn by (intros Hf; by pose proof (proj2 (Hshape _) (conj Hf eq_refl))).
    split; [|by intros [? _]]. destruct Hg; auto. }
  intros construction [Hfits ->]. set (construction := memory_cost requests * _) in *. assert (construction <= MAX_AGGREGATION_MEMORY_BYTES) as Hc by apply Hfits.
  destruct (total_exact ∅ requests) as [Hkeys Hmem].
  assert (∀ w, within (plus (0, construction) (total_cost ∅ false requests)) → w = plus (0, construction) (total_cost ∅ true requests) → within w) as Hdown.
  { intros w [H1 H2] ->. split; cbn [plus fst snd] in *; lia. }
  eapply Runs_caught; [by apply estimate_runs| | |].
  - intros a Hw. apply Runs_ret. split; [exact Hfits|]. exists ∅. split; [apply empty_admitted|]. by eapply Hdown.
  - intros e [He|(Hcode & Hnot & Hmsg)].
    { unfold is_resource_limit. assert ((code e =? "E_RESOURCE_LIMIT")%string = false) as -> by (apply String.eqb_neq; intros E; unfold native_failure in He; rewrite E in He; set_solver).
      apply Runs_lift. by left. }
    unfold is_resource_limit. rewrite Hcode, String.eqb_refl. cbn [negb].
    destruct (negb (has_refinable_histogram requests) && _) eqn:Er.
    { apply andb_true_iff in Er as [_ Em%String.eqb_eq]. specialize (Hmsg Em). apply Runs_lift. right. left. split; [by left|]. intros [_ [_ Hm]].
      unfold plus in Hmsg, Hm. cbn [fst snd] in Hmsg, Hm. fold construction in Hm. lia. }
    eapply Runs_caught; [by apply estimate_runs| | |].
    + intros a Hw. apply Runs_ret. split; [exact Hfits|]. exists ∅. split; [apply empty_admitted|exact Hw].
    + intros original Ho. assert (Runs right (fail_E original : E Session.t ()) (λ _, terms_fit requests) (terms_failure requests)) as Hfail.
      { apply Runs_lift. destruct Ho as [Ho|(Hco & Hno & _)]; [by left|]. right. left. split; [by left|]. by intros [_ ?]. }
      destruct Ho as [Ho|(Hco & Hno & _)].
      { assert ((code original =? "E_RESOURCE_LIMIT")%string = false) as -> by (apply String.eqb_neq; intros E; unfold native_failure in Ho; rewrite E in Ho; set_solver).
        exact Hfail. }
      rewrite Hco, String.eqb_refl. cbn [negb].
      eapply Runs_bind; [eapply Runs_weaken; [apply query_bounds_runs, Hv|done|intros f Hf; right; right; by split]|]. intros bounds Hb.
      apply Runs_if; intros _; [exact Hfail|]. eapply Runs_weaken; [by apply estimate_runs| |].
      * intros a Hw. split; [exact Hfits|]. by exists bounds.
      * intros f [Hf|(Hcf & _ & _)]; [by left|]. right. left. split; [by left|]. by intros [_ ?].
    + apply Runs_lift. by right.
  - apply Runs_lift. by right.
Qed.
End Costs.
