(* ===== verification/Sorting.v ===== *)
(** * src/src/catalog_sort.rs: sort keys

    The order of a sort request, the comparison of keys of several fields, and
    [accept_sort_key_lazy], which reads the keys of a document only as far as the
    comparison with a threshold needs them. *)
From S2P Require Import Prelude.
From S2P Require Import Errors.
From S2P Require Import Bytes.
From S2P Require Import Wire.
From S2P Require Import Request.
From S2P Require Import Results.
From S2P Require Import Aggregation.
From S2P Require Import Deadline.
From S2P Require Import Failures.
From S2P Require Import Collecting.
From S2P Require Import Hits.
From S2P Require Import Ranking.
From S2P Require Import Merging.
From S2P Require Import Searching.
From S2P Require Import Maxima.
From S2P Require Import Native.
From S2P Require Import Costs.
Local Open Scope N_scope.

(** ** Orders *)
(** [tantivy::collector::sort_key::ComparatorEnum], as far as it is used. *)
Module ComparatorEnum.
Inductive t := Natural | Reverse | ReverseNoneLower | NaturalNoneHigher.
End ComparatorEnum.
Definition comparator (sort : SortRequest.t) : ComparatorEnum.t :=
  match sort.(SortRequest.direction), sort.(SortRequest.missing) with
  | SortDirection.Asc, MissingOrder.First => ComparatorEnum.Reverse
  | SortDirection.Asc, MissingOrder.Last => ComparatorEnum.ReverseNoneLower
  | SortDirection.Desc, MissingOrder.First => ComparatorEnum.NaturalNoneHigher
  | SortDirection.Desc, MissingOrder.Last => ComparatorEnum.Natural
  end.
(** Comparing optional keys; what is greater comes first. *)
Class Comparators := { compare_with : ∀ {A : Type}, (A → A → comparison) → ComparatorEnum.t → option A → option A → comparison }.
(** [Natural] puts no value below all values, [Reverse] is its opposite; the others
    turn only one of the two around. *)
Class ComparatorsLaws `{!Comparators} : Prop := {
  compare_values {A} (c : A → A → comparison) e a b : compare_with c e (Some a) (Some b)
    = match e with ComparatorEnum.Natural | ComparatorEnum.NaturalNoneHigher => c a b | _ => CompOpp (c a b) end;
  compare_missing {A} (c : A → A → comparison) e a : compare_with c e None (Some a)
    = match e with ComparatorEnum.Natural | ComparatorEnum.ReverseNoneLower => Lt | _ => Gt end;
  compare_present {A} (c : A → A → comparison) e a : compare_with c e (Some a) None
    = match e with ComparatorEnum.Natural | ComparatorEnum.ReverseNoneLower => Gt | _ => Lt end;
  compare_none {A} (c : A → A → comparison) e : compare_with c e None None = Eq }.
Section Keys.
Context `{!Comparators} {A : Type} (c : A → A → comparison).
(** [DynamicComparator::compare] *)
Fixpoint dynamic_compare (comparators : list ComparatorEnum.t) (ls rs : list (option A)) : comparison :=
  match ls, rs, comparators with
  | l :: ls, r :: rs, e :: comparators =>
      match compare_with c e l r with Eq => dynamic_compare comparators ls rs | order => order end
  | _, _, _ => Eq
  end.
End Keys.

(** ** Keys of a segment *)
(** What reads the key of a document. *)
Module NativeChild.
Record t := mk { key : N → f32 → option N }.
End NativeChild.
Module DynamicSegmentKeys.
Record t := mk { children : list NativeChild.t; comparator : list ComparatorEnum.t; scratch : list (option N) }.
End DynamicSegmentKeys.
Section Segment.
Context `{!Comparators}.
Definition segment_sort_key (self : DynamicSegmentKeys.t) (doc : N) (score : f32) : list (option N) :=
  (λ child, NativeChild.key child doc score) <$> self.(DynamicSegmentKeys.children).
(** [self.scratch[position] = self.children[position].key(doc, score)] *)
Definition read_key (self : DynamicSegmentKeys.t) (doc : N) (score : f32) (scratch : list (option N)) (position : nat) : outcome (option N * list (option N)) :=
  child ← unwrap (self.(DynamicSegmentKeys.children) !! position);
  let key := NativeChild.key child doc score in
  scratch ← vec_set scratch (N.of_nat position) key;
  Ok (key, scratch).
(** The loop over the threshold; [None] when the document comes after it. *)
Fixpoint lazy_loop (self : DynamicSegmentKeys.t) (doc : N) (score : f32) (position : nat) (threshold : list (option N)) (order : comparison) (scratch : list (option N))
  : outcome (option comparison * list (option N)) :=
  match threshold with
  | [] => Ok (Some order, scratch)
  | bound :: threshold =>
      '(key, scratch) ← read_key self doc score scratch position;
      e ← unwrap (self.(DynamicSegmentKeys.comparator) !! position);
      match compare_with N.compare e key bound with
      | Lt => Ok (None, scratch)
      | Gt =>
          scratch ← foldO (λ scratch position, '(_, scratch) ← read_key self doc score scratch position; Ok scratch) scratch
                      (seq (S position) (length self.(DynamicSegmentKeys.children) - S position));
          Ok (Some Gt, scratch)
      | Eq => lazy_loop self doc score (S position) threshold Eq scratch
      end
  end.
Definition accept_sort_key_lazy (self : DynamicSegmentKeys.t) (doc : N) (score : f32) (threshold : list (option N))
  : outcome (option (comparison * list (option N)) * DynamicSegmentKeys.t) :=
  '(order, scratch) ← lazy_loop self doc score 0 threshold Eq self.(DynamicSegmentKeys.scratch);
  Ok ((λ order : comparison, (order, scratch)) <$> (order : option comparison), DynamicSegmentKeys.mk self.(DynamicSegmentKeys.children) self.(DynamicSegmentKeys.comparator) scratch).
End Segment.
Module DynamicSortKeys.
Record t := mk { fields : list (bytes * FilterFieldType.t * ComparatorEnum.t) }.
Definition new (sorts : list SortRequest.t) (fields : list FilterFieldConfig.t) : outcome t :=
  fields ← mapO (λ sort, '(index, config) ← field sort.(SortRequest.field) fields;
                         Ok (filter_name index, config.(FilterFieldConfig.field_type), comparator sort)) sorts;
  Ok (mk fields).
Definition comparator (self : t) : list ComparatorEnum.t := snd <$> self.(fields).
End DynamicSortKeys.

(** ** The order of a sort *)
(** A value comes before another in the direction that was asked for; a missing
    value comes before all, or after all. *)
Definition value_precedes {A} (c : A → A → comparison) (sort : SortRequest.t) (a b : option A) : Prop :=
  match a, b with
  | Some a, Some b => match sort.(SortRequest.direction) with SortDirection.Asc => c a b ≠ Gt | SortDirection.Desc => c a b ≠ Lt end
  | None, Some _ => sort.(SortRequest.missing) = MissingOrder.First
  | Some _, None => sort.(SortRequest.missing) = MissingOrder.Last
  | None, None => True
  end.
Section Order.
Context `{!Comparators} `{!ComparatorsLaws} {A : Type} (c : A → A → comparison).
Lemma comparator_precedes sort a b : compare_with c (comparator sort) a b ≠ Lt ↔ value_precedes c sort a b.
Proof.
  unfold value_precedes, comparator. destruct a as [a|], b as [b|]; rewrite ?compare_values, ?compare_missing, ?compare_present, ?compare_none;
    destruct sort as [f [] []]; cbn; try (destruct (c a b); cbn; split; done); split; done.
Qed.
End Order.

(** ** Reading lazily is comparing *)
Section Lazy.
Context `{!Comparators}.
Implicit Types (self : DynamicSegmentKeys.t) (keys scratch threshold : list (option N)).
Lemma read_key_ok self doc score scratch position key : segment_sort_key self doc score !! position = Some key → (position < length scratch)%nat →
  read_key self doc score scratch position = Ok (key, <[position := key]> scratch).
Proof.
  intros Hk Hlt. unfold segment_sort_key in Hk. rewrite list_lookup_fmap in Hk. apply fmap_Some in Hk as (child & Hc & ->).
  unfold read_key. rewrite Hc. cbn [unwrap mbind outcome_bind]. unfold vec_set, lenN. rewrite (proj2 (N.ltb_lt _ _)) by lia. by rewrite Nat2N.id.
Qed.
(** Writing the rest of the keys. *)
Lemma fill_keys self doc score : ∀ n position scratch, let keys := segment_sort_key self doc score in
  length scratch = length keys → (position + n = length keys)%nat → take position scratch = take position keys →
  foldO (λ scratch position, '(_, scratch) ← read_key self doc score scratch position; Ok scratch) scratch (seq position n) = Ok keys.
Proof.
  induction n as [|n IH]; intros position scratch keys Hl Hp Ht; cbn [seq foldO].
  - f_equal. rewrite <- (firstn_all scratch), <- (firstn_all keys), Hl. replace (length keys) with position by lia. exact Ht.
  - destruct (lookup_lt_is_Some_2 keys position) as [key Hk]; [lia|]. rewrite (read_key_ok _ _ _ _ _ key Hk) by lia. cbn [mbind outcome_bind].
    apply IH; [by rewrite length_insert|fold keys; lia|]. fold keys. rewrite (take_S_r keys position key Hk), (take_S_r _ position key) by (apply list_lookup_insert_eq; rewrite Hl; lia).
    rewrite take_insert_ge by lia. by rewrite Ht.
Qed.
Lemma lazy_loop_ok self doc score : let keys := segment_sort_key self doc score in length self.(DynamicSegmentKeys.comparator) = length keys →
  ∀ threshold position scratch, length scratch = length keys → (position + length threshold = length keys)%nat → take position scratch = take position keys →
  let order := dynamic_compare N.compare (drop position self.(DynamicSegmentKeys.comparator)) (drop position keys) threshold in
  ∃ scratch', lazy_loop self doc score position threshold Eq scratch = Ok (match order with Lt => None | _ => Some order end, scratch')
    ∧ length scratch' = length keys ∧ (order ≠ Lt → scratch' = keys).
Proof.
  intros keys Hc. induction threshold as [|bound threshold IH]; intros position scratch Hl Hp Ht; cbn [lazy_loop].
  - exists scratch. cbn in Hp. rewrite !drop_ge by lia. cbn. split_and!; [done|done|]. intros _.
    rewrite <- (firstn_all scratch), <- (firstn_all keys), Hl. replace (length keys) with position by lia. exact Ht.
  - cbn in Hp. destruct (lookup_lt_is_Some_2 keys position) as [key Hk]; [lia|]. destruct (lookup_lt_is_Some_2 self.(DynamicSegmentKeys.comparator) position) as [e He]; [lia|].
    rewrite (read_key_ok _ _ _ _ _ key Hk) by lia. cbn [mbind outcome_bind]. rewrite He. cbn [unwrap mbind outcome_bind].
    rewrite (drop_S _ _ _ Hk), (drop_S _ _ _ He). cbn [dynamic_compare].
    assert (take (S position) (<[position := key]> scratch) = take (S position) keys) as Ht'.
    { rewrite (take_S_r keys position key Hk), (take_S_r _ position key) by (apply list_lookup_insert_eq; lia). rewrite take_insert_ge by lia. by rewrite Ht. }
    destruct (compare_with N.compare e key bound).
    + destruct (IH (S position) (<[position := key]> scratch)) as (scratch' & -> & Hrest); [by rewrite length_insert|lia|done|]. eauto.
    + eexists. split; [done|]. split; [by rewrite length_insert|done].
    + assert (length self.(DynamicSegmentKeys.children) = length keys) as Hch by (unfold keys, segment_sort_key; by rewrite length_fmap).
      rewrite Hch. rewrite (fill_keys self doc score (length keys - S position) (S position)); [|by rewrite length_insert|fold keys; lia|exact Ht'].
      cbn [mbind outcome_bind]. eexists. split; [done|]. done.
Qed.
End Lazy.

(** Several sorts, one after the other: the first on which two documents differ
    decides. *)
Fixpoint keys_precede {A} (c : A → A → comparison) (sorts : list SortRequest.t) (ls rs : list (option A)) : Prop :=
  match sorts, ls, rs with
  | s :: sorts, l :: ls, r :: rs => value_precedes c s l r ∧ (value_precedes c s r l → keys_precede c sorts ls rs)
  | _, _, _ => True
  end.
Lemma dynamic_precedes `{!Comparators} `{!ComparatorsLaws} {A} (c : A → A → comparison) : (∀ a b, c b a = CompOpp (c a b)) →
  ∀ sorts ls rs, dynamic_compare c (comparator <$> sorts) ls rs ≠ Lt ↔ keys_precede c sorts ls rs.
Proof.
  intros Hc. assert (∀ e l r, compare_with c e r l = CompOpp (compare_with c e l r)) as Hopp.
  { intros e [l|] [r|]; rewrite ?compare_values, ?compare_missing, ?compare_present, ?compare_none, ?(Hc l r); destruct e; try done; by destruct (c l r). }
  induction sorts as [|s sorts IH]; intros [|l ls] [|r rs]; try done. cbn [fmap list_fmap dynamic_compare keys_precede].
  rewrite <- !(comparator_precedes c). rewrite (Hopp _ l r). destruct (compare_with c (comparator s) l r); cbn [CompOpp].
  - rewrite IH. naive_solver.
  - naive_solver.
  - naive_solver.
Qed.
(** C16: The keys of a document are read only as far as needed, and that changes
    nothing: for a document that comes after the threshold nothing is returned, and
    otherwise all its keys and how they compare, as if they had been read first;
    the comparison is the order that was asked for, key by key, ascending or
    descending, missing values first or last. *)
Theorem accept_lazily `{!Comparators} `{!ComparatorsLaws} (sorts : list SortRequest.t) (self : DynamicSegmentKeys.t) (doc : N) (score : f32) (threshold : list (option N)) :
  self.(DynamicSegmentKeys.comparator) = comparator <$> sorts → length self.(DynamicSegmentKeys.children) = length sorts →
  length self.(DynamicSegmentKeys.scratch) = length sorts → length threshold = length sorts →
  let keys := segment_sort_key self doc score in
  let order := dynamic_compare N.compare self.(DynamicSegmentKeys.comparator) keys threshold in
  (∃ scratch, accept_sort_key_lazy self doc score threshold
     = Ok (match order with Lt => None | _ => Some (order, keys) end, DynamicSegmentKeys.mk self.(DynamicSegmentKeys.children) self.(DynamicSegmentKeys.comparator) scratch)
     ∧ length scratch = length sorts)
  ∧ (order ≠ Lt ↔ keys_precede N.compare sorts keys threshold).
Proof.
  intros Hc Hch Hs Ht keys order. assert (length keys = length sorts) as Hk by (unfold keys, segment_sort_key; by rewrite length_fmap).
  split; [|unfold order; rewrite Hc; apply dynamic_precedes; apply N.compare_antisym].
  destruct (lazy_loop_ok self doc score) with (threshold := threshold) (position := 0%nat) (scratch := self.(DynamicSegmentKeys.scratch)) as (scratch & E & Hlen & Heq);
    [rewrite Hc, length_fmap; fold keys; lia|fold keys; lia|fold keys; cbn; lia|done|]. fold keys in E, Hlen, Heq. rewrite !drop_0 in E, Heq. fold order in E, Heq.
  exists scratch. split; [|lia]. unfold accept_sort_key_lazy. rewrite E. cbn [mbind outcome_bind]. f_equal. destruct order; [|done|]; cbn; by rewrite Heq.
Qed.
(** What [ComparatorEnum] does, for the samples. *)
Definition sample_compare_with {A} (c : A → A → comparison) (e : ComparatorEnum.t) (a b : option A) : comparison :=
  match a, b with
  | Some a, Some b => match e with ComparatorEnum.Natural | ComparatorEnum.NaturalNoneHigher => c a b | _ => CompOpp (c a b) end
  | None, Some _ => match e with ComparatorEnum.Natural | ComparatorEnum.ReverseNoneLower => Lt | _ => Gt end
  | Some _, None => match e with ComparatorEnum.Natural | ComparatorEnum.ReverseNoneLower => Gt | _ => Lt end
  | None, None => Eq
  end.
#[export] Instance sample_comparators : Comparators := {| compare_with := @sample_compare_with |}.
#[export] Instance sample_comparators_laws : ComparatorsLaws.
Proof. by split. Qed.
(** Ascending with missing values last, then descending. *)
Definition sample_sorts : list SortRequest.t :=
  [SortRequest.mk (blit "kind") SortDirection.Asc MissingOrder.Last; SortRequest.mk (blit "price") SortDirection.Desc MissingOrder.First].
Definition sample_keys : DynamicSegmentKeys.t :=
  DynamicSegmentKeys.mk [NativeChild.mk (λ doc _, if doc =? 0 then None else Some doc); NativeChild.mk (λ doc _, Some (doc * 10))] (comparator <$> sample_sorts) [None; None].
Lemma accept_lazily_witness :
  (∃ scratch, accept_sort_key_lazy sample_keys 3 0 [Some 3; Some 40] = Ok (None, DynamicSegmentKeys.mk sample_keys.(DynamicSegmentKeys.children) (comparator <$> sample_sorts) scratch) ∧ length scratch = 2%nat)
  ∧ ((Lt : comparison) ≠ Lt ↔ keys_precede N.compare sample_sorts [Some 3; Some 30] [Some 3; Some 40]).
Proof. exact (accept_lazily sample_sorts sample_keys 3 0 [Some 3; Some 40] eq_refl eq_refl eq_refl eq_refl). Defined.

(** * src/src/catalog_sort.rs: the budget of a sort

    [check_budget] bounds the buffers of a sorted collection and the terms it
    retains: first by the longest possible terms, then by the longest terms of the
    dictionaries, then by the longest IDs, and at last by the number of matches. *)
Definition MAX_SORT_MEMORY_BYTES : N := 64 * 1024 * 1024.
(** The sizes the compiler gives to the values of the collector. *)
Class Layout := { size_of_value : N; size_of_global : N; size_of_segment : N }.
(** [size_of::<Option<u64>>()] *)
Definition size_of_option : N := 16.
Definition key_overflow : FulltextError := resource "Sort key size overflow".
Definition buffer_overflow : FulltextError := resource "Sort buffer memory overflow".
(** A computation on the clock of the session. *)
Definition on_clock {A} (m : M Clock A) : E Session.t A := λ s,
  match m s.(Session.clock) with
  | Ok (a, clock) => (Ok a, Session.mk clock s.(Session.cache))
  | Err e => (Err e, s) | Panic => (Panic, s) | Fuel => (Fuel, s)
  end.

Section Budget.
Context `{!Layout}.
Definition global_key_bytes (key_count : N) : outcome N :=
  ok_or (n ← checked_mul key_count size_of_value; checked_add n size_of_global) key_overflow.
Definition buffer_bytes (end_ segments parallelism key_count : N) : outcome N :=
  segment_bytes ← ok_or (n ← checked_mul key_count size_of_option; checked_add n size_of_segment) key_overflow;
  global_bytes ← (if key_count <=? 4 then global_key_bytes key_count else Ok size_of_global);
  ok_or (n ← checked_mul end_ 2; n ← checked_mul n segment_bytes; n ← checked_mul n (N.min segments parallelism);
         g ← checked_mul end_ 2; g ← checked_mul g global_bytes; n ← checked_add n g;
         k ← checked_mul key_count size_of_option; k ← checked_mul k 3; k ← checked_mul k (N.min segments parallelism); checked_add n k) buffer_overflow.

Context {Seg : Type} `{!Segments Seg} `{!Columns Seg} `{!FastFields Seg} `{!Searcher Seg} `{!Counting Seg}.
(** The threads of the search executor. *)
Context (parallelism : N).
(** [try_fold] of [fits]. *)
Fixpoint retained_bytes (end_ total : N) (segments : list Seg) (sizes : list N) : option N :=
  match segments, sizes with
  | segment :: segments, bytes :: sizes =>
      bytes ← checked_mul (N.min end_ (num_docs segment)) bytes; total ← checked_add total bytes; retained_bytes end_ total segments sizes
  | _, _ => Some total
  end.
Definition fits_sort (end_ fixed : N) (sizes : list N) : bool :=
  match (total ← retained_bytes end_ fixed segment_readers sizes; extra ← checked_mul 2 (foldr N.max 0 sizes); checked_add total extra) with
  | Some total => total <=? MAX_SORT_MEMORY_BYTES
  | None => false
  end.
(** The loop over the sorts. *)
Definition select_sort (fields : list FilterFieldConfig.t) (state : list (bytes * bool) * N) (sort : SortRequest.t) : E Session.t (list (bytes * bool) * N) :=
  let '(selected, worst) := state in
  _ ← check;
  '(index, config) ← lift_E (field sort.(SortRequest.field) fields);
  let string := bool_decide (config.(FilterFieldConfig.field_type) = FilterFieldType.String) in
  worst ← lift_E (if string then ok_or (checked_add worst 65530) key_overflow else Ok worst);
  mret (selected ++ [(filter_name index, string)], worst).
Definition segment_size (selected : list (bytes * bool)) (bytes : N) (segment : Seg) : E Session.t N :=
  foldE (λ bytes entry, let '(name, string) := entry in
    _ ← check;
    if (string : bool) then n ← max_dictionary_key segment name; lift_E (ok_or (checked_add bytes n) key_overflow) else mret bytes) bytes selected.
Definition with_ids (sizes : list N) : E Session.t (list N) :=
  mapE (λ e : Seg * N, ids ← max_dictionary_key e.1 ID_FIELD_NAME;
                       lift_E (ok_or (bytes ← checked_sub e.2 MAX_RECORD_ID_BYTES; checked_add bytes ids) key_overflow)) (zip segment_readers sizes).
Definition retained_keys (end_ : N) : outcome N :=
  ok_or (foldl (λ total (segment : Seg), total ← total; checked_add total (N.min end_ (num_docs segment))) (Some 0) segment_readers) (resource "Retained key count overflow").
Definition check_budget (end_ : N) (sorts : list SortRequest.t) (fields : list FilterFieldConfig.t) : E Session.t () :=
  global_bytes ← lift_E (global_key_bytes (lenN sorts));
  fixed ← lift_E (buffer_bytes end_ (lenN (segment_readers (Seg := Seg))) parallelism (lenN sorts));
  if MAX_SORT_MEMORY_BYTES <? fixed then fail_E (resource "Sort buffers exceed memory budget") else
  worst ← lift_E (ok_or (checked_add global_bytes MAX_RECORD_ID_BYTES) key_overflow);
  '(selected, worst) ← foldE (select_sort fields) ([], worst) sorts;
  if fits_sort end_ fixed (replicate (length (segment_readers (Seg := Seg))) worst) then mret () else
  sizes ← mapE (λ segment : Seg, bytes ← lift_E (ok_or (checked_add global_bytes MAX_RECORD_ID_BYTES) key_overflow); segment_size selected bytes segment) segment_readers;
  if fits_sort end_ fixed sizes then mret () else
  sizes ← with_ids sizes;
  if fits_sort end_ fixed sizes then mret () else
  retained ← lift_E (retained_keys end_);
  matching ← on_clock (count_matches (Seg := Seg));
  _ ← lift_E (add_key_budget fixed (saturating_add (N.min retained matching) (N.min matching 2)) (foldr N.max 0 sizes) MAX_SORT_MEMORY_BYTES);
  mret ().
End Budget.
