(* ===== verification/SortFits.v ===== *)
(** * What the budget of a sort decides

    [check_budget] lets a sort pass only if its buffers, and the terms it retains
    for the longest keys of each segment or for the matches, are within the limit;
    it refuses for the limit only if they are not. *)
From S2P Require Import Prelude.
From S2P Require Import Errors.
From S2P Require Import Bytes.
From S2P Require Import Wire.
From S2P Require Import Request.
From S2P Require Import Results.
From S2P Require Import Aggregation.
From S2P Require Import Deadline.
From S2P Require Import Failures.
From S2P Require Import Collecting.
From S2P Require Import Hits.
From S2P Require Import Ranking.
From S2P Require Import Merging.
From S2P Require Import Searching.
From S2P Require Import Searched.
From S2P Require Import Maxima.
From S2P Require Import Native.
From S2P Require Import Costs.
From S2P Require Import Budgeted.
From S2P Require Import Sorting.
Local Open Scope N_scope.

Lemma Runs_on_clock {A} right (m : M Clock A) Q (F : FulltextError → Prop) : Timed m Q F → Runs right (on_clock m) Q F.
Proof.
  intros Hm s Hs. unfold on_clock. specialize (Hm s.(Session.clock)). destruct (m (Session.clock s)) as [[a c]|e| |]; cbn [fst snd Session.clock]; [| |contradiction..].
  - destruct Hm as [HQ Hc]. by split_and!.
  - split_and!; [done|done|exact Hm].
Qed.

Section Fits.
Context `{!Layout} {Seg : Type} `{!Segments Seg} `{!Columns Seg} `{!FastFields Seg} `{!Searcher Seg} `{!Counting Seg}.
Context (parallelism : N) (longest_term : DictionaryCacheKey → N) (fields : list FilterFieldConfig.t).
Abbreviation longest_of := (longest_of (Seg := Seg) (longest_term := longest_term)).
Abbreviation right := (right_maximum (longest_term := longest_term)).

(** ** The need *)
(** The string fields of the sorts. *)
Definition is_string (sort : SortRequest.t) : bool := bool_decide (field_type_of fields sort.(SortRequest.field) = Some FilterFieldType.String).
Definition sort_name (sort : SortRequest.t) : bytes := filter_name (index_of fields sort.(SortRequest.field)).
Definition sort_terms (segment : Seg) (sorts : list SortRequest.t) : N := sum ((λ sort, if is_string sort then longest_of segment (sort_name sort) else 0) <$> sorts).
Definition key_header (sorts : list SortRequest.t) : N := lenN sorts * size_of_value + size_of_global.
(** The bytes of a retained key. *)
Definition key_bytes (sorts : list SortRequest.t) (segment : Seg) : N := key_header sorts + sort_terms segment sorts + longest_of segment ID_FIELD_NAME.
Definition fixed_bytes (end_ : N) (sorts : list SortRequest.t) : N :=
  let active := N.min (lenN (segment_readers (Seg := Seg))) parallelism in
  end_ * 2 * (lenN sorts * size_of_option + size_of_segment) * active
  + end_ * 2 * (if lenN sorts <=? 4 then key_header sorts else size_of_global) + lenN sorts * size_of_option * 3 * active.
Definition largest (sizes : list N) : N := foldr N.max 0 sizes.
Definition need (end_ fixed : N) (sizes : list N) : N :=
  fixed + sum (zip_with (λ (segment : Seg) bytes, N.min end_ (num_docs segment) * bytes) segment_readers sizes) + 2 * largest sizes.
Definition retained (end_ : N) : N := sum ((λ segment : Seg, N.min end_ (num_docs segment)) <$> segment_readers).
Definition sort_fits (end_ : N) (sorts : list SortRequest.t) : Prop :=
  let fixed := fixed_bytes end_ sorts in let sizes := key_bytes sorts <$> segment_readers in
  fixed <= MAX_SORT_MEMORY_BYTES
  ∧ (need end_ fixed sizes <= MAX_SORT_MEMORY_BYTES
     ∨ fixed + (N.min (retained end_) match_count + N.min match_count 2) * largest sizes <= MAX_SORT_MEMORY_BYTES).

(** ** Arithmetic *)
Lemma retained_bytes_spec end_ : ∀ segments sizes total, total <= USIZE_MAX →
  let n := total + sum (zip_with (λ (segment : Seg) bytes, N.min end_ (num_docs segment) * bytes) segments sizes) in
  (retained_bytes end_ total segments sizes = Some n ∧ n <= USIZE_MAX) ∨ (retained_bytes end_ total segments sizes = None ∧ USIZE_MAX < n).
Proof.
  induction segments as [|seg segments IH]; intros [|size sizes] total Ht; cbn [retained_bytes zip_with]; try (left; change (sum []) with 0; split; [f_equal; lia|lia]).
  rewrite sum_cons. destruct (checked_mul_cases (N.min end_ (num_docs seg)) size) as [[-> Hm]|[-> Hm]]; cbn [mbind option_bind]; [|right; split; [done|lia]].
  destruct (checked_add_cases total (N.min end_ (num_docs seg) * size)) as [[-> Ha]|[-> Ha]]; cbn [mbind option_bind]; [|right; split; [done|lia]].
  specialize (IH sizes _ Ha). cbv zeta in IH. rewrite N.add_assoc. exact IH.
Qed.
Lemma fits_sort_iff end_ fixed sizes : fixed <= MAX_SORT_MEMORY_BYTES → fits_sort end_ fixed sizes = true ↔ need end_ fixed sizes <= MAX_SORT_MEMORY_BYTES.
Proof.
  intros Hf. unfold fits_sort, need. fold (largest sizes). assert (MAX_SORT_MEMORY_BYTES <= USIZE_MAX) as Hmax by done.
  destruct (retained_bytes_spec end_ segment_readers sizes fixed) as [[-> Hr]|[-> Hr]]; [lia| |]; cbn [mbind option_bind]; [|split; [done|lia]].
  destruct (checked_mul_cases 2 (largest sizes)) as [[-> Hm]|[-> Hm]]; cbn [mbind option_bind]; [|split; [done|lia]].
  destruct (checked_add_cases (fixed + sum (zip_with (λ (segment : Seg) bytes, N.min end_ (num_docs segment) * bytes) segment_readers sizes)) (2 * largest sizes)) as [[-> Ha]|[-> Ha]];
    cbn [mbind option_bind]; [|split; [done|lia]]. apply N.leb_le.
Qed.
Lemma need_mono end_ fixed sizes sizes' : Forall2 N.le sizes sizes' → need end_ fixed sizes <= need end_ fixed sizes'.
Proof.
  intros Hall. unfold need. assert (largest sizes <= largest sizes') as Hl by (unfold largest; induction Hall; cbn [foldr]; lia).
  assert (sum (zip_with (λ (segment : Seg) bytes, N.min end_ (num_docs segment) * bytes) segment_readers sizes)
    <= sum (zip_with (λ (segment : Seg) bytes, N.min end_ (num_docs segment) * bytes) segment_readers sizes')) as Hs; [|lia].
  clear Hl. revert sizes sizes' Hall. induction segment_readers as [|seg segs IH]; intros sizes sizes' Hall; [done|]. destruct Hall as [|a b sizes sizes' Hab Hall]; [done|].
  cbn [zip_with]. rewrite !sum_cons. specialize (IH _ _ Hall). nia.
Qed.

(** ** The sizes that are compared *)
Context (HF : FastFieldsLaws Seg longest_term) (HS : SearcherLaws Seg) (HC : CountingLaws Seg).
Hypothesis Hlayout : size_of_value <= U32_MAX ∧ size_of_global <= U32_MAX ∧ size_of_segment <= U32_MAX.
Hypothesis Hdocs : ∀ seg : Seg, num_docs seg < 2 ^ 32.
(** IDs were checked when they were indexed. *)
Hypothesis Hids : ∀ seg : Seg, longest_of seg ID_FIELD_NAME <= MAX_RECORD_ID_BYTES.
Hypothesis Hmatches : match_count (Seg := Seg) < 2 ^ 64.
Context (sorts : list SortRequest.t).
Hypothesis Hsorts : sorts_valid fields sorts.
Hypothesis Hfew : lenN sorts <= MAX_FIELDS.
Definition sort_failure (end_ : N) (e : FulltextError) : Prop := native_failure e ∨ code e = "E_RESOURCE_LIMIT"%string ∧ ¬ sort_fits end_ sorts.

Lemma header_ok : global_key_bytes (lenN sorts) = Ok (key_header sorts) ∧ key_header sorts <= 2 ^ 44.
Proof using All.
  destruct Hlayout as (Hv & Hg & _). unfold global_key_bytes, key_header, MAX_FIELDS, U32_MAX in *. split; [|nia].
  destruct (checked_mul_cases (lenN sorts) size_of_value) as [[-> Hm]|[_ Hm]]; cbn [mbind option_bind]; [|unfold USIZE_MAX in Hm; nia].
  destruct (checked_add_cases (lenN sorts * size_of_value) size_of_global) as [[-> Ha]|[_ Ha]]; [done|]. unfold USIZE_MAX in Ha. nia.
Qed.
Context (end_ : N).
Hypothesis Hend : end_ <= MAX_SEARCH_WINDOW.
Lemma buffer_ok : match buffer_bytes end_ (lenN (segment_readers (Seg := Seg))) parallelism (lenN sorts) with
  | Ok n => n = fixed_bytes end_ sorts | Err e => code e = "E_RESOURCE_LIMIT"%string ∧ USIZE_MAX < fixed_bytes end_ sorts | _ => False end.
Proof using All.
  destruct header_ok as [Hh Hle]. unfold buffer_bytes. rewrite Hh. pose proof Hlayout as (_ & Hg & Hsz). unfold fixed_bytes, MAX_FIELDS, U32_MAX in *.
  destruct (checked_mul_cases (lenN sorts) size_of_option) as [[-> Hm]|[_ Hm]]; cbn [mbind option_bind]; [|unfold USIZE_MAX, size_of_option in Hm; nia].
  destruct (checked_add_cases (lenN sorts * size_of_option) size_of_segment) as [[-> Ha]|[_ Ha]]; cbn [ok_or mbind outcome_bind option_bind]; [|unfold USIZE_MAX, size_of_option in Ha; nia].
  set (active := N.min _ parallelism). set (segment_bytes := lenN sorts * size_of_option + size_of_segment).
  assert ((if lenN sorts <=? 4 then Ok (key_header sorts) else Ok size_of_global) = Ok (if lenN sorts <=? 4 then key_header sorts else size_of_global)) as -> by (by destruct (lenN sorts <=? 4)).
  set (global := if lenN sorts <=? 4 then _ else _). cbn [mbind outcome_bind].
  assert (segment_bytes <= 2 ^ 33) as Hsegment by (unfold segment_bytes, size_of_option; lia).
  assert (global <= 2 ^ 44) as Hglobal by (unfold global; destruct (lenN sorts <=? 4); lia).
  assert (active <= 2 ^ 32) as Hactive by (pose proof segments_few; unfold active; lia). unfold MAX_SEARCH_WINDOW in Hend.
  destruct (checked_mul_cases end_ 2) as [[-> _]|[_ H1]]; cbn [mbind option_bind]; [|unfold USIZE_MAX in H1; lia].
  destruct (checked_mul_cases (end_ * 2) segment_bytes) as [[-> _]|[_ H1]]; cbn [mbind option_bind]; [|unfold USIZE_MAX in H1; nia].
  destruct (checked_mul_cases (end_ * 2 * segment_bytes) active) as [[-> _]|[-> H1]]; cbn [mbind option_bind ok_or]; [|split; [done|lia]].
  destruct (checked_mul_cases (end_ * 2) global) as [[-> _]|[_ H1]]; cbn [mbind option_bind]; [|unfold USIZE_MAX in H1; nia].
  destruct (checked_add_cases (end_ * 2 * segment_bytes * active) (end_ * 2 * global)) as [[-> _]|[-> H1]]; cbn [mbind option_bind ok_or]; [|split; [done|lia]].
  destruct (checked_mul_cases (lenN sorts * size_of_option) 3) as [[-> _]|[_ H1]]; cbn [mbind option_bind]; [|unfold USIZE_MAX, size_of_option in H1; nia].
  destruct (checked_mul_cases (lenN sorts * size_of_option * 3) active) as [[-> _]|[_ H1]]; cbn [mbind option_bind]; [|unfold USIZE_MAX, size_of_option in H1; nia].
  destruct (checked_add_cases (end_ * 2 * segment_bytes * active + end_ * 2 * global) (lenN sorts * size_of_option * 3 * active)) as [[-> _]|[-> H1]]; cbn [ok_or]; [done|split; done].
Qed.

(** ** The runs *)
Definition entry_of (sort : SortRequest.t) : bytes * bool := (sort_name sort, is_string sort).
Definition worst_term (sort : SortRequest.t) : N := if is_string sort then 65530 else 0.
Definition rough_bytes (seg : Seg) : N := key_header sorts + MAX_RECORD_ID_BYTES + sort_terms seg sorts.
Lemma Runs_add a b error : a + b <= USIZE_MAX → Runs right (lift_E (ok_or (checked_add a b) error)) (λ n, n = a + b) (sort_failure end_).
Proof using All. intros Hle. apply Runs_lift. destruct (checked_add_cases a b) as [[-> _]|[_ Hm]]; [done|lia]. Qed.
Lemma terms_few (f : SortRequest.t → N) (l : list SortRequest.t) : (∀ s, f s <= 65530) → sum (f <$> l) <= 65530 * lenN l.
Proof. intros Hf. induction l as [|s l IH]; [done|]. rewrite fmap_cons, sum_cons, lenN_cons. specialize (Hf s). lia. Qed.
Lemma part_few {A} (a b l : list A) x : l = a ++ x :: b → lenN a < lenN l.
Proof. intros ->. rewrite lenN_app, lenN_cons. lia. Qed.
Lemma select_runs w : w <= 2 ^ 45 →
  Runs right (foldE (select_sort fields) ([], w) sorts) (λ r, r = (entry_of <$> sorts, w + sum (worst_term <$> sorts))) (sort_failure end_).
Proof using All.
  intros Hw. unfold MAX_FIELDS in *.
  apply (Runs_foldE _ _ (λ done r, r = (entry_of <$> done, w + sum (worst_term <$> done)))); [by rewrite N.add_0_r|].
  intros done sort todo r El ->. unfold select_sort. eapply Runs_bind; [apply Runs_check|]. intros _ _.
  destruct Hsorts as (_ & _ & Hall). rewrite Forall_forall in Hall. destruct (Hall sort) as (t & Ht & _); [rewrite El; set_solver|].
  pose proof Ht as ([i c] & Hf & Hc)%field_type_of_Some. cbn [snd] in Hc.
  assert (index_of fields sort.(SortRequest.field) = i) as Ei by (apply field_Ok in Hf; unfold index_of; by rewrite Hf).
  eapply (Runs_bind _ _ _ (λ r, r = (i, c))); [apply Runs_lift; by rewrite Hf|]. intros ? ->. cbv zeta.
  assert (bool_decide (c.(FilterFieldConfig.field_type) = FilterFieldType.String) = is_string sort) as ->.
  { unfold is_string. rewrite Ht, Hc. apply bool_decide_ext. split; [by intros ->|by intros [= ->]]. }
  assert (∀ s, worst_term s <= 65530) as Hterm by (intros s; unfold worst_term; destruct (is_string s); lia).
  pose proof (terms_few worst_term done Hterm) as Hdone. pose proof (part_few _ _ _ _ El) as Hl.
  eapply (Runs_bind _ _ _ (λ n, n = w + sum (worst_term <$> done) + worst_term sort)).
  { apply Runs_lift. assert (worst_term sort = if is_string sort then 65530 else 0) as -> by done. destruct (is_string sort); [|lia]. destruct (checked_add_cases (w + sum (worst_term <$> done)) 65530) as [[-> _]|[_ Hm]]; [done|].
    unfold USIZE_MAX in Hm. lia. }
  intros ? ->. apply Runs_ret. rewrite !fmap_app, sum_app. change (entry_of <$> [sort]) with [entry_of sort]. change (worst_term <$> [sort]) with [worst_term sort].
  rewrite sum_cons. change (sum []) with 0. unfold entry_of at 3, sort_name. rewrite Ei. f_equal. lia.
Qed.
Lemma segment_size_runs seg b : b <= 2 ^ 45 → Runs right (segment_size (entry_of <$> sorts) b seg) (λ n, n = b + sort_terms seg sorts) (sort_failure end_).
Proof using All.
  intros Hb. unfold segment_size, sort_terms, MAX_FIELDS in *. set (term := λ sort : SortRequest.t, if is_string sort then longest_of seg (sort_name sort) else 0).
  assert (∀ s, term s <= 65530) as Hterm by (intros s; unfold term; pose proof (longest_of_short HF seg (sort_name s)); destruct (is_string s); lia).
  assert (∀ todo done, sorts = done ++ todo → Runs right (foldE (λ total (entry : bytes * bool), let '(name, string) := entry in
    _ ← check; if (string : bool) then n ← max_dictionary_key seg name; lift_E (ok_or (checked_add total n) key_overflow) else mret total) (b + sum (term <$> done)) (entry_of <$> todo))
    (λ n, n = b + sum (term <$> sorts)) (sort_failure end_)) as Hloop.
  2: { specialize (Hloop sorts [] eq_refl). change (sum (term <$> [])) with 0 in Hloop. by rewrite N.add_0_r in Hloop. }
  induction todo as [|sort todo IH]; intros done El; cbn [fmap list_fmap foldE]; [apply Runs_ret; by rewrite El, app_nil_r|].
  pose proof (terms_few term done Hterm) as Hdone. pose proof (part_few _ _ _ _ El) as Hl.
  eapply (Runs_bind _ _ _ (λ n, n = b + sum (term <$> done ++ [sort]))).
  - rewrite fmap_app, sum_app. change (term <$> [sort]) with [term sort]. rewrite sum_cons. change (sum []) with 0. rewrite N.add_0_r, N.add_assoc.
    unfold entry_of at 1. eapply Runs_bind; [apply Runs_check|]. intros _ _.
    assert (term sort = if is_string sort then longest_of seg (sort_name sort) else 0) as -> by done. destruct (is_string sort); [|apply Runs_ret; lia].
    eapply (Runs_bind _ _ _ (λ n, n = longest_of seg (sort_name sort))).
    { eapply Runs_weaken; [apply (max_dictionary_key_runs HF)|done|]. intros e He. by left. }
    intros ? ->. apply Runs_add. pose proof (longest_of_short HF seg (sort_name sort)). unfold USIZE_MAX. lia.
  - intros ? ->. apply IH. by rewrite El, <- app_assoc.
Qed.
Lemma with_ids_runs : Runs right (with_ids (rough_bytes <$> segment_readers)) (λ sizes, sizes = key_bytes sorts <$> segment_readers) (sort_failure end_).
Proof using All.
  unfold with_ids. destruct header_ok as [_ Hh].
  eapply Runs_weaken with (F := sort_failure end_); [apply (Runs_mapE _ _ (λ (e : Seg * N) (n : N), n = key_bytes sorts e.1))| |done].
  - rewrite Forall_forall. intros [seg n] (i & Hi)%list_elem_of_lookup. apply lookup_zip_with_Some in Hi as (? & ? & [= <- <-] & Hseg & Hn).
    rewrite list_lookup_fmap, Hseg in Hn. injection Hn as <-. cbn [fst snd].
    eapply (Runs_bind _ _ _ (λ ids, ids = longest_of seg ID_FIELD_NAME)).
    { eapply Runs_weaken; [apply (max_dictionary_key_runs HF)|done|]. intros e He. by left. }
    intros ? ->. apply Runs_lift. unfold checked_sub, rough_bytes. rewrite (proj2 (N.leb_le _ _)) by lia. cbn [mbind option_bind].
    replace (key_header sorts + MAX_RECORD_ID_BYTES + sort_terms seg sorts - MAX_RECORD_ID_BYTES) with (key_header sorts + sort_terms seg sorts) by lia.
    assert (sort_terms seg sorts <= 65530 * lenN sorts) as Ht.
    { apply terms_few. intros s. pose proof (longest_of_short HF seg (sort_name s)). destruct (is_string s); lia. }
    pose proof (longest_of_short HF seg ID_FIELD_NAME). unfold MAX_FIELDS in *.
    destruct (checked_add_cases (key_header sorts + sort_terms seg sorts) (longest_of seg ID_FIELD_NAME)) as [[-> _]|[_ Hm]]; [done|]. unfold USIZE_MAX in Hm. lia.
  - intros sizes Hs. clear -Hs. revert sizes Hs. induction segment_readers as [|seg segs IH]; intros sizes Hs; inversion Hs; subst; [done|]. cbn [fst] in *. cbn [fmap list_fmap]. f_equal. by apply IH.
Qed.
Lemma retained_ok : retained_keys (Seg := Seg) end_ = Ok (retained end_) ∧ retained end_ <= 2 ^ 62.
Proof using All.
  unfold retained_keys, retained. pose proof (segments_few (Seg := Seg)) as Hn. unfold MAX_SEARCH_WINDOW in Hend.
  assert (∀ todo n, n + sum ((λ segment : Seg, N.min end_ (num_docs segment)) <$> todo) <= USIZE_MAX →
    foldl (λ total (segment : Seg), total ← total; checked_add total (N.min end_ (num_docs segment))) (Some n) todo = Some (n + sum ((λ segment : Seg, N.min end_ (num_docs segment)) <$> todo))) as Hf.
  { induction todo as [|seg todo IH]; intros n Hle; cbn [foldl fmap list_fmap]; [by rewrite N.add_0_r|]. rewrite fmap_cons, sum_cons in Hle. rewrite sum_cons.
    cbn [mbind option_bind]. destruct (checked_add_cases n (N.min end_ (num_docs seg))) as [[-> _]|[_ Hm]]; [|lia]. rewrite IH by lia. f_equal. lia. }
  assert (∀ l : list Seg, sum ((λ segment : Seg, N.min end_ (num_docs segment)) <$> l) <= end_ * lenN l) as Hl.
  { induction l as [|seg l IH]; [change (sum _) with 0; lia|]. rewrite fmap_cons, sum_cons, lenN_cons. lia. }
  specialize (Hl (segment_readers (Seg := Seg))). rewrite Hf; [split; [done|nia]|]. unfold USIZE_MAX. nia.
Qed.
Lemma sizes_below seg : key_bytes sorts seg <= rough_bytes seg ∧ rough_bytes seg <= key_header sorts + MAX_RECORD_ID_BYTES + sum (worst_term <$> sorts).
Proof using All.
  unfold key_bytes, rough_bytes. specialize (Hids seg). split; [lia|]. apply N.add_le_mono_l. unfold sort_terms.
  clear Hsorts Hfew. induction sorts as [|s l IH]; [done|]. rewrite !fmap_cons, !sum_cons. pose proof (longest_of_short HF seg (sort_name s)). unfold worst_term at 1. destruct (is_string s); lia.
Qed.
Lemma Forall2_fmap_le (f g : Seg → N) l : (∀ s, f s <= g s) → Forall2 N.le (f <$> l) (g <$> l).
Proof. intros Hfg. apply Forall2_fmap, Forall_Forall2_diag, Forall_forall. auto. Qed.
Lemma failed_limit {A} r Q : code r = "E_RESOURCE_LIMIT"%string → ¬ sort_fits end_ sorts → Runs right (fail_E r : E Session.t A) Q (sort_failure end_).
Proof. intros Hc Hn. apply Runs_lift. by right. Qed.
Lemma key_budget_cases total count n limit : limit <= USIZE_MAX → match add_key_budget total count n limit with
  | Ok _ => total + count * n <= limit | Err e => code e = "E_RESOURCE_LIMIT"%string ∧ limit < total + count * n | _ => False end.
Proof.
  intros Hl. unfold add_key_budget. destruct (checked_mul_cases count n) as [[-> _]|[-> Hm]]; cbn [ok_or mbind outcome_bind]; [|split; [done|lia]].
  destruct (checked_add_cases total (count * n)) as [[-> _]|[-> Hm]]; cbn [ok_or mbind outcome_bind]; [|split; [done|lia]].
  destruct (N.ltb_spec limit (total + count * n)); done.
Qed.
Lemma check_budget_runs : Runs right (check_budget parallelism (Seg := Seg) end_ sorts fields) (λ _, sort_fits end_ sorts) (sort_failure end_).
Proof using All.
  unfold check_budget. destruct header_ok as [Hg Hh]. pose proof buffer_ok as Hb. rewrite Hg. set (fixed := fixed_bytes end_ sorts) in *.
  eapply (Runs_bind _ _ _ (λ n, n = key_header sorts)); [by apply Runs_lift|]. intros ? ->.
  assert (USIZE_MAX = 2 ^ 64 - 1) as Emax by done.
  eapply (Runs_bind _ _ _ (λ n, n = fixed)).
  { apply Runs_lift. destruct (buffer_bytes _ _ _ _) as [n|e| |]; [done| |done..]. destruct Hb as [Hc Hm]. right. split; [done|].
    intros [Hf _]. fold fixed in Hf. unfold MAX_SORT_MEMORY_BYTES in Hf. lia. }
  intros ? ->. apply Runs_if; [intros Hlt%N.ltb_lt; apply failed_limit; [done|intros [Hf _]; fold fixed in Hf; lia]|]. intros Hle%N.ltb_ge.
  eapply Runs_bind; [apply Runs_add; unfold MAX_RECORD_ID_BYTES; lia|]. intros ? ->.
  eapply Runs_bind; [apply select_runs; unfold MAX_RECORD_ID_BYTES; lia|]. intros ? ->. cbv iota beta.
  set (worst := key_header sorts + MAX_RECORD_ID_BYTES + sum (worst_term <$> sorts)).
  assert (∀ sizes, Forall2 N.le (key_bytes sorts <$> segment_readers) sizes → fits_sort (Seg := Seg) end_ fixed sizes = true → sort_fits end_ sorts) as Hfits.
  { intros sizes Hs Hf%fits_sort_iff; [|done]. split; [done|]. left. fold fixed. etrans; [by apply need_mono|done]. }
  apply Runs_if.
  { intros Hf. apply Runs_ret. apply (Hfits _) with (2 := Hf).
    assert (replicate (length (segment_readers (Seg := Seg))) worst = (λ _ : Seg, worst) <$> segment_readers) as ->.
    { clear. induction segment_readers as [|seg segs IH]; [done|]. cbn [length replicate fmap list_fmap]. by rewrite IH. }
    apply Forall2_fmap_le. intros seg. destruct (sizes_below seg). unfold worst. lia. }
  intros _. eapply (Runs_bind _ _ _ (λ sizes, sizes = rough_bytes <$> segment_readers)).
  { eapply Runs_weaken with (F := sort_failure end_); [apply (Runs_mapE _ _ (λ (seg : Seg) (n : N), n = rough_bytes seg))| |done].
    - rewrite Forall_forall. intros seg _. eapply Runs_bind; [apply Runs_add; unfold MAX_RECORD_ID_BYTES; lia|]. intros ? ->. apply segment_size_runs. unfold MAX_RECORD_ID_BYTES. lia.
    - intros sizes Hs. clear -Hs. revert sizes Hs. induction segment_readers as [|seg segs IH]; intros sizes Hs; inversion Hs; subst; [done|]. cbn [fmap list_fmap]. f_equal. by apply IH. }
  intros ? ->. apply Runs_if; [intros Hf; apply Runs_ret, (Hfits _) with (2 := Hf), Forall2_fmap_le; intros seg; apply sizes_below|]. intros _.
  eapply Runs_bind; [apply with_ids_runs|]. intros ? ->. set (sizes := key_bytes sorts <$> segment_readers).
  destruct (fits_sort (Seg := Seg) end_ fixed sizes) eqn:Ef.
  { apply Runs_ret, (Hfits sizes); [|done]. by apply Forall2_fmap_le. }
  destruct retained_ok as [-> Hr]. eapply (Runs_bind _ _ _ (λ n, n = retained end_)); [by apply Runs_lift|]. intros ? ->.
  eapply (Runs_bind _ _ _ (λ n, n = match_count (Seg := Seg))).
  { apply Runs_on_clock. eapply Timed_weaken; [apply (count_matches_spec HS HC Hmatches)|done|]. intros e He. by left. }
  intros ? ->. change (foldr N.max 0 sizes) with (largest sizes).
  pose proof (key_budget_cases fixed (N.min (retained end_) match_count + N.min match_count 2) (largest sizes) MAX_SORT_MEMORY_BYTES ltac:(done)) as Hadd.
  unfold saturating_add. rewrite N.min_l by lia.
  eapply (Runs_bind _ _ _ (λ _, sort_fits end_ sorts)); [|by intros ? ?; apply Runs_ret].
  apply Runs_lift. destruct (add_key_budget _ _ _ _) as [n|e| |]; [|right|done..].
  - split; [done|]. by right.
  - destruct Hadd as [Hc Hm]. split; [done|]. intros [_ [Hn|Hn]]; fold fixed sizes in Hn; [|lia].
    apply (fits_sort_iff end_ fixed sizes Hle) in Hn. congruence.
Qed.
End Fits.
