(* ===== verification/Collection.v ===== *)
(** * src/src/catalog.rs and catalog_sort.rs: collecting a catalog

    A valid catalog is collected in a session: hits in the order of its sort, with
    their total and its aggregations, or aggregations alone.  The key of a sort
    depends on the number and the types of its fields; the searches themselves
    are the index crate's. *)
From stdpp Require Import sorting.
From S2P Require Import Prelude.
From S2P Require Import Errors.
From S2P Require Import Bytes.
From S2P Require Import Wire.
From S2P Require Import Request.
From S2P Require Import Results.
From S2P Require Import Aggregation.
From S2P Require Import Deadline.
From S2P Require Import Failures.
From S2P Require Import Collecting.
From S2P Require Import Hits.
From S2P Require Import Ranking.
From S2P Require Import Merging.
From S2P Require Import Searching.
From S2P Require Import Maxima.
From S2P Require Import Native.
From S2P Require Import Costs.
From S2P Require Import Sorting.
Local Open Scope N_scope.

(** ** Keys *)
(** What a field is sorted by: [SortByString], [SortByStaticFastValue::<f64>] and
    [SortByErasedType]. *)
Module SortKey.
Inductive t := ByString (name : bytes) | ByNumber (name : bytes) | ByErasedType (name : bytes).
Definition name (k : t) : bytes := match k with ByString name | ByNumber name | ByErasedType name => name end.
End SortKey.
(** A primary key: a field with its comparator, tuples of keys, or any number. *)
Module SortKeyComputer.
Inductive t :=
| Field (key : SortKey.t) (comparator : ComparatorEnum.t)
| Two (first second : t)
| Three (first second third : t)
| Dynamic (keys : DynamicSortKeys.t).
End SortKeyComputer.
Module OwnedValue.
Inductive t := Str (value : bytes) | F64 (value : f64).
End OwnedValue.

Module CollectedSortedCatalog.
Record t := mk { hits : list (option bytes * f32 * DocAddress); total : N; aggregations : option NativeResults }.
End CollectedSortedCatalog.
(** The searches of the index crate with a [DeadlineCollector], given what it
    collects: the best documents of a key with their IDs and scores, their count
    and aggregations; a count and aggregations; or aggregations.  [search_within]
    is a search of the matches with a value in every one of some fields. *)
Class CatalogSearch := {
  searcher_num_docs : N;
  search_sorted : SortKeyComputer.t → N → option Aggregations → list HistogramCheck.t → E Session.t CollectedSortedCatalog.t;
  search_counted : option Aggregations → list HistogramCheck.t → E Session.t (N * option NativeResults);
  search_aggregations : option Aggregations → list HistogramCheck.t → E Session.t (option NativeResults);
  search_within : list bytes → Aggregations → HistogramCheck.t → E Session.t NativeResults }.

Module ValidatedCatalog.
Record t := mk { sort : option (list SortRequest.t); requests : list AggregationRequest.t; fields : list FilterFieldConfig.t }.
End ValidatedCatalog.
Definition missing_sort : FulltextError := invalid "Sorted collection requires a sort request".
Definition bad_id : FulltextError := FulltextError_new "E_INDEX_CORRUPT" "Sort hit has missing or invalid ID".

Section Catalog.
Context `{!CatalogSearch}.
(** The field of a sort with its comparator; [sorts[position]]. *)
Definition sort_at (sorts : list SortRequest.t) (fields : list FilterFieldConfig.t) (position : nat) : outcome (bytes * FilterFieldType.t * ComparatorEnum.t) :=
  sort ← unwrap (sorts !! position);
  '(index, config) ← field sort.(SortRequest.field) fields;
  Ok (filter_name index, config.(FilterFieldConfig.field_type), comparator sort).
(** The closure [erased] of [collect_native]. *)
Definition erased (sorts : list SortRequest.t) (fields : list FilterFieldConfig.t) (position : nat) : outcome SortKeyComputer.t :=
  '(name, _, c) ← sort_at sorts fields position;
  Ok (SortKeyComputer.Field (SortKey.ByErasedType name) c).
(** The key of a type; a boolean has none. *)
Definition typed (entry : bytes * FilterFieldType.t * ComparatorEnum.t) : outcome SortKeyComputer.t :=
  let '(name, t, c) := entry in
  match t with
  | FilterFieldType.String => Ok (SortKeyComputer.Field (SortKey.ByString name) c)
  | FilterFieldType.Number => Ok (SortKeyComputer.Field (SortKey.ByNumber name) c)
  | FilterFieldType.Boolean => Panic
  end.
(** The primary key [collect_native] dispatches to. *)
Definition native_key (sorts : list SortRequest.t) (fields : list FilterFieldConfig.t) : outcome SortKeyComputer.t :=
  if bool_decide (length sorts = 3%nat) then
    a ← erased sorts fields 0; b ← erased sorts fields 1; c ← erased sorts fields 2; Ok (SortKeyComputer.Three a b c)
  else if bool_decide (length sorts = 4%nat) then
    a ← erased sorts fields 0; b ← erased sorts fields 1; c ← erased sorts fields 2; d ← erased sorts fields 3;
    Ok (SortKeyComputer.Two a (SortKeyComputer.Two b (SortKeyComputer.Two c d)))
  else
    first ← sort_at sorts fields 0; second ← sort_at sorts fields 1;
    first ← typed first; second ← typed second;
    Ok (SortKeyComputer.Two first second).
Definition collect_native (sorts : option (list SortRequest.t)) (fields : list FilterFieldConfig.t) (end_ : N) (aggregations : option Aggregations) (histograms : list HistogramCheck.t)
  : E Session.t CollectedSortedCatalog.t :=
  sorts ← lift_E (ok_or sorts missing_sort);
  primary ← lift_E (native_key sorts fields);
  search_sorted primary end_ aggregations histograms.
(** The collection of [sorted_catalog], by the number of keys. *)
Definition single_key (sorts : list SortRequest.t) (fields : list FilterFieldConfig.t) : outcome SortKeyComputer.t :=
  '(name, t, c) ← sort_at sorts fields 0;
  Ok (SortKeyComputer.Field (if bool_decide (t = FilterFieldType.String) then SortKey.ByString name else SortKey.ByNumber name) c).
Definition collect (sorts : list SortRequest.t) (fields : list FilterFieldConfig.t) (end_ : N) (aggregations : option Aggregations) (histograms : list HistogramCheck.t)
  : E Session.t CollectedSortedCatalog.t :=
  if bool_decide (length sorts = 1%nat) then
    primary ← lift_E (single_key sorts fields); search_sorted primary end_ aggregations histograms
  else if (length sorts <=? 4)%nat then collect_native (Some sorts) fields end_ aggregations histograms
  else keys ← lift_E (DynamicSortKeys.new sorts fields); search_sorted (SortKeyComputer.Dynamic keys) end_ aggregations histograms.
Definition valid_id (id : bytes) : bool := negb (bool_decide (id = [])) && (lenN id <=? MAX_RECORD_ID_BYTES).
Definition identified (hit : option bytes * f32 * DocAddress) : outcome Hit :=
  let '(id, score, doc) := hit in
  id ← ok_or (match id with Some id => if valid_id id then Some id else None | None => None end) bad_id;
  Ok ((score, id), doc).

Context `{!Layout} {Seg : Type} `{!Segments Seg} `{!Columns Seg} `{!FastFields Seg} `{!Searcher Seg} `{!Counting Seg} (parallelism : N).
Definition prepare_aggregations (requests : list AggregationRequest.t) (fields : list FilterFieldConfig.t) : E Session.t (option Aggregations) :=
  if bool_decide (requests = []) then mret None else
  _ ← check_terms_budget fields search_within (Seg := Seg) requests;
  native ← build_native_aggregations fields requests 1;
  mret (Some native).
Definition sorted_catalog (self : ValidatedCatalog.t) (offset limit : N) : E Session.t (list Hit * N * list AggregationResult.t) :=
  let requests := self.(ValidatedCatalog.requests) in let fields := self.(ValidatedCatalog.fields) in
  sorts ← lift_E (ok_or self.(ValidatedCatalog.sort) missing_sort);
  _ ← check;
  end_ ← lift_E (ok_or (checked_add offset limit) (resource "Sort window overflow"));
  let end_ := N.min end_ (N.max searcher_num_docs 1) in
  _ ← check_budget parallelism (Seg := Seg) end_ sorts fields;
  native ← prepare_aggregations requests fields;
  histograms ← lift_E (histogram_checks requests fields);
  collected ← collect sorts fields end_ native histograms;
  hits ← lift_E (mapO identified collected.(CollectedSortedCatalog.hits));
  aggregations ← finish_aggregations collected.(CollectedSortedCatalog.aggregations) requests;
  mret (drop (N.to_nat offset) hits, collected.(CollectedSortedCatalog.total), aggregations).
Definition aggregate_count (self : ValidatedCatalog.t) : E Session.t (N * list AggregationResult.t) :=
  let requests := self.(ValidatedCatalog.requests) in let fields := self.(ValidatedCatalog.fields) in
  _ ← check;
  native ← prepare_aggregations requests fields;
  histograms ← lift_E (histogram_checks requests fields);
  '(count, aggregations) ← search_counted native histograms;
  aggregations ← finish_aggregations aggregations requests;
  mret (count, aggregations).
Definition aggregate (self : ValidatedCatalog.t) : E Session.t (list AggregationResult.t) :=
  let requests := self.(ValidatedCatalog.requests) in let fields := self.(ValidatedCatalog.fields) in
  _ ← check;
  if bool_decide (requests = []) then mret [] else
  native ← prepare_aggregations requests fields;
  histograms ← lift_E (histogram_checks requests fields);
  results ← search_aggregations native histograms;
  finish_aggregations results requests.

(** A session with the cache of the process, seen from a search. *)
Definition in_session {A} (cache : DictionaryCache.t) (m : E Session.t A) : M Clock A := λ clock,
  match (m (Session.mk clock cache)) with
  | (Ok a, s) => Ok (a, s.(Session.clock)) | (Err e, _) => Err e | (Panic, _) => Panic | (Fuel, _) => Fuel
  end.
Definition catalogs_of (cache : DictionaryCache.t) (self : ValidatedCatalog.t) : Catalogs := {|
  Searching.sorted_catalog offset limit := in_session cache (sorted_catalog self offset limit);
  Searching.aggregate_count := in_session cache (aggregate_count self);
  Searching.aggregate := in_session cache (aggregate self) |}.
End Catalog.
