(* ===== verification/Collected.v ===== *)
(** * What the catalog collects

    A sorted catalog returns the page that was asked for of the matches in the
    order of its sort, whatever key it is collected by, with the number of matches
    and its aggregations; it keeps what searches rely on, [catalog_ok]. *)
From stdpp Require Import sorting.
From S2P Require Import Prelude.
From S2P Require Import Errors.
From S2P Require Import Bytes.
From S2P Require Import Wire.
From S2P Require Import Request.
From S2P Require Import Text.
From S2P Require Import Results.
From S2P Require Import Aggregation.
From S2P Require Import Shape.
From S2P Require Import Deadline.
From S2P Require Import Failures.
From S2P Require Import Collecting.
From S2P Require Import Hits.
From S2P Require Import Ranking.
From S2P Require Import Merging.
From S2P Require Import Searching.
From S2P Require Import Searched.
From S2P Require Import Answers.
From S2P Require Import Maxima.
From S2P Require Import Native.
From S2P Require Import Costs.
From S2P Require Import Budgeted.
From S2P Require Import Sorting.
From S2P Require Import SortFits.
From S2P Require Import Collection.
Local Open Scope N_scope.

(** ** The order of a key *)
(** The value of a document in a field, and the order of numbers. *)
Class SortValues := {
  sort_value : bytes → DocAddress → option OwnedValue.t;
  compare_numbers : f64 → f64 → comparison;
  numbers_opposite a b : compare_numbers b a = CompOpp (compare_numbers a b) }.
Definition key_of_type (t : FilterFieldType.t) (name : bytes) : SortKey.t :=
  match t with FilterFieldType.String => SortKey.ByString name | _ => SortKey.ByNumber name end.
(** The fields of a key in the order they are compared: tuples one after the other. *)
Fixpoint leaves (k : SortKeyComputer.t) : list (SortKey.t * ComparatorEnum.t) :=
  match k with
  | SortKeyComputer.Field key c => [(key, c)]
  | SortKeyComputer.Two a b => leaves a ++ leaves b
  | SortKeyComputer.Three a b c => leaves a ++ leaves b ++ leaves c
  | SortKeyComputer.Dynamic keys => (λ e : bytes * FilterFieldType.t * ComparatorEnum.t, (key_of_type e.1.2 e.1.1, e.2)) <$> keys.(DynamicSortKeys.fields)
  end.
Section Order.
Context `{!SortValues} `{!Comparators} `{!ComparatorsLaws}.
Definition compare_owned (a b : OwnedValue.t) : comparison :=
  match a, b with
  | OwnedValue.Str a, OwnedValue.Str b => compare_bytes a b
  | OwnedValue.F64 a, OwnedValue.F64 b => compare_numbers a b
  | _, _ => Eq
  end.
Lemma compare_bytes_opposite a b : compare_bytes b a = CompOpp (compare_bytes a b).
Proof.
  unfold compare_bytes. destruct (decide (a = b)) as [->|Hn]; [by rewrite decide_True|]. rewrite decide_False by (by intros ->).
  destruct (decide (bytes_le a b)) as [Ha|Ha], (decide (bytes_le b a)) as [Hb|Hb]; try done; exfalso; [by apply Hn, (anti_symm bytes_le)|].
  by destruct (total bytes_le a b).
Qed.
Lemma compare_owned_opposite a b : compare_owned b a = CompOpp (compare_owned a b).
Proof. destruct a, b; [apply compare_bytes_opposite|done|done|apply numbers_opposite]. Qed.
Lemma compare_with_opposite {A} (c : A → A → comparison) e l r : (∀ a b, c b a = CompOpp (c a b)) → compare_with c e r l = CompOpp (compare_with c e l r).
Proof.
  intros Hc. destruct l as [l|], r as [r|]; rewrite ?compare_values, ?compare_missing, ?compare_present, ?compare_none, ?(Hc l r);
    destruct e; try done; by destruct (c l r).
Qed.
Lemma dynamic_opposite {A} (c : A → A → comparison) : (∀ a b, c b a = CompOpp (c a b)) → ∀ es ls rs, dynamic_compare c es rs ls = CompOpp (dynamic_compare c es ls rs).
Proof.
  intros Hc. induction es as [|e es IH]; intros [|l ls] [|r rs]; try done. cbn [dynamic_compare]. rewrite (compare_with_opposite c e l r Hc).
  destruct (compare_with c e l r); cbn; [apply IH|done|done].
Qed.
(** What is the same in all fields: the smaller ID first, then the higher score,
    then the address. *)
Definition compare_ties (a b : Hit) : comparison :=
  then_ (CompOpp (compare_bytes a.1.2 b.1.2)) (then_ (compare_scores a.1.1 b.1.1) (CompOpp (compare_address a.2 b.2))).
Definition row_compare (k : SortKeyComputer.t) (a b : Hit) : comparison :=
  then_ (dynamic_compare compare_owned (snd <$> leaves k) ((λ e, sort_value (SortKey.name e.1) a.2) <$> leaves k) ((λ e, sort_value (SortKey.name e.1) b.2) <$> leaves k))
    (compare_ties a b).
(** ** The order that was asked for *)
Context (fields : list FilterFieldConfig.t).
Definition values (sorts : list SortRequest.t) (h : Hit) : list (option OwnedValue.t) :=
  (λ s, sort_value (filter_name (index_of fields s.(SortRequest.field))) h.2) <$> sorts.
Definition sorts_before (sorts : list SortRequest.t) (a b : Hit) : Prop :=
  keys_precede compare_owned sorts (values sorts a) (values sorts b)
  ∧ (keys_precede compare_owned sorts (values sorts b) (values sorts a) → compare_ties a b ≠ Lt).
(** A key of the fields of the sorts, typed as they are. *)
Definition leaf_for (sort : SortRequest.t) (leaf : SortKey.t * ComparatorEnum.t) : Prop :=
  let name := filter_name (index_of fields sort.(SortRequest.field)) in
  leaf.2 = comparator sort ∧
  ∃ t, field_type_of fields sort.(SortRequest.field) = Some t ∧ t ≠ FilterFieldType.Boolean ∧ (leaf.1 = key_of_type t name ∨ leaf.1 = SortKey.ByErasedType name).
Lemma row_compare_before sorts k a b : Forall2 leaf_for sorts (leaves k) → row_compare k a b ≠ Lt ↔ sorts_before sorts a b.
Proof using All.
  intros Hk. unfold row_compare, sorts_before.
  assert (snd <$> leaves k = comparator <$> sorts) as ->.
  { clear -Hk. induction Hk as [|s l sorts ls [Hc _] _ IH]; [done|]. cbn [fmap list_fmap]. f_equal; [exact Hc|exact IH]. }
  assert (∀ h : Hit, (λ e, sort_value (SortKey.name e.1) h.2) <$> leaves k = values sorts h) as Hv.
  { intros h. unfold values. clear -Hk. induction Hk as [|s l sorts ls (_ & t & _ & _ & Ht) _ IH]; [done|]. cbn [fmap list_fmap]. f_equal; [|exact IH].
    destruct Ht as [->| ->]; [by destruct t|done]. }
  rewrite !Hv, then_not_lt, <- !(dynamic_precedes compare_owned compare_owned_opposite).
  rewrite (dynamic_opposite compare_owned compare_owned_opposite _ (values sorts a) (values sorts b)).
  destruct (dynamic_compare compare_owned (comparator <$> sorts) (values sorts a) (values sorts b)); cbn [CompOpp]; naive_solver.
Qed.
End Order.

(** ** The dispatch *)
Section Dispatch.
Context (fields : list FilterFieldConfig.t) (sorts : list SortRequest.t).
Hypothesis Hsorts : sorts_valid fields sorts.
Definition entry_for (sort : SortRequest.t) (entry : bytes * FilterFieldType.t * ComparatorEnum.t) : Prop :=
  field_type_of fields sort.(SortRequest.field) = Some entry.1.2 ∧ entry.1.2 ≠ FilterFieldType.Boolean
  ∧ entry = (filter_name (index_of fields sort.(SortRequest.field)), entry.1.2, comparator sort).
Lemma field_entry sort : sort ∈ sorts → ∃ i c, field sort.(SortRequest.field) fields = Ok (i, c) ∧ entry_for sort (filter_name i, c.(FilterFieldConfig.field_type), comparator sort).
Proof using Hsorts.
  intros Hin. destruct Hsorts as (_ & _ & Hall). rewrite Forall_forall in Hall. destruct (Hall sort Hin) as (t & Ht & Hb).
  pose proof Ht as ([i c] & Hf & Hc)%field_type_of_Some. cbn [snd] in Hc. exists i, c. split; [done|]. unfold entry_for. cbn [fst snd]. rewrite Hc. split; [done|]. split; [done|].
  apply field_Ok in Hf. unfold index_of. by rewrite Hf.
Qed.
Lemma sort_at_ok position sort : sorts !! position = Some sort → ∃ entry, sort_at sorts fields position = Ok entry ∧ entry_for sort entry.
Proof using Hsorts.
  intros Hs. destruct (field_entry sort) as (i & c & Hf & He); [by eapply list_elem_of_lookup_2|]. exists (filter_name i, c.(FilterFieldConfig.field_type), comparator sort).
  split; [|done]. unfold sort_at. rewrite Hs. cbn [unwrap mbind outcome_bind]. by rewrite Hf.
Qed.
Lemma erased_ok position sort : sorts !! position = Some sort → ∃ k, erased sorts fields position = Ok k ∧ ∃ leaf, leaves k = [leaf] ∧ leaf_for fields sort leaf.
Proof using Hsorts.
  intros Hs. destruct (sort_at_ok _ _ Hs) as (entry & Hat & Ht & Hb & He). unfold erased. rewrite Hat, He. cbn [mbind outcome_bind]. eexists. split; [done|]. eexists. split; [done|].
  split; [done|]. exists entry.1.2. split; [done|]. split; [done|]. by right.
Qed.
Lemma typed_ok sort entry : entry_for sort entry → ∃ k, typed entry = Ok k ∧ ∃ leaf, leaves k = [leaf] ∧ leaf_for fields sort leaf.
Proof.
  intros (Ht & Hb & He). rewrite He. unfold typed. destruct entry as [[name t] c]. cbn [fst snd] in *. destruct t; [| |done]; (eexists; split; [done|]; eexists; split; [done|]; split; [done|]; eexists; split; [done|]; split; [done|]; by left).
Qed.
Lemma native_key_ok : (2 <= length sorts <= 4)%nat → ∃ k, native_key sorts fields = Ok k ∧ Forall2 (leaf_for fields) sorts (leaves k).
Proof using Hsorts.
  intros Hl. pose proof erased_ok as Her. pose proof sort_at_ok as Hat. destruct sorts as [|a [|b [|c [|d [|]]]]] eqn:El; cbn [length] in Hl; try lia; unfold native_key; rewrite <- El in *.
  - rewrite bool_decide_eq_false_2, bool_decide_eq_false_2 by (by rewrite El).
    destruct (Hat 0%nat a) as (ea & -> & Ha); [by rewrite El|]. destruct (Hat 1%nat b) as (eb & -> & Hb); [by rewrite El|]. cbn [mbind outcome_bind].
    destruct (typed_ok _ _ Ha) as (ka & -> & la & Ea & Hla), (typed_ok _ _ Hb) as (kb & -> & lb & Eb & Hlb). cbn [mbind outcome_bind].
    eexists. split; [done|]. cbn [leaves]. rewrite Ea, Eb, El. by repeat (apply Forall2_cons_2; [assumption|]).
  - rewrite bool_decide_eq_true_2 by (by rewrite El). destruct (Her 0%nat a) as (ka & -> & la & Ea & Hla); [by rewrite El|].
    destruct (Her 1%nat b) as (kb & -> & lb & Eb & Hlb); [by rewrite El|]. destruct (Her 2%nat c) as (kc & -> & lc & Ec & Hlc); [by rewrite El|].
    cbn [mbind outcome_bind]. eexists. split; [done|]. cbn [leaves]. rewrite Ea, Eb, Ec, El. by repeat (apply Forall2_cons_2; [assumption|]).
  - rewrite bool_decide_eq_false_2, bool_decide_eq_true_2 by (by rewrite El). destruct (Her 0%nat a) as (ka & -> & la & Ea & Hla); [by rewrite El|].
    destruct (Her 1%nat b) as (kb & -> & lb & Eb & Hlb); [by rewrite El|]. destruct (Her 2%nat c) as (kc & -> & lc & Ec & Hlc); [by rewrite El|].
    destruct (Her 3%nat d) as (kd & -> & ld & Ed & Hld); [by rewrite El|].
    cbn [mbind outcome_bind]. eexists. split; [done|]. cbn [leaves]. rewrite Ea, Eb, Ec, Ed, El. by repeat (apply Forall2_cons_2; [assumption|]).
Qed.
Lemma single_key_ok : length sorts = 1%nat → ∃ k, single_key sorts fields = Ok k ∧ Forall2 (leaf_for fields) sorts (leaves k).
Proof using Hsorts.
  intros Hl. pose proof sort_at_ok as Hat. destruct sorts as [|a [|]] eqn:El; try done. rewrite <- El in *. unfold single_key. destruct (Hat 0%nat a) as (entry & -> & (Ht & Hb & He)); [by rewrite El|].
  rewrite He. cbn [mbind outcome_bind]. eexists. split; [done|]. cbn [leaves]. rewrite El. apply Forall2_cons_2; [|done]. split; [done|]. exists entry.1.2. split; [done|]. split; [done|].
  left. cbn [fst]. destruct entry as [[name t] c]. cbn [fst snd] in *. by destruct t.
Qed.
Lemma dynamic_key_ok : ∃ keys, DynamicSortKeys.new sorts fields = Ok keys ∧ Forall2 (leaf_for fields) sorts (leaves (SortKeyComputer.Dynamic keys)).
Proof using Hsorts.
  assert (∀ l, l ⊆ sorts → ∃ es, mapO (λ sort, '(index, config) ← field sort.(SortRequest.field) fields;
    Ok (filter_name index, config.(FilterFieldConfig.field_type), comparator sort)) l = Ok es ∧ Forall2 entry_for l es) as Hm.
  { induction l as [|s l IH]; intros Hsub; [by exists []|]. destruct (field_entry s) as (i & c & Hf & He); [set_solver|].
    destruct IH as (es & Hes & Hall); [set_solver|]. cbn [mapO]. rewrite Hf. cbn [mbind outcome_bind]. rewrite Hes. cbn [mbind outcome_bind]. eexists. split; [done|]. by constructor. }
  destruct (Hm sorts) as (es & Hes & Hall); [done|]. unfold DynamicSortKeys.new. rewrite Hes. cbn [mbind outcome_bind]. eexists. split; [done|]. cbn [leaves DynamicSortKeys.fields].
  clear -Hall. induction Hall as [|s e l es (Ht & Hb & He) _ IH]; cbn [fmap list_fmap]; constructor; [|exact IH]. rewrite He. cbn [fst snd]. split; [done|]. exists e.1.2.
  split; [done|]. split; [done|]. by left.
Qed.
End Dispatch.

(** As many sorts as fields at most. *)
Lemma sorts_few fields sorts : sorts_valid fields sorts → lenN sorts <= lenN fields.
Proof.
  intros (_ & Hnd & Hall). rewrite <- (lenN_fmap SortRequest.field sorts), <- (lenN_fmap FilterFieldConfig.name fields).
  apply N2Z.inj_le. unfold lenN. rewrite !nat_N_Z. apply inj_le, submseteq_length, NoDup_submseteq; [exact Hnd|].
  intros name (s & -> & Hs)%list_elem_of_fmap. rewrite Forall_forall in Hall. destruct (Hall s Hs) as (t & Ht & _). unfold field_type_of in Ht.
  destruct (list_find _ fields) as [[i c]|] eqn:Ef; [|done]. apply list_find_Some in Ef as (Hi & <- & _). apply list_elem_of_fmap_2. by eapply list_elem_of_lookup_2.
Qed.

(** ** The searches *)
(** The values stored in a field are of its type. *)
Definition key_typed `{!SortValues} (k : SortKey.t) : Prop :=
  match k with
  | SortKey.ByString name => ∀ address v, sort_value name address = Some v → ∃ s, v = OwnedValue.Str s
  | SortKey.ByNumber name => ∀ address v, sort_value name address = Some v → ∃ n, v = OwnedValue.F64 n
  | SortKey.ByErasedType _ => True
  end.
Definition row_of (h : Hit) : option bytes * f32 * DocAddress := (Some h.1.2, h.1.1, h.2).
Definition aggregated (native : option Aggregations) (results : option NativeResults) : Prop :=
  match native, results with Some native, Some results => answers native results | None, None => True | _, _ => False end.
Section Laws.
Context (Seg : Type) `{!Segments Seg} `{!Columns Seg} `{!FastFields Seg} `{!Searcher Seg} `{!SortValues} `{!Comparators} `{!CatalogSearch}.
Context (longest_term : DictionaryCacheKey → N).
Abbreviation right := (right_maximum (longest_term := longest_term)).
(** The best matches of a key of typed fields, as far as they are asked for, and
    all matches counted; aggregations answer what was asked. *)
Class CatalogSearchLaws : Prop := {
  docs_counted : match_count (Seg := Seg) <= searcher_num_docs;
  search_sorted_ok k end_ native histograms : 0 < end_ → Forall key_typed (fst <$> leaves k) →
    Runs right (search_sorted k end_ native histograms) (λ r,
      (∃ ranked, ranked ≡ₚ all_hits (Seg := Seg) ∧ StronglySorted (λ a b, row_compare k a b ≠ Lt) ranked
         ∧ r.(CollectedSortedCatalog.hits) = row_of <$> take (N.to_nat end_) ranked)
      ∧ r.(CollectedSortedCatalog.total) = match_count (Seg := Seg) ∧ aggregated native r.(CollectedSortedCatalog.aggregations)) collection_failure;
  search_counted_ok native histograms : Runs right (search_counted native histograms) (λ r, r.1 = match_count (Seg := Seg) ∧ aggregated native r.2) collection_failure;
  search_aggregations_ok native histograms : Runs right (search_aggregations native histograms) (aggregated native) collection_failure;
  search_within_ok ancestors native check : Runs right (search_within ancestors native check) (answers native) collection_failure }.
(** What was indexed: few documents, short nonempty IDs, values of their types; the
    compiler's sizes are small. *)
Record index_ok `{!Layout} (fields : list FilterFieldConfig.t) : Prop := {
  layout_small : size_of_value <= U32_MAX ∧ size_of_global <= U32_MAX ∧ size_of_segment <= U32_MAX;
  docs_small (seg : Seg) : num_docs seg < 2 ^ 32;
  id_terms_short (seg : Seg) : longest_of (longest_term := longest_term) seg ID_FIELD_NAME <= MAX_RECORD_ID_BYTES;
  ids_valid : Forall (λ h : Hit, valid_id h.1.2 = true) (all_hits (Seg := Seg));
  numbers_stored (seg : Seg) name : stored (f64_column seg name) (λ _, True);
  values_typed name t : field_type_of fields name = Some t → t ≠ FilterFieldType.Boolean → key_typed (key_of_type t (filter_name (index_of fields name))) }.
End Laws.

Lemma StronglySorted_weaken {A} (R R' : A → A → Prop) l : StronglySorted R l → (∀ a b, R a b → R' a b) → StronglySorted R' l.
Proof. intros Hl Hr. induction Hl as [|a l _ IH Ha]; constructor; [exact IH|]. eapply Forall_impl; [exact Ha|]. apply Hr. Qed.
Section Collected.
Context {Seg : Type} `{!Segments Seg} `{!Columns Seg} `{!FastFields Seg} `{!Searcher Seg} `{!Counting Seg} `{!SortValues} `{!Comparators} `{!ComparatorsLaws}
  `{!CatalogSearch} `{!Layout} (parallelism : N) (longest_term : DictionaryCacheKey → N).
Context (HF : FastFieldsLaws Seg longest_term) (HS : SearcherLaws Seg) (HC : CountingLaws Seg) (HK : CatalogSearchLaws Seg longest_term).
Context (catalog : ValidatedCatalog.t).
Abbreviation right := (right_maximum (longest_term := longest_term)).
Abbreviation fields := (catalog.(ValidatedCatalog.fields)).
Abbreviation requests := (catalog.(ValidatedCatalog.requests)).
Hypothesis Hindex : index_ok Seg longest_term fields.
Hypothesis Hids : ids_known (Seg := Seg).
Hypothesis Hvalid : requests_valid catalog.(ValidatedCatalog.sort) requests fields.
Hypothesis Hfits : shape_fits requests (lenN (segment_readers (Seg := Seg))).
Hypothesis Hshort : Forall strings_short requests.
Hypothesis Hfew : ∀ sorts, catalog.(ValidatedCatalog.sort) = Some sorts → lenN sorts <= MAX_FIELDS.

(** *** Aggregations *)
Lemma terms_collection e : terms_failure (Seg := Seg) longest_term fields requests e → collection_failure e.
Proof using Hfits.
  intros [Hn|[[[Hc|[_ Hn]] _]|[Hc _]]]; [by left|right; by left|by destruct (Hn Hfits)|done].
Qed.
Lemma prepared_ok : Runs right (prepare_aggregations (Seg := Seg) requests fields)
  (λ native, native = if bool_decide (requests = []) then None else Some (request_of fields <$> requests)) collection_failure.
Proof using All.
  unfold prepare_aggregations. case_bool_decide as Hnil; [by apply Runs_ret|]. destruct Hvalid as [_ Hv].
  eapply Runs_bind.
  { eapply Runs_weaken; [apply (check_terms_runs longest_term fields HF) with (Answered := λ _, answers)| |].
    - apply (numbers_stored _ _ _ Hindex).
    - intros ancestors native check. apply (search_within_ok Seg longest_term).
    - by split.
    - intros u Hu. exact Hu.
    - apply terms_collection. }
  intros _ _. eapply Runs_bind; [|intros native Hn; apply Runs_ret, (f_equal Some), Hn].
  eapply Runs_weaken; [apply (build_level_runs right fields (build_aggregation fields) 1 requests Hv)| |].
  - destruct Hv as (_ & _ & _ & Hva%foldr_and_Forall). eapply Forall_impl; [exact Hva|]. intros r Hr. by apply build_runs.
  - intros native Hn. exact Hn.
  - intros e [].
Qed.
Lemma finished_ok native results : native = (if bool_decide (requests = []) then None else Some (request_of fields <$> requests)) → aggregated native results →
  Runs right (finish_aggregations results requests) (λ out, Forall2 shaped requests out ∧ results_ok out) collection_failure.
Proof using Hvalid Hfits Hshort.
  intros -> Ha. unfold aggregated in Ha. case_bool_decide as Hnil; destruct results as [results|]; try done; cbn [finish_aggregations].
  { apply Runs_ret. rewrite Hnil. split; [constructor|]. split; [by left|]. split; [done|constructor]. }
  destruct (fitting_few _ _ Hfits) as [Hlen Hfew']. destruct Hvalid as [_ Hv]. assert (level_valid fields 1 requests) as Hlevel by done.
  destruct Hv as (_ & Hnames & _ & Hva%foldr_and_Forall).
  eapply Runs_weaken; [apply (finish_level_runs right fields 1 requests _ Hlevel Ha)| |].
  - rewrite Forall_forall in Hva, Hfew', Hnames |- *. intros r Hin result Hr. apply (finish_runs right fields r); [by apply Hva|by apply Hfew'| |exact Hr].
    specialize (Hnames r Hin). cbn beta in Hnames. unfold U32_MAX. lia.
  - intros out [Hz Hok]. split; [by apply zipped_Forall2|exact Hok].
  - intros e ->. right. by left.
Qed.
(** *** Histograms are checked wherever they are *)
Lemma checks_level_ok depth ancestors state l : siblings_valid (aggregation_valid fields) depth l →
  Forall (λ r, ∀ state, ∃ state', checks_walk fields depth ancestors state r = Ok state') l → ∃ state', checks_level (checks_walk fields) depth ancestors state l = Ok state'.
Proof.
  intros (Hd & _) Hr. unfold checks_level. case_bool_decide as Hnil; [by eexists|]. destruct Hd as [->|Hd]; [done|]. apply depth_ok in Hd as ->. cbn [mbind outcome_bind]. clear Hnil.
  revert state. induction Hr as [|r l Hr _ IH]; intros state; cbn [foldO]; [by eexists|]. destruct (Hr state) as [state' ->]. cbn [mbind outcome_bind]. apply IH.
Qed.
Lemma checks_walk_ok r : ∀ depth ancestors state, aggregation_valid fields depth r → ∃ state', checks_walk fields depth ancestors state r = Ok state'.
Proof.
  induction r as [name f kind children IH] using AggregationRequest.ind. intros depth ancestors state [(t & Ht & _) Hc]. cbn [checks_walk].
  apply field_type_of_Some in Ht as ([i c] & -> & _). cbn [mbind outcome_bind]. apply checks_level_ok; [exact Hc|].
  destruct Hc as (_ & _ & _ & Hv%foldr_and_Forall). rewrite Forall_forall in IH, Hv |- *. intros c' Hin state'. apply IH; [done|by apply Hv].
Qed.
Lemma checks_runs (F : FulltextError → Prop) : Runs right (lift_E (histogram_checks requests fields)) (λ _, True) F.
Proof using Hvalid.
  apply Runs_lift. destruct Hvalid as [_ Hv]. destruct (checks_level_ok 1 [] (∅, []) requests Hv) as [state E].
  { destruct Hv as (_ & _ & _ & Hva%foldr_and_Forall). eapply Forall_impl; [exact Hva|]. intros r Hr state. by apply checks_walk_ok. }
  unfold histogram_checks. by rewrite E.
Qed.

(** *** Sorted hits *)
(** The page of the matches in the order of the sort. *)
Definition sorted_page (sorts : list SortRequest.t) (offset limit : N) (hits : list Hit) : Prop :=
  ∃ ranked, ranked ≡ₚ all_hits (Seg := Seg) ∧ StronglySorted (sorts_before fields sorts) ranked ∧ hits = take (N.to_nat limit) (drop (N.to_nat offset) ranked).
Definition collected_ok (sorts : list SortRequest.t) (end_ : N) (native : option Aggregations) (r : CollectedSortedCatalog.t) : Prop :=
  (∃ ranked, ranked ≡ₚ all_hits (Seg := Seg) ∧ StronglySorted (sorts_before fields sorts) ranked ∧ r.(CollectedSortedCatalog.hits) = row_of <$> take (N.to_nat end_) ranked)
  ∧ r.(CollectedSortedCatalog.total) = match_count (Seg := Seg) ∧ aggregated native r.(CollectedSortedCatalog.aggregations).
Lemma key_search_runs sorts k end_ native histograms : Forall2 (leaf_for fields) sorts (leaves k) → 0 < end_ →
  Runs right (search_sorted k end_ native histograms) (collected_ok sorts end_ native) collection_failure.
Proof using All.
  intros Hk Hend. eapply Runs_weaken; [apply (search_sorted_ok Seg longest_term k end_ native histograms Hend)| |done].
  - apply Forall_fmap. eapply Forall2_Forall_r; [exact Hk|]. apply Forall_true. intros s [key c] (_ & t & Ht & Hb & Hl). cbn [compose fst] in *.
    destruct Hl as [->| ->]; [by apply (values_typed _ _ _ Hindex)|done].
  - intros r ((ranked & Hp & Hs & Eh) & Hrest). split; [|exact Hrest]. exists ranked. split; [exact Hp|]. split; [|exact Eh].
    eapply StronglySorted_weaken; [exact Hs|]. intros h h' Hne. by apply (row_compare_before fields sorts k).
Qed.
Lemma collect_runs sorts end_ native histograms : sorts_valid fields sorts → 0 < end_ →
  Runs right (collect sorts fields end_ native histograms) (collected_ok sorts end_ native) collection_failure.
Proof using All.
  intros Hs Hend. unfold collect. assert (∀ (m : outcome SortKeyComputer.t), (∃ k, m = Ok k ∧ Forall2 (leaf_for fields) sorts (leaves k)) →
    Runs right (primary ← lift_E m; search_sorted primary end_ native histograms) (collected_ok sorts end_ native) collection_failure) as Hkey.
  { intros m (k & -> & Hk). eapply (Runs_bind _ _ _ (λ k', k' = k)); [by apply Runs_lift|]. intros ? ->. by apply key_search_runs. }
  case_bool_decide as Hone; [by apply Hkey, single_key_ok|]. destruct (Nat.leb_spec (length sorts) 4) as [Hle|Hgt].
  - unfold collect_native. eapply (Runs_bind _ _ _ (λ l, l = sorts)); [by apply Runs_lift|]. intros ? ->. apply Hkey, native_key_ok; [done|].
    destruct Hs as [Hne _]. destruct sorts as [|? [|]]; [done|done|]. cbn [length] in *. lia.
  - destruct (dynamic_key_ok fields sorts Hs) as (keys & -> & Hk). eapply (Runs_bind _ _ _ (λ k', k' = keys)); [by apply Runs_lift|]. intros ? ->. by apply key_search_runs.
Qed.
Lemma identified_ok hits : Forall (λ h : Hit, valid_id h.1.2 = true) hits → mapO identified (row_of <$> hits) = Ok hits.
Proof.
  induction 1 as [|[[score id] doc] hits Hv _ IH]; [done|]. cbn [fst snd] in Hv. change (row_of <$> ?x :: ?l) with (row_of x :: (row_of <$> l)). cbn [mapO].
  assert (identified (row_of (score, id, doc)) = Ok (score, id, doc)) as -> by (unfold identified, row_of; cbn [fst snd]; by rewrite Hv).
  cbn [mbind outcome_bind]. by rewrite IH.
Qed.
Lemma sort_collection sorts end_ e : sort_failure parallelism longest_term fields sorts end_ e → collection_failure e.
Proof. intros [Hn|[Hc _]]; [by left|right; by left]. Qed.
Definition catalog_answer (offset limit : N) (r : list Hit * N * list AggregationResult.t) : Prop :=
  (∃ sorts, catalog.(ValidatedCatalog.sort) = Some sorts ∧ sorted_page sorts offset limit r.1.1) ∧ r.1.2 = match_count (Seg := Seg)
  ∧ Forall2 shaped requests r.2 ∧ results_ok r.2.
Lemma sorted_catalog_runs offset limit : 0 < limit → offset + limit <= MAX_SEARCH_WINDOW →
  Runs right (sorted_catalog parallelism (Seg := Seg) catalog offset limit) (catalog_answer offset limit) collection_failure.
Proof using All.
  intros Hl Hw. unfold sorted_catalog. eapply (Runs_bind _ _ _ (λ sorts, catalog.(ValidatedCatalog.sort) = Some sorts)).
  { apply Runs_lift. destruct (ValidatedCatalog.sort catalog) as [sorts|]; [done|]. right. by right. }
  intros sorts Hsort. assert (sorts_valid fields sorts) as Hs by (by apply Hvalid).
  eapply Runs_bind; [apply Runs_check|]. intros _ _. unfold MAX_SEARCH_WINDOW in Hw.
  eapply (Runs_bind _ _ _ (λ n, n = offset + limit)).
  { apply Runs_lift. destruct (checked_add_cases offset limit) as [[-> _]|[_ Hm]]; [done|]. unfold USIZE_MAX in Hm. lia. }
  intros ? ->. set (end_ := N.min _ _). assert (0 < end_) as Hend by (unfold end_; lia).
  eapply Runs_bind.
  { eapply Runs_weaken; [apply (check_budget_runs parallelism longest_term fields HF HS HC (layout_small _ _ _ Hindex) (docs_small _ _ _ Hindex)
      (id_terms_short _ _ _ Hindex) (match_count_bound HS) sorts Hs (Hfew sorts Hsort) end_)|done|apply sort_collection].
    unfold end_, MAX_SEARCH_WINDOW. lia. }
  intros _ _. eapply Runs_bind; [apply prepared_ok|]. intros native Hn.
  eapply Runs_bind; [apply checks_runs|]. intros histograms _.
  eapply Runs_bind; [by apply collect_runs|]. intros [hits total aggregations] ((ranked & Hp & Hr & Eh) & Et & Ha).
  cbn [CollectedSortedCatalog.hits CollectedSortedCatalog.total CollectedSortedCatalog.aggregations] in *. subst hits total.
  eapply (Runs_bind _ _ _ (λ hits, hits = take (N.to_nat end_) ranked)).
  { apply Runs_lift. rewrite identified_ok; [done|]. apply Forall_take. rewrite Hp. apply (ids_valid _ _ _ Hindex). }
  intros ? ->. eapply Runs_bind; [by eapply finished_ok|]. intros out Hout. apply Runs_ret.
  split; [|split; [done|exact Hout]]. exists sorts. split; [done|]. exists ranked. split; [done|]. split; [done|]. cbn [fst snd].
  assert (lenN ranked <= searcher_num_docs) as Hlen.
  { unfold lenN. rewrite Hp. change (lenN (all_hits (Seg := Seg)) <= searcher_num_docs). rewrite (all_hits_count Hids). apply (docs_counted Seg longest_term). }
  rewrite skipn_firstn_comm. unfold end_. destruct (N.le_gt_cases (offset + limit) (N.max searcher_num_docs 1)) as [Hle|Hgt].
  - f_equal. rewrite N.min_l by done. lia.
  - rewrite N.min_r by lia. unfold lenN in Hlen. rewrite !take_ge; [done| |]; rewrite length_drop; lia.
Qed.
Lemma aggregate_count_runs : Runs right (aggregate_count (Seg := Seg) catalog) (λ r, r.1 = match_count (Seg := Seg) ∧ Forall2 shaped requests r.2 ∧ results_ok r.2) collection_failure.
Proof using All.
  unfold aggregate_count. eapply Runs_bind; [apply Runs_check|]. intros _ _. eapply Runs_bind; [apply prepared_ok|]. intros native Hn.
  eapply Runs_bind; [apply checks_runs|]. intros histograms _. eapply Runs_bind; [apply (search_counted_ok Seg longest_term)|]. intros [count results] [Ec Ha]. cbn [fst snd] in *.
  eapply Runs_bind; [by eapply finished_ok|]. intros out Hout. by apply Runs_ret.
Qed.
Lemma aggregate_runs : Runs right (aggregate (Seg := Seg) catalog) (λ r, Forall2 shaped requests r ∧ results_ok r) collection_failure.
Proof using All.
  unfold aggregate. eapply Runs_bind; [apply Runs_check|]. intros _ _. case_bool_decide as Hnil.
  { apply Runs_ret. rewrite Hnil. split; [constructor|]. split; [by left|]. split; [done|constructor]. }
  eapply Runs_bind; [apply prepared_ok|]. intros native Hn. eapply Runs_bind; [apply checks_runs|]. intros histograms _.
  eapply Runs_bind; [apply (search_aggregations_ok Seg longest_term)|]. intros results Ha. exact (finished_ok _ _ Hn Ha).
Qed.

(** ** What searches rely on *)
Lemma in_session_timed {A} cache (m : E Session.t A) Q (F : FulltextError → Prop) : cache_ok (right) cache → Runs right m Q F → Timed (in_session cache m) Q F.
Proof.
  intros Hc Hm clock. unfold in_session. destruct (Hm (Session.mk clock cache) Hc) as (_ & Hclock & Hr). cbn [Session.clock] in *.
  destruct (m (Session.mk clock cache)) as [[a|e| |] s]; cbn [fst snd] in *; [|destruct Hr as [|[-> ?]]; [by left|by right]|done..]. by split.
Qed.
Definition promised_page (offset limit : N) (hits : list Hit) : Prop := ∃ sorts, catalog.(ValidatedCatalog.sort) = Some sorts ∧ sorted_page sorts offset limit hits.
Lemma catalogs_ok cache : cache_ok right cache → catalog_ok (Seg := Seg) promised_page (catalogs_of (Seg := Seg) parallelism cache catalog).
Proof using All.
  intros Hc. split.
  - intros offset limit Hl Hw. cbn. eapply Timed_weaken; [by apply (in_session_timed cache _ _ _ Hc), sorted_catalog_runs| |done].
    intros [[hits total] results] (Hpage & Et & _). cbn [fst snd] in *. split; [exact Et|].
    pose proof Hpage as (sorts & _ & ranked & Hp & _ & Eh). split; [|split; [rewrite Eh, lenN_take; lia|exact Hpage]].
    rewrite Eh. apply Forall_take, Forall_drop. rewrite Hp. by apply Forall_forall.
  - cbn. eapply Timed_weaken; [apply (in_session_timed cache _ _ _ Hc), aggregate_count_runs| |done]. by intros r [? _].
  - cbn. eapply Timed_weaken; [apply (in_session_timed cache _ _ _ Hc), aggregate_runs|done|done].
Qed.
End Collected.
