(* ===== verification/CatalogPages.v ===== *)
(** * Searches with a catalog, and a concrete one

    The index of [SearchSample] with a configured string field, whose values are
    the versions of its documents: a catalog sorted by it is collected by sorting
    all matches.  The laws a catalog relies on hold of it. *)
From stdpp Require Import sorting.
From S2P Require Import Prelude.
From S2P Require Import Errors.
From S2P Require Import Bytes.
From S2P Require Import Wire.
From S2P Require Import Request.
From S2P Require Import Admission.
From S2P Require Import Results.
From S2P Require Import Aggregation.
From S2P Require Import Shape.
From S2P Require Import Response.
From S2P Require Import Deadline.
From S2P Require Import Failures.
From S2P Require Import Collecting.
From S2P Require Import Hits.
From S2P Require Import Ranking.
From S2P Require Import Merging.
From S2P Require Import Searching.
From S2P Require Import Versions.
From S2P Require Import Searched.
From S2P Require Import Answers.
From S2P Require Import SearchSample.
From S2P Require Import SearchPages.
From S2P Require Import Engine.
From S2P Require Import Maxima.
From S2P Require Import Native.
From S2P Require Import Costs.
From S2P Require Import Budgeted.
From S2P Require Import Sorting.
From S2P Require Import SortFits.
From S2P Require Import Collection.
From S2P Require Import Collected.
Local Open Scope N_scope.

(** ** Columns *)
Definition same_terms (a b : ListSegment.t) : bool := bool_decide (a.(ListSegment.ids) = b.(ListSegment.ids) ∧ a.(ListSegment.versions) = b.(ListSegment.versions)).
#[export] Instance list_fast_fields : FastFields ListSegment.t := {|
  segment_id seg := if same_terms seg first_segment then blit "first" else blit "second";
  get_field seg name := if same_terms seg first_segment || same_terms seg second_segment then Ok (if decide (name = ID_FIELD_NAME) then 0 else 1) else Err (native "unknown segment");
  key_lengths column := Ok (lenN <$> column.(StrColumn.dictionary));
  str_num_vals seg _ := 3;
  num_docs seg := N.min (lenN seg.(ListSegment.docs)) 100 |}.
(** All terms have one byte; the second segment has no versions. *)
Definition sample_longest (key : DictionaryCacheKey) : N := if decide (key = (blit "second", 1)) then 0 else 1.
Lemma list_fast_fields_laws : FastFieldsLaws ListSegment.t sample_longest.
Proof.
  split; [done| |done| |].
  - intros seg name. cbn. destruct (same_terms seg first_segment || _); [done|]. unfold stored, native_failure. cbn. set_solver.
  - intros seg name field column. unfold get_field, str_column, segment_id, list_fast_fields, list_columns. assert (same_terms second_segment first_segment = false) as E21 by reflexivity.
    destruct (same_terms seg first_segment) eqn:E1; cbn [orb]; [|destruct (same_terms seg second_segment) eqn:E2; [|done]];
      [apply bool_decide_eq_true in E1 as [Ei Ev]|apply bool_decide_eq_true in E2 as [Ei Ev]]; intros [= <-] [= <-]; rewrite Ei, Ev; by destruct (decide (name = ID_FIELD_NAME)).
  - intros key. unfold sample_longest. destruct (decide _); lia.
Qed.

(** ** Values *)
Definition kind_field : bytes := filter_name 0.
Definition sample_value (name : bytes) (address : DocAddress) : option OwnedValue.t :=
  if decide (name = kind_field) then
    seg ← segment_readers (Seg := ListSegment.t) !! N.to_nat address.1; terms ← seg.(ListSegment.versions); OwnedValue.Str <$> (terms : list bytes) !! N.to_nat address.2
  else None.
#[export] Instance sample_values : SortValues := {| sort_value := sample_value; compare_numbers := N.compare; numbers_opposite := N.compare_antisym |}.
#[export] Instance sample_layout : Layout := {| size_of_value := 32; size_of_global := 64; size_of_segment := 48 |}.

(** ** Searches *)
Definition empty_answer (a : Aggregation.t) : NativeResult.t :=
  match Aggregation.agg a with
  | AggregationVariants.Terms _ _ _ _ _ => NativeResult.Terms [] 0 None
  | AggregationVariants.Stats _ => NativeResult.Stats 0 0 None None None
  | AggregationVariants.Histogram _ _ _ _ _ => NativeResult.Histogram (BucketEntries.Vec [])
  | AggregationVariants.Range _ _ _ => NativeResult.Range (BucketEntries.Vec [])
  end.
Definition empty_answers (native : Aggregations) : NativeResults := prod_map id empty_answer <$> native.
(** A search fails when names are given twice. *)
Definition answered {A} (native : Aggregations) (r : NativeResults → A) : E Session.t A :=
  if decide (NoDup native.*1) then mret (r (empty_answers native)) else fail_E (Errors.native "duplicate aggregation").
Definition answered_opt {A} (native : option Aggregations) (r : option NativeResults → A) : E Session.t A :=
  match native with Some native => answered native (λ results, r (Some results)) | None => mret (r None) end.
Lemma answers_empty native : NoDup native.*1 → answers native (empty_answers native).
Proof.
  intros Hnd. unfold answers, empty_answers. apply Forall_forall. intros e He. exists (empty_answer e.2). split.
  - induction native as [|[n a] native IH]; [by apply not_elem_of_nil in He|]. rewrite fmap_cons in Hnd. apply NoDup_cons in Hnd as [Hn Hnd]. change (assoc e.1 ((n, empty_answer a) :: (prod_map id empty_answer <$> native)) = Some (empty_answer e.2)). cbn [assoc].
    apply elem_of_cons in He as [->|He]; [by rewrite decide_True|]. rewrite decide_False; [by apply IH|]. intros En. apply Hn. rewrite En. change (e.1 ∈ (fst <$> native)). apply list_elem_of_fmap. by exists e.
  - destruct e as [n [agg sub]]. cbn. destruct agg; constructor.
Qed.
Lemma answered_runs {A} right native (r : NativeResults → A) (Q : A → Prop) : (∀ results, answers native results → Q (r results)) → Runs right (answered native r) Q collection_failure.
Proof.
  intros HQ. unfold answered. destruct (decide _) as [Hnd|]; [by apply Runs_ret, HQ, answers_empty|]. apply Runs_lift. left. unfold native_failure. cbn. set_solver.
Qed.
Lemma answered_opt_runs {A} right native (r : option NativeResults → A) (Q : A → Prop) : (∀ results, aggregated native results → Q (r results)) →
  Runs right (answered_opt native r) Q collection_failure.
Proof. intros HQ. destruct native as [native|]; cbn [answered_opt]; [|by apply Runs_ret, HQ]. apply answered_runs. intros results Ha. by apply HQ. Qed.

Section Sorted.
Context {A : Type} (better : A → A → bool).
Fixpoint sortedb (l : list A) : bool := match l with [] => true | a :: l => forallb (better a) l && sortedb l end.
Lemma sortedb_ok l : sortedb l = true → StronglySorted better l.
Proof.
  induction l as [|a l IH]; [constructor|]. cbn [sortedb]. intros [Ha Hl]%andb_true_iff. constructor; [by apply IH|]. apply Forall_forall.
  intros b Hb. rewrite forallb_forall in Ha. apply Is_true_true, Ha. by apply list_elem_of_In.
Qed.
End Sorted.
Definition row_better (k : SortKeyComputer.t) (a b : Hit) : bool := match row_compare k a b with Lt => false | _ => true end.
(** Matches that cannot be put in order are an error. *)
#[export] Instance list_catalog_search : CatalogSearch := {|
  searcher_num_docs := 5;
  search_sorted k end_ native _ :=
    let ranked := insertion_sort (row_better k) (all_hits (Seg := ListSegment.t)) in
    if sortedb (row_better k) ranked
    then answered_opt native (CollectedSortedCatalog.mk (row_of <$> take (N.to_nat end_) ranked) (match_count (Seg := ListSegment.t)))
    else fail_E (Errors.native "incomparable sort values");
  search_counted native _ := answered_opt native (pair (match_count (Seg := ListSegment.t)));
  search_aggregations native _ := answered_opt native id;
  search_within _ native _ := answered native id |}.
Lemma list_catalog_search_laws : CatalogSearchLaws ListSegment.t sample_longest.
Proof.
  split.
  - by vm_compute.
  - intros k end_ native histograms _ _. cbn. destruct (sortedb (row_better k) _) eqn:Es; [|apply Runs_lift; left; unfold native_failure; cbn; set_solver].
    apply answered_opt_runs. intros results Ha. cbn. split; [|done]. eexists. split; [apply (insertion_sort_perm (row_better k))|]. split; [|reflexivity].
    apply sortedb_ok in Es. eapply StronglySorted_weaken; [exact Es|]. intros a b. unfold row_better. by destruct (row_compare k a b).
  - intros native histograms. cbn. by apply answered_opt_runs.
  - intros native histograms. cbn. by apply answered_opt_runs.
  - intros ancestors native check. cbn. by apply answered_runs.
Qed.
Definition catalog_fields : list FilterFieldConfig.t := [FilterFieldConfig.mk (blit "kind") FilterFieldType.String; FilterFieldConfig.mk (blit "price") FilterFieldType.Number].
Lemma sample_index_ok : index_ok ListSegment.t sample_longest catalog_fields.
Proof.
  split.
  - cbn. unfold U32_MAX. lia.
  - intros seg. cbn. lia.
  - intros seg. unfold longest_of. destruct (get_field seg ID_FIELD_NAME); try done. unfold sample_longest. destruct (decide _); done.
  - decide_now.
  - done.
  - intros name t Ht _. unfold field_type_of, index_of in *. destruct (list_find _ catalog_fields) as [[i c]|] eqn:Ef; [|done]. apply list_find_Some in Ef as (Hi & _ & _).
    injection Ht as <-. destruct i as [|[|i]]; [| |done]; injection Hi as <-; intros address v; [|done].
    change (sort_value _ address) with (sample_value kind_field address). unfold sample_value. rewrite decide_True by done.
    destruct (segment_readers (Seg := ListSegment.t) !! N.to_nat address.1) as [seg|]; cbn [mbind option_bind]; [|done]. destruct (ListSegment.versions seg) as [terms|]; cbn [mbind option_bind]; [|done].
    destruct ((terms : list bytes) !! N.to_nat address.2) as [s|]; [|done]. intros [= <-]. by exists s.
Qed.

(** * Searches with a catalog

    What a catalog decides and returns: the budgets of its aggregations and of its
    sort, the page of a sorted catalog, and the promise of whole searches whose
    catalog is collected as the code collects it. *)
Section Pages.
Context {Seg : Type} `{!Segments Seg} `{!Columns Seg} `{!FastFields Seg} `{!Searcher Seg} `{!Counting Seg} `{!SortValues} `{!Comparators} `{!ComparatorsLaws}
  `{!CatalogSearch} `{!Layout} (parallelism : N) (longest_term : DictionaryCacheKey → N).
Context (HF : FastFieldsLaws Seg longest_term) (HS : SearcherLaws Seg) (HC : CountingLaws Seg) (HK : CatalogSearchLaws Seg longest_term).
Abbreviation right := (right_maximum (longest_term := longest_term)).

(** The budget of aggregations decides: it passes only if the shape fits and
    what all segments need, with their longest terms and with the numbers of
    buckets found for histograms, is within the limits; it refuses for a limit
    only if without those numbers it is not; whatever the cache of the longest
    terms holds, as long as it is right, which it stays. *)
Theorem terms_budget_decided fields requests :
  (∀ (seg : Seg) name, stored (f64_column seg name) (λ _, True)) → valid_requests fields requests →
  Runs right (check_terms_budget fields search_within (Seg := Seg) requests)
    (λ _, terms_fit (Seg := Seg) longest_term fields (λ _, answers) requests) (terms_failure (Seg := Seg) longest_term fields requests).
Proof using HF HK.
  intros Hf64 Hv. apply (check_terms_runs longest_term fields HF Hf64 search_within (λ _, answers)); [|exact Hv].
  intros ancestors native check. apply (search_within_ok Seg longest_term).
Qed.
(** The budget of a sort decides: it passes only if its buffers and the keys it
    retains, as long as the longest terms of their segments, or as many as there
    are matches, are within the limit, and it refuses for the limit only if they
    are not. *)
Theorem sort_budget_decided fields sorts end_ :
  index_ok Seg longest_term fields → sorts_valid fields sorts → lenN sorts <= MAX_FIELDS → end_ <= MAX_SEARCH_WINDOW →
  Runs right (check_budget parallelism (Seg := Seg) end_ sorts fields) (λ _, sort_fits (Seg := Seg) parallelism longest_term fields end_ sorts)
    (λ e, native_failure e ∨ code e = "E_RESOURCE_LIMIT"%string ∧ ¬ sort_fits (Seg := Seg) parallelism longest_term fields end_ sorts).
Proof using HF HS HC.
  intros Hindex Hs Hfew Hend. exact (check_budget_runs parallelism longest_term fields HF HS HC (layout_small _ _ _ Hindex) (docs_small _ _ _ Hindex)
    (id_terms_short _ _ _ Hindex) (match_count_bound HS) sorts Hs Hfew end_ Hend).
Qed.

(** ** Whole searches *)
Context `{!Dictionaries} `{!DictionariesLaws} `{!TopNComputer} `{!TopNLaws}.
Definition catalog_of (fields : list FilterFieldConfig.t) (request : SearchRequest.t) : ValidatedCatalog.t :=
  ValidatedCatalog.mk request.(SearchRequest.sort) request.(SearchRequest.aggregations) fields.
Lemma search_catalog_kept (P : Prop) sha256 generation fields build_query cache request :
  versions_ok (Seg := Seg) → ids_known (Seg := Seg) → index_ok Seg longest_term fields → lenN fields <= MAX_FIELDS → cache_ok right cache →
  Timed (build_query request) (λ _, P) query_failure →
  request.(SearchRequest.offset) <= USIZE_MAX → request.(SearchRequest.limit) <= USIZE_MAX → Forall strings_short request.(SearchRequest.aggregations) →
  Timed (search_inner (Seg := Seg) sha256 generation fields build_query (λ request, catalogs_of (Seg := Seg) parallelism cache (catalog_of fields request)) request)
    (λ r, promised (Seg := Seg) sha256 generation fields (λ request, promised_page (Seg := Seg) (catalog_of fields request)) request r ∧ P) inner_failure.
Proof using All.
  intros Hversions Hids Hindex Hfields Hcache Hquery Ho Hl Hshort. apply (search_inner_kept HS HC Hversions Hids); [|exact Hquery|exact Ho|exact Hl|exact Hshort].
  intros r Hhas Hadm Hr. destruct (Hadm Hhas) as (_ & Hvalid & Hfits). apply (catalogs_ok parallelism longest_term HF HS HC HK (catalog_of fields r) Hindex Hids Hvalid Hfits Hr); [|exact Hcache].
  intros sorts Hs. etrans; [apply sorts_few, Hvalid, Hs|exact Hfields].
Qed.
(** A whole search whose catalog is collected by the catalog's own code keeps its
    promise, from the admission of the request to the size of the response: the
    hits are the page of the reference ranking, or of the order of the sort, or
    continue a traversal; totals that claim to be exact are; and it fails only
    with an error of the index, of the request, of a limit, or with the deadline. *)
Theorem search_catalog_promise sha256 generation fields build_query cache request :
  versions_ok (Seg := Seg) → ids_known (Seg := Seg) → index_ok Seg longest_term fields → lenN fields <= MAX_FIELDS → cache_ok right cache →
  Timed (build_query request) (λ _, True) query_failure →
  request.(SearchRequest.offset) <= USIZE_MAX → request.(SearchRequest.limit) <= USIZE_MAX → Forall strings_short request.(SearchRequest.aggregations) →
  Timed (search_inner (Seg := Seg) sha256 generation fields build_query (λ request, catalogs_of (Seg := Seg) parallelism cache (catalog_of fields request)) request)
    (promised (Seg := Seg) sha256 generation fields (λ request, promised_page (Seg := Seg) (catalog_of fields request)) request) inner_failure.
Proof using All. intros. eapply Timed_weaken; [by apply (search_catalog_kept True)|by intros r [Hr _]|done]. Qed.
End Pages.

(** ** The sample *)
Definition sample_catalog : ValidatedCatalog.t :=
  ValidatedCatalog.mk (Some [SortRequest.mk (blit "kind") SortDirection.Asc MissingOrder.Last; SortRequest.mk (blit "price") SortDirection.Desc MissingOrder.First])
    sample_requests catalog_fields.
Definition sample_session : Session.t := Session.mk (Some 100) DictionaryCache.default.
Definition hit_ids (r : list Hit * N * list AggregationResult.t) : list bytes := (λ h : Hit, h.1.2) <$> r.1.1.
Lemma sample_short : Forall strings_short sample_requests.
Proof. repeat constructor; cbn; unfold U32_MAX; vm_compute; discriminate. Qed.
Lemma sample_valid : requests_valid sample_catalog.(ValidatedCatalog.sort) sample_requests catalog_fields.
Proof. apply validate_requests_Ok. vm_compute. reflexivity. Qed.
Lemma sample_shape_fits : shape_fits sample_requests 2.
Proof. eapply check_shape_iff; [exact sample_short|vm_compute; reflexivity]. Qed.
Lemma terms_budget_decided_witness :
  Runs (right_maximum (longest_term := sample_longest)) (check_terms_budget catalog_fields search_within (Seg := ListSegment.t) sample_requests)
    (λ _, terms_fit (Seg := ListSegment.t) sample_longest catalog_fields (λ _, answers) sample_requests) (terms_failure (Seg := ListSegment.t) sample_longest catalog_fields sample_requests)
  ∧ (check_terms_budget catalog_fields search_within (Seg := ListSegment.t) sample_requests sample_session).1 = Ok ().
Proof.
  split; [|vm_compute; reflexivity].
  apply (terms_budget_decided sample_longest list_fast_fields_laws list_catalog_search_laws); [done|]. split; [exact (proj2 sample_valid)|exact sample_short].
Defined.
Definition sample_catalog_sorts : list SortRequest.t := default [] sample_catalog.(ValidatedCatalog.sort).
Lemma sort_budget_decided_witness :
  Runs (right_maximum (longest_term := sample_longest)) (check_budget 1 (Seg := ListSegment.t) 3 sample_catalog_sorts catalog_fields)
    (λ _, sort_fits (Seg := ListSegment.t) 1 sample_longest catalog_fields 3 sample_catalog_sorts)
    (λ e, native_failure e ∨ code e = "E_RESOURCE_LIMIT"%string ∧ ¬ sort_fits (Seg := ListSegment.t) 1 sample_longest catalog_fields 3 sample_catalog_sorts)
  ∧ (check_budget 1 (Seg := ListSegment.t) 3 sample_catalog_sorts catalog_fields sample_session).1 = Ok ().
Proof.
  split; [|vm_compute; reflexivity].
  apply (sort_budget_decided 1 sample_longest list_fast_fields_laws list_searcher_laws list_counting_laws);
    [exact sample_index_ok|exact (proj1 sample_valid _ eq_refl)|vm_compute; discriminate|vm_compute; discriminate].
Defined.
(** The second and third hit of the sorted catalog. *)
Definition catalog_request : SearchRequest.t :=
  SearchRequest.mk sample_catalog.(ValidatedCatalog.sort) sample_requests
    (SearchExpression.Clause (SearchClause.mk (blit "t") SearchMode.Any (QueryOptions.mk 1 true) [])) None None 1 2 true 1000 false None.
Definition sample_collection (request : SearchRequest.t) : Catalogs := catalogs_of (Seg := ListSegment.t) 1 DictionaryCache.default (catalog_of catalog_fields request).
Lemma search_catalog_promise_witness :
  Timed (search_inner (Seg := ListSegment.t) sample_hash sample_generation catalog_fields sample_query sample_collection catalog_request)
    (promised (Seg := ListSegment.t) sample_hash sample_generation catalog_fields (λ request, promised_page (Seg := ListSegment.t) (catalog_of catalog_fields request)) catalog_request) inner_failure
  ∧ match search (Seg := ListSegment.t) sample_hash sample_generation catalog_fields sample_query sample_collection catalog_request with
    | Ok r => r.(SearchResult.hits) = [SearchHit.mk (blit "d") 0x40000000 (Some (blit "2")); SearchHit.mk (blit "b") 0x40000000 None] ∧ r.(SearchResult.total) = 4 | _ => False end.
Proof.
  split; [|vm_compute; split; reflexivity].
  apply (search_catalog_promise 1 sample_longest list_fast_fields_laws list_searcher_laws list_counting_laws list_catalog_search_laws sample_hash sample_generation catalog_fields sample_query DictionaryCache.default);
    [exact sample_versions_ok|exact sample_ids_known|exact sample_index_ok|vm_compute; discriminate|apply default_cache_ok|by apply Timed_ret|vm_compute; discriminate|vm_compute; discriminate|exact sample_short].
Defined.
