(* ===== verification/Queried.v ===== *)
(** * A search answers what its request asks

    The query of a request selects the documents the request asks for; with an
    index that collects what a query selects, a search from its request to its
    answer pages through exactly those documents. *)
From S2P Require Import Prelude.
From S2P Require Import Errors.
From S2P Require Import Bytes.
From S2P Require Import Wire.
From S2P Require Import Request.
From S2P Require Import Structure.
From S2P Require Import Text.
From S2P Require Import Spans.
From S2P Require Import Analysis.
From S2P Require Import Plan.
From S2P Require Import Prepared.
From S2P Require Import Sample.
From S2P Require Import Aggregation.
From S2P Require Import Shape.
From S2P Require Import Response.
From S2P Require Import Deadline.
From S2P Require Import Failures.
From S2P Require Import Collecting.
From S2P Require Import Hits.
From S2P Require Import Ranking.
From S2P Require Import Merging.
From S2P Require Import Searching.
From S2P Require Import Versions.
From S2P Require Import Searched.
From S2P Require Import Answers.
From S2P Require Import SearchSample.
From S2P Require Import Engine.
From S2P Require Import Maxima.
From S2P Require Import Native.
From S2P Require Import Costs.
From S2P Require Import Sorting.
From S2P Require Import Collection.
From S2P Require Import Collected.
From S2P Require Import CatalogPages.
From S2P Require Import Query.
From S2P Require Import Selecting.
From S2P Require Import Doubles.
From S2P Require Import Clauses.
From S2P Require Import Selected.
From S2P Require Import Filtered.
Local Open Scope N_scope.

Section Request.
Context `{Unicode} `{Automata} (final_analyzer : bytes → list Token.t) (self : Engine.t).
Context {Seg : Type} `{!Searcher Seg} `{!Terms Seg} `{!Documents Seg} (HT : TermsLaws Seg).
Context (filter_fields : list EngineFilterField.t) (filter_field_lookup : gmap bytes N).

(** What the engine was opened with. *)
Record engine_built : Prop := {
  analyzer_built : analyzer_ok self.(Engine.analyzer);
  fields_built : lookup_ok self;
  filters_built : ∀ name i, filter_field_lookup !! name = Some i → i < lenN filter_fields }.
Abbreviation query_of := (query (Seg := Seg) final_analyzer self filter_fields filter_field_lookup).
Abbreviation wanted := (request_asked (Seg := Seg) final_analyzer self filter_fields filter_field_lookup).
Definition request_patterns (request : SearchRequest.t) : Prop := match request.(SearchRequest.filter) with Some f => patterns f | None => True end.
Lemma query_means_asked request : engine_built → request_patterns request →
  coded (query_of request) (λ b, b.(BuiltQuery.clauses) <= self.(Engine.max_query_clauses) ∧ ∀ doc, searchable (Seg := Seg) doc → matches b.(BuiltQuery.query) doc = wanted doc request).
Proof using HT.
  intros [Ha Hf Hff] Hp. unfold query. eapply coded_bind; [by apply (expression_query_means self HT)|]. intros b (Hb & _ & Hm). cbv zeta.
  eapply coded_bind; [apply (with_filter_means HT filter_fields filter_field_lookup Hff _ (λ doc, asked final_analyzer self doc request.(SearchRequest.expression) && candidate_asked self doc request.(SearchRequest.candidate_ids))); [exact Hp|]|].
  - intros doc Hd. by rewrite candidates_matches, Hm.
  - intros q Hq. split; [exact Hb|]. exact Hq.
Qed.
(** C13: The query of a request selects the documents the request asks for: any or all
    of the words, a phrase at its distances, words before a prefix and a token that
    starts with it, what the matchers of the traces accept for fuzzy words,
    combined by the boolean structure, among the candidates, with filters compared
    as numbers.  Building it fails only with the code of an invalid request, of a
    prefix that is too broad or of the index, and counts at most as many clauses
    as are configured. *)
Theorem query_selects_asked request : engine_built → request_patterns request →
  coded (query_of request) (λ b, b.(BuiltQuery.clauses) <= self.(Engine.max_query_clauses)
    ∧ ∀ doc, searchable (Seg := Seg) doc → matches b.(BuiltQuery.query) doc = wanted doc request).
Proof using HT. apply query_means_asked. Qed.
(** The clauses counted for an expression bound the query built for it: they are
    within the configured limit, and the query has at most twice as many leaves. *)
Theorem expression_leaves_bounded expression : engine_built →
  coded (expression_query (Seg := Seg) final_analyzer self expression) (λ b, b.(BuiltQuery.clauses) <= self.(Engine.max_query_clauses)
    ∧ leaves b.(BuiltQuery.query) <= 2 * b.(BuiltQuery.clauses)).
Proof using HT.
  intros [Ha Hf _]. pose (trivial := {| State := (); automaton := λ _ _ _ _, Panic |} : Automata).
  eapply coded_weaken; [by apply (@expression_query_means _ trivial self _ _ _ _ HT)|]. intros b (Hb & Hl & _). by split.
Qed.
End Request.

(** ** From the request to the answer *)
Lemma omap_same {A B} (f g : A → option B) (l : list A) : (∀ x, x ∈ l → f x = g x) → omap f l = omap g l.
Proof. intros Hfg. induction l as [|x l IH]; [done|]. cbn. rewrite Hfg by (apply elem_of_cons; by left). rewrite IH; [done|]. intros y Hy. apply Hfg, elem_of_cons. by right. Qed.
Lemma concat_perm {A B} (f g : nat → A → list B) (l : list A) : (∀ i a, a ∈ l → f i a ≡ₚ g i a) → concat (imap f l) ≡ₚ concat (imap g l).
Proof.
  revert f g. induction l as [|a l IH]; intros f g Hfg; [done|]. cbn [imap concat]. apply Permutation_app; [apply Hfg, elem_of_cons; by left|].
  apply IH. intros i x Hx. apply Hfg, elem_of_cons. by right.
Qed.
Section Search.
Context `{Unicode} `{Automata} (final_analyzer : bytes → list Token.t) (self : Engine.t).
Context {Seg : Type} `{!Segments Seg} `{!Columns Seg} `{!FastFields Seg} `{!Searcher Seg} `{!Counting Seg} `{!SortValues} `{!Comparators} `{!ComparatorsLaws}
  `{!CatalogSearch} `{!Layout} (parallelism : N) (longest_term : DictionaryCacheKey → N).
Context (HF : FastFieldsLaws Seg longest_term) (HS : SearcherLaws Seg) (HC : CountingLaws Seg) (HK : CatalogSearchLaws Seg longest_term).
Context `{!Dictionaries} `{!DictionariesLaws} `{!TopNComputer} `{!TopNLaws}.
Context `{!Terms Seg} `{!Documents Seg} (HT : TermsLaws Seg).
Context (filter_fields : list EngineFilterField.t) (filter_field_lookup : gmap bytes N).
Abbreviation query_of := (query (Seg := Seg) final_analyzer self filter_fields filter_field_lookup).
Abbreviation wanted := (request_asked (Seg := Seg) final_analyzer self filter_fields filter_field_lookup).

(** What [search_inner] does with the query: the index runs it, the order of the
    collection depends on whether its scores are stable. *)
Definition build_query (request : SearchRequest.t) : M Clock bool := b ← lift (query_of request); mret b.(BuiltQuery.stable_scores).
(** The live documents of a segment that [p] holds of, by number. *)
Definition selected (seg : Seg) (p : Doc.t → bool) : list N :=
  omap (λ e : N * Doc.t, if is_alive (alive_bitset seg) e.1 && p e.2 then Some e.1 else None) (imap (λ i doc, (N.of_nat i, doc)) (documents seg)).
Definition addresses (p : Doc.t → bool) : list DocAddress := concat (imap (λ i seg, (λ d, (N.of_nat i, d)) <$> selected seg p) segment_readers).
(** The index collects the documents a query matches. *)
Definition evaluates (q : Query.t) : Prop := ∀ seg : Seg, seg ∈ segment_readers → fst <$> Merging.matches seg ≡ₚ selected seg (matches q).

Lemma selected_same seg p p' : (∀ doc, doc ∈ documents seg → p doc = p' doc) → selected seg p = selected seg p'.
Proof.
  intros Hp. apply omap_same. intros [i doc] Hin. cbn [fst snd]. rewrite Hp; [done|]. apply list_elem_of_lookup in Hin as [j Hj].
  rewrite list_lookup_imap in Hj. apply fmap_Some in Hj as (doc' & Hd & [= _ ->]). by eapply list_elem_of_lookup_2.
Qed.
Lemma hits_selected q p : ids_known (Seg := Seg) → evaluates q → (∀ doc, searchable (Seg := Seg) doc → matches q doc = p doc) →
  snd <$> all_hits (Seg := Seg) ≡ₚ addresses p.
Proof.
  intros Hids Hq Hp. assert (snd <$> all_hits (Seg := Seg) = snd <$> scored_matches (Seg := Seg)) as ->.
  { rewrite <- (all_hits_scored Hids), <- list_fmap_compose. done. }
  unfold scored_matches, addresses.
  set (of_segment i (seg : Seg) := (λ d : N * f32, (d.2, (N.of_nat i, d.1))) <$> Merging.matches seg).
  assert (snd <$> concat (imap of_segment segment_readers) = concat (imap (λ i seg, snd <$> of_segment i seg) segment_readers)) as E
    by (etrans; [apply concat_map|]; f_equal; apply fmap_imap).
  etrans; [exact (eq_ind_r (λ l, l ≡ₚ _) (Permutation_refl _) E)|]. clear E.
  apply concat_perm. intros i seg Hseg. unfold of_segment.
  rewrite <- list_fmap_compose. unfold compose. cbn [snd]. rewrite <- (selected_same seg (matches q) p).
  - rewrite <- (Hq seg Hseg), <- list_fmap_compose. done.
  - intros doc Hd. apply Hp. by exists seg.
Qed.
Lemma build_query_timed request : engine_built self filter_fields filter_field_lookup → request_patterns request →
  Timed (build_query request) (λ _, ∃ b, query_of request = Ok b
    ∧ ∀ doc, searchable (Seg := Seg) doc → matches b.(BuiltQuery.query) doc = wanted doc request) query_failure.
Proof using HT.
  intros Hbuilt Hp. pose proof (query_means_asked final_analyzer self HT filter_fields filter_field_lookup request Hbuilt Hp) as Hq. unfold build_query.
  eapply (Timed_bind _ _ (λ b, query_of request = Ok b ∧ ∀ doc, searchable (Seg := Seg) doc → matches b.(BuiltQuery.query) doc = wanted doc request)).
  - apply Timed_lift. destruct (query_of request) as [b|e| |]; [split; [done|]; apply Hq|exact Hq|done..].
  - intros b Hb. apply Timed_ret. by exists b.
Qed.
(** A whole search finds what is asked for: over an index that collects the
    documents a query matches, the answer to an admissible request is a page of
    the ranking (or of the order of the sort, or of a continued traversal) of
    exactly the live documents the request asks for, at most as many as asked for
    and within 8 MiB; the search fails only with the deadline or an error of the
    request, of a limit or of the index, and never panics. *)
Theorem search_finds_asked sha256 generation fields cache request :
  versions_ok (Seg := Seg) → ids_known (Seg := Seg) → index_ok Seg longest_term fields → lenN fields <= MAX_FIELDS →
  cache_ok (right_maximum (longest_term := longest_term)) cache →
  engine_built self filter_fields filter_field_lookup → request_patterns request → (∀ b, query_of request = Ok b → evaluates b.(BuiltQuery.query)) →
  request.(SearchRequest.offset) <= USIZE_MAX → request.(SearchRequest.limit) <= USIZE_MAX → Forall strings_short request.(SearchRequest.aggregations) →
  Timed (search_inner (Seg := Seg) sha256 generation fields build_query (λ request, catalogs_of (Seg := Seg) parallelism cache (catalog_of fields request)) request)
    (λ r, promised (Seg := Seg) sha256 generation fields (λ request, promised_page (Seg := Seg) (catalog_of fields request)) request r
      ∧ snd <$> all_hits (Seg := Seg) ≡ₚ addresses (λ doc, wanted doc request)) inner_failure.
Proof using All.
  intros Hversions Hids Hindex Hfields Hcache Hbuilt Hp Heval Ho Hl Hshort.
  apply (search_catalog_kept parallelism longest_term HF HS HC HK); [done..| |done|done|done].
  eapply Timed_weaken; [by apply build_query_timed| |done]. intros _ (b & Eb & Hm). by eapply hits_selected; [|apply Heval|].
Qed.
End Search.

(** ** The sample *)
(** Documents whose title is the letter of the sample request, or empty. *)
Definition sample_doc (found : bool) : Doc.t :=
  Doc.mk (λ field, if ((field =? 1) || (field =? 2)) && found then [(0, blit "t")] else []) (λ _, []) (λ _, []) (λ _, false).
#[export] Instance list_documents : Documents ListSegment.t :=
  λ seg, imap (λ i _, sample_doc (existsb (λ e : N * f32, e.1 =? N.of_nat i) seg.(ListSegment.docs))) seg.(ListSegment.ids).
Definition in_terms (from : bytes) (below : option bytes) (s : bytes) : Prop := bytes_le from s ∧ match below with None => True | Some e => bytes_lt s e end.
#[export] Instance in_terms_dec from below s : Decision (in_terms from below s).
Proof. unfold in_terms. destruct below; apply _. Defined.
#[export] Instance list_terms : Terms ListSegment.t := {
  term_range seg field from below := Ok (filter (in_terms from below) (documents seg ≫= λ doc : Doc.t, snd <$> doc.(Doc.tokens) field));
  get_field_name _ := [];
  MAX_TOKEN_LEN := 65530 }.
Lemma list_terms_laws : TermsLaws ListSegment.t.
Proof.
  split.
  - intros seg field from below. cbn [stored term_range list_terms]. split; [apply Forall_forall; by intros s [Hs _]%list_elem_of_filter|].
    intros doc e Hd He Hle Hlt. apply list_elem_of_filter. split; [by split|]. apply list_elem_of_bind. exists doc. split; [|done].
    apply list_elem_of_fmap. by exists e.
  - intros seg doc field v Hd Hv. apply list_elem_of_lookup in Hd as [i Hi]. unfold documents, list_documents in Hi. rewrite list_lookup_imap in Hi.
    apply fmap_Some in Hi as (x & _ & ->). by apply not_elem_of_nil in Hv.
Qed.
Lemma sample_built : engine_built sample_engine [] ∅.
Proof. split; [apply word_analyzer_ok|apply sample_engine_ok|by intros]. Qed.
Lemma query_selects_asked_witness :
  coded (query (Seg := ListSegment.t) word_analyzer sample_engine [] ∅ catalog_request) (λ b, b.(BuiltQuery.clauses) <= 1024
    ∧ ∀ doc, searchable (Seg := ListSegment.t) doc → matches b.(BuiltQuery.query) doc = request_asked (Seg := ListSegment.t) word_analyzer sample_engine [] ∅ doc catalog_request)
  ∧ request_asked (Seg := ListSegment.t) word_analyzer sample_engine [] ∅ (sample_doc true) catalog_request = true.
Proof.
  split; [|vm_compute; reflexivity].
  apply (query_selects_asked word_analyzer sample_engine list_terms_laws [] ∅ catalog_request); [exact sample_built|exact I].
Defined.
Lemma expression_leaves_bounded_witness :
  coded (expression_query (Seg := ListSegment.t) word_analyzer sample_engine catalog_request.(SearchRequest.expression)) (λ b, b.(BuiltQuery.clauses) <= 1024
    ∧ leaves b.(BuiltQuery.query) <= 2 * b.(BuiltQuery.clauses)).
Proof. apply (expression_leaves_bounded word_analyzer sample_engine list_terms_laws [] ∅). exact sample_built. Defined.
Lemma sample_evaluates b : query (Seg := ListSegment.t) word_analyzer sample_engine [] ∅ catalog_request = Ok b → evaluates (Seg := ListSegment.t) b.(BuiltQuery.query).
Proof.
  intros E. vm_compute in E. injection E as <-. intros seg [->|[->|[]%not_elem_of_nil]%elem_of_cons]%elem_of_cons; vm_compute; reflexivity.
Qed.
Lemma search_finds_asked_witness :
  Timed (search_inner (Seg := ListSegment.t) sample_hash sample_generation catalog_fields (build_query (Seg := ListSegment.t) word_analyzer sample_engine [] ∅) sample_collection catalog_request)
    (λ r, promised (Seg := ListSegment.t) sample_hash sample_generation catalog_fields (λ request, promised_page (Seg := ListSegment.t) (catalog_of catalog_fields request)) catalog_request r
      ∧ snd <$> all_hits (Seg := ListSegment.t) ≡ₚ addresses (λ doc, request_asked (Seg := ListSegment.t) word_analyzer sample_engine [] ∅ doc catalog_request)) inner_failure
  ∧ match search (Seg := ListSegment.t) sample_hash sample_generation catalog_fields (build_query (Seg := ListSegment.t) word_analyzer sample_engine [] ∅) sample_collection catalog_request with
    | Ok r => r.(SearchResult.hits) = [SearchHit.mk (blit "d") 0x40000000 (Some (blit "2")); SearchHit.mk (blit "b") 0x40000000 None] ∧ r.(SearchResult.total) = 4 | _ => False end.
Proof.
  split; [|vm_compute; split; reflexivity].
  apply (search_finds_asked word_analyzer sample_engine 1 sample_longest list_fast_fields_laws list_searcher_laws list_counting_laws list_catalog_search_laws list_terms_laws [] ∅ sample_hash sample_generation catalog_fields DictionaryCache.default);
    [exact sample_versions_ok|exact sample_ids_known|exact sample_index_ok|vm_compute; discriminate|apply default_cache_ok|exact sample_built|exact I|exact sample_evaluates|vm_compute; discriminate|vm_compute; discriminate|exact sample_short].
Defined.
