(* ===== verification/Committed.v ===== *)
(** * From a batch to an answer

    An index is opened, batches are applied and published through its writer, and
    a search runs over what was published: its hits are the records of the store
    the request asks for.  What the index crate makes of a document is a
    parameter; a searcher shows the published documents. *)
From S2P Require Import Prelude.
From S2P Require Import Errors.
From S2P Require Import Bytes.
From S2P Require Import Wire.
From S2P Require Import Request.
From S2P Require Import Structure.
From S2P Require Import Config.
From S2P Require Import Aggregation.
From S2P Require Import Shape.
From S2P Require Import Response.
From S2P Require Import Identity.
From S2P Require Import Analysis.
From S2P Require Import Canonical.
From S2P Require Import Plan.
From S2P Require Import Prepared.
From S2P Require Import Admission.
From S2P Require Import Sample.
From S2P Require Import Deadline.
From S2P Require Import Failures.
From S2P Require Import Collecting.
From S2P Require Import Hits.
From S2P Require Import Ranking.
From S2P Require Import Merging.
From S2P Require Import Searching.
From S2P Require Import Versions.
From S2P Require Import Searched.
From S2P Require Import Answers.
From S2P Require Import SearchSample.
From S2P Require Import Engine.
From S2P Require Import Query.
From S2P Require Import Opening.
From S2P Require Import Writing.
From S2P Require Import Selecting.
From S2P Require Import Clauses.
From S2P Require Import Maxima.
From S2P Require Import Native.
From S2P Require Import Costs.
From S2P Require Import Sorting.
From S2P Require Import Collection.
From S2P Require Import Collected.
From S2P Require Import CatalogPages.
From S2P Require Import Queried.
Local Open Scope N_scope.

(** ** What a searcher shows *)
Section Shown.
Context {Seg : Type} `{!Segments Seg} `{!Columns Seg} `{!Searcher Seg} `{!Documents Seg}.
(** The live documents with their IDs. *)
Definition shown_segment (i : N) (seg : Seg) : list (option bytes * Doc.t) :=
  omap (λ e : N * Doc.t, if is_alive (alive_bitset seg) e.1 then Some (id_of (Seg := Seg) (i, e.1), e.2) else None) (imap (λ j doc, (N.of_nat j, doc)) (documents seg)).
Definition shown : list (option bytes * Doc.t) := concat (imap (λ i seg, shown_segment (N.of_nat i) seg) segment_readers).
(** The searcher shows these documents of the index crate, by [indexed]. *)
Definition shows (id_field : N) (indexed : Document → Doc.t) (documents : list Document) : Prop :=
  shown ≡ₚ (λ d, (head (texts id_field d), indexed d)) <$> documents.
Lemma omap_concat {A B} (f : A → option B) (ls : list (list A)) : omap f (concat ls) = concat ((λ l : list A, omap f l) <$> ls).
Proof. induction ls as [|l ls IH]; [done|]. cbn [concat]. by rewrite omap_app, IH, fmap_cons. Qed.
Lemma selected_ids (p : Doc.t → bool) : omap (id_of (Seg := Seg)) (addresses (Seg := Seg) p) = omap fst (filter (λ e : option bytes * Doc.t, p e.2 = true) shown).
Proof.
  unfold addresses, shown. rewrite omap_concat, filter_concat, omap_concat. f_equal. rewrite !fmap_imap. apply imap_ext. intros i seg _. unfold compose, selected, shown_segment.
  induction (imap (λ j doc, (N.of_nat j, doc)) (documents seg)) as [|[j doc] l IH]; [done|]. cbn [omap list_omap fst snd]. destruct (is_alive (alive_bitset seg) j); cbn [andb]; [|exact IH].
  rewrite filter_cons. cbn [snd]. destruct (p doc); cbn [omap list_omap fmap list_fmap fst snd].
  - rewrite decide_True by done. cbn [omap list_omap fst]. destruct (id_of (N.of_nat i, j)); [by f_equal|exact IH].
  - rewrite decide_False by done. exact IH.
Qed.
End Shown.
(** The IDs of hits whose documents are selected are the keys of the store that are. *)
Section Hits.
Context {Seg : Type} `{!Segments Seg} `{!Columns Seg} `{!Searcher Seg} (HS : SearcherLaws Seg) `{!Documents Seg}.
Lemma hit_ids : (λ h : Hit, h.1.2) <$> all_hits (Seg := Seg) = omap (id_of (Seg := Seg)) (snd <$> all_hits (Seg := Seg)).
Proof using HS.
  assert (∀ l : list Hit, (∀ h, h ∈ l → id_of (Seg := Seg) h.2 = Some h.1.2) → (λ h : Hit, h.1.2) <$> l = omap (id_of (Seg := Seg)) (snd <$> l)) as Hl.
  { induction l as [|h l IH]; intros Hin; [done|]. rewrite !fmap_cons. cbn [omap list_omap]. rewrite (Hin h) by (apply elem_of_cons; by left). f_equal. apply IH. intros h' Hh'. apply Hin, elem_of_cons. by right. }
  apply Hl. intros h Hh. by apply (all_hits_elem HS).
Qed.
Lemma store_ids id_field (indexed : Document → Doc.t) (p : Doc.t → bool) m docs : holds id_field m docs → shows (Seg := Seg) id_field indexed docs →
  snd <$> all_hits (Seg := Seg) ≡ₚ addresses (Seg := Seg) p →
  (λ h : Hit, h.1.2) <$> all_hits (Seg := Seg) ≡ₚ (filter (λ e : bytes * Document, p (indexed e.2) = true) (map_to_list m)).*1.
Proof using HS.
  intros [Hd Hid] Hs Hp. rewrite hit_ids, Hp, selected_ids. unfold shows in Hs. rewrite Hs, Hd. clear Hd Hs Hp docs.
  assert (∀ l : list (bytes * Document), (∀ e, e ∈ l → texts id_field e.2 = [e.1]) →
    omap fst (filter (λ e : option bytes * Doc.t, p e.2 = true) ((λ d, (head (texts id_field d), indexed d)) <$> l.*2)) = (filter (λ e : bytes * Document, p (indexed e.2) = true) l).*1) as Hl.
  { induction l as [|[id d] l IH]; intros Hin; [done|]. rewrite !fmap_cons. pose proof (Hin (id, d) ltac:(by left)) as E. cbn [fst snd] in E. cbn [snd]. rewrite E.
    rewrite !filter_cons. cbn [snd head]. destruct (decide (p (indexed d) = true)) as [_|_]; [cbn [omap list_omap fst]; rewrite fmap_cons; cbn [fst]; f_equal|]; apply IH; intros e He; apply Hin; by right. }
  rewrite Hl; [done|]. intros [id d] He%elem_of_map_to_list. by apply Hid.
Qed.
End Hits.

Section EndToEnd.
Context `{Unicode} `{Automata} (final_analyzer : bytes → list Token.t).
Context {Seg : Type} `{!Segments Seg} `{!Columns Seg} `{!FastFields Seg} `{!Searcher Seg} `{!Counting Seg} `{!SortValues} `{!Comparators} `{!ComparatorsLaws}
  `{!CatalogSearch} `{!Layout} (parallelism : N) (longest_term : DictionaryCacheKey → N).
Context (HF : FastFieldsLaws Seg longest_term) (HS : SearcherLaws Seg) (HC : CountingLaws Seg) (HK : CatalogSearchLaws Seg longest_term).
Context `{!Dictionaries} `{!DictionariesLaws} `{!TopNComputer} `{!TopNLaws}.
Context `{!Terms Seg} `{!Documents Seg} (HT : TermsLaws Seg).
Context {D W : Type} `{!Directory D} `{!Schemas} `{!SchemasLaws} `{!IndexDirectory D} `{!Analyzers} `{!DirectoryLaws D} `{!IndexWriter D W} (id_field : N) `{!IndexWriterLaws D W id_field}.
Context (MAX_TOKEN_LEN : N) (indexed : Document → Doc.t).
End EndToEnd.

(** ** The sample index, published and searched *)
Definition letter_upsert (id : string) : Upsert.t := sample_upsert id "t".
Definition letter_batch : MutationBatch.t := MutationBatch.mk (letter_upsert <$> ["a"; "b"; "c"; "d"]%string) [].
Definition letter_writer : Writer.t DiskWriter.t :=
  (run_op (D := ListDisk) 65530 (Op.Publish (blit "1")) (run_op (D := ListDisk) 65530 (Op.Apply letter_batch) sample_writer).2).2.
Definition letter_store : Store.t :=
  let store := store_op sample_writer (Op.Apply letter_batch) (Store.mk ∅ ∅ None) in store_op sample_writer (Op.Publish (blit "1")) store.
Definition letter_indexed (d : Document) : Doc.t := sample_doc (bool_decide (texts 2 d = [blit "t"])).
Lemma letter_reach : Reach (D := ListDisk) 0 65530 letter_writer letter_store.
Proof.
  change letter_store with (store_op (run_op (D := ListDisk) 65530 (Op.Apply letter_batch) sample_writer).2 (Op.Publish (blit "1")) (store_op sample_writer (Op.Apply letter_batch) (Store.mk ∅ ∅ None))).
  eapply (Reach_done _ _ _ _ (Op.Publish (blit "1")) 1); [|exact I|vm_compute; reflexivity].
  eapply (Reach_done _ _ _ _ (Op.Apply letter_batch) 4); [exact sample_reach|by apply N.leb_le|vm_compute; reflexivity].
Qed.
Lemma letter_shows : shows (Seg := ListSegment.t) 0 letter_indexed (published (id_field := 0) (disk (id_field := 0) letter_writer.(Writer.inner))).
Proof.
  set (e := λ id : string, (Some (blit id), sample_doc true)). unfold shows.
  assert (shown (Seg := ListSegment.t) = e <$> ["a"; "d"; "b"; "c"]%string) as -> by (vm_compute; reflexivity).
  assert (((λ d, (head (texts 0 d), letter_indexed d)) <$> published (id_field := 0) (disk (id_field := 0) letter_writer.(Writer.inner))) = e <$> ["a"; "b"; "c"; "d"]%string) as -> by (vm_compute; reflexivity).
  apply fmap_Permutation. constructor. apply (Permutation_cons_append ["b"; "c"]%string "d"%string).
Qed.
Lemma whole_analyzer_ok : analyzer_ok opened_sample.(Opened.engine).(Engine.analyzer).
Proof.
  assert (∀ text, opened_sample.(Opened.engine).(Engine.analyzer) text = if decide (text = TracePlan.prefix_marker) then [] else [Token.mk 0 (lenN text) 0 text 1]) as E by (intros text; reflexivity).
  split; intros text; rewrite E; destruct (decide _); try constructor; try constructor; done.
Qed.
Lemma letter_query : ∃ b, query (Seg := ListSegment.t) word_analyzer opened_sample.(Opened.engine) opened_sample.(Opened.filter_fields) opened_sample.(Opened.filter_field_lookup) catalog_request = Ok b
  ∧ evaluates (Seg := ListSegment.t) b.(BuiltQuery.query).
Proof.
  eexists. split; [vm_compute; reflexivity|]. intros seg [->|[->|[]%not_elem_of_nil]%elem_of_cons]%elem_of_cons; vm_compute; reflexivity.
Qed.
